(* ===== verification/_CoqProject ===== *)
-Q . S2P
Prelude.v
BigInts.v
Sha256.v
Structs.v
Specifics.v
World.v
ReadTxn.v
FreeStructs.v
OpenFiles.v
BlkDat.v
Printing.v
Files.v
LevelDB.v
Indexing.v
Parser.v
Api.v
Library.v
CbString.v
LdbCoding.v
LdbCrc.v
LdbOrder.v
LdbFilter.v
LdbEnv.v
LdbRandom.v
LdbTableFormat.v
LdbFormat.v
LdbVersionEdit.v
LdbFilename.v
LdbSkip.v
LdbLog.v
LdbIter.v
LdbMem.v
LdbWrite.v
LdbRecover.v
LdbDurable.v
LdbTwoLevel.v
LdbVersion.v
LdbVersionGet.v
LdbMerge.v
LdbDbIter.v
LdbDb.v
LdbBlock.v
LdbTableBuilder.v
LdbCache.v
LdbBlockCache.v
LdbTable.v
CbWorld.v
CbLog.v
CbFiles.v
CbRules.v
CbBuild.v
CbMain.v
CbRemove.v
CbCompile.v
CbStatic.v
