(* ===== verification/Prelude.v ===== *)
(** * mlbtcc: a verified model of a library that reads Bitcoin Core's data

    mlbtcc (src/src) indexes the data directory of a Bitcoin Core node (the blk files and
    the LevelDB database blocks/index) and serves blocks, headers and statistics from it.
    src/CBuilder.c is the tool that builds it.  The database library is vendored under
    src/src/extern/leveldb-1.22.  This development translates the C code (and parts of the
    C++ of LevelDB) into executable definitions and proves what they do.

    ** The model of C

    This file: a computation returns, is undefined (type [fault]: out of bounds, NULL, an
    indeterminate value, a bad shift, signed overflow, a bad free, a loop that does not
    end), or calls [exit].  Machine integers are [Z] with [wrap]; a w-bit value satisfies
    [in_width w].  Byte sequences are lists of [Z] with [le_value] and [le_bytes].
    World.v: the library's state ([gEnv], the static table of open files, the heap, the
    streams, the file system, the console) in a state-and-error monad, with the calls of
    the C library it uses; what the platform decides (time, exhaustion of memory,
    indeterminate bytes, the shell) is the class [Platform].  CbWorld.v does the same for
    the build tool, whose state also survives [exit]: rules, flags, logger, a tree of files
    and the commands it ran; its class is [Machine].

    ** The library

    - BigInts.v (bigInts.c): varints, the base-128 integers of the index, compact sizes,
      byte order.  Decoders read encodings back, canonically; what happens on short input,
      and the encoder that writes its groups backwards.
    - Sha256.v (extern/sha256): the streaming hash refines FIPS 180-4.
    - Structs.v (include/bitcoin-structs.h): the structures and their layout.
    - Specifics.v (bitcoin-specifics.c): hexadecimal text, hashes, block headers.
    - ReadTxn.v, OpenFiles.v, BlkDat.v (blkdat.c): reading transactions, the cache of five
      open files, reading a block.  A stored block is read back field by field, XORed or
      not; the cache stays consistent and evicts the least recently used file.
    - FreeStructs.v (bitcoin-structs.c): what releasing a block frees, and what it leaks.
    - Printing.v (bitcoin-specifics.c): blocks as JSON text.
    - Files.v (files.c): wildcards, listing directories, finding a data directory.
    - LevelDB.v (leveldb.c): the C API of LevelDB as a class with the laws of its iterator;
      counting keys by their prefix, for every implementation.
    - Indexing.v (indexing.c): decoding index records, the loops over the database, the
      order of the blk files.
    - Parser.v (parser.c): the data directory, its XOR key and its status bits.
    - Api.v (API.c): the exported functions.
    - Library.v (mlbtcc.c): the end-to-end theorem: on a sound data directory [InitMLBTCC]
      succeeds, and [GetBlock] then returns the block on disk of every valid record.

    ** The build tool (CBuilder.c)

    - CbString.v: growing strings and commands.  CbLog.v: the logger.  CbFiles.v: files,
      patterns, collecting files.  CbRules.v: commands, rules, the command line, rebuilding
      itself.  CbBuild.v: compiling, linking, the rules of the project, [main].
    - CbMain.v: what whole runs keep; a dry run gives no command to the shell; the command
      line is run as its segments.  CbRemove.v: removing a directory ends and removes just
      that.  CbCompile.v, CbStatic.v: a build as the list of its actions; the commands of
      the static library.

    ** LevelDB (src/extern/leveldb-1.22)

    - LdbCoding.v (util/coding, util/logging, slice.h): fixed and variable-length integers,
      slices, decimal numbers; what is encoded is read back.
    - LdbCrc.v (util/crc32c): the checksum from tables in four strides is the bitwise
      CRC-32C at every alignment; masking.
    - LdbOrder.v (leveldb/comparator.h, util/comparator): the interface of comparators with
      its laws, the bytewise comparator as an instance.
    - LdbIter.v (leveldb/iterator.h, table/iterator, table/iterator_wrapper): the interface of
      iterators and [iterates], the relation between an iterator and a position in a list of
      entries that every implementation below refines; cleanup lists; the wrapper that
      caches keys.
    - LdbTwoLevel.v (table/two_level_iterator): an iterator over the blocks that an index
      names is a position in the concatenation of the blocks, over any implementations of
      the two iterators.
    - LdbMerge.v (table/merger): an iterator over several sources is a position in the
      sorted list of all their entries, in both directions and when they change.
    - LdbBlock.v (table/block_builder, table/block): over any comparator, the iterator of a
      block refines a position in the list of the entries that were added.
    - LdbFilter.v (util/hash, util/bloom, table/filter_block): the interface of filter
      policies with its law, Bloom filters as an instance, filter blocks over any instance:
      no key that was added is denied.
    - LdbEnv.v (status.h, util/status, util/env_posix): results; the interfaces of files as
      classes with laws, POSIX files as instances over the calls of the system, which may
      be cut short, interrupted or fail.
    - LdbRandom.v (leveldb/env.h, util/env_posix): files that are read at any place, with
      [pread] or through a memory map.
    - LdbTableFormat.v (table/format): handles and footers are read back; a stored block is
      read back, and a burst of errors in it is reported.
    - LdbTableBuilder.v (table/table_builder): building a table, over any comparator, filter
      policy, compression and file; the invariant relates the builder to the blocks written,
      the separators in the index and the entries of the block at hand.
    - LdbCache.v (util/cache): the cache of least recently used entries, pointer by pointer:
      circular lists, chained buckets that are rehashed, reference counts.  It refines a
      reference cache of two plain lists, for any clients that release only what they hold;
      from that follow when handles live, what is found and how full the cache gets.
    - LdbBlockCache.v (leveldb/cache.h, table/table): what reading tables asks of a cache of
      blocks, as a class with laws, and the sharded cache of LdbCache.v as its instance.
    - LdbTable.v (table/table): opening a table, its iterator and its lookups, over any lawful
      cache of blocks, whose contents the tables that share it keep apart; what was built is
      read back in order, and a lookup gives exactly what the limits of the blocks, the filter
      and the entries say.
    - LdbLog.v (db/log_writer, db/log_reader): the log format as an inductive relation; the
      writer writes it, the reader reads it back, also from a file that ends early; reading
      any file ends.
    - LdbFormat.v (db/dbformat): internal keys; their comparator is lawful over any lawful
      comparator of user keys, their filter policy over any lawful policy.
    - LdbVersionEdit.v (db/version_edit): changes to the set of files, as records of the
      manifest: what is written is read back, and whatever is read is well formed.
    - LdbFilename.v (db/filename): the names of the files of a database are parsed back.
    - LdbVersion.v (db/version_set): the files of a version, level by level, as values; the
      search in a sorted level, the closure of a range in level zero, the level where a table
      in memory goes.  [file_ok], [disjoint] and [version_ok] are what the code assumes.
    - LdbVersionGet.v (db/version_set): lookups in a version, over the table cache as an
      interface.  [version_holds] relates a version to the entries of its tables - newer
      files and lower levels have the newer entries - and [seen] says what a lookup is to find.
    - LdbSkip.v (db/skiplist, util/random): the skip list, over any type of keys with an
      order, is a sorted list.  An insertion is a sequence of stores and a search one of
      loads: a step relation interleaves them, and a rule induction shows that a reader
      gets the right node and finishes wherever the writer is.
    - LdbMem.v (db/memtable, db/write_batch): batches and their replay to any handler; the
      table in memory answers with the last write up to a sequence number, and its iterator
      refines a position in the sorted internal keys.
    - LdbDbIter.v (db/db_iter): the iterator of the user, over any iterator of internal keys,
      is a position in the sorted list of what the database holds at a sequence number.
    - LdbWrite.v (db/db_impl, Write): the queue of writers.  The one at the front merges the
      batches behind its own, logs them as one record and puts them into the table in memory;
      a step relation interleaves it with arriving writers and background work, and an
      invariant by rule induction relates the log, the tables and the answers.
    - LdbRecover.v (db/db_impl, RecoverLogFile): a log is read back into tables, as far as
      its records are complete; what a log loses that is used again behind a torn record.
    - LdbDurable.v (db/db_impl: CompactMemTable, DeleteObsoleteFiles, Recover): the queue of
      writers with its files.  A step relation adds to that of LdbWrite.v the writing of the
      full table, the edit of the descriptor, its commit or failure and the deletion of logs;
      its invariant says where the full table is: in memory and in the log before the current
      one, or in a file that the descriptor names.  Stop it anywhere, with only the
      descriptor, its tables and the logs left: [Recover] rebuilds what was answered with OK.
    - LdbDb.v (db/db_impl, Get and NewIterator): at any moment of the queue of writers, reading
      shows what was answered with OK, and a snapshot what was when it was taken; over what
      the files answer, as an interface.

    ** Fuel and bounds

    A loop whose recursion is not structural takes fuel; running out is the fault
    [Diverges], so a theorem that gives a result also shows that the fuel is enough.  The
    bounds: five or ten rounds for the groups of a 32- or 64-bit varint, 34 doublings of a
    32-bit size, the two lengths for a wildcard, the depth of the tree for removing a
    directory (the tool has 4096, what a path of 4096 bytes can reach), the number of
    arguments for the command line, the entries of the database for its iterator.

    ** Not modelled

    - test/main.c (a test program), and the structures for the indexes that nothing uses
      (TxIndex, ChainstateIndex); FReadXor is declared and never defined.
    - The Windows branches, permissions, links and changes to a directory while it is read;
      ferror is false; the output of child processes.
    - Threads of the build tool: they call functions through pointers of other types, which
      is undefined, and the model says so.
    - Of LevelDB: the environment apart from its files (threads, locks, directories), the
      sequence of versions with its manifest and the compaction of files, options,
      benchmarks, tests and bindings.  LevelDB.v states the interface the
      library relies on.  Of the descriptor, the numbers of the logs, the last sequence number
      and the tables are one state, edited at once: its own log, VersionSet::Recover, NewDB and
      DB::Open around Recover are not translated.  A crash is that of the process: what was
      handed to the system is not lost.
    - Limits of the models: the atomic operations of the skip list are sequentially consistent;
      the iterator of a table runs over the cache as it is when it is created; Get and the
      creation of an iterator happen at one moment; the compression library is a parameter;
      the memory that a table in memory takes from its arena is not counted.
*)

From stdpp Require Export base gmap list strings pretty sorting.
From Stdlib Require Export Ascii ZArith Lia.

#[global] Open Scope Z_scope.

Create HintDb mlbtcc.
Create Rewrite HintDb mlbtcc.

(** ** Outcomes of a C computation

    A piece of C either returns, does something the C standard leaves undefined
    (or that never returns), or ends the process with [exit]. *)
Inductive fault : Type :=
  | OutOfBounds        (* a read or write outside the object *)
  | NullPointer        (* a NULL pointer is dereferenced *)
  | Uninitialised      (* an indeterminate value decides what happens next *)
  | BadShift           (* a shift count or a signed shift result out of range *)
  | SignedOverflow     (* an [int] operation that does not fit *)
  | BadFree            (* [free]/[fclose] of something that is not live *)
  | Diverges.          (* a loop that never ends *)

Inductive outcome (A : Type) : Type :=
  | Ok (a : A)
  | Fault (f : fault)
  | Exits (code : Z).
Arguments Ok {A} a.
Arguments Fault {A} f.
Arguments Exits {A} code.

#[export] Instance fault_eq_dec : EqDecision fault.
Proof. solve_decision. Defined.

#[export] Instance outcome_eq_dec `{EqDecision A} : EqDecision (outcome A).
Proof. solve_decision. Defined.

#[export] Instance outcome_ret : MRet outcome := @Ok.
#[export] Instance outcome_bind : MBind outcome := λ A B f m,
  match m with Ok a => f a | Fault e => Fault e | Exits c => Exits c end.
#[export] Instance outcome_fmap : FMap outcome := λ A B f m,
  match m with Ok a => Ok (f a) | Fault e => Fault e | Exits c => Exits c end.

Lemma outcome_bind_ok {A B} (f : A → outcome B) a : (Ok a ≫= f) = f a.
Proof. reflexivity. Qed.

Lemma outcome_bind_assoc {A B C} (m : outcome A) (f : A → outcome B) (g : B → outcome C) :
  ((m ≫= f) ≫= g) = (m ≫= λ a, f a ≫= g).
Proof. by destruct m. Qed.

Lemma outcome_bind_inv {A B} (m : outcome A) (f : A → outcome B) b :
  (m ≫= f) = Ok b ↔ ∃ a, m = Ok a ∧ f a = Ok b.
Proof.
  destruct m as [a|e|c]; cbn; split.
  - eauto.
  - by intros (a' & [= ->] & H).
  - done.
  - by intros (? & ? & ?).
  - done.
  - by intros (? & ? & ?).
Qed.

(** An assertion of the model: the computation faults unless the test holds. *)
Definition require (b : bool) (f : fault) : outcome unit := if b then Ok () else Fault f.

(** ** Machine integers

    A [w]-bit unsigned integer is a [Z] in [0, 2^w); [wrap w] is the conversion to it. *)
Definition wrap (w x : Z) : Z := x mod 2 ^ w.
Abbreviation u8 := (wrap 8).
Abbreviation u16 := (wrap 16).
Abbreviation u32 := (wrap 32).
Abbreviation u64 := (wrap 64).

(** Conversion to a signed [w]-bit integer (two's complement). *)
Definition swrap (w x : Z) : Z := (x + 2 ^ (w - 1)) mod 2 ^ w - 2 ^ (w - 1).
Abbreviation s32 := (swrap 32).

Definition fits_int (x : Z) : bool := (- 2 ^ 31 <=? x) && (x <? 2 ^ 31).

(** The result of an [int] operation: undefined when it does not fit. *)
Definition int_result (x : Z) : outcome Z :=
  if fits_int x then Ok x else Fault SignedOverflow.

(** [x << s] for an operand [x] promoted to [int]. *)
Definition shl_int (x s : Z) : outcome Z :=
  if (0 <=? s) && (s <? 32) && (Z.shiftl x s <? 2 ^ 31)
  then Ok (Z.shiftl x s) else Fault BadShift.

Definition in_width (w x : Z) : Prop := 0 ≤ x < 2 ^ w.
Abbreviation is_byte := (in_width 8).
Abbreviation bytes := (Forall is_byte).

#[export] Instance in_width_dec w x : Decision (in_width w x).
Proof. unfold in_width. apply _. Defined.

Lemma wrap_small w x : in_width w x → wrap w x = x.
Proof. unfold in_width, wrap. intros. apply Z.mod_small. lia. Qed.

Lemma s32_small x : 0 ≤ x < 2 ^ 31 → s32 x = x.
Proof. intros Hx. unfold swrap. rewrite Z.mod_small by lia. lia. Qed.

Lemma int_result_ok x : - 2 ^ 31 ≤ x < 2 ^ 31 → int_result x = Ok x.
Proof.
  intros Hx. unfold int_result, fits_int.
  by rewrite (proj2 (Z.leb_le _ _)), (proj2 (Z.ltb_lt _ _)) by lia.
Qed.

Lemma wrap_add_l w x y : wrap w (wrap w x + y) = wrap w (x + y).
Proof. unfold wrap. by rewrite Zplus_mod_idemp_l. Qed.

Lemma wrap_in_width w x : 0 ≤ w → in_width w (wrap w x).
Proof. intros. apply Z.mod_pos_bound. by apply Z.pow_pos_nonneg. Qed.

Lemma in_width_mono w w' x : 0 ≤ w ≤ w' → in_width w x → in_width w' x.
Proof.
  unfold in_width. intros Hw [H1 H2]. split; [done|].
  eapply Z.lt_le_trans; [done|]. apply Z.pow_le_mono_r; lia.
Qed.

Lemma wrap_wrap_le w w' x : 0 ≤ w ≤ w' → wrap w (wrap w' x) = wrap w x.
Proof.
  intros [H0 Hw]. unfold wrap. replace w' with (w + (w' - w)) by lia.
  rewrite Z.pow_add_r by lia. apply Z.mod_mod_divide, Z.divide_factor_l.
Qed.

(** ** Sorted lists *)

Lemma sorted_from_lookup {A} (R : A → A → Prop) l :
  (∀ i j a b, (i < j)%nat → l !! i = Some a → l !! j = Some b → R a b) → StronglySorted R l.
Proof.
  induction l as [|x l IH]; intros HR; constructor.
  - apply IH. intros i j a b Hlt Ha Hb. apply (HR (S i) (S j)); [lia|done|done].
  - apply Forall_lookup. intros j b Hb. apply (HR 0%nat (S j)); [lia|done|done].
Qed.

(** ** Byte sequences *)

(** Number of elements, in [Z]. *)
Abbreviation len l := (Z.of_nat (length l)).

(** The little-endian value of a byte sequence, and the [n] low bytes of a value. *)
Fixpoint le_value (l : list Z) : Z :=
  match l with [] => 0 | b :: l => b + 256 * le_value l end.

Fixpoint le_bytes (n : nat) (x : Z) : list Z :=
  match n with O => [] | S n => x mod 256 :: le_bytes n (x / 256) end.

Lemma length_le_bytes n x : length (le_bytes n x) = n.
Proof. revert x. induction n; intros x; simpl; auto. Qed.

Lemma le_bytes_bytes n x : bytes (le_bytes n x).
Proof.
  revert x. induction n as [|n IH]; intros x; simpl; constructor; auto.
  apply Z.mod_pos_bound. lia.
Qed.

Lemma le_value_bytes n x : le_value (le_bytes n x) = x mod 256 ^ Z.of_nat n.
Proof.
  revert x. induction n as [|n IH]; intros x; cbn [le_bytes le_value].
  - by rewrite Z.mod_1_r.
  - rewrite IH, Nat2Z.inj_succ, Z.pow_succ_r by lia.
    rewrite Z.rem_mul_r by (try apply Z.pow_nonzero; lia). done.
Qed.

Lemma le_value_bound l : bytes l → 0 ≤ le_value l < 256 ^ len l.
Proof.
  induction 1 as [|b l Hb Hl IH]; cbn [le_value length]; [done|].
  rewrite Nat2Z.inj_succ, Z.pow_succ_r by lia. destruct Hb. nia.
Qed.

Lemma le_bytes_value l : bytes l → le_bytes (length l) (le_value l) = l.
Proof.
  induction 1 as [|b l Hb Hl IH]; [done|].
  cbn [le_value length le_bytes]. f_equal.
  - rewrite Z.mul_comm, Z_mod_plus_full. apply Z.mod_small. apply Hb.
  - rewrite Z.mul_comm, Z.div_add, Z.div_small, Z.add_0_l by (try apply Hb; lia). done.
Qed.

Lemma le_value_bytes_small n x : 0 ≤ x < 256 ^ Z.of_nat n → le_value (le_bytes n x) = x.
Proof. intros. rewrite le_value_bytes. by apply Z.mod_small. Qed.

Lemma le_bytes_4 x :
  le_bytes 4 x = [x mod 256; x / 2 ^ 8 mod 256; x / 2 ^ 16 mod 256; x / 2 ^ 24 mod 256].
Proof.
  cbn [le_bytes]. by rewrite !Z.div_div by lia.
Qed.

Lemma le_bytes_8 x :
  le_bytes 8 x = [x mod 256; x / 2 ^ 8 mod 256; x / 2 ^ 16 mod 256; x / 2 ^ 24 mod 256;
                  x / 2 ^ 32 mod 256; x / 2 ^ 40 mod 256; x / 2 ^ 48 mod 256; x / 2 ^ 56 mod 256].
Proof. cbn [le_bytes]. by rewrite !Z.div_div by lia. Qed.

(** Reading [n] bytes of a buffer at an offset, and one byte of it. *)
Definition read_at (buf : list Z) (off n : Z) : outcome (list Z) :=
  if (0 <=? off) && (0 <=? n) && (off + n <=? len buf)
  then Ok (take (Z.to_nat n) (drop (Z.to_nat off) buf)) else Fault OutOfBounds.

Definition byte_at (buf : list Z) (i : Z) : outcome Z :=
  if 0 <=? i then match buf !! Z.to_nat i with Some b => Ok b | None => Fault OutOfBounds end
  else Fault OutOfBounds.

Lemma read_at_app (pre mid post : list Z) off n :
  off = len pre → n = len mid → read_at (pre ++ mid ++ post) off n = Ok mid.
Proof.
  intros -> ->. unfold read_at.
  rewrite !length_app, !Nat2Z.id, drop_app_length, take_app_length.
  repeat rewrite (proj2 (Z.leb_le _ _)) by lia. done.
Qed.

Lemma read_at_head (mid post : list Z) n :
  n = len mid → read_at (mid ++ post) 0 n = Ok mid.
Proof. intros. by apply (read_at_app []). Qed.

Lemma read_at_past buf off n : len buf < off + n → read_at buf off n = Fault OutOfBounds.
Proof. intros Hlt. unfold read_at. by rewrite (proj2 (Z.leb_gt _ _) Hlt), andb_false_r. Qed.

Lemma read_at_length buf off n l : read_at buf off n = Ok l → len l = n.
Proof.
  unfold read_at. destruct (_ && _) eqn:E; [|done]. intros [= <-].
  rewrite !andb_true_iff, !Z.leb_le in E. rewrite length_take, length_drop. lia.
Qed.

Lemma byte_at_app (l r : list Z) x i : i = len l → byte_at (l ++ x :: r) i = Ok x.
Proof.
  intros ->. unfold byte_at. rewrite (proj2 (Z.leb_le _ _)) by lia.
  by rewrite Nat2Z.id, lookup_app_r, Nat.sub_diag by lia.
Qed.

(** ** Bit operations as arithmetic *)

(** A fact about bytes that a boolean test decides holds when it holds of all 256. *)
Lemma byte_forall (P : Z → bool) :
  forallb P (map Z.of_nat (seq 0 256)) = true → ∀ b, is_byte b → P b = true.
Proof.
  rewrite forallb_forall. intros H b Hb. apply H, in_map_iff.
  exists (Z.to_nat b). unfold in_width in Hb. rewrite in_seq. lia.
Qed.

Lemma land_shiftl_low n a b : 0 ≤ n → in_width n a → Z.land a (Z.shiftl b n) = 0.
Proof.
  intros Hn Ha. apply Z.bits_inj'. intros i Hi. rewrite Z.land_spec, Z.bits_0.
  destruct (Z.lt_ge_cases i n).
  - rewrite Z.shiftl_spec_low by lia. by rewrite andb_false_r.
  - unfold in_width in Ha.
    rewrite (proj1 (Z.bounded_iff_bits_nonneg n a Hn (proj1 Ha)) (proj2 Ha)) by lia. done.
Qed.

Lemma lor_shiftl n a b : 0 ≤ n → in_width n a → Z.lor a (Z.shiftl b n) = a + b * 2 ^ n.
Proof.
  intros Hn Ha. pose proof (Z.add_lor_land a (Z.shiftl b n)) as H.
  rewrite land_shiftl_low, Z.shiftl_mul_pow2 in * by done. lia.
Qed.

Lemma lor_shiftl_comm n a b : 0 ≤ n → in_width n a → Z.lor (Z.shiftl b n) a = b * 2 ^ n + a.
Proof. intros. rewrite Z.lor_comm, lor_shiftl by done. lia. Qed.

Lemma land_0x7F x : Z.land x 0x7F = x mod 128.
Proof. exact (Z.land_ones x 7 ltac:(lia)). Qed.

Lemma land_0xFF x : Z.land x 0xFF = x mod 256.
Proof. exact (Z.land_ones x 8 ltac:(lia)). Qed.

(** Bit 7 of a byte: the continuation bit of the variable-length integers. *)
Lemma land_0x80 b : is_byte b → (Z.land b 0x80 =? 0) = (b <? 128).
Proof.
  intros Hb. apply eqb_prop.
  apply (byte_forall (λ b, Bool.eqb (Z.land b 0x80 =? 0) (b <? 128))); [by vm_compute|done].
Qed.

Lemma lor_0x80 x : 0 ≤ x < 128 → Z.lor x 0x80 = x + 128.
Proof. intros. exact (lor_shiftl 7 x 1 ltac:(lia) H). Qed.

#[export] Hint Rewrite land_0x7F land_0xFF : mlbtcc.

(** ** Lists *)

Lemma fold_left_map {A B C} (f : A → C → A) (g : B → C) l a :
  fold_left f (map g l) a = fold_left (λ a x, f a (g x)) l a.
Proof. revert a. induction l; intros; simpl; auto. Qed.

(** Two arrays read at the same indices are the zipped arrays. *)
Lemma zip_map_index `{!Inhabited A, !Inhabited B} (l1 : list A) (l2 : list B) :
  length l1 = length l2 →
  zip l1 l2 = map (λ i, (l1 !!! i, l2 !!! i)) (seq 0 (length l1)).
Proof.
  revert l2. induction l1 as [|x l1 IH]; intros [|y l2] Hlen; try done.
  cbn [length seq map zip zip_with]. injection Hlen as Hlen.
  rewrite <- seq_shift, map_map. f_equal. by apply IH.
Qed.

(** ** Strings *)

Lemma length_sapp (s t : string) : String.length (s +:+ t) = (String.length s + String.length t)%nat.
Proof. induction s as [|c s IH]; [done|]. change (String c s +:+ t) with (String c (s +:+ t)). cbn. by rewrite IH. Qed.

Lemma sapp_nil (s : string) : s +:+ EmptyString = s.
Proof. induction s as [|c s IH]; [done|]. change (String c s +:+ EmptyString) with (String c (s +:+ EmptyString)). by rewrite IH. Qed.

Lemma sapp_assoc (s t u : string) : s +:+ (t +:+ u) = (s +:+ t) +:+ u.
Proof.
  induction s as [|c s IH]; [done|].
  change (String c s +:+ (t +:+ u)) with (String c (s +:+ (t +:+ u))). by rewrite IH.
Qed.

(** ** Automation *)

#[export] Hint Resolve wrap_in_width le_bytes_bytes : mlbtcc.
#[export] Hint Rewrite length_le_bytes : mlbtcc.

Ltac split_bool :=
  repeat match goal with
  | H : _ && _ = true |- _ => apply andb_true_iff in H; destruct H
  | H : _ || _ = false |- _ => apply orb_false_iff in H; destruct H
  | H : (_ <=? _) = true |- _ => apply Z.leb_le in H
  | H : (_ <=? _) = false |- _ => apply Z.leb_gt in H
  | H : (_ <? _) = true |- _ => apply Z.ltb_lt in H
  | H : (_ <? _) = false |- _ => apply Z.ltb_ge in H
  | H : (_ =? _) = true |- _ => apply Z.eqb_eq in H
  | H : (_ =? _) = false |- _ => apply Z.eqb_neq in H
  | H : negb _ = true |- _ => apply negb_true_iff in H
  | H : negb _ = false |- _ => apply negb_false_iff in H
  end.

(** Decide the integer tests of a goal with [lia]. *)
Ltac decide_test :=
  match goal with
  | |- context [?a <=? ?b] =>
      first [rewrite (proj2 (Z.leb_le a b)) by lia | rewrite (proj2 (Z.leb_gt a b)) by lia]
  | |- context [?a <? ?b] =>
      first [rewrite (proj2 (Z.ltb_lt a b)) by lia | rewrite (proj2 (Z.ltb_ge a b)) by lia]
  | |- context [?a =? ?b] =>
      first [rewrite (proj2 (Z.eqb_eq a b)) by lia | rewrite (proj2 (Z.eqb_neq a b)) by lia]
  end.
Ltac decide_tests := repeat (decide_test; cbn [andb orb negb]).

(** The elements of an explicit list. *)
Ltac list_cases H :=
  repeat (apply elem_of_cons in H as [H|H]; [simplify_eq|]); try (by apply not_elem_of_nil in H).

(** [lia] with [div] and [mod] by constants. *)
Ltac lia_mod := Z.div_mod_to_equations; lia.

(** Evaluate reads at literal indices of explicit byte sequences. *)
Ltac eval_byte_at :=
  rewrite ?outcome_bind_ok;
  try match goal with
  | |- context [byte_at ?l ?i] =>
      let r := eval hnf in (byte_at l i) in
      lazymatch r with Ok _ => change (byte_at l i) with r end
  end;
  rewrite ?outcome_bind_ok.
