(* ===== verification/BigInts.v ===== *)
(** * bigInts.c: variable-length integers and byte order

    Every encoder returns the bytes it stores at [output] (their number is the
    C return value); every decoder reads a byte sequence and faults past its end. *)

From S2P Require Import Prelude.

(** ** Base-128 varints of 32-bit integers *)

(** The [while (value >= 0x80)] loop; [fuel] bounds the number of bytes stored. *)
Fixpoint VarintEncode_loop (fuel : nat) (value : Z) : option (list Z) :=
  match fuel with
  | O => None
  | S fuel =>
      if 0x80 <=? value then
        l ← VarintEncode_loop fuel (Z.shiftr value 7);
        Some (u8 (Z.lor (Z.land value 0x7F) 0x80) :: l)
      else Some [u8 value]
  end.

(** A 32-bit value has at most five groups of seven bits. *)
Definition VarintEncode (value : Z) : option (list Z) := VarintEncode_loop 5 value.

Fixpoint VarintDecode_loop (input : list Z) (result shift i : Z) : outcome (Z * Z) :=
  match input with
  | [] => Fault OutOfBounds
  | byte :: input =>
      if negb (Z.land byte 0x80 =? 0) then
        x ← shl_int (Z.land byte 0x7F) shift;
        VarintDecode_loop input (Z.lor result x) (shift + 7) (i + 1)
      else
        x ← shl_int byte shift;
        Ok (Z.lor result x, i + 1)
  end.

(** The value stored through [output] (nothing when it is NULL) and the number of
    bytes read. *)
Definition VarintDecode (input : list Z) (output_null : bool) : outcome (option Z * Z) :=
  '(result, i) ← VarintDecode_loop input 0 0 0;
  Ok (if output_null then None else Some result, i).

(** ** PrintByteString *)

Definition hex_digit_upper (d : Z) : ascii :=
  ascii_of_N (Z.to_N (if d <? 10 then 48 + d else 55 + d)).

(** ["%02X"] of one byte. *)
Definition printf_02X (b : Z) : string :=
  String (hex_digit_upper (b / 16)) (String (hex_digit_upper (b mod 16)) EmptyString).

Fixpoint PrintByteString (l : list Z) : string :=
  match l with [] => EmptyString | b :: l => printf_02X b +:+ PrintByteString l end.

(** ** Byte order of 32-bit integers *)

Definition ConvertUint32ToUint8Array (value : Z) : list Z :=
  [ Z.land (Z.shiftr value 24) 0xFF; Z.land (Z.shiftr value 16) 0xFF;
    Z.land (Z.shiftr value 8) 0xFF; Z.land value 0xFF ].

Definition ChangeEndiannessUint32 (value : Z) : Z :=
  Z.lor (Z.lor (Z.lor
    (Z.land (Z.shiftr value 24) 0x000000FF)
    (Z.land (Z.shiftr value 8) 0x0000FF00))
    (Z.land (u32 (Z.shiftl value 8)) 0x00FF0000))
    (Z.land (u32 (Z.shiftl value 24)) 0xFF000000).

(** ** Bitcoin's base-128 integers *)

(** The bytes pushed on [buffer], first pushed first. *)
Fixpoint EncodeVarint128_loop (fuel : nat) (value : Z) : option (list Z) :=
  match fuel with
  | O => None
  | S fuel =>
      if 0x7F <? value then
        l ← EncodeVarint128_loop fuel (Z.shiftr value 7 - 1);
        Some (u8 (Z.lor (Z.land value 0x7F) 0x80) :: l)
      else Some [u8 (Z.land value 0x7F)]
  end.

(** [U8 buffer[10]] bounds the loop; the bytes are stored in reverse order. *)
Definition EncodeVarint128 (value : Z) : option (list Z) :=
  reverse <$> EncodeVarint128_loop 10 value.

Fixpoint DecodeVarint128_loop (data : list Z) (value n : Z) : outcome (Z * Z) :=
  match data with
  | [] => Fault OutOfBounds
  | byte :: data =>
      let value := Z.lor (u64 (Z.shiftl value 7)) (Z.land byte 0x7F) in
      if negb (Z.land byte 0x80 =? 0)
      then DecodeVarint128_loop data (u64 (value + 1)) (n + 1)
      else Ok (value, n + 1)
  end.

(** The value stored and the number of bytes read. *)
Definition DecodeVarint128 (data : list Z) : outcome (Z * Z) := DecodeVarint128_loop data 0 0.

(** ** Compact sizes *)

Definition CompactSizeEncode (value : Z) : list Z :=
  if value <=? 252 then [u8 value]
  else if value <=? 0xFFFF then
    [0xFD; u8 (Z.land value 0xFF); u8 (Z.land (Z.shiftr value 8) 0xFF)]
  else if value <=? 0xFFFFFFFF then
    [0xFE; u8 (Z.land value 0xFF); u8 (Z.land (Z.shiftr value 8) 0xFF);
     u8 (Z.land (Z.shiftr value 16) 0xFF); u8 (Z.land (Z.shiftr value 24) 0xFF)]
  else
    [0xFF; u8 (Z.land value 0xFF); u8 (Z.land (Z.shiftr value 8) 0xFF);
     u8 (Z.land (Z.shiftr value 16) 0xFF); u8 (Z.land (Z.shiftr value 24) 0xFF);
     u8 (Z.land (Z.shiftr value 32) 0xFF); u8 (Z.land (Z.shiftr value 40) 0xFF);
     u8 (Z.land (Z.shiftr value 48) 0xFF); u8 (Z.land (Z.shiftr value 56) 0xFF)].

(** [data = None] and [value = None] are NULL pointers; [value = Some v] points to an
    object holding [v].  The result is the return value and the object afterwards. *)
Definition CompactSizeDecode (data : option (list Z)) (dataSize : Z) (value : option Z)
    : outcome (Z * option Z) :=
  match data, value with
  | Some data, Some old =>
      if dataSize =? 0 then Ok (0, Some 0) else
      first ← byte_at data 0;
      if first <=? 0xFC then Ok (1, Some first)
      else if first =? 0xFD then
        if dataSize <? 3 then Ok (dataSize, Some old) else
        b1 ← byte_at data 1; b2 ← byte_at data 2;
        Ok (3, Some (Z.lor b1 (Z.shiftl b2 8)))
      else if first =? 0xFE then
        if dataSize <? 5 then Ok (dataSize, Some old) else
        b1 ← byte_at data 1; b2 ← byte_at data 2; b3 ← byte_at data 3; b4 ← byte_at data 4;
        Ok (5, Some (Z.lor (Z.lor (Z.lor b1 (Z.shiftl b2 8)) (Z.shiftl b3 16))
                           (Z.shiftl b4 24)))
      else
        if dataSize <? 9 then Ok (dataSize, Some old) else
        b1 ← byte_at data 1; b2 ← byte_at data 2; b3 ← byte_at data 3; b4 ← byte_at data 4;
        b5 ← byte_at data 5; b6 ← byte_at data 6; b7 ← byte_at data 7; b8 ← byte_at data 8;
        Ok (9, Some (Z.lor (Z.lor (Z.lor (Z.lor (Z.lor (Z.lor (Z.lor b1 (Z.shiftl b2 8))
                  (Z.shiftl b3 16)) (Z.shiftl b4 24)) (Z.shiftl b5 32))
                  (Z.shiftl b6 40)) (Z.shiftl b7 48)) (Z.shiftl b8 56)))
  | _, Some _ => Ok (0, Some 0)
  | _, None => Ok (0, None)
  end.

(** ** Properties *)

(** One group of seven bits with its continuation bit. *)
Lemma group_byte x : 0 ≤ x → u8 (Z.lor (Z.land x 0x7F) 0x80) = x mod 128 + 128.
Proof.
  intros Hx. pose proof (Z.mod_pos_bound x 128 ltac:(lia)).
  rewrite land_0x7F, lor_0x80 by done. apply wrap_small. unfold in_width. lia.
Qed.

Lemma group_mod r : 0 ≤ r < 128 → (r + 128) mod 128 = r.
Proof.
  intros. by rewrite <- Z.add_mod_idemp_r, Z_mod_same_full, Z.add_0_r, Z.mod_small.
Qed.

Lemma shiftr_7 x : Z.shiftr x 7 = x / 128.
Proof. by rewrite Z.shiftr_div_pow2. Qed.

Lemma continues b : is_byte b → negb (Z.land b 0x80 =? 0) = (128 <=? b).
Proof. intros. rewrite land_0x80 by done. by rewrite Z.leb_antisym. Qed.

Lemma VarintEncode_loop_total fuel v :
  0 ≤ v < 128 ^ Z.of_nat (S fuel) →
  ∃ l, VarintEncode_loop (S fuel) v = Some l ∧ (1 ≤ length l ≤ S fuel)%nat ∧ bytes l.
Proof.
  revert v. induction fuel as [|fuel IH]; intros v Hv.
  - change (128 ^ Z.of_nat 1) with 128 in Hv. cbn [VarintEncode_loop]. decide_tests.
    exists [u8 v]. repeat split; simpl; try lia. repeat constructor; apply wrap_in_width; lia.
  - rewrite Nat2Z.inj_succ, Z.pow_succ_r in Hv by lia.
    cbn [VarintEncode_loop]. destruct (0x80 <=? v) eqn:E; split_bool.
    + destruct (IH (Z.shiftr v 7)) as (l & Hl & Hlen & Hb).
      { rewrite shiftr_7. split; [apply Z.div_pos; lia|].
        apply Z.div_lt_upper_bound; lia. }
      cbn [VarintEncode_loop] in Hl. rewrite Hl. cbn. eexists. split; [done|].
      split; [cbn; lia|]. constructor; [apply wrap_in_width; lia|done].
    + exists [u8 v]. repeat split; simpl; try lia. repeat constructor; apply wrap_in_width; lia.
Qed.

(** One iteration of the decoder on a byte with its continuation bit set. *)
Lemma VarintDecode_loop_more r rest result shift i :
  0 ≤ r < 128 → 0 ≤ shift ≤ 24 → in_width shift result →
  VarintDecode_loop (r + 128 :: rest) result shift i =
    VarintDecode_loop rest (result + r * 2 ^ shift) (shift + 7) (i + 1).
Proof.
  intros Hr Hs Hres. cbn [VarintDecode_loop].
  rewrite continues by (unfold in_width; lia). decide_tests.
  rewrite land_0x7F, group_mod by lia.
  assert (2 ^ shift ≤ 2 ^ 24) by (apply Z.pow_le_mono_r; lia).
  unfold shl_int. rewrite Z.shiftl_mul_pow2 by lia.
  rewrite !(proj2 (Z.leb_le _ _)), !(proj2 (Z.ltb_lt _ _)) by nia. cbn [andb].
  rewrite outcome_bind_ok, <- (Z.shiftl_mul_pow2 r shift), lor_shiftl by (done || lia).
  by rewrite Z.shiftl_mul_pow2 by lia.
Qed.

(** The last byte: the shift stays within [int] for the low [31 - shift] bits only. *)
Lemma VarintDecode_loop_last v rest result shift i :
  0 ≤ v < 128 → 0 ≤ shift ≤ 31 → in_width shift result →
  VarintDecode_loop (v :: rest) result shift i =
    if v <? 2 ^ (31 - shift) then Ok (result + v * 2 ^ shift, i + 1) else Fault BadShift.
Proof.
  intros Hv Hs Hres. cbn [VarintDecode_loop].
  rewrite continues by (unfold in_width; lia). decide_tests.
  unfold shl_int. rewrite Z.shiftl_mul_pow2 by lia.
  rewrite (proj2 (Z.leb_le 0 shift)), (proj2 (Z.ltb_lt shift 32)) by lia. cbn [andb].
  replace (v * 2 ^ shift <? 2 ^ 31) with (v <? 2 ^ (31 - shift)).
  - destruct (v <? _); [|done].
    by rewrite outcome_bind_ok, <- (Z.shiftl_mul_pow2 v shift), lor_shiftl,
      Z.shiftl_mul_pow2 by (done || lia).
  - apply eq_iff_eq_true. rewrite !Z.ltb_lt.
    replace (2 ^ 31) with (2 ^ (31 - shift) * 2 ^ shift)
      by (rewrite <- Z.pow_add_r by lia; f_equal; lia).
    apply Z.mul_lt_mono_pos_r. by apply Z.pow_pos_nonneg; lia.
Qed.

Lemma div_128_lt v e : 7 ≤ e → (v / 128 < 2 ^ (e - 7) ↔ v < 2 ^ e).
Proof.
  intros He. replace (2 ^ e) with (128 * 2 ^ (e - 7)).
  - split; intros.
    + pose proof (Z.div_mod v 128 ltac:(lia)). pose proof (Z.mod_pos_bound v 128). nia.
    + apply Z.div_lt_upper_bound; lia.
  - change 128 with (2 ^ 7). rewrite <- Z.pow_add_r by lia. f_equal. lia.
Qed.

(** The decoder's loop on the encoding of [v], from any accumulated [result]. *)
Lemma VarintDecode_loop_encoded fuel v l rest result shift i :
  VarintEncode_loop fuel v = Some l →
  0 ≤ shift ≤ 31 → 0 ≤ v < 2 ^ (32 - shift) → in_width shift result →
  VarintDecode_loop (l ++ rest) result shift i =
    if v <? 2 ^ (31 - shift) then Ok (result + v * 2 ^ shift, i + len l) else Fault BadShift.
Proof.
  revert v l result shift i. induction fuel as [|fuel IH]; [done|].
  intros v l result shift i Hl Hs Hv Hr. cbn [VarintEncode_loop] in Hl.
  destruct (0x80 <=? v) eqn:E; split_bool.
  2:{ injection Hl as <-. rewrite wrap_small by (unfold in_width; lia).
      by apply VarintDecode_loop_last; [lia|..]. }
  apply bind_Some in Hl as (l' & Hl' & [= <-]).
  pose proof (Z.mod_pos_bound v 128 ltac:(lia)) as Hm.
  assert (shift < 25).
  { enough (7 < 32 - shift) by lia. apply (Z.pow_lt_mono_r_iff 2); lia. }
  rewrite group_byte by lia. cbn [app length].
  rewrite VarintDecode_loop_more, (IH (Z.shiftr v 7) l'), shiftr_7; [|done|lia|..]; try lia.
  - replace (31 - (shift + 7)) with (31 - shift - 7) by lia.
    replace (v / 128 <? _) with (v <? 2 ^ (31 - shift)).
    2:{ apply eq_iff_eq_true. rewrite !Z.ltb_lt. symmetry. apply div_128_lt. lia. }
    destruct (v <? _); [|done]. rewrite Z.pow_add_r by lia. change (2 ^ 7) with 128.
    pose proof (Z.div_mod v 128 ltac:(lia)). f_equal. f_equal; [nia|lia].
  - rewrite shiftr_7. replace (32 - (shift + 7)) with (32 - shift - 7) by lia.
    split; [apply Z.div_pos; lia|]. apply div_128_lt; lia.
  - unfold in_width in *. rewrite Z.pow_add_r by lia. change (2 ^ 7) with 128. nia.
  - done.
Qed.

(** [VarintDecode] inverts [VarintEncode] and reads exactly the bytes it wrote, one
    to five of them, for every value below [2^31]; from [2^31] on, where the last byte
    is shifted into the sign bit of an [int], decoding the encoding is undefined. *)
Theorem Varint_roundtrip v rest :
  in_width 32 v →
  ∃ l, VarintEncode v = Some l ∧ (1 ≤ length l ≤ 5)%nat ∧
    VarintDecode (l ++ rest) false =
      if v <? 2 ^ 31 then Ok (Some v, len l) else Fault BadShift.
Proof.
  intros Hv. destruct (VarintEncode_loop_total 4 v) as (l & Hl & Hlen & _).
  { unfold in_width in Hv. change (128 ^ Z.of_nat 5) with (2 ^ 35). lia. }
  exists l. split; [done|]. split; [done|]. unfold VarintDecode.
  rewrite (VarintDecode_loop_encoded _ _ _ _ _ _ _ Hl); [|lia|done|done].
  destruct (v <? _); [|done]. cbn. f_equal. f_equal. f_equal. lia.
Qed.

Lemma Varint_roundtrip_witness :
  in_width 32 300 ∧
  ∃ l, VarintEncode 300 = Some l ∧ (1 ≤ length l ≤ 5)%nat ∧
    VarintDecode (l ++ [1]) false = if 300 <? 2 ^ 31 then Ok (Some 300, len l) else Fault BadShift.
Proof. split; [by vm_compute|]. by apply (Varint_roundtrip 300 [1]); vm_compute. Defined.

(** *** Bitcoin's base-128 integers *)

(** The format [DecodeVarint128] reads: most significant group first, every byte but the
    last with bit 7 set, and one subtracted from the higher groups at each step so that no
    value has two encodings. *)
Module Varint128.
Fixpoint encode_from (fuel : nat) (v cont : Z) : list Z :=
  match fuel with
  | O => []
  | S fuel =>
      if v <? 128 then [v + cont]
      else encode_from fuel (v / 128 - 1) 128 ++ [v mod 128 + cont]
  end.
Definition encode (v : Z) : list Z := encode_from 10 v 0.

(** The value a prefix of continued bytes stands for, without wrap-around. *)
Definition value_step (acc b : Z) : Z := acc * 128 + b mod 128 + (if b <? 128 then 0 else 1).
Definition value (l : list Z) : Z := fold_left value_step l 0.
End Varint128.

Lemma DecodeVarint128_loop_more r rest acc n :
  0 ≤ r < 128 → 0 ≤ acc → acc * 128 + r + 1 < 2 ^ 64 →
  DecodeVarint128_loop (r + 128 :: rest) acc n =
    DecodeVarint128_loop rest (acc * 128 + r + 1) (n + 1).
Proof.
  intros Hb Ha Hw.
  cbn [DecodeVarint128_loop]. rewrite continues by (unfold in_width; lia). decide_tests.
  rewrite land_0x7F, group_mod, (wrap_small 64 (Z.shiftl acc 7))
    by (unfold in_width; rewrite ?Z.shiftl_mul_pow2; lia).
  rewrite lor_shiftl_comm by (unfold in_width; lia).
  by rewrite wrap_small by (unfold in_width; lia).
Qed.

Lemma DecodeVarint128_loop_last b rest acc n :
  0 ≤ b < 128 → 0 ≤ acc → acc * 128 + b < 2 ^ 64 →
  DecodeVarint128_loop (b :: rest) acc n = Ok (acc * 128 + b, n + 1).
Proof.
  intros Hb Ha Hw. cbn [DecodeVarint128_loop].
  rewrite continues by (unfold in_width; lia). decide_tests.
  rewrite land_0x7F, Z.mod_small, (wrap_small 64 (Z.shiftl acc 7)), lor_shiftl_comm
    by (unfold in_width; rewrite ?Z.shiftl_mul_pow2; lia). done.
Qed.

Lemma Varint128_unfold fuel v cont :
  Varint128.encode_from (S fuel) v cont =
    if v <? 128 then [v + cont]
    else Varint128.encode_from fuel (v / 128 - 1) 128 ++ [v mod 128 + cont].
Proof. reflexivity. Qed.

Lemma Varint128_group v k :
  128 ≤ v → v < 128 ^ Z.of_nat (S (S k)) → 0 ≤ v / 128 - 1 < 128 ^ Z.of_nat (S k).
Proof.
  intros Hv Hlt. rewrite (Nat2Z.inj_succ (S k)), Z.pow_succ_r in Hlt by lia.
  pose proof (Z.div_le_lower_bound v 128 1 ltac:(lia) ltac:(lia)).
  pose proof (Z.div_lt_upper_bound v 128 _ ltac:(lia) Hlt). lia.
Qed.

Lemma DecodeVarint128_loop_continued k v rest n :
  0 ≤ v < 128 ^ Z.of_nat (S k) → v < 2 ^ 64 - 1 →
  DecodeVarint128_loop (Varint128.encode_from (S k) v 128 ++ rest) 0 n =
    DecodeVarint128_loop rest (v + 1) (n + len (Varint128.encode_from (S k) v 128)).
Proof.
  revert v rest n. induction k as [|k IH]; intros v rest n Hv Hw;
    rewrite Varint128_unfold; destruct (v <? 128) eqn:E; split_bool.
  2: { change (128 ^ Z.of_nat 1) with 128 in Hv. lia. }
  1,2: cbn [app length]; rewrite DecodeVarint128_loop_more by lia; f_equal; lia.
  pose proof (Varint128_group v k E (proj2 Hv)).
  pose proof (Z.mod_pos_bound v 128 ltac:(lia)). pose proof (Z.div_mod v 128 ltac:(lia)).
  rewrite <- app_assoc, IH by lia. cbn [app].
  rewrite DecodeVarint128_loop_more, length_app by lia. cbn [length]. f_equal; lia.
Qed.

Lemma DecodeVarint128_encoded v rest :
  in_width 64 v →
  DecodeVarint128 (Varint128.encode v ++ rest) = Ok (v, len (Varint128.encode v)) ∧
  (1 ≤ length (Varint128.encode v) ≤ 10)%nat.
Proof.
  intros Hv. unfold in_width in Hv.
  assert (Hlen : ∀ k v cont, (1 ≤ length (Varint128.encode_from (S k) v cont) ≤ S k)%nat).
  { induction k as [|k IH]; intros v' cont; rewrite Varint128_unfold;
      destruct (v' <? 128); rewrite ?length_app; cbn; try lia.
    specialize (IH (v' / 128 - 1) 128). cbn in IH. lia. }
  split; [|apply Hlen]. unfold Varint128.encode, DecodeVarint128.
  rewrite Varint128_unfold. destruct (v <? 128) eqn:E; split_bool.
  { cbn [app length]. rewrite DecodeVarint128_loop_last by lia. f_equal. f_equal. lia. }
  pose proof (Varint128_group v 9 E ltac:(lia)). pose proof (Z.mod_pos_bound v 128 ltac:(lia)).
  pose proof (Z.div_mod v 128 ltac:(lia)).
  change 9%nat with (S 8). rewrite <- app_assoc, DecodeVarint128_loop_continued; [|split; [lia|]|lia].
  - cbn [app]. rewrite DecodeVarint128_loop_last by lia. rewrite length_app. cbn [length].
    f_equal. f_equal; lia.
  - change (128 ^ Z.of_nat (S 8)) with (2 ^ 63). lia.
Qed.

(** C6: [DecodeVarint128] reads every 64-bit value back from its encoding in Bitcoin's
    format, whatever follows it, consumes exactly the encoding (at most ten bytes) and
    never wraps around. *)
Theorem DecodeVarint128_decodes v rest :
  in_width 64 v →
  DecodeVarint128 (Varint128.encode v ++ rest) = Ok (v, len (Varint128.encode v)) ∧
  (1 ≤ length (Varint128.encode v) ≤ 10)%nat.
Proof. apply DecodeVarint128_encoded. Qed.

Lemma DecodeVarint128_decodes_witness :
  in_width 64 16512 ∧
  DecodeVarint128 (Varint128.encode 16512 ++ [7]) = Ok (16512, len (Varint128.encode 16512)) ∧
  (1 ≤ length (Varint128.encode 16512) ≤ 10)%nat.
Proof. split; [by vm_compute|]. by apply (DecodeVarint128_decodes 16512 [7]); vm_compute. Defined.

(** The loop of [EncodeVarint128] pushes the only byte without a continuation bit last. *)
Lemma EncodeVarint128_loop_last k v :
  0 ≤ v < 128 ^ Z.of_nat (S k) →
  ∃ l b, EncodeVarint128_loop (S k) v = Some (l ++ [b]) ∧ 0 ≤ b < 128 ∧
    (length l ≤ k)%nat ∧ (v < 128 → l = [] ∧ b = v).
Proof.
  revert v. induction k as [|k IH]; intros v Hv; cbn [EncodeVarint128_loop].
  all: pose proof (Z.mod_pos_bound v 128 ltac:(lia)).
  all: destruct (0x7F <? v) eqn:E; split_bool.
  1: change (128 ^ Z.of_nat 1) with 128 in Hv; lia.
  1,3: exists [], v; rewrite land_0x7F, Z.mod_small, wrap_small by (unfold in_width; lia);
    repeat split; simpl; lia.
  pose proof (Varint128_group v k ltac:(lia) (proj2 Hv)) as Hg.
  destruct (IH (Z.shiftr v 7 - 1)) as (l & b & Hl & Hb & Hlen & _); [by rewrite shiftr_7|].
  cbn [EncodeVarint128_loop] in Hl. rewrite Hl. cbn.
  eexists (_ :: l), b. repeat split; simpl; lia.
Qed.

(** Reading back what [EncodeVarint128] wrote.  The encoder fits its ten-byte buffer
    for every 64-bit value, but it sets the continuation bit on every byte except the one
    it stores first, so [DecodeVarint128] stops after one byte: the pair is a round trip
    exactly for the values up to 127. *)
Theorem EncodeVarint128_read_back v rest :
  in_width 64 v →
  ∃ l d, EncodeVarint128 v = Some l ∧ (1 ≤ length l ≤ 10)%nat ∧
    DecodeVarint128 (l ++ rest) = Ok (d, 1) ∧ d < 128 ∧ (d = v ↔ v ≤ 127).
Proof.
  intros Hv. unfold in_width in Hv.
  destruct (EncodeVarint128_loop_last 9 v) as (l & b & Hl & Hb & Hlen & Hsmall).
  { change (128 ^ Z.of_nat 10) with (2 ^ 70). lia. }
  exists (b :: reverse l), b. unfold EncodeVarint128. rewrite Hl. cbn [fmap option_fmap option_map].
  rewrite reverse_snoc. cbn [length app]. rewrite length_reverse. repeat split; try lia.
  unfold DecodeVarint128. by rewrite DecodeVarint128_loop_last by lia.
Qed.

Lemma EncodeVarint128_read_back_witness :
  in_width 64 128 ∧
  ∃ l d, EncodeVarint128 128 = Some l ∧ (1 ≤ length l ≤ 10)%nat ∧
    DecodeVarint128 (l ++ []) = Ok (d, 1) ∧ d < 128 ∧ (d = 128 ↔ 128 ≤ 127).
Proof. split; [by vm_compute|]. by apply (EncodeVarint128_read_back 128 []); vm_compute. Defined.

Lemma value_app l b :
  Varint128.value (l ++ [b]) = Varint128.value_step (Varint128.value l) b.
Proof. unfold Varint128.value. by rewrite fold_left_app. Qed.

Lemma value_nonneg l : bytes l → 0 ≤ Varint128.value l.
Proof.
  induction l as [|b l IH] using rev_ind; [done|].
  intros [Hl _]%Forall_app. specialize (IH Hl). rewrite value_app. unfold Varint128.value_step.
  pose proof (Z.mod_pos_bound b 128 ltac:(lia)). destruct (b <? 128); lia.
Qed.

(** A non-empty run of continued bytes is the inner encoding of its value less one. *)
Lemma encode_from_value l fuel :
  Forall (λ b, 128 ≤ b < 256) l → l ≠ [] → (length l ≤ fuel)%nat →
  Varint128.encode_from fuel (Varint128.value l - 1) 128 = l.
Proof.
  revert fuel. induction l as [|b l IH] using rev_ind; [done|].
  intros fuel [Hl Hb]%Forall_app _ Hfuel. rewrite Forall_singleton in Hb.
  rewrite length_app in Hfuel. cbn in Hfuel. destruct fuel as [|fuel]; [lia|].
  assert (Hpos : 0 ≤ Varint128.value l).
  { apply value_nonneg. eapply Forall_impl; [done|]. unfold in_width. intros; simpl in *; lia. }
  assert (Hm : b mod 128 = b - 128) by lia_mod.
  rewrite Varint128_unfold, value_app. unfold Varint128.value_step. decide_tests. rewrite Hm.
  replace (Varint128.value l * 128 + (b - 128) + 1 - 1)
    with (b - 128 + Varint128.value l * 128) by lia.
  destruct (decide (l = [])) as [->|Hne].
  - change (Varint128.value []) with 0. decide_tests. cbn [app]. f_equal. lia.
  - assert (1 ≤ Varint128.value l).
    { destruct l as [|c l _] using rev_ind; [done|]. apply Forall_app in Hl as [Hl Hc].
      rewrite Forall_singleton in Hc. rewrite value_app. unfold Varint128.value_step.
      pose proof (value_nonneg l) as Hl0. decide_tests.
      assert (bytes l) by (eapply Forall_impl; [done|]; unfold in_width; intros; simpl in *; lia).
      specialize (Hl0 H). pose proof (Z.mod_pos_bound c 128 ltac:(lia)). lia. }
    decide_tests. rewrite Z.div_add, Z.mod_add, Z.div_small, Z.mod_small by lia.
    rewrite Z.add_0_l, IH by (done || lia). do 2 f_equal. lia.
Qed.

Lemma value_ge l :
  Forall (λ b, 128 ≤ b < 256) l → l ≠ [] → 128 ^ (len l - 1) ≤ Varint128.value l.
Proof.
  induction l as [|b l IH] using rev_ind; [done|]. intros [Hl Hb]%Forall_app _.
  rewrite Forall_singleton in Hb. rewrite value_app, length_app, Nat2Z.inj_add.
  unfold Varint128.value_step. cbn [length]. decide_tests.
  pose proof (Z.mod_pos_bound b 128 ltac:(lia)).
  destruct (decide (l = [])) as [->|Hne]; [change (Varint128.value []) with 0; cbn; lia|].
  specialize (IH Hl Hne).
  replace (len l + Z.of_nat 1 - 1) with (Z.succ (len l - 1)) by lia.
  rewrite Z.pow_succ_r; [lia|]. destruct l; [done|cbn [length]; lia].
Qed.

(** Bitcoin's base-128 format is canonical: every byte string that is terminated by a
    byte without continuation bit and stands for a 64-bit value is the encoding of the
    value [DecodeVarint128] reads from it, so no value has two encodings. *)
Theorem DecodeVarint128_canonical l b rest :
  Forall (λ b, 128 ≤ b < 256) l → 0 ≤ b < 128 → Varint128.value (l ++ [b]) < 2 ^ 64 →
  DecodeVarint128 (l ++ b :: rest) = Ok (Varint128.value (l ++ [b]), len l + 1) ∧
  Varint128.encode (Varint128.value (l ++ [b])) = l ++ [b].
Proof.
  intros Hl Hb Hv.
  assert (Hbytes : bytes l) by
    (eapply Forall_impl; [done|]; unfold in_width; intros; simpl in *; lia).
  pose proof (value_nonneg l Hbytes) as Hpos.
  assert (Henc : Varint128.encode (Varint128.value (l ++ [b])) = l ++ [b]).
  { rewrite value_app in Hv |- *. unfold Varint128.value_step in *.
    rewrite (Z.mod_small b) in * by lia.
    replace (b <? 128) with true in * by (symmetry; apply Z.ltb_lt; lia).
    unfold Varint128.encode. rewrite Varint128_unfold.
    destruct (decide (l = [])) as [->|Hne].
    - change (Varint128.value []) with 0. decide_tests. cbn [app]. f_equal. lia.
    - pose proof (value_ge l Hl Hne). assert (len l ≤ 9).
      { enough (len l - 1 < 9) by lia. apply (Z.pow_lt_mono_r_iff 128); lia. }
      assert (0 < 128 ^ (len l - 1)).
      { apply Z.pow_pos_nonneg; [lia|]. destruct l; [done|cbn [length]; lia]. }
      decide_tests. replace (Varint128.value l * 128 + b + 0)
        with (b + Varint128.value l * 128) by lia.
      rewrite Z.div_add, Z.mod_add, Z.div_small, Z.mod_small, Z.add_0_l by lia.
      rewrite encode_from_value by (done || lia). by rewrite Z.add_0_r. }
  split; [|done].
  assert (Hw : in_width 64 (Varint128.value (l ++ [b]))).
  { split; [|done]. apply value_nonneg. apply Forall_app. split; [done|].
    constructor; [unfold in_width; lia|done]. }
  destruct (DecodeVarint128_encoded _ rest Hw) as [Hdec _].
  rewrite Henc, <- app_assoc in Hdec. cbn [app] in Hdec. rewrite Hdec.
  rewrite length_app. cbn [length]. f_equal. f_equal. lia.
Qed.

Lemma DecodeVarint128_canonical_witness :
  DecodeVarint128 ([128; 255] ++ 5 :: [9]) = Ok (Varint128.value ([128; 255] ++ [5]), len [128; 255] + 1) ∧
  Varint128.encode (Varint128.value ([128; 255] ++ [5])) = [128; 255] ++ [5].
Proof.
  apply (DecodeVarint128_canonical [128; 255] 5 [9]).
  - repeat constructor; by vm_compute.
  - by vm_compute.
  - by vm_compute.
Defined.

(** *** Byte order *)

Lemma byte_of_shiftr x k : 0 ≤ k → Z.land (Z.shiftr x k) 0xFF = x / 2 ^ k mod 256.
Proof. intros. by rewrite land_0xFF, Z.shiftr_div_pow2. Qed.

Lemma u8_land x : u8 (Z.land x 0xFF) = Z.land x 0xFF.
Proof. rewrite land_0xFF. apply Z.mod_mod. lia. Qed.

Lemma ConvertUint32ToUint8Array_spec v :
  ConvertUint32ToUint8Array v = reverse (le_bytes 4 v).
Proof.
  rewrite le_bytes_4. unfold ConvertUint32ToUint8Array.
  by rewrite !byte_of_shiftr, land_0xFF by lia.
Qed.

(** A masked byte of a word, as a number. *)
Lemma land_byte_at x k : 0 ≤ k → Z.land x (Z.shiftl 0xFF k) = Z.shiftl (x / 2 ^ k mod 256) k.
Proof.
  intros Hk. rewrite <- land_0xFF, Z.shiftl_land, <- Z.shiftr_div_pow2 by done.
  apply Z.bits_inj'. intros i Hi. rewrite !Z.land_spec.
  destruct (Z.lt_ge_cases i k).
  - by rewrite !Z.shiftl_spec_low, !andb_false_r by lia.
  - by rewrite (Z.shiftl_spec (Z.shiftr x k)), Z.shiftr_spec, Z.sub_add by lia.
Qed.

Lemma ChangeEndiannessUint32_value v :
  in_width 32 v → ChangeEndiannessUint32 v = le_value (reverse (le_bytes 4 v)).
Proof.
  intros Hv. unfold in_width in Hv. unfold ChangeEndiannessUint32.
  change 0x0000FF00 with (Z.shiftl 0xFF 8). change 0x00FF0000 with (Z.shiftl 0xFF 16).
  change 0xFF000000 with (Z.shiftl 0xFF 24).
  rewrite land_0xFF, !land_byte_at, !Z.shiftr_div_pow2, le_bytes_4 by lia.
  unfold wrap. rewrite (Z.shiftl_mul_pow2 v 8), (Z.shiftl_mul_pow2 v 24) by lia.
  replace (v / 2 ^ 8 / 2 ^ 8) with (v / 2 ^ 16) by (rewrite Z.div_div by lia; done).
  replace ((v * 2 ^ 8) mod 2 ^ 32 / 2 ^ 16 mod 256) with (v / 2 ^ 8 mod 256) by lia_mod.
  replace ((v * 2 ^ 24) mod 2 ^ 32 / 2 ^ 24 mod 256) with (v mod 256) by lia_mod.
  cbn [reverse rev_append le_value].
  assert (∀ x, 0 ≤ x mod 256 < 256) as Hb by (intros; apply Z.mod_pos_bound; lia).
  pose proof (Hb (v / 2 ^ 24)). pose proof (Hb (v / 2 ^ 16)). pose proof (Hb (v / 2 ^ 8)).
  rewrite (lor_shiftl 8), (lor_shiftl 16), (lor_shiftl 24) by (unfold in_width; lia). lia.
Qed.

(** [ChangeEndiannessUint32] reverses the four bytes of a word and is its own inverse,
    and [ConvertUint32ToUint8Array] lists the bytes in the order that makes the word read
    back as the byte-swapped value on a little-endian machine. *)
Theorem ChangeEndiannessUint32_involutive v :
  in_width 32 v →
  ChangeEndiannessUint32 (ChangeEndiannessUint32 v) = v ∧
  le_bytes 4 (ChangeEndiannessUint32 v) = ConvertUint32ToUint8Array v ∧
  le_value (ConvertUint32ToUint8Array v) = ChangeEndiannessUint32 v.
Proof.
  intros Hv. rewrite ConvertUint32ToUint8Array_spec.
  assert (Hb : bytes (reverse (le_bytes 4 v))) by apply Forall_reverse, le_bytes_bytes.
  assert (Hlen : length (reverse (le_bytes 4 v)) = 4%nat)
    by (by rewrite length_reverse, length_le_bytes).
  assert (Hbytes : le_bytes 4 (ChangeEndiannessUint32 v) = reverse (le_bytes 4 v)).
  { rewrite ChangeEndiannessUint32_value by done. rewrite <- Hlen at 1. by apply le_bytes_value. }
  pose proof (le_value_bound _ Hb) as Hbound. rewrite Hlen in Hbound.
  split; [|split]; [|done|by rewrite ChangeEndiannessUint32_value].
  rewrite (ChangeEndiannessUint32_value (ChangeEndiannessUint32 v)), Hbytes, reverse_involutive.
  - by apply le_value_bytes_small.
  - rewrite ChangeEndiannessUint32_value by done. done.
Qed.

Lemma ChangeEndiannessUint32_involutive_witness :
  in_width 32 0xf9beb4d9 ∧
  ChangeEndiannessUint32 (ChangeEndiannessUint32 0xf9beb4d9) = 0xf9beb4d9 ∧
  le_bytes 4 (ChangeEndiannessUint32 0xf9beb4d9) = ConvertUint32ToUint8Array 0xf9beb4d9 ∧
  le_value (ConvertUint32ToUint8Array 0xf9beb4d9) = ChangeEndiannessUint32 0xf9beb4d9.
Proof. split; [by vm_compute|]. by apply ChangeEndiannessUint32_involutive; vm_compute. Defined.

(** *** Compact sizes *)

(** The compact-size format: one byte, or a marker and two, four or eight
    little-endian bytes. *)
Definition compact_size (v : Z) : list Z :=
  if v <=? 252 then [v]
  else if v <=? 0xFFFF then 0xFD :: le_bytes 2 v
  else if v <=? 0xFFFFFFFF then 0xFE :: le_bytes 4 v
  else 0xFF :: le_bytes 8 v.

Lemma CompactSizeEncode_format v : in_width 64 v → CompactSizeEncode v = compact_size v.
Proof.
  intros Hv. unfold in_width in Hv. unfold CompactSizeEncode, compact_size.
  rewrite !u8_land, !byte_of_shiftr, land_0xFF by lia. cbn [le_bytes].
  rewrite !Z.div_div by lia. destruct (v <=? 252) eqn:E; split_bool; [|done].
  by rewrite wrap_small by (unfold in_width; lia).
Qed.

Lemma compact_size_length v : (1 ≤ length (compact_size v) ≤ 9)%nat.
Proof. unfold compact_size. repeat case_match; cbn; lia. Qed.

Lemma compact_size_bytes v : 0 ≤ v → bytes (compact_size v).
Proof.
  intros Hv. unfold compact_size. repeat case_match; split_bool;
    repeat constructor; unfold in_width; try lia; apply Z.mod_pos_bound; lia.
Qed.

Ltac lor_sum := repeat match goal with
  | |- context [Z.lor ?a (Z.shiftl ?b ?k)] =>
      lazymatch a with context [Z.lor _ _] => fail | _ => idtac end;
      rewrite (lor_shiftl k a b) by (unfold in_width in *; lia)
  end.

Ltac decode_compact :=
  cbn [app]; unfold CompactSizeDecode; repeat (eval_byte_at; decide_tests).

(** The bytes after the marker, as the decoder assembles them. *)
Lemma CompactSizeDecode_2 b1 b2 rest n old :
  bytes [b1; b2] → 3 ≤ n →
  CompactSizeDecode (Some (0xFD :: [b1; b2] ++ rest)) n (Some old) =
    Ok (3, Some (le_value [b1; b2])).
Proof.
  intros Hb Hn. repeat rewrite Forall_cons in Hb. destruct_and?.
  decode_compact. lor_sum. cbn [le_value]. do 3 f_equal. lia.
Qed.

Lemma CompactSizeDecode_4 b1 b2 b3 b4 rest n old :
  bytes [b1; b2; b3; b4] → 5 ≤ n →
  CompactSizeDecode (Some (0xFE :: [b1; b2; b3; b4] ++ rest)) n (Some old) =
    Ok (5, Some (le_value [b1; b2; b3; b4])).
Proof.
  intros Hb Hn. repeat rewrite Forall_cons in Hb. destruct_and?.
  decode_compact. lor_sum. cbn [le_value]. do 3 f_equal. lia.
Qed.

Lemma CompactSizeDecode_8 b1 b2 b3 b4 b5 b6 b7 b8 rest n old :
  bytes [b1; b2; b3; b4; b5; b6; b7; b8] → 9 ≤ n →
  CompactSizeDecode (Some (0xFF :: [b1; b2; b3; b4; b5; b6; b7; b8] ++ rest)) n (Some old) =
    Ok (9, Some (le_value [b1; b2; b3; b4; b5; b6; b7; b8])).
Proof.
  intros Hb Hn. repeat rewrite Forall_cons in Hb. destruct_and?.
  decode_compact. lor_sum. cbn [le_value]. do 3 f_equal. lia.
Qed.

(** Decoding the encoding of [v] with enough bytes announced. *)
Lemma CompactSizeDecode_format v rest n old :
  in_width 64 v → len (compact_size v) ≤ n →
  CompactSizeDecode (Some (compact_size v ++ rest)) n (Some old) =
    Ok (len (compact_size v), Some v).
Proof.
  intros Hv Hn. unfold in_width in Hv. unfold compact_size in *.
  repeat case_match; split_bool; cbn [length] in *; rewrite ?length_le_bytes in *.
  - by decode_compact.
  - rewrite <- (le_value_bytes_small 2 v) at 2 by (change (256 ^ _) with (2 ^ 16); lia).
    apply CompactSizeDecode_2; [apply (le_bytes_bytes 2 v)|lia].
  - rewrite <- (le_value_bytes_small 4 v) at 2 by (change (256 ^ _) with (2 ^ 32); lia).
    apply CompactSizeDecode_4; [apply (le_bytes_bytes 4 v)|lia].
  - rewrite <- (le_value_bytes_small 8 v) at 2 by (change (256 ^ _) with (2 ^ 64); lia).
    apply CompactSizeDecode_8; [apply (le_bytes_bytes 8 v)|lia].
Qed.

(** [CompactSizeDecode] inverts [CompactSizeEncode] on every 64-bit value, whatever
    follows the encoding, as soon as [dataSize] covers it, and reads exactly the bytes
    the encoder wrote (one, three, five or nine of them). *)
Theorem CompactSize_roundtrip v rest n old :
  in_width 64 v → len (CompactSizeEncode v) ≤ n →
  CompactSizeDecode (Some (CompactSizeEncode v ++ rest)) n (Some old) =
    Ok (len (CompactSizeEncode v), Some v) ∧
  len (CompactSizeEncode v) =
    (if v <=? 252 then 1 else if v <=? 0xFFFF then 3 else if v <=? 0xFFFFFFFF then 5 else 9).
Proof.
  intros Hv. rewrite CompactSizeEncode_format by done. intros Hn.
  split; [by apply CompactSizeDecode_format|]. unfold compact_size. by repeat case_match.
Qed.

Lemma CompactSize_roundtrip_witness :
  in_width 64 70000 ∧ len (CompactSizeEncode 70000) ≤ 10 ∧
  CompactSizeDecode (Some (CompactSizeEncode 70000 ++ [1; 2])) 10 (Some 3) =
    Ok (len (CompactSizeEncode 70000), Some 70000) ∧
  len (CompactSizeEncode 70000) =
    (if 70000 <=? 252 then 1 else if 70000 <=? 0xFFFF then 3
     else if 70000 <=? 0xFFFFFFFF then 5 else 9).
Proof.
  split; [by vm_compute|]. split; [by vm_compute|].
  by apply (CompactSize_roundtrip 70000 [1; 2] 10 3); vm_compute.
Defined.

(** The announced number of bytes a marker asks for. *)
Definition compact_need (first : Z) : Z :=
  if first <=? 0xFC then 1 else if first =? 0xFD then 3 else if first =? 0xFE then 5 else 9.

(** The failing calls of [CompactSizeDecode].  With a NULL pointer or no data it
    returns 0 and stores 0 where it can; when the announced size is too small for the
    marker it returns that size and leaves the caller's object as it was, although it
    prepares a zero for it. *)
Theorem CompactSizeDecode_failures data n old first rest :
  CompactSizeDecode None n (Some old) = Ok (0, Some 0) ∧
  CompactSizeDecode data n None = Ok (0, None) ∧
  CompactSizeDecode (Some (first :: rest)) 0 (Some old) = Ok (0, Some 0) ∧
  (is_byte first → 0 < n < compact_need first →
   CompactSizeDecode (Some (first :: rest)) n (Some old) = Ok (n, Some old)).
Proof.
  repeat split; try (by destruct data).
  intros Hf Hn. unfold compact_need in Hn. unfold CompactSizeDecode. decide_tests.
  change (byte_at (first :: rest) 0) with (Ok first). rewrite outcome_bind_ok.
  destruct (first <=? 0xFC) eqn:?; split_bool; [lia|].
  destruct (first =? 0xFD) eqn:?; split_bool; [by decide_tests|].
  by destruct (first =? 0xFE) eqn:?; split_bool; decide_tests.
Qed.

Lemma CompactSizeDecode_failures_witness :
  CompactSizeDecode (Some [0xFE; 1; 2; 3; 4]) 4 (Some 77) = Ok (4, Some 77).
Proof.
  apply (CompactSizeDecode_failures None 4 77 0xFE [1; 2; 3; 4]); by vm_compute.
Defined.
