(* ===== verification/Sha256.v ===== *)
(** * extern/sha256/sha256.c: SHA-256

    The streaming implementation of the source (context, update, final) as state-passing
    functions, the hash of FIPS 180-4 as a specification, and the proof that they agree. *)

From S2P Require Import Prelude.

Module SHA.

(** ** Macros *)

Definition ROTRIGHT (a b : Z) : Z := Z.lor (Z.shiftr a b) (u32 (Z.shiftl a (32 - b))).
Definition CH (x y z : Z) : Z := Z.lxor (Z.land x y) (Z.land (u32 (Z.lnot x)) z).
Definition MAJ (x y z : Z) : Z := Z.lxor (Z.lxor (Z.land x y) (Z.land x z)) (Z.land y z).
Definition EP0 (x : Z) : Z := Z.lxor (Z.lxor (ROTRIGHT x 2) (ROTRIGHT x 13)) (ROTRIGHT x 22).
Definition EP1 (x : Z) : Z := Z.lxor (Z.lxor (ROTRIGHT x 6) (ROTRIGHT x 11)) (ROTRIGHT x 25).
Definition SIG0 (x : Z) : Z := Z.lxor (Z.lxor (ROTRIGHT x 7) (ROTRIGHT x 18)) (Z.shiftr x 3).
Definition SIG1 (x : Z) : Z := Z.lxor (Z.lxor (ROTRIGHT x 17) (ROTRIGHT x 19)) (Z.shiftr x 10).

(** Row by row, as in the source. *)
Definition k : list Z :=
  [0x428a2f98; 0x71374491; 0xb5c0fbcf; 0xe9b5dba5; 0x3956c25b; 0x59f111f1; 0x923f82a4; 0xab1c5ed5]
  ++ [0xd807aa98; 0x12835b01; 0x243185be; 0x550c7dc3; 0x72be5d74; 0x80deb1fe; 0x9bdc06a7; 0xc19bf174]
  ++ [0xe49b69c1; 0xefbe4786; 0x0fc19dc6; 0x240ca1cc; 0x2de92c6f; 0x4a7484aa; 0x5cb0a9dc; 0x76f988da]
  ++ [0x983e5152; 0xa831c66d; 0xb00327c8; 0xbf597fc7; 0xc6e00bf3; 0xd5a79147; 0x06ca6351; 0x14292967]
  ++ [0x27b70a85; 0x2e1b2138; 0x4d2c6dfc; 0x53380d13; 0x650a7354; 0x766a0abb; 0x81c2c92e; 0x92722c85]
  ++ [0xa2bfe8a1; 0xa81a664b; 0xc24b8b70; 0xc76c51a3; 0xd192e819; 0xd6990624; 0xf40e3585; 0x106aa070]
  ++ [0x19a4c116; 0x1e376c08; 0x2748774c; 0x34b0bcb5; 0x391c0cb3; 0x4ed8aa4a; 0x5b9cca4f; 0x682e6ff3]
  ++ [0x748f82ee; 0x78a5636f; 0x84c87814; 0x8cc70208; 0x90befffa; 0xa4506ceb; 0xbef9a3f7; 0xc67178f2].

(** ** The context *)

Record SHA256_CTX := {
  data : list Z;      (* BYTE data[64] *)
  datalen : Z;        (* WORD *)
  bitlen : Z;         (* unsigned long long *)
  state : list Z      (* WORD state[8] *)
}.

(** ** sha256_transform *)

(** [m[i]] for [i < 16]: four bytes of the block, most significant first. *)
Definition load_word (data : list Z) (j : nat) : Z :=
  Z.lor (Z.lor (Z.lor (u32 (Z.shiftl (data !!! j) 24)) (u32 (Z.shiftl (data !!! (j + 1)%nat) 16)))
               (u32 (Z.shiftl (data !!! (j + 2)%nat) 8))) (data !!! (j + 3)%nat).

(** The second loop: [i] is the number of words already stored in [m]. *)
Fixpoint extend_words (n : nat) (m : list Z) : list Z :=
  match n with
  | O => m
  | S n =>
      let i := length m in
      extend_words n (m ++ [u32 (SIG1 (m !!! (i - 2)%nat) + m !!! (i - 7)%nat
                                 + SIG0 (m !!! (i - 15)%nat) + m !!! (i - 16)%nat)])
  end.

Definition message_words (data : list Z) : list Z :=
  extend_words 48 (map (λ i, load_word data (4 * i)%nat) (seq 0 16)).

(** The eight working variables [a .. h]. *)
Record regs := { ra : Z; rb : Z; rc : Z; rd : Z; re : Z; rf : Z; rg : Z; rh : Z }.

Definition round (r : regs) (ki mi : Z) : regs :=
  let t1 := u32 (rh r + EP1 (re r) + CH (re r) (rf r) (rg r) + ki + mi) in
  let t2 := u32 (EP0 (ra r) + MAJ (ra r) (rb r) (rc r)) in
  {| ra := u32 (t1 + t2); rb := ra r; rc := rb r; rd := rc r;
     re := u32 (rd r + t1); rf := re r; rg := rf r; rh := rg r |}.

Definition load_regs (st : list Z) : regs :=
  {| ra := st !!! 0%nat; rb := st !!! 1%nat; rc := st !!! 2%nat; rd := st !!! 3%nat;
     re := st !!! 4%nat; rf := st !!! 5%nat; rg := st !!! 6%nat; rh := st !!! 7%nat |}.

Definition add_regs (st : list Z) (r : regs) : list Z :=
  [u32 (st !!! 0%nat + ra r); u32 (st !!! 1%nat + rb r); u32 (st !!! 2%nat + rc r);
   u32 (st !!! 3%nat + rd r); u32 (st !!! 4%nat + re r); u32 (st !!! 5%nat + rf r);
   u32 (st !!! 6%nat + rg r); u32 (st !!! 7%nat + rh r)].

Definition sha256_transform (ctx : SHA256_CTX) (block : list Z) : SHA256_CTX :=
  let m := message_words block in
  let r := fold_left (λ r i, round r (k !!! i) (m !!! i)) (seq 0 64) (load_regs (state ctx)) in
  {| data := data ctx; datalen := datalen ctx; bitlen := bitlen ctx;
     state := add_regs (state ctx) r |}.

(** ** sha256_init, sha256_update, sha256_final *)

Definition initial_state : list Z :=
  [0x6a09e667; 0xbb67ae85; 0x3c6ef372; 0xa54ff53a;
   0x510e527f; 0x9b05688c; 0x1f83d9ab; 0x5be0cd19].

(** The context is an uninitialised local; [sha256_init] leaves [data] as it is. *)
Definition sha256_init (ctx : SHA256_CTX) : SHA256_CTX :=
  {| data := data ctx; datalen := 0; bitlen := 0; state := initial_state |}.

Definition set_data (ctx : SHA256_CTX) (i b : Z) : SHA256_CTX :=
  {| data := <[Z.to_nat i := b]> (data ctx); datalen := datalen ctx; bitlen := bitlen ctx;
     state := state ctx |}.

(** One iteration of the loop of [sha256_update]. *)
Definition sha256_update_byte (ctx : SHA256_CTX) (b : Z) : SHA256_CTX :=
  let ctx := set_data ctx (datalen ctx) b in
  let ctx := {| data := data ctx; datalen := u32 (datalen ctx + 1); bitlen := bitlen ctx;
                state := state ctx |} in
  if datalen ctx =? 64 then
    let ctx := sha256_transform ctx (data ctx) in
    {| data := data ctx; datalen := 0; bitlen := u64 (bitlen ctx + 512); state := state ctx |}
  else ctx.

(** The index is a 32-bit [WORD] compared with a [size_t]: with 2^32 bytes or more the
    loop never ends. *)
Definition sha256_update (ctx : SHA256_CTX) (l : list Z) : outcome SHA256_CTX :=
  if len l <? 2 ^ 32 then Ok (fold_left sha256_update_byte l ctx) else Fault Diverges.

(** [data[i] = 0; i++] until [i] reaches [i + n]. *)
Fixpoint zero_fill (n : nat) (i : Z) (ctx : SHA256_CTX) : SHA256_CTX :=
  match n with O => ctx | S n => zero_fill n (i + 1) (set_data ctx i 0) end.

(** The big-endian bytes of a word, as the last loop of [sha256_final] stores them. *)
Definition store_word (w : Z) : list Z :=
  map (λ i, Z.land (Z.shiftr w (24 - i * 8)) 0x000000ff) [0; 1; 2; 3].

Definition sha256_pad (ctx : SHA256_CTX) : SHA256_CTX :=
  let i := datalen ctx in
  let ctx := set_data ctx i 0x80 in
  if datalen ctx <? 56 then zero_fill (Z.to_nat (56 - (i + 1))) (i + 1) ctx
  else
    let ctx := zero_fill (Z.to_nat (64 - (i + 1))) (i + 1) ctx in
    let ctx := sha256_transform ctx (data ctx) in
    zero_fill 56 0 ctx.

Definition sha256_append_length (ctx : SHA256_CTX) : SHA256_CTX :=
  let ctx := {| data := data ctx; datalen := datalen ctx;
                bitlen := u64 (bitlen ctx + u32 (datalen ctx * 8)); state := state ctx |} in
  fold_left (λ c i, set_data c (63 - i) (u8 (Z.shiftr (bitlen c) (8 * i))))
    [0; 1; 2; 3; 4; 5; 6; 7] ctx.

Definition sha256_final (ctx : SHA256_CTX) : SHA256_CTX * list Z :=
  let ctx := sha256_append_length (sha256_pad ctx) in
  let ctx := sha256_transform ctx (data ctx) in
  (ctx, flat_map store_word (state ctx)).

(** A local variable [SHA256_CTX ctx] holds whatever was on the stack. *)
Definition sha256 (ctx0 : SHA256_CTX) (l : list Z) : outcome (list Z) :=
  ctx ← sha256_update (sha256_init ctx0) l; Ok (snd (sha256_final ctx)).

Definition sha256d (ctx0 : SHA256_CTX) (l : list Z) : outcome (list Z) :=
  hash ← sha256 ctx0 l; sha256 ctx0 hash.

Definition blank_ctx : SHA256_CTX :=
  {| data := replicate 64 0; datalen := 0; bitlen := 0; state := replicate 8 0 |}.

(** ** FIPS 180-4 *)
Module FIPS.
(** Rotation, and the logical functions of section 4.1.2. *)
Definition ROTR (n x : Z) : Z := Z.lor (x / 2 ^ n) (x * 2 ^ (32 - n) mod 2 ^ 32).
Definition SHR (n x : Z) : Z := x / 2 ^ n.
Definition Ch (x y z : Z) : Z := Z.lxor (Z.land x y) (Z.land ((- x - 1) mod 2 ^ 32) z).
Definition Maj (x y z : Z) : Z := Z.lxor (Z.lxor (Z.land x y) (Z.land x z)) (Z.land y z).
Definition Sigma0 (x : Z) : Z := Z.lxor (Z.lxor (ROTR 2 x) (ROTR 13 x)) (ROTR 22 x).
Definition Sigma1 (x : Z) : Z := Z.lxor (Z.lxor (ROTR 6 x) (ROTR 11 x)) (ROTR 25 x).
Definition sigma0 (x : Z) : Z := Z.lxor (Z.lxor (ROTR 7 x) (ROTR 18 x)) (SHR 3 x).
Definition sigma1 (x : Z) : Z := Z.lxor (Z.lxor (ROTR 17 x) (ROTR 19 x)) (SHR 10 x).

(** Big-endian numbers. *)
Definition be_word (l : list Z) : Z := fold_left (λ a b, a * 256 + b) l 0.
Definition be_bytes (n : nat) (x : Z) : list Z := reverse (le_bytes n x).

(** Padding (5.1.1): a one bit, the least number of zero bits that leaves room for the
    64-bit length in the last block, the length in bits. *)
Definition pad (msg : list Z) : list Z :=
  msg ++ 0x80 :: replicate (Z.to_nat ((55 - len msg) mod 64)) 0 ++ be_bytes 8 (8 * len msg).

(** Splitting into sequences of [n] elements. *)
Fixpoint chunks (count n : nat) (l : list Z) : list (list Z) :=
  match count with O => [] | S count => take n l :: chunks count n (drop n l) end.

(** The message schedule (6.2.2, step 1) as a window of the last sixteen words. *)
Definition next_word (w : list Z) : Z :=
  (sigma1 (w !!! 14%nat) + w !!! 9%nat + sigma0 (w !!! 1%nat) + w !!! 0%nat) mod 2 ^ 32.
Fixpoint schedule (n : nat) (w : list Z) : list Z :=
  match n with O => w | S n => hd 0 w :: schedule n (tl w ++ [next_word w]) end.

Definition words (block : list Z) : list Z := schedule 48 (map be_word (chunks 16 4 block)).

(** The compression function (6.2.2, steps 2 to 4). *)
Definition step (v : list Z) (kw : Z * Z) : list Z :=
  match v with
  | [a; b; c; d; e; f; g; h] =>
      let T1 := (h + Sigma1 e + Ch e f g + kw.1 + kw.2) mod 2 ^ 32 in
      let T2 := (Sigma0 a + Maj a b c) mod 2 ^ 32 in
      [(T1 + T2) mod 2 ^ 32; a; b; c; (d + T1) mod 2 ^ 32; e; f; g]
  | _ => v
  end.
Definition compress (H block : list Z) : list Z :=
  zip_with (λ x y, (x + y) mod 2 ^ 32) H (fold_left step (zip k (words block)) H).

Definition sha256 (msg : list Z) : list Z :=
  let m := pad msg in
  flat_map (be_bytes 4) (fold_left compress (chunks (length m / 64) 64 m) initial_state).
End FIPS.

(** ** The transform computes the compression function *)

Lemma ROTRIGHT_ROTR x n : 0 ≤ n ≤ 32 → ROTRIGHT x n = FIPS.ROTR n x.
Proof.
  intros. unfold ROTRIGHT, FIPS.ROTR, wrap.
  by rewrite Z.shiftr_div_pow2, Z.shiftl_mul_pow2 by lia.
Qed.

(** [ROTR] is the rotation of 32 bits. *)
Lemma ROTR_testbit n x i :
  0 ≤ n ≤ 32 → in_width 32 x → 0 ≤ i < 32 →
  Z.testbit (FIPS.ROTR n x) i = Z.testbit x ((i + n) mod 32).
Proof.
  intros Hn Hx Hi. unfold FIPS.ROTR.
  rewrite Z.lor_spec, Z.div_pow2_bits, Z.mod_pow2_bits_low by lia.
  destruct (Z.lt_ge_cases (i + n) 32).
  - rewrite (Z.mod_small (i + n)), Z.mul_pow2_bits_low by lia. by rewrite orb_false_r.
  - unfold in_width in Hx.
    rewrite (proj1 (Z.bounded_iff_bits_nonneg 32 x ltac:(lia) (proj1 Hx)) (proj2 Hx)) by lia.
    rewrite Z.mul_pow2_bits by lia. cbn [orb]. f_equal.
    replace (i + n) with (i + n - 32 + 1 * 32) by lia.
    rewrite Z.mod_add by lia. destruct (decide (i + n - 32 = 32)); [lia|].
    rewrite Z.mod_small; lia.
Qed.

Lemma chunks_map count n l :
  FIPS.chunks count n l = map (λ i, take n (drop (n * i) l)) (seq 0 count).
Proof.
  revert l. induction count as [|count IH]; intros l; [done|].
  cbn [FIPS.chunks seq map]. rewrite Nat.mul_0_r, drop_0, IH. f_equal.
  rewrite <- seq_shift, map_map. apply map_ext. intros i.
  rewrite drop_drop. do 2 f_equal. lia.
Qed.

Lemma lor_shiftl_step x b m n :
  m = 8 + n → 0 ≤ n → is_byte b →
  Z.lor (Z.shiftl x m) (Z.shiftl b n) = Z.shiftl (x * 256 + b) n.
Proof.
  intros -> Hn Hb. rewrite <- Z.shiftl_shiftl, <- Z.shiftl_lor by lia.
  by rewrite lor_shiftl_comm by (done || lia).
Qed.

Lemma load_word_be j l :
  bytes l → (j + 4 ≤ length l)%nat → load_word l j = FIPS.be_word (take 4 (drop j l)).
Proof.
  intros Hb Hj. unfold load_word.
  assert (∃ a b c d post, drop j l = a :: b :: c :: d :: post) as (a & b & c & d & post & Hd).
  { assert (Hlen : (4 ≤ length (drop j l))%nat) by (rewrite length_drop; lia).
    destruct (drop j l) as [|a [|b [|c [|d post]]]]; cbn in Hlen; try lia; eauto 10. }
  assert (Hl : ∀ i, l !!! (j + i)%nat = (a :: b :: c :: d :: post) !!! i).
  { intros i. by rewrite !list_lookup_total_alt, <- lookup_drop, Hd. }
  rewrite <- (Nat.add_0_r j) at 1. rewrite !Hl, Hd. cbn.
  assert (Hb' : bytes (a :: b :: c :: d :: post)) by (rewrite <- Hd; by apply Forall_drop).
  repeat rewrite Forall_cons in Hb'. destruct_and?. unfold in_width in *.
  rewrite !(wrap_small 32) by (unfold in_width; rewrite ?Z.shiftl_mul_pow2; lia).
  rewrite (lor_shiftl_step a b 24 16), (lor_shiftl_step _ c 16 8), lor_shiftl_comm by done.
  rewrite take_0. cbn. lia.
Qed.

Lemma extend_words_schedule n m :
  (16 ≤ length m)%nat →
  extend_words n m =
    take (length m - 16) m ++ FIPS.schedule n (drop (length m - 16) m).
Proof.
  revert m. induction n as [|n IH]; intros m Hm; cbn [extend_words FIPS.schedule].
  { by rewrite take_drop. }
  set (j := (length m - 16)%nat).
  assert (Hat : ∀ i, (i ≤ 16)%nat → m !!! (length m - (16 - i))%nat = drop j m !!! i).
  { intros i Hi. rewrite !list_lookup_total_alt, lookup_drop. do 2 f_equal. lia. }
  assert (Hnext : u32 (SIG1 (m !!! (length m - 2)%nat) + m !!! (length m - 7)%nat
                       + SIG0 (m !!! (length m - 15)%nat) + m !!! j)
                  = FIPS.next_word (drop j m)).
  { unfold FIPS.next_word. rewrite <- !Hat by lia. cbn [Nat.sub].
    unfold SIG1, SIG0, FIPS.sigma1, FIPS.sigma0, FIPS.SHR.
    by rewrite !ROTRIGHT_ROTR, !Z.shiftr_div_pow2 by lia. }
  rewrite Hnext, IH by (rewrite length_app; lia).
  destruct (lookup_lt_is_Some_2 m j) as [x Hx]; [lia|].
  rewrite length_app. cbn [length].
  replace (length m + 1 - 16)%nat with (S j) by lia.
  rewrite (drop_S m x j) by done. rewrite take_app_le, drop_app_le by lia.
  cbn [hd tl]. by rewrite (take_S_r _ _ x), <- app_assoc by done.
Qed.

Lemma schedule_length n w : w ≠ [] → length (FIPS.schedule n w) = (n + length w)%nat.
Proof.
  revert w. induction n as [|n IH]; intros w Hw; [done|].
  cbn [FIPS.schedule length]. rewrite IH by (by destruct (tl w)).
  destruct w; [done|]. cbn [tl length]. rewrite length_app. cbn [length]. lia.
Qed.

Lemma message_words_spec block :
  bytes block → length block = 64%nat → message_words block = FIPS.words block.
Proof.
  intros Hb Hlen. unfold message_words, FIPS.words.
  rewrite chunks_map, map_map.
  replace (map (λ i, load_word block (4 * i)) (seq 0 16))
    with (map (λ i, FIPS.be_word (take 4 (drop (4 * i) block))) (seq 0 16)).
  - rewrite extend_words_schedule by (rewrite length_map, length_seq; lia). done.
  - apply map_ext_in. intros i Hi%in_seq. symmetry. apply load_word_be; [done|lia].
Qed.

Definition regs_list (r : regs) : list Z :=
  [ra r; rb r; rc r; rd r; re r; rf r; rg r; rh r].

Lemma round_step r ki mi : FIPS.step (regs_list r) (ki, mi) = regs_list (round r ki mi).
Proof.
  unfold FIPS.step, round, regs_list, EP0, EP1, FIPS.Sigma0, FIPS.Sigma1. cbn [fst snd].
  rewrite !ROTRIGHT_ROTR by lia.
  by replace (FIPS.Ch (re r) (rf r) (rg r)) with (CH (re r) (rf r) (rg r)).
Qed.

Lemma regs_list_load st : length st = 8%nat → regs_list (load_regs st) = st.
Proof. intros H. do 8 (destruct st as [|? st]; [done|]). by destruct st. Qed.

Lemma add_regs_zip st r :
  length st = 8%nat → add_regs st r = zip_with (λ x y, (x + y) mod 2 ^ 32) st (regs_list r).
Proof. intros H. do 8 (destruct st as [|? st]; [done|]). by destruct st. Qed.

Lemma transform_compress ctx block :
  bytes block → length block = 64%nat → length (state ctx) = 8%nat →
  state (sha256_transform ctx block) = FIPS.compress (state ctx) block.
Proof.
  intros Hb Hlen Hst. unfold sha256_transform, FIPS.compress. cbn [state].
  rewrite message_words_spec by done.
  assert (Hw : length (FIPS.words block) = 64%nat).
  { apply schedule_length. by rewrite chunks_map. }
  assert (Hfold : fold_left FIPS.step (zip k (FIPS.words block)) (state ctx) =
    regs_list (fold_left (λ r i, round r (k !!! i) (FIPS.words block !!! i)) (seq 0 64)
                 (load_regs (state ctx)))).
  { rewrite zip_map_index, fold_left_map by done. change (length k) with 64%nat.
    rewrite <- (regs_list_load (state ctx)) at 1 by done.
    generalize (load_regs (state ctx)) as r. generalize (seq 0 64).
    induction l as [|i l IH]; intros r; [done|]. cbn [fold_left].
    by rewrite round_step, IH. }
  rewrite Hfold. by apply add_regs_zip.
Qed.

(** ** The context during a stream *)

Definition hash_blocks (n : nat) (l : list Z) : list Z :=
  fold_left FIPS.compress (FIPS.chunks n 64 l) initial_state.

Lemma chunks_snoc n l b :
  length l = (64 * n)%nat → length b = 64%nat →
  FIPS.chunks (S n) 64 (l ++ b) = FIPS.chunks n 64 l ++ [b].
Proof.
  revert l. induction n as [|n IH]; intros l Hl Hb.
  - destruct l; [|done]. cbn [FIPS.chunks app]. by rewrite take_ge by lia.
  - cbn [FIPS.chunks] in *. rewrite take_app_le, drop_app_le by lia.
    cbn [app]. f_equal. apply IH; [rewrite length_drop; lia|done].
Qed.

Lemma hash_blocks_snoc n l b :
  length l = (64 * n)%nat → length b = 64%nat →
  hash_blocks (S n) (l ++ b) = FIPS.compress (hash_blocks n l) b.
Proof. intros. unfold hash_blocks. by rewrite chunks_snoc, fold_left_app. Qed.

Lemma compress_length H b : length H = 8%nat → length (FIPS.compress H b) = 8%nat.
Proof.
  intros HH. unfold FIPS.compress. rewrite length_zip_with.
  enough (length (fold_left FIPS.step (zip k (FIPS.words b)) H) = 8%nat) by lia.
  generalize (zip k (FIPS.words b)). intros l. revert H HH.
  induction l as [|p l IH]; intros H HH; [done|]. cbn [fold_left]. apply IH.
  by do 8 (destruct H as [|? H]; [done|]); destruct H.
Qed.

Lemma hash_blocks_length n l : length (hash_blocks n l) = 8%nat.
Proof.
  unfold hash_blocks. generalize (FIPS.chunks n 64 l). intros bs.
  assert (length initial_state = 8%nat) as Hi by done. revert Hi. generalize initial_state.
  induction bs as [|b bs IH]; intros H HH; [done|]. apply IH. by apply compress_length.
Qed.

(** [ctx] has absorbed [msg]: whole blocks in [state], the rest at the start of [data]. *)
Record absorbed (ctx : SHA256_CTX) (n : nat) (pre tail : list Z) : Prop := {
  ab_pre : length pre = (64 * n)%nat;
  ab_tail : (length tail < 64)%nat;
  ab_bytes : bytes tail;
  ab_size : length (data ctx) = 64%nat;
  ab_datalen : datalen ctx = len tail;
  ab_data : take (length tail) (data ctx) = tail;
  ab_bitlen : bitlen ctx = u64 (512 * Z.of_nat n);
  ab_state : state ctx = hash_blocks n pre
}.

Definition represents (ctx : SHA256_CTX) (msg : list Z) : Prop :=
  ∃ n pre tail, msg = pre ++ tail ∧ absorbed ctx n pre tail.

Lemma represents_init ctx : length (data ctx) = 64%nat → represents (sha256_init ctx) [].
Proof. intros. exists 0%nat, [], []. split; [done|]. by split; cbn; try lia. Qed.

Lemma take_S_insert {A} (l : list A) i x :
  (i < length l)%nat → take (S i) (<[i:=x]> l) = take i l ++ [x].
Proof.
  intros Hi. rewrite (take_S_r _ _ x) by (by apply list_lookup_insert_eq).
  by rewrite take_insert_ge by lia.
Qed.

Lemma represents_byte ctx msg b :
  is_byte b → represents ctx msg → represents (sha256_update_byte ctx b) (msg ++ [b]).
Proof.
  intros Hb (n & pre & tail & -> & [Hpre Htail Hbytes Hsize Hdl Hdata Hbl Hst]).
  unfold sha256_update_byte, set_data. cbn [data datalen bitlen state].
  rewrite Hdl, Nat2Z.id, wrap_small by (unfold in_width; lia).
  assert (Htake : take (S (length tail)) (<[length tail:=b]> (data ctx)) = tail ++ [b]).
  { by rewrite take_S_insert, Hdata by lia. }
  assert (Hbytes' : bytes (tail ++ [b])) by (apply Forall_app; eauto).
  destruct (len tail + 1 =? 64) eqn:E; split_bool.
  - exists (S n), (pre ++ tail ++ [b]), []. split; [by rewrite app_nil_r, app_assoc|].
    assert (Hfull : <[length tail:=b]> (data ctx) = tail ++ [b]).
    { rewrite <- Htake, take_ge; [done|]. rewrite length_insert. lia. }
    split; cbn [data datalen bitlen state length]; try done; try lia.
    + rewrite !length_app. cbn [length]. lia.
    + unfold sha256_transform. cbn [data]. by rewrite length_insert.
    + unfold sha256_transform. cbn [bitlen]. rewrite Hbl. unfold wrap. rewrite Zplus_mod_idemp_l. f_equal. lia.
    + rewrite Hfull, transform_compress; cbn [state]; try done.
      * rewrite Hst, hash_blocks_snoc; [done..|]. rewrite length_app. cbn [length]. lia.
      * rewrite length_app. cbn [length]. lia.
      * rewrite Hst. apply hash_blocks_length.
  - exists n, pre, (tail ++ [b]). split; [by rewrite app_assoc|].
    split; cbn [data datalen bitlen state]; rewrite ?length_insert, ?length_app;
      cbn [length]; try done; try lia. by rewrite Nat.add_1_r.
Qed.

Lemma represents_update ctx msg l :
  bytes l → represents ctx msg → represents (fold_left sha256_update_byte l ctx) (msg ++ l).
Proof.
  intros Hl. revert ctx msg. induction Hl as [|b l Hb Hl IH]; intros ctx msg Hr.
  - by rewrite app_nil_r.
  - cbn [fold_left]. rewrite (cons_middle b), app_assoc.
    by apply IH, represents_byte.
Qed.

(** ** Padding and the final block *)

Definition with_data (ctx : SHA256_CTX) (d : list Z) : SHA256_CTX :=
  {| data := d; datalen := datalen ctx; bitlen := bitlen ctx; state := state ctx |}.

Lemma set_data_with ctx i b : set_data ctx i b = with_data ctx (<[Z.to_nat i := b]> (data ctx)).
Proof. done. Qed.

Lemma zero_fill_data n (i : nat) ctx :
  (i + n ≤ length (data ctx))%nat →
  zero_fill n (Z.of_nat i) ctx =
    with_data ctx (take i (data ctx) ++ replicate n 0 ++ drop (i + n) (data ctx)).
Proof.
  revert i ctx. induction n as [|n IH]; intros i ctx Hi; cbn [zero_fill replicate app].
  - rewrite Nat.add_0_r, take_drop. by destruct ctx.
  - replace (Z.of_nat i + 1) with (Z.of_nat (S i)) by lia.
    rewrite IH by (cbn; rewrite length_insert; lia).
    rewrite set_data_with, Nat2Z.id. unfold with_data. cbn [data datalen bitlen state].
    rewrite take_S_insert, drop_insert_lt by lia.
    rewrite <- app_assoc. cbn [app]. do 4 f_equal. f_equal. lia.
Qed.

Lemma be_bytes_length n x : length (FIPS.be_bytes n x) = n.
Proof. unfold FIPS.be_bytes. by rewrite length_reverse, length_le_bytes. Qed.

Lemma store_word_be w : store_word w = FIPS.be_bytes 4 w.
Proof.
  unfold store_word, FIPS.be_bytes. rewrite le_bytes_4. cbn [map reverse rev_append].
  rewrite !land_0xFF, !Z.shiftr_div_pow2 by lia. cbn. by rewrite Z.div_1_r.
Qed.

(** The last eight bytes of the block become the big-endian length. *)
Lemma append_length_data ctx d e :
  data ctx = d ++ e → length d = 56%nat → length e = 8%nat →
  data (sha256_append_length ctx) =
    d ++ FIPS.be_bytes 8 (u64 (bitlen ctx + u32 (datalen ctx * 8))).
Proof.
  intros Hd Hlen He. unfold sha256_append_length. cbn [fold_left set_data data bitlen].
  set (bits := u64 (bitlen ctx + u32 (datalen ctx * 8))). rewrite Hd.
  do 8 (destruct e as [|? e]; [done|]). destruct e; [|done].
  rewrite !insert_app_r_alt by (rewrite Hlen; lia). rewrite Hlen. f_equal.
  unfold FIPS.be_bytes. rewrite le_bytes_8. unfold wrap. rewrite !Z.shiftr_div_pow2 by lia.
  cbn. by rewrite Z.div_1_r.
Qed.

(** The marker byte after the pending bytes, then zeros up to index [m]. *)
Lemma fill_block ctx n pre tail m mz :
  absorbed ctx n pre tail → mz = Z.of_nat m → (length tail < m)%nat → (m ≤ 64)%nat →
  zero_fill (Z.to_nat (mz - (datalen ctx + 1))) (datalen ctx + 1)
    (set_data ctx (datalen ctx) 0x80) =
  with_data ctx (tail ++ 0x80 :: replicate (m - S (length tail)) 0 ++ drop m (data ctx)).
Proof.
  intros [_ Htail _ Hsize Hdl Hdata _ _] -> Hm H64. rewrite Hdl.
  replace (Z.to_nat (Z.of_nat m - (len tail + 1))) with (m - S (length tail))%nat by lia.
  replace (len tail + 1) with (Z.of_nat (S (length tail))) by lia.
  rewrite set_data_with, Nat2Z.id.
  rewrite zero_fill_data by (cbn; rewrite length_insert; lia).
  unfold with_data. cbn [data datalen bitlen state].
  rewrite take_S_insert, Hdata, drop_insert_lt, <- app_assoc by lia. cbn [app].
  do 5 f_equal. lia.
Qed.

Lemma pad_short ctx n pre tail :
  absorbed ctx n pre tail → (length tail < 56)%nat →
  sha256_pad ctx =
    with_data ctx (tail ++ 0x80 :: replicate (55 - length tail) 0 ++ drop 56 (data ctx)).
Proof.
  intros H Ht. pose proof (ab_datalen _ _ _ _ H) as Hdl. unfold sha256_pad.
  change (datalen (set_data ctx (datalen ctx) 0x80)) with (datalen ctx). decide_tests.
  by apply (fill_block ctx n pre tail 56); [|lia..].
Qed.

Lemma pad_long ctx n pre tail :
  absorbed ctx n pre tail → (56 ≤ length tail)%nat →
  ∃ e, length e = 8%nat ∧ sha256_pad ctx =
    {| data := replicate 56 0 ++ e; datalen := datalen ctx; bitlen := bitlen ctx;
       state := hash_blocks (S n) (pre ++ tail ++ 0x80 :: replicate (63 - length tail) 0) |}.
Proof.
  intros H Ht. pose proof H as [Hpre Htail Hb Hsize Hdl Hdata Hbl Hst]. unfold sha256_pad.
  change (datalen (set_data ctx (datalen ctx) 0x80)) with (datalen ctx). decide_tests.
  rewrite (fill_block ctx n pre tail 64) by (done || lia).
  rewrite drop_ge, app_nil_r by lia. cbn [Nat.sub].
  set (blk := tail ++ 0x80 :: replicate (63 - length tail) 0).
  assert (Hblk : length blk = 64%nat)
    by (subst blk; rewrite length_app; cbn [length]; rewrite length_replicate; lia).
  rewrite (zero_fill_data 56 0) by (cbn; lia). cbn [take app Nat.add].
  exists (drop 56 blk). split; [rewrite length_drop; lia|].
  rewrite hash_blocks_snoc, <- Hst by done.
  unfold with_data, sha256_transform at 1. cbn [data datalen bitlen].
  f_equal. change (state ctx) with (state (with_data ctx blk)) at 2.
  rewrite <- transform_compress; [done|..|done|].
  - apply Forall_app. split; [done|]. constructor; [by vm_compute|].
    apply Forall_replicate. by vm_compute.
  - cbn. rewrite Hst. apply hash_blocks_length.
Qed.

(** The hash from a padded context whose last block lacks only the length. *)
Lemma final_block ctx n pre d e :
  data (sha256_pad ctx) = d ++ e → length d = 56%nat → length e = 8%nat → bytes d →
  length pre = (64 * n)%nat → state (sha256_pad ctx) = hash_blocks n pre →
  snd (sha256_final ctx) =
    flat_map (FIPS.be_bytes 4) (hash_blocks (S n) (pre ++ d ++ FIPS.be_bytes 8
      (u64 (bitlen (sha256_pad ctx) + u32 (datalen (sha256_pad ctx) * 8))))).
Proof.
  intros Hd Hlen He Hb Hpre Hst. unfold sha256_final. cbn [snd].
  pose proof (append_length_data (sha256_pad ctx) d e Hd Hlen He) as Hdata.
  assert (Hstate : state (sha256_append_length (sha256_pad ctx)) = hash_blocks n pre) by done.
  set (c := sha256_append_length (sha256_pad ctx)) in *.
  assert (Hblk : length (data c) = 64%nat).
  { rewrite Hdata, length_app, Hlen. by rewrite be_bytes_length. }
  rewrite transform_compress, Hstate, Hdata; [..|by rewrite Hstate; apply hash_blocks_length].
  - rewrite hash_blocks_snoc by (done || by rewrite <- Hdata).
    generalize (FIPS.compress (hash_blocks n pre)
      (d ++ FIPS.be_bytes 8 (u64 (bitlen (sha256_pad ctx) + u32 (datalen (sha256_pad ctx) * 8))))).
    induction l as [|w l IH]; [done|]. cbn [flat_map]. by rewrite store_word_be, IH.
  - rewrite Hdata. apply Forall_app. split; [done|]. apply Forall_reverse, le_bytes_bytes.
  - done.
Qed.

Lemma pad_split pre n tail z :
  length pre = (64 * n)%nat → (length tail < 64)%nat →
  z = (if decide (length tail < 56)%nat then 55 - length tail else 119 - length tail)%nat →
  FIPS.pad (pre ++ tail) =
    pre ++ tail ++ 0x80 :: replicate z 0 ++ FIPS.be_bytes 8 (8 * len (pre ++ tail)).
Proof.
  intros Hpre Ht ->. unfold FIPS.pad. rewrite <- app_assoc. do 5 f_equal.
  rewrite length_app, Hpre. case_decide; lia_mod.
Qed.

(** The message length in bits, from the context's counters. *)
Lemma absorbed_bits ctx n pre tail :
  absorbed ctx n pre tail → 8 * len (pre ++ tail) < 2 ^ 64 →
  u64 (bitlen ctx + u32 (datalen ctx * 8)) = 8 * len (pre ++ tail).
Proof.
  intros [Hpre Ht _ _ Hdl _ Hbl _] Hlt. rewrite length_app in *.
  rewrite Hbl, Hdl, (wrap_small 32) by (unfold in_width; lia).
  rewrite (wrap_small 64 (512 * _)), wrap_small by (unfold in_width; lia). lia.
Qed.

Lemma sha256_blocks msg m q :
  FIPS.pad msg = m → length m = (64 * q)%nat →
  FIPS.sha256 msg = flat_map (FIPS.be_bytes 4) (hash_blocks q m).
Proof.
  intros Hm Hlen. unfold FIPS.sha256, hash_blocks. rewrite Hm, Hlen.
  by rewrite (Nat.mul_comm 64), Nat.div_mul by lia.
Qed.

Lemma marker_bytes l z : bytes l → bytes (l ++ 0x80 :: replicate z 0).
Proof.
  intros. apply Forall_app. split; [done|]. constructor; [by vm_compute|].
  apply Forall_replicate. by vm_compute.
Qed.

Lemma marker_length (l : list Z) z : length (l ++ 0x80 :: replicate z 0) = (length l + S z)%nat.
Proof. rewrite length_app. cbn [length]. by rewrite length_replicate. Qed.

Lemma final_short ctx n pre tail :
  absorbed ctx n pre tail → (length tail < 56)%nat → 8 * len (pre ++ tail) < 2 ^ 64 →
  snd (sha256_final ctx) = FIPS.sha256 (pre ++ tail).
Proof.
  intros H Ht Hlt. pose proof (absorbed_bits _ _ _ _ H Hlt) as Hbits.
  pose proof H as [Hpre Htail Hb Hsize Hdl Hdata Hbl Hst].
  pose proof (pad_short _ _ _ _ H Ht) as Hpad.
  rewrite (final_block ctx n pre (tail ++ 0x80 :: replicate (55 - length tail) 0)
    (drop 56 (data ctx))); rewrite ?Hpad; cbn [with_data data state bitlen datalen];
    rewrite ?marker_length, ?length_drop; try done; try lia.
  - rewrite Hbits. symmetry. apply sha256_blocks.
    + rewrite (pad_split pre n tail _ Hpre Htail eq_refl). case_decide; [|lia].
      by rewrite <- app_assoc.
    + rewrite !length_app, be_bytes_length. cbn [length]. rewrite length_replicate. lia.
  - by rewrite <- app_assoc.
  - by apply marker_bytes.
Qed.

Lemma final_long ctx n pre tail :
  absorbed ctx n pre tail → (56 ≤ length tail)%nat → 8 * len (pre ++ tail) < 2 ^ 64 →
  snd (sha256_final ctx) = FIPS.sha256 (pre ++ tail).
Proof.
  intros H Ht Hlt. pose proof (absorbed_bits _ _ _ _ H Hlt) as Hbits.
  pose proof H as [Hpre Htail Hb Hsize Hdl Hdata Hbl Hst].
  destruct (pad_long _ _ _ _ H Ht) as (e & He & Hpad).
  set (blk := tail ++ 0x80 :: replicate (63 - length tail) 0) in *.
  assert (Hblk : length blk = 64%nat) by (subst blk; rewrite marker_length; lia).
  rewrite (final_block ctx (S n) (pre ++ blk) (replicate 56 0) e); rewrite ?Hpad;
    cbn [data state bitlen datalen]; try done.
  - rewrite Hbits. symmetry. apply sha256_blocks.
    + rewrite (pad_split pre n tail _ Hpre Htail eq_refl). case_decide; [lia|].
      subst blk. rewrite <- !app_assoc. cbn [app].
      replace (119 - length tail)%nat with ((63 - length tail) + 56)%nat by lia.
      by rewrite replicate_add, <- app_assoc.
    + rewrite !length_app, be_bytes_length, length_replicate. lia.
  - apply Forall_replicate. by vm_compute.
  - rewrite length_app. lia.
Qed.

Lemma final_spec ctx msg :
  represents ctx msg → 8 * len msg < 2 ^ 64 → snd (sha256_final ctx) = FIPS.sha256 msg.
Proof.
  intros (n & pre & tail & -> & H) Hlt.
  destruct (decide (length tail < 56)%nat); [by eapply final_short|].
  eapply final_long; [done|lia|done].
Qed.

(** The context keeps its 64 bytes through padding and the last transform. *)
Lemma zero_fill_length n i ctx : length (data (zero_fill n i ctx)) = length (data ctx).
Proof.
  revert i ctx. induction n as [|n IH]; intros; [done|]. cbn [zero_fill].
  rewrite IH. apply length_insert.
Qed.

Lemma append_length_length ctx :
  length (data (sha256_append_length ctx)) = length (data ctx).
Proof.
  unfold sha256_append_length. generalize [0; 1; 2; 3; 4; 5; 6; 7] as l. intros l.
  match goal with |- context [fold_left _ l ?c] =>
    change (length (data ctx)) with (length (data c)); generalize c end.
  induction l as [|x l IH]; intros c; [done|]. cbn [fold_left]. rewrite IH.
  apply length_insert.
Qed.

Lemma pad_length ctx : length (data (sha256_pad ctx)) = length (data ctx).
Proof.
  unfold sha256_pad. destruct (_ <? 56).
  - rewrite zero_fill_length. apply length_insert.
  - rewrite zero_fill_length. change (data (sha256_transform ?c ?b)) with (data c).
    rewrite zero_fill_length. apply length_insert.
Qed.

Lemma transform_data c b : data (sha256_transform c b) = data c.
Proof. reflexivity. Qed.

Lemma final_ctx ctx :
  fst (sha256_final ctx) =
    sha256_transform (sha256_append_length (sha256_pad ctx))
      (data (sha256_append_length (sha256_pad ctx))).
Proof. reflexivity. Qed.

Lemma final_data_length ctx msg :
  represents ctx msg → length (data (fst (sha256_final ctx))) = 64%nat.
Proof.
  intros (n & pre & tail & -> & H).
  rewrite final_ctx, transform_data, append_length_length, pad_length.
  apply (ab_size _ _ _ _ H).
Qed.

Lemma sha256_ok ctx0 msg :
  length (data ctx0) = 64%nat → bytes msg → len msg < 2 ^ 32 →
  sha256 ctx0 msg = Ok (FIPS.sha256 msg).
Proof.
  intros Hc Hb Hlen. unfold sha256, sha256_update. decide_tests. rewrite outcome_bind_ok.
  f_equal. apply final_spec; [|lia].
  apply (represents_update _ []); [done|]. by apply represents_init.
Qed.

(** C3: the streaming implementation computes SHA-256: whatever the uninitialised context
    holds, hashing fewer than [2^32] bytes ends with the hash FIPS 180-4 defines for them
    (the length bound is what keeps the 32-bit loop index of [sha256_update] from
    running for ever). *)
Theorem sha256_refines_FIPS ctx0 msg :
  length (data ctx0) = 64%nat → bytes msg →
  sha256 ctx0 msg = if len msg <? 2 ^ 32 then Ok (FIPS.sha256 msg) else Fault Diverges.
Proof.
  intros Hc Hb. destruct (len msg <? 2 ^ 32) eqn:E.
  - apply sha256_ok; [done..|]. by split_bool.
  - unfold sha256, sha256_update. by rewrite E.
Qed.

Lemma sha256_refines_FIPS_witness :
  bytes [97; 98; 99] ∧
  sha256 blank_ctx [97; 98; 99] =
    (if len [97; 98; 99] <? 2 ^ 32 then Ok (FIPS.sha256 [97; 98; 99]) else Fault Diverges) ∧
  FIPS.sha256 [97; 98; 99] =
    [0xBA;0x78;0x16;0xBF;0x8F;0x01;0xCF;0xEA;0x41;0x41;0x40;0xDE;0x5D;0xAE;0x22;0x23;
     0xB0;0x03;0x61;0xA3;0x96;0x17;0x7A;0x9C;0xB4;0x10;0xFF;0x61;0xF2;0x00;0x15;0xAD].
Proof.
  split; [by repeat constructor; vm_compute|]. split; [|by vm_compute].
  apply (sha256_refines_FIPS blank_ctx [97; 98; 99]); [done|].
  by repeat constructor; vm_compute.
Defined.

End SHA.
