(* ===== verification/Structs.v ===== *)
(** * include/bitcoin-structs.h: the data of the library

    The C structures as records (an array field together with the address [malloc]
    returned for it), the constants, and the memory layout the compiler gives the
    structures on a 64-bit machine. *)

From S2P Require Import Prelude.

(** ** Allocated arrays

    [Buf a l] is a pointer to the live allocation number [a], which holds the elements [l]. *)
Record buf (A : Type) : Type := Buf { addr : nat; elems : list A }.
Arguments Buf {A} addr elems.
Arguments addr {A} b.
Arguments elems {A} b.

(** ** Structures *)

Record BlockHeader : Type := {
  hdr_version : Z;              (* U8 *)
  prevBlockHash : list Z;       (* U8[32] *)
  merkleRoot : list Z;          (* U8[32] *)
  hdr_time : Z;                 (* U32 *)
  bits : Z;                     (* U32 *)
  nonce : Z                     (* U32 *)
}.

Record Input : Type := {
  in_txid : list Z;             (* U8[32] *)
  vout : Z;                     (* U32 *)
  scriptSigSize : Z;            (* uint16_t *)
  scriptSig : buf Z;
  sequence : Z                  (* U32 *)
}.

Record Output : Type := {
  amount : Z;                   (* U64 *)
  scriptPubKeySize : Z;         (* uint16_t *)
  scriptPubKey : buf Z
}.

Record StackItem : Type := {
  item_size : Z;                (* uint16_t *)
  item : buf Z
}.

Record Witness : Type := {
  stackItemsCount : Z;          (* uint16_t *)
  stackItems : buf StackItem
}.

(** [witnesses] stays uninitialised ([None]) unless the transaction is SegWit. *)
Record Transaction : Type := {
  tx_version : Z;               (* U32 *)
  marker : Z;                   (* U8 *)
  flag : Z;                     (* U8 *)
  inputCount : Z;               (* uint16_t *)
  inputs : buf Input;
  outputCount : Z;              (* uint16_t *)
  outputs : buf Output;
  witnesses : option (buf Witness);
  locktime : Z;                 (* U32 *)
  tx_size : Z;                  (* uint16_t *)
  txid : list Z;                (* U8[32] *)
  wtxid : list Z                (* U8[32] *)
}.

(** [height] is only assigned by [GetBlock]; the zero block has NULL [transactions]. *)
Record Block : Type := {
  magic : Z;                    (* U32 *)
  blockSize : Z;                (* U32 *)
  txCount : Z;                  (* uint16_t *)
  blk_hash : list Z;            (* U8[32] *)
  height : option Z;            (* U64 *)
  header : BlockHeader;
  transactions : option (buf Transaction)
}.

Record Blocks : Type := { blocks : option (buf Block); blocks_count : Z }.

(** Fields the decoders may leave uninitialised are options. *)
Record BlockIndexRecord : Type := {
  blockHash : list Z;           (* U8[32] *)
  blockHeader : option BlockHeader;
  bir_version : Z;              (* U64 *)
  bir_height : Z;               (* U64 *)
  bir_txCount : Z;              (* U64 *)
  validationStatus : Z;         (* BlockStatus, 4 bytes *)
  blockFile : Z;                (* U64 *)
  blockOffset : Z;              (* U64 *)
  undoFile : option Z;          (* U64 *)
  undoOffset : option Z         (* U64 *)
}.

Record CoinRecord : Type := {
  coin_txid : list Z;           (* U8[32] *)
  coin_height : Z;              (* int *)
  coinbase : Z;                 (* U8 *)
  dummy : Z                     (* int *)
}.

(** [filenumber] is never assigned. *)
Record FileInformationRecord : Type := {
  filenumber : option Z;
  blockCount : Z; dataFileSize : Z; revFileSize : Z; lowestHeight : Z;
  highestHeight : Z; lowestTimestamp : Z; highestTimestamp : Z
}.

(** The arrays the indexer fills: an element that was not stored is [None]. *)
Record IndexRecords : Type := {
  blockIndexRecord : list (option BlockIndexRecord);
  blockIndexRecordCount : Z;
  fileInformationRecord : list (option FileInformationRecord);
  fileInformationRecordCount : Z;
  coinRecord : list (option CoinRecord);
  coinRecordCount : Z
}.

Record BlockStats : Type := {
  avgFee : Z; avgFeeRate : Z; avgTxSize : Z;
  stats_blockHash : list Z;
  stats_height : Z; ins : Z; maxFee : Z; maxTxSize : Z; minFee : Z; minFeeRate : Z; outs : Z;
  subsidy : Z; swTotalSize : Z; swTotalWeight : Z; swTx : Z; stats_time : Z; totalOut : Z;
  totalSize : Z; totalWeight : Z; totalFee : Z; txs : Z; utxoIncrease : Z
}.

(** ** Constants *)

Definition SHA256_HASH_SIZE : Z := 32.
Definition BLOCKHEADER_SIZE : Z := 80.
Definition MAX_BLOCKFILE_SIZE : Z := 0x8000000.
Definition MAX_COMPACT_SIZE_BYTES : Z := 10.
Definition MAX_OPEN_FILES : nat := 5.

Definition BLOCK_VALID_RESERVED : Z := 1.
Definition BLOCK_VALID_TREE : Z := 2.
Definition BLOCK_VALID_TRANSACTIONS : Z := 3.
Definition BLOCK_VALID_CHAIN : Z := 4.
Definition BLOCK_VALID_SCRIPTS : Z := 5.
Definition BLOCK_VALID_MASK : Z :=
  Z.lor (Z.lor (Z.lor (Z.lor BLOCK_VALID_RESERVED BLOCK_VALID_TREE) BLOCK_VALID_TRANSACTIONS)
    BLOCK_VALID_CHAIN) BLOCK_VALID_SCRIPTS.

(** ** Layout in memory

    Sizes, alignments and field offsets by the rules of the 64-bit System V ABI: a field
    starts at the next multiple of its alignment, a structure is as aligned as its most
    aligned field and padded to a multiple of that. *)
Inductive ctype : Type :=
  | TInt (n : Z)                              (* an integer of [n] bytes *)
  | TPtr
  | TArr (n : Z) (t : ctype)
  | TStruct (fields : list (string * ctype)).

Definition align_up (x a : Z) : Z := (x + a - 1) / a * a.

Fixpoint alignof (t : ctype) : Z :=
  match t with
  | TInt n => n
  | TPtr => 8
  | TArr _ t => alignof t
  | TStruct fs =>
      (fix go fs := match fs with [] => 1 | (_, t) :: fs => Z.max (alignof t) (go fs) end) fs
  end.

Fixpoint sizeof (t : ctype) : Z :=
  match t with
  | TInt n => n
  | TPtr => 8
  | TArr n t => n * sizeof t
  | TStruct fs =>
      align_up
        ((fix go off fs := match fs with
          | [] => off
          | (_, t) :: fs => go (align_up off (alignof t) + sizeof t) fs end) 0 fs)
        (alignof (TStruct fs))
  end.

(** The fields with their first byte and the byte after their last. *)
Fixpoint extents (off : Z) (fs : list (string * ctype)) : list (string * (Z * Z)) :=
  match fs with
  | [] => []
  | (f, t) :: fs =>
      let o := align_up off (alignof t) in
      (f, (o, o + sizeof t)) :: extents (o + sizeof t) fs
  end.

Definition U8t := TInt 1.
Definition U16t := TInt 2.
Definition U32t := TInt 4.
Definition U64t := TInt 8.

Open Scope string_scope.

Definition BlockHeader_fields : list (string * ctype) :=
  [("version", U8t); ("prevBlockHash", TArr 32 U8t); ("merkleRoot", TArr 32 U8t);
   ("time", U32t); ("bits", U32t); ("nonce", U32t)].
Definition Input_fields : list (string * ctype) :=
  [("txid", TArr 32 U8t); ("vout", U32t); ("scriptSigSize", U16t); ("scriptSig", TPtr);
   ("sequence", U32t)].
Definition Output_fields : list (string * ctype) :=
  [("amount", U64t); ("scriptPubKeySize", U16t); ("scriptPubKey", TPtr)].
Definition StackItem_fields : list (string * ctype) := [("size", U16t); ("item", TPtr)].
Definition Witness_fields : list (string * ctype) :=
  [("stackItemsCount", U16t); ("stackItems", TPtr)].
Definition Transaction_fields : list (string * ctype) :=
  [("version", U32t); ("marker", U8t); ("flag", U8t); ("inputCount", U16t); ("inputs", TPtr);
   ("outputCount", U16t); ("outputs", TPtr); ("witnesses", TPtr); ("locktime", U32t);
   ("size", U16t); ("txid", TArr 32 U8t); ("wtxid", TArr 32 U8t)].
Definition Block_fields : list (string * ctype) :=
  [("magic", U32t); ("blockSize", U32t); ("txCount", U16t); ("hash", TArr 32 U8t);
   ("height", U64t); ("header", TStruct BlockHeader_fields); ("transactions", TPtr)].
Definition BlockIndexRecord_fields : list (string * ctype) :=
  [("blockHash", TArr 32 U8t); ("blockHeader", TStruct BlockHeader_fields); ("version", U64t);
   ("height", U64t); ("txCount", U64t); ("validationStatus", TInt 4); ("blockFile", U64t);
   ("blockOffset", U64t); ("undoFile", U64t); ("undoOffset", U64t)].
Definition BlockStats_fields : list (string * ctype) :=
  [("avgFee", U64t); ("avgFeeRate", U64t); ("avgTxSize", U64t); ("blockHash", TArr 32 U8t);
   ("height", U64t); ("ins", U64t); ("maxFee", U64t); ("maxTxSize", U64t); ("minFee", U64t);
   ("minFeeRate", U64t); ("outs", U64t); ("subsidy", U64t); ("swTotalSize", U64t);
   ("swTotalWeight", U64t); ("swTx", U64t); ("time", U64t); ("totalOut", U64t);
   ("totalSize", U64t); ("totalWeight", U64t); ("totalFee", U64t); ("txs", U64t);
   ("utxoIncrease", U64t)].

Close Scope string_scope.

(** The bytes [from, until) of a field, when the structure has it. *)
Definition extent_of (f : string) (fs : list (string * ctype)) : option (Z * Z) :=
  snd <$> list_find (λ p, p.1 = f) (extents 0 fs) ≫= λ p, Some p.2.

(** The other fields that a store of [n] bytes at the address of [f] touches. *)
Definition clobbered (fs : list (string * ctype)) (f : string) (n : Z) : list string :=
  match extent_of f fs with
  | None => []
  | Some (o, _) =>
      map fst (filter (λ p, p.1 ≠ f ∧ p.2.1 < o + n ∧ o < p.2.2) (extents 0 fs))
  end.

(** The fields that lie entirely in the first [n] bytes. *)
Definition fields_within (fs : list (string * ctype)) (n : Z) : list string :=
  map fst (filter (λ p, p.2.2 ≤ n) (extents 0 fs)).
