(* ===== verification/Specifics.v ===== *)
(** * bitcoin-specifics.c: hex, hashing, block headers, printing, initialisation

    Text is a [string]; the functions that write to a stream return what they write.
    A NUL-terminated C string in memory is a byte list in which the terminator is a 0. *)

From S2P Require Import Prelude BigInts Sha256 Structs.
Import SHA.

(** ** Hexadecimal *)

(** The characters [strtol] skips, and the value of a digit in base 16. *)
Definition isspace (c : Z) : bool := (c =? 32) || ((9 <=? c) && (c <=? 13)).

Definition digit16 (c : Z) : option Z :=
  if (48 <=? c) && (c <=? 57) then Some (c - 48)
  else if (97 <=? c) && (c <=? 102) then Some (c - 87)
  else if (65 <=? c) && (c <=? 70) then Some (c - 55)
  else None.

Fixpoint skip_spaces (s : list Z) : list Z :=
  match s with c :: s' => if isspace c then skip_spaces s' else s | [] => [] end.

(** The value of the leading digits and what follows them. *)
Fixpoint read_digits16 (s : list Z) (acc : Z) : Z * list Z :=
  match s with
  | c :: s' => match digit16 c with Some d => read_digits16 s' (acc * 16 + d) | None => (acc, s) end
  | [] => (acc, s)
  end.

(** [strtol(s, &endptr, 16)] for a short string [s] (without its terminator): the value
    and the characters from [endptr] on.  Without digits nothing is consumed. *)
Definition strtol16 (s : list Z) : Z * list Z :=
  let s1 := skip_spaces s in
  let '(neg, s2) := match s1 with
    | 45 :: s2 => (true, s2) | 43 :: s2 => (false, s2) | _ => (false, s1) end in
  let s3 := match s2 with
    | 48 :: (120 | 88) :: c :: s3 => match digit16 c with Some _ => c :: s3 | None => s2 end | _ => s2 end in
  match s3 with
  | c :: _ => match digit16 c with
      | Some _ => let '(v, rest) := read_digits16 s3 0 in (if neg then - v else v, rest)
      | None => (0, s) end
  | [] => (0, s)
  end.

(** The string up to the first NUL. *)
Fixpoint c_string (s : list Z) : list Z :=
  match s with c :: s' => if c =? 0 then [] else c :: c_string s' | [] => [] end.

(** The loop from iteration [i] on, [n] iterations left; the result is the output buffer
    and the return value. *)
Fixpoint HexToBytes_loop (n : nat) (i : Z) (out hex : list Z) : outcome (list Z * Z) :=
  match n with
  | O => Ok (out, 1)
  | S n =>
      c0 ← byte_at hex (i * 2); c1 ← byte_at hex (i * 2 + 1);
      let '(v, endptr) := strtol16 (c_string [c0; c1; 0]) in
      let out := <[Z.to_nat i := u8 v]> out in
      match endptr with [] => HexToBytes_loop n (i + 1) out hex | _ => Ok (out, 0) end
  end.

Definition HexToBytes (out hex : list Z) : outcome (list Z * Z) := HexToBytes_loop 32 0 out hex.

(** A lower-case hexadecimal digit, as a character code. *)
Definition hexDigits (d : Z) : Z := if d <? 10 then 48 + d else 87 + d.

(** The characters stored at [output], the terminator included. *)
Definition BytesToHex (bytes : list Z) : list Z :=
  flat_map (λ b, [hexDigits (Z.land (Z.shiftr b 4) 0x0F); hexDigits (Z.land b 0x0F)]) bytes ++ [0].

(** ** Byte order and hashing *)

(** [for (i = 0, j = size - 1; i < j; i++, j--)]: the indices are [size_t]s. *)
Fixpoint ReverseString_loop (fuel : nat) (str : list Z) (i j : Z) : outcome (list Z) :=
  match fuel with
  | O => Fault Diverges
  | S fuel =>
      if i <? j then
        tmp ← byte_at str i; sj ← byte_at str j;
        ReverseString_loop fuel (<[Z.to_nat j := tmp]> (<[Z.to_nat i := sj]> str)) (i + 1) (j - 1)
      else Ok str
  end.

Definition ReverseString (str : list Z) (size : Z) : outcome (list Z) :=
  ReverseString_loop (S (length str)) str 0 (u64 (size - 1)).

(** The context is an uninitialised local: [blank_ctx] stands for what it holds, which
    does not matter ([sha256_ok]). *)
Definition SHA256 (data : list Z) : outcome (list Z) :=
  ctx ← sha256_update (sha256_init blank_ctx) data;
  ReverseString (snd (sha256_final ctx)) 32.

Definition DoubleSHA256 (data : list Z) : outcome (list Z) :=
  ctx ← sha256_update (sha256_init blank_ctx) data;
  let '(ctx, hash) := sha256_final ctx in
  ctx ← sha256_update (sha256_init ctx) (take 32 hash);
  let '(ctx, hash) := sha256_final ctx in
  ReverseString hash 32.

(** ** Block headers *)

(** The four bytes copied to the one-byte [version] spill into [prevBlockHash], which is
    assigned next. *)
Definition DecodeBlockHeader (raw : list Z) : outcome BlockHeader :=
  v ← read_at raw 0 4;
  prev ← read_at raw 4 SHA256_HASH_SIZE;
  prev ← ReverseString prev SHA256_HASH_SIZE;
  root ← read_at raw 36 SHA256_HASH_SIZE;
  root ← ReverseString root SHA256_HASH_SIZE;
  t ← read_at raw 68 4;
  b ← read_at raw 72 4;
  n ← read_at raw 76 4;
  Ok {| hdr_version := hd 0 v; prevBlockHash := prev; merkleRoot := root;
        hdr_time := le_value t; bits := le_value b; nonce := le_value n |}.

(** ** Properties: reversal and hashing *)

Lemma insert_app_mid {A} (l r : list A) x y i :
  i = length l → <[i:=y]> (l ++ x :: r) = l ++ y :: r.
Proof. intros ->. by rewrite insert_app_r_alt, Nat.sub_diag by lia. Qed.

(** The two ends of the part still to be reversed are swapped. *)
Lemma ReverseString_loop_spec fuel l m r :
  (length m < fuel)%nat → (0 < length (l ++ m))%nat →
  ReverseString_loop fuel (l ++ m ++ r) (len l) (len (l ++ m) - 1) = Ok (l ++ reverse m ++ r).
Proof.
  revert l m r. induction fuel as [|fuel IH]; intros l m r Hf Hpos; [lia|].
  cbn [ReverseString_loop]. rewrite length_app in *.
  destruct m as [|x m]; [|destruct m as [|y m _] using rev_ind].
  - cbn [length]. by decide_tests.
  - cbn [length]. by decide_tests.
  - cbn [app length] in *. rewrite length_app in *. cbn [length] in *. decide_tests.
    rewrite (byte_at_app l _ x (len l)), outcome_bind_ok by done.
    assert (Hassoc : ∀ a b, l ++ a :: (m ++ [b]) ++ r = (l ++ a :: m) ++ b :: r)
      by (intros; by rewrite <- (app_assoc m), <- (app_assoc l)).
    rewrite Hassoc, byte_at_app, outcome_bind_ok
      by (rewrite length_app; cbn [length]; lia).
    rewrite <- Hassoc, insert_app_mid, Hassoc by lia.
    rewrite insert_app_mid by (rewrite length_app; cbn [length]; lia).
    specialize (IH (l ++ [y]) m (x :: r)). rewrite !length_app in IH. cbn [length] in IH.
    rewrite <- !app_assoc in IH. cbn [app] in IH. rewrite <- app_assoc. cbn [app].
    replace (len l + 1) with (Z.of_nat (length l + 1)) by lia.
    replace (Z.of_nat (length l + S (length m + 1)) - 1 - 1)
      with (Z.of_nat (length l + 1 + length m) - 1) by lia.
    rewrite IH by lia. by rewrite reverse_cons, reverse_snoc, <- app_assoc.
Qed.

(** Reversing a non-empty array. *)
Lemma ReverseString_spec str size :
  size = len str → 0 < size < 2 ^ 64 → ReverseString str size = Ok (reverse str).
Proof.
  intros -> Hs. unfold ReverseString. rewrite wrap_small by (unfold in_width; lia).
  pose proof (ReverseString_loop_spec (S (length str)) [] str []) as H.
  cbn [app length] in H. rewrite !app_nil_r in H. apply H; lia.
Qed.

Lemma ReverseString_empty : ReverseString [] 0 = Fault OutOfBounds.
Proof. reflexivity. Qed.

Lemma flat_map_be_length l : length (flat_map (FIPS.be_bytes 4) l) = (4 * length l)%nat.
Proof.
  induction l as [|x l IH]; [done|]. cbn [flat_map length].
  rewrite length_app, IH, be_bytes_length. lia.
Qed.

Lemma flat_map_be_bytes l : bytes (flat_map (FIPS.be_bytes 4) l).
Proof.
  induction l as [|x l IH]; [done|]. apply Forall_app. split; [|done].
  apply Forall_reverse, le_bytes_bytes.
Qed.

Lemma digest_length msg : length (FIPS.sha256 msg) = 32%nat.
Proof.
  unfold FIPS.sha256. rewrite flat_map_be_length.
  pose proof (hash_blocks_length (length (FIPS.pad msg) / 64) (FIPS.pad msg)) as H.
  unfold hash_blocks in H. rewrite H. done.
Qed.

Lemma digest_bytes msg : bytes (FIPS.sha256 msg).
Proof. apply flat_map_be_bytes. Qed.

(** The contents of the context are irrelevant once it is initialised. *)
Lemma init_update_final ctx msg :
  length (data ctx) = 64%nat → bytes msg → len msg < 2 ^ 32 →
  ∃ ctx', sha256_update (sha256_init ctx) msg = Ok ctx' ∧
    snd (sha256_final ctx') = FIPS.sha256 msg ∧ length (data (fst (sha256_final ctx'))) = 64%nat.
Proof.
  intros Hc Hb Hlen. unfold sha256_update. decide_tests. eexists. split; [done|].
  assert (Hr : represents (fold_left sha256_update_byte msg (sha256_init ctx)) msg).
  { apply (represents_update _ []); [done|]. by apply represents_init. }
  split; [apply final_spec; [done|lia]|]. by apply final_data_length with msg.
Qed.

(** The double hash, in display order. *)
Definition hash256 (msg : list Z) : list Z := reverse (FIPS.sha256 (FIPS.sha256 msg)).

Lemma hash256_length msg : length (hash256 msg) = 32%nat.
Proof. unfold hash256. by rewrite length_reverse, digest_length. Qed.

Lemma DoubleSHA256_spec msg : bytes msg → len msg < 2 ^ 32 → DoubleSHA256 msg = Ok (hash256 msg).
Proof.
  intros Hb Hl. unfold DoubleSHA256.
  destruct (init_update_final blank_ctx msg) as (c1 & E1 & Hd & Hc); [done..|].
  rewrite E1, outcome_bind_ok. destruct (sha256_final c1) as [c h]. cbn [fst snd] in Hd, Hc.
  subst h. rewrite take_ge by (by rewrite digest_length).
  destruct (init_update_final c (FIPS.sha256 msg)) as (c2 & E2 & Hd2 & _);
    [done|apply digest_bytes|by rewrite digest_length|].
  rewrite E2, outcome_bind_ok. destruct (sha256_final c2) as [c' h]. cbn [snd] in Hd2. subst h.
  apply ReverseString_spec; [by rewrite digest_length|lia].
Qed.

(** ** Hexadecimal round trip *)

Definition hex_pair (b : Z) : list Z :=
  [hexDigits (Z.land (Z.shiftr b 4) 0x0F); hexDigits (Z.land b 0x0F)].

(** What [strtol] makes of the two digits of a byte. *)
Lemma strtol16_hex_pair b :
  is_byte b → strtol16 (c_string (hex_pair b ++ [0])) = (b, []).
Proof.
  intros Hb.
  pose (P := λ b, bool_decide (strtol16 (c_string (hex_pair b ++ [0])) = (b, []))).
  assert (H : P b = true) by (apply byte_forall; [by vm_compute|done]).
  by apply bool_decide_eq_true in H.
Qed.

Lemma flat_map_hex_length l : length (flat_map hex_pair l) = (2 * length l)%nat.
Proof. induction l as [|b l IH]; [done|]. cbn [flat_map length]. rewrite length_app, IH. cbn. lia. Qed.

Lemma BytesToHex_app l l' : BytesToHex (l ++ l') = flat_map hex_pair l ++ BytesToHex l'.
Proof. unfold BytesToHex. by rewrite flat_map_app, <- app_assoc. Qed.

Lemma HexToBytes_loop_spec n pre l out :
  bytes l → length out = (length pre + n)%nat →
  HexToBytes_loop n (len pre) (pre ++ drop (length pre) out) (BytesToHex (pre ++ l)) =
    if decide (length l < n)%nat then Fault OutOfBounds
    else Ok (pre ++ take n l, 1).
Proof.
  revert pre l. induction n as [|n IH]; intros pre l Hb Hlen.
  { rewrite decide_False, drop_ge, take_0 by lia. done. }
  cbn [HexToBytes_loop]. rewrite BytesToHex_app. destruct l as [|b l].
  { rewrite decide_True by (cbn; lia). unfold BytesToHex. cbn [flat_map app].
    rewrite (byte_at_app _ _ _ (len pre * 2)), outcome_bind_ok by (rewrite flat_map_hex_length; lia).
    unfold byte_at. decide_tests. rewrite lookup_ge_None_2; [done|].
    rewrite length_app, flat_map_hex_length. cbn. lia. }
  inversion Hb as [|? ? Hb1 Hb2]; subst.
  change (BytesToHex (b :: l)) with
    (hexDigits (Z.land (Z.shiftr b 4) 0x0F) :: hexDigits (Z.land b 0x0F) :: BytesToHex l).
  rewrite (byte_at_app _ _ _ (len pre * 2)), outcome_bind_ok by (rewrite flat_map_hex_length; lia).
  rewrite (cons_middle _ (flat_map hex_pair pre)), app_assoc, (byte_at_app _ _ _ (len pre * 2 + 1)), outcome_bind_ok
    by (rewrite length_app, flat_map_hex_length; cbn; lia).
  change [hexDigits _; hexDigits _; 0] with (hex_pair b ++ [0]).
  rewrite strtol16_hex_pair, wrap_small by done.
  rewrite Nat2Z.id. destruct (drop (length pre) out) as [|o out'] eqn:Eo.
  { apply (f_equal length) in Eo. rewrite length_drop in Eo. cbn in Eo. lia. }
  rewrite insert_app_mid by done.
  specialize (IH (pre ++ [b]) l Hb2). rewrite length_app in IH. cbn [length] in IH.
  rewrite <- app_assoc in IH. cbn [app] in IH.
  replace (len pre + 1) with (Z.of_nat (length pre + 1)) by lia.
  assert (Eo' : drop (length pre + 1) out = out').
  { rewrite <- drop_drop, Eo. done. }
  rewrite Eo', <- app_assoc in IH. cbn [app] in IH.
  rewrite <- app_assoc. cbn [app].
  change (flat_map hex_pair pre ++ hexDigits _ :: hexDigits _ :: BytesToHex l)
    with (flat_map hex_pair pre ++ BytesToHex (b :: l)).
  rewrite <- BytesToHex_app, IH by lia. cbn [length].
  destruct (decide (length l < n)%nat), (decide (S (length l) < S n)%nat); try lia; [done|].
  by rewrite <- app_assoc.
Qed.

(** [HexToBytes] reads back what [BytesToHex] wrote, 32 bytes of it, and returns 1;
    a shorter text is not recognised as such: its terminator is skipped and the reading
    goes on past the end of the string. *)
Theorem HexToBytes_BytesToHex l out :
  bytes l → length out = 32%nat →
  HexToBytes out (BytesToHex l) =
    if decide (length l < 32)%nat then Fault OutOfBounds else Ok (take 32 l, 1).
Proof. intros Hb Ho. exact (HexToBytes_loop_spec 32 [] l out Hb Ho). Qed.

Lemma HexToBytes_BytesToHex_witness :
  HexToBytes (replicate 32 0) (BytesToHex (replicate 32 0xAB)) = Ok (replicate 32 0xAB, 1) ∧
  HexToBytes (replicate 32 0) (BytesToHex [0xAB]) = Fault OutOfBounds.
Proof.
  split.
  - rewrite (HexToBytes_BytesToHex (replicate 32 0xAB) (replicate 32 0)); [done| |done].
    apply Forall_replicate. unfold in_width. lia.
  - rewrite (HexToBytes_BytesToHex [0xAB] (replicate 32 0)); [done| |done].
    repeat constructor; unfold in_width; lia.
Defined.

(** A sign or a space is taken for a digit of the pair. *)
Lemma HexToBytes_accepts_sign :
  HexToBytes (replicate 32 0) (concat (replicate 32 [45; 53])) = Ok (replicate 32 0xFB, 1).
Proof. vm_compute. reflexivity. Qed.
