(* ===== verification/World.v ===== *)
(** * The world the library runs in

    The global environment [gEnv], the static cache [openFiles], the heap, the streams,
    the file system and the console, as one state threaded by a state-and-error monad;
    the C library calls the sources make, as operations on it.  What the platform decides
    (time, memory exhaustion, indeterminate bytes, the shell) is the class [Platform]. *)

From S2P Require Import Prelude Structs.

(** ** State *)

(** [path_addr] is the allocation that holds the path; the stream is a handle number, or
    NULL. *)
Record FileInfo : Type := {
  path_addr : nat; filepath : string; isOpen : bool; file : option nat
}.

(** The array [files] is NULL when listing failed. *)
Record FileList : Type := {
  files : option (buf FileInfo);
  files_count : Z;
  totalSize : Z
}.

(** [fileInfo] is an index of the array [gEnv.blkFiles.files]. *)
Record OpenFileCache : Type := { fileInfo : option nat; lastAccessTime : Z }.

Record MLBTCC_ENV : Type := {
  dataDir : string; blocksDir : string; indexesDir : string; chainstateDir : string;
  status : Z;
  blkFiles : FileList;
  indexRecords : IndexRecords;
  xorKey : list Z                (* U8[8] *)
}.

(** An open stream: the contents of its file and the position. *)
Record stream : Type := { contents : list Z; position : Z }.

Record os : Type := {
  disk : gmap string (list Z);           (* regular files *)
  dirs : gmap string (list string);      (* directories, with their entries *)
  envvar : gmap string string            (* environment variables *)
}.

Record heap : Type := { next : nat; live : gset nat }.

Record world : Type := World {
  w_env : MLBTCC_ENV;
  openFiles : list OpenFileCache;
  w_heap : heap;
  streams : gmap nat stream;
  next_stream : nat;
  ticks : nat;                           (* calls of [time] and [popen] so far *)
  w_os : os;
  console : list string                  (* what was written, oldest first *)
}.

Definition set_env (e : MLBTCC_ENV) (w : world) : world :=
  World e (openFiles w) (w_heap w) (streams w) (next_stream w) (ticks w) (w_os w) (console w).
Definition set_openFiles (c : list OpenFileCache) (w : world) : world :=
  World (w_env w) c (w_heap w) (streams w) (next_stream w) (ticks w) (w_os w) (console w).
Definition set_heap (h : heap) (w : world) : world :=
  World (w_env w) (openFiles w) h (streams w) (next_stream w) (ticks w) (w_os w) (console w).
Definition set_streams (s : gmap nat stream) (n : nat) (w : world) : world :=
  World (w_env w) (openFiles w) (w_heap w) s n (ticks w) (w_os w) (console w).
Definition set_ticks (t : nat) (w : world) : world :=
  World (w_env w) (openFiles w) (w_heap w) (streams w) (next_stream w) t (w_os w) (console w).
Definition set_os (o : os) (w : world) : world :=
  World (w_env w) (openFiles w) (w_heap w) (streams w) (next_stream w) (ticks w) o (console w).
Definition set_console (c : list string) (w : world) : world :=
  World (w_env w) (openFiles w) (w_heap w) (streams w) (next_stream w) (ticks w) (w_os w) c.

Definition set_blkFiles (f : FileList) (e : MLBTCC_ENV) : MLBTCC_ENV :=
  {| dataDir := dataDir e; blocksDir := blocksDir e; indexesDir := indexesDir e;
     chainstateDir := chainstateDir e; status := status e; blkFiles := f;
     indexRecords := indexRecords e; xorKey := xorKey e |}.
Definition set_indexRecords (r : IndexRecords) (e : MLBTCC_ENV) : MLBTCC_ENV :=
  {| dataDir := dataDir e; blocksDir := blocksDir e; indexesDir := indexesDir e;
     chainstateDir := chainstateDir e; status := status e; blkFiles := blkFiles e;
     indexRecords := r; xorKey := xorKey e |}.
Definition set_xorKey (k : list Z) (e : MLBTCC_ENV) : MLBTCC_ENV :=
  {| dataDir := dataDir e; blocksDir := blocksDir e; indexesDir := indexesDir e;
     chainstateDir := chainstateDir e; status := status e; blkFiles := blkFiles e;
     indexRecords := indexRecords e; xorKey := k |}.
Definition set_status (s : Z) (e : MLBTCC_ENV) : MLBTCC_ENV :=
  {| dataDir := dataDir e; blocksDir := blocksDir e; indexesDir := indexesDir e;
     chainstateDir := chainstateDir e; status := s; blkFiles := blkFiles e;
     indexRecords := indexRecords e; xorKey := xorKey e |}.
Definition set_dirs (b i : string) (e : MLBTCC_ENV) : MLBTCC_ENV :=
  {| dataDir := dataDir e; blocksDir := b; indexesDir := i;
     chainstateDir := chainstateDir e; status := status e; blkFiles := blkFiles e;
     indexRecords := indexRecords e; xorKey := xorKey e |}.

(** ** The monad *)

Definition M (A : Type) : Type := world → outcome (A * world).

#[export] Instance M_ret : MRet M := λ A a w, Ok (a, w).
#[export] Instance M_bind : MBind M := λ A B f m w,
  match m w with Ok (a, w) => f a w | Fault e => Fault e | Exits c => Exits c end.
#[export] Instance M_fmap : FMap M := λ A B f m, m ≫= λ a, mret (f a).

Definition get : M world := λ w, Ok (w, w).
Definition modify (f : world → world) : M unit := λ w, Ok (tt, f w).
Definition fail {A} (e : fault) : M A := λ _, Fault e.
Definition exit {A} (c : Z) : M A := λ _, Exits c.

(** A computation that does not touch the world. *)
Definition lift {A} (o : outcome A) : M A := λ w,
  match o with Ok a => Ok (a, w) | Fault e => Fault e | Exits c => Exits c end.

(** The value of a pointer that is dereferenced. *)
Definition deref {A} (p : option A) : M A :=
  match p with Some a => mret a | None => fail NullPointer end.

Lemma M_bind_ok {A B} (m : M A) (f : A → M B) w a w' : m w = Ok (a, w') → (m ≫= f) w = f a w'.
Proof. intros H. unfold mbind, M_bind. by rewrite H. Qed.

Lemma M_bind_ret {A B} (a : A) (f : A → M B) : (mret a ≫= f) = f a.
Proof. reflexivity. Qed.

Lemma M_lift_ok {A B} (o : outcome A) (f : A → M B) a w : o = Ok a → (lift o ≫= f) w = f a w.
Proof. by intros ->. Qed.

Lemma M_modify {B} g (f : unit → M B) w : (modify g ≫= f) w = f tt (g w).
Proof. reflexivity. Qed.

Lemma M_get {B} (f : world → M B) w : (get ≫= f) w = f w w.
Proof. reflexivity. Qed.

Lemma M_bind_assoc {A B C} (m : M A) (f : A → M B) (g : B → M C) w :
  ((m ≫= f) ≫= g) w = (m ≫= λ a, f a ≫= g) w.
Proof. unfold mbind, M_bind. by destruct (m w) as [[]| |]. Qed.

(** ** The platform *)

(** The broken-down time of [localtime]: years since 1900, months from 0. *)
Record tm : Type := {
  tm_year : Z; tm_mon : Z; tm_mday : Z; tm_hour : Z; tm_min : Z; tm_sec : Z
}.

Class Platform : Type := {
  localtime : Z → tm;                     (* the time zone of the machine *)
  now : nat → Z;                          (* what the n-th call of [time(NULL)] returns *)
  oom : nat → Z → bool;                   (* the n-th [malloc], of that many bytes, fails *)
  junk : nat → Z;                         (* the indeterminate byte at an index *)
  dir_size : string → Z;                  (* [st_size] of a directory *)
  shell : string → os → os * Z;           (* [system] *)
  shell_lines : nat → string → os → option (list string)   (* [popen]: the lines read from it *)
}.

Section calls.
Context `{Platform}.

(** ** Calls of the C library *)

(** [malloc]: a fresh allocation, or NULL.  [malloc(0)] does not fail. *)
Definition malloc (size : Z) : M (option nat) := λ w,
  let h := w_heap w in
  if (0 <? size) && oom (next h) size then Ok (None, set_heap {| next := S (next h); live := live h |} w)
  else Ok (Some (next h), set_heap {| next := S (next h); live := {[next h]} ∪ live h |} w).

(** A [malloc] whose result is used without a test. *)
Definition malloc_unchecked (size : Z) : M nat := p ← malloc size; deref p.

Definition free (a : nat) : M unit := λ w,
  if decide (a ∈ live (w_heap w))
  then Ok (tt, set_heap {| next := next (w_heap w); live := live (w_heap w) ∖ {[a]} |} w)
  else Fault BadFree.

(** Freeing a pointer that may be NULL. *)
Definition free_opt (p : option nat) : M unit :=
  match p with None => mret tt | Some a => free a end.

Definition printf (s : string) : M unit := modify (λ w, set_console (console w ++ [s]) w).

(** [(U32)time(NULL)] *)
Definition time_u32 : M Z := λ w, Ok (u32 (now (ticks w)), set_ticks (S (ticks w)) w).

Definition fopen (path : string) : M (option nat) := λ w,
  match disk (w_os w) !! path with
  | None => Ok (None, w)
  | Some c => Ok (Some (next_stream w),
      set_streams (<[next_stream w := {| contents := c; position := 0 |}]> (streams w))
        (S (next_stream w)) w)
  end.

(** The stream behind a [FILE *]. *)
Definition stream_of (f : option nat) : M (nat * stream) :=
  h ← deref f; w ← get;
  match streams w !! h with Some s => mret (h, s) | None => fail BadFree end.

Definition fclose (f : option nat) : M unit :=
  '(h, _) ← stream_of f;
  modify (λ w, set_streams (delete h (streams w)) (next_stream w) w).

(** [fseek(f, off, SEEK_SET)]: a negative [long] is refused. *)
Definition fseek (f : option nat) (off : Z) : M Z :=
  '(h, s) ← stream_of f;
  if off <? 0 then mret (-1) else
  _ ← modify (λ w, set_streams (<[h := {| contents := contents s; position := off |}]> (streams w))
                    (next_stream w) w);
  mret 0.

(** [fread(dst, 1, n, f)]: the bytes that could be read. *)
Definition fread (n : Z) (f : option nat) : M (list Z) :=
  '(h, s) ← stream_of f;
  let got := take (Z.to_nat n) (drop (Z.to_nat (position s)) (contents s)) in
  _ ← modify (λ w, set_streams (<[h := {| contents := contents s;
                       position := position s + len got |}]> (streams w)) (next_stream w) w);
  mret got.

(** An object of [n] bytes of which only the first were stored. *)
Definition fill_junk (n : Z) (got : list Z) : list Z :=
  got ++ map junk (seq (length got) (Z.to_nat n - length got)).

(** [stat] says that the path is a directory. *)
Definition IsDirectory (path : string) : M bool :=
  w ← get; mret (bool_decide (is_Some (dirs (w_os w) !! path))).

Definition system (command : string) : M Z := λ w,
  let '(o, r) := shell command (w_os w) in Ok (r, set_os o w).

(** [opendir] and the names [readdir] will give. *)
Definition opendir (path : string) : M (option (list string)) :=
  w ← get; mret (dirs (w_os w) !! path).

Definition getenv (name : string) : M (option string) :=
  w ← get; mret (envvar (w_os w) !! name).

Definition no_oom : Prop := ∀ n size, oom n size = false.

End calls.

(** ** Heaps *)

(** [n] allocations later, of which those of [l] are still live. *)
Definition grow (n : nat) (l : list nat) (w : world) : world :=
  set_heap {| next := next (w_heap w) + n; live := live (w_heap w) ∪ list_to_set l |} w.

(** Allocation numbers are given in order. *)
Definition heap_ok (w : world) : Prop := ∀ a, a ∈ live (w_heap w) → (a < next (w_heap w))%nat.

(** A footprint: addresses among the [n] from [a] on. *)
Definition within (a n : nat) (l : list nat) : Prop := Forall (λ x, a ≤ x < a + n)%nat l.

Lemma set_heap_id w : set_heap (w_heap w) w = w.
Proof. by destruct w. Qed.

(** Nothing but the heap differs. *)
Definition heap_only (w w' : world) : Prop := w' = set_heap (w_heap w') w.

#[export] Instance heap_only_refl : Reflexive heap_only.
Proof. intros w. unfold heap_only. by rewrite set_heap_id. Qed.
#[export] Instance heap_only_trans : Transitive heap_only.
Proof. intros w1 w2 w3 H1 H2. unfold heap_only in *. rewrite H2, H1. done. Qed.

Lemma heap_only_grow n l w : heap_only w (grow n l w).
Proof. done. Qed.

Lemma grow_0 w : grow 0 [] w = w.
Proof.
  unfold grow. destruct w as [e c [n l]]; cbn. rewrite union_empty_r_L, Nat.add_0_r. done.
Qed.

Lemma grow_grow n m l l' w : grow m l' (grow n l w) = grow (n + m) (l ++ l') w.
Proof.
  unfold grow. cbn. unfold set_heap at 1. cbn.
  by rewrite list_to_set_app_L, union_assoc_L, Nat.add_assoc.
Qed.

Lemma next_grow n l w : next (w_heap (grow n l w)) = (next (w_heap w) + n)%nat.
Proof. done. Qed.

Lemma live_grow n l w a : a ∈ live (w_heap (grow n l w)) ↔ a ∈ live (w_heap w) ∨ a ∈ l.
Proof. unfold grow. cbn. by rewrite elem_of_union, elem_of_list_to_set. Qed.

Lemma within_app a n m l l' : within a n l → within (a + n) m l' → within a (n + m) (l ++ l').
Proof.
  intros H1 H2. apply Forall_app. split; eapply Forall_impl; [done| |done|]; cbn; lia.
Qed.

Lemma within_seq a n : within a n (seq a n).
Proof. apply Forall_forall. intros x. rewrite elem_of_seq. done. Qed.

Lemma within_seq' a n m : n = m → within a n (seq a m).
Proof. intros ->. apply within_seq. Qed.

Lemma within_widen a n b m l :
  within a n l → (b ≤ a)%nat → (a + n ≤ b + m)%nat → within b m l.
Proof. intros H1 ? ?. eapply Forall_impl; [done|]. cbn. lia. Qed.

Lemma heap_ok_grow n l w : heap_ok w → within (next (w_heap w)) n l → heap_ok (grow n l w).
Proof.
  intros Hw Hl a Ha. rewrite next_grow. apply live_grow in Ha as [Ha|Ha].
  - apply Hw in Ha. lia.
  - unfold within in Hl. rewrite Forall_forall in Hl. apply Hl in Ha. lia.
Qed.

Lemma malloc_unchecked_ok `{Platform} size w :
  no_oom → malloc_unchecked size w = Ok (next (w_heap w), grow 1 [next (w_heap w)] w).
Proof.
  intros Ho. unfold malloc_unchecked, malloc, mbind, M_bind. rewrite Ho, andb_false_r. cbn.
  unfold grow. cbn. rewrite union_empty_r_L, union_comm_L, Nat.add_1_r. done.
Qed.

Lemma malloc_ok `{Platform} size w :
  no_oom → malloc size w = Ok (Some (next (w_heap w)), grow 1 [next (w_heap w)] w).
Proof.
  intros Ho. unfold malloc. rewrite Ho, andb_false_r.
  unfold grow. cbn. by rewrite union_empty_r_L, union_comm_L, Nat.add_1_r.
Qed.

Lemma free_grow_head a n l w :
  a ∉ live (w_heap w) → a ∉ l → free a (grow n (a :: l) w) = Ok (tt, grow n l w).
Proof.
  intros Hw Hl. unfold free. rewrite decide_True by (apply live_grow; right; constructor).
  unfold grow, set_heap. cbn. do 3 f_equal. f_equal. apply set_eq. intros x.
  rewrite elem_of_difference, elem_of_singleton, !elem_of_union, elem_of_singleton,
    elem_of_list_to_set. split; [tauto|]. intros [Hx|Hx]; (split; [tauto|]); intros ->; tauto.
Qed.

(** Freeing a temporary: the last footprint is dropped. *)
Lemma free_grow a n l w :
  heap_ok w → within (next (w_heap w)) n l → (next (w_heap w) ≤ a)%nat → a ∉ l →
  free a (grow n (l ++ [a]) w) = Ok (tt, grow n l w).
Proof.
  intros Hw Hl Ha Hal. unfold free. rewrite decide_True.
  2:{ apply live_grow. right. set_solver. }
  unfold grow, set_heap. cbn. do 3 f_equal. f_equal.
  assert (Hlw : a ∉ live (w_heap w)) by (intros Hin; apply Hw in Hin; lia).
  clear Hw Hl Ha. rewrite list_to_set_app_L. set_solver.
Qed.

(** ** A concrete world, for the witnesses *)

(** A platform that never runs out of memory. *)
Definition sample_platform : Platform := {|
  localtime := λ _, {| tm_year := 109; tm_mon := 0; tm_mday := 3; tm_hour := 18; tm_min := 15; tm_sec := 5 |};
  now := λ n, Z.of_nat n; oom := λ _ _, false; junk := λ _, 0xCC;
  dir_size := λ _, 4096; shell := λ _ o, (o, 0); shell_lines := λ _ _ _, None |}.

Definition empty_os : os := {| disk := ∅; dirs := ∅; envvar := ∅ |}.
Definition empty_env : MLBTCC_ENV :=
  {| dataDir := ""; blocksDir := ""; indexesDir := ""; chainstateDir := ""; status := 0;
     blkFiles := {| files := None; files_count := 0; totalSize := 0 |};
     indexRecords := {| blockIndexRecord := []; blockIndexRecordCount := 0;
       fileInformationRecord := []; fileInformationRecordCount := 0;
       coinRecord := []; coinRecordCount := 0 |};
     xorKey := replicate 8 0 |}.
Definition empty_world : world :=
  World empty_env (replicate MAX_OPEN_FILES {| fileInfo := None; lastAccessTime := 0 |})
    {| next := 0; live := ∅ |} ∅ 0 0 empty_os [].

Lemma empty_heap_ok : heap_ok empty_world.
Proof. intros a Ha. by apply elem_of_empty in Ha. Qed.
