(* ===== verification/ReadTxn.v ===== *)
(** * blkdat.c, ReadTxn: the transactions of a block

    The reader walks the buffer with an offset; every array it fills is a fresh
    allocation.  [Wire] is the abstract transaction with its serialisation, and [load_tx]
    the structure the reader must build for it in memory. *)

From S2P Require Import Prelude BigInts Sha256 Structs Specifics World.

Section reader.
Context `{Platform}.
Variable blockBuffer : list Z.

(** [CompactSizeDecode] into a [uint16_t] field through a [U64 *]: the field gets the low
    16 bits.  What the object held before does not matter, as it is always assigned. *)
Definition read_count (off : Z) : M (Z * Z) :=
  '(n, v) ← lift (CompactSizeDecode (Some (drop (Z.to_nat off) blockBuffer))
                    MAX_COMPACT_SIZE_BYTES (Some 0));
  mret (u16 (default 0 v), off + n).

(** A loop that reads [n] elements one after the other. *)
Fixpoint read_array {A} (item : Z → M (A * Z)) (n : nat) (off : Z) : M (list A * Z) :=
  match n with
  | O => mret ([], off)
  | S n =>
      '(x, off) ← item off;
      '(l, off) ← read_array item n off;
      mret (x :: l, off)
  end.

(** A count, the array allocated for it, and its elements. *)
Definition read_counted {A} (t : list (string * ctype)) (item : Z → M (A * Z)) (off : Z)
    : M ((Z * buf A) * Z) :=
  '(count, off) ← read_count off;
  p ← malloc_unchecked (sizeof (TStruct t) * count);
  '(l, off) ← read_array item (Z.to_nat count) off;
  mret ((count, Buf p l), off).

Definition read_input (off : Z) : M (Input * Z) :=
  id ← lift (read_at blockBuffer off SHA256_HASH_SIZE);
  v ← lift (read_at blockBuffer (off + SHA256_HASH_SIZE) 4);
  '(size, off) ← read_count (off + SHA256_HASH_SIZE + 4);
  p ← malloc_unchecked size;
  script ← lift (read_at blockBuffer off size);
  s ← lift (read_at blockBuffer (off + size) 4);
  mret ({| in_txid := id; vout := le_value v; scriptSigSize := size;
           scriptSig := Buf p script; sequence := le_value s |}, off + size + 4).

Definition read_output (off : Z) : M (Output * Z) :=
  a ← lift (read_at blockBuffer off 8);
  '(size, off) ← read_count (off + 8);
  p ← malloc_unchecked size;
  script ← lift (read_at blockBuffer off size);
  mret ({| amount := le_value a; scriptPubKeySize := size; scriptPubKey := Buf p script |},
        off + size).

Definition read_item (off : Z) : M (StackItem * Z) :=
  '(size, off) ← read_count off;
  p ← malloc_unchecked size;
  data ← lift (read_at blockBuffer off size);
  mret ({| item_size := size; item := Buf p data |}, off + size).

Definition read_witness (off : Z) : M (Witness * Z) :=
  '((count, items), off) ← read_counted StackItem_fields read_item off;
  mret ({| stackItemsCount := count; stackItems := items |}, off).

(** One witness per input, for a SegWit transaction. *)
Definition read_witnesses (isSegwit : bool) (n_in off : Z) : M (option (buf Witness) * Z) :=
  if isSegwit then
    p ← malloc_unchecked (sizeof (TStruct Witness_fields) * n_in);
    '(ws, off) ← read_array read_witness (Z.to_nat n_in) off;
    mret (Some (Buf p ws), off)
  else mret (None, off).

(** The hash of a temporary copy of the transaction. *)
Definition hash_transaction (startPosOffset size : Z) : M (list Z) :=
  wtxBuffer ← malloc_unchecked size;
  raw ← lift (read_at blockBuffer startPosOffset size);
  id ← lift (DoubleSHA256 raw);
  _ ← free wtxBuffer;
  mret id.

(** Version, marker, flag and [isSegwit]: six bytes are looked at, four or six consumed. *)
Definition read_prefix (off : Z) : M ((Z * Z * Z * bool) * Z) :=
  prefix ← lift (read_at blockBuffer off 6);
  let version := le_value (take 4 prefix) in
  let mark := prefix !!! 4%nat in
  let flg := prefix !!! 5%nat in
  if (mark =? 0) && (1 <=? flg)
  then mret ((version, mark, flg, true), off + 4 + 2)
  else mret ((version, 0, 0, false), off + 4).

(** The body of the loop over the transactions. *)
Definition read_transaction (off : Z) : M (Transaction * Z) :=
  let startPosOffset := off in
  '((version, mark, flg, isSegwit), off) ← read_prefix off;
  '((n_in, ins), off) ← read_counted Input_fields read_input off;
  '((n_out, outs), off) ← read_counted Output_fields read_output off;
  '(wits, off) ← read_witnesses isSegwit n_in off;
  lock ← lift (read_at blockBuffer off 4);
  let off := off + 4 in
  let size := u16 (u64 (u16 off - startPosOffset)) in
  id ← hash_transaction startPosOffset size;
  mret ({| tx_version := version; marker := mark; flag := flg;
           inputCount := n_in; inputs := ins; outputCount := n_out; outputs := outs;
           witnesses := wits; locktime := le_value lock; tx_size := size;
           txid := id; wtxid := id |}, off).

End reader.

Definition ReadTxn `{Platform} (blockBuffer : list Z) (txCount : Z) : M (buf Transaction) :=
  p ← malloc_unchecked (sizeof (TStruct Transaction_fields) * txCount);
  '(txs, _) ← read_array (read_transaction blockBuffer) (Z.to_nat txCount) 0;
  mret (Buf p txs).

(** ** Transactions on the wire

    The serialisation of the Bitcoin protocol, independent of the reader. *)
Module Wire.

Record txin : Type := { prevout : list Z; index : Z; sig : list Z; seqno : Z }.
Record txout : Type := { value : Z; script : list Z }.
(** [wits]: the SegWit flag byte and the stack of each input. *)
Record tx : Type := {
  version : Z; vin : list txin; vouts : list txout;
  wits : option (Z * list (list (list Z))); lock : Z
}.

Definition var_bytes (l : list Z) : list Z := compact_size (len l) ++ l.
Definition array {A} (ser : A → list Z) (l : list A) : list Z :=
  compact_size (len l) ++ flat_map ser l.

Definition ser_in (i : txin) : list Z :=
  prevout i ++ le_bytes 4 (index i) ++ var_bytes (sig i) ++ le_bytes 4 (seqno i).
Definition ser_out (o : txout) : list Z := le_bytes 8 (value o) ++ var_bytes (script o).
Definition ser_stack : list (list Z) → list Z := array var_bytes.

Definition ser_tx (t : tx) : list Z :=
  le_bytes 4 (version t)
  ++ (match wits t with Some (f, _) => [0; f] | None => [] end)
  ++ array ser_in (vin t) ++ array ser_out (vouts t)
  ++ (match wits t with Some (_, ws) => flat_map ser_stack ws | None => [] end)
  ++ le_bytes 4 (lock t).

(** Field widths, and the 16 bits the reader has for sizes and counts. *)
Definition short {A} (l : list A) : Prop := in_width 16 (len l).
Definition wf_in (i : txin) : Prop :=
  length (prevout i) = 32%nat ∧ bytes (prevout i) ∧ in_width 32 (index i) ∧
  bytes (sig i) ∧ short (sig i) ∧ in_width 32 (seqno i).
Definition wf_out (o : txout) : Prop :=
  in_width 64 (value o) ∧ bytes (script o) ∧ short (script o).
Definition wf_item (l : list Z) : Prop := bytes l ∧ short l.
Definition wf_stack (s : list (list Z)) : Prop := short s ∧ Forall wf_item s.
Definition wf_wits (n : nat) (w : option (Z * list (list (list Z)))) : Prop :=
  match w with
  | None => True
  | Some (f, ws) => in_width 8 f ∧ f ≠ 0 ∧ length ws = n ∧ Forall wf_stack ws
  end.
(** A transaction without inputs is not distinguished from a SegWit one. *)
Definition wf (t : tx) : Prop :=
  in_width 32 (version t) ∧ in_width 32 (lock t) ∧ vin t ≠ [] ∧
  short (vin t) ∧ Forall wf_in (vin t) ∧ short (vouts t) ∧ Forall wf_out (vouts t) ∧
  wf_wits (length (vin t)) (wits t) ∧ len (ser_tx t) < 2 ^ 32.

End Wire.
Import Wire.

(** ** The structures in memory

    [load_x a x] is what the reader builds for [x] when the next allocation is [a];
    [cost_x x] is the number of allocations it makes. *)
Section load.
Context {A B : Type} (load : nat → B → A) (cost : B → nat).

Fixpoint load_all (a : nat) (l : list B) : list A :=
  match l with [] => [] | x :: l => load a x :: load_all (a + cost x) l end.

Definition cost_all (l : list B) : nat := sum_list_with cost l.

(** The addresses that stay, when [foot a x] are those of [x]. *)
Fixpoint foot_all (foot : nat → B → list nat) (a : nat) (l : list B) : list nat :=
  match l with [] => [] | x :: l => foot a x ++ foot_all foot (a + cost x) l end.

Lemma foot_all_seq foot a l :
  (∀ a x, foot a x = seq a (cost x)) → foot_all foot a l = seq a (cost_all l).
Proof.
  intros Hf. revert a. induction l as [|x l IH]; intros a; [done|]. cbn.
  by rewrite Hf, IH, <- seq_app.
Qed.
End load.

Lemma map_load_all {A B C} (load : nat → B → A) cost (f : A → C) (g : B → C) a l :
  (∀ a x, f (load a x) = g x) → map f (load_all load cost a l) = map g l.
Proof. intros Hf. revert a. induction l as [|x l IH]; intros a; cbn; [done|]. by rewrite Hf, IH. Qed.

Lemma Forall2_load_all {A B} (load : nat → B → A) cost (P : B → A → Prop) a l :
  (∀ a x, P x (load a x)) → Forall2 P l (load_all load cost a l).
Proof. intros HP. revert a. induction l as [|x l IH]; intros a; cbn; constructor; auto. Qed.

Lemma length_load_all {A B} (load : nat → B → A) cost a l :
  length (load_all load cost a l) = length l.
Proof. revert a. induction l as [|x l IH]; intros a; cbn; auto. Qed.

Definition load_in (a : nat) (i : txin) : Input :=
  {| in_txid := prevout i; vout := index i; scriptSigSize := len (sig i);
     scriptSig := Buf a (sig i); sequence := seqno i |}.
Definition load_out (a : nat) (o : txout) : Output :=
  {| amount := value o; scriptPubKeySize := len (script o); scriptPubKey := Buf a (script o) |}.
Definition load_item (a : nat) (l : list Z) : StackItem :=
  {| item_size := len l; item := Buf a l |}.
Definition one {A} (_ : A) : nat := 1%nat.
Definition at1 {A} (a : nat) (_ : A) : list nat := [a].

Definition load_stack (a : nat) (s : list (list Z)) : Witness :=
  {| stackItemsCount := len s; stackItems := Buf a (load_all load_item one (S a) s) |}.
Definition cost_stack (s : list (list Z)) : nat := S (cost_all one s).

Definition load_wits (a : nat) (w : option (Z * list (list (list Z)))) : option (buf Witness) :=
  match w with None => None | Some (_, ws) => Some (Buf a (load_all load_stack cost_stack (S a) ws)) end.
Definition cost_wits (w : option (Z * list (list (list Z)))) : nat :=
  match w with None => O | Some (_, ws) => S (cost_all cost_stack ws) end.

(** The size field keeps 16 bits, and only that many bytes are hashed. *)
Definition load_tx (a : nat) (t : tx) : Transaction :=
  let a_out := (a + S (cost_all one (vin t)))%nat in
  let a_wit := (a_out + S (cost_all one (vouts t)))%nat in
  let size := u16 (len (ser_tx t)) in
  let id := hash256 (take (Z.to_nat size) (ser_tx t)) in
  {| tx_version := version t; marker := 0;
     flag := match wits t with Some (f, _) => f | None => 0 end;
     inputCount := len (vin t); inputs := Buf a (load_all load_in one (S a) (vin t));
     outputCount := len (vouts t); outputs := Buf a_out (load_all load_out one (S a_out) (vouts t));
     witnesses := load_wits a_wit (wits t);
     locktime := lock t; tx_size := size; txid := id; wtxid := id |}.

(** The allocations that stay, and one more for the hashed copy. *)
Definition live_tx (t : tx) : nat :=
  S (cost_all one (vin t)) + S (cost_all one (vouts t)) + cost_wits (wits t).
Definition cost_tx (t : tx) : nat := S (live_tx t).

(** ** Reading one piece *)

Ltac len_eq :=
  unfold var_bytes, array, SHA256_HASH_SIZE;
  rewrite ?length_app, ?length_le_bytes; cbn [length app]; lia.

Section spec.
Context `{Platform}.

Lemma read_at_eq buf pre tail mid post off n :
  buf = pre ++ tail → tail = mid ++ post → off = len pre → n = len mid →
  read_at buf off n = Ok mid.
Proof. intros -> ->. apply read_at_app. Qed.

Lemma read_count_eq buf pre tail v post off w :
  buf = pre ++ tail → tail = compact_size v ++ post → off = len pre → in_width 16 v →
  read_count buf off w = Ok ((v, off + len (compact_size v)), w).
Proof.
  intros -> -> -> Hv. unfold read_count. rewrite Nat2Z.id, drop_app_length.
  rewrite (M_lift_ok _ _ (len (compact_size v), Some v)).
  - cbn. rewrite wrap_small by done. done.
  - apply CompactSizeDecode_format; [by apply (in_width_mono 16); [lia|]|].
    unfold MAX_COMPACT_SIZE_BYTES. pose proof (compact_size_length v). lia.
Qed.

(** [item] reads [s] and builds [load a] with [n] allocations, of which [foot a] stay. *)
Definition reads {A} (item : list Z → Z → M (A * Z)) (s : list Z)
    (load : nat → A) (n : nat) (foot : nat → list nat) : Prop :=
  ∀ buf pre post w, buf = pre ++ s ++ post → heap_ok w →
    let a := next (w_heap w) in
    item buf (len pre) w = Ok ((load a, len pre + len s), grow n (foot a) w).

Ltac buf_eq :=
  match goal with Hbuf : ?b = _ |- ?b = _ => rewrite Hbuf end;
  unfold var_bytes, array; rewrite <- ?app_assoc; reflexivity.

(** The next piece of the buffer is read by [read_at] or [read_count]; [P] precedes it. *)
Ltac at_read P :=
  erewrite (M_lift_ok (read_at _ _ _)) by (eapply (read_at_eq _ P); [buf_eq|reflexivity|len_eq|len_eq]).
Ltac at_count P :=
  erewrite (M_bind_ok (read_count _ _)) by (eapply (read_count_eq _ P); [buf_eq|reflexivity|len_eq|assumption]);
  cbn beta iota.
Ltac at_malloc Ho :=
  erewrite (M_bind_ok (malloc_unchecked _)) by (apply malloc_unchecked_ok; exact Ho); cbn beta iota.

Lemma read_input_ok i :
  no_oom → wf_in i → reads read_input (ser_in i) (λ a, load_in a i) 1 (λ a, [a]).
Proof.
  intros Ho (Hl & Hb & Hi & Hs & Hsh & Hq) buf pre post w Hbuf Hw a.
  unfold short in Hsh. unfold ser_in in *. unfold read_input.
  at_read pre. at_read (pre ++ prevout i). at_count (pre ++ prevout i ++ le_bytes 4 (index i)).
  at_malloc Ho.
  at_read (pre ++ prevout i ++ le_bytes 4 (index i) ++ compact_size (len (sig i))).
  at_read (pre ++ prevout i ++ le_bytes 4 (index i) ++ compact_size (len (sig i)) ++ sig i).
  rewrite !le_value_bytes_small by assumption.
  unfold mret, M_ret. do 3 f_equal. len_eq.
Qed.

Lemma read_output_ok o :
  no_oom → wf_out o → reads read_output (ser_out o) (λ a, load_out a o) 1 (λ a, [a]).
Proof.
  intros Ho (Hv & Hb & Hs) buf pre post w Hbuf Hw a.
  unfold short in Hs. unfold ser_out in *. unfold read_output.
  at_read pre. at_count (pre ++ le_bytes 8 (value o)). at_malloc Ho.
  at_read (pre ++ le_bytes 8 (value o) ++ compact_size (len (script o))).
  rewrite !le_value_bytes_small by assumption.
  unfold mret, M_ret. do 3 f_equal. len_eq.
Qed.

Lemma read_item_ok l :
  no_oom → wf_item l → reads read_item (var_bytes l) (λ a, load_item a l) 1 (λ a, [a]).
Proof.
  intros Ho (Hb & Hs) buf pre post w Hbuf Hw a. unfold short in Hs. unfold read_item.
  unfold var_bytes in Hbuf.
  at_count pre. at_malloc Ho. at_read (pre ++ compact_size (len l)).
  unfold mret, M_ret. do 3 f_equal. len_eq.
Qed.

(** Reading a sequence, element by element. *)
Lemma read_array_ok {A B} (item : list Z → Z → M (A * Z)) (ser : B → list Z) load cost foot l :
  Forall (λ x, reads item (ser x) (λ a, load a x) (cost x) (λ a, foot a x) ∧
               ∀ a, within a (cost x) (foot a x)) l →
  reads (λ buf, read_array (item buf) (length l)) (flat_map ser l)
    (λ a, load_all load cost a l) (cost_all cost l) (λ a, foot_all cost foot a l) ∧
  ∀ a, within a (cost_all cost l) (foot_all cost foot a l).
Proof.
  intros Hl. induction Hl as [|x l [Hx Hwx] Hl [IH IHw]].
  - split; [|constructor]. intros buf pre post w Hbuf Hw a. cbn. unfold mret, M_ret.
    rewrite Z.add_0_r, grow_0. done.
  - split; [|intros a; cbn; apply within_app; auto].
    intros buf pre post w Hbuf Hw a. cbn [flat_map length read_array] in *.
    rewrite (M_bind_ok _ _ _ _ _ (Hx buf pre (flat_map ser l ++ post) w ltac:(buf_eq) Hw)).
    cbn beta iota. rewrite <- app_assoc in Hbuf.
    specialize (IH buf (pre ++ ser x) post (grow (cost x) (foot a x) w)). cbn in IH.
    rewrite <- app_assoc in IH. specialize (IH Hbuf (heap_ok_grow _ _ _ Hw (Hwx a))).
    rewrite length_app, Nat2Z.inj_add in IH. rewrite (M_bind_ok _ _ _ _ _ IH). cbn beta iota.
    unfold mret, M_ret. rewrite grow_grow. do 3 f_equal. len_eq.
Qed.

(** The same for items that keep all their allocations. *)
Lemma read_array_seq {A B} (item : list Z → Z → M (A * Z)) (ser : B → list Z) load cost l :
  Forall (λ x, reads item (ser x) (λ a, load a x) (cost x) (λ a, seq a (cost x))) l →
  reads (λ buf, read_array (item buf) (length l)) (flat_map ser l)
    (λ a, load_all load cost a l) (cost_all cost l) (λ a, seq a (cost_all cost l)).
Proof.
  intros Hl. destruct (read_array_ok item ser load cost (λ a x, seq a (cost x)) l) as [Hr _].
  - eapply Forall_impl; [exact Hl|]. intros x Hx. split; [exact Hx|]. intros a. apply within_seq.
  - intros buf pre post w Hbuf Hw a. rewrite (Hr buf pre post w Hbuf Hw), foot_all_seq by done. done.
Qed.

(** A counted array: the count, the allocation of the array, the elements. *)
Lemma read_counted_ok {A B} t (item : list Z → Z → M (A * Z)) (ser : B → list Z) load cost l :
  no_oom → short l →
  Forall (λ x, reads item (ser x) (λ a, load a x) (cost x) (λ a, seq a (cost x))) l →
  reads (λ buf, read_counted buf t (item buf)) (array ser l)
    (λ a, (len l, Buf a (load_all load cost (S a) l))) (S (cost_all cost l))
    (λ a, seq a (S (cost_all cost l))).
Proof.
  intros Ho Hs Hi buf pre post w Hbuf Hw a. unfold short in Hs. unfold read_counted, array in *.
  at_count pre. at_malloc Ho. rewrite Nat2Z.id.
  pose proof (read_array_seq item ser load cost l Hi buf (pre ++ compact_size (len l)) post
    (grow 1 [a] w) ltac:(buf_eq) (heap_ok_grow _ _ _ Hw (within_seq a 1))) as Hr.
  rewrite length_app, Nat2Z.inj_add in Hr.
  rewrite (M_bind_ok _ _ _ _ _ Hr). cbn beta iota. unfold mret, M_ret.
  rewrite grow_grow, next_grow, Nat.add_1_r. do 3 f_equal. len_eq.
Qed.

Lemma read_witness_ok s :
  no_oom → wf_stack s →
  reads read_witness (ser_stack s) (λ a, load_stack a s) (cost_stack s) (λ a, seq a (cost_stack s)).
Proof.
  intros Ho [Hs Hi] buf pre post w Hbuf Hw a. unfold read_witness.
  pose proof (read_counted_ok StackItem_fields read_item var_bytes load_item one s Ho Hs) as Hr.
  rewrite (M_bind_ok _ _ _ _ _ (Hr (Forall_impl _ _ _ Hi (λ x, read_item_ok x Ho)) buf pre post w Hbuf Hw)).
  done.
Qed.

Lemma read_witnesses_ok n wi :
  no_oom → wf_wits n wi →
  reads (λ buf, read_witnesses buf (bool_decide (is_Some wi)) (Z.of_nat n))
    (match wi with Some (_, ws) => flat_map ser_stack ws | None => [] end)
    (λ a, load_wits a wi) (cost_wits wi) (λ a, seq a (cost_wits wi)).
Proof.
  intros Ho Hwf buf pre post w Hbuf Hw a. destruct wi as [[f ws]|]; cbn.
  2:{ unfold mret, M_ret. cbn. by rewrite Z.add_0_r, grow_0. }
  destruct Hwf as (Hf & Hf0 & Hn & Hws). at_malloc Ho. rewrite Nat2Z.id, <- Hn.
  pose proof (read_array_seq read_witness ser_stack load_stack cost_stack ws
    (Forall_impl _ _ _ Hws (λ x, read_witness_ok x Ho)) buf pre post
    (grow 1 [a] w) Hbuf (heap_ok_grow _ _ _ Hw (within_seq a 1))) as Hr.
  rewrite (M_bind_ok _ _ _ _ _ Hr). cbn beta iota. unfold mret, M_ret.
  rewrite grow_grow, next_grow, Nat.add_1_r. done.
Qed.

(** The copy is freed again: only its number is used up. *)
Lemma hash_transaction_ok buf pre mid post off size w :
  no_oom → heap_ok w → buf = pre ++ mid ++ post → off = len pre → size = len mid →
  bytes mid → len mid < 2 ^ 32 →
  hash_transaction buf off size w = Ok (hash256 mid, grow 1 [] w).
Proof.
  intros Ho Hw Hbuf -> -> Hb Hl. unfold hash_transaction. at_malloc Ho.
  at_read pre. rewrite (M_lift_ok _ _ (hash256 mid)) by (by apply DoubleSHA256_spec).
  rewrite (M_bind_ok _ _ _ _ _ (free_grow (next (w_heap w)) 1 [] w Hw ltac:(constructor) ltac:(lia) (not_elem_of_nil _))).
  done.
Qed.

(** ** A transaction *)

Lemma bytes_flat_map {A} (ser : A → list Z) P l :
  (∀ x, P x → bytes (ser x)) → Forall P l → bytes (flat_map ser l).
Proof. induction 2; cbn; [constructor|]. apply Forall_app. auto. Qed.

Lemma bytes_array {A} (ser : A → list Z) P l :
  (∀ x, P x → bytes (ser x)) → Forall P l → bytes (array ser l).
Proof.
  intros Hs Hl. apply Forall_app. split; [apply compact_size_bytes; lia|by eapply bytes_flat_map].
Qed.

Lemma ser_in_bytes i : wf_in i → bytes (ser_in i).
Proof.
  intros (Hl & Hb & Hi & Hs & Hsh & Hq). unfold ser_in, var_bytes.
  repeat (apply Forall_app; split); auto using le_bytes_bytes. apply compact_size_bytes. lia.
Qed.

Lemma ser_out_bytes o : wf_out o → bytes (ser_out o).
Proof.
  intros (Hv & Hb & Hs). unfold ser_out, var_bytes.
  repeat (apply Forall_app; split); auto using le_bytes_bytes. apply compact_size_bytes. lia.
Qed.

Lemma ser_stack_bytes s : wf_stack s → bytes (ser_stack s).
Proof.
  intros [_ Hs]. apply (bytes_array _ wf_item); [|done]. intros x [Hx _].
  apply Forall_app. split; [apply compact_size_bytes; lia|done].
Qed.

Lemma ser_tx_bytes t : wf t → bytes (ser_tx t).
Proof.
  intros (Hv & Hl & Hne & Hsi & Hi & Hso & Ho & Hw & Hlen). unfold ser_tx.
  rewrite !Forall_app. split_and!; try apply le_bytes_bytes.
  - destruct (wits t) as [[f ws]|]; [|constructor]. destruct Hw as (Hf & _).
    repeat constructor; [done..| |]; apply Hf.
  - by apply (bytes_array _ wf_in); [apply ser_in_bytes|].
  - by apply (bytes_array _ wf_out); [apply ser_out_bytes|].
  - destruct (wits t) as [[f ws]|]; [|constructor]. destruct Hw as (_ & _ & _ & Hws).
    by apply (bytes_flat_map _ wf_stack); [apply ser_stack_bytes|].
Qed.

(** The first byte of a positive compact size is not the SegWit marker. *)
Lemma compact_size_head n : 1 ≤ n → ∃ b r, compact_size n = b :: r ∧ b ≠ 0.
Proof. intros Hn. unfold compact_size. repeat case_match; split_bool; eexists _, _; (split; [done|lia]). Qed.

(** What the two bytes after the version say. *)
Lemma ser_tx_prefix t :
  wf t →
  ∃ b4 b5 tail, ser_tx t = le_bytes 4 (version t) ++ [b4; b5] ++ tail ∧
    (b4 =? 0) && (1 <=? b5) = bool_decide (is_Some (wits t)) ∧
    (is_Some (wits t) → b4 = 0 ∧ b5 = match wits t with Some (f, _) => f | None => 0 end).
Proof.
  intros (Hv & Hl & Hne & Hsi & Hi & Hso & Ho & Hw & Hlen). unfold ser_tx.
  destruct (wits t) as [[f ws]|].
  - exists 0, f. eexists. split; [done|]. destruct Hw as ([Hf _] & Hf0 & _). split; [|done].
    rewrite bool_decide_true by done. by decide_tests.
  - destruct (vin t) as [|i l]; [done|].
    destruct (compact_size_head (len (i :: l))) as (b & r & E & Hb); [cbn [length]; lia|].
    unfold array. rewrite E. cbn [flat_map app]. unfold ser_in at 1.
    inversion Hi as [|? ? (Hlp & _) _]; subst. destruct (prevout i) as [|p0 prest]; [done|].
    rewrite bool_decide_false by (by intros []).
    destruct r as [|r0 r]; cbn [app]; eexists b, _, _; (split; [done|]); split.
    1, 3: by decide_tests. all: by intros [].
Qed.

(** A read in the middle of the buffer, whatever the form of the offset. *)
Lemma reads_at {A B} (item : list Z → Z → M (A * Z)) s load n foot (f : A * Z → M B)
    buf pre tail post off w :
  reads item s load n foot →
  buf = pre ++ tail → tail = s ++ post → off = len pre → heap_ok w →
  (item buf off ≫= f) w =
    f (load (next (w_heap w)), off + len s) (grow n (foot (next (w_heap w))) w).
Proof. intros Hr -> -> -> Hw. apply M_bind_ok, (Hr _ pre post); done. Qed.

Lemma size_16 off start n : off = start + n → u16 (u64 (u16 off - start)) = u16 n.
Proof.
  intros ->. rewrite wrap_wrap_le by lia. unfold wrap. rewrite Zminus_mod_idemp_l.
  f_equal. lia.
Qed.

(** The prefix whose length the size field can hold is hashed. *)
Lemma hash_prefix_ok buf pre post s w :
  no_oom → heap_ok w → buf = pre ++ s ++ post → bytes s → len s < 2 ^ 32 →
  hash_transaction buf (len pre) (u16 (len s)) w =
    Ok (hash256 (take (Z.to_nat (u16 (len s))) s), grow 1 [] w).
Proof.
  intros Ho Hw Hbuf Hb Hl. set (size := u16 (len s)).
  assert (Hs : 0 ≤ size ≤ len s).
  { subst size. unfold wrap. split; [apply Z.mod_pos_bound|apply Z.mod_le]; lia. }
  apply (hash_transaction_ok _ pre _ (drop (Z.to_nat size) s ++ post)); try done.
  - by rewrite (app_assoc (take _ _)), take_drop.
  - rewrite length_take. lia.
  - by apply Forall_take.
  - rewrite length_take. lia.
Qed.

Lemma read_inputs_ok l :
  no_oom → short l → Forall wf_in l →
  reads (λ buf, read_counted buf Input_fields (read_input buf)) (array ser_in l)
    (λ a, (len l, Buf a (load_all load_in one (S a) l))) (S (cost_all one l))
    (λ a, seq a (S (cost_all one l))).
Proof.
  intros Ho Hs Hl. apply read_counted_ok; [done..|].
  eapply Forall_impl; [exact Hl|]. intros x Hx. by apply (read_input_ok x Ho Hx).
Qed.

Lemma read_outputs_ok l :
  no_oom → short l → Forall wf_out l →
  reads (λ buf, read_counted buf Output_fields (read_output buf)) (array ser_out l)
    (λ a, (len l, Buf a (load_all load_out one (S a) l))) (S (cost_all one l))
    (λ a, seq a (S (cost_all one l))).
Proof.
  intros Ho Hs Hl. apply read_counted_ok; [done..|].
  eapply Forall_impl; [exact Hl|]. intros x Hx. by apply (read_output_ok x Ho Hx).
Qed.

Definition wire_mark (t : tx) : list Z :=
  match wits t with Some (f, _) => [0; f] | None => [] end.
Definition wire_flag (t : tx) : Z := match wits t with Some (f, _) => f | None => 0 end.
Definition wire_wits (t : tx) : list Z :=
  match wits t with Some (_, ws) => flat_map ser_stack ws | None => [] end.

Lemma read_prefix_ok t buf pre post w :
  wf t → buf = pre ++ ser_tx t ++ post →
  read_prefix buf (len pre) w =
    Ok ((version t, 0, wire_flag t, bool_decide (is_Some (wits t))),
        len (pre ++ le_bytes 4 (version t) ++ wire_mark t), w).
Proof.
  intros Hwf Hbuf. pose proof Hwf as (Hv & _).
  destruct (ser_tx_prefix t Hwf) as (b4 & b5 & tail & E & Hseg & Hmark).
  unfold read_prefix. rewrite (M_lift_ok _ _ (le_bytes 4 (version t) ++ [b4; b5])).
  2:{ apply (read_at_eq _ pre (ser_tx t ++ post) _ (tail ++ post)); try done.
      by rewrite E, <- !app_assoc. }
  rewrite take_app_length' by by rewrite length_le_bytes.
  rewrite le_value_bytes_small by assumption.
  change ((le_bytes 4 (version t) ++ [b4; b5]) !!! 4%nat) with b4.
  change ((le_bytes 4 (version t) ++ [b4; b5]) !!! 5%nat) with b5.
  rewrite Hseg. unfold wire_flag, wire_mark. destruct (wits t) as [[f ws]|].
  - destruct Hmark as [-> ->]; [done|]. cbn [bool_decide decide is_Some_dec].
    unfold mret, M_ret. do 3 f_equal. len_eq.
  - cbn [bool_decide decide is_Some_dec]. unfold mret, M_ret. do 3 f_equal. len_eq.
Qed.

Lemma read_transaction_ok t :
  no_oom → wf t →
  reads read_transaction (ser_tx t) (λ a, load_tx a t) (cost_tx t) (λ a, seq a (live_tx t)).
Proof.
  intros Ho Hwf buf pre post w Hbuf Hw a.
  pose proof Hwf as (Hv & Hl & Hne & Hsi & Hi & Hso & Hout & Hwi & Hlen).
  unfold read_transaction. rewrite (M_bind_ok _ _ _ _ _ (read_prefix_ok t buf pre post w Hwf Hbuf)).
  set (P := pre ++ le_bytes 4 (version t) ++ wire_mark t).
  assert (HP : buf = P ++ array ser_in (vin t) ++ array ser_out (vouts t) ++ wire_wits t
                     ++ le_bytes 4 (lock t) ++ post).
  { subst P. rewrite Hbuf. unfold ser_tx. rewrite <- !app_assoc. done. }
  assert (Hend : len (((P ++ array ser_in (vin t)) ++ array ser_out (vouts t)) ++ wire_wits t) + 4
                 = len pre + len (ser_tx t)).
  { subst P. unfold ser_tx. fold (wire_mark t) (wire_wits t).
    rewrite !length_app, !length_le_bytes. lia. }
  clearbody P. cbn beta iota.
  rewrite (reads_at _ _ _ _ _ _ buf P _
    (array ser_out (vouts t) ++ wire_wits t ++ le_bytes 4 (lock t) ++ post) _ _
    (read_inputs_ok (vin t) Ho Hsi Hi) HP eq_refl eq_refl Hw).
  rewrite <- Nat2Z.inj_add, <- length_app.
  rewrite (reads_at _ _ _ _ _ _ buf (P ++ array ser_in (vin t)) _
    (wire_wits t ++ le_bytes 4 (lock t) ++ post) _ _ (read_outputs_ok (vouts t) Ho Hso Hout)
    ltac:(rewrite HP, <- ?app_assoc; reflexivity) eq_refl eq_refl
    (heap_ok_grow _ _ _ Hw (within_seq _ _))).
  rewrite <- Nat2Z.inj_add, <- length_app, grow_grow, <- seq_app, next_grow.
  rewrite (reads_at _ _ _ _ _ _ buf ((P ++ array ser_in (vin t)) ++ array ser_out (vouts t))
    _ (le_bytes 4 (lock t) ++ post) _ _ (read_witnesses_ok _ (wits t) Ho Hwi)
    ltac:(rewrite HP, <- ?app_assoc; reflexivity) eq_refl eq_refl
    (heap_ok_grow _ _ _ Hw (within_seq _ _))). fold (wire_wits t).
  rewrite <- Nat2Z.inj_add, <- length_app, grow_grow, next_grow, <- Nat.add_assoc, <- seq_app.
  rewrite !Nat.add_assoc, (M_lift_ok _ _ (le_bytes 4 (lock t))).
  2:{ eapply (read_at_eq _ (((P ++ array ser_in (vin t)) ++ array ser_out (vouts t)) ++ wire_wits t));
      [rewrite HP, <- ?app_assoc; reflexivity|reflexivity|reflexivity|len_eq]. }
  rewrite Hend, (size_16 _ (len pre) (len (ser_tx t)) eq_refl), le_value_bytes_small by assumption.
  rewrite (M_bind_ok _ _ _ _ _ (hash_prefix_ok buf pre post (ser_tx t) _ Ho
    (heap_ok_grow _ _ _ Hw (within_seq _ _)) Hbuf (ser_tx_bytes t Hwf) Hlen)).
  unfold mret, M_ret, load_tx, cost_tx, live_tx. by rewrite grow_grow, app_nil_r, Nat.add_1_r.
Qed.

(** The structures of a list of transactions, and the addresses they keep. *)
Definition load_txs (a : nat) (txs : list tx) : buf Transaction :=
  Buf a (load_all load_tx cost_tx (S a) txs).
Definition foot_txs (a : nat) (txs : list tx) : list nat :=
  a :: foot_all cost_tx (λ a t, seq a (live_tx t)) (S a) txs.

Lemma foot_txs_within a txs : within a (S (cost_all cost_tx txs)) (foot_txs a txs).
Proof.
  apply (within_app a 1 _ [a]); [apply (within_seq a 1)|]. rewrite Nat.add_1_r.
  generalize (S a). induction txs as [|t txs IH]; intros b; [constructor|].
  apply within_app; [|apply IH]. eapply within_widen; [apply within_seq|lia|unfold cost_tx; lia].
Qed.

Lemma ReadTxn_ok txs post w :
  no_oom → heap_ok w → Forall wf txs →
  ReadTxn (flat_map ser_tx txs ++ post) (len txs) w =
    Ok (load_txs (next (w_heap w)) txs,
        grow (S (cost_all cost_tx txs)) (foot_txs (next (w_heap w)) txs) w).
Proof.
  intros Ho Hw Hwf. unfold ReadTxn. at_malloc Ho. rewrite Nat2Z.id.
  destruct (read_array_ok read_transaction ser_tx load_tx cost_tx (λ a t, seq a (live_tx t)) txs)
    as [Hr _].
  { eapply Forall_impl; [exact Hwf|]. intros t Ht. split; [by apply read_transaction_ok|].
    intros a. eapply within_widen; [apply within_seq|lia|unfold cost_tx; lia]. }
  rewrite (M_bind_ok _ _ _ _ _ (Hr _ [] post (grow 1 [next (w_heap w)] w) eq_refl
    (heap_ok_grow _ _ _ Hw (within_seq _ 1)))).
  cbn beta iota. unfold mret, M_ret. by rewrite grow_grow, next_grow, Nat.add_1_r.
Qed.

(** What a structure in memory says, its addresses forgotten, is the transaction. *)
Definition says (t : tx) (x : Transaction) : Prop :=
  tx_version x = version t ∧ marker x = 0 ∧ flag x = wire_flag t ∧ locktime x = lock t ∧
  map (λ i, (in_txid i, vout i, elems (scriptSig i), sequence i)) (elems (inputs x)) =
    map (λ i, (prevout i, index i, sig i, seqno i)) (vin t) ∧
  map (λ o, (amount o, elems (scriptPubKey o))) (elems (outputs x)) =
    map (λ o, (value o, script o)) (vouts t) ∧
  (λ b, map (λ s, map (λ i, elems (item i)) (elems (stackItems s))) (elems b)) <$> witnesses x =
    snd <$> wits t ∧
  (len (ser_tx t) < 2 ^ 16 → tx_size x = len (ser_tx t) ∧ wtxid x = hash256 (ser_tx t)).

Lemma load_tx_says a t : says t (load_tx a t).
Proof.
  unfold says, load_tx. cbn [tx_version marker flag locktime inputs outputs witnesses tx_size wtxid elems].
  split_and!; try done.
  - by apply map_load_all.
  - by apply map_load_all.
  - destruct (wits t) as [[f ws]|]; [|done]. cbn [load_wits fmap option_fmap option_map elems snd]. f_equal.
    rewrite <- (map_id ws) at 2. apply map_load_all. intros b s. cbn.
    rewrite <- (map_id s) at 2. by apply map_load_all.
  - intros Hl. rewrite wrap_small by (unfold in_width; lia). rewrite take_ge by lia. done.
Qed.
End spec.

(** ** Properties *)

(** C2: [ReadTxn] reads back the Bitcoin serialisation of any list of transactions with
    at least one input each and with sizes and counts below [2^16]: version, marker and
    flag, inputs, outputs, witnesses and lock time, in order, each array in a fresh
    allocation; for a transaction below 64 KiB the size is its length and the hash the
    double SHA-256 of all its bytes. *)
Theorem ReadTxn_reads_serialization `{Platform} txs post w :
  no_oom → heap_ok w → Forall wf txs → short txs →
  ReadTxn (flat_map ser_tx txs ++ post) (len txs) w =
    Ok (load_txs (next (w_heap w)) txs,
        grow (S (cost_all cost_tx txs)) (foot_txs (next (w_heap w)) txs) w) ∧
  Forall2 says txs (elems (load_txs (next (w_heap w)) txs)).
Proof.
  intros Ho Hw Hwf _. split; [by apply ReadTxn_ok|]. apply Forall2_load_all, load_tx_says.
Qed.

(** A legacy transaction and a SegWit one, for the witnesses. *)
Definition sample_txs : list tx :=
  [ {| version := 1;
       vin := [{| prevout := replicate 32 7; index := 0; sig := [0x51]; seqno := 0xFFFFFFFF |}];
       vouts := [{| value := 5000000000; script := [0x76; 0xa9] |}]; wits := None; lock := 0 |};
    {| version := 2;
       vin := [{| prevout := replicate 32 9; index := 1; sig := []; seqno := 0xFFFFFFFE |}];
       vouts := []; wits := Some (1, [[[1; 2]; []]]); lock := 800000 |} ].

Lemma sample_txs_wf : Forall wf sample_txs.
Proof.
  unfold sample_txs, wf, wf_in, wf_out, wf_wits, wf_stack, wf_item, short, in_width.
  repeat constructor; try done; cbn; lia.
Qed.

Lemma ReadTxn_reads_serialization_witness :
  Forall wf sample_txs ∧
  ∃ r, @ReadTxn sample_platform (flat_map ser_tx sample_txs ++ [0; 0]) 2 empty_world = Ok r.
Proof.
  split; [apply sample_txs_wf|].
  destruct (@ReadTxn_reads_serialization sample_platform sample_txs [0; 0] empty_world) as [E _].
  - done.
  - intros a Ha. by apply elem_of_empty in Ha.
  - apply sample_txs_wf.
  - done.
  - eexists. exact E.
Defined.
