(* ===== verification/FreeStructs.v ===== *)
(** * bitcoin-structs.c: releasing blocks and file lists

    Each operation frees exactly what its code names; [frees m l] says that [m] releases
    the live addresses [l], each once, and nothing else. *)

From S2P Require Import Prelude Structs World ReadTxn.
Import Wire.

(** [for (i = 0; i < n; i++) f(&l[i])] *)
Fixpoint free_array {A} (f : A → M unit) (n : nat) (l : list A) : M unit :=
  match n, l with
  | O, _ => mret tt
  | S _, [] => fail OutOfBounds
  | S n, x :: l => _ ← f x; free_array f n l
  end.

Definition FreeInput (input : Input) : M unit := free (addr (scriptSig input)).
Definition FreeOutput (output : Output) : M unit := free (addr (scriptPubKey output)).

Definition FreeWitness (witness : Witness) : M unit :=
  _ ← free_array (λ it, free (addr (item it))) (Z.to_nat (stackItemsCount witness))
        (elems (stackItems witness));
  free (addr (stackItems witness)).

Definition FreeTransaction (transaction : Transaction) : M unit :=
  _ ← free_array FreeInput (Z.to_nat (inputCount transaction)) (elems (inputs transaction));
  _ ← free_array FreeOutput (Z.to_nat (outputCount transaction)) (elems (outputs transaction));
  if (marker transaction =? 0) && (1 <=? flag transaction) then
    match witnesses transaction with
    | Some ws => free_array FreeWitness (Z.to_nat (inputCount transaction)) (elems ws)
    | None => fail Uninitialised
    end
  else mret tt.

Definition FreeBlock (block : Block) : M unit :=
  match transactions block with
  | None => mret tt
  | Some txs =>
      _ ← free_array FreeTransaction (Z.to_nat (txCount block)) (elems txs);
      free (addr txs)
  end.

(** The index is a [U16] and the count a [size_t]: beyond 65535 blocks the loop starts over. *)
Fixpoint FreeBlocks_loop (fuel : nat) (i : Z) (l : list Block) (count : Z) : M unit :=
  match fuel with
  | O => fail Diverges
  | S fuel =>
      if i <? count then
        match l !! Z.to_nat i with
        | None => fail OutOfBounds
        | Some b => _ ← FreeBlock b; FreeBlocks_loop fuel (u16 (i + 1)) l count
        end
      else mret tt
  end.

Definition FreeBlocks (bs : Blocks) : M unit :=
  FreeBlocks_loop (S (Z.to_nat (blocks_count bs))) 0
    (match blocks bs with Some b => elems b | None => [] end) (blocks_count bs).

Definition FreeFileInfo (f : FileInfo) : M unit :=
  _ ← (if isOpen f then fclose (file f) else mret tt);
  free (path_addr f).

(** The list afterwards. *)
Definition FreeFileList (fileList : FileList) : M FileList :=
  _ ← free_array FreeFileInfo (Z.to_nat (files_count fileList))
        (match files fileList with Some b => elems b | None => [] end);
  _ ← free_opt (addr <$> files fileList);
  mret {| files := None; files_count := 0; totalSize := 0 |}.

(** ** Releasing a set of addresses *)

Definition drop_live (l : list nat) (w : world) : world :=
  set_heap {| next := next (w_heap w); live := live (w_heap w) ∖ list_to_set l |} w.

Definition frees (m : M unit) (l : list nat) : Prop :=
  ∀ w, NoDup l → (∀ a, a ∈ l → a ∈ live (w_heap w)) → m w = Ok (tt, drop_live l w).

Lemma drop_live_nil w : drop_live [] w = w.
Proof.
  unfold drop_live. destruct w as [e c [n l]]; cbn. by rewrite difference_empty_L.
Qed.

Lemma drop_live_app l l' w : drop_live l' (drop_live l w) = drop_live (l ++ l') w.
Proof.
  unfold drop_live, set_heap. cbn. by rewrite list_to_set_app_L, difference_difference_l_L.
Qed.

Lemma frees_ret : frees (mret tt) [].
Proof. intros w _ _. by rewrite drop_live_nil. Qed.

Lemma frees_free a : frees (free a) [a].
Proof.
  intros w _ Ha. rewrite <- (set_heap_id w) at 1. unfold free. cbn.
  rewrite decide_True by (apply Ha; constructor).
  unfold drop_live. cbn. by rewrite union_empty_r_L.
Qed.

Lemma frees_seq m1 m2 l1 l2 : frees m1 l1 → frees m2 l2 → frees (_ ← m1; m2) (l1 ++ l2).
Proof.
  intros H1 H2 w Hn Hl. apply NoDup_app in Hn as (Hn1 & Hd & Hn2).
  rewrite (M_bind_ok _ _ _ _ _ (H1 w Hn1 (λ a Ha, Hl a (proj2 (elem_of_app _ _ _) (or_introl Ha))))).
  rewrite H2, drop_live_app; [done|done|].
  intros a Ha. cbn. apply elem_of_difference. split.
  - apply Hl, elem_of_app. by right.
  - rewrite elem_of_list_to_set. intros Ha'. by apply (Hd a).
Qed.

Lemma frees_array {A} (f : A → M unit) (g : A → list nat) n l :
  n = length l → Forall (λ x, frees (f x) (g x)) l → frees (free_array f n l) (flat_map g l).
Proof.
  intros -> Hl. induction Hl as [|x l Hx Hl IH]; [apply frees_ret|]. by apply frees_seq.
Qed.

(** ** What freeing a block releases, and what it leaves *)

Definition freed_input (i : Input) : list nat := [addr (scriptSig i)].
Definition freed_output (o : Output) : list nat := [addr (scriptPubKey o)].
Definition freed_item (i : StackItem) : list nat := [addr (item i)].
Definition freed_witness (s : Witness) : list nat :=
  flat_map freed_item (elems (stackItems s)) ++ [addr (stackItems s)].
Definition freed_transaction (t : Transaction) : list nat :=
  flat_map freed_input (elems (inputs t)) ++ flat_map freed_output (elems (outputs t)) ++
  match witnesses t with Some ws => flat_map freed_witness (elems ws) | None => [] end.

(** The arrays of a transaction: no operation of the library frees them. *)
Definition leaked_transaction (t : Transaction) : list nat :=
  addr (inputs t) :: addr (outputs t) ::
  match witnesses t with Some ws => [addr ws] | None => [] end.

(** The counts are those of the arrays, and the witnesses are there exactly when the marker
    and flag say so. *)
Definition counted_witness (s : Witness) : Prop := stackItemsCount s = len (elems (stackItems s)).
Definition counted (t : Transaction) : Prop :=
  inputCount t = len (elems (inputs t)) ∧ outputCount t = len (elems (outputs t)) ∧
  marker t = 0 ∧
  match witnesses t with
  | Some ws => 1 ≤ flag t ∧ length (elems ws) = length (elems (inputs t)) ∧
               Forall counted_witness (elems ws)
  | None => flag t = 0
  end.

Lemma frees_FreeWitness s : counted_witness s → frees (FreeWitness s) (freed_witness s).
Proof.
  intros Hs. apply frees_seq; [|apply frees_free].
  apply (frees_array _ freed_item); [rewrite Hs; lia|].
  apply Forall_forall. intros x _. apply frees_free.
Qed.

Lemma frees_FreeTransaction t : counted t → frees (FreeTransaction t) (freed_transaction t).
Proof.
  intros (Hi & Ho & Hm & Hw). apply frees_seq; [|apply frees_seq].
  - apply frees_array; [rewrite Hi; lia|]. apply Forall_forall. intros x _. apply frees_free.
  - apply frees_array; [rewrite Ho; lia|]. apply Forall_forall. intros x _. apply frees_free.
  - rewrite Hm. destruct (witnesses t) as [ws|].
    + destruct Hw as (Hf & Hlen & Hws). decide_tests. apply frees_array; [rewrite Hi; lia|].
      eapply Forall_impl; [exact Hws|]. intros s Hs. by apply frees_FreeWitness.
    + rewrite Hw. apply frees_ret.
Qed.

Definition freed_block (b : Block) : list nat :=
  match transactions b with
  | None => [] | Some txs => flat_map freed_transaction (elems txs) ++ [addr txs]
  end.

Definition counted_block (b : Block) : Prop :=
  match transactions b with
  | None => True | Some txs => txCount b = len (elems txs) ∧ Forall counted (elems txs)
  end.

Lemma frees_FreeBlock b : counted_block b → frees (FreeBlock b) (freed_block b).
Proof.
  unfold counted_block, FreeBlock, freed_block. destruct (transactions b) as [txs|].
  - intros [Hn Hc]. apply frees_seq; [|apply frees_free]. apply frees_array; [rewrite Hn; lia|].
    eapply Forall_impl; [exact Hc|]. apply frees_FreeTransaction.
  - intros _. apply frees_ret.
Qed.

(** ** The structures [ReadTxn] builds *)

Lemma freed_load_one {A B} (load : nat → B → A) (freed : A → list nat) a l :
  (∀ a x, freed (load a x) = [a]) →
  flat_map freed (load_all load one a l) = seq a (cost_all one l).
Proof.
  intros Hf. revert a. induction l as [|x l IH]; intros a; [done|]. cbn.
  by rewrite Hf, IH, Nat.add_1_r.
Qed.

Lemma freed_load_stack a s : freed_witness (load_stack a s) ≡ₚ seq a (cost_stack s).
Proof.
  unfold freed_witness, load_stack, cost_stack. cbn [stackItems elems addr].
  rewrite freed_load_one by done. cbn [seq]. by rewrite Permutation_app_comm.
Qed.

Lemma freed_load_all {A B} (load : nat → B → A) cost (freed : A → list nat) a l :
  (∀ a x, freed (load a x) ≡ₚ seq a (cost x)) →
  flat_map freed (load_all load cost a l) ≡ₚ seq a (cost_all cost l).
Proof.
  intros Hf. revert a. induction l as [|x l IH]; intros a; [done|]. cbn.
  by rewrite Hf, IH, <- seq_app.
Qed.

(** Together they are all the allocations of the transaction. *)
Lemma load_tx_split a t :
  freed_transaction (load_tx a t) ++ leaked_transaction (load_tx a t) ≡ₚ seq a (live_tx t).
Proof.
  unfold freed_transaction, leaked_transaction, load_tx, live_tx.
  cbn [inputs outputs witnesses elems addr].
  rewrite !freed_load_one by done. rewrite !seq_app, !Nat.add_assoc. cbn [seq].
  set (b := (a + S (cost_all one (vin t)))%nat). set (c := (b + S (cost_all one (vouts t)))%nat).
  destruct (wits t) as [[f ws]|]; cbn [load_wits cost_wits elems addr seq].
  - rewrite (freed_load_all load_stack cost_stack) by apply freed_load_stack. solve_Permutation.
  - solve_Permutation.
Qed.

Lemma load_all_split a txs :
  flat_map freed_transaction (load_all load_tx cost_tx a txs) ++
  flat_map leaked_transaction (load_all load_tx cost_tx a txs) ≡ₚ
  foot_all cost_tx (λ a t, seq a (live_tx t)) a txs.
Proof.
  revert a. induction txs as [|t txs IH]; intros a; [done|]. cbn [load_all flat_map foot_all].
  rewrite <- (IH (a + cost_tx t)%nat), <- (load_tx_split a t). solve_Permutation.
Qed.

Lemma foot_all_NoDup {B} (cost : B → nat) (foot : nat → B → list nat) a l :
  (∀ a x, within a (cost x) (foot a x) ∧ NoDup (foot a x)) →
  within a (cost_all cost l) (foot_all cost foot a l) ∧ NoDup (foot_all cost foot a l).
Proof.
  intros Hf. revert a. induction l as [|x l IH]; intros a; [by split; constructor|]. cbn.
  destruct (Hf a x) as [Hw Hn], (IH (a + cost x)%nat) as [IHw IHn].
  split; [by apply within_app|]. apply NoDup_app. split_and!; [done| |done].
  intros y Hy Hy'. unfold within in *. rewrite Forall_forall in *.
  apply Hw in Hy. apply IHw in Hy'. lia.
Qed.

Lemma foot_txs_NoDup a txs : NoDup (foot_txs a txs).
Proof.
  destruct (foot_all_NoDup cost_tx (λ a t, seq a (live_tx t)) (S a) txs) as [Hw Hn].
  { intros b t. split; [|apply NoDup_seq]. eapply within_widen; [apply within_seq|lia|unfold cost_tx; lia]. }
  constructor; [|done]. intros Hin. unfold within in Hw. rewrite Forall_forall in Hw.
  apply Hw in Hin. lia.
Qed.

(** Dropping part of a fresh footprint. *)
Lemma drop_live_grow n foot freed rest w :
  freed ++ rest ≡ₚ foot → NoDup foot → heap_ok w → within (next (w_heap w)) n foot →
  drop_live freed (grow n foot w) = grow n rest w.
Proof.
  intros Hp Hn Hw Hwi. unfold drop_live, grow, set_heap. cbn. do 2 f_equal.
  rewrite <- Hp in Hn. apply NoDup_app in Hn as (_ & Hd & _). unfold within in Hwi.
  rewrite Forall_forall in Hwi. apply set_eq. intros x.
  rewrite elem_of_difference, !elem_of_union, !elem_of_list_to_set, <- Hp, elem_of_app. split.
  - tauto.
  - intros [Hx|Hx]; (split; [tauto|]); intros Hf.
    + apply Hw in Hx. assert (x ∈ foot) as Hin by (rewrite <- Hp, elem_of_app; tauto).
      apply Hwi in Hin. lia.
    + by apply (Hd x).
Qed.

Lemma load_tx_counted a t : wf t → counted (load_tx a t).
Proof.
  intros (Hv & Hl & Hne & Hsi & Hi & Hso & Ho & Hw & Hlen). unfold counted, load_tx.
  cbn [inputCount inputs outputCount outputs marker flag witnesses elems].
  rewrite !length_load_all. split_and!; try done.
  destruct (wits t) as [[f ws]|]; cbn [load_wits elems]; [|done].
  destruct Hw as (Hf & Hf0 & Hn & Hws). rewrite length_load_all. unfold in_width in Hf.
  split_and!; [lia|done|]. generalize (S (a + S (cost_all one (vin t)) + S (cost_all one (vouts t)))).
  clear. induction ws as [|s ws IH]; intros b; cbn; constructor; [|apply IH].
  unfold counted_witness, load_stack. cbn [stackItemsCount stackItems elems].
  by rewrite length_load_all.
Qed.

Lemma load_all_counted a txs : Forall wf txs → Forall counted (load_all load_tx cost_tx a txs).
Proof.
  intros Hwf. revert a. induction Hwf; intros a; cbn; constructor; auto using load_tx_counted.
Qed.

Definition leaked_block (b : Block) : list nat :=
  match transactions b with None => [] | Some txs => flat_map leaked_transaction (elems txs) end.

Lemma loaded_split txs a b :
  transactions b = Some (load_txs a txs) → freed_block b ++ leaked_block b ≡ₚ foot_txs a txs.
Proof.
  intros Hb. unfold freed_block, leaked_block, foot_txs. rewrite Hb. cbn [load_txs elems addr].
  rewrite <- (load_all_split (S a) txs). solve_Permutation.
Qed.

Lemma FreeBlock_loaded txs b w n :
  Forall wf txs → heap_ok w → transactions b = Some (load_txs (next (w_heap w)) txs) →
  txCount b = len txs → n = S (cost_all cost_tx txs) →
  FreeBlock b (grow n (foot_txs (next (w_heap w)) txs) w) = Ok (tt, grow n (leaked_block b) w).
Proof.
  intros Hwf Hw Hb Hn ->. set (a := next (w_heap w)) in *.
  pose proof (loaded_split txs a b Hb) as Hp.
  pose proof (foot_txs_NoDup a txs) as Hnd.
  rewrite (frees_FreeBlock b).
  - by rewrite (drop_live_grow _ _ _ (leaked_block b)) by (done || apply foot_txs_within).
  - unfold counted_block. rewrite Hb. cbn [load_txs elems]. rewrite length_load_all.
    split; [done|]. by apply load_all_counted.
  - rewrite <- Hp in Hnd. by apply NoDup_app in Hnd as [? _].
  - intros x Hx. apply live_grow. right. rewrite <- Hp, elem_of_app. by left.
Qed.

Lemma free_dead a w : a ∉ live (w_heap w) → free a w = Fault BadFree.
Proof. intros Ha. unfold free. by rewrite decide_False. Qed.

Lemma FreeTransaction_dead t i l w :
  elems (inputs t) = i :: l → inputCount t = len (i :: l) →
  addr (scriptSig i) ∉ live (w_heap w) → FreeTransaction t w = Fault BadFree.
Proof.
  intros Hi Hn Ha. unfold FreeTransaction. rewrite Hi, Hn, Nat2Z.id. cbn [length free_array].
  unfold FreeInput, mbind, M_bind. by rewrite free_dead.
Qed.

(** The first thing [FreeBlock] frees, once it has been freed, is not live again. *)
Lemma FreeBlock_again txs a b w :
  Forall wf txs → transactions b = Some (load_txs a txs) → txCount b = len txs →
  (∀ x, x ∈ freed_block b → x ∉ live (w_heap w)) →
  FreeBlock b w = Fault BadFree.
Proof.
  intros Hwf Hb Hn Hd. unfold FreeBlock, freed_block in *. rewrite Hb in *.
  rewrite Hn, Nat2Z.id. cbn [load_txs elems addr] in *.
  destruct txs as [|t txs].
  - unfold free_array at 1, mbind, M_bind, mret, M_ret. cbn [length load_all]. rewrite free_dead; [done|].
    apply Hd. cbn. set_solver.
  - inversion Hwf as [|? ? (Hv & Hl & Hne & _) _]; subst.
    cbn [length load_all free_array]. unfold mbind, M_bind.
    destruct (vin t) as [|i l] eqn:E; [done|].
    rewrite (FreeTransaction_dead _ (load_in (S (S a)) i)
      (load_all load_in one (S (S a) + 1) l)); [done|..].
    + cbn [load_tx inputs elems]. by rewrite E.
    + cbn [load_tx inputCount]. rewrite E. cbn [length]. by rewrite length_load_all.
    + apply Hd. cbn [load_all flat_map]. unfold freed_transaction at 1. cbn [load_tx inputs elems].
      rewrite E. cbn. set_solver.
Qed.

Definition is_segwit (t : tx) : bool := bool_decide (is_Some (wits t)).

Lemma leaked_count a txs :
  length (flat_map leaked_transaction (load_all load_tx cost_tx a txs)) =
    (2 * length txs + length (filter is_segwit txs))%nat.
Proof.
  revert a. induction txs as [|t txs IH]; intros a; [done|].
  cbn [load_all flat_map length]. rewrite length_app, IH, filter_cons.
  unfold leaked_transaction. cbn [load_tx inputs outputs witnesses].
  destruct (wits t) as [[f ws]|] eqn:E; cbn [load_wits length].
  - rewrite decide_True by (apply bool_decide_pack; rewrite E; eauto). cbn [length]. lia.
  - rewrite decide_False by (intros [? Hs]%bool_decide_unpack; congruence). lia.
Qed.

(** ** Properties *)

(** C5: [FreeBlock] on a block that [ReadTxn] filled releases live addresses only and
    each of them once; what stays allocated afterwards is exactly the arrays of inputs and
    outputs of every transaction and the array of witnesses of the SegWit ones, which no
    operation of the library frees; calling it a second time is an invalid [free]. *)
Theorem FreeBlock_releases_and_leaks `{Platform} txs post b p w w1 :
  no_oom → heap_ok w → Forall wf txs →
  ReadTxn (flat_map ser_tx txs ++ post) (len txs) w = Ok (p, w1) →
  transactions b = Some p → txCount b = len txs →
  ∃ w2, FreeBlock b w1 = Ok (tt, w2) ∧
    live (w_heap w2) = live (w_heap w) ∪ list_to_set (leaked_block b) ∧
    length (leaked_block b) = (2 * length txs + length (filter is_segwit txs))%nat ∧
    FreeBlock b w2 = Fault BadFree.
Proof.
  intros Ho Hw Hwf HR Hb Hn. rewrite (ReadTxn_ok txs post w Ho Hw Hwf) in HR.
  injection HR as <- <-. eexists. split; [by eapply FreeBlock_loaded|]. split; [done|].
  split; [unfold leaked_block; rewrite Hb; apply leaked_count|].
  set (a := next (w_heap w)) in *. set (w2 := grow _ (leaked_block b) w).
  assert (Hd : ∀ x, x ∈ freed_block b → x ∉ live (w_heap w2)).
  { intros x Hx Hin. apply live_grow in Hin.
    assert (Hp : freed_block b ++ leaked_block b ≡ₚ foot_txs a txs)
      by (by apply loaded_split). assert (x ∈ foot_txs a txs) as Hf by (rewrite <- Hp; set_solver).
    pose proof (foot_txs_within a txs) as Hwi. unfold within in Hwi. rewrite Forall_forall in Hwi.
    apply Hwi in Hf. destruct Hin as [Hin|Hin]; [apply Hw in Hin; subst a; lia|].
    pose proof (foot_txs_NoDup a txs) as Hnd. rewrite <- Hp in Hnd.
    apply NoDup_app in Hnd as (_ & Hnd & _). by apply (Hnd x). }
  by apply (FreeBlock_again txs a).
Qed.

(** The block of the sample transactions. *)
Definition sample_block (p : buf Transaction) : Block :=
  {| magic := 0xD9B4BEF9; blockSize := 0; txCount := 2; blk_hash := []; height := None;
     header := {| hdr_version := 1; prevBlockHash := []; merkleRoot := []; hdr_time := 0;
                  bits := 0; nonce := 0 |};
     transactions := Some p |}.

Lemma FreeBlock_releases_and_leaks_witness :
  ∃ p w1 w2, FreeBlock (sample_block p) w1 = Ok (tt, w2) ∧
    length (leaked_block (sample_block p)) = 5%nat ∧ FreeBlock (sample_block p) w2 = Fault BadFree.
Proof.
  assert (Hw : heap_ok empty_world) by (intros a Ha; by apply elem_of_empty in Ha).
  pose proof (@ReadTxn_ok sample_platform sample_txs [] empty_world (λ _ _, eq_refl) Hw sample_txs_wf) as E.
  destruct (@FreeBlock_releases_and_leaks sample_platform sample_txs []
    (sample_block (load_txs 0 sample_txs)) _ empty_world _ (λ _ _, eq_refl) Hw sample_txs_wf E eq_refl eq_refl)
    as (w2 & H1 & _ & H3 & H4).
  exists (load_txs 0 sample_txs). eexists _, w2. split; [exact H1|]. split; [exact H3|exact H4].
Defined.
