(* ===== verification/OpenFiles.v ===== *)
(** * blkdat.c, OpenFile and CloseLRUFile: the cache of open files

    A file is open when its [FileInfo] says so; at most [MAX_OPEN_FILES] are, each in one
    slot of [openFiles], and the least recently used one gives way to a new one. *)

From S2P Require Import Prelude Structs World.

(** ** The array [gEnv.blkFiles.files] *)

Definition infos (w : world) : list FileInfo :=
  match files (blkFiles (w_env w)) with Some b => elems b | None => [] end.

Definition set_infos (l : list FileInfo) (w : world) : world :=
  let fl := blkFiles (w_env w) in
  set_env (set_blkFiles {| files := (λ b, Buf (addr b) l) <$> files fl;
                           files_count := files_count fl; totalSize := totalSize fl |} (w_env w)) w.

(** What a [FileInfo *] points to, and a store through it. *)
Definition get_info (i : nat) : M FileInfo := λ w,
  match infos w !! i with Some f => Ok (f, w) | None => Fault OutOfBounds end.
Definition put_info (i : nat) (f : FileInfo) : M unit :=
  modify (λ w, set_infos (<[i := f]> (infos w)) w).

Definition opened (f : FileInfo) (b : bool) (h : option nat) : FileInfo :=
  {| path_addr := path_addr f; filepath := filepath f; isOpen := b; file := h |}.

(** ** CloseLRUFile *)

(** The scan from slot [i] on; slots that are free are skipped. *)
Fixpoint lru_scan (slots : list OpenFileCache) (i lruIndex : nat) (oldestTime : Z) : nat :=
  match slots with
  | [] => lruIndex
  | s :: slots =>
      if bool_decide (is_Some (fileInfo s)) && (lastAccessTime s <? oldestTime)
      then lru_scan slots (S i) i (lastAccessTime s)
      else lru_scan slots (S i) lruIndex oldestTime
  end.

Definition lru_index (slots : list OpenFileCache) : nat :=
  match slots with [] => O | s :: rest => lru_scan rest 1 0 (lastAccessTime s) end.

Definition set_slot (k : nat) (s : OpenFileCache) : M unit :=
  modify (λ w, set_openFiles (<[k := s]> (openFiles w)) w).

Definition CloseLRUFile : M unit :=
  w ← get;
  match openFiles w !! lru_index (openFiles w) with
  | None => fail OutOfBounds
  | Some slot =>
      i ← deref (fileInfo slot);
      info ← get_info i;
      _ ← fclose (file info);
      _ ← put_info i (opened info false (file info));
      set_slot (lru_index (openFiles w)) {| fileInfo := None; lastAccessTime := lastAccessTime slot |}
  end.

(** ** OpenFile *)

(** The first slot with that content, if any. *)
Definition find_slot (p : option nat) (slots : list OpenFileCache) : option nat :=
  fst <$> list_find (λ s, fileInfo s = p) slots.

Definition openSlots (slots : list OpenFileCache) : nat :=
  length (filter (λ s, fileInfo s = None) slots).

(** Opening the file and adding it to the cache in the first available slot. *)
Definition OpenFile_fill `{Platform} (i : nat) : M (option nat) :=
  info ← get_info i;
  f ← fopen (filepath info);
  match f with
  | None =>
      _ ← put_info i (opened info (isOpen info) None);
      _ ← printf "Failed to open file";
      mret None
  | Some h =>
      _ ← put_info i (opened info true (Some h));
      w ← get;
      match find_slot None (openFiles w) with
      | Some k => t ← time_u32; _ ← set_slot k {| fileInfo := Some i; lastAccessTime := t |}; mret (Some h)
      | None => mret (Some h)
      end
  end.

(** The part after the first test: the file is not in the cache. *)
Definition OpenFile_miss `{Platform} (i : nat) : M (option nat) :=
  w ← get;
  _ ← (if bool_decide (openSlots (openFiles w) = 0%nat) then CloseLRUFile else mret tt);
  OpenFile_fill i.

Definition OpenFile `{Platform} (i : nat) : M (option nat) :=
  info ← get_info i;
  w ← get;
  match (if isOpen info then find_slot (Some i) (openFiles w) else None) with
  | Some k =>
      t ← time_u32;
      _ ← set_slot k {| fileInfo := Some i; lastAccessTime := t |};
      mret (file info)
  | None => OpenFile_miss i
  end.

(** ** The invariant *)

(** The file is in that slot; the file has that open stream. *)
Definition in_slot (w : world) (k i : nat) : Prop :=
  ∃ s, openFiles w !! k = Some s ∧ fileInfo s = Some i.
Definition is_open (w : world) (i h : nat) : Prop :=
  ∃ info, infos w !! i = Some info ∧ isOpen info = true ∧ file info = Some h.

(** The contents of the file a [FileInfo] names. *)
Definition file_contents (w : world) (i : nat) : option (list Z) :=
  infos w !! i ≫= λ info, disk (w_os w) !! filepath info.

Record cache_ok (w : world) : Prop := {
  ok_slots : length (openFiles w) = MAX_OPEN_FILES;
  ok_slot_inj : ∀ k k' i, in_slot w k i → in_slot w k' i → k = k';
  ok_cached : ∀ i, (∃ k, in_slot w k i) ↔ ∃ info, infos w !! i = Some info ∧ isOpen info = true;
  ok_stream : ∀ i info, infos w !! i = Some info → isOpen info = true →
    ∃ h s, file info = Some h ∧ streams w !! h = Some s ∧ file_contents w i = Some (contents s);
  ok_inj : ∀ i j h, is_open w i h → is_open w j h → i = j;
  ok_owned : ∀ h, is_Some (streams w !! h) → ∃ i, is_open w i h;
  ok_fresh : ∀ h, is_Some (streams w !! h) → (h < next_stream w)%nat
}.

(** ** The least recently used slot *)

Lemma lru_scan_spec slots i lru oldest :
  let occupied := λ s : OpenFileCache, is_Some (fileInfo s) in
  (lru_scan slots i lru oldest = lru ∧
     ∀ s, s ∈ slots → occupied s → oldest ≤ lastAccessTime s) ∨
  (∃ j s, slots !! j = Some s ∧ lru_scan slots i lru oldest = (i + j)%nat ∧ occupied s ∧
     lastAccessTime s < oldest ∧ ∀ s', s' ∈ slots → occupied s' → lastAccessTime s ≤ lastAccessTime s').
Proof.
  intros occupied. revert i lru oldest. induction slots as [|s slots IH]; intros i lru oldest; cbn.
  { left. split; [done|]. intros s Hs. by apply elem_of_nil in Hs. }
  case_bool_decide as Hs; cbn [andb]; [destruct (_ <? oldest) eqn:E; split_bool|].
  - right. destruct (IH (S i) i (lastAccessTime s)) as [[-> Hall]|(j & s1 & Hj & -> & Ho & Hlt & Hall)].
    + exists O, s. split_and!; [done|lia|done|done|]. intros s' [->|Hin]%elem_of_cons Ho'; auto with lia.
    + exists (S j), s1. split_and!; [done|lia|done|lia|].
      intros s' [->|Hin]%elem_of_cons Ho'; auto with lia.
  - destruct (IH (S i) lru oldest) as [[-> Hall]|(j & s1 & Hj & -> & Ho & Hlt & Hall)].
    + left. split; [done|]. intros s' [->|Hin]%elem_of_cons Ho'; auto with lia.
    + right. exists (S j), s1. split_and!; [done|lia|done|lia|].
      intros s' [->|Hin]%elem_of_cons Ho'; auto with lia.
  - destruct (IH (S i) lru oldest) as [[-> Hall]|(j & s1 & Hj & -> & Ho & Hlt & Hall)].
    + left. split; [done|]. intros s' [->|Hin]%elem_of_cons Ho'; [done|auto].
    + right. exists (S j), s1. split_and!; [done|lia|done|lia|].
      intros s' [->|Hin]%elem_of_cons Ho'; [done|auto].
Qed.

(** With every slot taken, the slot chosen has the oldest access time. *)
Lemma lru_index_spec slots :
  slots ≠ [] → Forall (λ s, is_Some (fileInfo s)) slots →
  ∃ s, slots !! lru_index slots = Some s ∧
    ∀ s', s' ∈ slots → lastAccessTime s ≤ lastAccessTime s'.
Proof.
  destruct slots as [|s slots]; [done|]. intros _ Hf. rewrite Forall_forall in Hf. cbn [lru_index].
  destruct (lru_scan_spec slots 1 0 (lastAccessTime s)) as [[-> Hall]|(j & s1 & Hj & -> & Ho & Hlt & Hall)].
  - exists s. split; [done|]. intros s' Hin. pose proof (Hf _ Hin) as Hs'.
    apply elem_of_cons in Hin as [->|Hin]; [lia|auto].
  - exists s1. split; [done|]. intros s' Hin. pose proof (Hf _ Hin) as Hs'.
    apply elem_of_cons in Hin as [->|Hin]; [lia|auto].
Qed.

Lemma openSlots_0 slots : openSlots slots = 0%nat ↔ Forall (λ s, is_Some (fileInfo s)) slots.
Proof.
  unfold openSlots. rewrite length_zero_iff_nil, Forall_forall. split.
  - intros Hn s Hs. destruct (fileInfo s) eqn:E; [eauto|].
    assert (s ∈ filter (λ s, fileInfo s = None) slots) as Hin by (by apply list_elem_of_filter).
    rewrite Hn in Hin. by apply elem_of_nil in Hin.
  - intros Hall. apply elem_of_nil_inv. intros s [Hn Hs]%list_elem_of_filter.
    destruct (Hall s Hs) as [? ?]. congruence.
Qed.

Lemma find_slot_Some p slots k :
  find_slot p slots = Some k → ∃ s, slots !! k = Some s ∧ fileInfo s = p.
Proof.
  unfold find_slot. rewrite fmap_Some. intros ([k' s] & H & ->).
  apply list_find_Some in H as (? & ? & _). eauto.
Qed.

Lemma find_slot_None p slots : find_slot p slots = None → ∀ s, s ∈ slots → fileInfo s ≠ p.
Proof.
  unfold find_slot. rewrite fmap_None, list_find_None, Forall_forall. done.
Qed.

(** ** One slot emptied, one slot filled *)

(** Slot [k], which held file [i], is emptied, the file marked closed and its stream gone. *)
Record closes (w w' : world) (k i : nat) (info : FileInfo) (h : nat) : Prop := {
  cl_slots : ∃ t, openFiles w' = <[k := {| fileInfo := None; lastAccessTime := t |}]> (openFiles w);
  cl_slot : in_slot w k i;
  cl_info : infos w !! i = Some info;
  cl_open : isOpen info = true;
  cl_file : file info = Some h;
  cl_infos : infos w' = <[i := opened info false (Some h)]> (infos w);
  cl_streams : streams w' = delete h (streams w);
  cl_next : next_stream w' = next_stream w;
  cl_os : w_os w' = w_os w
}.

(** Slot [k], which was free, gets file [i], whose new stream is [next_stream w]. *)
Record opens (w w' : world) (k i : nat) (info : FileInfo) (c : list Z) : Prop := {
  op_slots : ∃ t, openFiles w' = <[k := {| fileInfo := Some i; lastAccessTime := t |}]> (openFiles w);
  op_slot : ∃ s, openFiles w !! k = Some s ∧ fileInfo s = None;
  op_info : infos w !! i = Some info;
  op_closed : isOpen info = false;
  op_disk : disk (w_os w) !! filepath info = Some c;
  op_infos : infos w' = <[i := opened info true (Some (next_stream w))]> (infos w);
  op_streams : streams w' = <[next_stream w := {| contents := c; position := 0 |}]> (streams w);
  op_next : next_stream w' = S (next_stream w);
  op_os : w_os w' = w_os w
}.

Lemma in_slot_set w w' k s k' j :
  openFiles w' = <[k := s]> (openFiles w) → (k < length (openFiles w))%nat →
  in_slot w' k' j ↔ (k' = k ∧ fileInfo s = Some j) ∨ (k' ≠ k ∧ in_slot w k' j).
Proof.
  intros E Hk. unfold in_slot. rewrite E. destruct (decide (k' = k)) as [->|Hne].
  - rewrite list_lookup_insert_eq by done. naive_solver.
  - rewrite list_lookup_insert_ne by done. naive_solver.
Qed.

Lemma infos_set w w' i f j info :
  infos w' = <[i := f]> (infos w) → (i < length (infos w))%nat →
  infos w' !! j = Some info ↔ (j = i ∧ info = f) ∨ (j ≠ i ∧ infos w !! j = Some info).
Proof.
  intros E Hi. rewrite E. destruct (decide (j = i)) as [->|Hne].
  - rewrite list_lookup_insert_eq by done. naive_solver.
  - rewrite list_lookup_insert_ne by done. naive_solver.
Qed.

Lemma file_contents_set w w' i info b h j :
  infos w !! i = Some info → infos w' = <[i := opened info b h]> (infos w) → w_os w' = w_os w →
  file_contents w' j = file_contents w j.
Proof.
  intros Hi E Eo. unfold file_contents. rewrite E, Eo. destruct (decide (j = i)) as [->|Hne].
  - by rewrite list_lookup_insert_eq, Hi by (by eapply lookup_lt_Some).
  - by rewrite list_lookup_insert_ne.
Qed.

Lemma cache_ok_close w w' k i info h :
  cache_ok w → closes w w' k i info h → cache_ok w'.
Proof.
  intros [Hlen Hsi Hc Hst Hinj Hown Hfr] [(t & Es) Hk Hi Ho Hf Ei Est En Eo].
  assert (Hkl : (k < length (openFiles w))%nat) by (destruct Hk as (? & ? & _); by eapply lookup_lt_Some).
  assert (Hil : (i < length (infos w))%nat) by by eapply lookup_lt_Some.
  pose proof (λ k' j, in_slot_set w w' k _ k' j Es Hkl) as Hslot.
  pose proof (λ j info', infos_set w w' i _ j info' Ei Hil) as Hinfo.
  assert (Hisopen : ∀ j h', is_open w' j h' ↔ j ≠ i ∧ is_open w j h').
  { intros j h'. unfold is_open. setoid_rewrite Hinfo. naive_solver. }
  split.
  - by rewrite Es, length_insert.
  - intros k1 k2 j. rewrite !Hslot. naive_solver.
  - intros j. setoid_rewrite Hslot. setoid_rewrite Hinfo. specialize (Hc j). split.
    + intros (k' & [[_ [=]]|[Hne Hj]]). destruct Hc as [Hc _]. destruct Hc as (info' & ? & ?); [eauto|].
      exists info'. split; [|done]. right. split; [|done]. intros ->. by apply Hne, (Hsi _ _ i).
    + intros (info' & [[-> ->]|[Hne Hj]] & Ho'); [done|]. destruct Hc as [_ Hc].
      destruct Hc as (k' & Hk'); [eauto|]. exists k'. right. split; [|done]. intros ->. apply Hne.
      destruct Hk as (s1 & Hs1 & Hs1'), Hk' as (s2 & Hs2 & Hs2'). congruence.
  - intros j info' Hj Hoj. rewrite (file_contents_set w w' i info _ _ j Hi Ei Eo).
    apply Hinfo in Hj as [[-> ->]|[Hne Hj]]; [done|]. destruct (Hst j info' Hj Hoj) as (h' & s & ? & ? & ?).
    exists h', s. split_and!; [done| |done]. rewrite Est, lookup_delete_ne; [done|]. intros ->.
    apply Hne, (Hinj j i h'); unfold is_open; eauto.
  - intros j1 j2 h'. rewrite !Hisopen. intros [_ ?] [_ ?]. eauto.
  - intros h' Hh. rewrite Est in Hh. destruct (decide (h' = h)) as [->|Hne].
    { rewrite lookup_delete_eq in Hh. by destruct Hh. }
    rewrite lookup_delete_ne in Hh by done. destruct (Hown h' Hh) as (j & Hj).
    exists j. apply Hisopen. split; [|done]. intros ->.
    destruct Hj as (? & ? & ? & ?). congruence.
  - intros h' Hh. rewrite Est in Hh. rewrite En. apply Hfr.
    destruct (decide (h' = h)) as [->|Hne].
    { rewrite lookup_delete_eq in Hh. by destruct Hh. }
    by rewrite lookup_delete_ne in Hh.
Qed.

Lemma cache_ok_open w w' k i info c :
  cache_ok w → opens w w' k i info c → cache_ok w'.
Proof.
  intros [Hlen Hsi Hc Hst Hinj Hown Hfr] [(t & Es) Hk Hi Ho Hd Ei Est En Eo].
  assert (Hkl : (k < length (openFiles w))%nat) by (destruct Hk as (? & ? & _); by eapply lookup_lt_Some).
  assert (Hil : (i < length (infos w))%nat) by by eapply lookup_lt_Some.
  pose proof (λ k' j, in_slot_set w w' k _ k' j Es Hkl) as Hslot. cbn [fileInfo] in Hslot.
  pose proof (λ j info', infos_set w w' i _ j info' Ei Hil) as Hinfo.
  assert (Hni : ∀ k', ¬ in_slot w k' i).
  { intros k' Hk'. destruct (Hc i) as [Hc' _]. destruct Hc' as (? & ? & ?); [eauto|]. congruence. }
  assert (Hnk : ∀ j, ¬ in_slot w k j).
  { intros j (s & Hs & Hs'). destruct Hk as (s2 & Hs2 & Hs2'). congruence. }
  assert (Hold : ∀ j h, is_open w j h → (h < next_stream w)%nat ∧ j ≠ i).
  { intros j h (info' & Hj & Hoj & Hfj). split; [|intros ->; congruence].
    destruct (Hst j info' Hj Hoj) as (h' & s & ? & ? & _). simplify_eq. apply Hfr. eauto. }
  assert (Hisopen : ∀ j h', is_open w' j h' ↔ (j = i ∧ h' = next_stream w) ∨ (j ≠ i ∧ is_open w j h')).
  { intros j h'. unfold is_open. setoid_rewrite Hinfo. split.
    - intros (info' & [[-> ->]|[Hne Hj]] & Ho' & Hf'); [left; by simplify_eq/=|right; eauto].
    - intros [[-> ->]|[Hne (info' & ? & ? & ?)]]; [by eauto 6|exists info'; eauto]. }
  split.
  - by rewrite Es, length_insert.
  - intros k1 k2 j. rewrite !Hslot.
    intros [[-> E1]|[? H1]] [[-> E2]|[? H2]]; simplify_eq; try done; try by edestruct Hni. eauto.
  - intros j. setoid_rewrite Hslot. setoid_rewrite Hinfo. split.
    + intros (k' & [[_ [= ->]]|[Hne Hj]]); [by eauto 6|].
      destruct (Hc j) as [Hc' _]. destruct Hc' as (info' & ? & ?); [eauto|].
      exists info'. split; [|done]. right. split; [|done]. intros ->. by eapply Hni.
    + intros (info' & [[-> ->]|[Hne Hj]] & Ho'); [by eauto|]. destruct (Hc j) as [_ Hc'].
      destruct Hc' as (k' & Hk'); [eauto|]. exists k'. right. split; [|done]. intros ->. by eapply Hnk.
  - intros j info' Hj Hoj. rewrite (file_contents_set w w' i info _ _ j Hi Ei Eo), Est.
    apply Hinfo in Hj as [[-> ->]|[Hne Hj]].
    + eexists _, _. split_and!; [done|apply lookup_insert_eq|]. unfold file_contents. by rewrite Hi.
    + destruct (Hst j info' Hj Hoj) as (h' & s & ? & ? & ?). exists h', s.
      split_and!; [done| |done]. rewrite lookup_insert_ne; [done|].
      intros Eh. pose proof (Hfr h' ltac:(eauto)). lia.
  - intros j1 j2 h'. rewrite !Hisopen. intros [[-> ->]|[? H1]] [[-> E]|[? H2]]; try done.
    + apply Hold in H2. lia.
    + apply Hold in H1. lia.
    + eauto.
  - intros h' Hh. rewrite Est in Hh. setoid_rewrite Hisopen.
    destruct (decide (h' = next_stream w)) as [->|Hne]; [eauto|].
    rewrite lookup_insert_ne in Hh by done. destruct (Hown h' Hh) as (j & Hj).
    exists j. right. split; [|done]. by apply (Hold j h').
  - intros h' Hh. rewrite Est in Hh. rewrite En.
    destruct (decide (h' = next_stream w)) as [->|Hne]; [lia|].
    rewrite lookup_insert_ne in Hh by done. apply Hfr in Hh. lia.
Qed.

(** Nothing the invariant looks at changes. *)
Lemma cache_ok_ext w w' :
  cache_ok w → openFiles w' = openFiles w → infos w' = infos w → streams w' = streams w →
  next_stream w' = next_stream w → w_os w' = w_os w → cache_ok w'.
Proof.
  intros [Hlen Hsi Hc Hst Hinj Hown Hfr] Es Ei Est En Eo.
  split; unfold in_slot, is_open, file_contents in *; rewrite ?Es, ?Ei, ?Est, ?En, ?Eo; done.
Qed.

(** Only the slots change, and of a slot only its time. *)
Lemma cache_ok_touch w w' k i t :
  cache_ok w → in_slot w k i →
  openFiles w' = <[k := {| fileInfo := Some i; lastAccessTime := t |}]> (openFiles w) →
  w_env w' = w_env w → streams w' = streams w → next_stream w' = next_stream w → w_os w' = w_os w →
  cache_ok w'.
Proof.
  intros [Hlen Hsi Hc Hst Hinj Hown Hfr] Hk Es Ee Est En Eo.
  assert (Hkl : (k < length (openFiles w))%nat) by (destruct Hk as (? & ? & _); by eapply lookup_lt_Some).
  assert (Hslot : ∀ k' j, in_slot w' k' j ↔ in_slot w k' j).
  { intros k' j. rewrite (in_slot_set w w' k _ k' j Es Hkl). cbn. split.
    - intros [[-> [= ->]]|[? ?]]; done.
    - intros Hj. destruct (decide (k' = k)) as [->|]; [left|by right]. split; [done|].
      destruct Hj as (? & ? & ?), Hk as (? & ? & ?). congruence. }
  assert (Einf : infos w' = infos w) by (unfold infos; by rewrite Ee).
  split.
  - by rewrite Es, length_insert.
  - intros k1 k2 j. rewrite !Hslot. apply Hsi.
  - intros j. setoid_rewrite Hslot. rewrite Einf. apply Hc.
  - intros j info. unfold file_contents. rewrite Einf, Est, Eo. apply Hst.
  - intros j1 j2 h. unfold is_open. rewrite Einf. apply Hinj.
  - intros h. unfold is_open. rewrite Einf, Est. apply Hown.
  - intros h. rewrite Est, En. apply Hfr.
Qed.

(** ** The operations *)

(** What opening a file leaves alone. *)
Record frame (w w' : world) : Prop := {
  fr_heap : w_heap w' = w_heap w;
  fr_console : console w' = console w;
  fr_os : w_os w' = w_os w;
  fr_xorKey : xorKey (w_env w') = xorKey (w_env w);
  fr_index : indexRecords (w_env w') = indexRecords (w_env w);
  fr_paths : filepath <$> infos w' = filepath <$> infos w
}.

#[export] Instance frame_refl : Reflexive frame.
Proof. by split. Qed.
#[export] Instance frame_trans : Transitive frame.
Proof. intros w1 w2 w3 [] []. split; congruence. Qed.

Lemma frame_contents w w' i : frame w w' → file_contents w' i = file_contents w i.
Proof.
  intros [_ _ Eo _ _ Ep]. unfold file_contents. rewrite Eo.
  assert (E : filepath <$> infos w' !! i = filepath <$> infos w !! i)
    by (rewrite <- !list_lookup_fmap; by rewrite Ep).
  destruct (infos w' !! i), (infos w !! i); simplify_eq/=; congruence.
Qed.

Lemma infos_set_infos l w : infos w ≠ [] → infos (set_infos l w) = l.
Proof. unfold infos, set_infos. cbn. by destruct (files _). Qed.

Lemma infos_non_empty w i info : infos w !! i = Some info → infos w ≠ [].
Proof. intros Hi E. by rewrite E in Hi. Qed.

Lemma map_filepath_set w i info b h :
  infos w !! i = Some info →
  filepath <$> <[i := opened info b h]> (infos w) = filepath <$> infos w.
Proof.
  intros Hi.
  rewrite list_fmap_insert. apply list_insert_id. by rewrite list_lookup_fmap, Hi.
Qed.

(** Storing into a [FileInfo]. *)
Lemma put_info_ok w i info b h :
  infos w !! i = Some info →
  ∃ w', put_info i (opened info b h) w = Ok (tt, w') ∧
    infos w' = <[i := opened info b h]> (infos w) ∧ frame w w' ∧ openFiles w' = openFiles w ∧
    streams w' = streams w ∧ next_stream w' = next_stream w.
Proof.
  intros Hi. eexists. split; [done|].
  rewrite infos_set_infos by by eapply infos_non_empty. split_and!; try done.
  split; try done. rewrite infos_set_infos by by eapply infos_non_empty. by apply map_filepath_set.
Qed.

Lemma get_info_ok w i info : infos w !! i = Some info → get_info i w = Ok (info, w).
Proof. unfold get_info. by intros ->. Qed.

(** Closing a file of known slot. *)
Lemma CloseLRUFile_ok w :
  cache_ok w → openSlots (openFiles w) = 0%nat →
  ∃ w' i info h, CloseLRUFile w = Ok (tt, w') ∧
    closes w w' (lru_index (openFiles w)) i info h ∧ frame w w'.
Proof.
  intros Hok Hfull. apply openSlots_0 in Hfull.
  destruct (lru_index_spec (openFiles w)) as (slot & Hslot & _); [|done|].
  { intros E. pose proof (ok_slots _ Hok) as Hl. by rewrite E in Hl. }
  rewrite Forall_forall in Hfull.
  destruct (Hfull slot (list_elem_of_lookup_2 _ _ _ Hslot)) as [i Hi].
  destruct (proj1 (ok_cached _ Hok i)) as (info & Hinfo & Ho); [by exists (lru_index (openFiles w)), slot|].
  destruct (ok_stream _ Hok i info Hinfo Ho) as (h & s & Hf & Hs & _).
  set (w1 := set_streams (delete h (streams w)) (next_stream w) w).
  destruct (put_info_ok w1 i info false (file info)) as (w2 & E2 & Ei & Hfr & Es & Est & En); [done|].
  exists (set_openFiles (<[lru_index (openFiles w) := {| fileInfo := None;
    lastAccessTime := lastAccessTime slot |}]> (openFiles w2)) w2), i, info, h.
  split; [|split].
  - unfold CloseLRUFile. rewrite (M_bind_ok get _ _ _ _ eq_refl), Hslot, Hi. cbn [deref].
    rewrite M_bind_ret, (M_bind_ok _ _ _ _ _ (get_info_ok _ _ _ Hinfo)).
    rewrite (M_bind_ok (fclose _) _ _ tt w1)
      by (unfold fclose, stream_of, mbind, M_bind; by rewrite Hf; cbn; rewrite Hs).
    by rewrite (M_bind_ok _ _ _ _ _ E2).
  - split; cbn; try done.
    + eexists. by rewrite Es.
    + by exists slot.
    + by rewrite <- Hf.
    + apply (fr_os _ _ Hfr).
  - transitivity w2; [|by split]. transitivity w1; [by split|done].
Qed.

Section open.
Context `{Platform}.

Lemma find_slot_free slots : openSlots slots ≠ 0%nat → is_Some (find_slot None slots).
Proof.
  intros Hn. destruct (find_slot None slots) eqn:E; [eauto|]. exfalso. apply Hn, openSlots_0.
  rewrite Forall_forall. intros s Hs. pose proof (find_slot_None _ _ E s Hs).
  destruct (fileInfo s); [eauto|done].
Qed.

(** With a free slot, the file gets a new stream at its start. *)
Lemma OpenFile_fill_ok w i info c :
  openSlots (openFiles w) ≠ 0%nat → infos w !! i = Some info → isOpen info = false →
  disk (w_os w) !! filepath info = Some c →
  ∃ k w', OpenFile_fill i w = Ok (Some (next_stream w), w') ∧ opens w w' k i info c ∧ frame w w'.
Proof.
  intros Hfree Hi Ho Hd.
  set (w1 := set_streams (<[next_stream w := {| contents := c; position := 0 |}]> (streams w))
               (S (next_stream w)) w).
  destruct (put_info_ok w1 i info true (Some (next_stream w)))
    as (w2 & E2 & Ei & Hfr & Es & Est & En); [done|].
  destruct (find_slot_free _ Hfree) as [k Hk]. exists k.
  pose proof (find_slot_Some _ _ _ Hk) as Hslot.
  eexists. split; [|split].
  - unfold OpenFile_fill. rewrite (M_bind_ok _ _ _ _ _ (get_info_ok _ _ _ Hi)).
    rewrite (M_bind_ok (fopen _) _ _ (Some (next_stream w)) w1) by (unfold fopen; by rewrite Hd).
    cbn beta iota. rewrite (M_bind_ok _ _ _ _ _ E2), (M_bind_ok get _ _ _ _ eq_refl), Es.
    change (openFiles w1) with (openFiles w). rewrite Hk. reflexivity.
  - split; cbn; try done.
    + eexists. by rewrite Es.
    + apply (fr_os _ _ Hfr).
  - transitivity w2; [|by split]. transitivity w1; [by split|done].
Qed.

Lemma closes_frees_slot w w' k i info h :
  cache_ok w → closes w w' k i info h → openSlots (openFiles w') ≠ 0%nat.
Proof.
  intros Hok [(t & Es) Hk _ _ _ _ _ _ _]. rewrite openSlots_0, Forall_forall, Es. intros Hall.
  destruct Hk as (s & Hs & _). apply lookup_lt_Some in Hs.
  destruct (Hall {| fileInfo := None; lastAccessTime := t |}) as [? [=]].
  by apply list_elem_of_insert.
Qed.

(** What a miss does: an eviction when the cache is full, then an opening. *)
Definition evicts (w w1 : world) : Prop :=
  if bool_decide (openSlots (openFiles w) = 0%nat)
  then ∃ i info h, closes w w1 (lru_index (openFiles w)) i info h else w1 = w.

Lemma OpenFile_miss_ok w i info c :
  cache_ok w → infos w !! i = Some info → isOpen info = false →
  disk (w_os w) !! filepath info = Some c →
  ∃ w1 k w', OpenFile_miss i w = Ok (Some (next_stream w1), w') ∧ cache_ok w1 ∧ evicts w w1 ∧
    opens w1 w' k i info c ∧ frame w w'.
Proof.
  intros Hok Hi Ho Hd. unfold OpenFile_miss, evicts. rewrite (M_bind_ok get _ _ _ _ eq_refl).
  case_bool_decide as Hfull.
  - destruct (CloseLRUFile_ok w Hok Hfull) as (w1 & j & jinfo & h & E1 & Hcl & Hfr1).
    assert (Hij : infos w1 !! i = Some info).
    { rewrite (cl_infos _ _ _ _ _ _ Hcl), list_lookup_insert_ne; [done|]. intros ->.
      pose proof (cl_info _ _ _ _ _ _ Hcl). pose proof (cl_open _ _ _ _ _ _ Hcl). congruence. }
    rewrite (M_bind_ok _ _ _ _ _ E1).
    destruct (OpenFile_fill_ok w1 i info c) as (k & w' & E2 & Hop & Hfr2); [|done|done| |].
    + by eapply closes_frees_slot.
    + by rewrite (fr_os _ _ Hfr1).
    + exists w1, k, w'.
      split_and!; [done| |by eauto|done|by transitivity w1]. by eapply cache_ok_close.
  - destruct (OpenFile_fill_ok w i info c) as (k & w' & E2 & Hop & Hfr2); [done..|].
    exists w, k, w'. by rewrite M_bind_ret.
Qed.

(** A file that is open is served from its slot. *)
Lemma OpenFile_hit_ok w i info :
  cache_ok w → infos w !! i = Some info → isOpen info = true →
  ∃ w' k t h, OpenFile i w = Ok (Some h, w') ∧ file info = Some h ∧ in_slot w k i ∧
    openFiles w' = <[k := {| fileInfo := Some i; lastAccessTime := t |}]> (openFiles w) ∧
    w_env w' = w_env w ∧ streams w' = streams w ∧ next_stream w' = next_stream w ∧ frame w w'.
Proof.
  intros Hok Hi Ho. destruct (proj2 (ok_cached _ Hok i)) as (k0 & s0 & Hs0 & Hs0'); [eauto|].
  destruct (ok_stream _ Hok i info Hi Ho) as (h & s & Hf & Hs & _).
  destruct (find_slot (Some i) (openFiles w)) as [k|] eqn:Ek.
  2:{ by destruct (find_slot_None _ _ Ek s0 (list_elem_of_lookup_2 _ _ _ Hs0)). }
  eexists _, k, _, h. split.
  - unfold OpenFile. rewrite (M_bind_ok _ _ _ _ _ (get_info_ok _ _ _ Hi)), Ho.
    rewrite (M_bind_ok get _ _ _ _ eq_refl), Ek, Hf. reflexivity.
  - split_and!; try done. by apply find_slot_Some.
Qed.

Lemma OpenFile_closed w i info :
  infos w !! i = Some info → isOpen info = false → OpenFile i w = OpenFile_miss i w.
Proof.
  intros Hi Ho. unfold OpenFile. rewrite (M_bind_ok _ _ _ _ _ (get_info_ok _ _ _ Hi)), Ho.
  by rewrite (M_bind_ok get _ _ _ _ eq_refl).
Qed.

(** A file that cannot be opened: the failure is printed and NULL returned. *)
Lemma OpenFile_fill_missing w i info :
  infos w !! i = Some info → disk (w_os w) !! filepath info = None →
  ∃ w', OpenFile_fill i w = Ok (None, w') ∧ ∃ info', infos w' !! i = Some info'.
Proof.
  intros Hi Hd. unfold OpenFile_fill. rewrite (M_bind_ok _ _ _ _ _ (get_info_ok _ _ _ Hi)).
  rewrite (M_bind_ok (fopen _) _ _ None w) by (unfold fopen; by rewrite Hd). cbn beta iota.
  destruct (put_info_ok w i info (isOpen info) None Hi) as (w' & E & Ei & _).
  rewrite (M_bind_ok _ _ _ _ _ E). eexists. split; [done|]. exists (opened info (isOpen info) None).
  change (infos w' !! i = Some (opened info (isOpen info) None)).
  rewrite Ei, list_lookup_insert_eq; [done|by eapply lookup_lt_Some].
Qed.

Lemma OpenFile_missing w i info :
  cache_ok w → infos w !! i = Some info → isOpen info = false →
  disk (w_os w) !! filepath info = None →
  ∃ w', OpenFile i w = Ok (None, w') ∧ ∃ info', infos w' !! i = Some info'.
Proof.
  intros Hok Hi Ho Hd. rewrite (OpenFile_closed w i info Hi Ho). unfold OpenFile_miss.
  rewrite (M_bind_ok get _ _ _ _ eq_refl). case_bool_decide as Hfull.
  2:{ rewrite M_bind_ret. by eapply OpenFile_fill_missing. }
  destruct (CloseLRUFile_ok w Hok Hfull) as (w1 & j & jinfo & h & E1 & Hcl & Hfr1).
  rewrite (M_bind_ok _ _ _ _ _ E1). eapply (OpenFile_fill_missing w1 i info).
  - rewrite (cl_infos _ _ _ _ _ _ Hcl), list_lookup_insert_ne; [done|]. intros ->.
    pose proof (cl_info _ _ _ _ _ _ Hcl). pose proof (cl_open _ _ _ _ _ _ Hcl). congruence.
  - by rewrite (fr_os _ _ Hfr1).
Qed.
End open.

(** ** The bound, and serving a file *)

(** As many streams as slots at most. *)
Lemma size_list_to_set_le (l : list nat) : (size (list_to_set l : gset nat) ≤ length l)%nat.
Proof.
  induction l as [|x l IH]; [by cbn; rewrite size_empty|]. cbn [list_to_set length].
  rewrite size_union_alt. rewrite size_singleton.
  assert (size ((list_to_set l : gset nat) ∖ {[x]}) ≤ size (list_to_set l : gset nat))%nat
    by (apply subseteq_size; intros y Hy; by apply elem_of_difference in Hy as [? _]).
  cbn. lia.
Qed.

Lemma cache_ok_bound w : cache_ok w → (size (streams w) ≤ MAX_OPEN_FILES)%nat.
Proof.
  intros Hok. rewrite <- (ok_slots _ Hok), <- size_dom.
  set (hs := omap (λ s, fileInfo s ≫= λ i, infos w !! i ≫= file) (openFiles w)).
  transitivity (size (list_to_set hs : gset nat)).
  - apply subseteq_size. intros h Hh. apply elem_of_dom in Hh.
    destruct (ok_owned _ Hok h Hh) as (i & info & Hi & Ho & Hf).
    destruct (proj2 (ok_cached _ Hok i)) as (k & s & Hs & Hs'); [eauto|].
    apply elem_of_list_to_set, list_elem_of_omap. exists s.
    split; [by eapply list_elem_of_lookup_2|]. rewrite Hs'. cbn. by rewrite Hi.
  - etransitivity; [apply size_list_to_set_le|]. unfold hs. clear.
    induction (openFiles w) as [|s l IH]; [done|]. cbn. destruct (fileInfo s ≫= _); cbn; lia.
Qed.

Lemma OpenFile_ok `{Platform} w i info c :
  cache_ok w → infos w !! i = Some info → disk (w_os w) !! filepath info = Some c →
  ∃ h s w', OpenFile i w = Ok (Some h, w') ∧ cache_ok w' ∧ frame w w' ∧
    is_open w' i h ∧ streams w' !! h = Some s ∧ contents s = c.
Proof.
  intros Hok Hi Hd.
  assert (Hserved : ∀ w', cache_ok w' → frame w w' → ∀ h, is_open w' i h →
    ∃ s, streams w' !! h = Some s ∧ contents s = c).
  { intros w' Hok' Hfr h (info' & Hi' & Ho' & Hf').
    destruct (ok_stream _ Hok' i info' Hi' Ho') as (h' & s & Hh & Hs & Hc).
    exists s. rewrite Hf' in Hh. injection Hh as <-. split; [done|].
    rewrite (frame_contents _ _ _ Hfr) in Hc. unfold file_contents in Hc. rewrite Hi in Hc.
    cbn in Hc. congruence. }
  destruct (isOpen info) eqn:Ho.
  - destruct (OpenFile_hit_ok w i info Hok Hi Ho)
      as (w' & k & t & h & E & Hf & Hk & Es & Ee & Est & En & Hfr).
    assert (Hok' : cache_ok w') by (eapply cache_ok_touch; try done; apply (fr_os _ _ Hfr)).
    assert (Hio : is_open w' i h) by (exists info; unfold infos; rewrite Ee; done).
    destruct (Hserved w' Hok' Hfr h Hio) as (s & Hs & Hc). by exists h, s, w'.
  - destruct (OpenFile_miss_ok w i info c Hok Hi Ho Hd) as (w1 & k & w' & E & Hok1 & _ & Hop & Hfr).
    assert (Hok' : cache_ok w') by by eapply cache_ok_open.
    assert (Hio : is_open w' i (next_stream w1)).
    { exists (opened info true (Some (next_stream w1))). split; [|done].
      rewrite (op_infos _ _ _ _ _ _ Hop), list_lookup_insert_eq; [done|].
      eapply lookup_lt_Some, (op_info _ _ _ _ _ _ Hop). }
    rewrite (OpenFile_closed w i info Hi Ho).
    destruct (Hserved w' Hok' Hfr _ Hio) as (s & Hs & Hc). by exists (next_stream w1), s, w'.
Qed.

(** Opening a file that was closed leaves the others open, except the victim. *)
Lemma opens_others w w' k i info c j h :
  opens w w' k i info c → is_open w j h → is_open w' j h.
Proof.
  intros Hop (info' & Hj & Ho & Hf). exists info'. split; [|done].
  rewrite (op_infos _ _ _ _ _ _ Hop), list_lookup_insert_ne; [done|]. intros ->.
  pose proof (op_info _ _ _ _ _ _ Hop). pose proof (op_closed _ _ _ _ _ _ Hop). congruence.
Qed.

Lemma closes_others w w' k v info h0 j h :
  closes w w' k v info h0 → j ≠ v → is_open w j h → is_open w' j h.
Proof.
  intros Hcl Hne (info' & Hj & Ho). exists info'. split; [|done].
  by rewrite (cl_infos _ _ _ _ _ _ Hcl), list_lookup_insert_ne.
Qed.

Lemma closes_victim w w1 w' k v info h0 k' i info' c h :
  closes w w1 k v info h0 → opens w1 w' k' i info' c → v ≠ i → ¬ is_open w' v h.
Proof.
  intros Hcl Hop Hne (info1 & Hv & Ho & _).
  rewrite (op_infos _ _ _ _ _ _ Hop), list_lookup_insert_ne in Hv by done.
  rewrite (cl_infos _ _ _ _ _ _ Hcl), list_lookup_insert_eq in Hv
    by (eapply lookup_lt_Some, (cl_info _ _ _ _ _ _ Hcl)).
  by simplify_eq/=.
Qed.

(** ** Properties *)

(** C4: whenever the file of a [FileInfo] exists, [OpenFile] returns a stream on its
    contents, whether it was open or not and whether the cache was full or not; the cache
    stays consistent (a file is open exactly when one slot holds it, no two files share a
    stream, no stream is lost) and at most [MAX_OPEN_FILES] streams are open. *)
Theorem OpenFile_serves_file `{Platform} w i info c :
  cache_ok w → infos w !! i = Some info → disk (w_os w) !! filepath info = Some c →
  ∃ h s w', OpenFile i w = Ok (Some h, w') ∧ cache_ok w' ∧ is_open w' i h ∧
    streams w' !! h = Some s ∧ contents s = c ∧ (size (streams w') ≤ MAX_OPEN_FILES)%nat.
Proof.
  intros Hok Hi Hd. destruct (OpenFile_ok w i info c Hok Hi Hd) as (h & s & w' & E & Hok' & _ & ? & ? & ?).
  exists h, s, w'. split_and!; try done. by apply cache_ok_bound.
Qed.

(** The eviction policy.  A file that is open is served without touching any
    stream.  Opening a closed file closes nothing as long as a slot is free; when all are
    taken it closes exactly one file, whose slot has the least access time of all. *)
Theorem OpenFile_evicts_least_recent `{Platform} w i info c r w' :
  cache_ok w → infos w !! i = Some info → disk (w_os w) !! filepath info = Some c →
  OpenFile i w = Ok (r, w') →
  (isOpen info = true → streams w' = streams w ∧ w_env w' = w_env w) ∧
  (isOpen info = false → openSlots (openFiles w) ≠ 0%nat →
    ∀ j h, is_open w j h → is_open w' j h) ∧
  (isOpen info = false → openSlots (openFiles w) = 0%nat →
    ∃ v slot, slot ∈ openFiles w ∧ fileInfo slot = Some v ∧
      (∀ s, s ∈ openFiles w → lastAccessTime slot ≤ lastAccessTime s) ∧
      (∀ h, ¬ is_open w' v h) ∧ (∀ j h, j ≠ v → is_open w j h → is_open w' j h)).
Proof.
  intros Hok Hi Hd E. split; [|split].
  - intros Ho. destruct (OpenFile_hit_ok w i info Hok Hi Ho)
      as (w1 & k & t & h & E' & _ & _ & _ & Ee & Est & _).
    rewrite E' in E. by injection E as <- <-.
  - intros Ho Hfree j h Hj. rewrite (OpenFile_closed w i info Hi Ho) in E.
    destruct (OpenFile_miss_ok w i info c Hok Hi Ho Hd) as (w1 & k & w2 & E' & _ & Hev & Hop & _).
    unfold evicts in Hev. rewrite bool_decide_false in Hev by done. subst w1.
    rewrite E' in E. injection E as <- <-.
    by eapply opens_others.
  - intros Ho Hfull. rewrite (OpenFile_closed w i info Hi Ho) in E.
    destruct (OpenFile_miss_ok w i info c Hok Hi Ho Hd) as (w1 & k & w2 & E' & _ & Hev & Hop & _).
    unfold evicts in Hev. rewrite bool_decide_true in Hev by done.
    destruct Hev as (v & vinfo & h & Hcl). rewrite E' in E. injection E as <- <-.
    destruct (lru_index_spec (openFiles w)) as (slot & Hslot & Hmin).
    { intros En. pose proof (ok_slots _ Hok) as Hl. by rewrite En in Hl. }
    { by apply openSlots_0. }
    destruct (cl_slot _ _ _ _ _ _ Hcl) as (s & Hs & Hv). rewrite Hslot in Hs. injection Hs as <-.
    exists v, slot. split_and!; [by eapply list_elem_of_lookup_2|done|done| |].
    + intros h'. eapply closes_victim; [exact Hcl|exact Hop|]. intros ->.
      pose proof (cl_info _ _ _ _ _ _ Hcl). pose proof (cl_open _ _ _ _ _ _ Hcl). congruence.
    + intros j h' Hne Hj. eapply opens_others; [exact Hop|]. by eapply closes_others.
Qed.

(** Before the first use: no slot taken, every file closed, no stream. *)
Lemma cache_ok_start w :
  openFiles w = replicate MAX_OPEN_FILES {| fileInfo := None; lastAccessTime := 0 |} →
  Forall (λ f, isOpen f = false) (infos w) → streams w = ∅ → cache_ok w.
Proof.
  intros Es Hc Est. rewrite Forall_forall in Hc.
  assert (Hno : ∀ i info, infos w !! i = Some info → isOpen info ≠ true).
  { intros i info Hi. rewrite (Hc info); [done|]. by eapply list_elem_of_lookup_2. }
  assert (Hns : ∀ k i, ¬ in_slot w k i).
  { intros k i (s & Hs & Hs'). rewrite Es in Hs. apply lookup_replicate in Hs as [-> _]. done. }
  assert (Hni : ∀ i h, ¬ is_open w i h) by (intros i h (info & Hi & Ho & _); by eapply Hno).
  split.
  - by rewrite Es.
  - intros k k' i Hk. by destruct (Hns k i).
  - intros i. split; [intros (k & Hk); by destruct (Hns k i)|].
    intros (info & Hi & Ho). by destruct (Hno i info).
  - intros i info Hi Ho. by destruct (Hno i info).
  - intros i j h Hi. by destruct (Hni i h).
  - intros h. rewrite Est, lookup_empty. by intros [].
  - intros h. rewrite Est, lookup_empty. by intros [].
Qed.

(** Six files, none open. *)
Definition sample_infos : list FileInfo :=
  map (λ n, {| path_addr := 0; filepath := n; isOpen := false; file := None |})
    ["b0"; "b1"; "b2"; "b3"; "b4"; "b5"]%string.
Definition sample_world : world :=
  set_os {| disk := list_to_map (map (λ n, (n, [1; 2; 3])) ["b0"; "b1"; "b2"; "b3"; "b4"; "b5"]%string);
            dirs := ∅; envvar := ∅ |}
    (set_env (set_blkFiles {| files := Some (Buf 0 sample_infos); files_count := 6; totalSize := 6 |}
                empty_env) empty_world).

Fixpoint open_all `{Platform} (l : list nat) : M unit :=
  match l with [] => mret tt | i :: l => _ ← OpenFile i; open_all l end.

Lemma sample_cache_ok : cache_ok sample_world.
Proof. apply cache_ok_start; [done| |done]. repeat constructor. Qed.

Lemma OpenFile_serves_file_witness :
  ∃ h s w', @OpenFile sample_platform 3 sample_world = Ok (Some h, w') ∧
    streams w' !! h = Some s ∧ contents s = [1; 2; 3] ∧ (size (streams w') ≤ MAX_OPEN_FILES)%nat.
Proof.
  destruct (@OpenFile_serves_file sample_platform sample_world 3
    {| path_addr := 0; filepath := "b3"; isOpen := false; file := None |} [1; 2; 3]
    sample_cache_ok eq_refl eq_refl) as (h & s & w' & E & _ & _ & Hs & Hc & Hn).
  exists h, s, w'. split; [exact E|]. split; [exact Hs|]. split; [exact Hc|exact Hn].
Defined.

(** After opening 0, 1, 2, 3, 4 and 0 again, opening 5 takes the slot of 1. *)
Lemma OpenFile_evicts_least_recent_witness :
  match @open_all sample_platform [0; 1; 2; 3; 4; 0; 5]%nat sample_world with
  | Ok (_, w) => map fileInfo (openFiles w) = [Some 0; Some 5; Some 2; Some 3; Some 4]%nat
  | _ => False
  end ∧
  (∀ j h r w', @OpenFile sample_platform 3 sample_world = Ok (r, w') →
     is_open sample_world j h → is_open w' j h).
Proof.
  split; [vm_compute; reflexivity|]. intros j h r w' E.
  exact (proj1 (proj2 (@OpenFile_evicts_least_recent sample_platform sample_world 3
    {| path_addr := 0; filepath := "b3"; isOpen := false; file := None |} [1; 2; 3] r w'
    sample_cache_ok eq_refl eq_refl E)) eq_refl ltac:(discriminate) j h).
Defined.
