(* ===== verification/BlkDat.v ===== *)
(** * blkdat.c, ReadBlockFromBlkDatFile: one block of a blk*.dat file

    The block starts 8 bytes before the offset of the index, with the magic and the size;
    the file may be XORed with a key of eight bytes.  Failures of the calls are printed
    and the reading goes on. *)

From S2P Require Import Prelude BigInts Sha256 Structs Specifics World ReadTxn FreeStructs OpenFiles.
Import Wire.

(** [b[i] ^= gEnv.xorKey[(base + i) % 8]]; [base + i] is a [size_t]. *)
Definition xor_bytes (key : list Z) (base : Z) (l : list Z) : list Z :=
  imap (λ i b, Z.lxor b (key !!! Z.to_nat (u64 (base + Z.of_nat i) mod 8))) l.

Definition isXorActive (key : list Z) : bool := existsb (λ b, negb (b =? 0)) key.

Definition unxor (key : list Z) (base : Z) (l : list Z) : list Z :=
  if isXorActive key then xor_bytes key base l else l.

(** From the bytes of the block on: header, transactions and hash. *)
Definition parse_block `{Platform} (mag size : Z) (blockBuffer : list Z) : M Block :=
  blockHeaderBuffer ← lift (read_at blockBuffer 0 BLOCKHEADER_SIZE);
  hdr ← lift (DecodeBlockHeader blockHeaderBuffer);
  '(n, bufferOffset) ← read_count blockBuffer BLOCKHEADER_SIZE;
  txs ← ReadTxn (drop (Z.to_nat bufferOffset) blockBuffer) n;
  hash ← lift (DoubleSHA256 blockHeaderBuffer);
  mret {| magic := mag; blockSize := size; txCount := n; blk_hash := hash; height := None;
          header := hdr; transactions := Some txs |}.

(** The eight bytes before the block: magic and size. *)
Definition read_block_prefix `{Platform} (f : option nat) (offset : Z) : M (Z * Z) :=
  r ← fseek f (swrap 64 (u64 (offset - 8)));
  _ ← (if negb (r =? 0) then printf "Failed to seek to the offset" else mret tt);
  rawPrefix ← fread 8 f;
  _ ← (if negb (len rawPrefix =? 8) then printf "Failed to read block prefix" else mret tt);
  w ← get;
  let rawPrefix := unxor (xorKey (w_env w)) (offset - 8) (fill_junk 8 rawPrefix) in
  mret (le_value (take 4 rawPrefix), le_value (take 4 (drop 4 rawPrefix))).

(** The block itself, through a temporary buffer.  A stream of the model has no read
    error, so that [ferror] is false. *)
Definition read_block_body `{Platform} (f : option nat) (offset mag size : Z) : M Block :=
  _ ← (if MAX_BLOCKFILE_SIZE <? u64 (offset - 8 + size)
       then printf "Trying to read bytes after the end of the file" else mret tt);
  p ← malloc size;
  match p with
  | None => _ ← printf "Failed to allocate block buffer"; exit 1
  | Some p =>
      got ← fread size f;
      _ ← (if negb (len got =? size) then printf "Cannot Read." else mret tt);
      w ← get;
      block ← parse_block mag size (unxor (xorKey (w_env w)) offset (fill_junk size got));
      _ ← free p;
      mret block
  end.

Definition ReadBlockFromBlkDatFile `{Platform} (i : nat) (offset : Z) : M Block :=
  f ← OpenFile i;
  info ← get_info i;
  _ ← put_info i (opened info (isOpen info) f);
  '(mag, size) ← read_block_prefix f offset;
  read_block_body f offset mag size.

(** ** Blocks on disk *)

(** The 80 bytes of a header, and a block. *)
Record wire_header : Type := {
  h_version : Z; h_prev : list Z; h_root : list Z; h_time : Z; h_bits : Z; h_nonce : Z
}.
Record wire_block : Type := { b_magic : Z; b_header : wire_header; b_txs : list tx }.

Definition ser_header (h : wire_header) : list Z :=
  le_bytes 4 (h_version h) ++ h_prev h ++ h_root h ++ le_bytes 4 (h_time h)
  ++ le_bytes 4 (h_bits h) ++ le_bytes 4 (h_nonce h).

Definition ser_payload (b : wire_block) : list Z :=
  ser_header (b_header b) ++ array ser_tx (b_txs b).

(** As Bitcoin Core stores it: magic, size, block. *)
Definition ser_block (b : wire_block) : list Z :=
  le_bytes 4 (b_magic b) ++ le_bytes 4 (len (ser_payload b)) ++ ser_payload b.

Definition wf_header (h : wire_header) : Prop :=
  in_width 32 (h_version h) ∧ length (h_prev h) = 32%nat ∧ bytes (h_prev h) ∧
  length (h_root h) = 32%nat ∧ bytes (h_root h) ∧
  in_width 32 (h_time h) ∧ in_width 32 (h_bits h) ∧ in_width 32 (h_nonce h).
Definition wf_block (b : wire_block) : Prop :=
  in_width 32 (b_magic b) ∧ wf_header (b_header b) ∧ short (b_txs b) ∧ Forall wf (b_txs b) ∧
  in_width 32 (len (ser_payload b)).

(** The structures for them in memory: the version keeps its low byte. *)
Definition load_header (h : wire_header) : BlockHeader :=
  {| hdr_version := h_version h mod 256; prevBlockHash := reverse (h_prev h);
     merkleRoot := reverse (h_root h); hdr_time := h_time h; bits := h_bits h; nonce := h_nonce h |}.
Definition load_block (a : nat) (b : wire_block) : Block :=
  {| magic := b_magic b; blockSize := len (ser_payload b); txCount := len (b_txs b);
     blk_hash := hash256 (ser_header (b_header b)); height := None;
     header := load_header (b_header b); transactions := Some (load_txs a (b_txs b)) |}.

(** ** Headers *)

Lemma ser_header_length h : wf_header h → length (ser_header h) = 80%nat.
Proof.
  intros (Hv & Hp & Hpb & Hr & Hrb & Ht & Hb & Hn). unfold ser_header.
  rewrite !length_app, !length_le_bytes. lia.
Qed.

Lemma ser_header_bytes h : wf_header h → bytes (ser_header h).
Proof.
  intros (Hv & Hp & Hpb & Hr & Hrb & Ht & Hb & Hn). unfold ser_header.
  rewrite !Forall_app. split_and!; try done; apply le_bytes_bytes.
Qed.

Lemma DecodeBlockHeader_ok h post :
  wf_header h → DecodeBlockHeader (ser_header h ++ post) = Ok (load_header h).
Proof.
  intros (Hv & Hp & Hpb & Hr & Hrb & Ht & Hb & Hn). unfold DecodeBlockHeader, ser_header.
  set (V := le_bytes 4 (h_version h)). set (P := h_prev h). set (R := h_root h).
  assert (Hlv : length V = 4%nat) by apply length_le_bytes.
  rewrite <- !app_assoc.
  rewrite (read_at_head V _ 4), outcome_bind_ok by lia.
  rewrite (read_at_app V P _ 4 SHA256_HASH_SIZE), outcome_bind_ok by (unfold P; len_eq).
  rewrite ReverseString_spec, outcome_bind_ok by (unfold P, SHA256_HASH_SIZE; lia).
  rewrite (read_at_eq _ (V ++ P) _ R _ 36 SHA256_HASH_SIZE (app_assoc _ _ _) eq_refl), outcome_bind_ok
    by (unfold P, R; len_eq).
  rewrite ReverseString_spec, outcome_bind_ok by (unfold R, SHA256_HASH_SIZE; lia).
  set (T := le_bytes 4 (h_time h)). set (B := le_bytes 4 (h_bits h)). set (N := le_bytes 4 (h_nonce h)).
  assert (Hlt : length T = 4%nat) by apply length_le_bytes.
  assert (Hlb : length B = 4%nat) by apply length_le_bytes.
  assert (Hln : length N = 4%nat) by apply length_le_bytes.
  rewrite (read_at_eq _ (V ++ P ++ R) (T ++ B ++ N ++ post) T (B ++ N ++ post) 68 4), outcome_bind_ok;
    [|by rewrite <- !app_assoc|done|unfold P, R; len_eq|lia].
  rewrite (read_at_eq _ (V ++ P ++ R ++ T) (B ++ N ++ post) B (N ++ post) 72 4), outcome_bind_ok;
    [|by rewrite <- !app_assoc|done|unfold P, R; len_eq|lia].
  rewrite (read_at_eq _ (V ++ P ++ R ++ T ++ B) (N ++ post) N post 76 4), outcome_bind_ok;
    [|by rewrite <- !app_assoc|done|unfold P, R; len_eq|lia].
  unfold T, B, N. by rewrite !le_value_bytes_small by assumption.
Qed.

Section parse.
Context `{Platform}.

Lemma parse_block_ok b w :
  no_oom → heap_ok w → wf_block b →
  let a := next (w_heap w) in
  parse_block (b_magic b) (len (ser_payload b)) (ser_payload b) w =
    Ok (load_block a b, grow (S (cost_all cost_tx (b_txs b))) (foot_txs a (b_txs b)) w).
Proof.
  intros Ho Hw (Hm & Hh & Hs & Ht & Hl) a. unfold short in Hs. unfold parse_block.
  pose proof (ser_header_length _ Hh) as Hlh.
  rewrite (M_lift_ok _ _ (ser_header (b_header b)))
    by (apply read_at_head; unfold BLOCKHEADER_SIZE; lia).
  rewrite (M_lift_ok _ _ (load_header (b_header b)))
    by (rewrite <- (app_nil_r (ser_header _)); by apply DecodeBlockHeader_ok).
  erewrite (M_bind_ok (read_count _ _)).
  2:{ apply (read_count_eq _ (ser_header (b_header b)) (array ser_tx (b_txs b)) (len (b_txs b)) (flat_map ser_tx (b_txs b)));
      [done|done|unfold BLOCKHEADER_SIZE; lia|done]. }
  cbn beta iota. unfold ser_payload, array. rewrite app_assoc, drop_app_length'.
  2:{ rewrite length_app. unfold BLOCKHEADER_SIZE. lia. }
  rewrite <- (app_nil_r (flat_map _ _)).
  rewrite (M_bind_ok _ _ _ _ _ (ReadTxn_ok (b_txs b) [] w Ho Hw Ht)).
  rewrite (M_lift_ok _ _ (hash256 (ser_header (b_header b))))
    by (apply DoubleSHA256_spec; [by apply ser_header_bytes|lia]).
  unfold mret, M_ret, load_block. by rewrite app_nil_r, <- app_assoc.
Qed.
End parse.

(** ** The XOR key *)

Lemma xor_bytes_length key base l : length (xor_bytes key base l) = length l.
Proof. unfold xor_bytes. by rewrite length_imap. Qed.

Lemma xor_bytes_involutive key base l : xor_bytes key base (xor_bytes key base l) = l.
Proof.
  unfold xor_bytes. apply list_eq. intros i. rewrite !list_lookup_imap.
  destruct (l !! i) as [b|]; [|done]. cbn.
  by rewrite Z.lxor_assoc, Z.lxor_nilpotent, Z.lxor_0_r.
Qed.

Lemma unxor_involutive key base l : unxor key base (unxor key base l) = l.
Proof. unfold unxor. destruct (isXorActive key); [apply xor_bytes_involutive|done]. Qed.

Lemma unxor_length key base l : length (unxor key base l) = length l.
Proof. unfold unxor. destruct (isXorActive key); [apply xor_bytes_length|done]. Qed.

(** The key is applied at absolute positions: it can be undone piecewise. *)
Lemma unxor_app key base l l' :
  unxor key base (l ++ l') = unxor key base l ++ unxor key (base + len l) l'.
Proof.
  unfold unxor. destruct (isXorActive key); [|done].
  unfold xor_bytes. rewrite imap_app. f_equal. apply imap_ext. intros i x Hi. unfold compose.
  by replace (base + Z.of_nat (length l + i)) with (base + len l + Z.of_nat i) by lia.
Qed.

(** ** Streams *)

Lemma cache_ok_stream w h s p :
  cache_ok w → streams w !! h = Some s →
  cache_ok (set_streams (<[h := {| contents := contents s; position := p |}]> (streams w)) (next_stream w) w).
Proof.
  intros [Hlen Hsi Hc Hst Hinj Hown Hfr] Hs.
  assert (Hdom : ∀ h', is_Some (<[h := {| contents := contents s; position := p |}]> (streams w) !! h')
                       ↔ is_Some (streams w !! h')).
  { intros h'. destruct (decide (h' = h)) as [->|Hne].
    - rewrite lookup_insert_eq, Hs. split; eauto.
    - by rewrite lookup_insert_ne. }
  split; cbn; try done.
  - intros i info Hi Ho. destruct (Hst i info Hi Ho) as (h' & s' & Hf & Hs' & Hcon).
    destruct (decide (h' = h)) as [->|Hne].
    + eexists _, _. rewrite lookup_insert_eq. split_and!; [done..|]. cbn. rewrite Hs in Hs'.
      by simplify_eq.
    + exists h', s'. by rewrite lookup_insert_ne.
  - intros h' Hh. by apply Hown, Hdom.
  - intros h' Hh. by apply Hfr, Hdom.
Qed.

Lemma stream_of_ok h s w : streams w !! h = Some s → stream_of (Some h) w = Ok ((h, s), w).
Proof. intros Hs. unfold stream_of, mbind, M_bind. cbn. by rewrite Hs. Qed.

Definition at_pos (h : nat) (c : list Z) (p : Z) (w : world) : world :=
  set_streams (<[h := {| contents := c; position := p |}]> (streams w)) (next_stream w) w.

Lemma fseek_ok h s off w :
  streams w !! h = Some s → 0 ≤ off → fseek (Some h) off w = Ok (0, at_pos h (contents s) off w).
Proof.
  intros Hs Ho. unfold fseek. rewrite (M_bind_ok _ _ _ _ _ (stream_of_ok h s w Hs)).
  cbn beta iota. by decide_tests.
Qed.

Lemma fread_ok h pre mid post w p :
  p = len pre →
  fread (len mid) (Some h) (at_pos h (pre ++ mid ++ post) p w) =
    Ok (mid, at_pos h (pre ++ mid ++ post) (p + len mid) w).
Proof.
  intros ->. unfold fread.
  rewrite (M_bind_ok _ _ _ _ _ (stream_of_ok h {| contents := pre ++ mid ++ post; position := len pre |}
    (at_pos h (pre ++ mid ++ post) (len pre) w) (lookup_insert_eq _ _ _))).
  cbn beta iota. cbn [contents position]. rewrite !Nat2Z.id, drop_app_length, take_app_length.
  unfold mbind, M_bind, modify, mret, M_ret, at_pos, set_streams. cbn. by rewrite insert_insert_eq.
Qed.

(** ** Reading a block back *)

(** The file holds the block at that offset (of the byte after the size). *)
Definition stored_at (key c : list Z) (offset : Z) (b : wire_block) : Prop :=
  ∃ pre post, c = pre ++ unxor key (offset - 8) (ser_block b) ++ post ∧ offset = len pre + 8.

Section read.
Context `{Platform}.

(** [fileInfo->file = OpenFile(fileInfo)] stores what is already there. *)
Lemma put_back w i h :
  cache_ok w → is_open w i h →
  ∃ info w', get_info i w = Ok (info, w) ∧ put_info i (opened info (isOpen info) (Some h)) w = Ok (tt, w') ∧
    cache_ok w' ∧ frame w w' ∧ streams w' = streams w.
Proof.
  intros Hok (info & Hi & Ho & Hf). exists info.
  destruct (put_info_ok w i info (isOpen info) (Some h) Hi) as (w' & E & Ei & Hfr & Es & Est & En).
  exists w'. split_and!; [by apply get_info_ok|done| |done|done].
  assert (Hid : opened info (isOpen info) (Some h) = info) by (rewrite <- Hf; by destruct info).
  rewrite Hid, list_insert_id in Ei by done. eapply cache_ok_ext; try done. apply (fr_os _ _ Hfr).
Qed.

Lemma signed_offset x : 0 ≤ x < 2 ^ 63 → swrap 64 (u64 x) = x.
Proof.
  intros Hx. rewrite wrap_small by (unfold in_width; lia). unfold swrap.
  rewrite Z.mod_small by lia. lia.
Qed.

Lemma fill_junk_full n (l : list Z) : n = len l → fill_junk n l = l.
Proof. intros ->. unfold fill_junk. by rewrite Nat2Z.id, Nat.sub_diag, app_nil_r. Qed.

(** The two parts of a stored block, decoded with the key. *)
Lemma stored_split key c offset b :
  wf_block b → stored_at key c offset b →
  ∃ pre raw pay post, c = pre ++ raw ++ pay ++ post ∧ offset = len pre + 8 ∧
    len raw = 8 ∧ len pay = len (ser_payload b) ∧
    unxor key (offset - 8) raw = le_bytes 4 (b_magic b) ++ le_bytes 4 (len (ser_payload b)) ∧
    unxor key offset pay = ser_payload b.
Proof.
  intros Hwf (pre & post & -> & ->). unfold ser_block. rewrite (app_assoc (le_bytes 4 _)), unxor_app.
  set (M := le_bytes 4 (b_magic b) ++ le_bytes 4 (len (ser_payload b))).
  assert (HM : len M = 8) by (unfold M; rewrite length_app, !length_le_bytes; done). rewrite HM.
  replace (len pre + 8 - 8 + 8) with (len pre + 8) by lia.
  eexists pre, _, _, post. rewrite <- app_assoc. split; [done|].
  by rewrite !unxor_length, !unxor_involutive.
Qed.

Lemma read_block_prefix_ok b w h s pre raw rest offset :
  streams w !! h = Some s → contents s = pre ++ raw ++ rest → offset = len pre + 8 → len raw = 8 →
  offset < 2 ^ 63 → in_width 32 (b_magic b) → in_width 32 (len (ser_payload b)) →
  unxor (xorKey (w_env w)) (offset - 8) raw =
    le_bytes 4 (b_magic b) ++ le_bytes 4 (len (ser_payload b)) →
  read_block_prefix (Some h) offset w =
    Ok ((b_magic b, len (ser_payload b)), at_pos h (pre ++ raw ++ rest) offset w).
Proof.
  intros Hs Hc -> Hraw Hoff Hm Hl Hx. unfold read_block_prefix.
  rewrite signed_offset by lia. replace (len pre + 8 - 8) with (len pre) in * by lia.
  rewrite (M_bind_ok _ _ _ _ _ (fseek_ok h s (len pre) w Hs ltac:(lia))), Hc.
  cbn [Z.eqb negb]. rewrite M_bind_ret, <- Hraw.
  rewrite (M_bind_ok _ _ _ _ _ (fread_ok h pre raw rest w _ eq_refl)).
  rewrite Z.eqb_refl. cbn [negb]. rewrite M_bind_ret, (M_bind_ok get _ _ _ _ eq_refl).
  change (xorKey (w_env (at_pos _ _ _ w))) with (xorKey (w_env w)).
  rewrite fill_junk_full by done. rewrite Hx.
  rewrite take_app_length', drop_app_length', take_ge by by rewrite length_le_bytes.
  by rewrite !le_value_bytes_small by assumption.
Qed.

Lemma read_block_body_ok b w h pre pay post offset :
  no_oom → heap_ok w → wf_block b → offset = len pre → len (pre ++ pay ++ post) ≤ MAX_BLOCKFILE_SIZE →
  8 ≤ offset → len pay = len (ser_payload b) → unxor (xorKey (w_env w)) offset pay = ser_payload b →
  let a := next (w_heap w) in
  read_block_body (Some h) offset (b_magic b) (len (ser_payload b))
      (at_pos h (pre ++ pay ++ post) offset w) =
    Ok (load_block (S a) b,
        at_pos h (pre ++ pay ++ post) (offset + len pay)
          (grow (2 + cost_all cost_tx (b_txs b)) (foot_txs (S a) (b_txs b)) w)).
Proof.
  intros Ho Hw Hwf -> Hmax Hoff Hpay Hx a. unfold read_block_body, MAX_BLOCKFILE_SIZE in *.
  rewrite !length_app in Hmax. rewrite (wrap_small 64) by (unfold in_width; lia). decide_tests.
  rewrite M_bind_ret, (M_bind_ok _ _ _ _ _ (malloc_ok _ _ Ho)). cbn beta iota.
  change (next (w_heap (at_pos _ _ _ w))) with a.
  change (grow 1 [a] (at_pos h (pre ++ pay ++ post) (len pre) w))
    with (at_pos h (pre ++ pay ++ post) (len pre) (grow 1 [a] w)).
  rewrite <- Hpay, (M_bind_ok _ _ _ _ _ (fread_ok h pre pay post _ _ eq_refl)).
  rewrite Z.eqb_refl. cbn [negb]. rewrite M_bind_ret, (M_bind_ok get _ _ _ _ eq_refl).
  change (xorKey (w_env (at_pos _ _ _ (grow 1 [a] w)))) with (xorKey (w_env w)).
  rewrite fill_junk_full by done. rewrite Hx, Hpay.
  set (w1 := at_pos h (pre ++ pay ++ post) _ (grow 1 [a] w)).
  rewrite (M_bind_ok _ _ _ _ _ (parse_block_ok b w1 Ho (heap_ok_grow 1 [a] w Hw (within_seq a 1)) Hwf)).
  assert (Hnx : next (w_heap w1) = S a) by (cbn; lia). rewrite Hnx.
  set (w2 := at_pos h (pre ++ pay ++ post) (len pre + len (ser_payload b)) w).
  assert (Hna : a ∉ foot_txs (S a) (b_txs b)).
  { intros Hin. pose proof (foot_txs_within (S a) (b_txs b)) as Hwi. unfold within in Hwi.
    rewrite Forall_forall in Hwi. apply Hwi in Hin. lia. }
  change w1 with (grow 1 [a] w2). rewrite grow_grow. cbn [app].
  rewrite (M_bind_ok _ _ _ _ _ (free_grow_head a _ _ w2
    ltac:(intros Hin; apply Hw in Hin; subst a; lia) Hna)).
  unfold mret, M_ret. done.
Qed.

Lemma cache_ok_grow n l w : cache_ok w → cache_ok (grow n l w).
Proof. intros Hok. by eapply cache_ok_ext. Qed.

Lemma frame_grow n l w w' : frame w w' → frame (grow n l w) (grow n l w').
Proof. intros []. split; try done. unfold grow. cbn. congruence. Qed.

Lemma ReadBlock_ok w i info c offset b :
  no_oom → cache_ok w → heap_ok w → infos w !! i = Some info →
  disk (w_os w) !! filepath info = Some c → len c ≤ MAX_BLOCKFILE_SIZE →
  wf_block b → stored_at (xorKey (w_env w)) c offset b →
  ∃ w', ReadBlockFromBlkDatFile i offset w = Ok (load_block (S (next (w_heap w))) b, w') ∧
    cache_ok w' ∧
    frame (grow (2 + cost_all cost_tx (b_txs b)) (foot_txs (S (next (w_heap w))) (b_txs b)) w) w'.
Proof.
  intros Ho Hok Hw Hi Hd Hmax Hwf Hst.
  destruct (OpenFile_ok w i info c Hok Hi Hd) as (h & s & w1 & E1 & Hok1 & Hfr1 & Hio & Hs & Hc).
  destruct (put_back w1 i h Hok1 Hio) as (info1 & w2 & E2 & E3 & Hok2 & Hfr2 & Est2).
  assert (Hfr : frame w w2) by by transitivity w1.
  destruct (stored_split _ _ _ _ Hwf Hst) as (pre & raw & pay & post & -> & Hoff & Hraw & Hpay & Hx1 & Hx2).
  rewrite <- Est2 in Hs. rewrite <- (fr_xorKey _ _ Hfr) in Hx1, Hx2.
  pose proof Hwf as (Hm & _ & _ & _ & Hl). unfold MAX_BLOCKFILE_SIZE in Hmax.
  unfold ReadBlockFromBlkDatFile.
  rewrite (M_bind_ok _ _ _ _ _ E1), (M_bind_ok _ _ _ _ _ E2), (M_bind_ok _ _ _ _ _ E3).
  rewrite (M_bind_ok _ _ _ _ _ (read_block_prefix_ok b w2 h s pre raw (pay ++ post) offset
    Hs Hc Hoff Hraw ltac:(rewrite !length_app in Hmax; lia) Hm Hl Hx1)).
  cbn beta iota. rewrite (app_assoc pre).
  assert (Hw2 : heap_ok w2) by (unfold heap_ok; by rewrite (fr_heap _ _ Hfr)).
  rewrite (read_block_body_ok b w2 h (pre ++ raw) pay post offset Ho Hw2 Hwf);
    [|rewrite length_app; lia|by rewrite <- app_assoc|lia|done|done].
  rewrite (fr_heap _ _ Hfr). eexists. split; [done|]. split.
  - rewrite <- app_assoc, <- Hc. by apply (cache_ok_stream _ h s); [apply cache_ok_grow|].
  - etransitivity; [apply frame_grow; exact Hfr|]. by split.
Qed.
End read.

(** ** Properties *)

(** What the structures say besides: the counts and sizes next to the arrays, and the
    identifiers of a transaction. *)
Definition sizes_say (t : tx) (x : Transaction) : Prop :=
  inputCount x = len (vin t) ∧ outputCount x = len (vouts t) ∧
  map scriptSigSize (elems (inputs x)) = map (λ i, len (sig i)) (vin t) ∧
  map scriptPubKeySize (elems (outputs x)) = map (λ o, len (script o)) (vouts t) ∧
  (λ b, map (λ s, (stackItemsCount s, map item_size (elems (stackItems s)))) (elems b)) <$> witnesses x =
    (λ w, map (λ s, (len s, map (λ l : list Z, len l) s)) w.2) <$> wits t ∧
  txid x = wtxid x ∧ (len (ser_tx t) < 2 ^ 16 → txid x = hash256 (ser_tx t)).

Lemma load_tx_sizes a t : sizes_say t (load_tx a t).
Proof.
  unfold sizes_say, load_tx. cbn [inputCount outputCount inputs outputs witnesses txid wtxid elems].
  split_and!; try done; try by apply map_load_all.
  - destruct (wits t) as [[f ws]|]; [|done]. cbn [load_wits fmap option_fmap option_map elems snd]. f_equal.
    apply map_load_all. intros b s. cbn [load_stack stackItemsCount stackItems elems]. f_equal. by apply map_load_all.
  - intros Hl. rewrite wrap_small by (unfold in_width; lia). by rewrite take_ge by lia.
Qed.

(** Every field of the block; the field of the version holds one byte. *)
Record block_says (b : wire_block) (blk : Block) : Prop := {
  says_magic : magic blk = b_magic b;
  says_size : blockSize blk = len (ser_payload b);
  says_count : txCount blk = len (b_txs b);
  says_hash : blk_hash blk = hash256 (ser_header (b_header b));
  says_height : height blk = None;
  says_version : hdr_version (header blk) = h_version (b_header b) mod 256;
  says_prev : prevBlockHash (header blk) = reverse (h_prev (b_header b));
  says_root : merkleRoot (header blk) = reverse (h_root (b_header b));
  says_time : hdr_time (header blk) = h_time (b_header b);
  says_bits : bits (header blk) = h_bits (b_header b);
  says_nonce : nonce (header blk) = h_nonce (b_header b);
  says_txs : ∃ txs, transactions blk = Some txs ∧ Forall2 (λ t x, says t x ∧ sizes_say t x) (b_txs b) (elems txs)
}.

Lemma load_block_says a b : block_says b (load_block a b).
Proof.
  split; try done. eexists. split; [done|]. apply Forall2_load_all. intros n t. split; [apply load_tx_says|apply load_tx_sizes].
Qed.

(** C1: for a block that the file holds at [offset] (magic and size in the eight bytes
    before it), XORed with the key or stored in the clear, [ReadBlockFromBlkDatFile] opens
    the file and returns the block with every field set: magic and size; of the header the
    two hashes in display order, time, bits, nonce and of the version its low byte, which is
    all that the field holds; the double SHA-256 of the 80 header bytes; the transactions
    with their counts, sizes, scripts, witnesses and identifiers; no height yet.  It prints
    nothing, leaves the file cache consistent, and of its own allocations keeps only those
    the block refers to. *)
Theorem ReadBlock_roundtrip `{Platform} w i info c offset b :
  no_oom → cache_ok w → heap_ok w → infos w !! i = Some info →
  disk (w_os w) !! filepath info = Some c → len c ≤ MAX_BLOCKFILE_SIZE →
  wf_block b → stored_at (xorKey (w_env w)) c offset b →
  ∃ w' blk, ReadBlockFromBlkDatFile i offset w = Ok (blk, w') ∧ cache_ok w' ∧
    console w' = console w ∧
    live (w_heap w') = live (w_heap w) ∪ list_to_set (freed_block blk ++ leaked_block blk) ∧
    block_says b blk.
Proof.
  intros Ho Hok Hw Hi Hd Hmax Hwf Hst.
  destruct (ReadBlock_ok w i info c offset b Ho Hok Hw Hi Hd Hmax Hwf Hst) as (w' & E & Hok' & Hfr).
  exists w', (load_block (S (next (w_heap w))) b). split_and!; try done; [| |apply load_block_says].
  - by rewrite (fr_console _ _ Hfr).
  - rewrite (fr_heap _ _ Hfr). cbn [w_heap grow set_heap live]. f_equal. apply set_eq. intros x.
    rewrite !elem_of_list_to_set.
    by rewrite (loaded_split (b_txs b) (S (next (w_heap w))) (load_block (S (next (w_heap w))) b) eq_refl).
Qed.

(** Sample: the sample transactions in a block stored with a key. *)
Definition sample_wire_block : wire_block :=
  {| b_magic := 0xD9B4BEF9;
     b_header := {| h_version := 0x20000000; h_prev := replicate 32 1; h_root := replicate 32 2;
                    h_time := 1231006505; h_bits := 0x1d00ffff; h_nonce := 2083236893 |};
     b_txs := sample_txs |}.
Definition sample_key : list Z := [1; 2; 3; 4; 5; 6; 7; 8].
Definition sample_blk_file : list Z :=
  [0; 0; 0] ++ unxor sample_key 3 (ser_block sample_wire_block) ++ [9; 9].
Definition sample_blk_world : world :=
  set_os {| disk := {["b0"%string := sample_blk_file]}; dirs := ∅; envvar := ∅ |}
    (set_env (set_xorKey sample_key (w_env sample_world)) sample_world).

Lemma sample_header_wf : wf_header (b_header sample_wire_block).
Proof.
  unfold wf_header, in_width. cbn. split_and!; try lia.
  all: repeat constructor; unfold in_width; lia.
Qed.

Lemma sample_block_wf : wf_block sample_wire_block.
Proof.
  split; [unfold in_width; cbn; lia|]. split; [apply sample_header_wf|].
  split; [unfold short, in_width; cbn; lia|]. split; [apply sample_txs_wf|].
  vm_compute. split; [discriminate|reflexivity].
Qed.

Lemma sample_blk_cache_ok : cache_ok sample_blk_world.
Proof. apply cache_ok_start; [done| |done]. repeat constructor. Qed.

Lemma ReadBlock_roundtrip_witness :
  ∃ w' blk, @ReadBlockFromBlkDatFile sample_platform 0 11 sample_blk_world = Ok (blk, w') ∧
    magic blk = 0xD9B4BEF9 ∧ blockSize blk = len (ser_payload sample_wire_block) ∧ txCount blk = 2 ∧ console w' = [].
Proof.
  destruct (@ReadBlock_roundtrip sample_platform sample_blk_world 0
    {| path_addr := 0; filepath := "b0"; isOpen := false; file := None |} sample_blk_file 11
    sample_wire_block (λ _ _, eq_refl) sample_blk_cache_ok empty_heap_ok eq_refl
    ltac:(vm_compute; reflexivity) ltac:(vm_compute; discriminate) sample_block_wf
    (ex_intro _ [0; 0; 0] (ex_intro _ [9; 9] (conj eq_refl eq_refl))))
    as (w' & blk & E & _ & Hc & _ & Hsays).
  exists w', blk. split; [exact E|]. split; [exact (says_magic _ _ Hsays)|].
  split; [exact (says_size _ _ Hsays)|]. split; [exact (says_count _ _ Hsays)|exact Hc].
Defined.

(** When the blk file is missing the failure of [fopen] is printed and the NULL
    stream is then used: reading a block from it is undefined. *)
Theorem ReadBlock_missing_file `{Platform} w i info offset :
  cache_ok w → infos w !! i = Some info → isOpen info = false →
  disk (w_os w) !! filepath info = None →
  ReadBlockFromBlkDatFile i offset w = Fault NullPointer.
Proof.
  intros Hok Hi Ho Hd. destruct (OpenFile_missing w i info Hok Hi Ho Hd) as (w' & E & info' & Hi').
  unfold ReadBlockFromBlkDatFile.
  rewrite (M_bind_ok _ _ _ _ _ E), (M_bind_ok _ _ _ _ _ (get_info_ok _ _ _ Hi')). reflexivity.
Qed.

Lemma ReadBlock_missing_file_witness :
  @ReadBlockFromBlkDatFile sample_platform 1 11 sample_blk_world = Fault NullPointer.
Proof.
  exact (@ReadBlock_missing_file sample_platform sample_blk_world 1
    {| path_addr := 0; filepath := "b1"; isOpen := false; file := None |} 11
    sample_blk_cache_ok eq_refl eq_refl eq_refl).
Defined.
