(* ===== verification/Printing.v ===== *)
(** * bitcoin-specifics.c: printing blocks, and zeroed structures

    A function that prints to a stream returns the text it writes to it; messages on
    [stderr] and [stdout] go to the console. *)

From S2P Require Import Prelude BigInts Sha256 Structs Specifics World.

(** ** Formats *)

(** The literals of the source, written with a backquote for the double quote and a bar for
    the newline, which they do not contain themselves. *)
Fixpoint lit (s : string) : string :=
  match s with
  | EmptyString => EmptyString
  | String c s =>
      String (if ascii_dec c "`" then ascii_of_nat 34
              else if ascii_dec c "|" then ascii_of_nat 10 else c) (lit s)
  end.
Arguments lit _%_string.

(** [%u], [%d] and [%llu]. *)
Definition printf_u (n : Z) : string := pretty n.

Definition hex_digit_lower (d : Z) : ascii := ascii_of_N (Z.to_N (hexDigits d)).

(** [%02x] of a byte, and [%08x] of a 32-bit integer. *)
Definition printf_02x (b : Z) : string :=
  String (hex_digit_lower (b / 16)) (String (hex_digit_lower (b mod 16)) EmptyString).
Definition printf_08x (n : Z) : string :=
  String.concat EmptyString (map printf_02x (ConvertUint32ToUint8Array n)).

(** [%02d] *)
Definition printf_02d (n : Z) : string := (if n <? 10 then lit "0" else EmptyString) +:+ pretty n.

(** [strftime] with the format of the source. *)
Definition strftime (t : tm) : string :=
  pretty (tm_year t + 1900) +:+ lit "-" +:+ printf_02d (tm_mon t + 1) +:+ lit "-"
  +:+ printf_02d (tm_mday t) +:+ lit " " +:+ printf_02d (tm_hour t) +:+ lit ":"
  +:+ printf_02d (tm_min t) +:+ lit ":" +:+ printf_02d (tm_sec t).

(** The text stored in the buffer; when it does not fit the contents are indeterminate. *)
Definition ConvertTimestampToString `{Platform} (timestamp bufferSize : Z) : outcome string :=
  let s := strftime (localtime timestamp) in
  if Z.of_nat (String.length s) <? bufferSize then Ok s else Fault Uninitialised.

(** ** Scripts in hexadecimal *)

(** The loop from [i] on, [n] iterations left: each stores two digits and a NUL at
    [offset], a [uint16_t]. *)
Fixpoint script_hex_loop (script : list Z) (n : nat) (offset : Z) (buf : list Z) : outcome (list Z) :=
  match n, script with
  | O, _ => Ok buf
  | S _, [] => Fault OutOfBounds
  | S n, b :: script =>
      let o := Z.to_nat offset in
      script_hex_loop script n (u16 (offset + 2))
        (<[o := hexDigits (b / 16)]> (<[S o := hexDigits (b mod 16)]> (<[S (S o) := 0]> buf)))
  end.

(** The text of a script of [size] bytes in a buffer of [2 * size + 1] characters, which
    starts out with indeterminate contents. *)
Definition script_hex `{Platform} (size : Z) (script : list Z) : outcome (list Z) :=
  let buf := map junk (seq 0 (Z.to_nat (size * 2 + 1))) in
  buf ← script_hex_loop script (Z.to_nat size) 0 buf;
  Ok (c_string (<[Z.to_nat (size * 2) := 0]> buf)).

Definition text (l : list Z) : string :=
  String.string_of_list_ascii (map (λ c, ascii_of_N (Z.to_N c)) l).

(** ** The printers *)

Section print.
Context `{Platform}.

Definition PrintInput (input : Input) : M string :=
  let pre := lit "    {|" +:+ lit "      `TXID`: `"
    +:+ String.concat EmptyString (map printf_02x (reverse (in_txid input))) +:+ lit "`,|"
    +:+ lit "      `Vout`: " +:+ printf_u (vout input) +:+ lit ",|"
    +:+ lit "      `ScriptSigSize`: " +:+ printf_u (scriptSigSize input) +:+ lit ",|" in
  p ← malloc (scriptSigSize input * 2 + 1);
  match p with
  | None => _ ← printf (lit "Memory allocation failed for scriptSigHex|"); mret pre
  | Some p =>
      hex ← lift (script_hex (scriptSigSize input) (elems (scriptSig input)));
      _ ← free p;
      mret (pre +:+ lit "      `ScriptSig`: `" +:+ text hex +:+ lit "`,|"
            +:+ lit "      `Sequence`: " +:+ printf_u (sequence input) +:+ lit "|    }")
  end.

Definition PrintOutput (output : Output) : M string :=
  let pre := lit "    {|" +:+ lit "      `Amount`: " +:+ printf_u (amount output) +:+ lit ",|"
    +:+ lit "      `ScriptPubKeySize`: " +:+ printf_u (scriptPubKeySize output) +:+ lit ",|" in
  p ← malloc (scriptPubKeySize output * 2 + 1);
  match p with
  | None => _ ← printf (lit "Memory allocation failed for scriptPubKeyHex|"); mret pre
  | Some p =>
      hex ← lift (script_hex (scriptPubKeySize output) (elems (scriptPubKey output)));
      _ ← free p;
      mret (pre +:+ lit "      `ScriptPubKey`: `" +:+ text hex +:+ lit "`|    }")
  end.

(** [count] elements, each followed by a comma and a newline, the last by a newline only:
    [i] is the index of the next one. *)
Fixpoint print_array {A} (item : A → M string) (count : Z) (n : nat) (i : Z) (l : list A) : M string :=
  match n, l with
  | O, _ => mret EmptyString
  | S _, [] => fail OutOfBounds
  | S n, x :: l =>
      s ← item x;
      rest ← print_array item count n (i + 1) l;
      mret (s +:+ (if i <? count - 1 then lit ",|" else lit "|") +:+ rest)
  end.

Definition PrintTransaction (tx : Transaction) : M string :=
  ins ← print_array PrintInput (inputCount tx) (Z.to_nat (inputCount tx)) 0 (elems (inputs tx));
  outs ← print_array PrintOutput (outputCount tx) (Z.to_nat (outputCount tx)) 0 (elems (outputs tx));
  mret (lit "  {|" +:+ lit "    `TransactionSize`: " +:+ printf_u (tx_size tx) +:+ lit ",|"
    +:+ lit "    `Version`: " +:+ printf_u (tx_version tx) +:+ lit ",|"
    +:+ lit "    `SegWit`: " +:+ (if (marker tx =? 0) && (flag tx =? 1) then lit "true" else lit "false")
    +:+ lit ",|" +:+ lit "    `Inputs`: [|" +:+ ins +:+ lit "    ],|"
    +:+ lit "    `Outputs`: [|" +:+ outs +:+ lit "    ]|  }").

(** A NULL header prints as null; the time goes through a buffer of 50 characters. *)
Definition PrintBlockHeader (header : option BlockHeader) : outcome string :=
  match header with
  | None => Ok (lit "`BlockHeader`: null|")
  | Some header =>
      buffer ← ConvertTimestampToString (hdr_time header) 50;
      Ok (lit "`BlockHeader`: {|"
        +:+ lit "  `Version`: `" +:+ PrintByteString (ConvertUint32ToUint8Array (hdr_version header))
        +:+ lit "`,|" +:+ lit "  `PreviousBlockHash`: `" +:+ PrintByteString (prevBlockHash header)
        +:+ lit "`,|" +:+ lit "  `MerkleRoot`: `" +:+ PrintByteString (merkleRoot header) +:+ lit "`,|"
        +:+ lit "  `Time`: `" +:+ buffer +:+ lit "`,|"
        +:+ lit "  `Bits`: `" +:+ PrintByteString (ConvertUint32ToUint8Array (bits header)) +:+ lit "`,|"
        +:+ lit "  `Nonce`: `" +:+ PrintByteString (ConvertUint32ToUint8Array (nonce header))
        +:+ lit "`|}|")
  end.

Definition PrintBlock (block : Block) : M string :=
  hdr ← lift (PrintBlockHeader (Some (header block)));
  txs ← match transactions block with
        | Some l => print_array PrintTransaction (txCount block) (Z.to_nat (txCount block)) 0 (elems l)
        | None => if txCount block =? 0 then mret EmptyString else fail NullPointer
        end;
  mret (lit "{|" +:+ lit "  `Magic`: `0x" +:+ printf_08x (magic block) +:+ lit "`,|"
    +:+ lit "  `BlockSize`: " +:+ printf_u (blockSize block) +:+ lit ",|"
    +:+ lit "  `TransactionCount`: " +:+ printf_u (txCount block) +:+ lit ",|"
    +:+ hdr +:+ lit ",|" +:+ lit "  `Transactions`: [|" +:+ txs +:+ lit "  ]|" +:+ lit "}|").

Definition PrintBlocks (bs : Blocks) : M string :=
  s ← print_array PrintBlock (blocks_count bs) (Z.to_nat (blocks_count bs)) 0
        (match blocks bs with Some b => elems b | None => [] end);
  mret (lit "[|" +:+ s +:+ lit "]|").

(** An indeterminate field prints as whatever it holds: the model stops there. *)
Definition field (x : option Z) : outcome Z :=
  match x with Some v => Ok v | None => Fault Uninitialised end.

Definition PrintBlockIndexRecord (record : BlockIndexRecord) : M unit :=
  uf ← lift (field (undoFile record));
  uo ← lift (field (undoOffset record));
  h ← match blockHeader record with Some h => mret h | None => fail Uninitialised end;
  hdr ← lift (PrintBlockHeader (Some h));
  printf (lit "Block Index Record:|"
    +:+ lit "Version: " +:+ printf_u (bir_version record) +:+ lit "|"
    +:+ lit "Height: " +:+ printf_u (bir_height record) +:+ lit "|"
    +:+ lit "Validation Status: " +:+ printf_u (validationStatus record) +:+ lit "|"
    +:+ lit "Transaction Count: " +:+ printf_u (bir_txCount record) +:+ lit "|"
    +:+ lit "Block File: " +:+ printf_u (blockFile record) +:+ lit "|"
    +:+ lit "Block Offset: " +:+ printf_u (blockOffset record) +:+ lit "|"
    +:+ lit "Undo File: " +:+ printf_u uf +:+ lit "|" +:+ lit "Undo Offset: " +:+ printf_u uo +:+ lit "|"
    +:+ lit "Block Hash: " +:+ PrintByteString (blockHash record) +:+ lit "|"
    +:+ lit "Block Header:|" +:+ hdr +:+ lit "|").

End print.

(** ** Zeroed structures *)

Definition InitBlockHeader : BlockHeader :=
  {| hdr_version := 0; prevBlockHash := replicate 32 0; merkleRoot := replicate 32 0;
     hdr_time := 0; bits := 0; nonce := 0 |}.

(** Also the value [(Block){0}]. *)
Definition InitBlock : Block :=
  {| magic := 0; blockSize := 0; txCount := 0; blk_hash := replicate 32 0; height := Some 0;
     header := InitBlockHeader; transactions := None |}.

(** ** Properties *)

(** The digits of a byte are not NUL. *)
Lemma hexDigits_nonzero d : 0 ≤ d → hexDigits d ≠ 0.
Proof. intros. unfold hexDigits. case_match; lia. Qed.

Definition hex_text (l : list Z) : list Z := flat_map (λ b, [hexDigits (b / 16); hexDigits (b mod 16)]) l.

Lemma hex_text_length l : length (hex_text l) = (2 * length l)%nat.
Proof.
  unfold hex_text. induction l as [|b l IH]; [done|]. cbn [flat_map length app]. rewrite IH. lia.
Qed.

Lemma hex_text_app l l' : hex_text (l ++ l') = hex_text l ++ hex_text l'.
Proof. apply flat_map_app. Qed.

Lemma c_string_hex l rest : bytes l → c_string (hex_text l ++ 0 :: rest) = hex_text l.
Proof.
  induction 1 as [|b l [Hb _] Hl IH]; [done|]. cbn [hex_text flat_map app c_string].
  rewrite (proj2 (Z.eqb_neq _ _)) by (apply hexDigits_nonzero, Z.div_pos; lia).
  rewrite (proj2 (Z.eqb_neq _ _)) by (apply hexDigits_nonzero, Z.mod_pos_bound; lia).
  do 2 f_equal. exact IH.
Qed.

(** Three consecutive stores. *)
Lemma store3 (pre rest : list Z) x y z a b c :
  <[length pre := a]> (<[S (length pre) := b]> (<[S (S (length pre)) := c]> (pre ++ x :: y :: z :: rest))) =
    pre ++ a :: b :: c :: rest.
Proof.
  rewrite !insert_app_r_alt by lia. rewrite Nat.sub_diag, !Nat.sub_succ_l, Nat.sub_diag by lia. done.
Qed.

(** As long as the offset does not wrap, the digits go one pair after the other. *)
Lemma script_hex_loop_run l : ∀ script n pre x rest,
  len pre + 2 * len l ≤ 2 ^ 16 → (2 * length l ≤ length rest)%nat →
  ∃ rest', length rest = (2 * length l + length rest')%nat ∧
    script_hex_loop (l ++ script) (length l + n) (u16 (len pre)) (pre ++ x :: rest) =
    script_hex_loop script n (u16 (len (pre ++ hex_text l)))
      (pre ++ hex_text l ++ (match l with [] => x | _ => 0 end) :: rest').
Proof.
  induction l as [|b l IH]; intros script n pre x rest Hp Hr.
  { exists rest. cbn [hex_text flat_map app length]. by rewrite app_nil_r. }
  cbn [length] in *. destruct rest as [|y [|z rest]]; cbn [length] in Hr; try lia.
  destruct (IH script n (pre ++ [hexDigits (b / 16); hexDigits (b mod 16)]) 0 rest)
    as (rest' & Hlen & E); [rewrite length_app; cbn [length]; lia|lia|].
  exists rest'. split; [cbn [length]; lia|].
  cbn [app Nat.add script_hex_loop]. rewrite (wrap_small 16 (len pre)) by (unfold in_width; lia).
  rewrite Nat2Z.id, store3.
  replace (len pre + 2) with (len (pre ++ [hexDigits (b / 16); hexDigits (b mod 16)]))
    by (rewrite length_app; cbn [length]; lia).
  rewrite <- app_assoc in E. cbn [app] in E. rewrite E. cbn [hex_text flat_map app].
  rewrite <- !app_assoc. cbn [app]. by destruct l.
Qed.

(** The buffer of [script_hex], indeterminate at first. *)
Lemma hex_buffer `{Platform} (script : list Z) :
  ∃ x rest, map junk (seq 0 (Z.to_nat (len script * 2 + 1))) = x :: rest ∧
    length rest = (2 * length script)%nat.
Proof.
  replace (Z.to_nat (len script * 2 + 1)) with (S (2 * length script)) by lia.
  exists (junk 0), (map junk (seq 1 (2 * length script))). split; [done|]. by rewrite length_map, length_seq.
Qed.

Lemma script_hex_short `{Platform} script :
  bytes script → len script ≤ 32768 → script_hex (len script) script = Ok (hex_text script).
Proof.
  intros Hb Hw. unfold script_hex. rewrite Nat2Z.id.
  destruct (hex_buffer script) as (x & rest & -> & Hlen0).
  destruct (script_hex_loop_run script [] 0 [] x rest) as (rest' & Hlen & R); [cbn [length]; lia|lia|].
  rewrite Nat.add_0_r, app_nil_r in R. cbn [app] in R. change (u16 (len [])) with 0 in R.
  rewrite R. cbn [script_hex_loop]. rewrite outcome_bind_ok. f_equal.
  assert (rest' = []) as -> by (apply nil_length_inv; lia).
  replace (Z.to_nat (len script * 2)) with (length (hex_text script)) by (rewrite hex_text_length; lia).
  by rewrite insert_app_mid, c_string_hex.
Qed.

(** With more than [h = 32768] bytes the second round overwrites the first. *)
Lemma script_hex_long `{Platform} l1 l2 :
  bytes l2 → l2 ≠ [] → len l1 = 32768 → len l2 < 32768 →
  script_hex (len (l1 ++ l2)) (l1 ++ l2) = Ok (hex_text l2).
Proof.
  intros Hb2 Hne H1 H2. unfold script_hex. rewrite Nat2Z.id.
  destruct (hex_buffer (l1 ++ l2)) as (x & rest & -> & Hlen0). rewrite length_app in Hlen0.
  destruct (script_hex_loop_run l1 l2 (length l2) [] x rest) as (rest1 & Hlen1 & R1);
    [cbn [length]; lia|lia|].
  cbn [app] in R1. rewrite <- length_app in R1. change (u16 (len [])) with 0 in R1. rewrite R1.
  assert (Ho : u16 (len (hex_text l1)) = 0) by (rewrite hex_text_length, Nat2Z.inj_mul, H1; done).
  rewrite Ho. set (x1 := match l1 with [] => x | _ => 0 end).
  destruct (hex_text l1 ++ x1 :: rest1) as [|x2 rest2] eqn:Eb; [by destruct (hex_text l1)|].
  apply (f_equal length) in Eb. rewrite length_app, hex_text_length in Eb. cbn [length] in Eb.
  destruct (script_hex_loop_run l2 [] 0 [] x2 rest2) as (rest3 & Hlen3 & R3); [cbn [length]; lia|lia|].
  rewrite Nat.add_0_r, app_nil_r in R3. cbn [app] in R3. change (u16 (len [])) with 0 in R3.
  rewrite R3. cbn [script_hex_loop]. rewrite outcome_bind_ok. f_equal.
  destruct l2 as [|b2 l2']; [done|]. rewrite insert_app_r_alt by (rewrite hex_text_length, length_app; lia).
  destruct (Z.to_nat (len (l1 ++ b2 :: l2') * 2) - length (hex_text (b2 :: l2')))%nat eqn:Ei.
  { rewrite hex_text_length, length_app in Ei. lia. }
  by apply c_string_hex.
Qed.

Lemma string_app_assoc (a b c : string) : (a +:+ b) +:+ c = a +:+ b +:+ c.
Proof. induction a as [|x a IH]; [done|]. exact (f_equal (String x) IH). Qed.

(** What a script of any 16-bit size prints as. *)
Lemma script_hex_spec `{Platform} script :
  bytes script → in_width 16 (len script) →
  script_hex (len script) script =
    Ok (hex_text (if len script <=? 32768 then script else drop (Z.to_nat 32768) script)).
Proof.
  intros Hb [_ Hw]. destruct (len script <=? 32768) eqn:E; split_bool; [by apply script_hex_short|].
  assert (Hh : ∀ h, Z.of_nat h = 32768 → script_hex (len script) script = Ok (hex_text (drop h script))).
  { intros h Hh. rewrite <- (take_drop h script) at 1 2. apply script_hex_long.
    - by apply Forall_drop.
    - intros Hd. apply (f_equal length) in Hd. rewrite length_drop in Hd. cbn in Hd. lia.
    - rewrite length_take. lia.
    - rewrite length_drop. lia. }
  apply Hh, Z2Nat.id. done.
Qed.

(** The hexadecimal text of a script in [PrintInput] and [PrintOutput]: the digits of
    all its bytes up to 32768 of them; beyond, the 16-bit offset into the text starts over
    and only the bytes from 32768 on are left in it. *)
Theorem PrintOutput_script `{Platform} o w :
  no_oom → heap_ok w → bytes (elems (scriptPubKey o)) →
  scriptPubKeySize o = len (elems (scriptPubKey o)) → in_width 16 (scriptPubKeySize o) →
  let script := elems (scriptPubKey o) in
  ∃ w', PrintOutput o w = Ok (lit "    {|" +:+ lit "      `Amount`: " +:+ printf_u (amount o) +:+ lit ",|"
    +:+ lit "      `ScriptPubKeySize`: " +:+ printf_u (scriptPubKeySize o) +:+ lit ",|"
    +:+ lit "      `ScriptPubKey`: `"
    +:+ text (hex_text (if scriptPubKeySize o <=? 32768 then script else drop (Z.to_nat 32768) script))
    +:+ lit "`|    }", w') ∧ live (w_heap w') = live (w_heap w).
Proof.
  intros Ho Hw Hb Hs Hin script. unfold PrintOutput.
  rewrite (M_bind_ok _ _ _ _ _ (malloc_ok _ w Ho)). rewrite Hs in *.
  rewrite (M_lift_ok _ _ _ _ (script_hex_spec script Hb Hin)).
  assert (Ha : next (w_heap w) ∉ live (w_heap w)) by (intros Hn; apply Hw in Hn; lia).
  rewrite (M_bind_ok _ _ _ _ _ (free_grow_head _ 1 [] w Ha (not_elem_of_nil _))).
  exists (grow 1 [] w). split; [|apply union_empty_r_L].
  unfold mret, M_ret. by rewrite !string_app_assoc.
Qed.


Lemma PrintOutput_script_witness :
  ∃ s w', @PrintOutput sample_platform
    {| amount := 1; scriptPubKeySize := 2; scriptPubKey := Buf 0 [0x6a; 0xff] |} empty_world = Ok (s, w') ∧
    s = lit "    {|      `Amount`: 1,|      `ScriptPubKeySize`: 2,|      `ScriptPubKey`: `6aff`|    }".
Proof.
  destruct (@PrintOutput_script sample_platform
    {| amount := 1; scriptPubKeySize := 2; scriptPubKey := Buf 0 [0x6a; 0xff] |} empty_world)
    as (w' & E & _).
  - done.
  - apply empty_heap_ok.
  - repeat constructor; unfold in_width; lia.
  - done.
  - unfold in_width. cbn. lia.
  - eexists _, w'. split; [exact E|]. vm_compute. reflexivity.
Defined.
