(* ===== verification/Files.v ===== *)
(** * files.c: wildcards, listing directories, locating a data directory

    A C string in memory is a [list ascii] where its characters matter, a [string]
    otherwise; a pointer into a string is the suffix it points to. *)

From S2P Require Import Prelude Structs World.

Arguments printf _%_string.

(** ** WildcardMatch *)

(** [while (pattern is at a star) p++], and whether that reaches the end. *)
Fixpoint skip_stars (p : list ascii) : bool :=
  match p with
  | [] => true
  | c :: p => if decide (c = "*"%char) then skip_stars p else false
  end.

(** [star] points to the last star met, as the pattern after it, and [ss] to where the
    text it stands for may end. *)
Fixpoint WildcardMatch_loop (fuel : nat) (s p : list ascii) (star : option (list ascii))
    (ss : list ascii) : outcome bool :=
  match fuel with
  | O => Fault Diverges
  | S fuel =>
      match s with
      | [] => Ok (skip_stars p)
      | c :: s' =>
          let back := match star, ss with
            | Some q, _ :: ss' => WildcardMatch_loop fuel ss' q star ss'
            | Some _, [] => Fault OutOfBounds
            | None, _ => Ok false end in
          match p with
          | [] => back
          | d :: p' =>
              if decide (d = "?"%char ∨ d = c) then WildcardMatch_loop fuel s' p' star ss
              else if decide (d = "*"%char) then WildcardMatch_loop fuel s p' (Some p') s
              else back
          end
      end
  end.

(** Every iteration shortens the pattern left, or the text left to the last star. *)
Definition match_fuel (ss p pattern : list ascii) : nat :=
  length ss * S (length pattern) + length p.

Definition WildcardMatch (str pattern : list ascii) : outcome bool :=
  WildcardMatch_loop (S (match_fuel str pattern pattern)) str pattern None str.

(** ** Sizes, copies, directory names *)

Section files.
Context `{Platform}.

Definition GetFileSize (filename : string) : M Z :=
  w ← get;
  match disk (w_os w) !! filename with
  | Some c => mret (len c)
  | None =>
      if bool_decide (is_Some (dirs (w_os w) !! filename)) then mret (dir_size filename)
      else _ ← printf "stat"; mret (-1)
  end.

(** [snprintf(buf, size, ...)]: the text is cut to fit with its terminator. *)
Definition snprintf (size : nat) (s : string) : string := String.substring 0 (size - 1) s.

Definition run_command (command err : string) : M Z :=
  result ← system (snprintf 1024 command);
  if negb (result =? 0) then _ ← printf err; mret (-1) else mret 0.

Definition CopyDirectory (src_dir dest_dir : string) : M Z :=
  run_command ("cp -r " +:+ src_dir +:+ " " +:+ dest_dir)
    ("Error copying directory from '" +:+ src_dir +:+ "' to '" +:+ dest_dir +:+ "'").

Definition DeleteDirectory (dir_path : string) : M Z :=
  run_command ("rm -rf " +:+ dir_path) ("Error deleting directory '" +:+ dir_path +:+ "'").

(** The string in a buffer of [capacity] bytes, a separator added if it lacks one. *)
Definition SanitizeDirString (capacity : Z) (dir : list ascii) : outcome (list ascii) :=
  match last dir with
  | None => Ok dir
  | Some c =>
      if decide (c = "/"%char) then Ok dir
      else if len dir + 1 <? capacity then Ok (dir ++ ["/"%char]) else Fault OutOfBounds
  end.

(** ** ListFiles *)

(** [realloc]: the old array is released, a new one of that size returned. *)
Definition realloc (old : nat) (size : Z) : M nat :=
  p ← malloc_unchecked size; _ ← free old; mret p.

(** The array and its size, doubled when it is full. *)
Definition make_room (fl : FileList) (array : nat) : M (nat * Z) :=
  if totalSize fl <=? files_count fl
  then p ← realloc array (24 * (totalSize fl * 2)); mret (p, totalSize fl * 2)
  else mret (array, totalSize fl).

(** A file that was listed is closed. *)
Definition listed (path : nat) (name : string) : FileInfo :=
  {| path_addr := path; filepath := name; isOpen := false; file := None |}.

(** One entry that matches, stored at index [count]. *)
Definition add_file (directory d_name : string) (fl : FileList) : M FileList :=
  b ← deref (files fl);
  '(p, total) ← make_room fl (addr b);
  if total <=? files_count fl then fail OutOfBounds else
  path ← malloc_unchecked (Z.of_nat (String.length directory + String.length d_name) + 2);
  mret {| files := Some (Buf p (elems b ++ [listed path (directory +:+ "/" +:+ d_name)]));
          files_count := files_count fl + 1; totalSize := total |}.

Fixpoint list_entries (directory : string) (pattern : list ascii) (entries : list string)
    (fl : FileList) : M FileList :=
  match entries with
  | [] => mret fl
  | d_name :: entries =>
      m ← lift (WildcardMatch (String.list_ascii_of_string d_name) pattern);
      fl ← (if (m : bool) then add_file directory d_name fl else mret fl);
      list_entries directory pattern entries fl
  end.

(** [sizeof(FileInfo)] is 24; when the directory cannot be opened the array is lost. *)
Definition ListFiles (directory : string) (pattern : list ascii) (allocationSize : Z) : M FileList :=
  p ← malloc (24 * allocationSize);
  dp ← opendir directory;
  match dp with
  | None => _ ← printf "opendir"; mret {| files := None; files_count := 0; totalSize := 0 |}
  | Some entries =>
      list_entries directory pattern entries
        {| files := (λ p, Buf p []) <$> p; files_count := 0; totalSize := allocationSize |}
  end.

(** ** The data directory *)

Definition IsBitcoinDatadir (path : string) : M bool := IsDirectory path.

(** [strncpy(dst, src, 512)] for a source that leaves room for its terminator. *)
Definition strncpy (n : nat) (src : string) : string := String.substring 0 n src.

Fixpoint try_locations (datadir_null : bool) (l : list string) : M string :=
  match l with
  | [] => _ ← printf "No valid Bitcoin datadir found!"; exit 1
  | d :: l =>
      ok ← IsBitcoinDatadir d;
      if (ok : bool) then
        if datadir_null then fail NullPointer
        else _ ← printf ("Using Bitcoin datadir: " +:+ strncpy 512 d); mret (strncpy 512 d)
      else try_locations datadir_null l
  end.

(** [strcat(strdup(home), ...)] writes past the copy, which is just large enough for
    [home]. *)
Definition TryDefaultBitcoinDatadirs (datadir_null : bool) : M string :=
  home ← getenv "HOME";
  match home with
  | Some _ => fail OutOfBounds
  | None =>
      try_locations datadir_null ["/usr/local/bitcoin"; "/opt/bitcoin"; "/var/lib/bitcoin";
        "/mnt/data/bitcoin"; "/home/bitcoin/.bitcoin"]%string
  end.

(** The directory afterwards; [None] is a NULL pointer. *)
Definition GetBitcoinDatadir (datadir : option string) : M string :=
  match datadir with
  | None =>
      _ ← printf "Provided datadir is invalid. Trying default locations...";
      TryDefaultBitcoinDatadirs true
  | Some d =>
      ok ← (if bool_decide (d = EmptyString) then mret false else IsBitcoinDatadir d);
      if (ok : bool) then _ ← printf ("Provided datadir is valid: " +:+ d); mret d
      else _ ← printf "Provided datadir is invalid. Trying default locations...";
           TryDefaultBitcoinDatadirs false
  end.

End files.

(** ** The meaning of a pattern *)

(** A question mark stands for one character, a star for any text. *)
Inductive glob : list ascii → list ascii → Prop :=
  | glob_nil : glob [] []
  | glob_any p c s : glob p s → glob ("?"%char :: p) (c :: s)
  | glob_star p s t : glob p t → suffix t s → glob ("*"%char :: p) s
  | glob_char p c s : glob p s → glob (c :: p) (c :: s).

Definition starless (s : list ascii) : Prop := "*"%char ∉ s.

Lemma glob_star_iff p s : glob ("*"%char :: p) s ↔ ∃ t, suffix t s ∧ glob p t.
Proof.
  split.
  - inversion 1; subst; [eauto|]. eexists. split; [|done]. by apply suffix_cons_r.
  - intros (t & Hs & Hg). by eapply glob_star.
Qed.

Lemma glob_star_mono p t s : glob ("*"%char :: p) t → suffix t s → glob ("*"%char :: p) s.
Proof. rewrite !glob_star_iff. intros (r & Hr & Hg) Hs. exists r. split; [by trans t|done]. Qed.

(** A pattern part without stars consumes as many characters as it has. *)
Lemma glob_literal w p t :
  starless w → glob (w ++ p) t → ∃ t1 t2, t = t1 ++ t2 ∧ length t1 = length w ∧ glob p t2.
Proof.
  revert t. induction w as [|c w IH]; intros t Hw Hg; [by exists [], t|].
  apply not_elem_of_cons in Hw as [Hc Hw]. cbn [app] in Hg.
  inversion Hg; subst; try done;
    match goal with H : glob (w ++ p) ?s |- _ =>
      destruct (IH s Hw H) as (t1 & t2 & -> & Hl & Hg2) end;
    eexists (_ :: t1), t2; cbn [length]; auto.
Qed.

Lemma skip_stars_glob p : skip_stars p = true ↔ glob p [].
Proof.
  induction p as [|c p IH]; cbn; [split; [constructor|done]|]. case_decide as Hc.
  - subst. rewrite IH, glob_star_iff. split.
    + intros Hg. by exists [].
    + intros (t & Ht & Hg). by apply suffix_nil_inv in Ht as ->.
  - split; [done|]. inversion 1; subst; done.
Qed.

(** The matcher always answers. *)
Lemma WildcardMatch_loop_total fuel s p star ss n :
  (length p ≤ n)%nat → (∀ q, star = Some q → (length q ≤ n)%nat) → suffix s ss →
  (length ss * S n + length p < fuel)%nat → ∃ b, WildcardMatch_loop fuel s p star ss = Ok b.
Proof.
  revert s p star ss. induction fuel as [|fuel IH]; intros s p star ss Hp Hq Hs Hf; [lia|].
  cbn [WildcardMatch_loop]. destruct s as [|c s']; [eauto|].
  assert (Hs' : suffix s' ss) by (by eapply suffix_cons_l).
  assert (Hback : ∃ b, match star, ss with
            | Some q, _ :: ss' => WildcardMatch_loop fuel ss' q star ss'
            | Some _, [] => Fault OutOfBounds
            | None, _ => Ok false end = Ok b).
  { destruct star as [q|]; [|eauto]. destruct ss as [|x ss']; [by apply suffix_nil_inv in Hs|].
    apply IH; auto. specialize (Hq q eq_refl). cbn [length] in Hf. nia. }
  destruct p as [|d p']; [done|]. cbn [length] in *.
  case_decide; [|case_decide]; [| |done].
  - apply IH; auto; lia.
  - apply IH; [lia| |done|].
    + intros q [= <-]. lia.
    + apply suffix_length in Hs. cbn [length] in *. nia.
Qed.

(** What is still to be decided: a match from here, or with the last star taking more. *)
Definition reachable (s p : list ascii) (star : option (list ascii)) (ss : list ascii) : Prop :=
  match star with
  | None => True
  | Some q => ∃ w u, q = w ++ p ∧ ss = u ++ s ∧ length w = length u ∧ starless w
  end.
Definition retry (star : option (list ascii)) (ss : list ascii) : Prop :=
  match star with
  | None => False
  | Some q => ∃ t, suffix t ss ∧ (length t < length ss)%nat ∧ glob q t
  end.

Lemma reachable_star q ss : reachable ss q (Some q) ss.
Proof. exists [], []. split_and!; try done. apply not_elem_of_nil. Qed.

Lemma retry_shift q x ss :
  retry (Some q) (x :: ss) ↔ glob q ss ∨ retry (Some q) ss.
Proof.
  cbn [retry length]. split.
  - intros (t & [k0 Hk] & Hl & Hg). destruct k0 as [|y k0]; [cbn in Hk; subst; cbn in Hl; lia|].
    injection Hk as _ Hk. assert (Ht : suffix t ss) by by exists k0.
    destruct (decide (length t = length ss)) as [El|]; [left|right].
    + destruct Ht as [k ->]. rewrite length_app in El. assert (k = []) as -> by (apply nil_length_inv; lia). done.
    + exists t. split_and!; [done| |done]. apply suffix_length in Ht. lia.
  - intros [Hg|(t & Ht & Hl & Hg)].
    + exists ss. split_and!; [by exists [x]|lia|done].
    + exists t. split_and!; [by apply suffix_cons_r|lia|done].
Qed.

Lemma star_retry p s : glob ("*"%char :: p) s ↔ glob p s ∨ retry (Some p) s.
Proof.
  rewrite glob_star_iff. split.
  - intros (t & [k ->] & Hg). destruct k as [|x k]; [by left|right]. exists t.
    split_and!; [by exists (x :: k)|cbn; rewrite length_app; lia|done].
  - intros [Hg|(t & Ht & _ & Hg)]; eauto.
Qed.

(** Passing a star loses nothing: what the last star could still do, the new one can. *)
Lemma retry_star s p star ss :
  reachable s ("*"%char :: p) star ss → retry star ss → glob ("*"%char :: p) s.
Proof.
  destruct star as [q|]; [|done]. intros (w & u & -> & -> & Hl & Hw) (t & Ht & Hlt & Hg).
  apply glob_literal in Hg as (t1 & t2 & -> & Hl1 & Hg); [|done].
  eapply glob_star_mono; [exact Hg|]. destruct Ht as [k Hk].
  exists (drop (length u) (k ++ t1)).
  rewrite !app_assoc in Hk. apply (f_equal (drop (length u))) in Hk.
  rewrite drop_app_length in Hk. rewrite Hk, drop_app_le; [done|]. rewrite length_app. lia.
Qed.

Lemma WildcardMatch_loop_glob fuel s p star ss b :
  starless s → starless ss → reachable s p star ss →
  WildcardMatch_loop fuel s p star ss = Ok b → (b = true ↔ glob p s ∨ retry star ss).
Proof.
  revert s p star ss. induction fuel as [|fuel IH]; intros s p star ss Hst Hss Hr; [done|].
  cbn [WildcardMatch_loop]. destruct s as [|c s'].
  - intros [= <-]. rewrite skip_stars_glob. split; [by left|]. intros [?|Ht]; [done|].
    destruct star as [q|]; [|done]. destruct Hr as (w & u & -> & -> & Hl & Hw).
    destruct Ht as (t & _ & Hlt & Hg). apply glob_literal in Hg as (t1 & t2 & -> & Hl1 & _); [|done].
    rewrite !length_app in Hlt. cbn [length] in Hlt. lia.
  - pose proof Hst as Hcs. apply not_elem_of_cons in Hst as [Hc Hst'].
    assert (Hback : ¬ glob p (c :: s') → match star, ss with
            | Some q, _ :: ss' => WildcardMatch_loop fuel ss' q star ss'
            | Some _, [] => Fault OutOfBounds
            | None, _ => Ok false end = Ok b → (b = true ↔ glob p (c :: s') ∨ retry star ss)).
    { intros Hn E. destruct star as [q|]; [|injection E as <-; cbn; naive_solver].
      destruct ss as [|x ss']; [done|]. apply not_elem_of_cons in Hss as [_ Hss'].
      rewrite (IH ss' q (Some q) ss') by (done || apply reachable_star).
      rewrite retry_shift. naive_solver. }
    destruct p as [|d p'].
    { apply Hback. inversion 1. }
    case_decide as Hd; [|case_decide as Hd2].
    + intros E. rewrite (IH s' p' star ss); [|done|done| |done].
      * enough (glob p' s' ↔ glob (d :: p') (c :: s')) as -> by done.
        split; [intros; destruct Hd as [->| ->]; by constructor|].
        inversion 1; subst; try done. by destruct Hd as [?|?]; simplify_eq.
      * destruct star as [q|]; [|done]. destruct Hr as (w & u & -> & -> & Hl & Hw).
        exists (w ++ [d]), (u ++ [c]). rewrite !length_app, <- !app_assoc. split_and!; [done|done|cbn; lia|].
        unfold starless. rewrite not_elem_of_app, list_elem_of_singleton. split; [done|].
        destruct Hd as [->| ->]; [done|congruence].
    + subst d. intros E. rewrite (IH (c :: s') p' (Some p') (c :: s')); try done.
      2:{ apply reachable_star. }
      rewrite <- star_retry. split; [by left|]. intros [?|?]; [done|]. by eapply retry_star.
    + apply Hback. inversion 1; subst; naive_solver.
Qed.

Lemma WildcardMatch_ok str pattern :
  ∃ b, WildcardMatch str pattern = Ok b ∧ (starless str → b = true ↔ glob pattern str).
Proof.
  destruct (WildcardMatch_loop_total (S (match_fuel str pattern pattern)) str pattern None str
    (length pattern)) as [b Hb]; [done|done|done|unfold match_fuel; lia|].
  exists b. split; [exact Hb|]. intros Hs.
  rewrite (WildcardMatch_loop_glob _ str pattern None str b Hs Hs I Hb). cbn. tauto.
Qed.

(** ** Properties of WildcardMatch *)

(** [WildcardMatch] always answers, and on a name without stars its answer is whether
    the pattern matches the whole name, a question mark standing for one character and a
    star for any text. *)
Theorem WildcardMatch_glob str pattern :
  ∃ b, WildcardMatch str pattern = Ok b ∧ (starless str → b = true ↔ glob pattern str).
Proof. apply WildcardMatch_ok. Qed.

(** The pattern of the library on names of Bitcoin Core's files. *)
Lemma WildcardMatch_glob_witness :
  starless (String.list_ascii_of_string "blk00042.dat") ∧
  glob (String.list_ascii_of_string "blk*.dat") (String.list_ascii_of_string "blk00042.dat") ∧
  WildcardMatch (String.list_ascii_of_string "rev00042.dat") (String.list_ascii_of_string "blk*.dat") = Ok false.
Proof.
  assert (Hs : starless (String.list_ascii_of_string "blk00042.dat")).
  { unfold starless. apply (bool_decide_unpack _). vm_compute. exact I. }
  split; [exact Hs|]. split; [|vm_compute; reflexivity].
  destruct (WildcardMatch_glob (String.list_ascii_of_string "blk00042.dat")
    (String.list_ascii_of_string "blk*.dat")) as (b & E & Hb).
  apply Hb; [exact Hs|]. vm_compute in E. by injection E.
Defined.

(** With a star in the name it can miss a match: the star of the name is taken for the
    star of the pattern. *)
Lemma WildcardMatch_star_in_name :
  WildcardMatch (String.list_ascii_of_string "*a") (String.list_ascii_of_string "*") = Ok false ∧
  glob (String.list_ascii_of_string "*") (String.list_ascii_of_string "*a").
Proof.
  split; [vm_compute; reflexivity|]. apply glob_star_iff. exists []. split; [|constructor].
  apply suffix_nil.
Qed.

(** ** Properties of ListFiles *)

Section list.
Context `{Platform} (live0 : gset nat).

(** The list and the memory it owns: its array and one path per element, next to what was
    live before. *)
Record holds (fl : FileList) (b : buf FileInfo) (w : world) : Prop := {
  ho_files : files fl = Some b;
  ho_count : files_count fl = len (elems b);
  ho_fits : files_count fl ≤ totalSize fl;
  ho_pos : 0 < totalSize fl;
  ho_heap : heap_ok w;
  ho_live : live (w_heap w) = live0 ∪ list_to_set (addr b :: map path_addr (elems b));
  ho_fresh : addr b ∉ live0;
  ho_array : addr b ∉ map path_addr (elems b)
}.

Lemma realloc_ok w a size l :
  no_oom → heap_ok w → a ∉ live0 → a ∉ l →
  live (w_heap w) = live0 ∪ list_to_set (a :: l) →
  ∃ w', realloc a size w = Ok (next (w_heap w), w') ∧ heap_ok w' ∧ heap_only w w' ∧
    next (w_heap w') = S (next (w_heap w)) ∧
    live (w_heap w') = live0 ∪ list_to_set (next (w_heap w) :: l).
Proof.
  intros Ho Hw Ha Hal Hl. unfold realloc.
  assert (Hina : a ∈ live (w_heap w)) by (rewrite Hl; set_solver).
  rewrite (M_bind_ok _ _ _ _ _ (malloc_unchecked_ok size w Ho)).
  set (w1 := grow 1 [next (w_heap w)] w). unfold mbind, M_bind.
  unfold free. rewrite decide_True by (apply live_grow; by left). eexists. split; [reflexivity|]. cbn.
  assert (Hne : next (w_heap w) ≠ a) by (apply Hw in Hina; lia).
  split_and!; try done; [|lia|].
  - intros x Hx. cbn in *. apply elem_of_difference in Hx as [Hx _].
    apply elem_of_union in Hx as [Hx|Hx]; [apply Hw in Hx; lia|]. set_unfold. lia.
  - rewrite Hl. apply set_eq. intros x. set_unfold. split.
    + intros [[[?|[?|?]]|[?|?]] ?]; naive_solver.
    + intros [?|[->|?]]; naive_solver.
Qed.

Lemma make_room_ok fl b w :
  no_oom → holds fl b w →
  ∃ p total w1, make_room fl (addr b) w = Ok ((p, total), w1) ∧ files_count fl < total ∧
    heap_ok w1 ∧ heap_only w w1 ∧ (p ∉ live0) ∧
    (p ∉ map path_addr (elems b)) ∧
    live (w_heap w1) = live0 ∪ list_to_set (p :: map path_addr (elems b)).
Proof.
  intros Ho [Hf Hc Hfit Hpos Hw Hl Hfr Har]. unfold make_room.
  destruct (totalSize fl <=? files_count fl) eqn:E; split_bool.
  - destruct (realloc_ok w (addr b) (24 * (totalSize fl * 2)) _ Ho Hw Hfr Har Hl)
      as (w1 & E1 & Hw1 & Hsame & Hn & Hl1).
    assert (Hni : next (w_heap w) ∉ live (w_heap w)) by (intros Hin; apply Hw in Hin; lia).
    rewrite Hl in Hni. eexists _, _, w1. rewrite (M_bind_ok _ _ _ _ _ E1).
    split_and!; try done; [lia|set_solver|set_solver].
  - eexists _, _, w. by split_and!.
Qed.

(** An entry that matches becomes the last element. *)
Lemma add_file_ok directory d_name fl b w :
  no_oom → holds fl b w →
  ∃ fl' b' w', add_file directory d_name fl w = Ok (fl', w') ∧ holds fl' b' w' ∧ heap_only w w' ∧
    (∃ path, elems b' = elems b ++ [listed path (directory +:+ "/" +:+ d_name)]).
Proof.
  intros Ho Hh. destruct (make_room_ok fl b w Ho Hh)
    as (p & total & w1 & E1 & Ht & Hw1 & Hsame & Hp & Hp' & Hl1).
  destruct Hh as [Hf Hc Hfit Hpos Hw Hl Hfr Har]. unfold add_file. rewrite Hf. cbn [deref].
  rewrite M_bind_ret.
  rewrite (M_bind_ok _ _ _ _ _ E1). cbn beta iota. decide_tests.
  rewrite (M_bind_ok _ _ _ _ _ (malloc_unchecked_ok _ w1 Ho)).
  eexists _, (Buf p (elems b ++ [listed (next (w_heap w1)) (directory +:+ "/" +:+ d_name)])),
    (grow 1 [next (w_heap w1)] w1). split; [reflexivity|].
  split; [|split; [by transitivity w1|by exists (next (w_heap w1))]].
  assert (Hnx : ∀ x, x ∈ live (w_heap w1) → x ≠ next (w_heap w1)) by (intros x Hx; apply Hw1 in Hx; lia).
  split; cbn [files files_count totalSize elems addr]; try done; try lia.
  - rewrite length_app. cbn [length]. lia.
  - by apply heap_ok_grow, (within_seq _ 1).
  - rewrite map_app. cbn [map path_addr]. unfold grow. cbn. rewrite Hl1.
    apply set_eq. intros x. set_unfold. naive_solver.
  - rewrite map_app, not_elem_of_app. split; [done|]. cbn [map path_addr].
    rewrite list_elem_of_singleton. intros ->. apply (Hnx (next (w_heap w1))); [rewrite Hl1; set_solver|done].
Qed.

(** The names the pattern selects. *)
Definition selected (pattern : list ascii) (names : list string) : list string :=
  filter (λ n, WildcardMatch (String.list_ascii_of_string n) pattern = Ok true) names.

Lemma list_entries_ok directory pattern entries fl b w :
  no_oom → holds fl b w →
  ∃ fl' b' w', list_entries directory pattern entries fl w = Ok (fl', w') ∧ holds fl' b' w' ∧ heap_only w w' ∧
    map filepath (elems b') = map filepath (elems b) ++
      map (λ n, directory +:+ "/" +:+ n) (selected pattern entries) ∧
    (Forall (λ f, isOpen f = false) (elems b) → Forall (λ f, isOpen f = false) (elems b')).
Proof.
  intros Ho. revert fl b w. induction entries as [|n entries IH]; intros fl b w Hh.
  { exists fl, b, w. cbn. by rewrite app_nil_r. }
  cbn [list_entries]. unfold selected. rewrite filter_cons.
  destruct (WildcardMatch_loop_total (S (match_fuel (String.list_ascii_of_string n) pattern pattern))
    (String.list_ascii_of_string n) pattern None (String.list_ascii_of_string n) (length pattern))
    as [m Hm]; [done|done|done|unfold match_fuel; lia|].
  change (WildcardMatch (String.list_ascii_of_string n) pattern = Ok m) in Hm.
  rewrite (M_lift_ok _ _ _ _ Hm). destruct m.
  - destruct (add_file_ok directory n fl b w Ho Hh) as (fl1 & b1 & w1 & E1 & Hh1 & Hsame1 & path & Eb).
    destruct (IH fl1 b1 w1 Hh1) as (fl' & b' & w' & E & Hh' & Hsame & Hf & Ho').
    exists fl', b', w'. rewrite (M_bind_ok _ _ _ _ _ E1), decide_True by done.
    split_and!; [done|done|by transitivity w1| |].
    + rewrite Hf, Eb, map_app, <- app_assoc. done.
    + intros Hall. apply Ho'. rewrite Eb. apply Forall_app. split; [done|by repeat constructor].
  - rewrite M_bind_ret, decide_False by congruence. by apply IH.
Qed.
End list.

Lemma ListFiles_ok `{Platform} directory pattern allocationSize entries w :
  no_oom → heap_ok w → dirs (w_os w) !! directory = Some entries → 0 < allocationSize →
  ∃ fl b w', ListFiles directory pattern allocationSize w = Ok (fl, w') ∧ files fl = Some b ∧
    map filepath (elems b) = map (λ n, directory +:+ "/" +:+ n) (selected pattern entries) ∧
    Forall (λ f, isOpen f = false) (elems b) ∧
    files_count fl = len (elems b) ∧ files_count fl ≤ totalSize fl ∧
    live (w_heap w') = live (w_heap w) ∪ list_to_set (addr b :: map path_addr (elems b)) ∧
    heap_ok w' ∧ heap_only w w'.
Proof.
  intros Ho Hw Hd Hpos. unfold ListFiles. rewrite (M_bind_ok _ _ _ _ _ (malloc_ok _ w Ho)).
  set (a := next (w_heap w)). set (w1 := grow 1 [a] w).
  rewrite (M_bind_ok (opendir _) _ _ (Some entries) w1) by (unfold opendir, mbind, M_bind; cbn; by rewrite Hd).
  assert (Hh : holds (live (w_heap w)) {| files := Some (Buf a []); files_count := 0;
                 totalSize := allocationSize |} (Buf a []) w1).
  { split; cbn [files files_count totalSize elems addr map length]; try done; try lia.
    - by apply heap_ok_grow, (within_seq _ 1).
    - intros Hin. apply Hw in Hin. subst a. lia.
    - apply not_elem_of_nil. }
  destruct (list_entries_ok _ directory pattern entries _ _ _ Ho Hh)
    as (fl & b & w' & E & [Hf Hc Hfit _ Hh' Hl _ _] & Hsame & Hp & Hall).
  exists fl, b, w'. split_and!; try done. by apply Hall.
Qed.

(** [ListFiles] on a directory that can be read lists exactly the entries whose name
    the pattern matches, in the order [readdir] gives them, each as a closed file with the
    path directory/name; the count is theirs and fits the array, which was doubled as
    often as needed, and the only memory kept is the array and one path per file. *)
Theorem ListFiles_lists `{Platform} directory pattern allocationSize entries w :
  no_oom → heap_ok w → dirs (w_os w) !! directory = Some entries → 0 < allocationSize →
  ∃ fl b w', ListFiles directory pattern allocationSize w = Ok (fl, w') ∧ files fl = Some b ∧
    map filepath (elems b) = map (λ n, directory +:+ "/" +:+ n) (selected pattern entries) ∧
    Forall (λ f, isOpen f = false) (elems b) ∧
    files_count fl = len (elems b) ∧ files_count fl ≤ totalSize fl ∧
    live (w_heap w') = live (w_heap w) ∪ list_to_set (addr b :: map path_addr (elems b)).
Proof.
  intros Ho Hw Hd Hpos.
  destruct (ListFiles_ok directory pattern allocationSize entries w Ho Hw Hd Hpos)
    as (fl & b & w' & E & Hf & Hp & Hall & Hc & Hfit & Hl & _). by exists fl, b, w'.
Qed.

Definition sample_dir_world : world :=
  set_os {| disk := ∅; dirs := {["blocks/"%string := ["blk00001.dat"; "rev00001.dat"; "blk00000.dat"; "xor.dat"]%string]};
            envvar := ∅ |} empty_world.

Lemma ListFiles_lists_witness :
  ∃ fl b w', @ListFiles sample_platform "blocks/" (String.list_ascii_of_string "blk*.dat") 1 sample_dir_world = Ok (fl, w') ∧
    files fl = Some b ∧
    map filepath (elems b) = ["blocks//blk00001.dat"; "blocks//blk00000.dat"]%string.
Proof.
  destruct (@ListFiles_lists sample_platform "blocks/" (String.list_ascii_of_string "blk*.dat") 1
    ["blk00001.dat"; "rev00001.dat"; "blk00000.dat"; "xor.dat"]%string sample_dir_world
    (λ _ _, eq_refl) empty_heap_ok eq_refl ltac:(lia)) as (fl & b & w' & E & Hf & Hp & _).
  exists fl, b, w'. split; [exact E|]. split; [exact Hf|]. rewrite Hp. vm_compute. reflexivity.
Defined.
