(* ===== verification/LevelDB.v ===== *)
(** * leveldb.c: opening the database and counting its keys

    The library is seen through its C interface: the operations are the class [LevelDB],
    what its documentation promises of iterators is [LevelDBLaws]; a list of entries is an
    instance of both. *)

From S2P Require Import Prelude Structs World.

(** A key and a value, as bytes. *)
Abbreviation entry := (list Z * list Z)%type.

(** ** The interface *)

Record LDB_Options : Type := {
  create_if_missing : bool; error_if_exists : bool; fill_cache : bool
}.

Class LevelDB : Type := {
  DB : Type;
  Iter : Type;
  LDB_Open : LDB_Options → string → os → string + DB;     (* an error message, or the database *)
  LDB_CreateIterator : DB → Iter;
  LDB_IterSeekToFirst : Iter → Iter;
  LDB_IterValid : Iter → bool;
  LDB_IterNext : Iter → Iter;
  LDB_IterKey : Iter → list Z;
  LDB_IterValue : Iter → list Z
}.

(** An iterator walks over the entries: [ahead i] are those from its position on. *)
Class LevelDBLaws (L : LevelDB) : Type := {
  entries : DB → list entry;
  ahead : Iter → list entry;
  ahead_first d : ahead (LDB_IterSeekToFirst (LDB_CreateIterator d)) = entries d;
  ahead_valid i : LDB_IterValid i = true ↔ ahead i ≠ [];
  ahead_key i k v rest : ahead i = (k, v) :: rest → LDB_IterKey i = k;
  ahead_value i k v rest : ahead i = (k, v) :: rest → LDB_IterValue i = v;
  ahead_next i e rest : ahead i = e :: rest → ahead (LDB_IterNext i) = rest
}.

(** ** Instances of the database *)

Record LDB_Instance `{LevelDB} : Type := {
  dbPath : string; db : option DB; options : LDB_Options; errors : option string
}.

Section leveldb.
Context `{LevelDB}.

Definition LDB_Init (path : string) : LDB_Instance :=
  {| dbPath := path; db := None;
     options := {| create_if_missing := false; error_if_exists := false; fill_cache := false |};
     errors := None |}.

Definition LDB_InitOpen (path : string) : M LDB_Instance :=
  let instance := LDB_Init path in
  w ← get;
  match LDB_Open (options instance) (dbPath instance) (w_os w) with
  | inl e => _ ← printf ("Failed to open LevelDB: " +:+ e); exit 1
  | inr d => mret {| dbPath := path; db := Some d; options := options instance; errors := None |}
  end.

(** [for (IterSeekToFirst(it); IterValid(it); IterNext(it)) body], with [fuel] for the
    number of entries. *)
Fixpoint iterate {S : Type} (fuel : nat) (body : list Z → list Z → S → M S) (it : Iter) (s : S) : M S :=
  match fuel with
  | O => fail Diverges
  | Datatypes.S fuel =>
      if LDB_IterValid it then
        s ← body (LDB_IterKey it) (LDB_IterValue it) s;
        iterate fuel body (LDB_IterNext it) s
      else mret s
  end.

Definition for_each {S : Type} (fuel : nat) (instance : LDB_Instance)
    (body : list Z → list Z → S → M S) (s : S) : M S :=
  d ← deref (db instance);
  iterate fuel body (LDB_IterSeekToFirst (LDB_CreateIterator d)) s.

Definition LDB_CountEntries (fuel : nat) (instance : LDB_Instance) (keyPrefix : Z) : M Z :=
  for_each fuel instance (λ key _ count,
    c ← lift (byte_at key 0); mret (if c =? keyPrefix then count + 1 else count)) 0.

(** [counts] starts out as zeroes; every prefix equal to the first byte counts. *)
Definition LDB_CountEntriesForPrefixes (fuel : nat) (instance : LDB_Instance) (keyPrefixes : list Z)
    : M (list Z) :=
  for_each fuel instance (λ key _ counts,
    c ← lift (byte_at key 0);
    mret (zip_with (λ p n, if c =? p then n + 1 else n) keyPrefixes counts))
    (replicate (length keyPrefixes) 0).

End leveldb.

(** ** A list of entries as a database *)

#[export] Instance list_leveldb (open : string → os → string + list entry) : LevelDB := {|
  DB := list entry; Iter := list entry * list entry;
  LDB_Open := λ _ path o, open path o;
  LDB_CreateIterator := λ d, (d, []);
  LDB_IterSeekToFirst := λ i, (fst i, fst i);
  LDB_IterValid := λ i, match snd i with [] => false | _ => true end;
  LDB_IterNext := λ i, (fst i, tail (snd i));
  LDB_IterKey := λ i, match snd i with (k, _) :: _ => k | [] => [] end;
  LDB_IterValue := λ i, match snd i with (_, v) :: _ => v | [] => [] end |}.

#[export] Program Instance list_leveldb_laws open : LevelDBLaws (list_leveldb open) := {|
  entries := λ d, d; ahead := snd |}.
Next Obligation. intros open d. reflexivity. Qed.
Next Obligation. intros open [d [|e r]]; cbn; naive_solver. Qed.
Next Obligation. intros open [d l] k v r E. cbn in *. by rewrite E. Qed.
Next Obligation. intros open [d l] k v r E. cbn in *. by rewrite E. Qed.
Next Obligation. intros open [d l] e r E. cbn in *. by rewrite E. Qed.

(** ** Iterating *)

(** The bodies run over a list of entries. *)
Fixpoint fold_entries {S : Type} (body : list Z → list Z → S → M S) (l : list entry) (s : S) : M S :=
  match l with
  | [] => mret s
  | (k, v) :: l => s ← body k v s; fold_entries body l s
  end.

Lemma fold_entries_app {S : Type} (body : list Z → list Z → S → M S) l l' s w :
  fold_entries body (l ++ l') s w = (s ← fold_entries body l s; fold_entries body l' s) w.
Proof.
  revert s w. induction l as [|[k v] l IH]; intros s w; [done|]. cbn [app fold_entries].
  rewrite M_bind_assoc. unfold mbind, M_bind in *. destruct (body k v s w) as [[s' w']| |]; [apply IH|done..].
Qed.

Section iterate.
Context `{L : LevelDB} `{!LevelDBLaws L}.

Lemma iterate_fold {S : Type} fuel (body : list Z → list Z → S → M S) it s w :
  (length (ahead it) < fuel)%nat → iterate fuel body it s w = fold_entries body (ahead it) s w.
Proof.
  revert it s w. induction fuel as [|fuel IH]; intros it s w Hf; [lia|]. cbn [iterate].
  destruct (ahead it) as [|[k v] rest] eqn:E.
  - destruct (LDB_IterValid it) eqn:Ev; [|done]. by apply ahead_valid in Ev.
  - rewrite (proj2 (ahead_valid it)) by (by rewrite E).
    rewrite (ahead_key it k v rest E), (ahead_value it k v rest E).
    pose proof (ahead_next it _ rest E) as En. cbn [length] in Hf.
    cbn [fold_entries]. unfold mbind, M_bind. destruct (body k v s w) as [[s' w']| |]; [|done..].
    rewrite IH, En by (rewrite En; lia). done.
Qed.

(** The loop visits every entry once, in order, for any fuel above their number. *)
Lemma for_each_fold {S : Type} fuel instance d (body : list Z → list Z → S → M S) s w :
  db instance = Some d → (length (entries d) < fuel)%nat →
  for_each fuel instance body s w = fold_entries body (entries d) s w.
Proof.
  intros Hd Hf. unfold for_each. rewrite Hd. cbn [deref]. rewrite M_bind_ret, iterate_fold, ahead_first.
  - done.
  - by rewrite ahead_first.
Qed.

(** The number of keys that start with a byte. *)
Definition prefix_count (p : Z) (l : list entry) : Z := len (filter (λ e, head e.1 = Some p) l).

Lemma byte_at_head key : key ≠ [] → ∃ c, byte_at key 0 = Ok c ∧ head key = Some c.
Proof. destruct key as [|c key]; [done|]. by exists c. Qed.

Lemma CountEntriesForPrefixes_fold prefixes l counts w :
  Forall (λ e, e.1 ≠ []) l → length counts = length prefixes →
  fold_entries (λ key _ counts,
    c ← lift (byte_at key 0);
    mret (zip_with (λ p n, if c =? p then n + 1 else n) prefixes counts)) l counts w =
  Ok (zip_with (λ p n, n + prefix_count p l) prefixes counts, w).
Proof.
  intros Hl. revert counts w. induction Hl as [|[k v] l Hk Hl IH]; intros counts w Hlen.
  - cbn. unfold mret, M_ret. do 2 f_equal. revert counts Hlen.
    induction prefixes as [|p ps IHp]; intros [|n counts] Hlen; try done. cbn [zip_with].
    f_equal; [by rewrite Z.add_0_r|apply IHp; cbn in Hlen; lia].
  - cbn [fold_entries]. cbn in Hk. destruct (byte_at_head k Hk) as (c & Hc & Hh).
    rewrite M_bind_assoc, (M_lift_ok _ _ _ _ Hc), M_bind_ret, IH by (rewrite length_zip_with; lia).
    do 2 f_equal. clear IH. revert counts Hlen. induction prefixes as [|p ps IHp]; intros [|n counts] Hlen; try done.
    cbn [zip_with]. f_equal; [|apply IHp; cbn in Hlen; lia].
    unfold prefix_count. rewrite filter_cons. cbn [fst]. rewrite Hh.
    destruct (c =? p) eqn:E; split_bool.
    + subst. rewrite decide_True by done. cbn [length]. lia.
    + rewrite decide_False by congruence. done.
Qed.

Lemma LDB_CountEntriesForPrefixes_ok fuel instance d prefixes w :
  db instance = Some d → (length (entries d) < fuel)%nat → Forall (λ e, e.1 ≠ []) (entries d) →
  LDB_CountEntriesForPrefixes fuel instance prefixes w =
    Ok (map (λ p, prefix_count p (entries d)) prefixes, w).
Proof.
  intros Hd Hf Hk. unfold LDB_CountEntriesForPrefixes. rewrite (for_each_fold _ _ d) by done.
  rewrite CountEntriesForPrefixes_fold by (done || by rewrite length_replicate).
  do 2 f_equal. clear. induction prefixes as [|p ps IH]; [done|]. cbn. by rewrite IH.
Qed.
End iterate.

(** ** Properties *)

(** [LDB_CountEntriesForPrefixes] counts, for each prefix byte, the keys of the
    database that start with it, whatever implements the iterator interface, provided no
    key is empty (the first byte of an empty key would be read past its end). *)
Theorem CountEntriesForPrefixes_counts `{L : LevelDB} `{!LevelDBLaws L} fuel instance d prefixes w :
  db instance = Some d → (length (entries d) < fuel)%nat → Forall (λ e, e.1 ≠ []) (entries d) →
  LDB_CountEntriesForPrefixes fuel instance prefixes w =
    Ok (map (λ p, prefix_count p (entries d)) prefixes, w).
Proof. apply LDB_CountEntriesForPrefixes_ok. Qed.

Lemma CountEntriesForPrefixes_counts_witness :
  let L := list_leveldb (λ _ _, inr []) in
  @LDB_CountEntriesForPrefixes L 9
    {| dbPath := "index"; db := Some [([98; 1], []); ([98; 2], []); ([102; 0], []); ([108], [])];
       options := {| create_if_missing := false; error_if_exists := false; fill_cache := false |};
       errors := None |} [98; 102] empty_world = Ok ([2; 1], empty_world).
Proof.
  intros L. rewrite (@CountEntriesForPrefixes_counts L (list_leveldb_laws _) 9 _
    [([98; 1], []); ([98; 2], []); ([102; 0], []); ([108], [])] [98; 102] empty_world); [done|done|cbn; lia|].
  by repeat constructor.
Defined.
