(* ===== verification/Indexing.v ===== *)
(** * indexing.c: the block index of Bitcoin Core and the order of the blk files

    The records are decoded from the keys and values of the LevelDB index; an array filled
    by index is a list of options, [None] where nothing was stored. *)

From S2P Require Import Prelude BigInts Sha256 Structs Specifics World ReadTxn OpenFiles BlkDat Files LevelDB.

(** ** Decoding records *)

(** [offset += DecodeVarint128(value + offset, &field)]: the field and the new offset. *)
Definition next_varint (value : list Z) (offset : Z) : outcome (Z * Z) :=
  '(v, n) ← DecodeVarint128 (drop (Z.to_nat offset) value); Ok (v, offset + n).

(** The status is decoded as a 64-bit integer into a 4-byte enum, [version] after it is
    not touched ([clobbered_validationStatus]). *)
Definition GetBlockIndexRecord (key value : list Z) : outcome BlockIndexRecord :=
  let valLen := len value in
  h ← read_at key 1 SHA256_HASH_SIZE;
  hash ← ReverseString h SHA256_HASH_SIZE;
  '(ver, offset) ← next_varint value 0;
  '(hgt, offset) ← next_varint value offset;
  '(status, offset) ← next_varint value offset;
  '(n, offset) ← next_varint value offset;
  '(file, offset) ← next_varint value offset;
  '(pos, offset) ← next_varint value offset;
  undo ← (if offset <? u64 (valLen - BLOCKHEADER_SIZE) then
            '(uf, offset) ← next_varint value offset;
            '(uo, offset) ← next_varint value offset;
            Ok (Some uf, Some uo)
          else Ok (None, None));
  hdr ← (if BLOCKHEADER_SIZE <=? valLen then
           hd ← DecodeBlockHeader (drop (Z.to_nat (valLen - BLOCKHEADER_SIZE)) value); Ok (Some hd)
         else Ok None);
  Ok {| blockHash := hash; blockHeader := hdr; bir_version := ver; bir_height := hgt;
        bir_txCount := n; validationStatus := u32 status; blockFile := file; blockOffset := pos;
        undoFile := fst undo; undoOffset := snd undo |}.

Definition GetFileInformationRecord (key value : list Z) : outcome FileInformationRecord :=
  '(count, offset) ← next_varint value 0;
  '(dsize, offset) ← next_varint value offset;
  '(rsize, offset) ← next_varint value offset;
  '(low, offset) ← next_varint value offset;
  '(high, offset) ← next_varint value offset;
  '(lowt, offset) ← next_varint value offset;
  '(hight, offset) ← next_varint value offset;
  Ok {| filenumber := None; blockCount := count; dataFileSize := dsize; revFileSize := rsize;
        lowestHeight := low; highestHeight := high; lowestTimestamp := lowt;
        highestTimestamp := hight |}.

Definition GetLastBlockFileNumberUsed (value : list Z) : Z := 0.
Definition GetIsDatabaseReindexing (value : list Z) : Z := 0.

(** The rest of [code >> 1] goes to a signed 32-bit height; the second varint is dropped. *)
Definition GetCoinRecord (key value : list Z) : outcome CoinRecord :=
  id ← read_at key 1 SHA256_HASH_SIZE;
  id ← ReverseString id SHA256_HASH_SIZE;
  '(code, offset) ← next_varint value 0;
  '(nUnspent, offset) ← next_varint value offset;
  Ok {| coin_txid := id; coin_height := s32 (Z.shiftr code 1); coinbase := u8 (Z.land code 1);
        dummy := 0 |}.

(** ** Building the index *)

(** The characters of the keys: 'b', 'f', 'l', 'R', 'C', 'B'. *)
Definition KEY_b : Z := 98.
Definition KEY_f : Z := 102.
Definition KEY_C : Z := 67.
Definition KEY_B : Z := 66.

Definition accepts (r : BlockIndexRecord) : bool :=
  BLOCK_VALID_CHAIN <=? Z.land (validationStatus r) BLOCK_VALID_MASK.

(** A store at [blockIndexRecord[height]], which has [counts[0]] elements. *)
Definition store_block_record (r : BlockIndexRecord) (s : IndexRecords) : outcome IndexRecords :=
  if bir_height r <? len (blockIndexRecord s) then
    Ok {| blockIndexRecord := <[Z.to_nat (bir_height r) := Some r]> (blockIndexRecord s);
          blockIndexRecordCount := u64 (blockIndexRecordCount s + 1);
          fileInformationRecord := fileInformationRecord s;
          fileInformationRecordCount := fileInformationRecordCount s;
          coinRecord := coinRecord s; coinRecordCount := coinRecordCount s |}
  else Fault OutOfBounds.

Definition count_file_record (s : IndexRecords) : IndexRecords :=
  {| blockIndexRecord := blockIndexRecord s; blockIndexRecordCount := blockIndexRecordCount s;
     fileInformationRecord := fileInformationRecord s;
     fileInformationRecordCount := u64 (fileInformationRecordCount s + 1);
     coinRecord := coinRecord s; coinRecordCount := coinRecordCount s |}.

(** The body of the loop. *)
Definition index_entry (key value : list Z) (s : IndexRecords) : outcome IndexRecords :=
  c ← byte_at key 0;
  if c =? KEY_b then
    r ← GetBlockIndexRecord key value;
    if accepts r then store_block_record r s else Ok s
  else if c =? KEY_f then
    f ← GetFileInformationRecord key value; Ok (count_file_record s)
  else Ok s.

(** [sizeof(FileInformationRecord)] is 64 and [sizeof(CoinRecord)] 44. *)
Definition start_index (n_b n_f : Z) (s : IndexRecords) : IndexRecords :=
  {| blockIndexRecord := replicate (Z.to_nat n_b) None; blockIndexRecordCount := 0;
     fileInformationRecord := replicate (Z.to_nat n_f) None; fileInformationRecordCount := 0;
     coinRecord := coinRecord s; coinRecordCount := coinRecordCount s |}.

Definition BuildBlockIndexRecords `{Platform} `{LevelDB} (fuel : nat) (directory : string) : M unit :=
  w ← get;
  instance ← LDB_InitOpen directory;
  counts ← LDB_CountEntriesForPrefixes fuel instance [KEY_b; KEY_f];
  _ ← malloc_unchecked (sizeof (TStruct BlockIndexRecord_fields) * counts !!! 0%nat);
  _ ← malloc_unchecked (64 * counts !!! 1%nat);
  s ← for_each fuel instance (λ k v s, lift (index_entry k v s))
        (start_index (counts !!! 0%nat) (counts !!! 1%nat) (indexRecords (w_env w)));
  modify (λ w, set_env (set_indexRecords s (w_env w)) w).

(** The records go to a local copy of [gEnv.indexRecords] that is not stored back. *)
Definition coin_entry (n : Z) (key value : list Z) (l : list CoinRecord) : outcome (list CoinRecord) :=
  c ← byte_at key 0;
  if c =? KEY_C then
    r ← GetCoinRecord key value;
    if len l <? n then Ok (l ++ [r]) else Fault OutOfBounds
  else Ok l.

Definition BuildCoinRecords `{Platform} `{LevelDB} (fuel : nat) (directory : string) : M unit :=
  instance ← LDB_InitOpen directory;
  counts ← LDB_CountEntriesForPrefixes fuel instance [KEY_C; KEY_B];
  _ ← malloc_unchecked (44 * counts !!! 0%nat);
  _ ← for_each fuel instance (λ k v l, lift (coin_entry (counts !!! 0%nat) k v l)) [];
  mret tt.

(** ** The order of the files *)

Fixpoint is_prefix (p s : list ascii) : option (list ascii) :=
  match p, s with
  | [], _ => Some s
  | c :: p, d :: s => if decide (c = d) then is_prefix p s else None
  | _ :: _, [] => None
  end.

(** [strstr(s, p)]: what follows the first occurrence of [p]. *)
Fixpoint strstr_after (p s : list ascii) : option (list ascii) :=
  match is_prefix p s with
  | Some rest => Some rest
  | None => match s with [] => None | _ :: s => strstr_after p s end
  end.

Definition code (c : ascii) : Z := Z.of_N (N_of_ascii c).

Fixpoint read_digits (s : list ascii) (acc : Z) : Z :=
  match s with
  | c :: s => if (48 <=? code c) && (code c <=? 57) then read_digits s (acc * 10 + (code c - 48)) else acc
  | [] => acc
  end.

Fixpoint skip_blanks (s : list ascii) : list ascii :=
  match s with c :: s' => if isspace (code c) then skip_blanks s' else s | [] => [] end.

(** [atoi]: undefined when the number does not fit an [int]. *)
Definition atoi (s : list ascii) : outcome Z :=
  match skip_blanks s with
  | c :: s' => if code c =? 45 then int_result (- read_digits s' 0)
               else if code c =? 43 then int_result (read_digits s' 0)
               else int_result (read_digits (c :: s') 0)
  | [] => Ok 0
  end.

Definition blk : list ascii := String.list_ascii_of_string "blk".

Definition ExtractBlockNumber (filename : string) : outcome Z :=
  match strstr_after blk (String.list_ascii_of_string filename) with
  | Some rest => atoi rest
  | None => Ok 0
  end.

Definition CompareFileInfo (a b : FileInfo) : outcome Z :=
  numA ← ExtractBlockNumber (filepath a);
  numB ← ExtractBlockNumber (filepath b);
  int_result (numA - numB).

(** [qsort]: any algorithm gives this result when no two elements compare equal. *)
Fixpoint sort_insert {A} (cmp : A → A → outcome Z) (x : A) (l : list A) : outcome (list A) :=
  match l with
  | [] => Ok [x]
  | y :: l' =>
      c ← cmp x y;
      if c <=? 0 then Ok (x :: l) else r ← sort_insert cmp x l'; Ok (y :: r)
  end.

Fixpoint qsort {A} (cmp : A → A → outcome Z) (l : list A) : outcome (list A) :=
  match l with [] => Ok [] | x :: l => r ← qsort cmp l; sort_insert cmp x r end.

Definition SortFiles (fl : FileList) : outcome FileList :=
  match files fl with
  | None => Ok fl
  | Some b =>
      l ← qsort CompareFileInfo (elems b);
      Ok {| files := Some (Buf (addr b) l); files_count := files_count fl; totalSize := totalSize fl |}
  end.

(** ** Indexing a data directory *)

Section index.
Context `{Platform} `{LevelDB}.

Definition IsBitcoindRunning : M bool :=
  w ← get;
  _ ← modify (λ w, set_ticks (S (ticks w)) w);
  match shell_lines (ticks w) "ps -A | grep '[b]itcoind'" (w_os w) with
  | None | Some [] => mret false
  | Some (_ :: _) => mret true
  end.

Definition IndexCoreDatadir (fuel : nat) : M unit :=
  w ← get;
  let blkIndexesDir := snprintf 512 (blocksDir (w_env w) +:+ "/index/") in
  fl ← ListFiles (blocksDir (w_env w)) (String.list_ascii_of_string "blk*.dat") 5000;
  fl ← lift (SortFiles fl);
  _ ← modify (λ w, set_env (set_blkFiles fl (w_env w)) w);
  r ← IsBitcoindRunning;
  _ ← printf ("Bitcoin running " +:+ (if r : bool then "1" else "0"));
  r ← IsBitcoindRunning;
  if negb r then BuildBlockIndexRecords fuel blkIndexesDir
  else
    _ ← CopyDirectory blkIndexesDir "/tmp/block-index";
    _ ← BuildBlockIndexRecords fuel "/tmp/block-index";
    _ ← DeleteDirectory "/tmp/block-index";
    mret tt.

End index.

(** ** Reading index records back *)

(** A value of the index: the varints of the fields, those of the undo data when there are
    any, and the block header. *)
Local Abbreviation enc := Varint128.encode.

Definition index_value (ver hgt status n file pos : Z) (undo : option (Z * Z)) (h : wire_header) : list Z :=
  enc ver ++ enc hgt ++ enc status ++ enc n ++ enc file ++ enc pos ++
  (match undo with Some (uf, uo) => enc uf ++ enc uo | None => [] end) ++ ser_header h.

Lemma enc_length v : in_width 64 v → (1 ≤ length (enc v) ≤ 10)%nat.
Proof. intros Hv. by destruct (DecodeVarint128_encoded v [] Hv) as [_ ?]. Qed.

Lemma next_varint_at buf pre v post :
  in_width 64 v → buf = pre ++ enc v ++ post →
  next_varint buf (len pre) = Ok (v, len (pre ++ enc v)).
Proof.
  intros Hv ->. unfold next_varint. rewrite Nat2Z.id, drop_app_length.
  rewrite (proj1 (DecodeVarint128_encoded v post Hv)), outcome_bind_ok.
  by rewrite length_app, Nat2Z.inj_add.
Qed.

(** The next field of [buf], the value of the equation [Hb], starts after [pre]. *)
Ltac at_varint Hb buf pre Hv :=
  erewrite (next_varint_at buf pre _ _ Hv) by (rewrite Hb, <- ?app_assoc; reflexivity);
  rewrite outcome_bind_ok; cbn beta iota.

Definition undo_bytes (undo : option (Z * Z)) : list Z :=
  match undo with Some (uf, uo) => enc uf ++ enc uo | None => [] end.

Lemma undo_bytes_length undo :
  match undo with Some (uf, uo) => in_width 64 uf ∧ in_width 64 uo | None => True end →
  (length (undo_bytes undo) ≤ 20)%nat.
Proof.
  unfold undo_bytes. destruct undo as [[uf uo]|]; [intros [H1 H2]|intros _; exact (Nat.le_0_l 20)].
  pose proof (enc_length uf H1). pose proof (enc_length uo H2). rewrite length_app. lia.
Qed.

(** The undo fields, from the offset where they start. *)
Lemma read_undo undo value P post :
  match undo with Some (uf, uo) => in_width 64 uf ∧ in_width 64 uo | None => True end →
  value = P ++ undo_bytes undo ++ post → length post = 80%nat → len value < 2 ^ 64 →
  (if len P <? u64 (len value - BLOCKHEADER_SIZE) then
     '(uf, offset) ← next_varint value (len P);
     '(uo, offset) ← next_varint value offset;
     Ok (Some uf, Some uo)
   else Ok (None, None)) = Ok (fst <$> undo, snd <$> undo).
Proof.
  intros Hu Hval Hp Hl. unfold BLOCKHEADER_SIZE. rewrite wrap_small.
  2:{ unfold in_width. subst value. rewrite !length_app in *. lia. }
  destruct undo as [[uf uo]|]; cbn [undo_bytes] in Hval.
  - destruct Hu as [Huf Huo]. pose proof (enc_length uf Huf).
    rewrite (proj2 (Z.ltb_lt _ _)) by (rewrite Hval, !length_app; lia).
    rewrite <- app_assoc in Hval.
    at_varint Hval value P Huf. at_varint Hval value (P ++ enc uf) Huo. done.
  - rewrite (proj2 (Z.ltb_ge _ _)); [done|]. rewrite Hval, !length_app. cbn [length app]. lia.
Qed.

Lemma GetBlockIndexRecord_ok c hash rest ver hgt status n file pos undo h :
  length hash = 32%nat → in_width 64 ver → in_width 64 hgt → in_width 32 status →
  in_width 64 n → in_width 64 file → in_width 64 pos →
  match undo with Some (uf, uo) => in_width 64 uf ∧ in_width 64 uo | None => True end →
  wf_header h →
  GetBlockIndexRecord (c :: hash ++ rest) (index_value ver hgt status n file pos undo h) =
    Ok {| blockHash := reverse hash; blockHeader := Some (load_header h); bir_version := ver;
          bir_height := hgt; bir_txCount := n; validationStatus := status; blockFile := file;
          blockOffset := pos; undoFile := fst <$> undo; undoOffset := snd <$> undo |}.
Proof.
  intros Hh Hv Hg Hs Hn Hf Hp Hu Hw.
  assert (Hs64 : in_width 64 status) by (by apply (in_width_mono 32); [lia|]).
  unfold GetBlockIndexRecord.
  pose proof (read_at_app [c] hash rest 1 SHA256_HASH_SIZE eq_refl) as Hkey.
  rewrite Hh in Hkey. cbn [app] in Hkey.
  rewrite (Hkey eq_refl), outcome_bind_ok. clear Hkey.
  rewrite ReverseString_spec, outcome_bind_ok by (unfold SHA256_HASH_SIZE; rewrite ?Hh; lia).
  set (value := index_value ver hgt status n file pos undo h).
  assert (Hval : value = [] ++ enc ver ++ enc hgt ++ enc status ++ enc n ++ enc file ++ enc pos ++
    undo_bytes undo ++ ser_header h) by done.
  pose proof (ser_header_length h Hw) as Hlh. clearbody value.
  assert (Hlen : len value < 2 ^ 64).
  { pose proof (enc_length ver Hv). pose proof (enc_length hgt Hg). pose proof (enc_length _ Hs64).
    pose proof (enc_length n Hn). pose proof (enc_length file Hf). pose proof (enc_length pos Hp).
    pose proof (undo_bytes_length undo Hu). rewrite Hval. cbn [app]. rewrite !length_app. lia. }
  change 0 with (len (@nil Z)) at 1.
  at_varint Hval value (@nil Z) Hv. cbn [app] in Hval |- *.
  at_varint Hval value (enc ver) Hg.
  at_varint Hval value (enc ver ++ enc hgt) Hs64.
  at_varint Hval value ((enc ver ++ enc hgt) ++ enc status) Hn.
  at_varint Hval value (((enc ver ++ enc hgt) ++ enc status) ++ enc n) Hf.
  at_varint Hval value ((((enc ver ++ enc hgt) ++ enc status) ++ enc n) ++ enc file) Hp.
  set (P := (((((enc ver ++ enc hgt) ++ enc status) ++ enc n) ++ enc file) ++ enc pos)).
  assert (HP : value = P ++ undo_bytes undo ++ ser_header h)
    by (rewrite Hval; unfold P; by rewrite <- !app_assoc).
  rewrite (read_undo undo value P (ser_header h) Hu HP Hlh Hlen), outcome_bind_ok.
  rewrite app_assoc in HP.
  assert (Hd : drop (Z.to_nat (len value - BLOCKHEADER_SIZE)) value = ser_header h ++ []).
  { rewrite app_nil_r, HP, length_app, Hlh. apply drop_app_length'. unfold BLOCKHEADER_SIZE. lia. }
  rewrite (proj2 (Z.leb_le _ _)) by (rewrite HP, length_app, Hlh; unfold BLOCKHEADER_SIZE; lia).
  rewrite Hd, (DecodeBlockHeader_ok h [] Hw), !outcome_bind_ok.
  rewrite (wrap_small 32 status Hs). done.
Qed.

(** ** The index as a whole *)

(** The records the loop keeps, in the order of the keys. *)
Definition accepted_entry (e : entry) : option BlockIndexRecord :=
  if decide (head e.1 = Some KEY_b) then
    match GetBlockIndexRecord e.1 e.2 with
    | Ok r => if accepts r then Some r else None
    | _ => None
    end
  else None.
Definition accepted (l : list entry) : list BlockIndexRecord := omap accepted_entry l.

(** Every key has a first byte and every block and file record can be decoded. *)
Definition decodable (e : entry) : Prop :=
  e.1 ≠ [] ∧
  (head e.1 = Some KEY_b → ∃ r, GetBlockIndexRecord e.1 e.2 = Ok r) ∧
  (head e.1 = Some KEY_f → ∃ f, GetFileInformationRecord e.1 e.2 = Ok f).

Definition in_array (n : Z) (r : BlockIndexRecord) : Prop := 0 ≤ bir_height r < n.

(** The records [rs] at their heights. *)
Definition place (rs : list BlockIndexRecord) (a : list (option BlockIndexRecord))
    : list (option BlockIndexRecord) :=
  fold_left (λ a r, <[Z.to_nat (bir_height r) := Some r]> a) rs a.

Definition index_body (k v : list Z) (s : IndexRecords) : M IndexRecords := lift (index_entry k v s).

Definition with_index (a : list (option BlockIndexRecord)) (n f : Z) (s : IndexRecords) : IndexRecords :=
  {| blockIndexRecord := a; blockIndexRecordCount := u64 n;
     fileInformationRecord := fileInformationRecord s; fileInformationRecordCount := u64 f;
     coinRecord := coinRecord s; coinRecordCount := coinRecordCount s |}.

Lemma index_body_ok k v s s' w : index_entry k v s = Ok s' → index_body k v s w = Ok (s', w).
Proof. intros H. unfold index_body, lift. by rewrite H. Qed.

(** One entry. *)
Lemma index_entry_ok k v a n f s :
  decodable (k, v) → (∀ r, accepted_entry (k, v) = Some r → in_array (len a) r) →
  index_entry k v (with_index a n f s) =
    Ok (with_index (place (option_list (accepted_entry (k, v))) a)
         (n + len (option_list (accepted_entry (k, v))))
         (f + (if decide (head k = Some KEY_f) then 1 else 0)) s).
Proof.
  intros (Hk & Hb & Hf) Hin. destruct k as [|c k]; [done|]. unfold index_entry, accepted_entry in *.
  cbn [fst snd head] in *. change (byte_at (c :: k) 0) with (Ok c). rewrite outcome_bind_ok.
  destruct (c =? KEY_b) eqn:Ec; split_bool.
  { subst c. rewrite decide_True in * by done. rewrite (decide_False (P := Some KEY_b = Some KEY_f)) by done.
    destruct Hb as [r Hr]; [done|]. rewrite Hr, outcome_bind_ok in *.
    destruct (accepts r) eqn:Ea; cbn [option_list length place fold_left]; rewrite ?Z.add_0_r; [|done].
    specialize (Hin r eq_refl) as Hin. destruct Hin as [H0 H1].
    unfold store_block_record. cbn [blockIndexRecord with_index].
    rewrite (proj2 (Z.ltb_lt _ _)) by done. unfold with_index. cbn. by rewrite wrap_add_l. }
  rewrite (decide_False (P := Some c = Some KEY_b)) by congruence.
  cbn [option_list place fold_left length]. rewrite Z.add_0_r.
  destruct (c =? KEY_f) eqn:Ef; split_bool.
  - subst c. destruct Hf as [fr Hfr]; [done|]. rewrite Hfr, outcome_bind_ok, decide_True by done.
    unfold count_file_record, with_index. cbn. by rewrite wrap_add_l.
  - by rewrite decide_False, Z.add_0_r by congruence.
Qed.

Lemma length_place rs a : length (place rs a) = length a.
Proof. revert a. induction rs as [|r rs IH]; intros a; [done|]. cbn. by rewrite IH, length_insert. Qed.

Lemma place_app rs rs' a : place (rs ++ rs') a = place rs' (place rs a).
Proof. apply fold_left_app. Qed.

Lemma index_entries_ok l a n f s w :
  Forall decodable l → Forall (in_array (len a)) (accepted l) →
  fold_entries index_body l (with_index a n f s) w =
    Ok (with_index (place (accepted l) a) (n + len (accepted l)) (f + prefix_count KEY_f l) s, w).
Proof.
  intros Hd. revert a n f. induction Hd as [|[k v] l He Hd IH]; intros a n f Hin.
  - cbn. by rewrite !Z.add_0_r.
  - cbn [fold_entries]. unfold index_body at 1.
    assert (Hacc : accepted ((k, v) :: l) = option_list (accepted_entry (k, v)) ++ accepted l)
      by (unfold accepted; cbn [omap list_omap]; by destruct (accepted_entry (k, v))).
    rewrite Hacc, Forall_app in Hin. destruct Hin as [Hin1 Hin2].
    assert (Hin : ∀ r, accepted_entry (k, v) = Some r → in_array (len a) r)
      by (intros r Hr; rewrite Hr in Hin1; by inversion Hin1).
    rewrite (M_bind_ok _ _ _ _ _ (index_body_ok k v _ _ w (index_entry_ok k v a n f s He Hin))).
    rewrite IH by (by rewrite length_place). do 2 f_equal. unfold prefix_count.
    rewrite Hacc, place_app, length_app, filter_cons. cbn [fst].
    f_equal; [lia|]. case_decide; cbn [length]; lia.
Qed.

(** What [place] leaves at each index. *)
Lemma place_lookup_other rs a i :
  (∀ r, r ∈ rs → Z.to_nat (bir_height r) ≠ i) → place rs a !! i = a !! i.
Proof.
  revert a. induction rs as [|r rs IH]; intros a Hne; [done|]. cbn.
  change (place rs (<[Z.to_nat (bir_height r):=Some r]> a) !! i = a !! i).
  rewrite IH by (intros; apply Hne; set_solver). apply list_lookup_insert_ne, Hne. set_solver.
Qed.

Lemma place_lookup rs a r :
  NoDup (map bir_height rs) → Forall (in_array (len a)) rs → r ∈ rs →
  place rs a !! Z.to_nat (bir_height r) = Some (Some r).
Proof.
  revert a. induction rs as [|r' rs IH]; intros a Hnd Hin Hr; [set_solver|].
  cbn [map] in Hnd. apply NoDup_cons in Hnd as [Hni Hnd]. apply Forall_cons in Hin as [[H0 H1] Hin].
  change (place rs (<[Z.to_nat (bir_height r'):=Some r']> a) !! Z.to_nat (bir_height r) = Some (Some r)).
  apply elem_of_cons in Hr as [->|Hr].
  - rewrite place_lookup_other; [apply list_lookup_insert_eq; lia|].
    intros x Hx Heq. apply Hni. apply list_elem_of_fmap. exists x. split; [|done].
    rewrite Forall_forall in Hin. destruct (Hin x Hx). lia.
  - apply IH; [done|by rewrite length_insert|done].
Qed.

Lemma place_lookup_inv rs n i r :
  place rs (replicate n None) !! i = Some (Some r) → r ∈ rs ∧ Z.to_nat (bir_height r) = i.
Proof.
  revert i r. induction rs as [|x rs IH] using rev_ind; intros i r.
  - cbn. intros H. apply lookup_replicate in H as [H _]. done.
  - rewrite place_app. cbn. intros H. apply list_lookup_insert_Some in H as [(<- & [= ->] & _)|[_ H]].
    + set_solver.
    + apply IH in H as [??]. set_solver.
Qed.

Lemma accepted_app l l' : accepted (l ++ l') = accepted l ++ accepted l'.
Proof. apply omap_app. Qed.

(** A record above the array stops the loop with a store out of bounds. *)
Lemma index_entries_fault l a n f s w :
  Forall decodable l → Forall (λ r, 0 ≤ bir_height r) (accepted l) →
  Exists (λ r, len a ≤ bir_height r) (accepted l) →
  fold_entries index_body l (with_index a n f s) w = Fault OutOfBounds.
Proof.
  intros Hd. revert a n f. induction Hd as [|[k v] l He Hd IH]; intros a n f Hpos Hex; [by inversion Hex|].
  cbn [fold_entries].
  change (accepted ((k, v) :: l)) with (accepted ([(k, v)] ++ l)) in Hpos, Hex.
  assert (Hacc : accepted [(k, v)] = option_list (accepted_entry (k, v)))
    by (unfold accepted; cbn [omap list_omap]; by destruct (accepted_entry (k, v))).
  rewrite accepted_app, Hacc in Hpos, Hex. apply Forall_app in Hpos as [Hp1 Hp2].
  destruct (decide (Forall (in_array (len a)) (option_list (accepted_entry (k, v))))) as [Hin|Hout].
  - assert (Hin' : ∀ r, accepted_entry (k, v) = Some r → in_array (len a) r)
      by (intros r Hr; rewrite Hr in Hin; by inversion Hin).
    rewrite (M_bind_ok _ _ _ _ _ (index_body_ok k v _ _ w (index_entry_ok k v a n f s He Hin'))).
    apply IH; [done|]. rewrite length_place. apply Exists_app in Hex as [Hex|Hex]; [|done].
    exfalso. apply Exists_exists in Hex as (r & Hr & Hle). rewrite Forall_forall in Hin.
    destruct (Hin r Hr). lia.
  - clear IH Hex. destruct (accepted_entry (k, v)) as [r|] eqn:Er; [|by destruct Hout; constructor].
    apply Forall_cons in Hp1 as [Hp1 _].
    assert (Hle : len a ≤ bir_height r).
    { destruct (Z.lt_ge_cases (bir_height r) (len a)); [|done].
      destruct Hout. apply Forall_cons. split; [|constructor]. by split. }
    destruct He as (Hk & Hb & _). destruct k as [|c k]; [done|].
    unfold accepted_entry in Er. cbn [fst snd head] in *. case_decide as Hc; [|done].
    destruct (Hb Hc) as [r' Hr']. rewrite Hr' in Er. destruct (accepts r') eqn:Ea; [|done]. injection Er as ->. injection Hc as ->.
    assert (Hf : index_entry (KEY_b :: k) v (with_index a n f s) = Fault OutOfBounds).
    { unfold index_entry. change (byte_at (KEY_b :: k) 0) with (Ok KEY_b).
      rewrite outcome_bind_ok, Z.eqb_refl, Hr', outcome_bind_ok, Ea. unfold store_block_record.
      cbn [blockIndexRecord with_index]. by rewrite (proj2 (Z.ltb_ge _ _)). }
    assert (Hw : index_body (KEY_b :: k) v (with_index a n f s) w = Fault OutOfBounds)
      by (unfold index_body, lift; by rewrite Hf).
    unfold mbind, M_bind. by rewrite Hw.
Qed.

Section build.
Context `{Platform} `{L : LevelDB} `{!LevelDBLaws L}.

(** The directory can be opened and the loop visits all of it. *)
Definition opens (fuel : nat) (directory : string) (w : world) (l : list entry) : Prop :=
  ∃ d, LDB_Open (options (LDB_Init directory)) directory (w_os w) = inr d ∧ entries d = l ∧
       (length l < fuel)%nat.

Lemma entries_have_keys l : Forall decodable l → Forall (λ e, e.1 ≠ []) l.
Proof. intros Hl. eapply Forall_impl; [exact Hl|]. by intros e [? _]. Qed.

(** Up to the loop: the arrays have a place per key counted. *)
Lemma BuildBlockIndexRecords_loop fuel directory w l :
  no_oom → opens fuel directory w l → Forall decodable l →
  ∃ w', heap_only w w' ∧ (heap_ok w → heap_ok w') ∧
  BuildBlockIndexRecords fuel directory w =
    (s ← fold_entries index_body l
       (with_index (replicate (Z.to_nat (prefix_count KEY_b l)) None) 0 0
         (start_index 0 (prefix_count KEY_f l) (indexRecords (w_env w))));
     modify (λ w, set_env (set_indexRecords s (w_env w)) w)) w'.
Proof.
  intros Hoom (d & Ho & Hl & Hf) Hd. pose proof (entries_have_keys _ Hd) as Hk. subst l.
  eexists (grow 1 [_] (grow 1 [next (w_heap w)] w)). split; [done|].
  split; [intros Hw; repeat (apply heap_ok_grow; [|apply (within_seq _ 1)]); done|].
  unfold BuildBlockIndexRecords.
  rewrite (M_bind_ok get _ w w w eq_refl).
  set (inst := {| dbPath := directory; db := Some d; options := options (LDB_Init directory);
                  errors := None |}).
  rewrite (M_bind_ok (LDB_InitOpen directory) _ w inst w).
  2:{ unfold LDB_InitOpen. rewrite (M_bind_ok get _ w w w eq_refl). cbn [dbPath LDB_Init] in *.
      by rewrite Ho. }
  rewrite (M_bind_ok _ _ _ _ _ (LDB_CountEntriesForPrefixes_ok fuel inst d [KEY_b; KEY_f] w eq_refl Hf Hk)).
  rewrite (M_bind_ok _ _ _ _ _ (malloc_unchecked_ok _ w Hoom)).
  rewrite (M_bind_ok _ _ _ _ _ (malloc_unchecked_ok _ _ Hoom)).
  unfold mbind at 1, M_bind at 1. rewrite (for_each_fold fuel inst d) by done.
  cbn [map lookup_total list_lookup_total]. unfold start_index, with_index. cbn.
  reflexivity.
Qed.

Lemma BuildBlockIndexRecords_ok fuel directory w l :
  no_oom → opens fuel directory w l → Forall decodable l →
  Forall (in_array (prefix_count KEY_b l)) (accepted l) → NoDup (map bir_height (accepted l)) →
  ∃ w1 s, heap_only w w1 ∧ (heap_ok w → heap_ok w1) ∧
    BuildBlockIndexRecords fuel directory w = Ok (tt, set_env (set_indexRecords s (w_env w)) w1) ∧
    len (blockIndexRecord s) = prefix_count KEY_b l ∧
    (∀ i r, blockIndexRecord s !! i = Some (Some r) ↔ r ∈ accepted l ∧ Z.to_nat (bir_height r) = i) ∧
    blockIndexRecordCount s = u64 (len (accepted l)) ∧
    fileInformationRecordCount s = u64 (prefix_count KEY_f l).
Proof.
  intros Hoom Ho Hd Hin Hnd.
  destruct (BuildBlockIndexRecords_loop fuel directory w l Hoom Ho Hd) as (w1 & Hsame & Hok & E).
  assert (Hlen : len (replicate (Z.to_nat (prefix_count KEY_b l)) (@None BlockIndexRecord)) = prefix_count KEY_b l)
    by (rewrite length_replicate; unfold prefix_count; lia).
  rewrite (M_bind_ok _ _ _ _ _ (index_entries_ok l _ 0 0 _ w1 Hd ltac:(by rewrite Hlen))) in E.
  eexists w1, _. split; [done|]. split; [done|].
  split; [rewrite E, Hsame; reflexivity|].
  cbn [with_index blockIndexRecord blockIndexRecordCount fileInformationRecordCount].
  split_and!; [by rewrite length_place| |done..]. intros i r. split.
  - apply place_lookup_inv.
  - intros [Hr <-]. apply place_lookup; [done|by rewrite Hlen|done].
Qed.
End build.

(** ** The files in order *)

Lemma is_prefix_app p s : is_prefix p (p ++ s) = Some s.
Proof. induction p as [|c p IH]; [done|]. cbn. by rewrite decide_True. Qed.

Definition slash : ascii := "/"%char.

(** A slash after [s] does not complete an occurrence of [p] begun in [s]. *)
Lemma is_prefix_slash p s rest :
  slash ∉ p → p ≠ [] → is_prefix p s = None → is_prefix p (s ++ slash :: rest) = None.
Proof.
  revert s. induction p as [|c p IH]; intros s Hp Hne Hs; [done|].
  apply not_elem_of_cons in Hp as [Hc Hp].
  destruct s as [|d s]; cbn [app is_prefix] in *; [by rewrite decide_False|].
  case_decide; [|done]. destruct p as [|c' p]; [done|]. by apply IH.
Qed.

Lemma strstr_after_slash p s rest :
  slash ∉ p → p ≠ [] → strstr_after p s = None → strstr_after p (s ++ slash :: p ++ rest) = Some rest.
Proof.
  intros Hp Hne. induction s as [|d s IH]; intros Hs.
  - cbn [app strstr_after]. destruct p as [|c p]; [done|].
    apply not_elem_of_cons in Hp as [Hc Hp]. cbn [is_prefix]. rewrite decide_False by done.
    pose proof (is_prefix_app (c :: p) rest) as Hpre. cbn [app strstr_after] in *. by rewrite Hpre.
  - cbn [strstr_after] in Hs. destruct (is_prefix p (d :: s)) eqn:E; [done|].
    cbn [app strstr_after]. pose proof (is_prefix_slash p (d :: s) (p ++ rest) Hp Hne E) as Hn.
    cbn [app] in Hn. rewrite Hn. by apply IH.
Qed.

(** Decimal digits and their value. *)
Definition is_digit (c : ascii) : Prop := 48 ≤ code c ≤ 57.
Definition decimal (ds : list ascii) : Z := fold_left (λ a c, a * 10 + (code c - 48)) ds 0.

Lemma read_digits_app ds c rest acc :
  Forall is_digit ds → ~ is_digit c →
  read_digits (ds ++ c :: rest) acc = fold_left (λ a c, a * 10 + (code c - 48)) ds acc.
Proof.
  intros Hds Hc. revert acc. induction Hds as [|d ds Hd Hds IH]; intros acc; cbn [app read_digits].
  - unfold is_digit in Hc. destruct ((48 <=? code c) && (code c <=? 57)) eqn:E; [|done].
    split_bool. lia.
  - destruct Hd. rewrite (proj2 (Z.leb_le 48 _)), (proj2 (Z.leb_le _ 57)) by done. apply IH.
Qed.

Lemma isspace_digit c : is_digit c → isspace (code c) = false.
Proof.
  unfold is_digit, isspace. intros. apply not_true_is_false. intros Hb. split_bool; lia.
Qed.

Lemma atoi_digits ds c rest :
  Forall is_digit ds → ds ≠ [] → ~ is_digit c → 0 ≤ decimal ds < 2 ^ 31 →
  atoi (ds ++ c :: rest) = Ok (decimal ds).
Proof.
  intros Hds Hne Hc Hr. unfold atoi.
  assert (Hskip : skip_blanks (ds ++ c :: rest) = ds ++ c :: rest).
  { destruct Hds as [|d ds Hd Hds]; [done|]. cbn [app skip_blanks]. by rewrite isspace_digit. }
  rewrite Hskip. destruct ds as [|d ds]; [done|]. cbn [app].
  assert (Hd : is_digit d) by (by inversion Hds). unfold is_digit in Hd.
  rewrite !(proj2 (Z.eqb_neq (code d) _)) by lia. rewrite app_comm_cons, read_digits_app by done.
  unfold decimal in Hr. unfold int_result, decimal. cbn [fold_left] in *.
  unfold fits_int. rewrite (proj2 (Z.leb_le _ _)), (proj2 (Z.ltb_lt _ _)) by lia. done.
Qed.

Definition path_of (dir ds : list ascii) : string :=
  String.string_of_list_ascii (dir ++ slash :: blk ++ ds ++ String.list_ascii_of_string ".dat").

Lemma ExtractBlockNumber_path dir ds :
  strstr_after blk dir = None → Forall is_digit ds → ds ≠ [] → 0 ≤ decimal ds < 2 ^ 31 →
  ExtractBlockNumber (path_of dir ds) = Ok (decimal ds).
Proof.
  intros Hdir Hds Hne Hr. unfold ExtractBlockNumber, path_of.
  rewrite String.list_ascii_of_string_of_list_ascii, strstr_after_slash; [|by vm_compute; set_solver|done|done].
  change (String.list_ascii_of_string ".dat") with ("."%char :: String.list_ascii_of_string "dat").
  apply atoi_digits; [done|done| |done]. unfold is_digit. vm_compute. intuition congruence.
Qed.

(** Sorting with a comparison that subtracts keys. *)
Section qsort.
Context {A : Type} (cmp : A → A → outcome Z) (k : A → Z).

Lemma sort_insert_ok x l :
  Forall (λ y, cmp x y = Ok (k x - k y)) l → StronglySorted (λ a b, k a ≤ k b) l →
  ∃ l', sort_insert cmp x l = Ok l' ∧ l' ≡ₚ x :: l ∧ StronglySorted (λ a b, k a ≤ k b) l'.
Proof.
  intros Hc Hs. induction Hs as [|y l Hs IH Hy]; cbn [sort_insert].
  - exists [x]. split; [done|]. split; [done|]. repeat constructor.
  - apply Forall_cons in Hc as [Hxy Hc]. rewrite Hxy, outcome_bind_ok.
    destruct (k x - k y <=? 0) eqn:E; split_bool.
    + exists (x :: y :: l). split_and!; [done|done|]. constructor; [by constructor|].
      apply Forall_cons. split; [lia|]. eapply Forall_impl; [exact Hy|]. cbn. lia.
    + destruct (IH Hc) as (l' & -> & Hp & Hs'). rewrite outcome_bind_ok.
      exists (y :: l'). split_and!; [done|by rewrite Hp, Permutation_swap|].
      constructor; [done|]. rewrite Hp. apply Forall_cons. split; [lia|done].
Qed.

Lemma qsort_ok l :
  (∀ x y, x ∈ l → y ∈ l → cmp x y = Ok (k x - k y)) →
  ∃ l', qsort cmp l = Ok l' ∧ l' ≡ₚ l ∧ StronglySorted (λ a b, k a ≤ k b) l'.
Proof.
  induction l as [|x l IH]; intros Hc; cbn [qsort]; [exists []; repeat constructor|].
  destruct IH as (r & -> & Hp & Hs); [intros; apply Hc; set_solver|]. rewrite outcome_bind_ok.
  destruct (sort_insert_ok x r) as (l' & -> & Hp' & Hs'); [|done|].
  - rewrite Hp. apply Forall_forall. intros y Hy. apply Hc; set_solver.
  - exists l'. split_and!; [done|by rewrite Hp', Hp|done].
Qed.
End qsort.

Lemma StronglySorted_map {A} (k : A → Z) l :
  StronglySorted (λ a b, k a ≤ k b) l → StronglySorted Z.le (map k l).
Proof.
  induction 1 as [|x l Hs IH Hx]; cbn; constructor; [done|]. by apply Forall_map.
Qed.

Lemma StronglySorted_seqZ m n : StronglySorted Z.le (seqZ m n).
Proof.
  unfold seqZ. generalize (Z.to_nat n). intros j. clear n. generalize 0%nat as i.
  induction j as [|j IH]; intros i; cbn; constructor; [apply IH|].
  apply Forall_forall. intros x Hx. apply list_elem_of_fmap in Hx as (y & -> & Hy).
  apply elem_of_seq in Hy. lia.
Qed.

(** The number in the name of a file, where it has one. *)
Definition numbered (n : Z) (f : FileInfo) : Prop := ExtractBlockNumber (filepath f) = Ok n.
Definition number (f : FileInfo) : Z :=
  match ExtractBlockNumber (filepath f) with Ok n => n | _ => 0 end.

Lemma numbered_number n f : numbered n f → number f = n.
Proof. unfold numbered, number. by intros ->. Qed.

Lemma SortFiles_ok b fl :
  files fl = Some b → Forall (λ f, ∃ n, numbered n f ∧ 0 ≤ n < 2 ^ 31) (elems b) →
  ∃ l, SortFiles fl =
    Ok {| files := Some (Buf (addr b) l); files_count := files_count fl; totalSize := totalSize fl |} ∧
    l ≡ₚ elems b ∧ StronglySorted (λ f g, number f ≤ number g) l.
Proof.
  intros Hb Hn. unfold SortFiles. rewrite Hb. rewrite Forall_forall in Hn.
  destruct (qsort_ok CompareFileInfo number (elems b)) as (l & -> & Hp & Hs).
  - intros x y Hx Hy. destruct (Hn x Hx) as (n & Hnx & ?), (Hn y Hy) as (m & Hmy & ?).
    unfold CompareFileInfo. rewrite Hnx, outcome_bind_ok, Hmy, outcome_bind_ok.
    rewrite (numbered_number n x), (numbered_number m y) by done.
    unfold int_result, fits_int. rewrite (proj2 (Z.leb_le _ _)), (proj2 (Z.ltb_lt _ _)) by lia. done.
  - rewrite outcome_bind_ok. by exists l.
Qed.

Lemma SortFiles_sorted b fl :
  files fl = Some b → len (elems b) < 2 ^ 31 →
  (∃ ns, Forall2 numbered ns (elems b) ∧ ns ≡ₚ seqZ 0 (len (elems b))) →
  ∃ l, SortFiles fl =
    Ok {| files := Some (Buf (addr b) l); files_count := files_count fl; totalSize := totalSize fl |} ∧
    l ≡ₚ elems b ∧ ∀ (i : nat) f, l !! i = Some f → numbered (Z.of_nat i) f.
Proof.
  intros Hb Hlen (ns & Hns & Hperm).
  assert (Hr : ∀ f, f ∈ elems b → ∃ n, numbered n f ∧ 0 ≤ n < 2 ^ 31).
  { intros f Hf. apply list_elem_of_lookup in Hf as [i Hi].
    destruct (Forall2_lookup_r _ _ _ _ _ Hns Hi) as (n & Hn & Hnf). exists n. split; [done|].
    apply list_elem_of_lookup_2 in Hn. rewrite Hperm in Hn. apply elem_of_seqZ in Hn. lia. }
  destruct (SortFiles_ok b fl Hb) as (l & -> & Hp & Hs); [by apply Forall_forall|].
  exists l. split_and!; [done..|]. intros i f Hf.
  assert (Hmap : map number l = seqZ 0 (len (elems b))).
  { apply (StronglySorted_unique Z.le); [by apply StronglySorted_map|apply StronglySorted_seqZ|].
    rewrite <- Hperm, Hp. clear -Hns. induction Hns as [|n f ns l Hn _ IH]; [done|].
    cbn. by rewrite IH, (numbered_number n f). }
  assert (Hi : map number l !! i = Some (number f)) by (by rewrite list_lookup_fmap, Hf).
  rewrite Hmap in Hi. apply lookup_seqZ in Hi as [Hi _]. rewrite Z.add_0_l in Hi.
  destruct (Hr f) as (n & Hn & _).
  { rewrite <- Hp. by apply list_elem_of_lookup_2 in Hf. }
  by rewrite <- Hi, (numbered_number n f).
Qed.

(** ** Properties *)

(** [GetBlockIndexRecord] reads a block record of the index as Bitcoin Core writes it:
    from the key the block hash, reversed, and from the value the seven or eight varints
    in their order (client version, height, status, transactions, file, position and, when
    there are any, the two of the undo data) and the header in its last 80 bytes. *)
Theorem GetBlockIndexRecord_reads c hash rest ver hgt status n file pos undo h :
  length hash = 32%nat → in_width 64 ver → in_width 64 hgt → in_width 32 status →
  in_width 64 n → in_width 64 file → in_width 64 pos →
  match undo with Some (uf, uo) => in_width 64 uf ∧ in_width 64 uo | None => True end →
  wf_header h →
  GetBlockIndexRecord (c :: hash ++ rest) (index_value ver hgt status n file pos undo h) =
    Ok {| blockHash := reverse hash; blockHeader := Some (load_header h); bir_version := ver;
          bir_height := hgt; bir_txCount := n; validationStatus := status; blockFile := file;
          blockOffset := pos; undoFile := fst <$> undo; undoOffset := snd <$> undo |}.
Proof. apply GetBlockIndexRecord_ok. Qed.

Definition sample_header : wire_header := {|
  h_version := 1; h_prev := replicate 32 0; h_root := replicate 32 7; h_time := 1231006505;
  h_bits := 486604799; h_nonce := 2083236893 |}.

Lemma GetBlockIndexRecord_reads_witness :
  GetBlockIndexRecord (KEY_b :: (replicate 31 1 ++ [2]) ++ [])
    (index_value 259900 200 157 300 3 16512 (Some (3, 9)) sample_header) =
  Ok {| blockHash := 2 :: replicate 31 1; blockHeader := Some (load_header sample_header);
        bir_version := 259900; bir_height := 200; bir_txCount := 300; validationStatus := 157;
        blockFile := 3; blockOffset := 16512; undoFile := Some 3; undoOffset := Some 9 |}.
Proof.
  rewrite (GetBlockIndexRecord_reads KEY_b (replicate 31 1 ++ [2]) [] 259900 200 157 300 3 16512
    (Some (3, 9)) sample_header); [done|done|done..| |].
  - done.
  - unfold wf_header. split_and!; try done; apply Forall_replicate; done.
Defined.

(** C8: when the heights of the valid records are distinct and below the number of block
    keys, [BuildBlockIndexRecords] leaves in [gEnv] an array with a place per block key in
    which each valid record is at its height and every other place is unset, the number of
    valid records, and the number of file records; the rest of [gEnv] is as before. *)
Theorem BuildBlockIndexRecords_indexes `{Platform} `{L : LevelDB} `{!LevelDBLaws L} fuel directory w l :
  no_oom → opens fuel directory w l → Forall decodable l →
  Forall (in_array (prefix_count KEY_b l)) (accepted l) → NoDup (map bir_height (accepted l)) →
  ∃ w' s, BuildBlockIndexRecords fuel directory w = Ok (tt, w') ∧
    w_env w' = set_indexRecords s (w_env w) ∧
    len (blockIndexRecord s) = prefix_count KEY_b l ∧
    (∀ i r, blockIndexRecord s !! i = Some (Some r) ↔ r ∈ accepted l ∧ Z.to_nat (bir_height r) = i) ∧
    blockIndexRecordCount s = u64 (len (accepted l)) ∧
    fileInformationRecordCount s = u64 (prefix_count KEY_f l).
Proof.
  intros Hoom Ho Hd Hin Hnd.
  destruct (BuildBlockIndexRecords_ok fuel directory w l Hoom Ho Hd Hin Hnd)
    as (w1 & s & Hsame & _ & E & Hs). eexists _, s. split; [exact E|].
  split; [by rewrite Hsame|exact Hs].
Qed.

(** Two blocks, a file and a flag. *)
Definition sample_block_entry (hash hgt : Z) : entry :=
  (KEY_b :: replicate 32 hash, index_value 259900 hgt 157 1 0 (8 + 293 * hgt) None sample_header).
Definition sample_index : list entry :=
  [sample_block_entry 9 1; sample_block_entry 12 0; ([KEY_f; 0; 0; 0; 0], [2; 5; 5; 0; 1; 7; 9]);
   ([108], [0; 0; 0; 0])].

Lemma sample_block_decodable hash hgt :
  hgt = 0 ∨ hgt = 1 → decodable (sample_block_entry hash hgt).
Proof.
  intros [-> | ->]; (split; [done|split; [intros _|done]]); eexists; vm_compute; reflexivity.
Qed.

Lemma sample_index_decodable : Forall decodable sample_index.
Proof.
  repeat apply Forall_cons_2; [apply sample_block_decodable; auto..| | |constructor].
  - split; [done|split; [done|intros _; eexists; vm_compute; reflexivity]].
  - by split.
Qed.

Definition sample_record (hash hgt : Z) : BlockIndexRecord :=
  {| blockHash := replicate 32 hash; blockHeader := Some (load_header sample_header);
     bir_version := 259900; bir_height := hgt; bir_txCount := 1; validationStatus := 157;
     blockFile := 0; blockOffset := 8 + 293 * hgt; undoFile := None; undoOffset := None |}.

Lemma sample_index_accepted : accepted sample_index = [sample_record 9 1; sample_record 12 0].
Proof. vm_compute. reflexivity. Qed.

Lemma sample_gap_accepted : accepted [sample_block_entry 9 1] = [sample_record 9 1].
Proof. vm_compute. reflexivity. Qed.

Lemma sample_no_oom : @no_oom sample_platform.
Proof. done. Qed.

Lemma BuildBlockIndexRecords_indexes_witness :
  let L := list_leveldb (λ _ _, inr sample_index) in
  ∃ w' s r, @BuildBlockIndexRecords sample_platform L 5 "blocks/index" empty_world = Ok (tt, w') ∧
    indexRecords (w_env w') = s ∧ len (blockIndexRecord s) = 2 ∧
    blockIndexRecord s !! 1%nat = Some (Some r) ∧ blockHash r = replicate 32 9 ∧
    blockIndexRecordCount s = 2 ∧ fileInformationRecordCount s = 1.
Proof.
  intros L.
  destruct (@BuildBlockIndexRecords_indexes sample_platform L (list_leveldb_laws _) 5 "blocks/index"
    empty_world sample_index sample_no_oom) as (w' & s & Hb & He & Hlen & Hl & Hc & Hf).
  - exists sample_index. split; [done|]. split; [done|cbn; lia].
  - apply sample_index_decodable.
  - rewrite sample_index_accepted. repeat constructor; done.
  - rewrite sample_index_accepted. cbn. repeat (constructor; [set_solver|]). constructor.
  - exists w', s, (sample_record 9 1). rewrite sample_index_accepted in *.
    split_and!; [done|by rewrite He|by rewrite Hlen| |done|by rewrite Hc|by rewrite Hf].
    apply Hl. split; [apply list_elem_of_here|done].
Defined.

(** C9: the array has a place per block key, not per height, and the loop does not check:
    if a valid record has a height not below their number (an index with a gap, or one
    whose genesis block is missing), [BuildBlockIndexRecords] writes out of bounds. *)
Theorem BuildBlockIndexRecords_overflows `{Platform} `{L : LevelDB} `{!LevelDBLaws L} fuel directory w l :
  no_oom → opens fuel directory w l → Forall decodable l →
  Forall (λ r, 0 ≤ bir_height r) (accepted l) →
  Exists (λ r, prefix_count KEY_b l ≤ bir_height r) (accepted l) →
  BuildBlockIndexRecords fuel directory w = Fault OutOfBounds.
Proof.
  intros Hoom Ho Hd Hpos Hex. destruct (BuildBlockIndexRecords_loop fuel directory w l Hoom Ho Hd) as (w1 & _ & _ & ->).
  unfold mbind, M_bind. rewrite index_entries_fault; [done..|].
  replace (len _) with (prefix_count KEY_b l); [done|].
  rewrite length_replicate. unfold prefix_count. lia.
Qed.

Lemma BuildBlockIndexRecords_overflows_witness :
  let L := list_leveldb (λ _ _, inr [sample_block_entry 9 1]) in
  @BuildBlockIndexRecords sample_platform L 5 "blocks/index" empty_world = Fault OutOfBounds.
Proof.
  intros L. apply (@BuildBlockIndexRecords_overflows sample_platform L (list_leveldb_laws _) 5
    "blocks/index" empty_world [sample_block_entry 9 1] sample_no_oom).
  - exists [sample_block_entry 9 1]. split; [done|]. split; [done|cbn; lia].
  - apply Forall_singleton, sample_block_decodable. auto.
  - rewrite sample_gap_accepted. apply Forall_singleton. done.
  - rewrite sample_gap_accepted. apply Exists_cons_hd. done.
Defined.

(** In the path of a blk file [ExtractBlockNumber] finds the number of the file,
    provided no directory of the path contains "blk". *)
Theorem ExtractBlockNumber_reads dir ds :
  strstr_after blk dir = None → Forall is_digit ds → ds ≠ [] → 0 ≤ decimal ds < 2 ^ 31 →
  ExtractBlockNumber (path_of dir ds) = Ok (decimal ds).
Proof. apply ExtractBlockNumber_path. Qed.

Lemma ExtractBlockNumber_reads_witness : ExtractBlockNumber "/home/btc/blocks/blk00123.dat" = Ok 123.
Proof.
  apply (ExtractBlockNumber_reads (String.list_ascii_of_string "/home/btc/blocks")
    (String.list_ascii_of_string "00123")); [reflexivity|repeat constructor; done|done|done].
Defined.

(** A directory with "blk" in its name hides the numbers of its files. *)
Lemma ExtractBlockNumber_directory : ExtractBlockNumber "/mnt/blk2/blocks/blk00123.dat" = Ok 2.
Proof. reflexivity. Qed.

(** When the files of the list are numbered 0, 1, 2, ... in any order, [SortFiles]
    permutes them, without overflow in the comparison, so that file [n] ends at index [n]:
    the index that [blockFile] of a block record refers to. *)
Theorem SortFiles_orders b fl :
  files fl = Some b → len (elems b) < 2 ^ 31 →
  (∃ ns, Forall2 numbered ns (elems b) ∧ ns ≡ₚ seqZ 0 (len (elems b))) →
  ∃ l, SortFiles fl =
    Ok {| files := Some (Buf (addr b) l); files_count := files_count fl; totalSize := totalSize fl |} ∧
    l ≡ₚ elems b ∧ ∀ (i : nat) f, l !! i = Some f → numbered (Z.of_nat i) f.
Proof. apply SortFiles_sorted. Qed.

Lemma SortFiles_orders_witness :
  let f s := {| path_addr := 0%nat; filepath := s; isOpen := false; file := None |} in
  ∃ l, SortFiles {| files := Some (Buf 7 [f "/b/blk00002.dat"; f "/b/blk00000.dat"; f "/b/blk00001.dat"]);
                    files_count := 3; totalSize := 0 |} =
    Ok {| files := Some (Buf 7 l); files_count := 3; totalSize := 0 |} ∧
    l = [f "/b/blk00000.dat"; f "/b/blk00001.dat"; f "/b/blk00002.dat"].
Proof.
  intros f. set (b := Buf 7 [f "/b/blk00002.dat"; f "/b/blk00000.dat"; f "/b/blk00001.dat"]).
  destruct (SortFiles_orders b {| files := Some b; files_count := 3; totalSize := 0 |})
    as (l & Hl & _ & _); [done|done| |].
  - exists [2; 0; 1]. split; [repeat constructor|]. cbn. by apply (Permutation_app_comm [2] [0; 1]).
  - exists l. split; [done|]. cbn in Hl. by injection Hl as <-.
Defined.
