(* ===== verification/Parser.v ===== *)
(** * parser.c: finding the data directory and the key of the blk files

    A path buffer of [MAX_PATH_LENGTH] bytes is a string shorter than that; copying a
    longer one into it is out of bounds, [snprintf] cuts it. *)

From S2P Require Import Prelude BigInts Structs Specifics World Files.

Definition MAX_PATH_LENGTH : nat := 512.
Definition PATH_MAX : nat := 4096.

(** [MLBTCC_STATUS] *)
Definition HAS_DATADIR : Z := 0.
Definition HAS_BLOCK_INDEX_RECORD : Z := 1.
Definition HAS_CHAINSTATE : Z := 2.
Definition HAS_INDEXES : Z := 4.
Definition HAS_TXINDEX : Z := 8.
Definition HAS_COINSTAT : Z := 16.

(** The enumerators are masks, and [SET_BIT] takes them for bit numbers. *)
Definition SET_BIT (value bit : Z) : Z := u32 (Z.lor value (Z.shiftl 1 bit)).

Definition strcpy (capacity : nat) (s : string) : outcome string :=
  if (String.length s <? capacity)%nat then Ok s else Fault OutOfBounds.

(** [strstr(s, p)]: what is before the first occurrence of [p], and what follows it. *)
Fixpoint strstr (p s : string) : option (string * string) :=
  if String.prefix p s then
    Some (EmptyString, String.substring (String.length p) (String.length s - String.length p) s)
  else match s with
       | EmptyString => None
       | String c s => '(b, a) ← strstr p s; Some (String c b, a)
       end.

Definition defaultDatadirs : list string :=
  ["/home/bitcoin/.bitcoin/"; "/home/$USER/.bitcoin/";
   "/Users/$USER/Library/Application Support/Bitcoin/"; "/root/.bitcoin/";
   "/var/lib/bitcoind/"; "/mnt/data/bitcoin/"]%string.

(** A [~] is looked for but nothing replaces it; [HOME] is read and not used. *)
Definition ExpandUserDir (path : string) : M string :=
  home ← getenv "HOME";
  match strstr "$USER" path, strstr "~" path with
  | None, None => lift (strcpy MAX_PATH_LENGTH path)
  | _, _ =>
      user ← getenv "USER";
      match user with
      | None => lift (strcpy MAX_PATH_LENGTH path)
      | Some user =>
          tmp ← lift (strcpy MAX_PATH_LENGTH path);
          match strstr "$USER" tmp with
          | Some (before, after) => mret (snprintf MAX_PATH_LENGTH (before +:+ user +:+ after))
          | None => lift (strcpy MAX_PATH_LENGTH path)
          end
      end
  end.

(** The first of the directories that exists. *)
Fixpoint search (dirs : list string) : M (option string) :=
  match dirs with
  | [] => mret None
  | d :: dirs =>
      expanded ← ExpandUserDir d;
      ok ← IsDirectory expanded;
      if (ok : bool) then mret (Some expanded) else search dirs
  end.

Definition SearchDefaultDatadirs : M (option string) := search defaultDatadirs.

Definition zero_key : list Z := replicate 8 0.

Definition store_xorKey (k : list Z) : M unit := modify (λ w, set_env (set_xorKey k (w_env w)) w).

(** [fread] stores what it could read over the key that is there. *)
Definition LoadXorKey (datadir : string) : M unit :=
  let path := snprintf PATH_MAX (datadir +:+ "/blocks/xor.dat") in
  f ← fopen path;
  match f with
  | None => _ ← printf "Failed to open xor.dat"; store_xorKey zero_key
  | Some _ =>
      got ← fread 8 f;
      w ← get;
      _ ← store_xorKey (got ++ drop (length got) (xorKey (w_env w)));
      _ ← fclose f;
      if negb (len got =? 8) then _ ← printf "Invalid xor.dat file size"; store_xorKey zero_key
      else mret tt
  end.

(** The directory to use: the argument, or a default one.  [strncpy] leaves a path of 512
    bytes or more without a terminator. *)
Definition choose_datadir (path : string) : M string :=
  ok ← IsDirectory path;
  if (ok : bool) then lift (strcpy MAX_PATH_LENGTH path)
  else
    found ← SearchDefaultDatadirs;
    match found with
    | None => _ ← printf "[Error]: Could not find a valid Bitcoin datadir."; exit 1
    | Some datadir =>
        w ← get;
        _ ← printf ("Couldnt open " +:+ path +:+ " - fallback to " +:+ dataDir (w_env w));
        mret datadir
    end.

Definition set_bit (bit : Z) : M unit :=
  modify (λ w, set_env (set_status (SET_BIT (status (w_env w)) bit) (w_env w)) w).

(** [if (IsDirectory(path)) SET_BIT(gEnv.status, bit)] *)
Definition set_bit_if_directory (path : string) (bit : Z) : M unit :=
  ok ← IsDirectory path; if (ok : bool) then set_bit bit else mret tt.

Definition hex_string (l : list Z) : string :=
  String.string_of_list_ascii (map (λ c, ascii_of_N (Z.to_N c)) (take 16 (BytesToHex l))).

(** [gEnv.dataDir] is not assigned. *)
Definition ParseCoreDatadir (path : string) : M unit :=
  datadir ← choose_datadir path;
  _ ← modify (λ w, set_env (set_dirs (snprintf MAX_PATH_LENGTH (datadir +:+ "blocks/"))
                                     (snprintf MAX_PATH_LENGTH (datadir +:+ "indexes/")) (w_env w)) w);
  w ← get;
  let blocksDir := blocksDir (w_env w) in
  let indexesDir := indexesDir (w_env w) in
  ok ← IsDirectory blocksDir;
  if negb ok then _ ← printf ("[Error]: '" +:+ blocksDir +:+ "' is missing or invalid."); exit 1
  else
    _ ← LoadXorKey (dataDir (w_env w));
    w ← get;
    _ ← printf ("XORKEY: " +:+ hex_string (xorKey (w_env w)));
    _ ← set_bit HAS_DATADIR;
    ok ← IsDirectory indexesDir;
    if (ok : bool) then
      let txindex := snprintf MAX_PATH_LENGTH (indexesDir +:+ "/txindex") in
      let coinstat := snprintf MAX_PATH_LENGTH (indexesDir +:+ "/coinstat") in
      _ ← set_bit HAS_INDEXES;
      _ ← set_bit_if_directory txindex HAS_TXINDEX;
      set_bit_if_directory coinstat HAS_COINSTAT
    else mret tt.

(** ** Lemmas *)

Lemma snprintf_short n s : (String.length s < n)%nat → snprintf n s = s.
Proof.
  unfold snprintf. revert n. induction s as [|c s IH]; intros n Hn; cbn [String.length] in Hn.
  - by destruct (n - 1)%nat.
  - destruct n as [|[|n]]; [exfalso; lia|exfalso; lia|]. cbn [Nat.sub String.substring].
    specialize (IH (S n)). cbn [Nat.sub] in IH. rewrite Nat.sub_0_r in IH. rewrite IH by lia. done.
Qed.

Lemma strcpy_short n s : (String.length s < n)%nat → strcpy n s = Ok s.
Proof. unfold strcpy. intros. by rewrite (proj2 (Nat.ltb_lt _ _)). Qed.

Lemma prefix_app p s : String.prefix p (p +:+ s) = true.
Proof.
  induction p as [|c p IH]; [by destruct s|].
  change (String c p +:+ s) with (String c (p +:+ s)). cbn.
  destruct (ascii_dec c c) as [_|n]; [exact IH|by destruct n].
Qed.

Lemma substring_after p s : String.substring (String.length p) (String.length s) (p +:+ s) = s.
Proof.
  induction p as [|c p IH]; [|exact IH].
  change (EmptyString +:+ s) with s. induction s as [|c s IH]; [done|]. cbn in *. by rewrite IH.
Qed.

(** [before] holds no part of [p]: no occurrence starts in it. *)
Fixpoint clear_of (p before after : string) : Prop :=
  match before with
  | EmptyString => True
  | String c b => String.prefix p (String c (b +:+ p +:+ after)) = false ∧ clear_of p b after
  end.

Lemma strstr_found p before after :
  clear_of p before after → strstr p (before +:+ p +:+ after) = Some (before, after).
Proof.
  induction before as [|c b IH]; intros Hc; change (?x +:+ EmptyString +:+ ?y) with (x +:+ y).
  - change (EmptyString +:+ p +:+ after) with (p +:+ after).
    assert (Hs : ∀ s, strstr p s = if String.prefix p s then
      Some (EmptyString, String.substring (String.length p) (String.length s - String.length p) s)
      else match s with EmptyString => None
           | String c s => '(b, a) ← strstr p s; Some (String c b, a) end) by (by intros []).
    rewrite Hs, prefix_app, length_sapp, Nat.add_comm, Nat.add_sub, substring_after. done.
  - destruct Hc as [Hc Hb]. change (String c b +:+ p +:+ after) with (String c (b +:+ p +:+ after)).
    cbn [strstr]. rewrite Hc. by rewrite (IH Hb).
Qed.

Section parser.
Context `{Platform}.

Lemma getenv_ok name w : getenv name w = Ok (envvar (w_os w) !! name, w).
Proof. reflexivity. Qed.

Lemma IsDirectory_ok path w : IsDirectory path w = Ok (bool_decide (is_Some (dirs (w_os w) !! path)), w).
Proof. reflexivity. Qed.

Definition is_dir (w : world) (path : string) : Prop := is_Some (dirs (w_os w) !! path).

Lemma IsDirectory_true path w : is_dir w path → IsDirectory path w = Ok (true, w).
Proof. intros. by rewrite IsDirectory_ok, bool_decide_eq_true_2. Qed.

Lemma IsDirectory_false path w : ~ is_dir w path → IsDirectory path w = Ok (false, w).
Proof. intros. by rewrite IsDirectory_ok, bool_decide_eq_false_2. Qed.

(** The key a data directory has: that of its file, if the file is long enough. *)
Definition key_at (w : world) (datadir : string) : list Z :=
  match disk (w_os w) !! (datadir +:+ "/blocks/xor.dat") with
  | Some c => if 8 <=? len c then take 8 c else zero_key
  | None => zero_key
  end.

Definition key_message (w : world) (datadir : string) : list string :=
  match disk (w_os w) !! (datadir +:+ "/blocks/xor.dat") with
  | Some c => if 8 <=? len c then [] else ["Invalid xor.dat file size"%string]
  | None => ["Failed to open xor.dat"%string]
  end.

(** Handles are given in order. *)
Definition streams_ok (w : world) : Prop := streams w !! next_stream w = None.

Lemma LoadXorKey_ok datadir w :
  (String.length datadir < 4000)%nat → length (xorKey (w_env w)) = 8%nat → streams_ok w →
  ∃ n, LoadXorKey datadir w =
    Ok (tt, set_console (console w ++ key_message w datadir)
              (set_streams (streams w) n
                 (set_env (set_xorKey (key_at w datadir) (w_env w)) w))).
Proof.
  intros Hlen Hkey Hfresh. unfold LoadXorKey. rewrite snprintf_short.
  2:{ rewrite length_sapp. unfold PATH_MAX. cbn [String.length]. lia. }
  unfold key_at, key_message, fopen. unfold mbind, M_bind.
  destruct (disk (w_os w) !! (datadir +:+ "/blocks/xor.dat")) as [c|] eqn:E; cycle 1.
  { exists (next_stream w). unfold store_xorKey, printf, modify. by destruct w. }
  exists (S (next_stream w)). unfold fread, fclose, stream_of, deref, mbind, M_bind.
  cbn [mret M_ret get streams set_streams modify]. rewrite lookup_insert_eq. cbn.
  rewrite !insert_insert_eq, !lookup_insert_eq. cbn. rewrite delete_insert_id by done.
  change (Z.to_nat 0) with 0%nat. change (Z.to_nat 8) with 8%nat. rewrite drop_0.
  set (got := take 8 c).
  assert (Ht : length got = Nat.min 8 (length c)) by apply length_take.
  unfold store_xorKey, printf, modify. destruct (8 <=? len c) eqn:E8; split_bool.
  - assert (Hg : length got = 8%nat) by lia. rewrite Hg. change (negb (Z.of_nat 8 =? 8)) with false.
    cbn beta iota. rewrite drop_ge, !app_nil_r by lia. by destruct w.
  - rewrite (proj2 (Z.eqb_neq (len got) 8)) by lia. by destruct w.
Qed.

(** The bits that indexing directories set in the status. *)
Definition index_status (w : world) (indexes : string) (s : Z) : Z :=
  let if_dir p bit s := if bool_decide (is_dir w p) then SET_BIT s bit else s in
  if bool_decide (is_dir w indexes)
  then if_dir (indexes +:+ "/coinstat") HAS_COINSTAT
         (if_dir (indexes +:+ "/txindex") HAS_TXINDEX (SET_BIT s HAS_INDEXES))
  else s.

Lemma set_bit_ok bit w :
  set_bit bit w = Ok (tt, set_env (set_status (SET_BIT (status (w_env w)) bit) (w_env w)) w).
Proof. reflexivity. Qed.

Lemma set_bit_if_directory_ok path bit w :
  set_bit_if_directory path bit w =
    Ok (tt, set_env (set_status (if bool_decide (is_dir w path) then SET_BIT (status (w_env w)) bit
                                 else status (w_env w)) (w_env w)) w).
Proof.
  unfold set_bit_if_directory. rewrite (M_bind_ok _ _ _ _ _ (IsDirectory_ok path w)).
  unfold is_dir. case_bool_decide; [done|]. by destruct w as [[] ? ? ? ? ? ? ?].
Qed.

Lemma choose_datadir_argument path w :
  is_dir w path → (String.length path < MAX_PATH_LENGTH)%nat → choose_datadir path w = Ok (path, w).
Proof.
  intros Hd Hl. unfold choose_datadir. rewrite (M_bind_ok _ _ _ _ _ (IsDirectory_true path w Hd)).
  by rewrite strcpy_short.
Qed.

(** What [ParseCoreDatadir] leaves in [gEnv] for a directory. *)
Definition parsed_env (w : world) (path : string) : MLBTCC_ENV :=
  set_status (index_status w (path +:+ "indexes/") (SET_BIT (status (w_env w)) HAS_DATADIR))
    (set_xorKey (key_at w (dataDir (w_env w)))
      (set_dirs (path +:+ "blocks/") (path +:+ "indexes/") (w_env w))).

Definition parse_messages (w : world) : list string :=
  key_message w (dataDir (w_env w)) ++
  ["XORKEY: " +:+ hex_string (key_at w (dataDir (w_env w)))].

Lemma ParseCoreDatadir_ok path w :
  is_dir w path → is_dir w (path +:+ "blocks/") → (String.length path < 490)%nat →
  (String.length (dataDir (w_env w)) < 4000)%nat → length (xorKey (w_env w)) = 8%nat → streams_ok w →
  ∃ n, ParseCoreDatadir path w =
    Ok (tt, set_console (console w ++ parse_messages w)
              (set_streams (streams w) n (set_env (parsed_env w path) w))).
Proof.
  intros Hp Hb Hlen Hdd Hkey Hs. unfold ParseCoreDatadir.
  rewrite (M_bind_ok _ _ _ _ _ (choose_datadir_argument path w Hp ltac:(unfold MAX_PATH_LENGTH; lia))).
  rewrite !snprintf_short by (rewrite length_sapp; unfold MAX_PATH_LENGTH; cbn [String.length]; lia).
  rewrite M_modify, M_get.
  set (w1 := set_env (set_dirs (path +:+ "blocks/") (path +:+ "indexes/") (w_env w)) w).
  cbn [w_env w1 set_env blocksDir indexesDir set_dirs].
  rewrite (M_bind_ok _ _ _ _ _ (IsDirectory_true (path +:+ "blocks/") w1 Hb)). cbn [negb].
  destruct (LoadXorKey_ok (dataDir (w_env w)) w1 Hdd Hkey Hs) as (n & E). exists n.
  rewrite (M_bind_ok _ _ _ _ _ E), M_get. clear E. unfold printf at 1. rewrite M_modify.
  rewrite (M_bind_ok _ _ _ _ _ (set_bit_ok _ _)), (M_bind_ok _ _ _ _ _ (IsDirectory_ok _ _)).
  unfold parsed_env, index_status, is_dir, parse_messages. rewrite app_assoc.
  cbn [w_os set_env set_console set_streams w1]. case_bool_decide as Hi.
  - rewrite (M_bind_ok _ _ _ _ _ (set_bit_ok _ _)).
    rewrite (M_bind_ok _ _ _ _ _ (set_bit_if_directory_ok _ _ _)), set_bit_if_directory_ok.
    rewrite !snprintf_short
      by (rewrite !length_sapp; unfold MAX_PATH_LENGTH; cbn [String.length]; lia).
    by destruct w as [[] ? ? ? ? ? ? ?].
  - by destruct w as [[] ? ? ? ? ? ? ?].
Qed.

(** A directory with the name of the user in it. *)
Definition expand (user : option string) (d : string) : string :=
  match strstr "$USER" d, user with
  | Some (before, after), Some u => before +:+ u +:+ after
  | _, _ => d
  end.

Lemma strstr_split p s b a :
  strstr p s = Some (b, a) → (String.length s = String.length b + String.length p + String.length a)%nat.
Proof.
  revert b. assert (Hlen : ∀ s n m, (m + n ≤ String.length s)%nat → String.length (String.substring m n s) = n).
  { clear. induction s as [|c s IH]; intros [|n] [|m] Hl; cbn in *; rewrite ?IH; lia. }
  assert (Hpre : ∀ p s, String.prefix p s = true → (String.length p ≤ String.length s)%nat).
  { clear. induction p as [|c p IH]; intros [|d s] Hp; cbn in *; try lia; try done.
    destruct (ascii_dec c d); [apply IH in Hp; lia|done]. }
  assert (Hs : ∀ s, strstr p s = if String.prefix p s then
    Some (EmptyString, String.substring (String.length p) (String.length s - String.length p) s)
    else match s with EmptyString => None
         | String c s => '(b, a) ← strstr p s; Some (String c b, a) end) by (by intros []).
  induction s as [|c s IH]; intros b; rewrite Hs; destruct (String.prefix p _) eqn:E; intros Hb; try done.
  - destruct p; [by injection Hb as <- <-|done].
  - apply Hpre in E. apply (inj Some), pair_eq in Hb as [<- <-]. rewrite Hlen by lia. cbn [String.length] in *. lia.
  - destruct (strstr p s) as [[b' a']|] eqn:E'; [|done]. injection Hb as <- <-.
    specialize (IH b' eq_refl). cbn [String.length] in *. lia.
Qed.

Lemma ExpandUserDir_ok d w :
  (String.length d + default 0%nat (String.length <$> envvar (w_os w) !! "USER"%string) < 512)%nat →
  ExpandUserDir d w = Ok (expand (envvar (w_os w) !! "USER"%string) d, w).
Proof.
  intros Hl. unfold ExpandUserDir, expand. rewrite (M_bind_ok _ _ _ _ _ (getenv_ok _ _)).
  assert (Hd : strcpy MAX_PATH_LENGTH d = Ok d) by (apply strcpy_short; unfold MAX_PATH_LENGTH; lia).
  destruct (strstr "$USER" d) as [[b a]|] eqn:E; [|destruct (strstr "~" d)].
  - rewrite (M_bind_ok _ _ _ _ _ (getenv_ok _ _)).
    destruct (envvar (w_os w) !! "USER"%string) as [u|] eqn:Eu.
    + change (String.length d + String.length u < 512)%nat in Hl. rewrite (M_lift_ok _ _ _ _ Hd), E, snprintf_short; [done|].
      apply strstr_split in E. rewrite !length_sapp. unfold MAX_PATH_LENGTH.
      change (String.length "$USER") with 5%nat in E. lia.
    + unfold lift. by rewrite Hd.
  - rewrite (M_bind_ok _ _ _ _ _ (getenv_ok _ _)). destruct (envvar (w_os w) !! "USER"%string).
    + rewrite (M_lift_ok _ _ _ _ Hd), E. unfold lift. by rewrite Hd.
    + unfold lift. by rewrite Hd.
  - unfold lift. by rewrite Hd.
Qed.

(** The length of the user's name. *)
Definition user_length (w : world) : nat :=
  default 0%nat (String.length <$> envvar (w_os w) !! "USER"%string).

Lemma search_ok l w :
  Forall (λ d, String.length d + user_length w < 512)%nat l →
  search l w =
    Ok (snd <$> list_find (is_dir w) (map (expand (envvar (w_os w) !! "USER"%string)) l), w).
Proof.
  induction 1 as [|d l Hd Hl IH]; [done|]. cbn [search map list_find].
  rewrite (M_bind_ok _ _ _ _ _ (ExpandUserDir_ok d w Hd)), (M_bind_ok _ _ _ _ _ (IsDirectory_ok _ _)).
  unfold is_dir at 2. case_bool_decide as Hi.
  - by rewrite decide_True.
  - rewrite decide_False by done. rewrite IH. by destruct (list_find _ _) as [[]|].
Qed.

Lemma default_lengths w :
  (user_length w < 400)%nat →
  Forall (λ d, String.length d + user_length w < 512)%nat defaultDatadirs.
Proof.
  generalize (user_length w). intros n Hn. unfold defaultDatadirs.
  repeat (apply Forall_cons_2; [cbn [String.length]; lia|]). apply Forall_nil_2.
Qed.
End parser.

(** ** Properties *)

(** [SearchDefaultDatadirs] gives the first of the six default directories, with the
    user's name for $USER when the environment has one, that exists; none if none does. *)
Theorem SearchDefaultDatadirs_first w :
  (user_length w < 400)%nat →
  SearchDefaultDatadirs w =
    Ok (snd <$> list_find (is_dir w) (map (expand (envvar (w_os w) !! "USER"%string)) defaultDatadirs), w).
Proof.
  intros Hl. apply search_ok. by apply default_lengths.
Qed.

Definition user_world : world :=
  set_os {| disk := ∅; envvar := {["USER"%string := "satoshi"%string]};
            dirs := {["/home/satoshi/.bitcoin/"%string := []]} |} empty_world.

Lemma SearchDefaultDatadirs_first_witness :
  SearchDefaultDatadirs user_world = Ok (Some "/home/satoshi/.bitcoin/"%string, user_world).
Proof.
  rewrite (SearchDefaultDatadirs_first user_world); [by vm_compute|].
  apply Nat.ltb_lt. by vm_compute.
Defined.

(** Given a directory with a blocks directory in it, [ParseCoreDatadir] sets the
    paths, the key - eight bytes of the xor.dat below [gEnv.dataDir], or zeroes when it is
    missing or short - and the status bits of the index directories that exist, prints the
    key and leaves the rest of [gEnv], the open streams and the file system alone. *)
Theorem ParseCoreDatadir_sets path w :
  is_dir w path → is_dir w (path +:+ "blocks/") → (String.length path < 490)%nat →
  (String.length (dataDir (w_env w)) < 4000)%nat → length (xorKey (w_env w)) = 8%nat → streams_ok w →
  ∃ n, ParseCoreDatadir path w =
    Ok (tt, set_console (console w ++ parse_messages w)
              (set_streams (streams w) n (set_env (parsed_env w path) w))).
Proof. apply ParseCoreDatadir_ok. Qed.

Definition core_world : world :=
  set_os {| disk := {["/blocks/xor.dat"%string := [1; 2; 3; 4; 5; 6; 7; 8]]}; envvar := ∅;
            dirs := {["/root/btc/"%string := []; "/root/btc/blocks/"%string := [];
                      "/root/btc/indexes/"%string := []]} |} empty_world.

Lemma ParseCoreDatadir_sets_witness :
  ∃ w', ParseCoreDatadir "/root/btc/" core_world = Ok (tt, w') ∧
    blocksDir (w_env w') = "/root/btc/blocks/"%string ∧ xorKey (w_env w') = [1; 2; 3; 4; 5; 6; 7; 8] ∧
    status (w_env w') = 17 ∧ console w' = ["XORKEY: 0102030405060708"%string].
Proof.
  destruct (ParseCoreDatadir_sets "/root/btc/" core_world) as (n & E).
  - by exists [].
  - by exists [].
  - apply Nat.ltb_lt. by vm_compute.
  - apply Nat.ltb_lt. by vm_compute.
  - done.
  - done.
  - eexists. split; [exact E|]. split_and!; by vm_compute.
Defined.

(** With no directory given and no default one, or without a blocks directory,
    [ParseCoreDatadir] exits with status 1. *)
Theorem ParseCoreDatadir_rejects path w :
  (user_length w < 400)%nat →
  (~ is_dir w path ∧
   Forall (λ d, ~ is_dir w (expand (envvar (w_os w) !! "USER"%string) d)) defaultDatadirs) ∨
  (is_dir w path ∧ (String.length path < 490)%nat ∧ ~ is_dir w (path +:+ "blocks/")) →
  ParseCoreDatadir path w = Exits 1.
Proof.
  intros Hl [[Hp Hd]|(Hp & Hlen & Hb)]; unfold ParseCoreDatadir.
  - unfold mbind at 1, M_bind at 1. unfold choose_datadir.
    rewrite (M_bind_ok _ _ _ _ _ (IsDirectory_false path w Hp)).
    unfold SearchDefaultDatadirs. rewrite (M_bind_ok (search _) _ w None w); [done|].
    rewrite search_ok.
    + rewrite (proj2 (list_find_None _ _)); [done|]. by apply Forall_map.
    + by apply default_lengths.
  - rewrite (M_bind_ok _ _ _ _ _ (choose_datadir_argument path w Hp ltac:(unfold MAX_PATH_LENGTH; lia))).
    rewrite M_modify, M_get, !snprintf_short
      by (rewrite length_sapp; unfold MAX_PATH_LENGTH; cbn [String.length]; lia).
    set (w1 := set_env _ w). cbn [w_env w1 set_env blocksDir set_dirs].
    by rewrite (M_bind_ok _ _ _ _ _ (IsDirectory_false (path +:+ "blocks/") w1 Hb)).
Qed.

Lemma ParseCoreDatadir_rejects_witness : ParseCoreDatadir "/srv/btc/" empty_world = Exits 1.
Proof.
  apply (ParseCoreDatadir_rejects "/srv/btc/" empty_world); [apply Nat.ltb_lt; by vm_compute|].
  left. split; [by intros []|]. repeat (apply Forall_cons_2; [by intros []|]). apply Forall_nil_2.
Defined.

(** The masks are taken for bit numbers: the bit set for the indexes is 4, that is 16. *)
Lemma SET_BIT_masks : SET_BIT 0 HAS_INDEXES = HAS_COINSTAT ∧ Z.testbit (SET_BIT 0 HAS_INDEXES) 2 = false.
Proof. done. Qed.
