(* ===== verification/Api.v ===== *)
(** * API.c and mlbtcc.c: the functions the library exports

    They read the index and the list of files in [gEnv]; heights and counts are [int]s,
    indices of the loops [U64]s. *)

From S2P Require Import Prelude BigInts Sha256 Structs Specifics World ReadTxn FreeStructs OpenFiles BlkDat.
From S2P Require Import Printing Files LevelDB Indexing Parser.

Definition Mib : Z := 1024 * 1024.
Definition Gib : Z := 1024 * Mib.

(** ** One block *)

(** [gIndexRecords.blockIndexRecord[i]]; a place of the array that was not stored to is
    indeterminate. *)
Definition index_record (i : Z) : M BlockIndexRecord :=
  w ← get;
  if i <? 0 then fail OutOfBounds else
  match blockIndexRecord (indexRecords (w_env w)) !! Z.to_nat i with
  | Some (Some r) => mret r
  | Some None => fail Uninitialised
  | None => fail OutOfBounds
  end.

Definition with_height (b : Block) (h : Z) : Block :=
  {| magic := magic b; blockSize := blockSize b; txCount := txCount b; blk_hash := blk_hash b;
     height := Some h; header := header b; transactions := transactions b |}.

Section api.
Context `{Platform}.

Definition GetBlock (height : Z) : M Block :=
  r ← index_record height;
  block ← ReadBlockFromBlkDatFile (Z.to_nat (blockFile r)) (blockOffset r);
  mret (with_height block (u64 height)).

(** ** A range of blocks *)

(** [count * 4 * Mib > 4 * Gib]: an [int] product, then one of [unsigned long long]. *)
Definition too_many (count : Z) : outcome bool :=
  c ← int_result (count * 4); Ok (4 * Gib <? u64 (u64 c * Mib)).

Fixpoint fill_blocks (n : nat) (height i : Z) (p : option nat) : M (list Block) :=
  match n with
  | O => mret []
  | S n =>
      h ← lift (int_result (height + i));
      block ← GetBlock h;
      _ ← deref p;
      rest ← fill_blocks n height (i + 1) p;
      mret (block :: rest)
  end.

Definition no_blocks : Blocks := {| blocks := None; blocks_count := 0 |}.

Definition GetBlocks (height count : Z) : M Blocks :=
  bad ← lift (too_many count);
  if (bad : bool) then _ ← printf "Error Getting blocks"; mret no_blocks
  else
    p ← malloc (u64 (sizeof (TStruct Block_fields) * u64 count));
    l ← fill_blocks (Z.to_nat count) height 0 p;
    mret {| blocks := (λ a, Buf a l) <$> p; blocks_count := u64 count |}.

Definition GetBlockHeader (height : Z) : M (option BlockHeader) :=
  r ← index_record height; mret (blockHeader r).

(** ** Blocks of a day *)

(** [timestamp % 60 * 60 * 24]: the macro [SECONDS_PER_DAY] has no parentheses. *)
Definition day_start (timestamp : Z) : Z :=
  u32 (timestamp - u32 (u32 (timestamp mod 60 * 60) * 24)).
Definition day_end (start : Z) : Z := u32 (u32 (start + 60 * 60 * 24) - 1).

Definition block_time (i : Z) : M Z :=
  r ← index_record i;
  match blockHeader r with Some h => mret (hdr_time h) | None => fail Uninitialised end.

Definition in_day (start till t : Z) : bool := (start <=? t) && (t <=? till).

Definition get_indexed_block (i : Z) : M Block :=
  r ← index_record i; GetBlock (s32 (bir_height r)).

(** The loop from index [i] on, with [n] records left. *)
Fixpoint first_block_of_day (n : nat) (i start till : Z) : M Block :=
  match n with
  | O => mret InitBlock
  | S n =>
      t ← block_time i;
      if in_day start till t then get_indexed_block i else first_block_of_day n (i + 1) start till
  end.

Definition index_count : M Z := w ← get; mret (blockIndexRecordCount (indexRecords (w_env w))).

Definition GetFirstBlockOfDate (timestamp : Z) : M Block :=
  n ← index_count;
  first_block_of_day (Z.to_nat n) 0 (day_start timestamp) (day_end (day_start timestamp)).

(** The loop down from index [n]. *)
Fixpoint last_block_of_day (n : nat) (start till : Z) : M Block :=
  match n with
  | O => mret InitBlock
  | S n' =>
      t ← block_time (Z.of_nat n);
      if in_day start till t then get_indexed_block (Z.of_nat n) else last_block_of_day n' start till
  end.

Definition GetLastBlockOfDate (timestamp : Z) : M Block :=
  n ← index_count;
  last_block_of_day (Z.to_nat n) (day_start timestamp) (day_end (day_start timestamp)).

(** The first and last index in the day; the loop ends at the first later block. *)
Fixpoint day_bounds (n : nat) (i start till first last : Z) : M (Z * Z) :=
  match n with
  | O => mret (first, last)
  | S n =>
      t ← block_time i;
      if in_day start till t
      then day_bounds n (i + 1) start till (if first =? -1 then i else first) i
      else if till <? t then mret (first, last)
      else day_bounds n (i + 1) start till first last
  end.

Definition GetBlocksOfDay (timestamp : Z) : M Blocks :=
  n ← index_count;
  '(first, last) ← day_bounds (Z.to_nat n) 0 (day_start timestamp) (day_end (day_start timestamp)) (-1) (-1);
  if (first =? -1) || (last =? -1) then mret no_blocks
  else
    a ← index_record first;
    b ← index_record last;
    let count := u32 (u64 (u64 (bir_height b - bir_height a) + 1)) in
    GetBlocks (s32 (bir_height a)) (s32 count).

(** ** Statistics *)

(** A field of [stats] after [memset(&stats, 0, sizeof(Block))], which does not reach the
    end of a [BlockStats]: the bytes after it are those the stack held. *)
Definition cleared (f : string) : Z :=
  match extent_of f BlockStats_fields with
  | Some (lo, hi) =>
      le_value (map (λ i, if Z.of_nat i <? sizeof (TStruct Block_fields) then 0 else junk i)
                    (seq (Z.to_nat lo) (Z.to_nat (hi - lo))))
  | None => 0
  end.

Fixpoint sum_amounts (n : nat) (j : nat) (l : list Output) (acc : Z) : outcome Z :=
  match n with
  | O => Ok acc
  | S n => match l !! j with
           | Some o => sum_amounts n (S j) l (u64 (acc + amount o))
           | None => Fault OutOfBounds
           end
  end.

(** [ins], [outs], [totalSize] and [totalOut] over the transactions from [i] on. *)
Fixpoint sum_txs (n : nat) (i : nat) (l : list Transaction) (acc : Z * Z * Z * Z) : outcome (Z * Z * Z * Z) :=
  match n with
  | O => Ok acc
  | S n => match l !! i with
           | Some tx =>
               let '(n_in, n_out, size, out) := acc in
               out ← sum_amounts (Z.to_nat (outputCount tx)) 0 (elems (outputs tx)) out;
               sum_txs n (S i) l (u64 (n_in + inputCount tx), u64 (n_out + outputCount tx),
                                  u64 (size + tx_size tx), out)
           | None => Fault OutOfBounds
           end
  end.

Definition GetBlockStats (block : Block) : outcome BlockStats :=
  l ← match transactions block with
      | Some b => Ok (elems b)
      | None => if txCount block =? 0 then Ok [] else Fault NullPointer
      end;
  '(n_in, n_out, size, out) ← sum_txs (Z.to_nat (txCount block)) 0 l
      (cleared "ins", cleared "outs", cleared "totalSize", cleared "totalOut");
  Ok {| avgFee := cleared "avgFee"; avgFeeRate := cleared "avgFeeRate";
        avgTxSize := cleared "avgTxSize"; stats_blockHash := blk_hash block;
        stats_height := default (cleared "height") (height block);
        ins := n_in; maxFee := cleared "maxFee"; maxTxSize := cleared "maxTxSize";
        minFee := cleared "minFee"; minFeeRate := cleared "minFeeRate"; outs := n_out;
        subsidy := cleared "subsidy"; swTotalSize := cleared "swTotalSize";
        swTotalWeight := cleared "swTotalWeight"; swTx := cleared "swTx";
        stats_time := hdr_time (header block); totalOut := out; Structs.totalSize := size;
        totalWeight := cleared "totalWeight"; totalFee := cleared "totalFee";
        txs := cleared "txs"; utxoIncrease := cleared "utxoIncrease" |}.

(** ** Initialisation *)

Definition InitMLBTCC `{LevelDB} (fuel : nat) (path : string) : M unit :=
  _ ← modify (set_env empty_env);
  _ ← ParseCoreDatadir path;
  IndexCoreDatadir fuel.

End api.

(** ** Blocks that can be read *)

(** The index has a record for the height, and the file it names holds the block. *)
Definition has_block (w : world) (h : Z) (b : wire_block) : Prop :=
  ∃ r info c, blockIndexRecord (indexRecords (w_env w)) !! Z.to_nat h = Some (Some r) ∧
    infos w !! Z.to_nat (blockFile r) = Some info ∧
    disk (w_os w) !! filepath info = Some c ∧ len c ≤ MAX_BLOCKFILE_SIZE ∧
    wf_block b ∧ stored_at (xorKey (w_env w)) c (blockOffset r) b.

(** The world afterwards: the cache and the heap in order, nothing printed, the same
    files, paths, key and index. *)
Record after (w w' : world) : Prop := {
  af_cache : cache_ok w';
  af_heap : heap_ok w';
  af_console : console w' = console w;
  af_os : w_os w' = w_os w;
  af_key : xorKey (w_env w') = xorKey (w_env w);
  af_index : indexRecords (w_env w') = indexRecords (w_env w);
  af_paths : filepath <$> infos w' = filepath <$> infos w
}.

#[export] Instance after_trans : Transitive after.
Proof. intros w1 w2 w3 [] []. split; first [done|congruence]. Qed.

Lemma has_block_after w w' h b : after w w' → has_block w h b → has_block w' h b.
Proof.
  intros [_ _ _ Eo Ek Ei Ep] (r & info & c & Hr & Hi & Hd & Hrest).
  assert (E : filepath <$> infos w' !! Z.to_nat (blockFile r) = Some (filepath info))
    by (by rewrite <- list_lookup_fmap, Ep, list_lookup_fmap, Hi).
  destruct (infos w' !! Z.to_nat (blockFile r)) as [info'|] eqn:Hi'; [|done].
  injection E as E. exists r, info', c. rewrite Ei, Eo, Ek, E. done.
Qed.

Lemma after_frame w w' n l : cache_ok w' → heap_ok w → within (next (w_heap w)) n l →
  frame (grow n l w) w' → after w w'.
Proof.
  intros Hc Hw Hl []. split; try done. unfold heap_ok. rewrite fr_heap.
  by apply (heap_ok_grow n l w).
Qed.

Section blocks.
Context `{Platform}.

Lemma index_record_ok h r w :
  0 ≤ h → blockIndexRecord (indexRecords (w_env w)) !! Z.to_nat h = Some (Some r) →
  index_record h w = Ok (r, w).
Proof. intros Hh Hr. unfold index_record. rewrite M_get, (proj2 (Z.ltb_ge _ _)) by done. by rewrite Hr. Qed.

Lemma GetBlock_ok w h b :
  no_oom → cache_ok w → heap_ok w → 0 ≤ h < 2 ^ 31 → has_block w h b →
  ∃ w', GetBlock h w = Ok (with_height (load_block (S (next (w_heap w))) b) h, w') ∧
    live (w_heap w') = live (w_heap w) ∪ list_to_set (foot_txs (S (next (w_heap w))) (b_txs b)) ∧
    after w w'.
Proof.
  intros Ho Hc Hw Hh (r & info & c & Hr & Hi & Hd & Hl & Hwf & Hst).
  destruct (ReadBlock_ok w _ info c _ b Ho Hc Hw Hi Hd Hl Hwf Hst) as (w' & E & Hc' & Hf).
  exists w'. unfold GetBlock. rewrite (M_bind_ok _ _ _ _ _ (index_record_ok h r w (proj1 Hh) Hr)).
  rewrite (M_bind_ok _ _ _ _ _ E), wrap_small by (unfold in_width; lia).
  split; [done|]. split; [by rewrite (fr_heap _ _ Hf)|].
  apply (after_frame _ _ _ _ Hc' Hw) with (2 := Hf).
  pose proof (foot_txs_within (S (next (w_heap w))) (b_txs b)) as Hwi.
  eapply within_widen; [exact Hwi|lia|lia].
Qed.

(** The blocks of a list, each as the structures at some address. *)
Definition loaded_at (h : Z) (b : wire_block) (blk : Block) : Prop :=
  ∃ a, blk = with_height (load_block a b) h.

Lemma fill_blocks_ok bs w h i p :
  no_oom → cache_ok w → heap_ok w → 0 ≤ i → 0 ≤ h → h + i + len bs < 2 ^ 31 →
  (∀ (k : nat) b, bs !! k = Some b → has_block w (h + i + Z.of_nat k) b) →
  ∃ l w', fill_blocks (length bs) h i (Some p) w = Ok (l, w') ∧ length l = length bs ∧
    (∀ (k : nat) b, bs !! k = Some b → ∃ blk, l !! k = Some blk ∧ loaded_at (h + i + Z.of_nat k) b blk) ∧
    (cache_ok w' ∧ heap_ok w' ∧ console w' = console w).
Proof.
  intros Ho. revert w i. induction bs as [|b bs IH]; intros w i Hc Hw Hi Hh Hmax Hb; cbn [fill_blocks length].
  { exists [], w. done. }
  cbn [length] in Hmax. rewrite (M_lift_ok _ _ _ w (int_result_ok (h + i) ltac:(lia))).
  assert (H0 : has_block w (h + i) b) by (replace (h + i) with (h + i + Z.of_nat 0) by lia; by apply Hb).
  destruct (GetBlock_ok w (h + i) b Ho Hc Hw ltac:(lia) H0) as (w1 & E & _ & Ha).
  rewrite (M_bind_ok _ _ _ _ _ E). cbn [deref]. rewrite M_bind_ret.
  destruct (IH w1 (i + 1)) as (l & w2 & E2 & Hlen & Hl & Hc2 & Hw2 & Hco).
  - apply Ha.
  - apply Ha.
  - lia.
  - lia.
  - lia.
  - intros k b' Hk. apply (has_block_after w); [done|].
    replace (h + (i + 1) + Z.of_nat k) with (h + i + Z.of_nat (S k)) by lia. by apply Hb.
  - rewrite (M_bind_ok _ _ _ _ _ E2). eexists _, w2. split; [reflexivity|].
    split; [cbn; lia|]. split; [|split_and!; [done..|by rewrite Hco, (af_console _ _ Ha)]].
    intros [|k] b' Hk; cbn in Hk |- *.
    + simplify_eq. eexists. split; [done|]. eexists. f_equal. lia.
    + destruct (Hl k b' Hk) as (blk & Hbk & a & ->). eexists. split; [done|]. exists a. f_equal. lia.
Qed.

Lemma too_many_false count : 0 ≤ count ≤ 1024 → too_many count = Ok false.
Proof.
  intros Hc. unfold too_many. rewrite int_result_ok, outcome_bind_ok by lia.
  rewrite (wrap_small 64 (count * 4)), wrap_small by (unfold in_width, Mib; lia).
  f_equal. apply Z.ltb_ge. unfold Gib, Mib. lia.
Qed.

End blocks.

(** ** The index as the loops see it *)

(** The records the index counts, all decoded with their header. *)
Definition indexed (w : world) (rs : list BlockIndexRecord) (rest : list (option BlockIndexRecord)) : Prop :=
  blockIndexRecord (indexRecords (w_env w)) = map Some rs ++ rest ∧
  blockIndexRecordCount (indexRecords (w_env w)) = len rs ∧
  Forall (λ r, is_Some (blockHeader r)) rs.

Definition record_time (r : BlockIndexRecord) : Z :=
  match blockHeader r with Some h => hdr_time h | None => 0 end.

(** The day of [timestamp], as the macro has it. *)
Definition of_day (timestamp : Z) (r : BlockIndexRecord) : bool :=
  in_day (day_start timestamp) (day_end (day_start timestamp)) (record_time r).

Section days.
Context `{Platform}.

Lemma indexed_record w rs rest i r :
  indexed w rs rest → rs !! i = Some r → index_record (Z.of_nat i) w = Ok (r, w).
Proof.
  intros (He & _ & _) Hr. apply index_record_ok; [lia|].
  rewrite He, Nat2Z.id, lookup_app_l by (rewrite length_map; by eapply lookup_lt_Some).
  by rewrite list_lookup_fmap, Hr.
Qed.

Lemma indexed_time w rs rest i r :
  indexed w rs rest → rs !! i = Some r → block_time (Z.of_nat i) w = Ok (record_time r, w).
Proof.
  intros Hx Hr. unfold block_time. rewrite (M_bind_ok _ _ _ _ _ (indexed_record w rs rest i r Hx Hr)).
  destruct Hx as (_ & _ & Hh). rewrite Forall_lookup in Hh. destruct (Hh i r Hr) as [h E].
  unfold record_time. by rewrite E.
Qed.

Lemma first_block_of_day_ok w rs rest timestamp i n :
  indexed w rs rest → (i + n = length rs)%nat →
  first_block_of_day n (Z.of_nat i) (day_start timestamp) (day_end (day_start timestamp)) w =
    match list_find (of_day timestamp) (drop i rs) with
    | Some (_, r) => GetBlock (s32 (bir_height r)) w
    | None => Ok (InitBlock, w)
    end.
Proof.
  intros Hx. revert i. induction n as [|n IH]; intros i Hn; cbn [first_block_of_day].
  - rewrite drop_ge by lia. done.
  - destruct (lookup_lt_is_Some_2 rs i ltac:(lia)) as [r Hr].
    rewrite (M_bind_ok _ _ _ _ _ (indexed_time w rs rest i r Hx Hr)).
    rewrite (drop_S _ _ _ Hr). cbn [list_find].
    change (in_day _ _ (record_time r)) with (of_day timestamp r).
    destruct (of_day timestamp r) eqn:E.
    + rewrite decide_True by done. unfold get_indexed_block.
      by rewrite (M_bind_ok _ _ _ _ _ (indexed_record w rs rest i r Hx Hr)).
    + rewrite decide_False by (by intros []). replace (Z.of_nat i + 1) with (Z.of_nat (S i)) by lia.
      rewrite IH by lia. by destruct (list_find _ _) as [[]|].
Qed.

(** The two phases of [day_bounds]: up to the day, and in it. *)
Lemma day_bounds_skip w rs rest start till i n k :
  indexed w rs rest → start ≤ till →
  Forall (λ r, record_time r < start) (take k (drop i rs)) → (i + k + n = length rs)%nat →
  day_bounds (k + n) (Z.of_nat i) start till (-1) (-1) w =
    day_bounds n (Z.of_nat (i + k)) start till (-1) (-1) w.
Proof.
  intros Hx Hst. revert i. induction k as [|k IH]; intros i Hall Hn; [by rewrite Nat.add_0_r|].
  destruct (lookup_lt_is_Some_2 rs i ltac:(lia)) as [r Hr].
  rewrite (drop_S _ _ _ Hr) in Hall. cbn [take] in Hall. apply Forall_cons in Hall as [Hlt Hall].
  cbn [Nat.add day_bounds]. rewrite (M_bind_ok _ _ _ _ _ (indexed_time w rs rest i r Hx Hr)).
  unfold in_day. rewrite (proj2 (Z.leb_gt start _)), (proj2 (Z.ltb_ge till _)) by lia. cbn [andb].
  replace (Z.of_nat i + 1) with (Z.of_nat (S i)) by lia. rewrite IH by (done || lia).
  f_equal; lia.
Qed.

Lemma day_bounds_run w rs rest start till i n k first last r :
  indexed w rs rest → 0 ≤ first → rs !! (i + k)%nat = Some r → start ≤ record_time r →
  Forall (λ r, record_time r ≤ till) (take (S k) (drop i rs)) → (i + S k + n = length rs)%nat →
  day_bounds (S k + n) (Z.of_nat i) start till first last w =
    day_bounds n (Z.of_nat (i + S k)) start till first (Z.of_nat (i + k)) w.
Proof.
  intros Hx Hf Hlast Hge. revert i last Hlast.
  induction k as [|k IH]; intros i last Hlast Hall Hn;
    (destruct (lookup_lt_is_Some_2 rs i ltac:(lia)) as [r' Hr];
     rewrite (drop_S _ _ _ Hr) in Hall; cbn [take] in Hall; apply Forall_cons in Hall as [Hle Hall];
     change (day_bounds (S ?m + n)) with (day_bounds (S (m + n))); cbn [day_bounds];
     rewrite (M_bind_ok _ _ _ _ _ (indexed_time w rs rest i r' Hx Hr));
     replace (Z.of_nat i + 1) with (Z.of_nat (S i)) by lia).
  - rewrite Nat.add_0_r in *. assert (r' = r) as -> by congruence.
    unfold in_day. rewrite (proj2 (Z.leb_le start _)), (proj2 (Z.leb_le _ till)) by lia. cbn [andb].
    rewrite (proj2 (Z.eqb_neq first _)) by lia. cbn [Nat.add]. f_equal; lia.
  - assert (Hnext : ∀ la, day_bounds (S k + n) (Z.of_nat (S i)) start till first la w =
      day_bounds n (Z.of_nat (S i + S k)) start till first (Z.of_nat (S i + k)) w).
    { intros la. apply IH; [by replace (S i + k)%nat with (i + S k)%nat by lia|exact Hall|lia]. }
    replace (i + S (S k))%nat with (S i + S k)%nat by lia.
    replace (i + S k)%nat with (S i + k)%nat by lia.
    destruct (in_day start till (record_time r')); [|rewrite (proj2 (Z.ltb_ge till _)) by lia].
    + rewrite (proj2 (Z.eqb_neq first _)) by lia. apply Hnext.
    + apply Hnext.
Qed.

End days.

(** The loop ends at the end of the records, or at one after the day. *)
Lemma day_bounds_end `{Platform} w rs rest start till i n first last :
  indexed w rs rest → (i + n = length rs)%nat →
  (∀ r, rs !! i = Some r → till < record_time r) →
  day_bounds n (Z.of_nat i) start till first last w = Ok ((first, last), w).
Proof.
  intros Hx Hn Hpost. destruct n as [|n]; [done|]. cbn [day_bounds].
  destruct (lookup_lt_is_Some_2 rs i ltac:(lia)) as [r Hr]. specialize (Hpost r Hr).
  rewrite (M_bind_ok _ _ _ _ _ (indexed_time w rs rest i r Hx Hr)). unfold in_day.
  rewrite (proj2 (Z.leb_gt _ till)), (proj2 (Z.ltb_lt till _)) by lia. by rewrite andb_false_r.
Qed.

(** The records of [rs] from [f] to [l] are a day: none before [f] reaches it, those at
    [f] and [l] are in it, none up to [l] is later, and the one after [l] is. *)
Record day_run (start till : Z) (rs : list BlockIndexRecord) (f l : nat) : Prop := {
  run_order : (f ≤ l)%nat;
  run_before : Forall (λ r, record_time r < start) (take f rs);
  run_first : ∃ r, rs !! f = Some r ∧ in_day start till (record_time r) = true;
  run_last : ∃ r, rs !! l = Some r ∧ in_day start till (record_time r) = true;
  run_within : Forall (λ r, record_time r ≤ till) (take (S l) rs);
  run_after : ∀ r, rs !! S l = Some r → till < record_time r
}.

Lemma day_bounds_ok `{Platform} w rs rest start till f l :
  indexed w rs rest → day_run start till rs f l →
  day_bounds (length rs) 0 start till (-1) (-1) w = Ok ((Z.of_nat f, Z.of_nat l), w).
Proof.
  intros Hx [Hfl Hb (rf & Hrf & Hif) (rl & Hrl & Hil) Hw Ha].
  pose proof (lookup_lt_Some _ _ _ Hrl) as Hlen.
  assert (Hd : start ≤ record_time rf ≤ till ∧ start ≤ record_time rl) by (unfold in_day in *; split_bool; lia).
  replace (length rs) with (f + (S (l - f) + (length rs - S l)))%nat by lia.
  rewrite (day_bounds_skip w rs rest start till 0 _ f Hx) by (done || lia). cbn [Nat.add].
  change (S (l - f) + ?m)%nat with (S (l - f + m)). cbn [day_bounds].
  rewrite (M_bind_ok _ _ _ _ _ (indexed_time w rs rest f rf Hx Hrf)), Hif. cbn [Z.eqb Pos.eqb].
  replace (Z.of_nat f + 1) with (Z.of_nat (S f)) by lia.
  destruct (decide (f = l)) as [->|Hne].
  - rewrite Nat.sub_diag. cbn [Nat.add]. apply (day_bounds_end w rs rest); [done|lia|done].
  - replace (l - f)%nat with (S (l - S f)) by lia.
    rewrite (day_bounds_run w rs rest start till (S f) _ (l - S f) _ _ rl Hx); [|lia| |lia| |lia].
    + replace (S f + S (l - S f))%nat with (S l) by lia. replace (S f + (l - S f))%nat with l by lia.
      apply (day_bounds_end w rs rest); [done|lia|done].
    + by replace (S f + (l - S f))%nat with l by lia.
    + rewrite take_drop_commute. apply Forall_drop. by replace (S f + S (l - S f))%nat with (S l) by lia.
Qed.

(** Sums over lists. *)
Definition total {A} (f : A → Z) (l : list A) : Z := fold_right (λ x s, f x + s) 0 l.

Lemma sum_amounts_ok pre l acc :
  sum_amounts (length l) (length pre) (pre ++ l) (u64 acc) = Ok (u64 (acc + total amount l)).
Proof.
  revert pre acc. induction l as [|o l IH]; intros pre acc; cbn [sum_amounts length total fold_right].
  - by rewrite Z.add_0_r.
  - rewrite lookup_app_r, Nat.sub_diag by lia. cbn [lookup list_lookup].
    specialize (IH (pre ++ [o]) (acc + amount o)).
    rewrite length_app, <- app_assoc, Nat.add_1_r in IH. cbn [length app] in IH.
    rewrite wrap_add_l, IH. do 2 f_equal. unfold total. lia.
Qed.

Definition tx_total (tx : Transaction) : Z := total amount (elems (outputs tx)).

Lemma sum_txs_ok pre l ni no sz out :
  Forall (λ tx, outputCount tx = len (elems (outputs tx))) l →
  sum_txs (length l) (length pre) (pre ++ l) (u64 ni, u64 no, u64 sz, u64 out) =
    Ok (u64 (ni + total inputCount l), u64 (no + total outputCount l),
        u64 (sz + total tx_size l), u64 (out + total tx_total l)).
Proof.
  intros Hl. revert pre ni no sz out.
  induction Hl as [|tx l Htx Hl IH]; intros pre ni no sz out; cbn [sum_txs length total fold_right].
  - by rewrite !Z.add_0_r.
  - rewrite lookup_app_r, Nat.sub_diag by lia. cbn [lookup list_lookup].
    pose proof (sum_amounts_ok [] (elems (outputs tx)) out) as Hs. cbn [length app] in Hs.
    rewrite Htx, Nat2Z.id, Hs, outcome_bind_ok. clear Hs.
    specialize (IH (pre ++ [tx]) (ni + inputCount tx) (no + outputCount tx) (sz + tx_size tx) (out + tx_total tx)).
    rewrite length_app, <- app_assoc, Nat.add_1_r in IH. cbn [length app] in IH.
    rewrite <- Htx, !wrap_add_l. fold (tx_total tx). rewrite IH.
    unfold total. by rewrite !Z.add_assoc.
Qed.

(** ** Properties *)

(** For a height the index has a record for, whose block the named blk file holds,
    [GetBlock] returns that block, its fields read back, with the height set; it prints
    nothing, leaves files, index, key and cache as they should be and keeps only the
    memory of the block's arrays. *)
Theorem GetBlock_returns `{Platform} w h b :
  no_oom → cache_ok w → heap_ok w → 0 ≤ h < 2 ^ 31 → has_block w h b →
  ∃ w' blk, GetBlock h w = Ok (blk, w') ∧ after w w' ∧
    live (w_heap w') = live (w_heap w) ∪ list_to_set (freed_block blk ++ leaked_block blk) ∧
    height blk = Some h ∧ magic blk = b_magic b ∧ header blk = load_header (b_header b) ∧
    blk_hash blk = hash256 (ser_header (b_header b)) ∧ txCount blk = len (b_txs b) ∧
    ∃ txs, transactions blk = Some txs ∧ Forall2 says (b_txs b) (elems txs).
Proof.
  intros Ho Hc Hw Hh Hb. destruct (GetBlock_ok w h b Ho Hc Hw Hh Hb) as (w' & E & Hl & Ha).
  eexists w', _. split; [exact E|]. split_and!; try done.
  - rewrite Hl. f_equal. apply set_eq. intros x. rewrite !elem_of_list_to_set.
    by rewrite (loaded_split (b_txs b) (S (next (w_heap w)))).
  - eexists. split; [done|]. apply Forall2_load_all, load_tx_says.
Qed.

(** [GetBlocks height count] returns the [count] blocks from [height] on, in order,
    when the index and the files have them all and [count] is at most 1024. *)
Theorem GetBlocks_returns `{Platform} w h bs :
  no_oom → cache_ok w → heap_ok w → 0 ≤ h → h + len bs < 2 ^ 31 → len bs ≤ 1024 →
  (∀ (k : nat) b, bs !! k = Some b → has_block w (h + Z.of_nat k) b) →
  ∃ a l w', GetBlocks h (len bs) w = Ok ({| blocks := Some (Buf a l); blocks_count := len bs |}, w') ∧
    length l = length bs ∧
    (∀ (k : nat) b, bs !! k = Some b → ∃ blk, l !! k = Some blk ∧ loaded_at (h + Z.of_nat k) b blk) ∧
    cache_ok w' ∧ heap_ok w' ∧ console w' = console w.
Proof.
  intros Ho Hc Hw Hh Hmax Hn Hb. unfold GetBlocks.
  rewrite (M_lift_ok _ _ _ _ (too_many_false (len bs) ltac:(lia))).
  rewrite (M_bind_ok _ _ _ _ _ (malloc_ok _ w Ho)), Nat2Z.id.
  set (w1 := grow 1 [next (w_heap w)] w).
  destruct (fill_blocks_ok bs w1 h 0 (next (w_heap w)) Ho) as (l & w' & E & Hlen & Hl & Hrest).
  - by apply cache_ok_grow.
  - by apply heap_ok_grow, (within_seq _ 1).
  - lia.
  - lia.
  - lia.
  - intros k b Hk. rewrite Z.add_0_r. by apply Hb.
  - exists (next (w_heap w)), l, w'. rewrite (M_bind_ok _ _ _ _ _ E).
    rewrite (wrap_small 64) by (unfold in_width; lia). rewrite Z.add_0_r in Hl. done.
Qed.

(** More than 1024 blocks are refused with a message, whatever the index holds - and
    from 2^29 blocks on the test itself overflows an [int]. *)
Theorem GetBlocks_limit `{Platform} w h count :
  1024 < count < 2 ^ 31 →
  GetBlocks h count w =
    if count <? 2 ^ 29 then Ok (no_blocks, set_console (console w ++ ["Error Getting blocks"%string]) w)
    else Fault SignedOverflow.
Proof.
  intros Hc. unfold GetBlocks, too_many. destruct (count <? 2 ^ 29) eqn:E; split_bool.
  - rewrite int_result_ok, outcome_bind_ok by lia.
    rewrite (wrap_small 64 (count * 4)), (wrap_small 64 (count * 4 * Mib)) by (unfold in_width, Mib; lia).
    rewrite (proj2 (Z.ltb_lt _ _)); [done|]. unfold Gib, Mib. lia.
  - unfold int_result, fits_int. rewrite (proj2 (Z.ltb_ge (count * 4) _)) by lia.
    by rewrite andb_false_r.
Qed.

(** [GetFirstBlockOfDate] returns the block of the first indexed record whose time is
    in the day of [timestamp] (as [SECONDS_PER_DAY] computes it), or the zero block when
    there is none. *)
Theorem GetFirstBlockOfDate_first `{Platform} w rs rest timestamp :
  indexed w rs rest →
  GetFirstBlockOfDate timestamp w =
    match list_find (of_day timestamp) rs with
    | Some (_, r) => GetBlock (s32 (bir_height r)) w
    | None => Ok (InitBlock, w)
    end.
Proof.
  intros Hx. pose proof Hx as (_ & Hn & _). unfold GetFirstBlockOfDate, index_count.
  rewrite (M_bind_ok _ _ w (len rs) w) by (by rewrite M_get, Hn).
  rewrite Nat2Z.id. by apply (first_block_of_day_ok w rs rest timestamp 0).
Qed.

(** [GetLastBlockOfDate] starts at the index after the last record: when all records
    of the array are counted, as for an index without invalid blocks, it reads past the
    end of the array. *)
Theorem GetLastBlockOfDate_reads_past `{Platform} w rs timestamp :
  indexed w rs [] → rs ≠ [] → GetLastBlockOfDate timestamp w = Fault OutOfBounds.
Proof.
  intros (He & Hn & _) Hne. unfold GetLastBlockOfDate, index_count.
  rewrite (M_bind_ok _ _ w (len rs) w) by (by rewrite M_get, Hn).
  rewrite Nat2Z.id. destruct (length rs) as [|n] eqn:E; [by destruct rs|]. cbn [last_block_of_day].
  unfold mbind, M_bind, block_time, index_record. cbv [mbind M_bind get].
  rewrite (proj2 (Z.ltb_ge _ _)) by lia. rewrite He, app_nil_r, Nat2Z.id, list_lookup_fmap.
  by rewrite (lookup_ge_None_2 rs) by lia.
Qed.

(** For an index whose records of a day lie between heights [f] and [l] - none before
    reaches the day, none between is after it, the next one is - [GetBlocksOfDay] gets the
    [l - f + 1] blocks from height [f] on. *)
Theorem GetBlocksOfDay_range `{Platform} w rs rest timestamp f l :
  indexed w rs rest → (∀ i r, rs !! i = Some r → bir_height r = Z.of_nat i) → len rs < 2 ^ 31 →
  day_run (day_start timestamp) (day_end (day_start timestamp)) rs f l →
  GetBlocksOfDay timestamp w = GetBlocks (Z.of_nat f) (Z.of_nat l - Z.of_nat f + 1) w.
Proof.
  intros Hx Hh Hlen Hrun. pose proof Hx as (_ & Hn & _). unfold GetBlocksOfDay, index_count.
  rewrite (M_bind_ok _ _ w (len rs) w) by (by rewrite M_get, Hn). rewrite Nat2Z.id.
  rewrite (M_bind_ok _ _ _ _ _ (day_bounds_ok w rs rest _ _ f l Hx Hrun)). cbn beta iota.
  destruct Hrun as [Hfl _ (rf & Hrf & _) (rl & Hrl & _) _ _].
  rewrite !(proj2 (Z.eqb_neq _ _)) by lia. cbn [orb].
  rewrite (M_bind_ok _ _ _ _ _ (indexed_record w rs rest f rf Hx Hrf)).
  rewrite (M_bind_ok _ _ _ _ _ (indexed_record w rs rest l rl Hx Hrl)).
  rewrite (Hh f rf Hrf), (Hh l rl Hrl). pose proof (lookup_lt_Some _ _ _ Hrl).
  rewrite (wrap_small 64 (Z.of_nat l - Z.of_nat f)) by (unfold in_width; lia).
  rewrite (wrap_small 64), (wrap_small 32) by (unfold in_width; lia).
  assert (Hs : ∀ x, 0 ≤ x < 2 ^ 31 → s32 x = x) by (intros x Hr; unfold swrap; rewrite Z.mod_small; lia).
  by rewrite !Hs by lia.
Qed.

(** [GetBlockStats] counts the inputs and outputs of a block whose counts agree with
    its arrays, and adds the sizes and amounts up modulo 2^64 - to a sum that does not
    start at zero but at the indeterminate bytes after the part of the statistics that
    was cleared. *)
Theorem GetBlockStats_sums `{Platform} block b h :
  transactions block = Some b → txCount block = len (elems b) → height block = Some h →
  Forall (λ tx, outputCount tx = len (elems (outputs tx))) (elems b) →
  (∀ i, 0 ≤ junk i < 256) →
  ∃ s, GetBlockStats block = Ok s ∧
    stats_height s = h ∧ stats_time s = hdr_time (header block) ∧ stats_blockHash s = blk_hash block ∧
    ins s = u64 (total inputCount (elems b)) ∧ outs s = u64 (total outputCount (elems b)) ∧
    totalOut s = u64 (le_value (map junk (seq 152 8)) + total tx_total (elems b)) ∧
    Structs.totalSize s = u64 (le_value (map junk (seq 160 8)) + total tx_size (elems b)).
Proof.
  intros Hb Hn Hh Hout Hj. unfold GetBlockStats. rewrite Hb, outcome_bind_ok, Hn, Nat2Z.id, Hh.
  assert (Hw : ∀ k, in_width 64 (le_value (map junk (seq k 8)))).
  { intros k. pose proof (le_value_bound (map junk (seq k 8))) as Hv.
    rewrite length_map, length_seq in Hv. apply Hv, Forall_map, Forall_forall. intros i _. apply Hj. }
  change (cleared "totalOut") with (le_value (map junk (seq 152 8))).
  change (cleared "totalSize") with (le_value (map junk (seq 160 8))).
  change (cleared "ins") with 0. change (cleared "outs") with 0.
  pose proof (sum_txs_ok [] (elems b) 0 0 (le_value (map junk (seq 160 8)))
    (le_value (map junk (seq 152 8))) Hout) as Hs.
  rewrite !(wrap_small 64 (le_value _)) in Hs by apply Hw.
  change (u64 0) with 0 in Hs. cbn [length app] in Hs. rewrite Hs, outcome_bind_ok.
  eexists. split; [reflexivity|]. by rewrite !Z.add_0_l.
Qed.

(** ** Examples *)

(** The sample block file with an index of two records for the block it holds, the second
    a day later. *)
Definition sample_api_record (h time : Z) : BlockIndexRecord :=
  {| blockHash := []; blockHeader := Some {| hdr_version := 0; prevBlockHash := []; merkleRoot := [];
       hdr_time := time; bits := 0; nonce := 0 |};
     bir_version := 0; bir_height := h; bir_txCount := 2; validationStatus := 157; blockFile := 0;
     blockOffset := 11; undoFile := None; undoOffset := None |}.
Definition sample_records : list BlockIndexRecord :=
  [sample_api_record 0 1231006505; sample_api_record 1 1231106505].
Definition sample_api_world : world :=
  set_env (set_indexRecords {|
      blockIndexRecord := map Some sample_records; blockIndexRecordCount := 2;
      fileInformationRecord := []; fileInformationRecordCount := 0;
      coinRecord := []; coinRecordCount := 0 |} (w_env sample_blk_world)) sample_blk_world.

Lemma sample_api_cache_ok : cache_ok sample_api_world.
Proof. apply cache_ok_start; [done| |done]. repeat constructor. Qed.

Lemma sample_api_block h : h = 0 ∨ h = 1 → has_block sample_api_world h sample_wire_block.
Proof.
  intros Hh. exists (sample_api_record h (if h =? 0 then 1231006505 else 1231106505)).
  exists {| path_addr := 0; filepath := "b0"; isOpen := false; file := None |}, sample_blk_file.
  split; [by destruct Hh as [-> | ->]|]. split; [done|]. split; [by vm_compute|].
  split; [by vm_compute|]. split; [apply sample_block_wf|]. by exists [0; 0; 0], [9; 9].
Qed.

Lemma sample_api_indexed : indexed sample_api_world sample_records [].
Proof. split; [done|]. split; [done|]. repeat constructor; by eexists. Qed.

Lemma GetBlock_returns_witness :
  ∃ w' blk, @GetBlock sample_platform 1 sample_api_world = Ok (blk, w') ∧
    height blk = Some 1 ∧ magic blk = 0xD9B4BEF9 ∧ txCount blk = 2.
Proof.
  destruct (@GetBlock_returns sample_platform sample_api_world 1 sample_wire_block
    sample_no_oom sample_api_cache_ok empty_heap_ok ltac:(lia) (sample_api_block 1 ltac:(auto)))
    as (w' & blk & E & _ & _ & Hh & Hm & _ & _ & Ht & _).
  exists w', blk. split_and!; [exact E|exact Hh|exact Hm|exact Ht].
Defined.

Lemma GetBlocks_returns_witness :
  ∃ a l w', @GetBlocks sample_platform 0 2 sample_api_world =
    Ok ({| blocks := Some (Buf a l); blocks_count := 2 |}, w') ∧ length l = 2%nat.
Proof.
  destruct (@GetBlocks_returns sample_platform sample_api_world 0 [sample_wire_block; sample_wire_block]
    sample_no_oom sample_api_cache_ok empty_heap_ok ltac:(lia) ltac:(cbn; lia) ltac:(cbn; lia))
    as (a & l & w' & E & Hl & _).
  - intros [|[|k]] b Hb; cbn in Hb; simplify_eq; apply sample_api_block; [by left|by right].
  - exists a, l, w'. split; [exact E|exact Hl].
Defined.

Lemma GetBlocks_limit_witness :
  @GetBlocks sample_platform 0 1025 sample_api_world =
    Ok (no_blocks, set_console ["Error Getting blocks"%string] sample_api_world) ∧
  @GetBlocks sample_platform 0 536870912 sample_api_world = Fault SignedOverflow.
Proof.
  split.
  - exact (@GetBlocks_limit sample_platform sample_api_world 0 1025 ltac:(lia)).
  - exact (@GetBlocks_limit sample_platform sample_api_world 0 536870912 ltac:(lia)).
Defined.

Lemma GetFirstBlockOfDate_first_witness :
  @GetFirstBlockOfDate sample_platform 1231106540 sample_api_world =
    @GetBlock sample_platform 1 sample_api_world.
Proof.
  rewrite (@GetFirstBlockOfDate_first sample_platform sample_api_world sample_records []);
    [by vm_compute|apply sample_api_indexed].
Defined.

Lemma GetLastBlockOfDate_reads_past_witness :
  @GetLastBlockOfDate sample_platform 1231006505 sample_api_world = Fault OutOfBounds.
Proof.
  apply (@GetLastBlockOfDate_reads_past sample_platform sample_api_world sample_records);
    [apply sample_api_indexed|done].
Defined.

Lemma GetBlocksOfDay_range_witness :
  @GetBlocksOfDay sample_platform 1231006505 sample_api_world =
    @GetBlocks sample_platform 0 1 sample_api_world.
Proof.
  apply (@GetBlocksOfDay_range sample_platform sample_api_world sample_records [] 1231006505 0 0).
  - apply sample_api_indexed.
  - intros [|[|i]] r Hr; cbn in Hr; by simplify_eq.
  - done.
  - split.
    + done.
    + constructor.
    + exists (sample_api_record 0 1231006505). split; [done|by vm_compute].
    + exists (sample_api_record 0 1231006505). split; [done|by vm_compute].
    + repeat constructor. by vm_compute.
    + intros r Hr. cbn in Hr. simplify_eq. by vm_compute.
Defined.

(** Two outputs of 5 and 6 units, on a stack that holds the bytes 0xCC. *)
Lemma GetBlockStats_sums_witness :
  let o n := {| amount := n; scriptPubKeySize := 0; scriptPubKey := Buf 0 [] |} in
  let tx := {| tx_version := 1; marker := 0; flag := 0; inputCount := 1; inputs := Buf 0 [];
    outputCount := 2; outputs := Buf 0 [o 5; o 6]; witnesses := None; locktime := 0; tx_size := 80;
    txid := []; wtxid := [] |} in
  ∃ s, @GetBlockStats sample_platform {| magic := 0; blockSize := 0; txCount := 1; blk_hash := [];
    height := Some 7; header := InitBlockHeader; transactions := Some (Buf 0 [tx]) |} = Ok s ∧
    ins s = 1 ∧ outs s = 2 ∧ stats_height s = 7 ∧ totalOut s = 0xCCCCCCCCCCCCCCCC + 11.
Proof.
  intros o tx.
  destruct (@GetBlockStats_sums sample_platform {| magic := 0; blockSize := 0; txCount := 1; blk_hash := [];
    height := Some 7; header := InitBlockHeader; transactions := Some (Buf 0 [tx]) |} (Buf 0 [tx]) 7)
    as (s & E & Hh & _ & _ & Hi & Ho & Ht & _); [done|done|done|by repeat constructor|done|].
  exists s. split_and!; [exact E|by rewrite Hi|by rewrite Ho|exact Hh|by rewrite Ht].
Defined.
