(* ===== verification/Library.v ===== *)
(** * The library as a whole: initialisation, then reading a block

    [InitMLBTCC] (mlbtcc.c) composed from the parts - the data directory of parser.c, the
    listing of files.c, the order and the index of indexing.c - and what [GetBlock]
    (API.c) finds afterwards. *)

From S2P Require Import Prelude BigInts Sha256 Structs Specifics World ReadTxn FreeStructs OpenFiles BlkDat.
From S2P Require Import Printing Files LevelDB Indexing Parser Api.

Section library.
Context `{Platform} `{L : LevelDB} `{!LevelDBLaws L}.

(** [ps] finds no bitcoind, or cannot be run. *)
Definition bitcoind_stopped (w : world) : Prop :=
  ∀ t, default [] (shell_lines t "ps -A | grep '[b]itcoind'" (w_os w)) = [].

Lemma IsBitcoindRunning_stopped w :
  bitcoind_stopped w → IsBitcoindRunning w = Ok (false, set_ticks (S (ticks w)) w).
Proof.
  intros Hs. unfold IsBitcoindRunning. rewrite M_get, M_modify. specialize (Hs (ticks w)).
  destruct (shell_lines _ _ _) as [[]|]; done.
Qed.

Lemma bitcoind_stopped_os w w' : w_os w' = w_os w → bitcoind_stopped w → bitcoind_stopped w'.
Proof. unfold bitcoind_stopped. by intros ->. Qed.

Definition blk_pattern : list ascii := String.list_ascii_of_string "blk*.dat".

(** The blk files of the directory: in some order, files number 0, 1, 2, ... *)
Definition blk_files (directory : string) (names : list string) : Prop :=
  len (selected blk_pattern names) < 2 ^ 31 ∧
  ∃ ns, Forall2 (λ n name, ExtractBlockNumber (directory +:+ "/" +:+ name) = Ok n)
          ns (selected blk_pattern names) ∧
    ns ≡ₚ seqZ 0 (len (selected blk_pattern names)).

(** The world that [IndexCoreDatadir] leaves: files, index, two calls of [popen], a line. *)
Definition indexed_world (fl : FileList) (s : IndexRecords) (w1 w : world) : world :=
  set_env (set_indexRecords s (set_blkFiles fl (w_env w)))
    (set_console (console w ++ ["Bitcoin running 0"%string])
      (set_ticks (S (S (ticks w))) (set_heap (w_heap w1) w))).

Lemma SortFiles_numbered directory names fl b :
  files fl = Some b → blk_files directory names →
  map filepath (elems b) = map (λ n, directory +:+ "/" +:+ n) (selected blk_pattern names) →
  ∃ l, SortFiles fl =
      Ok {| files := Some (Buf (addr b) l); files_count := files_count fl; totalSize := totalSize fl |} ∧
    l ≡ₚ elems b ∧
    ∀ n name, name ∈ selected blk_pattern names →
      ExtractBlockNumber (directory +:+ "/" +:+ name) = Ok n →
      ∃ info, l !! Z.to_nat n = Some info ∧ filepath info = directory +:+ "/" +:+ name.
Proof.
  intros Hb (Hlen & ns & Hns & Hperm) Hp. set (sel := selected blk_pattern names) in *.
  assert (Hl : length (elems b) = length sel) by (by rewrite <- (length_map filepath), Hp, length_map).
  assert (Hnum : Forall2 numbered ns (elems b)).
  { apply Forall2_fmap_r with (f := filepath) (P := λ n s, ExtractBlockNumber s = Ok n).
    change (filepath <$> elems b) with (map filepath (elems b)). rewrite Hp.
    by apply Forall2_fmap_r. }
  destruct (SortFiles_sorted b fl Hb) as (l & E & Hperm' & Hi); [by rewrite Hl|exists ns; by rewrite Hl|].
  exists l. split; [done|]. split; [done|]. intros n name Hname Hn.
  assert (Hin : directory +:+ "/" +:+ name ∈ map filepath l).
  { rewrite Hperm', Hp. apply list_elem_of_fmap. by exists name. }
  apply list_elem_of_fmap in Hin as (info & Heq & Hin). apply list_elem_of_lookup in Hin as [i Hinfo].
  exists info. split; [|done]. specialize (Hi i info Hinfo). unfold numbered in Hi.
  rewrite <- Heq, Hn in Hi. injection Hi as ->. by rewrite Nat2Z.id.
Qed.

(** What a data directory needs for its index to be read. *)
Record core_datadir (fuel : nat) (w : world) (blocks_dir : string) (names : list string) (l : list entry) : Prop := {
  cd_listed : dirs (w_os w) !! blocks_dir = Some names;
  cd_files : blk_files blocks_dir names;
  cd_short : (String.length blocks_dir < 500)%nat;
  cd_stopped : bitcoind_stopped w;
  cd_opens : opens fuel (blocks_dir +:+ "/index/") w l;
  cd_decodable : Forall decodable l;
  cd_heights : Forall (in_array (prefix_count KEY_b l)) (accepted l);
  cd_distinct : NoDup (map bir_height (accepted l))
}.

Lemma core_datadir_os fuel w w' d names l :
  w_os w' = w_os w → core_datadir fuel w d names l → core_datadir fuel w' d names l.
Proof.
  intros E []. split; try done; try (by rewrite E).
  - unfold bitcoind_stopped. by rewrite E.
  - unfold opens. by rewrite E.
Qed.

Lemma IndexCoreDatadir_ok fuel w names l :
  no_oom → heap_ok w → core_datadir fuel w (blocksDir (w_env w)) names l →
  ∃ w1 fl b s, IndexCoreDatadir fuel w = Ok (tt, indexed_world fl s w1 w) ∧
    heap_ok w1 ∧ files fl = Some b ∧ Forall (λ f, isOpen f = false) (elems b) ∧
    (∀ n name, name ∈ selected blk_pattern names →
       ExtractBlockNumber (blocksDir (w_env w) +:+ "/" +:+ name) = Ok n →
       ∃ info, elems b !! Z.to_nat n = Some info ∧ filepath info = blocksDir (w_env w) +:+ "/" +:+ name) ∧
    (∀ r, r ∈ accepted l → blockIndexRecord s !! Z.to_nat (bir_height r) = Some (Some r)).
Proof.
  intros Ho Hw [Hd Hn Hs Hst Hop Hdec Hh Hdis]. unfold IndexCoreDatadir. rewrite M_get.
  set (dir := blocksDir (w_env w)) in *. cbn beta zeta.
  rewrite snprintf_short by (rewrite length_sapp; cbn [String.length]; lia).
  destruct (ListFiles_ok dir blk_pattern 5000 names w Ho Hw Hd ltac:(lia))
    as (fl & b & w1 & E1 & Hfl & Hp & Hclosed & _ & _ & _ & Hw1 & Hsame).
  unfold blk_pattern in E1. rewrite (M_bind_ok _ _ _ _ _ E1). clear E1.
  destruct (SortFiles_numbered dir names fl b Hfl Hn Hp) as (fs & E2 & Hperm & Hserve).
  rewrite (M_lift_ok _ _ _ _ E2), M_modify. clear E2.
  set (fl' := {| files := _ |}). set (w2 := set_env (set_blkFiles fl' (w_env w1)) w1).
  assert (Hos : w_os w2 = w_os w) by (unfold w2; rewrite Hsame; done).
  rewrite (M_bind_ok _ _ _ _ _ (IsBitcoindRunning_stopped w2 (bitcoind_stopped_os w _ Hos Hst))).
  set (w3 := set_ticks _ w2). unfold printf. rewrite M_modify. set (w4 := set_console _ w3).
  rewrite (M_bind_ok _ _ _ _ _ (IsBitcoindRunning_stopped w4 (bitcoind_stopped_os w _ Hos Hst))).
  set (w5 := set_ticks _ w4). cbn [negb].
  destruct (BuildBlockIndexRecords_ok fuel (dir +:+ "/index/") w5 l Ho) as (w6 & s & Hsame6 & Hok6 & E6 & _ & Hrec & _).
  - unfold opens. cbn [w_os w5 w4 w3 set_ticks set_console]. by rewrite Hos.
  - done.
  - done.
  - done.
  - exists w6, fl', (Buf (addr b) fs), s. split.
    { rewrite E6, Hsame6. unfold w5, w4, w3, w2. rewrite Hsame. reflexivity. }
    split; [by apply Hok6|]. split; [done|]. split; [cbn [elems]; by rewrite Hperm|]. split; [done|].
    intros r Hr. by apply Hrec.
Qed.

(** What [InitMLBTCC] leaves, for a library not used before. *)
Definition unused (w : world) : Prop :=
  openFiles w = replicate MAX_OPEN_FILES {| fileInfo := None; lastAccessTime := 0 |} ∧ streams w = ∅.

Lemma InitMLBTCC_ok fuel path w names l :
  no_oom → heap_ok w → unused w → is_dir w path → (String.length path < 490)%nat →
  core_datadir fuel w (path +:+ "blocks/") names l →
  ∃ w', InitMLBTCC fuel path w = Ok (tt, w') ∧ cache_ok w' ∧ heap_ok w' ∧ w_os w' = w_os w ∧
    xorKey (w_env w') = key_at w "" ∧
    (∀ n name, name ∈ selected blk_pattern names →
       ExtractBlockNumber ((path +:+ "blocks/") +:+ "/" +:+ name) = Ok n →
       ∃ info, infos w' !! Z.to_nat n = Some info ∧ filepath info = (path +:+ "blocks/") +:+ "/" +:+ name) ∧
    (∀ r, r ∈ accepted l →
       blockIndexRecord (indexRecords (w_env w')) !! Z.to_nat (bir_height r) = Some (Some r)).
Proof.
  intros Ho Hw [Hu1 Hu2] Hd Hlen Hcd. unfold InitMLBTCC. rewrite M_modify.
  set (w0 := set_env empty_env w).
  destruct (ParseCoreDatadir_ok path w0) as (n & E); try done.
  { by eexists; apply (cd_listed _ _ _ _ _ Hcd). }
  { cbn. lia. }
  { unfold streams_ok. cbn. by rewrite Hu2. }
  rewrite (M_bind_ok _ _ _ _ _ E). clear E. set (w1 := set_console _ _).
  assert (Hcd1 : core_datadir fuel w1 (blocksDir (w_env w1)) names l) by exact (core_datadir_os _ w w1 _ _ _ eq_refl Hcd).
  destruct (IndexCoreDatadir_ok fuel w1 names l Ho Hw Hcd1)
    as (w2 & fl & b & s & E & Hw2 & Hfl & Hclosed & Hserve & Hrec).
  eexists. split; [exact E|]. unfold indexed_world.
  assert (Hinfos : infos (indexed_world fl s w2 w1) = elems b) by (unfold infos; cbn; by rewrite Hfl).
  split; [|split; [done|split; [done|split; [done|split]]]].
  - apply cache_ok_start; [exact Hu1| |exact Hu2]. unfold indexed_world in Hinfos. by rewrite Hinfos.
  - intros i name Hname Hi. unfold indexed_world in Hinfos. rewrite Hinfos. by apply Hserve.
  - exact Hrec.
Qed.

(** The block of a record of the index is in the blk file the record names. *)
Definition block_on_disk (w : world) (directory : string) (names : list string)
    (r : BlockIndexRecord) (b : wire_block) : Prop :=
  ∃ name c, name ∈ selected blk_pattern names ∧
    ExtractBlockNumber (directory +:+ "/" +:+ name) = Ok (blockFile r) ∧
    disk (w_os w) !! (directory +:+ "/" +:+ name) = Some c ∧ len c ≤ MAX_BLOCKFILE_SIZE ∧
    wf_block b ∧ stored_at (key_at w "") c (blockOffset r) b.

Lemma block_on_disk_has w w' directory names l r b :
  w_os w' = w_os w → xorKey (w_env w') = key_at w "" →
  (∀ n name, name ∈ selected blk_pattern names →
     ExtractBlockNumber (directory +:+ "/" +:+ name) = Ok n →
     ∃ info, infos w' !! Z.to_nat n = Some info ∧ filepath info = directory +:+ "/" +:+ name) →
  (∀ r, r ∈ accepted l →
     blockIndexRecord (indexRecords (w_env w')) !! Z.to_nat (bir_height r) = Some (Some r)) →
  r ∈ accepted l → block_on_disk w directory names r b → has_block w' (bir_height r) b.
Proof.
  intros Hos Hk Hserve Hrec Hr (name & c & Hname & Hn & Hd & Hl & Hwf & Hst).
  destruct (Hserve _ _ Hname Hn) as (info & Hi & Hp).
  exists r, info, c. rewrite Hos, Hk, Hp. split_and!; try done. by apply Hrec.
Qed.

End library.

(** ** Properties *)

(** C7: on a data directory of Bitcoin Core that is not in use - its blk files numbered
    without a gap, its index decodable, with distinct heights below the number of block
    keys - [InitMLBTCC] succeeds, and afterwards [GetBlock] of the height of any valid
    record returns the block that the blk file named by the record holds at the offset of
    the record, read with the key of /blocks/xor.dat. *)
Theorem InitMLBTCC_serves `{Platform} `{L : LevelDB} `{!LevelDBLaws L} fuel path w names l :
  no_oom → heap_ok w → unused w → is_dir w path → (String.length path < 490)%nat →
  core_datadir fuel w (path +:+ "blocks/") names l →
  ∃ w', InitMLBTCC fuel path w = Ok (tt, w') ∧ cache_ok w' ∧
    ∀ r b, r ∈ accepted l → block_on_disk w (path +:+ "blocks/") names r b → bir_height r < 2 ^ 31 →
    ∃ w'' blk, GetBlock (bir_height r) w' = Ok (blk, w'') ∧ cache_ok w'' ∧
      height blk = Some (bir_height r) ∧ header blk = load_header (b_header b) ∧
      blk_hash blk = hash256 (ser_header (b_header b)) ∧
      ∃ txs, transactions blk = Some txs ∧ Forall2 says (b_txs b) (elems txs).
Proof.
  intros Ho Hw Hu Hd Hlen Hcd.
  destruct (InitMLBTCC_ok fuel path w names l Ho Hw Hu Hd Hlen Hcd)
    as (w' & E & Hc & Hw' & Hos & Hk & Hserve & Hrec).
  exists w'. split; [exact E|]. split; [exact Hc|]. intros r b Hr Hb Hh.
  pose proof (block_on_disk_has w w' _ names l r b Hos Hk Hserve Hrec Hr Hb) as Hhas.
  assert (H0 : 0 ≤ bir_height r < 2 ^ 31).
  { split; [|done]. pose proof (cd_heights _ _ _ _ _ Hcd) as Hin. rewrite Forall_forall in Hin.
    by destruct (Hin r Hr). }
  destruct (GetBlock_ok w' (bir_height r) b Ho Hc Hw' H0 Hhas) as (w'' & Eb & _ & Ha).
  eexists w'', _. split; [exact Eb|]. split_and!; try done; [apply Ha|].
  eexists. split; [done|]. apply Forall2_load_all, load_tx_says.
Qed.

(** A data directory with one blk file, the key, and an index of one block. *)
Definition sample_blk_entry : entry :=
  (KEY_b :: replicate 32 9, index_value 259900 0 157 2 0 11 None (b_header sample_wire_block)).
Definition sample_core_world : world :=
  set_os {| disk := {["/btc/blocks//blk00000.dat"%string := sample_blk_file;
                      "/blocks/xor.dat"%string := sample_key]};
            dirs := {["/btc/"%string := []; "/btc/blocks/"%string := ["xor.dat"; "blk00000.dat"]%string]};
            envvar := ∅ |} empty_world.
Definition sample_blk_record : BlockIndexRecord :=
  {| blockHash := replicate 32 9; blockHeader := Some (load_header (b_header sample_wire_block));
     bir_version := 259900; bir_height := 0; bir_txCount := 2; validationStatus := 157;
     blockFile := 0; blockOffset := 11; undoFile := None; undoOffset := None |}.

Lemma sample_blk_accepted : accepted [sample_blk_entry] = [sample_blk_record].
Proof. vm_compute. reflexivity. Qed.

Lemma sample_core_datadir :
  @core_datadir sample_platform (list_leveldb (λ _ _, inr [sample_blk_entry])) (list_leveldb_laws _)
    2 sample_core_world "/btc/blocks/" ["xor.dat"; "blk00000.dat"]%string [sample_blk_entry].
Proof.
  split.
  - by vm_compute.
  - split; [by vm_compute|]. exists [0]. split; [repeat constructor|by vm_compute].
  - apply Nat.ltb_lt. by vm_compute.
  - done.
  - exists [sample_blk_entry]. split; [done|]. split; [done|cbn; lia].
  - apply Forall_singleton. split; [done|split; [intros _|done]]. eexists. vm_compute. reflexivity.
  - rewrite sample_blk_accepted. by apply Forall_singleton.
  - rewrite sample_blk_accepted. apply NoDup_singleton.
Qed.

Lemma InitMLBTCC_serves_witness :
  let L := list_leveldb (λ _ _, inr [sample_blk_entry]) in
  ∃ w' w'' blk, @InitMLBTCC sample_platform L 2 "/btc/" sample_core_world = Ok (tt, w') ∧
    @GetBlock sample_platform 0 w' = Ok (blk, w'') ∧
    header blk = load_header (b_header sample_wire_block).
Proof.
  intros L.
  destruct (@InitMLBTCC_serves sample_platform L (list_leveldb_laws _) 2 "/btc/" sample_core_world
    ["xor.dat"; "blk00000.dat"]%string [sample_blk_entry] sample_no_oom empty_heap_ok)
    as (w' & E & _ & Hs).
  - by split.
  - by eexists.
  - apply Nat.ltb_lt. by vm_compute.
  - apply sample_core_datadir.
  - destruct (Hs sample_blk_record sample_wire_block) as (w'' & blk & Eb & _ & _ & Hh & _).
    + rewrite sample_blk_accepted. apply list_elem_of_here.
    + exists "blk00000.dat"%string, sample_blk_file. split_and!.
      * vm_compute. apply list_elem_of_here.
      * reflexivity.
      * by vm_compute.
      * by vm_compute.
      * apply sample_block_wf.
      * exists [0; 0; 0], [9; 9]. by split; vm_compute.
    + done.
    + exists w', w'', blk. split; [exact E|]. split; [exact Eb|exact Hh].
Defined.
