(* ===== verification/CbString.v ===== *)
(** * CBuilder.c, strings: growing buffers and commands

    The string of the build tool: a buffer of [size] bytes that holds [length] characters
    and a terminator, doubled when an element does not fit. Memory may run out ([Alloc]). *)

From S2P Require Import Prelude.

(** Whether an allocation of so many bytes succeeds. *)
Class Alloc : Type := { alloc : Z → bool }.

Definition DEFAULT_STRING_ALLOCATION_SIZE : Z := 500.

(** [String] of the source; a Coq string has that name already. *)
Record CString : Type := { c_str : string; s_length : Z; s_size : Z }.

(** A command is a string. *)
Definition Command : Type := CString.

Definition strlen (s : string) : Z := Z.of_nat (String.length s).

Section strings.
Context `{Alloc}.

(** [sizeof(String)] is 16. *)
Definition CreateStringEmpty : option CString :=
  if negb (alloc 16) then None
  else if negb (alloc DEFAULT_STRING_ALLOCATION_SIZE) then None
  else Some {| c_str := EmptyString; s_length := 0; s_size := DEFAULT_STRING_ALLOCATION_SIZE |}.

(** [while (newSize < requiredSize) newSize *= 2] on an [unsigned int]: after 32 doublings
    it is 0 and stays so. *)
Fixpoint grow_size (fuel : nat) (newSize requiredSize : Z) : outcome Z :=
  match fuel with
  | O => Fault Diverges
  | S fuel => if newSize <? requiredSize then grow_size fuel (u32 (newSize * 2)) requiredSize
              else Ok newSize
  end.

Definition store_element (str : CString) (element : string) (size : Z) : outcome CString :=
  if s_length str + strlen element + 1 <=? size then
    Ok {| c_str := c_str str +:+ element; s_length := u32 (s_length str + strlen element);
          s_size := size |}
  else Fault OutOfBounds.

(** A NULL string or element is ignored, as is an element there is no memory for. *)
Definition AppendToString (str : option CString) (element : option string) : outcome (option CString) :=
  match str, element with
  | Some str, Some element =>
      let requiredSize := u64 (s_length str + strlen element + 1) in
      if s_size str <? requiredSize then
        newSize ← grow_size 34 (u32 (s_size str * 2)) requiredSize;
        if negb (alloc newSize) then Ok (Some str)
        else r ← store_element str element newSize; Ok (Some r)
      else r ← store_element str element (s_size str); Ok (Some r)
  | _, _ => Ok str
  end.

(** The arguments up to the NULL that ends them, a space before each unless the string is
    empty. *)
Fixpoint append_args (str : CString) (args : list string) : outcome CString :=
  match args with
  | [] => Ok str
  | arg :: args =>
      str ← (if 0 <? s_length str then AppendToString (Some str) (Some " "%string) else Ok (Some str));
      str ← AppendToString str (Some arg);
      match str with Some str => append_args str args | None => Fault NullPointer end
  end.

Definition AppendToStringVA (str : option CString) (args : list string) : outcome (option CString) :=
  match str with
  | None => Ok None
  | Some str => r ← append_args str args; Ok (Some r)
  end.

Definition AppendToStringNULL := AppendToStringVA.

Definition CreateStringImpl (args : list string) : outcome (option CString) :=
  match CreateStringEmpty with
  | None => Ok None
  | Some string => AppendToStringVA (Some string) args
  end.

(** [AppendToCommand(command, a, b, ...)] ends at the first NULL among its arguments. *)
Fixpoint until_null (args : list (option string)) : list string :=
  match args with Some a :: args => a :: until_null args | _ => [] end.

Definition AppendToCommand (cmd : option CString) (args : list (option string)) : outcome (option CString) :=
  AppendToStringNULL cmd (until_null args).

(** One call per argument that is not NULL. *)
Fixpoint AppendStringsToCommand (cmd : option CString) (args : list (option string)) : outcome (option CString) :=
  match args with
  | [] => Ok cmd
  | None :: args => AppendStringsToCommand cmd args
  | Some a :: args => cmd ← AppendToCommand cmd [Some a]; AppendStringsToCommand cmd args
  end.

Fixpoint append_each (cmd : option CString) (args : list (option string)) : outcome (option CString) :=
  match args with
  | [] => Ok cmd
  | a :: args => cmd ← AppendToCommand cmd [a]; append_each cmd args
  end.

Definition CommandFromArgs (argv : list (option string)) : outcome (option CString) :=
  cmd ← CreateStringImpl []; append_each cmd argv.

End strings.

(** ** Lemmas *)

(** A string that holds [s]. *)
Record holds_string (str : CString) (s : string) : Prop := {
  hs_text : c_str str = s;
  hs_length : s_length str = strlen s;
  hs_fits : strlen s + 1 ≤ s_size str;
  hs_size : 0 < s_size str < 2 ^ 32
}.

Lemma strlen_app s t : strlen (s +:+ t) = strlen s + strlen t.
Proof.
  unfold strlen. induction s as [|c s IH]; [done|].
  change (String c s +:+ t) with (String c (s +:+ t)). cbn [String.length]. lia.
Qed.

(** Enough doublings, when the result fits. *)
Lemma grow_size_ok fuel n req :
  0 < n → 0 < req ≤ 2 ^ 31 → n < 2 ^ 32 → req ≤ n * 2 ^ (Z.of_nat fuel) →
  ∃ m, grow_size (S fuel) n req = Ok m ∧ req ≤ m < 2 ^ 32 ∧ (m < 2 * req ∨ m = n).
Proof.
  revert n. induction fuel as [|fuel IH]; intros n Hn Hr Hlt Hf; cbn [grow_size].
  - exists n. rewrite (proj2 (Z.ltb_ge _ _)) by lia. split; [done|]. lia.
  - destruct (n <? req) eqn:E; split_bool.
    + rewrite wrap_small by (unfold in_width; lia).
      destruct (IH (n * 2)) as (m & Hm & Hb & Hc); [lia|lia|lia| |].
      * rewrite Nat2Z.inj_succ, Z.pow_succ_r in Hf by lia. lia.
      * exists m. split; [exact Hm|]. lia.
    + exists n. split; [done|]. lia.
Qed.

Section append.
Context `{Alloc}.

(** Memory does not run out. *)
Definition allocates : Prop := ∀ n, alloc n = true.

Lemma AppendToString_ok str s element :
  allocates → holds_string str s → 250 ≤ s_size str → strlen s + strlen element < 2 ^ 31 →
  ∃ str', AppendToString (Some str) (Some element) = Ok (Some str') ∧
    holds_string str' (s +:+ element) ∧ s_size str ≤ s_size str'.
Proof.
  intros Ha [Ht Hl Hf Hs] Hmin Hfit. unfold AppendToString. rewrite Hl.
  assert (H0 : 0 ≤ strlen s ∧ 0 ≤ strlen element) by (unfold strlen; lia).
  rewrite (wrap_small 64) by (unfold in_width; lia).
  assert (Hstore : ∀ size, strlen s + strlen element + 1 ≤ size < 2 ^ 32 →
    store_element str element size = Ok {| c_str := s +:+ element;
      s_length := strlen s + strlen element; s_size := size |}).
  { intros size Hsz. unfold store_element. rewrite Hl, Ht, (proj2 (Z.leb_le _ _)) by lia.
    by rewrite (wrap_small 32) by (unfold in_width; lia). }
  destruct (s_size str <? strlen s + strlen element + 1) eqn:E; split_bool.
  - rewrite (wrap_small 32 (s_size str * 2)) by (unfold in_width; lia).
    destruct (grow_size_ok 33 (s_size str * 2) (strlen s + strlen element + 1)) as (m & Hm & Hb & Hc); try lia.
    rewrite Hm, outcome_bind_ok, Ha. cbn [negb]. rewrite Hstore, outcome_bind_ok by lia.
    eexists. split; [done|]. split; [|cbn; lia].
    split; cbn [c_str s_length s_size]; rewrite ?strlen_app; lia || done.
  - rewrite Hstore, outcome_bind_ok by lia. eexists. split; [done|]. split; [|cbn; lia].
    split; cbn [c_str s_length s_size]; rewrite ?strlen_app; lia || done.
Qed.
End append.

Lemma concat_cons2 sep a b l : String.concat sep (a :: b :: l) = String.concat sep ((a +:+ sep +:+ b) :: l).
Proof.
  destruct l as [|c l]; [done|]. cbn [String.concat]. by rewrite !sapp_assoc.
Qed.

Section join.
Context `{Alloc}.

(** The length of what is appended, with a space before each element. *)
Fixpoint args_length (args : list string) : Z :=
  match args with [] => 0 | a :: args => strlen a + 1 + args_length args end.

Lemma args_length_nonneg args : 0 ≤ args_length args.
Proof. induction args as [|a l IH]; cbn [args_length]; unfold strlen; lia. Qed.

Lemma append_args_ok str s args :
  allocates → holds_string str s → 250 ≤ s_size str → s ≠ EmptyString →
  strlen s + args_length args < 2 ^ 31 →
  ∃ str', append_args str args = Ok str' ∧ holds_string str' (String.concat " " (s :: args)) ∧
    250 ≤ s_size str'.
Proof.
  intros Ha. revert str s. induction args as [|a args IH]; intros str s Hs Hmin Hne Hlen.
  { exists str. split_and!; [done| |done]. by destruct s. }
  cbn [args_length] in Hlen. pose proof (args_length_nonneg args) as Hargs.
  assert (H0 : 0 ≤ strlen a ∧ 0 < strlen s) by (split; [unfold strlen; lia|by destruct s]).
  cbn [append_args]. rewrite (hs_length _ _ Hs), (proj2 (Z.ltb_lt 0 _)) by lia.
  destruct (AppendToString_ok str s " " Ha Hs Hmin ltac:(change (strlen " ") with 1; lia)) as (s1 & E1 & Hs1 & Hm1).
  rewrite E1, outcome_bind_ok.
  assert (Hl1 : strlen (s +:+ " ") = strlen s + 1) by (rewrite strlen_app; done).
  destruct (AppendToString_ok s1 (s +:+ " ") a Ha Hs1 ltac:(lia) ltac:(lia)) as (s2 & E2 & Hs2 & Hm2).
  rewrite E2, outcome_bind_ok, concat_cons2.
  rewrite sapp_assoc. apply IH; [done|lia| |rewrite strlen_app; lia].
  destruct s; [done|]. discriminate.
Qed.

Lemma CreateStringEmpty_ok :
  allocates → ∃ str, CreateStringEmpty = Some str ∧ holds_string str EmptyString ∧ 250 ≤ s_size str.
Proof.
  intros Ha. unfold CreateStringEmpty. rewrite !Ha. cbn [negb]. eexists. split; [done|].
  split; [|cbn; unfold DEFAULT_STRING_ALLOCATION_SIZE; lia].
  split; cbn; unfold DEFAULT_STRING_ALLOCATION_SIZE, strlen; cbn; lia || done.
Qed.

Lemma CreateStringImpl_ok a args :
  allocates → a ≠ EmptyString → strlen a + args_length args < 2 ^ 31 →
  ∃ str, CreateStringImpl (a :: args) = Ok (Some str) ∧
    holds_string str (String.concat " " (a :: args)) ∧ 250 ≤ s_size str.
Proof.
  intros Ha Hne Hlen. unfold CreateStringImpl.
  destruct (CreateStringEmpty_ok Ha) as (str & -> & Hs & Hm).
  pose proof (args_length_nonneg args) as Hargs.
  unfold AppendToStringVA. cbn [append_args].
  rewrite (hs_length _ _ Hs). change (0 <? strlen EmptyString) with false. cbn iota.
  rewrite outcome_bind_ok.
  destruct (AppendToString_ok str EmptyString a Ha Hs Hm ltac:(change (strlen EmptyString) with 0; lia)) as (s1 & E1 & Hs1 & Hm1).
  rewrite E1, outcome_bind_ok. change (EmptyString +:+ a) with a in Hs1.
  destruct (append_args_ok s1 a args Ha Hs1 ltac:(lia) Hne Hlen) as (s2 & E2 & Hs2 & Hm2).
  rewrite E2, outcome_bind_ok. by exists s2.
Qed.
End join.

(** ** Properties *)

(** [CreateString(a, b, ...)] gives the arguments joined by single spaces, in a buffer
    that was doubled as often as needed to hold them and their terminator, when memory
    lasts, the first argument is not empty and the total stays below 2^31. *)
Theorem CreateString_joins `{Alloc} a args :
  allocates → a ≠ EmptyString → strlen a + args_length args < 2 ^ 31 →
  ∃ str, CreateStringImpl (a :: args) = Ok (Some str) ∧
    c_str str = String.concat " " (a :: args) ∧ s_length str = strlen (c_str str) ∧
    s_length str + 1 ≤ s_size str.
Proof.
  intros Ha Hne Hlen. destruct (CreateStringImpl_ok a args Ha Hne Hlen) as (str & E & [Ht Hl Hf _] & _).
  exists str. by rewrite Ht, Hl.
Qed.

Definition sample_alloc : Alloc := {| alloc := λ _, true |}.

Lemma CreateString_joins_witness :
  ∃ str, @CreateStringImpl sample_alloc ["gcc"; "-c"; "a.c"]%string = Ok (Some str) ∧
    c_str str = "gcc -c a.c"%string.
Proof.
  destruct (@CreateString_joins sample_alloc "gcc" ["-c"; "a.c"]%string) as (str & E & Hs & _);
    [done|done|done|].
  exists str. split; [exact E|exact Hs].
Defined.

(** A string of 2^31 characters or more cannot be appended to: the doubling wraps to zero
    and never ends. *)
Lemma AppendToString_diverges `{Alloc} str e :
  s_length str = 2 ^ 31 → s_size str = 2 ^ 31 → strlen e < 2 ^ 31 →
  AppendToString (Some str) (Some e) = Fault Diverges.
Proof.
  intros Hl Hs He. unfold AppendToString. rewrite Hl, Hs.
  assert (H0 : 0 ≤ strlen e) by (unfold strlen; lia).
  rewrite (wrap_small 64) by (unfold in_width; lia). rewrite (proj2 (Z.ltb_lt _ _)) by lia.
  change (u32 (2 ^ 31 * 2)) with 0.
  assert (Hg : ∀ fuel req, 0 < req → grow_size fuel 0 req = Fault Diverges).
  { induction fuel as [|fuel IH]; intros req Hr; [done|]. cbn [grow_size].
    rewrite (proj2 (Z.ltb_lt _ _)) by done. change (u32 (0 * 2)) with 0. by apply IH. }
  by rewrite Hg by lia.
Qed.
