(* ===== verification/LdbCoding.v ===== *)
(** * LevelDB, util/coding: integers and slices as bytes

    The encodings the files of the index are made of (src/extern/leveldb-1.22, util/coding,
    util/logging and include/leveldb/slice.h). A slice, and the range of a pointer and its
    limit, is a list of bytes; a function that advances a slice returns what is left of it. *)

From S2P Require Import Prelude.

(** ** Slices *)

Abbreviation Slice := (list Z).

(** [assert(n <= size())] *)
Definition remove_prefix (s : Slice) (n : Z) : outcome Slice :=
  if n <=? len s then Ok (drop (Z.to_nat n) s) else Fault OutOfBounds.

(** The sign of the first difference between the bytes. *)
Fixpoint memcmp (a b : list Z) : Z :=
  match a, b with
  | x :: a, y :: b => if x <? y then -1 else if y <? x then 1 else memcmp a b
  | _, _ => 0
  end.

Definition slice_compare (a b : Slice) : Z :=
  let min_len := Z.min (len a) (len b) in
  let r := memcmp (take (Z.to_nat min_len) a) (take (Z.to_nat min_len) b) in
  if r =? 0 then if len a <? len b then -1 else if len b <? len a then 1 else r else r.

Definition starts_with (s x : Slice) : bool :=
  (len x <=? len s) && (memcmp (take (length x) s) x =? 0).

(** ** Fixed-width integers *)

(** The memory of a little-endian machine; the branch for the others computes the bytes. *)
Definition EncodeFixed32 (value : Z) : list Z := le_bytes 4 value.
Definition EncodeFixed64 (value : Z) : list Z := le_bytes 8 value.

Definition byte_of (value shift : Z) : Z := u8 (Z.land (Z.shiftr value shift) 0xff).
Definition EncodeFixed32_portable (value : Z) : list Z :=
  [byte_of value 0; byte_of value 8; byte_of value 16; byte_of value 24].
Definition EncodeFixed64_portable (value : Z) : list Z :=
  [byte_of value 0; byte_of value 8; byte_of value 16; byte_of value 24;
   byte_of value 32; byte_of value 40; byte_of value 48; byte_of value 56].

Definition PutFixed32 (dst : list Z) (value : Z) : list Z := dst ++ EncodeFixed32 value.
Definition PutFixed64 (dst : list Z) (value : Z) : list Z := dst ++ EncodeFixed64 value.

Definition DecodeFixed32 (ptr : list Z) : outcome Z := l ← read_at ptr 0 4; Ok (le_value l).
Definition DecodeFixed64 (ptr : list Z) : outcome Z := l ← read_at ptr 0 8; Ok (le_value l).

(** ** Variable-length integers *)

Definition B : Z := 128.

Definition EncodeVarint32 (v : Z) : list Z :=
  if v <? 2 ^ 7 then [u8 v]
  else if v <? 2 ^ 14 then [u8 (Z.lor v B); u8 (Z.shiftr v 7)]
  else if v <? 2 ^ 21 then [u8 (Z.lor v B); u8 (Z.lor (Z.shiftr v 7) B); u8 (Z.shiftr v 14)]
  else if v <? 2 ^ 28 then
    [u8 (Z.lor v B); u8 (Z.lor (Z.shiftr v 7) B); u8 (Z.lor (Z.shiftr v 14) B); u8 (Z.shiftr v 21)]
  else
    [u8 (Z.lor v B); u8 (Z.lor (Z.shiftr v 7) B); u8 (Z.lor (Z.shiftr v 14) B);
     u8 (Z.lor (Z.shiftr v 21) B); u8 (Z.shiftr v 28)].

Definition PutVarint32 (dst : list Z) (v : Z) : list Z := dst ++ EncodeVarint32 v.

(** The loop divides by 128: ten rounds for 64 bits. *)
Fixpoint EncodeVarint64_loop (fuel : nat) (v : Z) : list Z :=
  match fuel with
  | O => []
  | S fuel => if B <=? v then u8 (Z.lor v B) :: EncodeVarint64_loop fuel (Z.shiftr v 7) else [u8 v]
  end.
Definition EncodeVarint64 (v : Z) : list Z := EncodeVarint64_loop 10 v.

Definition PutVarint64 (dst : list Z) (v : Z) : list Z := dst ++ EncodeVarint64 v.

(** The size goes through an [uint32_t]. *)
Definition PutLengthPrefixedSlice (dst : list Z) (value : Slice) : list Z :=
  PutVarint32 dst (u32 (len value)) ++ value.

Fixpoint VarintLength_loop (fuel : nat) (v n : Z) : Z :=
  match fuel with
  | O => n
  | S fuel => if 128 <=? v then VarintLength_loop fuel (Z.shiftr v 7) (n + 1) else n
  end.
Definition VarintLength (v : Z) : Z := VarintLength_loop 10 v 1.

(** The loop over [shift], with [n] rounds left, on integers of [w] bits. *)
Fixpoint get_varint (w : Z) (n : nat) (shift result : Z) (p : list Z) : option (Z * list Z) :=
  match n with
  | O => None
  | S n =>
      match p with
      | [] => None
      | byte :: p =>
          if negb (Z.land byte 128 =? 0)
          then get_varint w n (shift + 7) (Z.lor result (wrap w (Z.shiftl (Z.land byte 127) shift))) p
          else Some (Z.lor result (wrap w (Z.shiftl byte shift)), p)
      end
  end.

(** Shifts up to 28 and up to 63. *)
Definition GetVarint32PtrFallback (p : list Z) : option (Z * list Z) := get_varint 32 5 0 0 p.
Definition GetVarint64Ptr (p : list Z) : option (Z * list Z) := get_varint 64 10 0 0 p.

Definition GetVarint32Ptr (p : list Z) : option (Z * list Z) :=
  match p with
  | result :: rest => if Z.land result 128 =? 0 then Some (result, rest) else GetVarint32PtrFallback p
  | [] => GetVarint32PtrFallback p
  end.

(** On failure the slice and the value are left as they were. *)
Definition GetVarint32 (input : Slice) : option (Z * Slice) := GetVarint32Ptr input.
Definition GetVarint64 (input : Slice) : option (Z * Slice) := GetVarint64Ptr input.

(** The slice; the varint is consumed even when the bytes after it are too few. *)
Definition GetLengthPrefixedSlice (input : Slice) : option Slice * Slice :=
  match GetVarint32 input with
  | None => (None, input)
  | Some (n, input) =>
      if n <=? len input then (Some (take (Z.to_nat n) input), drop (Z.to_nat n) input)
      else (None, input)
  end.

(** ** Numbers and text (util/logging.cc) *)

(** [%llu] *)
Fixpoint digits (fuel : nat) (num : Z) (acc : list Z) : list Z :=
  match fuel with
  | O => acc
  | S fuel => if num <? 10 then (48 + num) :: acc else digits fuel (num / 10) (48 + num mod 10 :: acc)
  end.

Definition AppendNumberTo (str : list Z) (num : Z) : list Z := str ++ digits 20 num [].
Definition NumberToString (num : Z) : list Z := AppendNumberTo [] num.

Definition hex_char (d : Z) : Z := if d <? 10 then 48 + d else 87 + d.

(** Characters are signed: bytes from 128 on are below the space. *)
Definition escape_byte (c : Z) : list Z :=
  if (32 <=? c) && (c <=? 126) then [c] else [92; 120; hex_char (c / 16); hex_char (c mod 16)].
Definition AppendEscapedStringTo (str : list Z) (value : Slice) : list Z := str ++ flat_map escape_byte value.
Definition EscapeString (value : Slice) : list Z := AppendEscapedStringTo [] value.

Definition kMaxUint64 : Z := 2 ^ 64 - 1.
Definition kLastDigitOfMaxUint64 : Z := 48 + kMaxUint64 mod 10.

(** The digits consumed: their number, the value and the rest; [None] on overflow. *)
Fixpoint consume_digits (l : Slice) (value consumed : Z) : option (Z * Z * Slice) :=
  match l with
  | ch :: l' =>
      if (ch <? 48) || (57 <? ch) then Some (consumed, value, l)
      else if (kMaxUint64 / 10 <? value) || ((value =? kMaxUint64 / 10) && (kLastDigitOfMaxUint64 <? ch))
      then None
      else consume_digits l' (u64 (value * 10 + (ch - 48))) (consumed + 1)
  | [] => Some (consumed, value, [])
  end.

(** The result, the number when it is stored, and the slice. *)
Definition ConsumeDecimalNumber (input : Slice) : bool * option Z * Slice :=
  match consume_digits input 0 0 with
  | None => (false, None, input)
  | Some (consumed, value, rest) => (negb (consumed =? 0), Some value, rest)
  end.

(** ** Lemmas *)

Lemma EncodeFixed32_agrees v : 0 ≤ v → EncodeFixed32 v = EncodeFixed32_portable v.
Proof.
  intros Hv. unfold EncodeFixed32, EncodeFixed32_portable, byte_of.
  cbn [le_bytes]. rewrite !land_0xFF, !Z.shiftr_div_pow2, !Z.div_div by lia. unfold wrap.
  rewrite !Zmod_mod, Z.div_1_r. done.
Qed.

Lemma EncodeFixed64_agrees v : 0 ≤ v → EncodeFixed64 v = EncodeFixed64_portable v.
Proof.
  intros Hv. unfold EncodeFixed64, EncodeFixed64_portable, byte_of.
  cbn [le_bytes]. rewrite !land_0xFF, !Z.shiftr_div_pow2, !Z.div_div by lia. unfold wrap.
  rewrite !Zmod_mod, Z.div_1_r. done.
Qed.

Lemma DecodeFixed32_ok v rest : in_width 32 v → DecodeFixed32 (EncodeFixed32 v ++ rest) = Ok v.
Proof.
  intros Hv. unfold DecodeFixed32, EncodeFixed32.
  rewrite read_at_head by (by rewrite length_le_bytes). rewrite outcome_bind_ok.
  by rewrite le_value_bytes_small.
Qed.

Lemma DecodeFixed64_ok v rest : in_width 64 v → DecodeFixed64 (EncodeFixed64 v ++ rest) = Ok v.
Proof.
  intros Hv. unfold DecodeFixed64, EncodeFixed64.
  rewrite read_at_head by (by rewrite length_le_bytes). rewrite outcome_bind_ok.
  by rewrite le_value_bytes_small.
Qed.

(** Arrays of integers. *)
Lemma PutFixed32_all l dst : fold_left PutFixed32 l dst = dst ++ concat (map EncodeFixed32 l).
Proof.
  revert dst. induction l as [|x l IH]; intros dst; cbn [fold_left map concat]; [by rewrite app_nil_r|].
  rewrite IH. unfold PutFixed32. by rewrite <- app_assoc.
Qed.

Lemma length_fixed32s l : len (concat (map EncodeFixed32 l)) = 4 * len l.
Proof.
  induction l as [|x l IH]; [done|]. cbn [map concat]. rewrite length_app. unfold EncodeFixed32 at 1.
  rewrite length_le_bytes. cbn [length]. lia.
Qed.

(** A group of seven bits with the continuation bit, and the last one without. *)
Lemma continued_byte v : 0 ≤ v → u8 (Z.lor v B) = v mod 128 + 128.
Proof.
  intros Hv. unfold B, wrap. change (2 ^ 8) with 256. rewrite <- (land_0xFF (Z.lor v 128)).
  rewrite Z.land_lor_distr_l, land_0xFF. change (Z.land 128 255) with 128.
  replace (v mod 128) with ((v mod 256) mod 128)
    by (change 256 with (128 * 2); rewrite Z.rem_mul_r by lia; lia_mod).
  pose proof (Z.mod_pos_bound v 256 ltac:(lia)) as Hb. generalize dependent (v mod 256). intros b Hb.
  apply Z.eqb_eq. revert b Hb. apply byte_forall. by vm_compute.
Qed.

Lemma last_byte v : 0 ≤ v < 128 → u8 v = v.
Proof. intros. apply wrap_small. unfold in_width. lia. Qed.

(** What is left of the bits of a varint after a group. *)
Lemma ldb_shiftr_7 v : Z.shiftr v 7 = v / 128.
Proof. by rewrite Z.shiftr_div_pow2. Qed.

Lemma EncodeVarint64_bytes fuel v : 0 ≤ v → bytes (EncodeVarint64_loop fuel v).
Proof.
  revert v. induction fuel as [|fuel IH]; intros v Hv; cbn [EncodeVarint64_loop]; [constructor|].
  unfold B. destruct (128 <=? v); repeat constructor; try apply wrap_in_width; try lia.
  apply IH. apply Z.shiftr_nonneg. lia.
Qed.

(** Decoding reads an encoding back, when the value fits the integers of the decoder. *)
Lemma get_varint_ok w n shift result v rest :
  (0 < n)%nat → 0 ≤ shift → in_width shift result → 0 ≤ v < 2 ^ (7 * Z.of_nat n) → v * 2 ^ shift < 2 ^ w → 0 ≤ w →
  get_varint w n shift result (EncodeVarint64_loop n v ++ rest) = Some (result + v * 2 ^ shift, rest).
Proof.
  revert shift result v. induction n as [|n IH]; intros shift result v Hn Hs Hr Hv Hw H0; [lia|].
  cbn [EncodeVarint64_loop]. unfold B at 1. pose proof (Z.pow_pos_nonneg 2 shift ltac:(lia) Hs) as Hp.
  destruct (128 <=? v) eqn:E; split_bool; cbn [app get_varint].
  - rewrite continued_byte by lia. pose proof (Z.mod_pos_bound v 128 ltac:(lia)) as Hm.
    rewrite (land_0x80 (v mod 128 + 128)) by (unfold in_width; lia).
    rewrite (proj2 (Z.ltb_ge _ _)) by lia. cbn [negb].
    rewrite land_0x7F. replace ((v mod 128 + 128) mod 128) with (v mod 128) by lia_mod.
    assert (Hpart : v mod 128 * 2 ^ shift < 2 ^ w).
    { eapply Z.le_lt_trans; [|exact Hw]. apply Z.mul_le_mono_nonneg_r; [lia|lia_mod]. }
    rewrite wrap_small by (rewrite Z.shiftl_mul_pow2 by lia; unfold in_width; nia).
    rewrite lor_shiftl by done. rewrite ldb_shiftr_7.
    assert (Hv2 : 2 ^ (7 * Z.of_nat (S n)) = 128 * 2 ^ (7 * Z.of_nat n))
      by (rewrite Nat2Z.inj_succ, Z.mul_succ_r, Z.pow_add_r by lia; change (2 ^ 7) with 128; lia).
    assert (Hsh : 2 ^ (shift + 7) = 128 * 2 ^ shift) by (rewrite Z.pow_add_r by lia; change (2 ^ 7) with 128; lia).
    rewrite IH.
    + f_equal. f_equal. rewrite Hsh. pose proof (Z.div_mod v 128 ltac:(lia)). nia.
    + destruct n; [|lia]. change (2 ^ (7 * Z.of_nat 1)) with 128 in Hv. lia.
    + lia.
    + unfold in_width in *. rewrite Hsh. nia.
    + rewrite Hv2 in Hv. split; [lia_mod|]. apply Z.div_lt_upper_bound; lia.
    + rewrite Hsh. eapply Z.le_lt_trans; [|exact Hw]. pose proof (Z.div_mod v 128 ltac:(lia)). nia.
    + done.
  - rewrite last_byte by lia. rewrite land_0x80 by (unfold in_width; lia).
    rewrite (proj2 (Z.ltb_lt _ _)) by lia. cbn [negb].
    rewrite wrap_small by (rewrite Z.shiftl_mul_pow2 by lia; unfold in_width; nia).
    by rewrite lor_shiftl by done.
Qed.

Lemma GetVarint64_ok v rest : in_width 64 v → GetVarint64 (EncodeVarint64 v ++ rest) = Some (v, rest).
Proof.
  intros Hv. unfold GetVarint64, GetVarint64Ptr, EncodeVarint64.
  rewrite get_varint_ok; unfold in_width in *; try lia. by rewrite Z.mul_1_r.
Qed.

(** The unrolled encoder agrees with the loop. *)
Lemma EncodeVarint32_loop v n : in_width 32 v → (5 ≤ n)%nat → EncodeVarint32 v = EncodeVarint64_loop n v.
Proof.
  intros Hv Hn. unfold in_width in Hv. do 5 (destruct n as [|n]; [lia|]). clear Hn.
  unfold EncodeVarint32. cbn [EncodeVarint64_loop]. unfold B.
  rewrite !Z.shiftr_shiftr by lia. cbn [Z.add Pos.add Pos.add_carry Pos.succ].
  assert (Hsh : ∀ k, 0 ≤ k → ∀ m, (m <=? Z.shiftr v k) = (m * 2 ^ k <=? v)).
  { intros k Hk m. rewrite Z.shiftr_div_pow2 by done. apply eq_bool_prop_intro.
    rewrite !Is_true_true, !Z.leb_le. pose proof (Z.pow_pos_nonneg 2 k ltac:(lia) Hk).
    split; intros; [|apply Z.div_le_lower_bound; lia].
    etransitivity; [apply Z.mul_le_mono_nonneg_r; [lia|eassumption]|]. rewrite Z.mul_comm. by apply Z.mul_div_le. }
  rewrite !Hsh by lia. repeat (case_match; split_bool; try lia); done.
Qed.

Lemma GetVarint32Ptr_fallback p :
  (∀ b, head p = Some b → is_byte b) → GetVarint32Ptr p = GetVarint32PtrFallback p.
Proof.
  intros Hp. destruct p as [|b p]; [done|]. specialize (Hp b eq_refl). unfold GetVarint32Ptr.
  destruct (Z.land b 128 =? 0) eqn:E; [|done]. unfold GetVarint32PtrFallback. cbn [get_varint].
  rewrite E. cbn [negb]. rewrite Z.shiftl_0_r, Z.lor_0_l. rewrite wrap_small; [done|].
  unfold in_width in *. lia.
Qed.

Lemma GetVarint32_ok v rest : in_width 32 v → GetVarint32 (EncodeVarint32 v ++ rest) = Some (v, rest).
Proof.
  intros Hv. unfold GetVarint32. rewrite (EncodeVarint32_loop v 5) by (done || lia).
  pose proof Hv as [H0 _]. rewrite GetVarint32Ptr_fallback.
  - unfold GetVarint32PtrFallback. rewrite get_varint_ok; unfold in_width in *; try lia. by rewrite Z.mul_1_r.
  - intros b. pose proof (EncodeVarint64_bytes 5 v H0) as Hb. cbn [EncodeVarint64_loop] in *.
    destruct (B <=? v); cbn [app head]; intros [= <-]; by apply Forall_cons in Hb as [? _].
Qed.

(** Slices with their length. *)
Lemma GetLengthPrefixedSlice_ok value rest :
  len value < 2 ^ 32 → GetLengthPrefixedSlice (PutLengthPrefixedSlice [] value ++ rest) = (Some value, rest).
Proof.
  intros Hl. unfold PutLengthPrefixedSlice, PutVarint32, GetLengthPrefixedSlice. cbn [app].
  rewrite wrap_small by (unfold in_width; lia). rewrite <- app_assoc.
  rewrite GetVarint32_ok by (unfold in_width; lia).
  rewrite (proj2 (Z.leb_le _ _)) by (rewrite length_app; lia).
  by rewrite Nat2Z.id, take_app_length, drop_app_length.
Qed.

Lemma VarintLength_loop_ok fuel v n :
  (0 < fuel)%nat → 0 ≤ v < 2 ^ (7 * Z.of_nat fuel) →
  VarintLength_loop fuel v n = n + len (EncodeVarint64_loop fuel v) - 1.
Proof.
  revert v n. induction fuel as [|fuel IH]; intros v n Hf Hv; [lia|].
  cbn [VarintLength_loop EncodeVarint64_loop]. unfold B. destruct (128 <=? v) eqn:E; split_bool; [|cbn; lia].
  assert (Hv2 : 2 ^ (7 * Z.of_nat (S fuel)) = 128 * 2 ^ (7 * Z.of_nat fuel))
    by (rewrite Nat2Z.inj_succ, Z.mul_succ_r, Z.pow_add_r by lia; change (2 ^ 7) with 128; lia).
  rewrite ldb_shiftr_7. destruct fuel as [|fuel].
  { change (2 ^ (7 * Z.of_nat 1)) with 128 in Hv. lia. }
  rewrite IH; [cbn [length]; lia|lia|]. rewrite Hv2 in Hv. split; [lia_mod|]. apply Z.div_lt_upper_bound; lia.
Qed.

(** The value of decimal digits. *)
Definition is_decimal (c : Z) : Prop := 48 ≤ c ≤ 57.
Definition decimal_from (a : Z) (ds : list Z) : Z := fold_left (λ a c, a * 10 + (c - 48)) ds a.
Definition ends_number (rest : Slice) : Prop := match rest with c :: _ => ~ is_decimal c | [] => True end.

Lemma decimal_from_ge ds a : Forall is_decimal ds → 0 ≤ a → a ≤ decimal_from a ds.
Proof.
  intros Hd. revert a. induction Hd as [|c ds Hc Hd IH]; intros a Ha; cbn; [lia|].
  unfold is_decimal in Hc. etransitivity; [|apply IH; lia]. lia.
Qed.

Lemma consume_digits_ok ds rest value consumed :
  Forall is_decimal ds → ends_number rest → 0 ≤ value < 2 ^ 64 →
  consume_digits (ds ++ rest) value consumed =
    if decimal_from value ds <? 2 ^ 64 then Some (consumed + len ds, decimal_from value ds, rest) else None.
Proof.
  intros Hd Hr. revert value consumed. induction Hd as [|c ds Hc Hd IH]; intros value consumed Hv.
  - cbn. rewrite (proj2 (Z.ltb_lt _ _)), Z.add_0_r by lia. destruct rest as [|c rest]; [done|].
    cbn. unfold ends_number, is_decimal in Hr.
    destruct ((c <? 48) || (57 <? c)) eqn:E; [done|]. split_bool. lia.
  - cbn [app consume_digits]. unfold is_decimal in Hc.
    rewrite (proj2 (Z.ltb_ge c 48)), (proj2 (Z.ltb_ge 57 c)) by lia. cbn [orb].
    unfold kLastDigitOfMaxUint64, kMaxUint64.
    change ((2 ^ 64 - 1) / 10) with 1844674407370955161. change (48 + (2 ^ 64 - 1) mod 10) with 53.
    change (decimal_from value (c :: ds)) with (decimal_from (value * 10 + (c - 48)) ds).
    destruct ((1844674407370955161 <? value) || ((value =? 1844674407370955161) && (53 <? c))) eqn:E.
    + rewrite (proj2 (Z.ltb_ge _ _)); [done|]. etransitivity; [|apply decimal_from_ge; [done|lia]].
      split_bool; lia.
    + assert (Hnew : value * 10 + (c - 48) < 2 ^ 64) by (split_bool; lia).
      rewrite wrap_small by (unfold in_width; lia). rewrite IH by lia. cbn [length].
      by replace (consumed + 1 + len ds) with (consumed + Z.of_nat (S (length ds))) by lia.
Qed.

Lemma digits_ok fuel num acc :
  (0 < fuel)%nat → 0 ≤ num < 10 ^ Z.of_nat fuel →
  ∃ ds, digits fuel num acc = ds ++ acc ∧ ds ≠ [] ∧ Forall is_decimal ds ∧ decimal_from 0 ds = num.
Proof.
  revert num acc. induction fuel as [|fuel IH]; intros num acc Hf Hn; [lia|]. cbn [digits].
  destruct (num <? 10) eqn:E; split_bool.
  - exists [48 + num]. split; [done|]. split; [done|]. split; [|cbn; lia].
    apply Forall_singleton. unfold is_decimal. lia.
  - assert (Hp : 10 ^ Z.of_nat (S fuel) = 10 * 10 ^ Z.of_nat fuel) by (rewrite Nat2Z.inj_succ, Z.pow_succ_r; lia).
    destruct fuel as [|fuel]; [change (10 ^ Z.of_nat 1) with 10 in Hn; lia|].
    destruct (IH (num / 10) (48 + num mod 10 :: acc)) as (ds & -> & Hne & Hd & Hv); [lia| |].
    { rewrite Hp in Hn. split; [lia_mod|]. apply Z.div_lt_upper_bound; lia. }
    exists (ds ++ [48 + num mod 10]). split; [by rewrite <- app_assoc|]. split; [by destruct ds|].
    split; [apply Forall_app; split; [done|apply Forall_singleton; unfold is_decimal; lia_mod]|].
    unfold decimal_from in *. rewrite fold_left_app, Hv. cbn. lia_mod.
Qed.

(** ** Properties *)

(** The variable-length encodings of LevelDB are read back by their decoders, whatever
    follows them - 32 and 64 bits, and a slice with its length - the two encoders agree on
    32-bit values, and [VarintLength] is the length of the encoding. *)
Theorem Varint_slices_roundtrip v w value rest :
  in_width 32 v → in_width 64 w → len value < 2 ^ 32 →
  GetVarint32 (PutVarint32 [] v ++ rest) = Some (v, rest) ∧
  GetVarint64 (PutVarint64 [] w ++ rest) = Some (w, rest) ∧
  PutVarint32 [] v = PutVarint64 [] v ∧
  VarintLength w = len (PutVarint64 [] w) ∧
  GetLengthPrefixedSlice (PutLengthPrefixedSlice [] value ++ rest) = (Some value, rest).
Proof.
  intros Hv Hw Hl. unfold PutVarint32, PutVarint64. cbn [app]. split_and!.
  - by apply GetVarint32_ok.
  - by apply GetVarint64_ok.
  - by apply EncodeVarint32_loop; [|lia].
  - unfold VarintLength. unfold in_width in Hw. rewrite VarintLength_loop_ok by lia.
    unfold EncodeVarint64. lia.
  - by apply GetLengthPrefixedSlice_ok.
Qed.

Lemma Varint_slices_roundtrip_witness :
  GetVarint32 (PutVarint32 [] 300 ++ [7]) = Some (300, [7]) ∧
  GetVarint64 (PutVarint64 [] (2 ^ 63) ++ [7]) = Some (2 ^ 63, [7]) ∧ VarintLength (2 ^ 63) = 10 ∧
  GetLengthPrefixedSlice ([2; 5; 6] ++ [7]) = (Some [5; 6], [7]).
Proof.
  destruct (Varint_slices_roundtrip 300 (2 ^ 63) [5; 6] [7]) as (H1 & H2 & _ & H3 & H4);
    [done|done|done|].
  split; [exact H1|]. split; [exact H2|]. split; [exact H3|exact H4].
Defined.

(** [ConsumeDecimalNumber] reads the digits at the start of a slice as a number and
    leaves the rest, and fails without consuming anything exactly when there is no digit
    or the number is 2^64 or more; it reads [NumberToString] back. *)
Theorem ConsumeDecimalNumber_reads ds rest :
  Forall is_decimal ds → ends_number rest →
  ConsumeDecimalNumber (ds ++ rest) =
    (if decimal_from 0 ds <? 2 ^ 64 then (negb (bool_decide (ds = [])), Some (decimal_from 0 ds), rest)
     else (false, None, ds ++ rest)) ∧
  ∀ n, in_width 64 n → ConsumeDecimalNumber (NumberToString n ++ rest) = (true, Some n, rest).
Proof.
  intros Hd Hr.
  assert (Hgen : ∀ ds, Forall is_decimal ds → ConsumeDecimalNumber (ds ++ rest) =
    if decimal_from 0 ds <? 2 ^ 64 then (negb (bool_decide (ds = [])), Some (decimal_from 0 ds), rest)
    else (false, None, ds ++ rest)).
  { intros l Hl. unfold ConsumeDecimalNumber. rewrite consume_digits_ok by (done || lia).
    destruct (decimal_from 0 l <? 2 ^ 64); [|done]. do 3 f_equal. by destruct l. }
  split; [by apply Hgen|]. intros n Hn. unfold in_width in Hn. unfold NumberToString, AppendNumberTo. cbn [app].
  destruct (digits_ok 20 n []) as (l & -> & Hne & Hl & Hv); [lia|lia|].
  rewrite app_nil_r, Hgen by done. rewrite Hv, (proj2 (Z.ltb_lt _ _)) by lia. by destruct l.
Qed.

Lemma ConsumeDecimalNumber_reads_witness :
  ConsumeDecimalNumber ([52; 50] ++ [46]) = (true, Some 42, [46]) ∧
  ConsumeDecimalNumber (NumberToString (2 ^ 64 - 1) ++ [46]) = (true, Some (2 ^ 64 - 1), [46]).
Proof.
  destruct (ConsumeDecimalNumber_reads [52; 50] [46]) as [H1 H2].
  - repeat constructor; done.
  - unfold ends_number, is_decimal. lia.
  - split; [exact H1|]. by apply (H2 (2 ^ 64 - 1)).
Defined.
