(* ===== verification/LdbOrder.v ===== *)
(** * LevelDB, util/comparator: the order of keys

    The interface of comparators (include/leveldb/comparator.h) with what its comments
    promise, and the bytewise comparator (util/comparator.cc) as an instance. *)

From S2P Require Import Prelude LdbCoding.

(** A comparison is undefined on what is not a key for the comparator. *)
Class Comparator : Type := {
  Compare : Slice → Slice → outcome Z;
  FindShortestSeparator : Slice → Slice → outcome Slice;   (* the new [*start] *)
  FindShortSuccessor : Slice → outcome Slice
}.

(** A total order on the keys, and the two functions that shorten keys. *)
Class ComparatorLaws `{Comparator} : Type := {
  key_ok : Slice → Prop;
  order : Slice → Slice → Z;
  Compare_ok a b : key_ok a → key_ok b → Compare a b = Ok (order a b);
  order_eq a b : key_ok a → key_ok b → order a b = 0 ↔ a = b;
  order_flip a b : key_ok a → key_ok b → order a b < 0 ↔ 0 < order b a;
  order_trans a b c : key_ok a → key_ok b → key_ok c → order a b < 0 → order b c < 0 → order a c < 0;
  Separator_between start limit : key_ok start → key_ok limit → order start limit < 0 →
    ∃ key, FindShortestSeparator start limit = Ok key ∧ key_ok key ∧ order start key ≤ 0 ∧ order key limit < 0;
  Separator_otherwise start limit : key_ok start → key_ok limit → 0 ≤ order start limit →
    FindShortestSeparator start limit = Ok start;
  Successor_above key : key_ok key → ∃ key', FindShortSuccessor key = Ok key' ∧ key_ok key' ∧ order key key' ≤ 0
}.

(** ** [BytewiseComparatorImpl] *)

(** The common prefix is skipped; at the first difference a byte is incremented and the
    rest cut off, if that stays below the limit. *)
Fixpoint bytewise_separator (start limit : list Z) : list Z :=
  match start, limit with
  | s :: start', l :: limit' =>
      if s =? l then s :: bytewise_separator start' limit'
      else if (s <? 0xff) && (s + 1 <? l) then [s + 1] else start
  | _, _ => start
  end.

Fixpoint bytewise_successor (key : list Z) : list Z :=
  match key with
  | [] => []
  | byte :: rest => if negb (byte =? 0xff) then [byte + 1] else byte :: bytewise_successor rest
  end.

#[export] Instance BytewiseComparator : Comparator := {|
  Compare a b := Ok (slice_compare a b);
  FindShortestSeparator start limit := Ok (bytewise_separator start limit);
  FindShortSuccessor key := Ok (bytewise_successor key)
|}.

(** ** The lexicographic order *)

Fixpoint lexicographic (a b : list Z) : Z :=
  match a, b with
  | [], [] => 0
  | [], _ => -1
  | _, [] => 1
  | x :: a, y :: b => if x <? y then -1 else if y <? x then 1 else lexicographic a b
  end.

Lemma slice_compare_lexicographic a b : slice_compare a b = lexicographic a b.
Proof.
  unfold slice_compare. rewrite <- Nat2Z.inj_min, Nat2Z.id.
  revert b. induction a as [|x a IH]; intros [|y b]; try done.
  cbn [length Nat.min take memcmp lexicographic]. destruct (x <? y) eqn:E1; [done|].
  destruct (y <? x) eqn:E2; [done|]. rewrite <- IH. rewrite !Nat2Z.inj_succ.
  destruct (_ =? 0); [|done].
  destruct (len a <? len b) eqn:E3, (len b <? len a) eqn:E4; split_bool; repeat decide_test; done.
Qed.

Ltac lex_cases :=
  repeat match goal with
  | |- context [?x <? ?y] => destruct (Z.ltb_spec x y)
  | H : context [?x <? ?y] |- _ => destruct (Z.ltb_spec x y)
  end.

Lemma lexicographic_refl a : lexicographic a a = 0.
Proof. induction a as [|x a IH]; [done|]. cbn. lex_cases; lia. Qed.

Lemma lexicographic_eq a b : lexicographic a b = 0 ↔ a = b.
Proof.
  split; [|intros ->; apply lexicographic_refl].
  revert b. induction a as [|x a IH]; intros [|y b]; cbn; try done. lex_cases; try done.
  intros E. f_equal; [lia|by apply IH].
Qed.

Lemma lexicographic_opp a b : lexicographic b a = - lexicographic a b.
Proof.
  revert b. induction a as [|x a IH]; intros [|y b]; cbn; try done. lex_cases; try done; try lia.
Qed.

Lemma lexicographic_trans a b c : lexicographic a b < 0 → lexicographic b c < 0 → lexicographic a c < 0.
Proof.
  revert b c. induction a as [|x a IH]; intros [|y b] [|z c]; cbn; try lia.
  lex_cases; try lia. apply IH.
Qed.

Lemma bytewise_separator_between start limit :
  lexicographic start limit < 0 →
  lexicographic start (bytewise_separator start limit) ≤ 0 ∧
  lexicographic (bytewise_separator start limit) limit < 0.
Proof.
  revert limit. induction start as [|s start IH]; intros [|l limit] Hlt; cbn in Hlt |- *; try (split; (done || lia)).
  destruct (s =? l) eqn:E; split_bool; cbn.
  - lex_cases; try lia. by apply IH.
  - destruct ((s <? 255) && (s + 1 <? l)) eqn:E2; split_bool; cbn.
    + lex_cases; split; lia.
    + pose proof (lexicographic_refl (s :: start)) as Hr. cbn in Hr. lex_cases; split; lia.
Qed.

Lemma bytewise_separator_otherwise start limit :
  0 ≤ lexicographic start limit → bytewise_separator start limit = start.
Proof.
  revert limit. induction start as [|s start IH]; intros [|l limit] Hge; cbn in Hge |- *; try done.
  destruct (s =? l) eqn:E; split_bool.
  - f_equal. apply IH. by lex_cases; try lia.
  - lex_cases; cbn; (done || lia).
Qed.

Lemma bytewise_successor_above key : lexicographic key (bytewise_successor key) ≤ 0.
Proof.
  induction key as [|b key IH]; [done|]. cbn. destruct (negb (b =? 255)); cbn; lex_cases; lia.
Qed.

(** Its keys are strings of bytes. *)
Lemma bytewise_separator_bytes start limit : bytes start → bytes limit → bytes (bytewise_separator start limit).
Proof.
  intros Hs. revert limit. induction Hs as [|s start Hs Hall IH]; intros [|l limit] Hl; try by constructor.
  apply Forall_cons in Hl as [_ Hl]. cbn. destruct (s =? l); [by apply Forall_cons; split; [|apply IH]|].
  destruct (_ && _) eqn:E; split_bool; [|by apply Forall_cons].
  apply Forall_singleton. unfold in_width in *. lia.
Qed.

Lemma bytewise_successor_bytes key : bytes key → bytes (bytewise_successor key).
Proof.
  induction 1 as [|b key Hb Hall IH]; [done|]. cbn. destruct (negb (b =? 255)) eqn:E; split_bool.
  - apply Forall_singleton. unfold in_width in *. lia.
  - by apply Forall_cons.
Qed.

#[export] Instance bytewise_laws : ComparatorLaws.
Proof.
  refine {| key_ok := bytes; order := slice_compare |}; intros *; rewrite ?slice_compare_lexicographic;
    cbn [Compare FindShortestSeparator FindShortSuccessor BytewiseComparator].
  - by rewrite slice_compare_lexicographic.
  - intros _ _. apply lexicographic_eq.
  - intros _ _. rewrite (lexicographic_opp a b). lia.
  - intros _ _ _. apply lexicographic_trans.
  - intros Hs Hl Hlt. eexists. split; [done|]. rewrite !slice_compare_lexicographic.
    split; [by apply bytewise_separator_bytes|]. by apply bytewise_separator_between.
  - intros _ _ Hge. by rewrite bytewise_separator_otherwise.
  - intros Hk. eexists. split; [done|]. rewrite slice_compare_lexicographic.
    split; [by apply bytewise_successor_bytes|apply bytewise_successor_above].
Defined.

(** Keys are bytes, and shortening does not lengthen them. *)
Class CompactKeys `{ComparatorLaws} : Prop := {
  key_ok_bytes key : key_ok key → bytes key;
  Separator_short start limit key : FindShortestSeparator start limit = Ok key → len key ≤ len start;
  Successor_short key key' : FindShortSuccessor key = Ok key' → len key' ≤ len key
}.

Lemma bytewise_separator_length start limit : (length (bytewise_separator start limit) ≤ length start)%nat.
Proof.
  revert limit. induction start as [|s start IH]; intros [|l limit]; cbn [bytewise_separator length]; try lia.
  specialize (IH limit). destruct (s =? l); cbn [length]; [lia|]. destruct (_ && _); cbn [length]; lia.
Qed.

Lemma bytewise_successor_length key : (length (bytewise_successor key) ≤ length key)%nat.
Proof. induction key as [|b key IH]; cbn [bytewise_successor length]; [lia|]. destruct (negb _); cbn [length]; lia. Qed.

#[export] Instance bytewise_compact : @CompactKeys _ bytewise_laws.
Proof.
  split; [done| |]; cbn [FindShortestSeparator FindShortSuccessor BytewiseComparator].
  - intros start limit key [= <-]. pose proof (bytewise_separator_length start limit). lia.
  - intros key key' [= <-]. pose proof (bytewise_successor_length key). lia.
Qed.

(** ** Consequences of the laws *)

Section order.
Context `{ComparatorLaws}.

Lemma order_irrefl a : key_ok a → ~ order a a < 0.
Proof. intros Ha. rewrite (proj2 (order_eq a a Ha Ha) eq_refl). lia. Qed.

Lemma order_refl a : key_ok a → order a a = 0.
Proof. intros Ha. by apply order_eq. Qed.

Lemma order_antisym a b : key_ok a → key_ok b → order a b ≤ 0 → order b a ≤ 0 → a = b.
Proof.
  intros Ha Hb H1 H2. apply (order_eq a b Ha Hb). pose proof (order_flip a b Ha Hb). pose proof (order_flip b a Hb Ha). lia.
Qed.

Lemma order_ge a b : key_ok a → key_ok b → 0 ≤ order a b ↔ order b a ≤ 0.
Proof. intros Ha Hb. pose proof (order_flip a b Ha Hb). pose proof (order_flip b a Hb Ha). lia. Qed.

Lemma order_le_lt a b c :
  key_ok a → key_ok b → key_ok c → order a b ≤ 0 → order b c < 0 → order a c < 0.
Proof.
  intros Ha Hb Hc Hab Hbc. destruct (decide (order a b = 0)) as [E|E].
  - by apply order_eq in E as ->.
  - eapply order_trans; [exact Ha|exact Hb|exact Hc|lia|done].
Qed.

Lemma order_lt_le a b c :
  key_ok a → key_ok b → key_ok c → order a b < 0 → order b c ≤ 0 → order a c < 0.
Proof.
  intros Ha Hb Hc Hab Hbc. destruct (decide (order b c = 0)) as [E|E].
  - by apply order_eq in E as <-.
  - eapply order_trans; [exact Ha|exact Hb|exact Hc|done|lia].
Qed.

(** Keys that increase. *)
Definition increasing (keys : list Slice) : Prop :=
  Forall key_ok keys ∧ StronglySorted (λ a b, order a b < 0) keys.

Lemma increasing_snoc keys last key :
  increasing (keys ++ [last]) → key_ok key → order last key < 0 → increasing ((keys ++ [last]) ++ [key]).
Proof.
  intros [Hok Hs] Hk Hlt. split; [apply Forall_app_2; [done|by apply Forall_singleton]|].
  induction keys as [|k keys IH]; cbn [app] in *.
  - by repeat constructor.
  - apply StronglySorted_inv in Hs as [Hs Hbelow]. apply Forall_cons in Hok as [Hk' Hok].
    constructor; [by apply IH|]. apply Forall_app_2; [done|]. apply Forall_singleton.
    apply Forall_app in Hbelow as [_ Hbelow]. apply Forall_app in Hok as [_ Hlast].
    exact (order_trans _ _ _ Hk' (proj1 (Forall_singleton _ _) Hlast) Hk (proj1 (Forall_singleton _ _) Hbelow) Hlt).
Qed.

Lemma increasing_lookup keys i j a b :
  increasing keys → keys !! i = Some a → keys !! j = Some b → (i < j)%nat → order a b < 0.
Proof.
  intros [_ Hs]. revert i j. induction Hs as [|k keys Hs IH Hk]; intros i j Hi Hj Hlt; [done|].
  destruct j as [|j]; [lia|]. destruct i as [|i]; cbn in Hi, Hj.
  - injection Hi as ->. by eapply Forall_lookup_1 in Hk.
  - eapply IH; [done|done|lia].
Qed.

Lemma increasing_ok keys i a : increasing keys → keys !! i = Some a → key_ok a.
Proof. intros [Hok _] Ha. by eapply Forall_lookup_1 in Hok. Qed.

(** A few keys are compared as numbers are. *)
Lemma order_rank (ks : list Slice) :
  Forall key_ok ks →
  ∃ r : Slice → Z, ∀ a b, a ∈ ks → b ∈ ks →
    (order a b < 0 ↔ r a < r b) ∧ (order a b = 0 ↔ r a = r b) ∧ (0 < order a b ↔ r b < r a).
Proof.
  intros Hks. pose (r a := len (filter (λ k, order k a < 0) ks)). exists r.
  assert (∀ a b, a ∈ ks → b ∈ ks → order a b < 0 → r a < r b) as Hlt.
  { intros a b Ha Hb Hab. unfold r. rewrite Forall_forall in Hks.
    apply list_elem_of_split in Ha as (l1 & l2 & E).
    assert (∀ l : list Slice, (∀ k, k ∈ l → key_ok k) → len (filter (λ k, order k a < 0) l) ≤ len (filter (λ k, order k b < 0) l)) as Hle.
    { induction l as [|k l IH]; intros Hl; [done|]. rewrite !filter_cons.
      pose proof (Hl k ltac:(by left)) as Hk. specialize (IH ltac:(intros; apply Hl; by right)).
      destruct (decide (order k a < 0)) as [Hka|]; [|case_decide; cbn; lia].
      rewrite decide_True; [cbn; lia|].
      assert (key_ok a) by (apply Hks; rewrite E; apply elem_of_app; right; by left).
      by apply (order_trans k a b Hk); [|apply Hks| |]. }
    assert (key_ok a) as Hka by (apply Hks; rewrite E; apply elem_of_app; right; by left).
    rewrite E, !filter_app, !filter_cons, !length_app.
    pose proof (order_irrefl a Hka). destruct (decide (order a a < 0)); [done|]. destruct (decide (order a b < 0)); [|done].
    cbn [length]. pose proof (Hle l1 ltac:(intros; apply Hks; rewrite E; apply elem_of_app; by left)).
    pose proof (Hle l2 ltac:(intros; apply Hks; rewrite E; apply elem_of_app; right; by right)). lia. }
  intros a b Ha Hb. pose proof (proj1 (Forall_forall _ _) Hks) as Hok.
  pose proof (Hlt a b Ha Hb). pose proof (Hlt b a Hb Ha). pose proof (order_flip a b (Hok _ Ha) (Hok _ Hb)).
  pose proof (order_flip b a (Hok _ Hb) (Hok _ Ha)). 
  assert (order a b = 0 → r a = r b) by (intros E; by apply (order_eq a b (Hok _ Ha) (Hok _ Hb)) in E as ->).
  lia.
Qed.
End order.

Lemma rank_le x a b : (x < 0 ↔ a < b) ∧ (x = 0 ↔ a = b) ∧ (0 < x ↔ b < a) → x ≤ 0 ↔ a ≤ b.
Proof. lia. Qed.

Lemma rank_ge x a b : (x < 0 ↔ a < b) ∧ (x = 0 ↔ a = b) ∧ (0 < x ↔ b < a) → 0 ≤ x ↔ b ≤ a.
Proof. lia. Qed.

Ltac list_member := repeat first [apply list_elem_of_here | apply list_elem_of_further].

(** Comparisons of the keys in a list, as comparisons of numbers. *)
Ltac by_rank ks :=
  let r := fresh "r" in let Hr := fresh "Hr" in
  destruct (order_rank ks ltac:(repeat (apply Forall_cons_2; [eauto|]); apply Forall_nil_2)) as (r & Hr);
  let at_pair a b := constr:(Hr a b ltac:(list_member) ltac:(list_member)) in
  repeat match goal with
  | H : order ?a ?b < 0 |- _ => let h := at_pair a b in apply (proj1 h) in H
  | H : 0 < order ?a ?b |- _ => let h := at_pair a b in apply (proj2 (proj2 h)) in H
  | H : order ?a ?b = 0 |- _ => let h := at_pair a b in apply (proj1 (proj2 h)) in H
  | H : order ?a ?b ≤ 0 |- _ => let h := at_pair a b in apply (rank_le _ _ _ h) in H
  | H : 0 ≤ order ?a ?b |- _ => let h := at_pair a b in apply (rank_ge _ _ _ h) in H
  | |- order ?a ?b < 0 => let h := at_pair a b in apply (proj1 h)
  | |- 0 < order ?a ?b => let h := at_pair a b in apply (proj2 (proj2 h))
  | |- order ?a ?b = 0 => let h := at_pair a b in apply (proj1 (proj2 h))
  | |- order ?a ?b ≤ 0 => let h := at_pair a b in apply (rank_le _ _ _ h)
  | |- 0 ≤ order ?a ?b => let h := at_pair a b in apply (rank_ge _ _ _ h)
  end; clear Hr; lia.
