(* ===== verification/LdbFilter.v ===== *)
(** * LevelDB, util/bloom and table/filter_block: filters

    The hash function (util/hash.cc), Bloom filters (util/bloom.cc) as an instance of the
    interface of filter policies, and the filter blocks of a table (table/filter_block.cc)
    over any policy: a key that was added is never denied. *)

From S2P Require Import Prelude LdbCoding.

(** ** util/hash.cc *)

Definition hash_m : Z := 0xc6a4a793.
Definition hash_r : Z := 24.

(** [while (data + 4 <= limit)]; the bytes that remain. *)
Fixpoint Hash_words (data : list Z) (h : Z) : Z * list Z :=
  match data with
  | a :: b :: c :: d :: data =>
      let w := le_value [a; b; c; d] in
      let h := u32 (h + w) in
      let h := u32 (h * hash_m) in
      Hash_words data (Z.lxor h (Z.shiftr h 16))
  | _ => (h, data)
  end.

(** The [switch] and its fall-throughs. *)
Definition Hash_tail (data : list Z) (h : Z) : Z :=
  let last h b := let h := u32 (u32 (h + b) * hash_m) in Z.lxor h (Z.shiftr h hash_r) in
  match data with
  | [a; b; c] => last (u32 (u32 (h + Z.shiftl c 16) + Z.shiftl b 8)) a
  | [a; b] => last (u32 (h + Z.shiftl b 8)) a
  | [a] => last h a
  | _ => h
  end.

Definition Hash (data : list Z) (seed : Z) : Z :=
  let h := u32 (Z.lxor seed (u64 (len data * hash_m))) in
  let r := Hash_words data h in
  Hash_tail r.2 r.1.

(** ** The interface of filter policies (include/leveldb/filter_policy.h) *)

Class FilterPolicy : Type := {
  CreateFilter : list Slice → list Z → outcome (list Z);   (* the new [*dst] *)
  KeyMayMatch : Slice → Slice → outcome bool
}.

(** A filter is appended to [dst]; it matches the keys it was made of. [fits] are the
    lists of keys it can be made of. *)
Class FilterPolicyLaws `{FilterPolicy} : Type := {
  fits : list Slice → Prop;
  CreateFilter_appends keys : fits keys → ∃ filter, bytes filter ∧
    (∀ dst, CreateFilter keys dst = Ok (dst ++ filter)) ∧
    ∀ key, key ∈ keys → KeyMayMatch key filter = Ok true;
  fits_app keys keys' : fits (keys ++ keys') → fits keys ∧ fits keys'
}.

(** ** util/bloom.cc *)

Definition BloomHash (key : Slice) : Z := Hash key 0xbc9f1d34.

(** [bits_per_key_] is a [size_t] and [k_] the number of probes. *)
Record BloomFilterPolicy : Type := { bits_per_key_ : Z; k_ : Z }.

(** [bits_per_key * 0.69] is a [double]; below the bound of 30 its integral part is the
    quotient. A negative product cannot be converted. *)
Definition new_BloomFilterPolicy (bits_per_key : Z) : outcome BloomFilterPolicy :=
  _ ← require (-1 <=? bits_per_key) SignedOverflow;
  let k := Z.quot (bits_per_key * 69) 100 in
  let k := if k <? 1 then 1 else k in
  let k := if 30 <? k then 30 else k in
  Ok {| bits_per_key_ := u64 bits_per_key; k_ := k |}.

(** [array[bitpos / 8] |= (1 << (bitpos % 8))] *)
Definition bloom_set_bit (array : list Z) (bitpos : Z) : outcome (list Z) :=
  byte ← byte_at array (bitpos / 8);
  Ok (<[Z.to_nat (bitpos / 8) := u8 (Z.lor byte (Z.shiftl 1 (bitpos mod 8)))]> array).

Definition bloom_delta (h : Z) : Z := Z.lor (Z.shiftr h 17) (u32 (Z.shiftl h 15)).

Fixpoint set_probes (k : nat) (bits h delta : Z) (array : list Z) : outcome (list Z) :=
  match k with
  | O => Ok array
  | S k => array ← bloom_set_bit array (h mod bits); set_probes k bits (u32 (h + delta)) delta array
  end.

Fixpoint add_keys (keys : list Slice) (k bits : Z) (array : list Z) : outcome (list Z) :=
  match keys with
  | [] => Ok array
  | key :: keys =>
      let h := BloomHash key in
      array ← set_probes (Z.to_nat k) bits h (bloom_delta h) array;
      add_keys keys k bits array
  end.

(** [array] points to the end of the old contents of [dst]. *)
Definition Bloom_CreateFilter (policy : BloomFilterPolicy) (keys : list Slice) (dst : list Z) :
    outcome (list Z) :=
  let bits := u64 (len keys * bits_per_key_ policy) in
  let bits := if bits <? 64 then 64 else bits in
  let bytes := u64 (bits + 7) / 8 in
  let bits := u64 (bytes * 8) in
  array ← add_keys keys (k_ policy) bits (replicate (Z.to_nat bytes) 0 ++ [u8 (k_ policy)]);
  Ok (dst ++ array).

Fixpoint test_probes (k : nat) (bits h delta : Z) (array : list Z) : outcome bool :=
  match k with
  | O => Ok true
  | S k =>
      let bitpos := h mod bits in
      byte ← byte_at array (bitpos / 8);
      if Z.land byte (Z.shiftl 1 (bitpos mod 8)) =? 0 then Ok false
      else test_probes k bits (u32 (h + delta)) delta array
  end.

(** The number of probes is a [char] that becomes a [size_t]. *)
Definition Bloom_KeyMayMatch (key bloom_filter : Slice) : outcome bool :=
  let len := len bloom_filter in
  if len <? 2 then Ok false
  else
    let bits := u64 ((len - 1) * 8) in
    c ← byte_at bloom_filter (len - 1);
    let k := u64 (swrap 8 c) in
    if 30 <? k then Ok true
    else let h := BloomHash key in test_probes (Z.to_nat k) bits h (bloom_delta h) bloom_filter.

#[export] Instance bloom_policy (policy : BloomFilterPolicy) : FilterPolicy := {|
  CreateFilter := Bloom_CreateFilter policy;
  KeyMayMatch := Bloom_KeyMayMatch
|}.

(** ** table/filter_block.cc *)

Definition kFilterBaseLg : Z := 11.
Definition kFilterBase : Z := Z.shiftl 1 kFilterBaseLg.

Section filter_block.
Context `{FilterPolicy}.

(** The keys are kept end to end; [start_] has where each begins. *)
Record FilterBlockBuilder : Type := {
  keys_ : list Z; start_ : list Z; result_ : list Z; filter_offsets_ : list Z
}.

Definition new_FilterBlockBuilder : FilterBlockBuilder :=
  {| keys_ := []; start_ := []; result_ := []; filter_offsets_ := [] |}.

(** [tmp_keys_]: the slices between consecutive starts. *)
Fixpoint tmp_keys (keys : list Z) (start : list Z) : outcome (list Slice) :=
  match start with
  | s :: (e :: _) as rest =>
      key ← read_at keys s (e - s);
      l ← tmp_keys keys rest;
      Ok (key :: l)
  | _ => Ok []
  end.

Definition GenerateFilter (this : FilterBlockBuilder) : outcome FilterBlockBuilder :=
  let num_keys := len (start_ this) in
  if num_keys =? 0 then
    Ok {| keys_ := keys_ this; start_ := start_ this; result_ := result_ this;
          filter_offsets_ := filter_offsets_ this ++ [u32 (len (result_ this))] |}
  else
    tmp ← tmp_keys (keys_ this) (start_ this ++ [len (keys_ this)]);
    let offsets := filter_offsets_ this ++ [u32 (len (result_ this))] in
    result ← CreateFilter tmp (result_ this);
    Ok {| keys_ := []; start_ := []; result_ := result; filter_offsets_ := offsets |}.

Fixpoint StartBlock_loop (n : nat) (this : FilterBlockBuilder) : outcome FilterBlockBuilder :=
  match n with
  | O => Ok this
  | S n => this ← GenerateFilter this; StartBlock_loop n this
  end.

(** Each round of the loop adds an offset. *)
Definition StartBlock (this : FilterBlockBuilder) (block_offset : Z) : outcome FilterBlockBuilder :=
  let filter_index := block_offset / kFilterBase in
  _ ← require (len (filter_offsets_ this) <=? filter_index) OutOfBounds;
  StartBlock_loop (Z.to_nat (filter_index - len (filter_offsets_ this))) this.

Definition AddKey (this : FilterBlockBuilder) (key : Slice) : FilterBlockBuilder :=
  {| keys_ := keys_ this ++ key; start_ := start_ this ++ [len (keys_ this)];
     result_ := result_ this; filter_offsets_ := filter_offsets_ this |}.

Definition Finish (this : FilterBlockBuilder) : outcome Slice :=
  this ← (if negb (len (start_ this) =? 0) then GenerateFilter this else Ok this);
  let array_offset := u32 (len (result_ this)) in
  let result := fold_left PutFixed32 (filter_offsets_ this) (result_ this) in
  let result := PutFixed32 result array_offset in
  Ok (result ++ [kFilterBaseLg]).

(** [data_] is the contents or NULL, [offset_] where the array starts in it. *)
Record FilterBlockReader : Type := {
  data_ : option (list Z); offset_ : Z; num_ : Z; base_lg_ : Z
}.

Definition new_FilterBlockReader (contents : Slice) : outcome FilterBlockReader :=
  let n := len contents in
  if n <? 5 then Ok {| data_ := None; offset_ := 0; num_ := 0; base_lg_ := 0 |}
  else
    c ← byte_at contents (n - 1);
    let base_lg := u64 (swrap 8 c) in
    last_word ← DecodeFixed32 (drop (Z.to_nat (n - 5)) contents);
    if n - 5 <? last_word then Ok {| data_ := None; offset_ := 0; num_ := 0; base_lg_ := base_lg |}
    else Ok {| data_ := Some contents; offset_ := last_word; num_ := (n - 5 - last_word) / 4;
               base_lg_ := base_lg |}.

(** A shift by 64 or more is undefined. *)
Definition FilterBlock_KeyMayMatch (this : FilterBlockReader) (block_offset : Z) (key : Slice) :
    outcome bool :=
  _ ← require (base_lg_ this <? 64) BadShift;
  let index := Z.shiftr block_offset (base_lg_ this) in
  if index <? num_ this then
    match data_ this with
    | None => Fault NullPointer
    | Some data =>
        start ← DecodeFixed32 (drop (Z.to_nat (offset_ this + index * 4)) data);
        limit ← DecodeFixed32 (drop (Z.to_nat (offset_ this + index * 4 + 4)) data);
        if (start <=? limit) && (limit <=? offset_ this) then
          filter ← read_at data start (limit - start);
          KeyMayMatch key filter
        else if start =? limit then Ok false
        else Ok true
    end
  else Ok true.

End filter_block.

Example Hash_test : Hash [0x62] 0xbc9f1d34 = 0xef1345c4.
Proof. reflexivity. Qed.
Example Hash_test2 : Hash [0xe2; 0x99; 0xa5] 0xbc9f1d34 = 0x323c078f.
Proof. reflexivity. Qed.
Example Hash_test3 : Hash [0xe1; 0x80; 0xb9; 0x32] 0xbc9f1d34 = 0xed21633a.
Proof. reflexivity. Qed.

(** ** Bits of an array *)

Definition bit_at (array : list Z) (pos : Z) : Prop :=
  ∃ b, array !! Z.to_nat (pos / 8) = Some b ∧ Z.testbit b (pos mod 8) = true.

(** What setting bits before the last byte leaves in place. *)
Definition more_bits (a a' : list Z) : Prop :=
  length a' = length a ∧ bytes a' ∧ a' !! (length a - 1)%nat = a !! (length a - 1)%nat ∧
  ∀ pos, bit_at a pos → bit_at a' pos.

Lemma more_bits_refl a : bytes a → more_bits a a.
Proof. by intros Ha. Qed.

Lemma more_bits_trans a b c : more_bits a b → more_bits b c → more_bits a c.
Proof.
  intros (L1 & _ & E1 & H1) (L2 & B2 & E2 & H2). split_and!; [congruence|done| |by auto].
  rewrite L1 in E2. congruence.
Qed.

Lemma bloom_set_bit_ok a pos :
  bytes a → 0 ≤ pos < (len a - 1) * 8 →
  ∃ a', bloom_set_bit a pos = Ok a' ∧ more_bits a a' ∧ bit_at a' pos.
Proof.
  intros Ha Hp. assert (0 ≤ pos / 8 < len a - 1) as Hi by (split; [lia_mod|apply Z.div_lt_upper_bound; lia]).
  assert (0 ≤ pos mod 8 < 8) as Hm by (apply Z.mod_pos_bound; lia).
  unfold bloom_set_bit, byte_at. decide_test.
  destruct (lookup_lt_is_Some_2 a (Z.to_nat (pos / 8))) as [b Hb]; [lia|]. rewrite Hb.
  cbn [mbind outcome_bind]. set (b' := u8 _). eexists. split; [done|].
  assert (∀ i, 0 ≤ i < 8 → Z.testbit b' i = Z.testbit b i || (i =? pos mod 8)) as Hbits.
  { intros i Hi8. unfold b', wrap. rewrite Z.mod_pow2_bits_low, Z.lor_spec by lia. f_equal.
    rewrite Z.shiftl_spec by lia. destruct (Z.eqb_spec i (pos mod 8)) as [->|Hne].
    - by rewrite Z.sub_diag.
    - destruct (Z.lt_ge_cases i (pos mod 8)); [by rewrite Z.testbit_neg_r by lia|].
      apply (Z.bits_above_log2 1); cbn; lia. }
  split.
  - split_and!.
    + by rewrite length_insert.
    + apply Forall_insert; [done|]. by apply wrap_in_width.
    + rewrite list_lookup_insert_ne by lia. done.
    + intros q (c & Hc & Hct). destruct (decide (Z.to_nat (q / 8) = Z.to_nat (pos / 8))) as [Heq|Hne].
      * exists b'. rewrite Heq. rewrite list_lookup_insert_eq by lia. split; [done|].
        rewrite Hbits by (apply Z.mod_pos_bound; lia). rewrite Heq, Hb in Hc. injection Hc as <-. by rewrite Hct.
      * exists c. rewrite list_lookup_insert_ne by congruence. done.
  - exists b'. rewrite list_lookup_insert_eq by lia. split; [done|]. rewrite Hbits by lia.
    by rewrite Z.eqb_refl, orb_true_r.
Qed.

(** The positions probed for a hash value. *)
Fixpoint probes (k : nat) (bits h delta : Z) : list Z :=
  match k with O => [] | S k => h mod bits :: probes k bits (u32 (h + delta)) delta end.

Lemma set_probes_ok k bits h delta a :
  bytes a → 0 < bits → bits = (len a - 1) * 8 →
  ∃ a', set_probes k bits h delta a = Ok a' ∧ more_bits a a' ∧ Forall (bit_at a') (probes k bits h delta).
Proof.
  intros Ha Hpos Hbits. revert h a Ha Hbits. induction k as [|k IH]; intros h a Ha Hbits.
  - exists a. split; [done|]. split; [by apply more_bits_refl|constructor].
  - cbn [set_probes probes]. pose proof (Z.mod_pos_bound h bits Hpos).
    destruct (bloom_set_bit_ok a (h mod bits) Ha) as (a1 & -> & Hm1 & Hb1); [lia|]. cbn [mbind outcome_bind].
    pose proof Hm1 as (L1 & B1 & _ & _).
    destruct (IH (u32 (h + delta)) a1) as (a2 & -> & Hm2 & Hall); [done|by rewrite L1|].
    exists a2. split; [done|]. split; [by eapply more_bits_trans|]. constructor; [|done]. by apply Hm2.
Qed.

Lemma test_probes_ok k bits h delta a :
  0 < bits → Forall (bit_at a) (probes k bits h delta) → test_probes k bits h delta a = Ok true.
Proof.
  intros Hpos. revert h. induction k as [|k IH]; intros h Hall; [done|]. cbn [test_probes probes] in *.
  apply Forall_cons in Hall as [(b & Hb & Hbit) Hall]. pose proof (Z.mod_pos_bound h bits Hpos).
  unfold byte_at. rewrite (proj2 (Z.leb_le 0 _)) by lia_mod. rewrite Hb. cbn [mbind outcome_bind].
  rewrite (proj2 (Z.eqb_neq _ 0)); [by apply IH|]. intros H0.
  apply (f_equal (λ x, Z.testbit x (h mod bits mod 8))) in H0.
  pose proof (Z.mod_pos_bound (h mod bits) 8 ltac:(lia)).
  rewrite Z.land_spec, Hbit, Z.shiftl_spec, Z.sub_diag, Z.bits_0 in H0 by lia. done.
Qed.

Lemma add_keys_ok keys k bits a :
  bytes a → 0 < bits → bits = (len a - 1) * 8 →
  ∃ a', add_keys keys k bits a = Ok a' ∧ more_bits a a' ∧
    ∀ key, key ∈ keys → Forall (bit_at a') (probes (Z.to_nat k) bits (BloomHash key) (bloom_delta (BloomHash key))).
Proof.
  intros Ha Hpos Hbits. revert a Ha Hbits. induction keys as [|key keys IH]; intros a Ha Hbits.
  - exists a. split; [done|]. split; [by apply more_bits_refl|]. intros key Hin. by apply not_elem_of_nil in Hin.
  - cbn [add_keys]. destruct (set_probes_ok (Z.to_nat k) bits (BloomHash key) (bloom_delta (BloomHash key)) a)
      as (a1 & -> & Hm1 & Hp1); [done..|]. cbn [mbind outcome_bind]. pose proof Hm1 as (L1 & B1 & _ & _).
    destruct (IH a1) as (a2 & -> & Hm2 & Hall); [done|by rewrite L1|].
    exists a2. split; [done|]. split; [by eapply more_bits_trans|]. intros key' [->|Hin]%elem_of_cons.
    + eapply Forall_impl; [exact Hp1|]. apply Hm2.
    + by apply Hall.
Qed.

(** ** Bloom filters keep the contract *)

Definition bloom_ok (policy : BloomFilterPolicy) : Prop :=
  0 ≤ bits_per_key_ policy ∧ 1 ≤ k_ policy ≤ 30.

Lemma new_BloomFilterPolicy_ok bits_per_key :
  0 ≤ bits_per_key < 2 ^ 31 → ∃ policy, new_BloomFilterPolicy bits_per_key = Ok policy ∧ bloom_ok policy ∧
    bits_per_key_ policy = bits_per_key.
Proof.
  intros Hb. unfold new_BloomFilterPolicy. decide_test. cbn [require mbind outcome_bind]. eexists. split; [done|].
  unfold bloom_ok. cbn [bits_per_key_ k_]. rewrite wrap_small by (unfold in_width; lia).
  set (k := Z.quot _ _). destruct (k <? 1) eqn:E1; [cbn; lia|]. destruct (30 <? k) eqn:E2; split_bool; lia.
Qed.

#[export] Instance bloom_laws (policy : BloomFilterPolicy) : bloom_ok policy → @FilterPolicyLaws (bloom_policy policy).
Proof.
  intros Hpolicy. refine {| fits := λ keys, len keys * bits_per_key_ policy < 2 ^ 60 |}.
  2: { intros keys keys' Hl. rewrite length_app in Hl. destruct Hpolicy. nia. }
  destruct Hpolicy as [Hb Hk].
  intros keys Hfit. cbn [CreateFilter KeyMayMatch bloom_policy]. unfold Bloom_CreateFilter.
  rewrite (wrap_small 64 (len keys * _)) by (unfold in_width; nia).
  set (bits := if _ <? 64 then 64 else _).
  assert (64 ≤ bits ≤ 2 ^ 60) as Hbits by (unfold bits; destruct (_ <? 64) eqn:E; split_bool; lia).
  rewrite (wrap_small 64 (bits + 7)) by (unfold in_width; lia).
  set (nbytes := (bits + 7) / 8). assert (8 ≤ nbytes ≤ 2 ^ 58) as Hn by (unfold nbytes; lia_mod).
  rewrite (wrap_small 64 (nbytes * 8)) by (unfold in_width; lia).
  rewrite (wrap_small 8 (k_ policy)) by (unfold in_width; lia).
  set (a := replicate (Z.to_nat nbytes) 0 ++ [k_ policy]).
  assert (len a = nbytes + 1) as Hlen.
  { unfold a. rewrite length_app, length_replicate. cbn [length]. lia. }
  assert (bytes a) as Ha.
  { apply Forall_app_2; [by apply Forall_replicate|]. apply Forall_singleton. unfold in_width. lia. }
  destruct (add_keys_ok keys (k_ policy) (nbytes * 8) a) as (a' & E & Hm & Hall); [done|lia|lia|].
  exists a'. destruct Hm as (L & B & Hlast & _). split; [done|]. split; [intros dst; by rewrite E|].
  intros key Hin. unfold Bloom_KeyMayMatch. rewrite L, Hlen. decide_test.
  rewrite wrap_small by (unfold in_width; lia).
  assert (byte_at a' (nbytes + 1 - 1) = Ok (k_ policy)) as ->.
  { unfold byte_at. decide_test. replace (Z.to_nat (nbytes + 1 - 1)) with (length a - 1)%nat by lia.
    rewrite Hlast. unfold a. rewrite lookup_app_r; rewrite length_app, length_replicate; cbn [length]; [|lia].
    by replace (Z.to_nat nbytes + 1 - 1 - Z.to_nat nbytes)%nat with 0%nat by lia. }
  cbn [mbind outcome_bind].
  assert (u64 (swrap 8 (k_ policy)) = k_ policy) as ->.
  { unfold swrap. rewrite Z.mod_small, Z.add_simpl_r by lia. apply wrap_small. unfold in_width. lia. }
  decide_test. replace (nbytes + 1 - 1) with nbytes by lia. apply test_probes_ok; [lia|]. by apply Hall.
Defined.

(** ** The blocks *)

(** Where the elements of a list begin when they are laid end to end from [base]. *)
Fixpoint starts (base : Z) (l : list (list Z)) : list Z :=
  match l with [] => [] | x :: l => base :: starts (base + len x) l end.

Lemma starts_app base l1 l2 : starts base (l1 ++ l2) = starts base l1 ++ starts (base + len (concat l1)) l2.
Proof.
  revert base. induction l1 as [|x l1 IH]; intros base; cbn [app starts concat length].
  - by rewrite Z.add_0_r.
  - rewrite IH, length_app. do 3 f_equal. lia.
Qed.

Lemma length_starts base l : length (starts base l) = length l.
Proof. revert base. induction l; intros base; cbn; auto. Qed.

(** The starts and the end: the element [i] lies between two of them. *)
Definition bounds (l : list (list Z)) : list Z := starts 0 l ++ [len (concat l)].

Lemma bounds_lookup l i x :
  l !! i = Some x →
  ∃ s, bounds l !! i = Some s ∧ bounds l !! S i = Some (s + len x) ∧
    0 ≤ s ∧ s + len x ≤ len (concat l) ∧ read_at (concat l) s (len x) = Ok x.
Proof.
  intros Hx. apply list_elem_of_split_length in Hx as (l1 & l2 & -> & ->).
  set (s := len (concat l1)). exists s.
  assert (bounds (l1 ++ x :: l2) = starts 0 l1 ++ s :: starts (s + len x) l2 ++ [len (concat (l1 ++ x :: l2))]) as Hb.
  { unfold bounds. rewrite starts_app. cbn [starts]. by rewrite <- app_assoc, Z.add_0_l. }
  assert (len (concat (l1 ++ x :: l2)) = s + len x + len (concat l2)) as Hlen.
  { rewrite concat_app. cbn [concat]. rewrite !length_app. unfold s. lia. }
  rewrite Hb, Hlen. split_and!; try lia.
  - rewrite lookup_app_r; rewrite length_starts; [|done]. by rewrite Nat.sub_diag.
  - rewrite lookup_app_r; rewrite length_starts; [|lia].
    replace (S (length l1) - length l1)%nat with 1%nat by lia. cbn.
    destruct l2 as [|y l2]; cbn; [f_equal; lia|done].
  - rewrite concat_app. cbn [concat]. by rewrite read_at_app.
Qed.

Lemma tmp_keys_ok pre l :
  tmp_keys (pre ++ concat l) (starts (len pre) l ++ [len (pre ++ concat l)]) = Ok l.
Proof.
  revert pre. induction l as [|x l IH]; intros pre; [done|]. cbn [starts app concat].
  assert (∃ e rest, starts (len pre + len x) l ++ [len (pre ++ x ++ concat l)] = e :: rest ∧ e = len pre + len x) as (e & rest & Heq & ->).
  { destruct l as [|y l]; cbn; eexists _, _; split; try done. rewrite !length_app. cbn. lia. }
  cbn [tmp_keys]. rewrite Heq. rewrite read_at_app by lia. cbn [mbind outcome_bind].
  rewrite <- Heq. specialize (IH (pre ++ x)). rewrite length_app, Nat2Z.inj_add, <- app_assoc in IH.
  by rewrite IH.
Qed.

Section filter_block_ok.
Context `{FilterPolicyLaws}.

(** The filters made so far, the keys waiting for the next, and the keys added with the
    index of their filter. *)
Record building (b : FilterBlockBuilder) (filters : list (list Z)) (pending : list Slice)
    (added : list (nat * Slice)) : Prop := {
  building_result : result_ b = concat filters;
  building_offsets : filter_offsets_ b = map u32 (starts 0 filters);
  building_keys : keys_ b = concat pending;
  building_start : start_ b = starts 0 pending;
  building_bytes : Forall bytes filters;
  building_added i key : (i, key) ∈ added →
    (∃ f, filters !! i = Some f ∧ KeyMayMatch key f = Ok true) ∨ i = length filters ∧ key ∈ pending
}.

Lemma building_size b filters pending added :
  building b filters pending added → length (filter_offsets_ b) = length filters.
Proof. intros Hb. rewrite (building_offsets _ _ _ _ Hb), length_map. apply length_starts. Qed.

Lemma GenerateFilter_ok b filters pending added :
  building b filters pending added → fits pending →
  ∃ b' f, GenerateFilter b = Ok b' ∧ building b' (filters ++ [f]) [] added.
Proof.
  intros Hb Hfit. pose proof Hb as [Hr Ho Hk Hs Hby Ha]. unfold GenerateFilter.
  assert (Hoff : ∀ f, map u32 (starts 0 (filters ++ [f])) = filter_offsets_ b ++ [u32 (len (result_ b))]).
  { intros f. by rewrite starts_app, map_app, Ho, Hr. }
  rewrite Hs, length_starts. destruct (len pending =? 0) eqn:E; split_bool.
  - destruct pending; [|cbn [length] in E; lia]. eexists _, []. split; [done|].
    split; cbn; [by rewrite concat_app, Hr, app_nil_r|by rewrite Hoff|done|done|apply Forall_app_2; [done|by repeat constructor]|].
    intros i key Hin. destruct (Ha i key Hin) as [(f & Hf & Hm)|[_ Hin']]; [|by apply not_elem_of_nil in Hin'].
    left. exists f. split; [by apply lookup_app_l_Some|done].
  - rewrite Hk. pose proof (tmp_keys_ok [] pending) as Htmp. cbn [app length] in Htmp.
    change (Z.of_nat 0) with 0 in Htmp. rewrite Htmp. cbn [mbind outcome_bind].
    destruct (CreateFilter_appends pending Hfit) as (f & Hfb & Hc & Hm). rewrite Hc. cbn [mbind outcome_bind].
    eexists _, f. split; [done|].
    split; cbn; [by rewrite concat_app, Hr; cbn; rewrite app_nil_r|by rewrite Hoff|done|done|by apply Forall_app_2; [|constructor]|].
    intros i key Hin. left. destruct (Ha i key Hin) as [(g & Hg & Hmg)|[-> Hin']].
    + exists g. split; [by apply lookup_app_l_Some|done].
    + exists f. split; [by rewrite lookup_app_r, Nat.sub_diag by lia|by apply Hm].
Qed.

Lemma StartBlock_loop_ok n b filters pending added :
  building b filters pending added → fits pending → fits [] →
  ∃ b' filters' pending', StartBlock_loop n b = Ok b' ∧ building b' filters' pending' added ∧
    length filters' = (length filters + n)%nat ∧ (pending' = pending ∨ pending' = []).
Proof.
  intros Hb Hfit Hnil. revert b filters pending Hb Hfit. induction n as [|n IH]; intros b filters pending Hb Hfit.
  - exists b, filters, pending. split_and!; [done|done|lia|by left].
  - cbn [StartBlock_loop]. destruct (GenerateFilter_ok _ _ _ _ Hb Hfit) as (b1 & f & -> & Hb1).
    cbn [mbind outcome_bind]. destruct (IH _ _ _ Hb1 Hnil) as (b2 & filters2 & pending2 & -> & Hb2 & Hl & Hp).
    exists b2, filters2, pending2. rewrite length_app in Hl. cbn [length] in Hl.
    split_and!; [done|done|lia|right; by destruct Hp].
Qed.

Lemma AddKey_ok b filters pending added key :
  building b filters pending added →
  building (AddKey b key) filters (pending ++ [key]) (added ++ [(length filters, key)]).
Proof.
  intros [Hr Ho Hk Hs Hby Ha]. split; cbn; [done|done|by rewrite concat_app, Hk; cbn; rewrite app_nil_r| |done|].
  - rewrite starts_app, Hs, Hk. by rewrite Z.add_0_l.
  - intros i k [Hin|Hin]%elem_of_app.
    + destruct (Ha i k Hin) as [?|[-> Hin']]; [by left|right]. split; [done|]. apply elem_of_app. by left.
    + apply list_elem_of_singleton in Hin as [= -> ->]. right. split; [done|]. apply elem_of_app. right. by left.
Qed.

Lemma AddKeys_ok keys b filters pending added :
  building b filters pending added →
  building (fold_left AddKey keys b) filters (pending ++ keys) (added ++ map (pair (length filters)) keys).
Proof.
  revert b pending added. induction keys as [|key keys IH]; intros b pending added Hb; cbn [fold_left map].
  - by rewrite !app_nil_r.
  - specialize (IH _ _ _ (AddKey_ok _ _ _ _ key Hb)). by rewrite <- !app_assoc in IH.
Qed.

(** Any number of times: a block is started and its keys are added. *)
Fixpoint build (blocks : list (Z * list Slice)) (b : FilterBlockBuilder) : outcome FilterBlockBuilder :=
  match blocks with
  | [] => Ok b
  | (off, keys) :: blocks => b ← StartBlock b off; build blocks (fold_left AddKey keys b)
  end.

Definition index_of (off : Z) : nat := Z.to_nat (off / kFilterBase).

Lemma build_ok blocks b filters pending added :
  building b filters pending added →
  StronglySorted Z.le (map fst blocks) → Forall (λ x, 0 ≤ x.1 ∧ (length filters ≤ index_of x.1)%nat) blocks →
  fits (pending ++ concat (map snd blocks)) →
  ∃ b' filters' pending' added', build blocks b = Ok b' ∧ building b' filters' pending' added' ∧ fits pending' ∧
    (∀ x, x ∈ added → x ∈ added') ∧
    ∀ off keys key, (off, keys) ∈ blocks → key ∈ keys → (index_of off, key) ∈ added'.
Proof.
  revert b filters pending added. induction blocks as [|[off keys] blocks IH];
    intros b filters pending added Hb Hsort Hidx Hfit.
  - exists b, filters, pending, added. cbn in Hfit. rewrite app_nil_r in Hfit.
    split_and!; try done. intros off keys key Hin. by apply not_elem_of_nil in Hin.
  - cbn [build map concat snd fst] in *.
    apply Forall_cons in Hidx as [[Hpos Hge] Hidx]. cbn [fst] in *. apply StronglySorted_inv in Hsort as [Hsort Hle].
    destruct (fits_app _ _ Hfit) as [Hfp Hfk]. destruct (fits_app [] _ Hfp) as [Hnil _].
    unfold StartBlock. rewrite (building_size _ _ _ _ Hb).
    assert (0 ≤ off / kFilterBase) by (apply Z.div_pos; done). unfold index_of in Hge.
    decide_test. cbn [require mbind outcome_bind].
    destruct (StartBlock_loop_ok (Z.to_nat (off / kFilterBase - len filters)) _ _ _ _ Hb Hfp Hnil)
      as (b1 & filters1 & pending1 & -> & Hb1 & Hl1 & Hp1). cbn [mbind outcome_bind].
    assert (length filters1 = index_of off) as Hi1 by (unfold index_of; lia).
    destruct (IH _ _ _ _ (AddKeys_ok keys _ _ _ _ Hb1)) as (b2 & filters2 & pending2 & added2 & -> & Hb2 & Hf2 & Hsub & Hall).
    + done.
    + rewrite Hi1. apply Forall_forall. intros x Hx. apply list_elem_of_In in Hx.
      pose proof (proj1 (List.Forall_forall _ _) Hle x.1 (in_map fst _ _ Hx)) as Hlex.
      split; [lia|]. unfold index_of. apply Z2Nat.inj_le; [done| |].
      * apply Z.div_pos; [lia|done].
      * by apply Z.div_le_mono.
    + rewrite app_assoc in Hfit. rewrite <- app_assoc. destruct Hp1 as [->| ->]; [by rewrite app_assoc|].
      rewrite <- app_assoc in Hfit. by apply fits_app in Hfit.
    + exists b2, filters2, pending2, added2. split_and!; try done.
      * intros x Hx. apply Hsub, elem_of_app. by left.
      * intros off' keys' key [Heq|Hin]%elem_of_cons Hkey; [|by eapply Hall].
        injection Heq as -> ->. apply Hsub, elem_of_app. right. rewrite Hi1.
        apply list_elem_of_In, in_map, list_elem_of_In. done.
Qed.


(** *** The finished block *)

(** The word [i] of an array. *)
Lemma fixed32_lookup pre words post i x :
  words !! i = Some x →
  DecodeFixed32 (drop (length pre + 4 * i) (pre ++ concat (map EncodeFixed32 (map u32 words)) ++ post)) = Ok (u32 x).
Proof.
  intros Hx. apply list_elem_of_split_length in Hx as (l1 & l2 & -> & ->).
  rewrite !map_app, concat_app, <- app_assoc, app_assoc. rewrite drop_app_length'.
  - cbn [map concat]. rewrite <- app_assoc. apply DecodeFixed32_ok. by apply wrap_in_width.
  - rewrite length_app. pose proof (length_fixed32s (map u32 l1)) as Hl. rewrite length_map in Hl. lia.
Qed.

Lemma Finish_ok b filters pending added :
  building b filters pending added → fits pending →
  ∃ filters', Finish b = Ok (concat filters' ++ concat (map EncodeFixed32 (map u32 (bounds filters'))) ++ [kFilterBaseLg]) ∧
    Forall bytes filters' ∧
    ∀ i key, (i, key) ∈ added → ∃ f, filters' !! i = Some f ∧ KeyMayMatch key f = Ok true.
Proof.
  intros Hb Hfit. unfold Finish.
  assert (∃ b' filters', (if negb (len (start_ b) =? 0) then GenerateFilter b else Ok b) = Ok b' ∧
    building b' filters' [] added) as (b' & filters' & -> & Hb').
  { destruct (len (start_ b) =? 0) eqn:E; cbn [negb]; split_bool.
    - rewrite (building_start _ _ _ _ Hb), length_starts in E.
      destruct pending; [|cbn [length] in E; lia]. by exists b, filters.
    - destruct (GenerateFilter_ok _ _ _ _ Hb Hfit) as (b' & f & -> & Hb'). by eexists _, _. }
  exists filters'. cbn [mbind outcome_bind]. destruct Hb' as [Hr Ho _ _ Hby Ha].
  rewrite PutFixed32_all, Hr, Ho. split; [|split; [done|]].
  - unfold PutFixed32, bounds. rewrite !map_app, concat_app. cbn [map concat].
    by rewrite app_nil_r, <- !app_assoc.
  - intros i key Hin. destruct (Ha i key Hin) as [?|[_ Hin']]; [done|]. by apply not_elem_of_nil in Hin'.
Qed.

(** The reader finds the array and, in it, the filter of a block. *)
Lemma FilterBlockReader_ok filters contents :
  contents = concat filters ++ concat (map EncodeFixed32 (map u32 (bounds filters))) ++ [kFilterBaseLg] →
  len contents < 2 ^ 32 →
  ∃ reader, new_FilterBlockReader contents = Ok reader ∧
    ∀ off key f, 0 ≤ off → filters !! index_of off = Some f →
      FilterBlock_KeyMayMatch reader off key = KeyMayMatch key f.
Proof.
  intros Hc Hlen.
  assert (len contents = len (concat filters) + 4 * len filters + 5) as Hn.
  { rewrite Hc, !length_app, Nat2Z.inj_add, Nat2Z.inj_add, length_fixed32s, length_map. unfold bounds.
    rewrite length_app, length_starts. cbn [length]. lia. }
  assert (∀ i x, bounds filters !! i = Some x → in_width 32 x →
    DecodeFixed32 (drop (length (concat filters) + 4 * i) contents) = Ok x) as Hword.
  { intros i x Hx Hw. rewrite Hc, fixed32_lookup with (x := x) by done. by rewrite wrap_small. }
  exists {| data_ := Some contents; offset_ := len (concat filters); num_ := len filters; base_lg_ := 11 |}.
  split.
  - unfold new_FilterBlockReader. decide_test.
    assert (byte_at contents (len contents - 1) = Ok 11) as ->.
    { unfold byte_at. decide_test. rewrite Hc, app_assoc, lookup_app_r; rewrite app_assoc in Hc; subst contents;
        rewrite !length_app in *; cbn [length] in *; [|lia].
      match goal with |- context [_ !! ?k] => replace k with 0%nat by lia end. done. }
    cbn [mbind outcome_bind].
    replace (Z.to_nat (len contents - 5)) with (length (concat filters) + 4 * length filters)%nat by lia.
    rewrite (Hword (length filters) (len (concat filters))); [|
      unfold bounds; rewrite lookup_app_r; rewrite length_starts; [by rewrite Nat.sub_diag|done] |
      unfold in_width; lia].
    cbn [mbind outcome_bind]. decide_test. rewrite Hn. do 2 f_equal.
    replace (len (concat filters) + 4 * len filters + 5 - 5 - len (concat filters)) with (len filters * 4) by lia.
    by rewrite Z.div_mul.
  - intros off key f Hoff Hf. unfold FilterBlock_KeyMayMatch. cbn [base_lg_ num_ data_ offset_].
    decide_test. cbn [require mbind outcome_bind].
    assert (Z.shiftr off 11 = Z.of_nat (index_of off)) as ->.
    { unfold index_of. rewrite Z.shiftr_div_pow2, Z2Nat.id by (try apply Z.div_pos; done). done. }
    pose proof (lookup_lt_Some _ _ _ Hf). decide_test.
    destruct (bounds_lookup filters _ _ Hf) as (s & Hs & He & Hs0 & Hse & Hread).
    replace (Z.to_nat (len (concat filters) + Z.of_nat (index_of off) * 4))
      with (length (concat filters) + 4 * index_of off)%nat by lia.
    replace (Z.to_nat (len (concat filters) + Z.of_nat (index_of off) * 4 + 4))
      with (length (concat filters) + 4 * S (index_of off))%nat by lia.
    rewrite (Hword _ _ Hs), (Hword _ _ He) by (unfold in_width; lia). cbn [mbind outcome_bind].
    repeat decide_test. cbn [andb]. replace (s + len f - s) with (len f) by lia.
    assert (read_at contents s (len f) = Ok f) as ->; [|done].
    revert Hread. unfold read_at. repeat decide_test. cbn [andb]. rewrite Hc. intros [= Heq]. f_equal.
    by rewrite drop_app_le, take_app_le by (rewrite ?length_drop; lia).
Qed.

End filter_block_ok.

(** ** How large they are *)

(** How much a filter takes for each key. *)
Class FilterBound `{FilterPolicy} : Type := {
  filter_bound : Z;
  filter_bound_pos : 0 ≤ filter_bound;
  CreateFilter_bound keys dst l : keys ≠ [] → CreateFilter keys dst = Ok l → len l ≤ len dst + filter_bound * len keys
}.

Section size.
Context `{FilterBound}.

Lemma tmp_keys_length keys start l : tmp_keys keys start = Ok l → length l = pred (length start).
Proof.
  revert l. induction start as [|s [|e start] IH]; intros l; cbn [tmp_keys].
  - by intros [= <-].
  - by intros [= <-].
  - intros Hr. apply outcome_bind_inv in Hr as (key & _ & Hr). apply outcome_bind_inv in Hr as (t & Ht & Hr).
    injection Hr as <-. cbn [length]. by rewrite (IH _ Ht).
Qed.

(** The filters made of, and the keys waiting in, [n] keys. *)
Definition sized (b : FilterBlockBuilder) (n : Z) : Prop :=
  len (result_ b) + filter_bound * len (start_ b) ≤ filter_bound * n.

Lemma GenerateFilter_sized b b' n :
  GenerateFilter b = Ok b' → sized b n →
  sized b' n ∧ length (filter_offsets_ b') = S (length (filter_offsets_ b)) ∧ start_ b' = [].
Proof.
  unfold GenerateFilter, sized. intros Hr Hs. destruct (len (start_ b) =? 0) eqn:E; split_bool.
  - injection Hr as <-. cbn [result_ start_ filter_offsets_]. rewrite length_app. cbn [length].
    split_and!; [done|lia|]. by destruct (start_ b).
  - apply outcome_bind_inv in Hr as (tmp & Ht & Hr). apply outcome_bind_inv in Hr as (r & Hc & Hr).
    injection Hr as <-. cbn [result_ start_ filter_offsets_ length]. rewrite length_app. cbn [length].
    apply tmp_keys_length in Ht. rewrite length_app in Ht. cbn [length] in Ht.
    apply CreateFilter_bound in Hc; [|by intros ->; destruct (start_ b); cbn [length] in *; lia].
    replace (len tmp) with (len (start_ b)) in Hc by lia. split_and!; [lia|lia|done].
Qed.

Lemma StartBlock_loop_sized k b b' n :
  StartBlock_loop k b = Ok b' → sized b n →
  sized b' n ∧ length (filter_offsets_ b') = (length (filter_offsets_ b) + k)%nat.
Proof.
  revert b. induction k as [|k IH]; intros b Hr Hs; cbn [StartBlock_loop] in Hr.
  - injection Hr as <-. split; [done|lia].
  - apply outcome_bind_inv in Hr as (b1 & Hg & Hr). destruct (GenerateFilter_sized _ _ _ Hg Hs) as (Hs1 & Hl & _).
    destruct (IH _ Hr Hs1) as [Hs2 Hl2]. split; [done|lia].
Qed.

Lemma StartBlock_sized b b' off n :
  StartBlock b off = Ok b' → sized b n → sized b' n ∧ len (filter_offsets_ b') = off / kFilterBase.
Proof.
  unfold StartBlock. intros Hr Hs. apply outcome_bind_inv in Hr as (? & Hreq & Hr).
  destruct (len (filter_offsets_ b) <=? off / kFilterBase) eqn:E; [|done]. split_bool.
  destruct (StartBlock_loop_sized _ _ _ _ Hr Hs) as [Hs1 Hl]. split; [done|lia].
Qed.

Lemma AddKeys_sized keys b n :
  sized b n → sized (fold_left AddKey keys b) (n + len keys) ∧
  filter_offsets_ (fold_left AddKey keys b) = filter_offsets_ b.
Proof.
  revert b n. induction keys as [|key keys IH]; intros b n Hs; cbn [fold_left].
  - cbn [length]. by rewrite Z.add_0_r.
  - pose proof filter_bound_pos. destruct (IH (AddKey b key) (n + 1)) as [Hs1 Ho1].
    + unfold sized in *. cbn [AddKey result_ start_]. rewrite length_app. cbn [length]. lia.
    + cbn [length]. split; [|done]. by replace (n + Z.of_nat (S (length keys))) with (n + 1 + len keys) by lia.
Qed.

Lemma build_sized blocks b b' n top :
  build blocks b = Ok b' → sized b n → len (filter_offsets_ b) ≤ top / kFilterBase → Forall (λ x, x.1 ≤ top) blocks →
  sized b' (n + len (concat (map snd blocks))) ∧ len (filter_offsets_ b') ≤ top / kFilterBase.
Proof.
  revert b n. induction blocks as [|[off keys] blocks IH]; intros b n Hr Hs Ho Ht; cbn [build map concat snd] in *.
  - injection Hr as <-. cbn [length]. by rewrite Z.add_0_r.
  - apply outcome_bind_inv in Hr as (b1 & Hb & Hr). apply Forall_cons in Ht as [Ht1 Ht]. cbn [fst] in *.
    destruct (StartBlock_sized _ _ _ _ Hb Hs) as [Hs1 Hl1]. destruct (AddKeys_sized keys b1 n Hs1) as [Hs2 Hl2].
    rewrite length_app, Nat2Z.inj_add, Z.add_assoc. apply (IH _ (n + len keys) Hr Hs2); [|done].
    rewrite Hl2, Hl1. by apply Z.div_le_mono.
Qed.

Lemma Finish_sized b n contents :
  Finish b = Ok contents → sized b n →
  len contents ≤ filter_bound * n + 4 * (len (filter_offsets_ b) + 1) + 5.
Proof.
  unfold Finish. intros Hr Hs. apply outcome_bind_inv in Hr as (b' & Hb & Hr).
  injection Hr as <-. rewrite PutFixed32_all. unfold PutFixed32. rewrite !length_app, !Nat2Z.inj_add, length_fixed32s.
  unfold EncodeFixed32. rewrite length_le_bytes. cbn [length]. pose proof filter_bound_pos.
  destruct (negb (len (start_ b) =? 0)).
  - destruct (GenerateFilter_sized _ _ _ Hb Hs) as (Hs' & Hl & Hst). unfold sized in Hs'. rewrite Hst in Hs'. cbn [length] in Hs'. lia.
  - injection Hb as <-. unfold sized in Hs. nia.
Qed.

End size.

(** A Bloom filter takes its bits, at least 64 of them, and a byte. *)
Lemma bloom_set_bit_length a pos a' : bloom_set_bit a pos = Ok a' → length a' = length a.
Proof.
  unfold bloom_set_bit. intros Hr. apply outcome_bind_inv in Hr as (b & _ & Hr). injection Hr as <-. apply length_insert.
Qed.

Lemma set_probes_length k bits h delta a a' : set_probes k bits h delta a = Ok a' → length a' = length a.
Proof.
  revert h a. induction k as [|k IH]; intros h a Hr; cbn [set_probes] in Hr; [by injection Hr as <-|].
  apply outcome_bind_inv in Hr as (a1 & Ha1 & Hr). rewrite (IH _ _ Hr). by eapply bloom_set_bit_length.
Qed.

Lemma add_keys_length keys k bits a a' : add_keys keys k bits a = Ok a' → length a' = length a.
Proof.
  revert a. induction keys as [|key keys IH]; intros a Hr; cbn [add_keys] in Hr; [by injection Hr as <-|].
  apply outcome_bind_inv in Hr as (a1 & Ha1 & Hr). rewrite (IH _ Hr). by eapply set_probes_length.
Qed.

Definition bloom_bound (policy : BloomFilterPolicy) : bloom_ok policy → @FilterBound (bloom_policy policy).
Proof.
  intros [Hb _]. refine {| filter_bound := bits_per_key_ policy + 11 |}; [lia|].
  intros keys dst l Hne Hr. cbn [CreateFilter bloom_policy] in Hr. unfold Bloom_CreateFilter in Hr.
  apply outcome_bind_inv in Hr as (a & Ha & Hr). injection Hr as <-. apply add_keys_length in Ha.
  rewrite length_app, length_replicate in Ha. cbn [length] in Ha. rewrite length_app.
  assert (∀ x, 0 ≤ x → 0 ≤ u64 x ≤ x) as Hu by (intros x Hx; unfold wrap; split; [by apply Z.mod_pos_bound|by apply Z.mod_le]).
  pose proof (Hu (len keys * bits_per_key_ policy) ltac:(nia)) as Hu1.
  set (bits := if u64 (len keys * bits_per_key_ policy) <? 64 then _ else _) in *.
  assert (0 ≤ bits ≤ 64 + len keys * bits_per_key_ policy) as Hu2 by (unfold bits; destruct (_ <? 64); lia).
  pose proof (Hu (bits + 7) ltac:(lia)) as Hu3.
  assert (u64 (bits + 7) / 8 ≤ (bits + 7) / 8) as Hu4 by (apply Z.div_le_mono; lia).
  assert ((bits + 7) / 8 ≤ bits / 8 + 1) as Hu5 by lia_mod.
  assert (bits / 8 ≤ 8 + len keys * bits_per_key_ policy) as Hu6 by lia_mod.
  assert (0 ≤ u64 (bits + 7) / 8) by (apply Z.div_pos; lia).
  assert (1 ≤ len keys) by (destruct keys; [done|cbn; lia]). nia.
Defined.

Lemma bloom_bound_value policy (H : bloom_ok policy) : @filter_bound _ (bloom_bound policy H) = bits_per_key_ policy + 11.
Proof. by destruct H. Qed.

(** A policy that answers about some keys whatever the bytes of a filter are. *)
Class FilterAnswers `{FilterPolicy} : Type := {
  asked : Slice → Prop;
  KeyMayMatch_answers key filter : asked key → len filter < 2 ^ 32 → ∃ b, KeyMayMatch key filter = Ok b
}.

Lemma test_probes_answers k bits h delta array :
  0 < bits → bits ≤ 8 * len array → ∃ b, test_probes k bits h delta array = Ok b.
Proof.
  intros Hb Hl. revert h. induction k as [|k IH]; intros h; cbn [test_probes]; [by exists true|].
  pose proof (Z.mod_pos_bound h bits Hb) as Hm.
  assert (0 ≤ h mod bits / 8 < len array) as Hp.
  { split; [apply Z.div_pos; lia|]. apply Z.div_lt_upper_bound; lia. }
  unfold byte_at. repeat decide_test. cbn [andb]. destruct (lookup_lt_is_Some_2 array (Z.to_nat (h mod bits / 8)) ltac:(lia)) as [x ->].
  cbn [mbind outcome_bind]. destruct (_ =? 0); [by exists false|apply IH].
Qed.

#[export] Instance bloom_answers (policy : BloomFilterPolicy) : @FilterAnswers (bloom_policy policy).
Proof.
  refine (@Build_FilterAnswers (bloom_policy policy) (λ _, True) _).
  intros key filter _ Hl. cbn [KeyMayMatch bloom_policy]. unfold Bloom_KeyMayMatch.
  destruct (len filter <? 2) eqn:E; split_bool; [by exists false|].
  unfold byte_at. repeat decide_test. cbn [andb]. destruct (lookup_lt_is_Some_2 filter (Z.to_nat (len filter - 1)) ltac:(lia)) as [x ->].
  cbn [mbind outcome_bind]. destruct (30 <? _); [by exists true|].
  rewrite (wrap_small 64 ((len filter - 1) * 8)) by (unfold in_width; lia). apply test_probes_answers; lia.
Defined.

(** ** A sample *)

Definition text_hello : list Z := [104; 101; 108; 108; 111].
Definition sample_bloom : BloomFilterPolicy := {| bits_per_key_ := 10; k_ := 6 |}.
Lemma sample_bloom_ok : bloom_ok sample_bloom.
Proof. unfold bloom_ok. cbn. lia. Qed.
Definition sample_blocks : list (Z * list Slice) := [(0, [[1]; []]); (5000, [text_hello])].

(** ** Properties *)

(** A Bloom filter never denies a key it was made of: whatever the keys, the bits per
    key and what the destination held, [CreateFilter] only appends to the destination,
    stays within the new bytes, and [KeyMayMatch] answers true for each of the keys. *)
Theorem Bloom_no_false_negative bits_per_key keys dst :
  0 ≤ bits_per_key < 2 ^ 31 → len keys < 2 ^ 29 →
  ∃ policy filter, new_BloomFilterPolicy bits_per_key = Ok policy ∧
    Bloom_CreateFilter policy keys dst = Ok (dst ++ filter) ∧
    ∀ key, key ∈ keys → Bloom_KeyMayMatch key filter = Ok true.
Proof.
  intros Hb Hk. destruct (new_BloomFilterPolicy_ok bits_per_key Hb) as (policy & Hp & Hok & Hbits).
  destruct (@CreateFilter_appends _ (bloom_laws policy Hok) keys) as (filter & _ & Hc & Hm).
  - cbn. rewrite Hbits. nia.
  - exists policy, filter. split; [done|]. split; [apply Hc|exact Hm].
Qed.

Lemma Bloom_no_false_negative_witness :
  ∃ policy filter, new_BloomFilterPolicy 10 = Ok policy ∧
    Bloom_CreateFilter policy [text_hello; []] [7] = Ok ([7] ++ filter) ∧
    Bloom_KeyMayMatch text_hello filter = Ok true.
Proof.
  destruct (Bloom_no_false_negative 10 [text_hello; []] [7]) as (policy & filter & Hp & Hc & Hm); [done|done|].
  exists policy, filter. split; [exact Hp|]. split; [exact Hc|]. apply Hm. left.
Defined.

(** The reader of a finished filter block asks the filter that a block of the table has. *)
Lemma filter_block_answers `{FilterPolicyLaws} blocks :
  StronglySorted Z.le (map fst blocks) → Forall (λ x, 0 ≤ x.1) blocks → fits (concat (map snd blocks)) →
  ∃ b contents, build blocks new_FilterBlockBuilder = Ok b ∧ Finish b = Ok contents ∧ bytes contents ∧
    (len contents < 2 ^ 32 → ∃ reader, new_FilterBlockReader contents = Ok reader ∧
      ∀ off keys, (off, keys) ∈ blocks → keys ≠ [] → ∃ f, len f ≤ len contents ∧
        (∀ key, FilterBlock_KeyMayMatch reader off key = KeyMayMatch key f) ∧
        ∀ key, key ∈ keys → KeyMayMatch key f = Ok true).
Proof.
  intros Hsort Hpos Hfit.
  assert (building new_FilterBlockBuilder [] [] []) as H0'.
  { split; try done. intros i key Hin. by apply not_elem_of_nil in Hin. }
  destruct (build_ok blocks _ _ _ _ H0' Hsort) as (b & filters & pending & added & Hb & Hbuilt & Hfp & _ & Hall);
    [|done|].
  { eapply Forall_impl; [exact Hpos|]. intros x Hx. cbn in *. split; [done|]. apply Nat.le_0_l. }
  destruct (Finish_ok b filters pending added Hbuilt Hfp) as (filters' & Hf & Hby & Hadded).
  eexists b, _. split; [done|]. split; [exact Hf|]. split.
  { clear -Hby. apply Forall_app_2; [|apply Forall_app_2; [|by repeat constructor]].
    - induction Hby; [constructor|]. by apply Forall_app_2.
    - induction (map u32 (bounds filters')) as [|x l IH]; [constructor|]. by apply Forall_app_2; [apply le_bytes_bytes|]. }
  intros Hlen. destruct (FilterBlockReader_ok filters' _ eq_refl Hlen) as (reader & Hr & Hmatch).
  exists reader. split; [done|]. intros off keys Hin Hne.
  destruct keys as [|key0 keys]; [done|].
  destruct (Hadded _ _ (Hall off _ key0 Hin ltac:(left))) as (f & Hlook & Hm). exists f. split_and!.
  - rewrite length_app. clear -Hlook. apply list_elem_of_split_length in Hlook as (l1 & l2 & -> & _).
    rewrite concat_app. cbn [concat]. rewrite !length_app. lia.
  - intros key. apply Hmatch; [|done]. rewrite Forall_forall in Hpos. exact (Hpos _ Hin).
  - intros key Hkey. destruct (Hadded _ _ (Hall off _ key Hin Hkey)) as (g & Hg & Hmg). congruence.
Qed.

Lemma build_snoc `{FilterPolicy} blocks off keys b :
  build (blocks ++ [(off, keys)]) b = (b ← build blocks b; b ← StartBlock b off; Ok (fold_left AddKey keys b)).
Proof.
  revert b. induction blocks as [|[off' keys'] blocks IH]; intros b; cbn [app build].
  - done.
  - destruct (StartBlock b off') as [b1| |]; cbn [mbind outcome_bind]; [apply IH|done..].
Qed.

(** C34: A filter block never denies a key of its table, for any filter policy that keeps
    its contract: when blocks are started at offsets that do not decrease and their keys
    added, the block can be finished, and the reader of the finished block answers true
    for every key at the offset of the block it was added for. *)
Theorem FilterBlock_no_false_negative `{FilterPolicyLaws} blocks :
  StronglySorted Z.le (map fst blocks) → Forall (λ x, 0 ≤ x.1) blocks → fits (concat (map snd blocks)) →
  ∃ b contents, build blocks new_FilterBlockBuilder = Ok b ∧ Finish b = Ok contents ∧
    (len contents < 2 ^ 32 → ∃ reader, new_FilterBlockReader contents = Ok reader ∧
      ∀ off keys key, (off, keys) ∈ blocks → key ∈ keys →
        FilterBlock_KeyMayMatch reader off key = Ok true).
Proof.
  intros Hsort Hpos Hfit. destruct (filter_block_answers blocks Hsort Hpos Hfit) as (b & contents & Hb & Hf & _ & Hread).
  exists b, contents. split; [done|]. split; [done|]. intros Hlen. destruct (Hread Hlen) as (reader & Hr & Hans).
  exists reader. split; [done|]. intros off keys key Hin Hkey.
  destruct (Hans off keys Hin) as (f & _ & Hf' & Hall); [by intros ->; apply not_elem_of_nil in Hkey|].
  rewrite Hf'. by apply Hall.
Qed.

Lemma FilterBlock_no_false_negative_witness :
  ∃ b contents reader, @build (bloom_policy sample_bloom) sample_blocks new_FilterBlockBuilder = Ok b ∧
    @Finish (bloom_policy sample_bloom) b = Ok contents ∧ new_FilterBlockReader contents = Ok reader ∧
    @FilterBlock_KeyMayMatch (bloom_policy sample_bloom) reader 5000 text_hello = Ok true.
Proof.
  destruct (@FilterBlock_no_false_negative _ (bloom_laws sample_bloom sample_bloom_ok) sample_blocks)
    as (b & contents & Hb & Hf & Hread).
  - repeat constructor; done.
  - repeat constructor; done.
  - done.
  - vm_compute in Hb. injection Hb as <-. vm_compute in Hf. injection Hf as <-.
    destruct (Hread eq_refl) as (reader & Hr & Hm). eexists _, _, reader.
    split; [by vm_compute|]. split; [by vm_compute|]. split; [exact Hr|].
    apply (Hm 5000 [text_hello]); [right; left|left].
Defined.
