(* ===== verification/LdbEnv.v ===== *)
(** * LevelDB, util/status and util/env_posix: results and files

    [Status] with its heap representation (include/leveldb/status.h, util/status.cc), the
    interfaces of sequential and writable files (include/leveldb/env.h) as classes with
    what their comments promise, and the files of util/env_posix.cc as instances, over the
    system calls of the machine. *)

From S2P Require Import Prelude LdbCoding.

(** The characters of a literal. *)
Definition text (s : string) : list Z :=
  map (λ c, Z.of_N (Ascii.N_of_ascii c)) (String.list_ascii_of_string s).

(** ** Status *)

(** [state_]: [None] for NULL, and the bytes of the array. *)
Definition Status : Type := option (list Z).

Definition kOk : Z := 0.
Definition kNotFound : Z := 1.
Definition kCorruption : Z := 2.
Definition kNotSupported : Z := 3.
Definition kInvalidArgument : Z := 4.
Definition kIOError : Z := 5.

Definition status_OK : Status := None.
Definition ok (s : Status) : bool := match s with None => true | Some _ => false end.

Definition make_status (code : Z) (msg msg2 : Slice) : Status :=
  let len1 := u32 (len msg) in
  let len2 := u32 (len msg2) in
  let size := u32 (len1 + (if len2 =? 0 then 0 else 2 + len2)) in
  Some (EncodeFixed32 size ++ [code] ++ take (Z.to_nat len1) msg ++
        (if len2 =? 0 then [] else [58; 32] ++ take (Z.to_nat len2) msg2)).

Definition NotFound := make_status kNotFound.
Definition Corruption := make_status kCorruption.
Definition NotSupported := make_status kNotSupported.
Definition InvalidArgument := make_status kInvalidArgument.
Definition IOError := make_status kIOError.

(** [static_cast<Code>(state_[4])]; a [char]. *)
Definition status_code (s : Status) : outcome Z :=
  match s with None => Ok kOk | Some state_ => c ← byte_at state_ 4; Ok (swrap 8 c) end.

Definition IsNotFound (s : Status) : outcome bool := c ← status_code s; Ok (c =? kNotFound).
Definition IsCorruption (s : Status) : outcome bool := c ← status_code s; Ok (c =? kCorruption).
Definition IsIOError (s : Status) : outcome bool := c ← status_code s; Ok (c =? kIOError).
Definition IsNotSupportedError (s : Status) : outcome bool :=
  c ← status_code s; Ok (c =? kNotSupported).
Definition IsInvalidArgument (s : Status) : outcome bool :=
  c ← status_code s; Ok (c =? kInvalidArgument).

(** [%d] *)
Definition print_int (n : Z) : list Z := if n <? 0 then 45 :: NumberToString (- n) else NumberToString n.

Definition code_text (code : Z) : list Z :=
  if code =? kOk then text "OK"
  else if code =? kNotFound then text "NotFound: "
  else if code =? kCorruption then text "Corruption: "
  else if code =? kNotSupported then text "Not implemented: "
  else if code =? kInvalidArgument then text "Invalid argument: "
  else if code =? kIOError then text "IO error: "
  else text "Unknown code(" ++ print_int code ++ text "): ".

Definition ToString (s : Status) : outcome (list Z) :=
  match s with
  | None => Ok (text "OK")
  | Some state_ =>
      code ← status_code s;
      length ← DecodeFixed32 state_;
      message ← read_at state_ 5 length;
      Ok (code_text code ++ message)
  end.

(** [CopyState]: the array is copied. *)
Definition CopyState (state : list Z) : outcome (list Z) :=
  size ← DecodeFixed32 state; read_at state 0 (size + 5).

(** ** The interfaces of files

    The state of a file comes with that of the machine it is on. *)

Class SequentialFile (F : Type) : Type := {
  Read : Z → Slice → F → outcome (Status * Slice * F);  (* the new value of [*result] *)
  Skip : Z → F → outcome (Status * F)
}.

(** A read returns, and hands out at most the bytes asked for, in order.  A file that is
    [steady] does not fail, and only its end makes a read short. *)
Class SequentialFileLaws (F : Type) `{SequentialFile F} : Type := {
  unread : F → list Z;
  steady : F → Prop;
  Read_some n result f : 0 ≤ n → ∃ s l f', Read n result f = Ok (s, l, f') ∧
    (ok s = true → len l ≤ n ∧ unread f = l ++ unread f');
  Read_steady n result f : 0 ≤ n → steady f → ∃ f',
    Read n result f = Ok (status_OK, take (Z.to_nat n) (unread f), f') ∧
    unread f' = drop (Z.to_nat n) (unread f) ∧ steady f';
  Skip_some n f : 0 ≤ n < 2 ^ 63 → ∃ s f', Skip n f = Ok (s, f') ∧
    (ok s = true → unread f' = drop (Z.to_nat n) (unread f))
}.

Class WritableFile (F : Type) : Type := {
  Append : Slice → F → outcome (Status * F);
  Flush : F → outcome (Status * F);
  Sync : F → outcome (Status * F);
  Close : F → outcome (Status * F)
}.

(** What was appended, and how much of it has left the process.  A file that is [working]
    takes what is appended to it; whether that can be made to last is for the device to say. *)
Class WritableFileLaws (F : Type) `{WritableFile F} : Type := {
  written : F → list Z;
  stored : F → list Z;
  working : F → Prop;
  Append_working l f : working f → ∃ f', Append l f = Ok (status_OK, f') ∧
    written f' = written f ++ l ∧ working f';
  Flush_working f : working f → ∃ f', Flush f = Ok (status_OK, f') ∧
    written f' = written f ∧ stored f' = written f ∧ working f';
  Sync_some f : working f → ∃ s f', Sync f = Ok (s, f') ∧
    written f' = written f ∧ stored f' = written f ∧ working f'
}.

(** ** The calls of the system *)

Inductive sysresult (A : Type) : Type :=
  | Done (a : A)
  | Failed (errno : Z).
Arguments Done {A} a.
Arguments Failed {A} errno.

Definition ENOENT : Z := 2.
Definition EINTR : Z := 4.
Definition EINVAL : Z := 22.

Class Posix : Type := {
  kernel : Type;
  sys_open : list Z → kernel → sysresult Z * kernel;            (* O_RDONLY *)
  sys_close : Z → kernel → sysresult unit * kernel;
  sys_read : Z → Z → kernel → sysresult (list Z) * kernel;
  sys_write : Z → list Z → kernel → sysresult Z * kernel;
  sys_lseek : Z → Z → kernel → sysresult Z * kernel;            (* SEEK_CUR *)
  sys_fdatasync : Z → kernel → sysresult unit * kernel;
  strerror : Z → list Z;
  patience : nat    (* how many calls in a row may come to nothing *)
}.

(** The documented behaviour of the calls on a regular file.  [stalls] bounds the calls to
    come that are interrupted or write nothing before one gets through. *)
Class PosixLaws `{Posix} : Type := {
  stalls : kernel → nat;
  file_data : Z → kernel → list Z;     (* written through the descriptor *)
  file_ahead : Z → kernel → list Z;    (* from its position to the end *)
  healthy : Z → kernel → Prop;
  stalls_bound w : (stalls w ≤ patience)%nat;
  write_done fd data w n w' : sys_write fd data w = (Done n, w') →
    0 ≤ n ≤ len data ∧ file_data fd w' = file_data fd w ++ take (Z.to_nat n) data ∧
    (n = 0 → data ≠ [] → (stalls w' < stalls w)%nat);
  write_failed fd data w e w' : sys_write fd data w = (Failed e, w') →
    file_data fd w' = file_data fd w ∧ (e = EINTR → (stalls w' < stalls w)%nat);
  write_healthy fd data w r w' : healthy fd w → sys_write fd data w = (r, w') →
    healthy fd w' ∧ (∀ e, r = Failed e → e = EINTR);
  read_done fd n w l w' : 0 ≤ n → sys_read fd n w = (Done l, w') →
    len l ≤ n ∧ file_ahead fd w = l ++ file_ahead fd w';
  read_failed fd n w e w' : sys_read fd n w = (Failed e, w') →
    file_ahead fd w' = file_ahead fd w ∧ (e = EINTR → (stalls w' < stalls w)%nat);
  read_healthy fd n w r w' : healthy fd w → 0 ≤ n → sys_read fd n w = (r, w') →
    healthy fd w' ∧ (∀ e, r = Failed e → e = EINTR) ∧
    (∀ l, r = Done l → l = take (Z.to_nat n) (file_ahead fd w));
  fdatasync_keeps fd w r w' : sys_fdatasync fd w = (r, w') →
    file_data fd w' = file_data fd w ∧ (healthy fd w → healthy fd w');
  lseek_done fd n w p w' : 0 ≤ n → sys_lseek fd n w = (Done p, w') →
    file_ahead fd w' = drop (Z.to_nat n) (file_ahead fd w)
}.

(** ** util/env_posix.cc *)

Section env_posix.
Context `{Posix}.

Definition PosixError (context : list Z) (error_number : Z) : Status :=
  if error_number =? ENOENT then NotFound context (strerror error_number)
  else IOError context (strerror error_number).

(** *** [PosixSequentialFile] *)

Record PosixSequentialFile : Type := { seq_fd : Z; seq_filename : list Z }.

(** [while (true)]: a read that is interrupted is tried again. *)
Fixpoint read_retry (fuel : nat) (this : PosixSequentialFile) (n : Z) (result : Slice) (w : kernel) :
    outcome (Status * Slice * kernel) :=
  match fuel with
  | O => Fault Diverges
  | S fuel =>
      match sys_read (seq_fd this) n w with
      | (Failed errno, w) =>
          if errno =? EINTR then read_retry fuel this n result w
          else Ok (PosixError (seq_filename this) errno, result, w)
      | (Done l, w) => Ok (status_OK, l, w)
      end
  end.

Definition PosixSequentialFile_Read (n : Z) (result : Slice) (f : PosixSequentialFile * kernel) :
    outcome (Status * Slice * (PosixSequentialFile * kernel)) :=
  r ← read_retry (S patience) f.1 n result f.2;
  Ok (r.1.1, r.1.2, (f.1, r.2)).

(** [n] becomes an [off_t]. *)
Definition PosixSequentialFile_Skip (n : Z) (f : PosixSequentialFile * kernel) :
    outcome (Status * (PosixSequentialFile * kernel)) :=
  match sys_lseek (seq_fd f.1) (swrap 64 n) f.2 with
  | (Failed errno, w) => Ok (PosixError (seq_filename f.1) errno, (f.1, w))
  | (Done _, w) => Ok (status_OK, (f.1, w))
  end.

#[export] Instance posix_sequential : SequentialFile (PosixSequentialFile * kernel) := {|
  Read := PosixSequentialFile_Read;
  Skip := PosixSequentialFile_Skip
|}.

(** *** [PosixWritableFile] *)

Definition kWritableFileBufferSize : Z := 65536.

(** [buf_] is the first [pos_] bytes of the array. *)
Record PosixWritableFile : Type := {
  buf_ : list Z; fd_ : Z; is_manifest_ : bool; filename_ : list Z; dirname_ : list Z
}.

Definition set_buf (this : PosixWritableFile) (buf : list Z) : PosixWritableFile :=
  {| buf_ := buf; fd_ := fd_ this; is_manifest_ := is_manifest_ this;
     filename_ := filename_ this; dirname_ := dirname_ this |}.

(** What follows the last separator, and what precedes it. *)
Definition rfind_separator (filename : list Z) : option (list Z * list Z) :=
  match list_find (λ c, c = 47) (rev filename) with
  | Some (i, _) => let n := (length filename - S i)%nat in Some (take n filename, drop (S n) filename)
  | None => None
  end.

Definition Dirname (filename : list Z) : list Z :=
  match rfind_separator filename with None => text "." | Some (dir, _) => dir end.
Definition Basename (filename : list Z) : Slice :=
  match rfind_separator filename with None => filename | Some (_, base) => base end.
Definition IsManifest (filename : list Z) : bool := starts_with (Basename filename) (text "MANIFEST").

Definition new_PosixWritableFile (filename : list Z) (fd : Z) : PosixWritableFile :=
  {| buf_ := []; fd_ := fd; is_manifest_ := IsManifest filename;
     filename_ := filename; dirname_ := Dirname filename |}.

Fixpoint WriteUnbuffered_loop (fuel : nat) (this : PosixWritableFile) (data : list Z) (w : kernel) :
    outcome (Status * kernel) :=
  match fuel with
  | O => Fault Diverges
  | S fuel =>
      if 0 <? len data then
        match sys_write (fd_ this) data w with
        | (Failed errno, w) =>
            if errno =? EINTR then WriteUnbuffered_loop fuel this data w
            else Ok (PosixError (filename_ this) errno, w)
        | (Done write_result, w) => WriteUnbuffered_loop fuel this (drop (Z.to_nat write_result) data) w
        end
      else Ok (status_OK, w)
  end.

(** Each byte may take [patience] calls more. *)
Definition WriteUnbuffered (this : PosixWritableFile) (data : list Z) (w : kernel) :
    outcome (Status * kernel) :=
  WriteUnbuffered_loop (S (S (length data) * S patience)) this data w.

(** The buffer is emptied even when writing it fails. *)
Definition FlushBuffer (f : PosixWritableFile * kernel) : outcome (Status * (PosixWritableFile * kernel)) :=
  r ← WriteUnbuffered f.1 (buf_ f.1) f.2;
  Ok (r.1, (set_buf f.1 [], r.2)).

Definition PosixWritableFile_Append (data : Slice) (f : PosixWritableFile * kernel) :
    outcome (Status * (PosixWritableFile * kernel)) :=
  let write_size := len data in
  let copy_size := Z.min write_size (kWritableFileBufferSize - len (buf_ f.1)) in
  let f := (set_buf f.1 (buf_ f.1 ++ take (Z.to_nat copy_size) data), f.2) in
  let write_data := drop (Z.to_nat copy_size) data in
  let write_size := write_size - copy_size in
  if write_size =? 0 then Ok (status_OK, f)
  else
    r ← FlushBuffer f;
    let status := r.1 in
    let f := r.2 in
    if negb (ok status) then Ok (status, f)
    else if write_size <? kWritableFileBufferSize then Ok (status_OK, (set_buf f.1 write_data, f.2))
    else r ← WriteUnbuffered f.1 write_data f.2; Ok (r.1, (f.1, r.2)).

Definition SyncFd (fd : Z) (fd_path : list Z) (w : kernel) : Status * kernel :=
  match sys_fdatasync fd w with
  | (Done _, w) => (status_OK, w)
  | (Failed errno, w) => (PosixError fd_path errno, w)
  end.

Definition SyncDirIfManifest (this : PosixWritableFile) (w : kernel) : Status * kernel :=
  if negb (is_manifest_ this) then (status_OK, w)
  else match sys_open (dirname_ this) w with
       | (Failed errno, w) => (PosixError (dirname_ this) errno, w)
       | (Done fd, w) =>
           let r := SyncFd fd (dirname_ this) w in
           (r.1, (sys_close fd r.2).2)
       end.

Definition PosixWritableFile_Sync (f : PosixWritableFile * kernel) :
    outcome (Status * (PosixWritableFile * kernel)) :=
  let r := SyncDirIfManifest f.1 f.2 in
  let f := (f.1, r.2) in
  if negb (ok r.1) then Ok (r.1, f)
  else
    r ← FlushBuffer f;
    let f := r.2 in
    if negb (ok r.1) then Ok (r.1, f)
    else let s := SyncFd (fd_ f.1) (filename_ f.1) f.2 in Ok (s.1, (f.1, s.2)).

Definition PosixWritableFile_Close (f : PosixWritableFile * kernel) :
    outcome (Status * (PosixWritableFile * kernel)) :=
  r ← FlushBuffer f;
  let status := r.1 in
  let f := r.2 in
  let c := sys_close (fd_ f.1) f.2 in
  let status := match c.1 with
                | Failed errno => if ok status then PosixError (filename_ f.1) errno else status
                | Done _ => status
                end in
  Ok (status, ({| buf_ := buf_ f.1; fd_ := -1; is_manifest_ := is_manifest_ f.1;
                  filename_ := filename_ f.1; dirname_ := dirname_ f.1 |}, c.2)).

#[export] Instance posix_writable : WritableFile (PosixWritableFile * kernel) := {|
  Append := PosixWritableFile_Append;
  Flush := FlushBuffer;
  Sync := PosixWritableFile_Sync;
  Close := PosixWritableFile_Close
|}.

End env_posix.

(** ** Status *)

(** The code and the message of a status are read back from its representation. *)
Lemma ToString_make code msg msg2 :
  kOk < code ≤ kIOError → len msg + len msg2 + 2 < 2 ^ 32 →
  status_code (make_status code msg msg2) = Ok code ∧
  ToString (make_status code msg msg2) =
    Ok (code_text code ++ msg ++ (if len msg2 =? 0 then [] else text ": " ++ msg2)).
Proof.
  unfold kOk, kIOError. intros Hc Hl.
  assert (Hcode : status_code (make_status code msg msg2) = Ok code).
  { transitivity (Ok (swrap 8 code)); [reflexivity|]. unfold swrap. by rewrite Z.mod_small, Z.add_simpl_r by lia. }
  split; [done|]. unfold ToString. rewrite Hcode. unfold make_status.
  rewrite !(wrap_small 32 (len _)) by (unfold in_width; lia). rewrite !Nat2Z.id, !firstn_all.
  rewrite wrap_small by (unfold in_width; destruct (len msg2 =? 0) eqn:E; split_bool; lia).
  cbn [mbind outcome_bind].
  rewrite DecodeFixed32_ok by (unfold in_width; destruct (len msg2 =? 0) eqn:E; split_bool; lia).
  cbn [mbind outcome_bind]. rewrite (app_assoc _ [code]).
  rewrite <- (app_nil_r (msg ++ _)) at 1. rewrite read_at_app; [done| |].
  - rewrite length_app. unfold EncodeFixed32. by rewrite length_le_bytes.
  - rewrite length_app. destruct (len msg2 =? 0) eqn:E; split_bool; cbn [length]; rewrite ?length_app;
      cbn [length]; lia.
Qed.

(** ** The files keep their contract *)

Section laws.
Context `{PosixLaws}.

Lemma read_retry_ok fuel this n result w :
  (stalls w < fuel)%nat → 0 ≤ n →
  ∃ s l w', read_retry fuel this n result w = Ok (s, l, w') ∧
    (ok s = true → len l ≤ n ∧ file_ahead (seq_fd this) w = l ++ file_ahead (seq_fd this) w') ∧
    (healthy (seq_fd this) w →
      s = status_OK ∧ l = take (Z.to_nat n) (file_ahead (seq_fd this) w) ∧ healthy (seq_fd this) w').
Proof.
  intros Hf Hn. revert w Hf. induction fuel as [|fuel IH]; intros w Hf; [lia|].
  cbn [read_retry]. destruct (sys_read (seq_fd this) n w) as [[l|e] w1] eqn:E.
  - exists status_OK, l, w1. split; [done|]. split; [intros _; by eapply read_done|].
    intros Hh. destruct (read_healthy _ _ _ _ _ Hh Hn E) as (Hh' & _ & Hl). auto.
  - destruct (read_failed _ _ _ _ _ E) as [Ha Hs].
    destruct (e =? EINTR) eqn:He; split_bool.
    + destruct (IH w1) as (s & l & w2 & -> & Hok & Hh); [specialize (Hs He); lia|].
      exists s, l, w2. rewrite <- Ha. split; [done|]. split; [done|]. intros Hh1.
      destruct (read_healthy _ _ _ _ _ Hh1 Hn E) as (Hh' & _ & _). by apply Hh.
    + eexists _, _, _. split; [reflexivity|]. split.
      * unfold PosixError, NotFound, IOError, make_status. by destruct (e =? ENOENT).
      * intros Hh. destruct (read_healthy _ _ _ _ _ Hh Hn E) as (_ & Hb & _). by specialize (Hb e eq_refl).
Qed.

#[export] Instance posix_sequential_laws : SequentialFileLaws (PosixSequentialFile * kernel).
Proof.
  refine {| unread := λ f, file_ahead (seq_fd f.1) f.2; steady := λ f, healthy (seq_fd f.1) f.2 |}.
  - intros n result [this w] Hn. pose proof (stalls_bound w).
    destruct (read_retry_ok (S patience) this n result w) as (s & l & w' & E & Hok & _); [lia|done|].
    exists s, l, (this, w'). cbn [Read posix_sequential].
    unfold PosixSequentialFile_Read. cbn [fst snd]. by rewrite E.
  - intros n result [this w] Hn Hh. pose proof (stalls_bound w).
    destruct (read_retry_ok (S patience) this n result w) as (s & l & w' & E & Hok & Hall); [lia|done|].
    destruct (Hall Hh) as (-> & -> & Hh'). exists (this, w'). cbn [Read posix_sequential].
    unfold PosixSequentialFile_Read. cbn [fst snd]. rewrite E. split; [done|]. split; [|done].
    destruct (Hok eq_refl) as [_ Heq]. cbn in *.
    rewrite <- (take_drop (Z.to_nat n) (file_ahead (seq_fd this) w)) in Heq at 1.
    by apply app_inv_head in Heq.
  - intros n [this w] Hn. cbn [Skip posix_sequential]. unfold PosixSequentialFile_Skip. cbn [fst snd].
    replace (swrap 64 n) with n by (unfold swrap; rewrite Z.mod_small; lia).
    destruct (sys_lseek (seq_fd this) n w) as [[p|e] w'] eqn:E.
    + eexists _, _. split; [done|]. intros _. by eapply lseek_done; [lia|].
    + eexists _, _. split; [done|]. unfold PosixError, NotFound, IOError, make_status.
      by destruct (e =? ENOENT).
Defined.

(** What gets to the file is a prefix of the data, and all of it on success. *)
Lemma WriteUnbuffered_loop_ok fuel this data w :
  (length data * S patience + stalls w < fuel)%nat →
  ∃ s w' n, WriteUnbuffered_loop fuel this data w = Ok (s, w') ∧
    file_data (fd_ this) w' = file_data (fd_ this) w ++ take n data ∧
    (ok s = true → take n data = data) ∧
    (healthy (fd_ this) w → s = status_OK ∧ healthy (fd_ this) w').
Proof.
  revert data w. induction fuel as [|fuel IH]; intros data w Hf; [lia|].
  cbn [WriteUnbuffered_loop]. destruct (0 <? len data) eqn:E; split_bool.
  2: { destruct data; [|cbn [length] in E; lia]. exists status_OK, w, 0%nat. by rewrite take_0, app_nil_r. }
  destruct (sys_write (fd_ this) data w) as [[n|e] w1] eqn:Ew.
  - destruct (write_done _ _ _ _ _ Ew) as (Hn & Hd & Hs).
    destruct (IH (drop (Z.to_nat n) data) w1) as (s & w2 & m & -> & Hd2 & Hok & Hh).
    { rewrite length_drop. destruct (Z.eq_dec n 0) as [->|Hne].
      - assert (data ≠ []) by (intros ->; cbn in E; lia). specialize (Hs eq_refl ltac:(done)).
        change (Z.to_nat 0) with 0%nat. lia.
      - pose proof (stalls_bound w1). nia. }
    exists s, w2, (Z.to_nat n + m)%nat. rewrite <- take_take_drop.
    split; [done|]. split; [by rewrite Hd2, Hd, <- app_assoc|]. split.
    + intros Hs'. specialize (Hok Hs'). by rewrite Hok, take_drop.
    + intros Hh1. apply Hh. by destruct (write_healthy _ _ _ _ _ Hh1 Ew).
  - destruct (write_failed _ _ _ _ _ Ew) as [Hd Hs].
    destruct (e =? EINTR) eqn:He; split_bool.
    + destruct (IH data w1) as (s & w2 & m & -> & Hd2 & Hok & Hh); [specialize (Hs He); lia|].
      exists s, w2, m. rewrite Hd2, Hd. split_and!; try done. intros Hh1. apply Hh.
      by destruct (write_healthy _ _ _ _ _ Hh1 Ew).
    + eexists _, w1, 0%nat. split; [reflexivity|]. rewrite take_0, app_nil_r. split_and!; [done| |].
      * unfold PosixError, NotFound, IOError, make_status. by destruct (e =? ENOENT).
      * intros Hh. destruct (write_healthy _ _ _ _ _ Hh Ew) as [_ Hb]. by specialize (Hb e eq_refl).
Qed.

Lemma WriteUnbuffered_ok this data w :
  ∃ s w' n, WriteUnbuffered this data w = Ok (s, w') ∧
    file_data (fd_ this) w' = file_data (fd_ this) w ++ take n data ∧
    (ok s = true → take n data = data) ∧
    (healthy (fd_ this) w → s = status_OK ∧ healthy (fd_ this) w').
Proof. apply WriteUnbuffered_loop_ok. pose proof (stalls_bound w). lia. Qed.

Lemma FlushBuffer_ok this w :
  ∃ s w' n, FlushBuffer (this, w) = Ok (s, (set_buf this [], w')) ∧
    file_data (fd_ this) w' = file_data (fd_ this) w ++ take n (buf_ this) ∧
    (ok s = true → take n (buf_ this) = buf_ this) ∧
    (healthy (fd_ this) w → s = status_OK ∧ healthy (fd_ this) w').
Proof.
  destruct (WriteUnbuffered_ok this (buf_ this) w) as (s & w' & n & E & H1).
  exists s, w', n. unfold FlushBuffer. cbn [fst snd]. by rewrite E.
Qed.

(** The bytes appended, the buffer bound and whether the descriptor works. *)
Definition all_written (f : PosixWritableFile * kernel) : list Z :=
  file_data (fd_ f.1) f.2 ++ buf_ f.1.
Definition buffer_ok (f : PosixWritableFile * kernel) : Prop := len (buf_ f.1) ≤ kWritableFileBufferSize.

(** Appending returns whatever the system does; on success nothing is lost or reordered,
    and a failure leaves a prefix of it in the file. *)
Lemma PosixWritableFile_Append_ok data f :
  buffer_ok f →
  ∃ s f', PosixWritableFile_Append data f = Ok (s, f') ∧ buffer_ok f' ∧ fd_ f'.1 = fd_ f.1 ∧ is_manifest_ f'.1 = is_manifest_ f.1 ∧
    (ok s = true → all_written f' = all_written f ++ data) ∧
    file_data (fd_ f.1) f'.2 `prefix_of` all_written f ++ data ∧
    (healthy (fd_ f.1) f.2 → s = status_OK ∧ healthy (fd_ f.1) f'.2).
Proof.
  destruct f as [this w]. unfold buffer_ok. cbn [fst snd]. intros Hb.
  unfold PosixWritableFile_Append. cbn [fst snd].
  set (c := Z.min (len data) (kWritableFileBufferSize - len (buf_ this))).
  assert (0 ≤ c ≤ len data ∧ len (buf_ this) + c ≤ kWritableFileBufferSize) as Hc by (unfold c; lia).
  set (this1 := set_buf this (buf_ this ++ take (Z.to_nat c) data)).
  destruct (len data - c =? 0) eqn:E; split_bool.
  - exists status_OK, (this1, w). unfold all_written, this1. cbn [fst snd buf_ fd_ set_buf].
    rewrite length_app, length_take, take_ge by lia. split_and!; try done.
    + lia.
    + intros _. by rewrite app_assoc.
    + rewrite <- app_assoc. by apply prefix_app_r.
  - destruct (FlushBuffer_ok this1 w) as (s & w1 & n & -> & Hd & Hok & Hh).
    cbn [mbind outcome_bind fst snd]. change (fd_ this1) with (fd_ this) in *.
    assert (file_data (fd_ this) w ++ buf_ this1 = all_written (this, w) ++ take (Z.to_nat c) data) as Hall
      by apply app_assoc.
    assert (all_written (this, w) ++ data =
            (file_data (fd_ this) w ++ buf_ this1) ++ drop (Z.to_nat c) data) as Hsplit.
    { by rewrite Hall, <- app_assoc, take_drop. }
    destruct (ok s) eqn:Es; cbn [negb].
    + assert (Hd' : file_data (fd_ this) w1 = file_data (fd_ this) w ++ buf_ this1) by (by rewrite Hd, Hok).
      destruct (len data - c <? kWritableFileBufferSize) eqn:E2; split_bool.
      * eexists status_OK, _. split; [reflexivity|]. unfold all_written at 1. cbn [fst snd buf_ fd_ set_buf].
        change (fd_ this1) with (fd_ this). rewrite Hsplit, Hd', length_drop. split_and!; try done; [lia|by apply prefix_app_r|].
        intros Hh1. by destruct (Hh Hh1).
      * destruct (WriteUnbuffered_ok (set_buf this1 []) (drop (Z.to_nat c) data) w1)
          as (s2 & w2 & m & -> & Hd2 & Hok2 & Hh2).
        cbn [mbind outcome_bind fst snd]. eexists s2, _. split; [reflexivity|].
        unfold all_written at 1. cbn [fst snd buf_ fd_ set_buf] in *.
        change (fd_ this1) with (fd_ this) in *.
        rewrite Hsplit, app_nil_r, Hd2, Hd'. split_and!; try done.
        -- intros Hs2. by rewrite Hok2.
        -- apply prefix_app, prefix_take.
        -- intros Hh1. destruct (Hh Hh1) as [_ Hh3]. by apply Hh2.
    + eexists s, _. split; [reflexivity|]. cbn [fst snd buf_ fd_ set_buf]. rewrite Hsplit, Hd, Es.
      split_and!; try done. rewrite <- app_assoc. apply prefix_app, prefix_app_r, prefix_take.
Qed.

#[export] Instance posix_writable_laws : WritableFileLaws (PosixWritableFile * kernel).
Proof.
  refine {| written := all_written; stored := λ f, file_data (fd_ f.1) f.2;
            working := λ f, buffer_ok f ∧ is_manifest_ f.1 = false ∧ healthy (fd_ f.1) f.2 |}.
  - intros l f (Hb & Hm & Hh). destruct (PosixWritableFile_Append_ok l f Hb) as (s & f' & E & Hb' & Hfd & Hm' & Hok & _ & Hh').
    destruct (Hh' Hh) as [-> Hh2]. exists f'. split; [exact E|]. split; [by apply Hok|].
    split; [done|]. by rewrite Hfd, Hm'.
  - intros [this w] (Hb & Hm & Hh). destruct (FlushBuffer_ok this w) as (s & w' & n & E & Hd & Hok & Hh').
    destruct (Hh' Hh) as [-> Hh2]. exists (set_buf this [], w'). split; [exact E|].
    unfold all_written, buffer_ok. cbn [fst snd buf_ fd_ set_buf]. rewrite app_nil_r, Hd, Hok by done.
    split_and!; try done.
  - intros [this w] (Hb & Hm & Hh). cbn [Sync posix_writable]. unfold PosixWritableFile_Sync, SyncDirIfManifest.
    cbn [fst snd] in *. rewrite Hm. cbn [negb fst snd ok status_OK].
    destruct (FlushBuffer_ok this w) as (s & w' & n & -> & Hd & Hok & Hh'). destruct (Hh' Hh) as [-> Hh2].
    cbn [mbind outcome_bind fst snd negb ok status_OK set_buf fd_ filename_]. unfold SyncFd.
    destruct (sys_fdatasync (fd_ this) w') as [r w2] eqn:Es. destruct (fdatasync_keeps _ _ _ _ Es) as [Hd2 Hh3].
    exists (match r with Done _ => status_OK | Failed errno => PosixError (filename_ this) errno end), (set_buf this [], w2).
    unfold all_written, buffer_ok. cbn [fst snd buf_ fd_ set_buf is_manifest_].
    rewrite app_nil_r, Hd2, Hd, Hok by done. split; [by destruct r|]. split_and!; try done. by apply Hh3.
Defined.

End laws.

(** ** A machine

    One file; every other call is interrupted, and a write takes at most three bytes. *)

Record one_file : Type := { on_disk : list Z; position : nat; interrupted : bool }.

#[export] Instance one_file_posix : Posix := {|
  kernel := one_file;
  sys_open _ k := (Failed ENOENT, k);
  sys_close _ k := (Done tt, k);
  sys_read _ n k :=
    if interrupted k
    then (Failed EINTR, {| on_disk := on_disk k; position := position k; interrupted := false |})
    else (Done (take (Z.to_nat n) (drop (position k) (on_disk k))),
          {| on_disk := on_disk k; position := position k + Z.to_nat n; interrupted := true |});
  sys_write _ data k :=
    if interrupted k
    then (Failed EINTR, {| on_disk := on_disk k; position := position k; interrupted := false |})
    else (Done (Z.min 3 (len data)),
          {| on_disk := on_disk k ++ take 3 data; position := position k; interrupted := true |});
  sys_lseek _ n k :=
    (Done 0, {| on_disk := on_disk k; position := position k + Z.to_nat n; interrupted := interrupted k |});
  sys_fdatasync _ k := (Done tt, k);
  strerror _ := text "error";
  patience := 1
|}.

#[export] Instance one_file_laws : @PosixLaws one_file_posix.
Proof.
  refine {| stalls := λ k, if interrupted k then 1%nat else 0%nat; file_data := λ _ k, on_disk k;
            file_ahead := λ _ k, drop (position k) (on_disk k); healthy := λ _ _, True |}; cbn.
  - intros w. destruct (interrupted w); lia.
  - intros _ data w n w'. destruct (interrupted w); [done|]. intros [= <- <-]. cbn.
    split; [lia|]. split.
    + f_equal. destruct (Z.le_ge_cases 3 (len data)); [by rewrite Z.min_l by lia|].
      rewrite Z.min_r, Nat2Z.id, firstn_all, take_ge by lia. done.
    + intros Hn Hd. destruct data; [done|]. cbn [length] in Hn. lia.
  - intros _ data w e w'. destruct (interrupted w); [|done]. intros [= <- <-]. cbn. split; [done|lia].
  - intros _ data w r w' _. destruct (interrupted w); intros [= <- <-]; split; try done.
    by intros e [= <-].
  - intros _ n w l w' Hn. destruct (interrupted w); [done|]. intros [= <- <-]. cbn.
    rewrite length_take, <- drop_drop, take_drop. split; [lia|done].
  - intros _ n w e w'. destruct (interrupted w); [|done]. intros [= <- <-]. cbn. split; [done|lia].
  - intros _ n w r w' _ Hn. destruct (interrupted w); intros [= <- <-]; split_and!; try done.
    + by intros e [= <-].
    + by intros l [= <-].
  - by intros _ w r w' [= <- <-].
  - intros _ n w p w' Hn [= <- <-]. cbn. by rewrite drop_drop.
Defined.

(** ** Properties *)

(** Append everything, up to the first failure, and flush. *)
Fixpoint append_all `{WritableFile F} (l : list Slice) (f : F) : outcome (Status * F) :=
  match l with
  | [] => Flush f
  | data :: l => r ← Append data f; if ok r.1 then append_all l r.2 else Ok r
  end.

(** Appending to a POSIX file and flushing it always returns, however the writes are
    cut up, interrupted or refused. On success the file holds exactly what was appended,
    in order, after what it held; on failure it holds a prefix of that; and it can only
    fail when a call of the system fails. *)
Theorem PosixWritableFile_appends `{PosixLaws} l (f : PosixWritableFile * kernel) :
  buffer_ok f →
  ∃ s f', append_all l f = Ok (s, f') ∧ buffer_ok f' ∧
    (ok s = true → file_data (fd_ f.1) f'.2 = all_written f ++ concat l) ∧
    file_data (fd_ f.1) f'.2 `prefix_of` all_written f ++ concat l ∧
    (healthy (fd_ f.1) f.2 → s = status_OK).
Proof.
  revert f. induction l as [|data l IH]; intros f Hb; cbn [append_all concat].
  - destruct f as [this w]. cbn [Flush posix_writable].
    destruct (FlushBuffer_ok this w) as (s & w' & n & -> & Hd & Hok & Hh).
    eexists s, _. split; [reflexivity|]. rewrite app_nil_r. unfold all_written, buffer_ok in *.
    cbn [fst snd buf_ fd_ set_buf] in *. rewrite Hd. split_and!; [done| |apply prefix_app, prefix_take|].
    + intros Hs. by rewrite Hok.
    + intros Hh1. by destruct (Hh Hh1).
  - cbn [Append posix_writable].
    destruct (PosixWritableFile_Append_ok data f Hb) as (s & f1 & -> & Hb1 & Hfd & _ & Hok & Hp & Hh).
    cbn [mbind outcome_bind fst snd]. destruct (ok s) eqn:Es.
    + destruct (IH f1 Hb1) as (s2 & f2 & -> & Hb2 & Hok2 & Hp2 & Hh2).
      exists s2, f2. rewrite app_assoc, <- (Hok eq_refl), <- Hfd in *. split_and!; try done.
      intros Hh1. apply Hh2. by destruct (Hh Hh1).
    + exists s, f1. split_and!; try done.
      * by rewrite Es.
      * rewrite app_assoc. by apply prefix_app_r.
      * intros Hh1. by destruct (Hh Hh1).
Qed.

Definition sample_file : PosixWritableFile * kernel :=
  (new_PosixWritableFile (text "dir/000003.log") 5,
   {| on_disk := [9]; position := 0; interrupted := true |}).

Lemma PosixWritableFile_appends_witness :
  ∃ s f', append_all [[1; 2]; []; [3; 4; 5]] sample_file = Ok (s, f') ∧ on_disk f'.2 = [9; 1; 2; 3; 4; 5].
Proof.
  destruct (PosixWritableFile_appends [[1; 2]; []; [3; 4; 5]] sample_file)
    as (s & f' & E & _ & Hok & _ & Hh).
  - unfold buffer_ok, kWritableFileBufferSize. cbn. lia.
  - exists s, f'. split; [exact E|]. rewrite (Hh I) in Hok. exact (Hok eq_refl).
Defined.
