(* ===== verification/LdbRandom.v ===== *)
(** * LevelDB, util/env_posix: files that are read at any place

    The interface of random access files (include/leveldb/env.h) with what its comments
    promise, and its two implementations in util/env_posix.cc: reading with [pread], through
    a descriptor that is kept or opened for each read, and reading a memory map. *)

From S2P Require Import Prelude LdbCoding LdbEnv.

(** [Read] is a [const] method and the file is immutable; with the slice comes whether it
    points into the buffer of the caller. *)
Class RandomAccessFile (F : Type) : Type := {
  Read_at : Z → Z → F → outcome (Status * (Slice * bool))
}.

(** The bytes of a file from an offset. *)
Definition part (off n : Z) (data : list Z) : list Z := take (Z.to_nat n) (drop (Z.to_nat off) data).

(** A read hands out at most the bytes asked for; from a file that is [readable] with some
    bytes, it hands out those, when the file has them all. *)
Class RandomAccessFileLaws (F : Type) `{RandomAccessFile F} : Type := {
  opened : F → Prop;
  readable : F → list Z → Prop;
  Read_at_some off n f : opened f → 0 ≤ off < 2 ^ 63 → 0 ≤ n < 2 ^ 63 →
    ∃ s l b, Read_at off n f = Ok (s, (l, b)) ∧ len l ≤ n;
  readable_opened f data : readable f data → opened f;
  Read_at_readable off n f data : readable f data → len data < 2 ^ 63 → 0 ≤ off → 0 ≤ n → off + n ≤ len data →
    ∃ b, Read_at off n f = Ok (status_OK, (part off n data, b))
}.

(** ** Calls of the system *)

Class PosixReads `{Posix} : Type := {
  sys_pread : Z → Z → Z → kernel → sysresult (list Z) * kernel   (* descriptor, count, offset *)
}.

(** The documented behaviour: a descriptor that [holds] some bytes is one of a regular file
    with them, on a device that can be read; a name is [openable] when it can be opened to
    such a descriptor. *)
Class PosixReadsLaws `{PosixReads} : Type := {
  holds : Z → kernel → list Z → Prop;
  openable : list Z → kernel → list Z → Prop;
  pread_bound fd n off w l w' : 0 ≤ n → sys_pread fd n off w = (Done l, w') → len l ≤ n;
  pread_holds fd n off w data : holds fd w data → 0 ≤ n → 0 ≤ off →
    ∃ w', sys_pread fd n off w = (Done (part off n data), w');
  open_done name w fd w' : sys_open name w = (Done fd, w') → 0 ≤ fd;
  open_openable name w data : openable name w data →
    ∃ fd w', sys_open name w = (Done fd, w') ∧ holds fd w' data
}.

(** ** [PosixRandomAccessFile] *)

Section pread.
Context `{PosixReads}.

Record PosixRandomAccessFile : Type := {
  has_permanent_fd_ : bool; ra_fd_ : Z; ra_filename_ : list Z
}.

(** The descriptor is closed when the limiter does not grant one. *)
Definition new_PosixRandomAccessFile (filename : list Z) (fd : Z) (acquired : bool) (w : kernel) :
    PosixRandomAccessFile * kernel :=
  ({| has_permanent_fd_ := acquired; ra_fd_ := if acquired then fd else -1; ra_filename_ := filename |},
   if acquired then w else (sys_close fd w).2).

Definition PosixRandomAccessFile_Read (offset n : Z) (this : PosixRandomAccessFile) (w : kernel) :
    outcome (Status * Slice * kernel) :=
  let opened := if has_permanent_fd_ this then (Done (ra_fd_ this), w) else sys_open (ra_filename_ this) w in
  match opened with
  | (Failed errno, w) => Ok (PosixError (ra_filename_ this) errno, [], w)
  | (Done fd, w) =>
      _ ← require (negb (fd =? -1)) OutOfBounds;
      let '(status, result, w) :=
        match sys_pread fd n (swrap 64 offset) w with
        | (Failed errno, w) => (PosixError (ra_filename_ this) errno, [], w)
        | (Done l, w) => (status_OK, l, w)
        end in
      if has_permanent_fd_ this then Ok (status, result, w)
      else
        _ ← require (negb (fd =? ra_fd_ this)) OutOfBounds;
        Ok (status, result, (sys_close fd w).2)
  end.

(** The state of the machine that a read leaves is not looked at by later reads. *)
#[export] Instance posix_random : RandomAccessFile (PosixRandomAccessFile * kernel) := {|
  Read_at offset n f := r ← PosixRandomAccessFile_Read offset n f.1 f.2; Ok (r.1.1, (r.1.2, true))
|}.

End pread.

(** ** [PosixMmapReadableFile] *)

Section mmap.
Context `{Posix}.

(** The mapped bytes, of which there are [mm_length_]. *)
Record PosixMmapReadableFile : Type := { mmap_base_ : list Z; mm_length_ : Z; mm_filename_ : list Z }.

(** [offset + n] is computed in 64 bits. *)
Definition PosixMmapReadableFile_Read (offset n : Z) (this : PosixMmapReadableFile) :
    outcome (Status * (Slice * bool)) :=
  if mm_length_ this <? u64 (offset + n) then Ok (PosixError (mm_filename_ this) EINVAL, ([], false))
  else l ← read_at (mmap_base_ this) offset n; Ok (status_OK, (l, false)).

#[export] Instance posix_mmap : RandomAccessFile PosixMmapReadableFile := {| Read_at := PosixMmapReadableFile_Read |}.

End mmap.

(** ** Both keep the contract *)

Lemma read_at_part data off n : 0 ≤ off → 0 ≤ n → off + n ≤ len data → read_at data off n = Ok (part off n data).
Proof. intros H0 H1 Hl. unfold read_at. repeat decide_test. done. Qed.

Lemma length_part data off n : 0 ≤ off → 0 ≤ n → off + n ≤ len data → len (part off n data) = n.
Proof. intros H0 H1 Hl. unfold part. rewrite length_take, length_drop. lia. Qed.

Section laws.
Context `{PosixReadsLaws}.

(** A file with a descriptor of its own, or a name to open. *)
Definition random_opened (f : PosixRandomAccessFile * kernel) : Prop :=
  if has_permanent_fd_ f.1 then 0 ≤ ra_fd_ f.1 else ra_fd_ f.1 = -1.

Definition random_readable (f : PosixRandomAccessFile * kernel) (data : list Z) : Prop :=
  random_opened f ∧
  if has_permanent_fd_ f.1 then holds (ra_fd_ f.1) f.2 data else openable (ra_filename_ f.1) f.2 data.

#[export] Instance posix_random_laws : RandomAccessFileLaws (PosixRandomAccessFile * kernel).
Proof.
  refine {| opened := random_opened; readable := random_readable |}.
  - intros off n [this w] Ho Hoff Hn. unfold random_opened in Ho. cbn [fst] in Ho.
    cbn [Read_at posix_random fst snd]. unfold PosixRandomAccessFile_Read.
    replace (swrap 64 off) with off by (unfold swrap; rewrite Z.mod_small; lia).
    destruct (has_permanent_fd_ this) eqn:Ep.
    + cbv zeta. decide_test. cbn [negb require mbind outcome_bind fst snd]. destruct (sys_pread _ n off w) as [[l|e] w'] eqn:E; eexists _, _, _;
        (split; [reflexivity|]); [eapply pread_bound; [|exact E]; lia|cbn; lia].
    + destruct (sys_open _ w) as [[fd|e] w'] eqn:Eo; cbn [mbind outcome_bind fst snd];
        [|eexists _, _, _; split; [reflexivity|cbn; lia]].
      apply open_done in Eo. rewrite Ho. cbv zeta. decide_test. cbn [negb require mbind outcome_bind fst snd].
      destruct (sys_pread fd n off w') as [[l|e] w''] eqn:E; cbn [negb require mbind outcome_bind fst snd]; eexists _, _, _;
        (split; [reflexivity|]); [eapply pread_bound; [|exact E]; lia|cbn; lia].
  - by intros f data [? _].
  - intros off n [this w] data [Ho Hr] Hl Hoff Hn Hlen. unfold random_opened in Ho. cbn [fst snd] in *.
    cbn [Read_at posix_random fst snd]. unfold PosixRandomAccessFile_Read. exists true.
    replace (swrap 64 off) with off by (unfold swrap; rewrite Z.mod_small; lia).
    destruct (has_permanent_fd_ this).
    + cbv zeta. decide_test. cbn [negb require mbind outcome_bind fst snd]. by destruct (pread_holds _ n off w data Hr Hn Hoff) as (w' & ->).
    + destruct (open_openable _ _ _ Hr) as (fd & w' & Eo & Hh). rewrite Eo. apply open_done in Eo.
      rewrite Ho. cbv zeta. decide_test. cbn [negb require mbind outcome_bind fst snd]. destruct (pread_holds _ n off w' data Hh Hn Hoff) as (w'' & ->); done.
Defined.

End laws.

Section mmap_laws.
Context `{Posix}.

#[export] Instance posix_mmap_laws : RandomAccessFileLaws PosixMmapReadableFile.
Proof.
  refine {| opened := λ f, mm_length_ f = len (mmap_base_ f);
            readable := λ f data, mmap_base_ f = data ∧ mm_length_ f = len data |}; cbn [Read_at posix_mmap].
  - intros off n f Ho Hoff Hn. unfold PosixMmapReadableFile_Read. rewrite wrap_small by (unfold in_width; lia).
    destruct (mm_length_ f <? off + n) eqn:E; split_bool.
    + eexists _, _, _. split; [reflexivity|]. cbn. lia.
    + rewrite read_at_part by lia. eexists _, _, _. split; [reflexivity|]. rewrite length_part by lia. lia.
  - intros f data [-> ->]. done.
  - intros off n f data [<- Hm] Hl Hoff Hn Hlen. unfold PosixMmapReadableFile_Read. rewrite Hm.
    rewrite wrap_small by (unfold in_width; lia). decide_test. rewrite read_at_part by done. by eexists.
Defined.

(** An offset from which the sum wraps around is taken for one in the map. *)
Lemma PosixMmapReadableFile_wraps f offset n :
  mm_length_ f = len (mmap_base_ f) → in_width 64 offset → in_width 64 n → 2 ^ 64 ≤ offset + n → 0 < n →
  offset + n - 2 ^ 64 ≤ mm_length_ f → len (mmap_base_ f) < 2 ^ 63 →
  PosixMmapReadableFile_Read offset n f = Fault OutOfBounds.
Proof.
  unfold in_width. intros Hm Hoff Hn Hsum Hpos Hle Hl. unfold PosixMmapReadableFile_Read, wrap.
  replace ((offset + n) mod 2 ^ 64) with (offset + n - 2 ^ 64); [|].
  - decide_test. by rewrite read_at_past by lia.
  - rewrite <- (Z.mod_small (offset + n - 2 ^ 64) (2 ^ 64)) by lia.
    rewrite <- (Z_mod_plus_full (offset + n - 2 ^ 64) 1 (2 ^ 64)). f_equal. lia.
Qed.

End mmap_laws.
