(* ===== verification/LdbTableFormat.v ===== *)
(** * LevelDB, table/format: the format of table files

    Handles and the footer of a table file and the reading of a block (table/format.h,
    table/format.cc), over the files of LdbRandom.v, with the calls to the compression
    library (port/port_stdcxx.h) as a parameter.  A handle and a footer are read back as
    they were written; a block is read back as it was stored, and with checksums verified
    no burst of errors in it goes unnoticed. *)

From S2P Require Import Prelude LdbCoding LdbCrc LdbEnv LdbRandom.

(** ** The compression library

    [port::Snappy_Compress] and its siblings: [None] when they return false. *)
Class Snappy : Type := {
  Snappy_Compress : list Z → option (list Z);
  Snappy_GetUncompressedLength : list Z → option Z;
  Snappy_Uncompress : list Z → option (list Z)
}.

(** What is compressed is uncompressed; the format has lengths of 32 bits. *)
Class SnappyLaws `{Snappy} : Type := {
  Snappy_bytes raw out : Snappy_Compress raw = Some out → bytes raw → bytes out;
  Snappy_roundtrip raw out : Snappy_Compress raw = Some out → len raw < 2 ^ 32 →
    Snappy_GetUncompressedLength out = Some (len raw) ∧ Snappy_Uncompress out = Some raw
}.

(** A build without the library: nothing is compressed. *)
#[export] Instance without_snappy : Snappy := {|
  Snappy_Compress _ := None;
  Snappy_GetUncompressedLength _ := None;
  Snappy_Uncompress _ := None
|}.

#[export] Instance without_snappy_laws : @SnappyLaws without_snappy.
Proof. by split. Defined.

(** [CompressionType]; it is stored as a byte. *)
Definition kNoCompression : Z := 0.
Definition kSnappyCompression : Z := 1.

(** ** Handles *)

Record BlockHandle : Type := { bh_offset : Z; bh_size : Z }.

#[export] Instance BlockHandle_eq_dec : EqDecision BlockHandle.
Proof. solve_decision. Defined.

Definition kMaxEncodedLength : Z := 10 + 10.

(** [~static_cast<uint64_t>(0)] *)
Definition unset : Z := u64 (Z.lnot 0).
Definition new_BlockHandle : BlockHandle := {| bh_offset := unset; bh_size := unset |}.

Definition BlockHandle_EncodeTo (this : BlockHandle) (dst : list Z) : outcome (list Z) :=
  _ ← require (negb (bh_offset this =? unset)) OutOfBounds;
  _ ← require (negb (bh_size this =? unset)) OutOfBounds;
  Ok (PutVarint64 (PutVarint64 dst (bh_offset this)) (bh_size this)).

(** The status, the handle and what is left of the input; both numbers are read in turn. *)
Definition BlockHandle_DecodeFrom (this : BlockHandle) (input : Slice) : Status * BlockHandle * Slice :=
  let bad := Corruption (text "bad block handle") [] in
  match GetVarint64 input with
  | None => (bad, this, input)
  | Some (offset, input) =>
      let this := {| bh_offset := offset; bh_size := bh_size this |} in
      match GetVarint64 input with
      | None => (bad, this, input)
      | Some (size, input) => (status_OK, {| bh_offset := offset; bh_size := size |}, input)
      end
  end.

(** ** The footer *)

Record Footer : Type := { metaindex_handle_ : BlockHandle; index_handle_ : BlockHandle }.

Definition new_Footer : Footer := {| metaindex_handle_ := new_BlockHandle; index_handle_ := new_BlockHandle |}.

Definition kEncodedLength : Z := 2 * kMaxEncodedLength + 8.
Definition kTableMagicNumber : Z := 0xdb4775248b80fb57.
Definition kBlockTrailerSize : Z := 5.

(** The padding is to a fixed length of the whole string. *)
Definition Footer_EncodeTo (this : Footer) (dst : list Z) : outcome (list Z) :=
  let original_size := len dst in
  dst ← BlockHandle_EncodeTo (metaindex_handle_ this) dst;
  dst ← BlockHandle_EncodeTo (index_handle_ this) dst;
  let dst := resize (Z.to_nat (2 * kMaxEncodedLength)) 0 dst in
  let dst := PutFixed32 dst (u32 (Z.land kTableMagicNumber 0xffffffff)) in
  let dst := PutFixed32 dst (u32 (Z.shiftr kTableMagicNumber 32)) in
  _ ← require (len dst =? original_size + kEncodedLength) OutOfBounds;
  Ok dst.

(** The magic number is read where it is in a whole footer. *)
Definition Footer_DecodeFrom (this : Footer) (input : Slice) : outcome (Status * Footer * Slice) :=
  let magic_ptr := kEncodedLength - 8 in
  magic_lo ← (l ← read_at input magic_ptr 4; DecodeFixed32 l);
  magic_hi ← (l ← read_at input (magic_ptr + 4) 4; DecodeFixed32 l);
  let magic := Z.lor (u64 (Z.shiftl magic_hi 32)) magic_lo in
  if negb (magic =? kTableMagicNumber)
  then Ok (Corruption (text "not an sstable (bad magic number)") [], this, input)
  else
    let '(result, metaindex, rest) := BlockHandle_DecodeFrom (metaindex_handle_ this) input in
    if negb (ok result)
    then Ok (result, {| metaindex_handle_ := metaindex; index_handle_ := index_handle_ this |}, rest)
    else
      let '(result, index, rest) := BlockHandle_DecodeFrom (index_handle_ this) rest in
      let this := {| metaindex_handle_ := metaindex; index_handle_ := index |} in
      if negb (ok result) then Ok (result, this, rest)
      else Ok (result, this, drop (Z.to_nat (magic_ptr + 8)) input).

(** ** Reading a block *)

Record BlockContents : Type := { bc_data : Slice; bc_cachable : bool; bc_heap_allocated : bool }.

(** The members of [ReadOptions] that are used below the database. *)
Record ReadOptions : Type := { verify_checksums : bool; fill_cache : bool }.
Definition new_ReadOptions : ReadOptions := {| verify_checksums := false; fill_cache := true |}.

Section read_block.
Context `{Memory} `{Snappy} {F : Type} `{RandomAccessFile F}.

Definition no_contents : BlockContents := {| bc_data := []; bc_cachable := false; bc_heap_allocated := false |}.

(** [n + kBlockTrailerSize] is computed in 64 bits. *)
Definition ReadBlock (file : F) (options : ReadOptions) (handle : BlockHandle) :
    outcome (Status * BlockContents) :=
  let n := bh_size handle in
  r ← Read_at (bh_offset handle) (u64 (n + kBlockTrailerSize)) file;
  let '(s, (contents, in_scratch)) := r in
  if negb (ok s) then Ok (s, no_contents)
  else if negb (len contents =? u64 (n + kBlockTrailerSize))
  then Ok (Corruption (text "truncated block read") [], no_contents)
  else
    intact ← (if verify_checksums options then
                stored ← (l ← read_at contents (n + 1) 4; DecodeFixed32 l);
                let crc := Unmask stored in
                data ← read_at contents 0 (n + 1);
                actual ← Value (address data) data;
                Ok (actual =? crc)
              else Ok true);
    if negb (intact : bool) then Ok (Corruption (text "block checksum mismatch") [], no_contents)
    else
      type ← byte_at contents n;
      data ← read_at contents 0 n;
      if swrap 8 type =? kNoCompression then
        Ok (status_OK, {| bc_data := data; bc_cachable := in_scratch; bc_heap_allocated := in_scratch |})
      else if swrap 8 type =? kSnappyCompression then
        let corrupted := Corruption (text "corrupted compressed block contents") [] in
        match Snappy_GetUncompressedLength data with
        | None => Ok (corrupted, no_contents)
        | Some ulength =>
            match Snappy_Uncompress data with
            | None => Ok (corrupted, no_contents)
            | Some ubuf =>
                _ ← require (len ubuf =? ulength) OutOfBounds;
                Ok (status_OK, {| bc_data := ubuf; bc_cachable := true; bc_heap_allocated := true |})
            end
        end
      else Ok (Corruption (text "bad block type") [], no_contents).

End read_block.

(** ** Handles and footers as bytes *)

(** A handle with both fields set. *)
Definition handle_ok (h : BlockHandle) : Prop := 0 ≤ bh_offset h < 2 ^ 64 - 1 ∧ 0 ≤ bh_size h < 2 ^ 64 - 1.

Definition encode_handle (h : BlockHandle) : list Z := EncodeVarint64 (bh_offset h) ++ EncodeVarint64 (bh_size h).

Lemma EncodeVarint64_length v : (length (EncodeVarint64 v) ≤ 10)%nat.
Proof.
  unfold EncodeVarint64. generalize 10%nat as n. intros n. revert v.
  induction n as [|n IH]; intros v; cbn [EncodeVarint64_loop]; [done|]. destruct (B <=? v); cbn [length]; [|lia].
  specialize (IH (Z.shiftr v 7)). lia.
Qed.

Lemma encode_handle_length h : (length (encode_handle h) ≤ 20)%nat.
Proof. unfold encode_handle. rewrite length_app. pose proof (EncodeVarint64_length). pose proof (H (bh_offset h)). specialize (H (bh_size h)). lia. Qed.

Lemma encode_handle_bytes h : handle_ok h → bytes (encode_handle h).
Proof. intros [Ho Hs]. apply Forall_app_2; apply EncodeVarint64_bytes; lia. Qed.

Lemma BlockHandle_EncodeTo_ok h dst : handle_ok h → BlockHandle_EncodeTo h dst = Ok (dst ++ encode_handle h).
Proof.
  intros [Ho Hs]. unfold BlockHandle_EncodeTo. change unset with (2 ^ 64 - 1). repeat decide_test.
  cbn [negb require mbind outcome_bind]. unfold PutVarint64, encode_handle. by rewrite app_assoc.
Qed.

Lemma BlockHandle_DecodeFrom_ok h0 h rest :
  handle_ok h → BlockHandle_DecodeFrom h0 (encode_handle h ++ rest) = (status_OK, h, rest).
Proof.
  intros [Ho Hs]. unfold BlockHandle_DecodeFrom, encode_handle. rewrite <- app_assoc.
  rewrite !GetVarint64_ok by (unfold in_width; lia). by destruct h.
Qed.

Lemma BlockHandle_DecodeFrom_whole h0 h :
  handle_ok h → BlockHandle_DecodeFrom h0 (encode_handle h) = (status_OK, h, []).
Proof. intros Hh. rewrite <- (app_nil_r (encode_handle h)). by apply BlockHandle_DecodeFrom_ok. Qed.

(** Handles are told apart by their encodings. *)
Lemma encode_handle_inj h1 h2 : handle_ok h1 → handle_ok h2 → encode_handle h1 = encode_handle h2 → h1 = h2.
Proof.
  intros H1 H2 E. pose proof (BlockHandle_DecodeFrom_ok new_BlockHandle h1 [] H1) as D.
  rewrite E, BlockHandle_DecodeFrom_ok in D by done. congruence.
Qed.

Definition footer_ok (f : Footer) : Prop := handle_ok (metaindex_handle_ f) ∧ handle_ok (index_handle_ f).

Definition encode_footer (f : Footer) : list Z :=
  resize 40 0 (encode_handle (metaindex_handle_ f) ++ encode_handle (index_handle_ f)) ++ EncodeFixed64 kTableMagicNumber.

Lemma magic_bytes : EncodeFixed32 (u32 (Z.land kTableMagicNumber 0xffffffff)) ++
  EncodeFixed32 (u32 (Z.shiftr kTableMagicNumber 32)) = EncodeFixed64 kTableMagicNumber.
Proof. reflexivity. Qed.

Lemma encode_footer_length f : len (encode_footer f) = kEncodedLength.
Proof. unfold encode_footer. rewrite length_app, length_resize. unfold EncodeFixed64. by rewrite length_le_bytes. Qed.

Lemma encode_footer_bytes f : footer_ok f → bytes (encode_footer f).
Proof.
  intros [Hm Hi]. apply Forall_app_2; [|by apply le_bytes_bytes]. apply Forall_resize; [done|].
  by apply Forall_app_2; apply encode_handle_bytes.
Qed.

Lemma Footer_EncodeTo_ok f : footer_ok f → Footer_EncodeTo f [] = Ok (encode_footer f).
Proof.
  intros [Hm Hi]. unfold Footer_EncodeTo. rewrite BlockHandle_EncodeTo_ok by done. cbn [mbind outcome_bind app].
  rewrite BlockHandle_EncodeTo_ok by done. cbn [mbind outcome_bind]. unfold PutFixed32. rewrite <- app_assoc, magic_bytes.
  change (Z.to_nat (2 * kMaxEncodedLength)) with 40%nat. fold (encode_footer f). rewrite encode_footer_length.
  by rewrite Z.eqb_refl.
Qed.

Lemma Footer_DecodeFrom_ok f0 f : footer_ok f → Footer_DecodeFrom f0 (encode_footer f) = Ok (status_OK, f, []).
Proof.
  intros [Hm Hi]. unfold Footer_DecodeFrom. pose proof (encode_footer_length f) as Hl.
  set (handles := encode_handle (metaindex_handle_ f) ++ encode_handle (index_handle_ f)) in *.
  assert (length handles ≤ 40)%nat as Hh.
  { unfold handles. rewrite length_app. pose proof (encode_handle_length (metaindex_handle_ f)).
    pose proof (encode_handle_length (index_handle_ f)). lia. }
  assert (encode_footer f = handles ++ replicate (40 - length handles) 0 ++ EncodeFixed64 kTableMagicNumber) as He.
  { unfold encode_footer. fold handles. rewrite resize_ge by done. by rewrite <- app_assoc. }
  assert (read_at (encode_footer f) (kEncodedLength - 8) 4 = Ok (EncodeFixed32 (Z.land kTableMagicNumber 0xffffffff)) ∧
    read_at (encode_footer f) (kEncodedLength - 8 + 4) 4 = Ok (EncodeFixed32 (Z.shiftr kTableMagicNumber 32))) as [-> ->].
  { unfold encode_footer. fold handles. rewrite <- magic_bytes. split.
    - apply read_at_app; [by rewrite length_resize|done].
    - rewrite app_assoc. rewrite <- (app_nil_r (EncodeFixed32 (u32 (Z.shiftr _ _)))). apply read_at_app; [|done].
      by rewrite length_app, length_resize. }
  cbn [mbind outcome_bind].
  change (DecodeFixed32 (EncodeFixed32 (Z.land kTableMagicNumber 0xffffffff))) with (Ok (Z.land kTableMagicNumber 0xffffffff)).
  change (DecodeFixed32 (EncodeFixed32 (Z.shiftr kTableMagicNumber 32))) with (Ok (Z.shiftr kTableMagicNumber 32)).
  cbn [mbind outcome_bind].
  change (Z.lor (u64 (Z.shiftl (Z.shiftr kTableMagicNumber 32) 32)) (Z.land kTableMagicNumber 0xffffffff)) with kTableMagicNumber.
  rewrite Z.eqb_refl. cbn [negb]. rewrite He at 1. unfold handles. rewrite <- app_assoc, BlockHandle_DecodeFrom_ok by done.
  cbn [ok negb]. rewrite BlockHandle_DecodeFrom_ok by done. cbn [ok negb].
  change (Z.to_nat (kEncodedLength - 8 + 8)) with 48%nat. rewrite drop_ge by (unfold kEncodedLength, kMaxEncodedLength in Hl; lia).
  by destruct f.
Qed.

(** The length of the input is not looked at. *)
Lemma Footer_DecodeFrom_short f0 input : len input < kEncodedLength → Footer_DecodeFrom f0 input = Fault OutOfBounds.
Proof.
  intros Hl. unfold Footer_DecodeFrom. destruct (read_at input (kEncodedLength - 8) 4) as [l| |] eqn:E.
  - pose proof (read_at_length _ _ _ _ E) as Hl4.
    cbn [mbind outcome_bind]. assert (DecodeFixed32 l = Ok (le_value l)) as ->.
    { unfold DecodeFixed32. rewrite <- (app_nil_r l) at 1. by rewrite read_at_head. }
    cbn [mbind outcome_bind]. rewrite read_at_past; [done|]. unfold kEncodedLength, kMaxEncodedLength in *. lia.
  - revert E. unfold read_at. destruct (_ && _); [done|]. by intros [= <-].
  - revert E. unfold read_at. by destruct (_ && _).
Qed.

(** The padding counts from the start of the string, not from where the footer begins. *)
Lemma Footer_EncodeTo_appends_not f dst : footer_ok f → dst ≠ [] → Footer_EncodeTo f dst = Fault OutOfBounds.
Proof.
  intros [Hm Hi] Hne. unfold Footer_EncodeTo. rewrite BlockHandle_EncodeTo_ok by done. cbn [mbind outcome_bind].
  rewrite BlockHandle_EncodeTo_ok by done. cbn [mbind outcome_bind]. unfold PutFixed32.
  rewrite !length_app, length_resize. unfold EncodeFixed32. rewrite !length_le_bytes.
  change (Z.to_nat (2 * kMaxEncodedLength)) with 40%nat. unfold kEncodedLength, kMaxEncodedLength.
  destruct dst; [done|]. cbn [length]. by decide_test.
Qed.

(** ** Stored blocks *)

(** Some bytes are in a file from an offset on. *)
Definition image_has (image : list Z) (off : Z) (l : list Z) : Prop :=
  ∃ pre post, image = pre ++ l ++ post ∧ len pre = off.

Lemma image_has_app image off l more : image_has image off l → image_has (image ++ more) off l.
Proof. intros (pre & post & -> & Hp). exists pre, (post ++ more). by rewrite <- !app_assoc. Qed.

Lemma image_has_end image l : image_has (image ++ l) (len image) l.
Proof. exists image, []. by rewrite app_nil_r. Qed.

Lemma image_has_part image off l :
  image_has image off l → 0 ≤ off ∧ off + len l ≤ len image ∧ part off (len l) image = l.
Proof.
  intros (pre & post & -> & <-). rewrite !length_app. split; [lia|]. split; [lia|].
  unfold part. by rewrite !Nat2Z.id, drop_app_length, take_app_length.
Qed.

(** The type of a block and the checksum. *)
Definition block_trailer (type : Z) (raw : list Z) : list Z := type :: EncodeFixed32 (Mask (crc32c 0 (raw ++ [type]))).

(** What the bytes of a block, with its type, stand for. *)
Definition unpacks `{Snappy} (type : Z) (raw contents : list Z) : Prop :=
  type = kNoCompression ∧ raw = contents ∨
  type = kSnappyCompression ∧ Snappy_GetUncompressedLength raw = Some (len contents) ∧ Snappy_Uncompress raw = Some contents.

(** A file has a block with some contents where a handle says. *)
Definition stores `{Snappy} (image : list Z) (h : BlockHandle) (contents : list Z) : Prop :=
  ∃ type raw, image_has image (bh_offset h) (raw ++ block_trailer type raw) ∧ bh_size h = len raw ∧ bytes raw ∧
    unpacks type raw contents.

Lemma stores_app `{Snappy} image h contents more : stores image h contents → stores (image ++ more) h contents.
Proof. intros (type & raw & Hi & Hrest). exists type, raw. split; [by apply image_has_app|done]. Qed.

Section stored.
Context `{Memory} `{Snappy} {F : Type} `{RandomAccessFileLaws F}.

Lemma DecodeFixed32_whole l : length l = 4%nat → DecodeFixed32 l = Ok (le_value l).
Proof. intros Hl. unfold DecodeFixed32. rewrite <- (app_nil_r l) at 1. rewrite read_at_head; [done|]. by rewrite Hl. Qed.

(** Reading is up to the checksum. *)
Lemma ReadBlock_checks file options h image body crc :
  readable file image → len image < 2 ^ 62 → image_has image (bh_offset h) (body ++ crc) → bytes body →
  0 ≤ bh_size h → len body = bh_size h + 1 → length crc = 4%nat → verify_checksums options = true →
  crc32c 0 body ≠ Unmask (le_value crc) →
  ReadBlock file options h = Ok (Corruption (text "block checksum mismatch") [], no_contents).
Proof.
  intros Hf Hsmall Hi Hb H0n Hl Hc Hv Hne. destruct (image_has_part _ _ _ Hi) as (Hoff & Hend & Hpart).
  rewrite length_app in Hend, Hpart. replace (Z.of_nat (length body + length crc)) with (bh_size h + 5) in * by lia.
  unfold ReadBlock. change kBlockTrailerSize with 5.
  rewrite wrap_small by (unfold in_width; lia).
  destruct (Read_at_readable (bh_offset h) (bh_size h + 5) file image Hf) as (b & ->); [lia..|]. rewrite Hpart.
  cbn [mbind outcome_bind ok status_OK negb]. rewrite length_app.
  replace (Z.of_nat (length body + length crc)) with (bh_size h + 5) by lia. rewrite Z.eqb_refl, Hv. cbn [negb].
  rewrite <- (app_nil_r crc) at 1. rewrite (read_at_app body crc []) by lia. cbn [mbind outcome_bind].
  rewrite DecodeFixed32_whole by done. cbn [mbind outcome_bind]. rewrite (read_at_head body crc (bh_size h + 1)) by lia. cbn [mbind outcome_bind].
  rewrite Value_ok by (done || lia). cbn [mbind outcome_bind]. by rewrite (proj2 (Z.eqb_neq _ _) Hne).
Qed.

Lemma ReadBlock_stored file options h image contents :
  readable file image → len image < 2 ^ 62 → stores image h contents →
  ∃ bc, ReadBlock file options h = Ok (status_OK, bc) ∧ bc_data bc = contents.
Proof.
  intros Hf Hsmall (type & raw & Hi & Hn & Hb & Hu).
  assert (type = 0 ∨ type = 1) as Htype by (destruct Hu as [[-> _]|[-> _]]; [by left|by right]).
  destruct (image_has_part _ _ _ Hi) as (Hoff & Hend & Hpart).
  set (crc := EncodeFixed32 (Mask (crc32c 0 (raw ++ [type])))).
  assert (raw ++ block_trailer type raw = raw ++ [type] ++ crc) as E by done.
  assert (length crc = 4%nat) as Hc by (unfold crc, EncodeFixed32; by rewrite length_le_bytes).
  rewrite E in *. rewrite !length_app in Hend, Hpart. cbn [length] in Hend, Hpart.
  replace (Z.of_nat (length raw + (1 + length crc))) with (bh_size h + 5) in * by lia.
  unfold ReadBlock. change kBlockTrailerSize with 5.
  rewrite wrap_small by (unfold in_width; lia).
  destruct (Read_at_readable (bh_offset h) (bh_size h + 5) file image Hf) as (b & ->); [lia..|]. rewrite Hpart.
  cbn [mbind outcome_bind ok status_OK negb]. rewrite !length_app. cbn [length].
  replace (Z.of_nat (length raw + (1 + length crc))) with (bh_size h + 5) by lia. rewrite Z.eqb_refl. cbn [negb].
  assert (is_byte type) as Hbt by (destruct Htype as [-> | ->]; by unfold in_width).
  assert (in_width 32 (crc32c 0 (raw ++ [type]))) as Hw.
  { apply crc32c_in_width; [done|]. apply Forall_app_2; [done|by apply Forall_singleton]. }
  assert ((if verify_checksums options then
    stored ← (l ← read_at (raw ++ [type] ++ crc) (bh_size h + 1) 4; DecodeFixed32 l);
    data ← read_at (raw ++ [type] ++ crc) 0 (bh_size h + 1);
    actual ← Value (address data) data; Ok (actual =? Unmask stored) else Ok true) = Ok true) as ->.
  { destruct (verify_checksums options); [|done]. rewrite app_assoc. rewrite <- (app_nil_r crc) at 1.
    rewrite (read_at_app (raw ++ [type]) crc [] (bh_size h + 1) 4) by (rewrite ?length_app; cbn [length]; lia).
    cbn [mbind outcome_bind]. rewrite DecodeFixed32_whole by done. cbn [mbind outcome_bind].
    rewrite (read_at_head (raw ++ [type]) crc (bh_size h + 1)) by (rewrite length_app; cbn [length]; lia). cbn [mbind outcome_bind].
    rewrite Value_ok; [|apply Forall_app_2; [done|by apply Forall_singleton]|rewrite length_app; cbn [length]; lia].
    cbn [mbind outcome_bind]. unfold crc, EncodeFixed32.
    rewrite le_value_bytes_small by apply Mask_in_width. by rewrite Unmask_Mask, Z.eqb_refl. }
  cbn [mbind outcome_bind negb]. cbn [app]. rewrite (byte_at_app raw crc type) by done. cbn [mbind outcome_bind].
  rewrite (read_at_head raw) by done. cbn [mbind outcome_bind].
  replace (swrap 8 type) with type by (destruct Htype as [-> | ->]; done).
  destruct Hu as [[-> ->]|(-> & Hul & Hun)]; cbn; [by eexists|].
  rewrite Hul, Hun. cbn. rewrite Z.eqb_refl. by eexists.
Qed.

End stored.

(** ** Properties *)

(** A handle and a footer are read back.  [BlockHandle::DecodeFrom] reads what
    [EncodeTo] appended, and leaves what follows; [Footer::EncodeTo] makes 48 bytes of any
    two handles that are set, and [DecodeFrom] reads them back. *)
Theorem Footer_roundtrip f h dst rest :
  footer_ok f → handle_ok h →
  (∃ l, BlockHandle_EncodeTo h dst = Ok (dst ++ l) ∧ len l ≤ kMaxEncodedLength ∧
    BlockHandle_DecodeFrom new_BlockHandle (l ++ rest) = (status_OK, h, rest)) ∧
  ∃ l, Footer_EncodeTo f [] = Ok l ∧ len l = kEncodedLength ∧
    Footer_DecodeFrom new_Footer l = Ok (status_OK, f, []).
Proof.
  intros Hf Hh. split.
  - exists (encode_handle h). pose proof (encode_handle_length h). unfold kMaxEncodedLength.
    split_and!; [by apply BlockHandle_EncodeTo_ok|lia|by apply BlockHandle_DecodeFrom_ok].
  - exists (encode_footer f). split_and!; [by apply Footer_EncodeTo_ok|apply encode_footer_length|by apply Footer_DecodeFrom_ok].
Qed.

Definition sample_footer : Footer :=
  {| metaindex_handle_ := {| bh_offset := 300; bh_size := 2 ^ 40 |}; index_handle_ := {| bh_offset := 2 ^ 63; bh_size := 0 |} |}.

Lemma Footer_roundtrip_witness :
  ∃ l, Footer_EncodeTo sample_footer [] = Ok l ∧ len l = 48 ∧
    Footer_DecodeFrom new_Footer l = Ok (status_OK, sample_footer, []).
Proof.
  apply (Footer_roundtrip sample_footer {| bh_offset := 7; bh_size := 5 |} [] []).
  - by repeat split.
  - by repeat split.
Defined.

(** C30: no burst of errors in a block goes unnoticed.  When up to four bytes in a row of a
    stored block, its type included, have changed, reading it with checksums verified
    reports a mismatch, whatever the rest of the file, and hands out no contents. *)
Theorem ReadBlock_detects `{Memory} `{Snappy} {F : Type} `{RandomAccessFileLaws F} (file : F) options h
    before after raw type a w1 w2 b :
  raw ++ [type] = a ++ w1 ++ b → bytes (raw ++ [type]) → bytes w2 →
  length w1 = length w2 → (length w1 ≤ 4)%nat → w1 ≠ w2 →
  bh_offset h = len before → bh_size h = len raw → verify_checksums options = true →
  let damaged := before ++ ((a ++ w2 ++ b) ++ EncodeFixed32 (Mask (crc32c 0 (raw ++ [type])))) ++ after in
  readable file damaged → len damaged < 2 ^ 62 →
  ReadBlock file options h = Ok (Corruption (text "block checksum mismatch") [], no_contents).
Proof.
  intros Hraw Hb Hb2 Hl H4 Hne Hoff Hsize Hv damaged Hf Hsmall.
  rewrite Hraw in Hb. apply Forall_app in Hb as [Ha Hb]. apply Forall_app in Hb as [Hb1 Hb].
  apply (ReadBlock_checks file options h damaged (a ++ w2 ++ b) (EncodeFixed32 (Mask (crc32c 0 (raw ++ [type])))));
    try done; try lia.
  - by exists before, after.
  - by repeat apply Forall_app_2.
  - apply (f_equal length) in Hraw. rewrite !length_app in *. cbn [length] in Hraw. lia.
  - unfold EncodeFixed32. rewrite le_value_bytes_small by apply Mask_in_width. rewrite Unmask_Mask.
    + rewrite Hraw. apply not_eq_sym. by apply crc32c_burst.
    + apply crc32c_in_width; [done|]. rewrite Hraw. by repeat apply Forall_app_2.
Qed.

#[local] Existing Instance zero_memory.

(** A file mapped into memory, with a block of three bytes the middle one of which has
    changed. *)
Definition damaged_file : PosixMmapReadableFile :=
  {| mmap_base_ := [9] ++ ([1; 66; 3; 0] ++ EncodeFixed32 (Mask (crc32c 0 [1; 2; 3; 0]))) ++ [7; 7]; mm_length_ := 11;
     mm_filename_ := text "000005.ldb" |}.

Lemma ReadBlock_detects_witness :
  ReadBlock damaged_file {| verify_checksums := true; fill_cache := true |} {| bh_offset := 1; bh_size := 3 |} =
    Ok (Corruption (text "block checksum mismatch") [], no_contents).
Proof.
  apply (ReadBlock_detects damaged_file {| verify_checksums := true; fill_cache := true |} {| bh_offset := 1; bh_size := 3 |}
    [9] [7; 7] [1; 2; 3] 0 [1] [2] [66] [3; 0]); try done.
  - by repeat constructor.
  - by repeat constructor.
  - cbn. lia.
Defined.

(** A size whose sum with the length of the trailer wraps around: bytes before the buffer
    are looked at. *)
Lemma ReadBlock_wraps `{Memory} `{Snappy} {F : Type} `{RandomAccessFile F} (file : F) options h l b :
  2 ^ 64 - 5 ≤ bh_size h < 2 ^ 64 →
  Read_at (bh_offset h) (bh_size h + 5 - 2 ^ 64) file = Ok (status_OK, (l, b)) → len l = bh_size h + 5 - 2 ^ 64 →
  ReadBlock file options h = Fault OutOfBounds.
Proof.
  intros Hs Hr Hl. unfold ReadBlock. change kBlockTrailerSize with 5.
  assert (u64 (bh_size h + 5) = bh_size h + 5 - 2 ^ 64) as ->.
  { unfold wrap. rewrite <- (Z.mod_small (bh_size h + 5 - 2 ^ 64) (2 ^ 64)) by lia.
    rewrite <- (Z_mod_plus_full (bh_size h + 5 - 2 ^ 64) 1 (2 ^ 64)). f_equal. lia. }
  rewrite Hr. cbn [mbind outcome_bind ok status_OK negb]. rewrite Hl, Z.eqb_refl. cbn [negb].
  assert (∀ i, 2 ^ 64 - 5 ≤ i → byte_at l i = Fault OutOfBounds) as Hbyte.
  { intros i Hi. unfold byte_at. decide_test. by rewrite lookup_ge_None_2 by lia. }
  destruct (verify_checksums options).
  - rewrite (read_at_past l (bh_size h + 1) 4) by lia. cbn [mbind outcome_bind]. done.
  - cbn [mbind outcome_bind negb]. by rewrite Hbyte by lia.
Qed.
