(* ===== verification/LdbFormat.v ===== *)
(** * LevelDB, db/dbformat: internal keys

    A key of the user with a sequence number and a type; the order of such keys, which is
    an instance of the comparator interface over any comparator of user keys; the filter
    policy on user keys; the keys to look up. *)

From S2P Require Import Prelude LdbCoding LdbEnv LdbOrder LdbFilter.

(** ** Sequence numbers and types *)

(** [enum ValueType]; values read from a file may be others. *)
Definition kTypeDeletion : Z := 0.
Definition kTypeValue : Z := 1.
Definition kValueTypeForSeek : Z := kTypeValue.

Definition kMaxSequenceNumber : Z := Z.shiftl 1 56 - 1.

Record ParsedInternalKey : Type := { pk_user_key : Slice; pk_sequence : Z; pk_type : Z }.

Definition InternalKeyEncodingLength (key : ParsedInternalKey) : Z := u64 (len (pk_user_key key) + 8).

Definition PackSequenceAndType (seq t : Z) : outcome Z :=
  _ ← require (seq <=? kMaxSequenceNumber) OutOfBounds;
  _ ← require (t <=? kValueTypeForSeek) OutOfBounds;
  Ok (Z.lor (u64 (Z.shiftl seq 8)) t).

Definition AppendInternalKey (result : list Z) (key : ParsedInternalKey) : outcome (list Z) :=
  packed ← PackSequenceAndType (pk_sequence key) (pk_type key);
  Ok (PutFixed64 (result ++ pk_user_key key) packed).

(** [DecodeFixed64(key.data() + key.size() - 8)] *)
Definition key_number (key : Slice) : outcome Z :=
  l ← read_at key (len key - 8) 8; DecodeFixed64 l.

Definition ParseInternalKey (internal_key : Slice) : outcome (option ParsedInternalKey) :=
  let n := len internal_key in
  if n <? 8 then Ok None
  else
    num ← key_number internal_key;
    let c := u8 (Z.land num 0xff) in
    if c <=? kTypeValue
    then Ok (Some {| pk_user_key := take (Z.to_nat (n - 8)) internal_key; pk_sequence := Z.shiftr num 8; pk_type := c |})
    else Ok None.

Definition ExtractUserKey (internal_key : Slice) : outcome Slice :=
  _ ← require (8 <=? len internal_key) OutOfBounds;
  Ok (take (Z.to_nat (len internal_key - 8)) internal_key).

(** [snprintf(buf, 50, ...)]: the text takes at most 31 characters. *)
Definition ParsedInternalKey_DebugString (key : ParsedInternalKey) : list Z :=
  text "'" ++ EscapeString (pk_user_key key) ++
  text "' @ " ++ NumberToString (pk_sequence key) ++ text " : " ++ NumberToString (pk_type key).

(** *** [InternalKey] *)

Record InternalKey : Type := { rep_ : list Z }.

Definition new_InternalKey (user_key : Slice) (s t : Z) : outcome InternalKey :=
  rep ← AppendInternalKey [] {| pk_user_key := user_key; pk_sequence := s; pk_type := t |};
  Ok {| rep_ := rep |}.

Definition DecodeFrom (s : Slice) : InternalKey := {| rep_ := s |}.

Definition Encode (key : InternalKey) : outcome Slice :=
  _ ← require (negb (len (rep_ key) =? 0)) OutOfBounds; Ok (rep_ key).

Definition InternalKey_user_key (key : InternalKey) : outcome Slice := ExtractUserKey (rep_ key).

Definition SetFrom (p : ParsedInternalKey) : outcome InternalKey :=
  rep ← AppendInternalKey [] p; Ok {| rep_ := rep |}.

Definition InternalKey_DebugString (key : InternalKey) : outcome (list Z) :=
  parsed ← ParseInternalKey (rep_ key);
  Ok (match parsed with
      | Some p => ParsedInternalKey_DebugString p
      | None => text "(bad)" ++ EscapeString (rep_ key)
      end).

(** ** [InternalKeyComparator] *)

Section comparator.
Context `{user_comparator : Comparator}.

Definition InternalKeyComparator_Compare (akey bkey : Slice) : outcome Z :=
  ukey ← ExtractUserKey akey;
  ukey' ← ExtractUserKey bkey;
  r ← Compare ukey ukey';
  if r =? 0 then
    anum ← key_number akey;
    bnum ← key_number bkey;
    Ok (if bnum <? anum then -1 else if anum <? bnum then 1 else r)
  else Ok r.

Definition InternalKeyComparator_FindShortestSeparator (start limit : Slice) : outcome Slice :=
  user_start ← ExtractUserKey start;
  user_limit ← ExtractUserKey limit;
  tmp ← FindShortestSeparator user_start user_limit;
  larger ← (if len tmp <? len user_start then c ← Compare user_start tmp; Ok (c <? 0) else Ok false);
  if larger : bool then
    packed ← PackSequenceAndType kMaxSequenceNumber kValueTypeForSeek;
    let tmp := PutFixed64 tmp packed in
    c ← InternalKeyComparator_Compare start tmp;
    _ ← require (c <? 0) OutOfBounds;
    c ← InternalKeyComparator_Compare tmp limit;
    _ ← require (c <? 0) OutOfBounds;
    Ok tmp
  else Ok start.

Definition InternalKeyComparator_FindShortSuccessor (key : Slice) : outcome Slice :=
  user_key ← ExtractUserKey key;
  tmp ← FindShortSuccessor user_key;
  larger ← (if len tmp <? len user_key then c ← Compare user_key tmp; Ok (c <? 0) else Ok false);
  if larger : bool then
    packed ← PackSequenceAndType kMaxSequenceNumber kValueTypeForSeek;
    let tmp := PutFixed64 tmp packed in
    c ← InternalKeyComparator_Compare key tmp;
    _ ← require (c <? 0) OutOfBounds;
    Ok tmp
  else Ok key.

Definition InternalKeyComparator : Comparator := {|
  Compare := InternalKeyComparator_Compare;
  FindShortestSeparator := InternalKeyComparator_FindShortestSeparator;
  FindShortSuccessor := InternalKeyComparator_FindShortSuccessor
|}.

End comparator.

Arguments InternalKeyComparator user_comparator : clear implicits.

(** ** [InternalFilterPolicy] *)

Section policy.
Context `{user_policy : FilterPolicy}.

(** The keys of the caller are shortened in place, which it does not mind. *)
Fixpoint extract_keys (keys : list Slice) : outcome (list Slice) :=
  match keys with
  | [] => Ok []
  | key :: keys => ukey ← ExtractUserKey key; ukeys ← extract_keys keys; Ok (ukey :: ukeys)
  end.

Definition InternalFilterPolicy_CreateFilter (keys : list Slice) (dst : list Z) : outcome (list Z) :=
  ukeys ← extract_keys keys; CreateFilter ukeys dst.

Definition InternalFilterPolicy_KeyMayMatch (key f : Slice) : outcome bool :=
  ukey ← ExtractUserKey key; KeyMayMatch ukey f.

Definition InternalFilterPolicy : FilterPolicy := {|
  CreateFilter := InternalFilterPolicy_CreateFilter;
  KeyMayMatch := InternalFilterPolicy_KeyMayMatch
|}.

End policy.

Arguments InternalFilterPolicy user_policy : clear implicits.

(** ** [LookupKey] *)

(** The bytes from [start_] to [end_], and where [kstart_] is. *)
Record LookupKey : Type := { lk_bytes : list Z; lk_kstart : nat }.

(** The bytes must fit in [space_], or in what is allocated. *)
Definition new_LookupKey (user_key : Slice) (s : Z) : outcome LookupKey :=
  let usize := len user_key in
  let needed := u64 (usize + 13) in
  let room := if needed <=? 200 then 200 else needed in
  let prefix := EncodeVarint32 (u32 (usize + 8)) in
  packed ← PackSequenceAndType s kValueTypeForSeek;
  let all := prefix ++ user_key ++ EncodeFixed64 packed in
  _ ← require (len all <=? room) OutOfBounds;
  Ok {| lk_bytes := all; lk_kstart := length prefix |}.

Definition memtable_key (k : LookupKey) : Slice := lk_bytes k.
Definition internal_key (k : LookupKey) : Slice := drop (lk_kstart k) (lk_bytes k).
Definition user_key (k : LookupKey) : outcome Slice :=
  read_at (lk_bytes k) (Z.of_nat (lk_kstart k)) (len (lk_bytes k) - Z.of_nat (lk_kstart k) - 8).

(** ** The order of internal keys *)

(** The parts of an internal key. *)
Definition ukey (k : Slice) : Slice := take (length k - 8) k.
Definition key_tag (k : Slice) : list Z := drop (length k - 8) k.

Lemma ukey_app u t : length t = 8%nat → ukey (u ++ t) = u.
Proof.
  intros Ht. unfold ukey. rewrite length_app, Ht. replace (length u + 8 - 8)%nat with (length u) by lia.
  apply take_app_length.
Qed.

Lemma key_tag_app u t : length t = 8%nat → key_tag (u ++ t) = t.
Proof.
  intros Ht. unfold key_tag. rewrite length_app, Ht. replace (length u + 8 - 8)%nat with (length u) by lia.
  apply drop_app_length.
Qed.

Lemma ukey_tag k : ukey k ++ key_tag k = k.
Proof. apply take_drop. Qed.

Lemma length_key_tag k : (8 ≤ length k)%nat → length (key_tag k) = 8%nat.
Proof. intros Hk. unfold key_tag. rewrite length_drop. lia. Qed.

Lemma ExtractUserKey_ok k : (8 ≤ length k)%nat → ExtractUserKey k = Ok (ukey k).
Proof.
  intros Hk. unfold ExtractUserKey. decide_test. cbn [require mbind outcome_bind]. unfold ukey.
  by replace (Z.to_nat (len k - 8)) with (length k - 8)%nat by lia.
Qed.

Lemma key_number_ok k : (8 ≤ length k)%nat → key_number k = Ok (le_value (key_tag k)).
Proof.
  intros Hk. pose proof (length_key_tag k Hk) as Ht. unfold key_number.
  assert (read_at k (len k - 8) 8 = Ok (key_tag k)) as ->.
  { rewrite <- (read_at_app (ukey k) (key_tag k) [] (len k - 8) 8); [by rewrite app_nil_r, ukey_tag| |lia].
    unfold ukey. rewrite length_take. lia. }
  cbn [mbind outcome_bind]. unfold DecodeFixed64. rewrite <- (app_nil_r (key_tag k)) at 1.
  by rewrite read_at_head by lia.
Qed.

Lemma pack_ok seq t :
  0 ≤ seq ≤ kMaxSequenceNumber → 0 ≤ t ≤ kValueTypeForSeek →
  PackSequenceAndType seq t = Ok (seq * 256 + t) ∧ in_width 64 (seq * 256 + t).
Proof.
  unfold kMaxSequenceNumber, kValueTypeForSeek, kTypeValue. change (Z.shiftl 1 56) with (2 ^ 56). intros Hs Ht.
  assert (in_width 64 (seq * 256 + t)) as Hw by (unfold in_width; lia).
  split; [|done]. unfold PackSequenceAndType, kMaxSequenceNumber, kValueTypeForSeek, kTypeValue.
  change (Z.shiftl 1 56) with (2 ^ 56). do 2 decide_test. cbn [require mbind outcome_bind]. f_equal.
  rewrite wrap_small by (rewrite Z.shiftl_mul_pow2 by lia; unfold in_width; lia).
  rewrite (lor_shiftl_comm 8) by (unfold in_width; lia). lia.
Qed.

Lemma unpack seq t : 0 ≤ t < 256 → Z.shiftr (seq * 256 + t) 8 = seq ∧ Z.land (seq * 256 + t) 0xff = t.
Proof.
  intros Ht. split.
  - rewrite Z.shiftr_div_pow2 by lia. change (2 ^ 8) with 256. rewrite Z.div_add_l by lia. rewrite Z.div_small by lia. lia.
  - change 0xff with (Z.ones 8). rewrite Z.land_ones by lia. change (2 ^ 8) with 256.
    rewrite Z.add_comm, Z.mod_add by lia. by apply Z.mod_small.
Qed.

(** An internal key of a valid sequence number and type. *)
Definition packed_key (u : Slice) (seq t : Z) : Slice := u ++ EncodeFixed64 (seq * 256 + t).

Lemma length_fixed64 v : length (EncodeFixed64 v) = 8%nat.
Proof. unfold EncodeFixed64. by rewrite length_le_bytes. Qed.

Lemma AppendInternalKey_ok key :
  0 ≤ pk_sequence key ≤ kMaxSequenceNumber → 0 ≤ pk_type key ≤ kValueTypeForSeek →
  AppendInternalKey [] key = Ok (packed_key (pk_user_key key) (pk_sequence key) (pk_type key)).
Proof.
  intros Hs Ht. unfold AppendInternalKey. by rewrite (proj1 (pack_ok _ _ Hs Ht)).
Qed.

Lemma packed_key_parts u seq t :
  in_width 64 (seq * 256 + t) →
  ukey (packed_key u seq t) = u ∧ le_value (key_tag (packed_key u seq t)) = seq * 256 + t ∧
  bytes (key_tag (packed_key u seq t)) ∧ (8 ≤ length (packed_key u seq t))%nat.
Proof.
  intros [H0 H1]. unfold packed_key. rewrite ukey_app, key_tag_app by apply length_fixed64. split_and!.
  - done.
  - unfold EncodeFixed64. by apply le_value_bytes_small.
  - apply le_bytes_bytes.
  - rewrite length_app, length_fixed64. lia.
Qed.

Section order.
Context `{ComparatorLaws}.

Definition internal_key_ok (k : Slice) : Prop := (8 ≤ length k)%nat ∧ key_ok (ukey k) ∧ bytes (key_tag k).

(** Increasing user keys; for one user key, decreasing numbers. *)
Definition internal_order (a b : Slice) : Z :=
  let r := order (ukey a) (ukey b) in
  if r =? 0 then
    let anum := le_value (key_tag a) in
    let bnum := le_value (key_tag b) in
    if bnum <? anum then -1 else if anum <? bnum then 1 else r
  else r.

Lemma internal_Compare_ok a b :
  internal_key_ok a → internal_key_ok b → InternalKeyComparator_Compare a b = Ok (internal_order a b).
Proof.
  intros (Ha & Hka & _) (Hb & Hkb & _). unfold InternalKeyComparator_Compare, internal_order.
  rewrite !ExtractUserKey_ok by done. cbn [mbind outcome_bind]. rewrite Compare_ok by done. cbn [mbind outcome_bind].
  destruct (_ =? 0); [|done]. rewrite !key_number_ok by done. done.
Qed.

Lemma internal_order_spec a b :
  internal_key_ok a → internal_key_ok b →
  internal_order a b < 0 ↔
  order (ukey a) (ukey b) < 0 ∨ ukey a = ukey b ∧ le_value (key_tag b) < le_value (key_tag a).
Proof.
  intros (_ & Ha & _) (_ & Hb & _). unfold internal_order. pose proof (order_eq _ _ Ha Hb) as Heq.
  destruct (Z.eqb_spec (order (ukey a) (ukey b)) 0) as [E|E].
  - rewrite E. pose proof (proj1 Heq E) as ->.
    destruct (Z.ltb_spec (le_value (key_tag b)) (le_value (key_tag a))), (Z.ltb_spec (le_value (key_tag a)) (le_value (key_tag b)));
      split; intros Hx; try lia; try (by right); destruct Hx as [|[_ ?]]; lia.
  - split; [by left|]. intros [?|[Hx _]]; [done|]. by apply Heq in Hx.
Qed.

Lemma internal_order_zero a b : internal_key_ok a → internal_key_ok b → internal_order a b = 0 ↔ a = b.
Proof.
  intros (Ha & Hka & Hta) (Hb & Hkb & Htb). unfold internal_order. pose proof (order_eq _ _ Hka Hkb) as Heq.
  destruct (Z.eqb_spec (order (ukey a) (ukey b)) 0) as [E|E].
  - rewrite E. pose proof (proj1 Heq E) as Hu.
    assert (le_value (key_tag a) = le_value (key_tag b) ↔ a = b) as <-.
    { split; [|by intros ->]. intros Hv. rewrite <- (ukey_tag a), <- (ukey_tag b), Hu. f_equal.
      rewrite <- (le_bytes_value _ Hta), <- (le_bytes_value _ Htb), Hv. by rewrite !length_key_tag. }
    destruct (Z.ltb_spec (le_value (key_tag b)) (le_value (key_tag a))), (Z.ltb_spec (le_value (key_tag a)) (le_value (key_tag b))); lia.
  - split; [done|]. intros ->. by destruct E; apply order_eq.
Qed.

Lemma internal_order_flip a b : internal_key_ok a → internal_key_ok b → internal_order a b < 0 ↔ 0 < internal_order b a.
Proof.
  intros (_ & Ha & _) (_ & Hb & _). unfold internal_order. pose proof (order_eq _ _ Ha Hb) as Heq.
  pose proof (order_eq _ _ Hb Ha) as Heq'. pose proof (order_flip _ _ Ha Hb) as Hf.
  destruct (Z.eqb_spec (order (ukey a) (ukey b)) 0) as [E|E], (Z.eqb_spec (order (ukey b) (ukey a)) 0) as [E'|E'].
  - repeat match goal with |- context [?x <? ?y] => destruct (Z.ltb_spec x y) end; lia.
  - exfalso. apply E', Heq'. symmetry. by apply Heq.
  - exfalso. apply E, Heq. symmetry. by apply Heq'.
  - done.
Qed.

Lemma internal_order_trans a b c :
  internal_key_ok a → internal_key_ok b → internal_key_ok c →
  internal_order a b < 0 → internal_order b c < 0 → internal_order a c < 0.
Proof.
  intros Ha Hb Hc. rewrite !internal_order_spec by done.
  destruct Ha as (_ & Ha & _), Hb as (_ & Hb & _), Hc as (_ & Hc & _).
  intros [H1|[H1 H1']] [H2|[H2 H2']].
  - left. by eapply (order_trans (ukey a) (ukey b)).
  - left. by rewrite <- H2.
  - left. by rewrite H1.
  - right. split; [congruence|lia].
Qed.

(** The number that comes first. *)
Definition seek_tag : list Z := EncodeFixed64 (kMaxSequenceNumber * 256 + kValueTypeForSeek).

Lemma seek_key_ok u : key_ok u → internal_key_ok (u ++ seek_tag).
Proof.
  intros Hu. destruct (packed_key_parts u kMaxSequenceNumber kValueTypeForSeek) as (H1 & _ & H3 & H4); [done|].
  split; [exact H4|]. split; [|exact H3].
  change (key_ok (ukey (packed_key u kMaxSequenceNumber kValueTypeForSeek))). by rewrite H1.
Qed.

Lemma ukey_seek u : ukey (u ++ seek_tag) = u.
Proof. apply ukey_app, length_fixed64. Qed.

(** A larger user key with that number is a larger key. *)
Lemma seek_above a u : internal_key_ok a → key_ok u → order (ukey a) u < 0 → internal_order a (u ++ seek_tag) < 0.
Proof.
  intros Ha Hu Hlt. apply internal_order_spec; [done|by apply seek_key_ok|]. left. by rewrite ukey_seek.
Qed.

Lemma seek_below u b : internal_key_ok b → key_ok u → order u (ukey b) < 0 → internal_order (u ++ seek_tag) b < 0.
Proof.
  intros Hb Hu Hlt. apply internal_order_spec; [by apply seek_key_ok|done|]. left. by rewrite ukey_seek.
Qed.

(** The test whether the shortened user key is larger. *)
Lemma shortened_ok u tmp :
  key_ok u → key_ok tmp →
  ∃ b, (if len tmp <? len u then c ← Compare u tmp; Ok (c <? 0) else Ok false) = Ok b ∧ (b = true → order u tmp < 0).
Proof.
  intros Hu Htmp. destruct (len tmp <? len u).
  - rewrite Compare_ok by done. eexists. split; [done|]. apply Z.ltb_lt.
  - by exists false.
Qed.

Lemma shortened_length key user tmp packed :
  ExtractUserKey key = Ok user →
  (if len tmp <? len user then c ← Compare user tmp; Ok (c <? 0) else Ok false) = Ok true →
  len (PutFixed64 tmp packed) ≤ len key.
Proof.
  unfold ExtractUserKey. destruct (Z.leb_spec 8 (len key)) as [H8|]; [|done]. cbn [require mbind outcome_bind].
  intros [= <-]. destruct (Z.ltb_spec (len tmp) (len (take (Z.to_nat (len key - 8)) key))) as [Hlt|]; [|done]. intros _.
  unfold PutFixed64. rewrite length_app, length_fixed64. rewrite length_take in Hlt. lia.
Qed.

Lemma pack_seek : PackSequenceAndType kMaxSequenceNumber kValueTypeForSeek = Ok (kMaxSequenceNumber * 256 + kValueTypeForSeek).
Proof. done. Qed.

Lemma internal_order_refl a : internal_key_ok a → internal_order a a ≤ 0.
Proof. intros Ha. by rewrite (proj2 (internal_order_zero a a Ha Ha)). Qed.

Lemma internal_separator_ok start limit :
  internal_key_ok start → internal_key_ok limit → internal_order start limit < 0 →
  ∃ key, InternalKeyComparator_FindShortestSeparator start limit = Ok key ∧ internal_key_ok key ∧
    internal_order start key ≤ 0 ∧ internal_order key limit < 0.
Proof.
  intros Hs Hl Hlt. pose proof Hs as (Hs8 & Hsk & _). pose proof Hl as (Hl8 & Hlk & _).
  unfold InternalKeyComparator_FindShortestSeparator. rewrite !ExtractUserKey_ok by done. cbn [mbind outcome_bind].
  assert (∃ tmp, FindShortestSeparator (ukey start) (ukey limit) = Ok tmp ∧ key_ok tmp ∧
    (order (ukey start) tmp < 0 → order tmp (ukey limit) < 0)) as (tmp & -> & Htmp & Hbelow).
  { pose proof (proj1 (internal_order_spec _ _ Hs Hl) Hlt) as [Hult|[Heq _]].
    - destruct (Separator_between _ _ Hsk Hlk Hult) as (tmp & E & Hk & _ & Hb). by exists tmp.
    - pose proof (proj2 (order_eq _ _ Hsk Hlk) Heq) as Hz. rewrite Separator_otherwise by first [done|lia].
      exists (ukey start). split; [done|]. split; [done|]. intros Hx. by apply order_irrefl in Hx. }
  cbn [mbind outcome_bind]. destruct (shortened_ok _ tmp Hsk Htmp) as ([|] & -> & Hb); cbn [mbind outcome_bind];
    [|exists start; split; [done|]; split; [done|]; split; [by apply internal_order_refl|done]].
  specialize (Hb eq_refl). rewrite pack_seek. cbn [mbind outcome_bind]. unfold PutFixed64. fold seek_tag.
  pose proof (seek_key_ok tmp Htmp) as Hnew. pose proof (seek_above _ _ Hs Htmp Hb) as H1.
  pose proof (seek_below _ _ Hl Htmp (Hbelow Hb)) as H2.
  rewrite !internal_Compare_ok by done. cbn [mbind outcome_bind].
  rewrite (proj2 (Z.ltb_lt _ _) H1), (proj2 (Z.ltb_lt _ _) H2). cbn [require mbind outcome_bind].
  eexists. split; [done|]. split; [done|]. split; [lia|done].
Qed.

Lemma internal_separator_otherwise start limit :
  internal_key_ok start → internal_key_ok limit → 0 ≤ internal_order start limit →
  InternalKeyComparator_FindShortestSeparator start limit = Ok start.
Proof.
  intros Hs Hl Hge. pose proof Hs as (Hs8 & Hsk & _). pose proof Hl as (Hl8 & Hlk & _).
  unfold InternalKeyComparator_FindShortestSeparator. rewrite !ExtractUserKey_ok by done. cbn [mbind outcome_bind].
  rewrite Separator_otherwise; [|done|done|].
  - cbn [mbind outcome_bind]. by rewrite Z.ltb_irrefl.
  - destruct (Z.le_gt_cases 0 (order (ukey start) (ukey limit))) as [|Hlt]; [done|].
    assert (internal_order start limit < 0); [apply internal_order_spec; [done|done|by left]|lia].
Qed.

Lemma internal_successor_ok key :
  internal_key_ok key → ∃ key', InternalKeyComparator_FindShortSuccessor key = Ok key' ∧ internal_key_ok key' ∧
    internal_order key key' ≤ 0.
Proof.
  intros Hk. pose proof Hk as (Hk8 & Hkk & _). unfold InternalKeyComparator_FindShortSuccessor.
  rewrite ExtractUserKey_ok by done. cbn [mbind outcome_bind].
  destruct (Successor_above _ Hkk) as (tmp & -> & Htmp & _). cbn [mbind outcome_bind].
  destruct (shortened_ok _ tmp Hkk Htmp) as ([|] & -> & Hb); cbn [mbind outcome_bind];
    [|exists key; split; [done|]; split; [done|]; by apply internal_order_refl].
  specialize (Hb eq_refl). rewrite pack_seek. cbn [mbind outcome_bind]. unfold PutFixed64. fold seek_tag.
  pose proof (seek_key_ok tmp Htmp) as Hnew. pose proof (seek_above _ _ Hk Htmp Hb) as H1.
  rewrite internal_Compare_ok by done. cbn [mbind outcome_bind].
  rewrite (proj2 (Z.ltb_lt _ _) H1). cbn [require mbind outcome_bind].
  eexists. split; [done|]. split; [done|lia].
Qed.

(** The order of internal keys is lawful when that of user keys is. *)
Definition internal_laws : @ComparatorLaws (InternalKeyComparator _) :=
  @Build_ComparatorLaws (InternalKeyComparator _) internal_key_ok internal_order internal_Compare_ok
    internal_order_zero internal_order_flip internal_order_trans internal_separator_ok
    internal_separator_otherwise internal_successor_ok.

(** The shortened keys are not longer, so the laws hold for the keys whose length has 32 bits. *)
Lemma internal_separator_length start limit key :
  InternalKeyComparator_FindShortestSeparator start limit = Ok key → len key ≤ len start.
Proof.
  unfold InternalKeyComparator_FindShortestSeparator. intros Hr.
  apply outcome_bind_inv in Hr as (us & Hu & Hr). apply outcome_bind_inv in Hr as (ul & _ & Hr).
  apply outcome_bind_inv in Hr as (tmp & _ & Hr). apply outcome_bind_inv in Hr as ([|] & Hlarger & Hr); [|by injection Hr as ->].
  apply outcome_bind_inv in Hr as (packed & _ & Hr). apply outcome_bind_inv in Hr as (c1 & _ & Hr).
  apply outcome_bind_inv in Hr as (? & _ & Hr). apply outcome_bind_inv in Hr as (c2 & _ & Hr).
  apply outcome_bind_inv in Hr as (? & _ & Hr). injection Hr as <-.
  by apply (shortened_length start us tmp).
Qed.

Lemma internal_successor_length key key' :
  InternalKeyComparator_FindShortSuccessor key = Ok key' → len key' ≤ len key.
Proof.
  unfold InternalKeyComparator_FindShortSuccessor. intros Hr.
  apply outcome_bind_inv in Hr as (us & Hu & Hr). apply outcome_bind_inv in Hr as (tmp & _ & Hr).
  apply outcome_bind_inv in Hr as ([|] & Hlarger & Hr); [|by injection Hr as ->].
  apply outcome_bind_inv in Hr as (packed & _ & Hr). apply outcome_bind_inv in Hr as (c1 & _ & Hr).
  apply outcome_bind_inv in Hr as (? & _ & Hr). injection Hr as <-.
  by apply (shortened_length key us tmp).
Qed.

#[export] Instance internal_compact `{!CompactKeys} : @CompactKeys _ internal_laws.
Proof.
  split.
  - intros k (_ & Hu & Ht). rewrite <- (ukey_tag k). apply Forall_app_2; [by apply key_ok_bytes|done].
  - intros start limit key. apply internal_separator_length.
  - intros key key'. apply internal_successor_length.
Qed.

Definition internal_key_short (k : Slice) : Prop := internal_key_ok k ∧ len k < 2 ^ 32.

Definition short_internal_laws : @ComparatorLaws (InternalKeyComparator _).
Proof.
  refine (@Build_ComparatorLaws (InternalKeyComparator _) internal_key_short internal_order _ _ _ _ _ _ _).
  - intros a b [Ha _] [Hb _]. by apply internal_Compare_ok.
  - intros a b [Ha _] [Hb _]. by apply internal_order_zero.
  - intros a b [Ha _] [Hb _]. by apply internal_order_flip.
  - intros a b c [Ha _] [Hb _] [Hc _]. by apply internal_order_trans.
  - intros start limit [Hs Hls] [Hl _] Hlt. destruct (internal_separator_ok start limit Hs Hl Hlt) as (key & E & Hk & H1 & H2).
    exists key. pose proof (internal_separator_length _ _ _ E). split_and!; [done|split; [done|lia]|done|done].
  - intros start limit [Hs _] [Hl _]. by apply internal_separator_otherwise.
  - intros key [Hk Hl]. destruct (internal_successor_ok key Hk) as (key' & E & Hk' & H1).
    exists key'. pose proof (internal_successor_length _ _ E). split_and!; [done|split; [done|lia]|done].
Defined.

End order.

(** ** Filters of internal keys *)

Section filters.
Context `{user_policy : FilterPolicy} `{!FilterPolicyLaws}.

Lemma extract_keys_ok keys :
  Forall (λ k, (8 ≤ length k)%nat) keys → extract_keys keys = Ok (map ukey keys).
Proof.
  induction 1 as [|k keys Hk _ IH]; [done|]. cbn [extract_keys map]. rewrite ExtractUserKey_ok by done.
  cbn [mbind outcome_bind]. by rewrite IH.
Qed.

(** The keys of a filter of internal keys are matched by their user keys. *)
Definition internal_policy_laws : @FilterPolicyLaws (InternalFilterPolicy _).
Proof.
  refine (@Build_FilterPolicyLaws (InternalFilterPolicy _)
    (λ keys, Forall (λ k, (8 ≤ length k)%nat) keys ∧ fits (map ukey keys)) _ _).
  - intros keys [Hlen Hfits]. destruct (CreateFilter_appends _ Hfits) as (filter & Hb & Hc & Hm).
    exists filter. split; [done|]. split.
    + intros dst. cbn. unfold InternalFilterPolicy_CreateFilter. rewrite extract_keys_ok by done. apply Hc.
    + intros key Hin. cbn. unfold InternalFilterPolicy_KeyMayMatch.
      rewrite ExtractUserKey_ok by (by eapply Forall_forall in Hlen). cbn [mbind outcome_bind].
      apply Hm. by apply list_elem_of_fmap_2.
  - intros keys keys' [Hlen Hfits]. rewrite map_app in Hfits. apply fits_app in Hfits as [H1 H2].
    by apply Forall_app in Hlen as [? ?].
Defined.

(** Internal keys can be asked about. *)
#[export] Instance internal_answers `{!FilterAnswers} : @FilterAnswers (InternalFilterPolicy _).
Proof.
  refine (@Build_FilterAnswers (InternalFilterPolicy _) (λ k, (8 ≤ length k)%nat ∧ asked (ukey k)) _).
  intros key filter [Hl Ha] Hf. cbn. unfold InternalFilterPolicy_KeyMayMatch.
  rewrite ExtractUserKey_ok by done. cbn [mbind outcome_bind]. by apply KeyMayMatch_answers.
Defined.

End filters.

(** ** Keys to look up *)

Lemma new_LookupKey_ok u s :
  len u < 2 ^ 32 - 8 → 0 ≤ s ≤ kMaxSequenceNumber →
  ∃ k, new_LookupKey u s = Ok k ∧
    memtable_key k = EncodeVarint32 (len u + 8) ++ packed_key u s kValueTypeForSeek ∧
    internal_key k = packed_key u s kValueTypeForSeek ∧ user_key k = Ok u.
Proof.
  intros Hu Hs. unfold new_LookupKey.
  destruct (pack_ok s kValueTypeForSeek Hs ltac:(done)) as [-> Hw]. cbn [mbind outcome_bind].
  rewrite !wrap_small by (unfold in_width; lia).
  assert (len (EncodeVarint32 (len u + 8)) ≤ 5) as H5.
  { unfold EncodeVarint32. repeat destruct (_ <? _); cbn; lia. }
  rewrite (proj2 (Z.leb_le _ (if _ <=? 200 then _ else _))).
  2: { rewrite !length_app, length_fixed64. destruct (_ <=? 200) eqn:E; split_bool; lia. }
  cbn [require mbind outcome_bind]. eexists. split; [done|]. split; [done|]. split.
  - unfold internal_key. cbn [lk_kstart lk_bytes]. by rewrite drop_app_length.
  - unfold user_key. cbn [lk_kstart lk_bytes]. apply read_at_app; [done|]. rewrite !length_app, length_fixed64. lia.
Qed.

Lemma ParseInternalKey_ok u seq t :
  0 ≤ seq ≤ kMaxSequenceNumber → 0 ≤ t ≤ kValueTypeForSeek →
  ParseInternalKey (packed_key u seq t) = Ok (Some {| pk_user_key := u; pk_sequence := seq; pk_type := t |}).
Proof.
  intros Hs Ht. destruct (pack_ok seq t Hs Ht) as [_ Hw]. destruct (packed_key_parts u seq t Hw) as (Hu & Hn & _ & Hlen).
  unfold ParseInternalKey. decide_test. rewrite key_number_ok by done. cbn [mbind outcome_bind]. rewrite Hn.
  assert (0 ≤ t < 256) as Ht' by (unfold kValueTypeForSeek, kTypeValue in Ht; lia).
  destruct (unpack seq t Ht') as [-> ->]. rewrite wrap_small by (unfold in_width; lia).
  rewrite (proj2 (Z.leb_le t kTypeValue)) by apply Ht. do 3 f_equal.
  unfold ukey in Hu. by replace (Z.to_nat (len (packed_key u seq t) - 8)) with (length (packed_key u seq t) - 8)%nat by lia.
Qed.

(** Internal keys keep their parts and sort as intended: an internal key made of a user
    key, a sequence number of at most 56 bits and a type is parsed back, and
    [InternalKeyComparator] puts keys in the order of their user keys, for one user key the
    later sequence number first, then the larger type - over any lawful comparator of user
    keys. *)
Theorem InternalKey_orders `{ComparatorLaws} u1 s1 t1 u2 s2 t2 :
  key_ok u1 → key_ok u2 → 0 ≤ s1 ≤ kMaxSequenceNumber → 0 ≤ s2 ≤ kMaxSequenceNumber →
  0 ≤ t1 ≤ kValueTypeForSeek → 0 ≤ t2 ≤ kValueTypeForSeek →
  ∃ a b r, new_InternalKey u1 s1 t1 = Ok a ∧ new_InternalKey u2 s2 t2 = Ok b ∧
    InternalKeyComparator_Compare (rep_ a) (rep_ b) = Ok r ∧
    (r < 0 ↔ order u1 u2 < 0 ∨ u1 = u2 ∧ (s2 < s1 ∨ s1 = s2 ∧ t2 < t1)) ∧
    (r = 0 ↔ u1 = u2 ∧ s1 = s2 ∧ t1 = t2) ∧
    InternalKey_user_key a = Ok u1 ∧
    ParseInternalKey (rep_ a) = Ok (Some {| pk_user_key := u1; pk_sequence := s1; pk_type := t1 |}).
Proof.
  intros Hu1 Hu2 Hs1 Hs2 Ht1 Ht2. unfold new_InternalKey. rewrite !AppendInternalKey_ok by done.
  cbn [mbind outcome_bind pk_user_key pk_sequence pk_type].
  destruct (packed_key_parts u1 s1 t1 (proj2 (pack_ok _ _ Hs1 Ht1))) as (E1 & N1 & B1 & L1).
  destruct (packed_key_parts u2 s2 t2 (proj2 (pack_ok _ _ Hs2 Ht2))) as (E2 & N2 & B2 & L2).
  assert (internal_key_ok (packed_key u1 s1 t1)) as Hk1 by (split; [done|]; by rewrite E1).
  assert (internal_key_ok (packed_key u2 s2 t2)) as Hk2 by (split; [done|]; by rewrite E2).
  eexists _, _, (internal_order (packed_key u1 s1 t1) (packed_key u2 s2 t2)). cbn [rep_].
  split; [done|]. split; [done|]. split; [by apply internal_Compare_ok|].
  pose proof (internal_order_spec _ _ Hk1 Hk2) as Hlt. pose proof (internal_order_zero _ _ Hk1 Hk2) as Heq.
  rewrite E1, E2, N1, N2 in Hlt. unfold kValueTypeForSeek, kTypeValue in Ht1, Ht2.
  split; [rewrite Hlt; assert (s2 * 256 + t2 < s1 * 256 + t1 ↔ s2 < s1 ∨ s1 = s2 ∧ t2 < t1) as -> by lia; done|].
  split; [|split; [by unfold InternalKey_user_key; cbn [rep_]; rewrite ExtractUserKey_ok, E1|by apply ParseInternalKey_ok]].
  rewrite Heq. split; [|by intros (-> & -> & ->)]. intros E. split; [by rewrite <- E1, <- E2, E|].
  assert (s1 * 256 + t1 = s2 * 256 + t2) by (by rewrite <- N1, <- N2, E). lia.
Qed.

Lemma InternalKey_orders_witness :
  ∃ a b r, new_InternalKey [107] 7 kTypeValue = Ok a ∧ new_InternalKey [107] 9 kTypeDeletion = Ok b ∧
    InternalKeyComparator_Compare (rep_ a) (rep_ b) = Ok r ∧ 0 ≤ r.
Proof.
  destruct (InternalKey_orders [107] 7 kTypeValue [107] 9 kTypeDeletion) as (a & b & r & Ha & Hb & Hr & Hlt & _);
    try (by repeat constructor); try (by split; vm_compute).
  exists a, b, r. split_and!; try done. destruct (Z.le_gt_cases 0 r) as [|Hn]; [done|].
  apply Hlt in Hn as [Hn|(_ & [Hn|[Hn _]])]; [vm_compute in Hn; done|lia|lia].
Defined.
