(* ===== verification/LdbVersionEdit.v ===== *)
(** * LevelDB, db/version_edit: changes to the set of files

    What a record of the manifest says: the files that were added to and deleted from the
    levels, and the numbers to go on with.  An edit is written as a sequence of tagged
    fields; what is written is read back, and whatever is read is well formed. *)

From S2P Require Import Prelude LdbCoding LdbEnv LdbOrder LdbFormat.

(** [config::kNumLevels] *)
Definition kNumLevels : Z := 7.

(** ** The data *)

(** A table file; the counters [refs] and [allowed_seeks] are those of the version that has
    the file, and are not part of an edit. *)
Record FileMetaData : Type := {
  fm_number : Z;
  fm_file_size : Z;
  fm_smallest : InternalKey;
  fm_largest : InternalKey
}.

#[export] Instance InternalKey_eq_dec : EqDecision InternalKey.
Proof. solve_decision. Defined.

#[export] Instance FileMetaData_eq_dec : EqDecision FileMetaData.
Proof. solve_decision. Defined.

(** A member with its [has_] flag is an option; the levels are [int]s. *)
Record VersionEdit : Type := {
  ve_comparator : option Slice;
  ve_log_number : option Z;
  ve_prev_log_number : option Z;
  ve_next_file_number : option Z;
  ve_last_sequence : option Z;
  ve_compact_pointers : list (Z * InternalKey);
  ve_deleted_files : list (Z * Z);          (* [std::set], in its order *)
  ve_new_files : list (Z * FileMetaData)
}.

(** [Clear] leaves the compaction pointers as they are. *)
Definition VersionEdit_Clear (this : VersionEdit) : VersionEdit := {|
  ve_comparator := None; ve_log_number := None; ve_prev_log_number := None;
  ve_next_file_number := None; ve_last_sequence := None;
  ve_compact_pointers := ve_compact_pointers this; ve_deleted_files := []; ve_new_files := []
|}.

(** The vector of pointers is empty at first. *)
Definition new_VersionEdit : VersionEdit := {|
  ve_comparator := None; ve_log_number := None; ve_prev_log_number := None;
  ve_next_file_number := None; ve_last_sequence := None;
  ve_compact_pointers := []; ve_deleted_files := []; ve_new_files := []
|}.

Definition SetComparatorName (this : VersionEdit) (name : Slice) : VersionEdit := {|
  ve_comparator := Some name; ve_log_number := ve_log_number this; ve_prev_log_number := ve_prev_log_number this;
  ve_next_file_number := ve_next_file_number this; ve_last_sequence := ve_last_sequence this;
  ve_compact_pointers := ve_compact_pointers this; ve_deleted_files := ve_deleted_files this; ve_new_files := ve_new_files this
|}.

Definition SetLogNumber (this : VersionEdit) (num : Z) : VersionEdit := {|
  ve_comparator := ve_comparator this; ve_log_number := Some num; ve_prev_log_number := ve_prev_log_number this;
  ve_next_file_number := ve_next_file_number this; ve_last_sequence := ve_last_sequence this;
  ve_compact_pointers := ve_compact_pointers this; ve_deleted_files := ve_deleted_files this; ve_new_files := ve_new_files this
|}.

Definition SetPrevLogNumber (this : VersionEdit) (num : Z) : VersionEdit := {|
  ve_comparator := ve_comparator this; ve_log_number := ve_log_number this; ve_prev_log_number := Some num;
  ve_next_file_number := ve_next_file_number this; ve_last_sequence := ve_last_sequence this;
  ve_compact_pointers := ve_compact_pointers this; ve_deleted_files := ve_deleted_files this; ve_new_files := ve_new_files this
|}.

Definition SetNextFile (this : VersionEdit) (num : Z) : VersionEdit := {|
  ve_comparator := ve_comparator this; ve_log_number := ve_log_number this; ve_prev_log_number := ve_prev_log_number this;
  ve_next_file_number := Some num; ve_last_sequence := ve_last_sequence this;
  ve_compact_pointers := ve_compact_pointers this; ve_deleted_files := ve_deleted_files this; ve_new_files := ve_new_files this
|}.

Definition SetLastSequence (this : VersionEdit) (seq : Z) : VersionEdit := {|
  ve_comparator := ve_comparator this; ve_log_number := ve_log_number this; ve_prev_log_number := ve_prev_log_number this;
  ve_next_file_number := ve_next_file_number this; ve_last_sequence := Some seq;
  ve_compact_pointers := ve_compact_pointers this; ve_deleted_files := ve_deleted_files this; ve_new_files := ve_new_files this
|}.

Definition SetCompactPointer (this : VersionEdit) (level : Z) (key : InternalKey) : VersionEdit := {|
  ve_comparator := ve_comparator this; ve_log_number := ve_log_number this; ve_prev_log_number := ve_prev_log_number this;
  ve_next_file_number := ve_next_file_number this; ve_last_sequence := ve_last_sequence this;
  ve_compact_pointers := ve_compact_pointers this ++ [(level, key)];
  ve_deleted_files := ve_deleted_files this; ve_new_files := ve_new_files this
|}.

Definition push_new_file (this : VersionEdit) (level : Z) (f : FileMetaData) : VersionEdit := {|
  ve_comparator := ve_comparator this; ve_log_number := ve_log_number this; ve_prev_log_number := ve_prev_log_number this;
  ve_next_file_number := ve_next_file_number this; ve_last_sequence := ve_last_sequence this;
  ve_compact_pointers := ve_compact_pointers this; ve_deleted_files := ve_deleted_files this;
  ve_new_files := ve_new_files this ++ [(level, f)]
|}.

Definition AddFile (this : VersionEdit) (level file file_size : Z) (smallest largest : InternalKey) : VersionEdit :=
  push_new_file this level
    {| fm_number := file; fm_file_size := file_size; fm_smallest := smallest; fm_largest := largest |}.

(** The order of [std::pair]; [std::set::insert], which keeps an equal element. *)
Definition pair_less (a b : Z * Z) : bool := (a.1 <? b.1) || (a.1 =? b.1) && (a.2 <? b.2).

Fixpoint set_insert {A : Type} (less : A → A → bool) (x : A) (l : list A) : list A :=
  match l with
  | [] => [x]
  | y :: l' => if less x y then x :: l else if less y x then y :: set_insert less x l' else l
  end.

Definition VersionEdit_DeleteFile (this : VersionEdit) (level file : Z) : VersionEdit := {|
  ve_comparator := ve_comparator this; ve_log_number := ve_log_number this; ve_prev_log_number := ve_prev_log_number this;
  ve_next_file_number := ve_next_file_number this; ve_last_sequence := ve_last_sequence this;
  ve_compact_pointers := ve_compact_pointers this;
  ve_deleted_files := set_insert pair_less (level, file) (ve_deleted_files this); ve_new_files := ve_new_files this
|}.

(** ** Encoding *)

(** [enum Tag] *)
Definition kComparator : Z := 1.
Definition kLogNumber : Z := 2.
Definition kNextFileNumber : Z := 3.
Definition kLastSequence : Z := 4.
Definition kCompactPointer : Z := 5.
Definition kDeletedFile : Z := 6.
Definition kNewFile : Z := 7.
Definition kPrevLogNumber : Z := 9.

Definition put_number (tag : Z) (num : option Z) (dst : list Z) : list Z :=
  match num with None => dst | Some n => PutVarint64 (PutVarint32 dst tag) n end.

Fixpoint put_compact_pointers (l : list (Z * InternalKey)) (dst : list Z) : outcome (list Z) :=
  match l with
  | [] => Ok dst
  | (level, key) :: l =>
      k ← Encode key;
      put_compact_pointers l (PutLengthPrefixedSlice (PutVarint32 (PutVarint32 dst kCompactPointer) (u32 level)) k)
  end.

Definition put_deleted_files (l : list (Z * Z)) (dst : list Z) : list Z :=
  fold_left (λ dst d, PutVarint64 (PutVarint32 (PutVarint32 dst kDeletedFile) (u32 d.1)) d.2) l dst.

Fixpoint put_new_files (l : list (Z * FileMetaData)) (dst : list Z) : outcome (list Z) :=
  match l with
  | [] => Ok dst
  | (level, f) :: l =>
      smallest ← Encode (fm_smallest f);
      largest ← Encode (fm_largest f);
      let dst := PutVarint32 (PutVarint32 dst kNewFile) (u32 level) in
      let dst := PutVarint64 (PutVarint64 dst (fm_number f)) (fm_file_size f) in
      put_new_files l (PutLengthPrefixedSlice (PutLengthPrefixedSlice dst smallest) largest)
  end.

Definition VersionEdit_EncodeTo (this : VersionEdit) (dst : list Z) : outcome (list Z) :=
  let dst := match ve_comparator this with
             | None => dst
             | Some name => PutLengthPrefixedSlice (PutVarint32 dst kComparator) name
             end in
  let dst := put_number kLogNumber (ve_log_number this) dst in
  let dst := put_number kPrevLogNumber (ve_prev_log_number this) dst in
  let dst := put_number kNextFileNumber (ve_next_file_number this) dst in
  let dst := put_number kLastSequence (ve_last_sequence this) dst in
  dst ← put_compact_pointers (ve_compact_pointers this) dst;
  let dst := put_deleted_files (ve_deleted_files this) dst in
  put_new_files (ve_new_files this) dst.

(** ** Decoding *)

Definition GetInternalKey (input : Slice) : option (InternalKey * Slice) :=
  match GetLengthPrefixedSlice input with
  | (Some str, input) => Some (DecodeFrom str, input)
  | (None, _) => None
  end.

Definition GetLevel (input : Slice) : option (Z * Slice) :=
  match GetVarint32 input with
  | Some (v, input) => if v <? kNumLevels then Some (v, input) else None
  | None => None
  end.

(** One round of the loop, after the tag: the edit and what is left, or [msg]. *)
Definition decode_field (tag : Z) (this : VersionEdit) (input : Slice) : (VersionEdit * Slice) + list Z :=
  if tag =? kComparator then
    match GetLengthPrefixedSlice input with
    | (Some str, input) => inl (SetComparatorName this str, input)
    | (None, _) => inr (text "comparator name")
    end
  else if tag =? kLogNumber then
    match GetVarint64 input with
    | Some (n, input) => inl (SetLogNumber this n, input)
    | None => inr (text "log number")
    end
  else if tag =? kPrevLogNumber then
    match GetVarint64 input with
    | Some (n, input) => inl (SetPrevLogNumber this n, input)
    | None => inr (text "previous log number")
    end
  else if tag =? kNextFileNumber then
    match GetVarint64 input with
    | Some (n, input) => inl (SetNextFile this n, input)
    | None => inr (text "next file number")
    end
  else if tag =? kLastSequence then
    match GetVarint64 input with
    | Some (n, input) => inl (SetLastSequence this n, input)
    | None => inr (text "last sequence number")
    end
  else if tag =? kCompactPointer then
    match ('(level, input) ← GetLevel input; '(key, input) ← GetInternalKey input; Some (level, key, input)) with
    | Some (level, key, input) => inl (SetCompactPointer this level key, input)
    | None => inr (text "compaction pointer")
    end
  else if tag =? kDeletedFile then
    match ('(level, input) ← GetLevel input; '(number, input) ← GetVarint64 input; Some (level, number, input)) with
    | Some (level, number, input) => inl (VersionEdit_DeleteFile this level number, input)
    | None => inr (text "deleted file")
    end
  else if tag =? kNewFile then
    match ('(level, input) ← GetLevel input;
           '(number, input) ← GetVarint64 input;
           '(file_size, input) ← GetVarint64 input;
           '(smallest, input) ← GetInternalKey input;
           '(largest, input) ← GetInternalKey input;
           Some (level, {| fm_number := number; fm_file_size := file_size; fm_smallest := smallest; fm_largest := largest |}, input)) with
    | Some (level, f, input) => inl (push_new_file this level f, input)
    | None => inr (text "new-file entry")
    end
  else inr (text "unknown tag").

(** The edit, [msg] and what is left; every round takes a byte at least. *)
Fixpoint decode_fields (fuel : nat) (this : VersionEdit) (input : Slice) : outcome (VersionEdit * option (list Z) * Slice) :=
  match fuel with
  | O => Fault Diverges
  | S fuel =>
      match GetVarint32 input with
      | None => Ok (this, None, input)
      | Some (tag, input) =>
          match decode_field tag this input with
          | inl (this, input) => decode_fields fuel this input
          | inr msg => Ok (this, Some msg, input)
          end
      end
  end.

Definition VersionEdit_DecodeFrom (this : VersionEdit) (src : Slice) : outcome (Status * VersionEdit) :=
  r ← decode_fields (S (length src)) (VersionEdit_Clear this) src;
  let '(this, msg, input) := r in
  let msg := match msg with
             | Some m => Some m
             | None => if len input =? 0 then None else Some (text "invalid tag")
             end in
  Ok (match msg with Some m => Corruption (text "VersionEdit") m | None => status_OK end, this).

(** ** Text *)

(** The line feed before every entry. *)
Definition nl : list Z := [10].

Definition append_number (name : string) (num : option Z) (r : list Z) : list Z :=
  match num with None => r | Some n => AppendNumberTo (r ++ nl ++ text name) n end.

Fixpoint append_compact_pointers (l : list (Z * InternalKey)) (r : list Z) : outcome (list Z) :=
  match l with
  | [] => Ok r
  | (level, key) :: l =>
      k ← InternalKey_DebugString key;
      append_compact_pointers l (AppendNumberTo (r ++ nl ++ text "  CompactPointer: ") level ++ text " " ++ k)
  end.

Definition append_deleted_files (l : list (Z * Z)) (r : list Z) : list Z :=
  fold_left (λ r d, AppendNumberTo (AppendNumberTo (r ++ nl ++ text "  DeleteFile: ") d.1 ++ text " ") d.2) l r.

Fixpoint append_new_files (l : list (Z * FileMetaData)) (r : list Z) : outcome (list Z) :=
  match l with
  | [] => Ok r
  | (level, f) :: l =>
      smallest ← InternalKey_DebugString (fm_smallest f);
      largest ← InternalKey_DebugString (fm_largest f);
      let r := AppendNumberTo (r ++ nl ++ text "  AddFile: ") level ++ text " " in
      let r := AppendNumberTo (AppendNumberTo r (fm_number f) ++ text " ") (fm_file_size f) in
      append_new_files l (r ++ text " " ++ smallest ++ text " .. " ++ largest)
  end.

Definition VersionEdit_DebugString (this : VersionEdit) : outcome (list Z) :=
  let r := text "VersionEdit {" in
  let r := match ve_comparator this with None => r | Some name => r ++ nl ++ text "  Comparator: " ++ name end in
  let r := append_number "  LogNumber: " (ve_log_number this) r in
  let r := append_number "  PrevLogNumber: " (ve_prev_log_number this) r in
  let r := append_number "  NextFile: " (ve_next_file_number this) r in
  let r := append_number "  LastSeq: " (ve_last_sequence this) r in
  r ← append_compact_pointers (ve_compact_pointers this) r;
  let r := append_deleted_files (ve_deleted_files this) r in
  r ← append_new_files (ve_new_files this) r;
  Ok (r ++ nl ++ text "}" ++ nl).

(** ** What is written is read back *)

(** Fields that can be written: lengths and numbers of their widths, levels that exist. *)
Definition slice_fits (s : Slice) : Prop := len s < 2 ^ 32.
Definition level_ok (level : Z) : Prop := 0 ≤ level < kNumLevels.

Definition option_all {A : Type} (P : A → Prop) (o : option A) : Prop := match o with None => True | Some x => P x end.

Record edit_typed (e : VersionEdit) : Prop := {
  et_comparator : option_all slice_fits (ve_comparator e);
  et_log_number : option_all (in_width 64) (ve_log_number e);
  et_prev_log_number : option_all (in_width 64) (ve_prev_log_number e);
  et_next_file_number : option_all (in_width 64) (ve_next_file_number e);
  et_last_sequence : option_all (in_width 64) (ve_last_sequence e);
  et_compact_pointers : Forall (λ p, level_ok p.1 ∧ slice_fits (rep_ p.2)) (ve_compact_pointers e);
  et_deleted_files : Forall (λ d, level_ok d.1 ∧ in_width 64 d.2) (ve_deleted_files e);
  et_deleted_sorted : StronglySorted (λ a b, pair_less a b = true) (ve_deleted_files e);
  et_new_files : Forall (λ p, level_ok p.1 ∧ in_width 64 (fm_number p.2) ∧ in_width 64 (fm_file_size p.2) ∧
    slice_fits (rep_ (fm_smallest p.2)) ∧ slice_fits (rep_ (fm_largest p.2))) (ve_new_files e)
}.

(** No key is empty: an empty one cannot be encoded. *)
Definition keys_present (e : VersionEdit) : Prop :=
  Forall (λ p, rep_ p.2 ≠ []) (ve_compact_pointers e) ∧
  Forall (λ p, rep_ (fm_smallest p.2) ≠ [] ∧ rep_ (fm_largest p.2) ≠ []) (ve_new_files e).

(** The bytes take the loop from one edit to another, in as many rounds as fields. *)
Definition takes (input : list Z) (this this' : VersionEdit) : Prop :=
  ∃ n, (n ≤ length input)%nat ∧
    ∀ fuel rest, decode_fields (n + fuel) this (input ++ rest) = decode_fields fuel this' rest.

Lemma takes_nil this : takes [] this this.
Proof. by exists O. Qed.

Lemma takes_app a b this this' this'' : takes a this this' → takes b this' this'' → takes (a ++ b) this this''.
Proof.
  intros (n & Hn & Ha) (m & Hm & Hb). exists (n + m)%nat. rewrite length_app. split; [lia|].
  intros fuel rest. by rewrite <- app_assoc, <- Nat.add_assoc, Ha, Hb.
Qed.

Lemma takes_field tag body this this' :
  in_width 32 tag →
  (∀ rest, decode_field tag this (body ++ rest) = inl (this', rest)) →
  takes (EncodeVarint32 tag ++ body) this this'.
Proof.
  intros Ht Hf. exists 1%nat. split.
  - rewrite length_app. enough (1 ≤ length (EncodeVarint32 tag))%nat by lia.
    unfold EncodeVarint32. repeat case_match; cbn; lia.
  - intros fuel rest. cbn [Nat.add decode_fields]. rewrite <- app_assoc, GetVarint32_ok by done. by rewrite Hf.
Qed.

Lemma GetInternalKey_ok k rest :
  slice_fits (rep_ k) → GetInternalKey (PutLengthPrefixedSlice [] (rep_ k) ++ rest) = Some (k, rest).
Proof. intros Hk. unfold GetInternalKey. rewrite GetLengthPrefixedSlice_ok by done. by destruct k. Qed.

Lemma GetLevel_ok level rest :
  level_ok level → GetLevel (EncodeVarint32 (u32 level) ++ rest) = Some (level, rest).
Proof.
  unfold level_ok, kNumLevels. intros Hl. rewrite wrap_small by (unfold in_width; lia). unfold GetLevel.
  rewrite GetVarint32_ok by (unfold in_width; lia). unfold kNumLevels. by decide_test.
Qed.

Lemma Encode_ok key : rep_ key ≠ [] → Encode key = Ok (rep_ key).
Proof.
  intros Hk. unfold Encode. assert (length (rep_ key) ≠ 0)%nat by (by destruct (rep_ key)). by decide_test.
Qed.

(** The part of the encoding that a step writes. *)
Definition writes (f : list Z → list Z) (this this' : VersionEdit) : Prop :=
  ∀ dst, ∃ enc, f dst = dst ++ enc ∧ takes enc this this'.

Definition set_option {A : Type} (set : VersionEdit → A → VersionEdit) (o : option A) (this : VersionEdit) : VersionEdit :=
  match o with None => this | Some x => set this x end.

Lemma writes_number tag set num this :
  option_all (in_width 64) num → in_width 32 tag →
  (∀ input n rest, GetVarint64 input = Some (n, rest) → decode_field tag this input = inl (set this n, rest)) →
  writes (put_number tag num) this (set_option set num this).
Proof.
  intros Hn Ht Hd dst. destruct num as [n|]; cbn [put_number set_option option_all] in *.
  - exists (EncodeVarint32 tag ++ EncodeVarint64 n). split; [by unfold PutVarint64, PutVarint32; rewrite <- app_assoc|].
    apply takes_field; [done|]. intros rest. by apply Hd, GetVarint64_ok.
  - exists []. split; [by rewrite app_nil_r|apply takes_nil].
Qed.

Lemma writes_LogNumber num this :
  option_all (in_width 64) num → writes (put_number kLogNumber num) this (set_option SetLogNumber num this).
Proof. intros Hn. apply writes_number; [done..|]. intros input n rest E. cbv -[GetVarint64 SetLogNumber SetPrevLogNumber SetNextFile SetLastSequence]. by rewrite E. Qed.

Lemma writes_PrevLogNumber num this :
  option_all (in_width 64) num → writes (put_number kPrevLogNumber num) this (set_option SetPrevLogNumber num this).
Proof. intros Hn. apply writes_number; [done..|]. intros input n rest E. cbv -[GetVarint64 SetLogNumber SetPrevLogNumber SetNextFile SetLastSequence]. by rewrite E. Qed.

Lemma writes_NextFile num this :
  option_all (in_width 64) num → writes (put_number kNextFileNumber num) this (set_option SetNextFile num this).
Proof. intros Hn. apply writes_number; [done..|]. intros input n rest E. cbv -[GetVarint64 SetLogNumber SetPrevLogNumber SetNextFile SetLastSequence]. by rewrite E. Qed.

Lemma writes_LastSequence num this :
  option_all (in_width 64) num → writes (put_number kLastSequence num) this (set_option SetLastSequence num this).
Proof. intros Hn. apply writes_number; [done..|]. intros input n rest E. cbv -[GetVarint64 SetLogNumber SetPrevLogNumber SetNextFile SetLastSequence]. by rewrite E. Qed.

Lemma writes_comparator name this :
  option_all slice_fits name →
  writes (λ dst, match name with None => dst | Some n => PutLengthPrefixedSlice (PutVarint32 dst kComparator) n end)
    this (set_option SetComparatorName name this).
Proof.
  intros Hn dst. destruct name as [n|]; cbn [set_option option_all] in *.
  - exists (EncodeVarint32 kComparator ++ PutLengthPrefixedSlice [] n). split.
    { unfold PutLengthPrefixedSlice, PutVarint32. by rewrite <- !app_assoc. }
    apply takes_field; [done|]. intros rest. unfold decode_field, kComparator. cbn [Z.eqb Pos.eqb].
    by rewrite GetLengthPrefixedSlice_ok.
  - exists []. split; [by rewrite app_nil_r|apply takes_nil].
Qed.

(** *** The lists *)

Lemma writes_compact_pointers l this dst :
  Forall (λ p, level_ok p.1 ∧ slice_fits (rep_ p.2)) l → Forall (λ p : Z * InternalKey, rep_ p.2 ≠ []) l →
  ∃ enc, put_compact_pointers l dst = Ok (dst ++ enc) ∧
    takes enc this (fold_left (λ e p, SetCompactPointer e p.1 p.2) l this).
Proof.
  intros Hl Hk. revert this dst. induction Hl as [|[level key] l [Hlevel Hkey] _ IH]; intros this dst.
  { exists []. rewrite app_nil_r. split; [done|apply takes_nil]. }
  apply Forall_cons in Hk as [Hk Hks]. cbn [put_compact_pointers fold_left fst snd] in *. rewrite Encode_ok by done.
  cbn [mbind outcome_bind]. destruct (IH Hks (SetCompactPointer this level key)
    (PutLengthPrefixedSlice (PutVarint32 (PutVarint32 dst kCompactPointer) (u32 level)) (rep_ key))) as (enc & -> & Hr).
  exists ((EncodeVarint32 kCompactPointer ++ EncodeVarint32 (u32 level) ++ PutLengthPrefixedSlice [] (rep_ key)) ++ enc). split.
  { unfold PutLengthPrefixedSlice, PutVarint32. by rewrite <- !app_assoc. }
  eapply takes_app; [|exact Hr]. apply takes_field; [done|]. intros rest. unfold decode_field, kCompactPointer.
  cbn [Z.eqb Pos.eqb kComparator kLogNumber kPrevLogNumber kNextFileNumber kLastSequence].
  rewrite <- app_assoc, GetLevel_ok by done. cbn [mbind option_bind]. by rewrite GetInternalKey_ok.
Qed.

Lemma writes_deleted_files l this dst :
  Forall (λ d, level_ok d.1 ∧ in_width 64 d.2) l →
  ∃ enc, put_deleted_files l dst = dst ++ enc ∧
    takes enc this (fold_left (λ e d, VersionEdit_DeleteFile e d.1 d.2) l this).
Proof.
  intros Hl. revert this dst. induction Hl as [|[level n] l [Hlevel Hn] _ IH]; intros this dst.
  { exists []. rewrite app_nil_r. split; [done|apply takes_nil]. }
  unfold put_deleted_files in *. cbn [fold_left fst snd] in *.
  destruct (IH (VersionEdit_DeleteFile this level n)
    (PutVarint64 (PutVarint32 (PutVarint32 dst kDeletedFile) (u32 level)) n)) as (enc & -> & Hr).
  exists ((EncodeVarint32 kDeletedFile ++ EncodeVarint32 (u32 level) ++ EncodeVarint64 n) ++ enc). split.
  { unfold PutVarint64, PutVarint32. by rewrite <- !app_assoc. }
  eapply takes_app; [|exact Hr]. apply takes_field; [done|]. intros rest. unfold decode_field, kDeletedFile.
  cbn [Z.eqb Pos.eqb kComparator kLogNumber kPrevLogNumber kNextFileNumber kLastSequence kCompactPointer].
  rewrite <- app_assoc, GetLevel_ok by done. cbn [mbind option_bind]. by rewrite GetVarint64_ok.
Qed.

Lemma writes_new_files l this dst :
  Forall (λ p, level_ok p.1 ∧ in_width 64 (fm_number p.2) ∧ in_width 64 (fm_file_size p.2) ∧
    slice_fits (rep_ (fm_smallest p.2)) ∧ slice_fits (rep_ (fm_largest p.2))) l →
  Forall (λ p : Z * FileMetaData, rep_ (fm_smallest p.2) ≠ [] ∧ rep_ (fm_largest p.2) ≠ []) l →
  ∃ enc, put_new_files l dst = Ok (dst ++ enc) ∧ takes enc this (fold_left (λ e p, push_new_file e p.1 p.2) l this).
Proof.
  intros Hl Hk. revert this dst. induction Hl as [|[level f] l (Hlevel & Hn & Hsz & Hs & Hlg) _ IH]; intros this dst.
  { exists []. rewrite app_nil_r. split; [done|apply takes_nil]. }
  apply Forall_cons in Hk as [[Hk1 Hk2] Hks]. cbn [put_new_files fold_left fst snd] in *. rewrite !Encode_ok by done.
  cbn [mbind outcome_bind]. edestruct (IH Hks (push_new_file this level f)) as (enc & -> & Hr).
  exists ((EncodeVarint32 kNewFile ++ EncodeVarint32 (u32 level) ++ EncodeVarint64 (fm_number f) ++
    EncodeVarint64 (fm_file_size f) ++ PutLengthPrefixedSlice [] (rep_ (fm_smallest f)) ++
    PutLengthPrefixedSlice [] (rep_ (fm_largest f))) ++ enc). split.
  { unfold PutLengthPrefixedSlice, PutVarint64, PutVarint32. by rewrite <- !app_assoc. }
  eapply takes_app; [|exact Hr]. apply takes_field; [done|]. intros rest. unfold decode_field, kNewFile.
  cbn [Z.eqb Pos.eqb kComparator kLogNumber kPrevLogNumber kNextFileNumber kLastSequence kCompactPointer kDeletedFile].
  rewrite <- !app_assoc, GetLevel_ok by done. cbn [mbind option_bind]. do 2 (rewrite GetVarint64_ok by done; cbn [mbind option_bind]).
  do 2 (rewrite GetInternalKey_ok by done; cbn [mbind option_bind]). by destruct f.
Qed.

(** *** The whole edit *)

Lemma set_insert_last {A} (less : A → A → bool) x l :
  Forall (λ y, less y x = true ∧ less x y = false) l → set_insert less x l = l ++ [x].
Proof.
  induction 1 as [|y l [Hy Hx] _ IH]; [done|]. cbn [set_insert app]. by rewrite Hx, Hy, IH.
Qed.

Lemma pair_less_asym a b : pair_less a b = true → pair_less b a = false.
Proof. destruct a as [a1 a2], b as [b1 b2]. unfold pair_less. cbn [fst snd]. intros H. split_bool; decide_tests; lia. Qed.

(** The files deleted in their order come one behind the other. *)
Lemma deleted_again l this :
  StronglySorted (λ a b, pair_less a b = true) (ve_deleted_files this ++ l) →
  fold_left (λ e d, VersionEdit_DeleteFile e d.1 d.2) l this =
  {| ve_comparator := ve_comparator this; ve_log_number := ve_log_number this; ve_prev_log_number := ve_prev_log_number this;
     ve_next_file_number := ve_next_file_number this; ve_last_sequence := ve_last_sequence this;
     ve_compact_pointers := ve_compact_pointers this; ve_deleted_files := ve_deleted_files this ++ l;
     ve_new_files := ve_new_files this |}.
Proof.
  revert this. induction l as [|[level n] l IH]; intros this Hs; cbn [fold_left fst snd].
  { rewrite app_nil_r. by destruct this. }
  rewrite IH; unfold VersionEdit_DeleteFile; cbn [ve_comparator ve_log_number ve_prev_log_number ve_next_file_number
    ve_last_sequence ve_compact_pointers ve_deleted_files ve_new_files]; rewrite set_insert_last; rewrite <- ?app_assoc; try done.
  all: apply Forall_forall; intros y Hy; pose proof (StronglySorted_app_1_elem_of _ _ _ y (level, n) Hs Hy ltac:(by left));
    by split; [|apply pair_less_asym].
Qed.

Lemma pointers_again l this :
  fold_left (λ e p, SetCompactPointer e p.1 p.2) l this =
  {| ve_comparator := ve_comparator this; ve_log_number := ve_log_number this; ve_prev_log_number := ve_prev_log_number this;
     ve_next_file_number := ve_next_file_number this; ve_last_sequence := ve_last_sequence this;
     ve_compact_pointers := ve_compact_pointers this ++ l; ve_deleted_files := ve_deleted_files this;
     ve_new_files := ve_new_files this |}.
Proof.
  revert this. induction l as [|[level k] l IH]; intros this; cbn [fold_left fst snd].
  - rewrite app_nil_r. by destruct this.
  - rewrite IH. unfold SetCompactPointer. cbn. by rewrite <- app_assoc.
Qed.

Lemma files_again l this :
  fold_left (λ e p, push_new_file e p.1 p.2) l this =
  {| ve_comparator := ve_comparator this; ve_log_number := ve_log_number this; ve_prev_log_number := ve_prev_log_number this;
     ve_next_file_number := ve_next_file_number this; ve_last_sequence := ve_last_sequence this;
     ve_compact_pointers := ve_compact_pointers this; ve_deleted_files := ve_deleted_files this;
     ve_new_files := ve_new_files this ++ l |}.
Proof.
  revert this. induction l as [|[level f] l IH]; intros this; cbn [fold_left fst snd].
  - rewrite app_nil_r. by destruct this.
  - rewrite IH. unfold push_new_file. cbn. by rewrite <- app_assoc.
Qed.

(** What an edit becomes when its bytes are decoded into an object: the compaction
    pointers that the object had stay in front. *)
Definition decoded_into (this e : VersionEdit) : VersionEdit := {|
  ve_comparator := ve_comparator e; ve_log_number := ve_log_number e; ve_prev_log_number := ve_prev_log_number e;
  ve_next_file_number := ve_next_file_number e; ve_last_sequence := ve_last_sequence e;
  ve_compact_pointers := ve_compact_pointers this ++ ve_compact_pointers e;
  ve_deleted_files := ve_deleted_files e; ve_new_files := ve_new_files e
|}.

Lemma all_again this e :
  edit_typed e →
  fold_left (λ e p, push_new_file e p.1 p.2) (ve_new_files e)
    (fold_left (λ e d, VersionEdit_DeleteFile e d.1 d.2) (ve_deleted_files e)
      (fold_left (λ e p, SetCompactPointer e p.1 p.2) (ve_compact_pointers e)
        (set_option SetLastSequence (ve_last_sequence e) (set_option SetNextFile (ve_next_file_number e)
          (set_option SetPrevLogNumber (ve_prev_log_number e) (set_option SetLogNumber (ve_log_number e)
            (set_option SetComparatorName (ve_comparator e) (VersionEdit_Clear this)))))))) = decoded_into this e.
Proof.
  intros He. pose proof (et_deleted_sorted e He) as Hs. destruct e as [[] [] [] [] [] cp d nf];
    cbn [ve_comparator ve_log_number ve_prev_log_number ve_next_file_number ve_last_sequence ve_compact_pointers
      ve_deleted_files ve_new_files set_option] in *;
    rewrite files_again, pointers_again, deleted_again by exact Hs; reflexivity.
Qed.

Lemma writes_edit e this dst :
  edit_typed e → keys_present e →
  ∃ enc, VersionEdit_EncodeTo e dst = Ok (dst ++ enc) ∧ takes enc (VersionEdit_Clear this) (decoded_into this e).
Proof.
  intros [Hc H1 H2 H3 H4 Hp Hd Hds Hn] [Kp Kn]. unfold VersionEdit_EncodeTo.
  pose (s0 := set_option SetComparatorName (ve_comparator e) (VersionEdit_Clear this)).
  pose (s1 := set_option SetLogNumber (ve_log_number e) s0). pose (s2 := set_option SetPrevLogNumber (ve_prev_log_number e) s1).
  pose (s3 := set_option SetNextFile (ve_next_file_number e) s2). pose (s4 := set_option SetLastSequence (ve_last_sequence e) s3).
  destruct (writes_comparator _ (VersionEdit_Clear this) Hc dst) as (e0 & -> & T0).
  destruct (writes_LogNumber _ s0 H1 (dst ++ e0)) as (e1 & -> & T1).
  destruct (writes_PrevLogNumber _ s1 H2 ((dst ++ e0) ++ e1)) as (e2 & -> & T2).
  destruct (writes_NextFile _ s2 H3 (((dst ++ e0) ++ e1) ++ e2)) as (e3 & -> & T3).
  destruct (writes_LastSequence _ s3 H4 ((((dst ++ e0) ++ e1) ++ e2) ++ e3)) as (e4 & -> & T4).
  destruct (writes_compact_pointers _ s4 (((((dst ++ e0) ++ e1) ++ e2) ++ e3) ++ e4) Hp Kp) as (e5 & -> & T5).
  cbn [mbind outcome_bind]. pose (s5 := fold_left (λ e p, SetCompactPointer e p.1 p.2) (ve_compact_pointers e) s4).
  destruct (writes_deleted_files _ s5 ((((((dst ++ e0) ++ e1) ++ e2) ++ e3) ++ e4) ++ e5) Hd) as (e6 & -> & T6).
  pose (s6 := fold_left (λ e d, VersionEdit_DeleteFile e d.1 d.2) (ve_deleted_files e) s5).
  destruct (writes_new_files _ s6 (((((((dst ++ e0) ++ e1) ++ e2) ++ e3) ++ e4) ++ e5) ++ e6) Hn Kn) as (e7 & -> & T7).
  exists (e0 ++ e1 ++ e2 ++ e3 ++ e4 ++ e5 ++ e6 ++ e7). split; [by rewrite <- !app_assoc|].
  rewrite <- all_again by done. repeat (eapply takes_app; [eassumption|]). exact T7.
Qed.

Lemma edit_read_back this e :
  edit_typed e → keys_present e →
  ∃ record, VersionEdit_EncodeTo e [] = Ok record ∧
    VersionEdit_DecodeFrom this record = Ok (status_OK, decoded_into this e).
Proof.
  intros He Hk. destruct (writes_edit e this [] He Hk) as (enc & -> & n & Hn & Ht). exists enc. split; [done|].
  unfold VersionEdit_DecodeFrom. replace (S (length enc)) with (n + S (length enc - n))%nat by lia.
  rewrite <- (app_nil_r enc) at 2. rewrite Ht. reflexivity.
Qed.

(** ** Whatever is read is well formed *)

(** A part of the input that is left, with fewer bytes. *)
Definition shorter (rest input : Slice) : Prop := bytes rest ∧ (length rest < length input)%nat.
Definition no_longer (rest input : Slice) : Prop := bytes rest ∧ (length rest ≤ length input)%nat.

Lemma shorter_trans a b c : shorter a b → no_longer b c → shorter a c.
Proof. intros [Ha ?] [_ ?]. split; [done|lia]. Qed.

Lemma shorter_no_longer a b : shorter a b → no_longer a b.
Proof. intros [Ha ?]. split; [done|lia]. Qed.

Lemma in_width_lor w a b : 0 ≤ w → in_width w a → in_width w b → in_width w (Z.lor a b).
Proof.
  unfold in_width. intros Hw [Ha Ha'] [Hb Hb'].
  assert (0 ≤ Z.lor a b) as H0 by (by apply Z.lor_nonneg). split; [done|].
  apply Z.bounded_iff_bits_nonneg; [done..|]. intros i Hi. rewrite Z.lor_spec.
  rewrite (proj1 (Z.bounded_iff_bits_nonneg w a Hw Ha) Ha'), (proj1 (Z.bounded_iff_bits_nonneg w b Hw Hb) Hb') by done. done.
Qed.

Lemma get_varint_typed w n shift result p v q :
  0 ≤ w → in_width w result → bytes p → get_varint w n shift result p = Some (v, q) → in_width w v ∧ shorter q p.
Proof.
  intros Hw. revert shift result p. induction n as [|n IH]; intros shift result p Hr Hp; [done|].
  destruct Hp as [|b p Hb Hp]; [done|]. cbn [get_varint]. case_match.
  - intros E. apply IH in E as [Hv [Hq Hl]]; [|apply in_width_lor; [done..|by apply wrap_in_width]|done].
    split; [done|]. split; [done|]. cbn [length]. lia.
  - intros [= <- <-]. split; [apply in_width_lor; [done..|by apply wrap_in_width]|]. split; [done|]. cbn [length]. lia.
Qed.

Lemma GetVarint64_typed p v q : bytes p → GetVarint64 p = Some (v, q) → in_width 64 v ∧ shorter q p.
Proof. intros Hp. by apply get_varint_typed. Qed.

Lemma GetVarint32_typed p v q : bytes p → GetVarint32 p = Some (v, q) → in_width 32 v ∧ shorter q p.
Proof.
  intros Hp. unfold GetVarint32. rewrite GetVarint32Ptr_fallback; [by apply get_varint_typed|].
  intros b Hb. apply head_Some_elem_of in Hb. by apply (proj1 (Forall_forall _ _) Hp).
Qed.

Lemma GetLengthPrefixedSlice_typed p s q :
  bytes p → GetLengthPrefixedSlice p = (Some s, q) → (length s ≤ length p)%nat ∧ shorter q p.
Proof.
  intros Hp. unfold GetLengthPrefixedSlice. destruct (GetVarint32 p) as [[n rest]|] eqn:E; [|done].
  apply GetVarint32_typed in E as [_ [Hr Hl]]; [|done]. destruct (_ <=? _); [|done]. intros [= <- <-].
  rewrite length_take. split; [lia|]. split; [by apply Forall_drop|]. rewrite length_drop. lia.
Qed.

Lemma GetInternalKey_typed p k q :
  bytes p → GetInternalKey p = Some (k, q) → (length (rep_ k) ≤ length p)%nat ∧ shorter q p.
Proof.
  intros Hp. unfold GetInternalKey. destruct (GetLengthPrefixedSlice p) as [[s|] rest] eqn:E; [|done].
  intros [= <- <-]. by apply GetLengthPrefixedSlice_typed in E.
Qed.

Lemma GetLevel_typed p level q : bytes p → GetLevel p = Some (level, q) → level_ok level ∧ shorter q p.
Proof.
  intros Hp. unfold GetLevel. destruct (GetVarint32 p) as [[v rest]|] eqn:E; [|done].
  apply GetVarint32_typed in E as [[Hv _] Hr]; [|done]. destruct (Z.ltb_spec v kNumLevels); [|done].
  intros [= <- <-]. done.
Qed.

(** *** Sets stay sorted *)

Lemma pair_less_trans a b c : pair_less a b = true → pair_less b c = true → pair_less a c = true.
Proof.
  destruct a as [a1 a2], b as [b1 b2], c as [c1 c2]. unfold pair_less. cbn [fst snd]. intros H1 H2.
  split_bool; decide_tests; lia.
Qed.

Lemma set_insert_elem {A} (less : A → A → bool) x l y : y ∈ set_insert less x l → y = x ∨ y ∈ l.
Proof.
  induction l as [|z l IH]; cbn [set_insert]; [by intros ->%list_elem_of_singleton; left|].
  destruct (less x z); [rewrite elem_of_cons; tauto|]. destruct (less z x); [|tauto].
  rewrite !elem_of_cons. tauto.
Qed.

Lemma deleted_insert_sorted x l :
  StronglySorted (λ a b, pair_less a b = true) l → StronglySorted (λ a b, pair_less a b = true) (set_insert pair_less x l).
Proof.
  induction 1 as [|y l Hs IH Hy]; cbn [set_insert]; [repeat constructor|].
  destruct (pair_less x y) eqn:E; [constructor; [by constructor|constructor; [done|]]|].
  - eapply Forall_impl; [exact Hy|]. intros z Hz. by apply (pair_less_trans x y z).
  - destruct (pair_less y x) eqn:E'; [|by constructor]. constructor; [done|]. apply Forall_forall. intros z Hz.
    apply set_insert_elem in Hz as [->|Hz]; [done|]. by apply (proj1 (Forall_forall _ _) Hy).
Qed.

Lemma Forall_snoc {A} (P : A → Prop) l x : Forall P l → P x → Forall P (l ++ [x]).
Proof. intros Hl Hx. apply Forall_app_2; [done|by repeat constructor]. Qed.

(** What a round of the loop does to a well-formed edit. *)
Definition stays_typed (input : Slice) (r : (VersionEdit * Slice) + list Z) : Prop :=
  match r with inl (this, rest) => edit_typed this ∧ no_longer rest input | inr _ => True end.

Lemma number_typed set msg this input :
  bytes input → (∀ n, in_width 64 n → edit_typed (set n)) → edit_typed this →
  stays_typed input (match GetVarint64 input with Some (n, input) => inl (set n, input) | None => inr msg end).
Proof.
  intros Hb Hs Ht. destruct (GetVarint64 input) as [[n rest]|] eqn:E; [|done].
  apply GetVarint64_typed in E as [Hn Hr]; [|done]. split; [by apply Hs|by apply shorter_no_longer].
Qed.

Lemma decode_field_typed tag this input :
  bytes input → len input < 2 ^ 32 → edit_typed this → stays_typed input (decode_field tag this input).
Proof.
  intros Hb Hlen Ht. unfold decode_field. destruct (tag =? kComparator).
  { destruct (GetLengthPrefixedSlice input) as [[s|] rest] eqn:E; [|done].
    apply GetLengthPrefixedSlice_typed in E as [Hs Hr]; [|done]. split; [|by apply shorter_no_longer].
    destruct Ht. constructor; try done. cbn. unfold slice_fits. lia. }
  do 4 (match goal with |- context [if ?t then _ else _] => destruct t end;
    [apply (number_typed _ _ this); [done| |done]; intros n Hn; destruct Ht; by constructor|]).
  destruct (tag =? kCompactPointer).
  { destruct (GetLevel input) as [[level i1]|] eqn:E1; [|done]. cbn [mbind option_bind].
    apply GetLevel_typed in E1 as [Hl R1]; [|done]. destruct (GetInternalKey i1) as [[key i2]|] eqn:E2; [|done]. cbn.
    apply GetInternalKey_typed in E2 as [Hk R2]; [|apply R1]. split.
    - destruct Ht. constructor; try done. cbn. apply Forall_snoc; [done|]. unfold slice_fits. destruct R1. cbn. split; [done|lia].
    - apply shorter_no_longer. eapply shorter_trans; [exact R2|by apply shorter_no_longer]. }
  destruct (tag =? kDeletedFile).
  { destruct (GetLevel input) as [[level i1]|] eqn:E1; [|done]. cbn [mbind option_bind].
    apply GetLevel_typed in E1 as [Hl R1]; [|done]. destruct (GetVarint64 i1) as [[n i2]|] eqn:E2; [|done]. cbn.
    apply GetVarint64_typed in E2 as [Hn R2]; [|apply R1]. split.
    - destruct Ht. constructor; try done; cbn; [|by apply deleted_insert_sorted].
      apply Forall_forall. intros d Hd. apply set_insert_elem in Hd as [->|Hd]; [done|].
      by apply (proj1 (Forall_forall _ _) et_deleted_files0).
    - apply shorter_no_longer. eapply shorter_trans; [exact R2|by apply shorter_no_longer]. }
  destruct (tag =? kNewFile); [|done].
  destruct (GetLevel input) as [[level i1]|] eqn:E1; [|done]. cbn [mbind option_bind].
  apply GetLevel_typed in E1 as [Hl R1]; [|done]. destruct (GetVarint64 i1) as [[n i2]|] eqn:E2; [|done]. cbn [mbind option_bind].
  apply GetVarint64_typed in E2 as [Hn R2]; [|apply R1]. destruct (GetVarint64 i2) as [[sz i3]|] eqn:E3; [|done]. cbn [mbind option_bind].
  apply GetVarint64_typed in E3 as [Hsz R3]; [|apply R2]. destruct (GetInternalKey i3) as [[k1 i4]|] eqn:E4; [|done]. cbn [mbind option_bind].
  apply GetInternalKey_typed in E4 as [Hk1 R4]; [|apply R3]. destruct (GetInternalKey i4) as [[k2 i5]|] eqn:E5; [|done]. cbn [mbind option_bind].
  apply GetInternalKey_typed in E5 as [Hk2 R5]; [|apply R4]. destruct R1, R2, R3, R4. split.
  - destruct Ht. constructor; try done. cbn. apply Forall_snoc; [done|]. unfold slice_fits. cbn. split_and!; [done..|lia|lia].
  - destruct R5. split; [done|lia].
Qed.

Lemma decode_fields_typed fuel this input :
  bytes input → len input < 2 ^ 32 → edit_typed this → (length input < fuel)%nat →
  ∃ e msg rest, decode_fields fuel this input = Ok (e, msg, rest) ∧ edit_typed e.
Proof.
  revert this input. induction fuel as [|fuel IH]; intros this input Hb Hlen Ht Hf; [lia|]. cbn [decode_fields].
  destruct (GetVarint32 input) as [[tag i1]|] eqn:E; [|by eauto].
  apply GetVarint32_typed in E as [_ [Hb1 Hl1]]; [|done].
  pose proof (decode_field_typed tag this i1 Hb1 ltac:(lia) Ht) as Hd.
  destruct (decode_field tag this i1) as [[this' i2]|msg]; [|by eauto]. destruct Hd as [Ht' [Hb2 Hl2]].
  apply IH; [done|lia|done|lia].
Qed.

Lemma cleared_typed this :
  Forall (λ p, level_ok p.1 ∧ slice_fits (rep_ p.2)) (ve_compact_pointers this) → edit_typed (VersionEdit_Clear this).
Proof. intros H. constructor; cbn; try done; constructor. Qed.

Lemma decoded_into_new e : decoded_into new_VersionEdit e = e.
Proof. by destruct e. Qed.

(** ** Properties *)

(** C25: An edit whose fields have their widths is written as a record, and the record is
    read back as exactly that edit, into a new object; an object that was used before
    keeps its compaction pointers in front of those that are read. *)
Theorem VersionEdit_roundtrip e this :
  edit_typed e → keys_present e →
  ∃ record, VersionEdit_EncodeTo e [] = Ok record ∧
    VersionEdit_DecodeFrom new_VersionEdit record = Ok (status_OK, e) ∧
    VersionEdit_DecodeFrom this record = Ok (status_OK, decoded_into this e).
Proof.
  intros He Hk. destruct (writes_edit e this [] He Hk) as (record & E & _).
  destruct (edit_read_back new_VersionEdit e He Hk) as (r1 & E1 & D1), (edit_read_back this e He Hk) as (r2 & E2 & D2).
  exists record. rewrite E1 in E, E2. injection E as ->. injection E2 as <-. by rewrite decoded_into_new in D1.
Qed.

(** C26: Whatever the bytes of a record are, decoding them ends without a fault and leaves
    a well-formed edit: every level is one of the seven, numbers have 64 bits, the set of
    deleted files is sorted without duplicates.  Unless a key is empty the edit can be
    written again, and is read back as it is. *)
Theorem VersionEdit_DecodeFrom_typed src :
  bytes src → len src < 2 ^ 32 →
  ∃ s e, VersionEdit_DecodeFrom new_VersionEdit src = Ok (s, e) ∧ edit_typed e ∧
    (keys_present e → ∃ record, VersionEdit_EncodeTo e [] = Ok record ∧
      VersionEdit_DecodeFrom new_VersionEdit record = Ok (status_OK, e)).
Proof.
  intros Hb Hl. destruct (decode_fields_typed (S (length src)) (VersionEdit_Clear new_VersionEdit) src Hb Hl
    ltac:(by apply cleared_typed) ltac:(lia)) as (e & msg & rest & E & He).
  unfold VersionEdit_DecodeFrom at 1. rewrite E. cbn [mbind outcome_bind]. do 2 eexists. split; [done|]. split; [done|].
  intros Hk. destruct (edit_read_back new_VersionEdit e He Hk) as (record & E1 & D1). exists record.
  by rewrite decoded_into_new in D1.
Qed.

(** ** Witnesses *)

Definition sample_key (u : Z) (seq : Z) : InternalKey := {| rep_ := packed_key [u] seq kTypeValue |}.

Definition sample_edit : VersionEdit := {|
  ve_comparator := Some (text "leveldb.BytewiseComparator"); ve_log_number := Some 300; ve_prev_log_number := None;
  ve_next_file_number := Some (2 ^ 64 - 1); ve_last_sequence := Some 7;
  ve_compact_pointers := [(1, sample_key 97 5)]; ve_deleted_files := [(0, 12); (1, 3)];
  ve_new_files := [(2, {| fm_number := 13; fm_file_size := 4096; fm_smallest := sample_key 97 5; fm_largest := sample_key 98 1 |})]
|}.

Lemma sample_edit_typed : edit_typed sample_edit ∧ keys_present sample_edit.
Proof.
  split; [constructor|split]; cbn; unfold level_ok, slice_fits, in_width, kNumLevels; repeat constructor; try done; cbn; lia.
Qed.

Lemma VersionEdit_roundtrip_witness :
  ∃ record, VersionEdit_EncodeTo sample_edit [] = Ok record ∧
    VersionEdit_DecodeFrom sample_edit record = Ok (status_OK, decoded_into sample_edit sample_edit) ∧
    length (ve_compact_pointers (decoded_into sample_edit sample_edit)) = 2%nat.
Proof.
  destruct (VersionEdit_roundtrip sample_edit sample_edit (proj1 sample_edit_typed) (proj2 sample_edit_typed))
    as (record & E & _ & D).
  exists record. exact (conj E (conj D eq_refl)).
Defined.

Lemma VersionEdit_DecodeFrom_typed_witness :
  ∃ s e, VersionEdit_DecodeFrom new_VersionEdit [2; 5; 6; 8; 1] = Ok (s, e) ∧
    s = Corruption (text "VersionEdit") (text "deleted file") ∧ edit_typed e ∧ ve_log_number e = Some 5.
Proof.
  destruct (VersionEdit_DecodeFrom_typed [2; 5; 6; 8; 1] ltac:(repeat (apply Forall_cons_2; [unfold in_width; lia|]); constructor) ltac:(done)) as (s & e & E & He & _).
  exists s, e. assert (VersionEdit_DecodeFrom new_VersionEdit [2; 5; 6; 8; 1] =
    Ok (Corruption (text "VersionEdit") (text "deleted file"), SetLogNumber new_VersionEdit 5)) as E' by reflexivity.
  split; [exact E|]. rewrite E' in E. injection E as <- <-. exact (conj eq_refl (conj He eq_refl)).
Defined.
