(* ===== verification/LdbFilename.v ===== *)
(** * LevelDB, db/filename: the names of the files of a database

    Every name is made from a kind and a number, and is parsed back to them; so files of
    different kinds or numbers have different names. *)

From S2P Require Import Prelude LdbCoding LdbEnv.

Inductive FileType : Type :=
  kLogFile | kDBLockFile | kTableFile | kDescriptorFile | kCurrentFile | kTempFile | kInfoLogFile.

#[export] Instance FileType_eq_dec : EqDecision FileType.
Proof. solve_decision. Defined.

(** [%06llu] *)
Definition print_06 (number : Z) : list Z :=
  let ds := digits 20 number [] in replicate (6 - length ds) 48 ++ ds.

(** [snprintf(buf, sizeof(buf), "/%06llu.%s", ...)], cut to the size of the buffer. *)
Definition MakeFileName (dbname : Slice) (number : Z) (suffix : string) : list Z :=
  dbname ++ take 99 (text "/" ++ print_06 number ++ text "." ++ text suffix).

Definition LogFileName (dbname : Slice) (number : Z) : outcome (list Z) :=
  _ ← require (0 <? number) OutOfBounds; Ok (MakeFileName dbname number "log").

Definition TableFileName (dbname : Slice) (number : Z) : outcome (list Z) :=
  _ ← require (0 <? number) OutOfBounds; Ok (MakeFileName dbname number "ldb").

Definition SSTTableFileName (dbname : Slice) (number : Z) : outcome (list Z) :=
  _ ← require (0 <? number) OutOfBounds; Ok (MakeFileName dbname number "sst").

Definition DescriptorFileName (dbname : Slice) (number : Z) : outcome (list Z) :=
  _ ← require (0 <? number) OutOfBounds;
  Ok (dbname ++ take 99 (text "/MANIFEST-" ++ print_06 number)).

Definition CurrentFileName (dbname : Slice) : list Z := dbname ++ text "/CURRENT".
Definition LockFileName (dbname : Slice) : list Z := dbname ++ text "/LOCK".

Definition TempFileName (dbname : Slice) (number : Z) : outcome (list Z) :=
  _ ← require (0 <? number) OutOfBounds; Ok (MakeFileName dbname number "dbtmp").

Definition InfoLogFileName (dbname : Slice) : list Z := dbname ++ text "/LOG".
Definition OldInfoLogFileName (dbname : Slice) : list Z := dbname ++ text "/LOG.old".

(** Equality of slices. *)
Definition slice_eqb (a b : Slice) : bool := bool_decide (a = b).

(** The number and the type, when [true] is returned. *)
Definition ParseFileName (filename : Slice) : outcome (option (Z * FileType)) :=
  let rest := filename in
  if slice_eqb rest (text "CURRENT") then Ok (Some (0, kCurrentFile))
  else if slice_eqb rest (text "LOCK") then Ok (Some (0, kDBLockFile))
  else if slice_eqb rest (text "LOG") || slice_eqb rest (text "LOG.old") then Ok (Some (0, kInfoLogFile))
  else if starts_with rest (text "MANIFEST-") then
    rest ← remove_prefix rest (len (text "MANIFEST-"));
    match ConsumeDecimalNumber rest with
    | (true, Some num, rest) => Ok (if len rest =? 0 then Some (num, kDescriptorFile) else None)
    | _ => Ok None
    end
  else
    match ConsumeDecimalNumber rest with
    | (true, Some num, suffix) =>
        Ok (if slice_eqb suffix (text ".log") then Some (num, kLogFile)
            else if slice_eqb suffix (text ".sst") || slice_eqb suffix (text ".ldb") then Some (num, kTableFile)
            else if slice_eqb suffix (text ".dbtmp") then Some (num, kTempFile)
            else None)
    | _ => Ok None
    end.

(** ** Lemmas *)

Lemma decimal_from_zeros n ds : decimal_from 0 (replicate n 48 ++ ds) = decimal_from 0 ds.
Proof. induction n as [|n IH]; [done|]. exact IH. Qed.

(** The digits of a number are at most twenty. *)
Lemma length_digits fuel num acc : (length (digits fuel num acc) ≤ fuel + length acc)%nat.
Proof.
  revert num acc. induction fuel as [|fuel IH]; intros num acc; cbn [digits]; [lia|].
  destruct (num <? 10); [cbn; lia|]. etransitivity; [apply IH|]. cbn [length]. lia.
Qed.

Lemma print_06_ok n :
  in_width 64 n → ∃ ds, print_06 n = ds ∧ ds ≠ [] ∧ Forall is_decimal ds ∧ decimal_from 0 ds = n ∧ (length ds ≤ 20)%nat.
Proof.
  intros [H0 H1]. exists (print_06 n). split; [done|]. unfold print_06.
  destruct (digits_ok 20 n []) as (ds & E & Hne & Hd & Hv); [lia|lia|].
  pose proof (length_digits 20 n []) as Hl. rewrite app_nil_r in E. rewrite E in *. cbn [length] in Hl.
  split_and!.
  - by destruct (replicate _ _).
  - apply Forall_app. split; [|done]. apply Forall_replicate. unfold is_decimal. lia.
  - by rewrite decimal_from_zeros.
  - rewrite length_app, length_replicate. lia.
Qed.

Lemma consume_print n rest :
  in_width 64 n → ends_number rest → ConsumeDecimalNumber (print_06 n ++ rest) = (true, Some n, rest).
Proof.
  intros Hn Hr. destruct (print_06_ok n Hn) as (ds & -> & Hne & Hd & Hv & _). unfold in_width in Hn.
  unfold ConsumeDecimalNumber. rewrite consume_digits_ok by (done || lia). rewrite Hv. rewrite (proj2 (Z.ltb_lt _ _)) by lia.
  destruct ds as [|c ds]; [done|]. by rewrite (proj2 (Z.eqb_neq _ _)) by (cbn [length]; lia).
Qed.

(** Names that start with a digit are not those that are written out. *)
Lemma print_head n : in_width 64 n → ∃ c l, print_06 n = c :: l ∧ is_decimal c.
Proof.
  intros Hn. destruct (print_06_ok n Hn) as (ds & -> & Hne & Hd & _). destruct Hd as [|c l Hc _]; [done|]. eauto.
Qed.

Lemma slice_eqb_head c l d l' : c ≠ d → slice_eqb (c :: l) (d :: l') = false.
Proof. intros Hne. apply bool_decide_eq_false. by intros [= ?]. Qed.

Lemma starts_with_app x rest : starts_with (x ++ rest) x = true.
Proof.
  unfold starts_with. rewrite take_app_length, length_app. decide_test. cbn [andb].
  apply Z.eqb_eq. induction x as [|b x IH]; [done|]. cbn [memcmp]. by rewrite Z.ltb_irrefl.
Qed.

Lemma remove_prefix_app x rest : remove_prefix (x ++ rest) (len x) = Ok rest.
Proof.
  unfold remove_prefix. rewrite length_app, (proj2 (Z.leb_le _ _)) by lia. by rewrite Nat2Z.id, drop_app_length.
Qed.

(** ** Properties *)

(** The files of a database: the name, and what it stands for. *)
Inductive named_file (dbname : Slice) (n : Z) : list Z → Z → FileType → Prop :=
  | named_log name : LogFileName dbname n = Ok name → named_file dbname n name n kLogFile
  | named_table name : TableFileName dbname n = Ok name → named_file dbname n name n kTableFile
  | named_old_table name : SSTTableFileName dbname n = Ok name → named_file dbname n name n kTableFile
  | named_descriptor name : DescriptorFileName dbname n = Ok name → named_file dbname n name n kDescriptorFile
  | named_temporary name : TempFileName dbname n = Ok name → named_file dbname n name n kTempFile
  | named_current : named_file dbname n (CurrentFileName dbname) 0 kCurrentFile
  | named_lock : named_file dbname n (LockFileName dbname) 0 kDBLockFile
  | named_info_log : named_file dbname n (InfoLogFileName dbname) 0 kInfoLogFile
  | named_old_info_log : named_file dbname n (OldInfoLogFileName dbname) 0 kInfoLogFile.

(** A name made from a number is parsed by its suffix. *)
Lemma numbered_name_ok dbname n suffix t :
  in_width 64 n → (String.length suffix ≤ 5)%nat → ends_number (text "." ++ text suffix) →
  (∀ rest, ConsumeDecimalNumber rest = (true, Some n, text "." ++ text suffix) →
    match rest with c :: _ => is_decimal c | [] => False end → ParseFileName rest = Ok (Some (n, t))) →
  ∃ rest, MakeFileName dbname n suffix = dbname ++ 47 :: rest ∧ ParseFileName rest = Ok (Some (n, t)).
Proof.
  intros Hn Hs He Hp. exists (print_06 n ++ text "." ++ text suffix). split.
  - unfold MakeFileName. rewrite take_ge; [done|]. destruct (print_06_ok n Hn) as (ds & -> & _ & _ & _ & Hl).
    assert (length (text suffix) = String.length suffix) as Ht
      by (unfold text; rewrite length_map; clear; induction suffix; cbn; auto).
    rewrite !length_app, Ht. cbn. lia.
  - apply Hp; [by apply consume_print|]. destruct (print_head n Hn) as (c & l & -> & Hc). exact Hc.
Qed.

Lemma parse_numbered rest n suffix :
  ConsumeDecimalNumber rest = (true, Some n, suffix) → match rest with c :: _ => is_decimal c | [] => False end →
  ParseFileName rest =
    Ok (if slice_eqb suffix (text ".log") then Some (n, kLogFile)
        else if slice_eqb suffix (text ".sst") || slice_eqb suffix (text ".ldb") then Some (n, kTableFile)
        else if slice_eqb suffix (text ".dbtmp") then Some (n, kTempFile) else None).
Proof.
  intros Hc Hd. destruct rest as [|c rest]; [done|]. unfold is_decimal in Hd. unfold ParseFileName.
  assert (starts_with (c :: rest) (text "MANIFEST-") = false) as Hm.
  { unfold starts_with. destruct (_ <=? _) eqn:El; [|done]. cbn [length text map take andb memcmp].
    apply Z.eqb_neq. cbn. repeat case_match; split_bool; lia. }
  unfold text at 1 2 3 4. cbn [map String.list_ascii_of_string].
  rewrite !slice_eqb_head by (cbn; lia). cbn [orb]. by rewrite Hm, Hc.
Qed.

(** C27: Every name of a file of the database is the directory, a slash and a name that is
    parsed back to the kind and the number of the file, whatever the number is. *)
Theorem FileNames_parse dbname n name number t :
  0 < n < 2 ^ 64 → named_file dbname n name number t →
  ∃ base, name = dbname ++ 47 :: base ∧ ParseFileName base = Ok (Some (number, t)).
Proof.
  intros Hn Hf. assert (in_width 64 n) as Hw by (unfold in_width; lia).
  assert (∀ s name, (_ ← require (0 <? n) OutOfBounds; Ok (MakeFileName dbname n s)) = Ok name → name = MakeFileName dbname n s) as Hok.
  { intros s l. decide_test. by intros [= <-]. }
  destruct Hf as [name E|name E|name E|name E|name E| | | |]; try (apply Hok in E as ->; apply numbered_name_ok;
    [done|cbn; lia|unfold ends_number, is_decimal; cbn; lia|intros rest Hc Hd; by rewrite (parse_numbered _ _ _ Hc Hd)]).
  - unfold DescriptorFileName in E. rewrite (proj2 (Z.ltb_lt _ _)) in E by lia. cbn [require mbind outcome_bind] in E.
    injection E as <-. destruct (print_06_ok n Hw) as (ds & Hds & _ & _ & _ & Hl).
    exists (text "MANIFEST-" ++ print_06 n). split.
    + rewrite take_ge; [done|]. rewrite Hds. lia.
    + unfold ParseFileName. rewrite starts_with_app, remove_prefix_app. cbn [mbind outcome_bind].
      rewrite <- (app_nil_r (print_06 n)), consume_print by done. reflexivity.
  - exists (text "CURRENT"). done.
  - exists (text "LOCK"). done.
  - exists (text "LOG"). done.
  - exists (text "LOG.old"). done.
Qed.

Lemma FileNames_parse_witness :
  ∃ base, text "db/000012.ldb" = text "db" ++ 47 :: base ∧ ParseFileName base = Ok (Some (12, kTableFile)).
Proof. apply (FileNames_parse (text "db") 12 _ 12 kTableFile); [lia|]. apply named_table. reflexivity. Defined.
