(* ===== verification/LdbSkip.v ===== *)
(** * LevelDB, db/skiplist and util/random: the skip list

    Nodes with links on several levels, allocated one after the other and never removed.
    The insertion is cut at its atomic stores, so that readers may run between them. *)

From S2P Require Import Prelude.

(** ** util/random.h *)

Record Random : Type := { seed_ : Z }.

Definition new_Random (s : Z) : Random :=
  let seed := Z.land s 0x7fffffff in
  {| seed_ := if (seed =? 0) || (seed =? 2147483647) then 1 else seed |}.

Definition Random_Next (r : Random) : Z * Random :=
  let M := 2147483647 in
  let A := 16807 in
  let product := u64 (seed_ r * A) in
  let seed := u32 (Z.shiftr product 31 + Z.land product M) in
  let seed := if M <? seed then u32 (seed - M) else seed in
  (seed, {| seed_ := seed |}).

(** The arguments are positive; a remainder by zero would be undefined. *)
Definition Uniform (r : Random) (n : Z) : Z * Random := let '(v, r) := Random_Next r in (v mod n, r).
Definition OneIn (r : Random) (n : Z) : bool * Random := let '(v, r) := Random_Next r in (v mod n =? 0, r).
Definition Skewed (r : Random) (max_log : Z) : Z * Random :=
  let '(k, r) := Uniform r (max_log + 1) in Uniform r (Z.shiftl 1 k).

(** ** db/skiplist.h *)

(** The template parameters: a type of keys and its comparison. *)
Class KeyCompare (Key : Type) : Type := { compare_ : Key → Key → outcome Z; null_key : Key }.

Definition kMaxHeight : nat := 12.

Section skiplist.
Context {Key : Type} `{!KeyCompare Key}.

(** A link of a new node is not initialised: [None]. *)
Record Node : Type := { node_key : Key; next_ : list (option (option nat)) }.

(** The nodes by their addresses, [head_] being the first. *)
Record SkipList : Type := { nodes : list Node; max_height_ : nat; rnd_ : Random }.

Definition head_ : nat := 0.

Definition get_node (s : SkipList) (x : nat) : outcome Node :=
  match nodes s !! x with Some nd => Ok nd | None => Fault NullPointer end.

Definition Node_Next (s : SkipList) (x n : nat) : outcome (option nat) :=
  nd ← get_node s x;
  match next_ nd !! n with
  | Some (Some p) => Ok p
  | Some None => Fault Uninitialised
  | None => Fault OutOfBounds
  end.

Definition SetNext (s : SkipList) (x n : nat) (p : option nat) : outcome SkipList :=
  nd ← get_node s x;
  _ ← require (n <? length (next_ nd))%nat OutOfBounds;
  Ok {| nodes := <[x := {| node_key := node_key nd; next_ := <[n := Some p]> (next_ nd) |}]> (nodes s);
        max_height_ := max_height_ s; rnd_ := rnd_ s |}.

(** The node gets the next address. *)
Definition NewNode (s : SkipList) (key : Key) (height : nat) : nat * SkipList :=
  (length (nodes s),
   {| nodes := nodes s ++ [{| node_key := key; next_ := replicate height None |}];
      max_height_ := max_height_ s; rnd_ := rnd_ s |}).

(** The links of the head are set in the body of the constructor. *)
Definition new_SkipList : SkipList :=
  {| nodes := [{| node_key := null_key; next_ := replicate kMaxHeight (Some None) |}];
     max_height_ := 1; rnd_ := new_Random 0xdeadbeef |}.

Definition node_compare (s : SkipList) (n : nat) (key : Key) : outcome Z :=
  nd ← get_node s n; compare_ (node_key nd) key.

Definition KeyIsAfterNode (s : SkipList) (key : Key) (n : option nat) : outcome bool :=
  match n with
  | None => Ok false
  | Some n => c ← node_compare s n key; Ok (c <? 0)
  end.

(** [prev] is null, or an array of [kMaxHeight] pointers. *)
Definition set_prev (prev : option (list (option nat))) (level x : nat) : option (list (option nat)) :=
  match prev with Some l => Some (<[level := Some x]> l) | None => None end.

Fixpoint FindGreaterOrEqual_loop (fuel : nat) (s : SkipList) (key : Key) (x level : nat)
    (prev : option (list (option nat))) : outcome (option nat * option (list (option nat))) :=
  match fuel with
  | O => Fault Diverges
  | S fuel =>
      next ← Node_Next s x level;
      after ← KeyIsAfterNode s key next;
      match (if after : bool then next else None) with
      | Some next => FindGreaterOrEqual_loop fuel s key next level prev
      | None =>
          let prev := set_prev prev level x in
          match level with
          | O => Ok (next, prev)
          | S level => FindGreaterOrEqual_loop fuel s key x level prev
          end
      end
  end.

(** A search goes through every node and every level at most once. *)
Definition search_fuel (s : SkipList) : nat := S (length (nodes s) + kMaxHeight).

Definition FindGreaterOrEqual (s : SkipList) (key : Key) (prev : option (list (option nat))) :
    outcome (option nat * option (list (option nat))) :=
  FindGreaterOrEqual_loop (search_fuel s) s key head_ (max_height_ s - 1) prev.

Fixpoint FindLessThan_loop (fuel : nat) (s : SkipList) (key : Key) (x level : nat) : outcome nat :=
  match fuel with
  | O => Fault Diverges
  | S fuel =>
      below ← (if decide (x = head_) then Ok true else c ← node_compare s x key; Ok (c <? 0));
      _ ← require below OutOfBounds;
      next ← Node_Next s x level;
      stop ← (match next with None => Ok true | Some n => c ← node_compare s n key; Ok (0 <=? c) end);
      match (if stop : bool then None else next) with
      | Some next => FindLessThan_loop fuel s key next level
      | None => match level with O => Ok x | S level => FindLessThan_loop fuel s key x level end
      end
  end.

Definition FindLessThan (s : SkipList) (key : Key) : outcome nat :=
  FindLessThan_loop (search_fuel s) s key head_ (max_height_ s - 1).

Fixpoint FindLast_loop (fuel : nat) (s : SkipList) (x level : nat) : outcome nat :=
  match fuel with
  | O => Fault Diverges
  | S fuel =>
      next ← Node_Next s x level;
      match next with
      | Some next => FindLast_loop fuel s next level
      | None => match level with O => Ok x | S level => FindLast_loop fuel s x level end
      end
  end.

Definition FindLast (s : SkipList) : outcome nat :=
  FindLast_loop (search_fuel s) s head_ (max_height_ s - 1).

(** *** Insertion *)

Definition kBranching : Z := 4.

(** [room] is how much higher the node may get. *)
Fixpoint RandomHeight_loop (room height : nat) (rnd : Random) : nat * Random :=
  match room with
  | O => (height, rnd)
  | S room =>
      let '(v, rnd) := Random_Next rnd in
      if v mod kBranching =? 0 then RandomHeight_loop room (S height) rnd else (height, rnd)
  end.

Definition RandomHeight (rnd : Random) : nat * Random := RandomHeight_loop (kMaxHeight - 1) 1 rnd.

(** [for (int i = from; i < to; i++) prev[i] = head_], with [count] rounds left. *)
Fixpoint fill_prev (count from : nat) (prev : list (option nat)) : list (option nat) :=
  match count with O => prev | S count => fill_prev count (S from) (<[from := Some head_]> prev) end.

(** What the insertion reads before it writes: the predecessors and the height. *)
Definition begin_insert (s : SkipList) (key : Key) : outcome (list (option nat) * nat * Random) :=
  r ← FindGreaterOrEqual s key (Some (replicate kMaxHeight None));
  _ ← (match r.1 with
       | None => Ok tt
       | Some x => nd ← get_node s x; c ← compare_ key (node_key nd); require (negb (c =? 0)) OutOfBounds
       end);
  let '(height, rnd) := RandomHeight (rnd_ s) in
  let prev := default [] r.2 in
  let prev := fill_prev (height - max_height_ s) (max_height_ s) prev in
  Ok (prev, height, rnd).

(** [max_height_.store(height)], if the node is higher than the list. *)
Definition raise (s : SkipList) (height : nat) (rnd : Random) : SkipList :=
  {| nodes := nodes s;
     max_height_ := if (max_height_ s <? height)%nat then height else max_height_ s; rnd_ := rnd |}.

Definition prev_at (prev : list (option nat)) (i : nat) : outcome nat :=
  match prev !! i with
  | Some (Some p) => Ok p
  | Some None => Fault Uninitialised
  | None => Fault OutOfBounds
  end.

(** [x->NoBarrier_SetNext(i, prev[i]->NoBarrier_Next(i))] *)
Definition prepare (s : SkipList) (x : nat) (prev : list (option nat)) (i : nat) : outcome SkipList :=
  p ← prev_at prev i; next ← Node_Next s p i; SetNext s x i next.

(** [prev[i]->SetNext(i, x)] *)
Definition publish (s : SkipList) (x : nat) (prev : list (option nat)) (i : nat) : outcome SkipList :=
  p ← prev_at prev i; SetNext s p i (Some x).

(** The last loop of [Insert], with [count] levels left. *)
Fixpoint link_levels (count i : nat) (s : SkipList) (x : nat) (prev : list (option nat)) : outcome SkipList :=
  match count with
  | O => Ok s
  | S count =>
      s ← prepare s x prev i;
      s ← publish s x prev i;
      link_levels count (S i) s x prev
  end.

Definition Insert (s : SkipList) (key : Key) : outcome SkipList :=
  r ← begin_insert s key;
  let '(prev, height, rnd) := r in
  let s := raise s height rnd in
  let '(x, s) := NewNode s key height in
  link_levels height 0 s x prev.

Definition Contains (s : SkipList) (key : Key) : outcome bool :=
  r ← FindGreaterOrEqual s key None;
  match r.1 with
  | None => Ok false
  | Some x => nd ← get_node s x; c ← compare_ key (node_key nd); Ok (c =? 0)
  end.

(** *** [SkipList::Iterator] *)

Record SkipIterator : Type := { node_ : option nat }.

Definition new_SkipIterator : SkipIterator := {| node_ := None |}.
Definition skip_Valid (it : SkipIterator) : bool := match node_ it with Some _ => true | None => false end.

Definition skip_node (it : SkipIterator) : outcome nat :=
  match node_ it with Some x => Ok x | None => Fault OutOfBounds end.

Definition skip_key (s : SkipList) (it : SkipIterator) : outcome Key :=
  x ← skip_node it; nd ← get_node s x; Ok (node_key nd).

Definition skip_Next (s : SkipList) (it : SkipIterator) : outcome SkipIterator :=
  x ← skip_node it; next ← Node_Next s x 0; Ok {| node_ := next |}.

(** A node, or nothing for the head. *)
Definition not_head (x : nat) : SkipIterator := {| node_ := if decide (x = head_) then None else Some x |}.

Definition skip_Prev (s : SkipList) (it : SkipIterator) : outcome SkipIterator :=
  key ← skip_key s it; x ← FindLessThan s key; Ok (not_head x).

Definition skip_Seek (s : SkipList) (it : SkipIterator) (target : Key) : outcome SkipIterator :=
  r ← FindGreaterOrEqual s target None; Ok {| node_ := r.1 |}.

Definition skip_SeekToFirst (s : SkipList) (it : SkipIterator) : outcome SkipIterator :=
  next ← Node_Next s head_ 0; Ok {| node_ := next |}.

Definition skip_SeekToLast (s : SkipList) (it : SkipIterator) : outcome SkipIterator :=
  x ← FindLast s; Ok (not_head x).

End skiplist.

Arguments Node Key : clear implicits.
Arguments SkipList Key : clear implicits.

(** ** The random numbers *)

(** The generator of Park and Miller: multiplication modulo the prime 2^31 - 1. *)
Lemma Random_Next_mod r :
  1 ≤ seed_ r < 2147483647 →
  (Random_Next r).1 = seed_ r * 16807 mod 2147483647 ∧ 1 ≤ (Random_Next r).1 < 2147483647 ∧
  seed_ (Random_Next r).2 = (Random_Next r).1.
Proof.
  intros Hr. unfold Random_Next. set (s := seed_ r) in *. set (m := 2147483647).
  rewrite (wrap_small 64) by (unfold in_width; lia).
  assert (s * 16807 mod m ≠ 0) as Hnz.
  { intros Hz. apply Z.mod_divide in Hz; [|done]. rewrite Z.mul_comm in Hz. apply Z.gauss in Hz; [|by vm_compute].
    apply Z.divide_pos_le in Hz; lia. }
  set (product := s * 16807) in *. rewrite Z.shiftr_div_pow2 by lia. change (2 ^ 31) with (m + 1).
  assert (Z.land product m = product mod (m + 1)) as -> by (change m with (Z.ones 31) at 1; by rewrite Z.land_ones).
  set (q := product / (m + 1)). set (t := product mod (m + 1)).
  assert (product = (m + 1) * q + t) as Hdiv by (apply Z.div_mod; done).
  assert (0 ≤ t < m + 1) as Ht by (apply Z.mod_pos_bound; done).
  assert (0 ≤ q < 16807) as Hq by (unfold q, product; split; [apply Z.div_pos; lia|apply Z.div_lt_upper_bound; lia]).
  assert (product mod m = (q + t) mod m) as Hmod.
  { replace product with (q + t + q * m) by lia. by rewrite Z.mod_add. }
  rewrite Hmod in *. rewrite (wrap_small 32 (q + t)) by (unfold in_width; lia).
  destruct (Z.ltb_spec m (q + t)) as [Hlt|Hge].
  - rewrite wrap_small by (unfold in_width; lia).
    assert ((q + t) mod m = q + t - m) as E by (rewrite <- (Z.mod_add (q + t) (-1)) by done; apply Z.mod_small; lia).
    rewrite E in Hnz |- *. cbn [fst snd seed_]. split_and!; (done || lia).
  - assert (q + t ≠ m) as Hne by (intros E; rewrite E, Z.mod_same in Hnz by done; done).
    rewrite (Z.mod_small (q + t)) in Hnz |- * by lia. cbn [fst snd seed_]. split_and!; (done || lia).
Qed.

Lemma RandomHeight_bound rnd : (1 ≤ (RandomHeight rnd).1 ≤ kMaxHeight)%nat.
Proof.
  unfold RandomHeight. assert (∀ room height rnd,
    (height ≤ (RandomHeight_loop room height rnd).1 ≤ height + room)%nat) as Hb.
  { induction room as [|room IH]; intros height r; cbn [RandomHeight_loop]; [cbn; lia|].
    destruct (Random_Next r) as [v r']. destruct (_ =? 0); [|cbn; lia]. specialize (IH (S height) r'). lia. }
  specialize (Hb (kMaxHeight - 1)%nat 1%nat rnd). unfold kMaxHeight in *. lia.
Qed.

(** ** The order of the keys *)

(** The comparison is a total preorder on the keys that it is meant for. *)
Class KeyCompareLaws {Key : Type} `{!KeyCompare Key} : Type := {
  good : Key → Prop;
  kord : Key → Key → Z;
  compare_good a b : good a → good b → compare_ a b = Ok (kord a b);
  kord_flip a b : good a → good b → kord a b < 0 ↔ 0 < kord b a;
  kord_le_lt a b c : good a → good b → good c → kord a b ≤ 0 → kord b c < 0 → kord a c < 0
}.

Section order.
Context {Key : Type} `{KeyCompareLaws Key}.

Lemma kord_lt_le a b c : good a → good b → good c → kord a b < 0 → kord b c ≤ 0 → kord a c < 0.
Proof.
  intros Ha Hb Hc Hab Hbc. destruct (Z.lt_ge_cases (kord a c) 0) as [|Hge]; [done|exfalso].
  assert (kord c a ≤ 0) as Hca.
  { destruct (Z.le_gt_cases (kord c a) 0) as [|Hgt]; [done|]. apply kord_flip in Hgt; [lia|done|done]. }
  pose proof (kord_le_lt c a b Hc Ha Hb Hca Hab) as Hcb. apply kord_flip in Hcb; [lia|done|done].
Qed.

Lemma kord_irrefl a : good a → ~ kord a a < 0.
Proof. intros Ha Hlt. pose proof (proj1 (kord_flip a a Ha Ha) Hlt). lia. Qed.

Lemma kord_trans a b c : good a → good b → good c → kord a b < 0 → kord b c < 0 → kord a c < 0.
Proof. intros Ha Hb Hc Hab. apply kord_le_lt; [done..|lia]. Qed.

Lemma kord_ge a b : good a → good b → 0 ≤ kord a b ↔ kord b a ≤ 0.
Proof. intros Ha Hb. pose proof (kord_flip a b Ha Hb). pose proof (kord_flip b a Hb Ha). lia. Qed.

End order.

(** ** Levels as lists *)

Lemma sorted_across {A} (R : A → A → Prop) l1 l2 a b :
  StronglySorted R (l1 ++ l2) → a ∈ l1 → b ∈ l2 → R a b.
Proof.
  induction l1 as [|x l1 IH]; intros Hs Ha Hb; [by apply not_elem_of_nil in Ha|].
  cbn [app] in Hs. apply StronglySorted_inv in Hs as [Hs Hx]. apply elem_of_cons in Ha as [->|Ha]; [|by apply IH].
  apply (proj1 (Forall_forall _ _) Hx). apply elem_of_app. by right.
Qed.

Lemma sorted_right {A} (R : A → A → Prop) l1 l2 : StronglySorted R (l1 ++ l2) → StronglySorted R l2.
Proof. induction l1 as [|x l1 IH]; [done|]. intros Hs. apply IH. by apply StronglySorted_inv in Hs as [? _]. Qed.

Lemma sorted_left {A} (R : A → A → Prop) l1 l2 : StronglySorted R (l1 ++ l2) → StronglySorted R l1.
Proof.
  induction l1 as [|x l1 IH]; intros Hs; [constructor|]. cbn [app] in Hs. apply StronglySorted_inv in Hs as [Hs Hx].
  apply Forall_app in Hx as [Hx _]. constructor; [by apply IH|done].
Qed.

Lemma sorted_insert {A} (R : A → A → Prop) xs x ys :
  StronglySorted R (xs ++ ys) → Forall (λ a, R a x) xs → Forall (R x) ys → StronglySorted R (xs ++ x :: ys).
Proof.
  induction xs as [|a xs IH]; intros Hs Hx Hy; cbn [app] in *; [by constructor|].
  apply StronglySorted_inv in Hs as [Hs Ha]. apply Forall_cons in Hx as [Hax Hx]. constructor; [by apply IH|].
  apply Forall_app in Ha as [H1 H2]. apply Forall_app_2; [done|by constructor].
Qed.

Section levels.
Context {Key : Type} `{KeyCompareLaws Key}.

Implicit Types (s : SkipList Key) (x l : nat) (L : nat → list nat).

(** A link that is initialised. *)
Definition link s x l : option (option nat) :=
  nd ← nodes s !! x; p ← next_ nd !! l; p.

(** The key of a node; that of the head does not matter. *)
Definition kk s x : Key := match nodes s !! x with Some nd => node_key nd | None => null_key end.

Lemma Node_Next_link s x l p : link s x l = Some p → Node_Next s x l = Ok p.
Proof.
  unfold link, Node_Next, get_node. destruct (nodes s !! x) as [nd|]; [|done]. cbn [mbind option_bind outcome_bind].
  destruct (next_ nd !! l) as [q|]; [|done]. cbn. by intros ->.
Qed.

(** The links of one level from a node to the end. *)
Fixpoint chain s l x (xs : list nat) : Prop :=
  match xs with
  | [] => link s x l = Some None
  | y :: ys => link s x l = Some (Some y) ∧ chain s l y ys
  end.

(** The links up to the last node. *)
Fixpoint segment s l x (xs : list nat) : Prop :=
  match xs with
  | [] => True
  | y :: ys => link s x l = Some (Some y) ∧ segment s l y ys
  end.

Lemma last_cons (y : nat) xs x : List.last (y :: xs) x = List.last xs y.
Proof.
  assert (∀ d d', xs ≠ [] → List.last xs d = List.last xs d') as Hd.
  { induction xs as [|z xs IH]; intros d d' Hne; [done|]. cbn [List.last]. destruct xs; [done|]. by apply IH. }
  cbn [List.last]. destruct xs as [|z xs]; [done|]. by apply Hd.
Qed.

Lemma chain_app s l x xs ys : chain s l x (xs ++ ys) ↔ segment s l x xs ∧ chain s l (List.last xs x) ys.
Proof.
  revert x. induction xs as [|y xs IH]; intros x; [cbn; tauto|]. cbn [app chain segment]. rewrite IH.
  rewrite last_cons. tauto.
Qed.

Lemma chain_unique s l x xs ys : chain s l x xs → chain s l x ys → xs = ys.
Proof.
  revert x ys. induction xs as [|a xs IH]; intros x [|b ys]; cbn [chain]; [done|intros E1 [E2 _]; congruence|intros [E1 _] E2; congruence|].
  intros [E1 C1] [E2 C2]. assert (a = b) as -> by congruence. by rewrite (IH _ _ C1 C2).
Qed.

Definition below s (a b : nat) : Prop := kord (kk s a) (kk s b) < 0.

(** A well-formed list with the nodes of each level in order, without the head. *)
Record wf s L : Prop := {
  wf_chain l : (l < kMaxHeight)%nat → chain s l head_ (L l);
  wf_node l a : (l < kMaxHeight)%nat → a ∈ L l → (0 < a < length (nodes s))%nat ∧ good (kk s a);
  wf_sorted l : (l < kMaxHeight)%nat → StronglySorted (below s) (L l);
  wf_sub l a : (S l < kMaxHeight)%nat → a ∈ L (S l) → a ∈ L l;
  wf_high l : (max_height_ s ≤ l)%nat → (l < kMaxHeight)%nat → L l = [];
  wf_max : (1 ≤ max_height_ s ≤ kMaxHeight)%nat
}.

Lemma wf_sub_le s L l m a : wf s L → (l ≤ m < kMaxHeight)%nat → a ∈ L m → a ∈ L l.
Proof.
  intros Hwf [Hle Hm]. induction Hle as [|m Hle IH]; [done|]. intros Ha. apply IH; [lia|]. by apply (wf_sub _ _ Hwf).
Qed.

Lemma wf_new : wf new_SkipList (λ _, []).
Proof.
  split; try done; cbn.
  - intros l Hl. unfold kMaxHeight in Hl. do 12 (destruct l as [|l]; [done|]). lia.
  - intros l a _ Ha. by apply not_elem_of_nil in Ha.
  - intros l _. constructor.
  - unfold kMaxHeight. lia.
Qed.

(** *** Where a key belongs *)

(** A level divided at a key: what is below it, and the rest. *)
Definition divided s L (key : Key) l (A B : list nat) : Prop :=
  L l = A ++ B ∧ Forall (λ a, kord (kk s a) key < 0) A ∧ Forall (λ b, 0 ≤ kord (kk s b) key) B.

(** A node of a level with what is before and after it. *)
Definition standing s L l x (A B : list nat) : Prop := L l = A ++ B ∧ x = List.last A head_.

Lemma standing_exists s L l x : x = head_ ∨ x ∈ L l → ∃ A B, standing s L l x A B.
Proof.
  intros [->|Hx]; [by exists [], (L l)|]. apply list_elem_of_split in Hx as (A & B & Heq).
  exists (A ++ [x]), B. split; [by rewrite Heq, <- app_assoc|]. by rewrite last_last.
Qed.

(** A node below a key has only such nodes before it. *)
Lemma standing_below s L l x A B key :
  wf s L → (l < kMaxHeight)%nat → good key → standing s L l x A B → (x = head_ ∨ kord (kk s x) key < 0) →
  Forall (λ a, kord (kk s a) key < 0) A.
Proof.
  intros Hwf Hl Hkey [HL ->] Hx. destruct (decide (A = [])) as [->|Hne]; [done|].
  destruct (exists_last Hne) as (A' & y & ->). rewrite last_last in Hx.
  assert (∀ a, a ∈ A' ++ [y] → (0 < a < length (nodes s))%nat ∧ good (kk s a)) as Hnodes.
  { intros a Ha. apply (wf_node _ _ Hwf l); [done|]. rewrite HL. apply elem_of_app. by left. }
  assert (y ∈ A' ++ [y]) as Hy by (apply elem_of_app; right; by apply list_elem_of_singleton).
  destruct Hx as [->|Hx]; [apply Hnodes in Hy; unfold head_ in Hy; lia|].
  pose proof (wf_sorted _ _ Hwf l Hl) as Hs. rewrite HL, <- app_assoc in Hs. cbn [app] in Hs.
  apply Forall_app_2; [|by apply Forall_singleton]. apply Forall_forall. intros a Ha.
  assert (a ∈ A' ++ [y]) as Ha' by (apply elem_of_app; by left).
  eapply (kord_trans _ (kk s y)); [by apply Hnodes|by apply Hnodes|done| |exact Hx].
  exact (sorted_across (below s) _ _ _ _ Hs Ha (list_elem_of_here _ _)).
Qed.

(** What the link of a standing node shows. *)
Lemma standing_link s L l x A B :
  wf s L → (l < kMaxHeight)%nat → standing s L l x A B → link s x l = Some (head B).
Proof.
  intros Hwf Hl [HL ->]. pose proof (wf_chain _ _ Hwf l Hl) as Hc. rewrite HL in Hc. apply chain_app in Hc as [_ Hc].
  destruct B as [|b B]; cbn in Hc; [done|]. apply Hc.
Qed.

Lemma wf_get s L l a : wf s L → (l < kMaxHeight)%nat → a ∈ L l → ∃ nd, nodes s !! a = Some nd ∧ node_key nd = kk s a.
Proof.
  intros Hwf Hl Ha. destruct (wf_node _ _ Hwf l a Hl Ha) as [Hlt _]. destruct (lookup_lt_is_Some_2 (nodes s) a) as [nd Hnd]; [lia|].
  exists nd. unfold kk. by rewrite Hnd.
Qed.

Lemma node_compare_ok s L l a key :
  wf s L → (l < kMaxHeight)%nat → a ∈ L l → good key → node_compare s a key = Ok (kord (kk s a) key).
Proof.
  intros Hwf Hl Ha Hkey. unfold node_compare, get_node. destruct (wf_get s L l a Hwf Hl Ha) as (nd & -> & Hk).
  cbn [mbind outcome_bind]. rewrite Hk. apply compare_good; [|done]. by apply (wf_node _ _ Hwf l).
Qed.

(** A sorted level is divided where its head is not below. *)
Lemma divided_from s L l A B key :
  wf s L → (l < kMaxHeight)%nat → good key → L l = A ++ B → Forall (λ a, kord (kk s a) key < 0) A →
  (∀ b, head B = Some b → 0 ≤ kord (kk s b) key) → divided s L key l A B.
Proof.
  intros Hwf Hl Hkey HL HA HB. split; [done|]. split; [done|]. destruct B as [|b B]; [constructor|].
  pose proof (wf_sorted _ _ Hwf l Hl) as Hs. rewrite HL in Hs. apply sorted_right in Hs.
  apply StronglySorted_inv in Hs as [_ Hs]. specialize (HB b eq_refl). constructor; [done|].
  apply Forall_forall. intros c Hc. assert (c ∈ L l) as Hc' by (rewrite HL; apply elem_of_app; right; by right).
  assert (b ∈ L l) as Hb' by (rewrite HL; apply elem_of_app; right; by left).
  pose proof (proj1 (Forall_forall _ _) Hs c Hc) as Hbc. destruct (wf_node _ _ Hwf l b Hl Hb') as [_ Hgb].
  destruct (wf_node _ _ Hwf l c Hl Hc') as [_ Hgc]. apply kord_ge; [done|done|].
  apply Z.lt_le_incl. eapply kord_le_lt; [done|exact Hgb|done| |exact Hbc]. by apply kord_ge.
Qed.

(** *** Searching *)

Lemma last_or_in (A : list nat) d : List.last A d = d ∨ List.last A d ∈ A.
Proof.
  destruct (decide (A = [])) as [->|Hne]; [by left|]. right. destruct (exists_last Hne) as (A' & y & ->).
  rewrite last_last. apply elem_of_app. right. by apply list_elem_of_singleton.
Qed.

Lemma standing_in s L l x A B : standing s L l x A B → x = head_ ∨ x ∈ A ∧ x ∈ L l.
Proof.
  intros [HL ->]. destruct (last_or_in A head_) as [E|Hin]; [by left|]. right. split; [done|].
  rewrite HL. apply elem_of_app. by left.
Qed.

(** A step to the right brings the search closer to the end of the lowest level. *)
Lemma standing_right s L l x A y B A0 B0 :
  wf s L → (l < kMaxHeight)%nat → standing s L l x A (y :: B) → standing s L 0 x A0 B0 →
  ∃ A1 B1, standing s L 0 y A1 B1 ∧ (length B1 < length B0)%nat.
Proof.
  intros Hwf Hl Hs Hs0. pose proof Hs as [HL _]. pose proof Hs0 as [HL0 _].
  assert (y ∈ L l) as Hy by (rewrite HL; apply elem_of_app; right; by left).
  assert (y ∈ L 0%nat) as Hy0 by (by apply (wf_sub_le s L 0 l y Hwf); [lia|]).
  pose proof (wf_node _ _ Hwf l y Hl Hy) as [Hyn Hyg].
  assert (x = head_ ∨ kord (kk s x) (kk s y) < 0) as Hxy.
  { destruct (standing_in _ _ _ _ _ _ Hs) as [|[Hin _]]; [by left|right].
    pose proof (wf_sorted _ _ Hwf l Hl) as Hsort. rewrite HL in Hsort.
    exact (sorted_across (below s) _ _ _ _ Hsort Hin (list_elem_of_here _ _)). }
  pose proof (standing_below s L 0 x A0 B0 (kk s y) Hwf ltac:(unfold kMaxHeight; lia) Hyg Hs0 Hxy) as Hbelow.
  destruct (standing_exists s L 0 y (or_intror Hy0)) as (A1 & B1 & Hs1). exists A1, B1. split; [done|].
  pose proof Hs1 as [HL1 Heq]. assert (length A0 < length A1)%nat as Hlen.
  { destruct (Nat.lt_ge_cases (length A0) (length A1)) as [|Hge]; [done|exfalso].
    assert (y ∈ A0) as Hin.
    { destruct (standing_in _ _ _ _ _ _ Hs1) as [->|[Hin _]]; [unfold head_ in Hyn; lia|].
      rewrite HL0 in HL1. assert (take (length A1) A0 = A1) as E1.
      { rewrite <- (take_app_le A0 B0) by done. rewrite HL1. by rewrite take_app_length. }
      rewrite <- (take_drop (length A1) A0), E1. apply elem_of_app. by left. }
    exact (kord_irrefl _ Hyg (proj1 (Forall_forall _ _) Hbelow y Hin)). }
  rewrite HL0 in HL1. apply (f_equal length) in HL1. rewrite !length_app in HL1. lia.
Qed.

(** The predecessors that a search leaves in [prev]. *)
Definition prev_ok s L key (m : nat) (prev prev' : option (list (option nat))) : Prop :=
  match prev, prev' with
  | Some p, Some p' => length p' = length p ∧ (∀ j, (m < j)%nat → p' !! j = p !! j) ∧
      ∀ j, (j ≤ m)%nat → (j < length p)%nat →
        ∃ A B, divided s L key j A B ∧ p' !! j = Some (Some (List.last A head_))
  | None, None => True
  | _, _ => False
  end.

Lemma set_prev_ok s L key m x A B prev :
  divided s L key m A B → x = List.last A head_ → (m = 0)%nat → prev_ok s L key m prev (set_prev prev m x).
Proof.
  intros Hd -> ->. destruct prev as [p|]; [|done]. cbn. split; [by rewrite length_insert|]. split.
  - intros j Hj. by rewrite list_lookup_insert_ne by lia.
  - intros j Hj Hjp. assert (j = 0%nat) as -> by lia. exists A, B. split; [done|]. by rewrite list_lookup_insert_eq by done.
Qed.

Lemma prev_ok_down s L key m x A B prev prev' :
  divided s L key (S m) A B → x = List.last A head_ →
  prev_ok s L key m (set_prev prev (S m) x) prev' → prev_ok s L key (S m) prev prev'.
Proof.
  intros Hd -> Hp. destruct prev as [p|], prev' as [p'|]; cbn in Hp |- *; try done.
  destruct Hp as (Hlen & Hhigh & Hlow). rewrite length_insert in Hlen, Hlow. split; [done|]. split.
  - intros j Hj. rewrite Hhigh by lia. by rewrite list_lookup_insert_ne by lia.
  - intros j Hj Hjp. destruct (decide (j = S m)) as [->|Hne]; [|apply Hlow; lia].
    exists A, B. split; [done|]. rewrite Hhigh by lia. by rewrite list_lookup_insert_eq by done.
Qed.

Lemma KeyIsAfterNode_ok s L l x A B key :
  wf s L → (l < kMaxHeight)%nat → good key → standing s L l x A B →
  KeyIsAfterNode s key (head B) = Ok (match head B with Some b => kord (kk s b) key <? 0 | None => false end).
Proof.
  intros Hwf Hl Hkey [HL _]. unfold KeyIsAfterNode. destruct B as [|b B]; cbn [head]; [done|].
  rewrite (node_compare_ok s L l b key Hwf Hl) by (done || (rewrite HL; apply elem_of_app; right; by left)). done.
Qed.

Lemma standing_down s L l x A B : wf s L → (S l < kMaxHeight)%nat → standing s L (S l) x A B → ∃ A' B', standing s L l x A' B'.
Proof.
  intros Hwf Hl Hs. apply standing_exists. destruct (standing_in _ _ _ _ _ _ Hs) as [|[_ Hin]]; [by left|right].
  by apply (wf_sub _ _ Hwf).
Qed.

Lemma FindGreaterOrEqual_loop_ok s L key fuel x l prev A B A0 B0 :
  wf s L → good key → (l < kMaxHeight)%nat → standing s L l x A B → standing s L 0 x A0 B0 →
  (x = head_ ∨ kord (kk s x) key < 0) → (length B0 + l < fuel)%nat →
  ∃ prev' A' B', FindGreaterOrEqual_loop fuel s key x l prev = Ok (head B', prev') ∧
    divided s L key 0 A' B' ∧ prev_ok s L key l prev prev'.
Proof.
  intros Hwf Hkey. revert x l prev A B A0 B0.
  induction fuel as [|fuel IH]; intros x l prev A B A0 B0 Hl Hs Hs0 Hx Hf; [lia|]. cbn [FindGreaterOrEqual_loop].
  rewrite (Node_Next_link _ _ _ _ (standing_link s L l x A B Hwf Hl Hs)). cbn [mbind outcome_bind].
  rewrite (KeyIsAfterNode_ok s L l x A B key Hwf Hl Hkey Hs). cbn [mbind outcome_bind].
  pose proof Hs as [HL Hxl]. pose proof (standing_below s L l x A B key Hwf Hl Hkey Hs Hx) as HA.
  assert ((∃ y B', B = y :: B' ∧ kord (kk s y) key < 0) ∨
    (∀ b, head B = Some b → 0 ≤ kord (kk s b) key) ∧
    (if match head B with Some b => kord (kk s b) key <? 0 | None => false end then head B else None) = None) as [Hright|[Hstop ->]].
  { destruct B as [|y B']; cbn [head]; [by right|]. destruct (Z.ltb_spec (kord (kk s y) key) 0) as [Hlt|Hge].
    - left. by exists y, B'.
    - right. split; [|done]. by intros b [= <-]. }
  - destruct Hright as (y & B' & -> & Hlt). cbn [head]. rewrite (proj2 (Z.ltb_lt _ _) Hlt).
    destruct (standing_right s L l x A y B' A0 B0 Hwf Hl Hs Hs0) as (A1 & B1 & Hs1 & Hlen).
    apply (IH y l prev (A ++ [y]) B' A1 B1); [done| |done|by right|lia].
    split; [by rewrite HL, <- app_assoc|by rewrite last_last].
  - pose proof (divided_from s L l A B key Hwf Hl Hkey HL HA Hstop) as Hd. destruct l as [|l].
    + eexists _, A, B. split; [done|]. split; [done|]. by apply (set_prev_ok s L key 0 x A B).
    + destruct (standing_down s L l x A B Hwf Hl Hs) as (A1 & B1 & Hs1).
      destruct (IH x l (set_prev prev (S l) x) A1 B1 A0 B0) as (prev' & A' & B' & E & Hd' & Hp);
        [lia|done|done|done|lia|]. exists prev', A', B'. split; [done|]. split; [done|].
      by eapply prev_ok_down.
Qed.

Lemma level_length s L l : wf s L → (l < kMaxHeight)%nat → (length (L l) ≤ length (nodes s))%nat.
Proof.
  intros Hwf Hl. rewrite <- (length_seq (length (nodes s)) 0). apply submseteq_length, NoDup_submseteq.
  - pose proof (wf_sorted _ _ Hwf l Hl) as Hs. assert (∀ a, a ∈ L l → good (kk s a)) as Hg by (intros a Ha; by apply (wf_node _ _ Hwf l)).
    induction Hs as [|a xs Hs IH Ha]; [constructor|]. constructor; [|by apply IH; intros; apply Hg; right].
    intros Hin. exact (kord_irrefl _ (Hg a (list_elem_of_here _ _)) (proj1 (Forall_forall _ _) Ha a Hin)).
  - intros a Ha. apply elem_of_seq. pose proof (proj1 (wf_node _ _ Hwf l a Hl Ha)). lia.
Qed.

(** The search finds where a key belongs on the lowest level; when it is given an array it
    leaves the predecessors on all the levels there. *)
Lemma FindGreaterOrEqual_ok s L key prev :
  wf s L → good key →
  ∃ prev' A B, FindGreaterOrEqual s key prev = Ok (head B, prev') ∧ divided s L key 0 A B ∧
    prev_ok s L key (max_height_ s - 1) prev prev'.
Proof.
  intros Hwf Hkey. pose proof (wf_max _ _ Hwf) as Hmax. unfold FindGreaterOrEqual.
  pose proof (level_length s L 0 Hwf ltac:(unfold kMaxHeight; lia)).
  apply (FindGreaterOrEqual_loop_ok s L key (search_fuel s) head_ (max_height_ s - 1) prev [] (L (max_height_ s - 1)%nat) [] (L 0%nat));
    [done|done|lia|done|done|by left|]. unfold search_fuel. lia.
Qed.

(** *** Stores *)

(** One link has changed. *)
Record stored s x n (p : option nat) s' : Prop := {
  stored_link y l : link s' y l = if decide (y = x ∧ l = n) then Some p else link s y l;
  stored_kk a : kk s' a = kk s a;
  stored_length : length (nodes s') = length (nodes s);
  stored_height a nd : nodes s !! a = Some nd →
    ∃ nd', nodes s' !! a = Some nd' ∧ length (next_ nd') = length (next_ nd);
  stored_max : max_height_ s' = max_height_ s
}.

Lemma SetNext_ok s x n p nd :
  nodes s !! x = Some nd → (n < length (next_ nd))%nat → ∃ s', SetNext s x n p = Ok s' ∧ stored s x n p s'.
Proof.
  intros Hnd Hn. pose proof (lookup_lt_Some _ _ _ Hnd) as Hx. unfold SetNext, get_node. rewrite Hnd. cbn [mbind outcome_bind].
  rewrite (proj2 (Nat.ltb_lt _ _) Hn). cbn [require mbind outcome_bind]. eexists. split; [done|]. split.
  - intros y l. unfold link. cbn [nodes]. destruct (decide (y = x)) as [->|Hy].
    + rewrite list_lookup_insert_eq by done. rewrite Hnd. cbn [mbind option_bind next_].
      destruct (decide (l = n)) as [->|Hl].
      * rewrite decide_True by done. by rewrite list_lookup_insert_eq by done.
      * rewrite decide_False by tauto. by rewrite list_lookup_insert_ne by done.
    + rewrite decide_False by tauto. by rewrite list_lookup_insert_ne by done.
  - intros a. unfold kk. cbn [nodes]. destruct (decide (a = x)) as [->|Ha].
    + by rewrite list_lookup_insert_eq, Hnd by done.
    + by rewrite list_lookup_insert_ne by done.
  - by cbn; rewrite length_insert.
  - intros a nd' Ha. cbn [nodes]. destruct (decide (a = x)) as [->|Hne].
    + rewrite list_lookup_insert_eq by done. eexists. split; [done|]. cbn. rewrite length_insert. congruence.
    + rewrite list_lookup_insert_ne by done. by exists nd'.
  - done.
Qed.

Lemma link_node s x l p : link s x l = Some p → ∃ nd, nodes s !! x = Some nd ∧ (l < length (next_ nd))%nat.
Proof.
  unfold link. destruct (nodes s !! x) as [nd|]; [|done]. cbn. intros Hl. exists nd. split; [done|].
  destruct (next_ nd !! l) eqn:E; [|done]. by eapply lookup_lt_Some.
Qed.

Lemma chain_frame s s' l x xs :
  (∀ a, a = x ∨ a ∈ xs → link s' a l = link s a l) → chain s l x xs → chain s' l x xs.
Proof.
  revert x. induction xs as [|y xs IH]; intros x Hf; cbn [chain].
  - by rewrite Hf by by left.
  - rewrite Hf by by left. intros [Hl Hc]. split; [done|]. apply IH; [|done].
    intros a Ha. apply Hf. right. apply elem_of_cons. destruct Ha as [->|Ha]; [by left|by right].
Qed.

Lemma segment_frame s s' l x xs :
  NoDup (x :: xs) → (∀ a, a = x ∨ a ∈ xs → a ≠ List.last xs x → link s' a l = link s a l) → segment s l x xs → segment s' l x xs.
Proof.
  revert x. induction xs as [|y xs IH]; intros x Hnd Hf; cbn [segment]; [done|].
  rewrite last_cons in Hf. apply NoDup_cons in Hnd as [Hx Hnd]. intros [Hl Hs]. split.
  - rewrite Hf; [done|by left|]. intros ->. apply Hx. destruct (last_or_in xs y) as [->|]; [by left|by right].
  - apply IH; [done| |done]. intros a Ha. apply Hf. right. apply elem_of_cons. destruct Ha as [->|Ha]; [by left|by right].
Qed.

Lemma sorted_kk s s' xs :
  (∀ a, a ∈ xs → kk s' a = kk s a) → StronglySorted (below s) xs → StronglySorted (below s') xs.
Proof.
  intros Hk Hs. induction Hs as [|a xs Hs IH Ha]; [constructor|].
  constructor; [apply IH; intros b Hb; apply Hk; by right|]. apply Forall_forall. intros b Hb. unfold below.
  rewrite (Hk a (list_elem_of_here _ _)), (Hk b) by by right. by apply (proj1 (Forall_forall _ _) Ha).
Qed.

(** A list with the same links where they matter. *)
Lemma wf_frame s s' L :
  wf s L → (∀ a, (a < length (nodes s))%nat → kk s' a = kk s a) → (length (nodes s) ≤ length (nodes s'))%nat →
  (max_height_ s ≤ max_height_ s' ≤ kMaxHeight)%nat →
  (∀ l a, (l < kMaxHeight)%nat → a = head_ ∨ a ∈ L l → link s' a l = link s a l) → wf s' L.
Proof.
  intros Hwf Hkk Hlen Hmax Hlink. pose proof (wf_max _ _ Hwf) as Hm. split.
  - intros l Hl. eapply chain_frame; [|by apply (wf_chain _ _ Hwf)]. intros a Ha. by apply Hlink.
  - intros l a Hl Ha. destruct (wf_node _ _ Hwf l a Hl Ha) as [? ?]. split; [lia|]. by rewrite Hkk by lia.
  - intros l Hl. apply (sorted_kk s); [|by apply (wf_sorted _ _ Hwf)].
    intros a Ha. apply Hkk. by apply (wf_node _ _ Hwf l a Hl Ha).
  - apply (wf_sub _ _ Hwf).
  - intros l Hl. apply (wf_high _ _ Hwf). lia.
  - lia.
Qed.

(** *** What the insertion reads *)

(** The level divided strictly at the key, and the predecessor in [prev]. *)
Definition splits_at s L key (prev : list (option nat)) j : Prop :=
  ∃ A B, L j = A ++ B ∧ prev !! j = Some (Some (List.last A head_)) ∧
    Forall (λ a, kord (kk s a) key < 0) A ∧ Forall (λ b, kord key (kk s b) < 0) B.

Lemma fill_prev_lookup count from prev j :
  (from + count ≤ length prev)%nat →
  length (fill_prev count from prev) = length prev ∧
  fill_prev count from prev !! j = if decide (from ≤ j < from + count)%nat then Some (Some head_) else prev !! j.
Proof.
  revert from prev. induction count as [|count IH]; intros from prev Hlen; cbn [fill_prev].
  - rewrite decide_False by lia. done.
  - destruct (IH (S from) (<[from := Some head_]> prev)) as [H1 H2]; [rewrite length_insert; lia|].
    rewrite length_insert in H1. split; [done|]. rewrite H2. destruct (decide (j = from)) as [->|Hne].
    + rewrite decide_False, decide_True by lia. rewrite list_lookup_insert_eq by lia. done.
    + rewrite list_lookup_insert_ne by done. destruct (decide (S from ≤ j < S from + count)%nat), (decide (from ≤ j < from + S count)%nat); (done || lia).
Qed.

(** No node compares equal to the key. *)
Definition fresh s L key : Prop := Forall (λ a, kord (kk s a) key ≠ 0) (L 0%nat).

(** A search in a list without the key divides all the levels strictly. *)
Lemma divided_strict s L key l A B :
  wf s L → (l < kMaxHeight)%nat → good key → fresh s L key → divided s L key l A B →
  Forall (λ b, kord key (kk s b) < 0) B.
Proof.
  intros Hwf Hl Hkey Hfresh (HL & _ & HB). apply Forall_forall. intros b Hb.
  assert (b ∈ L l) as Hbl by (rewrite HL; apply elem_of_app; by right).
  assert (b ∈ L 0%nat) as Hb0 by (by apply (wf_sub_le s L 0 l b Hwf); [lia|]).
  pose proof (proj1 (Forall_forall _ _) HB b Hb) as Hge. pose proof (proj1 (Forall_forall _ _) Hfresh b Hb0) as Hne. cbn in Hge, Hne.
  apply kord_flip; [done|by apply (wf_node _ _ Hwf l)|lia].
Qed.

Lemma begin_insert_ok s L key :
  wf s L → good key → fresh s L key →
  ∃ prev height rnd, begin_insert s key = Ok (prev, height, rnd) ∧ (1 ≤ height ≤ kMaxHeight)%nat ∧
    ∀ j, (j < height)%nat → splits_at s L key prev j.
Proof.
  intros Hwf Hkey Hfresh. unfold begin_insert. pose proof (wf_max _ _ Hwf) as Hmax.
  destruct (FindGreaterOrEqual_ok s L key (Some (replicate kMaxHeight None)) Hwf Hkey) as (prev' & A & B & -> & Hd & Hp).
  cbn [mbind outcome_bind fst snd]. destruct prev' as [prev'|]; [|done]. unfold prev_ok in Hp. rewrite length_replicate in Hp.
  destruct Hp as (Hlen & _ & Hp). pose proof (divided_strict s L key 0 A B Hwf ltac:(unfold kMaxHeight; lia) Hkey Hfresh Hd) as HB.
  assert ((match head B with None => Ok tt | Some x => nd ← get_node s x; c ← compare_ key (node_key nd); require (negb (c =? 0)) OutOfBounds end) = Ok tt) as ->.
  { destruct B as [|b B]; [done|]. cbn [head]. destruct Hd as (HL & _ & _).
    assert (b ∈ L 0%nat) as Hb by (rewrite HL; apply elem_of_app; right; by left).
    destruct (wf_get s L 0 b Hwf ltac:(unfold kMaxHeight; lia) Hb) as (nd & Hnd & Hk). unfold get_node. rewrite Hnd. cbn [mbind outcome_bind].
    rewrite Hk, compare_good; [|done|by apply (wf_node _ _ Hwf 0); [unfold kMaxHeight; lia|]]. cbn [mbind outcome_bind].
    apply Forall_cons in HB as [HB _]. cbn in HB. by rewrite (proj2 (Z.eqb_neq _ _)) by lia. }
  cbn [mbind outcome_bind]. destruct (RandomHeight (rnd_ s)) as [height rnd] eqn:Eh.
  pose proof (RandomHeight_bound (rnd_ s)) as Hh. rewrite Eh in Hh. cbn [fst] in Hh. eexists _, height, rnd.
  split; [done|]. split; [done|]. intros j Hj. change (default [] (Some prev')) with prev'.
  destruct (fill_prev_lookup (height - max_height_ s) (max_height_ s) prev' j) as [_ Hfill]; [lia|].
  unfold splits_at. rewrite Hfill. destruct (decide (max_height_ s ≤ j < max_height_ s + (height - max_height_ s))%nat) as [Hhigh|Hlow].
  - exists [], []. rewrite (wf_high _ _ Hwf j) by lia. by split_and!.
  - destruct (Hp j) as (Aj & Bj & Hdj & Hpj); [lia|lia|]. exists Aj, Bj. pose proof Hdj as (HLj & HAj & _).
    split_and!; try done. by apply (divided_strict s L key j Aj Bj Hwf ltac:(lia)).
Qed.

(** The assertion of the insertion means that the key is new. *)
Lemma begin_insert_fresh s L key r : wf s L → good key → begin_insert s key = Ok r → fresh s L key.
Proof.
  intros Hwf Hkey. unfold begin_insert.
  destruct (FindGreaterOrEqual_ok s L key (Some (replicate kMaxHeight None)) Hwf Hkey) as (prev' & A & B & -> & Hd & _).
  cbn [mbind outcome_bind fst snd]. intros Hr. destruct Hd as (HL & HA & HB). unfold fresh. rewrite HL.
  assert (∀ a, a ∈ A ++ B → good (kk s a)) as Hgood.
  { intros a Ha. rewrite <- HL in Ha. by apply (wf_node _ _ Hwf 0 a); [unfold kMaxHeight; lia|]. }
  apply Forall_app_2; [by eapply Forall_impl; [exact HA|cbn; lia]|].
  destruct B as [|b B]; [constructor|]. cbn [head] in Hr.
  assert (b ∈ L 0%nat) as Hb by (rewrite HL; apply elem_of_app; right; by left).
  assert (good (kk s b)) as Hgb by (apply Hgood; apply elem_of_app; right; by left).
  destruct (wf_get s L 0 b Hwf ltac:(unfold kMaxHeight; lia) Hb) as (nd & Hnd & Hk).
  unfold get_node in Hr. rewrite Hnd in Hr. cbn [mbind outcome_bind] in Hr. rewrite Hk, compare_good in Hr by done.
  cbn [mbind outcome_bind] in Hr. destruct (Z.eqb_spec (kord key (kk s b)) 0) as [E|E]; [done|].
  apply Forall_cons in HB as [Hge HB]. cbn in Hge.
  assert (kord key (kk s b) < 0) as Hlt by (apply kord_ge in Hge; [lia|done|done]).
  pose proof (wf_sorted _ _ Hwf 0 ltac:(unfold kMaxHeight; lia)) as Hs. rewrite HL in Hs. apply sorted_right in Hs.
  apply StronglySorted_inv in Hs as [_ Hs]. constructor.
  - pose proof (proj1 (kord_flip key (kk s b) Hkey Hgb) Hlt). cbn. lia.
  - apply Forall_forall. intros c Hc. cbn. assert (good (kk s c)) as Hgc by (apply Hgood; apply elem_of_app; right; by right).
    pose proof (proj1 (Forall_forall _ _) Hs c Hc) as Hbc. unfold below in Hbc.
    pose proof (kord_trans _ _ _ Hkey Hgb Hgc Hlt Hbc) as Hkc.
    pose proof (proj1 (kord_flip key (kk s c) Hkey Hgc) Hkc). lia.
Qed.

(** *** The insertion on its way *)

(** The node [x] is linked on the levels below [i]; on level [i] its own link may be set. *)
Record inserting s L key x (prev : list (option nat)) (i height : nat) (prepared : bool) : Prop := {
  inserting_wf : wf s L;
  inserting_key : good key ∧ kk s x = key;
  inserting_node : (0 < x)%nat ∧ ∃ nd, nodes s !! x = Some nd ∧ length (next_ nd) = height;
  inserting_height : (i ≤ height ≤ max_height_ s)%nat;
  inserting_linked j : (j < i)%nat → x ∈ L j;
  inserting_free j : (i ≤ j < kMaxHeight)%nat → x ∉ L j;
  inserting_splits j : (i ≤ j < height)%nat → splits_at s L key prev j;
  inserting_prepared : prepared = true → (i < height)%nat ∧
    ∃ A B, L i = A ++ B ∧ prev !! i = Some (Some (List.last A head_)) ∧ link s x i = Some (head B)
}.

(** Nodes only come, and keep their keys. *)
Definition grows s L s' (L' : nat → list nat) : Prop :=
  (length (nodes s) ≤ length (nodes s'))%nat ∧ (max_height_ s ≤ max_height_ s')%nat ∧
  (∀ a, (a < length (nodes s))%nat → kk s' a = kk s a) ∧ ∀ l a, (l < kMaxHeight)%nat → a ∈ L l → a ∈ L' l.

Lemma grows_refl s L : grows s L s L.
Proof. by split_and!. Qed.

Lemma grows_trans s1 L1 s2 L2 s3 L3 : grows s1 L1 s2 L2 → grows s2 L2 s3 L3 → grows s1 L1 s3 L3.
Proof.
  intros (H1 & H2 & H3 & H4) (G1 & G2 & G3 & G4). split; [lia|]. split; [lia|]. split.
  - intros a Ha. rewrite G3 by lia. by apply H3.
  - intros l a Hl Ha. by apply G4, H4.
Qed.

Lemma stored_grows s L x n p s' L' :
  stored s x n p s' → (∀ l a, (l < kMaxHeight)%nat → a ∈ L l → a ∈ L' l) → grows s L s' L'.
Proof.
  intros Hs HL. split; [by rewrite (stored_length _ _ _ _ _ Hs)|]. split; [by rewrite (stored_max _ _ _ _ _ Hs)|].
  split; [|done]. intros a _. apply Hs.
Qed.

Lemma splits_at_kk s s' L key prev j :
  (∀ a, a ∈ L j → kk s' a = kk s a) → splits_at s L key prev j → splits_at s' L key prev j.
Proof.
  intros Hk (A & B & HL & Hp & HA & HB). exists A, B. split; [done|]. split; [done|].
  rewrite HL in Hk. split; apply Forall_forall; intros a Ha; rewrite Hk by (apply elem_of_app; auto).
  - by apply (proj1 (Forall_forall _ _) HA).
  - by apply (proj1 (Forall_forall _ _) HB).
Qed.

Lemma split_pred_link s L l A B :
  wf s L → (l < kMaxHeight)%nat → L l = A ++ B → link s (List.last A head_) l = Some (head B).
Proof. intros Hwf Hl HL. by apply (standing_link s L l _ A B). Qed.

Lemma prepare_ok s L key x prev i height :
  inserting s L key x prev i height false → (i < height)%nat →
  ∃ s', prepare s x prev i = Ok s' ∧ inserting s' L key x prev i height true ∧ grows s L s' L.
Proof.
  intros [Hwf Hkey [Hx (nd & Hnd & Hlen)] Hh Hlinked Hfree Hsplits _] Hi. pose proof (wf_max _ _ Hwf) as Hmax.
  destruct (Hsplits i ltac:(lia)) as (A & B & HL & Hp & HA & HB). pose proof (split_pred_link s L i A B Hwf ltac:(lia) HL) as Hlink.
  unfold prepare, prev_at. rewrite Hp. cbn [mbind outcome_bind]. rewrite (Node_Next_link _ _ _ _ Hlink). cbn [mbind outcome_bind].
  destruct (SetNext_ok s x i (head B) nd Hnd ltac:(lia)) as (s' & -> & Hs'). exists s'. split; [done|].
  split; [|by eapply stored_grows].
  assert (wf s' L) as Hwf'.
  { apply (wf_frame s); [done|intros a _; apply Hs'|by rewrite (stored_length _ _ _ _ _ Hs')|rewrite (stored_max _ _ _ _ _ Hs'); lia|].
    intros l a Hl Ha. rewrite (stored_link _ _ _ _ _ Hs'), decide_False; [done|]. intros [-> ->].
    destruct Ha as [->|Ha]; [unfold head_ in Hx; lia|]. by apply (Hfree i); [lia|]. }
  split; try done.
  - split; [apply Hkey|]. rewrite (stored_kk _ _ _ _ _ Hs'). apply Hkey.
  - split; [done|]. destruct (stored_height _ _ _ _ _ Hs' x nd Hnd) as (nd' & Hnd' & Hl'). exists nd'. split; [done|]. by rewrite Hl'.
  - by rewrite (stored_max _ _ _ _ _ Hs').
  - intros j Hj. apply (splits_at_kk s); [|by apply Hsplits]. intros a _. apply Hs'.
  - intros _. split; [done|]. exists A, B. split; [done|]. split; [done|].
    rewrite (stored_link _ _ _ _ _ Hs'). by rewrite decide_True by done.
Qed.

(** The level [i] with the new node. *)
Definition with_node L (i : nat) (xs : list nat) : nat → list nat := λ l, if decide (l = i) then xs else L l.

Lemma level_NoDup s L l : wf s L → (l < kMaxHeight)%nat → NoDup (head_ :: L l).
Proof.
  intros Hwf Hl. constructor; [intros Hin; apply (wf_node _ _ Hwf l) in Hin; [unfold head_ in Hin; lia|done]|].
  pose proof (wf_sorted _ _ Hwf l Hl) as Hs. assert (∀ a, a ∈ L l → good (kk s a)) as Hg by (intros a Ha; by apply (wf_node _ _ Hwf l)).
  induction Hs as [|a xs Hs IH Ha]; [constructor|]. constructor; [|by apply IH; intros; apply Hg; right].
  intros Hin. exact (kord_irrefl _ (Hg a (list_elem_of_here _ _)) (proj1 (Forall_forall _ _) Ha a Hin)).
Qed.

(** The store that publishes the node on a level keeps the list well-formed. *)
Lemma publish_wf s s' L key x prev i height A B :
  inserting s L key x prev i height true → L i = A ++ B → link s x i = Some (head B) →
  Forall (λ a, kord (kk s a) key < 0) A → Forall (λ b, kord key (kk s b) < 0) B →
  stored s (List.last A head_) i (Some x) s' → wf s' (with_node L i (A ++ x :: B)).
Proof.
  intros [Hwf [Hgk Hkx] [Hx (nd & Hnd & Hlen)] Hh Hlinked Hfree _ Hprep] HL Hlx HA HB Hs'.
  destruct (Hprep eq_refl) as [Hi _]. pose proof (wf_max _ _ Hwf) as Hmax. assert (i < kMaxHeight)%nat as Hi12 by lia.
  pose proof (level_NoDup s L i Hwf Hi12) as Hnodup. rewrite HL in Hnodup.
  assert (x ∉ head_ :: A ++ B) as Hxnew.
  { rewrite <- HL. intros [->|Hin]%elem_of_cons; [unfold head_ in Hx; lia|]. by apply (Hfree i); [lia|]. }
  pose proof (wf_chain _ _ Hwf i Hi12) as Hchain. rewrite HL in Hchain. apply chain_app in Hchain as [Hseg Hchain].
  assert (∀ a, a ≠ List.last A head_ → link s' a i = link s a i) as Hother.
  { intros a Ha. rewrite (stored_link _ _ _ _ _ Hs'), decide_False; [done|tauto]. }
  change (head_ :: A ++ B) with ((head_ :: A) ++ B) in Hnodup. apply NoDup_app in Hnodup as (HndA & Hdisj & HndB).
  assert (List.last A head_ ∈ head_ :: A) as Hlast by (destruct (last_or_in A head_) as [->|]; [by left|by right]).
  assert (∀ a, kk s' a = kk s a) as Hkk by apply Hs'. split.
  - intros l Hl. unfold with_node. destruct (decide (l = i)) as [->|Hne].
    + apply chain_app. split; [eapply segment_frame; [done| |done]; intros a _ Ha; by apply Hother|]. cbn [chain].
      split; [rewrite (stored_link _ _ _ _ _ Hs'); by rewrite decide_True by done|].
      assert (link s' x i = Some (head B)) as Hlx'.
      { rewrite Hother; [done|]. intros Heq. apply Hxnew. rewrite Heq. change (head_ :: A ++ B) with ((head_ :: A) ++ B). apply elem_of_app. by left. }
      destruct B as [|b B]; cbn [chain head] in Hlx' |- *; [done|]. split; [done|]. cbn [chain] in Hchain. destruct Hchain as [_ Hchain].
      eapply chain_frame; [|exact Hchain]. intros a Ha. apply Hother. intros ->.
      apply (Hdisj _ Hlast). apply elem_of_cons. destruct Ha as [->|]; [by left|by right].
    + eapply chain_frame; [|by apply (wf_chain _ _ Hwf)]. intros a _. rewrite (stored_link _ _ _ _ _ Hs'), decide_False; [done|tauto].
  - intros l a Hl Ha. rewrite (stored_length _ _ _ _ _ Hs'), Hkk. unfold with_node in Ha. destruct (decide (l = i)) as [->|Hne].
    + apply elem_of_app in Ha as [Ha|[->|Ha]%elem_of_cons].
      * apply (wf_node _ _ Hwf i); [done|]. rewrite HL. apply elem_of_app. by left.
      * apply lookup_lt_Some in Hnd. rewrite Hkx. split; [lia|done].
      * apply (wf_node _ _ Hwf i); [done|]. rewrite HL. apply elem_of_app. by right.
    + by apply (wf_node _ _ Hwf l).
  - intros l Hl. apply (sorted_kk s); [done|]. unfold with_node. destruct (decide (l = i)) as [->|Hne]; [|by apply (wf_sorted _ _ Hwf)].
    apply sorted_insert; [rewrite <- HL; by apply (wf_sorted _ _ Hwf)| |]; unfold below; by rewrite Hkx.
  - intros l a Hl Ha. unfold with_node in *. destruct (decide (S l = i)) as [<-|Hne].
    + rewrite decide_False by lia. apply elem_of_app in Ha as [Ha|[->|Ha]%elem_of_cons]; [|by apply Hlinked; lia|];
        apply (wf_sub _ _ Hwf); try done; rewrite HL; apply elem_of_app; auto.
    + destruct (decide (l = i)) as [->|]; [|by apply (wf_sub _ _ Hwf)].
      apply (wf_sub _ _ Hwf) in Ha; [|done]. rewrite HL in Ha. apply elem_of_app in Ha as [Ha|Ha]; apply elem_of_app; [by left|right; by right].
  - intros l Hl Hl12. rewrite (stored_max _ _ _ _ _ Hs') in Hl. unfold with_node. rewrite decide_False by lia. by apply (wf_high _ _ Hwf).
  - by rewrite (stored_max _ _ _ _ _ Hs').
Qed.

(** The levels after the node is published on one of them. *)
Definition published s L key x i L' : Prop :=
  ∃ A B, L i = A ++ B ∧ L' = with_node L i (A ++ x :: B) ∧
    Forall (λ a, kord (kk s a) key < 0) A ∧ Forall (λ b, kord key (kk s b) < 0) B.

Lemma publish_ok s L key x prev i height :
  inserting s L key x prev i height true →
  ∃ s' L', publish s x prev i = Ok s' ∧ inserting s' L' key x prev (S i) height false ∧
    grows s L s' L' ∧ published s L key x i L'.
Proof.
  intros Hins. pose proof Hins as [Hwf [Hgk Hkx] [Hx (nd & Hnd & Hlen)] Hh Hlinked Hfree Hsplits Hprep].
  destruct (Hprep eq_refl) as (Hi & A0 & B0 & HL0 & Hp0 & Hlx). pose proof (wf_max _ _ Hwf) as Hmax.
  destruct (Hsplits i ltac:(lia)) as (A & B & HL & Hp & HA & HB).
  pose proof (split_pred_link s L i A B Hwf ltac:(lia) HL) as Hlink.
  pose proof (split_pred_link s L i A0 B0 Hwf ltac:(lia) HL0) as Hlink0.
  assert (List.last A0 head_ = List.last A head_) as Elast by congruence. rewrite Elast, Hlink in Hlink0.
  injection Hlink0 as Hhead. rewrite <- Hhead in Hlx.
  destruct (link_node _ _ _ _ Hlink) as (ndp & Hndp & Hlp).
  unfold publish, prev_at. rewrite Hp. cbn [mbind outcome_bind].
  destruct (SetNext_ok s _ i (Some x) ndp Hndp Hlp) as (s' & -> & Hs'). exists s', (with_node L i (A ++ x :: B)).
  split; [done|]. split; [|split; [|by exists A, B]].
  - pose proof (publish_wf s s' L key x prev i height A B Hins HL Hlx HA HB Hs') as Hwf'. split; try done.
    + split; [done|]. by rewrite (stored_kk _ _ _ _ _ Hs').
    + split; [done|]. destruct (stored_height _ _ _ _ _ Hs' x nd Hnd) as (nd' & Hnd' & Hl'). exists nd'. split; [done|]. by rewrite Hl'.
    + rewrite (stored_max _ _ _ _ _ Hs'). lia.
    + intros j Hj. unfold with_node. destruct (decide (j = i)) as [->|]; [apply elem_of_app; right; by left|]. apply Hlinked. lia.
    + intros j Hj. unfold with_node. rewrite decide_False by lia. apply Hfree. lia.
    + intros j Hj. destruct (Hsplits j ltac:(lia)) as (A' & B' & HL' & Hp' & HA' & HB').
      apply (splits_at_kk s); [intros a _; apply Hs'|]. exists A', B'. split; [|done].
      unfold with_node. by rewrite decide_False by lia.
  - eapply stored_grows; [done|]. intros l a Hl Ha. unfold with_node. destruct (decide (l = i)) as [->|]; [|done].
    rewrite HL in Ha. apply elem_of_app in Ha as [Ha|Ha]; apply elem_of_app; [by left|right; by right].
Qed.

Lemma link_levels_ok count i s L key x prev height :
  inserting s L key x prev i height false → (i + count = height)%nat → (0 < i)%nat →
  ∃ s' L', link_levels count i s x prev = Ok s' ∧ wf s' L' ∧ grows s L s' L' ∧ L' 0%nat = L 0%nat.
Proof.
  revert i s L. induction count as [|count IH]; intros i s L Hins Hc Hi; cbn [link_levels].
  - exists s, L. split; [done|]. split; [apply Hins|]. by split; [apply grows_refl|].
  - destruct (prepare_ok s L key x prev i height Hins ltac:(lia)) as (s1 & -> & Hins1 & Hg1). cbn [mbind outcome_bind].
    destruct (publish_ok s1 L key x prev i height Hins1) as (s2 & L2 & -> & Hins2 & Hg2 & (A & B & _ & HL2 & _)). cbn [mbind outcome_bind].
    destruct (IH (S i) s2 L2 Hins2 ltac:(lia) ltac:(lia)) as (s3 & L3 & -> & Hwf3 & Hg3 & HL3). exists s3, L3.
    split; [done|]. split; [done|]. split; [exact (grows_trans _ _ _ _ _ _ Hg1 (grows_trans _ _ _ _ _ _ Hg2 Hg3))|].
    rewrite HL3, HL2. unfold with_node. by rewrite decide_False by lia.
Qed.

Lemma raise_ok s L height rnd :
  wf s L → (height ≤ kMaxHeight)%nat →
  wf (raise s height rnd) L ∧ grows s L (raise s height rnd) L ∧ (height ≤ max_height_ (raise s height rnd))%nat.
Proof.
  intros Hwf Hh. pose proof (wf_max _ _ Hwf) as Hmax.
  assert (max_height_ s ≤ max_height_ (raise s height rnd) ≤ kMaxHeight ∧ height ≤ max_height_ (raise s height rnd))%nat as [Hm Hhm].
  { unfold raise. cbn [max_height_]. destruct (Nat.ltb_spec (max_height_ s) height); lia. }
  split; [apply (wf_frame s); [done|done|done|lia|done]|]. split; [|done]. split; [done|]. split; [lia|]. by split.
Qed.

Lemma NewNode_lookup s key height a :
  nodes (NewNode s key height).2 !! a =
  if decide (a = length (nodes s)) then Some {| node_key := key; next_ := replicate height None |} else nodes s !! a.
Proof.
  cbn. destruct (decide (a = length (nodes s))) as [->|Hne]; [by rewrite lookup_app_r, Nat.sub_diag by lia|].
  destruct (Nat.lt_ge_cases a (length (nodes s))) as [Hlt|Hge]; [by rewrite lookup_app_l|].
  rewrite lookup_app_r by lia. rewrite (proj2 (lookup_ge_None (nodes s) a)) by lia.
  destruct (a - length (nodes s))%nat as [|k] eqn:E; [lia|done].
Qed.

Lemma NewNode_ok s L key height prev :
  wf s L → good key → (height ≤ max_height_ s)%nat →
  (∀ j, (j < height)%nat → splits_at s L key prev j) →
  inserting (NewNode s key height).2 L key (NewNode s key height).1 prev 0 height false ∧
  grows s L (NewNode s key height).2 L.
Proof.
  intros Hwf Hkey Hh Hsplits. pose proof (wf_max _ _ Hwf) as Hmax. set (s' := (NewNode s key height).2).
  assert (∀ a, nodes s' !! a = if decide (a = length (nodes s)) then Some {| node_key := key; next_ := replicate height None |} else nodes s !! a)
    as Hnodes by apply NewNode_lookup.
  assert (∀ a, (a < length (nodes s))%nat → kk s' a = kk s a) as Hkk by (intros a Ha; unfold kk; by rewrite Hnodes, decide_False by lia).
  assert (length (nodes s') = S (length (nodes s))) as Hlen by (cbn; rewrite length_app; cbn; lia).
  assert (link s head_ 0 = Some (head (L 0%nat))) as Hhead0 by (apply (split_pred_link s L 0 []); [done|unfold kMaxHeight; lia|done]).
  apply link_node in Hhead0 as (nd0 & Hnd0 & _). apply lookup_lt_Some in Hnd0. unfold head_ in Hnd0.
  assert (wf s' L) as Hwf'.
  { apply (wf_frame s); [done|done|lia|cbn; lia|]. intros l a Hl Ha. unfold link. rewrite Hnodes, decide_False; [done|].
    intros ->. destruct Ha as [Ha|Ha]; [unfold head_ in Ha; lia|]. apply (wf_node _ _ Hwf l) in Ha; [lia|done]. }
  split; [|split; [lia|split; [done|by split]]]. split; try done.
  - split; [done|]. change (NewNode s key height).1 with (length (nodes s)). unfold kk. by rewrite Hnodes, decide_True by done.
  - change (NewNode s key height).1 with (length (nodes s)). split; [lia|]. rewrite Hnodes, decide_True by done.
    eexists. split; [done|]. cbn. by rewrite length_replicate.
  - cbn. lia.
  - intros j Hj. lia.
  - intros j Hj Hin. change (NewNode s key height).1 with (length (nodes s)) in Hin. apply (wf_node _ _ Hwf j) in Hin; lia.
  - intros j Hj. apply (splits_at_kk s); [|apply Hsplits; lia]. intros a Ha. apply Hkk. by apply (wf_node _ _ Hwf j a ltac:(lia) Ha).
Qed.

(** Insertion puts the new node where its key belongs. *)
Lemma Insert_ok s L key :
  wf s L → good key → fresh s L key →
  ∃ s' L' A B, Insert s key = Ok s' ∧ wf s' L' ∧ grows s L s' L' ∧ L 0%nat = A ++ B ∧
    L' 0%nat = A ++ length (nodes s) :: B ∧ kk s' (length (nodes s)) = key ∧
    Forall (λ a, kord (kk s a) key < 0) A ∧ Forall (λ b, kord key (kk s b) < 0) B.
Proof.
  intros Hwf Hkey Hfresh. unfold Insert.
  destruct (begin_insert_ok s L key Hwf Hkey Hfresh) as (prev & height & rnd & -> & Hh & Hsplits). cbn [mbind outcome_bind].
  destruct (raise_ok s L height rnd Hwf ltac:(lia)) as (Hwf1 & Hg1 & Hhm).
  destruct (NewNode_ok (raise s height rnd) L key height prev Hwf1 Hkey Hhm Hsplits) as [Hins Hg2].
  destruct (NewNode (raise s height rnd) key height) as [x s2] eqn:En. cbn [fst snd] in *.
  assert (x = length (nodes s)) as -> by (unfold NewNode in En; by injection En as <-).
  destruct height as [|height]; [lia|]. cbn [link_levels].
  destruct (prepare_ok s2 L key _ prev 0 (S height) Hins ltac:(lia)) as (s3 & -> & Hins3 & Hg3). cbn [mbind outcome_bind].
  destruct (publish_ok s3 L key _ prev 0 (S height) Hins3) as (s4 & L4 & -> & Hins4 & Hg4 & (A & B & HL & HL4 & HA & HB)). cbn [mbind outcome_bind].
  destruct (link_levels_ok height 1 s4 L4 key _ prev (S height) Hins4 ltac:(lia) ltac:(lia)) as (s5 & L5 & -> & Hwf5 & Hg5 & HL5).
  pose proof (grows_trans _ _ _ _ _ _ Hg1 (grows_trans _ _ _ _ _ _ Hg2 Hg3)) as Hg.
  pose proof (grows_trans _ _ _ _ _ _ Hg (grows_trans _ _ _ _ _ _ Hg4 Hg5)) as Hall.
  assert (∀ a, a ∈ L 0%nat → kk s3 a = kk s a) as Hkk.
  { intros a Ha. apply Hg. by apply (wf_node _ _ Hwf 0 a ltac:(unfold kMaxHeight; lia) Ha). }
  exists s5, L5, A, B. split; [done|]. split; [done|]. split; [done|]. split; [done|]. split; [by rewrite HL5, HL4|].
  rewrite HL in Hkk. split; [|split; apply Forall_forall; intros a Ha; rewrite <- Hkk by (apply elem_of_app; auto)].
  - destruct Hg5 as (_ & _ & Hk5 & _). rewrite Hk5; [apply Hins4|]. destruct (inserting_node _ _ _ _ _ _ _ _ Hins4) as [_ (nd & Hnd & _)].
    by eapply lookup_lt_Some.
  - by apply (proj1 (Forall_forall _ _) HA).
  - by apply (proj1 (Forall_forall _ _) HB).
Qed.

(** *** The other searches *)

Lemma FindLessThan_loop_ok s L key fuel x l A B A0 B0 :
  wf s L → good key → (l < kMaxHeight)%nat → standing s L l x A B → standing s L 0 x A0 B0 →
  (x = head_ ∨ kord (kk s x) key < 0) → (length B0 + l < fuel)%nat →
  ∃ A' B', FindLessThan_loop fuel s key x l = Ok (List.last A' head_) ∧ divided s L key 0 A' B'.
Proof.
  intros Hwf Hkey. revert x l A B A0 B0.
  induction fuel as [|fuel IH]; intros x l A B A0 B0 Hl Hs Hs0 Hx Hf; [lia|]. cbn [FindLessThan_loop].
  assert ((if decide (x = head_) then Ok true else c ← node_compare s x key; Ok (c <? 0)) = Ok true) as ->.
  { destruct (decide (x = head_)) as [|Hne]; [done|]. destruct Hx as [|Hx]; [done|].
    destruct (standing_in _ _ _ _ _ _ Hs) as [|[_ Hin]]; [done|].
    rewrite (node_compare_ok s L l x key Hwf Hl Hin Hkey). cbn [mbind outcome_bind]. by rewrite (proj2 (Z.ltb_lt _ _) Hx). }
  cbn [require mbind outcome_bind].
  rewrite (Node_Next_link _ _ _ _ (standing_link s L l x A B Hwf Hl Hs)). cbn [mbind outcome_bind].
  pose proof Hs as [HL Hxl]. pose proof (standing_below s L l x A B key Hwf Hl Hkey Hs Hx) as HA.
  assert (match head B with None => Ok true | Some n => c ← node_compare s n key; Ok (0 <=? c) end =
    Ok (match head B with None => true | Some b => 0 <=? kord (kk s b) key end)) as ->.
  { destruct B as [|b B]; [done|]. cbn [head].
    rewrite (node_compare_ok s L l b key Hwf Hl) by (done || (rewrite HL; apply elem_of_app; right; by left)). done. }
  cbn [mbind outcome_bind].
  assert ((∃ y B', B = y :: B' ∧ kord (kk s y) key < 0) ∨
    (∀ b, head B = Some b → 0 ≤ kord (kk s b) key) ∧
    (if match head B with None => true | Some b => 0 <=? kord (kk s b) key end then None else head B) = None) as [Hright|[Hstop ->]].
  { destruct B as [|y B']; cbn [head]; [by right|]. destruct (Z.leb_spec 0 (kord (kk s y) key)) as [Hge|Hlt].
    - right. split; [|done]. by intros b [= <-].
    - left. by exists y, B'. }
  - destruct Hright as (y & B' & -> & Hlt). cbn [head]. rewrite (proj2 (Z.leb_gt _ _) Hlt).
    destruct (standing_right s L l x A y B' A0 B0 Hwf Hl Hs Hs0) as (A1 & B1 & Hs1 & Hlen).
    apply (IH y l (A ++ [y]) B' A1 B1); [done| |done|by right|lia].
    split; [by rewrite HL, <- app_assoc|by rewrite last_last].
  - pose proof (divided_from s L l A B key Hwf Hl Hkey HL HA Hstop) as Hd. destruct l as [|l].
    + exists A, B. split; [by rewrite Hxl|done].
    + destruct (standing_down s L l x A B Hwf Hl Hs) as (A1 & B1 & Hs1).
      apply (IH x l A1 B1 A0 B0); [lia|done|done|done|lia].
Qed.

Lemma FindLessThan_ok s L key :
  wf s L → good key → ∃ A B, FindLessThan s key = Ok (List.last A head_) ∧ divided s L key 0 A B.
Proof.
  intros Hwf Hkey. pose proof (wf_max _ _ Hwf) as Hmax. unfold FindLessThan.
  pose proof (level_length s L 0 Hwf ltac:(unfold kMaxHeight; lia)).
  apply (FindLessThan_loop_ok s L key (search_fuel s) head_ (max_height_ s - 1) [] (L (max_height_ s - 1)%nat) [] (L 0%nat));
    [done|done|lia|done|done|by left|]. unfold search_fuel. lia.
Qed.

Lemma FindLast_loop_ok s L fuel x l A B A0 B0 :
  wf s L → (l < kMaxHeight)%nat → standing s L l x A B → standing s L 0 x A0 B0 → (length B0 + l < fuel)%nat →
  FindLast_loop fuel s x l = Ok (List.last (L 0%nat) head_).
Proof.
  intros Hwf. revert x l A B A0 B0.
  induction fuel as [|fuel IH]; intros x l A B A0 B0 Hl Hs Hs0 Hf; [lia|]. cbn [FindLast_loop].
  rewrite (Node_Next_link _ _ _ _ (standing_link s L l x A B Hwf Hl Hs)). cbn [mbind outcome_bind].
  pose proof Hs as [HL Hxl]. destruct B as [|y B]; cbn [head].
  - destruct l as [|l].
    + rewrite app_nil_r in HL. by rewrite HL, Hxl.
    + destruct (standing_down s L l x A [] Hwf Hl Hs) as (A1 & B1 & Hs1).
      apply (IH x l A1 B1 A0 B0); [lia|done|done|lia].
  - destruct (standing_right s L l x A y B A0 B0 Hwf Hl Hs Hs0) as (A1 & B1 & Hs1 & Hlen).
    apply (IH y l (A ++ [y]) B A1 B1); [done| |done|lia].
    split; [by rewrite HL, <- app_assoc|by rewrite last_last].
Qed.

Lemma FindLast_ok s L : wf s L → FindLast s = Ok (List.last (L 0%nat) head_).
Proof.
  intros Hwf. pose proof (wf_max _ _ Hwf) as Hmax. unfold FindLast.
  pose proof (level_length s L 0 Hwf ltac:(unfold kMaxHeight; lia)).
  apply (FindLast_loop_ok s L (search_fuel s) head_ (max_height_ s - 1) [] (L (max_height_ s - 1)%nat) [] (L 0%nat));
    [done|lia|done|done|]. unfold search_fuel. lia.
Qed.

(** ** The iterator *)

(** The iterator is at position [c] of the lowest level. *)
Definition skip_at L (it : SkipIterator) (c : nat) : Prop := (c ≤ length (L 0%nat))%nat ∧ node_ it = L 0%nat !! c.

Lemma head_lookup (A B : list nat) : head B = (A ++ B) !! length A.
Proof. rewrite lookup_app_r, Nat.sub_diag by done. by destruct B. Qed.

Lemma not_head_at s L (A B : list nat) :
  wf s L → L 0%nat = A ++ B → node_ (not_head (List.last A head_)) = if decide (A = []) then None else A !! (length A - 1)%nat.
Proof.
  intros Hwf HL. unfold not_head. cbn [node_]. destruct (decide (A = [])) as [->|Hne]; [by rewrite decide_True by done|].
  destruct (exists_last Hne) as (A' & y & ->). rewrite last_last, decide_False.
  - rewrite length_app. cbn [length]. rewrite lookup_app_r by lia. by replace (length A' + 1 - 1 - length A')%nat with 0%nat by lia.
  - intros ->. assert (head_ ∈ L 0%nat) as Hin by (rewrite HL; apply elem_of_app; left; apply elem_of_app; right; by left).
    apply (wf_node _ _ Hwf 0) in Hin; unfold head_, kMaxHeight in *; lia.
Qed.

Lemma skip_Valid_ok L it c : skip_at L it c → skip_Valid it = (c <? length (L 0%nat))%nat.
Proof.
  intros [Hc Hn]. unfold skip_Valid. rewrite Hn. destruct (Nat.ltb_spec c (length (L 0%nat))) as [Hlt|Hge].
  - by destruct (lookup_lt_is_Some_2 _ _ Hlt) as [x ->].
  - by rewrite (proj2 (lookup_ge_None _ _)).
Qed.

Lemma skip_key_ok s L it c x : wf s L → skip_at L it c → L 0%nat !! c = Some x → skip_key s it = Ok (kk s x).
Proof.
  intros Hwf [_ Hn] Hx. unfold skip_key, skip_node. rewrite Hn, Hx. cbn [mbind outcome_bind].
  destruct (wf_get s L 0 x Hwf ltac:(unfold kMaxHeight; lia) (list_elem_of_lookup_2 _ _ _ Hx)) as (nd & Hnd & Hk).
  unfold get_node. rewrite Hnd. cbn [mbind outcome_bind]. by rewrite Hk.
Qed.

Lemma skip_Next_ok s L it c :
  wf s L → skip_at L it c → (c < length (L 0%nat))%nat → ∃ it', skip_Next s it = Ok it' ∧ skip_at L it' (S c).
Proof.
  intros Hwf [_ Hn] Hc. destruct (lookup_lt_is_Some_2 _ _ Hc) as [x Hx]. unfold skip_Next, skip_node. rewrite Hn, Hx.
  cbn [mbind outcome_bind].
  assert (link s x 0 = Some (head (drop (S c) (L 0%nat)))) as Hlink.
  { apply (standing_link s L 0 x (take (S c) (L 0%nat))); [done|unfold kMaxHeight; lia|].
    split; [by rewrite take_drop|]. rewrite (take_S_r _ _ _ Hx). by rewrite last_last. }
  rewrite (Node_Next_link _ _ _ _ Hlink). cbn [mbind outcome_bind]. eexists. split; [done|]. split; [lia|]. cbn [node_].
  rewrite (head_lookup (take (S c) (L 0%nat))), take_drop, length_take. by rewrite Nat.min_l by lia.
Qed.

Lemma divided_here s L c x A B :
  wf s L → L 0%nat !! c = Some x → divided s L (kk s x) 0 A B → length A = c.
Proof.
  intros Hwf Hx (HL & HA & HB). pose proof (wf_sorted _ _ Hwf 0 ltac:(unfold kMaxHeight; lia)) as Hs.
  assert (good (kk s x)) as Hg by (apply (wf_node _ _ Hwf 0); [unfold kMaxHeight; lia|by eapply list_elem_of_lookup_2]).
  rewrite <- (take_drop_middle _ _ _ Hx) in Hs.
  destruct (lt_eq_lt_dec (length A) c) as [[Hlt|Heq]|Hgt]; [exfalso|done|exfalso].
  - (* an element of [B] before [x] *)
    assert (take c (L 0%nat) !! length A = head B) as Hb.
    { rewrite lookup_take_lt by done. rewrite HL. by rewrite <- head_lookup. }
    pose proof (lookup_lt_Some _ _ _ Hx) as Hcl. destruct B as [|b B]; [rewrite HL, app_nil_r in Hcl; lia|]. cbn [head] in Hb.
    pose proof (sorted_across (below s) _ _ _ _ Hs (list_elem_of_lookup_2 _ _ _ Hb) (list_elem_of_here _ _)) as Hbx.
    apply Forall_cons in HB as [HB _]. unfold below in Hbx. cbn in HB. lia.
  - assert (A !! c = Some x) as Ha by (rewrite HL, lookup_app_l in Hx by done; done).
    exact (kord_irrefl _ Hg (proj1 (Forall_forall _ _) HA x (list_elem_of_lookup_2 _ _ _ Ha))).
Qed.

Lemma skip_Prev_ok s L it c :
  wf s L → skip_at L it c → (c < length (L 0%nat))%nat →
  ∃ it', skip_Prev s it = Ok it' ∧ skip_at L it' (if decide (c = 0)%nat then length (L 0%nat) else c - 1)%nat.
Proof.
  intros Hwf Hat Hc. destruct (lookup_lt_is_Some_2 _ _ Hc) as [x Hx]. unfold skip_Prev.
  rewrite (skip_key_ok s L it c x Hwf Hat Hx). cbn [mbind outcome_bind].
  assert (good (kk s x)) as Hg by (apply (wf_node _ _ Hwf 0); [unfold kMaxHeight; lia|by eapply list_elem_of_lookup_2]).
  destruct (FindLessThan_ok s L (kk s x) Hwf Hg) as (A & B & -> & Hd). cbn [mbind outcome_bind].
  pose proof (divided_here s L c x A B Hwf Hx Hd) as HlenA. destruct Hd as (HL & _ & _).
  eexists. split; [done|]. split; [destruct (decide _); lia|]. rewrite (not_head_at s L A B Hwf HL).
  destruct (decide (A = [])) as [->|Hne].
  - cbn in HlenA. subst c. rewrite decide_True by done. symmetry. by apply lookup_ge_None.
  - assert (0 < length A)%nat by (destruct A; [done|cbn; lia]). rewrite decide_False by lia. rewrite HL, lookup_app_l by lia. by rewrite HlenA.
Qed.

Lemma skip_Seek_ok s L it target :
  wf s L → good target →
  ∃ it' A B, skip_Seek s it target = Ok it' ∧ skip_at L it' (length A) ∧ divided s L target 0 A B.
Proof.
  intros Hwf Ht. unfold skip_Seek. destruct (FindGreaterOrEqual_ok s L target None Hwf Ht) as (prev & A & B & -> & Hd & _).
  cbn [mbind outcome_bind fst]. eexists _, A, B. split; [done|]. split; [|done]. destruct Hd as (HL & _ & _).
  split; [rewrite HL, length_app; lia|]. cbn [node_]. by rewrite HL, <- head_lookup.
Qed.

Lemma skip_SeekToFirst_ok s L it : wf s L → ∃ it', skip_SeekToFirst s it = Ok it' ∧ skip_at L it' 0%nat.
Proof.
  intros Hwf. unfold skip_SeekToFirst.
  rewrite (Node_Next_link s head_ 0 (head (L 0%nat))); [|by apply (split_pred_link s L 0 []); [|unfold kMaxHeight; lia|]].
  cbn [mbind outcome_bind]. eexists. split; [done|]. split; [lia|]. cbn. by destruct (L 0%nat).
Qed.

Lemma skip_SeekToLast_ok s L it : wf s L → ∃ it', skip_SeekToLast s it = Ok it' ∧ skip_at L it' (length (L 0%nat) - 1)%nat.
Proof.
  intros Hwf. unfold skip_SeekToLast. rewrite (FindLast_ok s L Hwf). cbn [mbind outcome_bind].
  eexists. split; [done|]. split; [lia|]. rewrite (not_head_at s L (L 0%nat) [] Hwf) by by rewrite app_nil_r.
  destruct (decide _) as [->|]; done.
Qed.

(** ** The list as a sequence of keys *)

Definition contents s (keys : list Key) : Prop := ∃ L, wf s L ∧ keys = map (kk s) (L 0%nat).

(** Where a new key goes. *)
Fixpoint insert_key (key : Key) (keys : list Key) : list Key :=
  match keys with
  | [] => [key]
  | k :: keys => if kord k key <? 0 then k :: insert_key key keys else key :: k :: keys
  end.

Lemma insert_key_split key (A B : list Key) :
  Forall (λ a, kord a key < 0) A → (∀ b, head B = Some b → 0 ≤ kord b key) → insert_key key (A ++ B) = A ++ key :: B.
Proof.
  intros HA HB. induction HA as [|a A Ha HA IH]; cbn [app insert_key].
  - destruct B as [|b B]; [done|]. cbn. by rewrite (proj2 (Z.ltb_ge _ _) (HB b eq_refl)).
  - rewrite (proj2 (Z.ltb_lt _ _) Ha). by rewrite IH.
Qed.

Lemma contents_new : contents new_SkipList [].
Proof. exists (λ _, []). split; [apply wf_new|done]. Qed.

Lemma contents_Insert s keys key :
  contents s keys → good key → Forall (λ k, kord k key ≠ 0) keys →
  ∃ s', Insert s key = Ok s' ∧ contents s' (insert_key key keys).
Proof.
  intros (L & Hwf & ->) Hkey Hfresh. assert (fresh s L key) as Hf.
  { apply Forall_forall. intros a Ha. apply (proj1 (Forall_forall _ _) Hfresh). by apply list_elem_of_fmap_2. }
  destruct (Insert_ok s L key Hwf Hkey Hf) as (s' & L' & A & B & -> & Hwf' & (_ & _ & Hkk & _) & HL & HL' & Hk & HA & HB).
  exists s'. split; [done|]. exists L'. split; [done|]. rewrite HL, HL', !map_app. cbn [map]. rewrite Hk.
  assert (∀ a, a ∈ A ++ B → kk s' a = kk s a) as Hsame.
  { intros a Ha. apply Hkk. rewrite <- HL in Ha. by apply (wf_node _ _ Hwf 0 a ltac:(unfold kMaxHeight; lia) Ha). }
  rewrite (map_ext_in (kk s') (kk s) A), (map_ext_in (kk s') (kk s) B)
    by (intros a Ha; apply Hsame, elem_of_app; apply list_elem_of_In in Ha; auto).
  apply insert_key_split.
  - apply Forall_map. by eapply Forall_impl; [exact HA|].
  - intros b Hb. destruct B as [|b' B]; [done|]. cbn in Hb. injection Hb as <-. apply Forall_cons in HB as [HB _].
    assert (b' ∈ L 0%nat) as Hin by (rewrite HL; apply elem_of_app; right; by left).
    apply kord_flip in HB; [lia|done|by apply (wf_node _ _ Hwf 0); [unfold kMaxHeight; lia|]].
Qed.

Lemma contents_Contains s keys key :
  contents s keys → good key → Contains s key = Ok (existsb (λ k, kord k key =? 0) keys).
Proof.
  intros (L & Hwf & ->) Hkey. unfold Contains. assert (0 < kMaxHeight)%nat as H0 by (unfold kMaxHeight; lia).
  destruct (FindGreaterOrEqual_ok s L key None Hwf Hkey) as (prev & A & B & -> & Hd & _). cbn [mbind outcome_bind fst].
  destruct Hd as (HL & HA & HB). rewrite HL, map_app, existsb_app.
  assert (∀ l : list nat, Forall (λ a, kord (kk s a) key ≠ 0) l → existsb (λ k, kord k key =? 0) (map (kk s) l) = false) as Hnone.
  { induction 1 as [|a l Ha Hl IH]; [done|]. cbn. by rewrite IH, (proj2 (Z.eqb_neq _ _) Ha). }
  rewrite (Hnone A) by (eapply Forall_impl; [exact HA|cbn; lia]). cbn [orb].
  pose proof (wf_sorted _ _ Hwf 0 H0) as Hs. rewrite HL in Hs. apply sorted_right in Hs.
  destruct B as [|b B]; [done|]. cbn [head map existsb]. apply StronglySorted_inv in Hs as [_ Hs].
  assert (∀ c, c ∈ b :: B → c ∈ L 0%nat) as Hin by (intros c Hc; rewrite HL; apply elem_of_app; by right).
  assert (∀ c, c ∈ b :: B → good (kk s c)) as Hgood by (intros c Hc; apply (wf_node _ _ Hwf 0); auto).
  destruct (wf_get s L 0 b Hwf H0 (Hin b (list_elem_of_here _ _))) as (nd & Hnd & Hk).
  unfold get_node. rewrite Hnd. cbn [mbind outcome_bind]. pose proof (Hgood b (list_elem_of_here _ _)) as Hgb.
  rewrite Hk, compare_good by done. cbn [mbind outcome_bind].
  apply Forall_cons in HB as [HB _]. cbn in HB. pose proof (proj1 (kord_ge _ _ Hgb Hkey) HB) as Hle.
  rewrite (Hnone B).
  - rewrite orb_false_r. f_equal. apply eq_bool_prop_intro. rewrite !Is_true_true, !Z.eqb_eq.
    pose proof (kord_flip _ _ Hgb Hkey). pose proof (kord_flip _ _ Hkey Hgb). lia.
  - apply Forall_forall. intros c Hc. pose proof (proj1 (Forall_forall _ _) Hs c Hc) as Hbc. unfold below in Hbc.
    assert (good (kk s c)) as Hgc by (apply Hgood; by right).
    pose proof (kord_le_lt _ _ _ Hkey Hgb Hgc Hle Hbc) as Hkc. apply kord_flip in Hkc; [lia|done|done].
Qed.

(** An iterator at a position of a list of keys. *)
Definition skip_on s (keys : list Key) (it : SkipIterator) (c : nat) : Prop :=
  ∃ L, wf s L ∧ keys = map (kk s) (L 0%nat) ∧ skip_at L it c.

(** What a relation between iterators and positions in the list must respect. *)
Record skip_iterates s (keys : list Key) (R : SkipIterator → nat → Prop) : Prop := {
  skip_iterates_valid it c : R it c → (c ≤ length keys)%nat ∧ skip_Valid it = (c <? length keys)%nat;
  skip_iterates_key it c key : R it c → keys !! c = Some key → skip_key s it = Ok key;
  skip_iterates_next it c : R it c → (c < length keys)%nat → ∃ it', skip_Next s it = Ok it' ∧ R it' (S c);
  skip_iterates_prev it c : R it c → (c < length keys)%nat →
    ∃ it', skip_Prev s it = Ok it' ∧ R it' (if decide (c = 0)%nat then length keys else c - 1)%nat;
  skip_iterates_first it : ∃ it', skip_SeekToFirst s it = Ok it' ∧ R it' 0%nat;
  skip_iterates_last it : ∃ it', skip_SeekToLast s it = Ok it' ∧ R it' (length keys - 1)%nat;
  skip_iterates_seek it target : good target → ∃ it' c, skip_Seek s it target = Ok it' ∧ R it' c ∧
    Forall (λ k, kord k target < 0) (take c keys) ∧ Forall (λ k, 0 ≤ kord k target) (drop c keys)
}.

Lemma contents_iterates s keys : contents s keys → skip_iterates s keys (skip_on s keys).
Proof.
  intros (L0 & Hwf0 & Hkeys0). split.
  - intros it c (L & Hwf & -> & Hat). rewrite length_map. split; [apply Hat|by apply skip_Valid_ok].
  - intros it c key (L & Hwf & -> & Hat) Hk. rewrite list_lookup_fmap in Hk. destruct (L 0%nat !! c) as [x|] eqn:E; [|done].
    injection Hk as <-. by apply (skip_key_ok s L it c x).
  - intros it c (L & Hwf & -> & Hat) Hc. rewrite length_map in Hc.
    destruct (skip_Next_ok s L it c Hwf Hat Hc) as (it' & E & Hat'). exists it'. split; [done|]. by exists L.
  - intros it c (L & Hwf & -> & Hat) Hc. rewrite length_map in *.
    destruct (skip_Prev_ok s L it c Hwf Hat Hc) as (it' & E & Hat'). exists it'. split; [done|]. by exists L.
  - intros it. destruct (skip_SeekToFirst_ok s L0 it Hwf0) as (it' & E & Hat'). exists it'. split; [done|]. by exists L0.
  - intros it. destruct (skip_SeekToLast_ok s L0 it Hwf0) as (it' & E & Hat'). exists it'. split; [done|].
    rewrite Hkeys0, length_map. by exists L0.
  - intros it target Ht. destruct (skip_Seek_ok s L0 it target Hwf0 Ht) as (it' & A & B & E & Hat' & HL & HA & HB).
    exists it', (length A). split; [done|]. split; [by exists L0|].
    rewrite Hkeys0, HL, map_app, <- (length_map (kk s) A), take_app_length, drop_app_length.
    split; by apply Forall_map.
Qed.

Lemma contents_sorted s keys : contents s keys → StronglySorted (λ a b, kord a b < 0) keys ∧ Forall good keys.
Proof.
  intros (L & Hwf & ->). assert (0 < kMaxHeight)%nat as H0 by (unfold kMaxHeight; lia). split.
  - pose proof (wf_sorted _ _ Hwf 0 H0) as Hs. induction Hs as [|x xs Hs IH Hx]; cbn [map]; [constructor|].
    constructor; [done|]. by apply Forall_map.
  - apply Forall_map, Forall_forall. intros a Ha. by apply (wf_node _ _ Hwf 0).
Qed.

(** The keys of a list are what its links say. *)
Lemma contents_unique s keys keys' : contents s keys → contents s keys' → keys = keys'.
Proof.
  assert (0 < kMaxHeight)%nat as Hpos by (unfold kMaxHeight; lia).
  intros (L & Hwf & ->) (L' & Hwf' & ->). by rewrite (chain_unique s 0 head_ _ _ (wf_chain _ _ Hwf 0 Hpos) (wf_chain _ _ Hwf' 0 Hpos)).
Qed.
Lemma insert_key_perm key keys : insert_key key keys ≡ₚ key :: keys.
Proof.
  induction keys as [|k keys IH]; [done|]. cbn [insert_key]. destruct (_ <? 0); [|done]. rewrite IH. apply Permutation_swap.
Qed.

(** Insertions one after the other. *)
Fixpoint Insert_all s (keys : list Key) : outcome (SkipList Key) :=
  match keys with [] => Ok s | key :: keys => s ← Insert s key; Insert_all s keys end.

Lemma contents_Insert_all keys s keys0 :
  contents s keys0 → Forall good keys → ForallOrdPairs (λ a b, kord a b ≠ 0) keys →
  Forall (λ k, Forall (λ k0, kord k0 k ≠ 0) keys0) keys →
  ∃ s' sorted, Insert_all s keys = Ok s' ∧ contents s' sorted ∧ sorted ≡ₚ keys0 ++ keys.
Proof.
  revert s keys0. induction keys as [|key keys IH]; intros s keys0 Hc Hg Hd Hd0; cbn [Insert_all].
  - exists s, keys0. by rewrite app_nil_r.
  - apply Forall_cons in Hg as [Hk Hg]. apply Forall_cons in Hd0 as [Hk0 Hd0]. inversion Hd as [|? ? Hkd Hd']; subst.
    destruct (contents_Insert s keys0 key Hc Hk Hk0) as (s1 & -> & Hc1). cbn [mbind outcome_bind].
    destruct (IH s1 (insert_key key keys0) Hc1 Hg Hd') as (s' & sorted & E & Hc' & Hp).
    + apply Forall_forall. intros k Hin. rewrite insert_key_perm. constructor.
      * exact (proj1 (Forall_forall _ _) Hkd k Hin).
      * exact (proj1 (Forall_forall _ _) Hd0 k Hin).
    + exists s', sorted. split; [done|]. split; [done|]. rewrite Hp, insert_key_perm. apply Permutation_middle.
Qed.

End levels.

(** ** Readers beside a writer

    The code runs readers without locks beside one writer.  Here their atomic loads and
    stores interleave in every order: a reader takes a step per load of a link, the writer
    one per store.  (The keys of published nodes do not change; that a load sees the latest
    store is the sequentially consistent reading of the atomic operations.) *)

Section concurrent.
Context {Key : Type} `{KeyCompareLaws Key}.

(** Where the writer is in [Insert]. *)
Inductive writer : Type :=
  | Idle
  | Begun (key : Key) (prev : list (option nat)) (height : nat) (rnd : Random)
  | Raised (key : Key) (prev : list (option nat)) (height : nat)
  | Linking (key : Key) (x : nat) (prev : list (option nat)) (i height : nat) (prepared : bool).

Inductive writer_step : SkipList Key * writer → SkipList Key * writer → Prop :=
  | step_begin s key prev height rnd :
      good key → begin_insert s key = Ok (prev, height, rnd) →
      writer_step (s, Idle) (s, Begun key prev height rnd)
  | step_raise s key prev height rnd :
      writer_step (s, Begun key prev height rnd) (raise s height rnd, Raised key prev height)
  | step_new s key prev height :
      writer_step (s, Raised key prev height)
        ((NewNode s key height).2, Linking key (NewNode s key height).1 prev 0 height false)
  | step_prepare s s' key x prev i height :
      (i < height)%nat → prepare s x prev i = Ok s' →
      writer_step (s, Linking key x prev i height false) (s', Linking key x prev i height true)
  | step_publish s s' key x prev i height :
      publish s x prev i = Ok s' →
      writer_step (s, Linking key x prev i height true) (s', Linking key x prev (S i) height false)
  | step_done s key x prev height :
      writer_step (s, Linking key x prev height height false) (s, Idle).

(** The steps are those of [Insert]. *)
Lemma link_levels_steps count i s s' key x prev :
  link_levels count i s x prev = Ok s' →
  rtc writer_step (s, Linking key x prev i (i + count) false) (s', Linking key x prev (i + count) (i + count) false).
Proof.
  revert i s. induction count as [|count IH]; intros i s; cbn [link_levels].
  - intros [= ->]. by rewrite Nat.add_0_r.
  - intros Hr. apply outcome_bind_inv in Hr as (s1 & Hp & Hr). apply outcome_bind_inv in Hr as (s2 & Hq & Hr).
    eapply rtc_l; [apply step_prepare; [lia|exact Hp]|]. eapply rtc_l; [by apply step_publish|].
    rewrite <- Nat.add_succ_comm. by apply IH.
Qed.

Lemma Insert_steps s s' key : good key → Insert s key = Ok s' → rtc writer_step (s, Idle) (s', Idle).
Proof.
  intros Hkey Hr. unfold Insert in Hr. apply outcome_bind_inv in Hr as ([[prev height] rnd] & Hb & Hr).
  destruct (NewNode (raise s height rnd) key height) as [x s1] eqn:En.
  eapply rtc_l; [by apply step_begin|]. eapply rtc_l; [apply step_raise|]. eapply rtc_l; [apply step_new|]. rewrite En. cbn [fst snd].
  transitivity (s', Linking key x prev height height false); [by apply (link_levels_steps height 0)|]. apply rtc_once, step_done.
Qed.

(** A reader in [FindGreaterOrEqual]; it may start with an old height. *)
Inductive reader : Type :=
  | Fresh
  | Searching (x level : nat)
  | Found (result : option nat).

Inductive reader_step (s : SkipList Key) (target : Key) : reader → reader → Prop :=
  | read_start level :
      (level < max_height_ s)%nat → reader_step s target Fresh (Searching head_ level)
  | read_right x level next :
      Node_Next s x level = Ok (Some next) → KeyIsAfterNode s target (Some next) = Ok true →
      reader_step s target (Searching x level) (Searching next level)
  | read_down x level next :
      Node_Next s x (S level) = Ok next → KeyIsAfterNode s target next = Ok false →
      reader_step s target (Searching x (S level)) (Searching x level)
  | read_found x next :
      Node_Next s x 0 = Ok next → KeyIsAfterNode s target next = Ok false →
      reader_step s target (Searching x 0) (Found next).

Inductive system_step (target : Key) : SkipList Key * writer * reader → SkipList Key * writer * reader → Prop :=
  | by_writer s w s' w' r : writer_step (s, w) (s', w') → system_step target (s, w, r) (s', w', r)
  | by_reader s w r r' : reader_step s target r r' → system_step target (s, w, r) (s, w, r').

(** *** The invariant *)

Definition writer_ok (s : SkipList Key) (L : nat → list nat) (w : writer) : Prop :=
  match w with
  | Idle => True
  | Begun key prev height rnd =>
      good key ∧ (1 ≤ height ≤ kMaxHeight)%nat ∧ ∀ j, (j < height)%nat → splits_at s L key prev j
  | Raised key prev height =>
      good key ∧ (1 ≤ height ≤ max_height_ s)%nat ∧ ∀ j, (j < height)%nat → splits_at s L key prev j
  | Linking key x prev i height prepared => inserting s L key x prev i height prepared
  end.

Definition reader_ok (s : SkipList Key) (L : nat → list nat) (target : Key) (r : reader) : Prop :=
  match r with
  | Searching x level => (level < kMaxHeight)%nat ∧ (x = head_ ∨ x ∈ L level ∧ kord (kk s x) target < 0)
  | _ => True
  end.

Definition system_ok (target : Key) (c : SkipList Key * writer * reader) (L : nat → list nat) : Prop :=
  let '(s, w, r) := c in wf s L ∧ writer_ok s L w ∧ reader_ok s L target r.

Lemma reader_ok_grows s L s' L' target r :
  wf s L → grows s L s' L' → reader_ok s L target r → reader_ok s' L' target r.
Proof.
  intros Hwf (_ & _ & Hkk & HL). destruct r as [|x level|res]; [done| |done]. cbn. intros [Hl Hx]. split; [done|].
  destruct Hx as [|[Hin Hlt]]; [by left|right]. split; [by apply HL|].
  rewrite Hkk; [done|]. by apply (wf_node _ _ Hwf level).
Qed.

(** A step of the writer: the list stays well-formed and grows. *)
Lemma writer_step_ok s w s' w' L :
  writer_step (s, w) (s', w') → wf s L → writer_ok s L w →
  ∃ L', wf s' L' ∧ writer_ok s' L' w' ∧ grows s L s' L'.
Proof.
  intros Hstep Hwf Hw. inversion Hstep; subst; cbn [writer_ok] in Hw.
  - exists L. split; [done|]. split; [|apply grows_refl].
    match goal with Hb : begin_insert _ _ = _, Hg : good key |- _ => rename Hb into Hbegin, Hg into Hkey end.
    pose proof (begin_insert_fresh _ _ _ _ Hwf Hkey Hbegin) as Hf.
    destruct (begin_insert_ok s' L key Hwf Hkey Hf) as (prev' & height' & rnd' & E & Hh & Hs). cbn [writer_ok].
    rewrite E in Hbegin. injection Hbegin as <- <- <-. split; [done|by split].
  - destruct Hw as (Hk & Hh & Hs). destruct (raise_ok s L height rnd Hwf ltac:(lia)) as (Hwf' & Hg & Hm).
    exists L. split; [done|]. split; [|done]. cbn [writer_ok]. split; [done|]. split; [lia|]. exact Hs.
  - destruct Hw as (Hk & Hh & Hs). destruct (NewNode_ok s L key height prev Hwf Hk ltac:(lia) Hs) as [Hins Hg].
    exists L. split; [apply Hins|]. by split.
  - destruct (prepare_ok s L key x prev i height Hw) as (s1 & E & Hins & Hg); [done|].
    match goal with Hp : prepare _ _ _ _ = _ |- _ => rewrite E in Hp; injection Hp as <- end.
    exists L. split; [apply Hins|]. by split.
  - destruct (publish_ok s L key x prev i height Hw) as (s1 & L1 & E & Hins & Hg & _).
    match goal with Hp : publish _ _ _ _ = _ |- _ => rewrite E in Hp; injection Hp as <- end.
    exists L1. split; [apply Hins|]. by split.
  - exists L. split; [done|]. split; [done|]. apply grows_refl.
Qed.

(** What a reader sees when it loads a link. *)
Lemma reader_sees s L target x level :
  wf s L → good target → reader_ok s L target (Searching x level) →
  ∃ A B, standing s L level x A B ∧ Node_Next s x level = Ok (head B) ∧
    KeyIsAfterNode s target (head B) = Ok (match head B with Some b => kord (kk s b) target <? 0 | None => false end) ∧
    Forall (λ a, kord (kk s a) target < 0) A.
Proof.
  intros Hwf Ht [Hl Hx]. destruct (standing_exists s L level x) as (A & B & Hs); [tauto|]. exists A, B. split; [done|].
  split; [by apply Node_Next_link, (standing_link s L level x A B)|]. split; [by apply (KeyIsAfterNode_ok s L level x A B)|].
  apply (standing_below s L level x A B target); [done..|]. tauto.
Qed.

Lemma reader_step_ok s L target r r' :
  wf s L → good target → reader_ok s L target r → reader_step s target r r' → reader_ok s L target r'.
Proof.
  intros Hwf Ht Hr Hstep. pose proof (wf_max _ _ Hwf) as Hmax. inversion Hstep; subst; cbn [reader_ok].
  - split; [lia|by left].
  - destruct (reader_sees s L target _ _ Hwf Ht Hr) as (A & B & [HL _] & Hn & Hk & _).
    split; [apply Hr|right]. rewrite Hn in *. simplify_eq.
    destruct B as [|b B]; [done|]. cbn [head] in *. simplify_eq.
    split; [rewrite HL; apply elem_of_app; right; by left|].
    match goal with Hc : KeyIsAfterNode _ _ _ = Ok true |- _ => rewrite Hc in Hk end. simplify_eq. by apply Z.ltb_lt.
  - destruct Hr as [Hl Hx]. split; [lia|]. destruct Hx as [|[Hin Hlt]]; [by left|right]. split; [|done]. by apply (wf_sub _ _ Hwf).
  - done.
Qed.

Lemma system_step_ok target c c' L :
  good target → system_step target c c' → system_ok target c L →
  ∃ L', system_ok target c' L' ∧ grows c.1.1 L c'.1.1 L'.
Proof.
  intros Ht Hstep. destruct Hstep as [s w s' w' r Hw|s w r r' Hr]; intros (Hwf & Hwok & Hrok).
  - destruct (writer_step_ok s w s' w' L Hw Hwf Hwok) as (L' & Hwf' & Hwok' & Hg). exists L'.
    split; [|done]. split; [done|]. split; [done|]. exact (reader_ok_grows _ _ _ _ _ _ Hwf Hg Hrok).
  - exists L. split; [|apply grows_refl]. split; [done|]. split; [done|]. exact (reader_step_ok _ _ _ _ _ Hwf Ht Hrok Hr).
Qed.

Lemma system_steps_ok target c c' L :
  good target → rtc (system_step target) c c' → system_ok target c L →
  ∃ L', system_ok target c' L' ∧ grows c.1.1 L c'.1.1 L'.
Proof.
  intros Ht Hsteps. revert L. induction Hsteps as [c|c1 c2 c3 Hstep _ IH]; intros L Hok.
  - exists L. split; [done|apply grows_refl].
  - destruct (system_step_ok _ _ _ _ Ht Hstep Hok) as (L2 & Hok2 & Hg2).
    destruct (IH L2 Hok2) as (L3 & Hok3 & Hg3). exists L3. split; [done|]. by eapply grows_trans.
Qed.

(** *** What readers return *)

(** The result is the first node whose key is not below the target. *)
Definition first_not_below (s : SkipList Key) (keys : list Key) (target : Key) (result : option nat) : Prop :=
  ∃ A B, keys = A ++ B ∧ Forall (λ k, kord k target < 0) A ∧ Forall (λ k, 0 ≤ kord k target) B ∧
    (kk s <$> result) = head B.

Lemma reader_found s L target r result :
  wf s L → good target → reader_ok s L target r → reader_step s target r (Found result) →
  first_not_below s (map (kk s) (L 0%nat)) target result.
Proof.
  intros Hwf Ht Hr Hstep. inversion Hstep; subst.
  destruct (reader_sees s L target _ _ Hwf Ht Hr) as (A & B & [HL _] & Hn & Hk & HA). rewrite Hn in *. simplify_eq.
  assert (divided s L target 0 A B) as (_ & _ & HB).
  { apply (divided_from s L 0 A B target Hwf ltac:(unfold kMaxHeight; lia) Ht HL HA). intros b Hb. rewrite Hb in *.
    match goal with Hc : KeyIsAfterNode _ _ _ = Ok false |- _ => rewrite Hc in Hk end. simplify_eq.
    match goal with Hc : false = _ |- _ => symmetry in Hc; by apply Z.ltb_ge in Hc end. }
  exists (map (kk s) A), (map (kk s) B). split; [by rewrite HL, map_app|].
  split; [by apply Forall_map|]. split; [by apply Forall_map|]. by destruct B.
Qed.

(** A reader takes a step, whatever the writer is doing. *)
Lemma reader_progress s L target r :
  wf s L → good target → reader_ok s L target r → (∀ result, r ≠ Found result) → ∃ r', reader_step s target r r'.
Proof.
  intros Hwf Ht Hr Hnot. pose proof (wf_max _ _ Hwf) as Hmax. destruct r as [|x level|result]; [| |by destruct (Hnot result)].
  - exists (Searching head_ 0). apply read_start. lia.
  - destruct (reader_sees s L target x level Hwf Ht Hr) as (A & B & _ & Hn & Hk & _).
    destruct (match head B with Some b => kord (kk s b) target <? 0 | None => false end) eqn:E.
    + destruct (head B) as [b|] eqn:Eb; [|done]. exists (Searching b level). by apply read_right.
    + destruct level as [|level]; [exists (Found (head B)); by apply read_found|].
      exists (Searching x level). by eapply read_down.
Qed.

(** The steps that a reader may still take while the writer pauses. *)
Lemma reader_bounded s L target n x level A0 B0 r' :
  wf s L → good target → reader_ok s L target (Searching x level) → standing s L 0 x A0 B0 →
  nsteps (reader_step s target) n (Searching x level) r' → (n ≤ S (length B0 + level))%nat.
Proof.
  intros Hwf Ht. revert x level A0 B0. induction n as [|n IH]; intros x level A0 B0 Hr Hs0 Hsteps; [lia|].
  inversion Hsteps as [|n' r1 r2 r3 Hstep Hrest]; subst.
  pose proof (reader_step_ok _ _ _ _ _ Hwf Ht Hr Hstep) as Hr2.
  destruct (reader_sees s L target x level Hwf Ht Hr) as (A & B & Hs & Hn & _).
  inversion Hstep; subst.
  - match goal with Hx : Node_Next _ _ _ = Ok (Some _) |- _ => rewrite Hn in Hx; injection Hx as Hx; rename Hx into Hb end.
    destruct B as [|b B]; [done|]. injection Hb as ->.
    destruct (standing_right s L level x A _ B A0 B0 Hwf (proj1 Hr) Hs Hs0) as (A1 & B1 & Hs1 & Hlen).
    specialize (IH _ level A1 B1 Hr2 Hs1 Hrest). lia.
  - match goal with Hx : nsteps _ _ (Searching x ?l) _ |- _ => specialize (IH x l A0 B0 Hr2 Hs0 Hrest) end. lia.
  - destruct n as [|n]; [lia|]. inversion Hrest as [|n' q1 q2 q3 Hbad _]; subst. inversion Hbad.
Qed.

Lemma reader_length s L target n r r' :
  wf s L → good target → reader_ok s L target r → nsteps (reader_step s target) n r r' → (n ≤ S (search_fuel s))%nat.
Proof.
  intros Hwf Ht Hr Hsteps. assert (0 < kMaxHeight)%nat as H0 by (unfold kMaxHeight; lia).
  pose proof (level_length s L 0 Hwf H0) as Hlen. pose proof (wf_max _ _ Hwf) as Hmax. unfold search_fuel.
  assert (∀ n x level r', reader_ok s L target (Searching x level) → nsteps (reader_step s target) n (Searching x level) r' →
    (n ≤ S (length (nodes s) + kMaxHeight))%nat) as Hsearch.
  { clear n r r' Hr Hsteps. intros n x level r' [Hl Hx] Hsteps. destruct (standing_exists s L 0 x) as (A0 & B0 & Hs0).
    - destruct Hx as [|[Hin _]]; [by left|right]. by apply (wf_sub_le s L 0 level); [|lia|].
    - pose proof (reader_bounded s L target n x level A0 B0 r' Hwf Ht (conj Hl Hx) Hs0 Hsteps) as Hb.
      destruct Hs0 as [HL _]. rewrite HL, length_app in Hlen. lia. }
  destruct n as [|n]; [lia|]. inversion Hsteps as [|n' r1 r2 r3 Hstep Hrest]; subst.
  pose proof (reader_step_ok _ _ _ _ _ Hwf Ht Hr Hstep) as Hr2.
  destruct r2 as [|x level|res]; [inversion Hstep| |].
  - specialize (Hsearch n x level r' Hr2 Hrest). lia.
  - destruct n as [|n]; [lia|]. inversion Hrest as [|n' q1 q2 q3 Hbad _]; subst. inversion Hbad.
Qed.

Lemma reader_steps_ok s L target r r' :
  wf s L → good target → reader_ok s L target r → rtc (reader_step s target) r r' → reader_ok s L target r'.
Proof. intros Hwf Ht Hr. induction 1 as [|r1 r2 r3 Hstep _ IH]; [done|]. apply IH. exact (reader_step_ok _ _ _ _ _ Hwf Ht Hr Hstep). Qed.

(** The keys of the list stay in it. *)
Lemma grows_keys s L s' L' k :
  wf s L → grows s L s' L' → k ∈ map (kk s) (L 0%nat) → k ∈ map (kk s') (L' 0%nat).
Proof.
  intros Hwf (_ & _ & Hkk & HL) Hk. apply list_elem_of_fmap in Hk as (a & -> & Ha).
  assert (0 < kMaxHeight)%nat as H0 by (unfold kMaxHeight; lia).
  rewrite <- Hkk by by apply (wf_node _ _ Hwf 0). apply list_elem_of_fmap_2. by apply HL.
Qed.

(** What holds after any steps from a list at rest. *)
Lemma system_reached keys s0 s w r target :
  good target → contents s0 keys → rtc (system_step target) (s0, Idle, Fresh) (s, w, r) →
  ∃ L, system_ok target (s, w, r) L ∧ ∀ k, k ∈ keys → k ∈ map (kk s) (L 0%nat).
Proof.
  intros Ht (L0 & Hwf & ->) Hsteps.
  destruct (system_steps_ok _ _ _ L0 Ht Hsteps) as (L & Hok & Hg); [done|]. exists L. split; [done|].
  intros k. by apply grows_keys.
Qed.

(** C14: the skip list is a sorted list of its keys: keys without equal ones, inserted one
    after the other in any order, are kept in increasing order; [Contains] finds exactly the
    keys that are there; and an iterator is a position in that list, which [Next], [Prev],
    [SeekToFirst], [SeekToLast] and [Seek] - to the first key that is not below the target -
    move as they should, whatever heights the random numbers give the nodes. *)
Theorem SkipList_refines keys :
  Forall good keys → ForallOrdPairs (λ a b, kord a b ≠ 0) keys →
  ∃ s sorted, Insert_all new_SkipList keys = Ok s ∧ sorted ≡ₚ keys ∧
    StronglySorted (λ a b, kord a b < 0) sorted ∧
    (∀ key, good key → Contains s key = Ok (existsb (λ k, kord k key =? 0) sorted)) ∧
    skip_iterates s sorted (skip_on s sorted).
Proof.
  intros Hg Hd. destruct (contents_Insert_all keys new_SkipList [] contents_new Hg Hd) as (s & sorted & E & Hc & Hp).
  { apply Forall_forall. intros k _. constructor. }
  exists s, sorted. split; [done|]. split; [done|]. split; [by apply contents_sorted in Hc as [? _]|].
  split; [|by apply contents_iterates]. intros key. by apply contents_Contains.
Qed.

(** C15: readers need no lock: while the writer is anywhere in its insertions - each store to
    a link or to the height being one step, in any interleaving with the loads of the
    reader - what [FindGreaterOrEqual] returns is the first node of the list as it is at
    the moment of its last load whose key is not below the target, and the list then has
    every key that it had when the reader started. *)
Theorem SkipList_readers_safe keys0 s0 s w r target result :
  contents s0 keys0 → good target → rtc (system_step target) (s0, Idle, Fresh) (s, w, r) →
  reader_step s target r (Found result) →
  ∃ keys, contents s keys ∧ (∀ k, k ∈ keys0 → k ∈ keys) ∧ first_not_below s keys target result.
Proof.
  intros Hc Ht Hsteps Hstep. destruct (system_reached _ _ _ _ _ _ Ht Hc Hsteps) as (L & (Hwf & _ & Hr) & Hin).
  exists (map (kk s) (L 0%nat)). split; [by exists L|]. split; [done|].
  exact (reader_found s L target r result Hwf Ht Hr Hstep).
Qed.

(** C16: Readers finish: wherever the writer stops in an insertion, a reader that has not
    found its node can take a step, and takes no more steps than there are nodes and
    levels, and two, before it has. *)
Theorem SkipList_readers_finish keys0 s0 s w r target :
  contents s0 keys0 → good target → rtc (system_step target) (s0, Idle, Fresh) (s, w, r) →
  (∀ r', rtc (reader_step s target) r r' → (∃ result, r' = Found result) ∨ ∃ r'', reader_step s target r' r'') ∧
  (∀ n r', nsteps (reader_step s target) n r r' → (n ≤ length (nodes s) + kMaxHeight + 2)%nat).
Proof.
  intros Hc Ht Hsteps. destruct (system_reached _ _ _ _ _ _ Ht Hc Hsteps) as (L & (Hwf & _ & Hr) & _). split.
  - intros r' Hrest. pose proof (reader_steps_ok s L target r r' Hwf Ht Hr Hrest) as Hr'.
    destruct r' as [|x level|result]; [right|right|left; by exists result]; by apply (reader_progress s L).
  - intros n r' Hrest. pose proof (reader_length s L target n r r' Hwf Ht Hr Hrest) as Hn. unfold search_fuel in Hn. lia.
Qed.

End concurrent.

(** ** A list of integers *)

#[local] Instance Z_keys : KeyCompare Z := {| compare_ a b := Ok (a - b); null_key := 0 |}.

#[local] Instance Z_key_laws : @KeyCompareLaws Z Z_keys.
Proof. refine (@Build_KeyCompareLaws Z Z_keys (λ _, True) Z.sub _ _ _); intros; cbn; (done || lia). Defined.

Lemma SkipList_refines_witness :
  ∃ s sorted, Insert_all new_SkipList [5; 3; 9] = Ok s ∧ sorted ≡ₚ [5; 3; 9] ∧
    StronglySorted (λ a b : Z, kord a b < 0) sorted.
Proof.
  destruct (SkipList_refines [5; 3; 9]) as (s & sorted & H1 & H2 & H3 & _).
  - by repeat constructor.
  - by repeat constructor.
  - exists s, sorted. exact (conj H1 (conj H2 H3)).
Defined.

(** A list of 3 and 9, in which 5 gets linked while a reader that looks for 4 is at 3. *)
Definition sample_list : SkipList Z :=
  match Insert_all new_SkipList [3; 9] with Ok s => s | _ => new_SkipList end.

Lemma sample_contents : ∃ keys, contents sample_list keys.
Proof.
  destruct (contents_Insert_all [3; 9] new_SkipList [] contents_new) as (s & sorted & E & Hc & _); [by repeat constructor..|].
  exists sorted. unfold sample_list. by rewrite E.
Qed.

Lemma system_example :
  ∃ s w, rtc (system_step 4) (sample_list, Idle, Fresh) (s, w, Searching 1 0) ∧
    reader_step s 4 (Searching 1 0) (Found (Some 3%nat)) ∧ kk s 3 = 5.
Proof.
  eexists _, _. split; [|split].
  - eapply rtc_l; [apply by_reader, (read_start _ _ 0); vm_compute; lia|].
    eapply rtc_l; [apply by_writer, (step_begin _ 5); [done|vm_compute; reflexivity]|].
    eapply rtc_l; [apply by_reader, (read_right _ _ _ _ 1); vm_compute; reflexivity|].
    eapply rtc_l; [apply by_writer, step_raise|].
    eapply rtc_l; [apply by_writer, step_new|].
    eapply rtc_l; [apply by_writer, step_prepare; [lia|vm_compute; reflexivity]|].
    eapply rtc_l; [apply by_writer, step_publish; vm_compute; reflexivity|]. apply rtc_refl.
  - apply read_found; vm_compute; reflexivity.
  - vm_compute. reflexivity.
Qed.

Lemma SkipList_readers_safe_witness :
  ∃ s keys, kk s 3 = 5 ∧ contents s keys ∧ first_not_below s keys 4 (Some 3%nat).
Proof.
  destruct sample_contents as [keys0 Hc]. destruct system_example as (s & w & Hsteps & Hstep & Hk).
  destruct (SkipList_readers_safe keys0 sample_list s w _ 4 (Some 3%nat) Hc I Hsteps Hstep) as (keys & Hkeys & _ & Hfirst).
  exists s, keys. exact (conj Hk (conj Hkeys Hfirst)).
Defined.

Lemma SkipList_readers_finish_witness :
  ∃ s, (∃ r', reader_step s 4 (Searching 1 0) r') ∧
    ∀ n r', nsteps (reader_step s 4) n (Searching 1 0) r' → (n ≤ length (nodes s) + kMaxHeight + 2)%nat.
Proof.
  destruct sample_contents as [keys0 Hc]. destruct system_example as (s & w & Hsteps & Hstep & _).
  exists s. split; [by exists (Found (Some 3%nat))|].
  exact (proj2 (SkipList_readers_finish keys0 sample_list s w _ 4 Hc I Hsteps)).
Defined.
