(* ===== verification/LdbLog.v ===== *)
(** * LevelDB, db/log: the log of the database

    The log format (db/log_format.h, doc/log_format.md), its writer (db/log_writer.cc) and
    its reader (db/log_reader.cc), over the file interfaces of LdbEnv.v.  What the writer
    writes the reader reads, also when the file ends early. *)

From S2P Require Import Prelude LdbCoding LdbCrc LdbEnv.

(** What a reader still has to read is not changed by reporting and noting. *)
Create HintDb input.

(** ** The format *)

Definition kZeroType : Z := 0.
Definition kFullType : Z := 1.
Definition kFirstType : Z := 2.
Definition kMiddleType : Z := 3.
Definition kLastType : Z := 4.
Definition kMaxRecordType : Z := kLastType.

Definition kBlockSize : Z := 32768.
Definition kHeaderSize : Z := 4 + 2 + 1.

(** ** The writer *)

Section writer.
Context `{Memory} {F : Type} `{WritableFile F}.

Record Writer : Type := { dest_ : F; block_offset_ : Z; type_crc_ : list Z }.

Fixpoint InitTypeCrc_loop (n : nat) (i : Z) : outcome (list Z) :=
  match n with
  | O => Ok []
  | S n => c ← Value (address [u8 i]) [u8 i]; l ← InitTypeCrc_loop n (i + 1); Ok (c :: l)
  end.
Definition InitTypeCrc : outcome (list Z) := InitTypeCrc_loop (Z.to_nat (kMaxRecordType + 1)) 0.

Definition new_Writer (dest : F) (dest_length : Z) : outcome Writer :=
  type_crc ← InitTypeCrc;
  Ok {| dest_ := dest; block_offset_ := dest_length mod kBlockSize; type_crc_ := type_crc |}.

Definition set_dest (this : Writer) (dest : F) (offset : Z) : Writer :=
  {| dest_ := dest; block_offset_ := offset; type_crc_ := type_crc_ this |}.

(** The assertions, and a header and a payload appended one after the other. *)
Definition EmitPhysicalRecord (this : Writer) (t : Z) (ptr : list Z) : outcome (Status * Writer) :=
  let length := len ptr in
  _ ← require (length <=? 0xffff) OutOfBounds;
  _ ← require (block_offset_ this + kHeaderSize + length <=? kBlockSize) OutOfBounds;
  type_crc ← byte_at (type_crc_ this) t;
  crc ← Extend (address ptr) type_crc ptr;
  let crc := Mask crc in
  let buf := EncodeFixed32 crc ++ [Z.land length 0xff; u8 (Z.shiftr length 8); u8 t] in
  s ← Append buf (dest_ this);
  s ← (if ok s.1 then
         s ← Append ptr s.2;
         if ok s.1 then Flush s.2 else Ok s
       else Ok s);
  Ok (s.1, set_dest this s.2 (block_offset_ this + kHeaderSize + length)).

(** The start of an iteration: a trailer too short for a header is filled. *)
Definition switch_block (this : Writer) : outcome Writer :=
  let leftover := kBlockSize - block_offset_ this in
  _ ← require (0 <=? leftover) OutOfBounds;
  if leftover <? kHeaderSize then
    if 0 <? leftover
    then r ← Append (replicate (Z.to_nat leftover) 0) (dest_ this); Ok (set_dest this r.2 0)
    else Ok (set_dest this (dest_ this) 0)
  else Ok this.

Fixpoint AddRecord_loop (fuel : nat) (this : Writer) (ptr : list Z) (begin : bool) :
    outcome (Status * Writer) :=
  match fuel with
  | O => Fault Diverges
  | S fuel =>
      this ← switch_block this;
      _ ← require (0 <=? kBlockSize - block_offset_ this - kHeaderSize) OutOfBounds;
      let avail := kBlockSize - block_offset_ this - kHeaderSize in
      let left := len ptr in
      let fragment_length := if left <? avail then left else avail in
      let end_ := left =? fragment_length in
      let type := if begin && end_ then kFullType
                  else if begin then kFirstType
                  else if end_ then kLastType
                  else kMiddleType in
      r ← EmitPhysicalRecord this type (take (Z.to_nat fragment_length) ptr);
      let ptr := drop (Z.to_nat fragment_length) ptr in
      if ok r.1 && (0 <? len ptr) then AddRecord_loop fuel r.2 ptr false else Ok r
  end.

(** Every fragment but an empty first one takes a byte of the record. *)
Definition AddRecord (this : Writer) (slice : Slice) : outcome (Status * Writer) :=
  AddRecord_loop (S (S (length slice))) this slice true.

End writer.
Arguments Writer F : clear implicits.

(** ** The reader *)

Section reader.
Context `{Memory} {F : Type} `{SequentialFile F}.

Definition kEof : Z := kMaxRecordType + 1.
Definition kBadRecord : Z := kMaxRecordType + 2.

(** [reporter_] is [None] for NULL, or what was reported to it so far. *)
Record Reader : Type := {
  file_ : F; reporter_ : option (list (Z * Status)); checksum_ : bool; buffer_ : Slice;
  eof_ : bool; last_record_offset_ : Z; end_of_buffer_offset_ : Z; initial_offset_ : Z;
  resyncing_ : bool
}.

Definition new_Reader (file : F) (reporter : option (list (Z * Status))) (checksum : bool)
    (initial_offset : Z) : Reader :=
  {| file_ := file; reporter_ := reporter; checksum_ := checksum; buffer_ := []; eof_ := false;
     last_record_offset_ := 0; end_of_buffer_offset_ := 0; initial_offset_ := initial_offset;
     resyncing_ := 0 <? initial_offset |}.

Definition set_file (r : Reader) (file : F) (buffer : Slice) (eof : bool) (end_of_buffer : Z) : Reader :=
  {| file_ := file; reporter_ := reporter_ r; checksum_ := checksum_ r; buffer_ := buffer; eof_ := eof;
     last_record_offset_ := last_record_offset_ r; end_of_buffer_offset_ := end_of_buffer;
     initial_offset_ := initial_offset_ r; resyncing_ := resyncing_ r |}.
Definition set_buffer (r : Reader) (buffer : Slice) : Reader :=
  set_file r (file_ r) buffer (eof_ r) (end_of_buffer_offset_ r).
Definition set_reporter (r : Reader) (reporter : option (list (Z * Status))) : Reader :=
  {| file_ := file_ r; reporter_ := reporter; checksum_ := checksum_ r; buffer_ := buffer_ r;
     eof_ := eof_ r; last_record_offset_ := last_record_offset_ r;
     end_of_buffer_offset_ := end_of_buffer_offset_ r; initial_offset_ := initial_offset_ r;
     resyncing_ := resyncing_ r |}.
Definition set_progress (r : Reader) (last_record : Z) (resyncing : bool) : Reader :=
  {| file_ := file_ r; reporter_ := reporter_ r; checksum_ := checksum_ r; buffer_ := buffer_ r;
     eof_ := eof_ r; last_record_offset_ := last_record;
     end_of_buffer_offset_ := end_of_buffer_offset_ r; initial_offset_ := initial_offset_ r;
     resyncing_ := resyncing |}.

Definition ReportDrop (r : Reader) (bytes : Z) (reason : Status) : Reader :=
  match reporter_ r with
  | Some reports =>
      if initial_offset_ r <=? u64 (end_of_buffer_offset_ r - len (buffer_ r) - bytes)
      then set_reporter r (Some (reports ++ [(bytes, reason)]))
      else r
  | None => r
  end.
Definition ReportCorruption (r : Reader) (bytes : Z) (reason : list Z) : Reader :=
  ReportDrop r bytes (Corruption reason []).

Definition SkipToInitialBlock (r : Reader) : outcome (bool * Reader) :=
  let offset_in_block := initial_offset_ r mod kBlockSize in
  let block_start_location := initial_offset_ r - offset_in_block in
  let block_start_location :=
    if kBlockSize - 6 <? offset_in_block then u64 (block_start_location + kBlockSize)
    else block_start_location in
  let r := set_file r (file_ r) (buffer_ r) (eof_ r) block_start_location in
  if 0 <? block_start_location then
    s ← Skip block_start_location (file_ r);
    let r := set_file r s.2 (buffer_ r) (eof_ r) (end_of_buffer_offset_ r) in
    if negb (ok s.1) then Ok (false, ReportDrop r block_start_location s.1) else Ok (true, r)
  else Ok (true, r).

(** The part after the buffer holds a header.  [result] is the slice to be set. *)
Definition parse_record (r : Reader) (result : Slice) : outcome (Z * Slice * Reader) :=
  let header := buffer_ r in
  h4 ← byte_at header 4;
  h5 ← byte_at header 5;
  h6 ← byte_at header 6;
  let a := Z.land (u32 (swrap 8 h4)) 0xff in
  let b := Z.land (u32 (swrap 8 h5)) 0xff in
  let type := u32 (swrap 8 h6) in
  let length := Z.lor a (u32 (Z.shiftl b 8)) in
  if len (buffer_ r) <? u32 (kHeaderSize + length) then
    let drop_size := len (buffer_ r) in
    let r := set_buffer r [] in
    if negb (eof_ r) then Ok (kBadRecord, result, ReportCorruption r drop_size (text "bad record length"))
    else Ok (kEof, result, r)
  else if (type =? kZeroType) && (length =? 0) then Ok (kBadRecord, result, set_buffer r [])
  else
    good ← (if checksum_ r then
              stored_crc ← DecodeFixed32 header;
              data ← read_at header 6 (1 + length);
              actual_crc ← Value (address data) data;
              Ok (actual_crc =? Unmask stored_crc)
            else Ok true);
    if negb good then
      let drop_size := len (buffer_ r) in
      Ok (kBadRecord, result, ReportCorruption (set_buffer r []) drop_size (text "checksum mismatch"))
    else
      rest ← remove_prefix (buffer_ r) (kHeaderSize + length);
      let r := set_buffer r rest in
      if u64 (end_of_buffer_offset_ r - len (buffer_ r) - kHeaderSize - length) <? initial_offset_ r
      then Ok (kBadRecord, [], r)
      else payload ← read_at header kHeaderSize length; Ok (type, payload, r).

Fixpoint ReadPhysicalRecord_loop (fuel : nat) (r : Reader) (result : Slice) :
    outcome (Z * Slice * Reader) :=
  match fuel with
  | O => Fault Diverges
  | S fuel =>
      if len (buffer_ r) <? kHeaderSize then
        if negb (eof_ r) then
          s ← Read kBlockSize [] (file_ r);
          let '(status, buffer, file) := s in
          let end_of_buffer := u64 (end_of_buffer_offset_ r + len buffer) in
          if negb (ok status) then
            let r := set_file r file [] (eof_ r) end_of_buffer in
            let r := ReportDrop r kBlockSize status in
            Ok (kEof, result, set_file r (file_ r) (buffer_ r) true (end_of_buffer_offset_ r))
          else
            ReadPhysicalRecord_loop fuel
              (set_file r file buffer (if len buffer <? kBlockSize then true else eof_ r) end_of_buffer)
              result
        else Ok (kEof, result, set_buffer r [])
      else parse_record r result
  end.

(** A read that is not full is the last one: three rounds are enough. *)
Definition ReadPhysicalRecord (r : Reader) (result : Slice) : outcome (Z * Slice * Reader) :=
  ReadPhysicalRecord_loop 3 r result.

(** The loop over physical records; the result is what [ReadRecord] returns, [*record] and
    [*scratch]. *)
Fixpoint ReadRecord_loop (fuel : nat) (r : Reader) (scratch : list Z) (in_fragmented_record : bool)
    (prospective_record_offset : Z) (fragment : Slice) : outcome (bool * Slice * list Z * Reader) :=
  match fuel with
  | O => Fault Diverges
  | S fuel =>
      p ← ReadPhysicalRecord r fragment;
      let '(record_type, fragment, r) := p in
      let physical_record_offset :=
        u64 (end_of_buffer_offset_ r - len (buffer_ r) - kHeaderSize - len fragment) in
      if resyncing_ r && (record_type =? kMiddleType) then
        ReadRecord_loop fuel r scratch in_fragmented_record prospective_record_offset fragment
      else if resyncing_ r && (record_type =? kLastType) then
        ReadRecord_loop fuel (set_progress r (last_record_offset_ r) false) scratch
          in_fragmented_record prospective_record_offset fragment
      else
        let r := set_progress r (last_record_offset_ r) false in
        if record_type =? kFullType then
          let r := if in_fragmented_record && (0 <? len scratch)
                   then ReportCorruption r (len scratch) (text "partial record without end(1)") else r in
          Ok (true, fragment, [], set_progress r physical_record_offset (resyncing_ r))
        else if record_type =? kFirstType then
          let r := if in_fragmented_record && (0 <? len scratch)
                   then ReportCorruption r (len scratch) (text "partial record without end(2)") else r in
          ReadRecord_loop fuel r fragment true physical_record_offset fragment
        else if record_type =? kMiddleType then
          if negb in_fragmented_record then
            ReadRecord_loop fuel
              (ReportCorruption r (len fragment) (text "missing start of fragmented record(1)"))
              scratch in_fragmented_record prospective_record_offset fragment
          else ReadRecord_loop fuel r (scratch ++ fragment) in_fragmented_record
                 prospective_record_offset fragment
        else if record_type =? kLastType then
          if negb in_fragmented_record then
            ReadRecord_loop fuel
              (ReportCorruption r (len fragment) (text "missing start of fragmented record(2)"))
              scratch in_fragmented_record prospective_record_offset fragment
          else
            let scratch := scratch ++ fragment in
            Ok (true, scratch, scratch, set_progress r prospective_record_offset (resyncing_ r))
        else if record_type =? kEof then
          Ok (false, [], if in_fragmented_record then [] else scratch, r)
        else if record_type =? kBadRecord then
          if in_fragmented_record then
            ReadRecord_loop fuel (ReportCorruption r (len scratch) (text "error in middle of record"))
              [] false prospective_record_offset fragment
          else ReadRecord_loop fuel r scratch in_fragmented_record prospective_record_offset fragment
        else
          ReadRecord_loop fuel
            (ReportCorruption r (len fragment + (if in_fragmented_record then len scratch else 0))
               (text "unknown record type " ++ NumberToString record_type))
            [] false prospective_record_offset fragment
  end.

(** [record] and [scratch] are what the caller's variables held. *)
Definition ReadRecord (fuel : nat) (r : Reader) (record : Slice) (scratch : list Z) :
    outcome (bool * Slice * list Z * Reader) :=
  if last_record_offset_ r <? initial_offset_ r then
    s ← SkipToInitialBlock r;
    if negb s.1 then Ok (false, record, scratch, s.2)
    else ReadRecord_loop fuel s.2 [] false 0 []
  else ReadRecord_loop fuel r [] false 0 [].

Definition LastRecordOffset (r : Reader) : Z := last_record_offset_ r.

End reader.
Arguments Reader F : clear implicits.

(** ** What the format says

    A record at an offset of a block, as the bytes that store it and the offset after
    them: [begin] tells whether it is the start of a user record. *)

Definition physical (t : Z) (payload : list Z) : list Z :=
  EncodeFixed32 (Mask (crc32c 0 (t :: payload))) ++ [len payload mod 256; len payload / 256; t] ++ payload.

Inductive fragments : bool → Z → list Z → list Z → Z → Prop :=
  | fragments_trailer begin off data out off' :
      kBlockSize - kHeaderSize < off ≤ kBlockSize →
      fragments begin 0 data out off' →
      fragments begin off data (replicate (Z.to_nat (kBlockSize - off)) 0 ++ out) off'
  | fragments_last (begin : bool) off data :
      0 ≤ off → off + kHeaderSize + len data ≤ kBlockSize →
      fragments begin off data (physical (if begin then kFullType else kLastType) data)
        (off + kHeaderSize + len data)
  | fragments_more (begin : bool) off data data' out off' :
      0 ≤ off → off + kHeaderSize + len data = kBlockSize → data' ≠ [] →
      fragments false kBlockSize data' out off' →
      fragments begin off (data ++ data')
        (physical (if begin then kFirstType else kMiddleType) data ++ out) off'.

(** User records one after the other. *)
Inductive logged : Z → list (list Z) → list Z → Z → Prop :=
  | logged_nil off : logged off [] [] off
  | logged_cons off data out off1 records rest off2 :
      fragments true off data out off1 → logged off1 records rest off2 →
      logged off (data :: records) (out ++ rest) off2.

Lemma logged_app off r1 o1 off1 r2 o2 off2 :
  logged off r1 o1 off1 → logged off1 r2 o2 off2 → logged off (r1 ++ r2) (o1 ++ o2) off2.
Proof.
  induction 1 as [off|off data out off' records rest off2' Hf Hl IH]; intros H2; [done|].
  cbn [app]. rewrite <- app_assoc. econstructor; [done|]. by apply IH.
Qed.

Lemma length_physical t payload : len (physical t payload) = kHeaderSize + len payload.
Proof. unfold physical, EncodeFixed32. rewrite !length_app, length_le_bytes. cbn. unfold kHeaderSize. lia. Qed.

Lemma physical_bytes t payload : is_byte t → len payload < 2 ^ 16 → bytes payload → bytes (physical t payload).
Proof.
  intros Ht Hl Hp. unfold physical. apply Forall_app_2; [apply le_bytes_bytes|].
  apply Forall_app_2; [|done]. repeat apply List.Forall_cons; try done; unfold in_width in *; lia_mod.
Qed.

(** A fragment ends within a block, and takes up room. *)
Lemma fragments_off begin off data out off' :
  fragments begin off data out off' → 0 ≤ off → 0 ≤ off' ≤ kBlockSize ∧ 0 < len out.
Proof.
  induction 1 as [begin off data out off' Hoff Hf IH|begin off data H0 H1|begin off data data' out off' H0 H1 Hne Hf IH];
    intros Hpos.
  - destruct IH; [lia|]. rewrite length_app. lia.
  - rewrite length_physical. unfold kHeaderSize in *. lia.
  - destruct IH; [done|]. rewrite length_app. lia.
Qed.

(** ** The writer writes it *)

Definition is_record_type (t : Z) : Prop := kFullType ≤ t ≤ kLastType.

Section writer_ok.
Context `{Memory} {F : Type} `{WritableFileLaws F}.

Definition type_crcs : list Z := map (λ t, crc32c 0 [t]) [0; 1; 2; 3; 4].

Lemma InitTypeCrc_ok : InitTypeCrc = Ok type_crcs.
Proof.
  unfold InitTypeCrc. change (Z.to_nat (kMaxRecordType + 1)) with 5%nat. cbn [InitTypeCrc_loop].
  rewrite !Value_ok by first [done | apply Forall_singleton, wrap_in_width; lia]. done.
Qed.

Record writer_ok (w : Writer F) : Prop := {
  writer_offset : 0 ≤ block_offset_ w ≤ kBlockSize;
  writer_crcs : type_crc_ w = type_crcs;
  writer_working : working (dest_ w)
}.

(** From [w] to [w'] the bytes [out] were written, and handed to the system. *)
Definition emitted (w w' : Writer F) (out : list Z) : Prop :=
  writer_ok w' ∧ written (dest_ w') = written (dest_ w) ++ out ∧ stored (dest_ w') = written (dest_ w').

Lemma EmitPhysicalRecord_ok w t ptr :
  writer_ok w → is_record_type t → bytes ptr → block_offset_ w + kHeaderSize + len ptr ≤ kBlockSize →
  ∃ w', EmitPhysicalRecord w t ptr = Ok (status_OK, w') ∧ emitted w w' (physical t ptr) ∧
    block_offset_ w' = block_offset_ w + kHeaderSize + len ptr.
Proof.
  intros [Ho Hc Hw] Ht Hb Hl. unfold is_record_type, kFullType, kLastType, kHeaderSize, kBlockSize in *.
  assert (crc32c 0 (t :: ptr) = crc32c (crc32c 0 [t]) ptr) as Hcrc by (by rewrite crc32c_app).
  assert (is_byte t) as Hbt by (unfold in_width; lia).
  unfold EmitPhysicalRecord, kHeaderSize, kBlockSize. repeat decide_test. cbn [require mbind outcome_bind].
  assert (byte_at (type_crc_ w) t = Ok (crc32c 0 [t])) as ->.
  { rewrite Hc. assert (t = 1 ∨ t = 2 ∨ t = 3 ∨ t = 4) as [->|[->|[->| ->]]] by lia; reflexivity. }
  cbn [mbind outcome_bind]. destruct (address_ok ptr); [lia|].
  rewrite Extend_crc32c; [|apply crc32c_in_width; [done|by apply Forall_singleton]|done..].
  cbn [mbind outcome_bind]. rewrite <- Hcrc.
  set (buf := EncodeFixed32 _ ++ _).
  assert (buf ++ ptr = physical t ptr) as Hphys.
  { unfold buf, physical. rewrite <- app_assoc. f_equal. cbn [app].
    rewrite land_0xFF, Z.shiftr_div_pow2, !wrap_small by (done || unfold in_width; lia_mod). done. }
  destruct (Append_working buf (dest_ w) Hw) as (f1 & -> & W1 & Hw1). cbn [mbind outcome_bind fst snd ok].
  destruct (Append_working ptr f1 Hw1) as (f2 & -> & W2 & Hw2). cbn [mbind outcome_bind fst snd ok].
  destruct (Flush_working f2 Hw2) as (f3 & -> & W3 & S3 & Hw3). cbn [mbind outcome_bind fst snd ok].
  eexists. split; [reflexivity|]. split; [|done]. split; [split; cbn; [unfold kBlockSize; lia|done|done]|].
  cbn [dest_ set_dest fst snd]. rewrite W3, W2, W1, <- app_assoc, Hphys. split; [done|]. by rewrite S3, W2, W1, <- app_assoc, Hphys.
Qed.

Lemma switch_block_ok w :
  writer_ok w →
  ∃ w' pad, switch_block w = Ok w' ∧ writer_ok w' ∧ written (dest_ w') = written (dest_ w) ++ pad ∧
    block_offset_ w' + kHeaderSize ≤ kBlockSize ∧
    (∀ begin data out off', fragments begin (block_offset_ w') data out off' →
      fragments begin (block_offset_ w) data (pad ++ out) off') ∧
    (block_offset_ w' = block_offset_ w ∨ block_offset_ w' = 0).
Proof.
  intros [Ho Hc Hw]. unfold switch_block. decide_test. cbn [require mbind outcome_bind].
  destruct (kBlockSize - block_offset_ w <? kHeaderSize) eqn:E; split_bool.
  - set (pad := replicate (Z.to_nat (kBlockSize - block_offset_ w)) 0).
    assert (∀ begin data out off', fragments begin 0 data out off' →
      fragments begin (block_offset_ w) data (pad ++ out) off') as Hpad.
    { intros. apply fragments_trailer; [lia|done]. }
    destruct (0 <? kBlockSize - block_offset_ w) eqn:E2; split_bool.
    + destruct (Append_working pad (dest_ w) Hw) as (f1 & -> & W1 & Hw1). cbn [mbind outcome_bind fst snd].
      eexists _, pad. split; [reflexivity|]. split_and!; [split|..]; try done; by right.
    + eexists _, pad. split; [reflexivity|].
      assert (pad = []) as Hnil by (unfold pad; by replace (kBlockSize - block_offset_ w) with 0 by lia).
      split_and!; [split|..]; try done; [|by right]. cbn. by rewrite Hnil, app_nil_r.
  - exists w, []. rewrite app_nil_r. split_and!; try done; [lia|by left].
Qed.

(** [fuel] counts the fragments still possible. *)
Lemma AddRecord_loop_ok fuel w data begin :
  writer_ok w → bytes data →
  (length data + (if decide (block_offset_ w = kBlockSize) then 0 else 1) < fuel)%nat →
  ∃ w' out, AddRecord_loop fuel w data begin = Ok (status_OK, w') ∧ emitted w w' out ∧
    fragments begin (block_offset_ w) data out (block_offset_ w').
Proof.
  revert w data begin. induction fuel as [|fuel IH]; intros w data begin Hw Hb Hf; [lia|].
  cbn [AddRecord_loop].
  destruct (switch_block_ok w Hw) as (w1 & pad & -> & Hw1 & W1 & Hroom & Hpad & Hzero).
  cbn [mbind outcome_bind]. decide_test. cbn [require mbind outcome_bind].
  set (avail := kBlockSize - block_offset_ w1 - kHeaderSize).
  replace (if len data <? avail then len data else avail) with (Z.min (len data) avail)
    by (destruct (_ <? _) eqn:E; split_bool; lia).
  assert (0 ≤ avail) by lia. pose proof (writer_offset w1 Hw1).
  destruct (Z.le_gt_cases (len data) avail) as [Hle|Hgt].
  - rewrite Z.min_l, Z.eqb_refl, Nat2Z.id, firstn_all, drop_all by lia.
    replace (if begin && true then _ else _) with (if begin then kFullType else kLastType) by (by destruct begin).
    destruct (EmitPhysicalRecord_ok w1 (if begin then kFullType else kLastType) data)
      as (w2 & -> & (Hw2 & W2 & S2) & O2); [done|by destruct begin|done|lia|].
    cbn [mbind outcome_bind fst snd length ok andb Z.ltb Z.compare Z.of_nat].
    exists w2, (pad ++ physical (if begin then kFullType else kLastType) data).
    split; [done|]. split; [split; [done|]; by rewrite S2, W2, W1, <- app_assoc|].
    apply Hpad. rewrite O2. apply fragments_last; lia.
  - rewrite Z.min_r, (proj2 (Z.eqb_neq (len data) avail)) by lia.
    replace (if begin && false then _ else _) with (if begin then kFirstType else kMiddleType) by (by destruct begin).
    set (d1 := take (Z.to_nat avail) data). set (d2 := drop (Z.to_nat avail) data).
    assert (d1 ++ d2 = data) as Hd by apply take_drop.
    assert (len d1 = avail) as Hl1 by (unfold d1; rewrite length_take; lia).
    assert (len d2 = len data - avail) as Hl2 by (unfold d2; rewrite length_drop; lia).
    rewrite <- Hd in Hb. apply Forall_app in Hb as [Hb1 Hb2].
    destruct (EmitPhysicalRecord_ok w1 (if begin then kFirstType else kMiddleType) d1)
      as (w2 & -> & (Hw2 & W2 & S2) & O2); [done|by destruct begin|done|lia|].
    cbn [mbind outcome_bind fst snd ok andb]. decide_test.
    assert (block_offset_ w2 = kBlockSize) as Hend by lia.
    destruct (IH w2 d2 false) as (w3 & out & -> & (Hw3 & W3 & S3) & Hf3); [done|done| |].
    { rewrite decide_True by done. destruct Hzero as [Hz|Hz].
      - rewrite decide_False in Hf by (unfold kHeaderSize in *; lia). lia.
      - unfold avail, kBlockSize, kHeaderSize in *. lia. }
    exists w3, (pad ++ physical (if begin then kFirstType else kMiddleType) d1 ++ out).
    split; [done|]. split; [split; [done|]; by rewrite S3, W3, W2, W1, <- !app_assoc|].
    apply Hpad. rewrite <- Hd. rewrite Hend in Hf3. apply fragments_more; try done; [lia|lia|].
    intros ->. cbn [length] in Hl2. lia.
Qed.

Lemma AddRecord_ok w data :
  writer_ok w → bytes data →
  ∃ w' out, AddRecord w data = Ok (status_OK, w') ∧ emitted w w' out ∧
    fragments true (block_offset_ w) data out (block_offset_ w').
Proof. intros Hw Hb. apply AddRecord_loop_ok; [done|done|]. destruct (decide _); lia. Qed.

(** Adding records until one fails. *)
Fixpoint AddRecords (w : Writer F) (records : list (list Z)) : outcome (Status * Writer F) :=
  match records with
  | [] => Ok (status_OK, w)
  | data :: records =>
      r ← AddRecord w data; if ok r.1 then AddRecords r.2 records else Ok r
  end.

Lemma AddRecords_ok w records :
  writer_ok w → Forall bytes records → stored (dest_ w) = written (dest_ w) →
  ∃ w' out, AddRecords w records = Ok (status_OK, w') ∧ emitted w w' out ∧
    logged (block_offset_ w) records out (block_offset_ w').
Proof.
  intros Hw Hr Hs. revert w Hw Hs. induction Hr as [|data records Hb Hr IH]; intros w Hw Hs.
  - exists w, []. split; [done|]. split; [split; [done|]; by rewrite app_nil_r|]. constructor.
  - cbn [AddRecords]. destruct (AddRecord_ok w data Hw Hb) as (w1 & o1 & -> & (Hw1 & W1 & S1) & F1).
    cbn [mbind outcome_bind fst snd ok].
    destruct (IH w1 Hw1 S1) as (w2 & o2 & -> & (Hw2 & W2 & S2) & L2).
    exists w2, (o1 ++ o2). split; [done|]. split; [split; [done|]; by rewrite S2, W2, W1, <- app_assoc|].
    by econstructor.
Qed.

Lemma new_Writer_ok dest dest_length :
  working dest → 0 ≤ dest_length →
  ∃ w, new_Writer dest dest_length = Ok w ∧ writer_ok w ∧ dest_ w = dest ∧
    block_offset_ w = dest_length mod kBlockSize.
Proof.
  intros Hd Hl. unfold new_Writer. rewrite InitTypeCrc_ok. cbn [mbind outcome_bind].
  eexists. split; [reflexivity|]. split; [|done]. split; [cbn|done|done].
  pose proof (Z.mod_pos_bound dest_length kBlockSize). unfold kBlockSize in *. lia.
Qed.

End writer_ok.

(** ** The reader reads it back *)

Section reader_ok.
Context `{Memory} {G : Type} `{SequentialFileLaws G}.

(** The bytes still to be parsed are [rest], the first of them at [off] in its block: the
    buffer runs to the end of the block, or to the end of the file. *)
Record aligned (r : Reader G) (off : Z) (rest : list Z) : Prop := {
  aligned_bytes : bytes rest;
  aligned_rest : rest = buffer_ r ++ unread (file_ r);
  aligned_off : 0 ≤ off ≤ kBlockSize;
  aligned_steady : steady (file_ r);
  aligned_plain : initial_offset_ r = 0 ∧ resyncing_ r = false ∧ 0 ≤ last_record_offset_ r;
  aligned_eof : if eof_ r then unread (file_ r) = [] ∧ off + len (buffer_ r) < kBlockSize
                else off + len (buffer_ r) = kBlockSize ∨ buffer_ r = [] ∧ off = 0
}.

(** Or the trailer of the block before is still in the buffer. *)
Definition at_offset (r : Reader G) (off : Z) (rest : list Z) : Prop :=
  aligned r off rest ∨
  off = 0 ∧ ∃ before, kBlockSize - kHeaderSize < before ≤ kBlockSize ∧
    aligned r before (replicate (Z.to_nat (kBlockSize - before)) 0 ++ rest).

(** Reading leaves what was reported so far, and whether checksums matter. *)
Definition kept (r r' : Reader G) : Prop := reporter_ r' = reporter_ r ∧ checksum_ r' = checksum_ r.

#[local] Instance kept_preorder : PreOrder kept.
Proof. split; [by intros r|]. intros r1 r2 r3 [E1 E2] [E3 E4]. split; congruence. Qed.

(** The next block. *)
Definition refilled (r : Reader G) (file : G) : Reader G :=
  let buffer := take (Z.to_nat kBlockSize) (unread (file_ r)) in
  set_file r file buffer (if len buffer <? kBlockSize then true else eof_ r)
    (u64 (end_of_buffer_offset_ r + len buffer)).

Lemma refill r off rest :
  aligned r off rest → eof_ r = false → len (buffer_ r) < kHeaderSize →
  ∃ r', (∀ fuel result, ReadPhysicalRecord_loop (S fuel) r result = ReadPhysicalRecord_loop fuel r' result) ∧
    aligned r' 0 (unread (file_ r)) ∧ kept r r' ∧
    (buffer_ r' = [] → unread (file_ r) = []) ∧ (eof_ r' = false → len (buffer_ r') = kBlockSize).
Proof.
  intros [Hb Hr Ho Hs Hp He] Heof Hl.
  destruct (Read_steady kBlockSize [] (file_ r)) as (f' & E & U & Hs'); [done|done|].
  exists (refilled r f'). unfold refilled. cbv zeta.
  set (buffer := take (Z.to_nat kBlockSize) (unread (file_ r))) in *.
  assert (len buffer ≤ kBlockSize) as Hbl by (unfold buffer; rewrite length_take; lia).
  split_and!.
  - intros fuel result. cbn [ReadPhysicalRecord_loop].
    rewrite (proj2 (Z.ltb_lt _ _) Hl), Heof, E. reflexivity.
  - split; cbn [set_file file_ buffer_ eof_ initial_offset_ resyncing_ last_record_offset_]; try done.
    + rewrite Hr in Hb. by apply Forall_app in Hb as [_ ?].
    + rewrite U. unfold buffer. by rewrite take_drop.
    + destruct (len buffer <? kBlockSize) eqn:E2; split_bool.
      * split; [|lia]. rewrite U. apply drop_ge. unfold buffer in E2. rewrite length_take in E2. lia.
      * rewrite Heof. left. lia.
  - done.
  - cbn. unfold buffer. intros Hnil. by apply (f_equal length) in Hnil; rewrite length_take in Hnil;
      destruct (unread (file_ r)).
  - cbn. destruct (len buffer <? kBlockSize) eqn:E2; split_bool; [done|lia].
Qed.

(** At the end of the buffer or before a trailer, the next block is fetched. *)
Lemma at_offset_refill r off rest :
  at_offset r off rest →
  (∃ r', aligned r' off rest ∧ kept r r' ∧
    (∀ result, ReadPhysicalRecord r result = ReadPhysicalRecord_loop 2 r' result) ∧
    (eof_ r' = false → len (buffer_ r') = kBlockSize)) ∨
  (aligned r off rest ∧ (eof_ r = false → off + len (buffer_ r) = kBlockSize)).
Proof.
  intros [Ha|(-> & before & Hbefore & Ha)].
  - pose proof (aligned_eof _ _ _ Ha) as He. destruct (eof_ r) eqn:Eeof.
    { right. split; [done|]. done. }
    destruct He as [He|[He ->]]; [by right|]. left.
    destruct (refill r 0 rest Ha Eeof) as (r' & Hl & Ha' & Hrep & _ & Hfull); [by rewrite He|].
    exists r'. replace rest with (unread (file_ r)) by (rewrite (aligned_rest _ _ _ Ha), He; done).
    split_and!; try done. intros result. apply Hl.
  - left. set (pad := replicate _ 0) in *.
    assert (len pad = kBlockSize - before) as Hpl.
    { unfold pad. rewrite length_replicate. unfold kHeaderSize in *. lia. }
    pose proof (aligned_rest _ _ _ Ha) as Hr. pose proof (aligned_eof _ _ _ Ha) as He.
    assert (eof_ r = false ∧ len (buffer_ r) = len pad) as [Heof Hlen].
    { destruct (eof_ r) eqn:Eeof.
      - destruct He as [Hu Hlt]. rewrite Hu, app_nil_r in Hr. rewrite <- Hr, length_app in Hlt. lia.
      - split; [done|]. destruct He as [He|[_ He]]; [lia|]. unfold kHeaderSize, kBlockSize in *. lia. }
    apply app_inj_1 in Hr as [_ Hr]; [|lia].
    destruct (refill r before _ Ha Heof) as (r' & Hl & Ha' & Hrep & _ & Hfull);
      [unfold kHeaderSize in *; lia|].
    exists r'. rewrite Hr. split_and!; try done. intros result. apply Hl.
Qed.

(** *** Headers *)

Lemma char_land x : is_byte x → Z.land (u32 (swrap 8 x)) 0xff = x.
Proof.
  intros Hx. apply Z.eqb_eq.
  apply (byte_forall (λ x, Z.land (u32 (swrap 8 x)) 0xff =? x)); [by vm_compute|done].
Qed.

Lemma record_type_char t : is_record_type t → u32 (swrap 8 t) = t.
Proof.
  unfold is_record_type, kFullType, kLastType. intros Ht.
  assert (t = 1 ∨ t = 2 ∨ t = 3 ∨ t = 4) as [->|[->|[->| ->]]] by lia; reflexivity.
Qed.

Lemma header_length n : 0 ≤ n < 2 ^ 16 →
  Z.lor (Z.land (u32 (swrap 8 (n mod 256))) 0xff)
    (u32 (Z.shiftl (Z.land (u32 (swrap 8 (n / 256))) 0xff) 8)) = n.
Proof.
  intros Hn. rewrite !char_land by (unfold in_width; lia_mod).
  rewrite wrap_small by (rewrite Z.shiftl_mul_pow2 by lia; unfold in_width; lia_mod).
  rewrite lor_shiftl by (unfold in_width; lia_mod). lia_mod.
Qed.

(** The header of a record, and what follows it in the buffer. *)
Definition header (t n crc : Z) : list Z := EncodeFixed32 crc ++ [n mod 256; n / 256; t].

Lemma physical_header t p : physical t p = header t (len p) (Mask (crc32c 0 (t :: p))) ++ p.
Proof. unfold physical, header. by rewrite <- app_assoc. Qed.

Lemma length_header t n crc : len (header t n crc) = kHeaderSize.
Proof. unfold header, EncodeFixed32. by rewrite length_app, length_le_bytes. Qed.

(** Cut short at the end of the file, a record is passed over silently. *)
Lemma parse_record_cut (r : Reader G) t n crc rest result :
  is_record_type t → buffer_ r = header t n crc ++ rest → len rest < n < 2 ^ 16 → eof_ r = true →
  parse_record r result = Ok (kEof, result, set_buffer r []).
Proof.
  intros Ht Hb Hn Heof. unfold parse_record. rewrite Hb.
  change (byte_at (header t n crc ++ rest) 4) with (Ok (n mod 256)).
  change (byte_at (header t n crc ++ rest) 5) with (Ok (n / 256)).
  change (byte_at (header t n crc ++ rest) 6) with (Ok t).
  cbn [mbind outcome_bind]. rewrite header_length by lia.
  rewrite length_app, Nat2Z.inj_add, length_header.
  rewrite wrap_small by (unfold in_width, kHeaderSize; lia). decide_test.
  cbn [set_buffer set_file eof_]. by rewrite Heof.
Qed.

Lemma parse_record_ok (r : Reader G) t p rest result :
  is_record_type t → bytes p → len p < 2 ^ 16 → buffer_ r = physical t p ++ rest →
  initial_offset_ r = 0 →
  parse_record r result = Ok (t, p, set_buffer r rest).
Proof.
  intros Ht Hb Hl Hbuf Hinit. unfold parse_record. rewrite Hbuf, physical_header.
  set (crc := crc32c 0 (t :: p)). rewrite <- app_assoc.
  change (byte_at (header t (len p) (Mask crc) ++ p ++ rest) 4) with (Ok (len p mod 256)).
  change (byte_at (header t (len p) (Mask crc) ++ p ++ rest) 5) with (Ok (len p / 256)).
  change (byte_at (header t (len p) (Mask crc) ++ p ++ rest) 6) with (Ok t).
  cbn [mbind outcome_bind]. rewrite header_length by lia.
  assert (len (header t (len p) (Mask crc) ++ p ++ rest) = kHeaderSize + len p + len rest) as Hlen
    by (rewrite !length_app, !Nat2Z.inj_add, length_header; lia).
  rewrite Hlen, wrap_small by (unfold in_width, kHeaderSize; lia). decide_test.
  rewrite record_type_char by done.
  rewrite (proj2 (Z.eqb_neq t kZeroType)) by (unfold is_record_type, kZeroType, kFullType in *; lia).
  cbn [andb].
  assert (in_width 32 crc ∧ is_byte t) as [Hcrc Htb].
  { assert (is_byte t) by (unfold is_record_type, kFullType, kLastType, in_width in *; lia).
    split; [|done]. apply crc32c_in_width; [done|by constructor]. }
  assert (DecodeFixed32 (header t (len p) (Mask crc) ++ p ++ rest) = Ok (Mask crc)) as ->.
  { unfold header. rewrite <- app_assoc. apply DecodeFixed32_ok, Mask_in_width. }
  cbn [mbind outcome_bind].
  assert (read_at (header t (len p) (Mask crc) ++ p ++ rest) 6 (1 + len p) = Ok (t :: p)) as ->.
  { unfold header. rewrite <- app_assoc.
    change ([len p mod 256; len p / 256; t] ++ p ++ rest) with
      ([len p mod 256; len p / 256] ++ (t :: p) ++ rest). rewrite app_assoc.
    apply read_at_app; [|cbn [length]; lia].
    unfold EncodeFixed32. by rewrite length_app, length_le_bytes. }
  cbn [mbind outcome_bind]. rewrite Value_ok by (first [by constructor | cbn [length]; lia]).
  cbn [mbind outcome_bind].
  fold crc. rewrite Unmask_Mask, Z.eqb_refl by done.
  assert ((if checksum_ r then Ok true else Ok true) = Ok true) as -> by (by destruct (checksum_ r)).
  cbn [mbind outcome_bind negb]. unfold remove_prefix. rewrite Hlen. decide_test.
  assert (drop (Z.to_nat (kHeaderSize + len p)) (header t (len p) (Mask crc) ++ p ++ rest) = rest) as ->.
  { rewrite app_assoc. apply drop_app_length'. rewrite length_app.
    pose proof (length_header t (len p) (Mask crc)). lia. }
  cbn [mbind outcome_bind set_buffer set_file initial_offset_]. rewrite Hinit.
  rewrite (proj2 (Z.ltb_ge _ 0)) by (apply Z.mod_pos_bound; lia).
  rewrite read_at_app; [done|by rewrite length_header|done].
Qed.


(** *** Physical records *)

Lemma aligned_parsed r off p rest b :
  aligned r off (p ++ rest) → buffer_ r = p ++ b → off + len p ≤ kBlockSize →
  (eof_ r = false → off + len (buffer_ r) = kBlockSize) →
  aligned (set_buffer r b) (off + len p) rest.
Proof.
  intros Ha Hb Hl Hfull. pose proof (aligned_eof _ _ _ Ha) as He. destruct Ha as [Hby Hr Ho Hs Hp _].
  rewrite Hb, <- app_assoc in Hr. apply app_inv_head in Hr. rewrite Hb, length_app, Nat2Z.inj_add in *.
  split; cbn; try done; [by apply Forall_app in Hby as [_ ?]|lia|].
  destruct (eof_ r); [|left; specialize (Hfull eq_refl); lia]. destruct He. split; [done|lia].
Qed.

(** The buffer of an aligned reader holds a record that is there, since it fits the block. *)
Lemma buffer_holds r off p rest :
  aligned r off (p ++ rest) → off + len p ≤ kBlockSize →
  (eof_ r = false → off + len (buffer_ r) = kBlockSize) →
  ∃ b, buffer_ r = p ++ b.
Proof.
  intros Ha Hl Hfull. pose proof (aligned_eof _ _ _ Ha) as He. pose proof (aligned_rest _ _ _ Ha) as Hr.
  destruct (eof_ r).
  - destruct He as [Hu _]. rewrite Hu, app_nil_r in Hr. by exists rest.
  - specialize (Hfull eq_refl).
    exists (drop (length p) (buffer_ r)). apply (f_equal (take (length p))) in Hr.
    rewrite take_app_length, take_app_le in Hr by lia. by rewrite Hr at 1; rewrite take_drop.
Qed.

Lemma ReadPhysicalRecord_record r off t p rest result :
  at_offset r off (physical t p ++ rest) → is_record_type t → off + kHeaderSize + len p ≤ kBlockSize →
  ∃ r', ReadPhysicalRecord r result = Ok (t, p, r') ∧
    aligned r' (off + kHeaderSize + len p) rest ∧ kept r r'.
Proof.
  intros Ha Ht Hl.
  assert (Hone : ∀ r1, aligned r1 off (physical t p ++ rest) →
    (eof_ r1 = false → off + len (buffer_ r1) = kBlockSize) →
    ∃ r', (∀ fuel, ReadPhysicalRecord_loop (S fuel) r1 result = Ok (t, p, r')) ∧
      aligned r' (off + kHeaderSize + len p) rest ∧ kept r1 r').
  { intros r1 Ha1 Hfull. pose proof (aligned_off _ _ _ Ha1) as Hoff.
    pose proof (length_physical t p) as Hpl.
    destruct (buffer_holds r1 off _ _ Ha1 ltac:(lia) Hfull) as [b Hb].
    exists (set_buffer r1 b). pose proof (aligned_bytes _ _ _ Ha1) as Hby.
    apply Forall_app in Hby as [Hby _]. unfold physical in Hby. rewrite !Forall_app in Hby.
    destruct Hby as (_ & _ & Hby). split_and!; [|rewrite <- Z.add_assoc, <- Hpl|done].
    - intros fuel. cbn [ReadPhysicalRecord_loop]. rewrite Hb at 1.
      rewrite length_app, Nat2Z.inj_add, Hpl. decide_test.
      apply parse_record_ok; try done; [unfold kBlockSize, kHeaderSize in *; lia|].
      apply (aligned_plain _ _ _ Ha1).
    - eapply aligned_parsed; [done|done|lia|done]. }
  destruct (at_offset_refill _ _ _ Ha) as [(r1 & Ha1 & Hrep & Hl1 & Hfull)|[Ha1 Hfull]].
  - destruct (Hone r1 Ha1) as (r' & Hr' & Ha' & Hrep').
    + intros Heof. pose proof (aligned_eof _ _ _ Ha1) as He. rewrite Heof in He. specialize (Hfull Heof).
      destruct He as [He|[He ->]]; [done|]. by rewrite He in Hfull.
    + exists r'. rewrite Hl1. split_and!; [done|done|by transitivity r1].
  - destruct (Hone r Ha1 Hfull) as (r' & Hr' & Ha' & Hrep'). exists r'. split_and!; [apply Hr'|done|done].
Qed.

(** What is left is too short, or the record in it is cut short. *)
Definition cut_short (off : Z) (rest : list Z) : Prop :=
  len rest < kHeaderSize ∨
  ∃ t n crc tail, is_record_type t ∧ rest = header t n crc ++ tail ∧ len tail < n < 2 ^ 16 ∧
    off + kHeaderSize + n ≤ kBlockSize.

Lemma ReadPhysicalRecord_end r off rest result :
  at_offset r off rest → cut_short off rest →
  ∃ r', ReadPhysicalRecord r result = Ok (kEof, result, r') ∧ reporter_ r' = reporter_ r ∧
    resyncing_ r' = false.
Proof.
  intros Ha Hcut.
  assert (Hone : ∀ r1, aligned r1 off rest →
    (eof_ r1 = false → off + len (buffer_ r1) = kBlockSize) →
    ∃ r', (∀ fuel, ReadPhysicalRecord_loop (S (S fuel)) r1 result = Ok (kEof, result, r')) ∧
      reporter_ r' = reporter_ r1 ∧ resyncing_ r' = false).
  { intros r1 Ha1 Hfull. pose proof (aligned_rest _ _ _ Ha1) as Hr.
    pose proof (aligned_plain _ _ _ Ha1) as (_ & Hsync & _).
    pose proof (aligned_eof _ _ _ Ha1) as He. destruct Hcut as [Hshort|(t & n & crc & tail & Ht & -> & Hn & Hl)].
    - assert (len (buffer_ r1) < kHeaderSize) as Hb by (rewrite Hr, length_app in Hshort; lia).
      destruct (eof_ r1) eqn:Eeof.
      + exists (set_buffer r1 []). split; [|done]. intros fuel. cbn [ReadPhysicalRecord_loop].
        by rewrite (proj2 (Z.ltb_lt _ _) Hb), Eeof.
      + destruct (refill r1 off rest Ha1 Eeof Hb) as (r2 & Hl2 & Ha2 & Hrep & _ & Hfull2).
        exists (set_buffer r2 []). split; [|split; [apply Hrep|apply (aligned_plain _ _ _ Ha2)]].
        intros fuel. rewrite Hl2. cbn [ReadPhysicalRecord_loop].
        assert (len (buffer_ r2) < kHeaderSize) as Hb2.
        { rewrite Hr, length_app in Hshort. pose proof (aligned_rest _ _ _ Ha2) as H2.
          apply (f_equal length) in H2. rewrite length_app in H2. lia. }
        rewrite (proj2 (Z.ltb_lt _ _) Hb2). destruct (eof_ r2); [done|].
        specialize (Hfull2 eq_refl). unfold kBlockSize, kHeaderSize in *. lia.
    - assert (len (header t n crc ++ tail) = kHeaderSize + len tail) as Hlen
        by (rewrite length_app, Nat2Z.inj_add, length_header; lia).
      destruct (eof_ r1) eqn:Eeof.
      + destruct He as [Hu _]. rewrite Hu, app_nil_r in Hr.
        exists (set_buffer r1 []). split; [|done]. intros fuel. cbn [ReadPhysicalRecord_loop].
        rewrite <- Hr at 1. rewrite Hlen. decide_test. by apply (parse_record_cut _ t n crc tail).
      + specialize (Hfull eq_refl). rewrite Hr, length_app in Hlen. lia. }
  destruct (at_offset_refill _ _ _ Ha) as [(r1 & Ha1 & Hrep & Hl1 & Hfull)|[Ha1 Hfull]].
  - destruct (Hone r1 Ha1) as (r' & Hr' & Hrep' & Hs).
    + intros Heof. pose proof (aligned_eof _ _ _ Ha1) as He. rewrite Heof in He. specialize (Hfull Heof).
      destruct He as [He|[He ->]]; [done|]. by rewrite He in Hfull.
    + exists r'. rewrite Hl1. split_and!; [done|by rewrite Hrep', (proj1 Hrep)|done].
  - destruct (Hone r Ha1 Hfull) as (r' & Hr' & Hrep' & Hs). exists r'. split_and!; [apply Hr'|done|done].
Qed.

(** *** User records *)

Lemma aligned_progress r off rest l resync :
  aligned r off rest → 0 ≤ l → resync = false → aligned (set_progress r l resync) off rest.
Proof.
  intros [Hb Hr Ho Hs (Hi & Hre & Hl) He] Hge0 ->. by split.
Qed.

Ltac record_switch :=
  cbv [kFullType kFirstType kMiddleType kLastType kEof kMaxRecordType kBadRecord]; cbn [Z.eqb Pos.eqb Z.add Pos.add Pos.succ].

Lemma read_fragments begin off data out off' :
  fragments begin off data out off' →
  ∀ fuel r rest scratch prospective fragment,
  at_offset r off (out ++ rest) → (length out ≤ fuel)%nat → (begin = true → scratch = []) → 0 ≤ prospective →
  ∃ s r', ReadRecord_loop fuel r scratch (negb begin) prospective fragment = Ok (true, scratch ++ data, s, r') ∧
    aligned r' off' rest ∧ kept r r'.
Proof.
  induction 1 as [begin off data out off' Hoff Hf IH|begin off data Hge0 Hfit|begin off data data' out off' Hge0 Hfit Hne Hf IH];
    intros fuel r rest scratch prospective fragment Ha Hfuel Hs Hp.
  - rewrite length_app in Hfuel. apply IH; [|lia|done|done]. right. split; [done|].
    destruct Ha as [Ha|[-> _]]; [|unfold kBlockSize, kHeaderSize in *; lia].
    exists off. rewrite app_assoc. by split.
  - pose proof (length_physical (if begin then kFullType else kLastType) data) as Hpl.
    destruct fuel as [|fuel]; [unfold kHeaderSize in *; lia|]. cbn [ReadRecord_loop].
    destruct (ReadPhysicalRecord_record r off _ data rest fragment Ha) as (r1 & -> & Ha1 & Hrep);
      [by destruct begin|lia|].
    cbn [mbind outcome_bind]. pose proof (aligned_plain _ _ _ Ha1) as (_ & Hre & Hlast). rewrite Hre. cbn [andb].
    set (offset := u64 _). assert (0 ≤ offset) by (apply Z.mod_pos_bound; lia).
    destruct begin; cbn [negb]; record_switch; cbn [andb].
    + rewrite (Hs eq_refl). eexists _, _. split; [reflexivity|]. split; [|done].
      apply aligned_progress; [by apply aligned_progress|done|done].
    + eexists _, _. split; [reflexivity|]. split; [|done].
      apply aligned_progress; [by apply aligned_progress|done|done].
  - rewrite length_app in Hfuel. pose proof (length_physical (if begin then kFirstType else kMiddleType) data) as Hpl.
    destruct fuel as [|fuel]; [unfold kHeaderSize in *; lia|]. cbn [ReadRecord_loop]. rewrite <- app_assoc in Ha.
    destruct (ReadPhysicalRecord_record r off _ data (out ++ rest) fragment Ha) as (r1 & -> & Ha1 & Hrep);
      [by destruct begin|lia|]. rewrite Hfit in Ha1.
    cbn [mbind outcome_bind]. pose proof (aligned_plain _ _ _ Ha1) as (_ & Hre & Hlast). rewrite Hre. cbn [andb].
    set (offset := u64 _). assert (0 ≤ offset) by (apply Z.mod_pos_bound; lia).
    set (r2 := set_progress r1 (last_record_offset_ r1) false).
    assert (at_offset r2 kBlockSize (out ++ rest)) as Ha2 by (left; by apply aligned_progress).
    unfold kHeaderSize in *. destruct begin; cbn [negb]; record_switch; cbn [andb].
    + destruct (IH fuel r2 rest data offset data Ha2) as (s & r' & E & Ha' & Hrep'); [lia|done|done|].
      exists s, r'. rewrite (Hs eq_refl). split; [exact E|]. split; [done|by transitivity r1].
    + destruct (IH fuel r2 rest (scratch ++ data) prospective data Ha2) as (s & r' & E & Ha' & Hrep');
        [lia|done|done|]. exists s, r'. rewrite app_assoc. split; [exact E|]. split; [done|by transitivity r1].
Qed.

(** *** Files that end early *)

Lemma prefix_app_inv {A} (part a b : list A) :
  part `prefix_of` a ++ b → (length a ≤ length part)%nat → ∃ part', part = a ++ part' ∧ part' `prefix_of` b.
Proof.
  intros [k Hk] Hl. exists (drop (length a) part).
  assert (take (length a) part = a) as Ha.
  { apply (f_equal (take (length a))) in Hk. by rewrite take_app_length, take_app_le in Hk by lia. }
  split; [rewrite <- Ha at 1; by rewrite take_drop|]. exists k.
  apply (f_equal (drop (length a))) in Hk. by rewrite drop_app_length, drop_app_le in Hk by lia.
Qed.

Lemma cut_physical off t data part :
  is_record_type t → 0 ≤ off → off + kHeaderSize + len data ≤ kBlockSize →
  part `prefix_of` physical t data → len part < kHeaderSize + len data → cut_short off part.
Proof.
  intros Ht Hge0 Hfit Hp Hl. destruct (Z.lt_ge_cases (len part) kHeaderSize) as [|Hge]; [by left|right].
  rewrite physical_header in Hp. set (crc := Mask _) in *. pose proof (length_header t (len data) crc) as Hh.
  apply prefix_app_inv in Hp as (tail & -> & Htail); [|lia]. rewrite length_app in Hl.
  exists t, (len data), crc, tail. split_and!; try done; unfold kHeaderSize, kBlockSize in *; lia.
Qed.

Lemma read_end fuel r off rest scratch in_fragmented prospective fragment :
  at_offset r off rest → cut_short off rest →
  ∃ s r', ReadRecord_loop (S fuel) r scratch in_fragmented prospective fragment = Ok (false, [], s, r') ∧
    reporter_ r' = reporter_ r.
Proof.
  intros Ha Hc. cbn [ReadRecord_loop].
  destruct (ReadPhysicalRecord_end r off rest fragment Ha Hc) as (r' & -> & Hrep & Hre).
  cbn [mbind outcome_bind]. rewrite Hre. cbn [andb]. record_switch. by eexists _, _.
Qed.

Lemma read_cut begin off data out off' :
  fragments begin off data out off' →
  ∀ fuel r part scratch prospective fragment,
  part `prefix_of` out → (length part < length out)%nat → at_offset r off part → (length part < fuel)%nat →
  ∃ s r', ReadRecord_loop fuel r scratch (negb begin) prospective fragment = Ok (false, [], s, r') ∧
    reporter_ r' = reporter_ r.
Proof.
  induction 1 as [begin off data out off' Hoff Hf IH|begin off data Hge0 Hfit|begin off data data' out off' Hge0 Hfit Hne Hf IH];
    intros fuel r part scratch prospective fragment Hp Hl Ha Hfuel;
    (destruct fuel as [|fuel]; [lia|]).
  - set (pad := replicate _ 0) in *.
    assert (len pad < kHeaderSize) as Hpl by (unfold pad; rewrite length_replicate; unfold kHeaderSize in *; lia).
    destruct (Nat.le_gt_cases (length part) (length pad)) as [Hle|Hgt].
    + apply (read_end fuel r off part); [done|]. left. lia.
    + apply prefix_app_inv in Hp as (part' & -> & Hp'); [|lia]. rewrite !length_app in *.
      apply (IH (S fuel) r part'); [done|lia| |lia]. right. split; [done|].
      destruct Ha as [Ha|[-> _]]; [|unfold kBlockSize, kHeaderSize in *; lia]. by exists off.
  - apply (read_end fuel r off part); [done|].
    pose proof (length_physical (if begin then kFullType else kLastType) data).
    eapply cut_physical; [|done..|lia]. by destruct begin.
  - pose proof (length_physical (if begin then kFirstType else kMiddleType) data) as Hpl.
    rewrite length_app in Hl.
    destruct (Nat.le_gt_cases (length (physical (if begin then kFirstType else kMiddleType) data)) (length part))
      as [Hle|Hgt].
    + apply prefix_app_inv in Hp as (part' & -> & Hp'); [|done]. rewrite length_app in *. cbn [ReadRecord_loop].
      destruct (ReadPhysicalRecord_record r off _ data part' fragment Ha) as (r1 & -> & Ha1 & Hrep);
        [by destruct begin|lia|]. rewrite Hfit in Ha1.
      cbn [mbind outcome_bind]. pose proof (aligned_plain _ _ _ Ha1) as (_ & Hre & Hlast). rewrite Hre. cbn [andb].
      set (r2 := set_progress r1 (last_record_offset_ r1) false).
      assert (at_offset r2 kBlockSize part') as Ha2 by (left; by apply aligned_progress).
      unfold kHeaderSize in *. destruct begin; cbn [negb]; record_switch; cbn [andb].
      * edestruct (IH fuel r2 part') as (s & r' & E & Hrep'); [done|lia|done|lia|].
        exists s, r'. split; [exact E|exact (eq_trans Hrep' (proj1 Hrep))].
      * edestruct (IH fuel r2 part') as (s & r' & E & Hrep'); [done|lia|done|lia|].
        exists s, r'. split; [exact E|exact (eq_trans Hrep' (proj1 Hrep))].
    + apply (read_end fuel r off part); [done|].
      apply (cut_physical off (if begin then kFirstType else kMiddleType) data); [by destruct begin|done|lia| |lia].
      destruct Hp as [k Hk]. exists (take (length (physical (if begin then kFirstType else kMiddleType) data) - length part) k).
      apply (f_equal (take (length (physical (if begin then kFirstType else kMiddleType) data)))) in Hk.
      rewrite take_app_length, take_app_ge in Hk by lia. done.
Qed.

(** *** Torn fragments

    What is left of a record when the writing of one of its fragments, of type [t], stopped
    within the payload: the fragments before it, its header and what was [written] of the
    payload, [missing] the rest. *)
Inductive torn : bool → Z → list Z → list Z → Z → list Z → list Z → Z → Prop :=
  | torn_trailer begin off data part t written missing off' :
      kBlockSize - kHeaderSize < off ≤ kBlockSize →
      torn begin 0 data part t written missing off' →
      torn begin off data (replicate (Z.to_nat (kBlockSize - off)) 0 ++ part) t written missing off'
  | torn_here (begin : bool) off written missing rest t :
      0 ≤ off → missing ≠ [] → off + kHeaderSize + len (written ++ missing) ≤ kBlockSize →
      (rest ≠ [] → off + kHeaderSize + len (written ++ missing) = kBlockSize) →
      t = (match rest with [] => if begin then kFullType else kLastType | _ => if begin then kFirstType else kMiddleType end) →
      torn begin off ((written ++ missing) ++ rest)
        (header t (len (written ++ missing)) (Mask (crc32c 0 (t :: written ++ missing))) ++ written)
        t written missing (off + kHeaderSize + len written)
  | torn_more (begin : bool) off data data' part t written missing off' :
      0 ≤ off → off + kHeaderSize + len data = kBlockSize →
      torn false kBlockSize data' part t written missing off' →
      torn begin off (data ++ data') (physical (if begin then kFirstType else kMiddleType) data ++ part) t written missing off'.

(** What was appended behind it in the same block is taken for the rest of the payload, and
    is not it: there is too little of it, or the checksum tells. *)
Definition mistaken (t : Z) (written missing more : list Z) : Prop :=
  len more < len missing ∨ crc32c 0 (t :: written ++ take (length missing) more) ≠ crc32c 0 (t :: written ++ missing).

Lemma torn_type begin off data part t written missing off' : torn begin off data part t written missing off' → is_record_type t.
Proof. induction 1 as [|begin off written missing rest t ? ? ? ? ->|]; [done| |done]. by destruct rest, begin. Qed.

(** Offsets in a block are those in the file. *)
Lemma fragments_blocks begin off data out off' :
  fragments begin off data out off' → 0 ≤ off → ∃ k, off + len out = off' + k * kBlockSize.
Proof.
  induction 1 as [begin off data out off' Hoff Hf IH|begin off data Hge0 Hfit|begin off data data' out off' Hge0 Hfit Hne Hf IH];
    intros Ho; rewrite ?length_app.
  - destruct IH as [k Hk]; [done|]. exists (k + 1). rewrite length_replicate. unfold kHeaderSize in *. lia.
  - exists 0. rewrite length_physical. lia.
  - destruct IH as [k Hk]; [done|]. exists k. pose proof (length_physical (if begin then kFirstType else kMiddleType) data). lia.
Qed.

Lemma logged_blocks off records out off' : logged off records out off' → 0 ≤ off → ∃ k, off + len out = off' + k * kBlockSize.
Proof.
  induction 1 as [off|off data out off1 records rest off2 Hf Hl IH]; intros Ho; [exists 0; cbn; lia|].
  destruct (fragments_blocks _ _ _ _ _ Hf Ho) as [k Hk], (fragments_off _ _ _ _ _ Hf Ho) as [[? _] _], IH as [k' Hk']; [done|].
  exists (k + k'). rewrite length_app. lia.
Qed.

Lemma torn_blocks begin off data part t written missing off' :
  torn begin off data part t written missing off' → 0 ≤ off ∧ 0 ≤ off' ∧ ∃ k, off + len part = off' + k * kBlockSize.
Proof.
  induction 1 as [begin off data part t written missing off' Hoff Hf IH|begin off written missing rest t Hge0 Hne Hfit Hrest Et|
    begin off data data' part t written missing off' Hge0 Hfit Hf IH].
  - destruct IH as (_ & Hge & k & Hk). split; [unfold kBlockSize, kHeaderSize in *; lia|]. split; [done|].
    exists (k + 1). rewrite length_app, length_replicate. unfold kHeaderSize in *. lia.
  - split; [done|]. split; [unfold kHeaderSize; lia|]. exists 0. set (h := header _ _ _).
    assert (len h = kHeaderSize) by apply length_header. rewrite length_app. lia.
  - destruct IH as (_ & Hge & k & Hk). split; [done|]. split; [done|]. exists k. rewrite length_app.
    pose proof (length_physical (if begin then kFirstType else kMiddleType) data). lia.
Qed.

Lemma torn_bytes begin off data part t written missing off' :
  torn begin off data part t written missing off' → bytes data → bytes part ∧ bytes missing.
Proof.
  induction 1 as [begin off data part t written missing off' Hoff Hf IH|begin off written missing rest t Hge0 Hne Hfit Hrest Et|
    begin off data data' part t written missing off' Hge0 Hfit Hf IH]; intros Hb.
  - destruct (IH Hb) as [Hp Hm]. split; [|done]. by apply Forall_app_2; [apply Forall_replicate|].
  - apply Forall_app in Hb as [Hb _]. pose proof Hb as [Hbw Hbm]%Forall_app. split; [|done].
    assert (is_byte t) as Ht by (rewrite Et; destruct rest, begin; done).
    assert (len (written ++ missing) < 2 ^ 16) as Hl by (unfold kBlockSize, kHeaderSize in *; lia).
    pose proof (physical_bytes t _ Ht Hl Hb) as Hp. rewrite physical_header in Hp. apply Forall_app in Hp as [Hp _].
    by apply Forall_app_2.
  - apply Forall_app in Hb as [Hb1 Hb2]. destruct (IH Hb2) as [Hp Hm]. split; [|done]. apply Forall_app_2; [|done].
    apply physical_bytes; [by destruct begin|unfold kBlockSize, kHeaderSize in *; lia|done].
Qed.

(** Such a fragment is dropped with all that the file still has. *)
Definition spoilt (off : Z) (rest : list Z) : Prop :=
  ∃ t written missing more, is_record_type t ∧
    rest = header t (len (written ++ missing)) (Mask (crc32c 0 (t :: written ++ missing))) ++ written ++ more ∧
    off + kHeaderSize + len (written ++ missing) ≤ kBlockSize ∧ bytes missing ∧
    off + len rest < kBlockSize ∧ mistaken t written missing more.

Lemma parse_record_spoilt (r : Reader G) off result :
  spoilt off (buffer_ r) → bytes (buffer_ r) → 0 ≤ off → eof_ r = true → checksum_ r = true →
  ∃ t r', parse_record r result = Ok (t, result, r') ∧ (t = kEof ∨ t = kBadRecord) ∧
    buffer_ r' = [] ∧ eof_ r' = true ∧ resyncing_ r' = resyncing_ r.
Proof.
  intros (t & written & missing & more & Ht & Hb & Hfit & Hm & Hl & Hbad) Hby Hge0 Heof Hcs. unfold parse_record.
  set (crc := crc32c 0 (t :: written ++ missing)) in *. set (n := len (written ++ missing)) in *. rewrite Hb in *.
  assert (0 ≤ n < 2 ^ 16) as Hn by (unfold n, kBlockSize, kHeaderSize in *; lia).
  change (byte_at (header t n (Mask crc) ++ written ++ more) 4) with (Ok (n mod 256)).
  change (byte_at (header t n (Mask crc) ++ written ++ more) 5) with (Ok (n / 256)).
  change (byte_at (header t n (Mask crc) ++ written ++ more) 6) with (Ok t).
  cbn [mbind outcome_bind]. rewrite header_length by lia.
  assert (len (header t n (Mask crc) ++ written ++ more) = kHeaderSize + len written + len more) as Hlen
    by (rewrite !length_app, !Nat2Z.inj_add, length_header; lia).
  rewrite Hlen, wrap_small by (unfold in_width, kHeaderSize; lia).
  assert (n = len written + len missing) as En by (unfold n; rewrite length_app; lia).
  destruct Hbad as [Hshort|Hne].
  { decide_test. cbn [set_buffer set_file eof_]. rewrite Heof. cbn [negb]. eexists _, _. split; [reflexivity|]. split; [by left|done]. }
  destruct (kHeaderSize + len written + len more <? kHeaderSize + n) eqn:E; split_bool.
  { cbn [set_buffer set_file eof_]. rewrite Heof. cbn [negb]. eexists _, _. split; [reflexivity|]. split; [by left|done]. }
  rewrite record_type_char by done.
  rewrite (proj2 (Z.eqb_neq t kZeroType)) by (unfold is_record_type, kZeroType, kFullType in *; lia). cbn [andb]. rewrite Hcs.
  apply Forall_app in Hby as [Hbh Hby]. apply Forall_app in Hby as [Hbw Hbm].
  assert (is_byte t) as Htb by (unfold is_record_type, kFullType, kLastType, in_width in *; lia).
  assert (DecodeFixed32 (header t n (Mask crc) ++ written ++ more) = Ok (Mask crc)) as ->.
  { unfold header. rewrite <- app_assoc. apply DecodeFixed32_ok, Mask_in_width. }
  cbn [mbind outcome_bind]. set (data := t :: written ++ take (length missing) more) in *.
  assert (read_at (header t n (Mask crc) ++ written ++ more) 6 (1 + n) = Ok data) as ->.
  { unfold header. rewrite <- app_assoc, <- (take_drop (length missing) more).
    replace (EncodeFixed32 (Mask crc) ++ [n mod 256; n / 256; t] ++ written ++ take (length missing) more ++ drop (length missing) more)
      with ((EncodeFixed32 (Mask crc) ++ [n mod 256; n / 256]) ++ data ++ drop (length missing) more)
      by (unfold data; rewrite <- !app_assoc; cbn [app]; by rewrite <- !app_assoc).
    apply read_at_app; [unfold EncodeFixed32; by rewrite length_app, length_le_bytes|].
    unfold data. cbn [length]. rewrite length_app, length_take. lia. }
  cbn [mbind outcome_bind].
  assert (bytes data) as Hbd by (constructor; [done|]; by apply Forall_app_2; [|apply Forall_take]).
  assert (len data < 2 ^ 32) as Hld by (unfold data; cbn [length]; rewrite length_app, length_take; unfold kBlockSize, kHeaderSize in *; lia).
  rewrite Value_ok by (done || lia). cbn [mbind outcome_bind].
  assert (in_width 32 crc) as Hcrc.
  { apply crc32c_in_width; [done|]. constructor; [done|]. by apply Forall_app_2. }
  rewrite Unmask_Mask, (proj2 (Z.eqb_neq _ _)) by done. cbn [negb].
  eexists _, _. split; [reflexivity|]. split; [by right|].
  unfold ReportCorruption, ReportDrop. cbn [set_buffer set_file reporter_]. destruct (reporter_ r) as [l|]; [|done].
  by destruct (_ <=? _).
Qed.

Lemma ReadPhysicalRecord_eof (r : Reader G) result :
  buffer_ r = [] → eof_ r = true → ReadPhysicalRecord r result = Ok (kEof, result, set_buffer r []).
Proof. intros Hb He. unfold ReadPhysicalRecord. cbn [ReadPhysicalRecord_loop]. by rewrite Hb, He. Qed.

Lemma ReadPhysicalRecord_spoilt r off rest result :
  at_offset r off rest → spoilt off rest → checksum_ r = true →
  ∃ t r', ReadPhysicalRecord r result = Ok (t, result, r') ∧ (t = kEof ∨ t = kBadRecord) ∧
    buffer_ r' = [] ∧ eof_ r' = true ∧ resyncing_ r' = false.
Proof.
  intros Ha Hs Hcs.
  assert (Hone : ∀ r1, aligned r1 off rest → (eof_ r1 = false → off + len (buffer_ r1) = kBlockSize) → checksum_ r1 = true →
    ∃ t r', (∀ fuel, ReadPhysicalRecord_loop (S fuel) r1 result = Ok (t, result, r')) ∧ (t = kEof ∨ t = kBadRecord) ∧
      buffer_ r' = [] ∧ eof_ r' = true ∧ resyncing_ r' = false).
  { intros r1 Ha1 Hfull Hc1. pose proof (aligned_rest _ _ _ Ha1) as Hr. pose proof (aligned_eof _ _ _ Ha1) as He.
    assert (off + len rest < kBlockSize) as Hlt by (by destruct Hs as (? & ? & ? & ? & ? & ? & ? & ? & ? & ?)).
    destruct (eof_ r1) eqn:Eeof.
    2: { specialize (Hfull eq_refl). rewrite Hr, length_app in Hlt. lia. }
    destruct He as [Hu _]. rewrite Hu, app_nil_r in Hr.
    assert (kHeaderSize ≤ len (buffer_ r1)) as Hl.
    { rewrite <- Hr. destruct Hs as (t & written & missing & more & _ & -> & _). rewrite length_app.
      pose proof (length_header t (len (written ++ missing)) (Mask (crc32c 0 (t :: written ++ missing)))). lia. }
    rewrite Hr in Hs. destruct (parse_record_spoilt r1 off result Hs) as (t & r' & E & Ht & Hb & Hee & Hre); [|apply Ha1|done..|].
    - rewrite <- Hr. apply Ha1.
    - exists t, r'. split; [|by rewrite Hre, (proj1 (proj2 (aligned_plain _ _ _ Ha1)))]. intros fuel.
      cbn [ReadPhysicalRecord_loop]. by rewrite (proj2 (Z.ltb_ge _ _) Hl). }
  destruct (at_offset_refill _ _ _ Ha) as [(r1 & Ha1 & Hrep & Hl1 & Hfull)|[Ha1 Hfull]].
  - destruct (Hone r1 Ha1) as (t & r' & Hr' & Hrest).
    + intros Heof. pose proof (aligned_eof _ _ _ Ha1) as He. rewrite Heof in He. specialize (Hfull Heof).
      destruct He as [He|[He ->]]; [done|]. by rewrite He in Hfull.
    + by rewrite (proj2 Hrep).
    + exists t, r'. by rewrite Hl1.
  - destruct (Hone r Ha1 Hfull Hcs) as (t & r' & Hr' & Hrest). exists t, r'. split; [apply Hr'|done].
Qed.

Lemma read_spoilt fuel r off rest scratch in_fragmented prospective fragment :
  at_offset r off rest → spoilt off rest → checksum_ r = true →
  ∃ s r', ReadRecord_loop (S (S fuel)) r scratch in_fragmented prospective fragment = Ok (false, [], s, r').
Proof.
  intros Ha Hs Hcs. remember (S fuel) as fuel1 eqn:Efuel. cbn [ReadRecord_loop].
  destruct (ReadPhysicalRecord_spoilt r off rest fragment Ha Hs Hcs) as (t & r1 & -> & Ht & Hb & He & Hre).
  cbn [mbind outcome_bind]. rewrite Hre. cbn [andb]. destruct Ht as [->| ->]; record_switch; [by eexists _, _|].
  set (r2 := set_progress r1 _ false).
  assert (∀ bytes reason, let r3 := ReportCorruption r2 bytes reason in buffer_ r3 = [] ∧ eof_ r3 = true ∧ resyncing_ r3 = false) as Hrep.
  { intros n reason. unfold ReportCorruption, ReportDrop. destruct (reporter_ r2); [|done]. by destruct (_ <=? _). }
  assert (∀ r3 a b c, buffer_ r3 = [] ∧ eof_ r3 = true ∧ resyncing_ r3 = false →
    ∃ s r', ReadRecord_loop (S fuel) r3 a b c fragment = Ok (false, [], s, r')) as Hlast.
  { intros r3 a b c (Hb3 & He3 & Hs3). cbn [ReadRecord_loop]. rewrite (ReadPhysicalRecord_eof r3 fragment Hb3 He3).
    cbn [mbind outcome_bind set_buffer set_file resyncing_]. rewrite Hs3. cbn [andb]. record_switch. by eexists _, _. }
  rewrite Efuel. destruct in_fragmented; apply Hlast; [apply Hrep|done].
Qed.

Lemma torn_read begin off data part t written missing off' :
  torn begin off data part t written missing off' →
  ∀ fuel r more scratch prospective fragment,
  off' + len more < kBlockSize → mistaken t written missing more → bytes missing → checksum_ r = true →
  at_offset r off (part ++ more) → (length part < fuel)%nat →
  ∃ s r', ReadRecord_loop fuel r scratch (negb begin) prospective fragment = Ok (false, [], s, r').
Proof.
  induction 1 as [begin off data part t written missing off' Hoff Hf IH|begin off written missing rest t Hge0 Hne Hfit Hrest Et|
    begin off data data' part t written missing off' Hge0 Hfit Hf IH]; intros fuel r more scratch prospective fragment Hin Hmis Hby Hcs Ha Hfuel.
  - rewrite length_app in Hfuel. apply (IH fuel r more); [done..| |lia]. right. split; [done|].
    destruct Ha as [Ha|[-> _]]; [|unfold kBlockSize, kHeaderSize in *; lia]. exists off. rewrite app_assoc. by split.
  - set (h := header _ _ _) in *. assert (len h = kHeaderSize) as Hh by apply length_header. rewrite length_app in Hfuel.
    destruct fuel as [|[|fuel]]; [unfold kHeaderSize in *; lia..|].
    eapply read_spoilt; [exact Ha| |done]. exists t, written, missing, more.
    split; [rewrite Et; by destruct rest, begin|]. split; [unfold h; by rewrite <- app_assoc|]. split; [done|]. split; [done|].
    split; [|done]. rewrite !length_app. lia.
  - pose proof (length_physical (if begin then kFirstType else kMiddleType) data) as Hpl. rewrite length_app in Hfuel.
    destruct fuel as [|fuel]; [lia|]. cbn [ReadRecord_loop]. rewrite <- app_assoc in Ha.
    destruct (ReadPhysicalRecord_record r off _ data (part ++ more) fragment Ha) as (r1 & -> & Ha1 & Hrep);
      [by destruct begin|lia|]. rewrite Hfit in Ha1.
    cbn [mbind outcome_bind]. pose proof (aligned_plain _ _ _ Ha1) as (_ & Hre & Hlast). rewrite Hre. cbn [andb].
    set (r2 := set_progress r1 (last_record_offset_ r1) false).
    assert (at_offset r2 kBlockSize (part ++ more)) as Ha2 by (left; by apply aligned_progress).
    assert (checksum_ r2 = true) as Hcs2 by (by cbn; rewrite (proj2 Hrep)).
    unfold kHeaderSize in *. destruct begin; cbn [negb]; record_switch; cbn [andb]; apply (IH fuel r2 more); (done || lia).
Qed.

(** *** The whole log *)

Lemma ReadRecord_start fuel r off rest record scratch :
  aligned r off rest → ReadRecord fuel r record scratch = ReadRecord_loop fuel r [] false 0 [].
Proof.
  intros Ha. unfold ReadRecord. destruct (aligned_plain _ _ _ Ha) as (-> & _ & Hl).
  by rewrite (proj2 (Z.ltb_ge _ _)).
Qed.

(** [while (reader.ReadRecord(&record, &scratch))], with the records in order. *)
Fixpoint ReadRecords (n fuel : nat) (r : Reader G) : outcome (list Slice * Reader G) :=
  match n with
  | O => Fault Diverges
  | S n =>
      x ← ReadRecord fuel r [] [];
      let '(found, record, _, r) := x in
      if (found : bool) then y ← ReadRecords n fuel r; Ok (record :: y.1, y.2) else Ok ([], r)
  end.

Lemma ReadRecords_ok off records out off1 next more off2 part fuel r :
  logged off records out off1 → fragments true off1 next more off2 →
  part `prefix_of` more → (length part < length more)%nat →
  aligned r off (out ++ part) → (length (out ++ part) < fuel)%nat →
  ∃ r', ReadRecords (S (length records)) fuel r = Ok (records, r') ∧ reporter_ r' = reporter_ r.
Proof.
  intros Hl Hn Hp Hpl. revert r.
  induction Hl as [off|off data o1 off' records o2 off2' Hf Hl IH]; intros r Ha Hfuel; cbn [length ReadRecords].
  - rewrite (ReadRecord_start _ _ _ _ _ _ Ha).
    edestruct (read_cut _ _ _ _ _ Hn fuel r part) as (s & r' & E & Hrep); [done..|by left|done|].
    cbn [negb] in E. rewrite E. cbn [mbind outcome_bind]. by exists r'.
  - rewrite (ReadRecord_start _ _ _ _ _ _ Ha). rewrite <- app_assoc in *. rewrite length_app in Hfuel.
    edestruct (read_fragments _ _ _ _ _ Hf fuel r (o2 ++ part) []) as (s & r1 & E & Ha1 & Hrep);
      [by left|lia|done|done|].
    cbn [negb app] in E. rewrite E. cbn [mbind outcome_bind].
    destruct (IH Hn r1 Ha1) as (r2 & E2 & Hrep2); [lia|].
    cbn [ReadRecords] in E2. rewrite E2. cbn [mbind outcome_bind fst snd]. exists r2. split; [done|exact (eq_trans Hrep2 (proj1 Hrep))].
Qed.

Lemma new_Reader_aligned file reporter checksum :
  steady file → bytes (unread file) → aligned (new_Reader file reporter checksum 0) 0 (unread file).
Proof. intros Hs Hb. split; try done. by right. Qed.


(** *** Any file

    Whatever a file holds, each physical record that is found or dropped takes bytes of it. *)

Definition sound (r : Reader G) : Prop :=
  bytes (buffer_ r) ∧ bytes (unread (file_ r)) ∧ 0 ≤ initial_offset_ r < 2 ^ 62 ∧
  len (buffer_ r) ≤ kBlockSize.
Definition size (r : Reader G) : nat := length (buffer_ r) + length (unread (file_ r)).

(** [r'] differs from [r] in what is reported and noted, not in what it reads. *)
Definition same_input (r r' : Reader G) : Prop :=
  file_ r' = file_ r ∧ buffer_ r' = buffer_ r ∧ initial_offset_ r' = initial_offset_ r.

Lemma same_input_refl r : same_input r r.
Proof. done. Qed.

Lemma same_input_report r r' bytes reason : same_input r r' → same_input r (ReportDrop r' bytes reason).
Proof. unfold ReportDrop. destruct (reporter_ r'); [|done]. by destruct (_ <=? _). Qed.

Lemma same_input_corruption r r' bytes reason :
  same_input r r' → same_input r (ReportCorruption r' bytes reason).
Proof. apply same_input_report. Qed.

Lemma same_input_progress r r' l resync : same_input r r' → same_input r (set_progress r' l resync).
Proof. done. Qed.

Lemma same_input_if (b : bool) r r1 r2 :
  same_input r r1 → same_input r r2 → same_input r (if b then r1 else r2).
Proof. by destruct b. Qed.

#[local] Hint Resolve same_input_refl same_input_report same_input_corruption same_input_progress
  same_input_if : input.

Lemma sound_same r r' : same_input r r' → sound r → sound r'.
Proof. intros (Hf & Hb & Hi). unfold sound. by rewrite Hf, Hb, Hi. Qed.

Lemma size_same r r' : same_input r r' → size r' = size r.
Proof. intros (Hf & Hb & Hi). unfold size. by rewrite Hf, Hb. Qed.

(** [r'] has read on from [r]. *)
Definition read_on (r r' : Reader G) : Prop := sound r' ∧ (size r' < size r)%nat.

Lemma read_on_same r r1 r2 : read_on r r1 → same_input r1 r2 → read_on r r2.
Proof. intros [Hs Hl] Hi. split; [by eapply sound_same|]. by rewrite (size_same _ _ Hi). Qed.

(** Dropping bytes of the buffer, at least one. *)
Lemma read_on_buffer r b n :
  sound r → (0 < n ≤ length (buffer_ r))%nat → b = drop n (buffer_ r) ∨ b = [] → read_on r (set_buffer r b).
Proof.
  intros (Hb & Hu & Hi & Hk) Hn Hbuf. unfold read_on, sound, size. cbn.
  assert (bytes b ∧ (length b < length (buffer_ r))%nat) as [? ?]; [|split; [split_and!; (done || lia)|lia]].
  destruct Hbuf as [->| ->]; [|cbn; split; [done|lia]]. rewrite length_drop.
  split; [by apply Forall_drop|lia].
Qed.

Lemma byte_at_bytes l i : bytes l → 0 ≤ i < len l → ∃ b, byte_at l i = Ok b ∧ is_byte b.
Proof.
  intros Hl Hi. unfold byte_at. decide_test.
  destruct (lookup_lt_is_Some_2 l (Z.to_nat i)) as [b Hb]; [lia|]. exists b. rewrite Hb. split; [done|].
  by eapply Forall_lookup_1.
Qed.

Lemma read_at_bytes l off n :
  bytes l → 0 ≤ off → 0 ≤ n → off + n ≤ len l → ∃ x, read_at l off n = Ok x ∧ bytes x ∧ len x = n.
Proof.
  intros Hl Ho Hn Hle. unfold read_at. repeat decide_test. cbn [andb]. eexists. split; [done|].
  split; [by apply Forall_take, Forall_drop|]. rewrite length_take, length_drop. lia.
Qed.

Lemma parse_record_any r result :
  sound r → kHeaderSize ≤ len (buffer_ r) →
  ∃ t p r', parse_record r result = Ok (t, p, r') ∧ read_on r r'.
Proof.
  intros Hs Hl. pose proof Hs as (Hb & Hu & Hi & Hbl). unfold parse_record.
  destruct (byte_at_bytes (buffer_ r) 4 Hb) as (h4 & -> & B4); [unfold kHeaderSize in *; lia|].
  destruct (byte_at_bytes (buffer_ r) 5 Hb) as (h5 & -> & B5); [unfold kHeaderSize in *; lia|].
  destruct (byte_at_bytes (buffer_ r) 6 Hb) as (h6 & -> & B6); [unfold kHeaderSize in *; lia|].
  cbn [mbind outcome_bind]. rewrite !char_land by done.
  rewrite (wrap_small 32 (Z.shiftl h5 8)) by (rewrite Z.shiftl_mul_pow2 by lia; unfold in_width in *; lia).
  rewrite lor_shiftl by (done || lia). set (n := h4 + h5 * 2 ^ 8).
  assert (0 ≤ n < 2 ^ 16) as Hn by (unfold n, in_width in *; lia).
  rewrite wrap_small by (unfold in_width, kHeaderSize; lia).
  assert (Hdrop : read_on r (set_buffer r [])).
  { apply (read_on_buffer r [] 1); [done|unfold kHeaderSize in *; lia|by right]. }
  destruct (len (buffer_ r) <? kHeaderSize + n) eqn:E1; split_bool.
  { destruct (negb (eof_ (set_buffer r []))); eexists _, _, _; (split; [reflexivity|]); [|done].
    eapply read_on_same; [done|eauto with input]. }
  destruct (_ && _); [by eexists _, _, _|].
  assert (∃ good, (if checksum_ r then
      stored_crc ← DecodeFixed32 (buffer_ r); data ← read_at (buffer_ r) 6 (1 + n);
      actual_crc ← Value (address data) data; Ok (actual_crc =? Unmask stored_crc)
    else Ok true) = Ok good) as [good ->].
  { destruct (checksum_ r); [|by eexists]. unfold DecodeFixed32.
    destruct (read_at_bytes (buffer_ r) 0 4 Hb) as (x & -> & _); [unfold kHeaderSize in *; lia..|].
    destruct (read_at_bytes (buffer_ r) 6 (1 + n) Hb) as (y & -> & By & Ly); [unfold kHeaderSize in *; lia..|].
    cbn [mbind outcome_bind]. rewrite Value_ok by (done || lia). by eexists. }
  cbn [mbind outcome_bind]. destruct good; cbn [negb].
  2: { eexists _, _, _. split; [reflexivity|]. eapply read_on_same; [done|eauto with input]. }
  unfold remove_prefix. decide_test. cbn [mbind outcome_bind].
  assert (read_on r (set_buffer r (drop (Z.to_nat (kHeaderSize + n)) (buffer_ r)))) as Hon.
  { apply (read_on_buffer _ _ (Z.to_nat (kHeaderSize + n))); [done|unfold kHeaderSize in *; lia|by left]. }
  destruct (_ <? initial_offset_ _); [by eexists _, _, _|].
  destruct (read_at_bytes (buffer_ r) kHeaderSize n Hb) as (y & -> & _); [unfold kHeaderSize in *; lia..|].
  by eexists _, _, _.
Qed.

Lemma ReadPhysicalRecord_any r result :
  sound r → ∃ t p r', ReadPhysicalRecord r result = Ok (t, p, r') ∧ (t = kEof ∨ read_on r r').
Proof.
  intros Hs. unfold ReadPhysicalRecord. cbn [ReadPhysicalRecord_loop].
  destruct (len (buffer_ r) <? kHeaderSize) eqn:E; split_bool.
  2: { destruct (parse_record_any r result Hs E) as (t & p & r' & -> & Hon). by eexists _, _, _; split; [|right]. }
  destruct (negb (eof_ r)) eqn:Eeof; [|by eexists _, _, _; split; [|left]].
  destruct (Read_some kBlockSize [] (file_ r)) as (s & l & f' & -> & Hok); [done|].
  cbn [mbind outcome_bind]. destruct (ok s); cbn [negb]; [|by eexists _, _, _; split; [|left]].
  destruct (Hok eq_refl) as [Hl Hu]. set (r1 := set_file r f' l _ _).
  assert (sound r1 ∧ (size r1 ≤ size r)%nat) as [Hs1 Hsize].
  { destruct Hs as (Hb & Hub & Hi & Hk). rewrite Hu in Hub. apply Forall_app in Hub as [? ?].
    split; [by refine (conj _ (conj _ (conj Hi _)))|]. unfold size, r1. cbn. rewrite Hu, length_app. lia. }
  change (buffer_ r1) with l. change (eof_ r1) with (if len l <? kBlockSize then true else eof_ r).
  destruct (len l <? kHeaderSize) eqn:E2; split_bool.
  - rewrite (proj2 (Z.ltb_lt _ _)) by (unfold kHeaderSize, kBlockSize in *; lia).
    by eexists _, _, _; split; [|left].
  - destruct (parse_record_any r1 result Hs1 E2) as (t & p & r' & -> & Hon & Hlt).
    eexists _, _, _. split; [reflexivity|]. right. split; [done|lia].
Qed.

Lemma ReadRecord_loop_any fuel r scratch in_fragmented prospective fragment :
  sound r → (size r < fuel)%nat →
  ∃ found record s r', ReadRecord_loop fuel r scratch in_fragmented prospective fragment =
    Ok (found, record, s, r') ∧ (found = true → read_on r r').
Proof.
  revert r scratch in_fragmented prospective fragment.
  induction fuel as [|fuel IH]; intros r scratch in_fragmented prospective fragment Hs Hf; [lia|].
  cbn [ReadRecord_loop].
  destruct (ReadPhysicalRecord_any r fragment Hs) as (t & p & r1 & -> & Ht). cbn [mbind outcome_bind].
  destruct (decide (t = kEof)) as [->|Hne].
  { record_switch. rewrite !andb_false_r. by eexists _, _, _, _. }
  destruct Ht as [?|[Hs1 Hlt]]; [done|].
  assert (Hrec : ∀ r2 a b c d, same_input r1 r2 →
    ∃ found record s r', ReadRecord_loop fuel r2 a b c d = Ok (found, record, s, r') ∧
      (found = true → read_on r r')).
  { intros r2 a b c d Hi. pose proof (size_same _ _ Hi).
    destruct (IH r2 a b c d) as (found & record & s & r' & -> & Hon); [by eapply sound_same|lia|].
    eexists _, _, _, _. split; [reflexivity|]. intros Hfound. destruct (Hon Hfound). split; [done|lia]. }
  assert (Hret : ∀ (a b : list Z) r2, same_input r1 r2 →
    ∃ found record s r', Ok (true, a, b, r2) = Ok (found, record, s, r') ∧ (found = true → read_on r r')).
  { intros a b r2 Hi. eexists _, _, _, _. split; [reflexivity|]. intros _.
    eapply read_on_same; [by split|done]. }
  repeat match goal with |- context [if ?b then ReadRecord_loop _ _ _ _ _ _ else _] => destruct b
                       | |- context [if ?b then Ok _ else _] => destruct b
                       | |- context [if t =? ?k then _ else _] => destruct (t =? k)
                       | |- context [if negb in_fragmented then _ else _] => destruct in_fragmented end;
  first [apply Hrec; by eauto 10 with input | apply Hret; by eauto 10 with input | by eexists _, _, _, _].
Qed.

Lemma SkipToInitialBlock_any r :
  sound r → ∃ b r', SkipToInitialBlock r = Ok (b, r') ∧ (b = true → sound r' ∧ (size r' ≤ size r)%nat).
Proof.
  intros (Hb & Hu & Hi & Hk). unfold SkipToInitialBlock.
  set (start := initial_offset_ r - initial_offset_ r mod kBlockSize).
  pose proof (Z.mod_pos_bound (initial_offset_ r) kBlockSize ltac:(done)) as Hmod.
  pose proof (Z.mod_le (initial_offset_ r) kBlockSize) as Hle.
  assert (0 ≤ start < 2 ^ 62) as Hst by (unfold kBlockSize in *; lia).
  set (start' := if _ <? _ then u64 (start + kBlockSize) else start).
  assert (0 ≤ start' < 2 ^ 63) as Hst'.
  { unfold start'. destruct (_ <? _); [|lia].
    rewrite wrap_small; unfold in_width, kBlockSize in *; lia. }
  cbv zeta. destruct (0 <? start').
  - destruct (Skip_some start' (file_ r)) as (s & f' & E & Hok); [done|].
    cbn [set_file file_]. rewrite E. cbn [mbind outcome_bind fst snd].
    destruct (ok s); cbn [negb]; [|by eexists _, _]. specialize (Hok eq_refl).
    eexists _, _. split; [reflexivity|]. intros _. unfold sound, size. cbn.
    rewrite Hok, length_drop. split; [|lia].
    refine (conj Hb (conj _ (conj Hi Hk))). by apply Forall_drop.
  - eexists _, _. split; [reflexivity|]. intros _. split; [|done]. exact (conj Hb (conj Hu (conj Hi Hk))).
Qed.

Lemma ReadRecord_any fuel r record scratch :
  sound r → (size r < fuel)%nat →
  ∃ found rec s r', ReadRecord fuel r record scratch = Ok (found, rec, s, r') ∧ (found = true → read_on r r').
Proof.
  intros Hs Hf. unfold ReadRecord. destruct (_ <? _).
  - destruct (SkipToInitialBlock_any r Hs) as (b & r1 & -> & Hok). cbn [mbind outcome_bind fst snd].
    destruct b; cbn [negb]; [|by eexists _, _, _, _]. destruct (Hok eq_refl) as [Hs1 Hle].
    destruct (ReadRecord_loop_any fuel r1 [] false 0 [] Hs1) as (found & rec & s & r' & -> & Hon); [lia|].
    eexists _, _, _, _. split; [reflexivity|]. intros Hfound. destruct (Hon Hfound). split; [done|lia].
  - by apply ReadRecord_loop_any.
Qed.

Lemma ReadRecords_any n fuel r :
  sound r → (size r < n)%nat → (size r < fuel)%nat → ∃ records r', ReadRecords n fuel r = Ok (records, r').
Proof.
  revert r. induction n as [|n IH]; intros r Hs Hn Hf; [lia|]. cbn [ReadRecords].
  destruct (ReadRecord_any fuel r [] [] Hs Hf) as (found & rec & s & r1 & -> & Hon). cbn [mbind outcome_bind].
  destruct found; [|by eexists _, _]. destruct (Hon eq_refl) as [Hs1 Hlt].
  destruct (IH r1 Hs1) as (records & r' & ->); [lia..|]. by eexists _, _.
Qed.

End reader_ok.

(** ** Properties *)

Lemma fragments_bytes begin off data out off' :
  fragments begin off data out off' → bytes data → bytes out.
Proof.
  assert (∀ t n crc p, is_byte t → 0 ≤ n < 2 ^ 16 → bytes p → bytes (header t n crc ++ p)) as Hh.
  { intros t n crc p Ht Hn Hp. apply Forall_app_2; [|done]. unfold header.
    apply Forall_app_2; [apply le_bytes_bytes|]. repeat apply List.Forall_cons; try done; unfold in_width; lia_mod. }
  induction 1 as [begin off data out off' Hoff Hf IH|begin off data Hge0 Hfit|begin off data data' out off' Hge0 Hfit Hne Hf IH];
    intros Hb.
  - apply Forall_app_2; [|by apply IH]. by apply Forall_replicate.
  - rewrite physical_header. apply Hh; [by destruct begin|unfold kHeaderSize, kBlockSize in *; lia|done].
  - apply Forall_app in Hb as [Hb1 Hb2]. apply Forall_app_2; [|by apply IH].
    rewrite physical_header. apply Hh; [by destruct begin|unfold kHeaderSize, kBlockSize in *; lia|done].
Qed.

Lemma logged_bytes off records out off' : logged off records out off' → Forall bytes records → bytes out.
Proof.
  induction 1 as [|off data out off1 records rest off2 Hf Hl IH]; intros Hb; [done|].
  apply List.Forall_cons_iff in Hb as [Hb1 Hb2]. apply Forall_app_2; [by eapply fragments_bytes|by apply IH].
Qed.

(** C32: The log survives the death of its writer. Records are added to an empty log, and
    one more; the file is then cut at any point after the complete records - within the
    last one, its headers or the trailer before it, or not at all. The reader, checking
    checksums or not, returns exactly the complete records, in order and unchanged, then
    says that there are no more, and reports no corruption. *)
Theorem log_read_back `{Memory} `{WritableFileLaws F} `{SequentialFileLaws G} (dest : F) records next :
  working dest → written dest = [] → stored dest = [] → Forall bytes records → bytes next →
  ∃ w w1 w2, new_Writer dest 0 = Ok w ∧ AddRecords w records = Ok (status_OK, w1) ∧
    AddRecord w1 next = Ok (status_OK, w2) ∧
    ∀ (file : G) n checksum fuel, steady file →
      (length (stored (dest_ w1)) ≤ n < length (stored (dest_ w2)))%nat →
      unread file = take n (stored (dest_ w2)) → (length (unread file) < fuel)%nat →
      ∃ r', ReadRecords (S (length records)) fuel (new_Reader file (Some []) checksum 0) = Ok (records, r') ∧
        reporter_ r' = Some [].
Proof.
  intros Hd Hw Hs Hr Hn.
  destruct (new_Writer_ok dest 0 Hd ltac:(done)) as (w & E0 & Hok & Hdest & Hoff).
  rewrite Z.mod_0_l in Hoff by done. exists w.
  destruct (AddRecords_ok w records Hok Hr) as (w1 & o1 & E1 & (Hok1 & W1 & S1) & L1); [congruence|].
  destruct (AddRecord_ok w1 next Hok1 Hn) as (w2 & o2 & E2 & (Hok2 & W2 & S2) & F2).
  exists w1, w2. split_and!; [done..|]. intros file n checksum fuel Hst Hlen Hun Hfuel.
  rewrite Hdest, Hw in W1. cbn [app] in W1. rewrite W1 in W2. rewrite S1, W1, S2, W2 in *. rewrite Hoff in L1.
  rewrite length_app in Hlen. rewrite take_app_ge in Hun by lia.
  set (part := take (n - length o1) o2) in *.
  assert (bytes (unread file)) as Hb.
  { rewrite Hun. apply Forall_app_2; [by eapply logged_bytes|]. apply Forall_take. by eapply fragments_bytes. }
  pose proof (new_Reader_aligned file (Some []) checksum Hst Hb) as Ha. rewrite Hun in Ha, Hfuel.
  destruct (ReadRecords_ok 0 records o1 _ next o2 _ part fuel (new_Reader file (Some []) checksum 0) L1 F2) as (r' & E & Hrep).
  - apply prefix_take.
  - unfold part. rewrite length_take. lia.
  - exact Ha.
  - done.
  - exists r'. by split.
Qed.

#[local] Existing Instance zero_memory.

Definition empty_disk : kernel := {| on_disk := []; position := 0; interrupted := false |}.

Definition sample_log : PosixWritableFile * kernel := (new_PosixWritableFile (text "000003.log") 5, empty_disk).
Definition sample_reading (contents : list Z) : PosixSequentialFile * kernel :=
  ({| seq_fd := 6; seq_filename := text "000003.log" |},
   ({| on_disk := contents; position := 0; interrupted := true |} : kernel)).

Lemma log_read_back_witness :
  ∃ w w1 w2, new_Writer sample_log 0 = Ok w ∧
    AddRecords w [[1; 2]; []] = Ok (status_OK, w1) ∧ AddRecord w1 [3] = Ok (status_OK, w2) ∧
    let contents := take (length (stored (dest_ w1))) (stored (dest_ w2)) in
    ∃ r', ReadRecords 3 (S (length contents)) (new_Reader (sample_reading contents) (Some []) true 0) =
      Ok ([[1; 2]; []], r') ∧ reporter_ r' = Some [].
Proof.
  destruct (log_read_back (G := PosixSequentialFile * kernel) sample_log [[1; 2]; []] [3])
    as (w & w1 & w2 & E0 & E1 & E2 & Hread).
  - split; [|done]. unfold buffer_ok, kWritableFileBufferSize. cbn. lia.
  - done.
  - done.
  - apply (bool_decide_unpack _). by vm_compute.
  - apply (bool_decide_unpack _). by vm_compute.
  - exists w, w1, w2. split; [exact E0|]. split; [exact E1|]. split; [exact E2|].
    apply (Hread _ (length (stored (dest_ w1)))).
    + done.
    + split; [done|]. vm_compute in E0. injection E0 as <-. vm_compute in E1. injection E1 as <-.
      vm_compute in E2. injection E2 as <-. apply Nat.ltb_lt. by vm_compute.
    + reflexivity.
    + apply Nat.lt_succ_diag_r.
Defined.

(** C33: Reading a log ends, whatever its file holds - damaged records, records of unknown
    types, a wrong initial offset, failing reads: the loop that reads record after record
    stops after at most as many rounds as the file has bytes, and no round reads outside
    its buffer. *)
Theorem log_reading_ends `{Memory} `{SequentialFileLaws G} (file : G) reporter checksum initial_offset n :
  bytes (unread file) → 0 ≤ initial_offset < 2 ^ 62 → (length (unread file) < n)%nat →
  ∃ records r', ReadRecords n n (new_Reader file reporter checksum initial_offset) = Ok (records, r').
Proof.
  intros Hb Hi Hn. apply ReadRecords_any; [|done|done].
  split; [done|]. split; [done|]. split; [done|]. by unfold kBlockSize.
Qed.

Lemma log_reading_ends_witness :
  ∃ records r', ReadRecords 20 20
    (new_Reader (sample_reading [1; 2; 3; 4; 1; 0; 9; 7; 0; 0; 0]) (Some []) false 0) = Ok (records, r').
Proof.
  apply log_reading_ends.
  - apply (bool_decide_unpack _). by vm_compute.
  - done.
  - cbn. lia.
Defined.
