(* ===== verification/LdbIter.v ===== *)
(** * LevelDB, table/iterator: iterators over sorted entries

    The interface that the sources of entries implement (include/leveldb/iterator.h), what
    it promises (an iterator is a position in a list of entries), the empty iterators
    (table/iterator.cc) and the wrapper that caches the key (table/iterator_wrapper.h). *)

From S2P Require Import Prelude LdbCoding LdbEnv LdbOrder.

(** Calling a method that requires [Valid()] on another iterator is a fault. *)
Class Iterator (I : Type) : Type := {
  Iterator_Valid : I → bool;
  Iterator_SeekToFirst : I → outcome I;
  Iterator_SeekToLast : I → outcome I;
  Iterator_Seek : I → Slice → outcome I;
  Iterator_Next : I → outcome I;
  Iterator_Prev : I → outcome I;
  Iterator_key : I → outcome Slice;
  Iterator_value : I → outcome Slice;
  Iterator_status : I → Status
}.

(** Where [Seek] stops: after the first entries, whose keys are below the target. *)
Section bounds.
Context `{ComparatorLaws}.

Definition splits (target : Slice) (entries : list (Slice * Slice)) (c : nat) : Prop :=
  ∀ i key value, entries !! i = Some (key, value) →
    if decide (i < c)%nat then order key target < 0 else 0 ≤ order key target.

Fixpoint lower_bound (target : Slice) (entries : list (Slice * Slice)) : nat :=
  match entries with
  | [] => 0
  | (key, _) :: entries => if order key target <? 0 then S (lower_bound target entries) else 0
  end.

Lemma splits_lower_bound target entries c :
  (c ≤ length entries)%nat → splits target entries c → c = lower_bound target entries.
Proof.
  revert c. induction entries as [|[key value] entries IH]; intros c Hc Hs; cbn [length lower_bound] in *; [lia|].
  specialize (Hs 0%nat key value eq_refl) as Hfirst. destruct (Z.ltb_spec (order key target) 0) as [Hlt|Hge].
  - destruct c as [|c]; [rewrite decide_False in Hfirst by lia; lia|]. f_equal. apply IH; [lia|]. intros i k v Hi.
    specialize (Hs (S i) k v Hi). destruct (decide (i < c)%nat), (decide (S i < S c)%nat); (done || lia).
  - destruct c as [|c]; [done|]. rewrite decide_True in Hfirst by lia. lia.
Qed.

Lemma lower_bound_length target entries : (lower_bound target entries ≤ length entries)%nat.
Proof. induction entries as [|[key value] entries IH]; cbn; [lia|]. destruct (_ <? 0); lia. Qed.

(** In sorted entries the bound splits them. *)
Lemma lower_bound_splits target entries :
  key_ok target → increasing (map fst entries) → splits target entries (lower_bound target entries).
Proof.
  intros Ht [Hok Hs]. induction entries as [|[key value] entries IH]; [done|]. cbn [map lower_bound] in *.
  apply Forall_cons in Hok as [Hkey Hok]. apply StronglySorted_inv in Hs as [Hs Hbelow].
  intros [|i] k v Hi; cbn in Hi.
  - injection Hi as <- <-. destruct (Z.ltb_spec (order key target) 0); [by rewrite decide_True by lia|].
    by rewrite decide_False by lia.
  - assert (k ∈ map fst entries) as Hin by (apply list_elem_of_fmap; exists (k, v); split; [done|by eapply list_elem_of_lookup_2]).
    destruct (Z.ltb_spec (order key target) 0) as [Hlt|Hge].
    + specialize (IH Hok Hs i k v Hi). destruct (decide (i < _)%nat), (decide (S i < S _)%nat); (done || lia).
    + rewrite decide_False by lia. destruct (Z.le_gt_cases 0 (order k target)) as [|Hlt]; [done|].
      pose proof (proj1 (Forall_forall _ _) Hbelow k Hin) as Hk. cbn in Hk.
      cbn [fst] in *. pose proof (order_trans _ _ _ Hkey (proj1 (Forall_forall _ _) Hok k Hin) Ht Hk Hlt). lia.
Qed.

End bounds.

(** The position before another one; before the first there is the end. *)
Definition prior (n c : nat) : nat := if decide (c = 0)%nat then n else (c - 1)%nat.

(** A relation between iterators and the positions of a list of entries, the last of them
    past the end, that every operation respects. *)
Record iterates `{ComparatorLaws} {I : Type} `{!Iterator I} (entries : list (Slice * Slice)) (R : I → nat → Prop) : Prop := {
  iterates_valid it c : R it c → (c ≤ length entries)%nat ∧ Iterator_Valid it = (c <? length entries)%nat;
  iterates_status it c : R it c → Iterator_status it = status_OK;
  iterates_entry it c key value : R it c → entries !! c = Some (key, value) →
    Iterator_key it = Ok key ∧ Iterator_value it = Ok value;
  iterates_first it c : R it c → ∃ it', Iterator_SeekToFirst it = Ok it' ∧ R it' 0%nat;
  iterates_last it c : R it c → ∃ it', Iterator_SeekToLast it = Ok it' ∧ R it' (length entries - 1)%nat;
  iterates_next it c : R it c → (c < length entries)%nat → ∃ it', Iterator_Next it = Ok it' ∧ R it' (S c);
  iterates_prev it c : R it c → (c < length entries)%nat →
    ∃ it', Iterator_Prev it = Ok it' ∧ R it' (prior (length entries) c);
  iterates_seek it c target : R it c → key_ok target → ∃ it' c', Iterator_Seek it target = Ok it' ∧ R it' c' ∧
    splits target entries c'
}.

(** Only which iterators are at a position matters. *)
#[export] Instance iterates_proper `{ComparatorLaws} {I : Type} `{!Iterator I} (entries : list (Slice * Slice)) :
  Proper (pointwise_relation I (pointwise_relation nat iff) ==> iff) (iterates entries).
Proof.
  assert (∀ R R' : I → nat → Prop, (∀ it c, R it c ↔ R' it c) → iterates entries R → iterates entries R') as Himp.
  { intros R R' Hiff [V S E F L N P K]. split.
    - intros it c Hc. by apply V, Hiff.
    - intros it c Hc. by apply (S it c), Hiff.
    - intros it c key value Hc. by apply E, Hiff.
    - intros it c Hc. destruct (F it c (proj2 (Hiff it c) Hc)) as (it' & ? & Hc'). exists it'. by rewrite <- Hiff.
    - intros it c Hc. destruct (L it c (proj2 (Hiff it c) Hc)) as (it' & ? & Hc'). exists it'. by rewrite <- Hiff.
    - intros it c Hc Hlt. destruct (N it c (proj2 (Hiff it c) Hc) Hlt) as (it' & ? & Hc'). exists it'. by rewrite <- Hiff.
    - intros it c Hc Hlt. destruct (P it c (proj2 (Hiff it c) Hc) Hlt) as (it' & ? & Hc'). exists it'. by rewrite <- Hiff.
    - intros it c t Hc Ht. destruct (K it c t (proj2 (Hiff it c) Hc) Ht) as (it' & c' & ? & Hc'). exists it', c'. by rewrite <- Hiff. }
  intros R R' Hiff. split; apply Himp; intros it c; [apply Hiff|symmetry; apply Hiff].
Qed.

(** ** Cleanup functions

    The functions to call when an iterator is destroyed; the first is kept in the iterator. *)

Section cleanup.
Context {A : Type}.

Record CleanupList : Type := { cleanup_head : option A; cleanup_next : list A }.

Definition new_cleanup : CleanupList := {| cleanup_head := None; cleanup_next := [] |}.

Definition RegisterCleanup (c : CleanupList) (func : A) : CleanupList :=
  match cleanup_head c with
  | None => {| cleanup_head := Some func; cleanup_next := cleanup_next c |}
  | Some _ => {| cleanup_head := cleanup_head c; cleanup_next := func :: cleanup_next c |}
  end.

(** The functions that the destructor calls, in order. *)
Definition run_cleanup (c : CleanupList) : list A :=
  match cleanup_head c with None => [] | Some func => func :: cleanup_next c end.

(** Every registered function is called once. *)
Lemma run_cleanup_all funcs : run_cleanup (fold_left RegisterCleanup funcs new_cleanup) ≡ₚ funcs.
Proof.
  assert (∀ c, cleanup_head c ≠ None ∨ cleanup_next c = [] →
    run_cleanup (fold_left RegisterCleanup funcs c) ≡ₚ funcs ++ run_cleanup c) as Hrun.
  { induction funcs as [|f funcs IH]; intros c Hc; [done|]. cbn [fold_left app].
    destruct c as [[g|] next]; cbn [RegisterCleanup cleanup_head cleanup_next] in *.
    - rewrite IH by (left; done). unfold run_cleanup. cbn [cleanup_head cleanup_next].
      rewrite (Permutation_swap f g next). by rewrite (Permutation_middle funcs (g :: next) f).
    - destruct Hc as [Hc| ->]; [done|]. rewrite IH by (left; done). unfold run_cleanup. cbn [cleanup_head cleanup_next].
      rewrite app_nil_r. by rewrite <- Permutation_cons_append. }
  rewrite Hrun by by right. by rewrite app_nil_r.
Qed.

End cleanup.

(** ** Empty iterators *)

Record EmptyIterator : Type := { empty_status : Status }.

#[export] Instance empty_iterator : Iterator EmptyIterator := {|
  Iterator_Valid it := false;
  Iterator_SeekToFirst it := Ok it;
  Iterator_SeekToLast it := Ok it;
  Iterator_Seek it target := Ok it;
  Iterator_Next it := Fault OutOfBounds;
  Iterator_Prev it := Fault OutOfBounds;
  Iterator_key it := Fault OutOfBounds;
  Iterator_value it := Fault OutOfBounds;
  Iterator_status it := empty_status it
|}.

Definition NewEmptyIterator : EmptyIterator := {| empty_status := status_OK |}.
Definition NewErrorIterator (status : Status) : EmptyIterator := {| empty_status := status |}.

Lemma empty_iterates `{ComparatorLaws} : iterates [] (λ it c, it = NewEmptyIterator ∧ c = 0%nat).
Proof.
  split; intros it c; cbn.
  - intros [-> ->]. done.
  - by intros [-> ->].
  - by intros.
  - intros [-> ->]. by eexists.
  - intros [-> ->]. by eexists.
  - lia.
  - lia.
  - intros target [-> ->] _. exists NewEmptyIterator, 0%nat. by split_and!.
Qed.

(** ** A cursor

    The plain implementation of the interface: the entries with a position. *)

Record Cursor : Type := { cursor_entries : list (Slice * Slice); cursor_pos : nat }.

Definition cursor_entry (it : Cursor) : outcome (Slice * Slice) :=
  match cursor_entries it !! cursor_pos it with Some e => Ok e | None => Fault OutOfBounds end.

Definition cursor_to (it : Cursor) (c : nat) : Cursor := {| cursor_entries := cursor_entries it; cursor_pos := c |}.

Definition new_Cursor (entries : list (Slice * Slice)) : Cursor :=
  {| cursor_entries := entries; cursor_pos := length entries |}.

#[export] Instance cursor_iterator `{ComparatorLaws} : Iterator Cursor := {|
  Iterator_Valid it := (cursor_pos it <? length (cursor_entries it))%nat;
  Iterator_SeekToFirst it := Ok (cursor_to it 0);
  Iterator_SeekToLast it := Ok (cursor_to it (length (cursor_entries it) - 1));
  Iterator_Seek it target := Ok (cursor_to it (lower_bound target (cursor_entries it)));
  Iterator_Next it := _ ← cursor_entry it; Ok (cursor_to it (S (cursor_pos it)));
  Iterator_Prev it := _ ← cursor_entry it; Ok (cursor_to it (prior (length (cursor_entries it)) (cursor_pos it)));
  Iterator_key it := e ← cursor_entry it; Ok e.1;
  Iterator_value it := e ← cursor_entry it; Ok e.2;
  Iterator_status it := status_OK
|}.

Definition on_list (entries : list (Slice * Slice)) (it : Cursor) (c : nat) : Prop :=
  it = {| cursor_entries := entries; cursor_pos := c |} ∧ (c ≤ length entries)%nat.

Lemma new_Cursor_ok entries : on_list entries (new_Cursor entries) (length entries).
Proof. done. Qed.

Lemma cursor_iterates `{ComparatorLaws} entries : increasing (map fst entries) → iterates entries (on_list entries).
Proof.
  intros Hinc. split.
  - by intros it c [-> Hc].
  - done.
  - intros it c key value [-> Hc] He. cbn. unfold cursor_entry. cbn. by rewrite He.
  - intros it c [-> Hc]. eexists. split; [done|]. split; [done|lia].
  - intros it c [-> Hc]. eexists. split; [done|]. split; [done|]. lia.
  - intros it c [-> Hc] Hlt. cbn. unfold cursor_entry. cbn. destruct (lookup_lt_is_Some_2 _ _ Hlt) as [e ->].
    eexists. split; [done|]. split; [done|lia].
  - intros it c [-> Hc] Hlt. cbn. unfold cursor_entry. cbn. destruct (lookup_lt_is_Some_2 _ _ Hlt) as [e ->].
    eexists. split; [done|]. split; [done|]. unfold prior. destruct (decide _); lia.
  - intros it c target [-> Hc] Ht. eexists _, _. split; [done|]. split; [|by apply lower_bound_splits].
    split; [done|apply lower_bound_length].
Qed.

(** ** [IteratorWrapper] *)

Section wrapper.
Context {I : Type} `{!Iterator I}.

Record IteratorWrapper : Type := { iter_ : option I; valid_ : bool; wrapper_key_ : Slice }.

Definition new_IteratorWrapper : IteratorWrapper := {| iter_ := None; valid_ := false; wrapper_key_ := [] |}.

Definition Update (w : IteratorWrapper) (it : I) : outcome IteratorWrapper :=
  if Iterator_Valid it then
    key ← Iterator_key it;
    Ok {| iter_ := Some it; valid_ := true; wrapper_key_ := key |}
  else Ok {| iter_ := Some it; valid_ := false; wrapper_key_ := wrapper_key_ w |}.

Definition wrapper_Set (w : IteratorWrapper) (it : option I) : outcome IteratorWrapper :=
  match it with
  | None => Ok {| iter_ := None; valid_ := false; wrapper_key_ := wrapper_key_ w |}
  | Some it => Update w it
  end.

Definition wrapper_key (w : IteratorWrapper) : outcome Slice := _ ← require (valid_ w) OutOfBounds; Ok (wrapper_key_ w).

Definition wrapper_iter (w : IteratorWrapper) : outcome I :=
  match iter_ w with Some it => Ok it | None => Fault NullPointer end.

Definition wrapper_value (w : IteratorWrapper) : outcome Slice :=
  _ ← require (valid_ w) OutOfBounds;
  it ← wrapper_iter w; Iterator_value it.

Definition wrapper_status (w : IteratorWrapper) : outcome Status := it ← wrapper_iter w; Ok (Iterator_status it).

(** [iter_->Next(); Update()], and the same for the other moves. *)
Definition wrapper_move (move : I → outcome I) (w : IteratorWrapper) : outcome IteratorWrapper :=
  it ← wrapper_iter w;
  it ← move it;
  Update w it.

Definition wrapper_Next : IteratorWrapper → outcome IteratorWrapper := wrapper_move Iterator_Next.
Definition wrapper_Prev : IteratorWrapper → outcome IteratorWrapper := wrapper_move Iterator_Prev.
Definition wrapper_Seek (w : IteratorWrapper) (k : Slice) : outcome IteratorWrapper :=
  wrapper_move (λ it, Iterator_Seek it k) w.
Definition wrapper_SeekToFirst : IteratorWrapper → outcome IteratorWrapper := wrapper_move Iterator_SeekToFirst.
Definition wrapper_SeekToLast : IteratorWrapper → outcome IteratorWrapper := wrapper_move Iterator_SeekToLast.

End wrapper.

Arguments IteratorWrapper I : clear implicits.

(** A wrapper of an iterator at a position: what it caches is right. *)
Section wrapped.
Context `{ComparatorLaws} {I : Type} `{!Iterator I} (entries : list (Slice * Slice)) (R : I → nat → Prop).
Context (HR : iterates entries R).

Definition wraps (w : IteratorWrapper I) (c : nat) : Prop :=
  ∃ it, iter_ w = Some it ∧ R it c ∧ valid_ w = (c <? length entries)%nat ∧
    ∀ key value, entries !! c = Some (key, value) → wrapper_key_ w = key.

Lemma Update_ok w it c : R it c → ∃ w', Update w it = Ok w' ∧ wraps w' c.
Proof.
  intros Hit. destruct (iterates_valid _ _ HR it c Hit) as [Hc Hv]. unfold Update. rewrite Hv.
  destruct (Nat.ltb_spec c (length entries)) as [Hlt|Hge].
  - destruct (lookup_lt_is_Some_2 entries c Hlt) as [[key value] He].
    destruct (iterates_entry _ _ HR it c key value Hit He) as [-> _]. cbn [mbind outcome_bind].
    eexists. split; [reflexivity|]. exists it. cbn. split_and!; try done.
    + symmetry. by apply Nat.ltb_lt.
    + intros k v Hk. congruence.
  - eexists. split; [reflexivity|]. exists it. cbn. split_and!; try done.
    + symmetry. by apply Nat.ltb_ge.
    + intros k v Hk. apply lookup_lt_Some in Hk. lia.
Qed.

Lemma wraps_move move w c c' :
  wraps w c → (∀ it, R it c → ∃ it', move it = Ok it' ∧ R it' c') →
  ∃ w', wrapper_move move w = Ok w' ∧ wraps w' c'.
Proof.
  intros (it & Hi & Hit & _) Hm. unfold wrapper_move, wrapper_iter. rewrite Hi. cbn [mbind outcome_bind].
  destruct (Hm it Hit) as (it' & -> & Hit'). cbn [mbind outcome_bind]. by apply Update_ok.
Qed.

Lemma wraps_valid w c : wraps w c → (c ≤ length entries)%nat ∧ valid_ w = (c <? length entries)%nat.
Proof. intros (it & _ & Hit & Hv & _). split; [by eapply (iterates_valid _ _ HR)|done]. Qed.

Lemma wraps_status w c : wraps w c → wrapper_status w = Ok status_OK.
Proof.
  intros (it & Hi & Hit & _). unfold wrapper_status, wrapper_iter. rewrite Hi. cbn [mbind outcome_bind].
  by rewrite (iterates_status _ _ HR it c Hit).
Qed.

Lemma wraps_entry w c key value :
  wraps w c → entries !! c = Some (key, value) → wrapper_key w = Ok key ∧ wrapper_value w = Ok value.
Proof.
  intros (it & Hi & Hit & Hv & Hk) He. unfold wrapper_key, wrapper_value, wrapper_iter.
  rewrite Hv, (proj2 (Nat.ltb_lt _ _) (lookup_lt_Some _ _ _ He)), Hi. cbn [require mbind outcome_bind].
  rewrite (Hk _ _ He). split; [done|].
  by eapply (iterates_entry _ _ HR it c).
Qed.

Lemma wraps_first w c : wraps w c → ∃ w', wrapper_SeekToFirst w = Ok w' ∧ wraps w' 0%nat.
Proof. intros Hw. apply (wraps_move _ w c); [done|]. intros it. apply (iterates_first _ _ HR). Qed.

Lemma wraps_last w c : wraps w c → ∃ w', wrapper_SeekToLast w = Ok w' ∧ wraps w' (length entries - 1)%nat.
Proof. intros Hw. apply (wraps_move _ w c); [done|]. intros it. apply (iterates_last _ _ HR). Qed.

Lemma wraps_next w c : wraps w c → (c < length entries)%nat → ∃ w', wrapper_Next w = Ok w' ∧ wraps w' (S c).
Proof. intros Hw Hc. apply (wraps_move _ w c); [done|]. intros it Hit. by eapply (iterates_next _ _ HR). Qed.

Lemma wraps_prev w c :
  wraps w c → (c < length entries)%nat →
  ∃ w', wrapper_Prev w = Ok w' ∧ wraps w' (prior (length entries) c).
Proof. intros Hw Hc. apply (wraps_move _ w c); [done|]. intros it Hit. by eapply (iterates_prev _ _ HR). Qed.

Lemma wraps_seek w c target :
  wraps w c → key_ok target →
  ∃ w', wrapper_Seek w target = Ok w' ∧ wraps w' (lower_bound target entries) ∧
    splits target entries (lower_bound target entries).
Proof.
  intros (it & Hi & Hit & _) Ht. unfold wrapper_Seek, wrapper_move, wrapper_iter. rewrite Hi. cbn [mbind outcome_bind].
  destruct (iterates_seek _ _ HR it c target Hit Ht) as (it' & c' & -> & Hit' & Hs). cbn [mbind outcome_bind].
  pose proof (splits_lower_bound target entries c' (proj1 (iterates_valid _ _ HR _ _ Hit')) Hs) as Heq. subst c'.
  destruct (Update_ok w it' _ Hit') as (w' & -> & Hw'). by exists w'.
Qed.

End wrapped.
