(* ===== verification/LdbMem.v ===== *)
(** * LevelDB, db/memtable and db/write_batch: writes in memory

    The table of the latest writes - a skip list of encoded entries - with its iterator,
    and the batches of writes that go to the log and into the table. *)

From S2P Require Import Prelude LdbCoding LdbEnv LdbOrder LdbIter LdbFormat LdbSkip.

(** ** [MemTable] *)

(** The slice at a pointer, with what is behind it. *)
Definition prefixed_at (data : list Z) : outcome (Slice * list Z) :=
  match GetVarint32Ptr data with
  | None => Fault Uninitialised
  | Some (n, p) => s ← read_at p 0 n; Ok (s, drop (Z.to_nat n) p)
  end.

Record MemTable : Type := { refs_ : Z; table_ : SkipList (list Z) }.

Section memtable.
Context `{user_comparator : Comparator}.

Definition KeyComparator (aptr bptr : list Z) : outcome Z :=
  a ← prefixed_at aptr;
  b ← prefixed_at bptr;
  InternalKeyComparator_Compare a.1 b.1.

#[export] Instance memtable_keys : KeyCompare (list Z) := {| compare_ := KeyComparator; null_key := [] |}.

Definition new_MemTable : MemTable := {| refs_ := 0; table_ := new_SkipList |}.

Definition MemTable_Ref (m : MemTable) : outcome MemTable :=
  refs ← int_result (refs_ m + 1); Ok {| refs_ := refs; table_ := table_ m |}.

(** [None] when the table is deleted. *)
Definition MemTable_Unref (m : MemTable) : outcome (option MemTable) :=
  refs ← int_result (refs_ m - 1);
  _ ← require (0 <=? refs) OutOfBounds;
  Ok (if refs <=? 0 then None else Some {| refs_ := refs; table_ := table_ m |}).

(** The entry must fill the buffer of [encoded_len] bytes. *)
Definition MemTable_Add (m : MemTable) (s type : Z) (key value : Slice) : outcome MemTable :=
  let key_size := len key in
  let val_size := len value in
  let internal_key_size := u64 (key_size + 8) in
  let encoded_len := u64 (VarintLength internal_key_size + internal_key_size + VarintLength val_size + val_size) in
  let buf := EncodeVarint32 (u32 internal_key_size) ++ key ++ EncodeFixed64 (Z.lor (u64 (Z.shiftl s 8)) type) ++
    EncodeVarint32 (u32 val_size) ++ value in
  _ ← require (len buf =? encoded_len) OutOfBounds;
  table ← Insert (table_ m) buf;
  Ok {| refs_ := refs_ m; table_ := table |}.

(** Whether the key was found, with the new [*value] and [*s]. *)
Definition MemTable_Get (m : MemTable) (key : LookupKey) (value : list Z) (s : Status) : outcome (bool * list Z * Status) :=
  let memkey := memtable_key key in
  iter ← skip_Seek (table_ m) new_SkipIterator memkey;
  if skip_Valid iter then
    entry ← skip_key (table_ m) iter;
    match GetVarint32Ptr entry with
    | None => Fault Uninitialised
    | Some (key_length, key_ptr) =>
        ukey ← read_at key_ptr 0 (u32 (key_length - 8));
        ukey' ← user_key key;
        r ← Compare ukey ukey';
        if r =? 0 then
          l ← read_at key_ptr (key_length - 8) 8;
          tag ← DecodeFixed64 l;
          let t := Z.land tag 0xff in
          if t =? kTypeValue then
            _ ← require (key_length <=? len key_ptr) OutOfBounds;
            v ← prefixed_at (drop (Z.to_nat key_length) key_ptr);
            Ok (true, v.1, s)
          else if t =? kTypeDeletion then Ok (true, value, NotFound [] [])
          else Ok (false, value, s)
        else Ok (false, value, s)
    end
  else Ok (false, value, s).

(** *** [MemTableIterator] *)

Definition EncodeKey (target : Slice) : list Z := PutVarint32 [] (u32 (len target)) ++ target.

(** The iterator over a table. *)
Definition memtable_iterator (table : SkipList (list Z)) : Iterator SkipIterator := {|
  Iterator_Valid := skip_Valid;
  Iterator_SeekToFirst := skip_SeekToFirst table;
  Iterator_SeekToLast := skip_SeekToLast table;
  Iterator_Seek it k := skip_Seek table it (EncodeKey k);
  Iterator_Next := skip_Next table;
  Iterator_Prev := skip_Prev table;
  Iterator_key it := e ← skip_key table it; s ← prefixed_at e; Ok s.1;
  Iterator_value it := e ← skip_key table it; key_slice ← prefixed_at e; s ← prefixed_at key_slice.2; Ok s.1;
  Iterator_status it := status_OK
|}.

End memtable.

(** ** [WriteBatch] *)

Definition kHeader : Z := 12.

Record WriteBatch : Type := { wb_rep : list Z }.

(** [WriteBatch::Handler] *)
Class Handler (H : Type) : Type := {
  handler_Put : H → Slice → Slice → outcome H;
  handler_Delete : H → Slice → outcome H
}.

(** What [Clear] leaves. *)
Definition new_WriteBatch : WriteBatch := {| wb_rep := replicate (Z.to_nat kHeader) 0 |}.

Definition ApproximateSize (b : WriteBatch) : Z := len (wb_rep b).

Definition Count (b : WriteBatch) : outcome Z :=
  l ← read_at (wb_rep b) 8 4; n ← DecodeFixed32 l; Ok (s32 n).

Definition SetCount (b : WriteBatch) (n : Z) : outcome WriteBatch :=
  _ ← require (12 <=? len (wb_rep b)) OutOfBounds;
  Ok {| wb_rep := take 8 (wb_rep b) ++ EncodeFixed32 (u32 n) ++ drop 12 (wb_rep b) |}.

Definition Sequence (b : WriteBatch) : outcome Z := l ← read_at (wb_rep b) 0 8; DecodeFixed64 l.

Definition SetSequence (b : WriteBatch) (seq : Z) : outcome WriteBatch :=
  _ ← require (8 <=? len (wb_rep b)) OutOfBounds;
  Ok {| wb_rep := EncodeFixed64 seq ++ drop 8 (wb_rep b) |}.

(** [SetCount(this, Count(this) + 1)] *)
Definition increment_count (b : WriteBatch) : outcome WriteBatch :=
  n ← Count b; n ← int_result (n + 1); SetCount b n.

Definition WriteBatch_Put (b : WriteBatch) (key value : Slice) : outcome WriteBatch :=
  b ← increment_count b;
  Ok {| wb_rep := PutLengthPrefixedSlice (PutLengthPrefixedSlice (wb_rep b ++ [kTypeValue]) key) value |}.

Definition WriteBatch_Delete (b : WriteBatch) (key : Slice) : outcome WriteBatch :=
  b ← increment_count b;
  Ok {| wb_rep := PutLengthPrefixedSlice (wb_rep b ++ [kTypeDeletion]) key |}.

Definition WriteBatch_Append (dst src : WriteBatch) : outcome WriteBatch :=
  n ← Count dst;
  m ← Count src;
  n ← int_result (n + m);
  dst ← SetCount dst n;
  _ ← require (kHeader <=? len (wb_rep src)) OutOfBounds;
  Ok {| wb_rep := wb_rep dst ++ drop (Z.to_nat kHeader) (wb_rep src) |}.

Definition SetContents (b : WriteBatch) (contents : Slice) : outcome WriteBatch :=
  _ ← require (kHeader <=? len contents) OutOfBounds; Ok {| wb_rep := contents |}.

Section iterate.
Context {H : Type} `{!Handler H}.

(** The rounds of the loop: the status to return if one of them fails, and [found]. *)
Fixpoint Iterate_loop (fuel : nat) (input : Slice) (found : Z) (handler : H) : outcome (option Status * Z * H) :=
  match fuel with
  | O => Fault Diverges
  | S fuel =>
      match input with
      | [] => Ok (None, found, handler)
      | tag :: input =>
          found ← int_result (found + 1);
          if tag =? kTypeValue then
            match GetLengthPrefixedSlice input with
            | (Some key, input) =>
                match GetLengthPrefixedSlice input with
                | (Some value, input) =>
                    handler ← handler_Put handler key value;
                    Iterate_loop fuel input found handler
                | _ => Ok (Some (Corruption (text "bad WriteBatch Put") []), found, handler)
                end
            | _ => Ok (Some (Corruption (text "bad WriteBatch Put") []), found, handler)
            end
          else if tag =? kTypeDeletion then
            match GetLengthPrefixedSlice input with
            | (Some key, input) =>
                handler ← handler_Delete handler key;
                Iterate_loop fuel input found handler
            | _ => Ok (Some (Corruption (text "bad WriteBatch Delete") []), found, handler)
            end
          else Ok (Some (Corruption (text "unknown WriteBatch tag") []), found, handler)
      end
  end.

(** A round takes a byte at least. *)
Definition Iterate (b : WriteBatch) (handler : H) : outcome (Status * H) :=
  if len (wb_rep b) <? kHeader then Ok (Corruption (text "malformed WriteBatch (too small)") [], handler)
  else
    let input := drop (Z.to_nat kHeader) (wb_rep b) in
    r ← Iterate_loop (S (length input)) input 0 handler;
    let '(st, found, handler) := r in
    match st with
    | Some st => Ok (st, handler)
    | None =>
        n ← Count b;
        Ok (if negb (found =? n) then Corruption (text "WriteBatch has wrong count") [] else status_OK, handler)
    end.

End iterate.

Section inserter.
Context `{user_comparator : Comparator}.

Record MemTableInserter : Type := { sequence_ : Z; mem_ : MemTable }.

(** [mem_->Add(sequence_, type, key, value); sequence_++;] *)
Definition inserter_add (this : MemTableInserter) (type : Z) (key value : Slice) : outcome MemTableInserter :=
  mem ← MemTable_Add (mem_ this) (sequence_ this) type key value;
  Ok {| sequence_ := u64 (sequence_ this + 1); mem_ := mem |}.

#[export] Instance memtable_inserter : Handler MemTableInserter := {|
  handler_Put this key value := inserter_add this kTypeValue key value;
  handler_Delete this key := inserter_add this kTypeDeletion key []
|}.

Definition InsertInto (b : WriteBatch) (memtable : MemTable) : outcome (Status * MemTable) :=
  seq ← Sequence b;
  r ← Iterate b {| sequence_ := seq; mem_ := memtable |};
  Ok (r.1, mem_ r.2).

End inserter.

(** ** Entries *)

Lemma prefixed_at_ok k rest : len k < 2 ^ 32 → prefixed_at (PutLengthPrefixedSlice [] k ++ rest) = Ok (k, rest).
Proof.
  intros Hk. unfold prefixed_at, PutLengthPrefixedSlice, PutVarint32. cbn [app].
  rewrite wrap_small by (unfold in_width; lia). rewrite <- app_assoc.
  pose proof (GetVarint32_ok (len k) (k ++ rest) ltac:(unfold in_width; lia)) as E. unfold GetVarint32 in E. rewrite E.
  rewrite read_at_head by done. cbn [mbind outcome_bind]. by rewrite Nat2Z.id, drop_app_length.
Qed.

Lemma PutLengthPrefixedSlice_app dst v : PutLengthPrefixedSlice dst v = dst ++ PutLengthPrefixedSlice [] v.
Proof. unfold PutLengthPrefixedSlice, PutVarint32. cbn [app]. by rewrite <- app_assoc. Qed.

Section table.
Context `{ComparatorLaws}.

(** The internal key of an encoded entry. *)
Definition entry_key (e : list Z) : Slice := match prefixed_at e with Ok (k, _) => k | _ => [] end.

Definition entry_good (e : list Z) : Prop := ∃ k rest, prefixed_at e = Ok (k, rest) ∧ internal_key_ok k.

#[export] Instance memtable_key_laws : KeyCompareLaws (Key := list Z).
Proof.
  refine (@Build_KeyCompareLaws (list Z) memtable_keys entry_good (λ a b, internal_order (entry_key a) (entry_key b)) _ _ _).
  - intros a b (ka & ra & Ea & Ha) (kb & rb & Eb & Hb). cbn. unfold KeyComparator, entry_key. rewrite Ea, Eb.
    cbn [mbind outcome_bind fst]. by apply internal_Compare_ok.
  - intros a b (ka & ra & Ea & Ha) (kb & rb & Eb & Hb). unfold entry_key. rewrite Ea, Eb. by apply internal_order_flip.
  - intros a b c (ka & ra & Ea & Ha) (kb & rb & Eb & Hb) (kc & rc & Ec & Hc). unfold entry_key. rewrite Ea, Eb, Ec.
    apply (@order_le_lt _ internal_laws); assumption.
Defined.

(** What the table holds: internal keys with their values. *)
Definition encode_entry (e : Slice * Slice) : list Z := PutLengthPrefixedSlice (PutLengthPrefixedSlice [] e.1) e.2.

Definition entry_ok (e : Slice * Slice) : Prop := internal_key_ok e.1 ∧ len e.1 < 2 ^ 32 ∧ len e.2 < 2 ^ 32.

Definition holds (m : MemTable) (entries : list (Slice * Slice)) : Prop :=
  contents (table_ m) (map encode_entry entries) ∧ Forall entry_ok entries.

Lemma entry_at e : entry_ok e → prefixed_at (encode_entry e) = Ok (e.1, PutLengthPrefixedSlice [] e.2).
Proof.
  intros (_ & Hk & _). unfold encode_entry. rewrite PutLengthPrefixedSlice_app. by apply prefixed_at_ok.
Qed.

Lemma value_at e : entry_ok e → prefixed_at (PutLengthPrefixedSlice [] e.2) = Ok (e.2, []).
Proof. intros (_ & _ & Hv). rewrite <- (app_nil_r (PutLengthPrefixedSlice [] e.2)). by apply prefixed_at_ok. Qed.

Lemma entry_key_ok e : entry_ok e → entry_key (encode_entry e) = e.1.
Proof. intros He. unfold entry_key. by rewrite (entry_at e He). Qed.

Lemma kord_entry e e' : entry_ok e → entry_ok e' → kord (encode_entry e) (encode_entry e') = internal_order e.1 e'.1.
Proof.
  intros He He'. change (internal_order (entry_key (encode_entry e)) (entry_key (encode_entry e')) = internal_order e.1 e'.1).
  by rewrite !entry_key_ok.
Qed.

Lemma encode_good e : entry_ok e → good (encode_entry e).
Proof. intros He. exists e.1, (PutLengthPrefixedSlice [] e.2). split; [by apply entry_at|apply He]. Qed.

Lemma target_good k : internal_key_ok k → len k < 2 ^ 32 → good (EncodeKey k) ∧ entry_key (EncodeKey k) = k.
Proof.
  intros Hk Hl. assert (prefixed_at (EncodeKey k) = Ok (k, [])) as E.
  { rewrite <- (prefixed_at_ok k []) by done. by rewrite app_nil_r. }
  split; [by exists k, []|]. unfold entry_key. by rewrite E.
Qed.

Lemma holds_new : holds new_MemTable [].
Proof. split; [apply contents_new|constructor]. Qed.

Lemma holds_increasing m entries :
  holds m entries → @increasing _ internal_laws (map fst entries).
Proof.
  intros [Hc Hok]. apply contents_sorted in Hc as [Hs _]. split.
  - apply Forall_map. eapply Forall_impl; [exact Hok|]. by intros e (Hk & _).
  - clear m. induction Hok as [|e entries He Hok IH]; cbn [map] in *; [constructor|].
    apply StronglySorted_inv in Hs as [Hs Hx]. constructor; [by apply IH|]. apply Forall_map.
    apply Forall_forall. intros e' He'. rewrite Forall_map in Hx.
    pose proof (proj1 (Forall_forall _ _) Hx e' He') as Hlt. cbv beta in Hlt.
    by rewrite kord_entry in Hlt by (done || exact (proj1 (Forall_forall _ _) Hok e' He')).
Qed.

(** *** Additions *)

Lemma insert_entry e entries :
  ∃ entries', insert_key (encode_entry e) (map encode_entry entries) = map encode_entry entries' ∧ entries' ≡ₚ e :: entries.
Proof.
  induction entries as [|e' entries IH]; cbn [map insert_key]; [by exists [e]|].
  destruct (_ <? 0).
  - destruct IH as (entries' & -> & Hp). exists (e' :: entries'). split; [done|]. rewrite Hp. apply Permutation_swap.
  - by exists (e :: e' :: entries).
Qed.

Lemma Add_buffer s type key value :
  0 ≤ s ≤ kMaxSequenceNumber → 0 ≤ type ≤ kValueTypeForSeek → len key < 2 ^ 32 - 8 → len value < 2 ^ 32 →
  EncodeVarint32 (u32 (u64 (len key + 8))) ++ key ++ EncodeFixed64 (Z.lor (u64 (Z.shiftl s 8)) type) ++
    EncodeVarint32 (u32 (len value)) ++ value = encode_entry (packed_key key s type, value) ∧
  len (encode_entry (packed_key key s type, value)) =
    u64 (VarintLength (u64 (len key + 8)) + u64 (len key + 8) + VarintLength (len value) + len value).
Proof.
  intros Hs Ht Hk Hv. destruct (pack_ok s type Hs Ht) as [Hp _]. unfold PackSequenceAndType in Hp.
  destruct (s <=? kMaxSequenceNumber); [|done]. destruct (type <=? kValueTypeForSeek); [|done].
  cbn [require mbind outcome_bind] in Hp. injection Hp as ->.
  rewrite (wrap_small 64 (len key + 8)) by (unfold in_width; lia).
  unfold encode_entry, PutLengthPrefixedSlice, PutVarint32, packed_key. cbn [fst snd app].
  assert (len (key ++ EncodeFixed64 (s * 256 + type)) = len key + 8) as -> by (rewrite length_app, length_fixed64; lia).
  assert (∀ v, in_width 32 v → VarintLength v = len (EncodeVarint32 v)) as Hlen.
  { intros v [Hv0 Hv1]. unfold VarintLength. rewrite VarintLength_loop_ok by lia.
    rewrite (EncodeVarint32_loop v 10) by (unfold in_width; lia). lia. }
  assert (∀ v, len (EncodeVarint32 v) ≤ 5) as H5 by (intros v; unfold EncodeVarint32; repeat destruct (_ <? _); cbn; lia).
  split; [by rewrite <- !app_assoc|]. rewrite !(wrap_small 32) by (unfold in_width; lia).
  rewrite !Hlen by (unfold in_width; lia). pose proof (H5 (len key + 8)). pose proof (H5 (len value)).
  rewrite wrap_small by (unfold in_width; lia). rewrite !length_app, length_fixed64. lia.
Qed.

Lemma MemTable_Add_ok m entries s type key value :
  holds m entries → key_ok key → 0 ≤ s ≤ kMaxSequenceNumber → 0 ≤ type ≤ kValueTypeForSeek →
  len key < 2 ^ 32 - 8 → len value < 2 ^ 32 → packed_key key s type ∉ map fst entries →
  ∃ m' entries', MemTable_Add m s type key value = Ok m' ∧ holds m' entries' ∧
    entries' ≡ₚ (packed_key key s type, value) :: entries.
Proof.
  intros [Hc Hok] Hkey Hs Ht Hk Hv Hfresh. set (e := (packed_key key s type, value)).
  destruct (packed_key_parts key s type (proj2 (pack_ok _ _ Hs Ht))) as (Eu & _ & Hb & Hl).
  assert (entry_ok e) as He.
  { split; [split; [done|]; cbn [fst e]; by rewrite Eu|]. cbn [fst snd e]. unfold packed_key. rewrite length_app, length_fixed64. lia. }
  unfold MemTable_Add. destruct (Add_buffer s type key value Hs Ht Hk Hv) as [-> ->]. fold e.
  rewrite Z.eqb_refl. cbn [require mbind outcome_bind].
  destruct (contents_Insert (table_ m) _ (encode_entry e) Hc (encode_good e He)) as (t & -> & Hc').
  { apply Forall_map, Forall_forall. intros e' He'.
    pose proof (proj1 (Forall_forall _ _) Hok e' He') as He'ok. rewrite kord_entry by done.
    intros E. apply internal_order_zero in E; [|apply He'ok|apply He]. apply Hfresh. cbn in E. rewrite <- E.
    by apply list_elem_of_fmap_2. }
  cbn [mbind outcome_bind]. destruct (insert_entry e entries) as (entries' & E & Hp). rewrite E in Hc'.
  eexists _, entries'. split; [done|]. split; [|done]. split; [done|]. rewrite Hp. by constructor.
Qed.

(** *** Lookups *)

(** The writes that a table holds, in the order of their sequence numbers. *)
Record write : Type := { w_seq : Z; w_type : Z; w_key : Slice; w_value : Slice }.

Definition write_ok (w : write) : Prop :=
  key_ok (w_key w) ∧ 0 ≤ w_seq w ≤ kMaxSequenceNumber ∧ 0 ≤ w_type w ≤ kValueTypeForSeek ∧
  len (w_key w) < 2 ^ 32 - 8 ∧ len (w_value w) < 2 ^ 32.

Definition entry_of (w : write) : Slice * Slice := (packed_key (w_key w) (w_seq w) (w_type w), w_value w).

(** The writes are in the order of their sequence numbers. *)
Definition in_order (log : list write) : Prop := StronglySorted (λ a b, w_seq a < w_seq b) log.

Definition logged (m : MemTable) (log : list write) : Prop :=
  Forall write_ok log ∧ in_order log ∧ ∃ entries, holds m entries ∧ entries ≡ₚ map entry_of log.

(** What a reader at a sequence number sees of a key. *)
Definition visible (key : Slice) (s : Z) (w : write) : Prop := w_key w = key ∧ w_seq w ≤ s.

#[export] Instance visible_dec key s w : Decision (visible key s w).
Proof. unfold visible. apply _. Defined.

Lemma write_parts w :
  write_ok w → internal_key_ok (entry_of w).1 ∧ ukey (entry_of w).1 = w_key w ∧
    le_value (key_tag (entry_of w).1) = w_seq w * 256 + w_type w ∧ entry_ok (entry_of w).
Proof.
  intros (Hk & Hs & Ht & Hlk & Hlv). cbn [entry_of fst].
  destruct (packed_key_parts (w_key w) (w_seq w) (w_type w) (proj2 (pack_ok _ _ Hs Ht))) as (Eu & En & Hb & Hl).
  assert (internal_key_ok (packed_key (w_key w) (w_seq w) (w_type w))) as Hi by (split; [done|]; by rewrite Eu).
  split; [done|]. split; [done|]. split; [done|]. split; [done|]. cbn [entry_of fst snd].
  unfold packed_key. rewrite length_app, length_fixed64. lia.
Qed.

Lemma target_parts u s :
  key_ok u → 0 ≤ s ≤ kMaxSequenceNumber →
  internal_key_ok (packed_key u s kValueTypeForSeek) ∧ ukey (packed_key u s kValueTypeForSeek) = u ∧
    le_value (key_tag (packed_key u s kValueTypeForSeek)) = s * 256 + 1.
Proof.
  intros Hu Hs. destruct (packed_key_parts u s kValueTypeForSeek (proj2 (pack_ok s kValueTypeForSeek Hs ltac:(done)))) as (Eu & En & Hb & Hl).
  split; [|done]. split; [done|]. by rewrite Eu.
Qed.

(** The last write among those that a predicate selects. *)
Lemma last_filter (P : write → Prop) `{∀ w, Decision (P w)} log w :
  in_order log → w ∈ log → P w → (∀ w', w' ∈ log → P w' → w_seq w' ≤ w_seq w) → last (filter P log) = Some w.
Proof.
  intros Hs Hin HP Hmax. apply list_elem_of_split in Hin as (l1 & l2 & ->).
  rewrite filter_app, filter_cons_True by done.
  assert (filter P l2 = []) as ->.
  { assert (∀ w', w' ∈ l2 → ~ P w') as Hnone.
    { intros w' Hw' HP'. specialize (Hmax w' ltac:(rewrite elem_of_app, elem_of_cons; auto) HP').
      apply sorted_right in Hs. apply StronglySorted_inv in Hs as [_ Hs].
      pose proof (proj1 (Forall_forall _ _) Hs w' Hw') as Hlt. cbv beta in Hlt. lia. }
    clear Hs Hmax. induction l2 as [|w' l2 IH]; [done|]. rewrite filter_cons_False by (apply Hnone, list_elem_of_here).
    apply IH. intros w'' Hw''. apply Hnone. by apply list_elem_of_further. }
  apply last_snoc.
Qed.

Lemma filter_none (P : write → Prop) `{∀ w, Decision (P w)} log : (∀ w, w ∈ log → ~ P w) → filter P log = [].
Proof.
  induction log as [|w log IH]; intros Hn; [done|]. rewrite filter_cons_False by (apply Hn, list_elem_of_here).
  apply IH. intros w' Hw'. apply Hn. by apply list_elem_of_further.
Qed.

(** An entry at or above the target of a lookup. *)
Lemma above_target w u s :
  write_ok w → key_ok u → 0 ≤ s ≤ kMaxSequenceNumber →
  0 ≤ internal_order (entry_of w).1 (packed_key u s kValueTypeForSeek) ↔
  ~ order (w_key w) u < 0 ∧ (w_key w = u → w_seq w ≤ s).
Proof.
  intros Hw Hu Hs. destruct (write_parts w Hw) as (Hi & Eu & En & _). destruct (target_parts u s Hu Hs) as (Hi' & Eu' & En').
  pose proof (internal_order_spec _ _ Hi Hi') as Hspec. rewrite Eu, Eu', En, En' in Hspec.
  destruct Hw as (_ & Hseq & Ht & _). unfold kValueTypeForSeek, kTypeValue in Ht.
  rewrite Z.le_ngt, Hspec. split.
  - intros Hn. split; [tauto|]. intros Heq. destruct (Z.le_gt_cases (w_seq w) s) as [|Hgt]; [done|].
    exfalso. apply Hn. right. split; [done|]. lia.
  - intros [H1 H2] [?|[Heq Hlt]]; [done|]. specialize (H2 Heq). lia.
Qed.

(** Among the entries from the target on, the first is the latest one that is visible. *)
Lemma seek_visible entries log u s c :
  Forall write_ok log → in_order log → entries ≡ₚ map entry_of log → @increasing _ internal_laws (map fst entries) →
  key_ok u → 0 ≤ s ≤ kMaxSequenceNumber →
  (∀ i e, entries !! i = Some e → if decide (i < c)%nat then internal_order e.1 (packed_key u s kValueTypeForSeek) < 0
     else 0 ≤ internal_order e.1 (packed_key u s kValueTypeForSeek)) →
  match entries !! c with
  | Some e => ∃ w, w ∈ log ∧ e = entry_of w ∧
      (if decide (w_key w = u) then last (filter (visible u s) log) = Some w else filter (visible u s) log = [])
  | None => filter (visible u s) log = []
  end.
Proof.
  intros Hok Hord Hp Hinc Hu Hs Hsplit.
  assert (∀ w, w ∈ log → visible u s w → ∃ i, entries !! i = Some (entry_of w) ∧ (c ≤ i)%nat) as Hvis.
  { intros w Hw [Hkey Hseq]. assert (entry_of w ∈ entries) as Hin by (rewrite Hp; by apply list_elem_of_fmap_2).
    apply list_elem_of_lookup_1 in Hin as [i Hi]. exists i. split; [done|]. specialize (Hsplit i _ Hi).
    destruct (decide (i < c)%nat) as [Hlt|]; [|lia]. exfalso.
    pose proof (proj1 (Forall_forall _ _) Hok w Hw) as Hwok.
    assert (0 ≤ internal_order (entry_of w).1 (packed_key u s kValueTypeForSeek)); [|lia].
    apply above_target; [done|done|done|]. split; [|done]. rewrite Hkey. by apply order_irrefl. }
  destruct (entries !! c) as [e|] eqn:He.
  - assert (e ∈ map entry_of log) as Hin by (rewrite <- Hp; by eapply list_elem_of_lookup_2).
    apply list_elem_of_fmap in Hin as (w & -> & Hw). exists w. split; [done|]. split; [done|].
    pose proof (proj1 (Forall_forall _ _) Hok w Hw) as Hwok. specialize (Hsplit c _ He).
    rewrite decide_False in Hsplit by lia. apply above_target in Hsplit as [Hge Hseq]; [|done..].
    assert (∀ w', w' ∈ log → visible u s w' → w_key w = u ∧ w_seq w' ≤ w_seq w) as Hfirst.
    { intros w' Hw' Hv. destruct (Hvis w' Hw' Hv) as (i & Hi & Hci).
      pose proof (proj1 (Forall_forall _ _) Hok w' Hw') as Hwok'. destruct (decide (i = c)) as [->|Hne].
      - rewrite He in Hi. injection Hi as Hi.
        destruct (write_parts w Hwok) as (_ & Eu & En & _), (write_parts w' Hwok') as (_ & Eu' & En' & _).
        unfold entry_of in *. cbn [fst] in *. rewrite Hi in *. split; [rewrite <- Eu, Eu'; apply Hv|].
        destruct Hwok as (_ & _ & Ht & _), Hwok' as (_ & _ & Ht' & _). unfold kValueTypeForSeek, kTypeValue in *. lia.
      - destruct (write_parts w Hwok) as (Hik & Eu & En & _), (write_parts w' Hwok') as (Hik' & Eu' & En' & _).
        assert (internal_order (entry_of w).1 (entry_of w').1 < 0) as Hlt.
        { apply (@increasing_lookup _ internal_laws (map fst entries) c i); [done| | |lia].
          - by rewrite list_lookup_fmap, He.
          - by rewrite list_lookup_fmap, Hi. }
        apply internal_order_spec in Hlt; [|done|done]. rewrite Eu, Eu', En, En' in Hlt. destruct Hv as [Hkey Hv].
        rewrite Hkey in Hlt. destruct Hlt as [|[Hk Htag]]; [done|]. split; [done|].
        destruct Hwok as (_ & _ & Ht & _), Hwok' as (_ & _ & Ht' & _). unfold kValueTypeForSeek, kTypeValue in *. lia. }
    destruct (decide (w_key w = u)) as [Heq|Hneq].
    + apply last_filter; [done|done|split; auto|]. intros w' Hw' Hv. by apply Hfirst.
    + apply filter_none. intros w' Hw' Hv. by apply Hneq, (Hfirst w').
  - apply filter_none. intros w' Hw' Hv. destruct (Hvis w' Hw' Hv) as (i & Hi & Hci).
    apply lookup_ge_None in He. apply lookup_lt_Some in Hi. lia.
Qed.

(** A lookup key points to its internal key as the iterator is given it. *)
Lemma lookup_target u s :
  len u < 2 ^ 32 - 8 → EncodeVarint32 (len u + 8) ++ packed_key u s kValueTypeForSeek = EncodeKey (packed_key u s kValueTypeForSeek).
Proof.
  intros Hu. unfold EncodeKey, PutVarint32. cbn [app]. do 2 f_equal.
  assert (len (packed_key u s kValueTypeForSeek) = len u + 8) as -> by (unfold packed_key; rewrite length_app, length_fixed64; lia).
  rewrite wrap_small by (unfold in_width; lia). done.
Qed.

(** Seeking the iterator of the table. *)
Lemma holds_seek m entries it k :
  holds m entries → internal_key_ok k → len k < 2 ^ 32 →
  ∃ it' c, skip_Seek (table_ m) it (EncodeKey k) = Ok it' ∧ skip_on (table_ m) (map encode_entry entries) it' c ∧
    ∀ i e, entries !! i = Some e → if decide (i < c)%nat then internal_order e.1 k < 0 else 0 ≤ internal_order e.1 k.
Proof.
  intros [Hc Hok] Hk Hl. destruct (target_good k Hk Hl) as [Hg Ek].
  destruct (skip_iterates_seek _ _ _ (contents_iterates _ _ Hc) it (EncodeKey k) Hg) as (it' & c & E & Hat & Hlt & Hge).
  exists it', c. split; [done|]. split; [done|]. intros i e He.
  assert (kord (encode_entry e) (EncodeKey k) = internal_order e.1 k) as Eo.
  { change (internal_order (entry_key (encode_entry e)) (entry_key (EncodeKey k)) = internal_order e.1 k).
    rewrite Ek, entry_key_ok; [done|]. by eapply (Forall_lookup_1 _ _ i e) in Hok. }
  assert (map encode_entry entries !! i = Some (encode_entry e)) as Hi by by rewrite list_lookup_fmap, He.
  destruct (decide (i < c)%nat) as [Hlt'|Hge'].
  - rewrite <- Eo. apply (Forall_lookup_1 _ _ i _ Hlt). by rewrite lookup_take_lt.
  - rewrite <- Eo. apply (Forall_lookup_1 _ _ (i - c)%nat _ Hge). rewrite lookup_drop. by replace (c + (i - c))%nat with i by lia.
Qed.

(** The answer for the last visible write. *)
Definition answer (seen : option write) (value : list Z) (st : Status) : bool * list Z * Status :=
  match seen with
  | None => (false, value, st)
  | Some w => if w_type w =? kTypeValue then (true, w_value w, st) else (true, value, NotFound [] [])
  end.

(** Reading the parts of an entry. *)
Lemma entry_parts w :
  write_ok w →
  ∃ rest, GetVarint32Ptr (encode_entry (entry_of w)) = Some (len (w_key w) + 8, w_key w ++ EncodeFixed64 (w_seq w * 256 + w_type w) ++ rest) ∧
    prefixed_at rest = Ok (w_value w, []).
Proof.
  intros Hw. destruct (write_parts w Hw) as (_ & _ & _ & He). destruct Hw as (_ & _ & _ & Hk & _).
  exists (PutLengthPrefixedSlice [] (w_value w)). split; [|exact (value_at (entry_of w) He)].
  unfold encode_entry. rewrite PutLengthPrefixedSlice_app. unfold PutLengthPrefixedSlice at 1, PutVarint32. cbn [app entry_of fst snd].
  assert (len (packed_key (w_key w) (w_seq w) (w_type w)) = len (w_key w) + 8) as E
    by (unfold packed_key; rewrite length_app, length_fixed64; lia).
  rewrite E, wrap_small by (unfold in_width; lia). rewrite <- !app_assoc.
  pose proof (GetVarint32_ok (len (w_key w) + 8) (packed_key (w_key w) (w_seq w) (w_type w) ++ PutLengthPrefixedSlice [] (w_value w))) as Hg.
  unfold GetVarint32 in Hg. rewrite Hg by (unfold in_width; lia). unfold packed_key. by rewrite <- app_assoc.
Qed.

Lemma MemTable_Get_ok m log u s lk value st :
  logged m log → key_ok u → len u < 2 ^ 32 - 8 → 0 ≤ s ≤ kMaxSequenceNumber → new_LookupKey u s = Ok lk →
  MemTable_Get m lk value st = Ok (answer (last (filter (visible u s) log)) value st).
Proof.
  intros (Hok & Hord & entries & Hh & Hp) Hu Hl Hs Hlk.
  destruct (new_LookupKey_ok u s Hl Hs) as (lk' & Elk & Emem & _ & Euser). rewrite Hlk in Elk. injection Elk as <-.
  destruct (target_parts u s Hu Hs) as (Hit & _).
  assert (len (packed_key u s kValueTypeForSeek) < 2 ^ 32) as Hlt by (unfold packed_key; rewrite length_app, length_fixed64; lia).
  unfold MemTable_Get. rewrite Emem, lookup_target by done.
  destruct (holds_seek m entries new_SkipIterator _ Hh Hit Hlt) as (it & c & -> & Hat & Hsplit). cbn [mbind outcome_bind].
  pose proof (seek_visible entries log u s c Hok Hord Hp (holds_increasing _ _ Hh) Hu Hs Hsplit) as Hseen.
  pose proof (contents_iterates _ _ (proj1 Hh)) as Hiter.
  rewrite (proj2 (skip_iterates_valid _ _ _ Hiter it c Hat)), length_map. destruct (entries !! c) as [e|] eqn:He.
  2: { rewrite Hseen. apply lookup_ge_None in He. by rewrite (proj2 (Nat.ltb_ge _ _)). }
  destruct Hseen as (w & Hw & -> & Hseen). pose proof (proj1 (Forall_forall _ _) Hok w Hw) as Hwok.
  rewrite (proj2 (Nat.ltb_lt _ _)) by (by eapply lookup_lt_Some).
  rewrite (skip_iterates_key _ _ _ Hiter it c (encode_entry (entry_of w)) Hat) by by rewrite list_lookup_fmap, He.
  cbn [mbind outcome_bind]. destruct (entry_parts w Hwok) as (rest & -> & Hrest).
  pose proof Hwok as (Hkw & Hseq & Ht & Hlw & _).
  replace (len (w_key w) + 8 - 8) with (len (w_key w)) by lia. rewrite wrap_small by (unfold in_width; lia).
  rewrite read_at_head by done. cbn [mbind outcome_bind]. rewrite Euser. cbn [mbind outcome_bind].
  rewrite Compare_ok by done. cbn [mbind outcome_bind]. pose proof (order_eq _ _ Hkw Hu) as Heq.
  destruct (decide (w_key w = u)) as [Hsame|Hneq].
  2: { rewrite Hseen. destruct (Z.eqb_spec (order (w_key w) u) 0) as [E|]; [|done]. by apply Heq in E. }
  rewrite (proj2 (Z.eqb_eq _ _) (proj2 Heq Hsame)), Hseen. rewrite read_at_app by (done || by rewrite length_fixed64).
  destruct (pack_ok _ _ Hseq Ht) as [_ Hwidth]. pose proof (DecodeFixed64_ok _ [] Hwidth) as Hdec. rewrite app_nil_r in Hdec.
  cbn [mbind outcome_bind]. rewrite Hdec. cbn [mbind outcome_bind]. unfold kValueTypeForSeek, kTypeValue in Ht.
  rewrite (proj2 (unpack (w_seq w) (w_type w) ltac:(lia))). cbn [answer].
  destruct (Z.eqb_spec (w_type w) kTypeValue) as [Et|Et].
  - rewrite (proj2 (Z.leb_le _ _)) by (rewrite !length_app, length_fixed64; lia). cbn [require mbind outcome_bind].
    rewrite app_assoc, drop_app_length' by (rewrite length_app, length_fixed64; lia). by rewrite Hrest.
  - unfold kTypeValue, kTypeDeletion in *. by rewrite (proj2 (Z.eqb_eq (w_type w) 0)) by lia.
Qed.

(** The iterator of the table refines a position in its sorted entries. *)
Lemma memtable_iterates m entries :
  holds m entries →
  @iterates _ short_internal_laws SkipIterator (memtable_iterator (table_ m)) entries
    (skip_on (table_ m) (map encode_entry entries)).
Proof.
  intros Hh. pose proof Hh as [Hc Hok]. pose proof (contents_iterates _ _ Hc) as Hit.
  split; cbn [Iterator_Valid Iterator_SeekToFirst Iterator_SeekToLast Iterator_Seek Iterator_Next Iterator_Prev Iterator_key
    Iterator_value Iterator_status memtable_iterator].
  - intros it c Hat. rewrite <- (length_map encode_entry entries). by apply (skip_iterates_valid _ _ _ Hit).
  - done.
  - intros it c key value Hat He. pose proof (proj1 (Forall_forall _ _) Hok _ (list_elem_of_lookup_2 _ _ _ He)) as Heok.
    rewrite (skip_iterates_key _ _ _ Hit it c (encode_entry (key, value)) Hat) by by rewrite list_lookup_fmap, He.
    cbn [mbind outcome_bind]. rewrite (entry_at _ Heok). cbn [mbind outcome_bind fst snd].
    pose proof (value_at _ Heok) as Hv. cbn [snd] in Hv. by rewrite Hv.
  - intros it c Hat. apply (skip_iterates_first _ _ _ Hit).
  - intros it c Hat. rewrite <- (length_map encode_entry entries). apply (skip_iterates_last _ _ _ Hit).
  - intros it c Hat Hc'. apply (skip_iterates_next _ _ _ Hit); [done|by rewrite length_map].
  - intros it c Hat Hc'. unfold prior. rewrite <- (length_map encode_entry entries).
    apply (skip_iterates_prev _ _ _ Hit); [done|by rewrite length_map].
  - intros it c target Hat [Ht Hl]. destruct (holds_seek m entries it target Hh Ht Hl) as (it' & c' & E & Hat' & Hs).
    exists it', c'. split; [done|]. split; [done|]. intros i key value Hi. exact (Hs i _ Hi).
Qed.

End table.

(** ** Batches *)

(** The calls that fill a batch. *)
Inductive batch_op : Type :=
  | op_Put (key value : Slice)
  | op_Delete (key : Slice).

Definition batch_apply (op : batch_op) (b : WriteBatch) : outcome WriteBatch :=
  match op with
  | op_Put key value => WriteBatch_Put b key value
  | op_Delete key => WriteBatch_Delete b key
  end.

Fixpoint batch_all (ops : list batch_op) (b : WriteBatch) : outcome WriteBatch :=
  match ops with [] => Ok b | op :: ops => b ← batch_apply op b; batch_all ops b end.

(** What a handler is to be called with. *)
Definition replay_op {H} `{!Handler H} (h : H) (op : batch_op) : outcome H :=
  match op with
  | op_Put key value => handler_Put h key value
  | op_Delete key => handler_Delete h key
  end.

Fixpoint replay {H} `{!Handler H} (ops : list batch_op) (h : H) : outcome H :=
  match ops with [] => Ok h | op :: ops => h ← replay_op h op; replay ops h end.

Definition op_ok (op : batch_op) : Prop :=
  match op with
  | op_Put key value => len key < 2 ^ 32 ∧ len value < 2 ^ 32
  | op_Delete key => len key < 2 ^ 32
  end.

(** The bytes of a batch. *)
Definition op_bytes (op : batch_op) : list Z :=
  match op with
  | op_Put key value => kTypeValue :: PutLengthPrefixedSlice [] key ++ PutLengthPrefixedSlice [] value
  | op_Delete key => kTypeDeletion :: PutLengthPrefixedSlice [] key
  end.

Definition batch_bytes (seq n : Z) (ops : list batch_op) : list Z :=
  EncodeFixed64 seq ++ EncodeFixed32 n ++ concat (map op_bytes ops).

(** A batch of operations, all of them of lengths that fit. *)
Record batch_of (b : WriteBatch) (seq : Z) (ops : list batch_op) : Prop := {
  batch_rep : wb_rep b = batch_bytes seq (len ops) ops;
  batch_seq : in_width 64 seq;
  batch_length : len ops < 2 ^ 31;
  batch_ops : Forall op_ok ops
}.

Lemma length_fixed32 v : length (EncodeFixed32 v) = 4%nat.
Proof. unfold EncodeFixed32. by rewrite length_le_bytes. Qed.

Lemma length_batch seq n ops : length (batch_bytes seq n ops) = (12 + length (concat (map op_bytes ops)))%nat.
Proof. unfold batch_bytes. rewrite !length_app, length_fixed64, length_fixed32. lia. Qed.

Lemma batch_parts seq n ops :
  take 8 (batch_bytes seq n ops) = EncodeFixed64 seq ∧
  drop 8 (batch_bytes seq n ops) = EncodeFixed32 n ++ concat (map op_bytes ops) ∧
  drop 12 (batch_bytes seq n ops) = concat (map op_bytes ops).
Proof.
  unfold batch_bytes. rewrite take_app_length', drop_app_length' by by rewrite length_fixed64.
  split; [done|]. split; [done|]. rewrite app_assoc. by rewrite drop_app_length' by by rewrite length_app, length_fixed64, length_fixed32.
Qed.

Lemma batch_new : batch_of new_WriteBatch 0 [].
Proof. by split. Qed.

Lemma Count_ok b seq ops : batch_of b seq ops → Count b = Ok (len ops).
Proof.
  intros [Hrep _ Hlen _]. unfold Count. rewrite Hrep. unfold batch_bytes.
  rewrite read_at_app by (by rewrite ?length_fixed64, ?length_fixed32). cbn [mbind outcome_bind].
  pose proof (DecodeFixed32_ok (len ops) [] ltac:(unfold in_width; lia)) as E. rewrite app_nil_r in E. rewrite E.
  cbn [mbind outcome_bind]. by rewrite s32_small by lia.
Qed.

Lemma Sequence_ok b seq ops : batch_of b seq ops → Sequence b = Ok seq.
Proof.
  intros [Hrep Hseq _ _]. unfold Sequence. rewrite Hrep. unfold batch_bytes. rewrite read_at_head by by rewrite length_fixed64.
  cbn [mbind outcome_bind]. pose proof (DecodeFixed64_ok seq [] Hseq) as E. by rewrite app_nil_r in E.
Qed.

Lemma SetCount_rep b seq m ops n :
  wb_rep b = batch_bytes seq m ops → 0 ≤ n < 2 ^ 32 → SetCount b n = Ok {| wb_rep := batch_bytes seq n ops |}.
Proof.
  intros Hrep Hn. unfold SetCount. rewrite Hrep, length_batch. decide_test. cbn [require mbind outcome_bind].
  destruct (batch_parts seq m ops) as (-> & _ & ->). by rewrite wrap_small.
Qed.

Lemma SetSequence_ok b seq ops seq' :
  batch_of b seq ops → in_width 64 seq' → ∃ b', SetSequence b seq' = Ok b' ∧ batch_of b' seq' ops.
Proof.
  intros [Hrep Hseq Hlen Hops] Hseq'. unfold SetSequence. rewrite Hrep, length_batch. decide_test. cbn [require mbind outcome_bind].
  eexists. split; [done|]. split; [|done..]. cbn [wb_rep]. by destruct (batch_parts seq (len ops) ops) as (_ & -> & _).
Qed.

Lemma increment_count_ok b seq ops :
  batch_of b seq ops → len ops < 2 ^ 31 - 1 →
  increment_count b = Ok {| wb_rep := batch_bytes seq (len ops + 1) ops |}.
Proof.
  intros Hb Hlen. unfold increment_count. rewrite (Count_ok _ _ _ Hb). cbn [mbind outcome_bind].
  rewrite int_result_ok by lia. cbn [mbind outcome_bind]. apply (SetCount_rep _ _ (len ops)); [apply Hb|lia].
Qed.

Lemma batch_bytes_snoc seq n ops op : batch_bytes seq n (ops ++ [op]) = batch_bytes seq n ops ++ op_bytes op.
Proof. unfold batch_bytes. rewrite map_app, concat_app. cbn [map concat]. by rewrite app_nil_r, !app_assoc. Qed.

Lemma batch_apply_ok b seq ops op :
  batch_of b seq ops → op_ok op → len ops < 2 ^ 31 - 1 →
  ∃ b', batch_apply op b = Ok b' ∧ batch_of b' seq (ops ++ [op]).
Proof.
  intros Hb Hop Hlen. pose proof Hb as [_ Hseq _ Hops].
  assert (Forall op_ok (ops ++ [op])) as Hall by (apply Forall_app_2; [done|by apply Forall_singleton]).
  assert (len (ops ++ [op]) = len ops + 1) as El by (rewrite length_app; cbn; lia).
  destruct op as [key value|key]; cbn [batch_apply]; unfold WriteBatch_Put, WriteBatch_Delete;
    rewrite (increment_count_ok b seq ops Hb Hlen); cbn [mbind outcome_bind wb_rep];
    eexists; (split; [done|]); (split; [|done|lia|done]); cbn [wb_rep]; rewrite El, batch_bytes_snoc; cbn [op_bytes].
  - rewrite PutLengthPrefixedSlice_app, (PutLengthPrefixedSlice_app (_ ++ [kTypeValue]) key). by rewrite <- !app_assoc.
  - rewrite PutLengthPrefixedSlice_app. by rewrite <- !app_assoc.
Qed.

Lemma batch_all_ok ops b seq ops0 :
  batch_of b seq ops0 → Forall op_ok ops → len (ops0 ++ ops) < 2 ^ 31 →
  ∃ b', batch_all ops b = Ok b' ∧ batch_of b' seq (ops0 ++ ops).
Proof.
  revert b ops0. induction ops as [|op ops IH]; intros b ops0 Hb Hops Hlen; cbn [batch_all].
  - exists b. by rewrite app_nil_r.
  - apply Forall_cons in Hops as [Hop Hops]. rewrite length_app in Hlen. cbn [length] in Hlen.
    destruct (batch_apply_ok b seq ops0 op Hb Hop ltac:(lia)) as (b1 & -> & Hb1). cbn [mbind outcome_bind].
    destruct (IH b1 (ops0 ++ [op]) Hb1 Hops) as (b' & E & Hb').
    + rewrite !length_app. cbn [length]. lia.
    + exists b'. split; [done|]. by rewrite <- app_assoc in Hb'.
Qed.

Lemma WriteBatch_Append_ok dst seq ops src seq' ops' :
  batch_of dst seq ops → batch_of src seq' ops' → len ops + len ops' < 2 ^ 31 →
  ∃ b, WriteBatch_Append dst src = Ok b ∧ batch_of b seq (ops ++ ops').
Proof.
  intros Hd Hs Hlen. unfold WriteBatch_Append. rewrite (Count_ok _ _ _ Hd), (Count_ok _ _ _ Hs). cbn [mbind outcome_bind].
  rewrite int_result_ok by lia. cbn [mbind outcome_bind].
  rewrite (SetCount_rep dst seq (len ops) ops) by (first [apply Hd|lia]). cbn [mbind outcome_bind].
  rewrite (batch_rep _ _ _ Hs), length_batch. unfold kHeader. decide_test. cbn [require mbind outcome_bind wb_rep].
  eexists. split; [done|]. split; cbn [wb_rep].
  - change (Z.to_nat 12) with 12%nat. destruct (batch_parts seq' (len ops') ops') as (_ & _ & ->).
    unfold batch_bytes. by rewrite length_app, Nat2Z.inj_add, map_app, concat_app, <- !app_assoc.
  - apply Hd.
  - rewrite length_app. lia.
  - apply Forall_app_2; [apply Hd|apply Hs].
Qed.

Section replays.
Context {H : Type} `{!Handler H}.

Lemma Iterate_loop_ok fuel ops found (h : H) :
  (length (concat (map op_bytes ops)) < fuel)%nat → Forall op_ok ops → 0 ≤ found → found + len ops < 2 ^ 31 →
  Iterate_loop fuel (concat (map op_bytes ops)) found h = (h' ← replay ops h; Ok (None, found + len ops, h')).
Proof.
  revert ops found h. induction fuel as [|fuel IH]; intros ops found h Hf Hops H0 Hlen; [lia|].
  destruct ops as [|op ops]; [cbn; by rewrite Z.add_0_r|]. apply Forall_cons in Hops as [Hop Hops].
  assert (found + len (op :: ops) = (found + 1) + len ops) as El by (cbn [length]; lia). rewrite El in *. clear El.
  destruct op as [key value|key]; cbn [map concat op_bytes] in *; cbn [Iterate_loop app] in *;
    rewrite int_result_ok by lia; cbn [mbind outcome_bind replay replay_op]; rewrite <- ?app_assoc in *.
  - destruct Hop as [Hk Hv]. cbn [length] in Hf. rewrite !length_app in Hf. rewrite !GetLengthPrefixedSlice_ok by done.
    change (kTypeValue =? kTypeValue) with true. cbv iota. destruct (handler_Put h key value) as [h'|f|c]; [|done|done].
    cbn [mbind outcome_bind]. rewrite IH by (done || lia). done.
  - cbn [length] in Hf. rewrite !length_app in Hf. rewrite GetLengthPrefixedSlice_ok by done.
    change (kTypeDeletion =? kTypeValue) with false. change (kTypeDeletion =? kTypeDeletion) with true. cbv iota.
    destruct (handler_Delete h key) as [h'|f|c]; [|done|done]. cbn [mbind outcome_bind]. rewrite IH by (done || lia). done.
Qed.

Lemma Iterate_ok b seq ops (h : H) : batch_of b seq ops → Iterate b h = (h' ← replay ops h; Ok (status_OK, h')).
Proof.
  intros Hb. unfold Iterate. rewrite (batch_rep _ _ _ Hb), length_batch. unfold kHeader. decide_test.
  change (Z.to_nat 12) with 12%nat. destruct (batch_parts seq (len ops) ops) as (_ & _ & ->).
  pose proof (batch_length _ _ _ Hb). rewrite Iterate_loop_ok by (first [apply Hb|lia]).
  destruct (replay ops h) as [h'|f|c]; [|done|done]. cbn [mbind outcome_bind]. rewrite (Count_ok _ _ _ Hb).
  cbn [mbind outcome_bind]. rewrite Z.add_0_l, Z.eqb_refl. done.
Qed.

(** *** Any bytes as a batch *)

Lemma GetLengthPrefixedSlice_shorter input key rest :
  GetLengthPrefixedSlice input = (Some key, rest) → (length rest ≤ length input)%nat.
Proof.
  unfold GetLengthPrefixedSlice. destruct (GetVarint32 input) as [[n p]|] eqn:E; [|done].
  destruct (n <=? len p); intros [= <- <-]. rewrite length_drop.
  assert (∀ w n shift result p v q, get_varint w n shift result p = Some (v, q) → (length q ≤ length p)%nat) as Hget.
  { clear. induction n as [|n IH]; intros shift result p v q; cbn [get_varint]; [done|]. destruct p as [|byte p]; [done|].
    destruct (negb _); [|intros [= <- <-]; cbn; lia]. intros Hr. apply IH in Hr. cbn [length]. lia. }
  unfold GetVarint32, GetVarint32Ptr, GetVarint32PtrFallback in E. destruct input as [|b input].
  - apply Hget in E. lia.
  - destruct (_ =? 0); [injection E as <- <-; cbn [length]; lia|]. apply Hget in E. lia.
Qed.

Lemma Iterate_loop_total fuel input found (h : H) :
  (∀ h key value, ∃ h', handler_Put h key value = Ok h') → (∀ h key, ∃ h', handler_Delete h key = Ok h') →
  (length input < fuel)%nat → 0 ≤ found → found + len input < 2 ^ 31 →
  ∃ r, Iterate_loop fuel input found h = Ok r.
Proof.
  intros Hput Hdel. revert input found h. induction fuel as [|fuel IH]; intros input found h Hf H0 Hlen; [lia|].
  destruct input as [|tag input]; cbn [Iterate_loop]; [by eexists|]. cbn [length] in *.
  rewrite int_result_ok by lia. cbn [mbind outcome_bind].
  assert (∀ input' h, (length input' ≤ length input)%nat → ∃ r, Iterate_loop fuel input' (found + 1) h = Ok r) as Hrest
    by (intros input' h' Hle; apply IH; lia).
  destruct (tag =? kTypeValue).
  - destruct (GetLengthPrefixedSlice input) as [[key|] i1] eqn:E1; [|by eexists].
    destruct (GetLengthPrefixedSlice i1) as [[value|] i2] eqn:E2; [|by eexists].
    destruct (Hput h key value) as [h' ->]. cbn [mbind outcome_bind]. apply Hrest.
    apply GetLengthPrefixedSlice_shorter in E1, E2. lia.
  - destruct (tag =? kTypeDeletion); [|by eexists].
    destruct (GetLengthPrefixedSlice input) as [[key|] i1] eqn:E1; [|by eexists].
    destruct (Hdel h key) as [h' ->]. cbn [mbind outcome_bind]. apply Hrest.
    by apply GetLengthPrefixedSlice_shorter in E1.
Qed.

Lemma Count_total b : 12 ≤ len (wb_rep b) → ∃ n, Count b = Ok n.
Proof.
  intros Hlen. assert (∀ buf off n, 0 ≤ off → 0 ≤ n → off + n ≤ len buf → ∃ l, read_at buf off n = Ok l ∧ len l = n) as Hread.
  { intros buf off n H0 H1 H2. destruct (read_at buf off n) as [l|f|c] eqn:E; [exists l; split; [done|by eapply read_at_length]| |];
      unfold read_at in E; rewrite !(proj2 (Z.leb_le _ _)) in E by done; done. }
  unfold Count. destruct (Hread (wb_rep b) 8 4) as (l & -> & El); [lia..|]. cbn [mbind outcome_bind].
  unfold DecodeFixed32. destruct (Hread l 0 4) as (l' & -> & _); [lia..|]. by eexists.
Qed.

(** Whatever the bytes are, the result is a status. *)
Lemma Iterate_total b (h : H) :
  (∀ h key value, ∃ h', handler_Put h key value = Ok h') → (∀ h key, ∃ h', handler_Delete h key = Ok h') →
  len (wb_rep b) < 2 ^ 31 → ∃ st h', Iterate b h = Ok (st, h').
Proof.
  intros Hput Hdel Hlen. unfold Iterate, kHeader. destruct (Z.ltb_spec (len (wb_rep b)) 12) as [|Hge]; [by eexists _, _|].
  change (Z.to_nat 12) with 12%nat.
  destruct (Iterate_loop_total (S (length (drop 12 (wb_rep b)))) (drop 12 (wb_rep b)) 0 h Hput Hdel) as [[[st found] h'] ->];
    [lia|lia|rewrite length_drop; lia|]. cbn [mbind outcome_bind].
  destruct st as [st|]; [by eexists _, _|]. destruct (Count_total b Hge) as [n ->]. by eexists _, _.
Qed.

End replays.

(** ** Batches in the table *)

Section batches.
Context `{ComparatorLaws}.

Definition write_of (seq : Z) (op : batch_op) : write :=
  match op with
  | op_Put key value => {| w_seq := seq; w_type := kTypeValue; w_key := key; w_value := value |}
  | op_Delete key => {| w_seq := seq; w_type := kTypeDeletion; w_key := key; w_value := [] |}
  end.

(** The writes of a batch have consecutive sequence numbers. *)
Fixpoint writes_of (seq : Z) (ops : list batch_op) : list write :=
  match ops with [] => [] | op :: ops => write_of seq op :: writes_of (seq + 1) ops end.

Lemma logged_new : logged new_MemTable [].
Proof. split; [constructor|]. split; [constructor|]. exists []. split; [apply holds_new|done]. Qed.

Lemma encode_entry_inj e e' : entry_ok e → entry_ok e' → encode_entry e = encode_entry e' → e = e'.
Proof.
  intros He He' E. pose proof (entry_at e He) as A. rewrite E, (entry_at e' He') in A. injection A as A B.
  pose proof (value_at e He) as V. rewrite <- B, (value_at e' He') in V. injection V as V. destruct e, e'. cbn in *. congruence.
Qed.

Lemma encode_entries_inj es es' : Forall entry_ok es → Forall entry_ok es' → map encode_entry es = map encode_entry es' → es = es'.
Proof.
  intros Hes. revert es'. induction Hes as [|e es He Hes IH]; intros [|e' es'] Hes' E; try done. injection E as E1 E2.
  apply Forall_cons in Hes' as [He' Hes']. by rewrite (encode_entry_inj e e'), (IH es').
Qed.

Lemma entry_of_inj w w' : write_ok w → write_ok w' → entry_of w = entry_of w' → w = w'.
Proof.
  intros Hw Hw' E. destruct (write_parts w Hw) as (_ & K & T & _), (write_parts w' Hw') as (_ & K' & T' & _).
  rewrite E in K, T. rewrite K in K'. rewrite T in T'. destruct Hw as (_ & _ & Ht & _), Hw' as (_ & _ & Ht' & _).
  injection E as _ Ev. unfold kValueTypeForSeek, kTypeValue in *. destruct w, w'. cbn in *. f_equal; [lia|lia|done|done].
Qed.

Lemma entries_of_inj ws ws' : Forall write_ok ws → Forall write_ok ws' → map entry_of ws = map entry_of ws' → ws = ws'.
Proof.
  intros Hws. revert ws'. induction Hws as [|w ws Hw Hws IH]; intros [|w' ws'] Hws' E; try done.
  change (entry_of w :: map entry_of ws = entry_of w' :: map entry_of ws') in E. injection E as E1 E1' E2.
  apply Forall_cons in Hws' as [Hw' Hws']. rewrite (entry_of_inj w w'), (IH ws'); try done. by apply injective_projections.
Qed.

(** What a table holds is one list of writes. *)
Lemma logged_unique m ws ws' : logged m ws → logged m ws' → ws = ws'.
Proof.
  intros (Hok & Hs & es & (Hc & He) & Hp) (Hok' & Hs' & es' & (Hc' & He') & Hp').
  assert (es = es') as <- by (apply encode_entries_inj; [done|done|by eapply contents_unique]).
  assert (map entry_of ws ≡ₚ map entry_of ws') as Hm by by rewrite <- Hp, <- Hp'.
  apply Permutation_map_inv in Hm as (ws2 & E & Hperm).
  assert (ws = ws2) as -> by (apply entries_of_inj; [done|by rewrite <- Hperm|done]).
  apply (StronglySorted_unique_strong (λ a b, w_seq a < w_seq b)); [|done|done|done]. intros; lia.
Qed.

Lemma logged_add m log w :
  logged m log → in_order (log ++ [w]) → write_ok w →
  ∃ m', MemTable_Add m (w_seq w) (w_type w) (w_key w) (w_value w) = Ok m' ∧ logged m' (log ++ [w]).
Proof.
  intros (Hok & Hord & entries & Hh & Hp) Hord' Hw. pose proof Hw as (Hk & Hs & Ht & Hlk & Hlv).
  destruct (MemTable_Add_ok m entries (w_seq w) (w_type w) (w_key w) (w_value w) Hh Hk Hs Ht Hlk Hlv) as (m' & entries' & E & Hh' & Hp').
  - rewrite Hp. intros Hin. rewrite <- list_fmap_compose in Hin. apply list_elem_of_fmap in Hin as (w' & Heq & Hw').
    cbn in Heq. pose proof (proj1 (Forall_forall _ _) Hok w' Hw') as Hwok'.
    destruct (write_parts w Hw) as (_ & _ & En & _), (write_parts w' Hwok') as (_ & _ & En' & _). cbn [entry_of fst] in *.
    rewrite Heq, En' in En. destruct Hwok' as (_ & _ & Ht' & _). unfold kValueTypeForSeek, kTypeValue in *.
    pose proof (sorted_across (λ a b, w_seq a < w_seq b) log [w] w' w Hord' Hw' (list_elem_of_here _ _)) as Hlt. cbv beta in Hlt. lia.
  - exists m'. split; [done|]. split; [by apply Forall_app_2; [|apply Forall_singleton]|]. split; [done|].
    exists entries'. split; [done|]. rewrite Hp', Hp, map_app. cbn [map]. by rewrite <- Permutation_cons_append.
Qed.

Lemma inserter_replay ops seq m log :
  logged m log → in_order (log ++ writes_of seq ops) → Forall write_ok (writes_of seq ops) →
  ∃ m' seq', replay ops {| sequence_ := seq; mem_ := m |} = Ok {| sequence_ := seq'; mem_ := m' |} ∧
    logged m' (log ++ writes_of seq ops).
Proof.
  revert seq m log. induction ops as [|op ops IH]; intros seq m log Hm Hord Hok; cbn [replay writes_of] in *.
  - exists m, seq. by rewrite app_nil_r.
  - apply Forall_cons in Hok as [Hw Hok].
    assert (log ++ write_of seq op :: writes_of (seq + 1) ops = (log ++ [write_of seq op]) ++ writes_of (seq + 1) ops) as E
      by by rewrite <- app_assoc.
    rewrite E in *. assert (in_order (log ++ [write_of seq op])) as Hord1.
    { by eapply sorted_left. }
    destruct (logged_add m log (write_of seq op) Hm Hord1 Hw) as (m1 & Eadd & Hm1).
    assert (replay_op {| sequence_ := seq; mem_ := m |} op = Ok {| sequence_ := seq + 1; mem_ := m1 |}) as ->.
    { pose proof Hw as (_ & Hs & _). unfold kMaxSequenceNumber in Hs. change (Z.shiftl 1 56) with (2 ^ 56) in Hs.
      destruct op; cbn [replay_op handler_Put handler_Delete memtable_inserter write_of w_seq w_type w_key w_value] in *;
        unfold inserter_add; cbn [mem_ sequence_]; rewrite Eadd; cbn [mbind outcome_bind];
        by rewrite wrap_small by (unfold in_width; lia). }
    cbn [mbind outcome_bind]. by apply IH.
Qed.

Lemma InsertInto_ok b seq ops m log :
  batch_of b seq ops → logged m log → in_order (log ++ writes_of seq ops) → Forall write_ok (writes_of seq ops) →
  ∃ m', InsertInto b m = Ok (status_OK, m') ∧ logged m' (log ++ writes_of seq ops).
Proof.
  intros Hb Hm Hord Hok. unfold InsertInto. rewrite (Sequence_ok _ _ _ Hb). cbn [mbind outcome_bind].
  rewrite (Iterate_ok _ _ _ _ Hb). destruct (inserter_replay ops seq m log Hm Hord Hok) as (m' & seq' & -> & Hm').
  by exists m'.
Qed.

(** Batches one after the other: each is filled, given its number and put into the table. *)
Definition write_batch (m : MemTable) (batch : Z * list batch_op) : outcome (Status * MemTable) :=
  b ← batch_all batch.2 new_WriteBatch;
  b ← SetSequence b batch.1;
  InsertInto b m.

Fixpoint write_batches (batches : list (Z * list batch_op)) (m : MemTable) : outcome MemTable :=
  match batches with
  | [] => Ok m
  | batch :: batches =>
      r ← write_batch m batch;
      _ ← require (ok r.1) OutOfBounds;
      write_batches batches r.2
  end.

Definition log_of (batches : list (Z * list batch_op)) : list write :=
  concat (map (λ batch, writes_of batch.1 batch.2) batches).

Definition batch_fits (batch : Z * list batch_op) : Prop := in_width 64 batch.1 ∧ len batch.2 < 2 ^ 31.

Lemma writes_op_ok seq ops : Forall write_ok (writes_of seq ops) → Forall op_ok ops.
Proof.
  revert seq. induction ops as [|op ops IH]; intros seq Hw; [constructor|]. cbn [writes_of] in Hw.
  apply Forall_cons in Hw as [(_ & _ & _ & Hk & Hv) Hw]. constructor; [|by eapply IH]. destruct op; cbn in *; lia.
Qed.

Lemma write_batches_ok batches m log :
  logged m log → Forall batch_fits batches → in_order (log ++ log_of batches) → Forall write_ok (log_of batches) →
  ∃ m', write_batches batches m = Ok m' ∧ logged m' (log ++ log_of batches).
Proof.
  revert m log. induction batches as [|[seq ops] batches IH]; intros m log Hm Hfit Hord Hok; cbn [write_batches].
  - exists m. unfold log_of. cbn. by rewrite app_nil_r.
  - apply Forall_cons in Hfit as [[Hseq Hlen] Hfit]. unfold log_of in *. cbn [map concat fst snd] in *.
    apply Forall_app in Hok as [Hw Hok]. rewrite app_assoc in *. unfold write_batch. cbn [fst snd] in *.
    destruct (batch_all_ok ops new_WriteBatch 0 [] batch_new (writes_op_ok _ _ Hw) Hlen) as (b & -> & Hb). cbn [mbind outcome_bind].
    destruct (SetSequence_ok b 0 ops seq Hb Hseq) as (b' & -> & Hb'). cbn [mbind outcome_bind].
    destruct (InsertInto_ok b' seq ops m log Hb' Hm) as (m1 & -> & Hm1); [by eapply sorted_left|done|].
    cbn [mbind outcome_bind fst snd ok status_OK require]. by apply IH.
Qed.

End batches.

(** ** Properties *)

(** A batch is replayed as it was filled: after any [Put]s and [Delete]s, [Iterate]
    calls the handler - any handler - with the same operations in the same order and
    returns OK; the batch counts them; appending another batch appends its operations. *)
Theorem WriteBatch_replays {H} `{!Handler H} ops ops' :
  Forall op_ok ops → Forall op_ok ops' → len ops + len ops' < 2 ^ 31 →
  ∃ b b' b2, batch_all ops new_WriteBatch = Ok b ∧ batch_all ops' new_WriteBatch = Ok b' ∧ WriteBatch_Append b b' = Ok b2 ∧
    Count b = Ok (len ops) ∧ Count b2 = Ok (len (ops ++ ops')) ∧
    (∀ h : H, Iterate b h = (h' ← replay ops h; Ok (status_OK, h'))) ∧
    (∀ h : H, Iterate b2 h = (h' ← replay (ops ++ ops') h; Ok (status_OK, h'))).
Proof.
  intros Hops Hops' Hlen.
  destruct (batch_all_ok ops new_WriteBatch 0 [] batch_new Hops ltac:(cbn; lia)) as (b & E & Hb).
  destruct (batch_all_ok ops' new_WriteBatch 0 [] batch_new Hops' ltac:(cbn; lia)) as (b' & E' & Hb').
  destruct (WriteBatch_Append_ok b 0 ops b' 0 ops' Hb Hb' Hlen) as (b2 & E2 & Hb2).
  exists b, b', b2. split_and!; try done.
  - by apply (Count_ok b 0).
  - by apply (Count_ok b2 0).
  - intros h. by apply (Iterate_ok b 0).
  - intros h. by apply (Iterate_ok b2 0).
Qed.

(** A handler that records its calls. *)
#[local] Instance recorder : Handler (list batch_op) := {|
  handler_Put h key value := Ok (h ++ [op_Put key value]);
  handler_Delete h key := Ok (h ++ [op_Delete key])
|}.

Lemma WriteBatch_replays_witness :
  ∃ b, batch_all [op_Put [107] [118]; op_Delete [107]] new_WriteBatch = Ok b ∧ Count b = Ok 2 ∧
    Iterate b ([] : list batch_op) = Ok (status_OK, [op_Put [107] [118]; op_Delete [107]]).
Proof.
  destruct (WriteBatch_replays (H := list batch_op) [op_Put [107] [118]; op_Delete [107]] []) as (b & b' & b2 & E & _ & _ & Hc & _ & Hi & _);
    [by repeat constructor|by constructor|done|].
  exists b. split; [exact E|]. split; [exact Hc|]. rewrite Hi. reflexivity.
Defined.

(** C13: the table answers for any moment: after batches with increasing sequence numbers
    have been put into a new table, a lookup of a key at a sequence number finds the last
    write to that key up to that number - its value, or not found when it is a deletion -
    and finds nothing when there is none; in whatever order the keys were written, over any
    lawful comparator of user keys. *)
Theorem MemTable_gets `{ComparatorLaws} batches :
  Forall batch_fits batches → Forall write_ok (log_of batches) → in_order (log_of batches) →
  ∃ m, write_batches batches new_MemTable = Ok m ∧
    ∀ u s value st, key_ok u → len u < 2 ^ 32 - 8 → 0 ≤ s ≤ kMaxSequenceNumber →
      ∃ lk, new_LookupKey u s = Ok lk ∧
        MemTable_Get m lk value st = Ok (answer (last (filter (visible u s) (log_of batches))) value st).
Proof.
  intros Hfit Hok Hord. destruct (write_batches_ok batches new_MemTable [] logged_new Hfit Hord Hok) as (m & E & Hm).
  exists m. split; [done|]. intros u s value st Hu Hl Hs. destruct (new_LookupKey_ok u s Hl Hs) as (lk & Elk & _).
  exists lk. split; [done|]. exact (MemTable_Get_ok m (log_of batches) u s lk value st Hm Hu Hl Hs Elk).
Qed.

Lemma MemTable_gets_witness :
  ∃ m lk lk', write_batches [(1, [op_Put [107] [118]; op_Put [97] [120]]); (3, [op_Delete [107]])] new_MemTable = Ok m ∧
    new_LookupKey [107] 2 = Ok lk ∧ MemTable_Get m lk [] status_OK = Ok (true, [118], status_OK) ∧
    new_LookupKey [107] 3 = Ok lk' ∧ MemTable_Get m lk' [] status_OK = Ok (true, [], NotFound [] []).
Proof.
  destruct (MemTable_gets [(1, [op_Put [107] [118]; op_Put [97] [120]]); (3, [op_Delete [107]])]) as (m & Hm & Hget).
  - repeat constructor; cbn; lia.
  - repeat (apply Forall_cons_2 || apply Forall_nil_2); cbn; unfold write_ok; cbn; split_and!;
      try (by repeat constructor); vm_compute; congruence.
  - repeat constructor; cbn; lia.
  - destruct (Hget [107] 2 [] status_OK) as (lk & E & G); [by repeat constructor|done|by split; vm_compute|].
    destruct (Hget [107] 3 [] status_OK) as (lk' & E' & G'); [by repeat constructor|done|by split; vm_compute|].
    exists m, lk, lk'. split; [exact Hm|]. split; [exact E|]. split; [exact G|]. split; [exact E'|exact G'].
Defined.

(** the iterator of the table is a position in a sorted list: after the batches have
    been put into a new table, [MemTableIterator] refines a cursor over the internal keys
    of all their writes with their values, in the order of internal keys. *)
Theorem MemTableIterator_refines `{ComparatorLaws} batches :
  Forall batch_fits batches → Forall write_ok (log_of batches) → in_order (log_of batches) →
  ∃ m entries, write_batches batches new_MemTable = Ok m ∧ entries ≡ₚ map entry_of (log_of batches) ∧
    @increasing _ short_internal_laws (map fst entries) ∧
    @iterates _ short_internal_laws SkipIterator (memtable_iterator (table_ m)) entries
      (skip_on (table_ m) (map encode_entry entries)).
Proof.
  intros Hfit Hok Hord. destruct (write_batches_ok batches new_MemTable [] logged_new Hfit Hord Hok) as (m & E & Hm).
  destruct Hm as (_ & _ & entries & Hh & Hp). exists m, entries. split; [done|]. split; [done|].
  split; [|by apply memtable_iterates]. destruct (holds_increasing m entries Hh) as [Hi Hs]. split; [|exact Hs].
  apply Forall_map. eapply Forall_impl; [exact (proj2 Hh)|]. intros e (Hk & Hl & _). by split.
Qed.

Lemma MemTableIterator_refines_witness :
  ∃ m entries, write_batches [(7, [op_Put [98] []; op_Put [97] []])] new_MemTable = Ok m ∧
    @iterates _ short_internal_laws SkipIterator (memtable_iterator (table_ m)) entries
      (skip_on (table_ m) (map encode_entry entries)).
Proof.
  destruct (MemTableIterator_refines [(7, [op_Put [98] []; op_Put [97] []])]) as (m & entries & Hm & _ & _ & Hi).
  - repeat constructor; cbn; lia.
  - repeat (apply Forall_cons_2 || apply Forall_nil_2); cbn; unfold write_ok; cbn; split_and!;
      try (by repeat constructor); vm_compute; congruence.
  - repeat constructor; cbn; lia.
  - exists m, entries. split; [exact Hm|exact Hi].
Defined.
