(* ===== verification/LdbWrite.v ===== *)
(** * LevelDB, db/db_impl: the queue of writers

    Writers queue up; the one at the front makes room, merges the batches behind its own,
    logs them as one record, puts them into the table in memory and answers for the group.
    A step relation interleaves the writers that come, the one at the front and the
    background work. *)

From S2P Require Import Prelude LdbCoding LdbOrder LdbFormat LdbSkip LdbCrc LdbEnv LdbLog LdbMem.

(** Of config in db/dbformat.h. *)
Definition kL0_SlowdownWritesTrigger : Z := 8.
Definition kL0_StopWritesTrigger : Z := 12.

Definition ByteSize (batch : WriteBatch) : Z := len (wb_rep batch).
Definition Contents (batch : WriteBatch) : Slice := wb_rep batch.

(** [DBImpl::Writer] and which call of [Write] it belongs to; [done] and [status] are the answers below. *)
Record DBWriter : Type := { dbw_id : nat; dbw_batch : option WriteBatch; dbw_sync : bool }.

(** The part of the versions that writing touches. *)
Record Versions : Type := { last_sequence_ : Z; next_file_number_ : Z; prev_log_number_ : Z; level0_files : Z }.

Definition NewFileNumber (v : Versions) : Z * Versions :=
  (next_file_number_ v,
   {| last_sequence_ := last_sequence_ v; next_file_number_ := u64 (next_file_number_ v + 1);
      prev_log_number_ := prev_log_number_ v; level0_files := level0_files v |}).

Definition ReuseFileNumber (v : Versions) (file_number : Z) : Versions :=
  if next_file_number_ v =? u64 (file_number + 1)
  then {| last_sequence_ := last_sequence_ v; next_file_number_ := file_number;
          prev_log_number_ := prev_log_number_ v; level0_files := level0_files v |}
  else v.

Definition SetLastSequence (v : Versions) (s : Z) : outcome Versions :=
  _ ← require (last_sequence_ v <=? s) OutOfBounds;
  Ok {| last_sequence_ := s; next_file_number_ := next_file_number_ v;
        prev_log_number_ := prev_log_number_ v; level0_files := level0_files v |}.

(** ** [BuildBatchGroup] *)

(** The loop over the writers behind the first one; [result] is [None] while it is the
    first batch, else the contents of [tmp_batch_]. *)
Fixpoint group_loop (first : DBWriter) (first_batch tmp_batch : WriteBatch) (max_size size : Z)
    (result : option WriteBatch) (last_writer : nat) (iter : list DBWriter) : outcome (option WriteBatch * nat) :=
  match iter with
  | [] => Ok (result, last_writer)
  | w :: iter =>
      if dbw_sync w && negb (dbw_sync first) then Ok (result, last_writer)
      else match dbw_batch w with
      | None => group_loop first first_batch tmp_batch max_size size result (dbw_id w) iter
      | Some batch =>
          let size := u64 (size + ByteSize batch) in
          if max_size <? size then Ok (result, last_writer)
          else
            tmp ← (match result with
                   | Some tmp => Ok tmp
                   | None => n ← Count tmp_batch; _ ← require (n =? 0) OutOfBounds; WriteBatch_Append tmp_batch first_batch
                   end);
            tmp ← WriteBatch_Append tmp batch;
            group_loop first first_batch tmp_batch max_size size (Some tmp) (dbw_id w) iter
      end
  end.

(** The batch of the group, whether it is [tmp_batch_], and [*last_writer]. *)
Definition BuildBatchGroup (tmp_batch : WriteBatch) (writers : list DBWriter) : outcome (WriteBatch * bool * nat) :=
  match writers with
  | [] => Fault OutOfBounds
  | first :: iter =>
      match dbw_batch first with
      | None => Fault OutOfBounds
      | Some batch =>
          let size := ByteSize batch in
          let max_size := if size <=? Z.shiftl 128 10 then u64 (size + Z.shiftl 128 10) else Z.shiftl 1 20 in
          r ← group_loop first batch tmp_batch max_size size None (dbw_id first) iter;
          Ok (match r.1 with None => (batch, false) | Some tmp => (tmp, true) end, r.2)
      end
  end.

Section write.
Context `{user_comparator : Comparator} `{Memory} {F : Type} `{WritableFile F}.

(** The memory of a table, which its arena counts; creating the file of a log after the
    last one; [options_.write_buffer_size]. *)
Context (ApproximateMemoryUsage : MemTable → Z) (NewWritableFile : Z → F → Status * F) (write_buffer_size : Z).

(** [logfile_] is the destination of [db_log_]. *)
Record DBImpl : Type := {
  db_mem_ : MemTable; db_imm_ : option MemTable; db_log_ : Writer F; db_logfile_number_ : Z;
  db_tmp_batch_ : WriteBatch; db_bg_error_ : Status; db_versions_ : Versions; db_writers_ : list DBWriter
}.

Definition set_tables (db : DBImpl) (mem : MemTable) (imm : option MemTable) : DBImpl :=
  {| db_mem_ := mem; db_imm_ := imm; db_log_ := db_log_ db; db_logfile_number_ := db_logfile_number_ db;
     db_tmp_batch_ := db_tmp_batch_ db; db_bg_error_ := db_bg_error_ db; db_versions_ := db_versions_ db;
     db_writers_ := db_writers_ db |}.
Definition set_log (db : DBImpl) (log : Writer F) (number : Z) : DBImpl :=
  {| db_mem_ := db_mem_ db; db_imm_ := db_imm_ db; db_log_ := log; db_logfile_number_ := number;
     db_tmp_batch_ := db_tmp_batch_ db; db_bg_error_ := db_bg_error_ db; db_versions_ := db_versions_ db;
     db_writers_ := db_writers_ db |}.
Definition set_tmp_batch (db : DBImpl) (tmp : WriteBatch) : DBImpl :=
  {| db_mem_ := db_mem_ db; db_imm_ := db_imm_ db; db_log_ := db_log_ db; db_logfile_number_ := db_logfile_number_ db;
     db_tmp_batch_ := tmp; db_bg_error_ := db_bg_error_ db; db_versions_ := db_versions_ db;
     db_writers_ := db_writers_ db |}.
Definition set_bg_error (db : DBImpl) (s : Status) : DBImpl :=
  {| db_mem_ := db_mem_ db; db_imm_ := db_imm_ db; db_log_ := db_log_ db; db_logfile_number_ := db_logfile_number_ db;
     db_tmp_batch_ := db_tmp_batch_ db; db_bg_error_ := s; db_versions_ := db_versions_ db;
     db_writers_ := db_writers_ db |}.
Definition set_versions (db : DBImpl) (v : Versions) : DBImpl :=
  {| db_mem_ := db_mem_ db; db_imm_ := db_imm_ db; db_log_ := db_log_ db; db_logfile_number_ := db_logfile_number_ db;
     db_tmp_batch_ := db_tmp_batch_ db; db_bg_error_ := db_bg_error_ db; db_versions_ := v;
     db_writers_ := db_writers_ db |}.
Definition set_writers (db : DBImpl) (writers : list DBWriter) : DBImpl :=
  {| db_mem_ := db_mem_ db; db_imm_ := db_imm_ db; db_log_ := db_log_ db; db_logfile_number_ := db_logfile_number_ db;
     db_tmp_batch_ := db_tmp_batch_ db; db_bg_error_ := db_bg_error_ db; db_versions_ := db_versions_ db;
     db_writers_ := writers |}.

Definition RecordBackgroundError (db : DBImpl) (s : Status) : DBImpl :=
  if ok (db_bg_error_ db) then set_bg_error db s else db.

(** ** [MakeRoomForWrite] *)

(** A round ends the loop with a status, or goes on - after sleeping, waiting for the
    background work or switching to a new table - with [allow_delay] and [force]. *)
Inductive round_result : Type :=
  | Stop (s : Status)
  | Again (allow_delay force : bool).

(** [log_ = new log::Writer(lfile); imm_ = mem_; mem_ = new MemTable; ...].  Nothing is
    buffered in the old log, so that deleting it writes nothing. *)
Definition switch_tables (db : DBImpl) (lfile : F) (new_log_number : Z) : outcome DBImpl :=
  log ← new_Writer lfile 0;
  mem ← MemTable_Ref new_MemTable;
  Ok (set_tables (set_log db log new_log_number) mem (Some (db_mem_ db))).

Definition MakeRoom_round (allow_delay force : bool) (db : DBImpl) : outcome (round_result * DBImpl) :=
  _ ← require (negb (bool_decide (db_writers_ db = []))) OutOfBounds;
  if negb (ok (db_bg_error_ db)) then Ok (Stop (db_bg_error_ db), db)
  else if allow_delay && (kL0_SlowdownWritesTrigger <=? level0_files (db_versions_ db)) then Ok (Again false force, db)
  else if negb force && (ApproximateMemoryUsage (db_mem_ db) <=? write_buffer_size) then Ok (Stop status_OK, db)
  else if bool_decide (is_Some (db_imm_ db)) then Ok (Again allow_delay force, db)
  else if kL0_StopWritesTrigger <=? level0_files (db_versions_ db) then Ok (Again allow_delay force, db)
  else
    _ ← require (prev_log_number_ (db_versions_ db) =? 0) OutOfBounds;
    let '(new_log_number, v) := NewFileNumber (db_versions_ db) in
    let '(s, lfile) := NewWritableFile new_log_number (dest_ (db_log_ db)) in
    if negb (ok s) then Ok (Stop s, set_versions db (ReuseFileNumber v new_log_number))
    else db ← switch_tables (set_versions db v) lfile new_log_number; Ok (Again allow_delay false, db).

(** ** [Write] *)

(** What the writer at the front is doing; the mutex is free between the steps. *)
Inductive phase : Type :=
  | Idle
  | MakingRoom (allow_delay force : bool)
  | Applying (updates : WriteBatch) (is_tmp : bool) (last_writer : nat) (last_sequence : Z)
  | Applied (status : Status) (sync_error is_tmp : bool) (last_writer : nat) (last_sequence : Z).

(** The batch of the group gets its number, before the mutex is released. *)
Definition write_group (db : DBImpl) : outcome (phase * DBImpl) :=
  let last_sequence := last_sequence_ (db_versions_ db) in
  g ← BuildBatchGroup (db_tmp_batch_ db) (db_writers_ db);
  let '(updates, is_tmp, last_writer) := g in
  updates ← SetSequence updates (u64 (last_sequence + 1));
  n ← Count updates;
  Ok (Applying updates is_tmp last_writer (u64 (last_sequence + n)),
      if is_tmp then set_tmp_batch db updates else db).

(** The log and the table in memory, without the mutex. *)
Definition write_apply (db : DBImpl) (updates : WriteBatch) (sync : bool) : outcome (Status * bool * DBImpl) :=
  a ← AddRecord (db_log_ db) (Contents updates);
  let '(status, log) := a in
  y ← (if ok status && sync
       then s ← Sync (dest_ log); Ok (s.1, negb (ok s.1), set_dest log s.2 (block_offset_ log))
       else Ok (status, false, log));
  let '(status, sync_error, log) := y in
  m ← (if ok status then InsertInto updates (db_mem_ db) else Ok (status, db_mem_ db));
  Ok (m.1, sync_error, set_tables (set_log db log (db_logfile_number_ db)) m.2 (db_imm_ db)).

Definition write_publish (db : DBImpl) (status : Status) (sync_error is_tmp : bool) (last_sequence : Z) : outcome DBImpl :=
  let db := if sync_error then RecordBackgroundError db status else db in
  let db := if is_tmp then set_tmp_batch db new_WriteBatch else db in
  v ← SetLastSequence (db_versions_ db) last_sequence;
  Ok (set_versions db v).

(** The answers to a group, the one at the front returning its own. *)
Fixpoint pop_group (last_writer : nat) (status : Status) (writers : list DBWriter) :
    outcome (list DBWriter * list (nat * Status)) :=
  match writers with
  | [] => Fault OutOfBounds
  | ready :: writers =>
      if bool_decide (dbw_id ready = last_writer) then Ok (writers, [(dbw_id ready, status)])
      else r ← pop_group last_writer status writers; Ok (r.1, (dbw_id ready, status) :: r.2)
  end.

Definition answer_group (db : DBImpl) (last_writer : nat) (status : Status) : outcome (list (nat * Status) * DBImpl) :=
  r ← pop_group last_writer status (db_writers_ db); Ok (r.2, set_writers db r.1).

(** The next step of the writer at the front: what it does next, the answers it gives. *)
Definition front_step (ph : phase) (db : DBImpl) : outcome (phase * list (nat * Status) * DBImpl) :=
  match db_writers_ db with
  | [] => Fault OutOfBounds
  | w :: _ =>
      match ph with
      | Idle => let force := bool_decide (dbw_batch w = None) in Ok (MakingRoom (negb force) force, [], db)
      | MakingRoom allow_delay force =>
          r ← MakeRoom_round allow_delay force db;
          match r.1 with
          | Again allow_delay force => Ok (MakingRoom allow_delay force, [], r.2)
          | Stop status =>
              if ok status && negb (bool_decide (dbw_batch w = None)) then g ← write_group r.2; Ok (g.1, [], g.2)
              else a ← answer_group r.2 (dbw_id w) status; Ok (Idle, a.1, a.2)
          end
      | Applying updates is_tmp last_writer last_sequence =>
          r ← write_apply db updates (dbw_sync w);
          Ok (Applied r.1.1 r.1.2 is_tmp last_writer last_sequence, [], r.2)
      | Applied status sync_error is_tmp last_writer last_sequence =>
          db ← write_publish db status sync_error is_tmp last_sequence;
          a ← answer_group db last_writer status; Ok (Idle, a.1, a.2)
      end
  end.

(** ** The interleavings *)

(** A call of [Write]: its batch as it was filled, or none. *)
Record request : Type := { req_id : nat; req_ops : option (list batch_op); req_sync : bool }.

(** The database with the tables that it wrote to files, the calls so far and their answers. *)
Record system : Type := {
  sys_db : DBImpl; sys_phase : phase; sys_tables : list MemTable;
  sys_requests : list request; sys_answers : list (nat * Status)
}.

Definition fill (req : request) : outcome DBWriter :=
  match req_ops req with
  | None => Ok {| dbw_id := req_id req; dbw_batch := None; dbw_sync := req_sync req |}
  | Some ops =>
      b ← batch_all ops new_WriteBatch;
      Ok {| dbw_id := req_id req; dbw_batch := Some b; dbw_sync := req_sync req |}
  end.

Definition enter (s : system) (req : request) (w : DBWriter) : system :=
  {| sys_db := set_writers (sys_db s) (db_writers_ (sys_db s) ++ [w]); sys_phase := sys_phase s;
     sys_tables := sys_tables s; sys_requests := sys_requests s ++ [req]; sys_answers := sys_answers s |}.

(** [CompactMemTable] at its end: the table was written to a file, or not. *)
Definition compacted (s : system) (m : MemTable) : system :=
  {| sys_db := set_tables (sys_db s) (db_mem_ (sys_db s)) None; sys_phase := sys_phase s;
     sys_tables := sys_tables s ++ [m]; sys_requests := sys_requests s; sys_answers := sys_answers s |}.
Definition compaction_failed (s : system) (e : Status) : system :=
  {| sys_db := RecordBackgroundError (sys_db s) e; sys_phase := sys_phase s;
     sys_tables := sys_tables s; sys_requests := sys_requests s; sys_answers := sys_answers s |}.

(** Compactions change how many files there are at level 0, and take file numbers. *)
Definition files_changed (s : system) (next level0 : Z) : system :=
  {| sys_db := set_versions (sys_db s)
       {| last_sequence_ := last_sequence_ (db_versions_ (sys_db s)); next_file_number_ := next;
          prev_log_number_ := prev_log_number_ (db_versions_ (sys_db s)); level0_files := level0 |};
     sys_phase := sys_phase s; sys_tables := sys_tables s; sys_requests := sys_requests s; sys_answers := sys_answers s |}.

Definition served (s : system) (ph : phase) (answers : list (nat * Status)) (db : DBImpl) : system :=
  {| sys_db := db; sys_phase := ph; sys_tables := sys_tables s; sys_requests := sys_requests s;
     sys_answers := sys_answers s ++ answers |}.

Inductive step (good : list request → Prop) : system → system → Prop :=
  | step_enter s req w :
      good (sys_requests s ++ [req]) → fill req = Ok w → step good s (enter s req w)
  | step_front s ph answers db :
      front_step (sys_phase s) (sys_db s) = Ok (ph, answers, db) → step good s (served s ph answers db)
  | step_compacted s m :
      db_imm_ (sys_db s) = Some m → step good s (compacted s m)
  | step_compaction_failed s e : ok e = false → step good s (compaction_failed s e)
  | step_files s next level0 : step good s (files_changed s next level0).

End write.

(** ** Groups *)

(** The operations of a call. *)
Definition req_list (req : request) : list batch_op := default [] (req_ops req).
Definition ops_of (reqs : list request) : list batch_op := concat (map req_list reqs).

Definition op_fits `{ComparatorLaws} (op : batch_op) : Prop :=
  match op with
  | op_Put key value => key_ok key ∧ len key < 2 ^ 32 - 8 ∧ len value < 2 ^ 32 ∧ bytes key ∧ bytes value
  | op_Delete key => key_ok key ∧ len key < 2 ^ 32 - 8 ∧ bytes key
  end.

Definition req_size (req : request) : Z := kHeader + len (concat (map op_bytes (req_list req))).

Lemma prefixed_bytes s : bytes s → bytes (PutLengthPrefixedSlice [] s).
Proof.
  intros Hs. unfold PutLengthPrefixedSlice, PutVarint32. apply Forall_app_2; [|done]. cbn [app].
  assert (in_width 32 (u32 (len s))) as Hw by (apply wrap_in_width; lia).
  rewrite (EncodeVarint32_loop _ 5) by (done || lia). apply EncodeVarint64_bytes. unfold in_width in Hw. lia.
Qed.

Lemma prefixed_length s : (1 ≤ length (PutLengthPrefixedSlice [] s))%nat.
Proof.
  unfold PutLengthPrefixedSlice, PutVarint32. cbn [app].
  rewrite (EncodeVarint32_loop _ 5) by (first [apply wrap_in_width|idtac]; lia). cbn [EncodeVarint64_loop].
  destruct (_ <=? _); cbn [app length]; lia.
Qed.

Lemma length_op_bytes op : (2 ≤ length (op_bytes op))%nat.
Proof.
  destruct op as [key value|key]; cbn [op_bytes length]; rewrite ?length_app;
    pose proof (prefixed_length key); lia.
Qed.

Lemma ops_length ops : (2 * length ops ≤ length (concat (map op_bytes ops)))%nat.
Proof.
  induction ops as [|op ops IH]; [done|]. cbn [map concat length]. rewrite length_app. pose proof (length_op_bytes op). lia.
Qed.

Section group.
Context `{ComparatorLaws}.

Lemma fits_op_ok op : op_fits op → op_ok op.
Proof. destruct op; cbn; intuition lia. Qed.

Lemma op_bytes_bytes op : op_fits op → bytes (op_bytes op).
Proof.
  destruct op as [key value|key]; cbn; intros Hf; (apply List.Forall_cons; [done|]);
    [apply Forall_app_2|]; apply prefixed_bytes, Hf.
Qed.

Lemma batch_bytes_bytes seq n ops : Forall op_fits ops → bytes (batch_bytes seq n ops).
Proof.
  intros Hops. unfold batch_bytes, EncodeFixed64, EncodeFixed32. repeat apply Forall_app_2; try apply le_bytes_bytes.
  induction Hops as [|op ops Hop Hops IH]; [constructor|]. apply Forall_app_2; [by apply op_bytes_bytes|done].
Qed.

(** A call that fits: what [op_fits] says of its operations, and a batch below 4 GB. *)
Definition req_fits (req : request) : Prop := Forall op_fits (req_list req) ∧ req_size req < 2 ^ 32.

Record writer_for (req : request) (w : DBWriter) : Prop := {
  for_id : dbw_id w = req_id req;
  for_sync : dbw_sync w = req_sync req;
  for_batch : match req_ops req, dbw_batch w with
              | Some ops, Some b => batch_of b 0 ops
              | None, None => True
              | _, _ => False
              end
}.

Lemma size_ops req : req_fits req → 2 * len (req_list req) < 2 ^ 32.
Proof. intros [_ Hs]. unfold req_size, kHeader in Hs. pose proof (ops_length (req_list req)). lia. Qed.

Lemma fill_ok req w : req_fits req → fill req = Ok w → writer_for req w.
Proof.
  intros Hf. pose proof (size_ops req Hf) as Hn. destruct Hf as [Hops _]. unfold fill, req_list in *.
  destruct (req_ops req) as [ops|] eqn:E; cbn [from_option id] in *; [|intros [= <-]; split; try done; by rewrite E].
  destruct (batch_all_ok ops new_WriteBatch 0 [] batch_new) as (b & -> & Hb).
  - eapply Forall_impl; [exact Hops|]. apply fits_op_ok.
  - cbn [app]. lia.
  - intros [= <-]. split; try done. by rewrite E.
Qed.

Lemma batch_size b seq ops : batch_of b seq ops → ByteSize b = kHeader + len (concat (map op_bytes ops)).
Proof. intros Hb. unfold ByteSize, kHeader. rewrite (batch_rep _ _ _ Hb), length_batch. lia. Qed.

Lemma ops_of_app a b : ops_of (a ++ b) = ops_of a ++ ops_of b.
Proof. unfold ops_of. by rewrite map_app, concat_app. Qed.

Lemma ops_of_one req ops : req_ops req = Some ops → ops_of [req] = ops.
Proof. intros E. unfold ops_of. cbn. unfold req_list. rewrite E. apply app_nil_r. Qed.

Lemma last_cons_default {A} (l : list A) a d : List.last (a :: l) d = List.last l a.
Proof. revert a d. induction l as [|b l IH]; intros a d; [done|]. exact (eq_trans (IH b d) (eq_sym (IH b a))). Qed.

(** What the loop has after the calls [acc] behind the first one. *)
Record gathered (ops0 : list batch_op) (size : Z) (result : option WriteBatch) (acc : list request) : Prop := {
  gathered_batch : match result with
                   | None => ops_of acc = []
                   | Some tmp => batch_of tmp 0 (ops0 ++ ops_of acc)
                   end;
  gathered_size : 2 * len (ops0 ++ ops_of acc) ≤ size < 2 ^ 33
}.

Lemma gather_batch ops0 first_batch tmp_batch size max_size result acc req ops batch :
  batch_of first_batch 0 ops0 → batch_of tmp_batch 0 [] → max_size < 2 ^ 33 - 2 ^ 32 →
  gathered ops0 size result acc → req_ops req = Some ops → batch_of batch 0 ops → size + ByteSize batch ≤ max_size →
  ∃ tmp tmp', match result with
              | Some tmp => Ok tmp
              | None => n ← Count tmp_batch; _ ← require (n =? 0) OutOfBounds; WriteBatch_Append tmp_batch first_batch
              end = Ok tmp ∧ WriteBatch_Append tmp batch = Ok tmp' ∧
    gathered ops0 (size + ByteSize batch) (Some tmp') (acc ++ [req]).
Proof.
  intros Hfirst Htmp Hmax [Hres Hsize] Hreq Hb Hle.
  assert (ops_of (acc ++ [req]) = ops_of acc ++ ops) as Hops by by rewrite ops_of_app, (ops_of_one req ops).
  assert (2 * len ops ≤ ByteSize batch) as Hlen.
  { rewrite (batch_size _ _ _ Hb). unfold kHeader. pose proof (ops_length ops). lia. }
  rewrite length_app in Hsize.
  assert (∃ tmp, match result with
              | Some tmp => Ok tmp
              | None => n ← Count tmp_batch; _ ← require (n =? 0) OutOfBounds; WriteBatch_Append tmp_batch first_batch
              end = Ok tmp ∧ batch_of tmp 0 (ops0 ++ ops_of acc)) as (tmp & -> & Ht).
  { destruct result as [tmp|]; [by exists tmp|]. rewrite (Count_ok _ _ _ Htmp). cbn [length mbind outcome_bind Z.of_nat Z.eqb require].
    destruct (WriteBatch_Append_ok _ _ _ _ _ _ Htmp Hfirst) as (tmp & -> & Ht); [cbn; lia|].
    exists tmp. by rewrite Hres, app_nil_r. }
  destruct (WriteBatch_Append_ok _ _ _ _ _ _ Ht Hb) as (tmp' & E & Ht'); [rewrite length_app; lia|].
  exists tmp, tmp'. split; [done|]. split; [done|]. split; [by rewrite Hops, app_assoc|].
  rewrite Hops, !length_app. lia.
Qed.

Lemma group_loop_ok first first_batch tmp_batch req0 ops0 max_size : 
  batch_of first_batch 0 ops0 → batch_of tmp_batch 0 [] → max_size < 2 ^ 33 - 2 ^ 32 → dbw_sync first = req_sync req0 →
  ∀ reqs iter size result last acc, Forall2 writer_for reqs iter → Forall req_fits reqs → gathered ops0 size result acc →
  (size ≤ max_size ∨ result = None) →
  ∃ result' n, group_loop first first_batch tmp_batch max_size size result last iter =
      Ok (result', List.last (map req_id (take n reqs)) last) ∧
    Forall (λ req, req_sync req = true → req_sync req0 = true) (take n reqs) ∧
    (∃ size', gathered ops0 size' result' (acc ++ take n reqs)) .
Proof.
  intros Hfirst Htmp Hmax Hsync. induction reqs as [|req reqs IH]; intros iter size result last acc Hall Hfits Hg Hle;
    inversion Hall as [|? w ? iter' Hw Hall']; subst; cbn [group_loop].
  { exists result, 0%nat. split; [done|]. split; [done|]. rewrite app_nil_r. by exists size. }
  apply Forall_cons in Hfits as [Hfit Hfits]. pose proof Hw as [Hid Hs Hb]. rewrite Hs, Hsync.
  destruct (req_sync req && negb (req_sync req0)) eqn:E.
  { exists result, 0%nat. split; [done|]. split; [done|]. rewrite app_nil_r. by exists size. }
  assert (req_sync req = true → req_sync req0 = true) as Hrule by (intros Hr; rewrite Hr in E; by destruct (req_sync req0)).
  destruct (req_ops req) as [ops|] eqn:Er, (dbw_batch w) as [batch|] eqn:Ew; try done.
  - assert (ByteSize batch = req_size req) as Hsz by (rewrite (batch_size _ _ _ Hb); unfold req_size, req_list; by rewrite Er).
    pose proof (gathered_size _ _ _ _ Hg) as Hsize. destruct Hfit as [_ Hfit].
    assert (0 ≤ req_size req) by (unfold req_size, kHeader; lia).
    rewrite wrap_small by (unfold in_width; lia). destruct (Z.ltb_spec max_size (size + ByteSize batch)) as [|Hfits'].
    { exists result, 0%nat. split; [done|]. split; [done|]. rewrite app_nil_r. by exists size. }
    edestruct (gather_batch ops0 first_batch tmp_batch size max_size result acc req ops batch) as (tmp & tmp' & -> & E' & Hg'); [done..|].
    cbn [mbind outcome_bind]. rewrite E'. cbn [mbind outcome_bind].
    destruct (IH iter' _ (Some tmp') (dbw_id w) (acc ++ [req]) Hall' Hfits Hg') as (r & n & Hr & Hrs & size' & Hg2); [by left|].
    exists r, (S n). cbn [take map]. rewrite Hr, Hid, last_cons_default. split; [done|split; [by constructor|]].
    exists size'. by rewrite <- app_assoc in Hg2.
  - assert (ops_of (acc ++ [req]) = ops_of acc) as Hn.
    { rewrite ops_of_app. unfold ops_of at 2. cbn. unfold req_list. rewrite Er. cbn. by rewrite app_nil_r. }
    destruct (IH iter' size result (dbw_id w) (acc ++ [req]) Hall' Hfits) as (r & n & Hr & Hrs & size' & Hg2); [|done|].
    { destruct Hg as [H1 H2]. split; by rewrite Hn. }
    exists r, (S n). cbn [take map]. rewrite Hr, Hid, last_cons_default. split; [done|split; [by constructor|]].
    exists size'. by rewrite <- app_assoc in Hg2.
Qed.

(** The group is the first calls of the queue, as far as the limits allow. *)
Lemma BuildBatchGroup_ok tmp_batch req0 reqs writers :
  batch_of tmp_batch 0 [] → Forall2 writer_for (req0 :: reqs) writers → Forall req_fits (req0 :: reqs) → is_Some (req_ops req0) →
  ∃ updates is_tmp n, let group := take (S n) (req0 :: reqs) in
    BuildBatchGroup tmp_batch writers = Ok (updates, is_tmp, List.last (map req_id group) 0%nat) ∧
    batch_of updates 0 (ops_of group) ∧ Forall (λ req, req_sync req = true → req_sync req0 = true) group ∧
    (is_tmp = false → updates = default new_WriteBatch (head writers ≫= dbw_batch)).
Proof.
  intros Htmp Hall Hfits [ops0 E0]. inversion Hall as [|? first ? iter [Hid Hs Hb] Hall']; subst.
  rewrite E0 in Hb. destruct (dbw_batch first) as [batch|] eqn:Ef; [|done]. unfold BuildBatchGroup. rewrite Ef.
  apply Forall_cons in Hfits as [[_ Hfit] Hfits].
  assert (ByteSize batch = req_size req0) as Hsz by (rewrite (batch_size _ _ _ Hb); unfold req_size, req_list; by rewrite E0).
  assert (gathered ops0 (ByteSize batch) None []) as Hg.
  { split; [done|]. rewrite app_nil_r, (batch_size _ _ _ Hb). unfold kHeader. pose proof (ops_length ops0).
    rewrite (batch_size _ _ _ Hb) in Hsz. rewrite Hsz at 2. unfold kHeader in Hsz. lia. }
  set (max_size := if ByteSize batch <=? Z.shiftl 128 10 then u64 (ByteSize batch + Z.shiftl 128 10) else Z.shiftl 1 20).
  assert (max_size < 2 ^ 33 - 2 ^ 32) as Hmax.
  { unfold max_size. change (Z.shiftl 128 10) with 131072. change (Z.shiftl 1 20) with 1048576.
    destruct (Z.leb_spec (ByteSize batch) 131072); [|lia]. unfold ByteSize in *. rewrite wrap_small; unfold in_width; lia. }
  destruct (group_loop_ok first batch tmp_batch req0 ops0 max_size Hb Htmp Hmax Hs reqs iter _ None (dbw_id first) [] Hall' Hfits Hg)
    as (result & n & -> & Hrule & size' & [Hres _]); [by right|].
  cbn [mbind outcome_bind app fst snd] in *. exists (default batch result), (bool_decide (is_Some result)), n. cbv zeta.
  assert (ops_of (take (S n) (req0 :: reqs)) = ops0 ++ ops_of (take n reqs)) as ->.
  { cbn [take]. change (req0 :: take n reqs) with ([req0] ++ take n reqs). by rewrite ops_of_app, (ops_of_one req0 ops0). }
  split; [|split; [|split]].
  - cbn [take map]. rewrite last_cons_default, Hid. by destruct result.
  - destruct result; [done|]. cbn. by rewrite Hres, app_nil_r.
  - cbn [take]. by constructor.
  - destruct result; [done|]. cbn. by rewrite Ef.
Qed.

End group.

(** ** What holds at every step *)

Section serves.
Context `{ComparatorLaws} `{Memory} {F : Type} `{WritableFileLaws F}.
Context (ApproximateMemoryUsage : MemTable → Z) (NewWritableFile : Z → F → Status * F) (write_buffer_size : Z).

(** A file that was created is empty and works. *)
Definition creates_files : Prop :=
  ∀ n f s lfile, NewWritableFile n f = (s, lfile) → ok s = true → working lfile ∧ written lfile = [] ∧ stored lfile = [].

Context (base : Z).

(** The calls of a run: different ones, each of which fits, with numbers for all their operations. *)
Definition requests_ok (reqs : list request) : Prop :=
  NoDup (map req_id reqs) ∧ Forall req_fits reqs ∧ base + len (ops_of reqs) ≤ kMaxSequenceNumber.

(** The operations of the calls that were answered with OK. *)
Definition committed (answered : list (request * Status)) : list batch_op :=
  concat (map (λ x, if ok x.2 then req_list x.1 else []) answered).

Definition answer_of (x : request * Status) : nat * Status := (req_id x.1, x.2).

Record queue_ok (s : system (F := F)) (answered : list (request * Status)) (pending : list request) : Prop := {
  queue_requests : sys_requests s = map fst answered ++ pending;
  queue_fits : requests_ok (sys_requests s);
  queue_writers : Forall2 writer_for pending (db_writers_ (sys_db s));
  queue_answers : sys_answers s = map answer_of answered
}.

Record tables_ok (tables : list MemTable) (db : DBImpl (F := F)) (logs : list (list write)) (imm_log : list write)
    (groups : list (Z * list batch_op)) (ops : list batch_op) : Prop := {
  tables_files : Forall2 logged tables logs;
  tables_imm : match db_imm_ db with None => imm_log = [] | Some m => logged m imm_log end;
  tables_mem : logged (db_mem_ db) (log_of groups);
  tables_writes : concat logs ++ imm_log ++ log_of groups = writes_of (base + 1) ops
}.

(** The record of a group in the log. *)
Definition record_of (g : Z * list batch_op) : list Z := batch_bytes g.1 (len g.2) g.2.

Definition group_fits (g : Z * list batch_op) : Prop :=
  1 ≤ g.1 ∧ in_width 64 g.1 ∧ len g.2 < 2 ^ 31 ∧ Forall op_fits g.2 ∧ Forall write_ok (writes_of g.1 g.2).

Record log_ok (log : Writer F) (groups : list (Z * list batch_op)) : Prop := {
  log_writer : writer_ok log;
  log_stored : stored (dest_ log) = written (dest_ log);
  log_records : LdbLog.logged 0 (map record_of groups) (written (dest_ log)) (block_offset_ log);
  log_fits : Forall group_fits groups
}.

(** Between two groups: all is well, or a record was logged that could not be synced. *)
Definition settled (db : DBImpl (F := F)) (next : Z) (lost : list (Z * list batch_op)) : Prop :=
  batch_of (db_tmp_batch_ db) 0 [] ∧
  (lost = [] ∧ last_sequence_ (db_versions_ db) = next ∨
   ok (db_bg_error_ db) = false ∧ next ≤ last_sequence_ (db_versions_ db) ≤ kMaxSequenceNumber ∧
     ∃ ops, lost = [(next + 1, ops)]).

(** The front works on a group, to be numbered from [next + 1]. *)
Record working_on (db : DBImpl (F := F)) (pending : list request) (next : Z) (is_tmp : bool) (last_writer : nat)
    (last_sequence : Z) (group : list request) : Prop := {
  on_group : ∃ n, group = take (S n) pending;
  on_pending : pending ≠ [];
  on_writer : last_writer = List.last (map req_id group) 0%nat;
  on_sequence : last_sequence = next + len (ops_of group);
  on_versions : last_sequence_ (db_versions_ db) = next;
  on_tmp : is_tmp = false → batch_of (db_tmp_batch_ db) 0 []
}.

Definition phase_ok (ph : phase) (db : DBImpl (F := F)) (pending : list request) (next : Z)
    (applied : list batch_op) (lost : list (Z * list batch_op)) : Prop :=
  match ph with
  | Idle => applied = [] ∧ settled db next lost
  | MakingRoom _ _ => pending ≠ [] ∧ applied = [] ∧ settled db next lost
  | Applying updates is_tmp last_writer last_sequence =>
      applied = [] ∧ lost = [] ∧ ∃ group, working_on db pending next is_tmp last_writer last_sequence group ∧
        batch_of updates (next + 1) (ops_of group)
  | Applied status sync_error is_tmp last_writer last_sequence =>
      ∃ group, working_on db pending next is_tmp last_writer last_sequence group ∧
        (status = status_OK ∧ sync_error = false ∧ applied = ops_of group ∧ lost = [] ∨
         ok status = false ∧ sync_error = true ∧ applied = [] ∧ lost = [(next + 1, ops_of group)])
  end.

(** A record that was not synced is a group of calls. *)
Definition lost_ok (reqs : list request) (lost : list (Z * list batch_op)) : Prop :=
  Forall (λ g, ∃ group, group ⊆ reqs ∧ g.2 = ops_of group) lost.

Record invariant_with (s : system (F := F)) (answered : list (request * Status)) (pending : list request)
    (logs : list (list write)) (imm_log : list write) (groups lost : list (Z * list batch_op)) (applied : list batch_op) : Prop := {
  inv_queue : queue_ok s answered pending;
  inv_tables : tables_ok (sys_tables s) (sys_db s) logs imm_log groups (committed answered ++ applied);
  inv_log : log_ok (db_log_ (sys_db s)) (groups ++ lost);
  inv_phase : phase_ok (sys_phase s) (sys_db s) pending (base + len (committed answered)) applied lost;
  inv_prev : prev_log_number_ (db_versions_ (sys_db s)) = 0;
  inv_lost : lost_ok (sys_requests s) lost
}.

Definition invariant (s : system (F := F)) : Prop :=
  ∃ answered pending logs imm_log groups lost applied, invariant_with s answered pending logs imm_log groups lost applied.

(** ** Writes and their numbers *)

Lemma writes_of_app seq a b : writes_of seq (a ++ b) = writes_of seq a ++ writes_of (seq + len a) b.
Proof.
  revert seq. induction a as [|op a IH]; intros seq; cbn [app writes_of length]; [by rewrite Z.add_0_r|].
  rewrite IH. do 3 f_equal. lia.
Qed.

Lemma writes_of_seq seq ops w : w ∈ writes_of seq ops → seq ≤ w_seq w < seq + len ops.
Proof.
  revert seq. induction ops as [|op ops IH]; intros seq Hw; cbn [writes_of length] in *; [by apply not_elem_of_nil in Hw|].
  apply elem_of_cons in Hw as [->|Hw]; [destruct op; cbn; lia|]. specialize (IH _ Hw). lia.
Qed.

Lemma writes_of_order seq ops : in_order (writes_of seq ops).
Proof.
  revert seq. induction ops as [|op ops IH]; intros seq; [constructor|]. constructor; [apply IH|].
  apply List.Forall_forall. intros w Hw%list_elem_of_In. apply writes_of_seq in Hw. destruct op; cbn; lia.
Qed.

Lemma writes_of_ok seq ops :
  0 ≤ seq → seq + len ops ≤ kMaxSequenceNumber + 1 → Forall op_fits ops → Forall write_ok (writes_of seq ops).
Proof.
  intros Hge0 Hmax Hops. revert seq Hge0 Hmax. induction Hops as [|op ops Hop Hops IH]; intros seq Hge0 Hmax; [constructor|].
  cbn [writes_of length] in *. constructor; [|apply IH; lia].
  destruct op as [key value|key]; cbn in Hop; unfold write_ok; cbn [write_of w_key w_seq w_type w_value]; unfold kValueTypeForSeek, kTypeValue, kTypeDeletion;
    cbn [length]; split_and!; try (by apply Hop); lia.
Qed.

Lemma in_order_app_r a b : in_order (a ++ b) → in_order b.
Proof. induction a as [|w a IH]; [done|]. intros Ho. by apply IH, (StronglySorted_inv Ho). Qed.

Lemma committed_app a b : committed (a ++ b) = committed a ++ committed b.
Proof. unfold committed. by rewrite map_app, concat_app. Qed.

Lemma committed_length answered : (length (committed answered) ≤ length (ops_of (map fst answered)))%nat.
Proof.
  induction answered as [|[req st] answered IH]; [done|]. unfold committed, ops_of in *. cbn [map concat fst snd].
  rewrite !length_app. destruct (ok st); cbn [length]; lia.
Qed.

(** The answers to a group. *)
Lemma committed_ok group status : committed (map (λ req, (req, status)) group) = if ok status then ops_of group else [].
Proof.
  unfold committed, ops_of. rewrite map_map. cbn [fst snd]. destruct (ok status); [done|]. by induction group.
Qed.

Lemma queue_room s answered pending :
  queue_ok s answered pending → base + len (committed answered) + len (ops_of pending) ≤ kMaxSequenceNumber.
Proof.
  intros [Hr (_ & _ & Hmax) _ _]. rewrite Hr, ops_of_app, length_app in Hmax. pose proof (committed_length answered). lia.
Qed.

Lemma ops_fit reqs : Forall req_fits reqs → Forall op_fits (ops_of reqs).
Proof.
  induction 1 as [|req reqs [Hops _] Hr IH]; [constructor|]. unfold ops_of. cbn [map concat]. by apply Forall_app_2.
Qed.

Lemma pending_fits s answered pending : queue_ok s answered pending → Forall req_fits pending.
Proof. intros [Hr (_ & Hf & _) _ _]. rewrite Hr in Hf. by apply Forall_app in Hf as [_ Hf]. Qed.

(** ** The steps of the others *)

Lemma queue_ok_db s answered pending ph db :
  queue_ok s answered pending → db_writers_ db = db_writers_ (sys_db s) → queue_ok (served s ph [] db) answered pending.
Proof. intros [Hr Hf Hw Ha] E. split; cbn; [done|done|by rewrite E|by rewrite app_nil_r]. Qed.

Lemma working_on_enter db db' pending req next is_tmp last ls group :
  working_on db pending next is_tmp last ls group → db_versions_ db' = db_versions_ db → db_tmp_batch_ db' = db_tmp_batch_ db →
  working_on db' (pending ++ [req]) next is_tmp last ls group.
Proof.
  intros [[n ->] Hne Hl Hs Hv Ht] Ev Et. split; try done; [|by destruct pending|by rewrite Ev|by rewrite Et].
  destruct pending as [|r0 pending]; [done|]. exists (n `min` length pending)%nat.
  cbn [take app]. f_equal. rewrite take_app_le by lia. by rewrite <- firstn_firstn, firstn_all.
Qed.

Lemma enter_ok s req w :
  invariant s → requests_ok (sys_requests s ++ [req]) → fill req = Ok w → invariant (enter s req w).
Proof.
  intros (answered & pending & logs & imm_log & groups & lost & applied & [[Hr Hf Hw Ha] [Ht Hi Hm Hwr] Hl Hp Hv Hlost]) Hok Hfill.
  exists answered, (pending ++ [req]), logs, imm_log, groups, lost, applied. split; [|by split|done| |done|].
  - split; cbn; [by rewrite Hr, app_assoc|done| |done]. apply Forall2_app; [done|]. constructor; [|constructor].
    apply fill_ok; [|done]. destruct Hok as (_ & Hfits & _). apply Forall_app in Hfits as [_ Hfits]. by apply Forall_cons in Hfits as [? _].
  - cbn. destruct (sys_phase s) as [|a f|u t last ls|st e t last ls]; cbn [phase_ok] in *; try done.
    + destruct Hp as (Hne & Hp). split; [by destruct pending|done].
    + destruct Hp as (Happ & Hnone & group & Hon & Hb). split; [done|]. split; [done|]. exists group. split; [|done].
      by eapply working_on_enter.
    + destruct Hp as (group & Hon & Hres). exists group. split; [|done]. by eapply working_on_enter.
  - eapply Forall_impl; [exact Hlost|]. intros g (group & Hsub & E). exists group. split; [|done]. cbn. set_solver.
Qed.

Lemma compacted_ok s m : invariant s → db_imm_ (sys_db s) = Some m → invariant (compacted s m).
Proof.
  intros (answered & pending & logs & imm_log & groups & lost & applied & [[Hr Hf Hw Ha] [Ht Hi Hm Hwr] Hl Hp Hv Hlost]) Him.
  rewrite Him in Hi. exists answered, pending, (logs ++ [imm_log]), [], groups, lost, applied.
  split; [by split| |done| |done|done].
  - split; cbn; [|done|done|].
    + apply Forall2_app; [done|]. constructor; [done|constructor].
    + rewrite concat_app. cbn. by rewrite app_nil_r, <- app_assoc.
  - cbn. destruct (sys_phase s); cbn [phase_ok] in *; [done|done| |].
    + destruct Hp as (Happ & Hnone & group & [] & Hb). split; [done|]. split; [done|]. exists group. by split.
    + destruct Hp as (group & [] & Hres). exists group. by split.
Qed.

Lemma compaction_failed_ok s e : invariant s → ok e = false → invariant (compaction_failed s e).
Proof.
  intros (answered & pending & logs & imm_log & groups & lost & applied & [[Hr Hf Hw Ha] [Ht Hi Hm Hwr] Hl Hp Hv Hlost]) He.
  exists answered, pending, logs, imm_log, groups, lost, applied. unfold compaction_failed, RecordBackgroundError.
  destruct (ok (db_bg_error_ (sys_db s))) eqn:Eb; [|split; (done || by split)].
  split; [by split|by split|done| |done|done]. cbn.
  assert (∀ next, settled (sys_db s) next lost → settled (set_bg_error (sys_db s) e) next lost) as Hset.
  { intros next [Htmp [Hgood|[Hbad _]]]; [|congruence]. split; [done|]. by left. }
  destruct (sys_phase s); cbn [phase_ok] in *.
  - destruct Hp as [Happ Hp]. split; [done|]. by apply Hset.
  - destruct Hp as (Hne & Happ & Hp). split; [done|]. split; [done|]. by apply Hset.
  - destruct Hp as (Happ & Hnone & group & [] & Hb). split; [done|]. split; [done|]. exists group. by split.
  - destruct Hp as (group & [] & Hres). exists group. by split.
Qed.

Lemma files_changed_ok s next level0 : invariant s → invariant (files_changed s next level0).
Proof.
  intros (answered & pending & logs & imm_log & groups & lost & applied & [[Hr Hf Hw Ha] [Ht Hi Hm Hwr] Hl Hp Hv Hlost]).
  exists answered, pending, logs, imm_log, groups, lost, applied. split; [by split|by split|done| |done|done]. cbn.
  destruct (sys_phase s); cbn [phase_ok] in *; [done|done| |].
  - destruct Hp as (Happ & Hnone & group & [] & Hb). split; [done|]. split; [done|]. exists group. by split.
  - destruct Hp as (group & [] & Hres). exists group. by split.
Qed.

(** ** The steps of the front *)

Lemma pop_group_ok n pending writers status :
  Forall2 writer_for pending writers → NoDup (map req_id pending) → pending ≠ [] →
  let group := take (S n) pending in
  pop_group (List.last (map req_id group) 0%nat) status writers =
    Ok (drop (S n) writers, map (λ req, (req_id req, status)) group) ∧
  Forall2 writer_for (drop (S n) pending) (drop (S n) writers).
Proof.
  intros Hall Hnd Hne. cbv zeta. split; [|by apply Forall2_drop].
  revert n Hnd Hne. induction Hall as [|req w pending writers [Hid _ _] Hall IH]; intros n Hnd Hne; [done|].
  cbn [take map drop pop_group] in *. rewrite last_cons_default, Hid. apply NoDup_cons in Hnd as [Hnew Hnd].
  destruct n as [|n]; [by rewrite bool_decide_true by done|].
  destruct pending as [|r2 pending]; [inversion Hall; subst; by rewrite bool_decide_true by done|].
  specialize (IH n Hnd ltac:(done)). cbn [take map drop] in IH |- *. rewrite last_cons_default in IH |- *.
  rewrite bool_decide_false, IH; [done|]. intros E. apply Hnew. rewrite E.
  assert (List.last (map req_id (take n pending)) (req_id r2) ∈ map req_id (take (S n) (r2 :: pending))) as Hin.
  { cbn [take map]. rewrite <- (last_cons_default _ _ 0%nat). apply list_elem_of_In.
    destruct (exists_last (l := req_id r2 :: map req_id (take n pending))) as (l & a & ->); [done|].
    rewrite last_last. apply in_or_app. right. by left. }
  rewrite <- (take_drop (S n) (r2 :: pending)), map_app. apply elem_of_app. by left.
Qed.

(** What the front needs to know of the database between two groups. *)
Definition ready (tables : list MemTable) (db : DBImpl (F := F)) logs imm_log groups lost answered : Prop :=
  tables_ok tables db logs imm_log groups (committed answered) ∧ log_ok (db_log_ db) (groups ++ lost) ∧
  settled db (base + len (committed answered)) lost ∧ prev_log_number_ (db_versions_ db) = 0.

Lemma ok_status s : ok s = true → s = status_OK.
Proof. by destruct s. Qed.

Lemma settled_versions db v next lost :
  settled db next lost → last_sequence_ v = last_sequence_ (db_versions_ db) → settled (set_versions db v) next lost.
Proof. intros [Htmp Hl] E. unfold settled. cbn. by rewrite E. Qed.

Lemma switch_tables_ok tables db v lfile number logs imm_log groups answered :
  ready tables db logs imm_log groups [] answered → db_imm_ db = None → working lfile → written lfile = [] → stored lfile = [] →
  last_sequence_ v = last_sequence_ (db_versions_ db) → prev_log_number_ v = 0 →
  ∃ db', switch_tables (set_versions db v) lfile number = Ok db' ∧ ready tables db' logs (log_of groups) [] [] answered ∧
    db_writers_ db' = db_writers_ db ∧ db_bg_error_ db' = db_bg_error_ db.
Proof.
  intros ([Ht Hi Hm Hw] & Hl & Hset & _) Him Hwork Hwr Hst Hv Hprev. rewrite Him in Hi. subst imm_log. unfold switch_tables.
  destruct (new_Writer_ok lfile 0 Hwork ltac:(done)) as (log & -> & Hok & Hdest & Hoff). rewrite Z.mod_0_l in Hoff by done.
  cbn [mbind outcome_bind]. unfold MemTable_Ref. cbn [refs_ new_MemTable]. rewrite int_result_ok by lia.
  cbn [mbind outcome_bind]. eexists. split; [done|]. split; [|done]. split; [|split; [|split]].
  - split; cbn; [done|done|apply logged_new|]. rewrite app_nil_r. exact Hw.
  - split; cbn; [done|by rewrite Hdest, Hwr, Hst|rewrite Hdest, Hwr, Hoff; constructor|constructor].
  - by apply (settled_versions db v).
  - exact Hprev.
Qed.

Lemma MakeRoom_ok tables db allow_delay force logs imm_log groups lost answered :
  creates_files → ready tables db logs imm_log groups lost answered → db_writers_ db ≠ [] →
  ∃ r db' logs' imm_log' groups', MakeRoom_round ApproximateMemoryUsage NewWritableFile write_buffer_size allow_delay force db = Ok (r, db') ∧
    ready tables db' logs' imm_log' groups' lost answered ∧ db_writers_ db' = db_writers_ db ∧
    (∀ st, r = Stop st → ok st = true → ok (db_bg_error_ db') = true).
Proof.
  intros Hnew Hr Hne. unfold MakeRoom_round. rewrite (bool_decide_false (db_writers_ db = [])) by done. cbn [negb require mbind outcome_bind].
  destruct (ok (db_bg_error_ db)) eqn:Eb; cbn [negb].
  2: { exists (Stop (db_bg_error_ db)), db, logs, imm_log, groups. split; [done|]. split; [done|]. split; [done|]. intros st [= <-]. congruence. }
  assert (∀ r, ∃ r' db' logs' imm_log' groups', Ok (r, db) = Ok (r', db') ∧ ready tables db' logs' imm_log' groups' lost answered ∧
    db_writers_ db' = db_writers_ db ∧ (∀ st, r' = Stop st → ok st = true → ok (db_bg_error_ db') = true)) as Hsame
    by (intros r; by exists r, db, logs, imm_log, groups).
  destruct (allow_delay && _); [apply Hsame|]. destruct (negb force && _); [apply Hsame|].
  destruct (bool_decide (is_Some (db_imm_ db))) eqn:Ei; [apply Hsame|]. destruct (_ <=? _); [apply Hsame|].
  apply bool_decide_eq_false in Ei. assert (db_imm_ db = None) as Him by (destruct (db_imm_ db); [by destruct Ei|done]).
  pose proof Hr as (Ht & Hl & Hset & Hprev). rewrite Hprev. cbn [Z.eqb require mbind outcome_bind NewFileNumber].
  destruct (NewWritableFile (next_file_number_ (db_versions_ db)) (dest_ (db_log_ db))) as [s lfile] eqn:Ef.
  destruct (ok s) eqn:Es; cbn [negb].
  - destruct (Hnew _ _ _ _ Ef Es) as (Hwork & Hwr & Hst). destruct Hset as [Htmp [[-> Hseq]|[Hbad _]]]; [|congruence].
    edestruct (switch_tables_ok tables db) as (db' & -> & Hready & Hw & Hb); [exact Hr|done..|].
    cbn [mbind outcome_bind]. exists (Again allow_delay false), db', logs, (log_of groups), []. done.
  - eexists (Stop s), _, logs, imm_log, groups. split; [done|]. unfold ReuseFileNumber. split; [|split; [done|]].
    + destruct Ht. split; [by split|]. split; [done|]. split; [apply settled_versions; [done|]|]; by destruct (_ =? _).
    + intros st [= <-]. congruence.
Qed.

Lemma write_group_ok s answered pending logs imm_log groups db w writers :
  queue_ok s answered pending → db_writers_ db = db_writers_ (sys_db s) → db_writers_ db = w :: writers → dbw_batch w ≠ None →
  0 ≤ base → ready (sys_tables s) db logs imm_log groups [] answered → ok (db_bg_error_ db) = true →
  ∃ ph db', write_group db = Ok (ph, db') ∧ invariant (served s ph [] db').
Proof.
  intros Hq Ew Ew' Hb Hbase (Ht & Hl & [Htmp Hset] & Hprev) Hgood. pose proof (queue_writers _ _ _ Hq) as Hall. rewrite <- Ew, Ew' in Hall.
  inversion Hall as [|req0 ? reqs ? Hw0 Hall']; subst. pose proof (pending_fits _ _ _ Hq) as Hfits.
  assert (is_Some (req_ops req0)) as Hsome by (destruct Hw0 as [_ _ Hm]; destruct (req_ops req0); [done|by destruct (dbw_batch w)]).
  destruct Hset as [[_ Hseq]|[Hbad _]]; [|congruence].
  destruct (BuildBatchGroup_ok _ req0 reqs _ Htmp Hall Hfits Hsome) as (u & is_tmp & n & Hbuild & Hu & Hsync & Hfirst).
  set (group := take (S n) (req0 :: reqs)) in *. unfold write_group. rewrite Ew', Hbuild. cbn [mbind outcome_bind].
  pose proof (queue_room _ _ _ Hq) as Hroom.
  assert (len (ops_of group) ≤ len (ops_of (req0 :: reqs))) as Hle.
  { unfold group. rewrite <- (take_drop (S n) (req0 :: reqs)) at 2. rewrite ops_of_app, length_app. lia. }
  assert (0 ≤ base + len (committed answered) ∧ base + len (committed answered) + len (ops_of group) ≤ kMaxSequenceNumber) as [Hlo Hhi] by lia.
  assert (kMaxSequenceNumber < 2 ^ 56) as Hk by done. rewrite Hseq. rewrite (wrap_small 64 (_ + 1)) by (unfold in_width; lia).
  destruct (SetSequence_ok u 0 (ops_of group) (base + len (committed answered) + 1) Hu) as (u' & -> & Hu'); [unfold in_width; lia|].
  cbn [mbind outcome_bind]. rewrite (Count_ok _ _ _ Hu'). cbn [mbind outcome_bind]. eexists _, _. split; [done|].
  set (db' := if is_tmp then set_tmp_batch db u' else db).
  assert (db_writers_ db' = db_writers_ (sys_db s) ∧ db_versions_ db' = db_versions_ db ∧ db_log_ db' = db_log_ db ∧
    db_mem_ db' = db_mem_ db ∧ db_imm_ db' = db_imm_ db ∧ (is_tmp = false → db_tmp_batch_ db' = db_tmp_batch_ db)) as (E1 & E2 & E3 & E4 & E5 & E6)
    by (by destruct is_tmp).
  exists answered, (req0 :: reqs), logs, imm_log, groups, [], []. split; cbn [sys_tables sys_db sys_phase served].
  - by apply queue_ok_db.
  - destruct Ht as [H1' H2' H3' H4']. split; rewrite ?E4, ?E5, ?app_nil_r; done.
  - by rewrite E3.
  - cbn [phase_ok]. split; [done|]. split; [done|]. exists group. split; [|done]. split; try done.
    + by exists n.
    + rewrite wrap_small; [done|unfold in_width; lia].
    + by rewrite E2.
    + intros Hf. by rewrite E6.
  - by rewrite E2.
  - constructor.
Qed.

Lemma log_of_app a b : log_of (a ++ b) = log_of a ++ log_of b.
Proof. unfold log_of. by rewrite map_app, concat_app. Qed.

Lemma log_of_one seq ops : log_of [(seq, ops)] = writes_of seq ops.
Proof. unfold log_of. cbn. apply app_nil_r. Qed.

(** One more record in the log. *)
Lemma log_ok_add log log' groups g out :
  log_ok log groups → emitted log log' out → fragments true (block_offset_ log) (record_of g) out (block_offset_ log') →
  group_fits g → log_ok log' (groups ++ [g]).
Proof.
  intros [Hw Hs Hr Hf] (Hw' & Hwr & Hst) Hfr Hg. split; [done|done| |by apply Forall_app_2; [|constructor]].
  rewrite map_app, Hwr. eapply logged_app; [exact Hr|]. rewrite <- (app_nil_r out). econstructor; [exact Hfr|constructor].
Qed.

Lemma write_apply_ok tables db logs imm_log groups answered u next ops sync :
  tables_ok tables db logs imm_log groups (committed answered) → log_ok (db_log_ db) groups →
  next = base + len (committed answered) → batch_of u (next + 1) ops → group_fits (next + 1, ops) →
  ∃ st se db', write_apply db u sync = Ok (st, se, db') ∧ db_writers_ db' = db_writers_ db ∧ db_versions_ db' = db_versions_ db ∧
    db_tmp_batch_ db' = db_tmp_batch_ db ∧ db_bg_error_ db' = db_bg_error_ db ∧ log_ok (db_log_ db') (groups ++ [(next + 1, ops)]) ∧
    (∃ out, emitted (db_log_ db) (db_log_ db') out ∧
       fragments true (block_offset_ (db_log_ db)) (record_of (next + 1, ops)) out (block_offset_ (db_log_ db'))) ∧
    (st = status_OK ∧ se = false ∧ tables_ok tables db' logs imm_log (groups ++ [(next + 1, ops)]) (committed answered ++ ops) ∨
     ok st = false ∧ se = true ∧ tables_ok tables db' logs imm_log groups (committed answered)).
Proof.
  intros [Ht Hi Hm Hwr] Hl Hnext Hu Hg. unfold write_apply, Contents. rewrite (batch_rep _ _ _ Hu).
  change (batch_bytes (next + 1) (len ops) ops) with (record_of (next + 1, ops)).
  destruct (AddRecord_ok (db_log_ db) (record_of (next + 1, ops))) as (log & out & -> & Hem & Hfr).
  { apply Hl. } { apply batch_bytes_bytes, Hg. }
  cbn [mbind outcome_bind ok status_OK andb]. pose proof (log_ok_add _ _ _ _ _ Hl Hem Hfr Hg) as Hl'.
  assert (concat logs ++ imm_log ++ log_of (groups ++ [(next + 1, ops)]) = writes_of (base + 1) (committed answered ++ ops)) as Hwr'.
  { rewrite log_of_app, log_of_one, writes_of_app, <- Hwr, <- !app_assoc. do 4 f_equal. lia. }
  assert (∃ m, InsertInto u (db_mem_ db) = Ok (status_OK, m) ∧ logged m (log_of (groups ++ [(next + 1, ops)]))) as (m & Em & Hm').
  { rewrite log_of_app, log_of_one. apply InsertInto_ok; [done|done| |apply Hg].
    rewrite <- log_of_one, <- log_of_app. eapply in_order_app_r, in_order_app_r. rewrite Hwr'. apply writes_of_order. }
  destruct sync; cbn [mbind outcome_bind].
  - destruct (Sync_some (dest_ log)) as (s & f & -> & Hw1 & Hs1 & Hk1); [apply Hl'|]. cbn [mbind outcome_bind fst snd].
    assert (log_ok (set_dest log f (block_offset_ log)) (groups ++ [(next + 1, ops)])) as Hl2.
    { destruct Hl' as [[Ho Hc Hk] Hs Hr Hf]. split; cbn; [by split|by rewrite Hw1, Hs1|by rewrite Hw1|done]. }
    assert (emitted (db_log_ db) (set_dest log f (block_offset_ log)) out) as Hem2.
    { destruct Hem as (_ & Hw2 & _). split; [apply Hl2|]. cbn. by rewrite Hw1, Hs1. }
    destruct (ok s) eqn:Es; cbn [negb mbind outcome_bind].
    + rewrite Em. cbn [mbind outcome_bind fst snd]. eexists _, _, _. split; [done|]. split_and!; try done; [by exists out|]. left. split; [done|]. split; [done|]. by split.
    + cbn [mbind outcome_bind fst snd]. eexists _, _, _. split; [done|]. split_and!; try done; [by exists out|]. right. split; [done|]. split; [done|]. by split.
  - rewrite Em. cbn [mbind outcome_bind fst snd]. eexists _, _, _. split; [done|]. split_and!; try done; [by exists out|]. left. split; [done|]. split; [done|]. by split.
Qed.

Lemma answer_group_ok s answered pending db n status logs imm_log groups lost :
  queue_ok s answered pending → db_writers_ db = db_writers_ (sys_db s) → pending ≠ [] →
  let group := take (S n) pending in let answered' := answered ++ map (λ req, (req, status)) group in
  ready (sys_tables s) db logs imm_log groups lost answered' → lost_ok (sys_requests s) lost →
  ∃ answers db', answer_group db (List.last (map req_id group) 0%nat) status = Ok (answers, db') ∧
    invariant (served s Idle answers db').
Proof.
  intros Hq Ew Hne group answered' (Ht & Hl & Hset & Hprev) Hlost. unfold answer_group. rewrite Ew.
  assert (NoDup (map req_id pending)) as Hnd.
  { destruct Hq as [Hr (Hd & _) _ _]. rewrite Hr, map_app in Hd. by apply NoDup_app in Hd as (_ & _ & ?). }
  destruct (pop_group_ok n pending _ status (queue_writers _ _ _ Hq) Hnd Hne) as [E Hall]. fold group in E. rewrite E.
  cbn [mbind outcome_bind fst snd]. eexists _, _. split; [done|]. destruct Hq as [Hr Hf _ Ha].
  exists answered', (drop (S n) pending), logs, imm_log, groups, lost, [].
  split; cbn [served sys_tables sys_db sys_phase sys_requests sys_answers]; [| |done| |done|done].
  - split; cbn [served sys_requests sys_db sys_answers set_writers db_writers_]; [|done|done|].
    + rewrite Hr. unfold answered', group. rewrite map_app, map_map. cbn [fst]. by rewrite map_id, <- app_assoc, take_drop.
    + rewrite Ha. unfold answered'. by rewrite map_app, map_map.
  - destruct Ht as [H1' H2' H3' H4']. by split; rewrite ?app_nil_r in *.
  - cbn [phase_ok]. split; [done|]. done.
Qed.

Lemma committed_group answered group status :
  committed (answered ++ map (λ req, (req, status)) group) = committed answered ++ (if ok status then ops_of group else []).
Proof. by rewrite committed_app, committed_ok. Qed.

Lemma front_room s answered pending logs imm_log groups lost w writers allow_delay force :
  creates_files → 0 ≤ base → queue_ok s answered pending → ready (sys_tables s) (sys_db s) logs imm_log groups lost answered →
  lost_ok (sys_requests s) lost → db_writers_ (sys_db s) = w :: writers →
  ∃ ph answers db, front_step ApproximateMemoryUsage NewWritableFile write_buffer_size (MakingRoom allow_delay force) (sys_db s) =
      Ok (ph, answers, db) ∧ invariant (served s ph answers db).
Proof.
  intros Hnew Hbase Hq Hr Hlost Ew. unfold front_step. rewrite Ew.
  destruct (MakeRoom_ok (sys_tables s) (sys_db s) allow_delay force logs imm_log groups lost answered Hnew Hr) as
    (r & db' & logs' & imm' & groups' & -> & Hr' & Ew' & Hstop); [by rewrite Ew|].
  cbn [mbind outcome_bind fst snd]. pose proof (queue_writers _ _ _ Hq) as Hall. rewrite Ew in Hall.
  inversion Hall as [|req0 ? reqs ? [Hid _ Hb] Hall']; subst. destruct r as [status|a f].
  - destruct (ok status && negb (bool_decide (dbw_batch w = None))) eqn:E.
    + apply andb_true_iff in E as [Es Eb]. apply negb_true_iff, bool_decide_eq_false in Eb. specialize (Hstop _ eq_refl Es).
      destruct Hr' as (Ht & Hl & Hset & Hprev). assert (lost = []) as -> by (destruct Hset as [_ [[? _]|[? _]]]; [done|congruence]).
      rewrite Ew in Ew'. destruct (write_group_ok s answered (req0 :: reqs) logs' imm' groups' db' w writers) as (ph & db2 & -> & Hinv);
        [done|by rewrite Ew|done..|]. cbn [mbind outcome_bind fst snd]. by exists ph, [], db2.
    + destruct (answer_group_ok s answered (req0 :: reqs) db' 0 status logs' imm' groups' lost Hq Ew') as (answers & db2 & Ea & Hinv); [done| |exact Hlost|].
      * cbn [take map]. rewrite take_0. cbn [map]. assert (committed (answered ++ [(req0, status)]) = committed answered) as Ec; [|unfold ready; by rewrite Ec].
        change [(req0, status)] with (map (λ req, (req, status)) [req0]). rewrite committed_group.
        destruct (ok status); [|by rewrite app_nil_r]. cbn in E. apply negb_false_iff, bool_decide_eq_true in E. rewrite E in Hb.
        unfold ops_of. cbn. unfold req_list. destruct (req_ops req0); [done|]. by rewrite app_nil_r.
      * cbn [take map] in Ea. rewrite take_0 in Ea. cbn [map List.last] in Ea. rewrite Hid, Ea. cbn [mbind outcome_bind fst snd]. by exists Idle, answers, db2.
  - exists (MakingRoom a f), [], db'. split; [done|]. exists answered, (req0 :: reqs), logs', imm', groups', lost, [].
    destruct Hr' as (Ht & Hl & Hset & Hprev). split; [by apply queue_ok_db|by rewrite app_nil_r|done..].
Qed.

Lemma working_fits s answered pending u is_tmp last ls group :
  0 ≤ base → queue_ok s answered pending → working_on (sys_db s) pending (base + len (committed answered)) is_tmp last ls group →
  batch_of u (base + len (committed answered) + 1) (ops_of group) → group_fits (base + len (committed answered) + 1, ops_of group).
Proof.
  intros Hbase Hq Hon Hu. destruct (on_group _ _ _ _ _ _ _ Hon) as [n ->]. pose proof (queue_room _ _ _ Hq) as Hroom.
  pose proof (pending_fits _ _ _ Hq) as Hfits. assert (kMaxSequenceNumber < 2 ^ 56) as Hk by done.
  pose proof (batch_seq _ _ _ Hu) as Hseq. pose proof (batch_length _ _ _ Hu).
  rewrite <- (take_drop (S n) pending), ops_of_app, length_app in Hroom. unfold group_fits. cbn [fst snd].
  assert (Forall op_fits (ops_of (take (S n) pending))) as Hops by by apply ops_fit, Forall_take.
  split; [lia|]. split; [done|]. split; [done|]. split; [done|]. apply writes_of_ok; [lia|lia|done].
Qed.

Lemma front_apply s answered pending logs imm_log groups applied lost w writers u is_tmp last ls :
  0 ≤ base → invariant_with s answered pending logs imm_log groups lost applied → sys_phase s = Applying u is_tmp last ls →
  db_writers_ (sys_db s) = w :: writers →
  ∃ ph answers db, front_step ApproximateMemoryUsage NewWritableFile write_buffer_size (sys_phase s) (sys_db s) =
      Ok (ph, answers, db) ∧ invariant (served s ph answers db).
Proof.
  intros Hbase [Hq Ht Hl Hp Hprev Hlost] Eph Ew. rewrite Eph in *. cbn [phase_ok] in Hp.
  destruct Hp as (-> & -> & group & Hon & Hu). rewrite app_nil_r in *. unfold front_step. rewrite Ew.
  pose proof (working_fits _ _ _ _ _ _ _ _ Hbase Hq Hon Hu) as Hg.
  destruct (write_apply_ok (sys_tables s) (sys_db s) logs imm_log groups answered u _ (ops_of group) (dbw_sync w) Ht Hl eq_refl Hu Hg)
    as (st & se & db' & -> & E1 & E2 & E3 & E4 & Hl' & _ & Hres).
  cbn [mbind outcome_bind fst snd]. eexists _, _, _. split; [done|].
  assert (working_on db' pending (base + len (committed answered)) is_tmp last ls group) as Hon'
    by (destruct Hon; split; try done; [by rewrite E2|by rewrite E3]).
  destruct Hres as [(-> & -> & Ht')|(Hst & -> & Ht')].
  - exists answered, pending, logs, imm_log, (groups ++ [(base + len (committed answered) + 1, ops_of group)]), [], (ops_of group).
    split; cbn [served sys_tables sys_db sys_phase]; [by apply queue_ok_db|done|by rewrite app_nil_r| |by rewrite E2|constructor].
    cbn [phase_ok]. exists group. split; [done|]. by left.
  - exists answered, pending, logs, imm_log, groups, [(base + len (committed answered) + 1, ops_of group)], [].
    split; cbn [served sys_tables sys_db sys_phase]; [by apply queue_ok_db|by rewrite app_nil_r|done| |by rewrite E2|].
    + cbn [phase_ok]. exists group. split; [done|]. by right.
    + apply Forall_singleton. exists group. split; [|done]. cbn. rewrite (queue_requests _ _ _ Hq).
      destruct (on_group _ _ _ _ _ _ _ Hon) as [n ->]. intros req Hreq. apply elem_of_app. right.
      rewrite <- (take_drop (S n) pending). apply elem_of_app. by left.
Qed.

Lemma RecordBackgroundError_same (db : DBImpl (F := F)) st :
  let db' := RecordBackgroundError db st in
  db_writers_ db' = db_writers_ db ∧ db_versions_ db' = db_versions_ db ∧ db_log_ db' = db_log_ db ∧ db_mem_ db' = db_mem_ db ∧
  db_imm_ db' = db_imm_ db ∧ db_tmp_batch_ db' = db_tmp_batch_ db ∧ (ok st = false → ok (db_bg_error_ db') = false).
Proof. unfold RecordBackgroundError. by destruct (ok (db_bg_error_ db)) eqn:E. Qed.

Lemma front_publish s answered pending logs imm_log groups applied lost w writers st se is_tmp last ls :
  0 ≤ base → invariant_with s answered pending logs imm_log groups lost applied → sys_phase s = Applied st se is_tmp last ls →
  db_writers_ (sys_db s) = w :: writers →
  ∃ ph answers db, front_step ApproximateMemoryUsage NewWritableFile write_buffer_size (sys_phase s) (sys_db s) =
      Ok (ph, answers, db) ∧ invariant (served s ph answers db).
Proof.
  intros Hbase [Hq Ht Hl Hp Hprev Hlost] Eph Ew. rewrite Eph in *. cbn [phase_ok] in Hp.
  destruct Hp as (group & [[n Hgroup] Hne Hlast Hls Hv Htmp] & Hres). unfold front_step, write_publish. rewrite Ew.
  set (db1 := if se then RecordBackgroundError (sys_db s) st else sys_db s).
  assert (db_writers_ db1 = db_writers_ (sys_db s) ∧ db_versions_ db1 = db_versions_ (sys_db s) ∧ db_log_ db1 = db_log_ (sys_db s) ∧
    db_mem_ db1 = db_mem_ (sys_db s) ∧ db_imm_ db1 = db_imm_ (sys_db s) ∧ db_tmp_batch_ db1 = db_tmp_batch_ (sys_db s) ∧
    (se = true → ok st = false → ok (db_bg_error_ db1) = false)) as (E1 & E2 & E3 & E4 & E5 & E6 & E7)
    by (destruct se; [destruct (RecordBackgroundError_same (sys_db s) st) as (? & ? & ? & ? & ? & ? & ?); by split_and!|by split_and!]).
  set (db2 := if is_tmp then set_tmp_batch db1 new_WriteBatch else db1).
  assert (db_writers_ db2 = db_writers_ (sys_db s) ∧ db_versions_ db2 = db_versions_ (sys_db s) ∧ db_log_ db2 = db_log_ (sys_db s) ∧
    db_mem_ db2 = db_mem_ (sys_db s) ∧ db_imm_ db2 = db_imm_ (sys_db s) ∧ batch_of (db_tmp_batch_ db2) 0 [] ∧
    db_bg_error_ db2 = db_bg_error_ db1) as (F1 & F2 & F3 & F4 & F5 & F6 & F7).
  { unfold db2. destruct is_tmp; cbn; [by split_and!; try apply batch_new|split_and!; try done]. rewrite E6. by apply Htmp. }
  unfold SetLastSequence. rewrite F2, Hv, Hls. rewrite (proj2 (Z.leb_le _ _)) by lia. cbn [require mbind outcome_bind].
  set (db3 := set_versions db2 _).
  destruct (answer_group_ok s answered pending db3 n st logs imm_log groups lost Hq) as (answers & db4 & Ea & Hinv); [done|done| |exact Hlost|].
  - unfold ready. rewrite <- Hgroup, committed_group. destruct Ht as [Ht1 Ht2 Ht3 Ht4].
    assert (applied = if ok st then ops_of group else []) as Happ by (destruct Hres as [(-> & _ & -> & _)|(-> & _ & -> & _)]; done).
    rewrite <- Happ. split; [|split; [|split]].
    + split; unfold db3; cbn [set_versions db_imm_ db_mem_]; rewrite ?F4, ?F5; done.
    + unfold db3. cbn [set_versions db_log_]. by rewrite F3.
    + split; [done|]. unfold db3. cbn [set_versions db_versions_ last_sequence_ db_bg_error_]. rewrite F7, Happ.
      destruct Hres as [(-> & _ & _ & ->)|(Hst & -> & _ & ->)]; [left|right]; cbn [ok status_OK].
      * split; [done|]. rewrite length_app. lia.
      * rewrite Hst, app_nil_r. split; [by apply E7|]. split; [|by eexists]. pose proof (queue_room _ _ _ Hq) as Hroom.
        rewrite <- (take_drop (S n) pending), ops_of_app, length_app, <- Hgroup in Hroom. lia.
    + exact Hprev.
  - rewrite Hlast, Hgroup. rewrite Ea. cbn [mbind outcome_bind fst snd]. by exists Idle, answers, db4.
Qed.

(** The front can always go on, and all stays well. *)
Lemma front_ok s :
  creates_files → 0 ≤ base → invariant s → db_writers_ (sys_db s) ≠ [] →
  ∃ ph answers db, front_step ApproximateMemoryUsage NewWritableFile write_buffer_size (sys_phase s) (sys_db s) =
      Ok (ph, answers, db) ∧ invariant (served s ph answers db).
Proof.
  intros Hnew Hbase (answered & pending & logs & imm_log & groups & lost & applied & Hinv) Hne.
  destruct (db_writers_ (sys_db s)) as [|w writers] eqn:Ew; [done|]. pose proof Hinv as [Hq Ht Hl Hp Hprev Hlost].
  destruct (sys_phase s) as [|a f|u t last ls|st se t last ls] eqn:Eph; cbn [phase_ok] in Hp.
  - destruct Hp as [-> Hset]. unfold front_step. rewrite Ew. eexists _, _, _. split; [done|].
    exists answered, pending, logs, imm_log, groups, lost, []. split; [by apply queue_ok_db|done|done| |done|done].
    cbn [served sys_phase sys_db phase_ok]. split; [|done]. pose proof (queue_writers _ _ _ Hq) as Hall. rewrite Ew in Hall.
    by inversion Hall.
  - destruct Hp as (_ & -> & Hset). rewrite app_nil_r in Ht. eapply (front_room s answered pending); [done|done|done| |exact Hlost|done]. by split_and!.
  - rewrite <- Eph. by eapply front_apply.
  - rewrite <- Eph. by eapply front_publish.
Qed.

Lemma front_writers ph db r :
  front_step ApproximateMemoryUsage NewWritableFile write_buffer_size ph db = Ok r → db_writers_ db ≠ [].
Proof. unfold front_step. by destruct (db_writers_ db). Qed.

Lemma step_ok s s' :
  creates_files → 0 ≤ base → step ApproximateMemoryUsage NewWritableFile write_buffer_size requests_ok s s' → invariant s → invariant s'.
Proof.
  intros Hnew Hbase Hstep Hinv. destruct Hstep as [s req w Hgood Hfill|s ph answers db Hf|s m Hm|s e He|s next level0].
  - by apply enter_ok.
  - destruct (front_ok s Hnew Hbase Hinv (front_writers _ _ _ Hf)) as (ph' & answers' & db' & E & Hinv').
    rewrite Hf in E. by injection E as <- <- <-.
  - by apply compacted_ok.
  - by apply compaction_failed_ok.
  - by apply files_changed_ok.
Qed.

(** A database that was just opened: an empty table and an empty log. *)
Record opened (db : DBImpl (F := F)) : Prop := {
  opened_mem : logged (db_mem_ db) [];
  opened_imm : db_imm_ db = None;
  opened_log : writer_ok (db_log_ db) ∧ written (dest_ (db_log_ db)) = [] ∧ stored (dest_ (db_log_ db)) = [] ∧ block_offset_ (db_log_ db) = 0;
  opened_tmp : db_tmp_batch_ db = new_WriteBatch;
  opened_writers : db_writers_ db = [];
  opened_sequence : last_sequence_ (db_versions_ db) = base;
  opened_prev : prev_log_number_ (db_versions_ db) = 0
}.

Definition start (db : DBImpl (F := F)) : system :=
  {| sys_db := db; sys_phase := Idle; sys_tables := []; sys_requests := []; sys_answers := [] |}.

Lemma start_ok db : opened db → base ≤ kMaxSequenceNumber → invariant (start db).
Proof.
  intros [Hm Hi (Hw & Hwr & Hst & Hoff) Htmp Hwr' Hseq Hprev] Hmax. exists [], [], [], [], [], [], [].
  split; cbn [start sys_db sys_phase sys_tables].
  - split; cbn; [done| |by rewrite Hwr'|done]. split; [constructor|]. split; [constructor|]. cbn. lia.
  - split; cbn; [constructor|by rewrite Hi|done|done].
  - split; [done|by rewrite Hst, Hwr|cbn; rewrite Hwr, Hoff; constructor|constructor].
  - cbn [phase_ok]. split; [done|]. split; [rewrite Htmp; apply batch_new|]. left. split; [done|]. cbn. lia.
  - exact Hprev.
  - constructor.
Qed.

Lemma reachable_ok db s :
  creates_files → 0 ≤ base ≤ kMaxSequenceNumber → opened db →
  rtc (step ApproximateMemoryUsage NewWritableFile write_buffer_size requests_ok) (start db) s → invariant s.
Proof.
  intros Hnew Hbase Ho Hr. assert (∀ s0, invariant s0 → rtc (step ApproximateMemoryUsage NewWritableFile write_buffer_size requests_ok) s0 s → invariant s) as Hgo.
  { intros s0 Hs0 Hsteps. clear Hr. induction Hsteps as [|s1 s2 s3 Hstep _ IH]; [done|]. apply IH. eapply step_ok; [exact Hnew|lia|exact Hstep|exact Hs0]. }
  eapply Hgo; [|exact Hr]. apply start_ok; [done|lia].
Qed.
End serves.

(** The tables in memory, oldest first: those that were written to files, the one that is
    being written, the current one. *)
Definition memtables {F : Type} `{WritableFile F} (s : system (F := F)) : list MemTable :=
  sys_tables s ++ option_list (db_imm_ (sys_db s)) ++ [db_mem_ (sys_db s)].

(** What of the calls that wait is in the tables: nothing, or the group that is being answered. *)
Definition in_progress (ph : phase) (pending : list request) (applied : list batch_op) : Prop :=
  applied = [] ∨ ∃ status sync_error is_tmp last_writer last_sequence n,
    ph = Applied status sync_error is_tmp last_writer last_sequence ∧ applied = ops_of (take n pending).

Lemma memtables_hold `{ComparatorLaws} `{Memory} `{WritableFileLaws F} base (s : system (F := F)) answered pending logs imm_log groups lost applied :
  invariant_with base s answered pending logs imm_log groups lost applied →
  ∃ all, Forall2 logged (memtables s) all ∧ concat all = writes_of (base + 1) (committed answered ++ applied).
Proof.
  intros [_ [Ht Hi Hm Hw] _ _ _ _].
  exists (logs ++ (match db_imm_ (sys_db s) with None => [] | Some _ => [imm_log] end) ++ [log_of groups]). split.
  - unfold memtables. apply Forall2_app; [done|]. apply Forall2_app; [|by constructor]. destruct (db_imm_ (sys_db s)); by constructor.
  - rewrite <- Hw, !concat_app. cbn [concat]. rewrite app_nil_r. do 2 f_equal. destruct (db_imm_ (sys_db s)); cbn; [by rewrite app_nil_r|done].
Qed.

(** ** Properties *)

(** C20: the queue of writers serves every call once and in order. However the calls of
    [Write] - each with a batch that was filled with any operations, or none - interleave
    with the one at the front, with compactions that succeed or fail and with syncs that
    fail: the answers are those of the calls that came first, in that order; the tables in
    memory, oldest first, hold the operations of exactly those that were answered with OK,
    numbered one after the other from the number that the database was opened with, and
    besides at most those of the group that is about to be answered; and as long as a call
    waits the front can go on, no assertion failing. *)
Theorem Write_serves `{ComparatorLaws} `{Memory} `{WritableFileLaws F} usage (create : Z → F → Status * F) buffer_size base db s :
  creates_files create → 0 ≤ base ≤ kMaxSequenceNumber → opened base db →
  rtc (step usage create buffer_size (requests_ok base)) (start db) s →
  ∃ answered pending applied logs,
    sys_requests s = map fst answered ++ pending ∧ sys_answers s = map answer_of answered ∧
    in_progress (sys_phase s) pending applied ∧
    Forall2 logged (memtables s) logs ∧ concat logs = writes_of (base + 1) (committed answered ++ applied) ∧
    (pending ≠ [] → ∃ r, front_step usage create buffer_size (sys_phase s) (sys_db s) = Ok r).
Proof.
  intros Hnew Hbase Ho Hr. pose proof (reachable_ok usage create buffer_size base db s Hnew Hbase Ho Hr) as Hinv.
  pose proof Hinv as (answered & pending & logs & imm_log & groups & lost & applied & Hw).
  destruct (memtables_hold _ _ _ _ _ _ _ _ _ Hw) as (all & Hall & Hcat). destruct Hw as [Hq _ _ Hp _ _].
  exists answered, pending, applied, all. split; [apply Hq|]. split; [apply Hq|]. split_and!; [|done|done|].
  - unfold in_progress. destruct (sys_phase s) as [| |u t l n|st e t l n]; cbn [phase_ok] in Hp; [left; apply Hp|left; apply Hp|left; apply Hp|].
    destruct Hp as (group & [[k Hg] _ _ _ _ _] & [(_ & _ & -> & _)|(_ & _ & -> & _)]); [right|by left].
    exists st, e, t, l, n, (S k). by rewrite Hg.
  - intros Hne. destruct (front_ok usage create buffer_size base s Hnew ltac:(lia) Hinv) as (ph & answers & db' & E & _); [|by eexists].
    pose proof (queue_writers _ _ _ _ Hq) as Hall'. intros E. rewrite E in Hall'. by inversion Hall'; subst.
Qed.

(** A run from a list of what happens. *)
Inductive event : Type := Call (req : request) | Front.

Definition calls (events : list event) : list request := flat_map (λ e, match e with Call req => [req] | Front => [] end) events.

Fixpoint run {F} `{Comparator} `{Memory} `{WritableFile F} usage (create : Z → F → Status * F) buffer_size
    (events : list event) (s : system (F := F)) : outcome system :=
  match events with
  | [] => Ok s
  | Call req :: events => w ← fill req; run usage create buffer_size events (enter s req w)
  | Front :: events =>
      r ← front_step usage create buffer_size (sys_phase s) (sys_db s);
      run usage create buffer_size events (served s r.1.1 r.1.2 r.2)
  end.

Lemma run_steps `{ComparatorLaws} `{Memory} `{WritableFileLaws F} usage (create : Z → F → Status * F) buffer_size base events s s' :
  requests_ok base (sys_requests s ++ calls events) →
  run usage create buffer_size events s = Ok s' → rtc (step usage create buffer_size (requests_ok base)) s s'.
Proof.
  revert s. induction events as [|[req|] events IH]; intros s Hok; cbn [run calls flat_map].
  - by intros [= <-].
  - destruct (fill req) as [w| |] eqn:Ef; try done. cbn [mbind outcome_bind]. intros Hrun. cbn [calls flat_map] in Hok. rewrite app_assoc in Hok.
    eapply rtc_l; [apply (step_enter _ _ _ _ s req w); [|exact Ef]|by apply IH].
    destruct Hok as (Hd & Hf & Hmax). rewrite map_app in Hd. rewrite ops_of_app, length_app in Hmax.
    apply NoDup_app in Hd as (Hd & _ & _). apply Forall_app in Hf as [Hf _]. split; [done|]. split; [done|]. lia.
  - destruct (front_step _ _ _ _ _) as [[[ph answers] db]| |] eqn:Ef; try done. cbn [mbind outcome_bind fst snd]. intros Hrun.
    eapply rtc_l; [by apply step_front|]. by apply IH.
Qed.

#[local] Existing Instance zero_memory.

(** A file for any number. *)
Definition sample_create (n : Z) (_ : PosixWritableFile * kernel) : Status * (PosixWritableFile * kernel) :=
  (status_OK, (new_PosixWritableFile (text "000004.log") 5, empty_disk)).

Definition sample_db : outcome (DBImpl (F := PosixWritableFile * kernel)) :=
  log ← new_Writer LdbLog.sample_log 0;
  Ok {| db_mem_ := new_MemTable; db_imm_ := None; db_log_ := log; db_logfile_number_ := 3; db_tmp_batch_ := new_WriteBatch;
        db_bg_error_ := status_OK;
        db_versions_ := {| last_sequence_ := 7; next_file_number_ := 4; prev_log_number_ := 0; level0_files := 0 |};
        db_writers_ := [] |}.

(** Three calls, of which the first makes a group with the second; the third wants to be synced. *)
Definition sample_events : list event :=
  [Call {| req_id := 1; req_ops := Some [op_Put [107] [118]]; req_sync := false |};
   Call {| req_id := 2; req_ops := Some [op_Delete [107]; op_Put [97] [1; 2]]; req_sync := false |};
   Call {| req_id := 3; req_ops := Some [op_Put [98] []]; req_sync := true |};
   Front; Front; Front; Front].
Lemma sample_end :
  (db ← sample_db; s ← run (λ _, 0) sample_create 4096 sample_events (start db); 
   Ok (sys_requests s, sys_answers s, sys_phase s, len (stored (dest_ (db_log_ (sys_db s)))), length (sys_tables s))) =
  Ok (calls sample_events, [(1%nat, status_OK); (2%nat, status_OK)], Idle, 33, 0%nat).
Proof. by vm_compute. Qed.

Lemma sample_run : ∃ db s, sample_db = Ok db ∧ run (λ _, 0) sample_create 4096 sample_events (start db) = Ok s ∧
  sys_requests s = calls sample_events ∧ sys_answers s = [(1%nat, status_OK); (2%nat, status_OK)] ∧ sys_phase s = Idle ∧
  len (stored (dest_ (db_log_ (sys_db s)))) = 33 ∧ sys_tables s = [].
Proof.
  pose proof sample_end as Hend. destruct sample_db as [db| |]; [|discriminate Hend..]. exists db. cbn [mbind outcome_bind] in Hend.
  destruct (run _ _ _ _ _) as [s| |]; [|discriminate Hend..]. exists s. cbn [mbind outcome_bind] in Hend.
  injection Hend as H1 H2 H3 H4 H5. apply nil_length_inv in H5. by split_and!.
Qed.

Lemma sample_requests : requests_ok 7 (calls sample_events).
Proof.
  split; [by apply (bool_decide_unpack _); vm_compute|]. split; [|by vm_compute].
  repeat (apply Forall_cons_2 || apply Forall_nil_2); (split; [|by vm_compute]);
    repeat (apply Forall_cons_2 || apply Forall_nil_2); cbn [op_fits]; split_and!; try (by vm_compute); by repeat constructor.
Qed.

Lemma sample_opened db : sample_db = Ok db → opened 7 db.
Proof. intros Edb. vm_compute in Edb. injection Edb as <-. split; first [done|exact logged_new]. Qed.

Lemma sample_creates : creates_files sample_create.
Proof. intros n f st lfile [= <- <-] _. split; [|done]. by split. Qed.

Lemma Write_serves_witness :
  ∃ db s, sample_db = Ok db ∧
    rtc (step (λ _, 0) sample_create 4096 (requests_ok 7)) (start db) s ∧
    sys_answers s = [(1%nat, status_OK); (2%nat, status_OK)] ∧
    ∃ logs, Forall2 logged (memtables s) logs ∧
      concat logs = writes_of 8 [op_Put [107] [118]; op_Delete [107]; op_Put [97] [1; 2]].
Proof.
  destruct sample_run as (db & s & Edb & Erun & Hreqs & Hans & Hph & _).
  pose proof (run_steps (λ _, 0) sample_create 4096 7 sample_events (start db) s sample_requests Erun) as Hsteps.
  destruct (Write_serves (λ _, 0) sample_create 4096 7 db s) as (answered & pending & applied & logs & Hreq & Hans' & Hprog & Hlogs & Hcat & _).
  - exact sample_creates.
  - split; by vm_compute.
  - by apply sample_opened.
  - exact Hsteps.
  - exists db, s. split; [done|]. split; [exact Hsteps|]. split; [exact Hans|]. exists logs. split; [exact Hlogs|].
    destruct Hprog as [->|(? & ? & ? & ? & ? & ? & E & _)]; [|discriminate (eq_trans (eq_sym Hph) E)].
    rewrite Hcat. apply (eq_trans (eq_sym Hans)) in Hans'. apply (eq_trans (eq_sym Hreqs)) in Hreq.
    destruct answered as [|[r1 a1] [|[r2 a2] [|]]]; [discriminate..| |discriminate].
    injection Hans' as _ <- _ <-. injection Hreq as <- <- _. reflexivity.
Defined.
