(* ===== verification/LdbRecover.v ===== *)
(** * LevelDB, db/db_impl: recovery

    A log is read into tables in memory, those that grow too large being written to files.
    What comes back are the groups whose records are complete, whatever is behind them; a log
    that is used again behind a torn record loses what is written next. *)

From S2P Require Import Prelude LdbCoding LdbOrder LdbFormat LdbSkip LdbCrc LdbEnv LdbLog LdbMem LdbWrite.

(** [WriteLevel0Table]: a table in memory is written to a file, which the state remembers. *)
Class Level0 (T : Type) : Type := { WriteLevel0Table : MemTable → T → outcome (Status * T) }.

(** It succeeds, and the files hold the tables in the order they were written. *)
Class Level0Laws (T : Type) `{Level0 T} : Type := {
  level0_tables : T → list MemTable;
  WriteLevel0Table_ok m t : ∃ t', WriteLevel0Table m t = Ok (status_OK, t') ∧ level0_tables t' = level0_tables t ++ [m]
}.

Section recover.
Context `{user_comparator : Comparator} `{Memory} {G : Type} `{SequentialFile G} {F : Type} `{WritableFile F} {T : Type} `{Level0 T}.

(** The memory of a table, and of the options [write_buffer_size], [paranoid_checks] and [reuse_logs]. *)
Context (ApproximateMemoryUsage : MemTable → Z) (write_buffer_size : Z) (paranoid_checks reuse_logs : bool).

Definition MaybeIgnoreError (s : Status) : Status := if ok s || paranoid_checks then s else status_OK.

(** [LogReporter::Corruption]: the first error is kept, when errors matter. *)
Definition reporter_Corruption (status s : Status) : Status := if paranoid_checks && ok status then s else status.

(** What the loop changes besides the reader and the status; [rc_tables] is the state of the files. *)
Record Recovery : Type := {
  rc_mem : option MemTable; rc_compactions : Z; rc_save_manifest : bool; rc_max_sequence : Z; rc_tables : T
}.

Definition set_rc_mem (st : Recovery) (mem : option MemTable) : Recovery :=
  {| rc_mem := mem; rc_compactions := rc_compactions st; rc_save_manifest := rc_save_manifest st;
     rc_max_sequence := rc_max_sequence st; rc_tables := rc_tables st |}.

(** [if (last_seq > *max_sequence) *max_sequence = last_seq;] *)
Definition raise_sequence (st : Recovery) (last_seq : Z) : Recovery :=
  {| rc_mem := rc_mem st; rc_compactions := rc_compactions st; rc_save_manifest := rc_save_manifest st;
     rc_max_sequence := if rc_max_sequence st <? last_seq then last_seq else rc_max_sequence st; rc_tables := rc_tables st |}.

(** [*save_manifest = true; status = WriteLevel0Table(mem, edit, nullptr); mem->Unref();] *)
Definition flush_table (st : Recovery) (mem : MemTable) : outcome (Status * Recovery) :=
  w ← WriteLevel0Table mem (rc_tables st);
  _ ← MemTable_Unref mem;
  Ok (w.1, {| rc_mem := None; rc_compactions := rc_compactions st; rc_save_manifest := true;
              rc_max_sequence := rc_max_sequence st; rc_tables := w.2 |}).

Definition count_compaction (st : Recovery) : outcome Recovery :=
  n ← int_result (rc_compactions st + 1);
  Ok {| rc_mem := rc_mem st; rc_compactions := n; rc_save_manifest := rc_save_manifest st;
        rc_max_sequence := rc_max_sequence st; rc_tables := rc_tables st |}.

(** The loop body for one record: whether to leave the loop. *)
Definition recover_record (record : Slice) (status : Status) (st : Recovery) : outcome (bool * Status * Recovery) :=
  if len record <? 12 then Ok (false, reporter_Corruption status (Corruption (text "log record too small") []), st)
  else
    batch ← SetContents new_WriteBatch record;
    mem ← (match rc_mem st with Some mem => Ok mem | None => MemTable_Ref new_MemTable end);
    i ← InsertInto batch mem;
    let st := set_rc_mem st (Some i.2) in
    let status := MaybeIgnoreError i.1 in
    if negb (ok status) then Ok (true, status, st)
    else
      seq ← Sequence batch;
      n ← Count batch;
      let st := raise_sequence st (u64 (u64 (seq + n) - 1)) in
      if write_buffer_size <? ApproximateMemoryUsage i.2 then
        st ← count_compaction st;
        w ← flush_table st i.2;
        Ok (negb (ok w.1), w.1, w.2)
      else Ok (false, status, st).

Definition reports (r : Reader G) : list Status := map snd (default [] (reporter_ r)).

Fixpoint recover_loop (rounds fuel : nat) (r : Reader G) (record : Slice) (scratch : list Z) (status : Status) (st : Recovery) :
    outcome (Status * Recovery) :=
  match rounds with
  | O => Fault Diverges
  | S rounds =>
      x ← ReadRecord fuel (set_reporter r (Some [])) record scratch;
      let '(found, record, scratch, r) := x in
      let status := fold_left reporter_Corruption (reports r) status in
      if (found : bool) && ok status then
        y ← recover_record record status st;
        if y.1.1 : bool then Ok (y.1.2, y.2) else recover_loop rounds fuel r record scratch y.1.2 y.2
      else Ok (status, st)
  end.

(** What becomes of the last table: the log may be used again with it, with [reused] the
    file opened for appending and its size if that succeeds; otherwise it is written to a file. *)
Definition finish_recovery (status : Status) (last_log : bool) (reused : option (F * Z)) (st : Recovery) :
    outcome (Status * Recovery * option (Writer F * MemTable)) :=
  kept ← (match reused with
          | Some (logfile, lfile_size) =>
              if ok status && reuse_logs && last_log && (rc_compactions st =? 0) then
                log ← new_Writer logfile lfile_size;
                mem ← (match rc_mem st with Some mem => Ok mem | None => MemTable_Ref new_MemTable end);
                Ok (Some (log, mem))
              else Ok None
          | None => Ok None
          end);
  match kept with
  | Some k => Ok (status, set_rc_mem st None, Some k)
  | None =>
      match rc_mem st with
      | None => Ok (status, st, None)
      | Some mem =>
          if ok status then w ← flush_table st mem; Ok (w.1, w.2, None)
          else _ ← MemTable_Unref mem; Ok (status, set_rc_mem st None, None)
      end
  end.

(** [opened] is what [NewSequentialFile] returns; [rounds] and [fuel] bound the reading. *)
Definition RecoverLogFile (rounds fuel : nat) (opened : Status * G) (last_log : bool) (reused : option (F * Z))
    (save_manifest : bool) (max_sequence : Z) (tables : T) : outcome (Status * Recovery * option (Writer F * MemTable)) :=
  let st := {| rc_mem := None; rc_compactions := 0; rc_save_manifest := save_manifest;
               rc_max_sequence := max_sequence; rc_tables := tables |} in
  if negb (ok opened.1) then Ok (MaybeIgnoreError opened.1, st, None)
  else
    r ← recover_loop rounds fuel (new_Reader opened.2 (Some []) true 0) [] [] status_OK st;
    finish_recovery r.1 last_log reused r.2.

End recover.
Arguments Recovery T : clear implicits.

(** ** Tables keep their references *)

Section refs.
Context `{Comparator}.

Lemma MemTable_Add_refs m s t key value m' : MemTable_Add m s t key value = Ok m' → refs_ m' = refs_ m.
Proof.
  unfold MemTable_Add. destruct (require _ _); [|done..]. cbn [mbind outcome_bind].
  destruct (Insert _ _); [|done..]. cbn [mbind outcome_bind]. by intros [= <-].
Qed.

Lemma inserter_add_refs x t key value x' : inserter_add x t key value = Ok x' → refs_ (mem_ x') = refs_ (mem_ x).
Proof.
  unfold inserter_add. destruct (MemTable_Add _ _ _ _ _) as [m| |] eqn:E; [|done..]. cbn [mbind outcome_bind].
  intros [= <-]. by apply MemTable_Add_refs in E.
Qed.

Lemma replay_refs ops x x' : replay ops x = Ok x' → refs_ (mem_ x') = refs_ (mem_ x).
Proof.
  revert x. induction ops as [|op ops IH]; intros x; cbn [replay]; [by intros [= ->]|].
  destruct (replay_op x op) as [x1| |] eqn:E; [|done..]. cbn [mbind outcome_bind]. intros Hr. rewrite (IH _ Hr).
  destruct op; by apply inserter_add_refs in E.
Qed.

Lemma InsertInto_refs b seq ops m st m' : batch_of b seq ops → InsertInto b m = Ok (st, m') → refs_ m' = refs_ m.
Proof.
  intros Hb. unfold InsertInto. rewrite (Sequence_ok _ _ _ Hb). cbn [mbind outcome_bind]. rewrite (Iterate_ok _ _ _ _ Hb).
  destruct (replay ops _) as [x| |] eqn:E; [|done..]. cbn [mbind outcome_bind fst snd]. intros [= <- <-].
  by apply replay_refs in E.
Qed.

End refs.

(** ** One record *)

Section recovers.
Context `{ComparatorLaws} `{Memory} {G : Type} `{SequentialFileLaws G} {F : Type} `{WritableFileLaws F} {T : Type} `{Level0Laws T}.
Context (usage : MemTable → Z) (buffer_size : Z) (paranoid reuse : bool).

(** The files and the table in memory hold a log. *)
Definition tables_hold (ms : list MemTable) (log : list write) : Prop := ∃ logs, Forall2 logged ms logs ∧ concat logs = log.

(** From tables with [old], and [max0] as the largest sequence number, [log] was recovered. *)
Record holding (old : list write) (max0 : Z) (st : Recovery T) (log : list write) : Prop := {
  holding_tables : tables_hold (level0_tables (rc_tables st) ++ option_list (rc_mem st)) (old ++ log);
  holding_refs : ∀ m, rc_mem st = Some m → refs_ m = 1;
  holding_sequence : Forall (λ w, w_seq w ≤ rc_max_sequence st) log;
  holding_max : max0 ≤ rc_max_sequence st
}.

Lemma tables_hold_snoc ms m log : tables_hold (ms ++ [m]) log → ∃ log1 log2, tables_hold ms log1 ∧ logged m log2 ∧ log = log1 ++ log2.
Proof.
  intros (logs & Hall & <-). apply Forall2_app_inv_l in Hall as (l1 & l2 & Hall1 & Hall2 & ->).
  inversion Hall2 as [|? log2 ? ? Hm Hnil]; subst. inversion Hnil; subst. exists (concat l1), log2.
  split; [by exists l1|]. split; [done|]. by rewrite concat_app; cbn; rewrite app_nil_r.
Qed.

Lemma tables_hold_add ms m log1 log2 : tables_hold ms log1 → logged m log2 → tables_hold (ms ++ [m]) (log1 ++ log2).
Proof.
  intros (logs & Hall & <-) Hm. exists (logs ++ [log2]). split; [by apply Forall2_app; [|constructor]|].
  rewrite concat_app. cbn. by rewrite app_nil_r.
Qed.

Lemma new_table_ok : ∃ m, MemTable_Ref new_MemTable = Ok m ∧ logged m [] ∧ refs_ m = 1.
Proof. eexists. split; [reflexivity|]. split; [apply logged_new|done]. Qed.

(** The table that the record goes to: the one at hand or a new one. *)
Lemma current_table old max0 st log :
  holding old max0 st log →
  ∃ m log1 log2, match rc_mem st with Some mem => Ok mem | None => MemTable_Ref new_MemTable end = Ok m ∧
    tables_hold (level0_tables (rc_tables st)) log1 ∧ logged m log2 ∧ refs_ m = 1 ∧ old ++ log = log1 ++ log2.
Proof.
  intros [Ht Hr _ _]. destruct (rc_mem st) as [m|]; cbn [option_list] in Ht.
  - apply tables_hold_snoc in Ht as (log1 & log2 & H1' & H2' & E). exists m, log1, log2. by rewrite (Hr m eq_refl).
  - destruct new_table_ok as (m & E & Hm & Hm1). rewrite app_nil_r in Ht. exists m, (old ++ log), []. by rewrite app_nil_r.
Qed.

Lemma record_bytes groups : Forall group_fits groups → Forall bytes (map record_of groups).
Proof.
  intros Hf. apply Forall_map. eapply Forall_impl; [exact Hf|]. intros g (_ & _ & _ & Hops & _). by apply batch_bytes_bytes.
Qed.

Lemma record_batch g : group_fits g → batch_of {| wb_rep := record_of g |} g.1 g.2.
Proof.
  intros (_ & Hs & Hl & Hf & _). split; [done|done|done|]. eapply Forall_impl; [exact Hf|]. apply fits_op_ok.
Qed.

Lemma flush_table_ok st mem :
  refs_ mem = 1 →
  ∃ t', flush_table st mem = Ok (status_OK, {| rc_mem := None; rc_compactions := rc_compactions st; rc_save_manifest := true;
      rc_max_sequence := rc_max_sequence st; rc_tables := t' |}) ∧ level0_tables t' = level0_tables (rc_tables st) ++ [mem].
Proof.
  intros Hr. unfold flush_table. destruct (WriteLevel0Table_ok mem (rc_tables st)) as (t' & -> & Ht). cbn [mbind outcome_bind].
  unfold MemTable_Unref. rewrite Hr. cbn. by exists t'.
Qed.

Lemma group_numbers g : group_fits g → Forall (λ w, w_seq w ≤ u64 (u64 (g.1 + len g.2) - 1)) (writes_of g.1 g.2).
Proof.
  intros (H1' & Hs & Hl & _ & Hok). apply List.Forall_forall. intros w Hw%list_elem_of_In.
  assert (g.1 + len g.2 - 1 ≤ kMaxSequenceNumber) as Hmax.
  { destruct (g.2) as [|op ops] eqn:E using rev_ind; [by apply not_elem_of_nil in Hw|].
    rewrite writes_of_app in Hok. apply Forall_app in Hok as [_ Hok]. cbn [writes_of] in Hok. apply Forall_cons in Hok as [Hok _].
    destruct Hok as (_ & Hsq & _). rewrite length_app. cbn [length]. destruct op; cbn [write_of w_seq] in Hsq; lia. }
  apply writes_of_seq in Hw. assert (kMaxSequenceNumber < 2 ^ 56) as Hk by done.
  rewrite (wrap_small 64 (g.1 + _)) by (unfold in_width; lia). rewrite wrap_small by (unfold in_width; lia). lia.
Qed.

Lemma raise_sequence_max (st : Recovery T) n : rc_max_sequence (raise_sequence st n) = Z.max (rc_max_sequence st) n.
Proof. cbn. destruct (Z.ltb_spec (rc_max_sequence st) n); lia. Qed.

Lemma recover_record_ok old max0 g st log :
  group_fits g → holding old max0 st log → in_order ((old ++ log) ++ writes_of g.1 g.2) → 0 ≤ rc_compactions st < 2 ^ 31 - 1 →
  ∃ st', recover_record usage buffer_size paranoid (record_of g) status_OK st = Ok (false, status_OK, st') ∧
    holding old max0 st' (log ++ writes_of g.1 g.2) ∧ rc_compactions st ≤ rc_compactions st' ≤ rc_compactions st + 1.
Proof.
  intros Hg Hst Hord Hc. pose proof (record_batch g Hg) as Hb. unfold recover_record, record_of, SetContents, kHeader.
  rewrite length_batch. rewrite (proj2 (Z.ltb_ge _ _)), (proj2 (Z.leb_le _ _)) by lia. cbn [require mbind outcome_bind].
  change (batch_bytes g.1 (len g.2) g.2) with (record_of g).
  destruct (current_table old max0 st log Hst) as (m & log1 & log2 & -> & Htab & Hm & Hr & Elog). cbn [mbind outcome_bind].
  destruct (InsertInto_ok _ g.1 g.2 m log2 Hb Hm) as (m' & Ei & Hm').
  { rewrite Elog, <- app_assoc in Hord. by apply in_order_app_r in Hord. } { apply Hg. }
  pose proof (InsertInto_refs _ _ _ _ _ _ Hb Ei) as Hr'. rewrite Hr in Hr'.
  rewrite Ei. cbn [mbind outcome_bind fst snd]. unfold MaybeIgnoreError. cbn [ok status_OK orb negb].
  rewrite (Sequence_ok _ _ _ Hb), (Count_ok _ _ _ Hb). cbn [mbind outcome_bind].
  set (last_seq := u64 (u64 (g.1 + len g.2) - 1)). set (st1 := raise_sequence (set_rc_mem st (Some m')) last_seq).
  assert (Forall (λ w, w_seq w ≤ rc_max_sequence st1) (log ++ writes_of g.1 g.2) ∧ max0 ≤ rc_max_sequence st1) as [Hseq Hmax].
  { unfold st1. rewrite raise_sequence_max. split; [|pose proof (holding_max _ _ _ _ Hst); cbn [rc_max_sequence set_rc_mem]; lia].
    apply Forall_app_2; (eapply Forall_impl; [first [apply Hst|exact (group_numbers g Hg)]|]);
      intros w; cbn [rc_max_sequence set_rc_mem]; fold last_seq; lia. }
  assert (old ++ log ++ writes_of g.1 g.2 = log1 ++ log2 ++ writes_of g.1 g.2) as Eall by (by rewrite !app_assoc, Elog).
  destruct (buffer_size <? usage m').
  - unfold count_compaction. rewrite int_result_ok by (unfold st1; cbn; lia). cbn [mbind outcome_bind].
    set (st2 := {| rc_mem := rc_mem st1; rc_compactions := rc_compactions st1 + 1; rc_save_manifest := rc_save_manifest st1;
        rc_max_sequence := rc_max_sequence st1; rc_tables := rc_tables st1 |}).
    destruct (flush_table_ok st2 m' Hr') as (t' & -> & Ht'). cbn [mbind outcome_bind fst snd ok status_OK negb].
    eexists. split; [done|]. split; [|cbn; lia]. split; cbn; [|done|exact Hseq|exact Hmax].
    rewrite app_nil_r, Ht', Eall. by apply tables_hold_add.
  - exists st1. split; [done|]. split; [|cbn; lia]. split; [|by intros ? [= <-]|exact Hseq|exact Hmax].
    rewrite Eall. by apply tables_hold_add.
Qed.

(** ** The loop *)

Lemma aligned_reporter (r : Reader G) off rest x : aligned r off rest → aligned (set_reporter r x) off rest.
Proof. intros [Hb Hr Ho Hs Hp He]. by split. Qed.

(** A log that has no further record: the reader says so, and reports nothing that matters. *)
Definition ends_quietly (off : Z) (rest : list Z) : Prop :=
  ∀ fuel (r : Reader G), aligned r off rest → reporter_ r = Some [] → checksum_ r = true → (length rest < fuel)%nat →
  ∃ s r', ReadRecord_loop fuel r [] false 0 [] = Ok (false, [], s, r') ∧
    fold_left (reporter_Corruption paranoid) (reports r') status_OK = status_OK.

(** As when it ends within a record, or at the end of one. *)
Lemma cut_quietly off next more off2 part :
  fragments true off next more off2 → part `prefix_of` more → (length part < length more)%nat → ends_quietly off part.
Proof.
  intros Hn Hp Hpl fuel r Ha Hrep _ Hfuel.
  edestruct (read_cut _ _ _ _ _ Hn fuel r part [] 0 []) as (s & r' & E & Hr'); [done..|by left|done|].
  exists s, r'. split; [exact E|]. unfold reports. by rewrite Hr', Hrep.
Qed.

Lemma in_order_app_l a b : in_order (a ++ b) → in_order a.
Proof.
  unfold in_order. induction a as [|w a IH]; intros Ho; [constructor|]. apply StronglySorted_inv in Ho as [Ho Hw].
  constructor; [by apply IH|]. by apply Forall_app in Hw as [Hw _].
Qed.

Lemma recover_loop_ok old max0 groups off out off1 rest rounds fuel r record scratch st log :
  LdbLog.logged off (map record_of groups) out off1 → ends_quietly off1 rest →
  aligned r off (out ++ rest) → checksum_ r = true → (length (out ++ rest) < fuel)%nat → (length groups < rounds)%nat →
  holding old max0 st log → in_order ((old ++ log) ++ log_of groups) → Forall group_fits groups →
  0 ≤ rc_compactions st → rc_compactions st + len groups < 2 ^ 31 →
  ∃ st', recover_loop usage buffer_size paranoid rounds fuel r record scratch status_OK st = Ok (status_OK, st') ∧
    holding old max0 st' (log ++ log_of groups).
Proof.
  intros Hl Hend. revert rounds off out r record scratch st log Hl.
  induction groups as [|g groups IH]; intros rounds off out r record scratch st log Hl Ha Hcs Hfuel Hrounds Hst Hord Hfits Hc0 Hc;
    (destruct rounds as [|rounds]; [lia|]); cbn [recover_loop map] in *;
    rewrite (ReadRecord_start _ _ _ _ _ _ (aligned_reporter _ _ _ (Some []) Ha)); inversion Hl as [|? ? o1 off' ? o2 ? Hf Hl']; subst.
  - destruct (Hend fuel (set_reporter r (Some []))) as (s & r' & -> & Hrep); [by apply aligned_reporter|done..|].
    cbn [mbind outcome_bind andb]. rewrite Hrep. exists st. split; [done|]. by rewrite app_nil_r.
  - rewrite <- app_assoc in *. rewrite length_app in Hfuel. cbn [length] in *.
    edestruct (read_fragments _ _ _ _ _ Hf fuel (set_reporter r (Some [])) (o2 ++ rest) [] 0 []) as (s & r1 & E & Ha1 & Hrep & Hc1);
      [left; by apply aligned_reporter|lia|done|done|].
    cbn [negb app] in E. rewrite E. cbn [mbind outcome_bind andb]. unfold reports. rewrite Hrep. cbn [from_option id set_reporter reporter_ map fold_left ok status_OK].
    apply Forall_cons in Hfits as [Hg Hfits]. change (g :: groups) with ([g] ++ groups) in Hord |- *. rewrite log_of_app in Hord |- *.
    assert (log_of [g] = writes_of g.1 g.2) as Eg by (destruct g; apply log_of_one). rewrite Eg in *.
    assert (in_order (((old ++ log) ++ writes_of g.1 g.2) ++ log_of groups)) as Hord' by (rewrite <- !app_assoc in *; exact Hord).
    destruct (recover_record_ok old max0 g st log Hg Hst) as (st1 & E1 & Hst1 & Hn1); [exact (in_order_app_l _ _ Hord')|lia|].
    rewrite E1. cbn [mbind outcome_bind fst snd].
    destruct (IH rounds off' o2 r1 (record_of g) s st1 (log ++ writes_of g.1 g.2) Hl' Ha1) as (st2 & E2 & Hst2);
      [by rewrite Hc1|lia|lia|done|by rewrite (app_assoc old)|done|lia|lia|].
    exists st2. by rewrite app_assoc.
Qed.

Lemma finish_recovery_ok old max0 st log last_log (reused : option (F * Z)) :
  holding old max0 st log → (∀ f n, reused = Some (f, n) → working f ∧ 0 ≤ n) →
  ∃ st' kept, finish_recovery reuse status_OK last_log reused st = Ok (status_OK, st', kept) ∧
    tables_hold (level0_tables (rc_tables st') ++ option_list (snd <$> kept)) (old ++ log) ∧ rc_max_sequence st' = rc_max_sequence st ∧
    (∀ k, kept = Some k → last_log = true ∧ ∃ f n, reused = Some (f, n) ∧ new_Writer f n = Ok k.1).
Proof.
  intros Hst Hre. unfold finish_recovery.
  assert (∃ st' kept, match rc_mem st with
      | None => Ok (status_OK, st, None)
      | Some mem => if ok status_OK then w ← flush_table st mem; Ok (w.1, w.2, None)
                    else _ ← MemTable_Unref mem; Ok (status_OK, set_rc_mem st None, None)
      end = Ok (status_OK, st', kept) ∧
    tables_hold (level0_tables (rc_tables st') ++ option_list (snd <$> (kept : option (Writer F * MemTable)))) (old ++ log) ∧
    rc_max_sequence st' = rc_max_sequence st ∧
    (∀ k, kept = Some k → last_log = true ∧ ∃ f n, reused = Some (f, n) ∧ new_Writer f n = Ok k.1)) as Hplain.
  { destruct Hst as [Ht Hr _ _]. destruct (rc_mem st) as [m|] eqn:Em; [|by exists st, None]. cbn [ok status_OK].
    destruct (flush_table_ok st m (Hr m eq_refl)) as (t' & -> & Ht'). cbn [mbind outcome_bind fst snd].
    eexists _, None. split; [done|]. split; [|done]. cbn. by rewrite app_nil_r, Ht'. }
  destruct reused as [[f n]|]; [|exact Hplain]. destruct (ok status_OK && reuse && last_log && (rc_compactions st =? 0)) eqn:Ereuse; [|exact Hplain]. split_bool.
  destruct (Hre f n eq_refl) as [Hw Hn]. destruct (new_Writer_ok f n Hw Hn) as (log' & Enew & _). rewrite Enew. cbn [mbind outcome_bind].
  destruct (current_table old max0 st log Hst) as (m & log1 & log2 & -> & Htab & Hm & _ & ->). cbn [mbind outcome_bind].
  eexists _, _. split; [done|]. split; [cbn; by apply tables_hold_add|]. split; [done|]. intros k [= <-]. split; [done|]. by exists f, n.
Qed.

(** No record is empty. *)
Lemma logged_length off records out off' : LdbLog.logged off records out off' → 0 ≤ off → (length records ≤ length out)%nat.
Proof.
  induction 1 as [|off data out off1 records rest off2 Hf Hl IH]; [done|]. intros Ho.
  destruct (fragments_off _ _ _ _ _ Hf Ho) as [[? _] ?]. rewrite length_app. cbn [length]. specialize (IH ltac:(done)). lia.
Qed.

(** What a log gives back, whatever is behind its records. *)
Lemma RecoverLogFile_ok old groups out off rest rounds fuel (file : G) last_log (reused : option (F * Z)) save max_sequence tables :
  LdbLog.logged 0 (map record_of groups) out off → ends_quietly off rest →
  steady file → unread file = out ++ rest → bytes (out ++ rest) →
  (length (out ++ rest) < fuel)%nat → (length (out ++ rest) < rounds)%nat → len (out ++ rest) < 2 ^ 31 →
  tables_hold (level0_tables tables) old → in_order (old ++ log_of groups) → Forall group_fits groups →
  (∀ f n, reused = Some (f, n) → working f ∧ 0 ≤ n) →
  ∃ st kept, RecoverLogFile usage buffer_size paranoid reuse rounds fuel (status_OK, file) last_log reused save max_sequence tables =
      Ok (status_OK, st, kept) ∧
    tables_hold (level0_tables (rc_tables st) ++ option_list (snd <$> kept)) (old ++ log_of groups) ∧
    Forall (λ w, w_seq w ≤ rc_max_sequence st) (log_of groups) ∧ max_sequence ≤ rc_max_sequence st ∧
    (∀ k, kept = Some k → last_log = true ∧ ∃ f n, reused = Some (f, n) ∧ new_Writer f n = Ok k.1).
Proof.
  intros Hl Hend Hsteady Hun Hb Hfuel Hrounds Hsize Hold Hord Hfits Hre. unfold RecoverLogFile. cbn [fst snd ok status_OK negb].
  pose proof (logged_length _ _ _ _ Hl ltac:(done)) as Hlen. rewrite length_map in Hlen.
  pose proof (new_Reader_aligned file (Some []) true Hsteady ltac:(by rewrite Hun)) as Ha. rewrite Hun in Ha.
  set (st0 := {| rc_mem := None; rc_compactions := 0; rc_save_manifest := save; rc_max_sequence := max_sequence; rc_tables := tables |}).
  assert (holding old max_sequence st0 []) as Hst0 by (split; cbn; [by rewrite !app_nil_r|done|constructor|lia]).
  destruct (recover_loop_ok old max_sequence groups 0 out off rest rounds fuel (new_Reader file (Some []) true 0) [] [] st0 [])
    as (st & -> & Hst); try done; try (rewrite length_app in *; lia).
  - by rewrite app_nil_r.
  - cbn. rewrite length_app in Hsize. lia.
  - cbn [mbind outcome_bind fst snd]. cbn [app] in Hst.
    destruct (finish_recovery_ok old max_sequence st _ last_log reused Hst Hre) as (st' & kept & -> & Ht & Hmax & Hk).
    exists st', kept. rewrite Hmax. split_and!; [done|done|apply Hst|apply Hst|done].
Qed.

End recovers.

(** ** Behind a torn fragment *)

Section torn_log.
Context `{ComparatorLaws} `{Memory} {G : Type} `{SequentialFileLaws G}.

Lemma torn_room begin off data part t written missing off' :
  torn begin off data part t written missing off' → missing ≠ [] ∧ off' + len missing ≤ kBlockSize.
Proof.
  induction 1 as [|begin off written missing rest t ? Hne Hfit|]; [done| |done]. split; [done|].
  rewrite length_app in Hfit. lia.
Qed.

(** Without [paranoid_checks] no error of the reader matters. *)
Lemma reporter_lax l status : fold_left (reporter_Corruption false) l status = status.
Proof. induction l as [|s l IH]; [done|exact IH]. Qed.

Lemma torn_quietly off data part t written missing off' more :
  torn true off data part t written missing off' → off' + len more < kBlockSize → mistaken t written missing more → bytes data →
  ends_quietly (G := G) false off (part ++ more).
Proof.
  intros Ht Hin Hmis Hb fuel r Ha _ Hcs Hfuel. rewrite length_app in Hfuel.
  destruct (torn_read _ _ _ _ _ _ _ _ Ht fuel r more [] 0 []) as (s & r' & E);
    [done|done|by eapply torn_bytes|done|by left|lia|].
  exists s, r'. split; [exact E|apply reporter_lax].
Qed.

(** As when nothing was appended. *)
Lemma torn_alone off data part t written missing off' :
  torn true off data part t written missing off' → bytes data → ends_quietly (G := G) false off part.
Proof.
  intros Ht Hb. rewrite <- (app_nil_r part). pose proof (torn_room _ _ _ _ _ _ _ _ Ht) as [Hne Hroom].
  assert (0 < len missing) by (destruct missing; [done|cbn [length]; lia]).
  eapply torn_quietly; [exact Ht|cbn [length]; lia|by left|done].
Qed.

(** Where the log that is used again goes on. *)
Lemma torn_offset records out off data part t written missing off' :
  LdbLog.logged 0 records out off → torn true off data part t written missing off' →
  len (out ++ part) mod kBlockSize = off'.
Proof.
  intros Hl Ht. destruct (logged_blocks _ _ _ _ Hl ltac:(done)) as [k Hk], (torn_blocks _ _ _ _ _ _ _ _ Ht) as (_ & Hge & k' & Hk').
  pose proof (torn_room _ _ _ _ _ _ _ _ Ht) as [Hne Hroom]. assert (0 < len missing) by (destruct missing; [done|cbn [length]; lia]).
  rewrite length_app, Nat2Z.inj_add. symmetry. apply (Z.mod_unique_pos _ _ (k + k')); lia.
Qed.

End torn_log.

(** ** Properties *)

(** C28: a log that is used again after a crash loses what is written next. Let a log hold
    the records of any groups and end within the payload of a fragment of one more record,
    as a crash may leave it. Without [paranoid_checks], [RecoverLogFile] ends with status OK
    and recovers those groups. When [reuse_logs] makes it keep the log, the records of any further groups are
    appended behind the torn fragment, each with status OK, the block offset going on from the
    size of the file. As long as they stay in the block of the torn fragment and are not by chance
    taken for its missing bytes - they are fewer than those, or give another checksum - the next recovery, whatever
    its other options, again ends with status OK and recovers the first groups only: all
    that was logged after the first recovery is lost. *)
Theorem RecoverLogFile_reuse_loses `{ComparatorLaws} `{Memory} `{SequentialFileLaws G} `{WritableFileLaws F} `{Level0Laws T}
    usage buffer_size groups g gs out off part t written missing off' n (file : G) (f : F) save max_sequence (tables : T) :
  LdbLog.logged 0 (map record_of groups) out off → torn true off (record_of g) part t written missing off' →
  Forall group_fits (groups ++ g :: gs) → in_order (log_of groups) → len (out ++ part) < 2 ^ 31 → (length (out ++ part) < n)%nat →
  steady file → unread file = out ++ part → working f → stored f = out ++ part → LdbEnv.written f = out ++ part → level0_tables tables = [] →
  ∃ st kept,
    RecoverLogFile usage buffer_size false true n n (status_OK, file) true (Some (f, len (out ++ part))) save max_sequence tables =
      Ok (status_OK, st, kept) ∧
    tables_hold (level0_tables (rc_tables st) ++ option_list (snd <$> kept)) (log_of groups) ∧
    ∀ log mem, kept = Some (log, mem) →
      ∃ log' more, AddRecords log (map record_of gs) = Ok (status_OK, log') ∧
        stored (dest_ log') = out ++ part ++ more ∧ LdbLog.logged off' (map record_of gs) more (block_offset_ log') ∧
        (off' + len more < kBlockSize → mistaken t written missing more → len (out ++ part ++ more) < 2 ^ 31 →
         ∀ (file' : G) reuse n' last_log save' max_sequence' (tables' : T),
           steady file' → unread file' = out ++ part ++ more → (length (out ++ part ++ more) < n')%nat → level0_tables tables' = [] →
           ∃ st' kept', RecoverLogFile (F := F) usage buffer_size false reuse n' n' (status_OK, file') last_log None save' max_sequence' tables' =
               Ok (status_OK, st', kept') ∧
             tables_hold (level0_tables (rc_tables st') ++ option_list (snd <$> kept')) (log_of groups)).
Proof.
  intros Hl Ht Hfits Hord Hsize Hn Hsteady Hun Hwork Hst Hwr Htab. apply Forall_app in Hfits as [Hfits Hfits'].
  apply Forall_cons in Hfits' as [Hg Hgs].
  assert (bytes (record_of g)) as Hbg by (apply (Forall_singleton bytes), (record_bytes [g]); by constructor).
  assert (bytes out) as Hbo by (eapply logged_bytes; [exact Hl|by apply record_bytes]).
  pose proof (proj1 (torn_bytes _ _ _ _ _ _ _ _ Ht Hbg)) as Hbp.
  destruct (RecoverLogFile_ok usage buffer_size false true [] groups out off part n n file true (Some (f, len (out ++ part))) save max_sequence tables)
    as (st & kept & E & Hhold & _ & _ & Hk); try done.
  - by eapply torn_alone.
  - by apply Forall_app_2.
  - rewrite Htab. by exists [].
  - intros f0 n0 [= <- <-]. split; [done|lia].
  - exists st, kept. split; [exact E|]. split; [exact Hhold|]. intros log mem ->.
    destruct (Hk _ eq_refl) as (_ & f0 & n0 & [= <- <-] & Enew). cbn [fst] in Enew.
    destruct (new_Writer_ok f (len (out ++ part)) Hwork ltac:(lia)) as (log0 & Elog & Hlog & Hd & Ho).
    rewrite Enew in Elog. injection Elog as <-. rewrite (torn_offset _ _ _ _ _ _ _ _ _ Hl Ht) in Ho.
    destruct (AddRecords_ok log (map record_of gs) Hlog (record_bytes gs Hgs)) as (log' & more & Eadd & (_ & W & S) & L); [by rewrite Hd, Hst, Hwr|].
    rewrite Hd, Hwr, <- app_assoc in W. rewrite Ho in L. exists log', more. split; [done|]. split; [by rewrite S|]. split; [done|].
    intros Hin Hmis Hsize' file' reuse n' last_log save' max_sequence' tables' Hsteady' Hun' Hn' Htab'.
    destruct (RecoverLogFile_ok (F := F) usage buffer_size false reuse [] groups out off (part ++ more) n' n' file' last_log None save' max_sequence' tables')
      as (st' & kept' & E' & Hhold' & _); try done.
    + by eapply torn_quietly.
    + repeat apply Forall_app_2; [done..|]. eapply logged_bytes; [exact L|by apply record_bytes].
    + rewrite Htab'. by exists [].
    + by exists st', kept'.
Qed.

(** The files as the list of their tables. *)
#[local] Instance list_level0 : Level0 (list MemTable) := { WriteLevel0Table m t := Ok (status_OK, t ++ [m]) }.
#[local] Instance list_level0_laws : Level0Laws (list MemTable).
Proof. refine {| level0_tables := id |}. intros m t. by exists (t ++ [m]). Defined.

#[local] Existing Instance zero_memory.

(** A log of two records, the second torn, and what is written after the recovery. *)
Definition sample_kept : Z * list batch_op := (1, [op_Put [107] [118]]).
Definition sample_torn : Z * list batch_op := (2, [op_Put [98] [1; 2; 3; 4; 5; 6]]).
Definition sample_next : Z * list batch_op := (2, [op_Put [97] [118]]).
Definition sample_out : list Z := physical kFullType (record_of sample_kept).
Definition sample_written : list Z := take 9 (record_of sample_torn).
Definition sample_missing : list Z := drop 9 (record_of sample_torn).
Definition sample_part : list Z :=
  header kFullType (len (sample_written ++ sample_missing)) (Mask (crc32c 0 (kFullType :: sample_written ++ sample_missing))) ++ sample_written.

Lemma sample_logged : LdbLog.logged 0 (map record_of [sample_kept]) sample_out 24.
Proof.
  rewrite <- (app_nil_r sample_out). apply (logged_cons _ _ _ 24); [|constructor].
  change 24 with (0 + kHeaderSize + len (record_of sample_kept)). apply (fragments_last true); by vm_compute.
Qed.

Lemma sample_is_torn : torn true 24 (record_of sample_torn) sample_part kFullType sample_written sample_missing 40.
Proof. apply (torn_here true 24 sample_written sample_missing []); [done..|by vm_compute|done|done]. Qed.

Lemma sample_fits : Forall group_fits [sample_kept; sample_torn; sample_next].
Proof.
  repeat (apply Forall_cons_2 || apply Forall_nil_2); (split; [by vm_compute|]); (split; [by vm_compute|]); (split; [by vm_compute|]);
    split; repeat (apply Forall_cons_2 || apply Forall_nil_2); unfold write_ok; cbn; split_and!; first [by vm_compute|by repeat constructor].
Qed.

Lemma one_fragment off data out off' :
  0 ≤ off → off + kHeaderSize + len data < kBlockSize → LdbLog.logged off [data] out off' → out = physical kFullType data.
Proof.
  intros Hge Hfit Hl. inversion Hl as [|? ? ? ? ? ? ? Hf Hnil]; subst. inversion Hnil; subst. rewrite app_nil_r.
  inversion Hf; subst; [lia|done|]. rewrite length_app in Hfit. lia.
Qed.

Definition appending (content : list Z) : PosixWritableFile * kernel :=
  (new_PosixWritableFile (text "000003.log") 5, {| on_disk := content; position := 0; interrupted := false |}).

Definition sample_recover : outcome (Status * Recovery (list MemTable) * option (Writer (PosixWritableFile * kernel) * MemTable)) :=
  RecoverLogFile (λ _, 0) 4096 false true 100 100 (status_OK, sample_reading (sample_out ++ sample_part)) true
    (Some (appending (sample_out ++ sample_part), 40)) false 0 [].

Lemma sample_keeps : (r ← sample_recover; Ok (bool_decide (is_Some r.2))) = Ok true.
Proof. by vm_compute. Qed.

Lemma sample_mistaken more : take 13 more = take 13 (physical kFullType (record_of sample_next)) → mistaken kFullType sample_written sample_missing more.
Proof. intros E. right. change (length sample_missing) with 13%nat. rewrite E. by vm_compute. Qed.

Lemma RecoverLogFile_reuse_loses_witness :
  ∃ st log mem log' st' kept',
    sample_recover = Ok (status_OK, st, Some (log, mem)) ∧
    AddRecords log [record_of sample_next] = Ok (status_OK, log') ∧
    RecoverLogFile (F := PosixWritableFile * kernel) (λ _, 0) 4096 false true 100 100 (status_OK, sample_reading (stored (dest_ log'))) true None false 0 [] =
      Ok (status_OK, st', kept') ∧
    tables_hold (rc_tables st' ++ option_list (snd <$> kept')) (writes_of 1 [op_Put [107] [118]]).
Proof.
  destruct (RecoverLogFile_reuse_loses (G := PosixSequentialFile * kernel) (T := list MemTable) (λ _, 0) 4096 [sample_kept] sample_torn [sample_next]
    sample_out 24 sample_part kFullType sample_written sample_missing 40 100 (sample_reading (sample_out ++ sample_part))
    (appending (sample_out ++ sample_part)) false 0 []) as (st & kept & E & _ & Hk).
  - exact sample_logged.
  - exact sample_is_torn.
  - exact sample_fits.
  - by repeat constructor.
  - by vm_compute.
  - apply Nat.ltb_lt. by vm_compute.
  - done.
  - done.
  - done.
  - done.
  - done.
  - done.
  - change (sample_recover = Ok (status_OK, st, kept)) in E. pose proof sample_keeps as Hkeep. rewrite E in Hkeep.
    destruct kept as [[log mem]|]; [|discriminate Hkeep]. destruct (Hk log mem eq_refl) as (log' & more & Eadd & Hst & Hl & Hlost).
    assert (more = physical kFullType (record_of sample_next)) as Emore.
    { exact (one_fragment 40 (record_of sample_next) more _ ltac:(done) ltac:(by vm_compute) Hl). }
    destruct Hlost with (file' := sample_reading (sample_out ++ sample_part ++ more)) (reuse := true) (n' := 100%nat) (last_log := true)
      (save' := false) (max_sequence' := 0) (tables' := @nil MemTable) as (st' & kept' & E' & Hhold); rewrite ?Emore.
    + by vm_compute.
    + by apply sample_mistaken.
    + by vm_compute.
    + done.
    + done.
    + apply Nat.ltb_lt. by vm_compute.
    + done.
    + exists st, log, mem, log', st', kept'. split; [exact E|]. split; [exact Eadd|]. rewrite Hst. split; [exact E'|exact Hhold].
Defined.
