(* ===== verification/LdbDurable.v ===== *)
(** * LevelDB, db/db_impl: what a crash leaves, and recovery

    The database runs with its files: writing switches to a new log, the table that is full
    is written to a file, the descriptor takes note of it, old logs are deleted. A crash may
    come between any two of these steps, and only the files are left: the tables that the
    descriptor names and the logs. [DBImpl::Recover] finds the logs that are needed by their names
    and reads them in order; writing is durable. *)

From S2P Require Import Prelude LdbCoding LdbOrder LdbFormat LdbSkip LdbCrc LdbEnv LdbFilename LdbLog LdbMem LdbWrite LdbRecover.

(** What the descriptor says of the logs, the sequence numbers and the tables; the files of the tables
    are a state [T] that [WriteLevel0Table] extends. *)
Record Descriptor (T : Type) : Type := {
  dsc_log_number : Z; dsc_prev_log_number : Z; dsc_last_sequence : Z; dsc_tables : T
}.
Arguments dsc_log_number {T}.
Arguments dsc_prev_log_number {T}.
Arguments dsc_last_sequence {T}.
Arguments dsc_tables {T}.

(** The counter of the numbers of files, from which [WriteLevel0Table] takes one. *)
Class FileNumbers (T : Type) : Type := { next_file_number : T → Z; set_next_file_number : T → Z → T }.

(** The directory of a database; [VersionSet_Recover] gives the descriptor, the numbers of the tables that
    it names, in order, and [*save_manifest]. *)
Class Directory (D T G F : Type) : Type := {
  LockFile : D → Status * D;
  CurrentFileExists : D → bool;
  NewDB : D → Status * D;
  VersionSet_Recover : D → outcome (Status * Descriptor T * list Z * bool);
  GetChildren : D → Status * list Slice;
  NewSequentialFile : D → Z → Status * G;
  AppendableLog : D → Z → option (F * Z)
}.

(** A log is needed when it is not older than the one in the descriptor, or is the previous one. *)
Definition needed (min_log prev_log number : Z) : bool := (min_log <=? number) || (number =? prev_log).

Section recovery.
Context `{Comparator} `{Memory} {G : Type} `{SequentialFile G} {F : Type} `{WritableFile F} {T : Type} `{Level0 T} `{FileNumbers T}.
Context {D : Type} `{Directory D T G F}.
Context (usage : MemTable → Z) (write_buffer_size : Z) (paranoid_checks reuse_logs create_if_missing error_if_exists : bool).
Context (dbname : Slice) (rounds fuel : nat).

Definition MarkFileNumberUsed (t : T) (number : Z) : T :=
  if next_file_number t <=? number then set_next_file_number t (u64 (number + 1)) else t.

(** The files by their names: the numbers that stay [expected], the [logs] that are needed. *)
Fixpoint list_logs (min_log prev_log : Z) (filenames : list Slice) (expected : list Z) : outcome (list Z * list Z) :=
  match filenames with
  | [] => Ok (expected, [])
  | name :: filenames =>
      p ← ParseFileName name;
      match p with
      | None => list_logs min_log prev_log filenames expected
      | Some (number, type) =>
          r ← list_logs min_log prev_log filenames (filter (λ n, n ≠ number) expected);
          Ok (r.1, if bool_decide (type = kLogFile) && needed min_log prev_log number then number :: r.2 else r.2)
      end
  end.

(** What recovery changes: [*save_manifest], [max_sequence], the tables; [logfile_number_], [log_] and [mem_] when a log is
    used again. *)
Record Recovering : Type := { rg_save_manifest : bool; rg_max_sequence : Z; rg_tables : T; rg_kept : option (Z * Writer F * MemTable) }.

(** One log, and [versions_->MarkFileNumberUsed(logs[i])]. *)
Definition recover_log (d : D) (log : Z) (last_log : bool) (st : Recovering) : outcome (Status * Recovering) :=
  r ← RecoverLogFile usage write_buffer_size paranoid_checks reuse_logs rounds fuel (NewSequentialFile d log) last_log
        (AppendableLog d log) (rg_save_manifest st) (rg_max_sequence st) (rg_tables st);
  let '(s, x, kept) := r in
  Ok (s, {| rg_save_manifest := rc_save_manifest x; rg_max_sequence := rc_max_sequence x;
            rg_tables := if ok s then MarkFileNumberUsed (rc_tables x) log else rc_tables x;
            rg_kept := match kept with Some (w, m) => Some (log, w, m) | None => rg_kept st end |}).

Fixpoint recover_logs (d : D) (logs : list Z) (st : Recovering) : outcome (Status * Recovering) :=
  match logs with
  | [] => Ok (status_OK, st)
  | log :: logs =>
      r ← recover_log d log (bool_decide (logs = [])) st;
      if negb (ok r.1) then Ok r else recover_logs d logs r.2
  end.

(** What [DBImpl::Recover] leaves: the descriptor with the sequence number raised and the new tables, [*save_manifest],
    the log that is used again. *)
Record Recovered : Type := { rd_descriptor : Descriptor T; rd_save_manifest : bool; rd_kept : option (Z * Writer F * MemTable) }.

(** Before the logs: the lock, the file CURRENT, the options. *)
Definition open_directory (d : D) : Status * D :=
  let '(s, d) := LockFile d in
  if negb (ok s) then (s, d)
  else if negb (CurrentFileExists d) then
    if create_if_missing then NewDB d
    else (InvalidArgument dbname (text "does not exist (create_if_missing is false)"), d)
  else if error_if_exists then (InvalidArgument dbname (text "exists (error_if_exists is true)"), d)
  else (status_OK, d).

Definition finish_logs (v : Descriptor T) (st : Recovering) : Recovered :=
  {| rd_descriptor := {| dsc_log_number := dsc_log_number v; dsc_prev_log_number := dsc_prev_log_number v;
       dsc_last_sequence := if dsc_last_sequence v <? rg_max_sequence st then rg_max_sequence st else dsc_last_sequence v;
       dsc_tables := rg_tables st |};
     rd_save_manifest := rg_save_manifest st; rd_kept := rg_kept st |}.

Definition Recover (d : D) : outcome (Status * option Recovered) :=
  let '(s, d) := open_directory d in
  if negb (ok s) then Ok (s, None)
  else
    r ← VersionSet_Recover d;
    let '(s, v, live, save_manifest) := r in
    if negb (ok s) then Ok (s, None)
    else
      let '(s, filenames) := GetChildren d in
      if negb (ok s) then Ok (s, None)
      else
        l ← list_logs (dsc_log_number v) (dsc_prev_log_number v) filenames live;
        match l.1 with
        | missing :: _ =>
            name ← TableFileName dbname missing;
            Ok (Corruption (print_int (len l.1) ++ text " missing files; e.g.") name, None)
        | [] =>
            x ← recover_logs d (merge_sort Z.le l.2)
                  {| rg_save_manifest := save_manifest; rg_max_sequence := 0; rg_tables := dsc_tables v; rg_kept := None |};
            Ok (x.1, if ok x.1 then Some (finish_logs v x.2) else None)
        end.

End recovery.
Arguments Recovering F T : clear implicits.
Arguments Recovered F T : clear implicits.

(** ** The database with its files *)

(** [DeleteObsoleteFiles]: what is kept; [live] has the tables of all versions and those being written. *)
Definition keep_file (log_number prev_log_number manifest_file_number : Z) (live : list Z) (number : Z) (type : FileType) : bool :=
  match type with
  | kLogFile => (log_number <=? number) || (number =? prev_log_number)
  | kDescriptorFile => manifest_file_number <=? number
  | kTableFile | kTempFile => bool_decide (number ∈ live)
  | kCurrentFile | kDBLockFile | kInfoLogFile => true
  end.

(** The names that are deleted. *)
Fixpoint obsolete_files (log_number prev_log_number manifest_file_number : Z) (live : list Z) (filenames : list Slice) : outcome (list Slice) :=
  match filenames with
  | [] => Ok []
  | name :: filenames =>
      p ← ParseFileName name;
      names ← obsolete_files log_number prev_log_number manifest_file_number live filenames;
      Ok (match p with
          | Some (number, type) => if keep_file log_number prev_log_number manifest_file_number live number type then names else name :: names
          | None => names
          end)
  end.

Definition DeleteObsoleteFiles (bg_error : Status) (log_number prev_log_number manifest_file_number : Z) (live : list Z) (filenames : list Slice) :
    outcome (list Slice) :=
  if negb (ok bg_error) then Ok [] else obsolete_files log_number prev_log_number manifest_file_number live filenames.

Section files.
Context `{user_comparator : Comparator} `{Memory} {F : Type} `{WritableFileLaws F} {T : Type} `{Level0 T}.
Context (usage : MemTable → Z) (create : Z → F → Status * F) (write_buffer_size : Z).

(** How far [CompactMemTable] is: the table is in a file but the descriptor does not say so yet; it says so
    but the database does not know; or the background work has failed, and ended for good. *)
Inductive compaction : Type := Waiting | TableWritten (edit : Descriptor T) | Installed | Failed.

(** The database and its files: [versions_->log_number_], the descriptor and the logs before the current one,
    with their numbers, oldest first. *)
Record filed : Type := {
  fs_system : system (F := F); fs_log_number : Z; fs_descriptor : Descriptor T; fs_compaction : compaction;
  fs_logs : list (Z * list Z)
}.

Definition fs_db (s : filed) : DBImpl (F := F) := sys_db (fs_system s).

Definition with_system (s : filed) (sys : system (F := F)) : filed :=
  {| fs_system := sys; fs_log_number := fs_log_number s; fs_descriptor := fs_descriptor s;
     fs_compaction := fs_compaction s; fs_logs := fs_logs s |}.
Definition with_compaction (s : filed) (c : compaction) (d : Descriptor T) : filed :=
  {| fs_system := fs_system s; fs_log_number := fs_log_number s; fs_descriptor := d; fs_compaction := c; fs_logs := fs_logs s |}.
Definition with_logs (s : filed) (logs : list (Z * list Z)) : filed :=
  {| fs_system := fs_system s; fs_log_number := fs_log_number s; fs_descriptor := fs_descriptor s;
     fs_compaction := fs_compaction s; fs_logs := logs |}.

(** A step of the front; when it goes on to another log, the file of the last one stays as it is. *)
Definition front_served (s : filed) (ph : phase) (answers : list (nat * Status)) (db : DBImpl (F := F)) : filed :=
  let old := fs_db s in
  with_system
    (if db_logfile_number_ db =? db_logfile_number_ old then s
     else with_logs s (fs_logs s ++ [(db_logfile_number_ old, stored (dest_ (db_log_ old)))]))
    (served (fs_system s) ph answers db).

(** [edit.SetPrevLogNumber(0); edit.SetLogNumber(logfile_number_);], and what [LogAndApply] adds. *)
Definition memtable_edit (db : DBImpl (F := F)) (t : T) : Descriptor T :=
  {| dsc_log_number := db_logfile_number_ db; dsc_prev_log_number := 0;
     dsc_last_sequence := last_sequence_ (db_versions_ db); dsc_tables := t |}.

(** Another edit of the versions, by a compaction of tables: it keeps the numbers of the logs, and what the tables hold. *)
Definition other_edit (s : filed) : Descriptor T :=
  {| dsc_log_number := fs_log_number s; dsc_prev_log_number := prev_log_number_ (db_versions_ (fs_db s));
     dsc_last_sequence := last_sequence_ (db_versions_ (fs_db s)); dsc_tables := dsc_tables (fs_descriptor s) |}.

(** [log_number_ = edit->log_number_;] and [imm_ = nullptr;] *)
Definition committed_to (s : filed) (m : MemTable) : filed :=
  {| fs_system := compacted (fs_system s) m; fs_log_number := dsc_log_number (fs_descriptor s);
     fs_descriptor := fs_descriptor s; fs_compaction := Waiting; fs_logs := fs_logs s |}.

Definition background_failed (s : filed) (d : Descriptor T) (e : Status) : filed :=
  with_compaction (with_system s (compaction_failed (fs_system s) e)) Failed d.

Definition file_deleted (s : filed) (number : Z) : filed :=
  with_logs s (filter (λ x, x.1 ≠ number) (fs_logs s)).

(** The steps: what writing does, and with the files: [WriteLevel0Table] and [LogAndApply] for the table
    that is full, their failure, which may leave the new descriptor, other edits of the versions, and the deletion of a log. *)
Inductive file_step (good : list request → Prop) : filed → filed → Prop :=
  | filed_enter s req w :
      good (sys_requests (fs_system s) ++ [req]) → fill req = Ok w →
      file_step good s (with_system s (enter (fs_system s) req w))
  | filed_front s ph answers db :
      front_step usage create write_buffer_size (sys_phase (fs_system s)) (fs_db s) = Ok (ph, answers, db) →
      next_file_number_ (db_versions_ (fs_db s)) < 2 ^ 64 - 1 →
      file_step good s (front_served s ph answers db)
  | filed_numbers s next level0 :
      next_file_number_ (db_versions_ (fs_db s)) ≤ next →
      file_step good s (with_system s (files_changed (fs_system s) next level0))
  | filed_written s m t :
      fs_compaction s = Waiting → db_imm_ (fs_db s) = Some m →
      WriteLevel0Table m (dsc_tables (fs_descriptor s)) = Ok (status_OK, t) →
      file_step good s (with_compaction s (TableWritten (memtable_edit (fs_db s) t)) (fs_descriptor s))
  | filed_installed s edit :
      fs_compaction s = TableWritten edit → file_step good s (with_compaction s Installed edit)
  | filed_committed s m :
      fs_compaction s = Installed → db_imm_ (fs_db s) = Some m → file_step good s (committed_to s m)
  | filed_failed s d e :
      ok e = false → fs_compaction s ≠ Installed → d = fs_descriptor s ∨ fs_compaction s = TableWritten d →
      file_step good s (background_failed s d e)
  | filed_edited s :
      fs_compaction s = Waiting → file_step good s (with_compaction s Waiting (other_edit s))
  | filed_deleted s manifest live filenames deleted name number :
      DeleteObsoleteFiles (db_bg_error_ (fs_db s)) (fs_log_number s) (prev_log_number_ (db_versions_ (fs_db s))) manifest live filenames =
        Ok deleted →
      name ∈ deleted → ParseFileName name = Ok (Some (number, kLogFile)) →
      file_step good s (file_deleted s number).

(** The database as [DB::Open] leaves it: a new log, no older one that the descriptor needs. *)
Definition files_at_start (db : DBImpl (F := F)) (d : Descriptor T) (logs : list (Z * list Z)) : filed :=
  {| fs_system := start db; fs_log_number := dsc_log_number d; fs_descriptor := d; fs_compaction := Waiting; fs_logs := logs |}.

(** What may be in the file of the current log after a crash: what had been handed to the system, and while
    the front logs a group any part of its record. *)
Definition left_by_crash (s : system (F := F)) (content : list Z) : Prop :=
  content = stored (dest_ (db_log_ (sys_db s))) ∨
  ∃ updates is_tmp last_writer last_sequence r,
    sys_phase s = Applying updates is_tmp last_writer last_sequence ∧
    front_step usage create write_buffer_size (sys_phase s) (sys_db s) = Ok r ∧
    stored (dest_ (db_log_ (sys_db s))) `prefix_of` content ∧ content `prefix_of` stored (dest_ (db_log_ r.2)).

(** The logs with the current one. *)
Definition logs_left (s : filed) (content : list Z) : list (Z * list Z) :=
  fs_logs s ++ [(db_logfile_number_ (fs_db s), content)].

End files.
Arguments compaction T : clear implicits.

(** The number of a log, from a name that was parsed. *)
Definition log_file (p : option (Z * FileType)) : option Z :=
  match p with Some (number, type) => if bool_decide (type = kLogFile) then Some number else None | None => None end.

(** The numbers of files go up. *)
Class FileNumbersLaws (T : Type) `{Level0Laws T} `{FileNumbers T} : Prop := {
  next_file_number_set t n : next_file_number (set_next_file_number t n) = n;
  level0_tables_set t n : level0_tables (set_next_file_number t n) = level0_tables t;
  next_file_number_write m t s t' : WriteLevel0Table m t = Ok (s, t') → next_file_number t ≤ next_file_number t'
}.

(** ** The groups that can be read *)

Section readable.
Context `{ComparatorLaws} `{Memory} {F : Type} `{WritableFileLaws F}.

(** The groups whose records are complete in the content of a log. *)
Record readable (content : list Z) (groups : list (Z * list batch_op)) : Prop := {
  readable_content : ∃ out off next more off2 part, content = out ++ part ∧ LdbLog.logged 0 (map record_of groups) out off ∧
    fragments true off next more off2 ∧ part `prefix_of` more ∧ (length part < length more)%nat ∧ bytes content;
  readable_fits : Forall group_fits groups
}.

(** A log whose last record is complete. *)
Lemma readable_whole (log : Writer F) groups : log_ok log groups → readable (written (dest_ log)) groups.
Proof.
  intros [Hw Hs Hr Hf]. split; [|done]. destruct (AddRecord_ok log [] Hw ltac:(constructor)) as (log' & more & _ & _ & Hfr).
  exists (written (dest_ log)), (block_offset_ log), [], more, (block_offset_ log'), []. rewrite app_nil_r.
  split; [done|]. split; [done|]. split; [done|]. split; [apply prefix_nil|]. split.
  - destruct (fragments_off _ _ _ _ _ Hfr) as [_ Hpos]; [apply Hw|]. cbn. lia.
  - eapply logged_bytes; [exact Hr|by apply record_bytes].
Qed.

(** A log that was cut within the record of the next group. *)
Lemma readable_cut (log : Writer F) groups g out off part :
  log_ok log groups → group_fits g → fragments true (block_offset_ log) (record_of g) out off → part `prefix_of` out →
  (length part < length out)%nat → readable (written (dest_ log) ++ part) groups.
Proof.
  intros [Hw Hs Hr Hf] Hg Hfr Hp Hl. split; [|done].
  exists (written (dest_ log)), (block_offset_ log), (record_of g), out, off, part.
  split; [done|]. split; [done|]. split; [done|]. split; [done|]. split; [done|]. apply Forall_app_2.
  - eapply logged_bytes; [exact Hr|by apply record_bytes].
  - destruct Hp as [k E]. assert (bytes out) as Hb by (eapply fragments_bytes; [exact Hfr|]; pose proof (record_bytes [g]) as Hrb;
      specialize (Hrb ltac:(by constructor)); by apply Forall_cons in Hrb as [? _]).
    rewrite E in Hb. by apply Forall_app in Hb as [? _].
Qed.

End readable.

(** ** The names of the logs *)

Definition file_numbers (files : list (option (Z * FileType))) : list Z := map fst (omap id files).

Lemma list_logs_ok min_log prev_log names files expected :
  Forall2 (λ name p, ParseFileName name = Ok p) names files →
  list_logs min_log prev_log names expected =
    Ok (filter (λ n, n ∉ file_numbers files) expected, filter (λ n, needed min_log prev_log n = true) (omap log_file files)).
Proof.
  intros Hall. revert expected. induction Hall as [|name p names files Hp Hall IH]; intros expected; cbn [list_logs].
  - do 2 f_equal. clear. induction expected as [|n expected IH]; [done|]. rewrite filter_cons_True by apply not_elem_of_nil. by rewrite <- IH.
  - rewrite Hp. cbn [mbind outcome_bind]. destruct p as [[number type]|]; rewrite IH; [|done].
    cbn [mbind outcome_bind fst snd]. f_equal. f_equal.
    + rewrite list_filter_filter. apply list_filter_iff. intros n. unfold file_numbers. cbn [omap list_omap id map fst].
      rewrite not_elem_of_cons. tauto.
    + cbn [omap list_omap log_file]. destruct (bool_decide (type = kLogFile)); [|done]. cbn [andb].
      destruct (needed min_log prev_log number) eqn:E; [by rewrite filter_cons_True|by rewrite filter_cons_False by by rewrite E].
Qed.

Lemma filter_sorted {A} (R : relation A) (P : A → Prop) `{∀ x, Decision (P x)} l : StronglySorted R l → StronglySorted R (filter P l).
Proof.
  induction 1 as [|x l Hs IH Hx]; [constructor|]. rewrite filter_cons. destruct (decide (P x)); [|done].
  constructor; [done|]. apply Forall_forall. intros y [_ Hy]%list_elem_of_filter. by apply (proj1 (Forall_forall _ _) Hx).
Qed.

(** The logs that are needed, in the order of their numbers. *)
Lemma needed_logs min_log (found : list Z) (numbers : list Z) :
  found ≡ₚ numbers → StronglySorted Z.lt numbers → Forall (λ n, 0 < n) numbers →
  merge_sort Z.le (filter (λ n, needed min_log 0 n = true) found) = filter (λ n, min_log ≤ n) numbers.
Proof.
  intros Hp Hs Hpos.
  assert (filter (λ n, needed min_log 0 n = true) numbers = filter (λ n, min_log ≤ n) numbers) as E.
  { clear Hp Hs. induction Hpos as [|n numbers Hn Hpos IH]; [done|]. rewrite !filter_cons, IH.
    assert (needed min_log 0 n = true ↔ min_log ≤ n) as Hn' by (unfold needed; rewrite orb_true_iff, Z.leb_le, Z.eqb_eq; lia).
    destruct (decide (needed min_log 0 n = true)), (decide (min_log ≤ n)); tauto. }
  rewrite <- E. apply (StronglySorted_unique Z.le).
  - apply (StronglySorted_merge_sort Z.le).
  - apply filter_sorted. clear -Hs. induction Hs as [|n numbers Hs IH Hn]; constructor; [done|].
    eapply Forall_impl; [exact Hn|]. cbv beta. lia.
  - rewrite merge_sort_Permutation. by rewrite Hp.
Qed.

Section recovers.
Context `{ComparatorLaws} `{Memory} {G : Type} `{SequentialFileLaws G} {F : Type} `{WritableFileLaws F} {T : Type} `{FileNumbersLaws T}.
Context {D : Type} `{Directory D T G F}.
Context (usage : MemTable → Z) (buffer_size : Z) (paranoid reuse : bool) (fuel : nat).

Lemma flush_table_numbers (st : Recovery T) mem r :
  flush_table st mem = Ok r → next_file_number (rc_tables st) ≤ next_file_number (rc_tables r.2).
Proof.
  unfold flush_table. intros E. apply outcome_bind_inv in E as ([s t] & Ew & E). apply outcome_bind_inv in E as (left_over & _ & E).
  injection E as <-. by apply next_file_number_write in Ew.
Qed.

Lemma recover_record_numbers record status (st : Recovery T) r :
  recover_record usage buffer_size paranoid record status st = Ok r → next_file_number (rc_tables st) ≤ next_file_number (rc_tables r.2).
Proof.
  unfold recover_record. destruct (_ <? 12); [by intros [= <-]|]. intros E. apply outcome_bind_inv in E as (batch & _ & E).
  apply outcome_bind_inv in E as (mem & _ & E). apply outcome_bind_inv in E as (i & _ & E).
  destruct (negb _); [by injection E as <-|]. apply outcome_bind_inv in E as (seq & _ & E). apply outcome_bind_inv in E as (n & _ & E).
  destruct (_ <? _); [|by injection E as <-]. apply outcome_bind_inv in E as (st1 & Ec & E). apply outcome_bind_inv in E as (w & Ef & E).
  injection E as <-. apply flush_table_numbers in Ef. unfold count_compaction in Ec. apply outcome_bind_inv in Ec as (c & _ & Ec).
  by injection Ec as <-.
Qed.

Lemma recover_loop_numbers rounds fuel' (r : Reader G) record scratch status (st : Recovery T) x :
  recover_loop usage buffer_size paranoid rounds fuel' r record scratch status st = Ok x →
  next_file_number (rc_tables st) ≤ next_file_number (rc_tables x.2).
Proof.
  revert r record scratch status st. induction rounds as [|rounds IH]; intros r record scratch status st E; [done|]. cbn [recover_loop] in E.
  apply outcome_bind_inv in E as ([[[found record'] scratch'] r'] & _ & E).
  destruct (found && _); [|by injection E as <-]. apply outcome_bind_inv in E as (y & Ey & E). apply recover_record_numbers in Ey.
  destruct (y.1.1); [by injection E as <-|]. apply IH in E. lia.
Qed.

Lemma finish_recovery_numbers status last_log (reused : option (F * Z)) (st : Recovery T) r :
  finish_recovery reuse status last_log reused st = Ok r → next_file_number (rc_tables st) ≤ next_file_number (rc_tables r.1.2).
Proof.
  unfold finish_recovery. intros E. apply outcome_bind_inv in E as (kept & _ & E). destruct kept; [by injection E as <-|].
  destruct (rc_mem st) as [mem|]; [|by injection E as <-]. destruct (ok status).
  - apply outcome_bind_inv in E as (w & Ew & E). injection E as <-. by apply flush_table_numbers in Ew.
  - apply outcome_bind_inv in E as (left_over & _ & E). by injection E as <-.
Qed.

Lemma RecoverLogFile_numbers rounds fuel' opened last_log (reused : option (F * Z)) save max_sequence tables r :
  RecoverLogFile (G := G) usage buffer_size paranoid reuse rounds fuel' opened last_log reused save max_sequence tables = Ok r →
  next_file_number tables ≤ next_file_number (rc_tables r.1.2).
Proof.
  unfold RecoverLogFile. destruct (negb _); [by intros [= <-]|]. intros E. apply outcome_bind_inv in E as (x & Ex & E).
  apply recover_loop_numbers in Ex. apply finish_recovery_numbers in E. cbn [rc_tables] in Ex. lia.
Qed.

(** A log of the directory and the groups that can be read from it. *)
Definition readable_log (d : D) (number : Z) (groups : list (Z * list batch_op)) : Prop :=
  0 ≤ number < 2 ^ 64 - 1 ∧
  (∃ content (file : G), NewSequentialFile d number = (status_OK, file) ∧ steady file ∧ unread file = content ∧ readable content groups ∧
    len content < 2 ^ 31 ∧ (length content < fuel)%nat) ∧
  (∀ f size, AppendableLog d number = Some (f, size) → working f ∧ 0 ≤ size).

Lemma MarkFileNumberUsed_ok (t : T) number :
  0 ≤ number < 2 ^ 64 - 1 →
  next_file_number t ≤ next_file_number (MarkFileNumberUsed t number) ∧ number < next_file_number (MarkFileNumberUsed t number) ∧
    level0_tables (MarkFileNumberUsed t number) = level0_tables t.
Proof.
  intros Hn. unfold MarkFileNumberUsed. destruct (Z.leb_spec (next_file_number t) number); [|split; [lia|split; [lia|done]]].
  rewrite next_file_number_set, level0_tables_set, wrap_small by (unfold in_width; lia). split; [lia|split; [lia|done]].
Qed.

(** The logs one after the other, with what was recovered before, [old], and from them. *)
Record recovered_to (old : list write) (st : Recovering F T) (log : list write) : Prop := {
  to_tables : tables_hold (level0_tables (rg_tables st) ++ option_list (snd <$> rg_kept st)) (old ++ log);
  to_sequence : Forall (λ w, w_seq w ≤ rg_max_sequence st) log
}.

Lemma recover_log_ok d old log number groups last_log st :
  readable_log d number groups → recovered_to old st log → rg_kept st = None → in_order ((old ++ log) ++ log_of groups) →
  ∃ st', recover_log usage buffer_size paranoid reuse fuel fuel d number last_log st = Ok (status_OK, st') ∧
    recovered_to old st' (log ++ log_of groups) ∧ (last_log = false → rg_kept st' = None) ∧
    next_file_number (rg_tables st) ≤ next_file_number (rg_tables st') ∧ number < next_file_number (rg_tables st').
Proof.
  intros (Hn & (content & file & Eo & Hs & Hu & [(out & off & next & more & off2 & part & -> & Hl & Hfr & Hp & Hlt & Hb) Hfits] & Hsize & Hfuel) & Happ)
    [Ht Hseq] Hk Hord. rewrite Hk in Ht. cbn [fmap option_fmap option_map option_list] in Ht. rewrite app_nil_r in Ht.
  unfold recover_log. rewrite Eo.
  destruct (RecoverLogFile_ok usage buffer_size paranoid reuse (old ++ log) groups out off part fuel fuel file last_log (AppendableLog d number)
    (rg_save_manifest st) (rg_max_sequence st) (rg_tables st)) as (st1 & kept & E & Ht1 & Hseq1 & Hmax & Hlast); try done.
  { by eapply cut_quietly. }
  pose proof (RecoverLogFile_numbers _ _ _ _ _ _ _ _ _ E) as Hnext. cbn [fst snd] in Hnext.
  rewrite E. cbn [mbind outcome_bind ok status_OK]. destruct (MarkFileNumberUsed_ok (rc_tables st1) number Hn) as (Hn1 & Hn2 & Hn3).
  eexists. split; [done|]. cbn. split; [|split; [|split; [lia|done]]].
  - split; cbn.
    + rewrite Hn3, app_assoc. destruct kept as [[w m]|]; [exact Ht1|]. rewrite Hk. exact Ht1.
    + apply Forall_app_2; [|done]. eapply Forall_impl; [exact Hseq|]. cbn. intros w. lia.
  - intros ->. destruct kept as [[w m]|]; [|done]. by destruct (Hlast _ eq_refl).
Qed.

Lemma recover_logs_ok d old log numbers groups st :
  Forall2 (readable_log d) numbers groups → recovered_to old st log → rg_kept st = None →
  in_order ((old ++ log) ++ concat (map log_of groups)) →
  ∃ st', recover_logs usage buffer_size paranoid reuse fuel fuel d numbers st = Ok (status_OK, st') ∧
    recovered_to old st' (log ++ concat (map log_of groups)) ∧
    next_file_number (rg_tables st) ≤ next_file_number (rg_tables st') ∧ Forall (λ n, n < next_file_number (rg_tables st')) numbers.
Proof.
  intros Hall. revert log st. induction Hall as [|number gs numbers groups Hr Hall IH]; intros log st Hst Hk Hord; cbn [recover_logs map concat].
  - exists st. rewrite app_nil_r. split; [done|]. split; [done|]. split; [lia|constructor].
  - cbn [map concat] in Hord. rewrite app_assoc in Hord.
    destruct (recover_log_ok d old log number gs (bool_decide (numbers = [])) st Hr Hst Hk) as (st1 & -> & Hst1 & Hk1 & Hn1 & Hn2);
      [by apply in_order_app_l in Hord|].
    cbn [mbind outcome_bind fst snd ok status_OK negb]. destruct numbers as [|n2 numbers].
    + inversion Hall; subst. cbn [recover_logs map concat] in *. exists st1. rewrite app_nil_r. split; [done|]. split; [done|].
      split; [lia|]. by constructor.
    + destruct (IH (log ++ log_of gs) st1 Hst1 ltac:(by apply Hk1)) as (st2 & -> & Hst2 & Hn3 & Hn4); [by rewrite (app_assoc old)|].
      exists st2. rewrite app_assoc. split; [done|]. split; [done|]. split; [lia|]. constructor; [lia|done].
Qed.

End recovers.

(** ** What holds at every step *)

Section durable.
Context `{ComparatorLaws} `{Memory} {F : Type} `{WritableFileLaws F} {T : Type} `{Level0Laws T}.
Context (usage : MemTable → Z) (create : Z → F → Status * F) (buffer_size base : Z).

(** At most one group more than what was answered. *)
Definition one_group (reqs : list request) (extra : list batch_op) : Prop :=
  extra = [] ∨ ∃ group, group ⊆ reqs ∧ extra = ops_of group.

Lemma take_requests (s : system (F := F)) answered pending n : queue_ok base s answered pending → take n pending ⊆ sys_requests s.
Proof.
  intros Hq req Hreq. rewrite (queue_requests _ _ _ _ Hq). apply elem_of_app. right.
  rewrite <- (take_drop n pending). apply elem_of_app. by left.
Qed.

(** What of the group at hand or of a failed sync is in the log and in the tables. *)
Lemma beyond_answers (s : system (F := F)) answered pending logs imm_log groups lost applied :
  invariant_with base s answered pending logs imm_log groups lost applied →
  ∃ extra, one_group (sys_requests s) extra ∧
    concat logs ++ imm_log ++ log_of (groups ++ lost) = writes_of (base + 1) (committed answered ++ extra).
Proof.
  intros [Hq [_ _ _ Hw] _ Hp _ Hlost].
  assert (one_group (sys_requests s) applied) as Happ.
  { destruct (sys_phase s) as [| |u t l n|st e t l n]; cbn [phase_ok] in Hp; [left; apply Hp|left; apply Hp|left; apply Hp|].
    destruct Hp as (group & [[k ->] _ _ _ _ _] & [(_ & _ & -> & _)|(_ & _ & -> & _)]); [right|by left].
    eexists. split; [by eapply take_requests|done]. }
  assert (lost = [] ∨ applied = [] ∧ ∃ ops, lost = [(base + len (committed answered) + 1, ops)]) as Hcase.
  { destruct (sys_phase s) as [| |u t l n|st e t l n]; cbn [phase_ok settled] in Hp.
    - destruct Hp as (-> & _ & [[-> _]|(_ & _ & Hops)]); [by left|by right].
    - destruct Hp as (_ & -> & _ & [[-> _]|(_ & _ & Hops)]); [by left|by right].
    - left. apply Hp.
    - destruct Hp as (group & _ & [(_ & _ & _ & ->)|(_ & _ & -> & ->)]); [by left|right]. split; [done|]. by eexists. }
  destruct Hcase as [->|(-> & ops & ->)].
  - exists applied. by rewrite app_nil_r.
  - exists ops. apply Forall_singleton in Hlost as (group & Hsub & E). cbn in E. split; [right; by exists group|].
    rewrite app_nil_r in Hw. rewrite log_of_app, log_of_one, writes_of_app, <- Hw, <- !app_assoc. do 4 f_equal. lia.
Qed.

(** The tables in files and the one that is full hold the first writes, the log the others. *)
Lemma crash_readable (s : system (F := F)) content :
  0 ≤ base → invariant base s → left_by_crash usage create buffer_size s content →
  ∃ answered pending logs imm_log groups extra,
    queue_ok base s answered pending ∧ Forall2 logged (sys_tables s) logs ∧
    match db_imm_ (sys_db s) with None => imm_log = [] | Some m => logged m imm_log end ∧
    readable content groups ∧ one_group (sys_requests s) extra ∧
    concat logs ++ imm_log ++ log_of groups = writes_of (base + 1) (committed answered ++ extra).
Proof.
  intros Hbase (answered & pending & logs & imm_log & groups & lost & applied & Hinv) Hcrash. pose proof Hinv as [Hq Ht Hl Hp _ _].
  pose proof (tables_files _ _ _ _ _ _ _ Ht) as Hfiles. pose proof (tables_imm _ _ _ _ _ _ _ Ht) as Himm.
  exists answered, pending, logs, imm_log.
  assert (content = stored (dest_ (db_log_ (sys_db s))) → ∃ groups extra, queue_ok base s answered pending ∧ Forall2 logged (sys_tables s) logs ∧
    match db_imm_ (sys_db s) with None => imm_log = [] | Some m => logged m imm_log end ∧ readable content groups ∧
    one_group (sys_requests s) extra ∧ concat logs ++ imm_log ++ log_of groups = writes_of (base + 1) (committed answered ++ extra)) as Hwhole.
  { intros ->. destruct (beyond_answers _ _ _ _ _ _ _ _ Hinv) as (extra & Hone & Hw). exists (groups ++ lost), extra.
    split; [done|]. split; [done|]. split; [done|]. split; [|done]. rewrite (log_stored _ _ Hl). by apply readable_whole. }
  destruct Hcrash as [E|(u & t & l & n & r & Eph & Hf & Hlo & Hhi)]; [by apply Hwhole|]. rewrite Eph in Hp, Hf. cbn [phase_ok] in Hp.
  destruct Hp as (-> & -> & group & Hon & Hu). rewrite app_nil_r in *. pose proof (working_fits _ _ _ _ _ _ _ _ _ Hbase Hq Hon Hu) as Hg.
  unfold front_step in Hf. destruct (db_writers_ (sys_db s)) as [|w writers]; [done|].
  destruct (write_apply_ok base (sys_tables s) (sys_db s) logs imm_log groups answered u _ (ops_of group) (dbw_sync w) Ht Hl eq_refl Hu Hg)
    as (st & se & db' & Ea & _ & _ & _ & _ & Hl' & (out & (_ & Hwr & Hst') & Hfr) & _).
  rewrite Ea in Hf. cbn [mbind outcome_bind fst snd] in Hf. injection Hf as <-. cbn [fst snd] in Hhi. rewrite Hst', Hwr in Hhi.
  rewrite (log_stored _ _ Hl) in Hlo. destruct Hlo as [part ->].
  assert (part `prefix_of` out) as Hpart by (destruct Hhi as [k Hk]; exists k; rewrite <- app_assoc in Hk; by apply app_inv_head in Hk).
  destruct (Nat.lt_ge_cases (length part) (length out)) as [Hlt|Hge].
  - exists groups, []. split; [done|]. split; [done|]. split; [done|]. split; [by eapply readable_cut|]. split; [by left|].
    rewrite app_nil_r. apply Ht.
  - assert (part = out) as ->.
    { destruct Hpart as [k ->]. rewrite length_app in Hge. destruct k; [by rewrite app_nil_r|cbn in Hge; lia]. }
    exists (groups ++ [(base + len (committed answered) + 1, ops_of group)]), (ops_of group). split; [done|]. split; [done|]. split; [done|].
    split; [rewrite <- Hwr; by apply readable_whole|]. split; [right; exists group; split; [|done]|].
    + destruct (on_group _ _ _ _ _ _ _ Hon) as [k ->]. by eapply take_requests.
    + rewrite log_of_app, log_of_one, writes_of_app, <- (tables_writes _ _ _ _ _ _ _ Ht), <- !app_assoc. do 4 f_equal. lia.
Qed.

(** *** The front and the logs *)

Definition same_log (db db' : DBImpl (F := F)) : Prop :=
  db_imm_ db' = db_imm_ db ∧ db_logfile_number_ db' = db_logfile_number_ db ∧
  next_file_number_ (db_versions_ db) ≤ next_file_number_ (db_versions_ db') ∧
  last_sequence_ (db_versions_ db) ≤ last_sequence_ (db_versions_ db').

Definition new_log (db db' : DBImpl (F := F)) : Prop :=
  ok (db_bg_error_ db) = true ∧ db_imm_ db = None ∧ db_imm_ db' = Some (db_mem_ db) ∧
  db_logfile_number_ db' = next_file_number_ (db_versions_ db) ∧
  next_file_number_ (db_versions_ db') = next_file_number_ (db_versions_ db) + 1 ∧
  last_sequence_ (db_versions_ db') = last_sequence_ (db_versions_ db).

Lemma MakeRoom_log allow_delay force (db : DBImpl (F := F)) r :
  MakeRoom_round usage create buffer_size allow_delay force db = Ok r → 0 ≤ next_file_number_ (db_versions_ db) < 2 ^ 64 - 1 →
  same_log db r.2 ∨ new_log db r.2 ∧ ∃ a f, r.1 = Again a f.
Proof.
  intros E Hn. unfold MakeRoom_round in E. apply outcome_bind_inv in E as (? & _ & E).
  assert (same_log db db) as Hsame by (repeat split; lia).
  destruct (ok (db_bg_error_ db)) eqn:Eb; cbn [negb] in E; [|injection E as <-; by left].
  destruct (allow_delay && _); [injection E as <-; by left|]. destruct (negb force && _); [injection E as <-; by left|].
  destruct (bool_decide (is_Some (db_imm_ db))) eqn:Ei; [injection E as <-; by left|]. apply bool_decide_eq_false in Ei.
  destruct (_ <=? _); [injection E as <-; by left|]. apply outcome_bind_inv in E as (? & _ & E). cbn [NewFileNumber] in E.
  destruct (create _ _) as [s lfile]. destruct (negb (ok s)).
  - injection E as <-. left. unfold ReuseFileNumber. cbn. rewrite Z.eqb_refl. repeat split; cbn; lia.
  - apply outcome_bind_inv in E as (db' & E' & E). injection E as <-. right. split; [|by eexists _, _]. unfold switch_tables in E'.
    apply outcome_bind_inv in E' as (log & _ & E'). apply outcome_bind_inv in E' as (mem & _ & E'). injection E' as <-.
    split; [done|]. split; [by destruct (db_imm_ db); [destruct Ei|]|]. cbn. rewrite wrap_small by (unfold in_width; lia). done.
Qed.

Lemma answer_group_log (db : DBImpl (F := F)) last_writer status r : answer_group db last_writer status = Ok r → ∃ writers, r.2 = set_writers db writers.
Proof. unfold answer_group. intros E. apply outcome_bind_inv in E as (x & _ & E). injection E as <-. by eexists. Qed.

Lemma front_log ph (db : DBImpl (F := F)) ph' answers db' :
  front_step usage create buffer_size ph db = Ok (ph', answers, db') → 0 ≤ next_file_number_ (db_versions_ db) < 2 ^ 64 - 1 →
  same_log db db' ∨ new_log db db' ∧ ∃ a f, ph = MakingRoom a f.
Proof.
  intros E Hn. unfold front_step in E. destruct (db_writers_ db) as [|w writers]; [done|]. destruct ph as [|a f|u t l n|st e t l n].
  - injection E as _ _ <-. left. repeat split; lia.
  - apply outcome_bind_inv in E as ([r db1] & Er & E). destruct (MakeRoom_log _ _ _ _ Er Hn) as [Hs|[Hs (a' & f' & Ha)]]; cbn [fst snd] in *.
    2: { subst r. injection E as _ _ <-. right. split; [done|]. by exists a, f. }
    left. destruct r as [st|a' f']; [|by injection E as _ _ <-]. destruct (ok st && _).
    + apply outcome_bind_inv in E as ([ph1 db2] & Eg & E). injection E as _ _ <-. unfold write_group in Eg.
      apply outcome_bind_inv in Eg as ([[u t] l] & _ & Eg). apply outcome_bind_inv in Eg as (u' & _ & Eg).
      apply outcome_bind_inv in Eg as (n & _ & Eg). injection Eg as _ <-. cbn [fst snd]. by destruct t.
    + apply outcome_bind_inv in E as ([as_ db2] & Ea & E). injection E as _ _ <-. apply answer_group_log in Ea as (ws & Ea). cbn [fst snd] in *. by subst db2.
  - left. apply outcome_bind_inv in E as ([[st se] db1] & Ea & E). injection E as _ _ <-. unfold write_apply in Ea.
    apply outcome_bind_inv in Ea as ([s1 log1] & _ & Ea). apply outcome_bind_inv in Ea as ([[s2 e2] log2] & _ & Ea).
    apply outcome_bind_inv in Ea as ([s3 mem] & _ & Ea). injection Ea as _ _ <-. repeat split; cbn; lia.
  - left. apply outcome_bind_inv in E as (db1 & Ep & E). apply outcome_bind_inv in E as ([as_ db2] & Ea & E). injection E as _ _ <-.
    apply answer_group_log in Ea as (ws & Ea). cbn [fst snd] in *. subst db2. unfold write_publish in Ep.
    apply outcome_bind_inv in Ep as (v & Ev & Ep). injection Ep as <-. unfold SetLastSequence in Ev.
    apply outcome_bind_inv in Ev as (? & Hle & Ev). injection Ev as <-. destruct (_ <=? _) eqn:El in Hle; [|done]. apply Z.leb_le in El.
    revert El. set (db1 := if e then RecordBackgroundError db st else db). intros El.
    assert (db_imm_ db1 = db_imm_ db ∧ db_logfile_number_ db1 = db_logfile_number_ db ∧ db_versions_ db1 = db_versions_ db) as (E1 & E2 & E3)
      by (unfold db1, RecordBackgroundError; by destruct e, (ok (db_bg_error_ db))).
    destruct t; cbn in *; rewrite E3 in *; repeat split; cbn; rewrite ?E1, ?E2, ?E3; lia || done.
Qed.

(** *** The files *)

(** The tables of the database when it was opened, and what they hold. *)
Context (tables0 : list MemTable) (log0 : list write).

(** No write in the tables has a number above [n]. *)
Definition numbered_below (tables : list MemTable) (n : Z) : Prop :=
  Forall (λ m, ∃ log, logged m log ∧ Forall (λ w, w_seq w ≤ n) log) tables.

(** The logs before the current one that the descriptor needs. *)
Definition still_needed (v : Descriptor T) (logs : list (Z * list Z)) : list (Z * list Z) :=
  filter (λ x, dsc_log_number v ≤ x.1) logs.

Lemma still_needed_none v logs : Forall (λ x, x.1 < dsc_log_number v) logs → still_needed v logs = [].
Proof.
  induction 1 as [|x logs Hx Hl IH]; [done|]. unfold still_needed in *. rewrite filter_cons_False by lia. exact IH.
Qed.

(** An edit that is to be written: it names the tables with that of [m], and the current log. *)
Record edit_ok (s : filed (F := F) (T := T)) (m : MemTable) (edit : Descriptor T) : Prop := {
  edit_tables : level0_tables (dsc_tables edit) = tables0 ++ sys_tables (fs_system s) ++ [m];
  edit_log : dsc_log_number edit = db_logfile_number_ (fs_db s);
  edit_prev : dsc_prev_log_number edit = 0;
  edit_below : numbered_below (level0_tables (dsc_tables edit)) (dsc_last_sequence edit)
}.

(** Where the table that is full is: there is none; or it is in memory, and in the log before the current one;
    or in a file as well. *)
Inductive storage (s : filed (F := F) (T := T)) : Prop :=
  | storage_none :
      db_imm_ (fs_db s) = None → still_needed (fs_descriptor s) (fs_logs s) = [] →
      level0_tables (dsc_tables (fs_descriptor s)) = tables0 ++ sys_tables (fs_system s) →
      (fs_compaction s = Waiting ∨ fs_compaction s = Failed) → storage s
  | storage_logged m number content groups :
      db_imm_ (fs_db s) = Some m → still_needed (fs_descriptor s) (fs_logs s) = [(number, content)] →
      readable content groups → logged m (log_of groups) →
      level0_tables (dsc_tables (fs_descriptor s)) = tables0 ++ sys_tables (fs_system s) →
      match fs_compaction s with TableWritten edit => edit_ok s m edit | Installed => False | _ => True end → storage s
  | storage_written m :
      db_imm_ (fs_db s) = Some m → still_needed (fs_descriptor s) (fs_logs s) = [] →
      level0_tables (dsc_tables (fs_descriptor s)) = tables0 ++ sys_tables (fs_system s) ++ [m] →
      (fs_compaction s = Installed ∨ fs_compaction s = Failed) → storage s.

Record files_ok (s : filed (F := F) (T := T)) : Prop := {
  files_numbers : 0 < db_logfile_number_ (fs_db s) < next_file_number_ (db_versions_ (fs_db s)) ∧ db_logfile_number_ (fs_db s) < 2 ^ 64 - 1;
  files_sorted : StronglySorted (λ x y, x.1 < y.1) (fs_logs s);
  files_older : Forall (λ x, 0 < x.1 < db_logfile_number_ (fs_db s)) (fs_logs s);
  files_log_number : fs_log_number s ≤ dsc_log_number (fs_descriptor s) ≤ db_logfile_number_ (fs_db s);
  files_waiting : fs_compaction s = Waiting → fs_log_number s = dsc_log_number (fs_descriptor s);
  files_prev : dsc_prev_log_number (fs_descriptor s) = 0;
  files_below : numbered_below (tables0 ++ sys_tables (fs_system s) ++ option_list (db_imm_ (fs_db s))) (last_sequence_ (db_versions_ (fs_db s)));
  files_described : numbered_below (level0_tables (dsc_tables (fs_descriptor s))) (dsc_last_sequence (fs_descriptor s));
  files_storage : storage s
}.

Lemma numbered_below_le tables n n' : n ≤ n' → numbered_below tables n → numbered_below tables n'.
Proof.
  intros Hn Hall. eapply Forall_impl; [exact Hall|]. intros m (log & Hm & Hl). exists log. split; [done|]. eapply Forall_impl; [exact Hl|]. cbv beta. lia.
Qed.

(** A step that leaves the tables and the logs alone. *)
Lemma same_files_ok s sys :
  files_ok s → same_log (fs_db s) (sys_db sys) → sys_tables sys = sys_tables (fs_system s) → files_ok (with_system s sys).
Proof.
  intros [Hn Hs Ho Hl Hw Hp Hb Hd Hst] (Ei & En & Hnext & Hlast) Et. assert (fs_db (with_system s sys) = sys_db sys) as Edb by done.
  split; rewrite ?Edb; cbn [with_system fs_system fs_logs fs_log_number fs_descriptor fs_compaction]; rewrite ?En, ?Et, ?Ei; try done;
    [lia|by eapply numbered_below_le|].
  destruct Hst as [Hi Hneed Ht Hc|m number content groups Hi Hneed Hread Hm Ht Hc|m Hi Hneed Ht Hc]; rewrite <- Ei in Hi; rewrite <- Et in Ht.
  - by apply storage_none.
  - eapply (storage_logged _ m number content groups); try done. cbn. destruct (fs_compaction s); try done.
    destruct Hc as [H1' H2' H3' H4']. split; [by rewrite <- Et in H1'|by rewrite Edb, En|done|done].
  - by apply (storage_written _ m).
Qed.

Lemma sorted_snoc (logs : list (Z * list Z)) number content :
  StronglySorted (λ x y, x.1 < y.1) logs → Forall (λ x, 0 < x.1 < number) logs → StronglySorted (λ x y, x.1 < y.1) (logs ++ [(number, content)]).
Proof.
  induction 1 as [|x logs Hs IH Hx]; intros Ho; cbn [app]; [by repeat constructor|]. apply Forall_cons in Ho as [Hx' Ho].
  constructor; [by apply IH|]. apply Forall_app_2; [done|]. constructor; [cbn; lia|constructor].
Qed.

(** The front goes on to a new log, whose number is above the others. *)
Lemma new_log_ok s ph answers db :
  files_ok s → next_file_number_ (db_versions_ (fs_db s)) < 2 ^ 64 - 1 → invariant base (fs_system s) → new_log (fs_db s) db → (∃ a f, sys_phase (fs_system s) = MakingRoom a f) →
  files_ok (front_served s ph answers db).
Proof.
  intros [Hn Hs Ho Hl Hw Hp Hb Hd Hst] Hmax Hinv (Hbg & Hi & Hi' & Hlog & Hnext & Hlast) (a & f & Eph).
  destruct Hinv as (answered & pending & logs & imm_log & groups & lost & applied & [Hq Ht Hlo Hph _ _]).
  rewrite Eph in Hph. cbn [phase_ok] in Hph. destruct Hph as (_ & -> & _ & [[-> Hseq]|[Hbad _]]); [|unfold fs_db in Hbg; congruence].
  rewrite app_nil_r in *. unfold front_served. rewrite Hlog, (proj2 (Z.eqb_neq _ _)) by lia.
  assert (still_needed (fs_descriptor s) (fs_logs s) = [] ∧ level0_tables (dsc_tables (fs_descriptor s)) = tables0 ++ sys_tables (fs_system s) ∧
    (fs_compaction s = Waiting ∨ fs_compaction s = Failed)) as (Hneed & Hdt & Hc) by (by destruct Hst; [|congruence..]).
  set (s' := with_system _ _). assert (fs_db s' = db) as Edb by done.
  pose proof (tables_writes _ _ _ _ _ _ _ Ht) as Hwr.
  assert (Forall (λ w, w_seq w ≤ last_sequence_ (db_versions_ (fs_db s))) (log_of groups)) as Hmem.
  { apply List.Forall_forall. intros w Hw'%list_elem_of_In. unfold fs_db. rewrite Hseq.
    assert (w ∈ writes_of (base + 1) (committed answered)) as Hin by (rewrite <- Hwr, !elem_of_app; auto).
    apply writes_of_seq in Hin. lia. }
  split; rewrite ?Edb, ?Hlog, ?Hnext, ?Hlast, ?Hi';
    cbn [s' with_system with_logs fs_system fs_logs fs_log_number fs_descriptor fs_compaction served sys_tables]; try done.
  - lia.
  - by apply sorted_snoc.
  - apply Forall_app_2; [|constructor; [cbn; unfold fs_db in *; lia|constructor]]. eapply Forall_impl; [exact Ho|]. cbv beta. lia.
  - lia.
  - rewrite Hi in Hb. cbn [option_list] in *. rewrite app_nil_r in Hb. rewrite app_assoc. apply Forall_app_2; [done|]. constructor; [|constructor].
    exists (log_of groups). split; [apply Ht|done].
  - apply (storage_logged _ (db_mem_ (fs_db s)) (db_logfile_number_ (fs_db s)) (stored (dest_ (db_log_ (fs_db s)))) groups); try done.
    + cbn. unfold still_needed in *. rewrite filter_app, Hneed. cbn. rewrite decide_True by lia. done.
    + unfold fs_db. rewrite (log_stored _ _ Hlo). by apply readable_whole.
    + apply Ht.
    + cbn. by destruct Hc as [->| ->].
Qed.

Lemma table_written_ok s m t :
  files_ok s → fs_compaction s = Waiting → db_imm_ (fs_db s) = Some m → WriteLevel0Table m (dsc_tables (fs_descriptor s)) = Ok (status_OK, t) →
  files_ok (with_compaction s (TableWritten (memtable_edit (fs_db s) t)) (fs_descriptor s)).
Proof.
  intros [Hn Hs Ho Hl Hw Hp Hb Hd Hst] Hc Hm Hwrite. split; try done.
  destruct Hst as [Hi Hneed Ht _|m' number content groups Hi Hneed Hread Hlog Ht _|m' Hi Hneed Ht [Hc'|Hc']]; [congruence| |congruence..].
  assert (m' = m) as -> by congruence. eapply (storage_logged _ m number content groups); try done. cbn.
  destruct (WriteLevel0Table_ok m (dsc_tables (fs_descriptor s))) as (t' & E & Ht'). rewrite Hwrite in E. injection E as <-.
  rewrite Ht, <- app_assoc in Ht'. split; cbn; [done|done|done|]. rewrite Ht'. rewrite Hm in Hb. exact Hb.
Qed.

Lemma installed_ok s edit : files_ok s → fs_compaction s = TableWritten edit → files_ok (with_compaction s Installed edit).
Proof.
  intros [Hn Hs Ho Hl Hw Hp Hb Hd Hst] Hc.
  destruct Hst as [Hi Hneed Ht [Hc'|Hc']|m number content groups Hi Hneed Hread Hlog Ht Hedit|m Hi Hneed Ht [Hc'|Hc']]; try congruence.
  rewrite Hc in Hedit. destruct Hedit as [Het Hel Hep Heb]. split; cbn; try done; [unfold fs_db in *; cbn; lia|].
  apply (storage_written _ m); cbn; [done| |done|by left]. apply still_needed_none. rewrite Hel. eapply Forall_impl; [exact Ho|]. cbv beta. lia.
Qed.

Lemma failed_ok s d e :
  files_ok s → fs_compaction s ≠ Installed → d = fs_descriptor s ∨ fs_compaction s = TableWritten d → files_ok (background_failed s d e).
Proof.
  intros Hf Hc Hd.
  assert (files_ok (with_compaction s Failed d)) as Hf'.
  { destruct Hd as [->|Hd]; [|destruct (installed_ok s d Hf Hd) as [Hn Hs Ho Hl Hw Hp Hb Hdd Hst]; split; try done].
    - destruct Hf as [Hn Hs Ho Hl Hw Hp Hb Hdd Hst]. split; try done.
      destruct Hst as [Hi Hneed Ht _|m number content groups Hi Hneed Hread Hlog Ht Hedit|m Hi Hneed Ht _].
      + apply storage_none; try done. by right.
      + by eapply (storage_logged _ m number content groups).
      + apply (storage_written _ m); try done. by right.
    - destruct Hst as [Hi Hneed Ht [?|?]|m number content groups Hi Hneed Hread Hlog Ht Hedit|m Hi Hneed Ht _]; try done.
      apply (storage_written _ m); try done. by right. }
  apply (same_files_ok (with_compaction s Failed d)); [done| |done].
  unfold compaction_failed, RecordBackgroundError. cbn. unfold fs_db. cbn. destruct (ok _); repeat split; cbn; lia.
Qed.

Lemma committed_to_ok s m : files_ok s → fs_compaction s = Installed → db_imm_ (fs_db s) = Some m → files_ok (committed_to s m).
Proof.
  intros [Hn Hs Ho Hl Hw Hp Hb Hd Hst] Hc Hm. split; cbn; try done; [unfold fs_db in *; cbn; lia| |].
  - rewrite Hm in Hb. rewrite app_nil_r. exact Hb.
  - destruct Hst as [Hi Hneed Ht _|m' number content groups Hi Hneed Hread Hlog Ht Hedit|m' Hi Hneed Ht _]; [congruence|by rewrite Hc in Hedit|].
    assert (m' = m) as -> by congruence. apply storage_none; try done. by left.
Qed.

Lemma edited_ok s : prev_log_number_ (db_versions_ (fs_db s)) = 0 → files_ok s → fs_compaction s = Waiting → files_ok (with_compaction s Waiting (other_edit s)).
Proof.
  intros Hprev [Hn Hs Ho Hl Hw Hp Hb Hd Hst] Hc. specialize (Hw Hc).
  split; cbn; try done; [unfold fs_db in *; cbn; lia| |].
  - destruct Hst as [Hi Hneed Ht _|m number content groups Hi Hneed Hread Hlog Ht _|m Hi Hneed Ht [Hc'|Hc']]; [..|congruence|congruence];
      rewrite Ht; rewrite app_assoc in Hb; by apply Forall_app in Hb as [Hb _].
  - destruct Hst as [Hi Hneed Ht _|m number content groups Hi Hneed Hread Hlog Ht _|m Hi Hneed Ht [Hc'|Hc']]; [..|congruence|congruence].
    + apply storage_none; cbn; try done; [|by left]. unfold still_needed in *. cbn. by rewrite Hw.
    + eapply (storage_logged _ m number content groups); cbn; try done. unfold still_needed in *. cbn. by rewrite Hw.
Qed.

(** Only logs that no descriptor needs are deleted. *)
Lemma obsolete_log log_number prev manifest live filenames deleted name number :
  obsolete_files log_number prev manifest live filenames = Ok deleted → name ∈ deleted → ParseFileName name = Ok (Some (number, kLogFile)) →
  number < log_number.
Proof.
  revert deleted. induction filenames as [|name' filenames IH]; intros deleted E Hin Hp; cbn [obsolete_files] in E.
  - injection E as <-. by apply not_elem_of_nil in Hin.
  - apply outcome_bind_inv in E as (p & Ep & E). apply outcome_bind_inv in E as (names & En & E). injection E as <-.
    destruct p as [[n type]|]; [|by eapply IH]. destruct (keep_file _ _ _ _ _ _) eqn:Ek; [by eapply IH|].
    apply elem_of_cons in Hin as [->|Hin]; [|by eapply IH]. rewrite Hp in Ep. injection Ep as <- <-. cbn in Ek.
    apply orb_false_iff in Ek as [Ek _]. by apply Z.leb_gt in Ek.
Qed.

Lemma deleted_ok s number : files_ok s → number < fs_log_number s → files_ok (file_deleted s number).
Proof.
  intros [Hn Hs Ho Hl Hw Hp Hb Hd Hst] Hnum.
  assert (still_needed (fs_descriptor s) (fs_logs (file_deleted s number)) = still_needed (fs_descriptor s) (fs_logs s)) as Hneed'.
  { unfold still_needed, file_deleted. cbn. apply list_filter_filter_l. intros x Hx. lia. }
  split; cbn; try done.
  - by apply filter_sorted.
  - apply Forall_forall. intros x [_ Hx]%list_elem_of_filter. by apply (proj1 (Forall_forall _ _) Ho).
  - destruct Hst as [Hi Hneed Ht Hc|m number' content groups Hi Hneed Hread Hlog Ht Hc|m Hi Hneed Ht Hc]; rewrite <- Hneed' in Hneed.
    + by apply storage_none.
    + eapply (storage_logged _ m number' content groups); try done. cbn. destruct (fs_compaction s); try done. by destruct Hc.
    + by apply (storage_written _ m).
Qed.

Lemma file_step_ok s s' :
  creates_files create → 0 ≤ base → file_step usage create buffer_size (requests_ok base) s s' →
  files_ok s → invariant base (fs_system s) → files_ok s' ∧ invariant base (fs_system s').
Proof.
  intros Hnew Hbase Hstep Hf Hinv.
  assert (∀ sys, step usage create buffer_size (requests_ok base) (fs_system s) sys → invariant base sys) as Hsys
    by (intros sys Hst; by apply (step_ok usage create buffer_size base _ _ Hnew Hbase Hst)).
  destruct Hstep as [s req w Hgood Hfill|s ph answers db Hfront Hmax|s next level0 Hnext|s m t Hc Hm Hw|s edit Hc|s m Hc Hm|s d e He Hc Hd|s Hc|
    s manifest live filenames deleted name number Hdel Hin Hp].
  - split; [|apply Hsys; by apply step_enter]. apply same_files_ok; [done|repeat split; cbn; unfold fs_db; lia|done].
  - pose proof (files_numbers _ Hf) as Hn. split; [|apply Hsys; by apply step_front].
    destruct (front_log _ _ _ _ _ Hfront) as [Hsame|[Hlog Hph]]; [lia| |by apply new_log_ok].
    unfold front_served. rewrite (proj1 (proj2 Hsame)), Z.eqb_refl. by apply same_files_ok.
  - split; [|apply Hsys; by apply step_files]. apply same_files_ok; [done|repeat split; cbn; unfold fs_db in *; lia|done].
  - split; [|done]. by eapply table_written_ok.
  - split; [|done]. by apply installed_ok.
  - split; [by apply committed_to_ok|]. apply Hsys. by apply step_compacted.
  - split; [by apply failed_ok|]. apply Hsys. by apply step_compaction_failed.
  - split; [|done]. apply edited_ok; [|done|done]. destruct Hinv as (answered & pending & logs & imm_log & groups & lost & applied & [_ _ _ _ Hprev _]). exact Hprev.
  - split; [|done]. apply deleted_ok; [done|]. unfold DeleteObsoleteFiles in Hdel. destruct (negb _).
    + injection Hdel as <-. by apply not_elem_of_nil in Hin.
    + by eapply obsolete_log.
Qed.

(** ** The database when it is opened *)

(** What [DB::Open] leaves: an empty table and a log of its own; a descriptor that needs no older log; tables
    that hold earlier writes. *)
Record opened_files (db : DBImpl (F := F)) (v : Descriptor T) (logs : list (Z * list Z)) (log : list write) : Prop := {
  of_opened : opened base db;
  of_number : 0 < db_logfile_number_ db < next_file_number_ (db_versions_ db) ∧ db_logfile_number_ db < 2 ^ 64 - 1;
  of_sorted : StronglySorted (λ x y, x.1 < y.1) logs;
  of_older : Forall (λ x, 0 < x.1 < dsc_log_number v) logs;
  of_descriptor : dsc_log_number v ≤ db_logfile_number_ db ∧ dsc_prev_log_number v = 0 ∧ dsc_last_sequence v ≤ base;
  of_tables : tables_hold (level0_tables (dsc_tables v)) log;
  of_order : in_order log;
  of_below : Forall (λ w, w_seq w ≤ dsc_last_sequence v) log
}.

Lemma tables_numbered tables log n : tables_hold tables log → Forall (λ w, w_seq w ≤ n) log → numbered_below tables n.
Proof.
  intros (logs & Hall & <-). induction Hall as [|m l tables logs Hm Hall IH]; intros Hn; [constructor|]. cbn [concat] in Hn.
  apply Forall_app in Hn as [Hl Hn]. constructor; [by exists l|by apply IH].
Qed.

Lemma numbered_writes tables logs n : Forall2 logged tables logs → numbered_below tables n → Forall (λ w, w_seq w ≤ n) (concat logs).
Proof.
  induction 1 as [|m l tables logs Hm Hall IH]; intros Hn; [constructor|]. apply Forall_cons in Hn as [(l' & Hm' & Hl') Hn].
  cbn [concat]. apply Forall_app_2; [|by apply IH]. by rewrite (logged_unique _ _ _ Hm Hm').
Qed.

Lemma in_order_joined a b n : in_order a → in_order b → Forall (λ w, w_seq w ≤ n) a → Forall (λ w, n < w_seq w) b → in_order (a ++ b).
Proof.
  intros Ha Hb Hla Hlb. induction Ha as [|w a Ha IH Hw]; [done|]. apply Forall_cons in Hla as [Hwn Hla].
  cbn [app]. constructor; [by apply IH|]. apply Forall_app_2; [done|]. eapply Forall_impl; [exact Hlb|]. cbv beta. lia.
Qed.

Lemma start_files_ok db v logs : tables0 = level0_tables (dsc_tables v) → opened_files db v logs log0 → files_ok (files_at_start db v logs).
Proof.
  intros Et0 [Ho Hn Hs Hold (Hl & Hp & Hq) Ht Hord Hb]. pose proof (tables_numbered _ _ _ Ht Hb) as Hnb. rewrite <- Et0 in Hnb.
  split; cbn; try done; unfold fs_db; cbn.
  - eapply Forall_impl; [exact Hold|]. cbv beta. lia.
  - rewrite (opened_imm _ _ Ho). cbn [option_list app]. rewrite app_nil_r. eapply numbered_below_le; [|exact Hnb].
    by rewrite (opened_sequence _ _ Ho).
  - by rewrite <- Et0.
  - apply storage_none; cbn; unfold fs_db; cbn; [apply (opened_imm _ _ Ho)| |by rewrite app_nil_r, Et0|by left].
    apply still_needed_none. eapply Forall_impl; [exact Hold|]. cbv beta. lia.
Qed.

(** The writes that the tables of the descriptor hold, and those in the logs that it needs, are all there are. *)
Lemma files_left s content :
  0 ≤ base → files_ok s → invariant base (fs_system s) → left_by_crash usage create buffer_size (fs_system s) content →
  tables_hold tables0 log0 →
  ∃ answered pending extra old groups,
    queue_ok base (fs_system s) answered pending ∧ one_group (sys_requests (fs_system s)) extra ∧
    tables_hold (level0_tables (dsc_tables (fs_descriptor s))) old ∧
    Forall2 (λ x g, readable x.2 g) (still_needed (fs_descriptor s) (logs_left s content)) groups ∧
    old ++ concat (map log_of groups) = log0 ++ writes_of (base + 1) (committed answered ++ extra) ∧
    Forall (λ w, w_seq w ≤ dsc_last_sequence (fs_descriptor s)) old.
Proof.
  intros Hbase [Hn Hs Ho Hl Hw Hp Hb Hd Hst] Hinv Hcrash (logs0 & Hall0 & <-).
  destruct (crash_readable (fs_system s) content Hbase Hinv Hcrash) as (answered & pending & logs & imm_log & groups & extra & Hq & Hall & Himm & Hread & Hone & Hwr).
  assert (still_needed (fs_descriptor s) (logs_left s content) = still_needed (fs_descriptor s) (fs_logs s) ++ [(db_logfile_number_ (fs_db s), content)]) as Eneed.
  { unfold still_needed, logs_left. rewrite filter_app. f_equal. cbn. by rewrite decide_True by lia. }
  assert (∀ old gs, tables_hold (level0_tables (dsc_tables (fs_descriptor s))) old →
    Forall2 (λ x g, readable x.2 g) (still_needed (fs_descriptor s) (fs_logs s)) gs → old ++ concat (map log_of gs) = concat logs0 ++ concat logs ++ imm_log →
    ∃ old groups, tables_hold (level0_tables (dsc_tables (fs_descriptor s))) old ∧
      Forall2 (λ x g, readable x.2 g) (still_needed (fs_descriptor s) (logs_left s content)) groups ∧
      old ++ concat (map log_of groups) = concat logs0 ++ writes_of (base + 1) (committed answered ++ extra) ∧
      Forall (λ w, w_seq w ≤ dsc_last_sequence (fs_descriptor s)) old) as Hcase.
  { intros old gs Hold Hgs E. exists old, (gs ++ [groups]). split; [done|]. rewrite Eneed. split; [apply Forall2_app; [done|by constructor]|].
    split.
    - rewrite map_app, concat_app, app_assoc, E, <- Hwr. cbn. rewrite app_nil_r. by rewrite <- !app_assoc.
    - destruct Hold as (ls & Hls & <-). by eapply numbered_writes. }
  assert (∃ old groups, tables_hold (level0_tables (dsc_tables (fs_descriptor s))) old ∧
      Forall2 (λ x g, readable x.2 g) (still_needed (fs_descriptor s) (logs_left s content)) groups ∧
      old ++ concat (map log_of groups) = concat logs0 ++ writes_of (base + 1) (committed answered ++ extra) ∧
      Forall (λ w, w_seq w ≤ dsc_last_sequence (fs_descriptor s)) old) as (old & gs & H1' & H2' & H3' & H4').
  { destruct Hst as [Hi Hneed Ht _|m number c gi Hi Hneed Hri Hm Ht _|m Hi Hneed Ht _]; unfold fs_db in Hi; rewrite Hi in Himm.
    - subst imm_log. apply (Hcase (concat logs0 ++ concat logs) []).
      + rewrite Ht. exists (logs0 ++ logs). split; [by apply Forall2_app|by rewrite concat_app].
      + rewrite Hneed. constructor.
      + cbn. by rewrite !app_nil_r.
    - apply (Hcase (concat logs0 ++ concat logs) [gi]).
      + rewrite Ht. exists (logs0 ++ logs). split; [by apply Forall2_app|by rewrite concat_app].
      + rewrite Hneed. by constructor.
      + cbn. by rewrite app_nil_r, (logged_unique _ _ _ Himm Hm), <- app_assoc.
    - apply (Hcase (concat logs0 ++ concat logs ++ imm_log) []).
      + rewrite Ht. exists (logs0 ++ logs ++ [imm_log]). split; [by apply Forall2_app; [|apply Forall2_app; [|constructor]]|].
        rewrite !concat_app. cbn. by rewrite app_nil_r.
      + rewrite Hneed. constructor.
      + cbn. by rewrite app_nil_r. }
  by exists answered, pending, extra, old, gs.
Qed.

End durable.

(** ** Recovery from what a crash leaves *)

Section recovery_ok.
Context `{ComparatorLaws} `{Memory} {G : Type} `{SequentialFileLaws G} {F : Type} `{WritableFileLaws F} {T : Type} `{FileNumbersLaws T}.
Context {D : Type} `{Directory D T G F}.

(** What [Recover] finds in the directory, once it has the lock: the descriptor, the files of the logs and
    of the tables by their names, and what can be read from the logs; [fuel] bounds the reading. *)
Record directory_holds (v : Descriptor T) (logs : list (Z * list Z)) (fuel : nat) (d : D) : Prop := {
  dh_lock : (LockFile d).1 = status_OK;
  dh_current : CurrentFileExists (LockFile d).2 = true;
  dh_found : ∃ v' live save names files,
    VersionSet_Recover (LockFile d).2 = Ok (status_OK, v', live, save) ∧
    dsc_log_number v' = dsc_log_number v ∧ dsc_prev_log_number v' = dsc_prev_log_number v ∧
    dsc_last_sequence v' = dsc_last_sequence v ∧ level0_tables (dsc_tables v') = level0_tables (dsc_tables v) ∧
    GetChildren (LockFile d).2 = (status_OK, names) ∧ Forall2 (λ name p, ParseFileName name = Ok p) names files ∧
    omap log_file files ≡ₚ map fst logs ∧ live ⊆ file_numbers files;
  dh_logs number content : (number, content) ∈ logs →
    ∃ file, NewSequentialFile (LockFile d).2 number = (status_OK, file) ∧ steady file ∧ unread file = content ∧
      len content < 2 ^ 31 ∧ (length content < fuel)%nat;
  dh_append number f size : AppendableLog (LockFile d).2 number = Some (f, size) → working f ∧ 0 ≤ size
}.

Context (usage : MemTable → Z) (buffer_size : Z) (paranoid reuse create_if_missing : bool) (dbname : Slice).

Lemma filter_map_fst (n : Z) (logs : list (Z * list Z)) : filter (λ k, n ≤ k) (map fst logs) = map fst (filter (λ x, n ≤ x.1) logs).
Proof.
  induction logs as [|x logs IH]; [done|]. cbn [map]. rewrite !filter_cons. by destruct (decide (n ≤ x.1)); cbn [map]; rewrite IH.
Qed.

Lemma nothing_missing live files : live ⊆ file_numbers files → filter (λ n, n ∉ file_numbers files) live = [].
Proof.
  induction live as [|n live IH]; intros Hsub; [done|]. rewrite filter_cons_False; [|intros Hn; apply Hn, Hsub; by left].
  apply IH. intros k Hk. apply Hsub. by right.
Qed.

Lemma Recover_ok v logs fuel d groups old :
  directory_holds v logs fuel d → StronglySorted (λ x y, x.1 < y.1) logs → Forall (λ x, 0 < x.1 < 2 ^ 64 - 1) logs → dsc_prev_log_number v = 0 →
  Forall2 (λ x g, readable x.2 g) (still_needed v logs) groups → tables_hold (level0_tables (dsc_tables v)) old →
  Forall (λ w, w_seq w ≤ dsc_last_sequence v) old → in_order (old ++ concat (map log_of groups)) →
  ∃ r, Recover usage buffer_size paranoid reuse create_if_missing false dbname fuel fuel d = Ok (status_OK, Some r) ∧
    tables_hold (level0_tables (dsc_tables (rd_descriptor r)) ++ option_list (snd <$> rd_kept r)) (old ++ concat (map log_of groups)) ∧
    Forall (λ w, w_seq w ≤ dsc_last_sequence (rd_descriptor r)) (old ++ concat (map log_of groups)) ∧
    Forall (λ x, x.1 < next_file_number (dsc_tables (rd_descriptor r))) (still_needed v logs).
Proof.
  intros [Hlock Hcur (v' & live & save & names & files & Hv & En & Ep & El & Et & Hch & Hparse & Hperm & Hlive) Hlogs Happ] Hs Hpos Hprev Hread Hold Hbelow Hord.
  unfold Recover, open_directory. destruct (LockFile d) as [s d']. cbn [fst snd] in *. subst s.
  rewrite Hcur. cbn [ok status_OK negb]. rewrite Hv. cbn [mbind outcome_bind ok status_OK negb]. rewrite Hch. cbn [ok status_OK negb].
  rewrite (list_logs_ok _ _ _ _ _ Hparse), (nothing_missing _ _ Hlive). cbn [mbind outcome_bind fst snd].
  rewrite Ep, Hprev, En, (needed_logs _ _ (map fst logs) Hperm), filter_map_fst; [..|by apply Forall_map; eapply Forall_impl; [exact Hpos|cbv beta; lia]].
  2: { clear -Hs. induction Hs as [|x logs Hs IH Hx]; cbn [map]; constructor; [done|by apply Forall_map]. }
  set (st := {| rg_save_manifest := save; rg_max_sequence := 0; rg_tables := dsc_tables v'; rg_kept := None |}).
  destruct (recover_logs_ok (F := F) usage buffer_size paranoid reuse fuel d' old [] (map fst (still_needed v logs)) groups st) as (st' & E & [Ht Hq] & _ & Hnum).
  - assert (Forall (λ x, x ∈ logs) (still_needed v logs)) as Hin by (apply Forall_forall; intros x [_ Hx]%list_elem_of_filter; done).
    clear -Hread Hin Hpos Hlogs Happ. induction Hread as [|[number content] g l groups Hg Hread IH]; cbn [map]; [constructor|].
    apply Forall_cons in Hin as [Hx Hin]. constructor; [|by apply IH]. pose proof (proj1 (Forall_forall _ _) Hpos _ Hx) as Hn. cbn [fst snd] in *.
    destruct (Hlogs _ _ Hx) as (file & ? & ? & ? & ? & ?). split; [lia|]. split; [|apply Happ]. by exists content, file.
  - split; [|constructor]. cbn. rewrite Et, !app_nil_r. exact Hold.
  - done.
  - by rewrite app_nil_r.
  - unfold still_needed in E. rewrite E. cbn [mbind outcome_bind fst snd ok status_OK]. eexists. split; [done|]. cbn [finish_logs rd_descriptor rd_kept dsc_tables dsc_last_sequence].
    split; [exact Ht|]. split; [|by apply Forall_map in Hnum]. rewrite El. cbn [app] in Hq.
    apply Forall_app_2; (eapply Forall_impl; [first [exact Hbelow|exact Hq]|]); intros w Hle; cbv beta in *; destruct (Z.ltb_spec (dsc_last_sequence v) (rg_max_sequence st')); lia.
Qed.

End recovery_ok.

(** ** Properties *)


(** A run with its files. *)
Fixpoint run_files {F T} `{Comparator} `{Memory} `{WritableFileLaws F} usage (create : Z → F → Status * F) buffer_size
    (events : list event) (s : filed (F := F) (T := T)) : outcome filed :=
  match events with
  | [] => Ok s
  | Call req :: events => w ← fill req; run_files usage create buffer_size events (with_system s (enter (fs_system s) req w))
  | Front :: events =>
      r ← front_step usage create buffer_size (sys_phase (fs_system s)) (fs_db s);
      _ ← require (next_file_number_ (db_versions_ (fs_db s)) <? 2 ^ 64 - 1) OutOfBounds;
      run_files usage create buffer_size events (front_served s r.1.1 r.1.2 r.2)
  end.

Lemma run_files_steps `{ComparatorLaws} `{Memory} `{WritableFileLaws F} `{Level0 T} usage (create : Z → F → Status * F) buffer_size base events
    (s s' : filed (F := F) (T := T)) :
  requests_ok base (sys_requests (fs_system s) ++ calls events) →
  run_files usage create buffer_size events s = Ok s' → rtc (file_step usage create buffer_size (requests_ok base)) s s'.
Proof.
  revert s. induction events as [|[req|] events IH]; intros s Hok; cbn [run_files calls flat_map].
  - by intros [= <-].
  - intros Hrun. apply outcome_bind_inv in Hrun as (w & Ef & Hrun). cbn [calls flat_map] in Hok. rewrite app_assoc in Hok.
    eapply rtc_l; [apply (filed_enter _ _ _ _ s req w); [|exact Ef]|by apply IH].
    destruct Hok as (Hd & Hf & Hmax). rewrite map_app in Hd. rewrite ops_of_app, length_app in Hmax.
    apply NoDup_app in Hd as (Hd & _ & _). apply Forall_app in Hf as [Hf _]. split; [done|]. split; [done|]. lia.
  - intros Hrun. apply outcome_bind_inv in Hrun as ([[ph answers] db] & Ef & Hrun). apply outcome_bind_inv in Hrun as (u & Hn & Hrun).
    destruct (_ <? _) eqn:El in Hn; [|done]. apply Z.ltb_lt in El. cbn [fst snd] in Hrun.
    eapply rtc_l; [by apply filed_front|]. apply IH; [|done]. cbn [calls flat_map] in Hok. unfold front_served. by destruct (_ =? _).
Qed.

(** The files as the list of their tables with the next number; a directory with a descriptor and logs. *)
#[local] Instance counted_level0 : Level0 (list MemTable * Z) := { WriteLevel0Table m t := Ok (status_OK, (t.1 ++ [m], t.2 + 1)) }.
#[local] Instance counted_level0_laws : Level0Laws (list MemTable * Z).
Proof. refine {| level0_tables := fst |}. intros m t. by exists (t.1 ++ [m], t.2 + 1). Defined.
#[local] Instance counted_numbers : FileNumbers (list MemTable * Z) := { next_file_number t := t.2; set_next_file_number t n := (t.1, n) }.
#[local] Instance counted_numbers_laws : FileNumbersLaws (list MemTable * Z).
Proof. split; [done..|]. intros m t s t' [= <- <-]. cbn. lia. Qed.

Definition log_content (logs : list (Z * list Z)) (number : Z) : list Z :=
  from_option snd [] (list_find (λ x, x.1 = number) logs ≫= λ x, Some x.2).

#[local] Instance sample_directory :
    Directory (Descriptor (list MemTable * Z) * list (Z * list Z)) (list MemTable * Z) (PosixSequentialFile * kernel) (PosixWritableFile * kernel) := {
  LockFile d := (status_OK, d);
  CurrentFileExists _ := true;
  NewDB d := (status_OK, d);
  VersionSet_Recover d := Ok (status_OK, d.1, [], false);
  GetChildren d := (status_OK, text "CURRENT" :: text "MANIFEST-000002" :: map (λ x, print_06 x.1 ++ text ".log") d.2);
  NewSequentialFile d number := (status_OK, sample_reading (log_content d.2 number));
  AppendableLog d number := Some (appending (log_content d.2 number), len (log_content d.2 number))
}.

#[local] Existing Instance zero_memory.

(** The third call finds the table full, and a new log is begun while the table is not yet in a file. *)
Definition sample_usage (m : MemTable) : Z := len (nodes (table_ m)).
Definition sample_files_events : list event := sample_events ++ [Front; Front; Front; Front; Front].
Definition sample_descriptor : Descriptor (list MemTable * Z) :=
  {| dsc_log_number := 3; dsc_prev_log_number := 0; dsc_last_sequence := 7; dsc_tables := ([], 3) |}.

Lemma sample_files_end :
  (db ← sample_db; s ← run_files sample_usage sample_create 2 sample_files_events (files_at_start db sample_descriptor []);
   Ok (map (λ x, (x.1, len x.2)) (fs_logs s), db_logfile_number_ (fs_db s), len (stored (dest_ (db_log_ (fs_db s)))),
       sys_requests (fs_system s), sys_answers (fs_system s))) =
  Ok ([(3, 33)], 4, 23, calls sample_files_events, [(1%nat, status_OK); (2%nat, status_OK); (3%nat, status_OK)]).
Proof. by vm_compute. Qed.

Lemma sample_files_run : ∃ db s content,
  sample_db = Ok db ∧ run_files sample_usage sample_create 2 sample_files_events (files_at_start db sample_descriptor []) = Ok s ∧
  fs_logs s = [(3, content)] ∧ len content = 33 ∧ db_logfile_number_ (fs_db s) = 4 ∧ len (stored (dest_ (db_log_ (fs_db s)))) = 23 ∧
  sys_requests (fs_system s) = calls sample_files_events ∧
  sys_answers (fs_system s) = [(1%nat, status_OK); (2%nat, status_OK); (3%nat, status_OK)].
Proof.
  pose proof sample_files_end as Hend. apply outcome_bind_inv in Hend as (db & Edb & Hend). apply outcome_bind_inv in Hend as (s & Es & Hend).
  injection Hend as E1 E2 E3 E4 E5. apply map_eq_cons in E1 as ([number content] & rest & El & Ex & Erest).
  apply map_eq_nil in Erest as ->. injection Ex as -> Ex. exists db, s, content. by split_and!.
Qed.

Lemma sample_opened_files db : sample_db = Ok db → opened_files 7 db sample_descriptor [] [].
Proof.
  intros Edb. pose proof (sample_opened db Edb) as Ho. vm_compute in Edb. injection Edb as <-.
  split; [exact Ho|..]; try by constructor. by exists [].
Qed.

(** What [Recover] finds in such a directory with two logs. *)
Lemma sample_directory_holds (v : Descriptor (list MemTable * Z)) c3 c4 :
  len c3 = 33 → len c4 = 23 → directory_holds v [(3, c3); (4, c4)] 100 (v, [(3, c3); (4, c4)]).
Proof.
  intros H3 H4. split; [done|done| | |].
  - exists v, [], false, [text "CURRENT"; text "MANIFEST-000002"; text "000003.log"; text "000004.log"],
      [Some (0, kCurrentFile); Some (2, kDescriptorFile); Some (3, kLogFile); Some (4, kLogFile)].
    split_and!; try done; [by repeat constructor|apply list_subseteq_nil].
  - intros number content Hin. rewrite !elem_of_cons in Hin. destruct Hin as [E|[E|E]]; [..|by apply not_elem_of_nil in E];
      injection E as -> ->; eexists; (split; [done|]); (split; [done|]); (split; [done|]); lia.
  - intros number f size [= <- <-]. split; [done|lia].
Qed.

