(* ===== verification/LdbTwoLevel.v ===== *)
(** * LevelDB, table/two_level_iterator: an iterator over blocks

    An index iterator gives the handles of blocks, a function opens a block; together they
    are an iterator over the entries of all the blocks, empty ones skipped. *)

From S2P Require Import Prelude LdbCoding LdbEnv LdbOrder LdbIter.

Section two_level.
Context {Ix D : Type} `{!Iterator Ix} `{!Iterator D}.

(** [block_function_] with its argument and options; the rounds that the loops may take. *)
Context (block_function : Slice → outcome D) (rounds : nat).

Record TwoLevelIterator : Type := {
  tl_status_ : Status; index_iter_ : IteratorWrapper Ix; data_iter_ : IteratorWrapper D;
  data_block_handle_ : Slice
}.

Definition new_TwoLevelIterator (index_iter : Ix) : outcome TwoLevelIterator :=
  w ← wrapper_Set new_IteratorWrapper (Some index_iter);
  Ok {| tl_status_ := status_OK; index_iter_ := w; data_iter_ := new_IteratorWrapper;
        data_block_handle_ := [] |}.

Definition SaveError (this : TwoLevelIterator) (s : Status) : TwoLevelIterator :=
  if ok (tl_status_ this) && negb (ok s)
  then {| tl_status_ := s; index_iter_ := index_iter_ this; data_iter_ := data_iter_ this;
          data_block_handle_ := data_block_handle_ this |}
  else this.

Definition set_data (this : TwoLevelIterator) (w : IteratorWrapper D) : TwoLevelIterator :=
  {| tl_status_ := tl_status_ this; index_iter_ := index_iter_ this; data_iter_ := w;
     data_block_handle_ := data_block_handle_ this |}.

Definition set_index (this : TwoLevelIterator) (w : IteratorWrapper Ix) : TwoLevelIterator :=
  {| tl_status_ := tl_status_ this; index_iter_ := w; data_iter_ := data_iter_ this;
     data_block_handle_ := data_block_handle_ this |}.

Definition has_data (this : TwoLevelIterator) : bool :=
  match iter_ (data_iter_ this) with Some _ => true | None => false end.

Definition SetDataIterator (this : TwoLevelIterator) (data_iter : option D) : outcome TwoLevelIterator :=
  this ← (if has_data this then s ← wrapper_status (data_iter_ this); Ok (SaveError this s) else Ok this);
  w ← wrapper_Set (data_iter_ this) data_iter;
  Ok (set_data this w).

Definition InitDataBlock (this : TwoLevelIterator) : outcome TwoLevelIterator :=
  if negb (valid_ (index_iter_ this)) then SetDataIterator this None
  else
    handle ← wrapper_value (index_iter_ this);
    if has_data this && (slice_compare handle (data_block_handle_ this) =? 0) then Ok this
    else
      iter ← block_function handle;
      SetDataIterator {| tl_status_ := tl_status_ this; index_iter_ := index_iter_ this;
                         data_iter_ := data_iter_ this; data_block_handle_ := handle |} (Some iter).

(** [if (data_iter_.iter() != nullptr) data_iter_.move()] *)
Definition move_data (move : IteratorWrapper D → outcome (IteratorWrapper D)) (this : TwoLevelIterator) :
    outcome TwoLevelIterator :=
  if has_data this then w ← move (data_iter_ this); Ok (set_data this w) else Ok this.

Definition move_index (move : IteratorWrapper Ix → outcome (IteratorWrapper Ix)) (this : TwoLevelIterator) :
    outcome TwoLevelIterator :=
  w ← move (index_iter_ this); Ok (set_index this w).

(** The two loops that skip empty blocks differ in the direction. *)
Fixpoint skip_empty (move : IteratorWrapper Ix → outcome (IteratorWrapper Ix))
    (enter : IteratorWrapper D → outcome (IteratorWrapper D)) (fuel : nat) (this : TwoLevelIterator) :
    outcome TwoLevelIterator :=
  match fuel with
  | O => Fault Diverges
  | S fuel =>
      if negb (has_data this) || negb (valid_ (data_iter_ this)) then
        if negb (valid_ (index_iter_ this)) then SetDataIterator this None
        else
          this ← move_index move this;
          this ← InitDataBlock this;
          this ← move_data enter this;
          skip_empty move enter fuel this
      else Ok this
  end.

Definition SkipEmptyDataBlocksForward : TwoLevelIterator → outcome TwoLevelIterator :=
  skip_empty wrapper_Next wrapper_SeekToFirst rounds.
Definition SkipEmptyDataBlocksBackward : TwoLevelIterator → outcome TwoLevelIterator :=
  skip_empty wrapper_Prev wrapper_SeekToLast rounds.

Definition TwoLevel_Seek (this : TwoLevelIterator) (target : Slice) : outcome TwoLevelIterator :=
  this ← move_index (λ w, wrapper_Seek w target) this;
  this ← InitDataBlock this;
  this ← move_data (λ w, wrapper_Seek w target) this;
  SkipEmptyDataBlocksForward this.

Definition TwoLevel_SeekToFirst (this : TwoLevelIterator) : outcome TwoLevelIterator :=
  this ← move_index wrapper_SeekToFirst this;
  this ← InitDataBlock this;
  this ← move_data wrapper_SeekToFirst this;
  SkipEmptyDataBlocksForward this.

Definition TwoLevel_SeekToLast (this : TwoLevelIterator) : outcome TwoLevelIterator :=
  this ← move_index wrapper_SeekToLast this;
  this ← InitDataBlock this;
  this ← move_data wrapper_SeekToLast this;
  SkipEmptyDataBlocksBackward this.

Definition TwoLevel_Next (this : TwoLevelIterator) : outcome TwoLevelIterator :=
  _ ← require (valid_ (data_iter_ this)) OutOfBounds;
  w ← wrapper_Next (data_iter_ this);
  SkipEmptyDataBlocksForward (set_data this w).

Definition TwoLevel_Prev (this : TwoLevelIterator) : outcome TwoLevelIterator :=
  _ ← require (valid_ (data_iter_ this)) OutOfBounds;
  w ← wrapper_Prev (data_iter_ this);
  SkipEmptyDataBlocksBackward (set_data this w).

(** The index always has an iterator. *)
Definition TwoLevel_status (this : TwoLevelIterator) : Status :=
  let index_status := match iter_ (index_iter_ this) with Some it => Iterator_status it | None => status_OK end in
  if negb (ok index_status) then index_status
  else match iter_ (data_iter_ this) with
       | Some it => if negb (ok (Iterator_status it)) then Iterator_status it else tl_status_ this
       | None => tl_status_ this
       end.

#[export] Instance two_level_iterator : Iterator TwoLevelIterator := {|
  Iterator_Valid this := valid_ (data_iter_ this);
  Iterator_SeekToFirst := TwoLevel_SeekToFirst;
  Iterator_SeekToLast := TwoLevel_SeekToLast;
  Iterator_Seek := TwoLevel_Seek;
  Iterator_Next := TwoLevel_Next;
  Iterator_Prev := TwoLevel_Prev;
  Iterator_key this := wrapper_key (data_iter_ this);
  Iterator_value this := wrapper_value (data_iter_ this);
  Iterator_status := TwoLevel_status
|}.

End two_level.

Arguments TwoLevelIterator Ix D : clear implicits.

(** ** What the index and the blocks promise *)

Section refinement.
Context {Ix D : Type} `{!Iterator Ix} `{!Iterator D} `{ComparatorLaws}.
Context (block_function : Slice → outcome D) (rounds : nat).

Abbreviation entries := (list (Slice * Slice)).

(** The index, with the entries of the block of each handle: a key of the index separates
    the keys of its block, and of those before, from the keys of the blocks after. *)
Context (index : entries) (RI : Ix → nat → Prop) (block : Slice → entries) (RD : Slice → D → nat → Prop).

Record indexed : Prop := {
  indexed_index : iterates index RI;
  indexed_block k h : (k, h) ∈ index → iterates (block h) (RD h);
  indexed_opens k h : (k, h) ∈ index → ∃ d c, block_function h = Ok d ∧ RD h d c;
  indexed_keys k h key value : (k, h) ∈ index → (key, value) ∈ block h → key_ok key;
  indexed_index_keys k h : (k, h) ∈ index → key_ok k;
  indexed_upto i k h key value : index !! i = Some (k, h) → (key, value) ∈ block h → order key k ≤ 0;
  indexed_above i j k h k' h' key value : index !! i = Some (k, h) → index !! j = Some (k', h') → (i < j)%nat →
    (key, value) ∈ block h' → order k key < 0
}.

Context (HI : indexed) (Hrounds : (length index + 2 ≤ rounds)%nat).

Definition blocks : list entries := map (λ e, block e.2) index.
Definition all_entries : entries := concat blocks.
Definition start (i : nat) : nat := length (concat (take i blocks)).

Abbreviation N := (length index).
Abbreviation TL := (TwoLevelIterator Ix D).

Lemma start_S i k h : index !! i = Some (k, h) → start (S i) = (start i + length (block h))%nat.
Proof.
  intros Hi. unfold start. rewrite (take_S_r blocks i (block h)).
  - rewrite concat_app, length_app. cbn. rewrite app_nil_r. lia.
  - unfold blocks. by rewrite list_lookup_fmap, Hi.
Qed.

Lemma start_end : start N = length all_entries.
Proof. unfold start, all_entries, blocks. rewrite take_ge; [done|]. by rewrite length_map. Qed.

(** A position of the whole list, from a block and a position in it. *)
Lemma all_entries_lookup i k h j e :
  index !! i = Some (k, h) → block h !! j = Some e → all_entries !! (start i + j)%nat = Some e.
Proof.
  intros Hi Hj. unfold all_entries, start.
  assert (blocks !! i = Some (block h)) as Hb by (unfold blocks; by rewrite list_lookup_fmap, Hi).
  assert (concat blocks = concat (take i blocks) ++ block h ++ concat (drop (S i) blocks)) as ->.
  { rewrite <- (take_drop_middle blocks i (block h) Hb) at 1. by rewrite concat_app. }
  rewrite lookup_app_r by lia. rewrite lookup_app_l; [|apply lookup_lt_Some in Hj; lia].
  by replace (_ + j - _)%nat with j by lia.
Qed.

Lemma start_bound i j k h :
  index !! i = Some (k, h) → (j < length (block h))%nat → (start i + j < length all_entries)%nat.
Proof.
  intros Hi Hj. destruct (lookup_lt_is_Some_2 (block h) j Hj) as [e He].
  eapply lookup_lt_Some, all_entries_lookup; eauto.
Qed.

Lemma all_entries_inv c e :
  all_entries !! c = Some e →
  ∃ i k h j, index !! i = Some (k, h) ∧ block h !! j = Some e ∧ c = (start i + j)%nat.
Proof.
  clear HI Hrounds. unfold all_entries, start, blocks. revert c. induction index as [|[k h] l IH]; intros c Hc; [done|].
  cbn [map concat] in Hc. apply lookup_app_Some in Hc as [Hc|[Hge Hc]].
  - exists 0%nat, k, h, c. done.
  - destruct (IH _ Hc) as (i & k' & h' & j & Hi & Hj & Heq). exists (S i), k', h', j. split_and!; [done|done|].
    cbn [map take concat]. rewrite length_app. cbn [snd] in *. lia.
Qed.

(** ** The states of the iterator *)

(** The data iterator is on a block that the index knows. *)
Definition data_ok (it : TL) : Prop :=
  has_data it = false ∨
  ∃ k j, (k, data_block_handle_ it) ∈ index ∧ wraps (block (data_block_handle_ it)) (RD (data_block_handle_ it)) (data_iter_ it) j.

(** The index is at [i] and the data iterator at [j] of its block, if there is one. *)
Definition placed (it : TL) (i j : nat) : Prop :=
  tl_status_ it = status_OK ∧ wraps index RI (index_iter_ it) i ∧
  match index !! i with
  | Some (_, h) => has_data it = true ∧ data_block_handle_ it = h ∧ wraps (block h) (RD h) (data_iter_ it) j
  | None => has_data it = false ∧ j = 0%nat
  end.

Definition at_end (it : TL) : Prop :=
  tl_status_ it = status_OK ∧ (∃ i, wraps index RI (index_iter_ it) i) ∧
  has_data it = false ∧ valid_ (data_iter_ it) = false.

(** The relation to positions. *)
Definition two_level_at (it : TL) (c : nat) : Prop :=
  (∃ i j k h, index !! i = Some (k, h) ∧ (j < length (block h))%nat ∧ c = (start i + j)%nat ∧ placed it i j) ∨
  c = length all_entries ∧ at_end it.

Lemma wraps_has_data it l (R : D → nat → Prop) j : wraps l R (data_iter_ it) j → has_data (Ix:=Ix) it = true.
Proof. intros (d & Hd & _). unfold has_data. by rewrite Hd. Qed.

Lemma placed_data_ok it i j : placed it i j → data_ok it.
Proof.
  intros (_ & _ & Hp). destruct (index !! i) as [[k h]|] eqn:Hi; [|by left; destruct Hp].
  destruct Hp as (_ & Hh & Hw). right. rewrite Hh. exists k, j. split; [by eapply list_elem_of_lookup_2|done].
Qed.

Lemma SetDataIterator_none it :
  tl_status_ it = status_OK → data_ok it → (∃ i, wraps index RI (index_iter_ it) i) →
  ∃ it', SetDataIterator it None = Ok it' ∧ at_end it'.
Proof.
  intros Hs Hd Hi. unfold SetDataIterator. destruct (has_data it) eqn:E.
  - destruct Hd as [Hd|(k & j & Hin & Hw)]; [congruence|].
    rewrite (wraps_status _ _ (indexed_block HI _ _ Hin) _ _ Hw). cbn [mbind outcome_bind wrapper_Set].
    unfold SaveError. rewrite andb_false_r. by eexists.
  - cbn [mbind outcome_bind wrapper_Set]. by eexists.
Qed.

(** The data iterator is opened, or kept when it is the right one. *)
Lemma InitDataBlock_ok it i :
  tl_status_ it = status_OK → data_ok it → wraps index RI (index_iter_ it) i →
  ∃ it', InitDataBlock block_function it = Ok it' ∧ tl_status_ it' = status_OK ∧
    index_iter_ it' = index_iter_ it ∧
    match index !! i with
    | Some (_, h) => data_block_handle_ it' = h ∧ ∃ j, wraps (block h) (RD h) (data_iter_ it') j
    | None => has_data it' = false
    end.
Proof.
  intros Hs Hd Hi. unfold InitDataBlock. destruct (wraps_valid _ _ (indexed_index HI) _ _ Hi) as [Hle Hv]. rewrite Hv.
  destruct (index !! i) as [[k h]|] eqn:Hk.
  - pose proof (lookup_lt_Some _ _ _ Hk) as Hlt. rewrite (proj2 (Nat.ltb_lt _ _) Hlt). cbn [negb].
    rewrite (proj2 (wraps_entry _ _ (indexed_index HI) _ _ _ _ Hi Hk)). cbn [mbind outcome_bind].
    pose proof (list_elem_of_lookup_2 _ _ _ Hk) as Hin.
    destruct (has_data it && (slice_compare h (data_block_handle_ it) =? 0)) eqn:E; split_bool.
    + exists it. split; [done|]. split; [done|]. split; [done|].
      match goal with E : slice_compare _ _ = 0 |- _ => rename E into Ec end.
      rewrite slice_compare_lexicographic in Ec. apply lexicographic_eq in Ec. split; [done|].
      destruct Hd as [Hd|(k' & j & Hin' & Hw)]; [congruence|]. rewrite Ec. by exists j.
    + clear E. destruct (indexed_opens HI _ _ Hin) as (d & c & -> & Hdc). cbn [mbind outcome_bind].
      unfold SetDataIterator, has_data. cbn [data_iter_].
      destruct (Update_ok _ _ (indexed_block HI _ _ Hin) (data_iter_ it) d c Hdc) as (w & Hu & Hw).
      destruct (iter_ (data_iter_ it)) as [d0|] eqn:Ei.
      * destruct Hd as [Hd|(k' & j & Hin' & Hw')]; [unfold has_data in Hd; rewrite Ei in Hd; done|].
        rewrite (wraps_status _ _ (indexed_block HI _ _ Hin') _ _ Hw'). cbn [mbind outcome_bind wrapper_Set].
        unfold SaveError. rewrite andb_false_r. cbn [data_iter_]. rewrite Hu. cbn [mbind outcome_bind].
        eexists. split; [reflexivity|]. cbn. split_and!; try done. by exists c.
      * cbn [mbind outcome_bind wrapper_Set data_iter_]. rewrite Hu. cbn [mbind outcome_bind].
        eexists. split; [reflexivity|]. cbn. split_and!; try done. by exists c.
  - pose proof (proj1 (lookup_ge_None _ _) Hk) as Hge. rewrite (proj2 (Nat.ltb_ge _ _) Hge). cbn [negb].
    replace i with N in * by lia. destruct (SetDataIterator_none it Hs Hd (ex_intro _ _ Hi)) as (it' & E & Hend).
    exists it'. split; [done|]. destruct Hend as (H1 & H2 & H3 & _). split; [done|]. split; [|done].
    unfold SetDataIterator in E. destruct (has_data it).
    + unfold outcome_bind, mbind in E. destruct (wrapper_status (data_iter_ it)) as [st| |]; try done.
      cbn in E. injection E as <-. unfold SaveError. by destruct (_ && _).
    + cbn in E. by injection E as <-.
Qed.

(** Opening the block of the index and moving in it. *)
Lemma enter_block it i enter (pos : entries → nat) :
  tl_status_ it = status_OK → data_ok it → wraps index RI (index_iter_ it) i →
  (∀ k h j w, index !! i = Some (k, h) → wraps (block h) (RD h) w j →
     ∃ w', enter w = Ok w' ∧ wraps (block h) (RD h) w' (pos (block h))) →
  ∃ it', (this ← InitDataBlock block_function it; move_data enter this) = Ok it' ∧
    placed it' i (match index !! i with Some (_, h) => pos (block h) | None => 0 end).
Proof.
  intros Hs Hd Hi He. destruct (InitDataBlock_ok it i Hs Hd Hi) as (it1 & -> & Hs1 & Hi1 & Hm). cbn [mbind outcome_bind].
  unfold move_data, placed. destruct (index !! i) as [[k h]|] eqn:Hk.
  - destruct Hm as [Hh (j & Hw)]. rewrite (wraps_has_data _ _ _ _ Hw).
    destruct (He k h j _ eq_refl Hw) as (w' & -> & Hw'). cbn [mbind outcome_bind]. eexists. split; [reflexivity|].
    cbn. split_and!; try done; [congruence|by eapply wraps_has_data].
  - rewrite Hm. eexists. split; [reflexivity|]. split_and!; try done. congruence.
Qed.

Lemma placed_end it : placed it N 0 → tl_status_ it = status_OK ∧ has_data it = false ∧ wraps index RI (index_iter_ it) N.
Proof. intros (Hs & Hi & Hp). rewrite (proj2 (lookup_ge_None index N)) in Hp by done. by destruct Hp. Qed.

(** The loop ends at the end. *)
Lemma skip_empty_end move enter fuel it :
  tl_status_ it = status_OK → data_ok it → wraps index RI (index_iter_ it) N →
  (has_data it = false ∨ valid_ (data_iter_ it) = false) →
  ∃ it', skip_empty block_function move enter (S fuel) it = Ok it' ∧ two_level_at it' (length all_entries).
Proof.
  intros Hs Hd Hi Hno. cbn [skip_empty].
  assert (negb (has_data it) || negb (valid_ (data_iter_ it)) = true) as -> by (destruct Hno as [->| ->]; [done|by rewrite orb_true_r]).
  rewrite (proj2 (wraps_valid _ _ (indexed_index HI) _ _ Hi)), Nat.ltb_irrefl. cbn [negb].
  destruct (SetDataIterator_none it Hs Hd (ex_intro _ _ Hi)) as (it' & -> & He). exists it'. split; [done|]. by right.
Qed.

(** At an entry the loop has nothing to do. *)
Lemma skip_empty_stop move enter fuel it i j k h :
  placed it i j → index !! i = Some (k, h) → (j < length (block h))%nat →
  skip_empty block_function move enter (S fuel) it = Ok it ∧ two_level_at it (start i + j)%nat.
Proof.
  intros Hp Hk Hj. split; [|left; by exists i, j, k, h]. cbn [skip_empty].
  destruct Hp as (_ & _ & Hp). rewrite Hk in Hp. destruct Hp as (-> & _ & Hw).
  rewrite (proj2 (wraps_valid _ _ (indexed_block HI k h (list_elem_of_lookup_2 _ _ _ Hk)) _ _ Hw)).
  by rewrite (proj2 (Nat.ltb_lt _ _) Hj).
Qed.

(** One round: from the end of a block to a neighbour. *)
Lemma skip_empty_round move enter fuel it i i' j k h (pos : entries → nat) :
  placed it i j → index !! i = Some (k, h) → (length (block h) ≤ j)%nat →
  (∀ w, wraps index RI w i → ∃ w', move w = Ok w' ∧ wraps index RI w' i') →
  (∀ k h j w, index !! i' = Some (k, h) → wraps (block h) (RD h) w j →
     ∃ w', enter w = Ok w' ∧ wraps (block h) (RD h) w' (pos (block h))) →
  ∃ it', skip_empty block_function move enter (S fuel) it = skip_empty block_function move enter fuel it' ∧
    placed it' i' (match index !! i' with Some (_, h) => pos (block h) | None => 0 end).
Proof.
  intros Hp Hk Hj Hm He. pose proof (placed_data_ok _ _ _ Hp) as Hd. destruct Hp as (Hs & Hi & Hp). rewrite Hk in Hp.
  destruct Hp as (Hhas & Hh & Hw). pose proof (list_elem_of_lookup_2 _ _ _ Hk) as Hin. cbn [skip_empty].
  rewrite (proj2 (wraps_valid _ _ (indexed_block HI _ _ Hin) _ _ Hw)), (proj2 (Nat.ltb_ge _ _) Hj), orb_true_r.
  rewrite (proj2 (wraps_valid _ _ (indexed_index HI) _ _ Hi)), (proj2 (Nat.ltb_lt _ _) (lookup_lt_Some _ _ _ Hk)).
  cbn [negb]. unfold move_index. destruct (Hm _ Hi) as (w & -> & Hw'). cbn [mbind outcome_bind].
  destruct (enter_block (set_index it w) i' enter pos Hs) as (it' & E & Hp'); [exact Hd|exact Hw'|exact He|].
  exists it'. split; [|done]. unfold mbind in E |- *. destruct (InitDataBlock block_function (set_index it w)); cbn in E |- *; try done.
  by rewrite E.
Qed.

(** Position of [placed]: in the block, or at the end of the index. *)
Definition in_block (i j : nat) : Prop :=
  match index !! i with Some (_, h) => (j ≤ length (block h))%nat | None => i = N end.

Lemma forward_ok fuel it i j :
  placed it i j → in_block i j → (N - i < fuel)%nat →
  ∃ it', skip_empty block_function wrapper_Next wrapper_SeekToFirst fuel it = Ok it' ∧
    two_level_at it' (start i + j)%nat.
Proof.
  revert it i j. induction fuel as [|fuel IH]; intros it i j Hp Hb Hf; [lia|]. unfold in_block in Hb.
  destruct (index !! i) as [[k h]|] eqn:Hk.
  - destruct (decide (j < length (block h))%nat) as [Hj|Hj].
    + exists it. by eapply skip_empty_stop.
    + assert (j = length (block h)) as -> by lia. pose proof (lookup_lt_Some _ _ _ Hk).
      destruct (skip_empty_round wrapper_Next wrapper_SeekToFirst fuel it i (S i) _ k h (λ _, 0%nat) Hp Hk)
        as (it' & -> & Hp'); [lia| | |].
      * intros w Hw. by eapply (wraps_next _ _ (indexed_index HI)).
      * intros k' h' j' w Hk' Hw. eapply (wraps_first _ _ (indexed_block HI k' h' (list_elem_of_lookup_2 _ _ _ Hk'))); eauto.
      * rewrite <- (start_S _ _ _ Hk), <- (Nat.add_0_r (start (S i))). apply IH; [|unfold in_block|lia].
        { by destruct (index !! S i) as [[? ?]|]. }
        destruct (index !! S i) as [[? ?]|] eqn:E; [lia|]. apply lookup_ge_None in E. lia.
  - subst i. pose proof Hp as (_ & _ & Hp2). rewrite Hk in Hp2. destruct Hp2 as [_ ->].
    destruct (placed_end _ Hp) as (Hs & Hn & Hi). rewrite Nat.add_0_r, start_end.
    apply skip_empty_end; [done|by left|done|by left].
Qed.

Lemma backward_ok fuel it i j :
  placed it i j → in_block i j → (S i < fuel)%nat →
  ∃ it', skip_empty block_function wrapper_Prev wrapper_SeekToLast fuel it = Ok it' ∧
    two_level_at it'
      match index !! i with
      | Some (_, h) => if decide (j < length (block h))%nat then start i + j
                       else prior (length all_entries) (start i)
      | None => length all_entries
      end%nat.
Proof.
  revert it i j. induction fuel as [|fuel IH]; intros it i j Hp Hb Hf; [lia|]. unfold in_block in Hb.
  destruct (index !! i) as [[k h]|] eqn:Hk.
  - destruct (decide (j < length (block h))%nat) as [Hj|Hj]; [exists it; by eapply skip_empty_stop|].
    pose proof (lookup_lt_Some _ _ _ Hk) as Hlt.
    destruct (skip_empty_round wrapper_Prev wrapper_SeekToLast fuel it i (prior N i) _ k h
      (λ l, (length l - 1)%nat) Hp Hk) as (it' & -> & Hp'); [lia| | |].
    + intros w Hw. by eapply (wraps_prev _ _ (indexed_index HI)).
    + intros k' h' j' w Hk' Hw. eapply (wraps_last _ _ (indexed_block HI k' h' (list_elem_of_lookup_2 _ _ _ Hk'))); eauto.
    + unfold prior in Hp'. destruct (decide (i = 0%nat)) as [->|Hi0].
      * rewrite (proj2 (lookup_ge_None index N)) in Hp' by done. destruct fuel as [|fuel]; [lia|].
        destruct (placed_end _ Hp') as (Hs & Hn & Hi). unfold prior.
        apply skip_empty_end; [done|by left|done|by left].
      * destruct (lookup_lt_is_Some_2 index (i - 1)) as [[k' h'] Hk']; [lia|]. rewrite Hk' in Hp'.
        destruct (IH it' (i - 1)%nat _ Hp') as (it2 & -> & Hat); [unfold in_block; rewrite Hk'; lia|lia|].
        exists it2. split; [done|]. rewrite Hk' in Hat. pose proof (start_S _ _ _ Hk') as HS.
        replace (S (i - 1)) with i in HS by lia. unfold prior in Hat |- *. rewrite HS.
        destruct (decide (length (block h') - 1 < length (block h'))%nat) as [Hl|Hl].
        -- destruct (decide (start (i - 1) + length (block h') = 0)%nat); [lia|].
           by replace (start (i - 1) + length (block h') - 1)%nat with (start (i - 1) + (length (block h') - 1))%nat by lia.
        -- replace (length (block h')) with 0%nat by lia. by rewrite Nat.add_0_r.
  - subst i. destruct (placed_end _ ltac:(destruct Hp as (? & ? & Hq); rewrite Hk in Hq; destruct Hq as [? ->]; by split_and!; [..|rewrite Hk])) as (Hs & Hn & Hi).
    apply skip_empty_end; [done|by left|done|by left].
Qed.

Lemma two_level_data_ok it c : two_level_at it c → tl_status_ it = status_OK ∧ data_ok it ∧ ∃ i, wraps index RI (index_iter_ it) i.
Proof.
  intros [(i & j & k & h & _ & _ & _ & Hp)|[_ (Hs & Hi & Hn & _)]].
  - split; [apply Hp|]. split; [by eapply placed_data_ok|]. exists i. apply Hp.
  - split; [done|]. split; [by left|]. exact Hi.
Qed.

(** A move of the index, then a move in its block, then the skipping. *)
Lemma two_level_move it c move enter (pos : entries → nat) i :
  two_level_at it c →
  (∀ w i0, wraps index RI w i0 → ∃ w', move w = Ok w' ∧ wraps index RI w' i) →
  (∀ k h j w, index !! i = Some (k, h) → wraps (block h) (RD h) w j →
     ∃ w', enter w = Ok w' ∧ wraps (block h) (RD h) w' (pos (block h))) →
  ∃ it', (this ← move_index move it; this ← InitDataBlock block_function this; move_data enter this) = Ok it' ∧
    placed it' i (match index !! i with Some (_, h) => pos (block h) | None => 0 end).
Proof.
  intros Hat Hm He. destruct (two_level_data_ok _ _ Hat) as (Hs & Hd & i0 & Hi). unfold move_index.
  destruct (Hm _ _ Hi) as (w & -> & Hw). cbn [mbind outcome_bind].
  exact (enter_block (set_index it w) i enter pos Hs Hd Hw He).
Qed.

Lemma index_position it i : wraps index RI it i → (i ≤ N)%nat.
Proof. intros Hw. by eapply (wraps_valid _ _ (indexed_index HI)). Qed.

Lemma bind_three {A B C E} (a : outcome A) (b : A → outcome B) (c : B → outcome C) (d : C → outcome E) r :
  (x ← a; y ← b x; c y) = Ok r → (x ← a; y ← b x; z ← c y; d z) = d r.
Proof.
  unfold mbind. destruct a as [x| |]; cbn; try done. destruct (b x) as [y| |]; cbn; try done.
  by intros ->.
Qed.

Lemma start_mono i i' : (i ≤ i')%nat → (start i ≤ start i')%nat.
Proof.
  intros Hle. unfold start. replace (take i blocks) with (take i (take i' blocks)) by (rewrite take_take; f_equal; lia).
  rewrite <- (take_drop i (take i' blocks)) at 2. rewrite concat_app, length_app. lia.
Qed.

(** The position that seeking in the index and in a block leads to. *)
Lemma two_level_splits target i :
  key_ok target → splits target index i →
  (∀ k h, index !! i = Some (k, h) → splits target (block h) (lower_bound target (block h))) →
  splits target all_entries
    (start i + match index !! i with Some (_, h) => lower_bound target (block h) | None => 0 end)%nat.
Proof.
  intros Ht Hs Hb c key value Hc. destruct (all_entries_inv _ _ Hc) as (i0 & k0 & h0 & j0 & Hi0 & Hj0 & ->).
  pose proof (list_elem_of_lookup_2 _ _ _ Hi0) as Hin0. pose proof (list_elem_of_lookup_2 _ _ _ Hj0) as Hjn0.
  pose proof (indexed_index_keys HI _ _ Hin0) as Hk0. pose proof (indexed_keys HI _ _ _ _ Hin0 Hjn0) as Hkey.
  pose proof (lookup_lt_Some _ _ _ Hj0) as Hjl. pose proof (start_S _ _ _ Hi0) as HS. pose proof (Hs _ _ _ Hi0) as Hsi.
  destruct (lt_eq_lt_dec i0 i) as [[Hlt| ->]|Hgt].
  - pose proof (start_mono (S i0) i Hlt). rewrite decide_True by lia. rewrite decide_True in Hsi by done.
    eapply order_le_lt; [done|exact Hk0|done| |done]. by eapply indexed_upto.
  - rewrite Hi0. specialize (Hb _ _ Hi0 j0 _ _ Hj0). destruct (decide (j0 < _)%nat) as [Hlt|Hge].
    + by rewrite decide_True by lia.
    + by rewrite decide_False by lia.
  - destruct (lookup_lt_is_Some_2 index i) as [[k h] Hk]; [apply lookup_lt_Some in Hi0; lia|]. rewrite Hk.
    pose proof (start_mono (S i) i0 Hgt). pose proof (start_S _ _ _ Hk). pose proof (lower_bound_length target (block h)).
    rewrite decide_False by lia. pose proof (Hs _ _ _ Hk) as Hsk. rewrite decide_False in Hsk by lia.
    destruct (Z.le_gt_cases 0 (order key target)) as [|Hneg]; [done|].
    pose proof (indexed_above HI _ _ _ _ _ _ _ _ Hk Hi0 Hgt Hjn0) as Habove.
    pose proof (order_trans _ _ _ (indexed_index_keys HI _ _ (list_elem_of_lookup_2 _ _ _ Hk)) Hkey Ht Habove Hneg). lia.
Qed.

Lemma two_level_valid it c : two_level_at it c → (c ≤ length all_entries)%nat ∧ valid_ (data_iter_ it) = (c <? length all_entries)%nat.
Proof.
  intros [(i & j & k & h & Hk & Hj & -> & (_ & _ & Hp))|[-> (_ & _ & _ & Hv)]].
  - pose proof (start_bound _ _ _ _ Hk Hj) as Hlt. split; [lia|]. rewrite Hk in Hp. destruct Hp as (_ & _ & Hw).
    rewrite (proj2 (wraps_valid _ _ (indexed_block HI k h (list_elem_of_lookup_2 _ _ _ Hk)) _ _ Hw)).
    by rewrite (proj2 (Nat.ltb_lt _ _) Hj), (proj2 (Nat.ltb_lt _ _) Hlt).
  - split; [done|]. by rewrite Hv, Nat.ltb_irrefl.
Qed.

Lemma two_level_status it c : two_level_at it c → TwoLevel_status it = status_OK.
Proof.
  intros Hat. unfold TwoLevel_status.
  destruct (two_level_data_ok _ _ Hat) as (Hs & Hd & i & (ix & Hi & Hix & _)). rewrite Hi, Hs.
  rewrite (iterates_status _ _ (indexed_index HI) _ _ Hix). cbn [ok status_OK negb].
  destruct Hd as [Hd|(k & j & Hin & (d & Hd & Hdj & _))]; [unfold has_data in Hd; by destruct (iter_ (data_iter_ it))|].
  rewrite Hd. by rewrite (iterates_status _ _ (indexed_block HI _ _ Hin) _ _ Hdj).
Qed.

Lemma two_level_entry it c key value : two_level_at it c → all_entries !! c = Some (key, value) →
  wrapper_key (data_iter_ it) = Ok key ∧ wrapper_value (data_iter_ it) = Ok value.
Proof.
  intros [(i & j & k & h & Hk & Hj & -> & (_ & _ & Hp))|[-> _]] He.
  - rewrite Hk in Hp. destruct Hp as (_ & _ & Hw). destruct (lookup_lt_is_Some_2 _ _ Hj) as [e Hje].
    rewrite (all_entries_lookup _ _ _ _ _ Hk Hje) in He. injection He as ->.
    exact (wraps_entry _ _ (indexed_block HI k h (list_elem_of_lookup_2 _ _ _ Hk)) _ _ _ _ Hw Hje).
  - apply lookup_lt_Some in He. lia.
Qed.

Lemma two_level_first it c : two_level_at it c →
  ∃ it', TwoLevel_SeekToFirst block_function rounds it = Ok it' ∧ two_level_at it' 0%nat.
Proof.
  intros Hat. unfold TwoLevel_SeekToFirst, SkipEmptyDataBlocksForward.
  destruct (two_level_move it c wrapper_SeekToFirst wrapper_SeekToFirst (λ _, 0%nat) 0 Hat) as (it1 & E & Hp).
  { intros w i0. apply (wraps_first _ _ (indexed_index HI)). }
  { intros k h j w Hk. apply (wraps_first _ _ (indexed_block HI k h (list_elem_of_lookup_2 _ _ _ Hk))). }
  rewrite (bind_three _ _ _ _ _ E).
  assert (placed it1 0 0) as Hp' by (by destruct (index !! 0%nat) as [[? ?]|]).
  apply (forward_ok rounds it1 0 0 Hp'); [|lia]. unfold in_block.
  destruct (index !! 0%nat) as [[? ?]|] eqn:E0; [lia|]. apply lookup_ge_None in E0. lia.
Qed.

Lemma two_level_last it c : two_level_at it c →
  ∃ it', TwoLevel_SeekToLast block_function rounds it = Ok it' ∧ two_level_at it' (length all_entries - 1)%nat.
Proof.
  intros Hat. unfold TwoLevel_SeekToLast, SkipEmptyDataBlocksBackward.
  destruct (two_level_move it c wrapper_SeekToLast wrapper_SeekToLast (λ l, (length l - 1)%nat) (N - 1) Hat) as (it1 & E & Hp).
  { intros w i0. apply (wraps_last _ _ (indexed_index HI)). }
  { intros k h j w Hk. apply (wraps_last _ _ (indexed_block HI k h (list_elem_of_lookup_2 _ _ _ Hk))). }
  rewrite (bind_three _ _ _ _ _ E). destruct (backward_ok rounds it1 _ _ Hp) as (it' & -> & Hat').
  { unfold in_block. destruct (index !! (N - 1)%nat) as [[? ?]|] eqn:E0; [lia|]. apply lookup_ge_None in E0. lia. }
  { lia. }
  exists it'. split; [done|]. pose proof start_end as Hend. destruct (index !! (N - 1)%nat) as [[k h]|] eqn:Hk.
  - pose proof (start_S _ _ _ Hk) as HS. pose proof (lookup_lt_Some _ _ _ Hk).
    replace (S (N - 1)) with N in HS by lia. unfold prior in Hat'. rewrite <- Hend in Hat' |- *. rewrite HS in Hat' |- *.
    destruct (decide (length (block h) - 1 < length (block h))%nat).
    + by replace (start (N - 1) + length (block h) - 1)%nat with (start (N - 1) + (length (block h) - 1))%nat by lia.
    + replace (length (block h)) with 0%nat in * by lia. rewrite Nat.add_0_r in *.
      destruct (decide (start (N - 1) = 0)%nat) as [->|]; done.
  - apply lookup_ge_None in Hk. assert (N = 0)%nat as HN by lia. rewrite HN in Hend. unfold start in Hend.
    rewrite take_0 in Hend. cbn in Hend. by rewrite <- Hend in *.
Qed.

Lemma two_level_next it c : two_level_at it c → (c < length all_entries)%nat →
  ∃ it', TwoLevel_Next block_function rounds it = Ok it' ∧ two_level_at it' (S c).
Proof.
  intros [(i & j & k & h & Hk & Hj & -> & Hp)|[-> _]] Hc; [|lia].
  unfold TwoLevel_Next, SkipEmptyDataBlocksForward.
  pose proof (list_elem_of_lookup_2 _ _ _ Hk) as Hin. destruct Hp as (Hs & Hi & Hp). rewrite Hk in Hp. destruct Hp as (Hh & Hhd & Hw).
  rewrite (proj2 (wraps_valid _ _ (indexed_block HI _ _ Hin) _ _ Hw)), (proj2 (Nat.ltb_lt _ _) Hj). cbn [require mbind outcome_bind].
  destruct (wraps_next _ _ (indexed_block HI _ _ Hin) _ _ Hw Hj) as (w & -> & Hw'). cbn [mbind outcome_bind].
  replace (S (start i + j)) with (start i + S j)%nat by lia. apply forward_ok; [|unfold in_block; rewrite Hk; lia|lia].
  split; [done|]. split; [done|]. rewrite Hk. split; [by eapply wraps_has_data|done].
Qed.

Lemma two_level_prev it c : two_level_at it c → (c < length all_entries)%nat →
  ∃ it', TwoLevel_Prev block_function rounds it = Ok it' ∧
    two_level_at it' (prior (length all_entries) c).
Proof.
  intros [(i & j & k & h & Hk & Hj & -> & Hp)|[-> _]] Hc; [|lia].
  unfold TwoLevel_Prev, SkipEmptyDataBlocksBackward.
  pose proof (list_elem_of_lookup_2 _ _ _ Hk) as Hin. destruct Hp as (Hs & Hi & Hp). rewrite Hk in Hp. destruct Hp as (Hh & Hhd & Hw).
  rewrite (proj2 (wraps_valid _ _ (indexed_block HI _ _ Hin) _ _ Hw)), (proj2 (Nat.ltb_lt _ _) Hj). cbn [require mbind outcome_bind].
  destruct (wraps_prev _ _ (indexed_block HI _ _ Hin) _ _ Hw Hj) as (w & -> & Hw'). cbn [mbind outcome_bind].
  assert (placed (set_data it w) i (if decide (j = 0)%nat then length (block h) else j - 1)%nat) as Hp'.
  { split; [done|]. split; [done|]. rewrite Hk. split; [by eapply wraps_has_data|done]. }
  pose proof (lookup_lt_Some _ _ _ Hk).
  destruct (backward_ok rounds _ _ _ Hp') as (it' & -> & Hat'); [unfold in_block; rewrite Hk; by destruct (decide _); lia|lia|].
  exists it'. split; [done|]. rewrite Hk in Hat'. unfold prior in Hat' |- *.
  destruct (decide (j = 0)%nat) as [->|Hj0].
  - rewrite decide_False in Hat' by lia. by rewrite Nat.add_0_r.
  - rewrite decide_True in Hat' by lia. rewrite decide_False by lia.
    by replace (start i + j - 1)%nat with (start i + (j - 1))%nat by lia.
Qed.

Lemma two_level_seek it c target : two_level_at it c → key_ok target →
  ∃ it' c', TwoLevel_Seek block_function rounds it target = Ok it' ∧ two_level_at it' c' ∧
    splits target all_entries c'.
Proof.
  intros Hat Ht. unfold TwoLevel_Seek, SkipEmptyDataBlocksForward.
  destruct (two_level_move it c (λ w, wrapper_Seek w target) (λ w, wrapper_Seek w target) (lower_bound target)
    (lower_bound target index) Hat) as (it1 & E & Hp).
  { intros w i0 Hw. destruct (wraps_seek _ _ (indexed_index HI) w i0 target Hw Ht) as (w' & -> & Hw' & _). by exists w'. }
  { intros k h j w Hk Hw.
    destruct (wraps_seek _ _ (indexed_block HI k h (list_elem_of_lookup_2 _ _ _ Hk)) w j target Hw Ht) as (w' & -> & Hw' & _).
    by exists w'. }
  rewrite (bind_three _ _ _ _ _ E). destruct (forward_ok rounds it1 _ _ Hp) as (it' & -> & Hat').
  { unfold in_block. pose proof (lower_bound_length target index).
    destruct (index !! _) as [[? ?]|] eqn:E0; [apply lower_bound_length|]. apply lookup_ge_None in E0. lia. }
  { lia. }
  eexists it', _. split; [done|]. split; [exact Hat'|]. apply two_level_splits; [done| |].
  - destruct (two_level_data_ok _ _ Hat) as (_ & _ & i & Hi).
    destruct (wraps_seek _ _ (indexed_index HI) _ _ target Hi Ht) as (_ & _ & _ & Hsp). exact Hsp.
  - intros k h Hk. pose proof (list_elem_of_lookup_2 _ _ _ Hk) as Hin.
    destruct (indexed_opens HI _ _ Hin) as (d & cd & _ & Hd).
    destruct (Update_ok _ _ (indexed_block HI _ _ Hin) new_IteratorWrapper d cd Hd) as (w & _ & Hw).
    destruct (wraps_seek _ _ (indexed_block HI _ _ Hin) _ _ target Hw Ht) as (_ & _ & _ & Hsp). exact Hsp.
Qed.

(** A two-level iterator iterates over the entries of all the blocks. *)
Lemma two_level_iterates :
  @iterates _ _ TL (two_level_iterator block_function rounds) all_entries two_level_at.
Proof.
  split.
  - apply two_level_valid.
  - apply two_level_status.
  - apply two_level_entry.
  - apply two_level_first.
  - apply two_level_last.
  - apply two_level_next.
  - apply two_level_prev.
  - apply two_level_seek.
Qed.

Lemma new_TwoLevelIterator_ok index_iter i :
  RI index_iter i → ∃ it, new_TwoLevelIterator index_iter = Ok it ∧ two_level_at it (length all_entries).
Proof.
  intros Hi. unfold new_TwoLevelIterator. cbn [wrapper_Set].
  destruct (Update_ok _ _ (indexed_index HI) new_IteratorWrapper _ _ Hi) as (w & -> & Hw). cbn [mbind outcome_bind].
  eexists. split; [done|]. right. split; [done|]. split; [done|]. split; [by exists i|done].
Qed.

End refinement.

(** C18: a two-level iterator refines a position in the list of the entries of all the blocks,
    one after the other, for any index and blocks that behave as iterators and whose keys the
    index separates.  Blocks may be empty: they are skipped in both directions, and the loops
    that skip them end within two rounds more than there are blocks. *)
Theorem TwoLevel_refines {Ix D : Type} `{!Iterator Ix} `{!Iterator D} `{ComparatorLaws}
    (block_function : Slice → outcome D) rounds index RI block RD index_iter i :
  indexed block_function index RI block RD → (length index + 2 ≤ rounds)%nat → RI index_iter i →
  ∃ it R, new_TwoLevelIterator index_iter = Ok it ∧
    @iterates _ _ _ (two_level_iterator block_function rounds) (concat (map (λ e, block e.2) index)) R ∧
    R it (length (concat (map (λ e, block e.2) index))).
Proof.
  intros HI Hr Hi. destruct (new_TwoLevelIterator_ok block_function index RI block RD HI index_iter i Hi) as (it & -> & Hat).
  exists it, (two_level_at index RI block RD). split; [done|]. split; [by apply two_level_iterates|exact Hat].
Qed.

(** Three blocks, the second one empty. *)
Definition sample_index : list (Slice * Slice) := [([98], [0]); ([99], [1]); ([102], [2])].

Definition sample_blocks (handle : Slice) : list (Slice * Slice) :=
  match handle with
  | [0] => [([97], [1]); ([98], [2])]
  | [2] => [([100], [3]); ([101], [])]
  | _ => []
  end.

Lemma TwoLevel_refines_witness :
  ∃ it R, new_TwoLevelIterator (new_Cursor sample_index) = Ok it ∧
    @iterates _ _ _ (two_level_iterator (λ h, Ok (new_Cursor (sample_blocks h))) 5)
      [([97], [1]); ([98], [2]); ([100], [3]); ([101], [])] R ∧ R it 4%nat.
Proof.
  apply (TwoLevel_refines (λ h, Ok (new_Cursor (sample_blocks h))) 5 sample_index (on_list sample_index) sample_blocks
    (λ h, on_list (sample_blocks h)) (new_Cursor sample_index) 3); [|by cbn; lia|by apply new_Cursor_ok].
  assert (∀ h, increasing (map fst (sample_blocks h))) as Hblock.
  { intros h. unfold sample_blocks. repeat case_match; by split; repeat constructor. }
  split.
  - apply cursor_iterates. by split; repeat constructor.
  - intros k h _. by apply cursor_iterates.
  - intros k h _. eexists _, _. split; [done|]. by apply new_Cursor_ok.
  - intros k h key value _ Hin. eapply (Forall_forall key_ok); [apply (proj1 (Hblock h))|].
    apply list_elem_of_fmap. by exists (key, value).
  - intros k h Hin. list_cases Hin; by repeat constructor.
  - intros i k h key value Hi Hin.
    destruct i as [|[|[|i]]]; cbn in Hi; simplify_eq; cbn in Hin; list_cases Hin; by vm_compute.
  - intros i j k h k' h' key value Hi Hj Hij Hin.
    destruct i as [|[|[|i]]], j as [|[|[|j]]]; cbn in Hi, Hj; simplify_eq; try lia; cbn in Hin; list_cases Hin; by vm_compute.
Defined.
