(* ===== verification/LdbVersion.v ===== *)
(** * LevelDB, db/version_set: versions

    A version is the set of table files of the database, level by level: the files of level
    zero may overlap, those of any other level are sorted and disjoint.  Which files overlap
    a range, the iterator over the files of a level, and where the result of writing out a
    table in memory goes. *)

From S2P Require Import Prelude LdbCoding LdbEnv LdbOrder LdbIter LdbFormat LdbVersionEdit.
From Stdlib Require Import Floats.SpecFloat.

(** ** The data *)

(** [config::kMaxMemCompactLevel] *)
Definition kMaxMemCompactLevel : Z := 2.

(** A version: the files of every level (the score is an IEEE double); the file to compact next because of seeks, with its
    level; the level to compact next because of its size, with its score.  The links to
    other versions and the references are not part of what it says. *)
Record Version : Type := {
  v_files : list (list FileMetaData);
  v_file_to_compact : option FileMetaData;
  v_file_to_compact_level : Z;
  v_compaction_score : spec_float;
  v_compaction_level : Z
}.

Definition files_at (v : Version) (level : Z) : outcome (list FileMetaData) :=
  match v_files v !! Z.to_nat level with
  | Some files => if 0 <=? level then Ok files else Fault OutOfBounds
  | None => Fault OutOfBounds
  end.

Definition file_at (files : list FileMetaData) (i : Z) : outcome FileMetaData :=
  match files !! Z.to_nat i with
  | Some f => if 0 <=? i then Ok f else Fault OutOfBounds
  | None => Fault OutOfBounds
  end.

(** [double(n)] for an integer of 64 bits, and arithmetic on doubles, to the nearest. *)
Definition double_of (n : Z) : spec_float := binary_normalize 53 1024 n 0 false.
Definition double_mul : spec_float → spec_float → spec_float := SFmul 53 1024.
Definition double_div : spec_float → spec_float → spec_float := SFdiv 53 1024.

(** A version at first: no files, nothing to compact; the score is -1. *)
Definition new_Version : Version := {|
  v_files := replicate (Z.to_nat kNumLevels) []; v_file_to_compact := None; v_file_to_compact_level := -1;
  v_compaction_score := double_of (-1); v_compaction_level := -1
|}.

(** *** Sizes *)

Section sizes.
(** [options_->max_file_size], a [size_t]. *)
Context (max_file_size : Z).

Definition TargetFileSize : Z := max_file_size.
Definition MaxGrandParentOverlapBytes : Z := swrap 64 (u64 (10 * TargetFileSize)).
Definition ExpandedCompactionByteSizeLimit : Z := swrap 64 (u64 (25 * TargetFileSize)).
Definition MaxFileSizeForLevel (level : Z) : Z := TargetFileSize.

End sizes.

(** The loop that multiplies by ten for every level above the first. *)
Fixpoint times_ten (n : nat) (result : spec_float) : spec_float :=
  match n with O => result | S n => times_ten n (double_mul result (double_of 10)) end.
Definition MaxBytesForLevel (level : Z) : spec_float :=
  times_ten (Z.to_nat (level - 1)) (double_mul (double_of 10) (double_of 1048576)).

(** [sum += files[i]->file_size], an [int64_t] and an [uint64_t]. *)
Definition TotalFileSize (files : list FileMetaData) : Z :=
  fold_left (λ sum f, swrap 64 (u64 (sum + fm_file_size f))) files 0.

(** ** Files and ranges of keys *)

Section ranges.
Context `{user_comparator : Comparator}.

(** [icmp.Compare(a, b)] for internal keys, and for an internal key and a slice. *)
Definition compare_slice (a : InternalKey) (b : Slice) : outcome Z :=
  x ← Encode a; InternalKeyComparator_Compare x b.

Definition compare_keys (a b : InternalKey) : outcome Z := y ← Encode b; compare_slice a y.

Fixpoint FindFile_loop (fuel : nat) (files : list FileMetaData) (key : Slice) (left right : Z) : outcome Z :=
  match fuel with
  | O => Fault Diverges
  | S fuel =>
      if left <? right then
        let mid := u32 (left + right) / 2 in
        f ← file_at files mid;
        c ← compare_slice (fm_largest f) key;
        if c <? 0 then FindFile_loop fuel files key (u32 (mid + 1)) right
        else FindFile_loop fuel files key left mid
      else Ok right
  end.

(** The rounds halve the distance, so there are no more than files, and one. *)
Definition FindFile (files : list FileMetaData) (key : Slice) : outcome Z :=
  right ← FindFile_loop (S (length files)) files key 0 (u32 (len files)); Ok (s32 right).

Definition AfterFile (user_key : option Slice) (f : FileMetaData) : outcome bool :=
  match user_key with
  | None => Ok false
  | Some k => l ← InternalKey_user_key (fm_largest f); c ← Compare k l; Ok (0 <? c)
  end.

Definition BeforeFile (user_key : option Slice) (f : FileMetaData) : outcome bool :=
  match user_key with
  | None => Ok false
  | Some k => s ← InternalKey_user_key (fm_smallest f); c ← Compare k s; Ok (c <? 0)
  end.

Fixpoint some_overlaps (files : list FileMetaData) (smallest_user_key largest_user_key : option Slice) : outcome bool :=
  match files with
  | [] => Ok false
  | f :: files =>
      after ← AfterFile smallest_user_key f;
      outside ← (if after : bool then Ok true else BeforeFile largest_user_key f);
      if outside : bool then some_overlaps files smallest_user_key largest_user_key else Ok true
  end.

Definition SomeFileOverlapsRange (disjoint_sorted_files : bool) (files : list FileMetaData)
    (smallest_user_key largest_user_key : option Slice) : outcome bool :=
  if negb disjoint_sorted_files then some_overlaps files smallest_user_key largest_user_key
  else
    index ← (match smallest_user_key with
             | None => Ok 0
             | Some k => small_key ← new_InternalKey k kMaxSequenceNumber kValueTypeForSeek;
                         small ← Encode small_key; index ← FindFile files small; Ok (u32 index)
             end);
    if len files <=? index then Ok false
    else f ← file_at files index; before ← BeforeFile largest_user_key f; Ok (negb before).

(** ** [LevelFileNumIterator] *)

Record LevelFileNumIterator : Type := { flist_ : list FileMetaData; index_ : Z }.

Definition set_file_index (it : LevelFileNumIterator) (index : Z) : LevelFileNumIterator :=
  {| flist_ := flist_ it; index_ := index |}.

Definition new_LevelFileNumIterator (flist : list FileMetaData) : LevelFileNumIterator :=
  {| flist_ := flist; index_ := u32 (len flist) |}.

Definition LevelFile_Valid (it : LevelFileNumIterator) : bool := index_ it <? len (flist_ it).

(** The number and the size of the file, in 16 bytes. *)
Definition file_value (f : FileMetaData) : Slice := EncodeFixed64 (fm_number f) ++ EncodeFixed64 (fm_file_size f).

#[export] Instance level_file_iterator : Iterator LevelFileNumIterator := {|
  Iterator_Valid := LevelFile_Valid;
  Iterator_SeekToFirst it := Ok (set_file_index it 0);
  Iterator_SeekToLast it := Ok (set_file_index it (if len (flist_ it) =? 0 then 0 else u32 (len (flist_ it) - 1)));
  Iterator_Seek it target := index ← FindFile (flist_ it) target; Ok (set_file_index it (u32 index));
  Iterator_Next it := _ ← require (LevelFile_Valid it) OutOfBounds; Ok (set_file_index it (u32 (index_ it + 1)));
  Iterator_Prev it :=
    _ ← require (LevelFile_Valid it) OutOfBounds;
    Ok (set_file_index it (if index_ it =? 0 then u32 (len (flist_ it)) else index_ it - 1));
  Iterator_key it :=
    _ ← require (LevelFile_Valid it) OutOfBounds; f ← file_at (flist_ it) (index_ it); Encode (fm_largest f);
  Iterator_value it :=
    _ ← require (LevelFile_Valid it) OutOfBounds; f ← file_at (flist_ it) (index_ it); Ok (file_value f);
  Iterator_status it := status_OK
|}.

(** ** The files that overlap a range *)

(** The loop of [GetOverlappingInputs]: [i] is the place in [all], the files of the level. *)
Fixpoint overlapping_loop (fuel : nat) (level : Z) (all : list FileMetaData) (user_begin user_end : option Slice)
    (i : nat) (inputs : list FileMetaData) : outcome (list FileMetaData) :=
  match fuel with
  | O => Fault Diverges
  | S fuel =>
      match all !! i with
      | None => Ok inputs
      | Some f =>
          let i := S i in
          file_start ← InternalKey_user_key (fm_smallest f);
          file_limit ← InternalKey_user_key (fm_largest f);
          before ← (match user_begin with Some b => c ← Compare file_limit b; Ok (c <? 0) | None => Ok false end);
          if before : bool then overlapping_loop fuel level all user_begin user_end i inputs
          else
            after ← (match user_end with Some e => c ← Compare file_start e; Ok (0 <? c) | None => Ok false end);
            if after : bool then overlapping_loop fuel level all user_begin user_end i inputs
            else
              let inputs := inputs ++ [f] in
              if level =? 0 then
                earlier ← (match user_begin with Some b => c ← Compare file_start b; Ok (c <? 0) | None => Ok false end);
                if earlier : bool then overlapping_loop fuel level all (Some file_start) user_end 0 []
                else
                  later ← (match user_end with Some e => c ← Compare file_limit e; Ok (0 <? c) | None => Ok false end);
                  if later : bool then overlapping_loop fuel level all user_begin (Some file_limit) 0 []
                  else overlapping_loop fuel level all user_begin user_end i inputs
              else overlapping_loop fuel level all user_begin user_end i inputs
      end
  end.

(** Each restart moves an end of the range to that of another file, so there are at most two
    for every file. *)
Definition overlapping_rounds (n : nat) : nat := S (S (2 * n)) * S n.

Definition optional_user_key (key : option InternalKey) : outcome (option Slice) :=
  match key with None => Ok None | Some k => u ← InternalKey_user_key k; Ok (Some u) end.

Definition GetOverlappingInputs (v : Version) (level : Z) (begin end_ : option InternalKey) : outcome (list FileMetaData) :=
  _ ← require ((0 <=? level) && (level <? kNumLevels)) OutOfBounds;
  user_begin ← optional_user_key begin;
  user_end ← optional_user_key end_;
  all ← files_at v level;
  overlapping_loop (overlapping_rounds (length all)) level all user_begin user_end 0 [].

Definition OverlapInLevel (v : Version) (level : Z) (smallest_user_key largest_user_key : option Slice) : outcome bool :=
  files ← files_at v level;
  SomeFileOverlapsRange (0 <? level) files smallest_user_key largest_user_key.

(** *** Where a table in memory goes *)

Section output_level.
Context (max_file_size : Z).

Fixpoint pick_level (fuel : nat) (v : Version) (smallest_user_key largest_user_key : Slice) (start limit : InternalKey)
    (level : Z) : outcome Z :=
  match fuel with
  | O => Fault Diverges
  | S fuel =>
      if level <? kMaxMemCompactLevel then
        overlap ← OverlapInLevel v (level + 1) (Some smallest_user_key) (Some largest_user_key);
        if overlap : bool then Ok level
        else
          heavy ← (if level + 2 <? kNumLevels then
                     overlaps ← GetOverlappingInputs v (level + 2) (Some start) (Some limit);
                     Ok (MaxGrandParentOverlapBytes max_file_size <? TotalFileSize overlaps)
                   else Ok false);
          if heavy : bool then Ok level
          else pick_level fuel v smallest_user_key largest_user_key start limit (level + 1)
      else Ok level
  end.

Definition PickLevelForMemTableOutput (v : Version) (smallest_user_key largest_user_key : Slice) : outcome Z :=
  overlap ← OverlapInLevel v 0 (Some smallest_user_key) (Some largest_user_key);
  if overlap : bool then Ok 0
  else
    start ← new_InternalKey smallest_user_key kMaxSequenceNumber kValueTypeForSeek;
    limit ← new_InternalKey largest_user_key 0 0;
    pick_level 3 v smallest_user_key largest_user_key start limit 0.

End output_level.

End ranges.

(** ** Well-formed files *)

Section files.
Context `{ComparatorLaws}.

(** Internal keys whose type is one of the two. *)
Definition ikey (k : Slice) : Prop := internal_key_ok k ∧ le_value (key_tag k) mod 256 ≤ kTypeValue.

Definition su (f : FileMetaData) : Slice := ukey (rep_ (fm_smallest f)).
Definition lu (f : FileMetaData) : Slice := ukey (rep_ (fm_largest f)).

Record file_ok (f : FileMetaData) : Prop := {
  fo_smallest : ikey (rep_ (fm_smallest f));
  fo_largest : ikey (rep_ (fm_largest f));
  fo_range : internal_order (rep_ (fm_smallest f)) (rep_ (fm_largest f)) ≤ 0;
  fo_number : in_width 64 (fm_number f);
  fo_file_size : in_width 64 (fm_file_size f)
}.

Lemma ikey_ok k : ikey k → internal_key_ok k.
Proof. by intros [? _]. Qed.

Lemma ukey_ok k : internal_key_ok k → key_ok (ukey k).
Proof. by intros (_ & ? & _). Qed.

Lemma su_ok f : file_ok f → key_ok (su f).
Proof. intros Hf. apply ukey_ok, ikey_ok, fo_smallest, Hf. Qed.

Lemma lu_ok f : file_ok f → key_ok (lu f).
Proof. intros Hf. apply ukey_ok, ikey_ok, fo_largest, Hf. Qed.

Lemma Encode_key k : internal_key_ok (rep_ k) → Encode k = Ok (rep_ k).
Proof. intros (Hl & _). apply Encode_ok. intros E. rewrite E in Hl. cbn in Hl. lia. Qed.

Lemma user_key_ok k : internal_key_ok (rep_ k) → InternalKey_user_key k = Ok (ukey (rep_ k)).
Proof. intros (Hl & _). by apply ExtractUserKey_ok. Qed.

Lemma compare_slice_ok a b : internal_key_ok (rep_ a) → internal_key_ok b → compare_slice a b = Ok (internal_order (rep_ a) b).
Proof. intros Ha Hb. unfold compare_slice. rewrite Encode_key by done. by apply internal_Compare_ok. Qed.

Lemma compare_keys_ok a b :
  internal_key_ok (rep_ a) → internal_key_ok (rep_ b) → compare_keys a b = Ok (internal_order (rep_ a) (rep_ b)).
Proof. intros Ha Hb. unfold compare_keys. rewrite Encode_key by done. by apply compare_slice_ok. Qed.

(** The order of internal keys follows that of user keys. *)
Lemma internal_le_ukey a b :
  internal_key_ok a → internal_key_ok b → internal_order a b ≤ 0 → order (ukey a) (ukey b) ≤ 0.
Proof.
  intros Ha Hb Hle. destruct (decide (internal_order a b = 0)) as [E|E].
  - apply internal_order_zero in E as ->; [|done|done]. by rewrite order_refl by by apply ukey_ok.
  - destruct (proj1 (internal_order_spec a b Ha Hb) ltac:(lia)) as [?|[-> _]]; [lia|].
    by rewrite order_refl by by apply ukey_ok.
Qed.

Lemma ukey_lt_internal a b :
  internal_key_ok a → internal_key_ok b → order (ukey a) (ukey b) < 0 → internal_order a b < 0.
Proof. intros Ha Hb Hlt. apply internal_order_spec; [done|done|by left]. Qed.

Lemma file_range f : file_ok f → order (su f) (lu f) ≤ 0.
Proof. intros Hf. apply internal_le_ukey; [apply ikey_ok, Hf|apply ikey_ok, Hf|apply Hf]. Qed.

(** The files of a level other than the first: sorted and disjoint. *)
Definition file_before (f g : FileMetaData) : Prop := internal_order (rep_ (fm_largest f)) (rep_ (fm_smallest g)) < 0.
Definition disjoint (files : list FileMetaData) : Prop := Forall file_ok files ∧ StronglySorted file_before files.

Lemma file_before_largest f g : file_ok f → file_ok g → file_before f g →
  internal_order (rep_ (fm_largest f)) (rep_ (fm_largest g)) < 0.
Proof.
  intros Hf Hg Hlt. apply (@order_lt_le _ internal_laws _ (rep_ (fm_smallest g)));
    [apply ikey_ok, Hf|apply ikey_ok, Hg|apply ikey_ok, Hg|exact Hlt|apply Hg].
Qed.

(** *** [FindFile] *)

(** What [LevelFileNumIterator] walks over. *)
Definition level_index (files : list FileMetaData) : list (Slice * Slice) :=
  map (λ f, (rep_ (fm_largest f), file_value f)) files.

Lemma level_index_increasing files : disjoint files → @increasing _ internal_laws (map fst (level_index files)).
Proof.
  intros [Hok Hs]. unfold level_index. rewrite map_map. cbn [fst]. split.
  - apply Forall_map. eapply Forall_impl; [exact Hok|]. intros f Hf. apply ikey_ok, Hf.
  - induction Hs as [|f files Hs IH Hf]; [constructor|]. apply Forall_cons in Hok as [Hokf Hok]. cbn [map].
    constructor; [by apply IH|]. apply Forall_map. rewrite Forall_forall in *. intros g Hg.
    apply file_before_largest; [done|by apply Hok|by apply Hf].
Qed.

(** The first file that does not end before a key. *)
Definition find_file (files : list FileMetaData) (key : Slice) : nat := @lower_bound _ internal_laws key (level_index files).

Lemma find_file_le files key : (find_file files key ≤ length files)%nat.
Proof. unfold find_file. etransitivity; [apply lower_bound_length|]. unfold level_index. by rewrite length_map. Qed.

Lemma find_file_spec files key i f :
  disjoint files → internal_key_ok key → files !! i = Some f →
  if decide (i < find_file files key)%nat then internal_order (rep_ (fm_largest f)) key < 0
  else 0 ≤ internal_order (rep_ (fm_largest f)) key.
Proof.
  intros Hd Hk Hi. apply (@lower_bound_splits _ internal_laws key (level_index files) Hk (level_index_increasing files Hd) i _ (file_value f)).
  unfold level_index. by rewrite list_lookup_fmap, Hi.
Qed.

Lemma FindFile_loop_ok files key fuel left right :
  disjoint files → internal_key_ok key → len files < 2 ^ 31 →
  (left ≤ find_file files key)%nat → (find_file files key ≤ right ≤ length files)%nat → (right - left < fuel)%nat →
  FindFile_loop fuel files key (Z.of_nat left) (Z.of_nat right) = Ok (Z.of_nat (find_file files key)).
Proof.
  intros Hd Hk Hlen. revert left right. induction fuel as [|fuel IH]; intros left right Hl Hr Hf; [lia|]. cbn [FindFile_loop].
  destruct (Z.ltb_spec (Z.of_nat left) (Z.of_nat right)) as [Hlt|Hge]; [|do 2 f_equal; lia].
  rewrite !(wrap_small 32 (Z.of_nat left + Z.of_nat right)) by (unfold in_width; lia).
  replace ((Z.of_nat left + Z.of_nat right) / 2) with (Z.of_nat ((left + right) / 2)) by (by rewrite Nat2Z.inj_div, Nat2Z.inj_add).
  set (mid := ((left + right) / 2)%nat). assert (left ≤ mid < right)%nat as Hmid.
  { unfold mid. split; [apply Nat.div_le_lower_bound; lia|apply Nat.Div0.div_lt_upper_bound; lia]. }
  destruct (lookup_lt_is_Some_2 files mid ltac:(lia)) as [f Hmf].
  unfold file_at. rewrite Nat2Z.id, Hmf, (proj2 (Z.leb_le _ _)) by lia. cbn [mbind outcome_bind].
  pose proof (proj1 (Forall_lookup _ _) (proj1 Hd) _ _ Hmf) as Hokf.
  rewrite compare_slice_ok by (done || apply ikey_ok, Hokf). cbn [mbind outcome_bind].
  pose proof (find_file_spec files key mid f Hd Hk Hmf) as Hs.
  destruct (Z.ltb_spec (internal_order (rep_ (fm_largest f)) key) 0), (decide (mid < find_file files key)%nat); try lia.
  - rewrite wrap_small by (unfold in_width; lia). replace (Z.of_nat mid + 1) with (Z.of_nat (S mid)) by lia. apply IH; lia.
  - apply IH; lia.
Qed.

Lemma FindFile_ok files key :
  disjoint files → internal_key_ok key → len files < 2 ^ 31 → FindFile files key = Ok (Z.of_nat (find_file files key)).
Proof.
  intros Hd Hk Hlen. unfold FindFile. rewrite wrap_small by (unfold in_width; lia).
  pose proof (find_file_le files key). rewrite (FindFile_loop_ok files key _ 0) by (done || lia). cbn [mbind outcome_bind].
  by rewrite s32_small by lia.
Qed.

(** *** The iterator over the files of a level *)

Definition level_at (files : list FileMetaData) (it : LevelFileNumIterator) (c : nat) : Prop :=
  flist_ it = files ∧ index_ it = Z.of_nat c ∧ (c ≤ length files)%nat.

Lemma level_index_lookup files c key value :
  level_index files !! c = Some (key, value) →
  ∃ f, files !! c = Some f ∧ key = rep_ (fm_largest f) ∧ value = file_value f.
Proof.
  unfold level_index. rewrite list_lookup_fmap. destruct (files !! c) as [f|]; [|done]. intros [= <- <-]. by exists f.
Qed.

Lemma level_iterates files :
  disjoint files → len files < 2 ^ 31 → @iterates _ internal_laws _ level_file_iterator (level_index files) (level_at files).
Proof.
  intros Hd Hlen. assert (length (level_index files) = length files) as Hn by apply length_map.
  split; rewrite ?Hn.
  - intros it c (E & Ei & Hc). split; [done|].
    change (LevelFile_Valid it = (c <? length files)%nat). unfold LevelFile_Valid. rewrite E, Ei.
    destruct (Z.ltb_spec (Z.of_nat c) (len files)), (Nat.ltb_spec c (length files)); (done || lia).
  - done.
  - intros it c key value (E & Ei & Hc) Hl. apply level_index_lookup in Hl as (f & Hf & -> & ->).
    pose proof (lookup_lt_Some _ _ _ Hf). cbn. unfold LevelFile_Valid. rewrite E, Ei, (proj2 (Z.ltb_lt _ _)) by lia.
    cbn [require mbind outcome_bind]. unfold file_at. rewrite Nat2Z.id, Hf, (proj2 (Z.leb_le _ _)) by lia.
    cbn [mbind outcome_bind]. split; [|done]. apply Encode_key, ikey_ok.
    apply (proj1 (Forall_lookup _ _) (proj1 Hd) _ _ Hf).
  - intros it c (E & Ei & Hc). eexists. split; [done|]. split; [done|]. split; [done|lia].
  - intros it c (E & Ei & Hc). eexists. split; [done|]. cbn. rewrite E. split; [done|]. cbn.
    destruct (Z.eqb_spec (len files) 0); [lia|]. rewrite wrap_small by (unfold in_width; lia). lia.
  - intros it c (E & Ei & Hc) Hlt. cbn. unfold LevelFile_Valid. rewrite E, Ei, (proj2 (Z.ltb_lt _ _)) by lia.
    cbn [require mbind outcome_bind]. eexists. split; [done|]. split; [done|]. cbn. rewrite wrap_small by (unfold in_width; lia). lia.
  - intros it c (E & Ei & Hc) Hlt. cbn. unfold LevelFile_Valid. rewrite E, Ei, (proj2 (Z.ltb_lt _ _)) by lia.
    cbn [require mbind outcome_bind]. eexists. split; [done|]. split; [done|]. cbn. unfold prior.
    destruct (decide (c = 0)%nat) as [->|]; [rewrite wrap_small by (unfold in_width; lia); split; [done|lia]|].
    rewrite (proj2 (Z.eqb_neq _ _)) by lia. lia.
  - intros it c target (E & Ei & Hc) Ht.
    change (Iterator_Seek it target) with (index ← FindFile (flist_ it) target; Ok (set_file_index it (u32 index))).
    rewrite E, FindFile_ok by done. cbn [mbind outcome_bind].
    pose proof (find_file_le files target). eexists _, (find_file files target). split; [done|].
    split; [|apply lower_bound_splits; [done|by apply level_index_increasing]]. split; [done|]. cbn.
    rewrite wrap_small by (unfold in_width; lia). split; [done|lia].
Qed.

Lemma new_LevelFileNumIterator_ok files : len files < 2 ^ 31 → level_at files (new_LevelFileNumIterator files) (length files).
Proof. intros Hlen. split; [done|]. split; [|lia]. cbn. rewrite wrap_small by (unfold in_width; lia). done. Qed.

End files.

(** ** Ranges of user keys *)

Section ranges.
Context `{ComparatorLaws}.

(** A bound that is not given is beyond all keys. *)
Definition from (lo : option Slice) (u : Slice) : Prop := ∀ k, lo = Some k → order k u ≤ 0.
Definition upto (hi : option Slice) (u : Slice) : Prop := ∀ k, hi = Some k → order u k ≤ 0.
Definition bound_ok (b : option Slice) : Prop := ∀ k, b = Some k → key_ok k.

(** A file whose range of user keys meets a range. *)
Definition overlaps (lo hi : option Slice) (f : FileMetaData) : Prop := from lo (lu f) ∧ upto hi (su f).

#[export] Instance from_dec lo u : Decision (from lo u).
Proof.
  refine (match lo with Some k => cast_if (decide (order k u ≤ 0)) | None => left _ end); unfold from.
  - by intros ? [= <-].
  - intros Hx. by apply n, Hx.
  - done.
Defined.

#[export] Instance upto_dec hi u : Decision (upto hi u).
Proof.
  refine (match hi with Some k => cast_if (decide (order u k ≤ 0)) | None => left _ end); unfold upto.
  - by intros ? [= <-].
  - intros Hx. by apply n, Hx.
  - done.
Defined.

#[export] Instance overlaps_dec lo hi f : Decision (overlaps lo hi f).
Proof. unfold overlaps. apply _. Defined.

Lemma AfterFile_ok lo f : file_ok f → bound_ok lo → AfterFile lo f = Ok (negb (bool_decide (from lo (lu f)))).
Proof.
  intros Hf Hlo. destruct lo as [k|]; cbn [AfterFile].
  - rewrite user_key_ok by apply ikey_ok, Hf. cbn [mbind outcome_bind].
    pose proof (Hlo k eq_refl) as Hk. rewrite Compare_ok by (done || by apply lu_ok). cbn [mbind outcome_bind]. f_equal.
    unfold lu in *. destruct (Z.ltb_spec 0 (order k (ukey (rep_ (fm_largest f))))).
    + rewrite bool_decide_eq_false_2; [done|]. intros Hx. specialize (Hx k eq_refl). lia.
    + rewrite bool_decide_eq_true_2; [done|]. intros ? [= <-]. done.
  - by rewrite bool_decide_eq_true_2.
Qed.

Lemma BeforeFile_ok hi f : file_ok f → bound_ok hi → BeforeFile hi f = Ok (negb (bool_decide (upto hi (su f)))).
Proof.
  intros Hf Hhi. destruct hi as [k|]; cbn [BeforeFile].
  - rewrite user_key_ok by apply ikey_ok, Hf. cbn [mbind outcome_bind].
    pose proof (Hhi k eq_refl) as Hk. rewrite Compare_ok by (done || by apply su_ok). cbn [mbind outcome_bind]. f_equal.
    pose proof (order_flip k (su f) Hk (su_ok f Hf)). pose proof (order_flip (su f) k (su_ok f Hf) Hk). unfold su in *.
    destruct (Z.ltb_spec (order k (ukey (rep_ (fm_smallest f)))) 0).
    + rewrite bool_decide_eq_false_2; [done|]. intros Hx. specialize (Hx k eq_refl). lia.
    + rewrite bool_decide_eq_true_2; [done|]. intros ? [= <-]. lia.
  - by rewrite bool_decide_eq_true_2.
Qed.

Lemma some_overlaps_ok lo hi files :
  Forall file_ok files → bound_ok lo → bound_ok hi →
  some_overlaps files lo hi = Ok (bool_decide (Exists (overlaps lo hi) files)).
Proof.
  intros Hf Hlo Hhi. induction Hf as [|f files Hf _ IH]; cbn [some_overlaps].
  { by rewrite bool_decide_eq_false_2 by by intros ?%Exists_nil. }
  rewrite AfterFile_ok by done. cbn [mbind outcome_bind].
  assert (Exists (overlaps lo hi) (f :: files) ↔ (from lo (lu f) ∧ upto hi (su f)) ∨ Exists (overlaps lo hi) files) as Hiff
    by apply Exists_cons.
  destruct (decide (from lo (lu f))) as [E1|E1].
  - rewrite (bool_decide_eq_true_2 _ E1), BeforeFile_ok by done. cbn [negb mbind outcome_bind].
    destruct (decide (upto hi (su f))) as [E2|E2].
    + rewrite (bool_decide_eq_true_2 _ E2). cbn [negb]. rewrite bool_decide_eq_true_2; [done|]. tauto.
    + rewrite (bool_decide_eq_false_2 _ E2), IH. cbn [negb]. f_equal. apply bool_decide_ext. tauto.
  - rewrite (bool_decide_eq_false_2 _ E1), IH. cbn [negb mbind outcome_bind]. f_equal. apply bool_decide_ext. tauto.
Qed.

(** The key at which a search for a user key starts is before all keys of it. *)
Lemma ikey_seek k : ikey k → le_value (key_tag k) ≤ kMaxSequenceNumber * 256 + kValueTypeForSeek.
Proof.
  intros [(Hl & _ & Hb) Ht]. pose proof (le_value_bound _ Hb) as Hv. rewrite length_key_tag in Hv by done.
  unfold kTypeValue in Ht. change (256 ^ Z.of_nat 8) with (2 ^ 56 * 256) in Hv. unfold kMaxSequenceNumber, kValueTypeForSeek, kTypeValue.
  change (Z.shiftl 1 56) with (2 ^ 56). lia_mod.
Qed.

Lemma seek_first k u : ikey k → key_ok u → internal_order k (u ++ seek_tag) < 0 ↔ order (ukey k) u < 0.
Proof.
  intros Hk Hu. rewrite internal_order_spec by (apply ikey_ok, Hk || by apply seek_key_ok). rewrite ukey_seek.
  pose proof (ikey_seek k Hk). destruct (packed_key_parts u kMaxSequenceNumber kValueTypeForSeek) as (_ & Ht & _); [done|].
  change (packed_key u kMaxSequenceNumber kValueTypeForSeek) with (u ++ seek_tag) in Ht. rewrite Ht. lia.
Qed.

Lemma disjoint_lookup files i j f g :
  disjoint files → files !! i = Some f → files !! j = Some g → (i < j)%nat → file_before f g.
Proof.
  intros [_ Hs]. revert i j. induction Hs as [|x files Hs IH Hx]; intros i j Hi Hj Hlt; [done|].
  destruct j as [|j]; [lia|]. destruct i as [|i]; cbn in Hi, Hj.
  - injection Hi as ->. by eapply Forall_lookup_1 in Hx.
  - eapply IH; [done|done|lia].
Qed.

Lemma file_before_users f g : file_ok f → file_ok g → file_before f g → order (lu f) (su g) ≤ 0.
Proof.
  intros Hf Hg Hlt. apply internal_le_ukey; [apply ikey_ok, Hf|apply ikey_ok, Hg|]. unfold file_before in Hlt. lia.
Qed.

(** The first file that may overlap a range of a level is that found for its beginning. *)
Definition first_at (lo : option Slice) (files : list FileMetaData) : nat :=
  match lo with None => O | Some k => find_file files (k ++ seek_tag) end.

Lemma first_at_overlaps lo hi files :
  disjoint files → bound_ok lo → bound_ok hi →
  Exists (overlaps lo hi) files ↔ ∃ f, files !! first_at lo files = Some f ∧ upto hi (su f).
Proof.
  intros Hd Hlo Hhi. assert (∀ i f, files !! i = Some f → if decide (i < first_at lo files)%nat then ~ from lo (lu f) else from lo (lu f)) as Hfirst.
  { intros i f Hi. pose proof (proj1 (Forall_lookup _ _) (proj1 Hd) _ _ Hi) as Hf. destruct lo as [k|]; cbn [first_at].
    - pose proof (Hlo k eq_refl) as Hk. pose proof (find_file_spec files (k ++ seek_tag) i f Hd (seek_key_ok k Hk) Hi) as Hs.
      pose proof (seek_first _ _ (fo_largest f Hf) Hk) as Hsk. fold (lu f) in Hsk.
      pose proof (order_flip _ _ (lu_ok f Hf) Hk). destruct (decide (i < _)%nat).
      + intros Hx. specialize (Hx k eq_refl). lia.
      + intros ? [= <-]. lia.
    - rewrite decide_False by lia. by intros ?. }
  rewrite Exists_exists. split.
  - intros (f & Hin & Ho1 & Ho2). apply list_elem_of_lookup in Hin as [i Hi]. pose proof (Hfirst i f Hi) as Hx.
    destruct (decide (i < first_at lo files)%nat); [done|].
    destruct (lookup_lt_is_Some_2 files (first_at lo files)) as [g Hg]; [apply lookup_lt_Some in Hi; lia|].
    exists g. split; [done|]. destruct (decide (i = first_at lo files)) as [->|]; [assert (f = g) as -> by congruence; done|].
    intros k Hk. specialize (Ho2 k Hk). pose proof (Hhi k Hk) as Hkok.
    pose proof (proj1 (Forall_lookup _ _) (proj1 Hd) _ _ Hi) as Hf. pose proof (proj1 (Forall_lookup _ _) (proj1 Hd) _ _ Hg) as Hgok.
    pose proof (file_before_users g f Hgok Hf (disjoint_lookup files _ i g f Hd Hg Hi ltac:(lia))) as Hgf.
    pose proof (file_range g Hgok). pose proof (su_ok f Hf). pose proof (su_ok g Hgok). pose proof (lu_ok g Hgok).
    by_rank [k; su f; su g; lu g].
  - intros (f & Hf & Hup). exists f. split; [by eapply list_elem_of_lookup_2|]. split; [|done].
    specialize (Hfirst _ _ Hf). by rewrite decide_False in Hfirst by lia.
Qed.

(** Whether some file overlaps a range, found by search when the files are sorted. *)
Lemma SomeFileOverlapsRange_ok (sorted : bool) lo hi files :
  Forall file_ok files → (sorted = true → disjoint files ∧ len files < 2 ^ 31) → bound_ok lo → bound_ok hi →
  SomeFileOverlapsRange sorted files lo hi = Ok (bool_decide (Exists (overlaps lo hi) files)).
Proof.
  intros Hf Hs Hlo Hhi. unfold SomeFileOverlapsRange. destruct sorted; cbn [negb]; [|by apply some_overlaps_ok].
  destruct (Hs eq_refl) as [Hd Hlen]. clear Hs.
  assert ((match lo with
           | None => Ok 0
           | Some k => small_key ← new_InternalKey k kMaxSequenceNumber kValueTypeForSeek;
                       small ← Encode small_key; index ← FindFile files small; Ok (u32 index)
           end) = Ok (Z.of_nat (first_at lo files))) as ->.
  { destruct lo as [k|]; [|done]. pose proof (seek_key_ok k (Hlo k eq_refl)) as Hk. unfold new_InternalKey.
    rewrite AppendInternalKey_ok by done. cbn [mbind outcome_bind pk_user_key pk_sequence pk_type].
    change (packed_key k kMaxSequenceNumber kValueTypeForSeek) with (k ++ seek_tag).
    rewrite Encode_key by done. cbn [mbind outcome_bind rep_]. rewrite FindFile_ok by done. cbn [mbind outcome_bind first_at].
    pose proof (find_file_le files (k ++ seek_tag)). by rewrite wrap_small by (unfold in_width; lia). }
  cbn [mbind outcome_bind]. destruct (Z.leb_spec (len files) (Z.of_nat (first_at lo files))) as [Hge|Hlt].
  { rewrite bool_decide_eq_false_2; [done|]. rewrite first_at_overlaps by done. intros (f & Hl & _).
    apply lookup_lt_Some in Hl. lia. }
  destruct (lookup_lt_is_Some_2 files (first_at lo files) ltac:(lia)) as [f Hl].
  unfold file_at. rewrite Nat2Z.id, Hl, (proj2 (Z.leb_le _ _)) by lia. cbn [mbind outcome_bind].
  rewrite BeforeFile_ok by (done || by eapply Forall_lookup_1). cbn [mbind outcome_bind]. rewrite negb_involutive. f_equal.
  apply bool_decide_ext. rewrite first_at_overlaps by done. rewrite Hl. split; [by eauto|]. by intros (? & [= <-] & ?).
Qed.

End ranges.

(** ** The closure of a range in a level *)

Lemma length_filter_mono {A} (P Q : A → Prop) `{!∀ x, Decision (P x), !∀ x, Decision (Q x)} (l : list A) :
  (∀ x, x ∈ l → P x → Q x) → (length (filter P l) ≤ length (filter Q l))%nat.
Proof.
  induction l as [|x l IH]; intros Hi; [done|]. rewrite !filter_cons. specialize (IH ltac:(intros y Hy; apply Hi; by right)).
  destruct (decide (P x)) as [Hp|]; [rewrite decide_True by (apply Hi; [by left|done]); cbn; lia|]. case_decide; cbn; lia.
Qed.

Lemma length_filter_strict {A} (P Q : A → Prop) `{!∀ x, Decision (P x), !∀ x, Decision (Q x)} (l : list A) x :
  (∀ x, x ∈ l → P x → Q x) → x ∈ l → Q x → ~ P x → (length (filter P l) < length (filter Q l))%nat.
Proof.
  intros Hi Hx Hq Hp. apply list_elem_of_split in Hx as (l1 & l2 & ->). rewrite !filter_app, !filter_cons, !length_app.
  rewrite (decide_False (P := P x)), (decide_True (P := Q x)) by done. cbn [length].
  pose proof (length_filter_mono P Q l1 ltac:(intros y Hy; apply Hi, elem_of_app; by left)).
  pose proof (length_filter_mono P Q l2 ltac:(intros y Hy; apply Hi, elem_of_app; right; by right)). lia.
Qed.

Section closure.
Context `{ComparatorLaws}.
Implicit Types lo hi : option Slice.

(** Another range that has at least the keys of a range. *)
Definition wider_lo lo lo' : Prop :=
  match lo, lo' with Some k, Some k' => order k' k ≤ 0 | None, None => True | _, _ => False end.
Definition wider_hi hi hi' : Prop :=
  match hi, hi' with Some k, Some k' => order k k' ≤ 0 | None, None => True | _, _ => False end.

Definition in_file (u : Slice) (f : FileMetaData) : Prop := order (su f) u ≤ 0 ∧ order u (lu f) ≤ 0.

(** Every key of a range is in the range of some file. *)
Definition covered (files : list FileMetaData) lo hi : Prop :=
  ∀ u, key_ok u → from lo u → upto hi u → ∃ f, f ∈ files ∧ in_file u f.

(** The files of a level that are taken for a range: those that overlap a range that is at
    least as wide, and at level zero none of them goes beyond that range. *)
Record taken (level : Z) (all : list FileMetaData) lo hi (files : list FileMetaData) lo' hi' : Prop := {
  tk_lo : wider_lo lo lo';
  tk_hi : wider_hi hi hi';
  tk_lo_ok : bound_ok lo';
  tk_hi_ok : bound_ok hi';
  tk_same : level ≠ 0 → lo' = lo ∧ hi' = hi;
  tk_files : files = filter (overlaps lo' hi') all;
  tk_closed : level = 0 → ∀ f, f ∈ files → from lo' (su f) ∧ upto hi' (lu f);
  tk_covered : covered all lo hi → covered all lo' hi'
}.

Lemma wider_lo_refl lo : bound_ok lo → wider_lo lo lo.
Proof. intros Hk. destruct lo as [k|]; cbn; [|done]. by rewrite order_refl by by apply Hk. Qed.

Lemma wider_hi_refl hi : bound_ok hi → wider_hi hi hi.
Proof. intros Hk. destruct hi as [k|]; cbn; [|done]. by rewrite order_refl by by apply Hk. Qed.

(** The files that begin before the range, and those that end after it. *)
Definition outliers lo hi (all : list FileMetaData) : nat :=
  length (filter (λ f, ~ from lo (su f)) all) + length (filter (λ f, ~ upto hi (lu f)) all).

Lemma outliers_le lo hi all : (outliers lo hi all ≤ 2 * length all)%nat.
Proof.
  unfold outliers. pose proof (length_filter (λ f, ~ from lo (su f)) all). pose proof (length_filter (λ f, ~ upto hi (lu f)) all). lia.
Qed.

Lemma outliers_lo k hi all f :
  Forall file_ok all → key_ok k → f ∈ all → order (su f) k < 0 → (outliers (Some (su f)) hi all < outliers (Some k) hi all)%nat.
Proof.
  intros Hall Hk Hf Hlt. rewrite Forall_forall in Hall. unfold outliers.
  pose proof (length_filter_strict (λ g, ~ from (Some (su f)) (su g)) (λ g, ~ from (Some k) (su g)) all f) as Hs.
  pose proof (su_ok f (Hall f Hf)) as Hsf. enough (length (filter (λ g, ~ from (Some (su f)) (su g)) all) <
    length (filter (λ g, ~ from (Some k) (su g)) all))%nat by lia. apply Hs; [|done| |].
  - intros g Hg Hx Hy. apply Hx. intros ? [= <-]. specialize (Hy k eq_refl). pose proof (su_ok g (Hall g Hg)). by_rank [su f; k; su g].
  - intros Hx. specialize (Hx k eq_refl). by_rank [su f; k].
  - intros Hx. apply Hx. intros ? [= <-]. by rewrite order_refl.
Qed.

Lemma outliers_hi lo k all f :
  Forall file_ok all → key_ok k → f ∈ all → order k (lu f) < 0 → (outliers lo (Some (lu f)) all < outliers lo (Some k) all)%nat.
Proof.
  intros Hall Hk Hf Hlt. rewrite Forall_forall in Hall. unfold outliers.
  pose proof (length_filter_strict (λ g, ~ upto (Some (lu f)) (lu g)) (λ g, ~ upto (Some k) (lu g)) all f) as Hs.
  pose proof (lu_ok f (Hall f Hf)) as Hsf. enough (length (filter (λ g, ~ upto (Some (lu f)) (lu g)) all) <
    length (filter (λ g, ~ upto (Some k) (lu g)) all))%nat by lia. apply Hs; [|done| |].
  - intros g Hg Hx Hy. apply Hx. intros ? [= <-]. specialize (Hy k eq_refl). pose proof (lu_ok g (Hall g Hg)). by_rank [lu f; k; lu g].
  - intros Hx. specialize (Hx k eq_refl). by_rank [lu f; k].
  - intros Hx. apply Hx. intros ? [= <-]. by rewrite order_refl.
Qed.

Lemma covered_lo all k hi f :
  Forall file_ok all → f ∈ all → key_ok k → bound_ok hi → overlaps (Some k) hi f → order (su f) k < 0 →
  covered all (Some k) hi → covered all (Some (su f)) hi.
Proof.
  intros Hall Hf Hk Hhi [Ho1 Ho2] Hlt Hc u Hu H1 H2. rewrite Forall_forall in Hall.
  pose proof (su_ok f (Hall f Hf)). pose proof (lu_ok f (Hall f Hf)).
  destruct (Z.le_gt_cases (order k u) 0) as [Hle|Hgt].
  - apply Hc; [done| |done]. by intros ? [= <-].
  - exists f. split; [done|]. specialize (H1 _ eq_refl). specialize (Ho1 _ eq_refl). split; [done|]. by_rank [k; u; lu f].
Qed.

Lemma covered_hi all lo k f :
  Forall file_ok all → f ∈ all → key_ok k → bound_ok lo → overlaps lo (Some k) f → order k (lu f) < 0 →
  covered all lo (Some k) → covered all lo (Some (lu f)).
Proof.
  intros Hall Hf Hk Hhi [Ho1 Ho2] Hlt Hc u Hu H1 H2. rewrite Forall_forall in Hall.
  pose proof (su_ok f (Hall f Hf)). pose proof (lu_ok f (Hall f Hf)).
  destruct (Z.le_gt_cases (order u k) 0) as [Hle|Hgt].
  - apply Hc; [done|done|]. by intros ? [= <-].
  - exists f. split; [done|]. specialize (H2 _ eq_refl). specialize (Ho2 _ eq_refl). split; [|done]. by_rank [k; u; su f].
Qed.

(** One round of the loop. *)
Lemma overlapping_round fuel level all lo hi i inputs f :
  file_ok f → bound_ok lo → bound_ok hi → all !! i = Some f →
  overlapping_loop (S fuel) level all lo hi i inputs =
    if decide (overlaps lo hi f) then
      if decide (level = 0) then
        if decide (from lo (su f)) then
          if decide (upto hi (lu f)) then overlapping_loop fuel level all lo hi (S i) (inputs ++ [f])
          else overlapping_loop fuel level all lo (Some (lu f)) 0 []
        else overlapping_loop fuel level all (Some (su f)) hi 0 []
      else overlapping_loop fuel level all lo hi (S i) (inputs ++ [f])
    else overlapping_loop fuel level all lo hi (S i) inputs.
Proof.
  intros Hf Hlo Hhi Hi. cbn [overlapping_loop]. rewrite Hi, !user_key_ok by apply ikey_ok, Hf. cbn [mbind outcome_bind].
  fold (su f). fold (lu f). pose proof (su_ok f Hf). pose proof (lu_ok f Hf).
  assert (∀ b u, bound_ok b → key_ok u →
    (match b with Some k => c ← Compare u k; Ok (c <? 0) | None => Ok false end) = Ok (negb (bool_decide (from b u)))) as Hlow.
  { intros b u Hb Hu. destruct b as [k|]; [|by rewrite bool_decide_eq_true_2 by done]. pose proof (Hb k eq_refl).
    rewrite Compare_ok by done. cbn [mbind outcome_bind]. f_equal. destruct (Z.ltb_spec (order u k) 0).
    - rewrite bool_decide_eq_false_2; [done|]. intros Hx. specialize (Hx k eq_refl). by_rank [u; k].
    - rewrite bool_decide_eq_true_2; [done|]. intros ? [= <-]. by_rank [u; k]. }
  assert (∀ b u, bound_ok b → key_ok u →
    (match b with Some k => c ← Compare u k; Ok (0 <? c) | None => Ok false end) = Ok (negb (bool_decide (upto b u)))) as Hhigh.
  { intros b u Hb Hu. destruct b as [k|]; [|by rewrite bool_decide_eq_true_2 by done]. pose proof (Hb k eq_refl).
    rewrite Compare_ok by done. cbn [mbind outcome_bind]. f_equal. destruct (Z.ltb_spec 0 (order u k)).
    - rewrite bool_decide_eq_false_2; [done|]. intros Hx. specialize (Hx k eq_refl). lia.
    - rewrite bool_decide_eq_true_2; [done|]. by intros ? [= <-]. }
  rewrite (Hlow lo (lu f)), (Hhigh hi (su f)), (Hlow lo (su f)), (Hhigh hi (lu f)) by done. cbn [mbind outcome_bind].
  destruct (decide (overlaps lo hi f)) as [[Ho1 Ho2]|Hn].
  - rewrite (bool_decide_eq_true_2 _ Ho1), (bool_decide_eq_true_2 _ Ho2). cbn [negb].
    destruct (Z.eqb_spec level 0); [rewrite decide_True by done|by rewrite decide_False by done].
    destruct (decide (from lo (su f))) as [E1|E1];
      [rewrite (bool_decide_eq_true_2 _ E1)|by rewrite (bool_decide_eq_false_2 _ E1)]. cbn [negb].
    destruct (decide (upto hi (lu f))) as [E2|E2];
      [by rewrite (bool_decide_eq_true_2 _ E2)|by rewrite (bool_decide_eq_false_2 _ E2)].
  - destruct (decide (from lo (lu f))) as [E1|E1];
      [rewrite (bool_decide_eq_true_2 _ E1)|by rewrite (bool_decide_eq_false_2 _ E1)]. cbn [negb].
    rewrite bool_decide_eq_false_2; [done|]. intros E2. by apply Hn.
Qed.

Lemma filter_take_S {A} (P : A → Prop) `{!∀ x, Decision (P x)} (l : list A) i x :
  l !! i = Some x → filter P (take (S i) l) = filter P (take i l) ++ (if decide (P x) then [x] else []).
Proof. intros Hi. rewrite (take_S_r _ _ _ Hi), filter_app, filter_cons. by destruct (decide (P x)). Qed.

Lemma overlapping_loop_ok fuel level all lo hi i inputs :
  Forall file_ok all → bound_ok lo → bound_ok hi → (i ≤ length all)%nat →
  inputs = filter (overlaps lo hi) (take i all) →
  (level = 0 → ∀ f, f ∈ inputs → from lo (su f) ∧ upto hi (lu f)) →
  (outliers lo hi all * S (length all) + (length all - i) < fuel)%nat →
  ∃ files lo' hi', overlapping_loop fuel level all lo hi i inputs = Ok files ∧ taken level all lo hi files lo' hi'.
Proof.
  intros Hall. revert lo hi i inputs. induction fuel as [|fuel IH]; intros lo hi i inputs Hlo Hhi Hi Hin Hcl Hfuel; [lia|].
  destruct (all !! i) as [f|] eqn:Hf.
  2: { apply lookup_ge_None in Hf. cbn [overlapping_loop]. rewrite (proj2 (lookup_ge_None _ _)) by done.
       exists inputs, lo, hi. split; [done|]. rewrite take_ge in Hin by done.
       split; try done; [by apply wider_lo_refl|by apply wider_hi_refl]. }
  pose proof (lookup_lt_Some _ _ _ Hf) as Hlt. pose proof (proj1 (Forall_lookup _ _) Hall _ _ Hf) as Hokf.
  pose proof (list_elem_of_lookup_2 _ _ _ Hf) as Hinf. rewrite (overlapping_round _ _ _ _ _ _ _ f) by done.
  pose proof (filter_take_S (overlaps lo hi) all i f Hf) as Hnext.
  pose proof (su_ok f Hokf) as Hsu. pose proof (lu_ok f Hokf) as Hlu.
  destruct (decide (overlaps lo hi f)) as [Ho|Ho].
  2: { apply IH; [done|done|lia| |done|lia]. by rewrite Hnext, app_nil_r. }
  destruct (decide (level = 0)) as [Hz|Hz]; [destruct (decide (from lo (su f))) as [Hfr|Hfr]; [destruct (decide (upto hi (lu f))) as [Hup|Hup]|]|].
  - apply IH; [done|done|lia|by rewrite Hnext, Hin| |lia]. intros _ g [Hg|Hg%list_elem_of_singleton]%elem_of_app; [by apply Hcl|by subst].
  - destruct hi as [k|]; [|by destruct Hup]. pose proof (Hhi k eq_refl) as Hk.
    assert (order k (lu f) < 0) as Hlt'.
    { destruct (Z.le_gt_cases (order (lu f) k) 0) as [Hle|]; [destruct Hup; by intros ? [= <-]|by_rank [lu f; k]]. }
    pose proof (outliers_hi lo k all f Hall Hk Hinf Hlt').
    destruct (IH lo (Some (lu f)) 0%nat []) as (files & lo' & hi' & E & [T1 T2 T3 T4 T5 T6 T7 T8]); [done|by intros ? [= <-]|lia|done|set_solver|nia|].
    exists files, lo', hi'. split; [done|]. split; try done.
    + destruct hi' as [k'|]; [|done]. cbn in *. pose proof (T4 k' eq_refl). by_rank [k; lu f; k'].
    + intros Hc. by apply T8, (covered_hi all lo k f).
  - destruct lo as [k|]; [|by destruct Hfr]. pose proof (Hlo k eq_refl) as Hk.
    assert (order (su f) k < 0) as Hlt'.
    { destruct (Z.le_gt_cases (order k (su f)) 0) as [Hle|]; [destruct Hfr; by intros ? [= <-]|by_rank [su f; k]]. }
    pose proof (outliers_lo k hi all f Hall Hk Hinf Hlt').
    destruct (IH (Some (su f)) hi 0%nat []) as (files & lo' & hi' & E & [T1 T2 T3 T4 T5 T6 T7 T8]); [by intros ? [= <-]|done|lia|done|set_solver|nia|].
    exists files, lo', hi'. split; [done|]. split; try done.
    + destruct lo' as [k'|]; [|done]. cbn in *. pose proof (T3 k' eq_refl). by_rank [k; su f; k'].
    + intros Hc. by apply T8, (covered_lo all k hi f).
  - apply IH; [done|done|lia|by rewrite Hnext, Hin|done|lia].
Qed.

(** The range that two internal keys, or none, stand for. *)
Definition user_bound (key : option InternalKey) : option Slice := (λ k, ukey (rep_ k)) <$> key.
Definition key_bound_ok (key : option InternalKey) : Prop := ∀ k, key = Some k → internal_key_ok (rep_ k).

Lemma user_bound_ok key : key_bound_ok key → bound_ok (user_bound key).
Proof. intros Hk u Hu. destruct key as [k|]; [|done]. injection Hu as <-. by apply ukey_ok, Hk. Qed.

Lemma optional_user_key_ok key : key_bound_ok key → optional_user_key key = Ok (user_bound key).
Proof. intros Hk. destruct key as [k|]; [|done]. cbn. by rewrite user_key_ok by by apply Hk. Qed.

(** What the code calls a version: seven levels of well-formed files, those of every level
    but the first sorted and disjoint. *)
Record version_ok (v : Version) : Prop := {
  vo_levels : length (v_files v) = Z.to_nat kNumLevels;
  vo_files : ∀ level files, v_files v !! level = Some files → Forall file_ok files ∧ len files < 2 ^ 31;
  vo_sorted : ∀ level files, v_files v !! level = Some files → (0 < level)%nat → disjoint files
}.

(** The files of a level. *)
Definition level_files (v : Version) (level : Z) : list FileMetaData := default [] (v_files v !! Z.to_nat level).

Lemma files_at_ok v level : version_ok v → level_ok level →
  files_at v level = Ok (level_files v level) ∧ Forall file_ok (level_files v level) ∧
  len (level_files v level) < 2 ^ 31 ∧ (0 < level → disjoint (level_files v level)).
Proof.
  unfold level_ok, kNumLevels. intros Hv Hl. unfold files_at, level_files.
  destruct (lookup_lt_is_Some_2 (v_files v) (Z.to_nat level)) as [files E]; [rewrite (vo_levels v Hv); unfold kNumLevels; lia|].
  rewrite E, (proj2 (Z.leb_le _ _)) by lia. cbn [default]. destruct (vo_files v Hv _ _ E). split_and!; [done..|].
  intros Hz. apply (vo_sorted v Hv _ _ E). lia.
Qed.

Lemma GetOverlappingInputs_ok v level begin end_ :
  version_ok v → level_ok level → key_bound_ok begin → key_bound_ok end_ →
  ∃ files lo hi, GetOverlappingInputs v level begin end_ = Ok files ∧
    taken level (level_files v level) (user_bound begin) (user_bound end_) files lo hi.
Proof.
  intros Hv Hl Hb He. destruct (files_at_ok v level Hv Hl) as (Ef & Hok & _). unfold GetOverlappingInputs.
  rewrite (proj2 (Z.leb_le _ _)), (proj2 (Z.ltb_lt _ _)) by apply Hl. cbn [andb require mbind outcome_bind].
  rewrite !optional_user_key_ok by done. cbn [mbind outcome_bind]. rewrite Ef. cbn [mbind outcome_bind].
  apply overlapping_loop_ok; [done|by apply user_bound_ok|by apply user_bound_ok|lia|done|set_solver|].
  pose proof (outliers_le (user_bound begin) (user_bound end_) (level_files v level)). unfold overlapping_rounds. nia.
Qed.

Lemma OverlapInLevel_ok v level lo hi :
  version_ok v → level_ok level → bound_ok lo → bound_ok hi →
  OverlapInLevel v level lo hi = Ok (bool_decide (Exists (overlaps lo hi) (level_files v level))).
Proof.
  intros Hv Hl Hlo Hhi. destruct (files_at_ok v level Hv Hl) as (Ef & Hok & Hlen & Hd). unfold OverlapInLevel. rewrite Ef.
  cbn [mbind outcome_bind]. apply SomeFileOverlapsRange_ok; [done| |done|done]. intros Hz%Z.ltb_lt. by split; [apply Hd|].
Qed.

End closure.

(** ** The level of a new table *)

Section output_level.
Context `{ComparatorLaws} (max_file_size : Z) (v : Version) (Hv : version_ok v).

(** No file of a level overlaps the range. *)
Definition clear_of (lo hi : Slice) (level : Z) : Prop := ~ Exists (overlaps (Some lo) (Some hi)) (level_files v level).

Lemma new_key_ok u seq t :
  key_ok u → 0 ≤ seq ≤ kMaxSequenceNumber → 0 ≤ t ≤ kValueTypeForSeek →
  new_InternalKey u seq t = Ok {| rep_ := packed_key u seq t |} ∧ internal_key_ok (packed_key u seq t).
Proof.
  intros Hu Hs Ht. unfold new_InternalKey. rewrite AppendInternalKey_ok by done. split; [done|].
  destruct (packed_key_parts u seq t (proj2 (pack_ok _ _ Hs Ht))) as (E & _ & Hb & Hl). split; [done|]. by rewrite E.
Qed.

Lemma pick_level_ok fuel lo hi start limit level :
  key_ok lo → key_ok hi → internal_key_ok (rep_ start) → internal_key_ok (rep_ limit) →
  0 ≤ level ≤ kMaxMemCompactLevel → kMaxMemCompactLevel - level < Z.of_nat fuel →
  (∀ l, 0 ≤ l ≤ level → clear_of lo hi l) →
  ∃ r, pick_level max_file_size fuel v lo hi start limit level = Ok r ∧ level ≤ r ≤ kMaxMemCompactLevel ∧
    ∀ l, 0 ≤ l ≤ r → clear_of lo hi l.
Proof.
  intros Hlo Hhi Hst Hli. revert level. induction fuel as [|fuel IH]; intros level Hl Hf Hcl; [lia|]. cbn [pick_level].
  assert (bound_ok (Some lo)) as Hblo by by intros ? [= <-]. assert (bound_ok (Some hi)) as Hbhi by by intros ? [= <-].
  destruct (Z.ltb_spec level kMaxMemCompactLevel) as [Hlt|Hge]; [|exists level; split; [done|]; split; [lia|done]].
  unfold kMaxMemCompactLevel in *.
  rewrite OverlapInLevel_ok by (done || (unfold level_ok, kNumLevels; lia)). cbn [mbind outcome_bind].
  destruct (decide (Exists (overlaps (Some lo) (Some hi)) (level_files v (level + 1)))) as [Ho|Ho].
  { rewrite (bool_decide_eq_true_2 _ Ho). exists level. split; [done|]. split; [lia|done]. }
  rewrite (bool_decide_eq_false_2 _ Ho). rewrite (proj2 (Z.ltb_lt _ _)) by (unfold kNumLevels; lia).
  destruct (GetOverlappingInputs_ok v (level + 2) (Some start) (Some limit)) as (files & ? & ? & -> & _);
    [done|unfold level_ok, kNumLevels; lia|by intros ? [= <-]|by intros ? [= <-]|].
  cbn [mbind outcome_bind]. destruct (_ <? _); [exists level; split; [done|]; split; [lia|done]|].
  destruct (IH (level + 1)) as (r & -> & Hr & Hcr); [lia|lia| |].
  - intros l Hll. destruct (decide (l = level + 1)) as [->|]; [done|]. apply Hcl. lia.
  - exists r. split; [done|]. split; [lia|done].
Qed.

(** The level found is at most two, and if it is not the first then neither it nor any level
    above has a file that overlaps the new table. *)
Lemma PickLevel_ok lo hi :
  key_ok lo → key_ok hi →
  ∃ r, PickLevelForMemTableOutput max_file_size v lo hi = Ok r ∧ 0 ≤ r ≤ kMaxMemCompactLevel ∧
    (0 < r → ∀ l, 0 ≤ l ≤ r → clear_of lo hi l).
Proof.
  intros Hlo Hhi. unfold PickLevelForMemTableOutput.
  rewrite OverlapInLevel_ok; [|done|unfold level_ok, kNumLevels; lia|by intros ? [= <-]|by intros ? [= <-]].
  cbn [mbind outcome_bind]. destruct (decide (Exists (overlaps (Some lo) (Some hi)) (level_files v 0))) as [Ho|Ho].
  { rewrite (bool_decide_eq_true_2 _ Ho). exists 0. split; [done|]. unfold kMaxMemCompactLevel. lia. }
  rewrite (bool_decide_eq_false_2 _ Ho).
  destruct (new_key_ok lo kMaxSequenceNumber kValueTypeForSeek Hlo) as [-> Hs]; [done..|]. cbn [mbind outcome_bind].
  destruct (new_key_ok hi 0 0 Hhi) as [-> Hl]; [done..|]. cbn [mbind outcome_bind].
  destruct (pick_level_ok 3 lo hi {| rep_ := packed_key lo kMaxSequenceNumber kValueTypeForSeek |} {| rep_ := packed_key hi 0 0 |} 0)
    as (r & -> & Hr & Hcr); [done..|unfold kMaxMemCompactLevel; lia|unfold kMaxMemCompactLevel; lia| |].
  - intros l Hll. by replace l with 0 by lia.
  - exists r. done.
Qed.

End output_level.
