(* ===== verification/LdbVersionGet.v ===== *)
(** * LevelDB, db/version_set: reading a version

    A lookup goes through the files of level zero from the newest to the oldest and then
    through one file of every other level at most, and stops at the first entry for the key;
    iterators over all the files.  The cache of tables is an interface. *)

From S2P Require Import Prelude LdbCoding LdbEnv LdbOrder LdbIter LdbTwoLevel LdbFormat LdbTableFormat LdbVersionEdit LdbVersion.

(** ** The cache of open tables *)

(** What the database asks of it: a lookup, with the call of [handle_result] that it makes,
    and iterators; the state is that of the cache and the files. *)
Class TableCache (T I : Type) : Type := {
  TableCache_Get : ReadOptions → Z → Z → Slice → T → outcome (Status * option (Slice * Slice) * T);
  TableCache_NewIterator : ReadOptions → Z → Z → outcome I
}.

(** A lookup may fail; if it does not, it calls back with the first entry at or above the
    key, or not at all when there is none for the user key from there on. *)
Class TableCacheLaws (T I : Type) `{Iterator I, TableCache T I, ComparatorLaws} : Type := {
  contents : Z → list (Slice * Slice);           (* the entries of the file of a number *)
  table_ready : T → Prop;
  table_working : T → Prop;
  Get_entry options number size k t :
    internal_key_ok k → @increasing _ internal_laws (map fst (contents number)) → table_ready t →
    ∃ s r t', TableCache_Get options number size k t = Ok (s, r, t') ∧ table_ready t' ∧
      (table_working t → ok s = true ∧ table_working t') ∧ (∀ e, r = Some e → e ∈ contents number) ∧
      (ok s = true → match r with
                     | Some e => ∃ i, @splits _ internal_laws k (contents number) i ∧ contents number !! i = Some e
                     | None => ∀ e, e ∈ contents number → internal_order k e.1 ≤ 0 → ukey e.1 ≠ ukey k
                     end);
  NewIterator_entries options number size :
    @increasing _ internal_laws (map fst (contents number)) →
    ∃ it R, TableCache_NewIterator options number size = Ok it ∧
      @iterates _ internal_laws I _ (contents number) R ∧ R it (length (contents number))
}.

(** ** Lookups *)

Inductive SaverState : Type := saver_NotFound | saver_Found | saver_Deleted | saver_Corrupt.

Record Saver : Type := { saver_state : SaverState; saver_user_key : Slice; saver_value : list Z }.

Record GetStats : Type := { seek_file : option FileMetaData; seek_file_level : Z }.

(** The variables of a lookup: the statistics and the last file that was read. *)
Record Lookup : Type := { lookup_stats : GetStats; last_file_read : option (FileMetaData * Z) }.

Section get.
Context `{user_comparator : Comparator} {T I : Type} `{TableCache T I}.

Definition SaveValue (s : Saver) (ikey v : Slice) : outcome Saver :=
  parsed ← ParseInternalKey ikey;
  match parsed with
  | None => Ok {| saver_state := saver_Corrupt; saver_user_key := saver_user_key s; saver_value := saver_value s |}
  | Some parsed_key =>
      c ← Compare (pk_user_key parsed_key) (saver_user_key s);
      Ok (if c =? 0 then
            if pk_type parsed_key =? kTypeValue
            then {| saver_state := saver_Found; saver_user_key := saver_user_key s; saver_value := v |}
            else {| saver_state := saver_Deleted; saver_user_key := saver_user_key s; saver_value := saver_value s |}
          else s)
  end.

(** [NewestFirst]; [std::sort] with it. *)
Definition newest_first (a b : FileMetaData) : Prop := fm_number b ≤ fm_number a.
#[export] Instance newest_first_dec : RelDecision newest_first.
Proof. intros a b. unfold newest_first. apply _. Defined.
Definition sort_newest (files : list FileMetaData) : list FileMetaData := merge_sort newest_first files.

(** The files of level zero whose range has the user key. *)
Fixpoint files_with (user_key : Slice) (files : list FileMetaData) : outcome (list FileMetaData) :=
  match files with
  | [] => Ok []
  | f :: files =>
      s ← InternalKey_user_key (fm_smallest f);
      c ← Compare user_key s;
      inside ← (if 0 <=? c then l ← InternalKey_user_key (fm_largest f); c ← Compare user_key l; Ok (c <=? 0) else Ok false);
      tmp ← files_with user_key files;
      Ok (if inside : bool then f :: tmp else tmp)
  end.

(** The file of another level that may have the key. *)
Definition file_with (user_key ikey : Slice) (files : list FileMetaData) : outcome (list FileMetaData) :=
  index ← FindFile files ikey;
  if len files <=? index then Ok []
  else
    f ← file_at files index;
    s ← InternalKey_user_key (fm_smallest f);
    c ← Compare user_key s;
    Ok (if c <? 0 then [] else [f]).

Definition files_to_search (v : Version) (level : Z) (user_key ikey : Slice) : outcome (list FileMetaData) :=
  files ← files_at v level;
  if len files =? 0 then Ok []
  else if level =? 0 then tmp ← files_with user_key files; Ok (sort_newest tmp)
  else file_with user_key ikey files.

(** A file is about to be read: the first one is charged when there is a second. *)
Definition charge (st : Lookup) (f : FileMetaData) (level : Z) : Lookup :=
  {| lookup_stats := match last_file_read st, seek_file (lookup_stats st) with
                     | Some (last, last_level), None => {| seek_file := Some last; seek_file_level := last_level |}
                     | _, _ => lookup_stats st
                     end;
     last_file_read := Some (f, level) |}.

(** One file: [Some] status when the lookup returns, and the new [*value]. *)
Definition read_file (options : ReadOptions) (f : FileMetaData) (user_key ikey : Slice) (value : list Z) (t : T) :
    outcome (option Status * list Z * T) :=
  let saver := {| saver_state := saver_NotFound; saver_user_key := user_key; saver_value := value |} in
  r ← TableCache_Get options (fm_number f) (fm_file_size f) ikey t;
  let '(s, called, t) := r in
  saver ← (match called with None => Ok saver | Some (k, v) => SaveValue saver k v end);
  Ok (if negb (ok s) then Some s
      else match saver_state saver with
           | saver_NotFound => None
           | saver_Found => Some s
           | saver_Deleted => Some (NotFound [] [])
           | saver_Corrupt => Some (Corruption (text "corrupted key for ") user_key)
           end, saver_value saver, t).

(** The loop over the files of a level. *)
Fixpoint get_in_files (options : ReadOptions) (level : Z) (files : list FileMetaData) (user_key ikey : Slice)
    (st : Lookup) (value : list Z) (t : T) : outcome (option Status * Lookup * list Z * T) :=
  match files with
  | [] => Ok (None, st, value, t)
  | f :: files =>
      let st := charge st f level in
      r ← read_file options f user_key ikey value t;
      let '(result, value, t) := r in
      match result with
      | Some s => Ok (Some s, st, value, t)
      | None => get_in_files options level files user_key ikey st value t
      end
  end.

Fixpoint get_in_levels (options : ReadOptions) (v : Version) (levels : list Z) (user_key ikey : Slice)
    (st : Lookup) (value : list Z) (t : T) : outcome (Status * Lookup * list Z * T) :=
  match levels with
  | [] => Ok (NotFound [] [], st, value, t)
  | level :: levels =>
      files ← files_to_search v level user_key ikey;
      r ← get_in_files options level files user_key ikey st value t;
      let '(result, st, value, t) := r in
      match result with
      | Some s => Ok (s, st, value, t)
      | None => get_in_levels options v levels user_key ikey st value t
      end
  end.

Definition all_levels : list Z := map Z.of_nat (seq 0 (Z.to_nat kNumLevels)).

(** The status, the new [*value] and [*stats]. *)
Definition Version_Get (options : ReadOptions) (v : Version) (k : LookupKey) (value : list Z) (t : T) :
    outcome (Status * list Z * GetStats * T) :=
  user_key ← user_key k;
  r ← get_in_levels options v all_levels user_key (internal_key k)
        {| lookup_stats := {| seek_file := None; seek_file_level := -1 |}; last_file_read := None |} value t;
  let '(s, st, value, t) := r in
  Ok (s, value, lookup_stats st, t).

(** ** Charging seeks *)

Definition set_file_to_compact (v : Version) (f : FileMetaData) (level : Z) : Version :=
  {| v_files := v_files v; v_file_to_compact := Some f; v_file_to_compact_level := level;
     v_compaction_score := v_compaction_score v; v_compaction_level := v_compaction_level v |}.

(** The counter [allowed_seeks] of the file, which versions share, is handed in and out. *)
Definition UpdateStats (v : Version) (stats : GetStats) (allowed_seeks : Z) : outcome (bool * Version * Z) :=
  match seek_file stats with
  | None => Ok (false, v, allowed_seeks)
  | Some f =>
      allowed_seeks ← int_result (allowed_seeks - 1);
      Ok (match v_file_to_compact v with
          | None => if allowed_seeks <=? 0
                    then (true, set_file_to_compact v f (seek_file_level stats), allowed_seeks)
                    else (false, v, allowed_seeks)
          | Some _ => (false, v, allowed_seeks)
          end)
  end.

(** [ForEachOverlapping]: the callback takes the level and the file, and says whether to go on. *)
Fixpoint call_for {A : Type} (func : A → Z → FileMetaData → bool * A) (level : Z) (files : list FileMetaData) (arg : A) :
    bool * A :=
  match files with
  | [] => (true, arg)
  | f :: files => let '(more, arg) := func arg level f in if more then call_for func level files arg else (false, arg)
  end.

Fixpoint call_for_levels {A : Type} (v : Version) (user_key internal_key : Slice) (func : A → Z → FileMetaData → bool * A)
    (levels : list Z) (arg : A) : outcome A :=
  match levels with
  | [] => Ok arg
  | level :: levels =>
      files ← files_to_search v level user_key internal_key;
      let '(more, arg) := call_for func level files arg in
      if more then call_for_levels v user_key internal_key func levels arg else Ok arg
  end.

Definition ForEachOverlapping {A : Type} (v : Version) (user_key internal_key : Slice) (arg : A)
    (func : A → Z → FileMetaData → bool * A) : outcome A :=
  call_for_levels v user_key internal_key func all_levels arg.

(** [State::Match]: the first file is kept, the second ends the loop. *)
Definition State_Match (state : GetStats * Z) (level : Z) (f : FileMetaData) : bool * (GetStats * Z) :=
  let matches := state.2 + 1 in
  (matches <? 2, (if matches =? 1 then {| seek_file := Some f; seek_file_level := level |} else state.1, matches)).

(** [allowed_seeks] gives the counter of a file. *)
Definition RecordReadSample (v : Version) (internal_key : Slice) (allowed_seeks : FileMetaData → Z) :
    outcome (bool * Version * option (FileMetaData * Z)) :=
  parsed ← ParseInternalKey internal_key;
  match parsed with
  | None => Ok (false, v, None)
  | Some ikey =>
      state ← ForEachOverlapping v (pk_user_key ikey) internal_key ({| seek_file := None; seek_file_level := 0 |}, 0) State_Match;
      match seek_file state.1 with
      | Some f =>
          if 2 <=? state.2 then
            r ← UpdateStats v state.1 (allowed_seeks f);
            Ok (r.1.1, r.1.2, Some (f, r.2))
          else Ok (false, v, None)
      | None => Ok (false, v, None)
      end
  end.

(** ** Iterators *)

Context `{!Iterator I} (options : ReadOptions) (rounds : nat).

(** A file of a level that cannot be opened is an iterator with an error. *)
Definition GetFileIterator (file_value : Slice) : outcome (EmptyIterator + I) :=
  if negb (len file_value =? 16)
  then Ok (inl (NewErrorIterator (Corruption (text "FileReader invoked with unexpected value") [])))
  else
    number ← DecodeFixed64 file_value;
    rest ← read_at file_value 8 8;
    size ← DecodeFixed64 rest;
    it ← TableCache_NewIterator options number size;
    Ok (inr it).

Abbreviation level_iterator := (TwoLevelIterator LevelFileNumIterator (EmptyIterator + I)).

Definition NewConcatenatingIterator (files : list FileMetaData) : outcome level_iterator :=
  new_TwoLevelIterator (new_LevelFileNumIterator files).

Fixpoint table_iterators (files : list FileMetaData) : outcome (list (I + level_iterator)) :=
  match files with
  | [] => Ok []
  | f :: files =>
      it ← TableCache_NewIterator options (fm_number f) (fm_file_size f);
      iters ← table_iterators files;
      Ok (inl it :: iters)
  end.

Fixpoint level_iterators (v : Version) (levels : list Z) : outcome (list (I + level_iterator)) :=
  match levels with
  | [] => Ok []
  | level :: levels =>
      files ← files_at v level;
      here ← (if len files =? 0 then Ok [] else it ← NewConcatenatingIterator files; Ok [inr it]);
      rest ← level_iterators v levels;
      Ok (here ++ rest)
  end.

(** What is pushed on [*iters]. *)
Definition AddIterators (v : Version) : outcome (list (I + level_iterator)) :=
  files ← files_at v 0;
  tables ← table_iterators files;
  levels ← level_iterators v (drop 1 all_levels);
  Ok (tables ++ levels).

End get.

(** ** What a reader is to see *)

(** The number in a key: its sequence number and its type. *)
Definition tag (k : Slice) : Z := le_value (key_tag k).

(** The number that a lookup at a sequence number starts from. *)
Definition seek_from (s : Z) : Z := s * 256 + kValueTypeForSeek.

(** The last of the entries for a user key up to a sequence number. *)
Definition seen (es : list (Slice * Slice)) (u : Slice) (s : Z) (r : option (Slice * Slice)) : Prop :=
  match r with
  | Some e => e ∈ es ∧ ukey e.1 = u ∧ tag e.1 ≤ seek_from s ∧
      ∀ e', e' ∈ es → ukey e'.1 = u → tag e'.1 ≤ seek_from s → tag e'.1 ≤ tag e.1
  | None => ∀ e, e ∈ es → ukey e.1 = u → seek_from s < tag e.1
  end.

(** For every user key the entries of the one are after those of the other. *)
Definition newer_than (es1 es2 : list (Slice * Slice)) : Prop :=
  ∀ e1 e2, e1 ∈ es1 → e2 ∈ es2 → ukey e1.1 = ukey e2.1 → tag e2.1 < tag e1.1.

Lemma seen_app_none es1 es2 u s r : seen es1 u s None → seen es2 u s r → seen (es1 ++ es2) u s r.
Proof.
  intros H1 H2. destruct r as [e|]; cbn in *.
  - destruct H2 as (He & Hu & Ht & Hmax). split_and!; [apply elem_of_app; by right|done|done|].
    intros e' [He'|He']%elem_of_app Hu' Ht'; [|by apply Hmax]. specialize (H1 e' He' Hu'). lia.
  - intros e [He|He]%elem_of_app; auto.
Qed.

Lemma seen_app_some es1 es2 u s e : seen es1 u s (Some e) → newer_than es1 es2 → seen (es1 ++ es2) u s (Some e).
Proof.
  intros (He & Hu & Ht & Hmax) Hn. split_and!; [apply elem_of_app; by left|done|done|].
  intros e' [He'|He']%elem_of_app Hu' Ht'; [by apply Hmax|]. specialize (Hn e e' He He' ltac:(congruence)). lia.
Qed.

Lemma seen_ext es1 es2 u s r : (∀ e, e ∈ es1 ↔ e ∈ es2) → seen es1 u s r → seen es2 u s r.
Proof.
  intros He. destruct r as [e|]; cbn.
  - intros (H1 & Hu & Ht & Hmax). split_and!; [by apply He|done|done|]. intros e' He'. by apply Hmax, He.
  - intros H e He'. by apply H, He.
Qed.

(** The answer that an entry stands for. *)
Definition entry_answer (r : option (Slice * Slice)) (value : list Z) : Status * list Z :=
  match r with
  | Some e => if tag e.1 mod 256 =? kTypeValue then (status_OK, e.2) else (NotFound [] [], value)
  | None => (NotFound [] [], value)
  end.

Section reading.
Context `{ComparatorLaws}.

Lemma ParseInternalKey_ikey k :
  ikey k → ParseInternalKey k = Ok (Some {| pk_user_key := ukey k; pk_sequence := tag k / 256; pk_type := tag k mod 256 |}).
Proof.
  intros [(Hl & Hu & Hb) Ht]. pose proof (le_value_bound _ Hb) as Hv. unfold tag, kTypeValue in *.
  set (n := le_value (key_tag k)) in *. unfold ParseInternalKey. decide_test. rewrite key_number_ok by done. cbn [mbind outcome_bind].
  fold n. assert (n = n / 256 * 256 + n mod 256) as E by lia_mod. assert (0 ≤ n mod 256 < 256) as Hm by lia_mod.
  destruct (unpack (n / 256) (n mod 256) Hm) as [U1 U2]. rewrite <- E in U1. rewrite <- E in U2. rewrite U1, U2, wrap_small by (unfold in_width; lia).
  unfold kTypeValue. rewrite (proj2 (Z.leb_le _ _)) by done. do 3 f_equal. unfold ukey. f_equal. lia.
Qed.

Lemma internal_order_tag a b : internal_key_ok a → internal_key_ok b → ukey a = ukey b →
  (internal_order a b < 0 ↔ tag b < tag a) ∧ (0 ≤ internal_order a b ↔ tag a ≤ tag b).
Proof.
  intros Ha Hb E. unfold internal_order, tag. rewrite E, order_refl by by apply ukey_ok. cbn [Z.eqb].
  destruct (Z.ltb_spec (le_value (key_tag b)) (le_value (key_tag a))), (Z.ltb_spec (le_value (key_tag a)) (le_value (key_tag b))); lia.
Qed.

Lemma seek_key_parts u s : key_ok u → 0 ≤ s ≤ kMaxSequenceNumber →
  internal_key_ok (packed_key u s kValueTypeForSeek) ∧ ukey (packed_key u s kValueTypeForSeek) = u ∧
  tag (packed_key u s kValueTypeForSeek) = seek_from s.
Proof.
  intros Hu Hs. assert (0 ≤ kValueTypeForSeek ≤ kValueTypeForSeek) as Ht by by split.
  destruct (packed_key_parts u s kValueTypeForSeek (proj2 (pack_ok _ _ Hs Ht))) as (E & Et & Hb & Hl).
  split_and!; [split; [done|]; by rewrite E|done|done].
Qed.

(** The first entry of a table at or above the key to look up is the one to see, if it is
    for the user key. *)
Lemma first_entry_seen es u s i e :
  @increasing _ internal_laws (map fst es) → key_ok u → 0 ≤ s ≤ kMaxSequenceNumber →
  @splits _ internal_laws (packed_key u s kValueTypeForSeek) es i → es !! i = Some e →
  seen es u s (if decide (ukey e.1 = u) then Some e else None).
Proof.
  intros Hinc Hu Hs Hsp Hi. destruct (seek_key_parts u s Hu Hs) as (Hk & Eu & Et).
  assert (∀ j e', es !! j = Some e' → internal_key_ok e'.1) as Hok.
  { intros j [k v] Hj. apply (proj1 (Forall_lookup _ _) (proj1 Hinc) j). by rewrite list_lookup_fmap, Hj. }
  assert (∀ e', e' ∈ es → ukey e'.1 = u → tag e'.1 ≤ seek_from s → e' = e ∨ internal_order e.1 e'.1 < 0) as Hafter.
  { intros [k v] He' Hue Hte. apply list_elem_of_lookup in He' as [j Hj]. specialize (Hsp j k v Hj) as Hs'. cbn [fst] in *.
    destruct (internal_order_tag k (packed_key u s kValueTypeForSeek) (Hok _ _ Hj) Hk ltac:(congruence)) as [Hlt Hge].
    rewrite Et in *. cbn [order internal_laws] in Hs'. destruct (decide (j < i)%nat); [lia|].
    destruct (decide (j = i)) as [->|]; [left; congruence|]. right.
    apply (@increasing_lookup _ internal_laws (map fst es) i j); [done|by rewrite list_lookup_fmap, Hi|by rewrite list_lookup_fmap, Hj|lia]. }
  assert (0 ≤ internal_order e.1 (packed_key u s kValueTypeForSeek)) as Hge.
  { destruct e as [k v]. specialize (Hsp i k v Hi). by rewrite decide_False in Hsp by lia. }
  destruct (decide (ukey e.1 = u)) as [E|E]; cbn.
  - destruct (internal_order_tag e.1 (packed_key u s kValueTypeForSeek) (Hok _ _ Hi) Hk ltac:(congruence)) as [_ Hget].
    rewrite Et in Hget. split_and!; [by eapply list_elem_of_lookup_2|done|by apply Hget|]. intros e' He' Hu' Ht'.
    destruct (Hafter e' He' Hu' Ht') as [->|Hlt]; [lia|]. apply list_elem_of_lookup in He' as [j Hj].
    destruct (internal_order_tag e.1 e'.1 (Hok _ _ Hi) (Hok _ _ Hj) ltac:(congruence)) as [Hlt' _]. apply Hlt' in Hlt. lia.
  - intros e' He' Hu'. destruct (Z.le_gt_cases (tag e'.1) (seek_from s)) as [Ht'|]; [exfalso|lia].
    destruct (Hafter e' He' Hu' Ht') as [->|Hlt]; [done|]. apply list_elem_of_lookup in He' as [j Hj].
    pose proof (internal_le_ukey e.1 e'.1 (Hok _ _ Hi) (Hok _ _ Hj) ltac:(lia)) as L1.
    pose proof (proj1 (@order_ge _ internal_laws e.1 _ (Hok _ _ Hi) Hk) Hge) as Hge'.
    pose proof (internal_le_ukey _ _ Hk (Hok _ _ Hi) Hge') as L2. rewrite Eu in L2. rewrite Hu' in L1.
    apply E. apply order_antisym; [by apply ukey_ok, (Hok i)|done|done|done].
Qed.

Lemma no_entry_seen es u s :
  (∀ e, e ∈ es → internal_key_ok e.1) → key_ok u → 0 ≤ s ≤ kMaxSequenceNumber →
  (∀ e, e ∈ es → internal_order (packed_key u s kValueTypeForSeek) e.1 ≤ 0 → ukey e.1 ≠ ukey (packed_key u s kValueTypeForSeek)) →
  seen es u s None.
Proof.
  intros Hok Hu Hs Hnone e He Hue. destruct (seek_key_parts u s Hu Hs) as (Hk & Eu & Et). specialize (Hnone e He). rewrite Eu in Hnone.
  destruct (internal_order_tag (packed_key u s kValueTypeForSeek) e.1 Hk (Hok e He) ltac:(congruence)) as [Hlt Hge].
  rewrite Et in *. destruct (Z.le_gt_cases (tag e.1) (seek_from s)) as [Hle|]; [|lia]. exfalso. apply Hnone; [|done].
  destruct (Z.le_gt_cases (internal_order (packed_key u s kValueTypeForSeek) e.1) 0) as [|Hgt]; [done|].
  pose proof (proj1 Hge ltac:(lia)). assert (tag e.1 = seek_from s) as Heq by lia. 
  pose proof (proj1 (@order_flip _ internal_laws e.1 (packed_key u s kValueTypeForSeek) (Hok e He) Hk)) as Hf. cbn in Hf.
  destruct (internal_order_tag e.1 (packed_key u s kValueTypeForSeek) (Hok e He) Hk ltac:(congruence)) as [Hlt' _].
  pose proof (proj2 (@order_flip _ internal_laws e.1 (packed_key u s kValueTypeForSeek) (Hok e He) Hk) Hgt) as Hgt'. cbn in Hgt'.
  apply Hlt' in Hgt'. rewrite Et in Hgt'. lia.
Qed.

End reading.

(** ** Versions and what they hold *)

Section holding.
Context {T I : Type} `{TL : TableCacheLaws T I}.

Definition table_entries (f : FileMetaData) : list (Slice * Slice) := contents (fm_number f).
Definition level_entries (files : list FileMetaData) : list (Slice * Slice) := concat (map table_entries files).
Definition version_entries (v : Version) : list (Slice * Slice) := concat (map level_entries (v_files v)).

(** A file holds a table whose first and last keys are those that the version has for it. *)
Record file_holds (f : FileMetaData) : Prop := {
  fh_ok : file_ok f;
  fh_increasing : @increasing _ internal_laws (map fst (table_entries f));
  fh_keys : Forall (λ e, ikey e.1) (table_entries f);
  fh_first : head (map fst (table_entries f)) = Some (rep_ (fm_smallest f));
  fh_last : last (map fst (table_entries f)) = Some (rep_ (fm_largest f))
}.

(** Every file holds its table; newer files of level zero have the newer entries for a user
    key, and so do lower levels. *)
Record version_holds (v : Version) : Prop := {
  vh_ok : version_ok v;
  vh_files : ∀ level files, v_files v !! level = Some files → Forall file_holds files;
  vh_numbers : ∀ files, v_files v !! 0%nat = Some files → NoDup (map fm_number files);
  vh_zero : ∀ files f g, v_files v !! 0%nat = Some files → f ∈ files → g ∈ files →
    fm_number g < fm_number f → newer_than (table_entries f) (table_entries g);
  vh_levels : ∀ i j files files', v_files v !! i = Some files → v_files v !! j = Some files' → (i < j)%nat →
    newer_than (level_entries files) (level_entries files')
}.

Lemma level_entries_elem files e : e ∈ level_entries files ↔ ∃ f, f ∈ files ∧ e ∈ table_entries f.
Proof.
  unfold level_entries. rewrite list_elem_of_In, in_concat. split.
  - intros (es & Hes%list_elem_of_In & He%list_elem_of_In). apply list_elem_of_fmap in Hes as (f & -> & Hf). by exists f.
  - intros (f & Hf & He). exists (table_entries f). split; apply list_elem_of_In; [by apply list_elem_of_fmap_2|done].
Qed.

Lemma file_holds_key f e : file_holds f → e ∈ table_entries f → ikey e.1.
Proof. intros Hf. by apply (proj1 (Forall_forall _ _) (fh_keys f Hf)). Qed.

(** The keys of a table are within the range of its file. *)
Lemma table_range f e :
  file_holds f → e ∈ table_entries f →
  internal_order (rep_ (fm_smallest f)) e.1 ≤ 0 ∧ internal_order e.1 (rep_ (fm_largest f)) ≤ 0.
Proof.
  intros Hf He. pose proof (fh_increasing f Hf) as Hinc. pose proof (fh_first f Hf) as Hh. pose proof (fh_last f Hf) as Hl.
  pose proof (ikey_ok _ (file_holds_key f e Hf He)) as Hk.
  apply (list_elem_of_fmap_2 fst) in He. change (fst <$> table_entries f) with (map fst (table_entries f)) in He.
  apply list_elem_of_lookup in He as [i Hi]. set (keys := map fst (table_entries f)) in *.
  assert (keys !! 0%nat = Some (rep_ (fm_smallest f))) as Hh0 by (by destruct keys).
  rewrite last_lookup in Hl. pose proof (lookup_lt_Some _ _ _ Hi). split.
  - destruct (decide (i = 0)%nat) as [->|].
    + rewrite Hi in Hh0. injection Hh0 as <-. by apply internal_order_refl.
    + pose proof (@increasing_lookup _ internal_laws keys 0 i _ _ Hinc Hh0 Hi ltac:(lia)) as Hlt. cbn in Hlt. lia.
  - destruct (decide (i = pred (length keys))) as [->|].
    + rewrite Hi in Hl. injection Hl as <-. by apply internal_order_refl.
    + pose proof (@increasing_lookup _ internal_laws keys i _ _ _ Hinc Hi Hl ltac:(lia)) as Hlt. cbn in Hlt. lia.
Qed.

Lemma table_users f e : file_holds f → e ∈ table_entries f → in_file (ukey e.1) f.
Proof.
  intros Hf He. pose proof (file_holds_key f e Hf He) as Hk. destruct (table_range f e Hf He) as [H1' H2'].
  pose proof (fh_ok f Hf) as Hok. split; apply internal_le_ukey; (done || apply ikey_ok; (done || apply Hok)).
Qed.

(** *** The files to search *)

Lemma files_with_ok u files :
  key_ok u → Forall file_ok files → files_with u files = Ok (filter (in_file u) files).
Proof.
  intros Hu Hf. induction Hf as [|f files Hf _ IH]; [done|]. cbn [files_with]. rewrite filter_cons.
  rewrite !user_key_ok by apply ikey_ok, Hf. cbn [mbind outcome_bind]. fold (su f). fold (lu f).
  pose proof (su_ok f Hf). pose proof (lu_ok f Hf).
  rewrite !Compare_ok by done. cbn [mbind outcome_bind].
  assert ((if 0 <=? order u (su f) then Ok (order u (lu f) <=? 0) else Ok false) = Ok (bool_decide (in_file u f))) as ->.
  { unfold in_file. destruct (Z.leb_spec 0 (order u (su f))), (Z.leb_spec (order u (lu f)) 0); f_equal; symmetry.
    - apply bool_decide_eq_true_2. split; [by apply order_ge|done].
    - apply bool_decide_eq_false_2. lia.
    - apply bool_decide_eq_false_2. intros [Hx _]. by_rank [u; su f].
    - apply bool_decide_eq_false_2. lia. }
  rewrite IH. cbn [mbind outcome_bind]. destruct (decide (in_file u f)) as [E|E].
  - by rewrite (bool_decide_eq_true_2 _ E).
  - by rewrite (bool_decide_eq_false_2 _ E).
Qed.

(** In a sorted level the entries of a file are before those of a later one. *)
Lemma level_order files i j f g e e' :
  disjoint files → Forall file_holds files → files !! i = Some f → files !! j = Some g → (i < j)%nat →
  e ∈ table_entries f → e' ∈ table_entries g → internal_order e.1 e'.1 < 0.
Proof.
  intros Hd Hh Hi Hj Hlt He He'. pose proof (proj1 (Forall_lookup _ _) Hh _ _ Hi) as Hf. pose proof (proj1 (Forall_lookup _ _) Hh _ _ Hj) as Hg.
  pose proof (disjoint_lookup files i j f g Hd Hi Hj Hlt) as Hb. unfold file_before in Hb.
  destruct (table_range f e Hf He) as [_ L1], (table_range g e' Hg He') as [L2 _].
  pose proof (ikey_ok _ (file_holds_key f e Hf He)). pose proof (ikey_ok _ (file_holds_key g e' Hg He')).
  pose proof (ikey_ok _ (fo_largest f (fh_ok f Hf))). pose proof (ikey_ok _ (fo_smallest g (fh_ok g Hg))).
  eapply (@order_le_lt _ internal_laws); [..|exact L1|]; [done..|]. by eapply (@order_lt_le _ internal_laws); [..|exact Hb|exact L2].
Qed.

(** *** Searching a sorted level *)

Section level_search.
Context (files : list FileMetaData) (u : Slice) (s : Z).
Context (Hd : disjoint files) (Hlen : len files < 2 ^ 31) (Hh : Forall file_holds files).
Context (Hu : key_ok u) (Hs : 0 ≤ s ≤ kMaxSequenceNumber).

Let k : Slice := packed_key u s kValueTypeForSeek.
Let c : nat := find_file files k.

Lemma search_key : internal_key_ok k ∧ ukey k = u ∧ tag k = seek_from s.
Proof. by apply seek_key_parts. Qed.

Lemma searched_holds i f : files !! i = Some f → file_holds f.
Proof. by apply (proj1 (Forall_lookup _ _) Hh). Qed.

(** The files before the one that is found have nothing to see. *)
Lemma search_before i f : files !! i = Some f → (i < c)%nat → seen (table_entries f) u s None.
Proof.
  intros Hi Hlt e He Hue. destruct search_key as (Hk & Eu & Et).
  pose proof (find_file_spec files k i f Hd Hk Hi) as Hf. fold c in Hf. rewrite decide_True in Hf by done.
  pose proof (searched_holds i f Hi) as Hfh. pose proof (ikey_ok _ (file_holds_key f e Hfh He)) as Hek.
  destruct (table_range f e Hfh He) as [_ Hle].
  pose proof (@order_le_lt _ internal_laws _ _ _ Hek (ikey_ok _ (fo_largest f (fh_ok f Hfh))) Hk Hle Hf) as Hlt'.
  apply (internal_order_tag e.1 k Hek Hk ltac:(congruence)) in Hlt'. lia.
Qed.

(** The entries behind it are for user keys from its last one on. *)
Lemma search_later i f g e :
  files !! c = Some g → files !! i = Some f → (c < i)%nat → e ∈ table_entries f → order (lu g) (ukey e.1) ≤ 0.
Proof.
  intros Hg Hi Hci He. pose proof (searched_holds i f Hi) as Hfh. pose proof (fh_ok f Hfh) as Hfok.
  pose proof (fh_ok g (searched_holds c g Hg)) as Hgok.
  pose proof (file_before_users g f Hgok Hfok (disjoint_lookup files c i g f Hd Hg Hi Hci)).
  pose proof (ukey_ok _ (ikey_ok _ (file_holds_key f e Hfh He))). pose proof (su_ok f Hfok). pose proof (lu_ok g Hgok).
  destruct (table_users f e Hfh He) as [? _]. by_rank [lu g; su f; ukey e.1].
Qed.

(** When the key is before the file that is found, there is nothing to see. *)
Lemma search_outside g : files !! c = Some g → order u (su g) < 0 → seen (level_entries files) u s None.
Proof.
  intros Hg Hout e He Hue. pose proof (searched_holds c g Hg) as Hgh. pose proof (fh_ok g Hgh) as Hgok.
  pose proof (su_ok g Hgok). pose proof (lu_ok g Hgok). pose proof (file_range g Hgok).
  apply level_entries_elem in He as (f & Hf & He). apply list_elem_of_lookup in Hf as [i Hi].
  destruct (decide (i < c)%nat) as [Hic|Hic]; [by apply (search_before i f Hi)|exfalso].
  destruct (decide (i = c)) as [->|].
  - assert (f = g) as -> by congruence. destruct (table_users g e Hgh He) as [Hx _]. rewrite Hue in Hx. by_rank [u; su g].
  - pose proof (search_later i f g e Hg Hi ltac:(lia) He) as Hx. rewrite Hue in Hx. by_rank [u; su g; lu g].
Qed.

Lemma search_found g e : files !! c = Some g → seen (table_entries g) u s (Some e) → seen (level_entries files) u s (Some e).
Proof.
  intros Hg (He & Hue & Hte & Hmax). pose proof (searched_holds c g Hg) as Hgh.
  split; [apply level_entries_elem; exists g; split; [by eapply list_elem_of_lookup_2|done]|].
  split; [done|]. split; [done|]. intros e' He' Hue' Hte'. apply level_entries_elem in He' as (f & Hf & He').
  apply list_elem_of_lookup in Hf as [i Hi]. destruct (decide (i < c)%nat) as [Hic|Hic].
  { pose proof (search_before i f Hi Hic e' He' Hue'). lia. }
  destruct (decide (i = c)) as [->|]; [apply Hmax; [congruence|done|done]|].
  pose proof (level_order files c i g f e e' Hd Hh Hg Hi ltac:(lia) He He') as Hlt'.
  apply internal_order_tag in Hlt'; [lia| | |congruence]; apply ikey_ok; [by apply (file_holds_key g)|].
  apply (file_holds_key f); [by apply (searched_holds i)|done].
Qed.

Lemma search_none g : files !! c = Some g → seen (table_entries g) u s None → seen (level_entries files) u s None.
Proof.
  intros Hg Hr e He Hue. destruct search_key as (Hk & Eu & Et). pose proof (searched_holds c g Hg) as Hgh. pose proof (fh_ok g Hgh) as Hgok.
  apply level_entries_elem in He as (f & Hf & He). apply list_elem_of_lookup in Hf as [i Hi].
  destruct (decide (i < c)%nat) as [Hic|Hic]; [by apply (search_before i f Hi)|].
  destruct (decide (i = c)) as [->|]; [apply Hr; [congruence|done]|]. exfalso.
  pose proof (find_file_spec files k c g Hd Hk Hg) as Hf. fold c in Hf. rewrite decide_False in Hf by lia.
  pose proof (ikey_ok _ (fo_largest g Hgok)) as Hgl.
  pose proof (internal_le_ukey _ _ Hk Hgl (proj1 (@order_ge _ internal_laws _ _ Hgl Hk) Hf)) as Hul. rewrite Eu in Hul. fold (lu g) in Hul.
  pose proof (search_later i f g e Hg Hi ltac:(lia) He) as Hx. rewrite Hue in Hx.
  assert (u = lu g) as Eul by (apply order_antisym; by try apply lu_ok).
  assert (∃ v, (rep_ (fm_largest g), v) ∈ table_entries g) as [v Hv].
  { pose proof (fh_last g Hgh) as Hl. apply last_Some in Hl as [l' Hl]. assert (rep_ (fm_largest g) ∈ map fst (table_entries g)) as Hm
      by (rewrite Hl; apply elem_of_app; right; by left). apply list_elem_of_fmap in Hm as ([k' v] & E & Hm). exists v. cbn in E. by rewrite E. }
  specialize (Hr _ Hv ltac:(cbn; by fold (lu g))). cbn [fst] in Hr.
  apply internal_order_tag in Hf; [rewrite Et in Hf; lia|done|done|]. rewrite Eu. by fold (lu g).
Qed.

(** What is seen in the files that are searched is what is seen in the level. *)
Definition sees (fs : list FileMetaData) : Prop :=
  (∀ f, f ∈ fs → f ∈ files) ∧ (length fs ≤ 1)%nat ∧ ∀ r, seen (level_entries fs) u s r → seen (level_entries files) u s r.

Lemma sees_nothing : seen (level_entries files) u s None → sees [].
Proof.
  intros Hn. split; [by intros ? ?%not_elem_of_nil|]. split; [cbn; lia|]. intros r Hr.
  destruct r as [e|]; [by destruct Hr as [?%not_elem_of_nil _]|done].
Qed.

Lemma file_with_ok : ∃ fs, file_with u k files = Ok fs ∧ sees fs.
Proof.
  destruct search_key as (Hk & Eu & Et). unfold file_with. rewrite FindFile_ok by done. cbn [mbind outcome_bind]. fold c.
  destruct (Z.leb_spec (len files) (Z.of_nat c)) as [Hge|Hlt].
  { exists []. split; [done|]. apply sees_nothing. intros e He. apply level_entries_elem in He as (f & Hf & He).
    apply list_elem_of_lookup in Hf as [i Hi]. apply (search_before i f Hi); [|done]. apply lookup_lt_Some in Hi. lia. }
  destruct (lookup_lt_is_Some_2 files c ltac:(lia)) as [g Hg]. unfold file_at.
  rewrite Nat2Z.id, Hg, (proj2 (Z.leb_le _ _)) by lia. cbn [mbind outcome_bind].
  pose proof (fh_ok g (searched_holds c g Hg)) as Hgok. rewrite user_key_ok by apply ikey_ok, Hgok. cbn [mbind outcome_bind]. fold (su g).
  rewrite Compare_ok by (done || by apply su_ok). cbn [mbind outcome_bind].
  destruct (Z.ltb_spec (order u (su g)) 0) as [Hout|Hin].
  - exists []. split; [done|]. by apply sees_nothing, (search_outside g).
  - exists [g]. split; [done|]. split; [intros f ->%list_elem_of_singleton; by eapply list_elem_of_lookup_2|]. split; [done|].
    assert (level_entries [g] = table_entries g) as -> by (unfold level_entries; cbn; apply app_nil_r). intros [e|] Hr.
    + by apply (search_found g).
    + by apply (search_none g).
Qed.

End level_search.

(** *** The files of a level in the order in which they are searched *)

Definition newer_file (f g : FileMetaData) : Prop := newer_than (table_entries f) (table_entries g).

Definition search_order (files fs : list FileMetaData) (u : Slice) (s : Z) : Prop :=
  (∀ f, f ∈ fs → f ∈ files) ∧ StronglySorted newer_file fs ∧
  ∀ r, seen (level_entries fs) u s r → seen (level_entries files) u s r.

#[local] Instance newest_first_total : Total newest_first.
Proof. intros a b. unfold newest_first. lia. Qed.
#[local] Instance newest_first_trans : Transitive newest_first.
Proof. intros a b c. unfold newest_first. lia. Qed.

Lemma sorted_numbers fs :
  StronglySorted newest_first fs → NoDup (map fm_number fs) → StronglySorted (λ f g, fm_number g < fm_number f) fs.
Proof.
  induction 1 as [|f fs Hs IH Hf]; intros Hnd; [constructor|]. apply NoDup_cons in Hnd as [Hni Hnd].
  constructor; [by apply IH|]. apply Forall_forall. intros g Hg. pose proof (proj1 (Forall_forall _ _) Hf g Hg) as Hle.
  unfold newest_first in Hle. assert (fm_number g ≠ fm_number f); [|lia]. intros E. apply Hni. rewrite <- E.
  by apply (list_elem_of_fmap_2 fm_number).
Qed.

Lemma StronglySorted_weaken {A} (P Q : A → A → Prop) (l : list A) :
  (∀ x y, x ∈ l → y ∈ l → P x y → Q x y) → StronglySorted P l → StronglySorted Q l.
Proof.
  intros Hpq Hs. induction Hs as [|x l Hs IH Hx]; [constructor|]. constructor.
  - apply IH. intros y z Hy Hz. apply Hpq; by right.
  - apply Forall_forall. intros y Hy. apply Hpq; [by left|by right|]. by apply (proj1 (Forall_forall _ _) Hx).
Qed.

Lemma NoDup_filter_map {A B} (f : A → B) (P : A → Prop) `{!∀ x, Decision (P x)} (l : list A) :
  NoDup (map f l) → NoDup (map f (filter P l)).
Proof.
  induction l as [|x l IH]; intros Hnd; [constructor|]. apply NoDup_cons in Hnd as [Hni Hnd]. rewrite filter_cons.
  destruct (decide (P x)); [|by apply IH]. cbn [map]. apply NoDup_cons. split; [|by apply IH].
  intros Hin. apply list_elem_of_fmap in Hin as (y & E & Hy). apply list_elem_of_filter in Hy as [_ Hy].
  apply Hni. rewrite E. by apply (list_elem_of_fmap_2 f).
Qed.

Context (v : Version) (Hv : version_holds v) (u : Slice) (s : Z) (Hu : key_ok u) (Hs : 0 ≤ s ≤ kMaxSequenceNumber).

Abbreviation lookup_key := (packed_key u s kValueTypeForSeek).

Lemma level_files_lookup level : level_ok level → v_files v !! Z.to_nat level = Some (level_files v level).
Proof.
  unfold level_ok, kNumLevels. intros Hl. unfold level_files. destruct (lookup_lt_is_Some_2 (v_files v) (Z.to_nat level)) as [files E].
  { rewrite (vo_levels v (vh_ok v Hv)). unfold kNumLevels. lia. }
  by rewrite E.
Qed.

Lemma level_holds level : level_ok level → Forall file_holds (level_files v level).
Proof. intros Hl. by apply (vh_files v Hv (Z.to_nat level)), level_files_lookup. Qed.

Lemma zero_ordered f g :
  f ∈ level_files v 0 → g ∈ level_files v 0 → fm_number g < fm_number f → newer_file f g.
Proof. apply (vh_zero v Hv). apply (level_files_lookup 0). unfold level_ok, kNumLevels. lia. Qed.

(** Level zero: the files that have the user key, newest first. *)
Lemma search_zero : search_order (level_files v 0) (sort_newest (filter (in_file u) (level_files v 0))) u s.
Proof.
  assert (level_ok 0) as Hl by (unfold level_ok, kNumLevels; lia). pose proof (level_holds 0 Hl) as Hh.
  set (files := level_files v 0) in *. set (fs := sort_newest (filter (in_file u) files)).
  assert (fs ≡ₚ filter (in_file u) files) as Hp by apply merge_sort_Permutation.
  assert (∀ f, f ∈ fs ↔ in_file u f ∧ f ∈ files) as Hin by (intros f; by rewrite Hp, list_elem_of_filter).
  split; [intros f Hf; by apply Hin|]. split.
  - apply (StronglySorted_weaken (λ f g, fm_number g < fm_number f)).
    + intros f g Hf Hg. apply zero_ordered; by apply Hin.
    + apply sorted_numbers; [apply (StronglySorted_merge_sort newest_first)|].
      assert (map fm_number fs ≡ₚ map fm_number (filter (in_file u) files)) as -> by by apply Permutation_map.
      apply NoDup_filter_map. by apply (vh_numbers v Hv), (level_files_lookup 0).
  - assert (∀ e, e ∈ level_entries files → ukey e.1 = u → e ∈ level_entries fs) as Hall.
    { intros e He Hue. apply level_entries_elem in He as (f & Hf & He). apply level_entries_elem. exists f. split; [|done].
      apply Hin. split; [|done]. rewrite <- Hue. apply table_users; [by apply (proj1 (Forall_forall _ _) Hh)|done]. }
    assert (∀ e, e ∈ level_entries fs → e ∈ level_entries files) as Hsub.
    { intros e He. apply level_entries_elem in He as (f & Hf & He). apply level_entries_elem. exists f. split; [by apply Hin|done]. }
    intros [e|]; cbn.
    + intros (He & Hue & Hte & Hmax). split_and!; [by apply Hsub|done|done|]. intros e' He' Hue'. apply Hmax; [by apply Hall|done].
    + intros Hn e He Hue. apply Hn; [by apply Hall|done].
Qed.

Lemma files_to_search_ok level :
  level_ok level → ∃ fs, files_to_search v level u lookup_key = Ok fs ∧ search_order (level_files v level) fs u s.
Proof.
  intros Hl. destruct (files_at_ok v level (vh_ok v Hv) Hl) as (E & Hok & Hlen & Hd). unfold files_to_search. rewrite E.
  cbn [mbind outcome_bind]. destruct (Z.eqb_spec (len (level_files v level)) 0) as [Hz|Hz].
  { exists []. split; [done|]. destruct (level_files v level); [|cbn in Hz; lia]. by repeat split; try constructor. }
  destruct (Z.eqb_spec level 0) as [->|Hne].
  - rewrite files_with_ok by done. cbn [mbind outcome_bind]. eexists. split; [done|]. apply search_zero.
  - unfold level_ok in Hl. destruct (file_with_ok (level_files v level) u s) as (fs & -> & Hf1 & Hf2 & Hf3);
      [by apply Hd; lia|done|by apply level_holds|done|done|].
    exists fs. split; [done|]. split; [done|]. split; [|done].
    destruct fs as [|f [|g fs]]; [constructor|by repeat constructor|cbn in Hf2; lia].
Qed.

(** *** The loops *)

(** What a reader has noted: files that are in the levels that it says. *)
Definition noted (st : Lookup) : Prop :=
  (∀ f, seek_file (lookup_stats st) = Some f → level_ok (seek_file_level (lookup_stats st)) ∧
    f ∈ level_files v (seek_file_level (lookup_stats st))) ∧
  (∀ f level, last_file_read st = Some (f, level) → level_ok level ∧ f ∈ level_files v level).

Lemma charge_noted st f level : noted st → level_ok level → f ∈ level_files v level → noted (charge st f level).
Proof.
  intros [Hn1 Hn2] Hl Hf. unfold charge. split; cbn; [|by intros ? ? [= <- <-]].
  destruct (last_file_read st) as [[last last_level]|] eqn:El; [|done].
  destruct (seek_file (lookup_stats st)) as [f'|] eqn:Es; [|intros ? [= <-]; by apply Hn2].
  intros g Hg. apply Hn1. by rewrite <- Es.
Qed.

(** The result of a loop: what is seen in the entries searched, or a failure. *)
Definition loop_result (es : list (Slice * Slice)) (value : list Z) (t : T) (result : option Status) (value' : list Z) : Prop :=
  match result with
  | None => seen es u s None ∧ value' = value
  | Some st => (∃ e, seen es u s (Some e) ∧ (st, value') = entry_answer (Some e) value) ∨ ok st = false ∧ ~ table_working t
  end.

Lemma SaveValue_ok value k w :
  ikey k →
  SaveValue {| saver_state := saver_NotFound; saver_user_key := u; saver_value := value |} k w =
    Ok (if decide (ukey k = u) then
          if tag k mod 256 =? kTypeValue then {| saver_state := saver_Found; saver_user_key := u; saver_value := w |}
          else {| saver_state := saver_Deleted; saver_user_key := u; saver_value := value |}
        else {| saver_state := saver_NotFound; saver_user_key := u; saver_value := value |}).
Proof.
  intros Hk. unfold SaveValue. rewrite ParseInternalKey_ikey by done. cbn [mbind outcome_bind pk_user_key pk_type saver_user_key saver_value].
  pose proof (ukey_ok _ (ikey_ok _ Hk)) as Huk. rewrite Compare_ok by done. cbn [mbind outcome_bind].
  pose proof (order_eq (ukey k) u Huk Hu) as Heq. destruct (Z.eqb_spec (order (ukey k) u) 0), (decide (ukey k = u)); (done || tauto).
Qed.

Lemma read_file_ok options f value t :
  file_holds f → table_ready t →
  ∃ result value' t', read_file options f u lookup_key value t = Ok (result, value', t') ∧
    table_ready t' ∧ (table_working t → table_working t') ∧ loop_result (table_entries f) value t result value'.
Proof.
  intros Hfh Ht. destruct (seek_key_parts u s Hu Hs) as (Hk & Eu & Et). pose proof (fh_increasing f Hfh) as Hinc.
  destruct (Get_entry options (fm_number f) (fm_file_size f) lookup_key t Hk Hinc Ht) as (s1 & r & t' & E & Ht' & Hw & Hin & Hr).
  unfold read_file. rewrite E. cbn [mbind outcome_bind]. destruct (ok s1) eqn:Hok; cbn [negb].
  - specialize (Hr eq_refl). assert (s1 = status_OK) as -> by by destruct s1. destruct r as [[k w]|]; cbn [saver_state saver_value].
    + destruct Hr as (i & Hsp & Hi). pose proof (list_elem_of_lookup_2 _ _ _ Hi) as He.
      rewrite SaveValue_ok by exact (file_holds_key f _ Hfh He). cbn [mbind outcome_bind].
      pose proof (first_entry_seen _ u s i (k, w) Hinc Hu Hs Hsp Hi) as Hseen. cbn [fst] in Hseen.
      do 3 eexists. split; [done|]. split; [done|]. split; [intros Hwt; by apply Hw|].
      destruct (decide (ukey k = u)); cbn; [|done]. unfold entry_answer in *. cbn [fst snd].
      destruct (_ =? kTypeValue) eqn:Ety; cbn; left; exists (k, w); split; try done; cbn [fst snd]; by rewrite Ety.
    + do 3 eexists. split; [done|]. split; [done|]. split; [intros Hwt; by apply Hw|]. split; [|done].
      apply no_entry_seen; [|done..]. intros e He. apply ikey_ok. by apply (file_holds_key f).
  - assert (∃ saver, match r with
                    | Some (k, v0) => SaveValue {| saver_state := saver_NotFound; saver_user_key := u; saver_value := value |} k v0
                    | None => Ok {| saver_state := saver_NotFound; saver_user_key := u; saver_value := value |}
                    end = Ok saver) as [saver ->].
    { destruct r as [[k w]|]; [|by eexists]. specialize (Hin _ eq_refl). eexists. by apply SaveValue_ok, (file_holds_key f (k, w)). }
    cbn [mbind outcome_bind]. do 3 eexists. split; [done|]. split; [done|]. split; [intros Hwt; by apply Hw|].
    right. split; [done|]. intros Hwt. destruct (Hw Hwt). congruence.
Qed.

Lemma loop_result_app es1 es2 value t result value1 t1 (value2 : list Z) result2 :
  loop_result es1 value t None value1 → (table_working t → table_working t1) → loop_result es2 value1 t1 result2 value2 →
  result = result2 → loop_result (es1 ++ es2) value t result value2.
Proof.
  intros [Hn ->] Hw Hl ->. destruct result2 as [st|]; cbn [loop_result] in *.
  - destruct Hl as [(e & Hse & Ee)|[Hst Hnw]]; [left|right; split; [done|by intros Hwt; apply Hnw, Hw]].
    exists e. split; [by apply (seen_app_none _ _ _ _ (Some e))|done].
  - destruct Hl as [Hl ->]. split; [by apply (seen_app_none _ _ _ _ None)|done].
Qed.

Lemma loop_result_front es1 es2 value t st value' :
  newer_than es1 es2 → loop_result es1 value t (Some st) value' → loop_result (es1 ++ es2) value t (Some st) value'.
Proof.
  intros Hn [(e & Hse & Ee)|Hf]; [left|by right]. exists e. split; [by apply seen_app_some|done].
Qed.

Lemma newer_than_level f fs : Forall (newer_file f) fs → newer_than (table_entries f) (level_entries fs).
Proof.
  intros Hf e1 e2 He1 He2. apply level_entries_elem in He2 as (g & Hg & He2). by apply (proj1 (Forall_forall _ _) Hf g Hg).
Qed.

Lemma get_in_files_ok options level fs st value t :
  level_ok level → (∀ f, f ∈ fs → f ∈ level_files v level) → StronglySorted newer_file fs → noted st → table_ready t →
  ∃ result st' value' t', get_in_files options level fs u lookup_key st value t = Ok (result, st', value', t') ∧
    noted st' ∧ table_ready t' ∧ (table_working t → table_working t') ∧ loop_result (level_entries fs) value t result value'.
Proof.
  intros Hl Hin Hso. revert st value t. induction Hso as [|f fs Hso IH Hf]; intros st value t Hst Ht; cbn [get_in_files].
  { do 4 eexists. split; [done|]. do 3 (split; [done|]). split; [|done]. intros e He. by apply not_elem_of_nil in He. }
  pose proof (Hin f ltac:(by left)) as Hfin. pose proof (proj1 (Forall_forall _ _) (level_holds level Hl) f Hfin) as Hfh.
  pose proof (charge_noted st f level Hst Hl Hfin) as Hst'.
  destruct (read_file_ok options f value t Hfh Ht) as (result & value' & t' & -> & Ht' & Hw & Hr). cbn [mbind outcome_bind].
  change (level_entries (f :: fs)) with (table_entries f ++ level_entries fs). destruct result as [s1|].
  - do 4 eexists. split; [done|]. split; [done|]. split; [done|]. split; [done|].
    by apply loop_result_front; [apply newer_than_level|].
  - destruct (IH ltac:(intros; apply Hin; by right) (charge st f level) value' t' Hst' Ht')
      as (result & st2 & value2 & t2 & E & N2 & R2 & W2 & L2). exists result, st2, value2, t2.
    split; [done|]. split; [done|]. split; [done|]. split; [by intros Hwt; apply W2, Hw|]. by eapply loop_result_app.
Qed.

(** The entries of the levels from one on. *)
Definition entries_from (i : nat) : list (Slice * Slice) := concat (map level_entries (drop i (v_files v))).

Lemma entries_from_level i : (i < Z.to_nat kNumLevels)%nat →
  entries_from i = level_entries (level_files v (Z.of_nat i)) ++ entries_from (S i).
Proof.
  intros Hi. unfold entries_from. pose proof (level_files_lookup (Z.of_nat i) ltac:(unfold level_ok, kNumLevels in *; lia)) as E.
  rewrite Nat2Z.id in E. by rewrite (drop_S _ _ _ E).
Qed.

Lemma level_newer i : (i < Z.to_nat kNumLevels)%nat → newer_than (level_entries (level_files v (Z.of_nat i))) (entries_from (S i)).
Proof.
  intros Hi e1 e2 He1 He2. pose proof (level_files_lookup (Z.of_nat i) ltac:(unfold level_ok, kNumLevels in *; lia)) as E.
  rewrite Nat2Z.id in E. unfold entries_from in He2. apply list_elem_of_In, in_concat in He2 as (es & Hes & He2).
  apply list_elem_of_In in Hes, He2. apply list_elem_of_fmap in Hes as (files & -> & Hf).
  apply list_elem_of_lookup in Hf as [j Hj]. rewrite lookup_drop in Hj.
  by apply (vh_levels v Hv _ _ _ _ E Hj ltac:(lia)).
Qed.

Lemma get_in_levels_ok options n i st value t :
  (i + n = Z.to_nat kNumLevels)%nat → noted st → table_ready t →
  ∃ status st' value' t', get_in_levels options v (map Z.of_nat (seq i n)) u lookup_key st value t = Ok (status, st', value', t') ∧
    noted st' ∧ table_ready t' ∧ (table_working t → table_working t') ∧
    ((∃ r, seen (entries_from i) u s r ∧ (status, value') = entry_answer r value) ∨ ok status = false ∧ ~ table_working t).
Proof.
  revert i st value t. induction n as [|n IH]; intros i st value t Hn Hst Ht; cbn [seq map get_in_levels].
  { do 4 eexists. split; [done|]. do 3 (split; [done|]). left. exists None. split; [|done]. unfold entries_from.
    rewrite drop_ge by (rewrite (vo_levels v (vh_ok v Hv)); lia). intros e He. by apply not_elem_of_nil in He. }
  assert (level_ok (Z.of_nat i)) as Hl by (unfold level_ok, kNumLevels in *; lia).
  destruct (files_to_search_ok (Z.of_nat i) Hl) as (fs & -> & Hsub & Hso & Hsees). cbn [mbind outcome_bind].
  destruct (get_in_files_ok options (Z.of_nat i) fs st value t Hl Hsub Hso Hst Ht) as (result & st1 & value1 & t1 & -> & N1 & R1 & W1 & L1).
  cbn [mbind outcome_bind]. pose proof (entries_from_level i ltac:(lia)) as Efrom. pose proof (level_newer i ltac:(lia)) as Hnew.
  destruct result as [status|]; cbn in L1.
  - do 4 eexists. split; [done|]. split; [done|]. split; [done|]. split; [done|]. destruct L1 as [(e & Hse & Ee)|Hf]; [left|by right].
    exists (Some e). split; [|done]. rewrite Efrom. apply seen_app_some; [by apply Hsees|done].
  - destruct L1 as [Hnone ->]. destruct (IH (S i) st1 value t1 ltac:(lia) N1 R1) as (status & st2 & value2 & t2 & -> & N2 & R2 & W2 & L2).
    do 4 eexists. split; [done|]. split; [done|]. split; [done|]. split; [by intros Hwt; apply W2, W1|].
    destruct L2 as [(r & Hr & Er)|[Hok Hnw]]; [left|right; split; [done|by intros Hwt; apply Hnw, W1]].
    exists r. split; [|done]. rewrite Efrom. apply seen_app_none; [by apply Hsees|done].
Qed.

Lemma Version_Get_ok options k value t :
  len u < 2 ^ 32 - 8 → new_LookupKey u s = Ok k → table_ready t →
  ∃ status value' stats t', Version_Get options v k value t = Ok (status, value', stats, t') ∧
    table_ready t' ∧ (table_working t → table_working t') ∧
    (∀ f, seek_file stats = Some f → level_ok (seek_file_level stats) ∧ f ∈ level_files v (seek_file_level stats)) ∧
    ((∃ r, seen (version_entries v) u s r ∧ (status, value') = entry_answer r value) ∨ ok status = false ∧ ~ table_working t).
Proof.
  intros Hlu Hlk Ht. destruct (new_LookupKey_ok u s Hlu Hs) as (k' & Ek & _ & Ei & Eu). assert (k' = k) as -> by congruence.
  unfold Version_Get. rewrite Eu, Ei. cbn [mbind outcome_bind].
  edestruct (get_in_levels_ok options (Z.to_nat kNumLevels) 0) as (status & st & value' & t' & E & Hn & R & W & L); [lia| |exact Ht|].
  2: { unfold all_levels. rewrite E. cbn [mbind outcome_bind]. do 4 eexists. split; [done|]. split; [done|]. split; [done|]. split; [apply Hn|exact L]. }
  by split.
Qed.

End holding.

(** ** Properties *)

(** C24: A lookup in a version answers with the last entry for the user key up to the sequence
    number, among all the entries of all its files, wherever these are - in files of level
    zero that overlap or in any other level - or with NotFound when that entry is a deletion
    or there is none; unless a table cannot be read, and then the status says so.  The file
    that is charged with a seek is one of the version, in the level that is noted. *)
Theorem Version_Get_reads {T I : Type} `{TL : TableCacheLaws T I} options v u s k value t :
  version_holds v → key_ok u → len u < 2 ^ 32 - 8 → 0 ≤ s ≤ kMaxSequenceNumber → new_LookupKey u s = Ok k → table_ready t →
  ∃ status value' stats t', Version_Get options v k value t = Ok (status, value', stats, t') ∧
    table_ready t' ∧ (table_working t → table_working t') ∧
    (∀ f, seek_file stats = Some f → level_ok (seek_file_level stats) ∧ f ∈ level_files v (seek_file_level stats)) ∧
    ((∃ r, seen (version_entries v) u s r ∧ (status, value') = entry_answer r value) ∨ ok status = false ∧ ~ table_working t).
Proof. intros Hv Hu Hl Hs Hk Ht. by apply Version_Get_ok. Qed.

(** *** A sample: tables in memory *)

Definition sample_tables (number : Z) : list (Slice * Slice) :=
  if number =? 5 then [(packed_key [97] 9 kTypeDeletion, []); (packed_key [98] 7 kTypeValue, [1])]
  else if number =? 3 then [(packed_key [97] 4 kTypeValue, [2])]
  else if number =? 2 then [(packed_key [97] 2 kTypeValue, [3]); (packed_key [99] 1 kTypeValue, [4])]
  else [].

#[local] Instance internal_cursor : Iterator Cursor := @cursor_iterator _ internal_laws.

#[local] Instance sample_cache : TableCache unit Cursor := {|
  TableCache_Get options number size k t :=
    Ok (status_OK, sample_tables number !! @lower_bound _ internal_laws k (sample_tables number), t);
  TableCache_NewIterator options number size := Ok (new_Cursor (sample_tables number))
|}.

#[local] Instance sample_cache_laws : TableCacheLaws unit Cursor.
Proof.
  refine (@Build_TableCacheLaws unit Cursor _ _ _ _ sample_tables (λ _, True) (λ _, True) _ _).
  - intros options number size k t Hk Hinc _. cbn. do 3 eexists. split; [done|]. split; [done|]. split; [by split|].
    pose proof (@lower_bound_splits _ internal_laws k (sample_tables number) Hk Hinc) as Hsp.
    split; [by intros e He; eapply list_elem_of_lookup_2|]. intros _.
    destruct (sample_tables number !! _) as [e|] eqn:E; [by eexists|]. intros [key value] He Hle.
    apply list_elem_of_lookup in He as [i Hi]. specialize (Hsp i key value Hi). apply lookup_ge_None in E.
    rewrite decide_True in Hsp by (apply lookup_lt_Some in Hi; lia). cbn in Hsp, Hle.
    assert (internal_key_ok key) as Hkey by (apply (proj1 (Forall_lookup _ _) (proj1 Hinc) i); by rewrite list_lookup_fmap, Hi).
    pose proof (@order_flip _ internal_laws key k Hkey Hk) as Hf. cbn in Hf. lia.
  - intros options number size Hinc. eexists _, _. split; [done|]. split; [by apply (@cursor_iterates _ internal_laws)|apply new_Cursor_ok].
Defined.

Definition sample_file (number u1 s1 t1 u2 s2 t2 : Z) : FileMetaData :=
  {| fm_number := number; fm_file_size := 100; fm_smallest := {| rep_ := packed_key [u1] s1 t1 |};
     fm_largest := {| rep_ := packed_key [u2] s2 t2 |} |}.

Definition sample_version : Version := {|
  v_files := [[sample_file 3 97 4 1 97 4 1; sample_file 5 97 9 0 98 7 1]; [sample_file 2 97 2 1 99 1 1]; []; []; []; []; []];
  v_file_to_compact := None; v_file_to_compact_level := -1; v_compaction_score := double_of (-1); v_compaction_level := -1
|}.

Lemma sample_ikey u s t : is_byte u → 0 ≤ s ≤ kMaxSequenceNumber → 0 ≤ t ≤ 1 → ikey (packed_key [u] s t).
Proof.
  intros Hu Hs Ht. destruct (packed_key_parts [u] s t (proj2 (pack_ok s t Hs Ht))) as (E1 & E2 & E3 & E4). split.
  - split; [done|]. split; [|done]. rewrite E1. by apply Forall_singleton.
  - rewrite E2. unfold kTypeValue. lia_mod.
Qed.

Lemma sample_file_ok number u1 s1 t1 u2 s2 t2 :
  in_width 64 number → is_byte u1 → is_byte u2 → 0 ≤ s1 ≤ kMaxSequenceNumber → 0 ≤ s2 ≤ kMaxSequenceNumber → 0 ≤ t1 ≤ 1 → 0 ≤ t2 ≤ 1 →
  internal_order (packed_key [u1] s1 t1) (packed_key [u2] s2 t2) ≤ 0 → file_ok (sample_file number u1 s1 t1 u2 s2 t2).
Proof. intros. split; cbn; [by apply sample_ikey|by apply sample_ikey|done|done|by split]. Qed.

Lemma holds_table {T I : Type} `{TL : TableCacheLaws T I} f :
  file_ok f → Forall (λ e, ikey e.1) (table_entries f) →
  StronglySorted (λ a b, internal_order a b < 0) (map fst (table_entries f)) →
  head (map fst (table_entries f)) = Some (rep_ (fm_smallest f)) → last (map fst (table_entries f)) = Some (rep_ (fm_largest f)) →
  file_holds f.
Proof.
  intros Hok Hk Hs Hh Hl. split; [done|split; [|done]|done|done|done]. apply Forall_map. eapply Forall_impl; [exact Hk|].
  intros e. apply ikey_ok.
Qed.

Ltac small_numbers := unfold in_width, kMaxSequenceNumber, kTypeValue, kTypeDeletion; change (Z.shiftl 1 56) with (2 ^ 56); lia.

Lemma sample_holds : version_holds sample_version.
Proof.
  assert (file_holds (sample_file 3 97 4 1 97 4 1)) as F3.
  { apply holds_table; [apply sample_file_ok; try small_numbers; by vm_compute| | |done|done].
    - apply Forall_singleton, sample_ikey; small_numbers.
    - by repeat constructor. }
  assert (file_holds (sample_file 5 97 9 0 98 7 1)) as F5.
  { apply holds_table; [apply sample_file_ok; try small_numbers; by vm_compute| | |done|done].
    - apply Forall_cons_2; [|apply Forall_singleton]; apply sample_ikey; small_numbers.
    - by repeat constructor. }
  assert (file_holds (sample_file 2 97 2 1 99 1 1)) as F2.
  { apply holds_table; [apply sample_file_ok; try small_numbers; by vm_compute| | |done|done].
    - apply Forall_cons_2; [|apply Forall_singleton]; apply sample_ikey; small_numbers.
    - by repeat constructor. }
  assert (∀ level files, v_files sample_version !! level = Some files →
    level = 0%nat ∧ files = [sample_file 3 97 4 1 97 4 1; sample_file 5 97 9 0 98 7 1] ∨
    level = 1%nat ∧ files = [sample_file 2 97 2 1 99 1 1] ∨ (2 ≤ level)%nat ∧ files = []) as Hlv.
  { intros level files E. do 7 (destruct level as [|level]; [injection E as <-; first [by left|by right; left|right; right; split; [lia|done]]|]).
    by destruct level. }
  assert (∀ level files, v_files sample_version !! level = Some files → Forall file_holds files) as Hfiles.
  { intros level files [[_ ->]|[[_ ->]|[_ ->]]]%Hlv; repeat (apply Forall_cons_2; [done|]); by constructor. }
  split; [split|done| | |].
  - done.
  - intros level files E. split; [eapply Forall_impl; [by eapply Hfiles|]; intros f; apply fh_ok|].
    apply Hlv in E as [[_ ->]|[[_ ->]|[_ ->]]]; by vm_compute.
  - intros level files E Hl. pose proof (Hfiles _ _ E) as Hh. split; [eapply Forall_impl; [exact Hh|]; intros f; apply fh_ok|].
    apply Hlv in E as [[-> _]|[[_ ->]|[_ ->]]]; [lia| |]; by repeat constructor.
  - intros files [[_ ->]|[[? _]|[? _]]]%Hlv; [|lia|lia]. apply NoDup_cons. split; [|by apply NoDup_singleton].
    by intros ?%list_elem_of_singleton.
  - intros files f g [[_ ->]|[[? _]|[? _]]]%Hlv Hf Hg Hlt; [|lia|lia]. list_cases Hf; list_cases Hg; cbn in Hlt; try lia.
    intros e1 e2 He1 He2. cbn in He1, He2. list_cases He1; list_cases He2; intros E; try (by vm_compute in E); by vm_compute.
  - intros i j files files' Ei Ej Hij. apply Hlv in Ei as [[-> ->]|[[-> ->]|[? ->]]];
      [|apply Hlv in Ej as [[-> _]|[[-> _]|[_ ->]]]; [lia|lia|by intros e1 e2 _ ?%not_elem_of_nil]|by intros e1 e2 ?%not_elem_of_nil].
    apply Hlv in Ej as [[-> _]|[[_ ->]|[_ ->]]]; [lia| |by intros e1 e2 _ ?%not_elem_of_nil].
    intros e1 e2 He1 He2. cbn in He1, He2. list_cases He1; list_cases He2; intros E; try (by vm_compute in E); by vm_compute.
Qed.

Lemma Version_Get_reads_witness :
  ∃ k stats t', new_LookupKey [97] 5 = Ok k ∧
    Version_Get new_ReadOptions sample_version k [] () = Ok (status_OK, [2], stats, t') ∧
    (∃ r, seen (version_entries sample_version) [97] 5 r ∧ (status_OK, [2]) = entry_answer r []).
Proof.
  assert (new_LookupKey [97] 5 = Ok {| lk_bytes := [9; 97; 1; 5; 0; 0; 0; 0; 0; 0]; lk_kstart := 1 |}) as Hk by reflexivity.
  destruct (Version_Get_reads new_ReadOptions sample_version [97] 5 {| lk_bytes := [9; 97; 1; 5; 0; 0; 0; 0; 0; 0]; lk_kstart := 1 |} [] ())
    as (status & value' & stats & t' & E & _ & _ & _ & Hr); [exact sample_holds|apply Forall_singleton; small_numbers|by vm_compute|small_numbers|exact Hk|exact I|].
  assert (Version_Get new_ReadOptions sample_version {| lk_bytes := [9; 97; 1; 5; 0; 0; 0; 0; 0; 0]; lk_kstart := 1 |} [] () =
    Ok (status_OK, [2], {| seek_file := Some (sample_file 5 97 9 0 98 7 1); seek_file_level := 0 |}, ())) as E' by reflexivity.
  rewrite E in E'. injection E' as -> -> -> ->. do 3 eexists. split; [exact Hk|]. split; [exact E|].
  destruct Hr as [Hr|[Hr _]]; [exact Hr|discriminate Hr].
Defined.
