(* ===== verification/LdbMerge.v ===== *)
(** * LevelDB, table/merger: merging iterators

    An iterator over the union of the entries of its children, in both directions
    (table/merger.cc). *)

From S2P Require Import Prelude LdbCoding LdbEnv LdbOrder LdbIter.

Inductive Direction : Type := kForward | kReverse.

#[export] Instance Direction_eq_dec : EqDecision Direction.
Proof. solve_decision. Defined.

Section merger.
Context {I : Type} `{!Iterator I} `{Comparator}.

Abbreviation wrapper := (IteratorWrapper I).

(** [current_] points to a child. *)
Record MergingIterator : Type := { children_ : list wrapper; m_current_ : option nat; direction_ : Direction }.

(** [children_[i].Set(children[i])] *)
Fixpoint set_children (children : list I) : outcome (list wrapper) :=
  match children with
  | [] => Ok []
  | it :: children =>
      w ← wrapper_Set new_IteratorWrapper (Some it);
      ws ← set_children children;
      Ok (w :: ws)
  end.

Definition new_MergingIterator (children : list I) : outcome MergingIterator :=
  ws ← set_children children;
  Ok {| children_ := ws; m_current_ := None; direction_ := kForward |}.

(** The loop over the children from the [i]-th one. *)
Fixpoint for_children (f : nat → wrapper → outcome wrapper) (i : nat) (children : list wrapper) :
    outcome (list wrapper) :=
  match children with
  | [] => Ok []
  | child :: children =>
      child ← f i child;
      children ← for_children f (S i) children;
      Ok (child :: children)
  end.

(** A loop that keeps the child that [better] prefers, in the order given. *)
Fixpoint find_child (better : Slice → Slice → outcome bool) (children : list (nat * wrapper))
    (best : option (nat * wrapper)) : outcome (option nat) :=
  match children with
  | [] => Ok (fst <$> best)
  | (i, child) :: children =>
      if valid_ child then
        match best with
        | None => find_child better children (Some (i, child))
        | Some (_, b) =>
            k ← wrapper_key child;
            k' ← wrapper_key b;
            r ← better k k';
            find_child better children (if r : bool then Some (i, child) else best)
        end
      else find_child better children best
  end.

Definition numbered (children : list wrapper) : list (nat * wrapper) := imap pair children.

Definition set_current (this : MergingIterator) (current : option nat) : MergingIterator :=
  {| children_ := children_ this; m_current_ := current; direction_ := direction_ this |}.
Definition set_children_direction (this : MergingIterator) (children : list wrapper) (d : Direction) : MergingIterator :=
  {| children_ := children; m_current_ := m_current_ this; direction_ := d |}.

Definition FindSmallest (this : MergingIterator) : outcome MergingIterator :=
  smallest ← find_child (λ k k', r ← Compare k k'; Ok (r <? 0)) (numbered (children_ this)) None;
  Ok (set_current this smallest).

Definition FindLargest (this : MergingIterator) : outcome MergingIterator :=
  largest ← find_child (λ k k', r ← Compare k k'; Ok (0 <? r)) (rev (numbered (children_ this))) None;
  Ok (set_current this largest).

Definition Merging_Valid (this : MergingIterator) : bool :=
  match m_current_ this with Some _ => true | None => false end.

Definition current_child (this : MergingIterator) : outcome (nat * wrapper) :=
  match m_current_ this with
  | Some i => match children_ this !! i with Some child => Ok (i, child) | None => Fault OutOfBounds end
  | None => Fault OutOfBounds
  end.

Definition Merging_key (this : MergingIterator) : outcome Slice := c ← current_child this; wrapper_key c.2.
Definition Merging_value (this : MergingIterator) : outcome Slice := c ← current_child this; wrapper_value c.2.

Definition Merging_SeekToFirst (this : MergingIterator) : outcome MergingIterator :=
  children ← for_children (λ _, wrapper_SeekToFirst) 0 (children_ this);
  FindSmallest (set_children_direction this children kForward).

Definition Merging_SeekToLast (this : MergingIterator) : outcome MergingIterator :=
  children ← for_children (λ _, wrapper_SeekToLast) 0 (children_ this);
  FindLargest (set_children_direction this children kReverse).

Definition Merging_Seek (this : MergingIterator) (target : Slice) : outcome MergingIterator :=
  children ← for_children (λ _ child, wrapper_Seek child target) 0 (children_ this);
  FindSmallest (set_children_direction this children kForward).

(** The other children are put after the current key; [key()] does not change in the loop. *)
Definition turn_forward (this : MergingIterator) (i : nat) (child : wrapper) : outcome wrapper :=
  if decide (m_current_ this = Some i) then Ok child
  else
    key ← Merging_key this;
    child ← wrapper_Seek child key;
    if valid_ child then
      k ← wrapper_key child;
      r ← Compare key k;
      if r =? 0 then wrapper_Next child else Ok child
    else Ok child.

(** The other children are put before the current key. *)
Definition turn_reverse (this : MergingIterator) (i : nat) (child : wrapper) : outcome wrapper :=
  if decide (m_current_ this = Some i) then Ok child
  else
    key ← Merging_key this;
    child ← wrapper_Seek child key;
    if valid_ child then wrapper_Prev child else wrapper_SeekToLast child.

Definition turn (this : MergingIterator) (d : Direction)
    (f : MergingIterator → nat → wrapper → outcome wrapper) : outcome MergingIterator :=
  if decide (direction_ this = d) then Ok this
  else
    children ← for_children (f this) 0 (children_ this);
    Ok (set_children_direction this children d).

(** [current_->move()] *)
Definition move_current (move : wrapper → outcome wrapper) (this : MergingIterator) : outcome MergingIterator :=
  c ← current_child this;
  w ← move c.2;
  Ok (set_children_direction this (<[c.1 := w]> (children_ this)) (direction_ this)).

Definition Merging_Next (this : MergingIterator) : outcome MergingIterator :=
  _ ← require (Merging_Valid this) OutOfBounds;
  this ← turn this kForward turn_forward;
  this ← move_current wrapper_Next this;
  FindSmallest this.

Definition Merging_Prev (this : MergingIterator) : outcome MergingIterator :=
  _ ← require (Merging_Valid this) OutOfBounds;
  this ← turn this kReverse turn_reverse;
  this ← move_current wrapper_Prev this;
  FindLargest this.

(** The first status that is not OK. *)
Fixpoint children_status (children : list wrapper) : Status :=
  match children with
  | [] => status_OK
  | child :: children =>
      let s := match iter_ child with Some it => Iterator_status it | None => status_OK end in
      if negb (ok s) then s else children_status children
  end.

Definition Merging_status (this : MergingIterator) : Status := children_status (children_ this).

#[export] Instance merging_iterator : Iterator MergingIterator := {|
  Iterator_Valid := Merging_Valid;
  Iterator_SeekToFirst := Merging_SeekToFirst;
  Iterator_SeekToLast := Merging_SeekToLast;
  Iterator_Seek := Merging_Seek;
  Iterator_Next := Merging_Next;
  Iterator_Prev := Merging_Prev;
  Iterator_key := Merging_key;
  Iterator_value := Merging_value;
  Iterator_status := Merging_status
|}.

End merger.

Arguments MergingIterator I : clear implicits.

(** Two kinds of iterators behind one pointer. *)
#[export] Instance sum_iterator {A B} `{!Iterator A} `{!Iterator B} : Iterator (A + B) := {|
  Iterator_Valid it := match it with inl a => Iterator_Valid a | inr b => Iterator_Valid b end;
  Iterator_SeekToFirst it := match it with inl a => inl <$> Iterator_SeekToFirst a | inr b => inr <$> Iterator_SeekToFirst b end;
  Iterator_SeekToLast it := match it with inl a => inl <$> Iterator_SeekToLast a | inr b => inr <$> Iterator_SeekToLast b end;
  Iterator_Seek it k := match it with inl a => inl <$> Iterator_Seek a k | inr b => inr <$> Iterator_Seek b k end;
  Iterator_Next it := match it with inl a => inl <$> Iterator_Next a | inr b => inr <$> Iterator_Next b end;
  Iterator_Prev it := match it with inl a => inl <$> Iterator_Prev a | inr b => inr <$> Iterator_Prev b end;
  Iterator_key it := match it with inl a => Iterator_key a | inr b => Iterator_key b end;
  Iterator_value it := match it with inl a => Iterator_value a | inr b => Iterator_value b end;
  Iterator_status it := match it with inl a => Iterator_status a | inr b => Iterator_status b end
|}.

Definition NewMergingIterator {I} `{!Iterator I} (children : list I) :
    outcome (EmptyIterator + (I + MergingIterator I)) :=
  match children with
  | [] => Ok (inl NewEmptyIterator)
  | [it] => Ok (inr (inl it))
  | _ => m ← new_MergingIterator children; Ok (inr (inr m))
  end.

(** ** What the children promise *)

Section refinement.
Context {I : Type} `{!Iterator I} `{ComparatorLaws}.

Abbreviation entries := (list (Slice * Slice)).
Abbreviation wrapper := (IteratorWrapper I).

(** The entries of the children and their union; no key is in two children. *)
Context (n : nat) (E : nat → entries) (R : nat → I → nat → Prop) (M : entries).

Record merged : Prop := {
  merged_children i : (i < n)%nat → iterates (E i) (R i);
  merged_sorted : increasing (map fst M);
  merged_child_sorted i : (i < n)%nat → increasing (map fst (E i));
  merged_elem e : e ∈ M ↔ ∃ i, (i < n)%nat ∧ e ∈ E i;
  merged_distinct i j k v v' : (i < n)%nat → (j < n)%nat → (k, v) ∈ E i → (k, v') ∈ E j → i = j
}.

Context (HM : merged).

(** *** Order and position *)

Lemma lookup_map_some {A B} (f : A → B) l x a : l !! x = Some a → map f l !! x = Some (f a).
Proof. intros Ha. by rewrite list_lookup_fmap, Ha. Qed.

Lemma sorted_order (l : entries) x y e e' :
  increasing (map fst l) → l !! x = Some e → l !! y = Some e' → (x < y)%nat → order e.1 e'.1 < 0.
Proof.
  intros Hl He He' Hxy. eapply (increasing_lookup (map fst l) x y); [done| | |done].
  - exact (lookup_map_some fst l x e He).
  - exact (lookup_map_some fst l y e' He').
Qed.

Lemma sorted_ok (l : entries) x e : increasing (map fst l) → l !! x = Some e → key_ok e.1.
Proof. intros Hl He. eapply (increasing_ok _ x); [done|]. exact (lookup_map_some fst l x e He). Qed.

Lemma sorted_position (l : entries) x y e e' :
  increasing (map fst l) → l !! x = Some e → l !! y = Some e' → order e.1 e'.1 < 0 ↔ (x < y)%nat.
Proof.
  intros Hl He He'. split; [|by eapply sorted_order]. intros Hlt.
  pose proof (sorted_ok _ _ _ Hl He) as Hk. pose proof (sorted_ok _ _ _ Hl He') as Hk'.
  destruct (lt_eq_lt_dec x y) as [[|Heq]|Hgt]; [done| |]; exfalso.
  - subst. replace e' with e in Hlt by congruence. exact (order_irrefl _ Hk Hlt).
  - pose proof (sorted_order _ _ _ _ _ Hl He' He Hgt) as Hback.
    exact (order_irrefl _ Hk (order_trans _ _ _ Hk Hk' Hk Hlt Hback)).
Qed.

Lemma sorted_inj (l : entries) x y e : increasing (map fst l) → l !! x = Some e → l !! y = Some e → x = y.
Proof.
  intros Hl Hx Hy. pose proof (sorted_ok _ _ _ Hl Hx) as Hk.
  destruct (lt_eq_lt_dec x y) as [[Hlt|]|Hlt]; [|done|];
    apply (sorted_position l _ _ e e Hl) in Hlt; try done; by apply order_irrefl in Hlt.
Qed.

Lemma child_in_M i a e : (i < n)%nat → E i !! a = Some e → ∃ x, M !! x = Some e.
Proof.
  intros Hi Ha. apply list_elem_of_lookup_1, merged_elem; [done|]. exists i. split; [done|].
  by eapply list_elem_of_lookup_2.
Qed.

Lemma M_in_child x e : M !! x = Some e → ∃ i a, (i < n)%nat ∧ E i !! a = Some e.
Proof.
  intros Hx. destruct (proj1 (merged_elem HM e) (list_elem_of_lookup_2 _ _ _ Hx)) as (i & Hi & Hin).
  apply list_elem_of_lookup_1 in Hin as [a Ha]. by exists i, a.
Qed.

Lemma child_position i a b x y e e' :
  (i < n)%nat → E i !! a = Some e → E i !! b = Some e' → M !! x = Some e → M !! y = Some e' → (a < b ↔ x < y)%nat.
Proof.
  intros Hi Ha Hb Hx Hy. rewrite <- (sorted_position (E i) a b e e' (merged_child_sorted HM i Hi) Ha Hb).
  exact (sorted_position M x y e e' (merged_sorted HM) Hx Hy).
Qed.

Lemma child_unique i j a b e e' :
  (i < n)%nat → (j < n)%nat → E i !! a = Some e → E j !! b = Some e' → e.1 = e'.1 → i = j.
Proof.
  intros Hi Hj Ha Hb Heq. destruct e as [k v], e' as [k' v']. cbn in Heq. subst k'.
  by eapply (merged_distinct HM i j k v v'); eauto using list_elem_of_lookup_2.
Qed.

(** *** Positions of the children *)

(** The positions that cut the children where the union is cut at [c]. *)
Definition cut (c : nat) (p : nat → nat) : Prop :=
  ∀ i a x e, (i < n)%nat → E i !! a = Some e → M !! x = Some e → (a < p i ↔ x < c)%nat.

Definition at_positions (ws : list wrapper) (p : nat → nat) : Prop :=
  length ws = n ∧ ∀ i w, ws !! i = Some w → wraps (E i) (R i) w (p i).

(** Positions after a cut. *)
Lemma cut_splits c p i e :
  cut c p → (i < n)%nat → M !! c = Some e → splits e.1 (E i) (p i).
Proof.
  intros Hcut Hi He a key value Ha. destruct (child_in_M _ _ _ Hi Ha) as [x Hx].
  pose proof (Hcut i a x _ Hi Ha Hx) as Hiff. pose proof (sorted_position M x c _ _ (merged_sorted HM) Hx He) as Hord.
  cbn in Hord. destruct (decide (a < p i)%nat) as [Hlt|Hge]; [by apply Hord, Hiff|].
  destruct (Z.le_gt_cases 0 (order key e.1)); [done|]. exfalso. by apply Hge, Hiff, Hord.
Qed.

Lemma cut_lower_bound c p i e :
  cut c p → (i < n)%nat → M !! c = Some e → (p i ≤ length (E i))%nat → p i = lower_bound e.1 (E i).
Proof. intros. apply splits_lower_bound; [done|by eapply cut_splits]. Qed.

Lemma at_positions_wraps ws p i : at_positions ws p → (i < n)%nat → ∃ w, ws !! i = Some w ∧ wraps (E i) (R i) w (p i).
Proof.
  intros [Hlen Hw] Hi. destruct (lookup_lt_is_Some_2 ws i) as [w Hl]; [lia|]. exists w. split; [done|by apply Hw].
Qed.

Lemma at_positions_bound ws p i : at_positions ws p → (i < n)%nat → (p i ≤ length (E i))%nat.
Proof.
  intros Hp Hi. destruct (at_positions_wraps _ _ _ Hp Hi) as (w & _ & Hw).
  by eapply (wraps_valid _ _ (merged_children HM i Hi)).
Qed.

Lemma for_children_ok f ws p q :
  at_positions ws p →
  (∀ i w, (i < n)%nat → ws !! i = Some w → wraps (E i) (R i) w (p i) →
     ∃ w', f i w = Ok w' ∧ wraps (E i) (R i) w' (q i)) →
  ∃ ws', for_children f 0 ws = Ok ws' ∧ at_positions ws' q.
Proof.
  intros [Hlen Hw] Hf.
  assert (∀ l k, (∀ i w, l !! i = Some w → ∃ w', f (k + i)%nat w = Ok w' ∧ wraps (E (k + i)) (R (k + i)) w' (q (k + i)%nat)) →
    ∃ l', for_children f k l = Ok l' ∧ length l' = length l ∧
      ∀ i w, l' !! i = Some w → wraps (E (k + i)) (R (k + i)) w (q (k + i)%nat)) as Hloop.
  { induction l as [|w l IH]; intros k Hl; [by exists []|]. cbn [for_children].
    destruct (Hl 0%nat w eq_refl) as (w' & Hfw & Hw'). rewrite Nat.add_0_r in Hfw, Hw'. rewrite Hfw. cbn [mbind outcome_bind].
    destruct (IH (S k)) as (l' & -> & Hl' & Hall).
    { intros i v Hi. rewrite Nat.add_succ_comm. by apply (Hl (S i)). }
    cbn [mbind outcome_bind]. eexists. split; [done|]. split; [by cbn; rewrite Hl'|]. intros [|i] v Hi.
    - injection Hi as <-. by rewrite Nat.add_0_r.
    - rewrite <- Nat.add_succ_comm. by apply Hall. }
  destruct (Hloop ws 0%nat) as (ws' & Hr & Hl & Hall).
  - intros i w Hi. apply Hf; [apply lookup_lt_Some in Hi; lia|done|by apply Hw].
  - exists ws'. split; [done|]. split; [lia|]. exact Hall.
Qed.

(** *** Finding a child *)

Section find.
Context (lt : Slice → Slice → Prop) (better : Slice → Slice → outcome bool) (p : nat → nat).
Context (Hbetter : ∀ a b, key_ok a → key_ok b → ∃ r, better a b = Ok r ∧ (r = true ↔ lt a b)).
Context (Hirrefl : ∀ a, key_ok a → ~ lt a a).
Context (Htrans : ∀ a b c, key_ok a → key_ok b → key_ok c → lt a b → lt b c → lt a c).
Context (Htotal : ∀ a b, key_ok a → key_ok b → lt a b ∨ a = b ∨ lt b a).

(** The child [i] has the entry [e] at its position. *)
Definition at_entry (i : nat) (e : Slice * Slice) : Prop := (i < n)%nat ∧ E i !! p i = Some e.

Lemma at_entry_ok i e : at_entry i e → key_ok e.1.
Proof. intros [Hi He]. eapply sorted_ok; [|exact He]. by apply merged_child_sorted. Qed.

(** A child is found among [js], and none of them is better. *)
Definition found (js : list nat) (r : option nat) : Prop :=
  match r with
  | None => ∀ j e, j ∈ js → ~ at_entry j e
  | Some i => i ∈ js ∧ ∃ e, at_entry i e ∧ ∀ j e', j ∈ js → at_entry j e' → ~ lt e'.1 e.1
  end.

(** Of two children the worse one is passed over. *)
Lemma found_drop js b d eb ed r :
  at_entry b eb → at_entry d ed → ~ lt ed.1 eb.1 → found (b :: js) r → found (d :: b :: js) r.
Proof.
  intros Hb Hd Hlt. destruct r as [i|]; cbn [found].
  - intros (Hin & e & He & Hbest). split; [by right|]. exists e. split; [done|].
    intros j e' [->|Hj]%elem_of_cons He'; [|by eapply Hbest].
    destruct Hd as [_ Hd], (He') as [_ Hd']. replace e' with ed by congruence. intros Hlte.
    pose proof (Hbest b eb (list_elem_of_here _ _) Hb) as Hnot. apply Hlt.
    assert (key_ok ed.1) as Hk1 by (eapply at_entry_ok, (conj (proj1 He') Hd)).
    pose proof (at_entry_ok _ _ He) as Hk2. pose proof (at_entry_ok _ _ Hb) as Hk3.
    destruct (Htotal e.1 eb.1 Hk2 Hk3) as [Hl|[Heq|Hl]]; [by eapply (Htrans ed.1 e.1 eb.1)|by rewrite <- Heq|done].
  - intros Hnone. exfalso. by eapply (Hnone b eb (list_elem_of_here _ _)).
Qed.

Lemma found_skip js d r : (∀ e, ~ at_entry d e) → found js r → found (d :: js) r.
Proof.
  intros Hd. destruct r as [i|]; cbn [found].
  - intros (Hin & e & He & Hbest). split; [by right|]. exists e. split; [done|].
    intros j e' [->|Hj]%elem_of_cons He'; [by apply Hd in He'|by eapply Hbest].
  - intros Hnone j e [->|Hj]%elem_of_cons; [done|by apply Hnone].
Qed.

Lemma found_swap js b d r : found (b :: d :: js) r → found (d :: b :: js) r.
Proof.
  assert (∀ j, j ∈ b :: d :: js ↔ j ∈ d :: b :: js) as Hiff by (intros j; rewrite !elem_of_cons; tauto).
  destruct r as [i|]; cbn [found].
  - intros (Hin & e & He & Hbest). split; [by apply Hiff|]. exists e. split; [done|].
    intros j e' Hj. by apply Hbest, Hiff.
  - intros Hnone j e Hj. by apply Hnone, Hiff.
Qed.

Definition child_ok (c : nat * wrapper) : Prop := (c.1 < n)%nat ∧ wraps (E c.1) (R c.1) c.2 (p c.1).

Lemma find_child_ok cs best :
  Forall child_ok cs → (∀ c, best = Some c → child_ok c ∧ (p c.1 < length (E c.1))%nat) →
  ∃ r, find_child better cs best = Ok r ∧ found (option_list (fst <$> best) ++ map fst cs) r.
Proof.
  revert best. induction cs as [|[i w] cs IH]; intros best Hcs Hbest; cbn [find_child map fst].
  - eexists. split; [done|]. destruct best as [[b wb]|]; cbn [option_list fmap option_fmap option_map fst app found].
    + destruct (Hbest _ eq_refl) as [[Hb _] Hlt]. cbn [fst snd] in Hb, Hlt.
      destruct (lookup_lt_is_Some_2 _ _ Hlt) as [e He].
      split; [by apply list_elem_of_singleton|]. exists e. split; [done|].
      intros j e' ->%list_elem_of_singleton He'. destruct He' as [_ He']. replace e' with e by congruence.
      apply Hirrefl. by apply (at_entry_ok b).
    + intros j e Hj. by apply not_elem_of_nil in Hj.
  - apply Forall_cons in Hcs as [[Hi Hw] Hcs]. cbn [fst snd] in Hi, Hw.
    rewrite (proj2 (wraps_valid _ _ (merged_children HM i Hi) _ _ Hw)).
    destruct (Nat.ltb_spec (p i) (length (E i))) as [Hlt|Hge].
    + destruct (lookup_lt_is_Some_2 _ _ Hlt) as [ei He]. assert (at_entry i ei) as Hat by done.
      assert (∀ c, Some (i, w) = Some c → child_ok c ∧ (p c.1 < length (E c.1))%nat) as Hnew by (intros c [= <-]; done).
      destruct best as [[b wb]|]; [|exact (IH (Some (i, w)) Hcs Hnew)].
      destruct (Hbest _ eq_refl) as [[Hb Hwb] Hltb]. cbn [fst snd] in Hb, Hwb, Hltb.
      destruct (lookup_lt_is_Some_2 _ _ Hltb) as [eb Hbe]. assert (at_entry b eb) as Hatb by done.
      destruct ei as [ki vi], eb as [kb vb].
      rewrite (proj1 (wraps_entry _ _ (merged_children HM i Hi) _ _ _ _ Hw He)). cbn [mbind outcome_bind].
      rewrite (proj1 (wraps_entry _ _ (merged_children HM b Hb) _ _ _ _ Hwb Hbe)). cbn [mbind outcome_bind].
      pose proof (at_entry_ok _ _ Hat) as Hki. pose proof (at_entry_ok _ _ Hatb) as Hkb. cbn [fst] in Hki, Hkb.
      destruct (Hbetter ki kb Hki Hkb) as (r0 & -> & Hr0). cbn [mbind outcome_bind].
      destruct r0; [pose proof (proj1 Hr0 eq_refl) as Hl|assert (~ lt ki kb) as Hl by (intros Hl; by apply Hr0 in Hl)].
      * destruct (IH (Some (i, w)) Hcs Hnew) as (r & -> & Hf). exists r. split; [done|].
        apply (found_drop _ i b (ki, vi) (kb, vb)); [done|done| |done]. cbn. intros Hback.
        by eapply (Hirrefl ki Hki), (Htrans ki kb ki).
      * destruct (IH (Some (b, wb)) Hcs Hbest) as (r & -> & Hf). exists r. split; [done|].
        apply found_swap. by apply (found_drop _ b i (kb, vb) (ki, vi)).
    + assert (∀ e, ~ at_entry i e) as Hno by (intros e [_ Hl]; apply lookup_lt_Some in Hl; lia).
      destruct (IH best Hcs Hbest) as (r & -> & Hf). exists r. split; [done|].
      destruct best as [[b wb]|]; [by apply found_swap, found_skip|by apply found_skip].
Qed.

End find.

Lemma numbered_ok ws p : at_positions ws p → Forall (child_ok p) (numbered ws) ∧ map fst (numbered ws) = seq 0 n.
Proof.
  intros [Hlen Hw]. unfold numbered. split.
  - apply Forall_forall. intros [i w] Hin. apply list_elem_of_lookup_1 in Hin as [k Hk]. rewrite list_lookup_imap in Hk.
    destruct (ws !! k) as [w'|] eqn:Hl; [|done]. cbn in Hk. injection Hk as -> ->.
    split; [apply lookup_lt_Some in Hl; cbn; lia|by apply Hw].
  - rewrite <- Hlen. clear. apply list_eq. intros i. change (map fst) with (fmap (M:=list) (fst (A:=nat) (B:=wrapper))).
    rewrite list_lookup_fmap, list_lookup_imap. destruct (ws !! i) as [w|] eqn:Hl; cbn.
    + rewrite lookup_seq_lt; [done|by eapply lookup_lt_Some].
    + rewrite lookup_seq_ge; [done|by apply lookup_ge_None].
Qed.

(** *** The current child *)

Lemma order_total a b : key_ok a → key_ok b → order a b < 0 ∨ a = b ∨ order b a < 0.
Proof.
  intros Ha Hb. destruct (Z.lt_trichotomy (order a b) 0) as [|[Heq|Hgt]]; [by left| |].
  - right. left. by apply order_eq.
  - right. right. by apply order_flip.
Qed.

Lemma FindSmallest_ok this p c :
  at_positions (children_ this) p → cut c p → (c ≤ length M)%nat →
  ∃ current, FindSmallest this = Ok (set_current this current) ∧
    match M !! c with
    | Some e => ∃ i, current = Some i ∧ at_entry p i e
    | None => current = None
    end.
Proof.
  intros Hp Hcut Hc. unfold FindSmallest. destruct (numbered_ok _ _ Hp) as [Hok Hseq].
  destruct (find_child_ok (λ a b, order a b < 0) (λ k k', r ← Compare k k'; Ok (r <? 0)) p) with (cs := numbered (children_ this)) (best := @None (nat * wrapper))
    as (r & -> & Hr).
  { intros a b Ha Hb. rewrite Compare_ok by done. cbn [mbind outcome_bind]. eexists. split; [done|]. apply Z.ltb_lt. }
  { apply order_irrefl. } { apply order_trans. } { apply order_total. } { done. } { done. }
  cbn [mbind outcome_bind]. exists r. split; [done|]. cbn [option_list fmap option_fmap option_map app] in Hr. rewrite Hseq in Hr.
  destruct (M !! c) as [e|] eqn:He.
  - destruct (M_in_child _ _ He) as (i & a & Hi & Ha).
    assert (p i ≤ a)%nat as Hpa by (pose proof (Hcut i a c e Hi Ha He); lia).
    assert (p i < length (E i))%nat as Hlt by (apply lookup_lt_Some in Ha; lia).
    destruct (lookup_lt_is_Some_2 _ _ Hlt) as [ei Hei].
    destruct r as [r|]; [|exfalso; by eapply (Hr i ei); [apply elem_of_seq; lia|]].
    destruct Hr as (_ & er & Her & Hbest). exists r. split; [done|]. destruct Her as [Hrn Her].
    destruct (child_in_M _ _ _ Hi Hei) as [x Hx]. destruct (child_in_M _ _ _ Hrn Her) as [y Hy].
    assert (c ≤ y)%nat as Hcy by (pose proof (Hcut r _ y er Hrn Her Hy); lia).
    assert (x ≤ c)%nat as Hxc by (pose proof (child_position i (p i) a x c _ _ Hi Hei Ha Hx He);
      pose proof (child_position i a (p i) c x _ _ Hi Ha Hei He Hx); lia).
    assert (~ (x < y)%nat) as Hxy.
    { intros Hxy. eapply (Hbest i ei); [apply elem_of_seq; lia|done|]. exact (proj2 (sorted_position M x y _ _ (merged_sorted HM) Hx Hy) Hxy). }
    replace e with er; [done|]. assert (y = c) as -> by lia. congruence.
  - destruct r as [r|]; [|done]. destruct Hr as (_ & er & [Hrn Her] & _).
    destruct (child_in_M _ _ _ Hrn Her) as [y Hy]. apply lookup_ge_None in He.
    pose proof (lookup_lt_Some _ _ _ Hy). pose proof (Hcut r _ y er Hrn Her Hy). lia.
Qed.

(** The positions before those of a cut. *)
Definition priors (p : nat → nat) (i : nat) : nat := prior (length (E i)) (p i).

Lemma priors_entry p i e :
  (p i ≤ length (E i))%nat → E i !! priors p i = Some e → (0 < p i)%nat ∧ priors p i = (p i - 1)%nat.
Proof.
  unfold priors, prior. intros Hp He. destruct (decide (p i = 0)%nat); [|lia].
  apply lookup_lt_Some in He. lia.
Qed.

Lemma FindLargest_ok this p c :
  at_positions (children_ this) (priors p) → cut c p → (∀ i, (i < n)%nat → (p i ≤ length (E i))%nat) → (c ≤ length M)%nat →
  ∃ current, FindLargest this = Ok (set_current this current) ∧
    (c = 0%nat → current = None) ∧
    ∀ e, (0 < c)%nat → M !! (c - 1)%nat = Some e → ∃ i, current = Some i ∧ (0 < p i)%nat ∧ at_entry (priors p) i e.
Proof.
  intros Hp Hcut Hbound Hc. unfold FindLargest. destruct (numbered_ok _ _ Hp) as [Hok Hseq].
  destruct (find_child_ok (λ a b, order b a < 0) (λ k k', r ← Compare k k'; Ok (0 <? r)) (priors p))
    with (cs := rev (numbered (children_ this))) (best := @None (nat * wrapper)) as (r & -> & Hr).
  { intros a b Ha Hb. rewrite Compare_ok by done. cbn [mbind outcome_bind]. eexists. split; [done|].
    rewrite Z.ltb_lt. symmetry. by apply order_flip. }
  { apply order_irrefl. } { intros a b c' Ha Hb Hc' H1 H2. by apply (order_trans c' b a). }
  { intros a b Ha Hb. destruct (order_total a b Ha Hb) as [|[|]]; auto. }
  { by apply Forall_rev. } { done. }
  cbn [mbind outcome_bind]. exists r. split; [done|]. cbn [option_list fmap option_fmap option_map app] in Hr.
  rewrite map_rev, Hseq in Hr.
  assert (∀ j, (j < n)%nat → j ∈ rev (seq 0 n)) as Hall.
  { intros j Hj. apply list_elem_of_In, (proj1 (in_rev _ _)), list_elem_of_In, elem_of_seq. lia. }
  split.
  - intros ->. destruct r as [r|]; [|done]. destruct Hr as (_ & er & [Hrn Her] & _).
    destruct (priors_entry p r er (Hbound r Hrn) Her) as [Hpos Heq]. rewrite Heq in Her.
    destruct (child_in_M _ _ _ Hrn Her) as [y Hy]. pose proof (Hcut r _ y er Hrn Her Hy). lia.
  - intros e Hc0 He. destruct (M_in_child _ _ He) as (i & a & Hi & Ha).
    assert (a < p i)%nat as Hpa by (pose proof (Hcut i a _ e Hi Ha He); lia).
    assert (priors p i = p i - 1)%nat as Hpi by (unfold priors, prior; destruct (decide _); lia).
    destruct (lookup_lt_is_Some_2 (E i) (p i - 1)) as [ei Hei]; [pose proof (Hbound i Hi); lia|].
    assert (at_entry (priors p) i ei) as Hati by (split; [done|by rewrite Hpi]).
    destruct r as [r|]; [|exfalso; by eapply (Hr i ei); [apply Hall|]].
    destruct Hr as (_ & er & [Hrn Her] & Hbest). destruct (priors_entry p r er (Hbound r Hrn) Her) as [Hpos Heq].
    exists r. split; [done|]. split; [done|]. split; [done|]. pose proof Her as Her'. rewrite Heq in Her'.
    destruct (child_in_M _ _ _ Hi Hei) as [x Hx]. destruct (child_in_M _ _ _ Hrn Her') as [y Hy].
    assert (y < c)%nat as Hyc by (pose proof (Hcut r _ y er Hrn Her' Hy); lia).
    assert (c - 1 ≤ x)%nat as Hxc by (pose proof (child_position i (p i - 1) a x (c - 1) _ _ Hi Hei Ha Hx He); lia).
    assert (~ (y < x)%nat) as Hxy.
    { intros Hxy. eapply (Hbest i ei); [by apply Hall|done|]. exact (proj2 (sorted_position M y x _ _ (merged_sorted HM) Hy Hx) Hxy). }
    replace e with er; [done|]. assert (y = c - 1)%nat as -> by lia. congruence.
Qed.

(** *** The relation to positions *)

(** The children are after the entry, or the others before it. *)
Definition sides (d : Direction) (i : nat) (p : nat → nat) (j : nat) : nat :=
  match d with kForward => p j | kReverse => if decide (j = i) then p j else priors p j end.

Definition merging_at (this : MergingIterator I) (c : nat) : Prop :=
  (∃ p i e, cut c p ∧ M !! c = Some e ∧ at_entry p i e ∧ (∀ j, (j < n)%nat → (p j ≤ length (E j))%nat) ∧
     m_current_ this = Some i ∧ at_positions (children_ this) (sides (direction_ this) i p)) ∨
  c = length M ∧ m_current_ this = None ∧ ∃ p, at_positions (children_ this) p.

Lemma merging_positions this c : merging_at this c → ∃ p, at_positions (children_ this) p.
Proof. intros [(p & i & e & _ & _ & _ & _ & _ & Hp)|(_ & _ & Hp)]; [by eexists|done]. Qed.

(** After a search for the smallest child the iterator is at the cut. *)
Lemma FindSmallest_at this p c :
  at_positions (children_ this) p → cut c p → (c ≤ length M)%nat → direction_ this = kForward →
  ∃ this', FindSmallest this = Ok this' ∧ merging_at this' c.
Proof.
  intros Hp Hcut Hc Hd. destruct (FindSmallest_ok this p c Hp Hcut Hc) as (current & -> & Hm).
  eexists. split; [done|]. destruct (M !! c) as [e|] eqn:He.
  - destruct Hm as (i & -> & Hat). left. exists p, i, e. split_and!; try done.
    + intros j Hj. by eapply at_positions_bound.
    + cbn. by rewrite Hd.
  - right. subst current. apply lookup_ge_None in He. split; [lia|]. split; [done|]. by exists p.
Qed.

(** The cut before the current entry. *)
Lemma cut_before c p i e :
  cut c p → M !! (c - 1)%nat = Some e → (0 < c)%nat → (0 < p i)%nat → at_entry (priors p) i e → priors p i = (p i - 1)%nat →
  cut (c - 1) (λ j, if decide (j = i) then p i - 1 else p j)%nat.
Proof.
  intros Hcut He Hc Hpos [Hi Hat] Hpi j a x e' Hj Ha Hx. rewrite Hpi in Hat.
  pose proof (Hcut j a x e' Hj Ha Hx) as Hiff. destruct (decide (j = i)) as [->|Hne].
  - assert (a = p i - 1 ↔ x = c - 1)%nat as Heq.
    { split; intros Heq; subst.
      - replace e' with e in Hx by congruence. by eapply (sorted_inj M); [apply (merged_sorted HM)| |].
      - replace e' with e in Ha by congruence. by eapply (sorted_inj (E i)); [by apply merged_child_sorted| |]. }
    lia.
  - assert (x ≠ c - 1)%nat; [|lia]. intros ->. apply Hne. replace e' with e in Ha by congruence.
    by eapply (child_unique j i a _ e e).
Qed.

(** The cut after the current entry. *)
Lemma cut_after c p i e :
  cut c p → M !! c = Some e → at_entry p i e → cut (S c) (λ j, if decide (j = i) then S (p i) else p j)%nat.
Proof.
  intros Hcut He [Hi Hat] j a x e' Hj Ha Hx. pose proof (Hcut j a x e' Hj Ha Hx) as Hiff.
  destruct (decide (j = i)) as [->|Hne].
  - assert (a = p i ↔ x = c)%nat as Heq.
    { split; intros Heq; subst.
      - replace e' with e in Hx by congruence. by eapply (sorted_inj M); [apply (merged_sorted HM)| |].
      - replace e' with e in Ha by congruence. by eapply (sorted_inj (E i)); [by apply merged_child_sorted| |]. }
    lia.
  - assert (x ≠ c)%nat; [|lia]. intros ->. apply Hne. replace e' with e in Ha by congruence.
    by eapply (child_unique j i a _ e e).
Qed.

Lemma FindLargest_at this p c :
  at_positions (children_ this) (priors p) → cut c p → (∀ i, (i < n)%nat → (p i ≤ length (E i))%nat) → (c ≤ length M)%nat →
  direction_ this = kReverse →
  ∃ this', FindLargest this = Ok this' ∧ merging_at this' (prior (length M) c).
Proof.
  intros Hp Hcut Hbound Hc Hd. destruct (FindLargest_ok this p c Hp Hcut Hbound Hc) as (current & -> & H0' & Hm).
  eexists. split; [done|]. unfold prior. destruct (decide (c = 0)%nat) as [Hz|Hz].
  - right. rewrite (H0' Hz). split; [done|]. split; [done|]. by exists (priors p).
  - destruct (lookup_lt_is_Some_2 M (c - 1)) as [e He]; [lia|].
    destruct (Hm e ltac:(lia) He) as (i & -> & Hpos & Hat). left. pose proof Hat as [Hi Hat'].
    destruct (priors_entry p i e (Hbound i Hi) Hat') as [_ Hpi].
    exists (λ j, if decide (j = i) then p i - 1 else p j)%nat, i, e. split_and!; try done.
    + by apply (cut_before c p i e); try lia.
    + split; [done|]. rewrite decide_True by done. by rewrite <- Hpi.
    + intros j Hj. pose proof (Hbound j Hj). destruct (decide (j = i)) as [->|]; lia.
    + cbn [set_current direction_ m_current_ children_]. rewrite Hd. destruct Hp as [Hlen Hw]. split; [done|].
      intros j w Hj. specialize (Hw j w Hj). unfold sides. destruct (decide (j = i)) as [->|Hne].
      * by rewrite <- Hpi.
      * unfold priors in Hw |- *. by rewrite decide_False by done.
Qed.

(** *** Moving *)

Lemma at_positions_ext ws p q : at_positions ws p → (∀ j, (j < n)%nat → p j = q j) → at_positions ws q.
Proof.
  intros [Hlen Hw] Heq. split; [done|]. intros j w Hj. rewrite <- Heq; [by apply Hw|].
  apply lookup_lt_Some in Hj. lia.
Qed.

Lemma cut_bound c p : cut c p → ∀ j a e, (j < n)%nat → E j !! a = Some e → (a < p j)%nat → ∃ x, M !! x = Some e ∧ (x < c)%nat.
Proof.
  intros Hcut j a e Hj Ha Hlt. destruct (child_in_M _ _ _ Hj Ha) as [x Hx]. exists x. split; [done|].
  by apply (Hcut j a x e Hj Ha Hx).
Qed.

Lemma Merging_SeekToFirst_at this c :
  merging_at this c → ∃ this', Merging_SeekToFirst this = Ok this' ∧ merging_at this' 0%nat.
Proof.
  intros Hat. destruct (merging_positions _ _ Hat) as [p Hp]. unfold Merging_SeekToFirst.
  destruct (for_children_ok (λ _, wrapper_SeekToFirst) _ p (λ _, 0%nat) Hp) as (ws & -> & Hws).
  { intros i w Hi _. apply (wraps_first _ _ (merged_children HM i Hi)). }
  cbn [mbind outcome_bind]. apply (FindSmallest_at _ (λ _, 0%nat)); [done| |lia|done].
  intros i a x e _ _ _. lia.
Qed.

Lemma Merging_SeekToLast_at this c :
  merging_at this c → ∃ this', Merging_SeekToLast this = Ok this' ∧ merging_at this' (length M - 1)%nat.
Proof.
  intros Hat. destruct (merging_positions _ _ Hat) as [p Hp]. unfold Merging_SeekToLast.
  destruct (for_children_ok (λ _, wrapper_SeekToLast) _ p (priors (λ i, length (E i))) Hp) as (ws & -> & Hws).
  { intros i w Hi _. replace (priors _ i) with (length (E i) - 1)%nat.
    - apply (wraps_last _ _ (merged_children HM i Hi)).
    - unfold priors, prior. destruct (decide _); lia. }
  cbn [mbind outcome_bind]. replace (length M - 1)%nat with (prior (length M) (length M))
    by (unfold prior; destruct (decide _); lia).
  apply (FindLargest_at _ (λ i, length (E i))); [done| |done|done|done].
  intros i a x e _ Ha Hx. apply lookup_lt_Some in Ha, Hx. lia.
Qed.

Lemma Merging_Seek_at this c target :
  merging_at this c → key_ok target →
  ∃ this' c', Merging_Seek this target = Ok this' ∧ merging_at this' c' ∧ splits target M c'.
Proof.
  intros Hat Ht. destruct (merging_positions _ _ Hat) as [p Hp]. unfold Merging_Seek.
  destruct (for_children_ok (λ _ child, wrapper_Seek child target) _ p (λ i, lower_bound target (E i)) Hp) as (ws & -> & Hws).
  { intros i w Hi _ Hw. destruct (wraps_seek _ _ (merged_children HM i Hi) w _ target Hw Ht) as (w' & -> & Hw' & _). by exists w'. }
  cbn [mbind outcome_bind]. pose proof (lower_bound_splits target M Ht (merged_sorted HM)) as HsM.
  destruct (FindSmallest_at (set_children_direction this ws kForward) (λ i, lower_bound target (E i)) (lower_bound target M))
    as (this' & E1 & Hat'); [done| |apply lower_bound_length|done|by exists this', (lower_bound target M)].
  intros i a x [k v] Hi Ha Hx. pose proof (lower_bound_splits target (E i) Ht (merged_child_sorted HM i Hi) a k v Ha) as H1.
  pose proof (HsM x k v Hx) as H2. destruct (decide (a < _)%nat), (decide (x < _)%nat); lia.
Qed.

(** The child that the iterator is at. *)
Lemma current_child_ok this p i e :
  at_entry p i e → m_current_ this = Some i → at_positions (children_ this) (sides (direction_ this) i p) →
  ∃ w, current_child this = Ok (i, w) ∧ wraps (E i) (R i) w (p i) ∧ wrapper_key w = Ok e.1 ∧ wrapper_value w = Ok e.2.
Proof.
  intros [Hi He] Hcur Hp. destruct (at_positions_wraps _ _ _ Hp Hi) as (w & Hw & Hwr).
  assert (sides (direction_ this) i p i = p i) as Hs by (unfold sides; destruct (direction_ this); [done|by rewrite decide_True by done]).
  rewrite Hs in Hwr. exists w. unfold current_child. rewrite Hcur, Hw. split; [done|]. split; [done|].
  destruct e as [k v]. exact (wraps_entry _ _ (merged_children HM i Hi) _ _ _ _ Hwr He).
Qed.

(** Seeking the key of the current entry in another child. *)
Lemma seek_current c p i j e w x :
  cut c p → M !! c = Some e → at_entry p i e → (j < n)%nat → (p j ≤ length (E j))%nat →
  wraps (E j) (R j) w x → ∃ w', wrapper_Seek w e.1 = Ok w' ∧ wraps (E j) (R j) w' (p j).
Proof.
  intros Hcut He Hat Hj Hb Hw. pose proof (sorted_ok M c e (merged_sorted HM) He) as Hk.
  destruct (wraps_seek _ _ (merged_children HM j Hj) w x e.1 Hw Hk) as (w' & -> & Hw' & _). exists w'. split; [done|].
  by rewrite (cut_lower_bound c p j e Hcut Hj He Hb).
Qed.

Lemma turn_forward_ok this p c i e :
  cut c p → M !! c = Some e → at_entry p i e → (∀ j, (j < n)%nat → (p j ≤ length (E j))%nat) →
  m_current_ this = Some i → at_positions (children_ this) (sides (direction_ this) i p) →
  ∃ this', turn this kForward turn_forward = Ok this' ∧ direction_ this' = kForward ∧ m_current_ this' = Some i ∧
    at_positions (children_ this') p.
Proof.
  intros Hcut He Hat Hb Hcur Hp. unfold turn. destruct (decide (direction_ this = kForward)) as [Hd|Hd].
  { exists this. split_and!; try done. by rewrite Hd in Hp. }
  destruct (for_children_ok (turn_forward this) _ _ p Hp) as (ws & -> & Hws).
  { intros j w Hj _ Hw. unfold turn_forward. rewrite Hcur. destruct (decide (Some i = Some j)) as [[= <-]|Hne].
    - exists w. split; [done|]. unfold sides in Hw. destruct (direction_ this); [done|]. by rewrite decide_True in Hw by done.
    - destruct (current_child_ok this p i e Hat Hcur Hp) as (wi & Hwi & _ & Hki & _). unfold Merging_key. rewrite Hwi.
      cbn [mbind outcome_bind snd]. rewrite Hki. cbn [mbind outcome_bind].
      destruct (seek_current c p i j e w _ Hcut He Hat Hj (Hb j Hj) Hw) as (w' & -> & Hw'). cbn [mbind outcome_bind].
      exists w'. split; [|done]. rewrite (proj2 (wraps_valid _ _ (merged_children HM j Hj) _ _ Hw')).
      destruct (Nat.ltb_spec (p j) (length (E j))) as [Hlt|]; [|done].
      destruct (lookup_lt_is_Some_2 _ _ Hlt) as [[kj vj] Hej].
      rewrite (proj1 (wraps_entry _ _ (merged_children HM j Hj) _ _ _ _ Hw' Hej)). cbn [mbind outcome_bind].
      pose proof (sorted_ok M c e (merged_sorted HM) He) as Hk.
      pose proof (sorted_ok (E j) _ _ (merged_child_sorted HM j Hj) Hej) as Hkj. cbn [fst] in Hkj.
      rewrite Compare_ok by done. cbn [mbind outcome_bind].
      rewrite (proj2 (Z.eqb_neq _ _)); [done|]. intros Heq. apply order_eq in Heq; [|done|done].
      apply Hne. f_equal. by eapply (child_unique i j _ _ e (kj, vj)); [apply Hat|done|apply Hat|exact Hej|]. }
  cbn [mbind outcome_bind]. eexists. by split_and!.
Qed.

Lemma turn_reverse_ok this p c i e :
  cut c p → M !! c = Some e → at_entry p i e → (∀ j, (j < n)%nat → (p j ≤ length (E j))%nat) →
  m_current_ this = Some i → at_positions (children_ this) (sides (direction_ this) i p) →
  ∃ this', turn this kReverse turn_reverse = Ok this' ∧ direction_ this' = kReverse ∧ m_current_ this' = Some i ∧
    at_positions (children_ this') (sides kReverse i p).
Proof.
  intros Hcut He Hat Hb Hcur Hp. unfold turn. destruct (decide (direction_ this = kReverse)) as [Hd|Hd].
  { exists this. split_and!; try done. by rewrite Hd in Hp. }
  destruct (for_children_ok (turn_reverse this) _ _ (sides kReverse i p) Hp) as (ws & -> & Hws).
  { intros j w Hj _ Hw. unfold turn_reverse, sides. rewrite Hcur.
    destruct (decide (Some i = Some j)) as [[= <-]|Hne].
    - exists w. split; [done|]. rewrite decide_True by done. by destruct (direction_ this).
    - destruct (current_child_ok this p i e Hat Hcur Hp) as (wi & Hwi & _ & Hki & _). unfold Merging_key. rewrite Hwi.
      cbn [mbind outcome_bind snd]. rewrite Hki. cbn [mbind outcome_bind].
      destruct (seek_current c p i j e w _ Hcut He Hat Hj (Hb j Hj) Hw) as (w' & -> & Hw'). cbn [mbind outcome_bind].
      rewrite decide_False by congruence. rewrite (proj2 (wraps_valid _ _ (merged_children HM j Hj) _ _ Hw')).
      destruct (Nat.ltb_spec (p j) (length (E j))) as [Hlt|Hge].
      + by eapply (wraps_prev _ _ (merged_children HM j Hj)).
      + replace (priors p j) with (length (E j) - 1)%nat by (pose proof (Hb j Hj); unfold priors, prior; destruct (decide _); lia).
        by eapply (wraps_last _ _ (merged_children HM j Hj)). }
  cbn [mbind outcome_bind]. eexists. by split_and!.
Qed.

Lemma insert_positions ws p i w x :
  at_positions ws p → (i < n)%nat → wraps (E i) (R i) w x →
  at_positions (<[i := w]> ws) (λ j, if decide (j = i) then x else p j).
Proof.
  intros [Hlen Hw] Hi Hx. split; [by rewrite length_insert|]. intros j v Hj.
  destruct (decide (j = i)) as [->|Hne].
  - rewrite list_lookup_insert_eq in Hj by lia. by injection Hj as <-.
  - rewrite list_lookup_insert_ne in Hj by done. by apply Hw.
Qed.

Lemma Merging_Next_at this c :
  merging_at this c → (c < length M)%nat → ∃ this', Merging_Next this = Ok this' ∧ merging_at this' (S c).
Proof.
  intros [(p & i & e & Hcut & He & Hat & Hb & Hcur & Hp)|(-> & _)] Hc; [|lia]. unfold Merging_Next, Merging_Valid.
  rewrite Hcur. cbn [require mbind outcome_bind].
  destruct (turn_forward_ok this p c i e Hcut He Hat Hb Hcur Hp) as (t & -> & Hd & Hcur' & Hp'). cbn [mbind outcome_bind].
  destruct (current_child_ok t p i e Hat Hcur') as (w & Hw & Hwr & _); [by rewrite Hd|]. pose proof Hat as [Hi Hei].
  unfold move_current. rewrite Hw. cbn [mbind outcome_bind fst snd].
  destruct (wraps_next _ _ (merged_children HM i Hi) w _ Hwr (lookup_lt_Some _ _ _ Hei)) as (w' & -> & Hw'). cbn [mbind outcome_bind].
  eapply FindSmallest_at; [by eapply insert_positions|by eapply cut_after|lia|done].
Qed.

Lemma Merging_Prev_at this c :
  merging_at this c → (c < length M)%nat →
  ∃ this', Merging_Prev this = Ok this' ∧ merging_at this' (prior (length M) c).
Proof.
  intros [(p & i & e & Hcut & He & Hat & Hb & Hcur & Hp)|(-> & _)] Hc; [|lia]. unfold Merging_Prev, Merging_Valid.
  rewrite Hcur. cbn [require mbind outcome_bind].
  destruct (turn_reverse_ok this p c i e Hcut He Hat Hb Hcur Hp) as (t & -> & Hd & Hcur' & Hp'). cbn [mbind outcome_bind].
  destruct (current_child_ok t p i e Hat Hcur') as (w & Hw & Hwr & _); [by rewrite Hd|]. pose proof Hat as [Hi Hei].
  unfold move_current. rewrite Hw. cbn [mbind outcome_bind fst snd].
  destruct (wraps_prev _ _ (merged_children HM i Hi) w _ Hwr (lookup_lt_Some _ _ _ Hei)) as (w' & -> & Hw'). cbn [mbind outcome_bind].
  apply (FindLargest_at _ p); [|done|done|lia|done]. cbn [set_children_direction children_].
  eapply at_positions_ext; [by eapply insert_positions|]. intros j Hj. cbn.
  by destruct (decide (j = i)) as [->|].
Qed.

Lemma children_status_ok ws p : at_positions ws p → children_status ws = status_OK.
Proof.
  intros [Hlen Hw]. assert (∀ k, (∀ i w, ws !! i = Some w → (k + i < n)%nat ∧ wraps (E (k + i)) (R (k + i)) w (p (k + i)%nat)) →
    children_status ws = status_OK) as Hall.
  { clear Hlen Hw. induction ws as [|w ws IH]; intros k Hk; [done|]. cbn [children_status].
    destruct (Hk 0%nat w eq_refl) as [Hi (it & Hit & Hr & _)]. rewrite Hit.
    rewrite (iterates_status _ _ (merged_children HM _ Hi) _ _ Hr). cbn [ok status_OK negb].
    apply (IH (S k)). intros i v Hv. rewrite Nat.add_succ_comm. by apply (Hk (S i)). }
  apply (Hall 0%nat). intros i w Hi. split; [apply lookup_lt_Some in Hi; cbn; lia|by apply Hw].
Qed.

Lemma merging_iterates : @iterates _ _ (MergingIterator I) merging_iterator M merging_at.
Proof.
  split.
  - intros this c [(p & i & e & _ & He & _ & _ & Hcur & _)|(-> & Hcur & _)];
      cbn [Iterator_Valid merging_iterator]; unfold Merging_Valid; rewrite Hcur.
    + apply lookup_lt_Some in He. split; [lia|]. symmetry. by apply Nat.ltb_lt.
    + split; [done|]. by rewrite Nat.ltb_irrefl.
  - intros this c Hat. destruct (merging_positions _ _ Hat) as [p Hp]. by eapply children_status_ok.
  - intros this c key value [(p & i & e & _ & He & Hat & _ & Hcur & Hp)|(-> & _)] Hkv; [|apply lookup_lt_Some in Hkv; lia].
    destruct (current_child_ok this p i e Hat Hcur Hp) as (w & Hw & _ & Hk & Hv). cbn. unfold Merging_key, Merging_value.
    rewrite Hw. cbn [mbind outcome_bind snd]. rewrite Hk, Hv. by replace e with (key, value) by congruence.
  - apply Merging_SeekToFirst_at.
  - apply Merging_SeekToLast_at.
  - apply Merging_Next_at.
  - apply Merging_Prev_at.
  - apply Merging_Seek_at.
Qed.

End refinement.

(** ** Any number of children *)

Section sum.
Context `{ComparatorLaws} {A B : Type} `{!Iterator A} `{!Iterator B} (entries : list (Slice * Slice)).

Definition sum_at (RA : A → nat → Prop) (RB : B → nat → Prop) (it : A + B) (c : nat) : Prop :=
  match it with inl a => RA a c | inr b => RB b c end.

Lemma fmap_ok {X Y} (f : X → Y) (x : X) : f <$> Ok x = Ok (f x).
Proof. done. Qed.

(** An iterator stays of its kind. *)
Lemma inl_iterates (RA : A → nat → Prop) : iterates entries RA → iterates entries (sum_at RA (λ (_ : B) _, False)).
Proof.
  intros HR. split; intros [a|b] c; cbn [sum_at]; try done.
  - apply (iterates_valid _ _ HR).
  - apply (iterates_status _ _ HR).
  - apply (iterates_entry _ _ HR).
  - intros Ha. destruct (iterates_first _ _ HR a c Ha) as (a' & E & Ha'). exists (inl a'). cbn. by rewrite E.
  - intros Ha. destruct (iterates_last _ _ HR a c Ha) as (a' & E & Ha'). exists (inl a'). cbn. by rewrite E.
  - intros Ha Hc. destruct (iterates_next _ _ HR a c Ha Hc) as (a' & E & Ha'). exists (inl a'). cbn. by rewrite E.
  - intros Ha Hc. destruct (iterates_prev _ _ HR a c Ha Hc) as (a' & E & Ha'). exists (inl a'). cbn. by rewrite E.
  - intros target Ha Ht. destruct (iterates_seek _ _ HR a c target Ha Ht) as (a' & c' & E & Ha' & Hs).
    exists (inl a'), c'. cbn. by rewrite E.
Qed.

Lemma inr_iterates (RB : B → nat → Prop) : iterates entries RB → iterates entries (sum_at (λ (_ : A) _, False) RB).
Proof.
  intros HR. split; intros [a|b] c; cbn [sum_at]; try done.
  - apply (iterates_valid _ _ HR).
  - apply (iterates_status _ _ HR).
  - apply (iterates_entry _ _ HR).
  - intros Hb. destruct (iterates_first _ _ HR b c Hb) as (b' & E & Hb'). exists (inr b'). cbn. by rewrite E.
  - intros Hb. destruct (iterates_last _ _ HR b c Hb) as (b' & E & Hb'). exists (inr b'). cbn. by rewrite E.
  - intros Hb Hc. destruct (iterates_next _ _ HR b c Hb Hc) as (b' & E & Hb'). exists (inr b'). cbn. by rewrite E.
  - intros Hb Hc. destruct (iterates_prev _ _ HR b c Hb Hc) as (b' & E & Hb'). exists (inr b'). cbn. by rewrite E.
  - intros target Hb Ht. destruct (iterates_seek _ _ HR b c target Hb Ht) as (b' & c' & E & Hb' & Hs).
    exists (inr b'), c'. cbn. by rewrite E.
Qed.

End sum.

Section any.
Context {I : Type} `{!Iterator I} `{ComparatorLaws}.
Context (n : nat) (E : nat → list (Slice * Slice)) (R : nat → I → nat → Prop) (M : list (Slice * Slice)).
Context (HM : merged n E R M).

Lemma new_MergingIterator_ok its :
  length its = n → (∀ i it, its !! i = Some it → ∃ c, R i it c) →
  ∃ this, new_MergingIterator its = Ok this ∧ merging_at n E R M this (length M).
Proof.
  intros Hlen Hits.
  assert (∀ l k, (∀ i it, l !! i = Some it → (k + i < n)%nat ∧ ∃ c, R (k + i) it c) →
    ∃ ws, set_children l = Ok ws ∧ length ws = length l ∧
      ∀ i w, ws !! i = Some w → ∃ c, wraps (E (k + i)) (R (k + i)) w c) as Hset.
  { induction l as [|it l IH]; intros k Hk; [by exists []|]. cbn [set_children wrapper_Set].
    destruct (Hk 0%nat it eq_refl) as [Hi (c & Hc)].
    destruct (Update_ok _ _ (merged_children _ _ _ _ HM _ Hi) new_IteratorWrapper it c Hc) as (w & -> & Hw). cbn [mbind outcome_bind].
    destruct (IH (S k)) as (ws & -> & Hl & Hws); [intros i v Hv; rewrite Nat.add_succ_comm; by apply (Hk (S i))|].
    cbn [mbind outcome_bind]. eexists. split; [done|]. split; [by cbn; rewrite Hl|].
    intros [|i] v Hv; [injection Hv as <-; by exists c|]. rewrite <- Nat.add_succ_comm. by apply Hws. }
  destruct (Hset its 0%nat) as (ws & Hs & Hl & Hws).
  { intros i it Hi. split; [apply lookup_lt_Some in Hi; cbn; lia|by apply Hits]. }
  unfold new_MergingIterator. rewrite Hs. cbn [mbind outcome_bind]. eexists. split; [done|].
  right. split; [done|]. split; [done|].
  (* the positions, from the list of the children *)
  assert (∀ (l : list (IteratorWrapper I)) k, (∀ i w, l !! i = Some w → ∃ c, wraps (E (k + i)) (R (k + i)) w c) →
    ∃ p, ∀ i w, l !! i = Some w → wraps (E (k + i)) (R (k + i)) w (p (k + i)%nat)) as Hpos.
  { induction l as [|w l IH]; intros k Hk; [by exists (λ _, 0%nat)|]. destruct (Hk 0%nat w eq_refl) as [c Hc].
    destruct (IH (S k)) as [p Hp]; [intros i v Hv; rewrite Nat.add_succ_comm; by apply (Hk (S i))|].
    exists (λ j, if decide (j = k) then c else p j). intros [|i] v Hv.
    - injection Hv as <-. by rewrite decide_True by lia; rewrite Nat.add_0_r in *.
    - rewrite decide_False by lia. rewrite <- Nat.add_succ_comm. by apply Hp. }
  destruct (Hpos ws 0%nat Hws) as [p Hp]. exists p. split; [cbn; lia|exact Hp].
Qed.

(** One sorted list is all there is to merge. *)
Lemma merged_single : n = 1%nat → M = E 0%nat.
Proof.
  intros Hn. assert (∀ e, e ∈ M ↔ e ∈ E 0%nat) as Hiff.
  { intros e. rewrite (merged_elem _ _ _ _ HM). split; [intros (i & Hi & He)|intros He; exists 0%nat; split; [lia|done]].
    by replace i with 0%nat in He by lia. }
  assert (increasing (map fst (E 0%nat))) as HE by (apply (merged_child_sorted _ _ _ _ HM); lia).
  pose proof (merged_sorted _ _ _ _ HM) as HsM.
  assert (∀ l : list (Slice * Slice), increasing (map fst l) → NoDup l) as Hnodup.
  { intros l Hl. apply NoDup_alt. intros i j e Hi Hj. by eapply sorted_inj. }
  assert (∀ l : list (Slice * Slice), increasing (map fst l) → StronglySorted (λ a b, order a.1 b.1 < 0) l) as Hstrong.
  { intros l [_ Hl]. induction l as [|a l IH]; [constructor|]. cbn [map] in Hl. apply StronglySorted_inv in Hl as [Hl Ha].
    constructor; [by apply IH|]. by apply Forall_map in Ha. }
  eapply (StronglySorted_unique_strong (λ a b, order a.1 b.1 < 0)); [|by apply Hstrong|by apply Hstrong|].
  - intros a b Ha Hb Hab Hba. exfalso. apply list_elem_of_lookup_1 in Ha as [i Hi], Hb as [j Hj].
    pose proof (sorted_ok M i a HsM Hi) as Hka. pose proof (sorted_ok (E 0%nat) j b HE Hj) as Hkb.
    exact (order_irrefl _ Hka (order_trans _ _ _ Hka Hkb Hka Hab Hba)).
  - apply NoDup_Permutation; auto.
Qed.

End any.

Lemma NewMergingIterator_ok {I : Type} `{!Iterator I} `{ComparatorLaws} n E R M its :
  merged n E R M → length its = n → (∀ i it, its !! i = Some it → ∃ c, R i it c) →
  ∃ (it : EmptyIterator + (I + MergingIterator I)) RM c, NewMergingIterator its = Ok it ∧ iterates M RM ∧ RM it c.
Proof.
  intros HM Hlen Hits. destruct its as [|it0 [|it1 its]].
  - assert (M = []) as ->.
    { destruct M as [|e M]; [done|]. destruct (proj1 (merged_elem _ _ _ _ HM e) (list_elem_of_here _ _)) as (i & Hi & _).
      cbn in Hlen. lia. }
    eexists _, _, 0%nat. split; [done|]. split; [apply inl_iterates, empty_iterates|done].
  - cbn in Hlen. rewrite (merged_single n E R M HM) by done. destruct (Hits 0%nat it0 eq_refl) as [c Hc].
    eexists _, _, c. split; [done|].
    split; [apply inr_iterates, inl_iterates, (merged_children _ _ _ _ HM); lia|exact Hc].
  - destruct (new_MergingIterator_ok n E R M HM _ Hlen Hits) as (m & Hm & Hat).
    unfold NewMergingIterator. rewrite Hm. cbn [mbind outcome_bind]. eexists _, _, (length M). split; [done|].
    split; [apply inr_iterates, inr_iterates, merging_iterates, HM|exact Hat].
Qed.

(** C17: a merging iterator refines a position in the sorted union of the entries of its
    children, for any number of children (none and one are special cases of the code) that
    behave as iterators over sorted entries with no key in two of them.  It may be moved in
    both directions and turned at any entry. *)
Theorem NewMergingIterator_refines {I : Type} `{!Iterator I} `{ComparatorLaws} n E R M its :
  merged n E R M → length its = n → (∀ i it, its !! i = Some it → ∃ c, R i it c) →
  ∃ (it : EmptyIterator + (I + MergingIterator I)) RM c, NewMergingIterator its = Ok it ∧ iterates M RM ∧ RM it c.
Proof. apply NewMergingIterator_ok. Qed.

(** Three sources, the second one empty. *)
Definition sample_sources (i : nat) : list (Slice * Slice) :=
  match i with
  | O => [([97], [1]); ([100], [2])]
  | 2%nat => [([98], [3]); ([99], []); ([101], [4])]
  | _ => []
  end.

Definition sample_merged : list (Slice * Slice) :=
  [([97], [1]); ([98], [3]); ([99], []); ([100], [2]); ([101], [4])].

Lemma NewMergingIterator_refines_witness :
  ∃ (it : EmptyIterator + (Cursor + MergingIterator Cursor)) RM c,
    NewMergingIterator (map (λ i, new_Cursor (sample_sources i)) (seq 0 3)) = Ok it ∧
    iterates sample_merged RM ∧ RM it c.
Proof.
  apply (NewMergingIterator_refines 3 sample_sources (λ i, on_list (sample_sources i))).
  - split.
    + intros i _. apply cursor_iterates. destruct i as [|[|[|i]]]; by split; repeat constructor.
    + by split; repeat constructor.
    + intros i _. destruct i as [|[|[|i]]]; by split; repeat constructor.
    + intros e. split.
      * intros He. list_cases He; [exists 0%nat|exists 2%nat|exists 2%nat|exists 0%nat|exists 2%nat]; (split; [lia|]); cbn; set_solver.
      * intros (i & Hi & He). destruct i as [|[|[|i]]]; [| | |lia]; cbn in He; list_cases He; cbn; set_solver.
    + intros i j k v v' Hi Hj Hv Hv'.
      destruct i as [|[|[|i]]], j as [|[|[|j]]]; try done; try lia; cbn in Hv, Hv'; list_cases Hv; list_cases Hv'.
  - done.
  - intros i it Hi. destruct i as [|[|[|i]]]; cbn in Hi; simplify_eq; eexists; by apply new_Cursor_ok.
Defined.
