(* ===== verification/LdbDbIter.v ===== *)
(** * LevelDB, db/db_iter: the iterator of the user

    Over any iterator of internal keys: one entry per user key, the latest up to a
    sequence number, without the deleted ones, forwards and backwards. *)

From S2P Require Import Prelude LdbCoding LdbEnv LdbOrder LdbIter LdbFormat LdbSkip LdbMem LdbMerge.

Definition kReadBytesPeriod : Z := 1048576.

Section dbiter.
Context `{user_comparator : Comparator} {I : Type} `{!Iterator I} {DB : Type}.

(** What [db_->RecordReadSample] does to the database, and the rounds that the loops may take. *)
Context (RecordReadSample : DB → Slice → DB) (rounds : nat).

(** The fields that [ParseKey] samples with. *)
Record Sampling : Type := { db_ : DB; sampling_rnd_ : Random; bytes_until_read_sampling_ : Z }.

Record DBIter : Type := {
  dbi_iter_ : I; dbi_sequence_ : Z; dbi_status_ : Status; saved_key_ : list Z; saved_value_ : list Z;
  dbi_direction_ : Direction; dbi_valid_ : bool; sampling_ : Sampling
}.

Definition RandomCompactionPeriod (rnd : Random) : Z * Random := Uniform rnd (2 * kReadBytesPeriod).

Definition new_DBIter (db : DB) (iter : I) (s seed : Z) : DBIter :=
  let '(period, rnd) := RandomCompactionPeriod (new_Random seed) in
  {| dbi_iter_ := iter; dbi_sequence_ := s; dbi_status_ := status_OK; saved_key_ := []; saved_value_ := [];
     dbi_direction_ := kForward; dbi_valid_ := false;
     sampling_ := {| db_ := db; sampling_rnd_ := rnd; bytes_until_read_sampling_ := period |} |}.

Definition set_dbi_iter (this : DBIter) (iter : I) : DBIter :=
  {| dbi_iter_ := iter; dbi_sequence_ := dbi_sequence_ this; dbi_status_ := dbi_status_ this;
     saved_key_ := saved_key_ this; saved_value_ := saved_value_ this; dbi_direction_ := dbi_direction_ this;
     dbi_valid_ := dbi_valid_ this; sampling_ := sampling_ this |}.
Definition set_dbi_status (this : DBIter) (status : Status) : DBIter :=
  {| dbi_iter_ := dbi_iter_ this; dbi_sequence_ := dbi_sequence_ this; dbi_status_ := status;
     saved_key_ := saved_key_ this; saved_value_ := saved_value_ this; dbi_direction_ := dbi_direction_ this;
     dbi_valid_ := dbi_valid_ this; sampling_ := sampling_ this |}.
Definition set_saved (this : DBIter) (key value : list Z) : DBIter :=
  {| dbi_iter_ := dbi_iter_ this; dbi_sequence_ := dbi_sequence_ this; dbi_status_ := dbi_status_ this;
     saved_key_ := key; saved_value_ := value; dbi_direction_ := dbi_direction_ this;
     dbi_valid_ := dbi_valid_ this; sampling_ := sampling_ this |}.
Definition set_dbi_direction (this : DBIter) (d : Direction) : DBIter :=
  {| dbi_iter_ := dbi_iter_ this; dbi_sequence_ := dbi_sequence_ this; dbi_status_ := dbi_status_ this;
     saved_key_ := saved_key_ this; saved_value_ := saved_value_ this; dbi_direction_ := d;
     dbi_valid_ := dbi_valid_ this; sampling_ := sampling_ this |}.
Definition set_valid (this : DBIter) (valid : bool) : DBIter :=
  {| dbi_iter_ := dbi_iter_ this; dbi_sequence_ := dbi_sequence_ this; dbi_status_ := dbi_status_ this;
     saved_key_ := saved_key_ this; saved_value_ := saved_value_ this; dbi_direction_ := dbi_direction_ this;
     dbi_valid_ := valid; sampling_ := sampling_ this |}.
Definition set_sampling (this : DBIter) (sampling : Sampling) : DBIter :=
  {| dbi_iter_ := dbi_iter_ this; dbi_sequence_ := dbi_sequence_ this; dbi_status_ := dbi_status_ this;
     saved_key_ := saved_key_ this; saved_value_ := saved_value_ this; dbi_direction_ := dbi_direction_ this;
     dbi_valid_ := dbi_valid_ this; sampling_ := sampling |}.

(** [saved_key_ = key]; the capacity of [saved_value_], which is not modelled, decides only
    how it is cleared. *)
Definition SaveKey (this : DBIter) (key : list Z) : DBIter := set_saved this key (saved_value_ this).
Definition ClearSavedValue (this : DBIter) : DBIter := set_saved this (saved_key_ this) [].

(** [iter_->move()] *)
Definition move_iter (move : I → outcome I) (this : DBIter) : outcome DBIter :=
  it ← move (dbi_iter_ this); Ok (set_dbi_iter this it).

Definition iter_valid (this : DBIter) : bool := Iterator_Valid (dbi_iter_ this).

(** [ExtractUserKey(iter_->key())] *)
Definition iter_user_key (this : DBIter) : outcome Slice := k ← Iterator_key (dbi_iter_ this); ExtractUserKey k.

Fixpoint sample_loop (fuel : nat) (k : Slice) (bytes_read : Z) (this : Sampling) : outcome Sampling :=
  match fuel with
  | O => Fault Diverges
  | S fuel =>
      if bytes_until_read_sampling_ this <? bytes_read then
        let '(period, rnd) := RandomCompactionPeriod (sampling_rnd_ this) in
        sample_loop fuel k bytes_read
          {| db_ := RecordReadSample (db_ this) k; sampling_rnd_ := rnd;
             bytes_until_read_sampling_ := u64 (bytes_until_read_sampling_ this + period) |}
      else Ok this
  end.

(** Of two periods one at least is positive. *)
Definition ParseKey (this : DBIter) : outcome (option ParsedInternalKey * DBIter) :=
  k ← Iterator_key (dbi_iter_ this);
  v ← Iterator_value (dbi_iter_ this);
  let bytes_read := u64 (len k + len v) in
  s ← sample_loop (Z.to_nat (2 * bytes_read + 2)) k bytes_read (sampling_ this);
  _ ← require (bytes_read <=? bytes_until_read_sampling_ s) OutOfBounds;
  let this := set_sampling this {| db_ := db_ s; sampling_rnd_ := sampling_rnd_ s;
    bytes_until_read_sampling_ := u64 (bytes_until_read_sampling_ s - bytes_read) |} in
  parsed ← ParseInternalKey k;
  match parsed with
  | None => Ok (None, set_dbi_status this (Corruption (text "corrupted internal key in DBIter") []))
  | Some ikey => Ok (Some ikey, this)
  end.

(** One entry of the forward loop: the entry to yield, or whether to skip. *)
Definition examine_next (skipping : bool) (ikey : option ParsedInternalKey) (this : DBIter) :
    outcome (option bool * DBIter) :=
  match ikey with
  | None => Ok (Some skipping, this)
  | Some ikey =>
      if pk_sequence ikey <=? dbi_sequence_ this then
        if pk_type ikey =? kTypeDeletion then Ok (Some true, SaveKey this (pk_user_key ikey))
        else if pk_type ikey =? kTypeValue then
          hidden ← (if skipping then c ← Compare (pk_user_key ikey) (saved_key_ this); Ok (c <=? 0) else Ok false);
          if hidden : bool then Ok (Some skipping, this) else Ok (None, SaveKey (set_valid this true) [])
        else Ok (Some skipping, this)
      else Ok (Some skipping, this)
  end.

(** [skip] is [saved_key_] in every call. *)
Fixpoint FindNextUserEntry_loop (fuel : nat) (skipping : bool) (this : DBIter) : outcome DBIter :=
  match fuel with
  | O => Fault Diverges
  | S fuel =>
      r ← ParseKey this;
      s ← examine_next skipping r.1 r.2;
      match s.1 with
      | None => Ok s.2
      | Some skipping =>
          this ← move_iter Iterator_Next s.2;
          if iter_valid this then FindNextUserEntry_loop fuel skipping this
          else Ok (set_valid (SaveKey this []) false)
      end
  end.

Definition FindNextUserEntry (skipping : bool) (this : DBIter) : outcome DBIter :=
  _ ← require (iter_valid this) OutOfBounds;
  _ ← require (bool_decide (dbi_direction_ this = kForward)) OutOfBounds;
  FindNextUserEntry_loop rounds skipping this.

Definition DBIter_Next (this : DBIter) : outcome DBIter :=
  _ ← require (dbi_valid_ this) OutOfBounds;
  if bool_decide (dbi_direction_ this = kReverse) then
    let this := set_dbi_direction this kForward in
    this ← move_iter (if iter_valid this then Iterator_Next else Iterator_SeekToFirst) this;
    if iter_valid this then FindNextUserEntry true this
    else Ok (SaveKey (set_valid this false) [])
  else
    key ← iter_user_key this;
    FindNextUserEntry true (SaveKey this key).

(** One entry of the backward loop: [None] to stop before it. *)
Definition examine_prev (value_type : Z) (ikey : option ParsedInternalKey) (this : DBIter) :
    outcome (option Z * DBIter) :=
  match ikey with
  | None => Ok (Some value_type, this)
  | Some ikey =>
      if pk_sequence ikey <=? dbi_sequence_ this then
        before ← (if negb (value_type =? kTypeDeletion)
                  then c ← Compare (pk_user_key ikey) (saved_key_ this); Ok (c <? 0) else Ok false);
        if before : bool then Ok (None, this)
        else if pk_type ikey =? kTypeDeletion then Ok (Some (pk_type ikey), set_saved this [] [])
        else
          value ← Iterator_value (dbi_iter_ this);
          key ← iter_user_key this;
          Ok (Some (pk_type ikey), set_saved this key value)
      else Ok (Some value_type, this)
  end.

(** The loop returns the type that decides. *)
Fixpoint FindPrevUserEntry_loop (fuel : nat) (value_type : Z) (this : DBIter) : outcome (Z * DBIter) :=
  match fuel with
  | O => Fault Diverges
  | S fuel =>
      r ← ParseKey this;
      s ← examine_prev value_type r.1 r.2;
      match s.1 with
      | None => Ok (value_type, s.2)
      | Some value_type =>
          this ← move_iter Iterator_Prev s.2;
          if iter_valid this then FindPrevUserEntry_loop fuel value_type this else Ok (value_type, this)
      end
  end.

Definition FindPrevUserEntry (this : DBIter) : outcome DBIter :=
  _ ← require (bool_decide (dbi_direction_ this = kReverse)) OutOfBounds;
  r ← (if iter_valid this then FindPrevUserEntry_loop rounds kTypeDeletion this else Ok (kTypeDeletion, this));
  let '(value_type, this) := r in
  if value_type =? kTypeDeletion
  then Ok (set_dbi_direction (set_saved (set_valid this false) [] []) kForward)
  else Ok (set_valid this true).

(** The loop that leaves the entries of [saved_key_] backwards: false when there is nothing before. *)
Fixpoint leave_key (fuel : nat) (this : DBIter) : outcome (bool * DBIter) :=
  match fuel with
  | O => Fault Diverges
  | S fuel =>
      this ← move_iter Iterator_Prev this;
      if iter_valid this then
        key ← iter_user_key this;
        c ← Compare key (saved_key_ this);
        if c <? 0 then Ok (true, this) else leave_key fuel this
      else Ok (false, this)
  end.

Definition DBIter_Prev (this : DBIter) : outcome DBIter :=
  _ ← require (dbi_valid_ this) OutOfBounds;
  if bool_decide (dbi_direction_ this = kForward) then
    _ ← require (iter_valid this) OutOfBounds;
    key ← iter_user_key this;
    r ← leave_key rounds (SaveKey this key);
    if r.1 : bool then FindPrevUserEntry (set_dbi_direction r.2 kReverse)
    else Ok (set_saved (set_valid r.2 false) [] [])
  else FindPrevUserEntry this.

Definition DBIter_Seek (this : DBIter) (target : Slice) : outcome DBIter :=
  let this := set_saved (set_dbi_direction this kForward) [] [] in
  key ← AppendInternalKey (saved_key_ this)
    {| pk_user_key := target; pk_sequence := dbi_sequence_ this; pk_type := kValueTypeForSeek |};
  this ← move_iter (λ it, Iterator_Seek it key) (SaveKey this key);
  if iter_valid this then FindNextUserEntry false this else Ok (set_valid this false).

Definition DBIter_SeekToFirst (this : DBIter) : outcome DBIter :=
  this ← move_iter Iterator_SeekToFirst (ClearSavedValue (set_dbi_direction this kForward));
  if iter_valid this then FindNextUserEntry false this else Ok (set_valid this false).

Definition DBIter_SeekToLast (this : DBIter) : outcome DBIter :=
  this ← move_iter Iterator_SeekToLast (ClearSavedValue (set_dbi_direction this kReverse));
  FindPrevUserEntry this.

Definition DBIter_key (this : DBIter) : outcome Slice :=
  _ ← require (dbi_valid_ this) OutOfBounds;
  if bool_decide (dbi_direction_ this = kForward) then iter_user_key this else Ok (saved_key_ this).

Definition DBIter_value (this : DBIter) : outcome Slice :=
  _ ← require (dbi_valid_ this) OutOfBounds;
  if bool_decide (dbi_direction_ this = kForward) then Iterator_value (dbi_iter_ this) else Ok (saved_value_ this).

Definition DBIter_status (this : DBIter) : Status :=
  if ok (dbi_status_ this) then Iterator_status (dbi_iter_ this) else dbi_status_ this.

Definition db_iterator : Iterator DBIter := {|
  Iterator_Valid := dbi_valid_;
  Iterator_SeekToFirst := DBIter_SeekToFirst;
  Iterator_SeekToLast := DBIter_SeekToLast;
  Iterator_Seek := DBIter_Seek;
  Iterator_Next := DBIter_Next;
  Iterator_Prev := DBIter_Prev;
  Iterator_key := DBIter_key;
  Iterator_value := DBIter_value;
  Iterator_status := DBIter_status
|}.

End dbiter.

Arguments Sampling DB : clear implicits.
Arguments DBIter I DB : clear implicits.

(** ** Sampling *)

Definition seed_ok (r : Random) : Prop := 1 ≤ seed_ r < 2147483647.

Lemma new_Random_ok s : seed_ok (new_Random s).
Proof.
  unfold new_Random, seed_ok. cbn [seed_]. pose proof (Z.land_ones s 31 ltac:(lia)) as E.
  change (Z.ones 31) with 0x7fffffff in E. rewrite E. pose proof (Z.mod_pos_bound s (2 ^ 31) ltac:(lia)) as Hb.
  destruct (Z.eqb_spec (s mod 2 ^ 31) 0) as [|H0]; cbn [orb]; [lia|].
  destruct (Z.eqb_spec (s mod 2 ^ 31) 2147483647); lia.
Qed.

(** After a period of zero comes a positive one: a seed that is a multiple of 2^21 is
    followed by one that is not. *)
Lemma RandomCompactionPeriod_ok r :
  seed_ok r →
  0 ≤ (RandomCompactionPeriod r).1 < 2 ^ 21 ∧ seed_ok (RandomCompactionPeriod r).2 ∧
  ((RandomCompactionPeriod r).1 = 0 → 0 < (RandomCompactionPeriod (RandomCompactionPeriod r).2).1).
Proof.
  intros Hr. unfold RandomCompactionPeriod, Uniform. change (2 * kReadBytesPeriod) with (2 ^ 21).
  pose proof (Random_Next_mod r Hr) as (E1 & Hb1 & Es1). destruct (Random_Next r) as [v1 r1]. cbn [fst snd] in *.
  assert (seed_ok r1) as Hr1 by (unfold seed_ok; lia).
  pose proof (Random_Next_mod r1 Hr1) as (E2 & Hb2 & _). destruct (Random_Next r1) as [v2 r2]. cbn [fst snd] in *.
  split; [apply Z.mod_pos_bound; lia|]. split; [done|]. intros Hz.
  pose proof (Z.mod_pos_bound v2 (2 ^ 21) ltac:(lia)) as Hv2. destruct (Z.eq_dec (v2 mod 2 ^ 21) 0) as [Hz2|]; [|lia]. exfalso.
  rewrite Es1 in E2. apply Z.mod_divide in Hz as [k Hk]; [|lia]. set (q := 16807 * k / 1024). set (t := 16807 * k mod 1024).
  assert (16807 * k = 1024 * q + t) as Hdiv by (apply Z.div_mod; lia). assert (0 ≤ t < 1024) as Ht by (apply Z.mod_pos_bound; lia).
  assert (v1 * 16807 = q + t * 2 ^ 21 + q * 2147483647) as Ev by (rewrite Hk; lia).
  assert (v2 = q + t * 2 ^ 21) as -> by (rewrite E2, Ev, Z.mod_add by lia; apply Z.mod_small; lia).
  rewrite Z.mod_add in Hz2 by lia. rewrite Z.mod_small in Hz2 by lia. lia.
Qed.

Section sampling.
Context {DB : Type} (RecordReadSample : DB → Slice → DB).

Definition sampling_ok (s : Sampling DB) : Prop :=
  0 ≤ bytes_until_read_sampling_ s < 2 ^ 40 ∧ seed_ok (sampling_rnd_ s).

Lemma sample_loop_ok fuel k n s :
  sampling_ok s → n < 2 ^ 34 →
  2 * Z.max 0 (n - bytes_until_read_sampling_ s) +
    (if (RandomCompactionPeriod (sampling_rnd_ s)).1 =? 0 then 1 else 0) < Z.of_nat fuel →
  ∃ s', sample_loop RecordReadSample fuel k n s = Ok s' ∧ sampling_ok s' ∧ n ≤ bytes_until_read_sampling_ s'.
Proof.
  intros Hs Hn. revert s Hs. induction fuel as [|fuel IH]; intros s [Hb Hr] Hf; [destruct (_ =? 0) in Hf; lia|].
  cbn [sample_loop]. destruct (Z.ltb_spec (bytes_until_read_sampling_ s) n) as [Hlt|Hge]; [|by exists s].
  destruct (RandomCompactionPeriod_ok (sampling_rnd_ s) Hr) as (Hp & Hr' & Hnext).
  destruct (RandomCompactionPeriod (sampling_rnd_ s)) as [period rnd]. cbn [fst snd] in *.
  rewrite wrap_small by (unfold in_width; lia). apply IH.
  - split; [cbn; lia|done].
  - cbn [bytes_until_read_sampling_ sampling_rnd_]. destruct (Z.eqb_spec period 0) as [->|Hpos].
    + specialize (Hnext eq_refl). rewrite (proj2 (Z.eqb_neq _ _)) by lia. lia.
    + destruct (_ =? 0); lia.
Qed.

End sampling.

(** ** What a user sees *)

Section view.
Context `{ComparatorLaws}.

(** The writes in the order of their internal keys, and the sequence number of the reader. *)
Context (W : list write) (s : Z).

(** The latest visible write to a key comes first among the visible ones. *)
Definition seen (i : nat) (w : write) : Prop := W !! i = Some w ∧ w_seq w ≤ s.

Definition live (i : nat) (w : write) : Prop :=
  seen i w ∧ w_type w = kTypeValue ∧ ∀ j w', (j < i)%nat → seen j w' → w_key w' ≠ w_key w.

Definition live_b (i : nat) : bool :=
  match W !! i with
  | Some w => (w_seq w <=? s) && (w_type w =? kTypeValue) &&
      negb (existsb (λ w', (w_seq w' <=? s) && bool_decide (w_key w' = w_key w)) (take i W))
  | None => false
  end.

Definition live_indices : list nat := filter (λ i, live_b i = true) (seq 0 (length W)).

Definition pair_at (i : nat) : Slice * Slice :=
  match W !! i with Some w => (w_key w, w_value w) | None => ([], []) end.

(** The keys that are not deleted, with their latest values. *)
Definition view : list (Slice * Slice) := map pair_at live_indices.

Lemma live_b_live i : live_b i = true ↔ ∃ w, live i w.
Proof.
  unfold live_b, live, seen. destruct (W !! i) as [w|] eqn:E; [|split; [done|by intros (w & [[= ?] _] & _)]].
  rewrite !andb_true_iff, Z.leb_le, Z.eqb_eq, negb_true_iff, <- not_true_iff_false, existsb_exists. split.
  - intros [[Hs Ht] Hn]. exists w. split; [done|]. split; [done|]. intros j w' Hj [Hw' Hs'] Hk. apply Hn. exists w'. split.
    + apply list_elem_of_In, (list_elem_of_lookup_2 _ j). by rewrite lookup_take_lt.
    + rewrite andb_true_iff, Z.leb_le, bool_decide_eq_true. done.
  - intros (w0 & [[= <-] Hs] & Ht & Hn). split; [done|]. intros (w' & Hin & Hx). rewrite andb_true_iff, Z.leb_le, bool_decide_eq_true in Hx.
    apply list_elem_of_In, list_elem_of_lookup_1 in Hin as [j Hj]. pose proof (lookup_lt_Some _ _ _ Hj) as Hlt.
    rewrite length_take in Hlt. rewrite lookup_take_lt in Hj by lia. apply (Hn j w'); [lia|split; [done|apply Hx]|apply Hx].
Qed.

Lemma live_unique i w w' : live i w → live i w' → w = w'.
Proof. intros [[H1 _] _] [[H2 _] _]. congruence. Qed.

Lemma live_seen i w w' : live i w → seen i w' → w = w'.
Proof. intros [[H1 _] _] [H2 _]. congruence. Qed.

Lemma live_indices_in i : i ∈ live_indices ↔ ∃ w, live i w.
Proof.
  unfold live_indices. rewrite list_elem_of_filter, live_b_live, elem_of_seq. split; [tauto|]. intros [w Hw]. split; [by exists w|].
  destruct Hw as [[Hi _] _]. apply lookup_lt_Some in Hi. lia.
Qed.

Lemma live_indices_sorted c c' i i' :
  live_indices !! c = Some i → live_indices !! c' = Some i' → (c < c')%nat → (i < i')%nat.
Proof.
  assert (∀ m k, StronglySorted lt (filter (λ i, live_b i = true) (seq m k))) as Hs.
  { intros m k. revert m. induction k as [|k IH]; intros m; [constructor|]. cbn [seq].
    destruct (decide (live_b m = true)) as [Hd|Hd]; [rewrite filter_cons_True by done|rewrite filter_cons_False by done]; [|apply IH].
    constructor; [apply IH|]. apply Forall_forall. intros x Hx. apply list_elem_of_filter in Hx as [_ Hx]. apply elem_of_seq in Hx. lia. }
  specialize (Hs 0%nat (length W)). fold live_indices in Hs. revert c c'.
  induction Hs as [|x xs Hs IH Hx]; intros c c' Hc Hc' Hlt; [done|]. destruct c' as [|c']; [lia|]. destruct c as [|c]; cbn in Hc, Hc'.
  - injection Hc as ->. exact (proj1 (Forall_forall _ _) Hx i' (list_elem_of_lookup_2 _ _ _ Hc')).
  - apply (IH c c'); [done|done|lia].
Qed.

(** Comparing positions in the view and in the writes. *)
Lemma live_position c c' i i' :
  live_indices !! c = Some i → live_indices !! c' = Some i' → (i' < i)%nat ↔ (c' < c)%nat.
Proof.
  intros Hc Hc'. split; intros Hlt; [|by eapply live_indices_sorted].
  destruct (lt_eq_lt_dec c c') as [[Hl|Heq]|Hg]; [| |done].
  - pose proof (live_indices_sorted c c' i i' Hc Hc' Hl). lia.
  - subst c'. rewrite Hc in Hc'. injection Hc' as ->. lia.
Qed.

Lemma live_lookup c i w : live_indices !! c = Some i → live i w → view !! c = Some (w_key w, w_value w).
Proof.
  intros Hc [[Hw _] _]. unfold view. rewrite list_lookup_fmap, Hc. cbn. unfold pair_at. by rewrite Hw.
Qed.

Lemma live_at c i : live_indices !! c = Some i → ∃ w, live i w.
Proof. intros Hc. apply live_indices_in. by eapply list_elem_of_lookup_2. Qed.

Lemma length_view : length view = length live_indices.
Proof. apply length_map. Qed.

(** *** The order of the writes *)

Context (HW : Forall write_ok W) (Hsorted : @increasing _ internal_laws (map fst (map entry_of W))).

Lemma W_ok i w : W !! i = Some w → write_ok w.
Proof. intros Hi. exact (proj1 (Forall_forall _ _) HW w (list_elem_of_lookup_2 _ _ _ Hi)). Qed.

Lemma W_key_ok i w : W !! i = Some w → key_ok (w_key w).
Proof. intros Hi. apply (W_ok i w Hi). Qed.

Lemma W_order i j a b :
  (i < j)%nat → W !! i = Some a → W !! j = Some b →
  order (w_key a) (w_key b) < 0 ∨ w_key a = w_key b ∧ w_seq b ≤ w_seq a.
Proof.
  intros Hlt Hi Hj. pose proof (W_ok i a Hi) as Ha. pose proof (W_ok j b Hj) as Hb.
  destruct (write_parts a Ha) as (Hia & Eua & Ena & _), (write_parts b Hb) as (Hib & Eub & Enb & _).
  assert (internal_order (entry_of a).1 (entry_of b).1 < 0) as Ho.
  { apply (@increasing_lookup _ internal_laws (map fst (map entry_of W)) i j);
      [done|by rewrite !list_lookup_fmap, Hi|by rewrite !list_lookup_fmap, Hj|done]. }
  apply internal_order_spec in Ho; [|done|done]. rewrite Eua, Eub, Ena, Enb in Ho.
  destruct Ha as (_ & _ & Ha & _), Hb as (_ & _ & Hb & _). unfold kValueTypeForSeek, kTypeValue in *.
  destruct Ho as [Ho|[Hk Ho]]; [by left|right]. split; [done|]. lia.
Qed.

Lemma W_key_order i j a b : (i ≤ j)%nat → W !! i = Some a → W !! j = Some b → order (w_key a) (w_key b) ≤ 0.
Proof.
  intros Hle Hi Hj. destruct (decide (i = j)) as [->|Hne].
  - rewrite Hi in Hj. injection Hj as ->. rewrite order_refl; [lia|by eapply W_key_ok].
  - destruct (W_order i j a b) as [?|[Hk _]]; [lia|done|done|lia|]. rewrite Hk, order_refl; [lia|by eapply W_key_ok].
Qed.

(** The view is sorted by key. *)
Lemma live_keys i i' w w' : live i w → live i' w' → (i < i')%nat ↔ order (w_key w) (w_key w') < 0.
Proof.
  intros Hl Hl'. pose proof Hl as [[Hi Hs] [_ _]]. pose proof Hl' as [[Hi' Hs'] [_ Hn']]. split.
  - intros Hlt. pose proof (W_key_order i i' w w' ltac:(lia) Hi Hi') as Hle. specialize (Hn' i w Hlt (conj Hi Hs)).
    destruct (Z.eq_dec (order (w_key w) (w_key w')) 0) as [E|]; [|lia].
    apply order_eq in E; [done|by eapply W_key_ok|by eapply W_key_ok].
  - intros Hlt. destruct (decide (i < i')%nat) as [|Hge]; [done|exfalso].
    pose proof (W_key_order i' i w' w ltac:(lia) Hi' Hi) as Hle. apply order_flip in Hlt; [lia|by eapply W_key_ok|by eapply W_key_ok].
Qed.

Lemma view_increasing : increasing (map fst view).
Proof.
  unfold view. rewrite map_map. split.
  - apply Forall_map, Forall_forall. intros i Hi. apply live_indices_in in Hi as [w [[Hw _] _]].
    unfold pair_at. rewrite Hw. by eapply W_key_ok.
  - apply sorted_from_lookup. intros c c' a b Hlt Ha Hb. rewrite list_lookup_fmap in Ha, Hb.
    destruct (live_indices !! c) as [i|] eqn:Hc; [|done]. destruct (live_indices !! c') as [i'|] eqn:Hc'; [|done].
    injection Ha as <-. injection Hb as <-. destruct (live_at c i Hc) as [w Hw]. destruct (live_at c' i' Hc') as [w' Hw'].
    pose proof (proj1 (live_keys i i' w w' Hw Hw') (live_indices_sorted c c' i i' Hc Hc' Hlt)) as Ho.
    destruct Hw as [[Hw _] _], Hw' as [[Hw' _] _]. unfold pair_at. by rewrite Hw, Hw'.
Qed.

End view.

(** ** The iterator refines the view *)

Section refines.
Context `{ComparatorLaws} {I : Type} `{!Iterator I} {DB : Type} (RecordReadSample : DB → Slice → DB) (rounds : nat).
Context (W : list write) (s : Z) (R : I → nat → Prop).
Context (HW : Forall write_ok W) (Hsorted : @increasing _ internal_laws (map fst (map entry_of W))).
Context (HR : @iterates _ internal_laws I _ (map entry_of W) R).
Context (Hs : 0 ≤ s ≤ kMaxSequenceNumber) (Hrounds : (length W < rounds)%nat).

Implicit Types (this : DBIter I DB).
#[local] Abbreviation seen := (seen W s).
#[local] Abbreviation live := (live W s).
#[local] Abbreviation idx := (live_indices W s).
#[local] Abbreviation n := (length W).

(** What stays as it is. *)
Definition keeps this (d : Direction) : Prop :=
  dbi_sequence_ this = s ∧ dbi_status_ this = status_OK ∧ sampling_ok (sampling_ this) ∧ dbi_direction_ this = d.

Lemma R_bound it p : R it p → (p ≤ n)%nat ∧ Iterator_Valid it = (p <? n)%nat.
Proof. intros Hp. pose proof (iterates_valid _ _ HR it p Hp) as Hv. by rewrite length_map in Hv. Qed.

Lemma R_entry it p w :
  R it p → W !! p = Some w → Iterator_key it = Ok (packed_key (w_key w) (w_seq w) (w_type w)) ∧ Iterator_value it = Ok (w_value w).
Proof. intros Hp Hw. apply (iterates_entry _ _ HR it p _ _ Hp). by rewrite list_lookup_fmap, Hw. Qed.

Lemma iter_user_key_ok this p w : R (dbi_iter_ this) p → W !! p = Some w → iter_user_key this = Ok (w_key w).
Proof.
  intros Hp Hw. unfold iter_user_key. rewrite (proj1 (R_entry _ p w Hp Hw)). cbn [mbind outcome_bind].
  destruct (write_parts w (W_ok W HW p w Hw)) as ((Hl & _) & Eu & _). rewrite ExtractUserKey_ok by done. f_equal. exact Eu.
Qed.

Lemma ParseKey_ok this p w :
  sampling_ok (sampling_ this) → R (dbi_iter_ this) p → W !! p = Some w →
  ∃ sm, sampling_ok sm ∧ ParseKey RecordReadSample this =
    Ok (Some {| pk_user_key := w_key w; pk_sequence := w_seq w; pk_type := w_type w |}, set_sampling this sm).
Proof.
  intros Hsm Hp Hw. pose proof (W_ok W HW p w Hw) as Hwok. destruct (R_entry _ p w Hp Hw) as [Ek Ev]. unfold ParseKey. rewrite Ek, Ev.
  cbn [mbind outcome_bind]. pose proof Hwok as (_ & Hseq & Ht & Hlk & Hlv).
  assert (len (packed_key (w_key w) (w_seq w) (w_type w)) = len (w_key w) + 8) as El by (unfold packed_key; rewrite length_app, length_fixed64; lia).
  rewrite El, wrap_small by (unfold in_width; lia). set (nb := len (w_key w) + 8 + len (w_value w)).
  destruct (sample_loop_ok RecordReadSample (Z.to_nat (2 * nb + 2)) (packed_key (w_key w) (w_seq w) (w_type w)) nb (sampling_ this) Hsm)
    as (sm & -> & [Hb Hseed] & Hge); [unfold nb; lia| |].
  { destruct Hsm as [Hsm _]. destruct (_ =? 0); lia. }
  cbn [mbind outcome_bind]. rewrite (proj2 (Z.leb_le _ _) Hge). cbn [require mbind outcome_bind].
  rewrite (ParseInternalKey_ok (w_key w) (w_seq w) (w_type w) Hseq Ht). cbn [mbind outcome_bind].
  rewrite wrap_small by (unfold in_width, nb in *; lia). eexists. split; [|reflexivity]. split; [cbn; unfold nb in *; lia|done].
Qed.

(** The entry that a forward search looks for. *)
Definition wanted (p : nat) (skipping : bool) (u : Slice) (i : nat) (w : write) : Prop :=
  live i w ∧ (p ≤ i)%nat ∧ (skipping = true → w_key w ≠ u).

Definition found_next this (p : nat) (skipping : bool) (u : Slice) : Prop :=
  (∃ i w, dbi_valid_ this = true ∧ R (dbi_iter_ this) i ∧ wanted p skipping u i w ∧
     ∀ i' w', wanted p skipping u i' w' → (i ≤ i')%nat) ∨
  (dbi_valid_ this = false ∧ (∃ p', R (dbi_iter_ this) p') ∧ ∀ i w, ~ wanted p skipping u i w).

Lemma found_next_iff this p skipping u p' skipping' u' :
  (∀ i w, wanted p skipping u i w ↔ wanted p' skipping' u' i w) →
  found_next this p' skipping' u' → found_next this p skipping u.
Proof.
  intros Heq [(i & w & Hv & Hi & Hw & Hmin)|(Hv & Hp' & Hn)].
  - left. exists i, w. split; [done|]. split; [done|]. split; [by apply Heq|]. intros i' w' Hw'. by apply (Hmin i' w'), Heq.
  - right. split; [done|]. split; [done|]. intros i w Hw. by apply (Hn i w), Heq.
Qed.

(** The loop may start where the writes before are of other keys, or of the key to skip. *)
Definition next_start (p : nat) (skipping : bool) (u : Slice) : Prop :=
  (∀ j i a b, (j < p ≤ i)%nat → seen j a → seen i b → w_key a = w_key b → skipping = true ∧ w_key b = u) ∧
  (skipping = true → key_ok u ∧ ∀ i b, (p ≤ i)%nat → seen i b → order u (w_key b) ≤ 0).

(** Passing an entry that is not visible. *)
Lemma pass_unseen p skipping u :
  next_start p skipping u → (∀ w, ~ seen p w) →
  next_start (S p) skipping u ∧ ∀ i w, wanted p skipping u i w ↔ wanted (S p) skipping u i w.
Proof.
  intros [H1 H3] Hp. split; [split|].
  - intros j i a b Hj Ha Hb Hk. destruct (decide (j = p)) as [->|]; [by apply Hp in Ha|]. apply (H1 j i a b); [lia|done..].
  - intros Hsk. destruct (H3 Hsk) as [Hu H3']. split; [done|]. intros i b Hi. apply H3'. lia.
  - intros i w. unfold wanted. split; intros (Hl & Hi & Hk); (split; [done|]); (split; [|done]); [|lia].
    destruct (decide (i = p)) as [->|]; [|lia]. destruct Hl as [Hl _]. by apply Hp in Hl.
Qed.

(** Passing a visible deletion. *)
Lemma pass_deletion p skipping u w :
  next_start p skipping u → seen p w → w_type w = kTypeDeletion →
  next_start (S p) true (w_key w) ∧ ∀ i w', wanted p skipping u i w' ↔ wanted (S p) true (w_key w) i w'.
Proof.
  intros [H1 H3] Hw Ht. pose proof (W_key_ok W HW p w (proj1 Hw)) as Hkw. split; [split|].
  - intros j i a b Hj Ha Hb Hk. split; [done|].
    assert (order (w_key a) (w_key w) ≤ 0) as Hle1 by (apply (W_key_order W HW Hsorted j p); [lia|apply Ha|apply Hw]).
    assert (order (w_key w) (w_key b) ≤ 0) as Hle2 by (apply (W_key_order W HW Hsorted p i); [lia|apply Hw|apply Hb]).
    rewrite Hk in Hle1. apply order_antisym; [by eapply (W_key_ok W HW), Hb|done|done|done].
  - intros _. split; [done|]. intros i b Hi Hb. apply (W_key_order W HW Hsorted p i); [lia|apply Hw|apply Hb].
  - intros i w'. unfold wanted. split; intros (Hl & Hi & Hk).
    + assert (i ≠ p) as Hne.
      { intros ->. destruct Hl as [[Hl _] [Ht' _]]. destruct Hw as [Hw _]. rewrite Hw in Hl. injection Hl as ->. rewrite Ht in Ht'. done. }
      split; [done|]. split; [lia|]. intros _ Heq. destruct Hl as (_ & _ & Hn). by apply (Hn p w); [lia| |].
    + split; [done|]. split; [lia|]. intros Hsk Heq. destruct (H3 Hsk) as [Hu H3']. specialize (H3' p w ltac:(lia) Hw).
      apply (Hk eq_refl). destruct Hl as [[Hl Hls] _]. apply order_antisym; [by eapply W_key_ok|done|by rewrite Heq|].
      apply (W_key_order W HW Hsorted p i); [lia|apply Hw|done].
Qed.

(** Passing a value of the key to skip. *)
Lemma pass_hidden p u w :
  next_start p true u → seen p w → order (w_key w) u ≤ 0 →
  next_start (S p) true u ∧ ∀ i w', wanted p true u i w' ↔ wanted (S p) true u i w'.
Proof.
  intros [H1 H3] Hw Hle. destruct (H3 eq_refl) as [Hu H3']. pose proof (W_key_ok W HW p w (proj1 Hw)) as Hkw.
  assert (w_key w = u) as Heq by (apply order_antisym; [done|done|done|by apply (H3' p)]). split; [split|].
  - intros j i a b Hj Ha Hb Hk. split; [done|]. destruct (decide (j = p)) as [->|].
    + destruct Ha as [Ha _], Hw as [Hw _]. rewrite Ha in Hw. injection Hw as ->. congruence.
    + apply (H1 j i a b); [lia|done..].
  - intros _. split; [done|]. intros i b Hi. apply H3'. lia.
  - intros i w'. unfold wanted. split; intros (Hl & Hi & Hk); (split; [done|]); (split; [|done]); [|lia].
    destruct (decide (i = p)) as [->|]; [|lia]. exfalso. apply (Hk eq_refl). destruct Hl as [[Hl _] _], Hw as [Hw _].
    rewrite Hw in Hl. by injection Hl as <-.
Qed.

(** A visible value that is not hidden is the one. *)
Lemma stop_here p skipping u w :
  next_start p skipping u → seen p w → w_type w = kTypeValue → (skipping = true → 0 < order (w_key w) u) →
  wanted p skipping u p w.
Proof.
  intros [H1 H3] Hw Ht Hgt. pose proof (W_key_ok W HW p w (proj1 Hw)) as Hkw. split; [|split; [done|]].
  - split; [done|]. split; [done|]. intros j w' Hj Hw' Hk. destruct (H1 j p w' w ltac:(lia) Hw' Hw Hk) as [Hsk Hu].
    specialize (Hgt Hsk). rewrite Hu in Hgt. rewrite order_refl in Hgt by by rewrite <- Hu. lia.
  - intros Hsk Hu. specialize (Hgt Hsk). rewrite Hu in Hgt. rewrite order_refl in Hgt by by rewrite <- Hu. lia.
Qed.

Lemma move_next this p :
  R (dbi_iter_ this) p → (p < n)%nat →
  ∃ it, move_iter Iterator_Next this = Ok (set_dbi_iter this it) ∧ R it (S p) ∧ Iterator_Valid it = (S p <? n)%nat.
Proof.
  intros Hp Hlt. destruct (iterates_next _ _ HR (dbi_iter_ this) p Hp) as (it & E & Hit); [by rewrite length_map|].
  exists it. unfold move_iter. rewrite E. split; [done|]. split; [done|]. apply (R_bound it (S p) Hit).
Qed.

Lemma FindNext_loop_ok fuel p skipping this :
  keeps this kForward → R (dbi_iter_ this) p → (p < n)%nat → (n - p < fuel)%nat → next_start p skipping (saved_key_ this) →
  ∃ this', FindNextUserEntry_loop RecordReadSample fuel skipping this = Ok this' ∧ keeps this' kForward ∧
    found_next this' p skipping (saved_key_ this).
Proof.
  revert p skipping this. induction fuel as [|fuel IH]; intros p skipping this Hk Hp Hlt Hf Hstart; [lia|].
  assert (∀ sk2 this2, keeps this2 kForward → dbi_iter_ this2 = dbi_iter_ this → next_start (S p) sk2 (saved_key_ this2) →
    (∀ i w, wanted p skipping (saved_key_ this) i w ↔ wanted (S p) sk2 (saved_key_ this2) i w) →
    ∃ this', (this3 ← move_iter Iterator_Next this2;
      if iter_valid this3 then FindNextUserEntry_loop RecordReadSample fuel sk2 this3 else Ok (set_valid (SaveKey this3 []) false)) = Ok this' ∧
      keeps this' kForward ∧ found_next this' p skipping (saved_key_ this)) as Hgo.
  { intros sk2 this2 Hk2 Hi2 Hstart2 Hiff. destruct (move_next this2 p) as (it & -> & Hit & Hv); [by rewrite Hi2|done|].
    cbn [mbind outcome_bind]. unfold iter_valid. cbn [dbi_iter_ set_dbi_iter]. rewrite Hv.
    destruct (Nat.ltb_spec (S p) n) as [Hlt'|Hge].
    - destruct (IH (S p) sk2 (set_dbi_iter this2 it) Hk2 Hit Hlt' ltac:(lia) Hstart2) as (this' & E & Hk' & Hfound).
      exists this'. split; [done|]. split; [done|]. by eapply found_next_iff.
    - eexists. split; [done|]. split; [done|]. right. split; [done|]. split; [by exists (S p)|].
      intros i w Hw. apply Hiff in Hw as ([[Hw _] _] & Hi & _). apply lookup_lt_Some in Hw. lia. }
  destruct (lookup_lt_is_Some_2 _ _ Hlt) as [w Hw]. pose proof Hk as (Hseq & Hst & Hsm & Hdir).
  destruct (ParseKey_ok this p w Hsm Hp Hw) as (sm & Hsm' & Eparse). cbn [FindNextUserEntry_loop]. rewrite Eparse.
  cbn [mbind outcome_bind fst snd]. set (this1 := set_sampling this sm). assert (keeps this1 kForward) as Hk1 by by split_and!.
  unfold examine_next. cbn [pk_sequence pk_type pk_user_key]. change (dbi_sequence_ this1) with (dbi_sequence_ this). rewrite Hseq.
  destruct (Z.leb_spec (w_seq w) s) as [Hle|Hgt].
  2: { destruct (pass_unseen p skipping (saved_key_ this) Hstart) as [H1 H2].
       { intros w' [Hw' Hs']. rewrite Hw in Hw'. injection Hw' as ->. lia. }
       cbn [mbind outcome_bind fst snd]. by apply Hgo. }
  assert (seen p w) as Hseen by done. destruct (Z.eqb_spec (w_type w) kTypeDeletion) as [Ht|Ht].
  { destruct (pass_deletion p skipping (saved_key_ this) w Hstart Hseen Ht) as [H1 H2]. cbn [mbind outcome_bind fst snd]. by apply Hgo. }
  assert (w_type w = kTypeValue) as Htv.
  { destruct (W_ok W HW p w Hw) as (_ & _ & Hb & _). unfold kValueTypeForSeek, kTypeValue, kTypeDeletion in *. lia. }
  rewrite (proj2 (Z.eqb_eq _ _) Htv). change (saved_key_ this1) with (saved_key_ this).
  assert ((if skipping then c ← Compare (w_key w) (saved_key_ this); Ok (c <=? 0) else Ok false) =
    Ok (skipping && (order (w_key w) (saved_key_ this) <=? 0))) as ->.
  { destruct skipping; [|done]. rewrite Compare_ok; [done|by eapply W_key_ok|by apply Hstart]. }
  cbn [mbind outcome_bind]. destruct (skipping && (order (w_key w) (saved_key_ this) <=? 0)) eqn:Ehid.
  - apply andb_true_iff in Ehid as [-> Ehid]. apply Z.leb_le in Ehid.
    destruct (pass_hidden p (saved_key_ this) w Hstart Hseen Ehid) as [H1 H2]. cbn [mbind outcome_bind fst snd]. by apply Hgo.
  - cbn [mbind outcome_bind fst snd]. eexists. split; [done|]. split; [done|]. left. exists p, w. split; [done|]. split; [done|].
    split; [|by intros i' w' (_ & ? & _)]. apply stop_here; [done|done|done|]. intros ->. cbn in Ehid. apply Z.leb_gt in Ehid. lia.
Qed.

(** *** Positions of the user *)

(** In reverse, the iterator is before the entries of the key. *)
Definition before_key (w : write) (p : nat) : Prop :=
  ((p < n)%nat → ∃ a, seen p a ∧ order (w_key a) (w_key w) < 0) ∧
  ∀ j b, seen j b → order (w_key b) (w_key w) < 0 → (j ≤ p < n)%nat.

Definition db_at this (c : nat) : Prop :=
  dbi_sequence_ this = s ∧ dbi_status_ this = status_OK ∧ sampling_ok (sampling_ this) ∧ ∃ p, R (dbi_iter_ this) p ∧
  match idx !! c with
  | None => c = length idx ∧ dbi_valid_ this = false
  | Some i => dbi_valid_ this = true ∧ ∃ w, live i w ∧
      match dbi_direction_ this with
      | kForward => p = i
      | kReverse => saved_key_ this = w_key w ∧ saved_value_ this = w_value w ∧ before_key w p
      end
  end.

(** After a forward search. *)
Lemma found_next_at this p skipping u :
  keeps this kForward → found_next this p skipping u →
  ∃ c, db_at this c ∧ (c ≤ length idx)%nat ∧
    ∀ c' i' w', idx !! c' = Some i' → live i' w' →
      ((c' < c)%nat → ~ wanted p skipping u i' w') ∧ ((c ≤ c')%nat → ∃ i w, wanted p skipping u i w ∧ (i ≤ i')%nat).
Proof.
  intros (Hseq & Hst & Hsm & Hdir) [(i & w & Hv & Hi & Hw & Hmin)|(Hv & [p' Hp'] & Hn)].
  - pose proof Hw as (Hl & _). assert (i ∈ idx) as Hin by (apply live_indices_in; by exists w).
    apply list_elem_of_lookup_1 in Hin as [c Hc]. exists c. split; [|split].
    + split_and!; try done. exists i. split; [done|]. rewrite Hc. split; [done|]. exists w. split; [done|]. by rewrite Hdir.
    + apply lookup_lt_Some in Hc. lia.
    + intros c' i' w' Hc' Hl'. pose proof (live_position W s c c' i i' Hc Hc') as Hpos. split.
      * intros Hlt Hw'. apply Hmin in Hw'. lia.
      * intros Hge. exists i, w. split; [done|]. destruct (decide (i' < i)%nat) as [Hlt|]; [|lia]. apply Hpos in Hlt. lia.
  - exists (length idx). split; [|split; [done|]].
    + split_and!; try done. exists p'. split; [done|]. by rewrite (proj2 (lookup_ge_None _ _)).
    + intros c' i' w' Hc' Hl'. split; [intros _; apply Hn|]. intros Hge. apply lookup_lt_Some in Hc'. lia.
Qed.

(** The search that moves on from the key at a position. *)
Lemma next_position this p c i w :
  keeps this kForward → found_next this p true (w_key w) → idx !! c = Some i → live i w → (p ≤ i)%nat →
  (∀ j b, live j b → (i < j)%nat → (p ≤ j)%nat) → (∀ j b, live j b → (p ≤ j)%nat → (i ≤ j)%nat) → db_at this (S c).
Proof.
  intros Hk Hf Hc Hl Hpi Hup Hdown. destruct (found_next_at this p true (w_key w) Hk Hf) as (c' & Hat & Hlen & Hsplit).
  assert (∀ j b, wanted p true (w_key w) j b ↔ live j b ∧ (i < j)%nat) as Hiff.
  { intros j b. unfold wanted. split.
    - intros (Hlj & Hj & Hne). split; [done|]. pose proof (Hdown j b Hlj Hj). destruct (decide (j = i)) as [->|]; [|lia].
      by rewrite (live_unique W s i b w Hlj Hl) in Hne; destruct (Hne eq_refl).
    - intros [Hlj Hj]. split; [done|]. split; [by apply (Hup j b)|]. intros _ Heq. destruct Hlj as (_ & _ & Hn).
      by apply (Hn i w Hj (proj1 Hl)). }
  assert (c' = S c) as ->; [|done]. destruct (Hsplit c i w Hc Hl) as [_ Hge].
  assert (c < c')%nat as Hlt.
  { destruct (decide (c < c')%nat) as [|Hnlt]; [done|]. destruct (Hge ltac:(lia)) as (j & b & Hw & Hle). apply Hiff in Hw. lia. }
  destruct (idx !! S c) as [i'|] eqn:Hc'; [|apply lookup_ge_None in Hc'; lia].
  destruct (live_at W s _ _ Hc') as [w' Hw']. destruct (Hsplit (S c) i' w' Hc' Hw') as [Hnot _].
  destruct (decide (S c < c')%nat) as [Hlt'|]; [|lia]. destruct (Hnot Hlt'). apply Hiff. split; [done|].
  apply (live_position W s (S c) c i' i Hc' Hc). lia.
Qed.

Lemma FindNextUserEntry_ok this p skipping :
  keeps this kForward → R (dbi_iter_ this) p → (p < n)%nat → next_start p skipping (saved_key_ this) →
  ∃ this', FindNextUserEntry RecordReadSample rounds skipping this = Ok this' ∧ keeps this' kForward ∧
    found_next this' p skipping (saved_key_ this).
Proof.
  intros Hk Hp Hlt Hstart. unfold FindNextUserEntry, iter_valid. rewrite (proj2 (R_bound _ _ Hp)), (proj2 (Nat.ltb_lt _ _) Hlt).
  rewrite bool_decide_eq_true_2 by apply Hk. cbn [require mbind outcome_bind].
  apply FindNext_loop_ok; [done|done|done|lia|done].
Qed.

(** The entry that the user is at, in either direction. *)
Lemma db_at_live this c :
  db_at this c → (c < length idx)%nat →
  ∃ i w, idx !! c = Some i ∧ live i w ∧ W !! i = Some w ∧ dbi_valid_ this = true.
Proof.
  intros (_ & _ & _ & p & _ & Hc) Hlt. destruct (lookup_lt_is_Some_2 _ _ Hlt) as [i Hi]. rewrite Hi in Hc.
  destruct Hc as (Hv & w & Hw & _). exists i, w. split_and!; try done. apply Hw.
Qed.

Lemma db_valid this c : db_at this c → (c ≤ length idx)%nat ∧ dbi_valid_ this = (c <? length idx)%nat.
Proof.
  intros (_ & _ & _ & p & _ & Hc). destruct (idx !! c) as [i|] eqn:Hi.
  - apply lookup_lt_Some in Hi. destruct Hc as [-> _]. split; [lia|]. symmetry. by apply Nat.ltb_lt.
  - destruct Hc as [-> ->]. split; [done|]. symmetry. by apply Nat.ltb_irrefl.
Qed.

Lemma order_nlt a b : key_ok a → key_ok b → ~ order a b < 0 → order b a ≤ 0.
Proof. intros Ha Hb. rewrite (order_flip a b Ha Hb). lia. Qed.

Lemma seen_key_ok i w : seen i w → key_ok (w_key w).
Proof. intros [Hw _]. by eapply W_key_ok. Qed.

(** From the entry itself. *)
Lemma next_start_live i w : live i w → next_start i true (w_key w).
Proof.
  intros (Hw & _ & Hn). split.
  - intros j i' a b Hj Ha Hb Heq. exfalso. apply (Hn j a); [lia|done|].
    apply order_antisym; [by eapply seen_key_ok|by eapply seen_key_ok| |].
    + apply (W_key_order W HW Hsorted j i); [lia|apply Ha|apply Hw].
    + rewrite Heq. apply (W_key_order W HW Hsorted i i'); [lia|apply Hw|apply Hb].
  - intros _. split; [by eapply seen_key_ok|]. intros j b Hj Hb. apply (W_key_order W HW Hsorted i j); [lia|apply Hw|apply Hb].
Qed.

(** From before the entries of the key. *)
Lemma next_start_before i w p :
  live i w → (p < n)%nat → before_key w p → next_start (S p) true (w_key w).
Proof.
  intros (Hw & _) Hp [Hat Hall]. destruct (Hat Hp) as (a0 & Ha0 & Hlt). split.
  - intros j i' a b Hj Ha Hb Heq. exfalso.
    assert (order (w_key a) (w_key w) < 0) as Hab.
    { apply (order_le_lt _ (w_key a0)); [by eapply seen_key_ok..| |done].
      apply (W_key_order W HW Hsorted j p); [lia|apply Ha|apply Ha0]. }
    rewrite Heq in Hab. pose proof (Hall i' b Hb Hab). lia.
  - intros _. split; [by eapply seen_key_ok|]. intros j b Hj Hb. apply order_nlt; [by eapply seen_key_ok..|].
    intros Hb'. pose proof (Hall j b Hb Hb'). lia.
Qed.

Lemma next_start_first i w : live i w → before_key w n → next_start 0 true (w_key w).
Proof.
  intros (Hw & _) [_ Hall]. split; [intros; lia|]. intros _. split; [by eapply seen_key_ok|]. intros j b Hj Hb.
  apply order_nlt; [by eapply seen_key_ok..|]. intros Hb'. pose proof (Hall j b Hb Hb'). lia.
Qed.

(** The entries before a key are those up to the position. *)
Lemma before_key_live i w p j b :
  live i w → before_key w p → live j b → (j < i)%nat ↔ (j ≤ p)%nat ∧ (p < n)%nat.
Proof.
  intros Hl [Hat Hall] Hj. split.
  - intros Hlt. apply (live_keys W s HW Hsorted j i b w Hj Hl) in Hlt. destruct Hj as [Hj _]. by apply (Hall j b).
  - intros [Hle Hp]. destruct (Hat Hp) as (a & Ha & Hlt). apply (live_keys W s HW Hsorted j i b w Hj Hl).
    pose proof Hl as [Hw _]. destruct Hj as [Hj _]. apply (order_le_lt _ (w_key a)); [by eapply seen_key_ok..| |done].
    apply (W_key_order W HW Hsorted j p); [lia|apply Hj|apply Ha].
Qed.

Lemma DBIter_Next_ok this c :
  db_at this c → (c < length idx)%nat → ∃ this', DBIter_Next RecordReadSample rounds this = Ok this' ∧ db_at this' (S c).
Proof.
  intros Hat Hlt. destruct (db_at_live this c Hat Hlt) as (i & w & Hi & Hl & Hw & Hv).
  pose proof Hat as (Hseq & Hst & Hsm & p & Hp & Hc). rewrite Hi in Hc. destruct Hc as (_ & w' & Hl' & Hdir).
  rewrite (live_unique W s i w' w Hl' Hl) in *. clear w' Hl'. pose proof (lookup_lt_Some _ _ _ Hw) as Hin.
  unfold DBIter_Next. rewrite Hv. cbn [require mbind outcome_bind]. destruct (dbi_direction_ this) eqn:Edir.
  - subst p. change (bool_decide (kForward = kReverse)) with false. cbv iota.
    rewrite (iter_user_key_ok this i w Hp Hw). cbn [mbind outcome_bind].
    destruct (FindNextUserEntry_ok (SaveKey this (w_key w)) i true) as (this' & E & Hk' & Hf); [done|done|done| |].
    + by apply next_start_live.
    + exists this'. split; [done|]. apply (next_position this' i c i w); [done|done|done|done|done|intros; lia|intros; lia].
  - change (bool_decide (kReverse = kReverse)) with true. cbv iota. destruct Hdir as (Hsk & Hsv & Hbefore).
    unfold iter_valid. cbn [dbi_iter_ set_dbi_direction]. destruct (R_bound _ _ Hp) as [Hpn ->].
    destruct (Nat.ltb_spec p n) as [Hplt|Hpge].
    + destruct (move_next (set_dbi_direction this kForward) p Hp Hplt) as (it & -> & Hit & Hval). cbn [mbind outcome_bind].
      cbn [dbi_iter_ set_dbi_iter]. rewrite Hval.
      assert (p < i)%nat as Hpi.
      { destruct (proj1 Hbefore Hplt) as (a & Ha & Hlt'). destruct (decide (p < i)%nat) as [|Hge]; [done|exfalso].
        pose proof (W_key_order W HW Hsorted i p w a ltac:(lia) Hw (proj1 Ha)) as Hle.
        apply order_flip in Hlt'; [lia|by eapply seen_key_ok|by eapply seen_key_ok, Hl]. }
      rewrite (proj2 (Nat.ltb_lt _ _)) by lia.
      destruct (FindNextUserEntry_ok (set_dbi_iter (set_dbi_direction this kForward) it) (S p) true) as (this' & E & Hk' & Hf);
        [done|done|lia|cbn [saved_key_ set_dbi_iter set_dbi_direction]; rewrite Hsk; by apply (next_start_before i)|].
      cbn [saved_key_ set_dbi_iter set_dbi_direction] in Hf. rewrite Hsk in Hf.
      exists this'. split; [done|]. apply (next_position this' (S p) c i w); try done.
      * intros j b Hj Hij. pose proof (before_key_live i w p j b Hl Hbefore Hj). lia.
      * intros j b Hj Hpj. pose proof (before_key_live i w p j b Hl Hbefore Hj). lia.
    + assert (p = n) as -> by lia. unfold move_iter. destruct (iterates_first _ _ HR _ _ Hp) as (it & E0 & Hit). cbn [dbi_iter_ set_dbi_direction].
      rewrite E0. cbn [mbind outcome_bind dbi_iter_ set_dbi_iter]. rewrite (proj2 (R_bound _ _ Hit)), (proj2 (Nat.ltb_lt _ _)) by lia.
      destruct (FindNextUserEntry_ok (set_dbi_iter (set_dbi_direction this kForward) it) 0 true) as (this' & E & Hk' & Hf);
        [done|done|lia|cbn [saved_key_ set_dbi_iter set_dbi_direction]; rewrite Hsk; by apply (next_start_first i)|].
      cbn [saved_key_ set_dbi_iter set_dbi_direction] in Hf. rewrite Hsk in Hf.
      exists this'. split; [done|]. apply (next_position this' 0 c i w); try done; [lia|intros; lia|].
      intros j b Hj _. pose proof (before_key_live i w n j b Hl Hbefore Hj). lia.
Qed.

(** *** Backwards *)

Lemma move_prev this p :
  R (dbi_iter_ this) p → (p < n)%nat →
  ∃ it, move_iter Iterator_Prev this = Ok (set_dbi_iter this it) ∧ R it (prior n p) ∧
    Iterator_Valid it = negb (bool_decide (p = 0%nat)).
Proof.
  intros Hp Hlt. destruct (iterates_prev _ _ HR (dbi_iter_ this) p Hp) as (it & E & Hit); [by rewrite length_map|].
  rewrite length_map in Hit. exists it. unfold move_iter. rewrite E. split; [done|]. split; [done|].
  rewrite (proj2 (R_bound _ _ Hit)). unfold prior. destruct (decide (p = 0)%nat) as [->|Hne].
  - by rewrite Nat.ltb_irrefl.
  - rewrite bool_decide_eq_false_2 by done. apply Nat.ltb_lt. lia.
Qed.

(** The entries from [q] on have been examined, beginning with the one at [p0]. *)
Definition prev_inv (p0 q : nat) (vt : Z) (sk sv : list Z) : Prop :=
  (vt = kTypeDeletion ∧ ∀ i w, live i w → (i ≤ p0)%nat → (i < q)%nat) ∨
  (vt = kTypeValue ∧ ∃ m w, (q ≤ m ≤ p0)%nat ∧ seen m w ∧ w_type w = kTypeValue ∧ sk = w_key w ∧ sv = w_value w ∧
    (∀ j b, (q ≤ j < m)%nat → ~ seen j b) ∧ ∀ i w', live i w' → (i ≤ p0)%nat → (i ≤ m)%nat).

Definition found_prev this (vt : Z) (p0 : nat) : Prop :=
  (vt = kTypeDeletion ∧ (∃ p, R (dbi_iter_ this) p) ∧ ∀ i w, live i w → ~ (i ≤ p0)%nat) ∨
  (vt = kTypeValue ∧ ∃ i w p, live i w ∧ (i ≤ p0)%nat ∧ saved_key_ this = w_key w ∧ saved_value_ this = w_value w ∧
    R (dbi_iter_ this) p ∧ before_key w p ∧ ∀ i' w', live i' w' → (i' ≤ p0)%nat → (i' ≤ i)%nat).

(** A visible value is live when the visible entries before it are of smaller keys. *)
Lemma prev_found this p0 q p m w :
  seen m w → w_type w = kTypeValue → saved_key_ this = w_key w → saved_value_ this = w_value w → (q ≤ m ≤ p0)%nat →
  (∀ j b, (q ≤ j < m)%nat → ~ seen j b) → (∀ i w', live i w' → (i ≤ p0)%nat → (i ≤ m)%nat) →
  R (dbi_iter_ this) p → ((p < n)%nat ∧ S p = q ∧ (∃ a, seen p a ∧ order (w_key a) (w_key w) < 0) ∨ p = n ∧ q = 0%nat) →
  found_prev this kTypeValue p0.
Proof.
  intros Hm Ht Hsk Hsv Hqm Hnone Hall HRp Hp. right. split; [done|]. exists m, w, p.
  assert (∀ j b, (j < m)%nat → seen j b → (j < q)%nat) as Hbelow.
  { intros j b Hj Hb. destruct (decide (j < q)%nat) as [|Hge]; [done|]. destruct (Hnone j b); [lia|done]. }
  split; [|split; [lia|split; [done|split; [done|split; [done|split; [|done]]]]]].
  - split; [done|]. split; [done|]. intros j b Hj Hb Heq. pose proof (Hbelow j b Hj Hb) as Hjq.
    destruct Hp as [(Hpn & Hq & a & Ha & Hlt)|[_ Hq]]; [|lia].
    pose proof (W_key_order W HW Hsorted j p b a ltac:(lia) (proj1 Hb) (proj1 Ha)) as Hle. rewrite Heq in Hle.
    apply order_flip in Hlt; [lia|by eapply seen_key_ok|by eapply seen_key_ok].
  - split.
    + intros Hpn. destruct Hp as [(_ & _ & Ha)|[-> _]]; [done|lia].
    + intros j b Hb Hlt. assert (j < m)%nat as Hj.
      { destruct (decide (j < m)%nat) as [|Hge]; [done|exfalso].
        pose proof (W_key_order W HW Hsorted m j w b ltac:(lia) (proj1 Hm) (proj1 Hb)).
        apply order_flip in Hlt; [lia|by eapply seen_key_ok|by eapply seen_key_ok]. }
      pose proof (Hbelow j b Hj Hb). destruct Hp as [(Hpn & Hq & _)|[_ Hq]]; lia.
Qed.

(** One entry examined. *)
Lemma prev_unseen p0 p vt sk sv :
  prev_inv p0 (S p) vt sk sv → (∀ w, ~ seen p w) → prev_inv p0 p vt sk sv.
Proof.
  intros [[-> Hall]|(-> & m & w & Hm & Hw & Ht & -> & -> & Hnone & Hall)] Hp; [left|right].
  - split; [done|]. intros i w Hl Hi. specialize (Hall i w Hl Hi). destruct (decide (i = p)) as [->|]; [|lia].
    destruct Hl as [Hl _]. by apply Hp in Hl.
  - split; [done|]. exists m, w. split; [lia|]. do 4 (split; [done|]). split; [|done]. intros j b Hj.
    destruct (decide (j = p)) as [->|]; [apply Hp|apply Hnone; lia].
Qed.

Lemma prev_seen p0 p vt sk sv a :
  prev_inv p0 (S p) vt sk sv → (p ≤ p0)%nat → seen p a → (vt = kTypeValue → 0 ≤ order (w_key a) sk) →
  if w_type a =? kTypeDeletion then prev_inv p0 p (w_type a) [] [] else prev_inv p0 p (w_type a) (w_key a) (w_value a).
Proof.
  intros Hinv Hp Ha Hge.
  assert (∀ i w, live i w → (i ≤ p0)%nat → (i ≤ p)%nat) as Hall.
  { destruct Hinv as [[-> Hall]|(-> & m & w & Hm & Hw & Ht & -> & -> & Hnone & Hall)]; intros i w' Hl Hi.
    - specialize (Hall i w' Hl Hi). lia.
    - specialize (Hall i w' Hl Hi). specialize (Hge eq_refl).
      destruct (decide (i < S p)%nat) as [|Hn]; [lia|exfalso]. destruct (decide (i = m)) as [->|Hne]; [|by apply (Hnone i w'); [lia|apply Hl]].
      pose proof (live_seen W s _ _ _ Hl Hw). subst w'. destruct Hl as (_ & _ & Hfirst). apply (Hfirst p a ltac:(lia) Ha).
      apply order_antisym; [by eapply seen_key_ok|by eapply seen_key_ok| |].
      + apply (W_key_order W HW Hsorted p m); [lia|apply Ha|apply Hw].
      + apply order_nlt; [by eapply seen_key_ok|by eapply seen_key_ok|lia]. }
  destruct (Z.eqb_spec (w_type a) kTypeDeletion) as [Hd|Hd].
  - left. split; [done|]. intros i w Hl Hi. specialize (Hall i w Hl Hi). destruct (decide (i = p)) as [->|]; [|lia].
    pose proof (live_seen W s _ _ _ Hl Ha) as ->. destruct Hl as (_ & Ht & _). rewrite Hd in Ht. done.
  - right. destruct (W_ok W HW p a (proj1 Ha)) as (_ & _ & Hb & _).
    split; [unfold kValueTypeForSeek, kTypeValue, kTypeDeletion in *; lia|]. exists p, a. split; [lia|]. split; [done|].
    split; [unfold kValueTypeForSeek, kTypeValue, kTypeDeletion in *; lia|]. do 2 (split; [done|]). split; [lia|done].
Qed.

Lemma FindPrev_loop_ok fuel p0 p vt this :
  keeps this kReverse → R (dbi_iter_ this) p → (p < n)%nat → (p < fuel)%nat → (p ≤ p0)%nat →
  prev_inv p0 (S p) vt (saved_key_ this) (saved_value_ this) →
  ∃ vt' this', FindPrevUserEntry_loop RecordReadSample fuel vt this = Ok (vt', this') ∧ keeps this' kReverse ∧ found_prev this' vt' p0.
Proof.
  revert p vt this. induction fuel as [|fuel IH]; intros p vt this Hk Hp Hlt Hf Hp0 Hinv; [lia|].
  assert (∀ vt2 this2, keeps this2 kReverse → dbi_iter_ this2 = dbi_iter_ this →
    prev_inv p0 p vt2 (saved_key_ this2) (saved_value_ this2) →
    ∃ vt' this', (this3 ← move_iter Iterator_Prev this2;
      if iter_valid this3 then FindPrevUserEntry_loop RecordReadSample fuel vt2 this3 else Ok (vt2, this3)) = Ok (vt', this') ∧
      keeps this' kReverse ∧ found_prev this' vt' p0) as Hgo.
  { intros vt2 this2 Hk2 Hi2 Hinv2. destruct (move_prev this2 p) as (it & -> & Hit & Hv); [by rewrite Hi2|done|].
    cbn [mbind outcome_bind]. unfold iter_valid. cbn [dbi_iter_ set_dbi_iter]. rewrite Hv. unfold prior in Hit.
    destruct (decide (p = 0)%nat) as [->|Hne].
    - cbn [negb bool_decide]. rewrite bool_decide_eq_true_2 by done. cbn [negb]. eexists _, _. split; [done|]. split; [done|].
      destruct Hinv2 as [[-> Hall]|(-> & m & w & Hm & Hw & Ht & Hsk & Hsv & Hnone & Hall)].
      + left. split; [done|]. split; [by exists n|]. intros i w Hl Hi. specialize (Hall i w Hl Hi). lia.
      + apply (prev_found _ p0 0 n m w); try done. by right.
    - rewrite bool_decide_eq_false_2 by done. cbn [negb].
      destruct (IH (p - 1)%nat vt2 (set_dbi_iter this2 it) Hk2 Hit ltac:(lia) ltac:(lia) ltac:(lia)) as (vt' & this' & E & Hk' & Hfound).
      + cbn [saved_key_ saved_value_ set_dbi_iter]. by replace (S (p - 1)) with p by lia.
      + by exists vt', this'. }
  destruct (lookup_lt_is_Some_2 _ _ Hlt) as [w Hw]. pose proof Hk as (Hseq & Hst & Hsm & Hdir).
  destruct (ParseKey_ok this p w Hsm Hp Hw) as (sm & Hsm' & Eparse). cbn [FindPrevUserEntry_loop]. rewrite Eparse.
  cbn [mbind outcome_bind fst snd]. set (this1 := set_sampling this sm). assert (keeps this1 kReverse) as Hk1 by by split_and!.
  unfold examine_prev. cbn [pk_sequence pk_type pk_user_key]. change (dbi_sequence_ this1) with (dbi_sequence_ this). rewrite Hseq.
  destruct (Z.leb_spec (w_seq w) s) as [Hle|Hgt].
  2: { cbn [mbind outcome_bind fst snd]. apply Hgo; [done|done|]. apply prev_unseen; [done|].
       intros w' [Hw' Hs']. rewrite Hw in Hw'. injection Hw' as ->. lia. }
  assert (seen p w) as Hseen by done. change (saved_key_ this1) with (saved_key_ this).
  assert ((if negb (vt =? kTypeDeletion) then c ← Compare (w_key w) (saved_key_ this); Ok (c <? 0) else Ok false) =
    Ok (negb (vt =? kTypeDeletion) && (order (w_key w) (saved_key_ this) <? 0))) as ->.
  { destruct Hinv as [[-> _]|(-> & m & wm & _ & Hm & _ & Hsk & _)]; [done|]. cbn [negb]. change (negb (kTypeValue =? kTypeDeletion)) with true.
    cbv iota. rewrite Hsk, Compare_ok by (by eapply seen_key_ok). done. }
  cbn [mbind outcome_bind]. destruct (negb (vt =? kTypeDeletion) && (order (w_key w) (saved_key_ this) <? 0)) eqn:Eb.
  - cbn [mbind outcome_bind fst snd]. apply andb_true_iff in Eb as [Ev Eo]. apply Z.ltb_lt in Eo.
    destruct Hinv as [[-> _]|(-> & m & wm & Hmq & Hm & Ht & Hsk & Hsv & Hnone & Hall)]; [done|].
    eexists _, _. split; [done|]. split; [done|]. apply (prev_found this1 p0 (S p) p m wm); try done.
    left. split; [done|]. split; [done|]. exists w. split; [done|]. by rewrite <- Hsk.
  - assert (vt = kTypeValue → 0 ≤ order (w_key w) (saved_key_ this)) as Hge.
    { intros ->. cbn in Eb. by apply Z.ltb_ge in Eb. }
    pose proof (prev_seen p0 p vt _ _ w Hinv Hp0 Hseen Hge) as Hinv'. destruct (w_type w =? kTypeDeletion) eqn:Et.
    + cbn [mbind outcome_bind fst snd]. by apply Hgo.
    + change (dbi_iter_ this1) with (dbi_iter_ this). rewrite (proj2 (R_entry _ p w Hp Hw)). cbn [mbind outcome_bind].
      rewrite (iter_user_key_ok this1 p w Hp Hw). cbn [mbind outcome_bind fst snd]. by apply Hgo.
Qed.

(** The position of the last entry at or before [p0]. *)
Lemma found_prev_at this vt p0 k :
  keeps this kReverse → found_prev this vt p0 → (k ≤ length idx)%nat →
  (∀ c' i', idx !! c' = Some i' → (c' < k)%nat ↔ (i' ≤ p0)%nat) →
  db_at (if vt =? kTypeDeletion then set_dbi_direction (set_saved (set_valid this false) [] []) kForward else set_valid this true)
    (prior (length idx) k).
Proof.
  intros (Hseq & Hst & Hsm & Hdir) Hf Hk Hiff. unfold prior.
  destruct Hf as [(-> & [p Hp] & Hnone)|(-> & i & w & p & Hl & Hi & Hsk & Hsv & Hp & Hb & Hmax)].
  - change (kTypeDeletion =? kTypeDeletion) with true. cbv iota. assert (k = 0%nat) as ->.
    { destruct k as [|k]; [done|exfalso]. destruct (lookup_lt_is_Some_2 idx 0) as [j Hj]; [lia|].
      destruct (live_at W s _ _ Hj) as [w Hw]. apply (Hnone j w Hw). apply (Hiff 0%nat j Hj). lia. }
    rewrite decide_True by done. split_and!; try done. exists p. split; [done|]. by rewrite (proj2 (lookup_ge_None _ _)).
  - change (kTypeValue =? kTypeDeletion) with false. cbv iota.
    assert (i ∈ idx) as Hin by (apply live_indices_in; by exists w). apply list_elem_of_lookup_1 in Hin as [c Hc].
    assert (c < k)%nat as Hck by by apply (Hiff c i Hc).
    assert (k = S c) as ->.
    { destruct (decide (S c < k)%nat) as [Hlt|]; [exfalso|lia]. destruct (lookup_lt_is_Some_2 idx (S c)) as [j Hj]; [lia|].
      destruct (live_at W s _ _ Hj) as [w' Hw']. apply (Hiff (S c) j Hj) in Hlt. pose proof (Hmax j w' Hw' Hlt).
      pose proof (live_indices_sorted W s c (S c) i j Hc Hj ltac:(lia)). lia. }
    rewrite decide_False by done. replace (S c - 1)%nat with c by lia. split_and!; try done. exists p. split; [done|].
    rewrite Hc. split; [done|]. exists w. split; [done|]. cbn [dbi_direction_ set_valid]. by rewrite Hdir.
Qed.

Lemma FindPrevUserEntry_ok this p k :
  keeps this kReverse → R (dbi_iter_ this) p → (k ≤ length idx)%nat →
  (∀ c' i', idx !! c' = Some i' → (c' < k)%nat ↔ (i' ≤ p)%nat ∧ (p < n)%nat) →
  ∃ this', FindPrevUserEntry RecordReadSample rounds this = Ok this' ∧ db_at this' (prior (length idx) k).
Proof.
  intros Hkeep Hp Hk Hiff. unfold FindPrevUserEntry. rewrite bool_decide_eq_true_2 by apply Hkeep. cbn [require mbind outcome_bind].
  unfold iter_valid. rewrite (proj2 (R_bound _ _ Hp)). destruct (Nat.ltb_spec p n) as [Hlt|Hge].
  - destruct (FindPrev_loop_ok rounds p p kTypeDeletion this Hkeep Hp Hlt ltac:(lia) ltac:(lia)) as (vt & this' & -> & Hk' & Hf).
    + left. split; [done|]. intros i w _ Hi. lia.
    + cbn [mbind outcome_bind]. assert (∀ c' i', idx !! c' = Some i' → (c' < k)%nat ↔ (i' ≤ p)%nat) as Hiff'.
      { intros c' i' Hc'. rewrite (Hiff c' i' Hc'). lia. }
      pose proof (found_prev_at this' vt p k Hk' Hf Hk Hiff') as Hat. destruct (vt =? kTypeDeletion); by eexists.
  - cbn [mbind outcome_bind]. change (kTypeDeletion =? kTypeDeletion) with true. cbv iota. eexists. split; [done|].
    assert (k = 0%nat) as ->.
    { destruct k as [|k]; [done|exfalso]. destruct (lookup_lt_is_Some_2 idx 0) as [j Hj]; [lia|].
      pose proof (proj1 (Hiff 0%nat j Hj) ltac:(lia)). lia. }
    unfold prior. rewrite decide_True by done. destruct Hkeep as (Hseq & Hst & Hsm & _). split_and!; try done.
    exists p. split; [done|]. by rewrite (proj2 (lookup_ge_None _ _)).
Qed.

(** Leaving the entries of a key backwards. *)
Lemma leave_key_ok fuel p u this :
  keeps this kForward → R (dbi_iter_ this) p → (p < n)%nat → (p < fuel)%nat → key_ok u → saved_key_ this = u →
  ∃ b this', leave_key fuel this = Ok (b, this') ∧ keeps this' kForward ∧
    if b : bool then ∃ q a, R (dbi_iter_ this') q ∧ (q < p)%nat ∧ W !! q = Some a ∧ order (w_key a) u < 0 ∧
        ∀ j x, (q < j < p)%nat → W !! j = Some x → 0 ≤ order (w_key x) u
    else (∃ q, R (dbi_iter_ this') q) ∧ ∀ j x, (j < p)%nat → W !! j = Some x → 0 ≤ order (w_key x) u.
Proof.
  revert p this. induction fuel as [|fuel IH]; intros p this Hk Hp Hlt Hf Hu Hsk; [lia|]. cbn [leave_key].
  destruct (move_prev this p Hp Hlt) as (it & -> & Hit & Hv). cbn [mbind outcome_bind]. unfold iter_valid. cbn [dbi_iter_ set_dbi_iter].
  rewrite Hv. unfold prior in Hit. destruct (decide (p = 0)%nat) as [->|Hne].
  - rewrite bool_decide_eq_true_2 by done. cbn [negb]. eexists _, _. split; [done|]. split; [done|].
    split; [by exists n|]. intros; lia.
  - rewrite bool_decide_eq_false_2 by done. cbn [negb]. destruct (lookup_lt_is_Some_2 W (p - 1)) as [a Ha]; [lia|].
    rewrite (iter_user_key_ok (set_dbi_iter this it) (p - 1) a Hit Ha). cbn [mbind outcome_bind saved_key_ set_dbi_iter]. rewrite Hsk.
    rewrite Compare_ok by (first [done|by eapply W_key_ok]). cbn [mbind outcome_bind].
    destruct (Z.ltb_spec (order (w_key a) u) 0) as [Hlt'|Hge].
    + eexists _, _. split; [done|]. split; [done|]. exists (p - 1)%nat, a. split; [done|]. split; [lia|]. split; [done|].
      split; [done|]. intros; lia.
    + destruct (IH (p - 1)%nat (set_dbi_iter this it) Hk Hit ltac:(lia) ltac:(lia) Hu Hsk) as (b & this' & E & Hk' & Hres).
      exists b, this'. split; [done|]. split; [done|].
      assert (∀ j x, (j = p - 1)%nat → W !! j = Some x → 0 ≤ order (w_key x) u) as Hlast.
      { intros j x -> Hx. rewrite Ha in Hx. by injection Hx as <-. }
      destruct b.
      * destruct Hres as (q & a' & Hq & Hqp & Ha' & Ho & Hall). exists q, a'. split_and!; try done; [lia|].
        intros j x Hj Hx. destruct (decide (j = p - 1)%nat) as [Hjp|]; [by apply (Hlast j)|]. apply (Hall j); [lia|done].
      * destruct Hres as [Hq Hall]. split; [done|]. intros j x Hj Hx.
        destruct (decide (j = p - 1)%nat) as [Hjp|]; [by apply (Hlast j)|]. apply (Hall j); [lia|done].
Qed.

Lemma DBIter_Prev_ok this c :
  db_at this c → (c < length idx)%nat →
  ∃ this', DBIter_Prev RecordReadSample rounds this = Ok this' ∧ db_at this' (prior (length idx) c).
Proof.
  intros Hat Hlt. destruct (db_at_live this c Hat Hlt) as (i & w & Hi & Hl & Hw & Hv).
  pose proof Hat as (Hseq & Hst & Hsm & p & Hp & Hc). rewrite Hi in Hc. destruct Hc as (_ & w' & Hl' & Hdir).
  pose proof (live_unique W s i w' w Hl' Hl). subst w'. pose proof (lookup_lt_Some _ _ _ Hw) as Hin.
  unfold DBIter_Prev. rewrite Hv. cbn [require mbind outcome_bind].
  assert (∀ c' i', idx !! c' = Some i' → (c' < c)%nat ↔ (i' < i)%nat) as Hpos.
  { intros c' i' Hc'. symmetry. by apply (live_position W s c c' i i'). }
  destruct (dbi_direction_ this) eqn:Edir.
  - subst p. change (bool_decide (kForward = kForward)) with true. cbv iota. unfold iter_valid.
    rewrite (proj2 (R_bound _ _ Hp)), (proj2 (Nat.ltb_lt _ _) Hin). cbn [require mbind outcome_bind].
    rewrite (iter_user_key_ok this i w Hp Hw). cbn [mbind outcome_bind].
    destruct (leave_key_ok rounds i (w_key w) (SaveKey this (w_key w))) as (b & this' & -> & Hk' & Hres);
      [done|done|done|lia|by eapply W_key_ok|done|]. cbn [mbind outcome_bind fst snd].
    assert (∀ j x, live j x → (j < i)%nat ↔ order (w_key x) (w_key w) < 0) as Hkeys.
    { intros j x Hj. by apply (live_keys W s HW Hsorted). }
    destruct b.
    + destruct Hres as (q & a & Hq & Hqi & Ha & Ho & Hall). destruct Hk' as (Hseq' & Hst' & Hsm' & _).
      apply (FindPrevUserEntry_ok _ q c); [done|done|lia|]. intros c' i' Hc'. rewrite (Hpos c' i' Hc').
      destruct (live_at W s _ _ Hc') as [x Hx]. split; [|lia]. intros Hji. split; [|lia].
      apply (Hkeys i' x Hx) in Hji as Hjo. destruct (decide (i' ≤ q)%nat) as [|Hgt]; [done|exfalso].
      specialize (Hall i' x ltac:(lia) (proj1 (proj1 Hx))). lia.
    + destruct Hres as [[q Hq] Hall]. eexists. split; [done|]. assert (c = 0%nat) as ->.
      { destruct c as [|c]; [done|exfalso]. destruct (lookup_lt_is_Some_2 idx 0) as [j Hj]; [lia|].
        destruct (live_at W s _ _ Hj) as [x Hx]. pose proof (proj1 (Hpos 0%nat j Hj) ltac:(lia)) as Hji.
        pose proof (proj1 (Hkeys j x Hx) Hji). specialize (Hall j x Hji (proj1 (proj1 Hx))). lia. }
      unfold prior. rewrite decide_True by done. destruct Hk' as (Hseq' & Hst' & Hsm' & _). split_and!; try done.
      exists q. split; [done|]. by rewrite (proj2 (lookup_ge_None _ _)).
  - change (bool_decide (kReverse = kForward)) with false. cbv iota. destruct Hdir as (Hsk & Hsv & Hbefore).
    apply (FindPrevUserEntry_ok this p c); [done|done|lia|]. intros c' i' Hc'. rewrite (Hpos c' i' Hc').
    destruct (live_at W s _ _ Hc') as [x Hx]. by apply (before_key_live i w p i' x).
Qed.

(** *** Seeking *)

(** A visible write is before the target of a seek when its key is. *)
Lemma seen_target i w u :
  seen i w → key_ok u → internal_order (entry_of w).1 (packed_key u s kValueTypeForSeek) < 0 ↔ order (w_key w) u < 0.
Proof.
  intros [Hw Hseq] Hu. pose proof (above_target w u s (W_ok W HW i w Hw) Hu Hs) as Ha. split; intros Hlt.
  - destruct (Z.lt_ge_cases (order (w_key w) u) 0) as [|Hge]; [done|].
    assert (0 ≤ internal_order (entry_of w).1 (packed_key u s kValueTypeForSeek)); [apply Ha; split; [lia|done]|lia].
  - destruct (Z.lt_ge_cases (internal_order (entry_of w).1 (packed_key u s kValueTypeForSeek)) 0) as [|Hge]; [done|].
    apply Ha in Hge as [Hge _]. done.
Qed.

Lemma DBIter_Seek_ok this c target :
  db_at this c → key_ok target →
  ∃ this' c', DBIter_Seek RecordReadSample rounds this target = Ok this' ∧ db_at this' c' ∧ splits target (view W s) c'.
Proof.
  intros (Hseq & Hst & Hsm & p0 & Hp0 & _) Ht. unfold DBIter_Seek.
  cbn [saved_key_ set_saved dbi_sequence_ set_dbi_direction]. rewrite Hseq.
  rewrite (AppendInternalKey_ok {| pk_user_key := target; pk_sequence := s; pk_type := kValueTypeForSeek |}) by done.
  cbn [mbind outcome_bind pk_user_key pk_sequence pk_type]. set (tkey := packed_key target s kValueTypeForSeek).
  destruct (target_parts target s Ht Hs) as (Htk & _).
  destruct (iterates_seek _ _ HR (dbi_iter_ this) p0 tkey Hp0 Htk) as (it & p & E & Hp & Hsplit).
  unfold move_iter, iter_valid. cbn [dbi_iter_ SaveKey set_saved set_dbi_direction]. rewrite E. cbn [mbind outcome_bind dbi_iter_ set_dbi_iter].
  destruct (R_bound _ _ Hp) as [Hpn ->].
  assert (∀ i w, seen i w → if decide (i < p)%nat then order (w_key w) target < 0 else 0 ≤ order (w_key w) target) as Hside.
  { intros i w Hw. pose proof (seen_target i w target Hw Ht) as Hiff.
    specialize (Hsplit i (entry_of w).1 (entry_of w).2). rewrite list_lookup_fmap, (proj1 Hw) in Hsplit. specialize (Hsplit eq_refl).
    change (@order _ internal_laws (entry_of w).1 tkey) with (internal_order (entry_of w).1 tkey) in Hsplit.
    unfold tkey in Hsplit. destruct (decide (i < p)%nat); [by apply Hiff|lia]. }
  assert (∀ c' i' w', idx !! c' = Some i' → live i' w' → view W s !! c' = Some (w_key w', w_value w')) as Hview
    by (intros c' i' w'; apply live_lookup).
  destruct (Nat.ltb_spec p n) as [Hlt|Hge].
  - set (this1 := set_dbi_iter (SaveKey (set_saved (set_dbi_direction this kForward) [] []) tkey) it).
    destruct (FindNextUserEntry_ok this1 p false) as (this' & -> & Hk' & Hf); [done|done|done| |].
    { split; [|done]. intros j i a b Hj Ha Hb Heq. exfalso. pose proof (Hside j a Ha) as H1. pose proof (Hside i b Hb) as H2.
      rewrite decide_True in H1 by lia. rewrite decide_False in H2 by lia. rewrite Heq in H1. lia. }
    destruct (found_next_at this' p false _ Hk' Hf) as (c' & Hat & Hlen & Hpos). exists this', c'. split; [done|]. split; [done|].
    intros d key value Hd. pose proof (lookup_lt_Some _ _ _ Hd) as Hdl. rewrite length_view in Hdl.
    destruct (lookup_lt_is_Some_2 _ _ Hdl) as [i Hi]. destruct (live_at W s _ _ Hi) as [w Hw].
    rewrite (Hview d i w Hi Hw) in Hd. injection Hd as <- <-. destruct (Hpos d i w Hi Hw) as [Hbefore Hafter].
    pose proof (Hside i w (proj1 Hw)) as Ho. destruct (decide (d < c')%nat) as [Hdc|Hdc].
    + rewrite decide_True in Ho; [done|]. destruct (decide (i < p)%nat) as [|Hip]; [done|]. destruct (Hbefore Hdc).
      split; [done|]. split; [lia|done].
    + destruct (Hafter ltac:(lia)) as (i0 & w0 & (_ & Hp' & _) & Hle). rewrite decide_False in Ho by lia. done.
  - eexists _, (length idx). split; [done|]. split.
    + split_and!; try done. exists p. split; [done|]. by rewrite (proj2 (lookup_ge_None _ _)).
    + intros d key value Hd. pose proof (lookup_lt_Some _ _ _ Hd) as Hdl. rewrite length_view in Hdl. rewrite decide_True by done.
      destruct (lookup_lt_is_Some_2 _ _ Hdl) as [i Hi]. destruct (live_at W s _ _ Hi) as [w Hw].
      rewrite (Hview d i w Hi Hw) in Hd. injection Hd as <- <-. pose proof (Hside i w (proj1 Hw)) as Ho.
      rewrite decide_True in Ho; [done|]. pose proof (lookup_lt_Some _ _ _ (proj1 (proj1 Hw))). lia.
Qed.

Lemma DBIter_SeekToFirst_ok this c :
  db_at this c → ∃ this', DBIter_SeekToFirst RecordReadSample rounds this = Ok this' ∧ db_at this' 0%nat.
Proof.
  intros (Hseq & Hst & Hsm & p0 & Hp0 & _). unfold DBIter_SeekToFirst, move_iter, iter_valid.
  cbn [dbi_iter_ ClearSavedValue set_saved set_dbi_direction]. destruct (iterates_first _ _ HR _ _ Hp0) as (it & -> & Hit).
  cbn [mbind outcome_bind dbi_iter_ set_dbi_iter]. rewrite (proj2 (R_bound _ _ Hit)). destruct (Nat.ltb_spec 0 n) as [Hlt|Hge].
  - set (this1 := set_dbi_iter (ClearSavedValue (set_dbi_direction this kForward)) it).
    destruct (FindNextUserEntry_ok this1 0 false) as (this' & -> & Hk' & Hf); [done|done|done|split; [intros; lia|done]|].
    destruct (found_next_at this' 0 false _ Hk' Hf) as (c' & Hat & Hlen & Hpos). exists this'. split; [done|].
    destruct c' as [|c']; [done|exfalso]. destruct (lookup_lt_is_Some_2 idx 0) as [i Hi]; [lia|].
    destruct (live_at W s _ _ Hi) as [w Hw]. destruct (proj1 (Hpos 0%nat i w Hi Hw) ltac:(lia)). split; [done|]. split; [lia|done].
  - eexists. split; [done|]. split_and!; try done. exists 0%nat. split; [done|].
    destruct (idx !! 0%nat) as [i|] eqn:Hi.
    + destruct (live_at W s _ _ Hi) as [w Hw]. pose proof (lookup_lt_Some _ _ _ (proj1 (proj1 Hw))). lia.
    + apply lookup_ge_None in Hi. split; [lia|done].
Qed.

Lemma DBIter_SeekToLast_ok this c :
  db_at this c → ∃ this', DBIter_SeekToLast RecordReadSample rounds this = Ok this' ∧ db_at this' (length idx - 1)%nat.
Proof.
  intros (Hseq & Hst & Hsm & p0 & Hp0 & _). unfold DBIter_SeekToLast, move_iter.
  cbn [dbi_iter_ ClearSavedValue set_saved set_dbi_direction]. destruct (iterates_last _ _ HR _ _ Hp0) as (it & -> & Hit).
  rewrite length_map in Hit. cbn [mbind outcome_bind].
  destruct (FindPrevUserEntry_ok (set_dbi_iter (ClearSavedValue (set_dbi_direction this kReverse)) it) (n - 1) (length idx)) as (this' & -> & Hat);
    [done|done|done| |].
  - intros c' i' Hc'. destruct (live_at W s _ _ Hc') as [w Hw]. pose proof (lookup_lt_Some _ _ _ (proj1 (proj1 Hw))).
    apply lookup_lt_Some in Hc'. lia.
  - exists this'. split; [done|]. unfold prior in Hat. destruct (decide (length idx = 0)%nat) as [E|]; [|done]. by rewrite E in *.
Qed.

Lemma db_iterates : @iterates _ _ _ (db_iterator RecordReadSample rounds) (view W s) db_at.
Proof.
  split; cbn [db_iterator Iterator_Valid Iterator_status Iterator_key Iterator_value Iterator_SeekToFirst Iterator_SeekToLast
    Iterator_Next Iterator_Prev Iterator_Seek]; rewrite ?length_view.
  - intros this c. apply db_valid.
  - intros this c (_ & Hst & _ & p & Hp & _). unfold DBIter_status. rewrite Hst. cbn [ok status_OK]. by apply (iterates_status _ _ HR _ p).
  - intros this c key value Hat He. pose proof (lookup_lt_Some _ _ _ He) as Hlt. rewrite length_view in Hlt.
    destruct (db_at_live this c Hat Hlt) as (i & w & Hi & Hl & Hw & Hv).
    rewrite (live_lookup W s c i w Hi Hl) in He. injection He as <- <-.
    destruct Hat as (_ & _ & _ & p & Hp & Hc). rewrite Hi in Hc. destruct Hc as (_ & w' & Hl' & Hdir).
    pose proof (live_unique W s i w' w Hl' Hl). subst w'. unfold DBIter_key, DBIter_value. rewrite Hv. cbn [require mbind outcome_bind].
    destruct (dbi_direction_ this).
    + subst p. change (bool_decide (kForward = kForward)) with true. cbv iota.
      split; [by apply (iter_user_key_ok this i)|by apply (R_entry _ i w)].
    + change (bool_decide (kReverse = kForward)) with false. cbv iota. destruct Hdir as (-> & -> & _). done.
  - intros this c. apply DBIter_SeekToFirst_ok.
  - intros this c. apply DBIter_SeekToLast_ok.
  - intros this c. apply DBIter_Next_ok.
  - intros this c. apply DBIter_Prev_ok.
  - intros this c target. apply DBIter_Seek_ok.
Qed.

Lemma new_DBIter_ok db it p seed : R it p → db_at (new_DBIter db it s seed) (length idx).
Proof.
  intros Hp. pose proof (RandomCompactionPeriod_ok _ (new_Random_ok seed)) as (Hb & Hr & _). unfold new_DBIter.
  destruct (RandomCompactionPeriod (new_Random seed)) as [period rnd]. cbn [fst snd] in *.
  split_and!; [done|done|split; [cbn; lia|done]|]. exists p. split; [done|]. by rewrite (proj2 (lookup_ge_None _ _)).
Qed.

End refines.

(** ** The view in terms of the writes *)

Section spec.
Context `{ComparatorLaws}.
Context (W log : list write) (s : Z).
Context (HW : Forall write_ok W) (Hsorted : @increasing _ internal_laws (map fst (map entry_of W))).
Context (Hlog : in_order log) (Hperm : W ≡ₚ log).

(** The first visible entry of a key is its last visible write. *)
Lemma first_seen_last i w :
  seen W s i w → (∀ j w', (j < i)%nat → seen W s j w' → w_key w' ≠ w_key w) →
  last (filter (visible (w_key w) s) log) = Some w.
Proof.
  intros [Hw Hseq] Hfirst. apply last_filter; [done| |done|].
  - rewrite <- Hperm. by eapply list_elem_of_lookup_2.
  - intros w' Hin [Hk Hseq']. rewrite <- Hperm in Hin. apply list_elem_of_lookup_1 in Hin as [j Hj].
    destruct (decide (j = i)) as [->|Hne]; [rewrite Hj in Hw; by injection Hw as ->|].
    destruct (decide (j < i)%nat) as [Hlt|Hge]; [by destruct (Hfirst j w' Hlt (conj Hj Hseq'))|].
    destruct (W_order W HW Hsorted i j w w' ltac:(lia) Hw Hj) as [Hlt|[_ ?]]; [|done].
    rewrite Hk in Hlt. exfalso. apply (order_irrefl (w_key w)); [by eapply (W_key_ok W HW)|done].
Qed.

Lemma first_seen_exists j w :
  seen W s j w → ∃ i w', seen W s i w' ∧ w_key w' = w_key w ∧ ∀ j' x, (j' < i)%nat → seen W s j' x → w_key x ≠ w_key w'.
Proof.
  revert w. induction j as [j IH] using lt_wf_ind. intros w Hw.
  destruct (existsb (λ x, (w_seq x <=? s) && bool_decide (w_key x = w_key w)) (take j W)) eqn:E.
  - apply existsb_exists in E as (x & Hin & Hx). rewrite andb_true_iff, Z.leb_le, bool_decide_eq_true in Hx.
    apply list_elem_of_In, list_elem_of_lookup_1 in Hin as [j' Hj']. pose proof (lookup_lt_Some _ _ _ Hj') as Hlt.
    rewrite length_take in Hlt. rewrite lookup_take_lt in Hj' by lia.
    destruct (IH j' ltac:(lia) x (conj Hj' (proj1 Hx))) as (i & w' & Hi & Hk & Hn). exists i, w'. split; [done|].
    split; [|done]. rewrite Hk. apply Hx.
  - exists j, w. split; [done|]. split; [done|]. intros j' x Hj' [Hx Hs'] Hk. apply not_true_iff_false in E. apply E.
    apply existsb_exists. exists x. split.
    + apply list_elem_of_In, (list_elem_of_lookup_2 _ j'). by rewrite lookup_take_lt.
    + rewrite andb_true_iff, Z.leb_le, bool_decide_eq_true. done.
Qed.

(** A pair is in the view when it is the last visible write to its key, and a value. *)
Lemma view_elem u v :
  (u, v) ∈ view W s ↔ ∃ w, last (filter (visible u s) log) = Some w ∧ w_type w = kTypeValue ∧ w_value w = v.
Proof.
  unfold view. rewrite list_elem_of_fmap. split.
  - intros (i & Hp & Hi). apply live_indices_in in Hi as [w (Hw & Ht & Hn)]. unfold pair_at in Hp. rewrite (proj1 Hw) in Hp.
    injection Hp as -> ->. exists w. split; [by apply (first_seen_last i)|done].
  - intros (w & Hlast & Ht & <-). pose proof (last_Some_elem_of _ _ Hlast) as Hin.
    apply list_elem_of_filter in Hin as [[Hk Hseq] Hin]. rewrite <- Hperm in Hin. apply list_elem_of_lookup_1 in Hin as [j Hj].
    destruct (first_seen_exists j w (conj Hj Hseq)) as (i & w' & Hw' & Hk' & Hn). pose proof (first_seen_last i w' Hw' Hn) as Hl.
    rewrite Hk', Hk, Hlast in Hl. injection Hl as <-. exists i. split; [|apply live_indices_in; by exists w].
    unfold pair_at. rewrite (proj1 Hw'). by rewrite Hk.
Qed.

End spec.

(** What the iterator must show of a log at a sequence number. *)
Definition shows `{ComparatorLaws} (log : list write) (s : Z) (shown : list (Slice * Slice)) : Prop :=
  increasing (map fst shown) ∧
  ∀ u v, (u, v) ∈ shown ↔ ∃ w, last (filter (visible u s) log) = Some w ∧ w_type w = kTypeValue ∧ w_value w = v.

Lemma DBIter_shows `{ComparatorLaws} {I : Type} `{!Iterator I} {DB : Type} (RecordReadSample : DB → Slice → DB) rounds
    log entries (R : I → nat → Prop) it p (db : DB) s seed :
  Forall write_ok log → in_order log → entries ≡ₚ map entry_of log → @increasing _ internal_laws (map fst entries) →
  @iterates _ internal_laws I _ entries R → R it p → 0 ≤ s ≤ kMaxSequenceNumber → (length log < rounds)%nat →
  ∃ shown RU, shows log s shown ∧ @iterates _ _ _ (db_iterator RecordReadSample rounds) shown RU ∧
    RU (new_DBIter db it s seed) (length shown).
Proof.
  intros Hok Hord Hp Hinc HR Hit Hs Hrounds. apply Permutation_map_inv in Hp as (W & -> & Hp).
  assert (Forall write_ok W) as HW by by rewrite <- Hp. assert (length W < rounds)%nat as Hl by by rewrite <- Hp.
  exists (view W s), (db_at W s R). split; [split|split].
  - by apply view_increasing.
  - intros u v. by apply view_elem.
  - by apply db_iterates.
  - rewrite length_view. eapply new_DBIter_ok; [exact Hl|exact Hit].
Qed.

(** ** Properties *)

(** C29: the iterator of the user shows the database as it was at a sequence number: over any
    iterator of the internal keys of a log of writes, [DBIter] refines a position in the
    list, sorted by user keys, of exactly the keys whose last write up to that number is a
    value, with that value - forwards, backwards, when the direction changes and for every
    seek, whatever reads are sampled. *)
Theorem DBIter_refines `{ComparatorLaws} {I : Type} `{!Iterator I} {DB : Type} (RecordReadSample : DB → Slice → DB) rounds
    log entries (R : I → nat → Prop) it p (db : DB) s seed :
  Forall write_ok log → in_order log → entries ≡ₚ map entry_of log → @increasing _ internal_laws (map fst entries) →
  @iterates _ internal_laws I _ entries R → R it p → 0 ≤ s ≤ kMaxSequenceNumber → (length log < rounds)%nat →
  ∃ shown RU, shows log s shown ∧ @iterates _ _ _ (db_iterator RecordReadSample rounds) shown RU ∧
    RU (new_DBIter db it s seed) (length shown).
Proof. apply DBIter_shows. Qed.

(** A log of three writes, the second one a deletion. *)
Definition sample_log : list write :=
  [{| w_seq := 1; w_type := kTypeValue; w_key := [97]; w_value := [1] |};
   {| w_seq := 2; w_type := kTypeDeletion; w_key := [97]; w_value := [] |};
   {| w_seq := 3; w_type := kTypeValue; w_key := [98]; w_value := [2] |}].

Lemma DBIter_refines_witness :
  ∃ shown RU, shows sample_log 3 shown ∧
    @iterates _ _ _ (@db_iterator _ Cursor (@cursor_iterator _ internal_laws) unit (λ db _, db) 4) shown RU.
Proof.
  set (entries := [entry_of {| w_seq := 2; w_type := kTypeDeletion; w_key := [97]; w_value := [] |};
    entry_of {| w_seq := 1; w_type := kTypeValue; w_key := [97]; w_value := [1] |};
    entry_of {| w_seq := 3; w_type := kTypeValue; w_key := [98]; w_value := [2] |}]).
  assert (@increasing _ internal_laws (map fst entries)) as Hinc.
  { split; repeat constructor; by vm_compute. }
  destruct (@DBIter_refines _ _ Cursor (@cursor_iterator _ internal_laws) unit (λ (db : unit) _, db) 4 sample_log entries
    (on_list entries) (new_Cursor entries) 3 tt 3 7) as (shown & RU & Hs & Hi & _).
  - repeat (apply Forall_cons_2 || apply Forall_nil_2); unfold write_ok; cbn; split_and!;
      try (by repeat constructor); vm_compute; congruence.
  - repeat constructor; cbn; lia.
  - apply Permutation_swap.
  - exact Hinc.
  - by apply (@cursor_iterates _ internal_laws).
  - done.
  - by split; vm_compute.
  - cbn. lia.
  - exists shown, RU. exact (conj Hs Hi).
Defined.
