(* ===== verification/LdbDb.v ===== *)
(** * LevelDB, db/db_impl: reading

    [Get] and [NewIterator] over the table in memory, the one that is being written to a
    file and the files, which are an interface; at any moment of the queue of writers they
    show what was answered with OK. *)

From S2P Require Import Prelude LdbCoding LdbOrder LdbFormat LdbIter LdbSkip LdbCrc LdbEnv LdbLog LdbMem LdbWrite LdbRecover LdbMerge LdbDbIter.

Section read.
Context `{user_comparator : Comparator} {F : Type} `{WritableFile F}.

(** [versions_->current()->Get], with the new [*value]. *)
Context (Version_Get : LookupKey → list Z → outcome (Status * list Z)).

(** [options.snapshot]: its sequence number. *)
Definition snapshot_of (snapshot : option Z) (db : DBImpl (F := F)) : Z :=
  match snapshot with Some s => s | None => last_sequence_ (db_versions_ db) end.

(** The references that keep the tables alive meanwhile, and the compaction that a seek may
    cause, do not change what is read. *)
Definition DBImpl_Get (db : DBImpl (F := F)) (snapshot : option Z) (key : Slice) (value : list Z) : outcome (Status * list Z) :=
  lkey ← new_LookupKey key (snapshot_of snapshot db);
  r ← MemTable_Get (db_mem_ db) lkey value status_OK;
  let '(found, value, s) := r in
  if found : bool then Ok (s, value)
  else
    r ← (match db_imm_ db with None => Ok (false, value, s) | Some imm => MemTable_Get imm lkey value s end);
    let '(found, value, s) := r in
    if found : bool then Ok (s, value) else Version_Get lkey value.

(** ** The iterators *)

(** [MemTableIterator]: the table and the position in it. *)
Record MemIterator : Type := { mem_iter_table : SkipList (list Z); mem_iter_ : SkipIterator }.

Definition on_table (f : SkipList (list Z) → SkipIterator → outcome SkipIterator) (it : MemIterator) : outcome MemIterator :=
  i ← f (mem_iter_table it) (mem_iter_ it); Ok {| mem_iter_table := mem_iter_table it; mem_iter_ := i |}.

#[export] Instance mem_iterator : Iterator MemIterator := {|
  Iterator_Valid it := @Iterator_Valid _ (memtable_iterator (mem_iter_table it)) (mem_iter_ it);
  Iterator_SeekToFirst := on_table (λ t, @Iterator_SeekToFirst _ (memtable_iterator t));
  Iterator_SeekToLast := on_table (λ t, @Iterator_SeekToLast _ (memtable_iterator t));
  Iterator_Seek it k := on_table (λ t i, @Iterator_Seek _ (memtable_iterator t) i k) it;
  Iterator_Next := on_table (λ t, @Iterator_Next _ (memtable_iterator t));
  Iterator_Prev := on_table (λ t, @Iterator_Prev _ (memtable_iterator t));
  Iterator_key it := @Iterator_key _ (memtable_iterator (mem_iter_table it)) (mem_iter_ it);
  Iterator_value it := @Iterator_value _ (memtable_iterator (mem_iter_table it)) (mem_iter_ it);
  Iterator_status it := @Iterator_status _ (memtable_iterator (mem_iter_table it)) (mem_iter_ it)
|}.

Definition MemTable_NewIterator (m : MemTable) : MemIterator := {| mem_iter_table := table_ m; mem_iter_ := new_SkipIterator |}.

(** [V] is what [current->AddIterators] adds. *)
Context {V : Type} `{!Iterator V}.

Definition child_iterators (db : DBImpl (F := F)) (version_iterators : list V) : list (MemIterator + V) :=
  inl (MemTable_NewIterator (db_mem_ db)) ::
  map (λ m, inl (MemTable_NewIterator m)) (option_list (db_imm_ db)) ++ map inr version_iterators.

Abbreviation internal_iterator := (EmptyIterator + ((MemIterator + V) + MergingIterator (MemIterator + V)))%type.

(** Its methods, which compare internal keys. *)
Definition internal_iterator_methods : Iterator internal_iterator :=
  @sum_iterator _ _ _ (@sum_iterator _ _ _ (@merging_iterator _ _ (InternalKeyComparator user_comparator))).

Definition NewInternalIterator (db : DBImpl (F := F)) (version_iterators : list V) : outcome internal_iterator :=
  NewMergingIterator (child_iterators db version_iterators).

Definition DBImpl_NewIterator {DB : Type} (self : DB) (db : DBImpl (F := F)) (snapshot : option Z)
    (version_iterators : list V) (seed : Z) : outcome (DBIter internal_iterator DB) :=
  iter ← NewInternalIterator db version_iterators;
  Ok (new_DBIter self iter (snapshot_of snapshot db) seed).

End read.

(** ** What a reader is to see *)

(** The last write to a key. *)
Definition latest (u : Slice) (log : list write) : option write := last (filter (λ w, w_key w = u) log).

Definition get_answer (seen : option write) (value : list Z) : Status * list Z :=
  match seen with
  | Some w => if w_type w =? kTypeValue then (status_OK, w_value w) else (NotFound [] [], value)
  | None => (NotFound [] [], value)
  end.

Lemma last_app {A} (a b : list A) : last (a ++ b) = match last b with Some x => Some x | None => last a end.
Proof.
  destruct b as [|x b] using rev_ind; [by rewrite app_nil_r|]. by rewrite app_assoc, !last_snoc.
Qed.

Lemma filter_all {A} (P Q : A → Prop) `{!∀ x, Decision (P x), !∀ x, Decision (Q x)} (l : list A) :
  (∀ x, x ∈ l → P x ↔ Q x) → filter P l = filter Q l.
Proof.
  induction l as [|x l IH]; intros Heq; [done|]. specialize (IH (λ y Hy, Heq y (list_elem_of_further _ _ _ Hy))).
  destruct (Heq x (list_elem_of_here _ _)) as [H1 H2].
  destruct (decide (P x)) as [Hp|Hp]; [rewrite !filter_cons_True by auto|rewrite !filter_cons_False by auto]; by rewrite IH.
Qed.

Section get.
Context `{ComparatorLaws}.

(** What the files answer when they hold a log. *)
Definition version_answers (Version_Get : LookupKey → list Z → outcome (Status * list Z)) (log : list write) : Prop :=
  ∀ u s lk value, key_ok u → len u < 2 ^ 32 - 8 → 0 ≤ s ≤ kMaxSequenceNumber → new_LookupKey u s = Ok lk →
    Version_Get lk value = Ok (get_answer (last (filter (visible u s) log)) value).

(** The tables that are read first answer with what is newer. *)
Lemma DBImpl_Get_ok {F} `{!WritableFile F} Version_Get (db : DBImpl (F := F)) snapshot old imm_log mem_log u value :
  version_answers Version_Get old → match db_imm_ db with None => imm_log = [] | Some m => logged m imm_log end →
  logged (db_mem_ db) mem_log → key_ok u → len u < 2 ^ 32 - 8 → 0 ≤ snapshot_of snapshot db ≤ kMaxSequenceNumber →
  DBImpl_Get Version_Get db snapshot u value =
    Ok (get_answer (last (filter (visible u (snapshot_of snapshot db)) (old ++ imm_log ++ mem_log))) value).
Proof.
  intros Hold Himm Hmem Hu Hl Hs. unfold DBImpl_Get. set (s := snapshot_of snapshot db) in *.
  destruct (new_LookupKey_ok u s Hl Hs) as (lk & Elk & _). rewrite Elk. cbn [mbind outcome_bind].
  rewrite (MemTable_Get_ok _ _ u s lk value status_OK Hmem Hu Hl Hs Elk). cbn [mbind outcome_bind].
  rewrite !filter_app, !last_app. unfold answer, get_answer.
  destruct (last (filter (visible u s) mem_log)) as [w|]; [by destruct (w_type w =? kTypeValue)|].
  destruct (db_imm_ db) as [m|].
  - rewrite (MemTable_Get_ok _ _ u s lk value status_OK Himm Hu Hl Hs Elk). cbn [mbind outcome_bind]. unfold answer.
    destruct (last (filter (visible u s) imm_log)) as [w|]; [by destruct (w_type w =? kTypeValue)|]. exact (Hold u s lk value Hu Hl Hs Elk).
  - rewrite Himm. cbn. exact (Hold u s lk value Hu Hl Hs Elk).
Qed.

End get.

(** ** The children of the internal iterator *)

Section children.
Context `{ComparatorLaws}.

(** Keys whose internal keys have a length that fits 32 bits, as a table in memory stores it. *)
Definition keys_short : Prop := ∀ k, key_ok k → len k < 2 ^ 32 - 8.
Context (Hshort : keys_short).

Lemma internal_key_fits k : internal_key_ok k → len k < 2 ^ 32.
Proof.
  intros (H8 & Hu & _). specialize (Hshort _ Hu). unfold ukey in Hshort. rewrite length_take in Hshort. lia.
Qed.

Definition mem_at (m : MemTable) (entries : list (Slice * Slice)) (it : MemIterator) (c : nat) : Prop :=
  mem_iter_table it = table_ m ∧ skip_on (table_ m) (map encode_entry entries) (mem_iter_ it) c.

Lemma mem_iterates m entries : holds m entries → @iterates _ internal_laws MemIterator mem_iterator entries (mem_at m entries).
Proof.
  intros Hh. pose proof (memtable_iterates m entries Hh) as HR.
  assert (∀ f it, mem_iter_table it = table_ m → (∃ i c, f (table_ m) (mem_iter_ it) = Ok i ∧ skip_on (table_ m) (map encode_entry entries) i c) →
    ∃ i c, on_table f it = Ok {| mem_iter_table := table_ m; mem_iter_ := i |} ∧ f (table_ m) (mem_iter_ it) = Ok i ∧
      skip_on (table_ m) (map encode_entry entries) i c) as Hon.
  { intros f it Et (i & c & E & Hi). exists i, c. unfold on_table. by rewrite Et, E. }
  split; cbn [mem_iterator Iterator_Valid Iterator_status Iterator_key Iterator_value Iterator_SeekToFirst Iterator_SeekToLast
    Iterator_Next Iterator_Prev Iterator_Seek].
  - intros it c [-> Hc]. by apply (iterates_valid _ _ HR).
  - intros it c [-> Hc]. by apply (iterates_status _ _ HR _ c).
  - intros it c key value [-> Hc]. by apply (iterates_entry _ _ HR).
  - intros it c [Et Hc]. destruct (iterates_first _ _ HR _ _ Hc) as (i & E & Hi). unfold on_table. rewrite Et, E. cbn. eexists. by split.
  - intros it c [Et Hc]. destruct (iterates_last _ _ HR _ _ Hc) as (i & E & Hi). unfold on_table. rewrite Et, E. cbn. eexists. by split.
  - intros it c [Et Hc] Hl. destruct (iterates_next _ _ HR _ _ Hc Hl) as (i & E & Hi). unfold on_table. rewrite Et, E. cbn. eexists. by split.
  - intros it c [Et Hc] Hl. destruct (iterates_prev _ _ HR _ _ Hc Hl) as (i & E & Hi). unfold on_table. rewrite Et, E. cbn. eexists. by split.
  - intros it c target [Et Hc] Ht. destruct (iterates_seek _ _ HR _ _ target Hc) as (i & c' & E & Hi & Hs).
    { split; [done|by apply internal_key_fits]. }
    unfold on_table. rewrite Et, E. cbn. eexists _, c'. by split_and!.
Qed.

Lemma mem_start m entries : holds m entries → mem_at m entries (MemTable_NewIterator m) (length entries).
Proof.
  intros [(L & Hwf & Hkeys) _]. split; [done|]. exists L. split; [done|]. split; [done|].
  apply (f_equal length) in Hkeys. rewrite !length_map in Hkeys. unfold skip_at. rewrite Hkeys. split; [done|].
  cbn. symmetry. by apply lookup_ge_None.
Qed.

(** A list of iterators over the entries of a log, each at some position. *)
Definition iterate_log {I : Type} `{!Iterator I} (its : list I) (log : list write) : Prop :=
  ∃ (Es : list (list (Slice * Slice))) (Rs : list (I → nat → Prop)),
    length Es = length its ∧ length Rs = length its ∧ concat Es ≡ₚ map entry_of log ∧
    ∀ i it E R, its !! i = Some it → Es !! i = Some E → Rs !! i = Some R →
      @iterates _ internal_laws I _ E R ∧ @increasing _ internal_laws (map fst E) ∧ ∃ c, R it c.

Lemma iterate_log_app {I : Type} `{!Iterator I} its1 its2 log1 log2 :
  iterate_log (I := I) its1 log1 → iterate_log (I := I) its2 log2 → iterate_log (its1 ++ its2) (log1 ++ log2).
Proof.
  intros (Es1 & Rs1 & Hl1 & Hr1 & Hp1 & H1') (Es2 & Rs2 & Hl2 & Hr2 & Hp2 & H2'). exists (Es1 ++ Es2), (Rs1 ++ Rs2).
  rewrite !length_app. split; [lia|]. split; [lia|]. split; [by rewrite concat_app, map_app, Hp1, Hp2|].
  intros i it E R Hi HE HR. destruct (decide (i < length its1)%nat) as [Hlt|Hge].
  - rewrite lookup_app_l in Hi by lia. rewrite lookup_app_l in HE by lia. rewrite lookup_app_l in HR by lia. by eapply H1'.
  - rewrite lookup_app_r in Hi by lia. rewrite lookup_app_r in HE by lia. rewrite lookup_app_r in HR by lia. rewrite Hl1 in HE. rewrite Hr1 in HR. by eapply H2'.
Qed.

Lemma iterate_log_map {I J : Type} `{!Iterator I} `{!Iterator J} (f : I → J) (g : (I → nat → Prop) → J → nat → Prop) its log :
  (∀ E R, @iterates _ internal_laws I _ E R → @iterates _ internal_laws J _ E (g R)) →
  (∀ R it c, R it c → g R (f it) c) → iterate_log its log → iterate_log (map f its) log.
Proof.
  intros Hit Hat (Es & Rs & Hl & Hr & Hp & Hall). exists Es, (map g Rs). rewrite !length_map.
  split; [done|]. split; [done|]. split; [done|]. intros i j E R Hi HE HR. rewrite !list_lookup_fmap in *.
  destruct (its !! i) as [it|] eqn:Ei; [|done]. destruct (Rs !! i) as [R0|] eqn:Er; [|done].
  injection Hi as <-. injection HR as <-. destruct (Hall i it E R0 Ei HE Er) as (H1' & H2' & c & Hc).
  split; [by apply Hit|]. split; [done|]. exists c. by apply Hat.
Qed.

Lemma mem_iterate_log m log : logged m log → iterate_log [MemTable_NewIterator m] log.
Proof.
  intros (Hok & Hord & entries & Hh & Hp). exists [entries], [mem_at m entries]. split; [done|]. split; [done|].
  split; [by cbn; rewrite app_nil_r|]. intros [|i] it E R Hi HE HR; [|done]. injection Hi as <-. injection HE as <-. injection HR as <-.
  split; [by apply mem_iterates|]. split; [by eapply holds_increasing|]. exists (length entries). by apply mem_start.
Qed.

(** ** Their union *)

Lemma increasing_nodup keys : @increasing _ internal_laws keys → NoDup keys.
Proof.
  intros [Hok Hs]. induction Hs as [|k keys Hs IH Hk]; [constructor|]. apply Forall_cons in Hok as [Hkk Hok].
  constructor; [|by apply IH]. intros Hin. pose proof (proj1 (Forall_forall _ _) Hk k Hin) as Hlt.
  by apply (@order_irrefl _ internal_laws k Hkk).
Qed.

Lemma sorted_entries log :
  Forall write_ok log → in_order log → ∃ M, M ≡ₚ map entry_of log ∧ @increasing _ internal_laws (map fst M).
Proof.
  intros Hok Hord. assert (∃ m, logged m log) as (m & _ & _ & entries & Hh & Hp).
  { induction log as [|w log IH] using rev_ind; [exists new_MemTable; apply logged_new|].
    apply Forall_app in Hok as [Hok Hw]. apply Forall_cons in Hw as [Hw _].
    destruct IH as [m Hm]; [done| |].
    - clear -Hord. induction log as [|x log IH]; [constructor|]. apply StronglySorted_inv in Hord as [Hord Hx].
      constructor; [by apply IH|]. by apply Forall_app in Hx as [Hx _].
    - destruct (logged_add m log w Hm Hord Hw) as (m' & _ & Hm'). by exists m'. }
  exists entries. split; [done|]. by eapply holds_increasing.
Qed.

Lemma concat_distinct (Es : list (list (Slice * Slice))) i j E E' k v v' :
  NoDup (map fst (concat Es)) → Es !! i = Some E → Es !! j = Some E' → (k, v) ∈ E → (k, v') ∈ E' → i = j.
Proof.
  revert i j. induction Es as [|E0 Es IH]; intros i j Hnd Hi Hj Hv Hv'; [done|]. cbn [concat] in Hnd. rewrite map_app in Hnd.
  apply NoDup_app in Hnd as (_ & Hdis & Hnd).
  assert (∀ i (E : list (Slice * Slice)) v, Es !! i = Some E → (k, v) ∈ E → k ∈ map fst (concat Es)) as Hin.
  { intros i' E1 v1 Hl Hv1. apply list_elem_of_fmap. exists (k, v1). split; [done|]. apply list_elem_of_In, in_concat.
    exists E1. split; apply list_elem_of_In; [by eapply list_elem_of_lookup_2|done]. }
  assert (∀ v, (k, v) ∈ E0 → k ∈ map fst E0) as Hin0 by (intros v0 Hv0; apply list_elem_of_fmap; by exists (k, v0)).
  destruct i as [|i], j as [|j]; cbn in Hi, Hj; [done|injection Hi as <-|injection Hj as <-|f_equal; by eapply IH].
  - destruct (Hdis k (Hin0 v Hv)). by eapply Hin.
  - destruct (Hdis k (Hin0 v' Hv')). by eapply Hin.
Qed.

Lemma children_merged {I : Type} `{!Iterator I} its log M (Es : list (list (Slice * Slice))) (Rs : list (I → nat → Prop)) :
  length Es = length its → length Rs = length its → concat Es ≡ₚ map entry_of log → M ≡ₚ map entry_of log →
  @increasing _ internal_laws (map fst M) →
  (∀ i it E R, its !! i = Some it → Es !! i = Some E → Rs !! i = Some R →
      @iterates _ internal_laws I _ E R ∧ @increasing _ internal_laws (map fst E) ∧ ∃ c, R it c) →
  @merged I _ _ internal_laws (length its) (λ i, default [] (Es !! i)) (λ i, default (λ _ _, False) (Rs !! i)) M.
Proof.
  intros HE HR Hp HpM Hinc Hall.
  assert (∀ i, (i < length its)%nat → ∃ it E R, its !! i = Some it ∧ Es !! i = Some E ∧ Rs !! i = Some R) as Hget.
  { intros i Hi. destruct (lookup_lt_is_Some_2 its i Hi) as [it Hit]. destruct (lookup_lt_is_Some_2 Es i) as [E Ei]; [lia|].
    destruct (lookup_lt_is_Some_2 Rs i) as [R Ri]; [lia|]. by exists it, E, R. }
  assert (∀ e, e ∈ M ↔ ∃ i E, Es !! i = Some E ∧ e ∈ E) as Helem.
  { intros e. rewrite HpM, <- Hp, list_elem_of_In, in_concat. split.
    - intros (E & HinE & HinE'). apply list_elem_of_In, list_elem_of_lookup_1 in HinE as [i Hi]. exists i, E. split; [done|]. by apply list_elem_of_In.
    - intros (i & E & Hi & He). exists E. split; apply list_elem_of_In; [by eapply list_elem_of_lookup_2|done]. }
  split.
  - intros i Hi. destruct (Hget i Hi) as (it & E & R & E1 & E2 & E3). rewrite E2, E3. by destruct (Hall i it E R E1 E2 E3).
  - done.
  - intros i Hi. destruct (Hget i Hi) as (it & E & R & E1 & E2 & E3). rewrite E2. by destruct (Hall i it E R E1 E2 E3) as (_ & ? & _).
  - intros e. rewrite Helem. split.
    + intros (i & E & Hi & He). exists i. rewrite Hi. split; [|done]. rewrite <- HE. by eapply lookup_lt_Some.
    + intros (i & Hi & He). destruct (Es !! i) as [E|] eqn:Ei; [|by apply not_elem_of_nil in He]. by exists i, E.
  - intros i j k v v' Hi Hj Hv Hv'. destruct (Es !! i) as [E|] eqn:Ei; [|by apply not_elem_of_nil in Hv].
    destruct (Es !! j) as [E'|] eqn:Ej; [|by apply not_elem_of_nil in Hv']. cbn in Hv, Hv'.
    eapply (concat_distinct Es i j); [|done..]. rewrite Hp, <- HpM. by apply increasing_nodup.
Qed.

Lemma NewMergingIterator_log {I : Type} `{!Iterator I} (its : list I) log M :
  iterate_log its log → M ≡ₚ map entry_of log → @increasing _ internal_laws (map fst M) →
  ∃ it RM c, NewMergingIterator its = Ok it ∧
    @iterates _ internal_laws _ (@sum_iterator _ _ _ (@sum_iterator _ _ _ (@merging_iterator _ _ (InternalKeyComparator _)))) M RM ∧ RM it c.
Proof.
  intros (Es & Rs & Hl & Hr & Hp & Hall) HpM Hinc.
  apply (@NewMergingIterator_ok I _ _ internal_laws (length its) (λ i, default [] (Es !! i)) (λ i, default (λ _ _, False) (Rs !! i)) M its).
  - by eapply children_merged.
  - done.
  - intros i it Hi. pose proof (lookup_lt_Some _ _ _ Hi) as Hlt. destruct (lookup_lt_is_Some_2 Es i) as [E Ei]; [lia|].
    destruct (lookup_lt_is_Some_2 Rs i) as [R Ri]; [lia|]. rewrite Ri. by destruct (Hall i it E R Hi Ei Ri) as (_ & _ & ?).
Qed.

End children.

(** ** At any moment of the queue of writers *)

Section now.
Context `{ComparatorLaws} `{Memory} {F : Type} `{WritableFileLaws F}.
Context (base : Z) (old : list write).

(** What the database held when it was opened. *)
Record old_log : Prop := {
  old_ok : Forall write_ok old;
  old_order : in_order old;
  old_sequence : Forall (λ w, w_seq w ≤ base) old
}.
Context (Hold : old_log).

(** What it holds when these calls were answered. *)
Definition current_log (answered : list (request * Status)) : list write := old ++ writes_of (base + 1) (committed answered).

Lemma in_order_app a b : in_order a → in_order b → (∀ x y, x ∈ a → y ∈ b → w_seq x < w_seq y) → in_order (a ++ b).
Proof.
  intros Ha Hb Hab. induction Ha as [|x a Ha IH Hx]; [done|]. cbn [app]. constructor.
  - apply IH. intros y z Hy. apply Hab. by right.
  - apply Forall_app_2; [done|]. apply List.Forall_forall. intros y Hy%list_elem_of_In. apply Hab; [by left|done].
Qed.

Lemma total_order ops : in_order (old ++ writes_of (base + 1) ops).
Proof.
  apply in_order_app; [apply Hold|apply writes_of_order|]. intros x y Hx Hy. apply writes_of_seq in Hy.
  pose proof (proj1 (Forall_forall _ _) (old_sequence Hold) x Hx) as Hle. cbn in Hle. lia.
Qed.

(** The number up to which is read: a group is seen when it is answered, as a whole. *)
Lemma sequence_splits (s : system (F := F)) answered pending logs imm_log groups lost applied :
  0 ≤ base → invariant_with base s answered pending logs imm_log groups lost applied →
  base + len (committed answered) ≤ last_sequence_ (db_versions_ (sys_db s)) ≤ kMaxSequenceNumber ∧
  (applied = [] ∨ last_sequence_ (db_versions_ (sys_db s)) = base + len (committed answered)).
Proof.
  intros Hbase [Hq _ _ Hp _ _]. pose proof (queue_room _ _ _ _ Hq) as Hroom.
  destruct (sys_phase s) as [| |u t l n|st e t l n]; cbn [phase_ok settled] in Hp.
  - destruct Hp as (-> & _ & [[_ ->]|(_ & Hs & _)]); (split; [lia|by left]).
  - destruct Hp as (_ & -> & _ & [[_ ->]|(_ & Hs & _)]); (split; [lia|by left]).
  - destruct Hp as (-> & _ & group & Hon & _). rewrite (on_versions _ _ _ _ _ _ _ Hon). split; [lia|by left].
  - destruct Hp as (group & Hon & _). rewrite (on_versions _ _ _ _ _ _ _ Hon). split; [lia|by right].
Qed.

Lemma seen_now (s : system (F := F)) answered pending logs imm_log groups lost applied u :
  0 ≤ base → invariant_with base s answered pending logs imm_log groups lost applied →
  filter (visible u (last_sequence_ (db_versions_ (sys_db s)))) ((old ++ concat logs) ++ imm_log ++ log_of groups) =
  filter (λ w, w_key w = u) (current_log answered).
Proof.
  intros Hbase Hinv. destruct (sequence_splits _ _ _ _ _ _ _ _ Hbase Hinv) as [Hseq Happ].
  pose proof (tables_writes _ _ _ _ _ _ _ (inv_tables _ _ _ _ _ _ _ _ _ Hinv)) as Hw.
  rewrite <- app_assoc, Hw, writes_of_app. unfold current_log. rewrite app_assoc, filter_app.
  rewrite (filter_none (visible u _) (writes_of (base + 1 + _) applied)), app_nil_r.
  - apply filter_all. intros w Hin. unfold visible. split; [by intros [? _]|]. intros Hk. split; [done|].
    apply elem_of_app in Hin as [Hin|Hin].
    + pose proof (proj1 (Forall_forall _ _) (old_sequence Hold) w Hin) as Hle. cbn in Hle. lia.
    + apply writes_of_seq in Hin. lia.
  - intros w Hin [_ Hle]. apply writes_of_seq in Hin. destruct Happ as [->|Heq]; [cbn in Hin; lia|lia].
Qed.

Lemma logs_ok (s : system (F := F)) answered pending logs imm_log groups lost applied :
  invariant_with base s answered pending logs imm_log groups lost applied →
  Forall write_ok ((old ++ concat logs) ++ imm_log ++ log_of groups) ∧ in_order ((old ++ concat logs) ++ imm_log ++ log_of groups).
Proof.
  intros [_ [Hf Hi Hm Hw] _ _ _ _]. split.
  - apply Forall_app_2; [apply Forall_app_2; [apply Hold|]|apply Forall_app_2; [|apply Hm]].
    + clear -Hf. induction Hf as [|m log ms logs Hlog _ IH]; [constructor|]. cbn. apply Forall_app_2; [apply Hlog|done].
    + destruct (db_imm_ (sys_db s)); [apply Hi|by subst].
  - rewrite <- app_assoc, Hw. apply total_order.
Qed.

(** ** The iterator *)

(** The keys whose last write is a value, in order, with that value. *)
Definition shows_now (log : list write) (shown : list (Slice * Slice)) : Prop :=
  increasing (map fst shown) ∧
  ∀ u v, (u, v) ∈ shown ↔ ∃ w, latest u log = Some w ∧ w_type w = kTypeValue ∧ w_value w = v.

Lemma NewInternalIterator_ok {V : Type} `{!Iterator V} (db : DBImpl (F := F)) (its : list V) file_log imm_log mem_log M :
  keys_short → iterate_log its file_log → match db_imm_ db with None => imm_log = [] | Some m => logged m imm_log end →
  logged (db_mem_ db) mem_log → M ≡ₚ map entry_of (file_log ++ imm_log ++ mem_log) → @increasing _ internal_laws (map fst M) →
  ∃ it RM c, NewInternalIterator db its = Ok it ∧
    @iterates _ internal_laws _ internal_iterator_methods M RM ∧ RM it c.
Proof.
  intros Hshort Hfile Himm Hmem HM Hinc. unfold NewInternalIterator.
  assert (∀ m log, logged m log → iterate_log [inl (MemTable_NewIterator m) : MemIterator + V] log) as Hchild.
  { intros m log Hm. apply (iterate_log_map (I := MemIterator) (J := MemIterator + V) inl (λ R, sum_at R (λ _ _, False)) [MemTable_NewIterator m]).
    - intros E R. apply (@inl_iterates _ internal_laws).
    - done.
    - by apply mem_iterate_log. }
  assert (iterate_log (child_iterators db its) (mem_log ++ imm_log ++ file_log)) as Hits.
  { unfold child_iterators. change (inl (MemTable_NewIterator (db_mem_ db)) :: ?l) with ([inl (MemTable_NewIterator (db_mem_ db))] ++ l).
    apply iterate_log_app; [by apply Hchild|]. apply iterate_log_app.
    - destruct (db_imm_ db) as [m|]; cbn [option_list map]; [by apply Hchild|]. rewrite Himm.
      exists [], []. split; [done|]. split; [done|]. split; [done|]. intros i ? ? ? Hi. by destruct i.
    - apply (iterate_log_map (I := V) (J := MemIterator + V) inr (λ R, sum_at (λ _ _, False) R)); [|done|done].
      intros E R. apply (@inr_iterates _ internal_laws). }
  eapply NewMergingIterator_log; [exact Hits| |exact Hinc].
  rewrite HM, !map_app. rewrite (Permutation_app_comm (map entry_of file_log)), <- app_assoc.
  by rewrite Permutation_app_comm, <- app_assoc, (Permutation_app_comm (map entry_of file_log)).
Qed.

Lemma DBImpl_NewIterator_now {V : Type} `{!Iterator V} {DB : Type} (sample : DB → Slice → DB) rounds (self : DB) its seed
    (s : system (F := F)) answered pending logs imm_log groups lost applied :
  0 ≤ base → keys_short → invariant_with base s answered pending logs imm_log groups lost applied →
  iterate_log (I := V) its (old ++ concat logs) → (length ((old ++ concat logs) ++ imm_log ++ log_of groups) < rounds)%nat →
  ∃ it shown RU, DBImpl_NewIterator self (sys_db s) None its seed = Ok it ∧ shows_now (current_log answered) shown ∧
    @iterates _ _ _ (@db_iterator _ _ internal_iterator_methods _ sample rounds) shown RU ∧ RU it (length shown).
Proof.
  intros Hbase Hshort Hinv Hfile Hrounds. destruct (logs_ok _ _ _ _ _ _ _ _ Hinv) as [Hok Hord].
  destruct (sorted_entries _ Hok Hord) as (M & HM & Hinc). pose proof (inv_tables _ _ _ _ _ _ _ _ _ Hinv) as [_ Himm Hmem _].
  destruct (NewInternalIterator_ok (sys_db s) its _ imm_log _ M Hshort Hfile Himm Hmem HM Hinc) as (it & RM & c & Eit & HRM & Hat).
  destruct (sequence_splits _ _ _ _ _ _ _ _ Hbase Hinv) as [Hseq _].
  destruct (@DBIter_shows _ _ _ internal_iterator_methods _ sample rounds _ M RM it c self (last_sequence_ (db_versions_ (sys_db s))) seed Hok Hord HM Hinc HRM Hat) as
    (shown & RU & [Hsi Hsu] & HRU & Hstart); [split; [lia|apply Hseq]|done|].
  eexists _, shown, RU. split; [unfold DBImpl_NewIterator; rewrite Eit; reflexivity|]. split; [|by split].
  split; [done|]. intros u v. rewrite Hsu. by rewrite (seen_now _ _ _ _ _ _ _ _ _ Hbase Hinv).
Qed.

(** ** Snapshots *)

(** A snapshot is the number of the last write that was answered. *)
Lemma snapshot_sequence (s : system (F := F)) answered pending logs imm_log groups lost applied :
  invariant_with base s answered pending logs imm_log groups lost applied → ok (db_bg_error_ (sys_db s)) = true →
  last_sequence_ (db_versions_ (sys_db s)) = base + len (committed answered).
Proof.
  intros [_ _ _ Hp _ _] Hgood. destruct (sys_phase s) as [| |u t l n|st e t l n]; cbn [phase_ok settled] in Hp.
  - destruct Hp as (_ & _ & [[_ ->]|(Hbad & _)]); [done|congruence].
  - destruct Hp as (_ & _ & _ & [[_ ->]|(Hbad & _)]); [done|congruence].
  - destruct Hp as (_ & _ & group & Hon & _). exact (on_versions _ _ _ _ _ _ _ Hon).
  - destruct Hp as (group & Hon & _). exact (on_versions _ _ _ _ _ _ _ Hon).
Qed.

Lemma answered_prefix (l l' : list (request * Status)) p p' :
  map fst l ++ p `prefix_of` map fst l' ++ p' → map answer_of l `prefix_of` map answer_of l' → l `prefix_of` l'.
Proof.
  revert l'. induction l as [|[req st] l IH]; intros l' Hr Ha; [apply prefix_nil|].
  destruct l' as [|[req' st'] l']; [by apply prefix_nil_not in Ha|]. cbn in Hr, Ha.
  apply prefix_cons_inv_1 in Hr as Er. apply prefix_cons_inv_2 in Hr, Ha as Ha'. apply prefix_cons_inv_1 in Ha as Ea.
  injection Ea as _ ->. rewrite Er. by apply prefix_cons, IH.
Qed.

Lemma step_grows usage create buffer_size good (s s' : system (F := F)) :
  rtc (step usage create buffer_size good) s s' → sys_requests s `prefix_of` sys_requests s' ∧ sys_answers s `prefix_of` sys_answers s'.
Proof.
  induction 1 as [s|s1 s2 s3 Hstep _ [IH1 IH2]]; [done|].
  assert (sys_requests s1 `prefix_of` sys_requests s2 ∧ sys_answers s1 `prefix_of` sys_answers s2) as [H1' H2'].
  { destruct Hstep; cbn; split; try done; by apply prefix_app_r. }
  split; by etrans.
Qed.

(** What is seen at the number of an earlier moment is what was there then. *)
Lemma seen_then (s' : system (F := F)) answered answered' pending' logs' imm_log' groups' lost' applied' u :
  0 ≤ base → answered `prefix_of` answered' → invariant_with base s' answered' pending' logs' imm_log' groups' lost' applied' →
  filter (visible u (base + len (committed answered))) ((old ++ concat logs') ++ imm_log' ++ log_of groups') =
  filter (λ w, w_key w = u) (current_log answered).
Proof.
  intros Hbase [more ->] Hinv. pose proof (tables_writes _ _ _ _ _ _ _ (inv_tables _ _ _ _ _ _ _ _ _ Hinv)) as Hw.
  rewrite <- app_assoc, Hw, committed_app, <- app_assoc, writes_of_app. unfold current_log. rewrite app_assoc, filter_app.
  rewrite (filter_none (visible u _) (writes_of (base + 1 + _) _)), app_nil_r.
  - apply filter_all. intros w Hin. unfold visible. split; [by intros [? _]|]. intros Hk. split; [done|].
    apply elem_of_app in Hin as [Hin|Hin].
    + pose proof (proj1 (Forall_forall _ _) (old_sequence Hold) w Hin) as Hle. cbn in Hle. lia.
    + apply writes_of_seq in Hin. lia.
  - intros w Hin [_ Hle]. apply writes_of_seq in Hin. lia.
Qed.

End now.

(** ** Properties *)

(** C21: [Get] reads what was written. Whatever the queue of writers is doing, a lookup without
    a snapshot finds the last write to the key among what the database held when it was
    opened and the calls that were answered with OK - a value, or NotFound if it is a
    deletion or there is none - provided that the files answer for what they hold; a group
    that is being written is not seen before it is answered, and then as a whole. *)
Theorem DBImpl_Get_reads `{ComparatorLaws} `{Memory} `{WritableFileLaws F} usage (create : Z → F → Status * F) buffer_size base old db s :
  creates_files create → 0 ≤ base ≤ kMaxSequenceNumber → opened base db → old_log base old →
  rtc (step usage create buffer_size (requests_ok base)) (start db) s →
  ∃ answered pending file_log,
    sys_requests s = map fst answered ++ pending ∧ sys_answers s = map answer_of answered ∧ tables_hold (sys_tables s) file_log ∧
    ∀ Version_Get u value, version_answers Version_Get (old ++ file_log) → key_ok u → len u < 2 ^ 32 - 8 →
      DBImpl_Get Version_Get (sys_db s) None u value = Ok (get_answer (latest u (current_log base old answered)) value).
Proof.
  intros Hnew Hbase Ho Hold Hr.
  destruct (reachable_ok usage create buffer_size base db s Hnew Hbase Ho Hr) as (answered & pending & logs & imm_log & groups & lost & applied & Hinv).
  exists answered, pending, (concat logs). pose proof Hinv as [Hq [Hf Himm Hmem _] _ _ _ _].
  split; [apply Hq|]. split; [apply Hq|]. split; [by exists logs|]. intros Version_Get u value Hver Hu Hl.
  destruct (sequence_splits base s _ _ _ _ _ _ _ ltac:(lia) Hinv) as [Hseq _].
  rewrite (DBImpl_Get_ok Version_Get (sys_db s) None (old ++ concat logs) imm_log (log_of groups) u value Hver Himm Hmem Hu Hl); [|cbn; lia].
  cbn [snapshot_of]. by rewrite (seen_now base old Hold s _ _ _ _ _ _ _ u ltac:(lia) Hinv).
Qed.

(** C22: [NewIterator] shows what was written. Whatever the queue of writers is doing, the
    iterator over the tables in memory and those of the files - merged, and then reduced to
    the entries of the user - refines a position in the list, in the order of the user's
    comparator, of exactly the keys whose last write is a value, among what the database
    held when it was opened and the calls that were answered with OK; in both directions
    and for every seek. *)
Theorem DBImpl_NewIterator_shows `{ComparatorLaws} `{Memory} `{WritableFileLaws F} {V : Type} `{!Iterator V} {DB : Type}
    usage (create : Z → F → Status * F) buffer_size base old db s (sample : DB → Slice → DB) (self : DB) seed :
  creates_files create → 0 ≤ base ≤ kMaxSequenceNumber → opened base db → old_log base old → keys_short →
  rtc (step usage create buffer_size (requests_ok base)) (start db) s →
  ∃ answered pending file_log size,
    sys_requests s = map fst answered ++ pending ∧ sys_answers s = map answer_of answered ∧ tables_hold (sys_tables s) file_log ∧
    ∀ (its : list V) rounds, iterate_log its (old ++ file_log) → (size < rounds)%nat →
      ∃ it shown RU, DBImpl_NewIterator self (sys_db s) None its seed = Ok it ∧ shows_now (current_log base old answered) shown ∧
        @iterates _ _ _ (@db_iterator _ _ internal_iterator_methods _ sample rounds) shown RU ∧ RU it (length shown).
Proof.
  intros Hnew Hbase Ho Hold Hshort Hr.
  destruct (reachable_ok usage create buffer_size base db s Hnew Hbase Ho Hr) as (answered & pending & logs & imm_log & groups & lost & applied & Hinv).
  exists answered, pending, (concat logs), (length ((old ++ concat logs) ++ imm_log ++ log_of groups)). pose proof Hinv as [Hq [Hf _ _ _] _ _ _ _].
  split; [apply Hq|]. split; [apply Hq|]. split; [by exists logs|]. intros its rounds Hits Hrounds.
  exact (DBImpl_NewIterator_now base old Hold sample rounds self its seed s _ _ _ _ _ _ _ ltac:(lia) Hshort Hinv Hits Hrounds).
Qed.

(** C23: a snapshot stays. Take the number that [GetSnapshot] remembers at any moment without
    a background error, let the queue of writers and the compactions go on as they like,
    and look a key up with the snapshot: the answer is that of the moment when it was taken,
    whatever was written to the key since, provided that the files still answer for what
    they were given. *)
Theorem DBImpl_Get_snapshot `{ComparatorLaws} `{Memory} `{WritableFileLaws F} usage (create : Z → F → Status * F) buffer_size base old db s s' :
  creates_files create → 0 ≤ base ≤ kMaxSequenceNumber → opened base db → old_log base old →
  rtc (step usage create buffer_size (requests_ok base)) (start db) s →
  rtc (step usage create buffer_size (requests_ok base)) s s' → ok (db_bg_error_ (sys_db s)) = true →
  ∃ answered pending file_log,
    sys_requests s = map fst answered ++ pending ∧ sys_answers s = map answer_of answered ∧ tables_hold (sys_tables s') file_log ∧
    ∀ Version_Get u value, version_answers Version_Get (old ++ file_log) → key_ok u → len u < 2 ^ 32 - 8 →
      DBImpl_Get Version_Get (sys_db s') (Some (last_sequence_ (db_versions_ (sys_db s)))) u value =
        Ok (get_answer (latest u (current_log base old answered)) value).
Proof.
  intros Hnew Hbase Ho Hold Hr Hr' Hgood.
  destruct (reachable_ok usage create buffer_size base db s Hnew Hbase Ho Hr) as (answered & pending & l1 & l2 & l3 & l4 & l5 & Hinv).
  destruct (reachable_ok usage create buffer_size base db s' Hnew Hbase Ho ltac:(by etrans)) as
    (answered' & pending' & logs & imm_log & groups & lost & applied & Hinv').
  exists answered, pending, (concat logs). pose proof Hinv' as [Hq' [Hf Himm Hmem _] _ _ _ _]. pose proof (inv_queue _ _ _ _ _ _ _ _ _ Hinv) as Hq.
  split; [apply Hq|]. split; [apply Hq|]. split; [by exists logs|]. intros Version_Get u value Hver Hu Hl.
  destruct (step_grows _ _ _ _ _ _ Hr') as [Hreq Hans]. rewrite (queue_requests _ _ _ _ Hq), (queue_requests _ _ _ _ Hq') in Hreq.
  rewrite (queue_answers _ _ _ _ Hq), (queue_answers _ _ _ _ Hq') in Hans. pose proof (answered_prefix _ _ _ _ Hreq Hans) as Hprefix.
  pose proof (snapshot_sequence base s _ _ _ _ _ _ _ Hinv Hgood) as Hseq. destruct (sequence_splits base s _ _ _ _ _ _ _ ltac:(lia) Hinv) as [Hmax _].
  rewrite (DBImpl_Get_ok Version_Get (sys_db s') _ (old ++ concat logs) imm_log (log_of groups) u value Hver Himm Hmem Hu Hl); [|cbn; lia].
  cbn [snapshot_of]. rewrite Hseq. by rewrite (seen_then base old Hold s' _ _ _ _ _ _ _ _ u ltac:(lia) Hprefix Hinv').
Qed.

#[local] Existing Instance zero_memory.

Lemma sample_answered s (answered : list (request * Status)) pending :
  sys_requests (F := PosixWritableFile * kernel) s = calls sample_events → sys_answers s = [(1%nat, status_OK); (2%nat, status_OK)] →
  sys_requests s = map fst answered ++ pending → sys_answers s = map answer_of answered →
  committed answered = [op_Put [107] [118]; op_Delete [107]; op_Put [97] [1; 2]].
Proof.
  intros Hr Ha Hr' Ha'. rewrite Hr in Hr'. rewrite Ha in Ha'.
  destruct answered as [|[r1 a1] [|[r2 a2] [|]]]; [discriminate..| |discriminate].
  injection Ha' as _ <- _ <-. injection Hr' as <- <- _. reflexivity.
Qed.

Lemma no_tables `{ComparatorLaws} log : tables_hold [] log → log = [].
Proof. intros (logs & Hall & <-). by inversion Hall. Qed.

Lemma DBImpl_Get_reads_witness :
  ∃ db s, sample_db = Ok db ∧ run (λ _, 0) sample_create 4096 sample_events (start db) = Ok s ∧
    DBImpl_Get (λ _ value, Ok (NotFound [] [], value)) (sys_db s) None [97] [] = Ok (status_OK, [1; 2]).
Proof.
  destruct sample_run as (db & s & Edb & Erun & Hreqs & Hans & _ & _ & Htab).
  pose proof (run_steps (λ _, 0) sample_create 4096 7 sample_events (start db) s sample_requests Erun) as Hsteps.
  destruct (DBImpl_Get_reads (λ _, 0) sample_create 4096 7 [] db s) as (answered & pending & file_log & Hr & Ha & Hf & Hget).
  - exact sample_creates.
  - split; by vm_compute.
  - by apply sample_opened.
  - by split; constructor.
  - exact Hsteps.
  - exists db, s. split; [exact Edb|]. split; [exact Erun|]. rewrite Htab in Hf. apply no_tables in Hf as ->.
    rewrite (Hget (λ _ value, Ok (NotFound [] [], value)) [97] []).
    + unfold current_log. rewrite (sample_answered s answered pending Hreqs Hans Hr Ha). reflexivity.
    + by intros u sq lk value _ _ _ _.
    + by apply (bool_decide_unpack _); vm_compute.
    + done.
Defined.

(** Keys of bytes below 4 GB. *)
Lemma bytewise_separator_short start limit : (length (bytewise_separator start limit) ≤ length start)%nat.
Proof.
  revert limit. induction start as [|x start IH]; intros [|l limit]; cbn; try lia. destruct (x =? l); cbn; [specialize (IH limit); lia|].
  destruct (_ && _); cbn; lia.
Qed.

Lemma bytewise_successor_short key : (length (bytewise_successor key) ≤ length key)%nat.
Proof. induction key as [|x key IH]; cbn; [lia|]. destruct (negb _); cbn; lia. Qed.

Definition short_bytewise_laws : @ComparatorLaws BytewiseComparator.
Proof.
  refine (@Build_ComparatorLaws BytewiseComparator (λ k, bytes k ∧ len k < 2 ^ 32 - 8) slice_compare _ _ _ _ _ _ _).
  - intros a b [Ha _] [Hb _]. by apply (@Compare_ok _ bytewise_laws).
  - intros a b [Ha _] [Hb _]. by apply (@order_eq _ bytewise_laws).
  - intros a b [Ha _] [Hb _]. by apply (@order_flip _ bytewise_laws).
  - intros a b c [Ha _] [Hb _] [Hc _]. by apply (@order_trans _ bytewise_laws).
  - intros start limit [Hs Hl] [Hlim _] Hlt. destruct (@Separator_between _ bytewise_laws start limit Hs Hlim Hlt) as (key & E & Hk & Hr).
    exists key. split; [done|]. split; [|done]. split; [done|]. injection E as <-. pose proof (bytewise_separator_short start limit). lia.
  - intros start limit [Hs _] [Hl _]. by apply (@Separator_otherwise _ bytewise_laws).
  - intros key [Hk Hl]. destruct (@Successor_above _ bytewise_laws key Hk) as (key' & E & Hk' & Hr).
    exists key'. split; [done|]. split; [|done]. split; [done|]. injection E as <-. pose proof (bytewise_successor_short key). lia.
Defined.

Lemma sample_requests_short : @requests_ok _ short_bytewise_laws 7 (calls sample_events).
Proof.
  split; [by apply (bool_decide_unpack _); vm_compute|]. split; [|by vm_compute].
  repeat (apply Forall_cons_2 || apply Forall_nil_2); (split; [|by vm_compute]);
    repeat (apply Forall_cons_2 || apply Forall_nil_2); cbn [op_fits]; split_and!; try (by vm_compute);
    first [by repeat constructor|split; [by repeat constructor|by vm_compute]].
Qed.

Lemma sample_opened_short db : sample_db = Ok db → opened (H0 := short_bytewise_laws) 7 db.
Proof. intros Edb. vm_compute in Edb. injection Edb as <-. split; first [done|exact (@logged_new _ short_bytewise_laws)]. Qed.

Lemma DBImpl_NewIterator_shows_witness :
  ∃ db s it shown RU, sample_db = Ok db ∧ run (λ _, 0) sample_create 4096 sample_events (start db) = Ok s ∧
    DBImpl_NewIterator (V := EmptyIterator) tt (sys_db s) None [] 5 = Ok it ∧
    @shows_now _ short_bytewise_laws (writes_of 8 [op_Put [107] [118]; op_Delete [107]; op_Put [97] [1; 2]]) shown ∧
    @iterates _ short_bytewise_laws _ (@db_iterator _ _ internal_iterator_methods _ (λ (db : unit) _, db) (RU.1)) shown RU.2 ∧
    RU.2 it (length shown).
Proof.
  destruct sample_run as (db & s & Edb & Erun & Hreqs & Hans & _ & _ & Htab).
  pose proof (@run_steps _ short_bytewise_laws _ _ _ _ (λ _, 0) sample_create 4096 7 sample_events (start db) s sample_requests_short Erun) as Hsteps.
  destruct (@DBImpl_NewIterator_shows _ short_bytewise_laws _ _ _ _ EmptyIterator _ unit (λ _, 0) sample_create 4096 7 [] db s (λ (db : unit) _, db) tt 5)
    as (answered & pending & file_log & size & Hr & Ha & Hf & Hit).
  - exact sample_creates.
  - split; by vm_compute.
  - by apply sample_opened_short.
  - by split; constructor.
  - by intros k [_ Hk].
  - exact Hsteps.
  - rewrite Htab in Hf. apply no_tables in Hf as ->.
    destruct (Hit [] (S size)) as (it & shown & RU & E & Hs & HR & Hat).
    + exists [], []. split; [done|]. split; [done|]. split; [done|]. intros i ? ? ? Hi. by destruct i.
    + apply Nat.lt_succ_diag_r.
    + unfold current_log in Hs. rewrite (sample_answered s answered pending Hreqs Hans Hr Ha) in Hs.
      exists db, s, it, shown, (S size, RU). split; [exact Edb|]. split; [exact Erun|]. split; [exact E|]. split; [exact Hs|].
      split; [exact HR|exact Hat].
Defined.

(** The key is put, a snapshot taken, the key put again. *)
Definition snapshot_events : list event :=
  [Call {| req_id := 1; req_ops := Some [op_Put [107] [118]]; req_sync := false |}; Front; Front; Front; Front].
Definition later_events : list event :=
  [Call {| req_id := 2; req_ops := Some [op_Put [107] [119]]; req_sync := true |}; Front; Front; Front; Front].

Lemma snapshot_requests : requests_ok 7 (calls (snapshot_events ++ later_events)) ∧ requests_ok 7 (calls snapshot_events).
Proof.
  split; (split; [by apply (bool_decide_unpack _); vm_compute|]); (split; [|by vm_compute]);
    repeat (apply Forall_cons_2 || apply Forall_nil_2); (split; [|by vm_compute]);
    repeat (apply Forall_cons_2 || apply Forall_nil_2); cbn [op_fits]; split_and!; try (by vm_compute); by repeat constructor.
Qed.

Lemma snapshot_end :
  (db ← sample_db; s ← run (λ _, 0) sample_create 4096 snapshot_events (start db);
   s' ← run (λ _, 0) sample_create 4096 later_events s;
   Ok (sys_requests s, sys_answers s, db_bg_error_ (sys_db s), last_sequence_ (db_versions_ (sys_db s)), length (sys_tables s'))) =
  Ok (calls snapshot_events, [(1%nat, status_OK)], status_OK, 8, 0%nat).
Proof. by vm_compute. Qed.

Lemma snapshot_run :
  ∃ db s s', sample_db = Ok db ∧ run (λ _, 0) sample_create 4096 snapshot_events (start db) = Ok s ∧
    run (λ _, 0) sample_create 4096 later_events s = Ok s' ∧
    sys_requests s = calls snapshot_events ∧ sys_answers s = [(1%nat, status_OK)] ∧ ok (db_bg_error_ (sys_db s)) = true ∧
    last_sequence_ (db_versions_ (sys_db s)) = 8 ∧ sys_tables s' = [].
Proof.
  destruct (proj1 (outcome_bind_inv _ _ _) snapshot_end) as (db & Edb & Hend).
  destruct (proj1 (outcome_bind_inv _ _ _) Hend) as (s & Erun & Hend'). destruct (proj1 (outcome_bind_inv _ _ _) Hend') as (s' & Erun' & Hend'').
  injection Hend'' as Hreqs Hans Hgood Hseq Htab. apply nil_length_inv in Htab. apply (f_equal ok) in Hgood. exists db, s, s'. by split_and!.
Qed.

Lemma DBImpl_Get_snapshot_witness :
  ∃ db s s', sample_db = Ok db ∧ run (λ _, 0) sample_create 4096 snapshot_events (start db) = Ok s ∧
    run (λ _, 0) sample_create 4096 later_events s = Ok s' ∧
    DBImpl_Get (λ _ value, Ok (NotFound [] [], value)) (sys_db s') (Some 8) [107] [] = Ok (status_OK, [118]).
Proof.
  destruct snapshot_run as (db & s & s' & Edb & Erun & Erun' & Hreqs & Hans & Hgood & Hseq & Htab). destruct snapshot_requests as [Hok2 Hok1].
  pose proof (run_steps (λ _, 0) sample_create 4096 7 snapshot_events (start db) s Hok1 Erun) as Hsteps.
  assert (requests_ok 7 (sys_requests s ++ calls later_events)) as Hok by by rewrite Hreqs.
  pose proof (run_steps (λ _, 0) sample_create 4096 7 later_events s s' Hok Erun') as Hsteps'.
  destruct (DBImpl_Get_snapshot (λ _, 0) sample_create 4096 7 [] db s s') as (answered & pending & file_log & Hr & Ha & Hf & Hget).
  - exact sample_creates.
  - split; by vm_compute.
  - by apply sample_opened.
  - by split; constructor.
  - exact Hsteps.
  - exact Hsteps'.
  - exact Hgood.
  - exists db, s, s'. split; [exact Edb|]. split; [exact Erun|]. split; [exact Erun'|]. rewrite Htab in Hf. apply no_tables in Hf as ->.
    rewrite Hseq in Hget. rewrite (Hget (λ _ value, Ok (NotFound [] [], value)) [107] []).
    + rewrite Hreqs in Hr. rewrite Hans in Ha. destruct answered as [|[r1 a1] [|]]; [discriminate| |discriminate].
      injection Ha as _ <-. injection Hr as <- _. reflexivity.
    + by intros u sq lk value _ _ _ _.
    + by apply (bool_decide_unpack _); vm_compute.
    + done.
Defined.
