(* ===== verification/LdbBlock.v ===== *)
(** * LevelDB, table/block: blocks of sorted entries

    A block of a table holds entries in the order of their keys, each key without the
    prefix it shares with the one before, with restart points where a key is whole
    (table/block_builder.cc).  Its iterator (table/block.cc) refines a cursor on the list
    of the entries: in both directions, and by binary search for a key. *)

From S2P Require Import Prelude LdbCoding LdbEnv LdbOrder LdbIter.

(** ** table/block_builder.cc *)

Section builder.
Context `{Comparator}.

(** [interval_] is [options_->block_restart_interval]. *)
Record BlockBuilder : Type := {
  interval_ : Z; buffer_ : list Z; restarts_ : list Z; counter_ : Z; finished_ : bool; last_key_ : list Z
}.

Definition new_BlockBuilder (interval : Z) : outcome BlockBuilder :=
  _ ← require (1 <=? interval) OutOfBounds;
  Ok {| interval_ := interval; buffer_ := []; restarts_ := [0]; counter_ := 0; finished_ := false;
        last_key_ := [] |}.

Definition Reset (this : BlockBuilder) : BlockBuilder :=
  {| interval_ := interval_ this; buffer_ := []; restarts_ := [0]; counter_ := 0; finished_ := false;
     last_key_ := [] |}.

Definition CurrentSizeEstimate (this : BlockBuilder) : Z :=
  len (buffer_ this) + len (restarts_ this) * 4 + 4.

Definition BlockBuilder_Finish (this : BlockBuilder) : Slice * BlockBuilder :=
  let buffer := fold_left PutFixed32 (restarts_ this) (buffer_ this) in
  let buffer := PutFixed32 buffer (u32 (len (restarts_ this))) in
  (buffer, {| interval_ := interval_ this; buffer_ := buffer; restarts_ := restarts_ this;
              counter_ := counter_ this; finished_ := true; last_key_ := last_key_ this |}).

(** [while ((shared < min_length) && (last_key_piece[shared] == key[shared]))] *)
Fixpoint shared_prefix (last_key key : list Z) : nat :=
  match last_key, key with
  | x :: last_key, y :: key => if x =? y then S (shared_prefix last_key key) else O
  | _, _ => O
  end.

(** The assertions are requirements on the caller. *)
Definition Add (this : BlockBuilder) (key value : Slice) : outcome BlockBuilder :=
  _ ← require (negb (finished_ this)) OutOfBounds;
  _ ← require (counter_ this <=? interval_ this) OutOfBounds;
  above ← (if len (buffer_ this) =? 0 then Ok true
           else r ← Compare key (last_key_ this); Ok (0 <? r));
  _ ← require above OutOfBounds;
  let '(shared, restarts, counter) :=
    if counter_ this <? interval_ this
    then (shared_prefix (last_key_ this) key, restarts_ this, counter_ this)
    else (O, restarts_ this ++ [u32 (len (buffer_ this))], 0) in
  let non_shared := len key - Z.of_nat shared in
  let buffer := PutVarint32 (buffer_ this) (u32 (Z.of_nat shared)) in
  let buffer := PutVarint32 buffer (u32 non_shared) in
  let buffer := PutVarint32 buffer (u32 (len value)) in
  let buffer := buffer ++ drop shared key in
  let buffer := buffer ++ value in
  Ok {| interval_ := interval_ this; buffer_ := buffer; restarts_ := restarts; counter_ := counter + 1;
        finished_ := finished_ this; last_key_ := take shared (last_key_ this) ++ drop shared key |}.

End builder.

(** ** table/block.cc *)

Definition sizeof_uint32 : Z := 4.

(** The class [Block]; [owned_] matters to its destructor only. *)
Record TableBlock : Type := { data_ : list Z; size_ : Z; restart_offset_ : Z }.

Definition NumRestarts (data : list Z) (size : Z) : outcome Z :=
  _ ← require (sizeof_uint32 <=? size) OutOfBounds;
  l ← read_at data (size - sizeof_uint32) 4;
  DecodeFixed32 l.

(** A size of 0 marks an error. *)
Definition new_Block (contents : Slice) : outcome TableBlock :=
  let size := len contents in
  if size <? sizeof_uint32 then Ok {| data_ := contents; size_ := 0; restart_offset_ := 0 |}
  else
    num ← NumRestarts contents size;
    let max_restarts_allowed := (size - sizeof_uint32) / sizeof_uint32 in
    if max_restarts_allowed <? num then Ok {| data_ := contents; size_ := 0; restart_offset_ := 0 |}
    else Ok {| data_ := contents; size_ := size;
               restart_offset_ := u32 (size - u32 (1 + num) * sizeof_uint32) |}.

(** The bytes from [p] to [limit]: the three numbers and what follows them. *)
Definition DecodeEntry (p : list Z) : option (Z * Z * Z * list Z) :=
  match p with
  | a :: b :: c :: rest =>
      r ← (if Z.lor (Z.lor a b) c <? 128 then Some (a, b, c, rest)
           else
             s ← GetVarint32Ptr p;
             n ← GetVarint32Ptr s.2;
             v ← GetVarint32Ptr n.2;
             Some (s.1, n.1, v.1, v.2));
      let '(shared, non_shared, value_length, rest) := r in
      if u32 (len rest) <? u32 (non_shared + value_length) then None else Some r
  | _ => None
  end.

(** *** [Block::Iter] *)

(** The constants of an iterator: [it_restarts] is the offset of the restart array. *)
Record block_of_iter : Type := { it_data : list Z; it_restarts : Z; it_num_restarts : Z }.

(** [value_] is an offset in the data and a length, or empty elsewhere. *)
Record Iter : Type := {
  current_ : Z; restart_index_ : Z; key_ : list Z; value_ : option (Z * Z); status_ : Status
}.

Section iter.
Context `{Comparator} (blk : block_of_iter).

Definition new_Iter : outcome Iter :=
  _ ← require (0 <? it_num_restarts blk) OutOfBounds;
  Ok {| current_ := it_restarts blk; restart_index_ := it_num_restarts blk; key_ := [];
        value_ := None; status_ := status_OK |}.

Definition Valid (it : Iter) : bool := current_ it <? it_restarts blk.

Definition Iter_key (it : Iter) : outcome Slice := _ ← require (Valid it) OutOfBounds; Ok (key_ it).
Definition Iter_value (it : Iter) : outcome Slice :=
  _ ← require (Valid it) OutOfBounds;
  match value_ it with Some (off, n) => read_at (it_data blk) off n | None => Ok [] end.

(** A difference of pointers into different objects is undefined. *)
Definition NextEntryOffset (it : Iter) : outcome Z :=
  match value_ it with Some (off, n) => Ok (u32 (off + n)) | None => Fault NullPointer end.

Definition GetRestartPoint (index : Z) : outcome Z :=
  _ ← require (index <? it_num_restarts blk) OutOfBounds;
  l ← read_at (it_data blk) (it_restarts blk + index * sizeof_uint32) 4;
  DecodeFixed32 l.

Definition SeekToRestartPoint (it : Iter) (index : Z) : outcome Iter :=
  offset ← GetRestartPoint index;
  Ok {| current_ := current_ it; restart_index_ := index; key_ := []; value_ := Some (offset, 0);
        status_ := status_ it |}.

Definition invalid (it : Iter) : Iter :=
  {| current_ := it_restarts blk; restart_index_ := it_num_restarts blk; key_ := key_ it;
     value_ := value_ it; status_ := status_ it |}.

Definition CorruptionError : Iter :=
  {| current_ := it_restarts blk; restart_index_ := it_num_restarts blk; key_ := []; value_ := None;
     status_ := Corruption (text "bad entry in block") [] |}.

(** [while (restart_index_ + 1 < num_restarts_ && GetRestartPoint(restart_index_ + 1) < current_)] *)
Fixpoint advance_restart (fuel : nat) (index current : Z) : outcome Z :=
  match fuel with
  | O => Fault Diverges
  | S fuel =>
      if u32 (index + 1) <? it_num_restarts blk then
        point ← GetRestartPoint (u32 (index + 1));
        if point <? current then advance_restart fuel (u32 (index + 1)) current else Ok index
      else Ok index
  end.

(** The bytes of the data from an offset to the restart array. *)
Definition region (off : Z) : list Z := drop (Z.to_nat off) (take (Z.to_nat (it_restarts blk)) (it_data blk)).

(** The key is read from the data, also past the limit. *)
Definition ParseNextKey (it : Iter) : outcome (bool * Iter) :=
  current ← NextEntryOffset it;
  if it_restarts blk <=? current then Ok (false, invalid it)
  else
    match DecodeEntry (region current) with
    | None => Ok (false, CorruptionError)
    | Some (shared, non_shared, value_length, rest) =>
        if len (key_ it) <? shared then Ok (false, CorruptionError)
        else
          let p := it_restarts blk - len rest in
          delta ← read_at (it_data blk) p non_shared;
          index ← advance_restart (S (Z.to_nat (it_num_restarts blk))) (restart_index_ it) current;
          Ok (true, {| current_ := current; restart_index_ := index;
                       key_ := take (Z.to_nat shared) (key_ it) ++ delta;
                       value_ := Some (p + non_shared, value_length); status_ := status_ it |})
    end.

Definition Next (it : Iter) : outcome Iter :=
  _ ← require (Valid it) OutOfBounds;
  r ← ParseNextKey it;
  Ok r.2.

(** Backwards over the restart points; [None] when there are no more entries. *)
Fixpoint previous_restart (fuel : nat) (index original : Z) : outcome (option Z) :=
  match fuel with
  | O => Fault Diverges
  | S fuel =>
      point ← GetRestartPoint index;
      if original <=? point then
        if index =? 0 then Ok None else previous_restart fuel (index - 1) original
      else Ok (Some index)
  end.

(** [while (ParseNextKey() && NextEntryOffset() < stop)] *)
Fixpoint parse_until (fuel : nat) (it : Iter) (stop : Z) : outcome Iter :=
  match fuel with
  | O => Fault Diverges
  | S fuel =>
      r ← ParseNextKey it;
      if negb (r.1 : bool) then Ok r.2
      else
        off ← NextEntryOffset r.2;
        if off <? stop then parse_until fuel r.2 stop else Ok r.2
  end.

(** An entry takes at least a byte. *)
Definition entries_fuel : nat := S (length (it_data blk)).

Definition Prev (it : Iter) : outcome Iter :=
  _ ← require (Valid it) OutOfBounds;
  let original := current_ it in
  i ← previous_restart (S (Z.to_nat (it_num_restarts blk))) (restart_index_ it) original;
  match i with
  | None => Ok (invalid it)
  | Some index => it ← SeekToRestartPoint it index; parse_until entries_fuel it original
  end.

(** The binary search; [None] for a bad entry. *)
Fixpoint Seek_loop (fuel : nat) (target : Slice) (left_ right_ : Z) : outcome (option Z) :=
  match fuel with
  | O => Fault Diverges
  | S fuel =>
      if left_ <? right_ then
        let mid := u32 (left_ + right_ + 1) / 2 in
        region_offset ← GetRestartPoint mid;
        match DecodeEntry (region region_offset) with
        | None => Ok None
        | Some (shared, non_shared, _, rest) =>
            if negb (shared =? 0) then Ok None
            else
              mid_key ← read_at (it_data blk) (it_restarts blk - len rest) non_shared;
              r ← Compare mid_key target;
              if r <? 0 then Seek_loop fuel target mid right_
              else Seek_loop fuel target left_ (mid - 1)
        end
      else Ok (Some left_)
  end.

(** The linear search for the first key that is not below the target. *)
Fixpoint Seek_linear (fuel : nat) (it : Iter) (target : Slice) : outcome Iter :=
  match fuel with
  | O => Fault Diverges
  | S fuel =>
      r ← ParseNextKey it;
      if negb (r.1 : bool) then Ok r.2
      else
        c ← Compare (key_ r.2) target;
        if 0 <=? c then Ok r.2 else Seek_linear fuel r.2 target
  end.

Definition Seek (it : Iter) (target : Slice) : outcome Iter :=
  l ← Seek_loop (S (Z.to_nat (it_num_restarts blk))) target 0 (u32 (it_num_restarts blk - 1));
  match l with
  | None => Ok (CorruptionError)
  | Some left_ => it ← SeekToRestartPoint it left_; Seek_linear entries_fuel it target
  end.

Definition SeekToFirst (it : Iter) : outcome Iter :=
  it ← SeekToRestartPoint it 0;
  r ← ParseNextKey it;
  Ok r.2.

Definition SeekToLast (it : Iter) : outcome Iter :=
  it ← SeekToRestartPoint it (u32 (it_num_restarts blk - 1));
  parse_until entries_fuel it (it_restarts blk).

End iter.

(** An iterator of the block, or the empty iterators of table/iterator.cc with a status. *)
Definition NewIterator (b : TableBlock) : outcome (Status + block_of_iter * Iter) :=
  if size_ b <? sizeof_uint32 then Ok (inl (Corruption (text "bad block contents") []))
  else
    num_restarts ← NumRestarts (data_ b) (size_ b);
    if num_restarts =? 0 then Ok (inl status_OK)
    else
      let blk := {| it_data := data_ b; it_restarts := restart_offset_ b; it_num_restarts := num_restarts |} in
      it ← new_Iter blk;
      Ok (inr (blk, it)).

(** ** Entries as bytes *)

(** A varint of one byte is the value, and longer ones begin with a byte above 127. *)
Lemma EncodeVarint32_small v : 0 ≤ v < 128 → EncodeVarint32 v = [v].
Proof. intros Hv. unfold EncodeVarint32. decide_test. by rewrite last_byte. Qed.

Lemma EncodeVarint32_large v : in_width 32 v → 128 ≤ v → ∃ b rest, EncodeVarint32 v = b :: rest ∧ 128 ≤ b < 256.
Proof.
  intros [H0 H1] Hv. pose proof (Z.mod_pos_bound v 128).
  unfold EncodeVarint32. rewrite continued_byte by done.
  rewrite (proj2 (Z.ltb_ge v (2 ^ 7))) by lia.
  destruct (v <? 2 ^ 14), (v <? 2 ^ 21), (v <? 2 ^ 28); eexists _, _; (split; [done|lia]).
Qed.

Lemma EncodeVarint32_bytes v : bytes (EncodeVarint32 v).
Proof.
  unfold EncodeVarint32. repeat destruct (_ <? _); repeat apply List.Forall_cons;
    by first [apply wrap_in_width | constructor].
Qed.

Lemma EncodeVarint32_nonempty v : in_width 32 v → (0 < length (EncodeVarint32 v))%nat.
Proof.
  intros Hv. destruct (Z.lt_ge_cases v 128) as [Hlt|Hge].
  - rewrite EncodeVarint32_small; [cbn; lia|]. unfold in_width in Hv. lia.
  - destruct (EncodeVarint32_large v Hv Hge) as (b & rest & -> & _). cbn. lia.
Qed.

Lemma lor_large a b : is_byte a → is_byte b → 128 ≤ a ∨ 128 ≤ b → 128 ≤ Z.lor a b.
Proof.
  intros Ha Hb Hor.
  assert (∀ x, is_byte x → 128 ≤ x → Z.testbit x 7 = true) as Hbit.
  { intros x Hx Hge. apply (byte_forall (λ x, (x <? 128) || Z.testbit x 7)) in Hx; [|by vm_compute].
    rewrite (proj2 (Z.ltb_ge x 128) Hge) in Hx. exact Hx. }
  destruct (Z.le_gt_cases 128 (Z.lor a b)) as [|Hlt]; [done|exfalso].
  assert (0 ≤ Z.lor a b) as H0 by (apply Z.lor_nonneg; unfold in_width in *; lia).
  pose proof (proj1 (Z.bounded_iff_bits_nonneg 7 (Z.lor a b) ltac:(lia) H0) ltac:(lia) 7 ltac:(lia)) as Hz.
  rewrite Z.lor_spec in Hz. apply orb_false_iff in Hz as [Hza Hzb].
  destruct Hor as [Hge|Hge]; [rewrite (Hbit a Ha Hge) in Hza|rewrite (Hbit b Hb Hge) in Hzb]; done.
Qed.

Lemma lor_byte a b : is_byte a → is_byte b → is_byte (Z.lor a b).
Proof.
  intros Ha Hb. rewrite <- (wrap_small 8 a), <- (wrap_small 8 b) by done. unfold wrap.
  rewrite <- !Z.land_ones, <- Z.land_lor_distr_l, Z.land_ones by lia. by apply wrap_in_width.
Qed.

(** The first byte of a varint. *)
Lemma EncodeVarint32_first v rest :
  in_width 32 v → ∃ b tail, EncodeVarint32 v ++ rest = b :: tail ∧ is_byte b ∧
    (v < 128 → b = v ∧ tail = rest) ∧ (128 ≤ v → 128 ≤ b).
Proof.
  intros Hv. destruct (Z.lt_ge_cases v 128) as [Hlt|Hge].
  - rewrite EncodeVarint32_small by (unfold in_width in Hv; lia). eexists _, _. split; [done|].
    split; [unfold in_width in *; lia|]. split; [done|lia].
  - destruct (EncodeVarint32_large v Hv Hge) as (b & t & -> & Hb). eexists _, _. split; [done|].
    split; [unfold in_width; lia|]. split; [lia|lia].
Qed.

(** The lengths are compared as sums that wrap around. *)
Lemma DecodeEntry_wraps shared non_shared value_length rest :
  in_width 32 shared → in_width 32 non_shared → in_width 32 value_length → bytes rest →
  u32 (non_shared + value_length) ≤ u32 (len rest) →
  DecodeEntry (EncodeVarint32 shared ++ EncodeVarint32 non_shared ++ EncodeVarint32 value_length ++ rest) =
    Some (shared, non_shared, value_length, rest).
Proof.
  intros Hs Hn Hv Hr Hl. set (l3 := EncodeVarint32 value_length ++ rest).
  set (l2 := EncodeVarint32 non_shared ++ l3).
  assert (bytes l3) as B3 by (by apply Forall_app_2; [apply EncodeVarint32_bytes|]).
  assert (bytes l2) as B2 by (by apply Forall_app_2; [apply EncodeVarint32_bytes|]).
  assert (∃ a b c tail, EncodeVarint32 shared ++ l2 = a :: b :: c :: tail ∧
    (if Z.lor (Z.lor a b) c <? 128 then Some (a, b, c, tail)
     else s ← GetVarint32Ptr (a :: b :: c :: tail); n ← GetVarint32Ptr s.2; v ← GetVarint32Ptr n.2;
          Some (s.1, n.1, v.1, v.2)) = Some (shared, non_shared, value_length, rest)) as (a & b & c & tail & E & Hr').
  2: { unfold DecodeEntry. rewrite E, Hr'. cbn [mbind option_bind].
       by decide_test. }
  assert (Hslow : ∀ p, p = EncodeVarint32 shared ++ l2 →
    (s ← GetVarint32Ptr p; n ← GetVarint32Ptr s.2; v ← GetVarint32Ptr n.2;
     Some (s.1, n.1, v.1, v.2)) = Some (shared, non_shared, value_length, rest)).
  { intros p ->. pose proof (GetVarint32_ok shared l2 Hs) as G1. pose proof (GetVarint32_ok non_shared l3 Hn) as G2.
    pose proof (GetVarint32_ok value_length rest Hv) as G3. unfold GetVarint32 in *.
    rewrite G1. cbn [mbind option_bind snd]. unfold l2. rewrite G2. cbn [mbind option_bind snd]. unfold l3. by rewrite G3. }
  destruct (EncodeVarint32_first shared l2 Hs) as (a & t1 & E1 & Ba & A1 & A2).
  destruct (EncodeVarint32_first non_shared l3 Hn) as (b & t2 & E2 & Bb & C1 & C2).
  destruct (EncodeVarint32_first value_length rest Hv) as (c & t3 & E3 & Bc & D1 & D2).
  assert (bytes (EncodeVarint32 shared ++ l2)) as B1 by (by apply Forall_app_2; [apply EncodeVarint32_bytes|]).
  assert (2 < length (EncodeVarint32 shared ++ l2))%nat as L1.
  { pose proof (EncodeVarint32_nonempty _ Hs). pose proof (EncodeVarint32_nonempty _ Hn).
    pose proof (EncodeVarint32_nonempty _ Hv). unfold l2, l3. rewrite !length_app. lia. }
  assert (Hlarge : ∀ x y z, is_byte x → is_byte y → is_byte z → 128 ≤ x ∨ 128 ≤ y ∨ 128 ≤ z →
    (Z.lor (Z.lor x y) z <? 128) = false).
  { intros x y z Bx By Bz Hor. apply Z.ltb_ge. assert (is_byte (Z.lor x y)) by (by apply lor_byte).
    apply lor_large; [done|done|]. destruct Hor as [Hx|[Hy|Hz]]; [left|left|by right]; apply lor_large; auto. }
  rewrite E1 in L1, B1. destruct t1 as [|x [|y tail]]; cbn [length] in L1; [lia|lia|].
  apply Forall_cons in B1 as [_ [Bx [By _]%Forall_cons]%Forall_cons].
  exists a, x, y, tail. split; [done|]. rewrite (Hslow (a :: x :: y :: tail)) by (by rewrite E1).
  destruct (Z.lor (Z.lor a x) y <? 128) eqn:Eor; [|done].
  destruct (Z.lt_ge_cases shared 128) as [Hlt|Hge]; [|rewrite Hlarge in Eor by auto; done].
  destruct (A1 Hlt) as [-> Ht1].
  assert (x :: y :: tail = b :: t2) as Heq2 by (rewrite Ht1; exact E2). injection Heq2 as <- <-.
  destruct (Z.lt_ge_cases non_shared 128) as [Hlt2|Hge2]; [|rewrite Hlarge in Eor by auto; done].
  destruct (C1 Hlt2) as [-> Ht2].
  assert (y :: tail = c :: t3) as Heq3 by (rewrite Ht2; exact E3). injection Heq3 as <- <-.
  destruct (Z.lt_ge_cases value_length 128) as [Hlt3|Hge3]; [|rewrite Hlarge in Eor by auto; done].
  by destruct (D1 Hlt3) as [-> ->].
Qed.

Lemma DecodeEntry_ok shared non_shared value_length rest :
  in_width 32 shared → in_width 32 non_shared → in_width 32 value_length → bytes rest →
  non_shared + value_length ≤ len rest < 2 ^ 32 →
  DecodeEntry (EncodeVarint32 shared ++ EncodeVarint32 non_shared ++ EncodeVarint32 value_length ++ rest) =
    Some (shared, non_shared, value_length, rest).
Proof.
  intros Hs Hn Hv Hr Hl. apply DecodeEntry_wraps; [done..|].
  rewrite !wrap_small by (unfold in_width in *; lia). lia.
Qed.


(** ** The layout of a block *)

Record item : Type := { i_shared : nat; i_key : list Z; i_value : list Z }.

Definition encode_item (x : item) : list Z :=
  EncodeVarint32 (Z.of_nat (i_shared x)) ++ EncodeVarint32 (len (i_key x) - Z.of_nat (i_shared x)) ++
  EncodeVarint32 (len (i_value x)) ++ drop (i_shared x) (i_key x) ++ i_value x.

Definition encode_items (items : list item) : list Z := concat (map encode_item items).

(** Where an item begins. *)
Definition offset (items : list item) (i : nat) : Z := len (encode_items (take i items)).

(** What an item shares with the key before it. *)
Fixpoint chained (prev : list Z) (items : list item) : Prop :=
  match items with
  | [] => True
  | x :: items => (i_shared x ≤ length (i_key x))%nat ∧
      take (i_shared x) prev = take (i_shared x) (i_key x) ∧ chained (i_key x) items
  end.

Definition item_ok (x : item) : Prop := bytes (i_key x) ∧ bytes (i_value x).

(** The items, and the indices of those at the restart points. *)
Record layout (items : list item) (rho : list nat) : Prop := {
  layout_items : Forall item_ok items;
  layout_chain : chained [] items;
  layout_first : rho !! 0%nat = Some 0%nat;
  layout_sorted : ∀ i j a b, rho !! i = Some a → rho !! j = Some b → (i < j)%nat → (a < b)%nat;
  layout_within a : a ∈ rho → a = 0%nat ∨ (a < length items)%nat;
  layout_whole a x : a ∈ rho → items !! a = Some x → i_shared x = 0%nat
}.

Definition block_bytes (items : list item) (rho : list nat) : list Z :=
  encode_items items ++ concat (map EncodeFixed32 (map (offset items) rho)) ++ EncodeFixed32 (len rho).

Lemma encode_items_app l1 l2 : encode_items (l1 ++ l2) = encode_items l1 ++ encode_items l2.
Proof. unfold encode_items. by rewrite map_app, concat_app. Qed.

Lemma encode_items_split items i x :
  items !! i = Some x →
  encode_items items = encode_items (take i items) ++ encode_item x ++ encode_items (drop (S i) items).
Proof. intros Hx. rewrite <- (take_drop_middle items i x Hx) at 1. by rewrite encode_items_app. Qed.

Lemma offset_S items i x :
  items !! i = Some x → offset items (S i) = offset items i + len (encode_item x).
Proof.
  intros Hx. unfold offset. rewrite (take_S_r _ _ _ Hx), encode_items_app, length_app.
  unfold encode_items at 2. cbn. rewrite app_nil_r. lia.
Qed.

Lemma offset_end items : offset items (length items) = len (encode_items items).
Proof. unfold offset. by rewrite firstn_all. Qed.

Lemma chained_lookup prev items i x :
  chained prev items → items !! i = Some x →
  (i_shared x ≤ length (i_key x))%nat ∧
  ∀ k, (match i with O => Some prev | S i => i_key <$> items !! i end) = Some k →
    take (i_shared x) k = take (i_shared x) (i_key x).
Proof.
  revert prev items. induction i as [|i IH]; intros prev [|y items] Hc Hx; try done; cbn in Hc, Hx;
    destruct Hc as (Hs & Ht & Hc).
  - injection Hx as ->. split; [done|]. by intros k [= <-].
  - destruct (IH _ _ Hc Hx) as [H1 H2]. split; [done|]. intros k Hk. apply H2. destruct i; [done|exact Hk].
Qed.

(** What a key shares is a part of it. *)
Lemma take_same_length n (a b : list Z) : (n ≤ length b)%nat → take n a = take n b → (n ≤ length a)%nat.
Proof. intros Hn Ht. apply (f_equal length) in Ht. rewrite !length_take in Ht. lia. Qed.

(** ** The iterator on a block *)

Section layout.
Context `{Comparator} (items : list item) (rho : list nat).
Context (HL : layout items rho) (Hsize : len (block_bytes items rho) < 2 ^ 32).

Abbreviation n := (length items).

Definition laid : block_of_iter :=
  {| it_data := block_bytes items rho; it_restarts := offset items n; it_num_restarts := len rho |}.

Lemma data_length : len (block_bytes items rho) = offset items n + 4 * len rho + 4.
Proof.
  unfold block_bytes. rewrite !length_app, !Nat2Z.inj_add, offset_end.
  rewrite length_fixed32s, length_map. unfold EncodeFixed32. rewrite length_le_bytes. lia.
Qed.

Lemma offset_mono i j : (i ≤ j)%nat → offset items i ≤ offset items j.
Proof.
  intros Hij. replace j with (i + (j - i))%nat by lia. unfold offset.
  rewrite <- take_take_drop, encode_items_app, length_app. lia.
Qed.

Lemma offset_bound i : 0 ≤ offset items i ≤ offset items n.
Proof.
  split; [unfold offset; lia|]. destruct (Nat.le_ge_cases i n); [by apply offset_mono|].
  unfold offset. by rewrite !take_ge by lia.
Qed.

Lemma item_facts i x :
  items !! i = Some x →
  bytes (i_key x) ∧ bytes (i_value x) ∧ (i_shared x ≤ length (i_key x))%nat ∧
  len (drop (i_shared x) (i_key x)) + len (i_value x) + 3 ≤ len (encode_item x).
Proof.
  intros Hx. pose proof (Forall_lookup_1 _ _ _ _ (layout_items _ _ HL) Hx) as [Hk Hv].
  destruct (chained_lookup _ _ _ _ (layout_chain _ _ HL) Hx) as [Hs _]. split_and!; [done..|].
  assert (∀ v, 0 < len (EncodeVarint32 v)) as Hpos.
  { intros v. unfold EncodeVarint32. repeat destruct (_ <? _); cbn; lia. }
  unfold encode_item. rewrite !length_app.
  pose proof (Hpos (Z.of_nat (i_shared x))). pose proof (Hpos (len (i_key x) - Z.of_nat (i_shared x))).
  pose proof (Hpos (len (i_value x))). lia.
Qed.

Lemma offset_step i x : items !! i = Some x → offset items i + 3 ≤ offset items (S i).
Proof. intros Hx. rewrite (offset_S _ _ _ Hx). destruct (item_facts _ _ Hx) as (_ & _ & _ & ?). lia. Qed.

Lemma offset_lt i j : (i < j)%nat → (i < n)%nat → offset items i < offset items j.
Proof.
  intros Hij Hi. destruct (lookup_lt_is_Some_2 items i Hi) as [x Hx].
  pose proof (offset_step _ _ Hx). pose proof (offset_mono (S i) j ltac:(lia)). lia.
Qed.

Lemma offset_lt_inv i j : offset items i < offset items j → (i < j)%nat.
Proof. intros Hlt. destruct (Nat.lt_ge_cases i j) as [|Hge]; [done|]. apply offset_mono in Hge. lia. Qed.

Lemma offset_small i : in_width 32 (offset items i).
Proof. pose proof (offset_bound i). pose proof data_length. unfold in_width. lia. Qed.

Lemma region_offset i : region laid (offset items i) = encode_items (drop i items).
Proof.
  unfold region, laid. cbn [it_data it_restarts]. unfold block_bytes.
  rewrite offset_end, Nat2Z.id, take_app_length.
  rewrite <- (take_drop i items) at 2. rewrite encode_items_app. unfold offset.
  by rewrite Nat2Z.id, drop_app_length.
Qed.

Lemma items_bytes l : Forall item_ok l → bytes (encode_items l).
Proof.
  induction 1 as [|x l [Hk Hv] Hl IH]; [done|]. unfold encode_items. cbn [map concat]. unfold encode_item.
  repeat apply Forall_app_2; try apply EncodeVarint32_bytes; try done. by apply Forall_drop.
Qed.

(** A key is no longer than what was written so far. *)
Lemma key_length i x : items !! i = Some x → len (i_key x) ≤ offset items (S i).
Proof.
  revert x. induction i as [|i IH]; intros x Hx; destruct (item_facts _ _ Hx) as (_ & _ & Hs & Hf);
    pose proof (proj2 (chained_lookup _ _ _ _ (layout_chain _ _ HL) Hx)) as Hc;
    rewrite length_drop in Hf; rewrite (offset_S _ _ _ Hx).
  - pose proof (take_same_length _ _ _ Hs (Hc [] eq_refl)) as H0. cbn in H0. pose proof (offset_bound 0). lia.
  - destruct (lookup_lt_is_Some_2 items i) as [y Hy]; [apply lookup_lt_Some in Hx; lia|].
    pose proof (take_same_length _ _ _ Hs (Hc (i_key y) (f_equal (fmap i_key) Hy))).
    specialize (IH y Hy). lia.
Qed.

(** What an entry decodes to. *)
Lemma decode_item i x :
  items !! i = Some x →
  DecodeEntry (region laid (offset items i)) =
    Some (Z.of_nat (i_shared x), len (i_key x) - Z.of_nat (i_shared x), len (i_value x),
          drop (i_shared x) (i_key x) ++ i_value x ++ encode_items (drop (S i) items)).
Proof.
  intros Hx. rewrite region_offset, (drop_S _ _ _ Hx).
  change (encode_items (x :: drop (S i) items)) with (encode_item x ++ encode_items (drop (S i) items)).
  unfold encode_item. rewrite <- !app_assoc.
  destruct (item_facts _ _ Hx) as (Hk & Hv & Hs & Hf). pose proof (key_length _ _ Hx) as Hkl.
  pose proof (offset_small (S i)) as [_ Hoff]. pose proof (offset_S _ _ _ Hx) as HS. pose proof (offset_bound i).
  rewrite length_drop in Hf.
  assert (len (encode_items (drop (S i) items)) = offset items n - offset items (S i)) as Hrest.
  { rewrite offset_end. rewrite <- (take_drop (S i) items) at 2. rewrite encode_items_app, length_app.
    unfold offset. lia. }
  pose proof (offset_small n) as [_ Hn]. pose proof (offset_bound (S i)).
  apply DecodeEntry_ok.
  - unfold in_width. lia.
  - unfold in_width. lia.
  - unfold in_width. lia.
  - repeat apply Forall_app_2; [by apply Forall_drop|done|].
    apply items_bytes, Forall_drop, (layout_items _ _ HL).
  - rewrite !length_app, length_drop. lia.
Qed.

(** The key and the value of an entry in the data. *)
Lemma item_data i x :
  items !! i = Some x →
  let p := offset items (S i) - len (i_value x) - len (drop (i_shared x) (i_key x)) in
  p = offset items n - len (drop (i_shared x) (i_key x) ++ i_value x ++ encode_items (drop (S i) items)) ∧
  0 ≤ p ∧
  read_at (block_bytes items rho) p (len (drop (i_shared x) (i_key x))) = Ok (drop (i_shared x) (i_key x)) ∧
  read_at (block_bytes items rho) (offset items (S i) - len (i_value x)) (len (i_value x)) = Ok (i_value x).
Proof.
  intros Hx p.
  assert (∃ pre post, block_bytes items rho = pre ++ drop (i_shared x) (i_key x) ++ i_value x ++
    encode_items (drop (S i) items) ++ post ∧ len pre = p) as (pre & post & E & Hpre).
  { unfold block_bytes. rewrite (encode_items_split _ _ _ Hx).
    unfold p. rewrite (offset_S _ _ _ Hx). unfold encode_item. rewrite <- !app_assoc.
    eexists (encode_items (take i items) ++ EncodeVarint32 (Z.of_nat (i_shared x)) ++
      EncodeVarint32 (len (i_key x) - Z.of_nat (i_shared x)) ++ EncodeVarint32 (len (i_value x))), _.
    rewrite <- !app_assoc. split; [reflexivity|]. unfold offset. rewrite !length_app. lia. }
  split_and!.
  - rewrite offset_end. rewrite (encode_items_split _ _ _ Hx).
    unfold p. rewrite (offset_S _ _ _ Hx). unfold offset. rewrite !length_app. lia.
  - rewrite <- Hpre. lia.
  - rewrite E. by apply read_at_app.
  - rewrite E, app_assoc. apply read_at_app; [|done]. rewrite length_app. lia.
Qed.

Lemma GetRestartPoint_ok j a : rho !! j = Some a → GetRestartPoint laid (Z.of_nat j) = Ok (offset items a).
Proof.
  intros Ha. pose proof (lookup_lt_Some _ _ _ Ha) as Hj. unfold GetRestartPoint, laid.
  cbn [it_data it_restarts it_num_restarts]. decide_test. cbn [require mbind outcome_bind].
  pose proof (offset_small a) as Hoff.
  apply list_elem_of_split_length in Ha as (l1 & l2 & -> & ->).
  assert (block_bytes items (l1 ++ a :: l2) = (encode_items items ++ concat (map EncodeFixed32 (map (offset items) l1))) ++
    EncodeFixed32 (offset items a) ++ (concat (map EncodeFixed32 (map (offset items) l2)) ++
    EncodeFixed32 (len (l1 ++ a :: l2)))) as ->.
  { unfold block_bytes. rewrite !map_app, concat_app. cbn [map concat]. by rewrite <- !app_assoc. }
  rewrite read_at_app.
  - cbn [mbind outcome_bind]. rewrite <- (app_nil_r (EncodeFixed32 _)). by apply DecodeFixed32_ok.
  - rewrite length_app, offset_end.
    rewrite Nat2Z.inj_add, length_fixed32s, length_map. unfold sizeof_uint32. lia.
  - unfold EncodeFixed32. by rewrite length_le_bytes.
Qed.


(** *** Positions of the iterator *)

(** The restart point of the iterator is not after entry [i]. *)
Definition restart_before (it : Iter) (i : nat) : Prop :=
  ∃ j a, restart_index_ it = Z.of_nat j ∧ rho !! j = Some a ∧ (a ≤ i)%nat.

(** The next entry to be parsed is [i], and the key at hand has what it shares. *)
Definition before (it : Iter) (i : nat) : Prop :=
  ∃ off m, value_ it = Some (off, m) ∧ off + m = offset items i ∧
    (∀ x, items !! i = Some x → take (i_shared x) (key_ it) = take (i_shared x) (i_key x)) ∧
    restart_before it i ∧ status_ it = status_OK.

(** The iterator is at entry [i]. *)
Definition at_item (it : Iter) (i : nat) : Prop :=
  ∃ x off, items !! i = Some x ∧ current_ it = offset items i ∧ key_ it = i_key x ∧
    value_ it = Some (off, len (i_value x)) ∧ off + len (i_value x) = offset items (S i) ∧
    read_at (block_bytes items rho) off (len (i_value x)) = Ok (i_value x) ∧
    restart_before it i ∧ status_ it = status_OK.

Definition at_end (it : Iter) : Prop := current_ it = offset items n ∧ status_ it = status_OK.

Lemma at_item_before it i : at_item it i → before it (S i).
Proof.
  intros (x & off & Hx & _ & Hk & Hv & Ho & _ & (j & a & Hj & Ha & Hle) & Hst).
  exists off, (len (i_value x)). split_and!; try done.
  - intros y Hy. destruct (chained_lookup _ _ _ _ (layout_chain _ _ HL) Hy) as [_ Hc].
    rewrite Hk. apply Hc. exact (f_equal (fmap i_key) Hx).
  - exists j, a. split_and!; [done..|lia].
Qed.

Lemma NextEntryOffset_ok it i : before it i → NextEntryOffset it = Ok (offset items i).
Proof.
  intros (off & m & Hv & Ho & _). unfold NextEntryOffset. rewrite Hv, Ho.
  by rewrite wrap_small by apply offset_small.
Qed.

Lemma advance_restart_ok fuel j a i :
  rho !! j = Some a → (a ≤ i)%nat → (length rho - j < fuel)%nat →
  ∃ j' a', advance_restart laid fuel (Z.of_nat j) (offset items i) = Ok (Z.of_nat j') ∧
    rho !! j' = Some a' ∧ (a' ≤ i)%nat.
Proof.
  revert j a. induction fuel as [|fuel IH]; intros j a Ha Hle Hf; [lia|]. cbn [advance_restart].
  pose proof (lookup_lt_Some _ _ _ Ha) as Hj. pose proof data_length as Hdl. pose proof (offset_bound n).
  rewrite wrap_small by (unfold in_width; lia). replace (Z.of_nat j + 1) with (Z.of_nat (S j)) by lia.
  destruct (Z.of_nat (S j) <? it_num_restarts laid) eqn:E; split_bool; [|by exists j, a].
  cbn [laid it_num_restarts] in E. destruct (lookup_lt_is_Some_2 rho (S j)) as [b Hb]; [lia|].
  rewrite (GetRestartPoint_ok _ _ Hb). cbn [mbind outcome_bind].
  destruct (offset items b <? offset items i) eqn:E2; split_bool; [|by exists j, a].
  apply offset_lt_inv in E2. apply (IH (S j) b); [done|lia|lia].
Qed.

Lemma ParseNextKey_ok it i :
  before it i → (i < n)%nat → ∃ it', ParseNextKey laid it = Ok (true, it') ∧ at_item it' i.
Proof.
  intros Hb Hi. unfold ParseNextKey. rewrite (NextEntryOffset_ok _ _ Hb). cbn [mbind outcome_bind].
  destruct Hb as (off & m & _ & _ & Hkey & (j & a & Hj & Ha & Hle) & Hst).
  destruct (lookup_lt_is_Some_2 items i Hi) as [x Hx].
  cbn [laid it_restarts]. rewrite (proj2 (Z.leb_gt (offset items n) (offset items i))) by (by apply offset_lt).
  fold laid. rewrite (decode_item _ _ Hx).
  destruct (item_facts _ _ Hx) as (_ & _ & Hs & _). pose proof (Hkey x Hx) as Hshare.
  pose proof (take_same_length _ _ _ Hs Hshare).
  rewrite (proj2 (Z.ltb_ge (len (key_ it)) _)) by lia.
  destruct (item_data _ _ Hx) as (Hp & Hp0 & Hdelta & Hvalue). cbv zeta in *.
  change (it_restarts laid) with (offset items n). change (it_data laid) with (block_bytes items rho).
  rewrite <- Hp. replace (len (i_key x) - Z.of_nat (i_shared x)) with (len (drop (i_shared x) (i_key x)))
    by (rewrite length_drop; lia).
  rewrite Hdelta. cbn [mbind outcome_bind].
  rewrite Hj. destruct (advance_restart_ok (S (Z.to_nat (len rho))) j a i Ha Hle) as (j' & a' & Hadv & Ha' & Hle'); [lia|].
  change (it_num_restarts laid) with (len rho). rewrite Hadv. cbn [mbind outcome_bind].
  eexists. split; [reflexivity|]. eexists x, _. cbn [current_ key_ value_ status_ restart_index_].
  split_and!; try done.
  - by rewrite Nat2Z.id, Hshare, take_drop.
  - lia.
  - replace (offset items (S i) - len (i_value x) - _ + _) with (offset items (S i) - len (i_value x)) by lia. done.
  - by exists j', a'.
Qed.

Lemma ParseNextKey_end it : before it n → ParseNextKey laid it = Ok (false, invalid laid it).
Proof.
  intros Hb. unfold ParseNextKey. rewrite (NextEntryOffset_ok _ _ Hb). cbn [mbind outcome_bind].
  change (it_restarts laid) with (offset items n). by rewrite Z.leb_refl.
Qed.

Lemma invalid_at_end it : status_ it = status_OK → at_end (invalid laid it).
Proof. done. Qed.

Lemma before_status it i : before it i → status_ it = status_OK.
Proof. by intros (? & ? & ? & ? & ? & ? & ?). Qed.

Lemma SeekToRestartPoint_ok it j a :
  rho !! j = Some a → status_ it = status_OK →
  ∃ it', SeekToRestartPoint laid it (Z.of_nat j) = Ok it' ∧ before it' a.
Proof.
  intros Ha Hst. unfold SeekToRestartPoint. rewrite (GetRestartPoint_ok _ _ Ha). cbn [mbind outcome_bind].
  eexists. split; [reflexivity|]. eexists _, _. cbn. split_and!; [reflexivity|lia| |by exists j, a|done].
  intros x Hx. rewrite (layout_whole _ _ HL a x); [by rewrite !take_0| |done]. by eapply list_elem_of_lookup_2.
Qed.

(** *** The cursor *)

(** Position [c] of the list: the entry [c], or the end. *)
Definition cursor (it : Iter) (c : nat) : Prop := at_item it c ∨ c = n ∧ at_end it.

Lemma cursor_status it c : cursor it c → status_ it = status_OK.
Proof. intros [(? & ? & ? & ? & ? & ? & ? & ? & ? & ?)|[_ [_ ?]]]; done. Qed.

Lemma cursor_valid it c : cursor it c → (c ≤ n)%nat ∧ Valid laid it = (c <? n)%nat.
Proof.
  intros [(x & off & Hx & Hc & _)|[-> [Hc _]]]; unfold Valid; rewrite Hc; change (it_restarts laid) with (offset items n).
  - apply lookup_lt_Some in Hx. split; [lia|]. rewrite (proj2 (Nat.ltb_lt _ _) Hx). apply Z.ltb_lt. by apply offset_lt.
  - split; [done|]. by rewrite Z.ltb_irrefl, Nat.ltb_irrefl.
Qed.

Lemma ParseNextKey_cursor it i :
  before it i → (i ≤ n)%nat →
  ∃ it', ParseNextKey laid it = Ok ((i <? n)%nat, it') ∧ cursor it' i ∧ (i < n → at_item it' i)%nat.
Proof.
  intros Hb Hi. destruct (Nat.ltb_spec i n) as [Hlt|Hge].
  - destruct (ParseNextKey_ok it i Hb Hlt) as (it' & -> & Hat). exists it'. split; [done|]. split; [by left|done].
  - replace i with n in * by lia. rewrite (ParseNextKey_end _ Hb). eexists. split; [reflexivity|].
    split; [right; split; [done|]; by eapply invalid_at_end, before_status|lia].
Qed.

Lemma Next_cursor it c : cursor it c → (c < n)%nat → ∃ it', Next laid it = Ok it' ∧ cursor it' (S c).
Proof.
  intros Hc Hlt. unfold Next. rewrite (proj2 (cursor_valid _ _ Hc)), (proj2 (Nat.ltb_lt _ _) Hlt).
  cbn [require mbind outcome_bind]. destruct Hc as [Hat|[-> _]]; [|lia].
  destruct (ParseNextKey_cursor it (S c) (at_item_before _ _ Hat) ltac:(lia)) as (it' & -> & Hc' & _).
  by exists it'.
Qed.

(** Parsing on while the next entry begins before entry [stop] ends just before it. *)
Lemma parse_until_ok fuel it i stop :
  before it i → (i < stop ≤ n)%nat → (stop - i < fuel)%nat →
  ∃ it', parse_until laid fuel it (offset items stop) = Ok it' ∧ at_item it' (stop - 1).
Proof.
  revert it i. induction fuel as [|fuel IH]; intros it i Hb Hi Hf; [lia|]. cbn [parse_until].
  destruct (ParseNextKey_ok it i Hb ltac:(lia)) as (it1 & -> & Hat). cbn [mbind outcome_bind fst snd negb].
  rewrite (NextEntryOffset_ok _ _ (at_item_before _ _ Hat)). cbn [mbind outcome_bind].
  destruct (decide (S i = stop)) as [<-|Hne].
  - rewrite Z.ltb_irrefl. exists it1. split; [done|]. by replace (S i - 1)%nat with i by lia.
  - rewrite (proj2 (Z.ltb_lt _ _)) by (apply offset_lt; lia).
    apply (IH it1 (S i)); [by apply at_item_before|lia|lia].
Qed.

Lemma entries_enough : (n < entries_fuel laid)%nat.
Proof.
  unfold entries_fuel. cbn [laid it_data]. pose proof data_length as Hd.
  assert (∀ i, (i ≤ n)%nat → Z.of_nat i ≤ offset items i) as Hi.
  { intros i. induction i as [|i IH]; intros Hle; [apply offset_bound|].
    destruct (lookup_lt_is_Some_2 items i) as [x Hx]; [lia|]. pose proof (offset_step _ _ Hx). lia. }
  specialize (Hi n ltac:(lia)). lia.
Qed.

Lemma SeekToFirst_cursor it : status_ it = status_OK → ∃ it', SeekToFirst laid it = Ok it' ∧ cursor it' 0.
Proof.
  intros Hst. unfold SeekToFirst. change 0 with (Z.of_nat 0).
  destruct (SeekToRestartPoint_ok it 0 0 (layout_first _ _ HL) Hst) as (it1 & -> & Hb). cbn [mbind outcome_bind].
  destruct (ParseNextKey_cursor it1 0 Hb ltac:(lia)) as (it' & -> & Hc & _). by exists it'.
Qed.

Lemma rho_nonempty : (0 < length rho)%nat.
Proof. by apply lookup_lt_Some with (x := 0%nat), (layout_first _ _ HL). Qed.

Lemma SeekToLast_cursor it :
  status_ it = status_OK → ∃ it', SeekToLast laid it = Ok it' ∧ cursor it' (n - 1).
Proof.
  intros Hst. unfold SeekToLast. cbn [laid it_num_restarts it_restarts]. fold laid.
  pose proof rho_nonempty. pose proof data_length. pose proof (offset_bound n).
  rewrite wrap_small by (unfold in_width; lia). replace (len rho - 1) with (Z.of_nat (length rho - 1)) by lia.
  destruct (lookup_lt_is_Some_2 rho (length rho - 1)) as [a Ha]; [lia|].
  destruct (SeekToRestartPoint_ok it _ a Ha Hst) as (it1 & -> & Hb). cbn [mbind outcome_bind].
  pose proof (layout_within _ _ HL a (list_elem_of_lookup_2 _ _ _ Ha)) as Hw.
  destruct (decide (n = 0%nat)) as [Hn|Hn].
  - assert (a = n) as -> by lia. unfold entries_fuel. cbn [parse_until].
    rewrite (ParseNextKey_end _ Hb). cbn [mbind outcome_bind fst snd negb].
    eexists. split; [reflexivity|]. right. split; [lia|]. by eapply invalid_at_end, before_status.
  - pose proof entries_enough.
    destruct (parse_until_ok (entries_fuel laid) it1 a n Hb) as (it' & -> & Hat); [lia|lia|].
    exists it'. split; [done|by left].
Qed.

Lemma previous_restart_ok fuel j a c :
  rho !! j = Some a → (a ≤ c)%nat → (c < n)%nat → (j < fuel)%nat →
  if decide (c = 0%nat) then previous_restart laid fuel (Z.of_nat j) (offset items c) = Ok None
  else ∃ j' a', previous_restart laid fuel (Z.of_nat j) (offset items c) = Ok (Some (Z.of_nat j')) ∧
    rho !! j' = Some a' ∧ (a' < c)%nat.
Proof.
  intros Ha Hle Hc. revert j a Ha Hle. induction fuel as [|fuel IH]; intros j a Ha Hle Hf; [lia|].
  cbn [previous_restart]. rewrite (GetRestartPoint_ok _ _ Ha). cbn [mbind outcome_bind].
  pose proof (layout_first _ _ HL) as H0'.
  destruct (offset items c <=? offset items a) eqn:E; split_bool.
  - assert (a = c) as ->.
    { destruct (decide (a = c)) as [|Hne]; [done|]. pose proof (offset_lt a c ltac:(lia) ltac:(lia)). lia. }
    destruct (Z.of_nat j =? 0) eqn:Ej; split_bool.
    + assert (j = 0%nat) as -> by lia. rewrite Ha in H0'. injection H0' as ->. done.
    + destruct (lookup_lt_is_Some_2 rho (j - 1)) as [b Hb]; [apply lookup_lt_Some in Ha; lia|].
      pose proof (layout_sorted _ _ HL (j - 1) j b c Hb Ha ltac:(lia)).
      replace (Z.of_nat j - 1) with (Z.of_nat (j - 1)) by lia. apply (IH (j - 1)%nat b); [done|lia|lia].
  - apply offset_lt_inv in E. rewrite decide_False by lia. by exists j, a.
Qed.

Lemma Prev_cursor it c :
  cursor it c → (c < n)%nat →
  ∃ it', Prev laid it = Ok it' ∧ cursor it' (if decide (c = 0%nat) then n else c - 1).
Proof.
  intros Hc Hlt. unfold Prev. rewrite (proj2 (cursor_valid _ _ Hc)), (proj2 (Nat.ltb_lt _ _) Hlt).
  cbn [require mbind outcome_bind]. pose proof (cursor_status _ _ Hc) as Hst.
  destruct Hc as [(x & off & Hx & Hcur & _ & _ & _ & _ & (j & a & Hj & Ha & Hle) & _)|[-> _]]; [|lia].
  rewrite Hcur, Hj. change (it_num_restarts laid) with (len rho).
  pose proof (previous_restart_ok (S (Z.to_nat (len rho))) j a c Ha Hle Hlt) as Hp.
  apply lookup_lt_Some in Ha. specialize (Hp ltac:(lia)). destruct (decide (c = 0%nat)) as [->|Hne].
  - rewrite Hp. cbn [mbind outcome_bind]. eexists. split; [reflexivity|]. right. by split.
  - destruct Hp as (j' & a' & -> & Ha' & Hlt'). cbn [mbind outcome_bind].
    destruct (SeekToRestartPoint_ok it j' a' Ha' Hst) as (it1 & -> & Hb). cbn [mbind outcome_bind].
    pose proof entries_enough.
    destruct (parse_until_ok (entries_fuel laid) it1 a' c Hb) as (it' & -> & Hat); [lia|lia|].
    exists it'. split; [done|by left].
Qed.

(** *** Searching *)

Context `{!ComparatorLaws} (Hinc : increasing (map i_key items)).

(** The entries before [i] have keys below the target. *)
Definition all_below (target : Slice) (i : nat) : Prop :=
  ∀ k x, (k < i)%nat → items !! k = Some x → order (i_key x) target < 0.

Lemma item_key_ok i x : items !! i = Some x → key_ok (i_key x).
Proof. intros Hx. eapply (increasing_ok _ i); [exact Hinc|]. by rewrite list_lookup_fmap, Hx. Qed.

Lemma all_below_from target i x :
  key_ok target → items !! i = Some x → order (i_key x) target < 0 → all_below target (S i).
Proof.
  intros Ht Hx Hlt k y Hk Hy. destruct (decide (k = i)) as [->|Hne]; [congruence|].
  eapply order_trans; [by eapply item_key_ok| |done| |exact Hlt]; [by eapply item_key_ok|]. eapply (increasing_lookup (map i_key items) k i); [done| | |lia].
  - by rewrite list_lookup_fmap, Hy.
  - by rewrite list_lookup_fmap, Hx.
Qed.

(** The binary search ends at a restart point with nothing to be found before it. *)
Lemma Seek_loop_ok fuel target l r a :
  key_ok target → rho !! l = Some a → (l ≤ r < length rho)%nat → all_below target a → (r - l < fuel)%nat →
  ∃ l' a', Seek_loop laid fuel target (Z.of_nat l) (Z.of_nat r) = Ok (Some (Z.of_nat l')) ∧
    rho !! l' = Some a' ∧ all_below target a'.
Proof.
  intros Ht. revert l r a. induction fuel as [|fuel IH]; intros l r a Ha Hlr Hbelow Hf; [lia|]. cbn [Seek_loop].
  destruct (Z.of_nat l <? Z.of_nat r) eqn:E; split_bool; [|by exists l, a].
  pose proof data_length. pose proof (offset_bound n).
  rewrite wrap_small by (unfold in_width; lia).
  set (mid := Z.to_nat ((Z.of_nat l + Z.of_nat r + 1) / 2)).
  assert (l < mid ≤ r)%nat as Hmid by (unfold mid; lia_mod).
  replace ((Z.of_nat l + Z.of_nat r + 1) / 2) with (Z.of_nat mid) by (unfold mid; lia_mod).
  destruct (lookup_lt_is_Some_2 rho mid) as [m Hm]; [lia|].
  rewrite (GetRestartPoint_ok _ _ Hm). cbn [mbind outcome_bind].
  pose proof (list_elem_of_lookup_2 _ _ _ Hm) as Hin.
  pose proof (layout_sorted _ _ HL l mid a m Ha Hm ltac:(lia)) as Ham.
  destruct (layout_within _ _ HL m Hin) as [->|Hmn]; [lia|].
  destruct (lookup_lt_is_Some_2 items m Hmn) as [x Hx]. rewrite (decode_item _ _ Hx).
  pose proof (layout_whole _ _ HL m x Hin Hx) as Hs. destruct (item_data _ _ Hx) as (Hp & _ & Hdelta & _).
  rewrite Hs in *. cbn [Z.of_nat Z.eqb negb]. cbv zeta in *. rewrite drop_0 in *. rewrite Z.sub_0_r.
  change (it_restarts laid) with (offset items n). change (it_data laid) with (block_bytes items rho).
  rewrite <- Hp, Hdelta. cbn [mbind outcome_bind].
  rewrite Compare_ok by first [done|by eapply item_key_ok]. cbn [mbind outcome_bind].
  destruct (order (i_key x) target <? 0) eqn:Ec; split_bool.
  - apply (IH mid r m); [done|lia| |lia]. intros k y Hk Hy. by apply (all_below_from target m x Ht Hx Ec k y); [lia|].
  - replace (Z.of_nat mid - 1) with (Z.of_nat (mid - 1)) by lia. apply (IH l (mid - 1)%nat a); [done|lia|done|lia].
Qed.

(** The first position whose key is not below the target. *)
Definition lower_bound (target : Slice) (c : nat) : Prop :=
  (c ≤ n)%nat ∧ all_below target c ∧ ∀ x, items !! c = Some x → 0 ≤ order (i_key x) target.

Lemma Seek_linear_ok fuel it i target :
  key_ok target → before it i → (i ≤ n)%nat → all_below target i → (n - i < fuel)%nat →
  ∃ it' c, Seek_linear laid fuel it target = Ok it' ∧ cursor it' c ∧ lower_bound target c.
Proof.
  intros Ht. revert it i. induction fuel as [|fuel IH]; intros it i Hb Hi Hbelow Hf; [lia|]. cbn [Seek_linear].
  destruct (ParseNextKey_cursor it i Hb Hi) as (it1 & -> & Hc & Hat). cbn [mbind outcome_bind fst snd].
  destruct (Nat.ltb_spec i n) as [Hlt|Hge]; cbn [negb].
  - specialize (Hat Hlt). pose proof Hat as (x & off & Hx & _ & Hk & _). rewrite Hk.
    rewrite Compare_ok by first [done|by eapply item_key_ok]. cbn [mbind outcome_bind].
    destruct (0 <=? order (i_key x) target) eqn:E; split_bool.
    + exists it1, i. split; [done|]. split; [done|]. split; [lia|]. split; [done|].
      intros y Hy. by replace y with x by congruence.
    + apply (IH it1 (S i)); [by apply at_item_before|lia| |lia]. by eapply all_below_from.
  - exists it1, i. split; [done|]. split; [done|]. split; [done|]. split; [done|].
    intros x Hx. apply lookup_lt_Some in Hx. lia.
Qed.

Lemma Seek_cursor it target :
  status_ it = status_OK → key_ok target →
  ∃ it' c, Seek laid it target = Ok it' ∧ cursor it' c ∧ lower_bound target c.
Proof.
  intros Hst Ht. unfold Seek. change (it_num_restarts laid) with (len rho).
  pose proof rho_nonempty. pose proof data_length. pose proof (offset_bound n).
  rewrite wrap_small by (unfold in_width; lia). replace (len rho - 1) with (Z.of_nat (length rho - 1)) by lia.
  destruct (Seek_loop_ok (S (Z.to_nat (len rho))) target 0 (length rho - 1) 0 Ht (layout_first _ _ HL))
    as (l & a & E & Ha & Hbelow); [lia|intros k x Hk; lia|lia|].
  change 0 with (Z.of_nat 0). rewrite E. cbn [mbind outcome_bind].
  destruct (SeekToRestartPoint_ok it l a Ha Hst) as (it1 & -> & Hb). cbn [mbind outcome_bind].
  pose proof (layout_within _ _ HL a (list_elem_of_lookup_2 _ _ _ Ha)). pose proof entries_enough.
  apply (Seek_linear_ok _ it1 a); [done|done|lia|done|lia].
Qed.

End layout.

(** ** The builder makes a layout *)

Section building.
Context `{ComparatorLaws}.

Definition entry_of (x : item) : Slice * Slice := (i_key x, i_value x).

Definition last_key_of (items : list item) : list Z := default [] (i_key <$> last items).

Record building (b : BlockBuilder) (items : list item) (rho : list nat) : Prop := {
  building_buffer : buffer_ b = encode_items items;
  building_restarts : restarts_ b = map (λ a, u32 (offset items a)) rho;
  building_last : last_key_ b = last_key_of items;
  building_open : finished_ b = false;
  building_counter : 0 ≤ counter_ b ≤ interval_ b ∧ counter_ b ≤ len items ∧ 1 ≤ interval_ b;
  building_layout : layout items rho;
  building_increasing : increasing (map i_key items)
}.

Lemma offset_app items x a : (a ≤ length items)%nat → offset (items ++ [x]) a = offset items a.
Proof. intros Ha. unfold offset. by rewrite take_app_le. Qed.

Lemma last_key_lookup items : items ≠ [] → ∃ x, items !! (length items - 1)%nat = Some x ∧ last_key_of items = i_key x.
Proof.
  intros Hne. destruct (last items) as [x|] eqn:E; [|by apply last_None in E].
  exists x. unfold last_key_of. rewrite E. split; [|done]. rewrite last_lookup in E.
  by replace (length items - 1)%nat with (pred (length items)) by lia.
Qed.

Lemma chained_snoc prev items x :
  chained prev items → (i_shared x ≤ length (i_key x))%nat →
  take (i_shared x) (default prev (i_key <$> last items)) = take (i_shared x) (i_key x) →
  chained prev (items ++ [x]).
Proof.
  revert prev. induction items as [|y items IH]; intros prev Hc Hs Ht; cbn [app chained] in *; [done|].
  destruct Hc as (H1 & H2 & Hc). split_and!; [done..|]. apply IH; [done..|].
  rewrite <- Ht. f_equal. destruct items as [|z items]; [done|]. cbn [last].
  destruct (last (z :: items)) eqn:E; [done|]. by apply last_None in E.
Qed.

Lemma shared_prefix_ok a b :
  (shared_prefix a b ≤ length b)%nat ∧ take (shared_prefix a b) a = take (shared_prefix a b) b.
Proof.
  revert b. induction a as [|x a IH]; intros [|y b]; cbn; try (split; [lia|done]).
  destruct (Z.eqb_spec x y) as [->|]; [|split; [lia|done]].
  destruct (IH b) as [H1 H2]. cbn. split; [lia|by rewrite H2].
Qed.

(** A new entry, at a new restart point or not. *)
Lemma layout_snoc items rho x (restart : bool) :
  layout items rho → item_ok x → (i_shared x ≤ length (i_key x))%nat →
  take (i_shared x) (last_key_of items) = take (i_shared x) (i_key x) →
  (restart = true → i_shared x = 0%nat ∧ items ≠ []) →
  layout (items ++ [x]) (if restart then rho ++ [length items] else rho).
Proof.
  intros [Hi Hc Hf Hs Hw Hwh] Hx Hsl Ht Hr.
  assert (items = [] → i_shared x = 0%nat) as Hempty.
  { intros ->. pose proof (take_same_length _ _ _ Hsl Ht) as Hle. cbn in Hle. lia. }
  assert (∀ a y, a ∈ rho → (items ++ [x]) !! a = Some y → i_shared y = 0%nat) as Hold.
  { intros a y Ha Hy. destruct (decide (a < length items)%nat) as [Hlt|Hge].
    - rewrite lookup_app_l in Hy by done. by eapply Hwh.
    - destruct (Hw a Ha) as [->|]; [|lia]. destruct items; [|cbn [length] in Hge; lia].
      cbn in Hy. injection Hy as <-. by apply Hempty. }
  split.
  - apply Forall_app_2; [done|by apply Forall_singleton].
  - by apply chained_snoc.
  - destruct restart; [|done]. by apply lookup_app_l_Some.
  - intros i j a b Ha Hb Hij. destruct restart; [|by eapply Hs].
    apply lookup_snoc_Some in Ha, Hb. destruct (Hr eq_refl) as [_ Hne].
    assert (∀ k c, rho !! k = Some c → (c < length items)%nat) as Hlt.
    { intros k c Hk. destruct (Hw c (list_elem_of_lookup_2 _ _ _ Hk)) as [->|]; [|done]. destruct items; cbn; [done|lia]. }
    destruct Ha as [[Hi' Ha]|[-> <-]], Hb as [[Hj' Hb]|[-> <-]]; try lia; [by eapply Hs|by eapply Hlt].
  - intros a Ha. rewrite length_app. cbn [length].
    assert (a ∈ rho ∨ a = length items) as [Hin| ->]; [|destruct (Hw a Hin); [by left|right; lia]|right; lia].
    destruct restart; [|by left]. apply elem_of_app in Ha as [?|Ha]; [by left|right]. by apply list_elem_of_singleton in Ha.
  - intros a y Ha Hy. destruct restart; [|by eapply Hold].
    apply elem_of_app in Ha as [Ha|Ha]; [by eapply Hold|]. apply list_elem_of_singleton in Ha as ->.
    rewrite lookup_app_r, Nat.sub_diag in Hy by lia. injection Hy as <-. by apply Hr.
Qed.

Lemma new_BlockBuilder_ok interval :
  1 ≤ interval → ∃ b, new_BlockBuilder interval = Ok b ∧ building b [] [0%nat].
Proof.
  intros Hi. unfold new_BlockBuilder. decide_test. cbn [require mbind outcome_bind].
  eexists. split; [reflexivity|]. split; cbn; try done.
  - lia.
  - split; try done.
    + intros i j a b Ha Hb Hij. apply lookup_lt_Some in Hb. cbn in Hb. lia.
    + intros a Ha. left. by apply list_elem_of_singleton in Ha.
  - split; constructor.
Qed.

Lemma Add_ok b items rho key value :
  building b items rho → bytes key → bytes value → len key < 2 ^ 32 → len value < 2 ^ 32 →
  key_ok key → (items ≠ [] → order (last_key_of items) key < 0) →
  ∃ b' x rho', Add b key value = Ok b' ∧ building b' (items ++ [x]) rho' ∧ entry_of x = (key, value).
Proof.
  intros [Hbuf Hres Hlast Hopen Hcount Hlay Hinc] Hk Hv Hkl Hvl Hkey Hlt. unfold Add.
  rewrite Hopen, (proj2 (Z.leb_le (counter_ b) _)) by lia. cbn [negb require mbind outcome_bind].
  assert ((if len (buffer_ b) =? 0 then Ok true else r ← Compare key (last_key_ b); Ok (0 <? r)) = Ok true) as ->.
  { destruct (decide (items = [])) as [->|Hne]; [by rewrite Hbuf|]. destruct (_ =? 0); [done|].
    destruct (last_key_lookup items Hne) as (y & Hy & Hly).
    assert (key_ok (last_key_of items)) as Hlok.
    { rewrite Hly. eapply (increasing_ok _ (length items - 1)); [exact Hinc|]. by rewrite list_lookup_fmap, Hy. }
    rewrite Hlast, Compare_ok by done. cbn [mbind outcome_bind].
    by rewrite (proj2 (Z.ltb_lt _ _) (proj1 (order_flip _ _ Hlok Hkey) (Hlt Hne))). }
  cbn [require mbind outcome_bind].
  assert (∃ shared restart,
    (if counter_ b <? interval_ b then (shared_prefix (last_key_ b) key, restarts_ b, counter_ b)
     else (O, restarts_ b ++ [u32 (len (buffer_ b))], 0)) =
    (shared, if (restart : bool) then restarts_ b ++ [u32 (len (buffer_ b))] else restarts_ b,
     if restart then 0 else counter_ b) ∧
    (shared ≤ length key)%nat ∧ take shared (last_key_of items) = take shared key ∧
    (restart = true → shared = 0%nat ∧ items ≠ []) ∧
    (if restart then 0 else counter_ b) + 1 ≤ interval_ b) as (shared & restart & -> & Hs & Ht & Hr & Hc).
  { destruct (counter_ b <? interval_ b) eqn:E; split_bool.
    - exists (shared_prefix (last_key_ b) key), false. rewrite Hlast. destruct (shared_prefix_ok (last_key_of items) key).
      split_and!; try done. lia.
    - exists 0%nat, true. rewrite !take_0. split_and!; try done; [lia| |lia]. intros _. split; [done|].
      intros ->. cbn [length] in Hcount. lia. }
  set (x := {| i_shared := shared; i_key := key; i_value := value |}).
  pose proof (layout_snoc items rho x restart Hlay (conj Hk Hv) Hs Ht Hr) as Hlay'.
  eexists _, x, (if restart then rho ++ [length items] else rho). split; [reflexivity|]. split; [|done].
  split; cbn [buffer_ restarts_ last_key_ finished_ counter_ interval_].
  - rewrite Hbuf, encode_items_app. unfold encode_items at 3. cbn [map concat]. rewrite app_nil_r.
    unfold PutVarint32, encode_item, x. cbn [i_shared i_key i_value].
    rewrite !wrap_small by (unfold in_width; lia). by rewrite <- !app_assoc.
  - assert (map (λ a, u32 (offset (items ++ [x]) a)) rho = restarts_ b) as Hsame.
    { rewrite Hres. apply map_ext_in. intros a Ha. rewrite offset_app; [done|].
      apply list_elem_of_In in Ha. destruct (layout_within _ _ Hlay a Ha); lia. }
    destruct restart; [|done]. rewrite map_app, Hsame. cbn [map]. rewrite offset_app by done.
    by rewrite offset_end, Hbuf.
  - rewrite Hlast, Ht, take_drop. unfold last_key_of. by rewrite last_snoc.
  - done.
  - rewrite length_app. cbn [length]. destruct restart; lia.
  - done.
  - rewrite map_app. cbn [map]. destruct (decide (items = [])) as [->|Hne]; [by split; repeat constructor|].
    destruct (exists_last Hne) as (l & y & ->). specialize (Hlt Hne). unfold last_key_of in Hlt.
    rewrite last_snoc in Hlt. rewrite map_app in *. by apply increasing_snoc.
Qed.

(** Add entry after entry. *)
Fixpoint Adds (b : BlockBuilder) (entries : list (Slice * Slice)) : outcome BlockBuilder :=
  match entries with
  | [] => Ok b
  | (key, value) :: entries => b ← Add b key value; Adds b entries
  end.

Definition small_entry (e : Slice * Slice) : Prop :=
  bytes e.1 ∧ bytes e.2 ∧ len e.1 < 2 ^ 32 ∧ len e.2 < 2 ^ 32.

Lemma Adds_ok b items rho entries :
  building b items rho → Forall small_entry entries → increasing (map fst (map entry_of items ++ entries)) →
  ∃ b' items' rho', Adds b entries = Ok b' ∧ building b' items' rho' ∧ map entry_of items' = map entry_of items ++ entries.
Proof.
  revert b items rho. induction entries as [|[key value] entries IH]; intros b items rho Hb Hs Hinc; cbn [Adds].
  - exists b, items, rho. by rewrite app_nil_r.
  - apply Forall_cons in Hs as [(Hk & Hv & Hkl & Hvl) Hs]. cbn [fst snd] in *.
    destruct (Add_ok b items rho key value Hb Hk Hv Hkl Hvl) as (b1 & x & rho1 & -> & Hb1 & Hx).
    { eapply (increasing_ok _ (length items)); [exact Hinc|].
      rewrite map_app, lookup_app_r; rewrite !length_map; [|done]. by rewrite Nat.sub_diag. }
    { intros Hne. destruct (last_key_lookup items Hne) as (y & Hy & ->).
      eapply (increasing_lookup _ (length items - 1) (length items)); [exact Hinc| | |].
      - rewrite map_app. apply lookup_app_l_Some. by rewrite list_lookup_fmap, list_lookup_fmap, Hy.
      - rewrite map_app, lookup_app_r; rewrite !length_map; [|done]. by rewrite Nat.sub_diag.
      - destruct items; [done|cbn; lia]. }
    cbn [mbind outcome_bind]. assert (map entry_of (items ++ [x]) ++ entries = map entry_of items ++ (key, value) :: entries) as Heq.
    { rewrite map_app. cbn [map]. by rewrite Hx, <- app_assoc. }
    destruct (IH b1 (items ++ [x]) rho1 Hb1 Hs) as (b2 & items2 & rho2 & -> & Hb2 & Hm); [by rewrite Heq|].
    exists b2, items2, rho2. by rewrite Hm, Heq.
Qed.

Lemma BlockBuilder_Finish_ok b items rho :
  building b items rho → len (BlockBuilder_Finish b).1 < 2 ^ 32 →
  (BlockBuilder_Finish b).1 = block_bytes items rho.
Proof.
  intros [Hbuf Hres _ _ _ Hlay _]. unfold BlockBuilder_Finish. cbn [fst]. unfold PutFixed32 at 1 3.
  rewrite PutFixed32_all, Hbuf, Hres, length_map. intros Hlen.
  rewrite !length_app, !Nat2Z.inj_add, length_fixed32s, length_map in Hlen. unfold block_bytes. rewrite <- app_assoc.
  rewrite (wrap_small 32 (len rho)) by (unfold in_width; lia). 
  rewrite (map_ext (λ a, u32 (offset items a)) (offset items)); [done|]. intros a.
  apply wrap_small. pose proof (offset_end items).
  assert (offset items a ≤ len (encode_items items)).
  { unfold offset. rewrite <- (take_drop a items) at 2. rewrite encode_items_app, length_app. lia. }
  unfold in_width. split; [unfold offset; lia|lia].
Qed.

Lemma Reset_ok b items rho : building b items rho → building (Reset b) [] [0%nat].
Proof.
  intros Hb. destruct (building_counter _ _ _ Hb) as (_ & _ & Hi). unfold Reset. split; cbn; try done.
  - lia.
  - split; try done.
    + intros i j a c Ha Hc Hij. apply lookup_lt_Some in Hc. cbn in Hc. lia.
    + intros a Ha. left. by apply list_elem_of_singleton in Ha.
  - split; constructor.
Qed.

End building.

(** ** How large they are *)

Lemma layout_restarts items rho : layout items rho → (length rho ≤ S (length items))%nat.
Proof.
  intros HL. assert (∀ j a, rho !! j = Some a → (j ≤ a)%nat) as Hge.
  { induction j as [|j IH]; intros a Ha; [lia|].
    destruct (lookup_lt_is_Some_2 rho j) as [b Hb]; [apply lookup_lt_Some in Ha; lia|].
    pose proof (layout_sorted _ _ HL j (S j) b a Hb Ha ltac:(lia)). specialize (IH b Hb). lia. }
  destruct (decide (length rho = 0%nat)) as [|Hne]; [lia|].
  destruct (lookup_lt_is_Some_2 rho (length rho - 1)) as [a Ha]; [lia|]. pose proof (Hge _ _ Ha).
  destruct (layout_within _ _ HL a (list_elem_of_lookup_2 _ _ _ Ha)); lia.
Qed.

(** What entries take together, generously. *)
Definition weight (e : Slice * Slice) : Z := len e.1 + len e.2 + 64.
Definition total (entries : list (Slice * Slice)) : Z := fold_right (λ e n, weight e + n) 0 entries.

Lemma total_app l1 l2 : total (l1 ++ l2) = total l1 + total l2.
Proof. induction l1 as [|e l1 IH]; cbn [app total fold_right]; [done|]. fold (total (l1 ++ l2)) (total l1). lia. Qed.

Lemma total_length l : 64 * len l ≤ total l.
Proof. induction l as [|e l IH]; [done|]. cbn [total fold_right length]. fold (total l). unfold weight. lia. Qed.

Lemma EncodeVarint32_length v : (length (EncodeVarint32 v) ≤ 5)%nat.
Proof. unfold EncodeVarint32. repeat destruct (_ <? _); cbn; lia. Qed.

Lemma encode_items_length items : len (encode_items items) + 49 * len items ≤ total (map entry_of items).
Proof.
  induction items as [|x items IH]; [done|]. cbn [map total fold_right]. fold (total (map entry_of items)).
  change (encode_items (x :: items)) with (encode_item x ++ encode_items items). unfold weight, encode_item.
  rewrite !length_app, length_drop. cbn [length entry_of fst snd].
  pose proof (EncodeVarint32_length (Z.of_nat (i_shared x))).
  pose proof (EncodeVarint32_length (len (i_key x) - Z.of_nat (i_shared x))).
  pose proof (EncodeVarint32_length (len (i_value x))). lia.
Qed.

Lemma block_bytes_length items rho :
  layout items rho → len (block_bytes items rho) + 45 * len items ≤ total (map entry_of items) + 8.
Proof.
  intros HL. pose proof (layout_restarts _ _ HL). pose proof (encode_items_length items).
  unfold block_bytes. rewrite !length_app, !Nat2Z.inj_add, length_fixed32s, length_map.
  unfold EncodeFixed32. rewrite length_le_bytes. lia.
Qed.

(** The reader finds the restart array of a layout. *)
Lemma NewIterator_ok items rho :
  layout items rho → len (block_bytes items rho) < 2 ^ 32 →
  ∃ it, (new_Block (block_bytes items rho) ≫= NewIterator) = Ok (inr (laid items rho, it)) ∧
    cursor items rho it (length items).
Proof.
  intros HL Hsize. pose proof (data_length items rho) as Hd. pose proof (offset_bound items rho (length items)).
  pose proof (rho_nonempty items rho HL).
  set (data := block_bytes items rho) in *.
  assert (NumRestarts data (len data) = Ok (len rho)) as Hnum.
  { unfold NumRestarts, sizeof_uint32. decide_test. cbn [require mbind outcome_bind].
    assert (read_at data (len data - 4) 4 = Ok (EncodeFixed32 (len rho))) as ->.
    { unfold data, block_bytes. rewrite app_assoc, <- (app_nil_r (EncodeFixed32 (len rho))) at 1.
      assert (len (EncodeFixed32 (len rho)) = 4) as H4 by (unfold EncodeFixed32; by rewrite length_le_bytes).
      apply read_at_app; [|done]. unfold block_bytes. rewrite !length_app. lia. }
    cbn [mbind outcome_bind]. rewrite <- (app_nil_r (EncodeFixed32 _)). apply DecodeFixed32_ok. unfold in_width. lia. }
  unfold new_Block. unfold sizeof_uint32 at 1. decide_test. rewrite Hnum. cbn [mbind outcome_bind].
  unfold sizeof_uint32. rewrite (proj2 (Z.ltb_ge ((len data - 4) / 4) (len rho)))
    by (apply Z.div_le_lower_bound; lia).
  rewrite !wrap_small; [|unfold in_width; lia|rewrite wrap_small by (unfold in_width; lia); unfold in_width; lia].
  unfold NewIterator. cbn [mbind outcome_bind size_ data_ restart_offset_]. unfold sizeof_uint32. decide_test. rewrite Hnum.
  cbn [mbind outcome_bind]. decide_test.
  replace (len data - (1 + len rho) * 4) with (offset items (length items)) by lia.
  unfold new_Iter. cbn [it_num_restarts]. decide_test. cbn [require mbind outcome_bind].
  eexists. split; [reflexivity|]. right. done.
Qed.

(** ** The block iterator as an iterator *)

#[export] Instance block_iterator `{Comparator} (blk : block_of_iter) : Iterator Iter := {|
  Iterator_Valid := Valid blk;
  Iterator_SeekToFirst := SeekToFirst blk;
  Iterator_SeekToLast := SeekToLast blk;
  Iterator_Seek := Seek blk;
  Iterator_Next := Next blk;
  Iterator_Prev := Prev blk;
  Iterator_key := Iter_key blk;
  Iterator_value := Iter_value blk;
  Iterator_status := status_
|}.

Lemma layout_iterates `{ComparatorLaws} items rho :
  layout items rho → len (block_bytes items rho) < 2 ^ 32 → increasing (map i_key items) →
  @iterates _ _ Iter (block_iterator (laid items rho)) (map entry_of items) (cursor items rho).
Proof.
  intros HL Hsize Hinc. pose proof (length_map entry_of items) as Hlen. split.
  - rewrite Hlen. by apply cursor_valid.
  - by apply cursor_status.
  - intros it c key value Hc He. rewrite list_lookup_fmap in He.
    destruct (items !! c) as [x|] eqn:Hx; [|done]. injection He as <- <-.
    change (Iter_key (laid items rho) it = Ok (i_key x) ∧ Iter_value (laid items rho) it = Ok (i_value x)).
    unfold Iter_key, Iter_value. rewrite (proj2 (cursor_valid items rho HL it c Hc)).
    pose proof (lookup_lt_Some _ _ _ Hx) as Hlt. rewrite (proj2 (Nat.ltb_lt _ _) Hlt). cbn [require mbind outcome_bind].
    destruct Hc as [(y & off & Hy & _ & -> & -> & _ & Hread & _)|[-> _]]; [|lia].
    replace y with x in * by congruence. split; [done|]. exact Hread.
  - intros it c Hc. eapply SeekToFirst_cursor; [done..|]. by eapply cursor_status.
  - rewrite Hlen. intros it c Hc. eapply SeekToLast_cursor; [done..|]. by eapply cursor_status.
  - rewrite Hlen. intros it c Hc Hlt. by apply Next_cursor.
  - rewrite Hlen. intros it c Hc Hlt. by apply Prev_cursor.
  - intros it c target Hc Ht.
    destruct (Seek_cursor items rho HL Hsize Hinc it target (cursor_status _ _ _ _ Hc) Ht) as (it' & c' & E & Hc' & Hle & Hb & Hge).
    exists it', c'. split; [exact E|]. split; [done|]. intros i key value He. rewrite list_lookup_fmap in He.
    destruct (items !! i) as [x|] eqn:Hx; [|done]. injection He as <- <-.
    destruct (decide (i < c')%nat) as [Hlt|Hnl]; [by eapply Hb|].
    destruct (decide (i = c')) as [->|Hne]; [by apply Hge|].
    destruct (lookup_lt_is_Some_2 items c') as [y Hy]; [apply lookup_lt_Some in Hx; lia|]. specialize (Hge y Hy).
    pose proof (item_key_ok items Hinc _ _ Hx) as Hkx. pose proof (item_key_ok items Hinc _ _ Hy) as Hky.
    assert (order (i_key y) (i_key x) < 0) as Hyx.
    { eapply (increasing_lookup (map i_key items) c' i); [done|by rewrite list_lookup_fmap, Hy|
        by rewrite list_lookup_fmap, Hx|lia]. }
    destruct (Z.le_gt_cases 0 (order (i_key x) target)) as [|Hlt]; [done|].
    pose proof (order_trans _ _ _ Hky Hkx Ht Hyx Hlt). lia.
Qed.

(** ** What a block promises *)

(** C31: a block refines the list of its entries.  Whatever entries are added in increasing
    order of their keys, and whatever the restart interval, [BlockBuilder] accepts them; the
    block it finishes opens, unless it takes 4 GiB, and its iterator behaves as a position in
    the list of the entries: [Next], [Prev], [SeekToFirst] and [SeekToLast] move the position,
    the key and the value are those of the entry there, [Seek] stops at the first entry whose
    key is not below the target, and the status stays OK. *)
Theorem Block_Iter_refines `{ComparatorLaws} interval entries :
  1 ≤ interval → Forall small_entry entries → increasing (map fst entries) →
  ∃ b, (b ← new_BlockBuilder interval; Adds b entries) = Ok b ∧
    (len (BlockBuilder_Finish b).1 < 2 ^ 32 →
     ∃ blk it R, (new_Block (BlockBuilder_Finish b).1 ≫= NewIterator) = Ok (inr (blk, it)) ∧
       @iterates _ _ Iter (block_iterator blk) entries R ∧ R it (length entries)).
Proof.
  intros Hi Hs Hinc. destruct (new_BlockBuilder_ok interval Hi) as (b0 & -> & Hb0). cbn [mbind outcome_bind].
  destruct (Adds_ok b0 [] [0%nat] entries Hb0 Hs Hinc) as (b & items & rho & -> & Hb & Hm). cbn [map app] in Hm.
  exists b. split; [done|]. intros Hlen. pose proof (BlockBuilder_Finish_ok _ _ _ Hb Hlen) as Hf. rewrite Hf in *.
  destruct (NewIterator_ok items rho (building_layout _ _ _ Hb) Hlen) as (it & -> & Hit).
  exists (laid items rho), it, (cursor items rho). split; [done|]. split.
  - rewrite <- Hm. apply layout_iterates; [by eapply building_layout|done|by eapply building_increasing].
  - by rewrite <- Hm, length_map.
Qed.

Definition sample_entries : list (Slice * Slice) :=
  [([97; 98; 97], [1]); ([97; 98; 99], [2; 2]); ([97; 99], []); ([98], [3])].

Lemma Block_Iter_refines_witness :
  increasing (map fst sample_entries) ∧
  ∃ b blk it R, (b ← new_BlockBuilder 2; Adds b sample_entries) = Ok b ∧
    (new_Block (BlockBuilder_Finish b).1 ≫= NewIterator) = Ok (inr (blk, it)) ∧
    @iterates _ _ Iter (block_iterator blk) sample_entries R ∧ R it 4%nat.
Proof.
  assert (increasing (map fst sample_entries)) as Hinc 
    by (split; [by apply (bool_decide_unpack _); vm_compute|by repeat constructor]).
  split; [exact Hinc|].
  destruct (Block_Iter_refines 2 sample_entries) as (b & Hb & Hr).
  - lia.
  - by apply (bool_decide_unpack _); vm_compute.
  - exact Hinc.
  - assert (len (BlockBuilder_Finish b).1 < 2 ^ 32) as Hlen by (vm_compute in Hb; injection Hb as <-; by vm_compute).
    destruct (Hr Hlen) as (blk & it & R & H1 & H2 & H3). by exists b, blk, it, R.
Defined.

(** A block with one entry, whose lengths need not fit. *)
Definition one_entry_block (non_shared value_length : Z) (rest : list Z) : list Z :=
  (EncodeVarint32 0 ++ EncodeVarint32 non_shared ++ EncodeVarint32 value_length ++ rest) ++
  EncodeFixed32 0 ++ EncodeFixed32 1.

Lemma length_one_entry_block non_shared value_length rest :
  len (one_entry_block non_shared value_length rest) =
  1 + len (EncodeVarint32 non_shared) + len (EncodeVarint32 value_length) + len rest + 8.
Proof.
  unfold one_entry_block. rewrite !length_app. unfold EncodeFixed32. rewrite !length_le_bytes.
  rewrite EncodeVarint32_small by lia. cbn [length]. lia.
Qed.

(** The iterator trusts lengths whose sum wraps around.  [DecodeEntry] compares the bytes
    left with [non_shared + value_length] in [uint32_t]: a block whose first entry claims
    lengths that sum to [2 ^ 32 + k], with [k] bytes there, opens and is not reported as
    corrupted; [SeekToFirst] then assigns the key from bytes past the end of the block. *)
Theorem SeekToFirst_overruns `{Comparator} non_shared value_length rest :
  in_width 32 non_shared → in_width 32 value_length → bytes rest →
  2 ^ 32 ≤ non_shared + value_length ≤ 2 ^ 32 + len rest →
  len rest + 8 < non_shared → len rest < 2 ^ 31 →
  ∃ blk it, (new_Block (one_entry_block non_shared value_length rest) ≫= NewIterator) = Ok (inr (blk, it)) ∧
    SeekToFirst blk it = Fault OutOfBounds.
Proof.
  intros Hn Hv Hr Hsum Hlong Hsmall. pose proof (length_one_entry_block non_shared value_length rest) as Hd.
  pose proof (EncodeVarint32_length non_shared). pose proof (EncodeVarint32_length value_length).
  set (entry := EncodeVarint32 0 ++ EncodeVarint32 non_shared ++ EncodeVarint32 value_length ++ rest).
  assert (one_entry_block non_shared value_length rest = entry ++ EncodeFixed32 0 ++ EncodeFixed32 1) as Hdata by done.
  set (data := one_entry_block non_shared value_length rest) in *.
  assert (len data = len entry + 8) as Hle by (rewrite Hdata, !length_app; unfold EncodeFixed32; rewrite !length_le_bytes; lia).
  assert (NumRestarts data (len data) = Ok 1) as Hnum.
  { unfold NumRestarts, sizeof_uint32. decide_test. cbn [require mbind outcome_bind].
    assert (read_at data (len data - 4) 4 = Ok (EncodeFixed32 1)) as ->; [|reflexivity].
    rewrite Hdata, app_assoc, <- (app_nil_r (EncodeFixed32 1)) at 1. apply read_at_app; [|done].
    rewrite Hle, length_app. unfold EncodeFixed32. rewrite length_le_bytes. lia. }
  exists {| it_data := data; it_restarts := len entry; it_num_restarts := 1 |}. eexists. split.
  - unfold new_Block. unfold sizeof_uint32 at 1. decide_test. rewrite Hnum. cbn [mbind outcome_bind].
    unfold sizeof_uint32. rewrite (proj2 (Z.ltb_ge ((len data - 4) / 4) 1)) by (apply Z.div_le_lower_bound; lia).
    change (u32 (1 + 1)) with 2. rewrite wrap_small by (unfold in_width; lia).
    unfold NewIterator. cbn [mbind outcome_bind size_ data_ restart_offset_]. unfold sizeof_uint32. decide_test.
    rewrite Hnum. cbn [mbind outcome_bind]. decide_test.
    replace (len data - 2 * 4) with (len entry) by lia. reflexivity.
  - unfold SeekToFirst, SeekToRestartPoint, GetRestartPoint. cbn [it_data it_restarts it_num_restarts].
    decide_test. cbn [require mbind outcome_bind].
    replace (len entry + 0 * sizeof_uint32) with (len entry) by lia.
    rewrite Hdata, read_at_app by done. cbn [mbind outcome_bind].
    change (DecodeFixed32 (EncodeFixed32 0)) with (Ok 0 : outcome Z). cbn [mbind outcome_bind].
    unfold ParseNextKey, NextEntryOffset. cbn [value_ mbind outcome_bind it_restarts it_data key_].
    change (u32 (0 + 0)) with 0. decide_test.
    assert (region {| it_data := entry ++ EncodeFixed32 0 ++ EncodeFixed32 1; it_restarts := len entry;
      it_num_restarts := 1 |} 0 = entry) as ->.
    { unfold region. cbn [it_data it_restarts]. by rewrite Nat2Z.id, take_app_length. }
    unfold entry at 1. rewrite DecodeEntry_wraps; [|by unfold in_width|done..|].
    + cbn [length]. decide_test. rewrite read_at_past; [done|]. rewrite <- Hdata.
      lia.
    + unfold wrap at 1. rewrite <- (Z.mod_add _ (-1)) by done.
      rewrite Z.mod_small by (unfold in_width in *; lia). rewrite wrap_small by (unfold in_width; lia). lia.
Qed.

Lemma SeekToFirst_overruns_witness :
  ∃ blk it, (new_Block (one_entry_block 0xffffffff 3 [107; 118]) ≫= NewIterator) = Ok (inr (blk, it)) ∧
    SeekToFirst blk it = Fault OutOfBounds.
Proof. apply (SeekToFirst_overruns 0xffffffff 3 [107; 118]); try (by unfold in_width; cbn; lia). by repeat constructor. Defined.
