(* ===== verification/LdbTableBuilder.v ===== *)
(** * LevelDB, table/table_builder: building a table

    A table is a file of blocks of sorted entries, with a block that indexes them, one of
    filters and a footer (table/table_builder.cc).  What the builder writes is stated as a
    property of the bytes of the file: where each block is, and the keys of the index that
    separate the blocks. *)

From S2P Require Import Prelude LdbCoding LdbCrc LdbEnv LdbRandom LdbOrder LdbFilter LdbIter LdbBlock LdbTableFormat.

(** The members of [Options] that a table uses; [opt_comparator] and [opt_filter_policy] are
    the objects that the classes stand for, the second with its name, or NULL. *)
Record Options : Type := {
  opt_comparator : Z; opt_filter_policy : option Slice; block_size : Z; block_restart_interval : Z;
  compression : Z; paranoid_checks : bool
}.

Section builder.
Context `{Comparator} `{FilterPolicy} `{Memory} `{Snappy} {F : Type} `{WritableFile F}.

(** [TableBuilder::Rep]; the data block looks up its restart interval in [options]. *)
Record TableBuilder : Type := {
  tbl_options : Options; tbl_file : F; tbl_offset : Z; tbl_status : Status; tbl_data_block : BlockBuilder;
  tbl_index_block : BlockBuilder; tbl_last_key : Slice; tbl_num_entries : Z; tbl_closed : bool;
  tbl_filter_block : option FilterBlockBuilder; tbl_pending_index_entry : bool; tbl_pending_handle : BlockHandle
}.

Definition set_tbl_output (r : TableBuilder) (file : F) (offset : Z) (status : Status) : TableBuilder :=
  {| tbl_options := tbl_options r; tbl_file := file; tbl_offset := offset; tbl_status := status;
     tbl_data_block := tbl_data_block r; tbl_index_block := tbl_index_block r; tbl_last_key := tbl_last_key r;
     tbl_num_entries := tbl_num_entries r; tbl_closed := tbl_closed r; tbl_filter_block := tbl_filter_block r;
     tbl_pending_index_entry := tbl_pending_index_entry r; tbl_pending_handle := tbl_pending_handle r |}.

Definition set_tbl_data_block (r : TableBuilder) (block : BlockBuilder) : TableBuilder :=
  {| tbl_options := tbl_options r; tbl_file := tbl_file r; tbl_offset := tbl_offset r; tbl_status := tbl_status r;
     tbl_data_block := block; tbl_index_block := tbl_index_block r; tbl_last_key := tbl_last_key r;
     tbl_num_entries := tbl_num_entries r; tbl_closed := tbl_closed r; tbl_filter_block := tbl_filter_block r;
     tbl_pending_index_entry := tbl_pending_index_entry r; tbl_pending_handle := tbl_pending_handle r |}.

Definition set_tbl_index (r : TableBuilder) (block : BlockBuilder) (last_key : Slice) (pending : bool)
    (handle : BlockHandle) : TableBuilder :=
  {| tbl_options := tbl_options r; tbl_file := tbl_file r; tbl_offset := tbl_offset r; tbl_status := tbl_status r;
     tbl_data_block := tbl_data_block r; tbl_index_block := block; tbl_last_key := last_key;
     tbl_num_entries := tbl_num_entries r; tbl_closed := tbl_closed r; tbl_filter_block := tbl_filter_block r;
     tbl_pending_index_entry := pending; tbl_pending_handle := handle |}.

Definition set_tbl_filter (r : TableBuilder) (f : option FilterBlockBuilder) : TableBuilder :=
  {| tbl_options := tbl_options r; tbl_file := tbl_file r; tbl_offset := tbl_offset r; tbl_status := tbl_status r;
     tbl_data_block := tbl_data_block r; tbl_index_block := tbl_index_block r; tbl_last_key := tbl_last_key r;
     tbl_num_entries := tbl_num_entries r; tbl_closed := tbl_closed r; tbl_filter_block := f;
     tbl_pending_index_entry := tbl_pending_index_entry r; tbl_pending_handle := tbl_pending_handle r |}.

Definition set_tbl_closed (r : TableBuilder) : TableBuilder :=
  {| tbl_options := tbl_options r; tbl_file := tbl_file r; tbl_offset := tbl_offset r; tbl_status := tbl_status r;
     tbl_data_block := tbl_data_block r; tbl_index_block := tbl_index_block r; tbl_last_key := tbl_last_key r;
     tbl_num_entries := tbl_num_entries r; tbl_closed := true; tbl_filter_block := tbl_filter_block r;
     tbl_pending_index_entry := tbl_pending_index_entry r; tbl_pending_handle := tbl_pending_handle r |}.

(** [r->last_key.assign(...); r->num_entries++], a signed number. *)
Definition count_entry (r : TableBuilder) (key : Slice) : outcome TableBuilder :=
  _ ← require (tbl_num_entries r <? 2 ^ 63 - 1) SignedOverflow;
  Ok {| tbl_options := tbl_options r; tbl_file := tbl_file r; tbl_offset := tbl_offset r; tbl_status := tbl_status r;
        tbl_data_block := tbl_data_block r; tbl_index_block := tbl_index_block r; tbl_last_key := key;
        tbl_num_entries := tbl_num_entries r + 1; tbl_closed := tbl_closed r; tbl_filter_block := tbl_filter_block r;
        tbl_pending_index_entry := tbl_pending_index_entry r; tbl_pending_handle := tbl_pending_handle r |}.

(** The constructor; a filter block starts its first block at once. *)
Definition new_TableBuilder (options : Options) (file : F) : outcome TableBuilder :=
  data_block ← new_BlockBuilder (block_restart_interval options);
  index_block ← new_BlockBuilder 1;
  filter_block ← match opt_filter_policy options with
                 | None => Ok None
                 | Some _ => f ← StartBlock new_FilterBlockBuilder 0; Ok (Some f)
                 end;
  Ok {| tbl_options := options; tbl_file := file; tbl_offset := 0; tbl_status := status_OK;
        tbl_data_block := data_block; tbl_index_block := index_block; tbl_last_key := []; tbl_num_entries := 0;
        tbl_closed := false; tbl_filter_block := filter_block; tbl_pending_index_entry := false;
        tbl_pending_handle := new_BlockHandle |}.

(** The blocks share the options: only the interval of the data block changes with them. *)
Definition ChangeOptions (r : TableBuilder) (options : Options) : Status * TableBuilder :=
  if negb (opt_comparator options =? opt_comparator (tbl_options r))
  then (InvalidArgument (text "changing comparator while building table") [], r)
  else
    let b := tbl_data_block r in
    (status_OK,
     {| tbl_options := options; tbl_file := tbl_file r; tbl_offset := tbl_offset r; tbl_status := tbl_status r;
        tbl_data_block := {| interval_ := block_restart_interval options; buffer_ := buffer_ b; restarts_ := restarts_ b;
                             counter_ := counter_ b; finished_ := finished_ b; last_key_ := last_key_ b |};
        tbl_index_block := tbl_index_block r; tbl_last_key := tbl_last_key r; tbl_num_entries := tbl_num_entries r;
        tbl_closed := tbl_closed r; tbl_filter_block := tbl_filter_block r;
        tbl_pending_index_entry := tbl_pending_index_entry r; tbl_pending_handle := tbl_pending_handle r |}).

Definition block_empty (b : BlockBuilder) : bool := len (buffer_ b) =? 0.

Definition WriteRawBlock (r : TableBuilder) (block_contents : Slice) (type : Z) : outcome (TableBuilder * BlockHandle) :=
  let handle := {| bh_offset := tbl_offset r; bh_size := len block_contents |} in
  a ← Append block_contents (tbl_file r);
  let r := set_tbl_output r a.2 (tbl_offset r) a.1 in
  if negb (ok (tbl_status r)) then Ok (r, handle)
  else
    crc ← Value (address block_contents) block_contents;
    crc ← Extend (address [type]) crc [type];
    a ← Append (type :: EncodeFixed32 (Mask crc)) (tbl_file r);
    let r := set_tbl_output r a.2 (tbl_offset r) a.1 in
    if negb (ok (tbl_status r)) then Ok (r, handle)
    else Ok (set_tbl_output r (tbl_file r) (u64 (tbl_offset r + u64 (len block_contents + kBlockTrailerSize))) (tbl_status r),
             handle).

(** The contents to write and their type: compressed only if that saves an eighth. *)
Definition compress_block (options : Options) (raw : Slice) : Slice * Z :=
  let type := compression options in
  if type =? kNoCompression then (raw, type)
  else if type =? kSnappyCompression then
    match Snappy_Compress raw with
    | Some compressed => if len compressed <? len raw - len raw / 8 then (compressed, type) else (raw, kNoCompression)
    | None => (raw, kNoCompression)
    end
  else ([], type).

Definition WriteBlock (r : TableBuilder) (block : BlockBuilder) : outcome (TableBuilder * BlockBuilder * BlockHandle) :=
  _ ← require (ok (tbl_status r)) OutOfBounds;
  let '(raw, block) := BlockBuilder_Finish block in
  let '(block_contents, type) := compress_block (tbl_options r) raw in
  w ← WriteRawBlock r block_contents type;
  Ok (w.1, Reset block, w.2).

Definition TableBuilder_Flush (r : TableBuilder) : outcome TableBuilder :=
  _ ← require (negb (tbl_closed r)) OutOfBounds;
  if negb (ok (tbl_status r)) then Ok r
  else if block_empty (tbl_data_block r) then Ok r
  else
    _ ← require (negb (tbl_pending_index_entry r)) OutOfBounds;
    w ← WriteBlock r (tbl_data_block r);
    let '(r, data_block, handle) := w in
    let r := set_tbl_index (set_tbl_data_block r data_block) (tbl_index_block r) (tbl_last_key r)
               (tbl_pending_index_entry r) handle in
    r ← (if ok (tbl_status r) then
           a ← Flush (tbl_file r);
           Ok (set_tbl_output (set_tbl_index r (tbl_index_block r) (tbl_last_key r) true (tbl_pending_handle r))
                 a.2 (tbl_offset r) a.1)
         else Ok r);
    match tbl_filter_block r with
    | None => Ok r
    | Some f => f ← StartBlock f (tbl_offset r); Ok (set_tbl_filter r (Some f))
    end.

(** The pending entry of the index, with the key that stands for the last block. *)
Definition add_index_entry (r : TableBuilder) (key : Slice) : outcome TableBuilder :=
  handle_encoding ← BlockHandle_EncodeTo (tbl_pending_handle r) [];
  index_block ← Add (tbl_index_block r) key handle_encoding;
  Ok (set_tbl_index r index_block key false (tbl_pending_handle r)).

Definition TableBuilder_Add (r : TableBuilder) (key value : Slice) : outcome TableBuilder :=
  _ ← require (negb (tbl_closed r)) OutOfBounds;
  if negb (ok (tbl_status r)) then Ok r
  else
    above ← (if 0 <? tbl_num_entries r then c ← Compare key (tbl_last_key r); Ok (0 <? c) else Ok true);
    _ ← require above OutOfBounds;
    r ← (if tbl_pending_index_entry r then
           _ ← require (block_empty (tbl_data_block r)) OutOfBounds;
           last_key ← FindShortestSeparator (tbl_last_key r) key;
           add_index_entry r last_key
         else Ok r);
    let r := set_tbl_filter r ((λ f, AddKey f key) <$> tbl_filter_block r) in
    r ← count_entry r key;
    data_block ← Add (tbl_data_block r) key value;
    let r := set_tbl_data_block r data_block in
    if block_size (tbl_options r) <=? CurrentSizeEstimate (tbl_data_block r) then TableBuilder_Flush r else Ok r.

(** The parts of [Finish]; each is left out after an error. *)
Definition write_filter_block (r : TableBuilder) : outcome (TableBuilder * BlockHandle) :=
  match tbl_filter_block r with
  | Some f =>
      if ok (tbl_status r) then contents ← LdbFilter.Finish f; WriteRawBlock r contents kNoCompression
      else Ok (r, new_BlockHandle)
  | None => Ok (r, new_BlockHandle)
  end.

Definition filter_key (name : Slice) : Slice := text "filter." ++ name.

Definition write_metaindex_block (r : TableBuilder) (filter_block_handle : BlockHandle) : outcome (TableBuilder * BlockHandle) :=
  if ok (tbl_status r) then
    meta_index_block ← new_BlockBuilder (block_restart_interval (tbl_options r));
    meta_index_block ← match tbl_filter_block r with
                       | None => Ok meta_index_block
                       | Some _ =>
                           match opt_filter_policy (tbl_options r) with
                           | None => Fault NullPointer
                           | Some name =>
                               handle_encoding ← BlockHandle_EncodeTo filter_block_handle [];
                               Add meta_index_block (filter_key name) handle_encoding
                           end
                       end;
    w ← WriteBlock r meta_index_block;
    Ok (w.1.1, w.2)
  else Ok (r, new_BlockHandle).

Definition write_index_block (r : TableBuilder) : outcome (TableBuilder * BlockHandle) :=
  if ok (tbl_status r) then
    r ← (if tbl_pending_index_entry r then
           last_key ← FindShortSuccessor (tbl_last_key r);
           add_index_entry r last_key
         else Ok r);
    w ← WriteBlock r (tbl_index_block r);
    let '(r, index_block, handle) := w in
    Ok (set_tbl_index r index_block (tbl_last_key r) (tbl_pending_index_entry r) (tbl_pending_handle r), handle)
  else Ok (r, new_BlockHandle).

Definition write_footer (r : TableBuilder) (metaindex_handle index_handle : BlockHandle) : outcome TableBuilder :=
  if ok (tbl_status r) then
    footer_encoding ← Footer_EncodeTo {| metaindex_handle_ := metaindex_handle; index_handle_ := index_handle |} [];
    a ← Append footer_encoding (tbl_file r);
    let r := set_tbl_output r a.2 (tbl_offset r) a.1 in
    if ok (tbl_status r)
    then Ok (set_tbl_output r (tbl_file r) (u64 (tbl_offset r + len footer_encoding)) (tbl_status r)) else Ok r
  else Ok r.

Definition TableBuilder_Finish (r : TableBuilder) : outcome (Status * TableBuilder) :=
  r ← TableBuilder_Flush r;
  _ ← require (negb (tbl_closed r)) OutOfBounds;
  let r := set_tbl_closed r in
  filter_w ← write_filter_block r;
  metaindex_w ← write_metaindex_block filter_w.1 filter_w.2;
  index_w ← write_index_block metaindex_w.1;
  r ← write_footer index_w.1 metaindex_w.2 index_w.2;
  Ok (tbl_status r, r).

Definition Abandon (r : TableBuilder) : outcome TableBuilder :=
  _ ← require (negb (tbl_closed r)) OutOfBounds;
  Ok (set_tbl_closed r).

Definition NumEntries (r : TableBuilder) : Z := u64 (tbl_num_entries r).
Definition FileSize (r : TableBuilder) : Z := tbl_offset r.

(** Entries added one after another. *)
Fixpoint add_entries (r : TableBuilder) (entries : list (Slice * Slice)) : outcome TableBuilder :=
  match entries with
  | [] => Ok r
  | (key, value) :: entries => r ← TableBuilder_Add r key value; add_entries r entries
  end.

(** A table of some entries, as its users build it. *)
Definition build_table (options : Options) (file : F) (entries : list (Slice * Slice)) : outcome (Status * TableBuilder) :=
  r ← new_TableBuilder options file;
  r ← add_entries r entries;
  TableBuilder_Finish r.

End builder.

Arguments TableBuilder F : clear implicits.

(** ** Blocks in a file *)

Lemma fixed32s_bytes l : bytes (concat (map EncodeFixed32 l)).
Proof. induction l as [|x l IH]; [constructor|]. cbn [map concat]. apply Forall_app_2; [by apply le_bytes_bytes|done]. Qed.

Lemma block_bytes_bytes items rho : layout items rho → bytes (block_bytes items rho).
Proof.
  intros HL. unfold block_bytes. apply Forall_app_2; [apply items_bytes, (layout_items _ _ HL)|].
  apply Forall_app_2; [apply fixed32s_bytes|by apply le_bytes_bytes].
Qed.

Definition compresses (options : Options) : Prop :=
  compression options = kNoCompression ∨ compression options = kSnappyCompression.

Lemma length_block_trailer type raw : length (block_trailer type raw) = 5%nat.
Proof. unfold block_trailer, EncodeFixed32. cbn [length]. by rewrite length_le_bytes. Qed.

Lemma compress_block_ok `{SnappyLaws} options raw :
  compresses options → bytes raw → len raw < 2 ^ 32 →
  ∃ c type, compress_block options raw = (c, type) ∧ bytes c ∧ unpacks type c raw ∧ len c ≤ len raw.
Proof.
  intros Hopt Hb Hl. unfold compress_block.
  assert (∃ c type, (raw, kNoCompression) = (c, type) ∧ bytes c ∧ unpacks type c raw ∧ len c ≤ len raw) as Hplain.
  { exists raw, kNoCompression. split_and!; [done|done|by left|lia]. }
  destruct Hopt as [-> | ->]; cbn [Z.eqb kNoCompression kSnappyCompression Pos.eqb]; [done|].
  destruct (Snappy_Compress raw) as [c|] eqn:E; [|done]. destruct (_ <? _) eqn:Es; [|done]. split_bool.
  exists c, kSnappyCompression. destruct (Snappy_roundtrip raw c E Hl) as [H1 H2].
  split_and!; [done|by eapply Snappy_bytes|by right|]. assert (0 ≤ len raw / 8) by (apply Z.div_pos; lia). lia.
Qed.

Section writing.
Context `{ComparatorLaws} `{FilterPolicy} `{Memory} `{SnappyLaws} {F : Type} `{WritableFileLaws F}.

Definition image_of (r : TableBuilder F) : list Z := written (tbl_file r).

(** The builder can write, and its offset is the length of the file. *)
Definition writable (r : TableBuilder F) : Prop :=
  tbl_status r = status_OK ∧ working (tbl_file r) ∧ tbl_offset r = len (image_of r) ∧ bytes (image_of r).

(** A part is written at the end; nothing else changes. *)
Definition appended (r r' : TableBuilder F) (more : list Z) : Prop :=
  ∃ file off, r' = set_tbl_output r file off status_OK ∧ writable r' ∧ image_of r' = image_of r ++ more.

Lemma WriteRawBlock_ok r contents type :
  writable r → bytes contents → is_byte type → len (image_of r) + len contents < 2 ^ 62 →
  ∃ r', WriteRawBlock r contents type = Ok (r', {| bh_offset := tbl_offset r; bh_size := len contents |}) ∧
    appended r r' (contents ++ block_trailer type contents).
Proof.
  intros (Hst & Hw & Ho & Hbytes) Hb Ht Hl. unfold WriteRawBlock.
  destruct (Append_working contents (tbl_file r) Hw) as (f1 & -> & Hw1 & Hwk1). cbn [mbind outcome_bind fst snd].
  cbn [tbl_status set_tbl_output ok status_OK negb].
  rewrite Value_ok by (done || lia). cbn [mbind outcome_bind].
  assert (bytes [type]) as Hbt by by apply Forall_singleton.
  destruct (address_ok [type]) as [Ha Ha']; [done|].
  rewrite Extend_crc32c; [|by apply crc32c_in_width|done|done|done]. cbn [mbind outcome_bind]. rewrite crc32c_app.
  cbn [tbl_file set_tbl_output].
  destruct (Append_working (block_trailer type contents) f1 Hwk1) as (f2 & E2 & Hw2 & Hwk2).
  unfold block_trailer in E2 at 1. rewrite E2. cbn [mbind outcome_bind fst snd].
  cbn [tbl_status tbl_file tbl_offset set_tbl_output ok status_OK negb].
  eexists. split; [reflexivity|]. eexists _, _. split; [reflexivity|]. unfold writable, image_of in *.
  cbn [tbl_status tbl_file tbl_offset set_tbl_output]. rewrite Hw2, Hw1, <- app_assoc. split_and!; try done.
  - rewrite !length_app, length_block_trailer. change kBlockTrailerSize with 5.
    rewrite (wrap_small 64 (len contents + 5)) by (unfold in_width; lia). rewrite wrap_small by (unfold in_width; lia). lia.
  - repeat apply Forall_app_2; [done|done|]. apply Forall_cons. split; [done|by apply le_bytes_bytes].
Qed.

(** A block is written as it is laid out, compressed or not. *)
Lemma WriteBlock_ok r block items rho :
  writable r → compresses (tbl_options r) → LdbBlock.building block items rho →
  len (block_bytes items rho) < 2 ^ 32 → len (image_of r) < 2 ^ 32 →
  ∃ r' h more, WriteBlock r block = Ok (r', Reset block, h) ∧ appended r r' more ∧
    handle_ok h ∧ bh_offset h = tbl_offset r ∧ stores (image_of r') h (block_bytes items rho) ∧
    5 ≤ len more ≤ len (block_bytes items rho) + 5.
Proof.
  intros Hr Hopt Hb Hlen Hl. pose proof (LdbBlock.building_layout _ _ _ Hb) as HL.
  assert ((BlockBuilder_Finish block).1 = block_bytes items rho) as Hf.
  { apply BlockBuilder_Finish_ok; [done|]. unfold BlockBuilder_Finish. cbn [fst]. unfold PutFixed32 at 1.
    rewrite PutFixed32_all, (building_buffer _ _ _ Hb), (building_restarts _ _ _ Hb).
    unfold block_bytes in Hlen. revert Hlen. rewrite !length_app, !Nat2Z.inj_add, !length_fixed32s, !length_map.
    unfold EncodeFixed32. rewrite !length_le_bytes. lia. }
  unfold WriteBlock. destruct Hr as (Hst & Hrest). rewrite Hst. cbn [ok status_OK require mbind outcome_bind].
  assert (writable r) as Hr by by split.
  destruct (BlockBuilder_Finish block) as [raw fin] eqn:Efin. cbn [fst] in Hf. subst raw.
  assert (Reset fin = Reset block) as Hreset by (unfold BlockBuilder_Finish in Efin; by injection Efin as _ <-).
  destruct (compress_block_ok (tbl_options r) _ Hopt (block_bytes_bytes _ _ HL) Hlen) as (c & type & -> & Hbc & Hu & Hc).
  assert (is_byte type) as Htype by (destruct Hu as [[-> _]|[-> _]]; by unfold in_width).
  destruct (WriteRawBlock_ok r c type Hr Hbc Htype ltac:(lia)) as (r' & -> & Happ).
  cbn [mbind outcome_bind fst snd]. rewrite Hreset.
  eexists r', _, (c ++ block_trailer type c). split; [reflexivity|]. split; [done|].
  destruct Hrest as (_ & Ho & _). destruct Happ as (? & ? & _ & _ & Himg). rewrite length_app, length_block_trailer.
  split; [split; cbn [bh_offset bh_size]; lia|]. split; [done|]. split; [|lia].
  exists type, c. cbn [bh_offset bh_size]. rewrite Himg, Ho. split; [apply image_has_end|]. done.
Qed.

End writing.

(** ** What has been built *)

(** A block of the table: its handle, and how its entries are laid out. *)
Record block_in : Type := { bi_handle : BlockHandle; bi_items : list item; bi_rho : list nat }.

Definition bi_entries (b : block_in) : list (Slice * Slice) := map entry_of (bi_items b).
Definition stored_entries (bs : list block_in) : list (Slice * Slice) := concat (map bi_entries bs).

Lemma stored_entries_snoc bs b : stored_entries (bs ++ [b]) = stored_entries bs ++ bi_entries b.
Proof. unfold stored_entries. rewrite map_app, concat_app. cbn. by rewrite app_nil_r. Qed.

Section separators.
Context `{ComparatorLaws}.

Record block_stored `{Snappy} (image : list Z) (b : block_in) : Prop := {
  bs_layout : layout (bi_items b) (bi_rho b);
  bs_nonempty : bi_items b ≠ [];
  bs_increasing : increasing (map i_key (bi_items b));
  bs_handle : handle_ok (bi_handle b);
  bs_stores : stores image (bi_handle b) (block_bytes (bi_items b) (bi_rho b));
  bs_small : len (block_bytes (bi_items b) (bi_rho b)) < 2 ^ 32
}.

Lemma block_stored_app `{Snappy} image more b : block_stored image b → block_stored (image ++ more) b.
Proof. intros [? ? ? ? Hs ?]. split; try done. by apply stores_app. Qed.

(** A key with the first [p] of some entries up to it and the others above it. *)
Definition separates (es : list (Slice * Slice)) (sep : Slice) (p : nat) : Prop :=
  key_ok sep ∧ ∀ j k v, es !! j = Some (k, v) → if decide (j < p)%nat then order k sep ≤ 0 else order sep k < 0.

Lemma separates_last es l v sep :
  increasing (map fst (es ++ [(l, v)])) → key_ok sep → order l sep ≤ 0 →
  separates (es ++ [(l, v)]) sep (length (es ++ [(l, v)])).
Proof.
  intros Hinc Hsep Hle. split; [done|]. intros j k w Hj. rewrite decide_True by (by eapply lookup_lt_Some).
  assert ((es ++ [(l, v)]) !! length es = Some (l, v)) as Hl by (by rewrite lookup_app_r, Nat.sub_diag).
  assert (map fst (es ++ [(l, v)]) !! j = Some k) as Hj' by (by rewrite list_lookup_fmap, Hj).
  assert (map fst (es ++ [(l, v)]) !! length es = Some l) as Hl' by (by rewrite list_lookup_fmap, Hl).
  pose proof (increasing_ok _ _ _ Hinc Hj') as Hk. pose proof (increasing_ok _ _ _ Hinc Hl') as Hlk.
  pose proof (lookup_lt_Some _ _ _ Hj) as Hlt. rewrite length_app in Hlt. cbn [length] in Hlt.
  destruct (decide (j = length es)) as [->|Hne].
  - assert (k = l) as -> by congruence. done.
  - pose proof (increasing_lookup _ j (length es) _ _ Hinc Hj' Hl' ltac:(lia)) as Hkl.
    pose proof (order_lt_le _ _ _ Hk Hlk Hsep Hkl Hle). lia.
Qed.

(** A key that is not below the last one is above the separators before that. *)
Lemma separates_below es l v s p sep :
  separates (es ++ [(l, v)]) s p → (p ≤ length es)%nat → key_ok l → key_ok sep → order l sep ≤ 0 → order s sep < 0.
Proof.
  intros [Hs Hsplit] Hp Hl Hsep Hle. specialize (Hsplit (length es) l v).
  rewrite lookup_app_r, Nat.sub_diag, decide_False in Hsplit by lia. by apply (order_lt_le s l sep), Hle; [..|apply Hsplit].
Qed.

Lemma separates_snoc es sep p k v :
  separates es sep p → increasing (map fst (es ++ [(k, v)])) → (p ≤ length es)%nat →
  order sep k < 0 ∨ (p < length es)%nat → separates (es ++ [(k, v)]) sep p.
Proof.
  intros [Hsep Hs] Hinc Hp Hor. split; [done|].
  assert (map fst (es ++ [(k, v)]) !! length es = Some k) as Hk'.
  { by rewrite list_lookup_fmap, lookup_app_r, Nat.sub_diag. }
  pose proof (increasing_ok _ _ _ Hinc Hk') as Hk.
  assert (order sep k < 0) as Hlt.
  { destruct Hor as [|Hp']; [done|]. destruct (lookup_lt_is_Some_2 es p Hp') as [[k' v'] He].
    specialize (Hs p k' v' He) as Hsk. rewrite decide_False in Hsk by lia.
    assert (map fst (es ++ [(k, v)]) !! p = Some k') as Hp'' by (by rewrite list_lookup_fmap, lookup_app_l, He by done).
    eapply (order_trans sep k' k); [done|by eapply increasing_ok|done|done|].
    by eapply increasing_lookup. }
  intros j k' v' Hj. apply lookup_snoc_Some in Hj as [[_ Hj]|[-> [= <- <-]]]; [by eapply Hs|].
  by rewrite decide_False by lia.
Qed.

End separators.

(** ** The invariant of the builder *)

Section building_table.
Context `{ComparatorLaws} `{!CompactKeys} `{FilterPolicyLaws} `{Memory} `{SnappyLaws} {F : Type} `{WritableFileLaws F}.

(** Entries that a table can be built of: they increase, they are small, and the filter
    policy takes the keys. *)
Record acceptable (options : Options) (es : list (Slice * Slice)) : Prop := {
  acceptable_increasing : increasing (map fst es);
  acceptable_values : Forall (λ e, bytes e.2) es;
  acceptable_total : total es < 2 ^ 29;
  acceptable_fits : opt_filter_policy options ≠ None → fits (map fst es)
}.

(** Where the blocks start, with their keys, as the filter block is told. *)
Definition filter_log (bs : list block_in) (cur : list item) (off : Z) : list (Z * list Slice) :=
  map (λ b, (bh_offset (bi_handle b), map i_key (bi_items b))) bs ++ [(off, map i_key cur)].

(** Where block [i] ends in the entries. *)
Definition ends (bs : list block_in) (i : nat) : nat := length (stored_entries (take (S i) bs)).

Definition index_entry (sep : Slice) (b : block_in) : Slice * Slice := (sep, encode_handle (bi_handle b)).

Definition separators (es : list (Slice * Slice)) (bs : list block_in) (seps : list Slice) : Prop :=
  ∀ i sep, seps !! i = Some sep → separates es sep (ends bs i) ∧
    ∃ b, bs !! i = Some b ∧ len sep + 64 ≤ total (bi_entries b).

Definition ascending (bs : list block_in) (off : Z) : Prop :=
  StronglySorted (λ b1 b2, bh_offset (bi_handle b1) < bh_offset (bi_handle b2)) bs ∧
  Forall (λ b, bh_offset (bi_handle b) < off) bs.

(** The blocks written, the separators in the index, and the entries of the data block. *)
Record built (options : Options) (r : TableBuilder F) (es : list (Slice * Slice)) (bs : list block_in)
    (seps : list Slice) (cur : list item) : Prop := {
  built_options : tbl_options r = options;
  built_open : tbl_closed r = false;
  built_writable : writable r;
  built_entries : es = stored_entries bs ++ map entry_of cur;
  built_data : ∃ rho, LdbBlock.building (tbl_data_block r) cur rho;
  built_index : ∃ idx rho, LdbBlock.building (tbl_index_block r) idx rho ∧ map entry_of idx = zip_with index_entry seps bs;
  built_blocks : Forall (block_stored (image_of r)) bs;
  built_ascending : ascending bs (tbl_offset r);
  built_size : tbl_offset r ≤ total (stored_entries bs);
  built_separators : separators es bs seps;
  built_pending : if tbl_pending_index_entry r
    then cur = [] ∧ S (length seps) = length bs ∧ ∃ b, last bs = Some b ∧ bi_handle b = tbl_pending_handle r
    else length seps = length bs ∧ (bs ≠ [] → cur ≠ []);
  built_last k v : last es = Some (k, v) → tbl_last_key r = k;
  built_count : tbl_num_entries r = len es;
  built_filter : match tbl_filter_block r with
    | None => opt_filter_policy options = None
    | Some f => opt_filter_policy options ≠ None ∧ LdbFilter.build (filter_log bs cur (tbl_offset r)) new_FilterBlockBuilder = Ok f
    end
}.

Lemma acceptable_app options l1 l2 : acceptable options (l1 ++ l2) → acceptable options l1.
Proof.
  intros [[Hok Hs] Hv Ht Hf]. rewrite map_app in *. split.
  - apply Forall_app in Hok as [Hok _]. split; [done|].
    clear -Hs. induction (map fst l1) as [|k l IH]; [constructor|]. cbn [app] in Hs.
    apply StronglySorted_inv in Hs as [Hs Hb]. apply Forall_app in Hb as [Hb _]. constructor; [by apply IH|done].
  - by apply Forall_app in Hv as [Hv _].
  - rewrite total_app in Ht. pose proof (total_length l2). lia.
  - intros Hne. by apply (fits_app _ _ (Hf Hne)).
Qed.

Lemma filter_log_keys bs cur off : concat (map snd (filter_log bs cur off)) = map fst (stored_entries bs ++ map entry_of cur).
Proof.
  unfold filter_log. rewrite !map_app, concat_app, map_map. cbn [map concat snd]. rewrite app_nil_r.
  f_equal; [|by rewrite map_map]. unfold stored_entries. induction bs as [|b bs IH]; [done|].
  cbn [map concat]. rewrite map_app, IH. f_equal. unfold bi_entries. by rewrite map_map.
Qed.

Lemma ends_last es bs : es = stored_entries bs → ends bs (length bs - 1) = length es.
Proof.
  intros ->. unfold ends. destruct bs as [|b bs]; [done|]. rewrite take_ge; [done|]. cbn [length]. lia.
Qed.

Lemma ends_le bs i : (ends bs i ≤ length (stored_entries bs))%nat.
Proof.
  unfold ends. rewrite <- (take_drop (S i) bs) at 2. unfold stored_entries.
  rewrite map_app, concat_app, length_app. lia.
Qed.

Lemma ends_snoc bs b i : (i < length bs)%nat → ends (bs ++ [b]) i = ends bs i.
Proof. intros Hi. unfold ends. by rewrite take_app_le by lia. Qed.

(** Blocks are not empty: the end of one that is not the last is not the end. *)
Lemma ends_lt image bs i : Forall (block_stored image) bs → (S i < length bs)%nat → (ends bs i < length (stored_entries bs))%nat.
Proof.
  intros Hb Hi. unfold ends. destruct (lookup_lt_is_Some_2 bs (S i) Hi) as [b Hlook].
  rewrite <- (take_drop (S i) bs) at 2. rewrite (drop_S _ _ _ Hlook). unfold stored_entries.
  rewrite map_app, concat_app, length_app. cbn [map concat]. rewrite length_app. unfold bi_entries at 3. rewrite length_map.
  pose proof (bs_nonempty _ _ (proj1 (Forall_forall _ _) Hb b (list_elem_of_lookup_2 _ _ _ Hlook))) as Hne.
  destruct (bi_items b); [done|]. cbn [length]. lia.
Qed.

Lemma filter_log_sorted bs cur off : ascending bs off → StronglySorted Z.le (map fst (filter_log bs cur off)).
Proof.
  intros [Hs Hlt]. unfold filter_log. rewrite map_app, map_map. cbn [map fst].
  induction bs as [|b bs IH]; cbn [map app]; [by repeat constructor|].
  apply StronglySorted_inv in Hs as [Hs Hb]. apply Forall_cons in Hlt as [Hb' Hlt].
  constructor; [by apply IH|]. apply Forall_app_2.
  - apply Forall_map. eapply Forall_impl; [exact Hb|]. intros b' Hb''. cbn in *. lia.
  - apply Forall_singleton. lia.
Qed.

(** The filter block of what has been added can be made, and answers for the blocks. *)
Lemma filter_log_built options bs cur off :
  acceptable options (stored_entries bs ++ map entry_of cur) → opt_filter_policy options ≠ None →
  ascending bs off → Forall (λ b, handle_ok (bi_handle b)) bs → 0 ≤ off →
  ∃ f contents, LdbFilter.build (filter_log bs cur off) new_FilterBlockBuilder = Ok f ∧ LdbFilter.Finish f = Ok contents ∧ bytes contents ∧
    (len contents < 2 ^ 32 → ∃ reader, new_FilterBlockReader contents = Ok reader ∧
      ∀ o keys, (o, keys) ∈ filter_log bs cur off → keys ≠ [] → ∃ g, len g ≤ len contents ∧
        (∀ key, FilterBlock_KeyMayMatch reader o key = KeyMayMatch key g) ∧
        ∀ key, key ∈ keys → KeyMayMatch key g = Ok true).
Proof.
  intros Hacc Hf Hasc Hh Ho. apply filter_block_answers.
  - by apply filter_log_sorted.
  - unfold filter_log. apply Forall_app_2; [|by apply Forall_singleton].
    apply Forall_map. eapply Forall_impl; [exact Hh|]. intros b [Hb _]. cbn. lia.
  - rewrite filter_log_keys. by apply acceptable_fits with options.
Qed.

(** A block is finished: the filter block starts another one. *)
Lemma StartBlock_built options bs cur off b off' f :
  acceptable options (stored_entries bs ++ map entry_of cur) → opt_filter_policy options ≠ None →
  bi_items b = cur → bh_offset (bi_handle b) = off → ascending (bs ++ [b]) off' →
  Forall (λ b, handle_ok (bi_handle b)) (bs ++ [b]) → 0 ≤ off' →
  LdbFilter.build (filter_log bs cur off) new_FilterBlockBuilder = Ok f →
  ∃ f', StartBlock f off' = Ok f' ∧ LdbFilter.build (filter_log (bs ++ [b]) [] off') new_FilterBlockBuilder = Ok f'.
Proof.
  intros Hacc Hf Hcur Hoff Hasc Hh Ho Hb.
  destruct (filter_log_built options (bs ++ [b]) [] off') as (f' & _ & Hf' & _); try done.
  { cbn [map]. rewrite app_nil_r, stored_entries_snoc. unfold bi_entries. by rewrite Hcur. }
  exists f'. split; [|done]. revert Hf'. unfold filter_log at 1. rewrite build_snoc, map_app. cbn [map fold_left].
  rewrite Hcur, Hoff. change (map _ bs ++ [(off, map i_key cur)]) with (filter_log bs cur off). rewrite Hb.
  cbn [mbind outcome_bind]. by destruct (StartBlock f off').
Qed.

(** A key is added to the block at hand. *)
Lemma AddKey_built bs cur off x f :
  LdbFilter.build (filter_log bs cur off) new_FilterBlockBuilder = Ok f →
  LdbFilter.build (filter_log bs (cur ++ [x]) off) new_FilterBlockBuilder = Ok (AddKey f (i_key x)).
Proof.
  unfold filter_log. rewrite !build_snoc. intros Hb.
  apply outcome_bind_inv in Hb as (f1 & Hf1 & Hb). apply outcome_bind_inv in Hb as (f2 & Hf2 & Hb).
  rewrite Hf1. cbn [mbind outcome_bind]. rewrite Hf2. cbn [mbind outcome_bind]. injection Hb as <-.
  by rewrite map_app, fold_left_app.
Qed.

(** *** Flushing *)

Lemma TableBuilder_Flush_empty options r es bs seps :
  built options r es bs seps [] → TableBuilder_Flush r = Ok r.
Proof.
  intros Hr. unfold TableBuilder_Flush. rewrite (built_open _ _ _ _ _ _ Hr). cbn [negb require mbind outcome_bind].
  destruct (built_writable _ _ _ _ _ _ Hr) as (-> & _). cbn [ok status_OK negb].
  destruct (built_data _ _ _ _ _ _ Hr) as (rho & Hb). unfold block_empty. by rewrite (building_buffer _ _ _ Hb).
Qed.

Lemma ascending_snoc bs off b off' :
  ascending bs off → bh_offset (bi_handle b) = off → off < off' → ascending (bs ++ [b]) off'.
Proof.
  intros [Hs Hl] Hb Hlt. split.
  - clear Hlt. induction bs as [|b' bs IH]; cbn [app]; [by repeat constructor|].
    apply StronglySorted_inv in Hs as [Hs Hb']. apply Forall_cons in Hl as [Hl' Hl].
    constructor; [by apply IH|]. apply Forall_app_2; [done|]. apply Forall_singleton. by rewrite Hb.
  - apply Forall_app_2; [|apply Forall_singleton; lia]. eapply Forall_impl; [exact Hl|]. cbn. lia.
Qed.

Lemma separators_snoc es bs b seps :
  separators es bs seps → (length seps ≤ length bs)%nat → separators es (bs ++ [b]) seps.
Proof.
  intros Hs Hl i sep Hi. destruct (Hs i sep Hi) as [Hsep (c & Hc & Ht)].
  pose proof (lookup_lt_Some _ _ _ Hi). rewrite ends_snoc by lia. split; [done|]. exists c.
  split; [by apply lookup_app_l_Some|done].
Qed.

Lemma zip_with_snoc_r {A B C} (f : A → B → C) l1 l2 b :
  (length l1 ≤ length l2)%nat → zip_with f l1 (l2 ++ [b]) = zip_with f l1 l2.
Proof.
  revert l2. induction l1 as [|a l1 IH]; intros [|c l2] Hl; cbn [length zip_with app] in *; try done; [lia|].
  f_equal. apply IH. lia.
Qed.

Lemma block_bytes_total items rho :
  layout items rho → items ≠ [] → len (block_bytes items rho) + 37 ≤ total (map entry_of items).
Proof.
  intros HL Hne. pose proof (block_bytes_length _ _ HL). destruct items; [done|]. cbn [length] in *. lia.
Qed.

Lemma entries_nonempty items : items ≠ [] → 0 < len (encode_items items).
Proof.
  destruct items as [|x items]; [done|]. intros _. change (encode_items (x :: items)) with (encode_item x ++ encode_items items).
  unfold encode_item. rewrite !length_app.
  assert (0 < length (EncodeVarint32 (Z.of_nat (i_shared x))))%nat; [|lia].
  unfold EncodeVarint32. repeat destruct (_ <? _); cbn; lia.
Qed.

(** The entries of the data block become a block of the table. *)
Lemma TableBuilder_Flush_ok options r es bs seps cur :
  compresses options → acceptable options es → built options r es bs seps cur → cur ≠ [] →
  ∃ r' b, TableBuilder_Flush r = Ok r' ∧ built options r' es (bs ++ [b]) seps [] ∧ tbl_pending_index_entry r' = true ∧
    interval_ (tbl_data_block r') = interval_ (tbl_data_block r).
Proof.
  intros Hcomp Hacc Hr Hne. unfold TableBuilder_Flush. pose proof (built_writable _ _ _ _ _ _ Hr) as Hw.
  destruct (built_data _ _ _ _ _ _ Hr) as (rho & Hb). pose proof (LdbBlock.building_layout _ _ _ Hb) as HL.
  pose proof (built_entries _ _ _ _ _ _ Hr) as Hes. pose proof (built_pending _ _ _ _ _ _ Hr) as Hpend.
  rewrite (built_open _ _ _ _ _ _ Hr), (proj1 Hw). cbn [negb require mbind outcome_bind ok status_OK].
  pose proof (encode_items_length cur). pose proof (block_bytes_total _ _ HL Hne) as Hbytes.
  assert (block_empty (tbl_data_block r) = false) as ->.
  { unfold block_empty. rewrite (building_buffer _ _ _ Hb). pose proof (entries_nonempty cur Hne). by decide_test. }
  destruct (tbl_pending_index_entry r) eqn:Ep; [by destruct Hpend|]. cbn [negb require mbind outcome_bind].
  pose proof (acceptable_total _ _ Hacc) as Ht. rewrite Hes, total_app in Ht. pose proof (total_length (stored_entries bs)).
  pose proof (built_size _ _ _ _ _ _ Hr) as Hsize. destruct Hw as (Hst & Hwk & Ho & Hby). rewrite Ho in Hsize.
  destruct (WriteBlock_ok r (tbl_data_block r) cur rho) as (r1 & h & more & E & (f1 & off1 & -> & Hw1 & Himg) & Hh & Hho & Hstore & Hmore);
    [by split|by rewrite (built_options _ _ _ _ _ _ Hr)|done|lia|lia|].
  rewrite E. cbn [mbind outcome_bind]. destruct Hw1 as (_ & Hwk1 & Ho1 & Hby1). unfold image_of in *.
  cbn [set_tbl_index set_tbl_data_block set_tbl_output tbl_status tbl_file tbl_offset tbl_filter_block ok status_OK
    tbl_index_block tbl_last_key tbl_pending_handle tbl_pending_index_entry] in *.
  destruct (Flush_working f1 Hwk1) as (f2 & -> & Hf2 & _ & Hwk2). cbn [mbind outcome_bind fst snd].
  set (b := {| bi_handle := h; bi_items := cur; bi_rho := rho |}).
  assert (ascending (bs ++ [b]) off1) as Hasc.
  { apply (ascending_snoc bs (tbl_offset r)); [apply Hr|done|]. rewrite Ho1, Himg, length_app. lia. }
  assert (Forall (block_stored (written f1)) (bs ++ [b])) as Hblocks.
  { apply Forall_app_2.
    - eapply Forall_impl; [apply Hr|]. intros b' Hb'. unfold image_of in Hb'. rewrite Himg. by apply block_stored_app.
    - apply Forall_singleton. split; try done; [by eapply building_increasing|]. unfold b. cbn [bi_items bi_rho]. lia. }
  set (r2 := set_tbl_output _ f2 off1 status_OK).
  assert (∀ fo, match fo with
      | None => opt_filter_policy options = None
      | Some f => opt_filter_policy options ≠ None ∧
          LdbFilter.build (filter_log (bs ++ [b]) [] off1) new_FilterBlockBuilder = Ok f end →
    built options (set_tbl_filter r2 fo) es (bs ++ [b]) seps []) as Hbuilt.
  { intros fo Hfo. split; cbn [r2 set_tbl_filter set_tbl_output set_tbl_index set_tbl_data_block tbl_options tbl_closed tbl_data_block
      tbl_index_block tbl_offset tbl_pending_index_entry tbl_pending_handle tbl_last_key tbl_num_entries tbl_filter_block map]; try apply Hr.
    - unfold writable, image_of. cbn. by rewrite Hf2.
    - rewrite app_nil_r, stored_entries_snoc, Hes. done.
    - exists [0%nat]. by eapply Reset_ok.
    - destruct (built_index _ _ _ _ _ _ Hr) as (idx & irho & Hi & Hz). exists idx, irho. split; [done|].
      rewrite zip_with_snoc_r by lia. done.
    - unfold image_of. cbn. by rewrite Hf2.
    - done.
    - rewrite stored_entries_snoc, total_app, Ho1, Himg, length_app. unfold bi_entries. cbn [bi_items b]. lia.
    - apply separators_snoc; [apply Hr|lia].
    - split; [done|]. rewrite length_app. cbn [length]. split; [lia|]. exists b. by rewrite last_snoc.
    - done. }
  assert (r2 = set_tbl_filter r2 (tbl_filter_block r)) as Heq by reflexivity.
  pose proof (built_filter _ _ _ _ _ _ Hr) as Hfilter.
  change (tbl_filter_block r2) with (tbl_filter_block r). change (tbl_offset r2) with off1.
  destruct (tbl_filter_block r) as [f|]; [|by exists r2, b; rewrite Heq; split_and!; [|by apply Hbuilt| |]].
  destruct Hfilter as [Hpol Hf].
  destruct (StartBlock_built options bs cur (tbl_offset r) b off1 f) as (f' & -> & Hf'); try done.
  - by rewrite <- Hes.
  - eapply Forall_impl; [exact Hblocks|]. intros b' Hb'. by apply (bs_handle _ _ Hb').
  - lia.
  - cbn [mbind outcome_bind]. exists (set_tbl_filter r2 (Some f')), b. split; [done|]. split; [|done]. by apply Hbuilt.
Qed.

(** *** Entries of the index *)

Lemma acceptable_key options es k v :
  acceptable options es → (k, v) ∈ es → key_ok k ∧ bytes k ∧ bytes v ∧ len k + len v + 64 ≤ total es.
Proof.
  intros [[Hok _] Hv _ _] Hin.
  assert (key_ok k) as Hk by (eapply (proj1 (Forall_forall _ _) Hok), list_elem_of_fmap; by exists (k, v)).
  split_and!; [done|by apply key_ok_bytes|exact (proj1 (Forall_forall _ _) Hv _ Hin)|].
  clear -Hin. induction es as [|e es IH]; [by apply not_elem_of_nil in Hin|]. cbn [total fold_right]. fold (total es).
  pose proof (total_length es). apply elem_of_cons in Hin as [<-|Hin]; [unfold weight; cbn [fst snd]; lia|].
  specialize (IH Hin). unfold weight. lia.
Qed.

(** The block that waits for its entry, and the last key, which is in it. *)
Lemma pending_block options r es bs seps cur :
  built options r es bs seps cur → tbl_pending_index_entry r = true →
  ∃ bs0 b es0 l v, bs = bs0 ++ [b] ∧ bi_handle b = tbl_pending_handle r ∧ cur = [] ∧ length seps = length bs0 ∧
    es = es0 ++ [(l, v)] ∧ es = stored_entries bs ∧ tbl_last_key r = l ∧ len l + 64 ≤ total (bi_entries b) ∧
    Forall (block_stored (image_of r)) bs.
Proof.
  intros Hr Ep. pose proof (built_pending _ _ _ _ _ _ Hr) as Hp. rewrite Ep in Hp.
  destruct Hp as (-> & Hl & b & Hb & Hh). apply last_Some in Hb as (bs0 & ->). rewrite length_app in Hl. cbn [length] in Hl.
  pose proof (built_entries _ _ _ _ _ _ Hr) as Hes. cbn [map] in Hes. rewrite app_nil_r in Hes.
  pose proof (built_blocks _ _ _ _ _ _ Hr) as Hblocks.
  assert (bi_items b ≠ []) as Hne.
  { apply Forall_app in Hblocks as [_ Hb]. apply Forall_cons in Hb as [Hb _]. exact (bs_nonempty _ _ Hb). }
  destruct (exists_last Hne) as (items & x & Hx).
  exists bs0, b, (stored_entries bs0 ++ map entry_of items), (i_key x), (i_value x).
  assert (es = (stored_entries bs0 ++ map entry_of items) ++ [(i_key x, i_value x)]) as Hes'.
  { rewrite Hes, stored_entries_snoc. unfold bi_entries. rewrite Hx, map_app. cbn [map]. by rewrite app_assoc. }
  split_and!; try done; [lia| |].
  - eapply (built_last _ _ _ _ _ _ Hr). by rewrite Hes', last_snoc.
  - unfold bi_entries. rewrite Hx, map_app, total_app. cbn [map total fold_right]. unfold weight, entry_of. cbn [fst snd].
    pose proof (total_length (map entry_of items)) as Htl. unfold entry_of in Htl. lia.
Qed.

(** A separator is put into the index. *)
Lemma add_index_entry_ok options r es bs seps cur l sep :
  acceptable options es → built options r es bs seps cur → tbl_pending_index_entry r = true → tbl_last_key r = l →
  key_ok sep → order l sep ≤ 0 → len sep ≤ len l →
  ∃ block idx rho, add_index_entry r sep = Ok (set_tbl_index r block sep false (tbl_pending_handle r)) ∧
    LdbBlock.building block idx rho ∧ map entry_of idx = zip_with index_entry (seps ++ [sep]) bs ∧
    separators es bs (seps ++ [sep]).
Proof.
  intros Hacc Hr Ep Hlast Hsep Hle Hlen.
  destruct (pending_block _ _ _ _ _ _ Hr Ep) as (bs0 & b & es0 & l' & v & Hbs & Hh & -> & Hl & Hes & Hes' & Hl' & Htot & Hblocks).
  assert (l' = l) as -> by congruence. clear Hl'.
  destruct (built_index _ _ _ _ _ _ Hr) as (idx & rho & Hi & Hz). rewrite Hbs, zip_with_snoc_r in Hz by lia.
  assert (handle_ok (tbl_pending_handle r)) as Hhok.
  { rewrite <- Hh. rewrite Hbs in Hblocks. apply Forall_app in Hblocks as [_ Hb]. apply Forall_cons in Hb as [Hb _]. exact (bs_handle _ _ Hb). }
  assert (separates es sep (length es)) as Hnew.
  { rewrite Hes. apply separates_last; [|done|done]. rewrite <- Hes. apply Hacc. }
  assert (key_ok l) as Hlok by (eapply (acceptable_key options es l v Hacc); rewrite Hes; apply elem_of_app; right; by left).
  assert (total (bi_entries b) ≤ total es) as Htb.
  { rewrite Hes', Hbs, stored_entries_snoc, total_app. pose proof (total_length (stored_entries bs0)). lia. }
  pose proof (acceptable_total _ _ Hacc). pose proof (encode_handle_length (tbl_pending_handle r)).
  unfold add_index_entry. rewrite BlockHandle_EncodeTo_ok by done. cbn [mbind outcome_bind app].
  destruct (Add_ok (tbl_index_block r) idx rho sep (encode_handle (tbl_pending_handle r)) Hi) as (block & x & rho' & -> & Hb' & Hx);
    [by apply key_ok_bytes|by apply encode_handle_bytes|lia|lia|done| |].
  { intros Hne. destruct (last_key_lookup idx Hne) as (y & Hy & ->).
    assert (map entry_of idx !! (length idx - 1)%nat = Some (entry_of y)) as Hy' by (by rewrite list_lookup_fmap, Hy).
    rewrite Hz in Hy'. apply lookup_zip_with_Some in Hy' as (s & c & Heq & Hs & Hc).
    assert (i_key y = s) as -> by (by apply (f_equal fst) in Heq).
    destruct (built_separators _ _ _ _ _ _ Hr _ _ Hs) as (Hsplit & _). pose proof (lookup_lt_Some _ _ _ Hs).
    pose proof (ends_lt _ bs (length idx - 1) Hblocks) as Hends. rewrite Hbs, length_app in Hends at 1. cbn [length] in Hends.
    specialize (Hends ltac:(lia)). rewrite <- Hes', Hes, length_app in Hends. cbn [length] in Hends.
    rewrite Hes in Hsplit. by apply (separates_below _ _ _ _ _ _ Hsplit); [lia|..]. }
  cbn [mbind outcome_bind]. exists block, (idx ++ [x]), rho'. split; [done|]. split; [done|]. split.
  - rewrite map_app, Hz, Hbs. cbn [map]. rewrite Hx, zip_with_app by done. cbn [zip_with]. unfold index_entry. by rewrite Hh.
  - intros i s Hs. apply lookup_snoc_Some in Hs as [[_ Hs]|[-> ->]]; [by eapply built_separators|].
    rewrite Hl. split.
    + replace (ends bs (length bs0)) with (length es); [done|].
      rewrite <- (ends_last es bs Hes'), Hbs, length_app. cbn [length]. f_equal. lia.
    + exists b. rewrite Hbs, lookup_app_r, Nat.sub_diag by done. split; [done|lia].
Qed.

(** *** Adding *)

(** The entry of the index that waits, if one does, is put in before the next key. *)
Lemma next_separator options r es bs seps cur key value :
  acceptable options (es ++ [(key, value)]) → built options r es bs seps cur →
  ∃ block last_key seps', 
    (if tbl_pending_index_entry r then
       _ ← require (block_empty (tbl_data_block r)) OutOfBounds;
       last_key ← FindShortestSeparator (tbl_last_key r) key;
       add_index_entry r last_key
     else Ok r) = Ok (set_tbl_index r block last_key false (tbl_pending_handle r)) ∧
    (∃ idx rho, LdbBlock.building block idx rho ∧ map entry_of idx = zip_with index_entry seps' bs) ∧
    length seps' = length bs ∧ separators (es ++ [(key, value)]) bs seps'.
Proof.
  intros Hacc Hr. pose proof (acceptable_app _ _ _ Hacc) as Hacc0. pose proof (acceptable_increasing _ _ Hacc) as Hinc.
  pose proof (built_entries _ _ _ _ _ _ Hr) as Hes0. pose proof (built_separators _ _ _ _ _ _ Hr) as Hseps.
  destruct (tbl_pending_index_entry r) eqn:Ep.
  - destruct (pending_block _ _ _ _ _ _ Hr Ep) as (bs0 & b & es0 & l & v & Hbs & Hh & -> & Hl & Hes & Hes' & Hll & _ & Hblocks).
    destruct (built_data _ _ _ _ _ _ Hr) as (rho & Hd). unfold block_empty. rewrite (building_buffer _ _ _ Hd).
    cbn [encode_items map concat length Z.of_nat Z.eqb require mbind outcome_bind]. rewrite Hll.
    assert (key_ok l ∧ key_ok key ∧ order l key < 0) as (Hlok & Hkok & Hlk).
    { assert (map fst (es ++ [(key, value)]) !! length es0 = Some l) as Hl1.
      { by rewrite list_lookup_fmap, Hes, <- app_assoc, lookup_app_r, Nat.sub_diag. }
      assert (map fst (es ++ [(key, value)]) !! S (length es0) = Some key) as Hk1.
      { rewrite list_lookup_fmap, Hes, lookup_app_r by (rewrite length_app; cbn; lia).
        rewrite length_app. cbn [length]. by replace (S (length es0) - (length es0 + 1))%nat with 0%nat by lia. }
      split_and!; [by eapply increasing_ok..|]. eapply increasing_lookup; [done..|lia]. }
    destruct (Separator_between l key Hlok Hkok Hlk) as (sep & Esep & Hsep & Hle & Hlt). rewrite Esep. cbn [mbind outcome_bind].
    destruct (add_index_entry_ok options r es bs seps [] l sep) as (block & idx & rho' & -> & Hb & Hz & Hs); try done.
    { by eapply Separator_short. }
    exists block, sep, (seps ++ [sep]). split; [done|]. split; [by exists idx, rho'|].
    assert (length (seps ++ [sep]) = length bs) as Hlen by (rewrite Hbs, !length_app; cbn [length]; lia).
    split; [done|]. intros i s Hi. destruct (Hs i s Hi) as [Hsep' Hrest]. split; [|done].
    apply separates_snoc; [done|done|rewrite Hes'; apply ends_le|].
    apply lookup_snoc_Some in Hi as [[Hi _]|[_ ->]]; [right|by left].
    rewrite Hes'. eapply ends_lt; [done|]. rewrite Hbs, length_app. cbn [length]. lia.
  - pose proof (built_pending _ _ _ _ _ _ Hr) as Hp. rewrite Ep in Hp. destruct Hp as [Hl Hne].
    exists (tbl_index_block r), (tbl_last_key r), seps. split; [destruct r; cbn in *; by rewrite Ep|].
    split; [apply Hr|]. split; [done|]. intros i s Hi. destruct (Hseps i s Hi) as [Hsep' Hrest]. split; [|done].
    assert (ends bs i < length es)%nat as Hlt.
    { rewrite Hes0, length_app, length_map. pose proof (ends_le bs i). pose proof (lookup_lt_Some _ _ _ Hi).
      destruct cur; [|cbn [length]; lia]. destruct bs; [cbn [length] in *; lia|by destruct Hne]. }
    apply separates_snoc; [done|done|lia|by right].
Qed.

Lemma TableBuilder_Add_ok options r es bs seps cur key value :
  compresses options → acceptable options (es ++ [(key, value)]) → built options r es bs seps cur →
  ∃ r' bs' seps' cur', TableBuilder_Add r key value = Ok r' ∧ built options r' (es ++ [(key, value)]) bs' seps' cur'.
Proof.
  intros Hcomp Hacc Hr. unfold TableBuilder_Add.
  rewrite (built_open _ _ _ _ _ _ Hr), (proj1 (built_writable _ _ _ _ _ _ Hr)). cbn [negb require mbind outcome_bind ok status_OK].
  destruct (acceptable_key options _ key value Hacc) as (Hk & Hkb & Hvb & Hkv); [apply elem_of_app; right; by left|].
  pose proof (acceptable_increasing _ _ Hacc) as Hinc. pose proof (acceptable_total _ _ Hacc) as Htot.
  assert ((if 0 <? tbl_num_entries r then c ← Compare key (tbl_last_key r); Ok (0 <? c) else Ok true) = Ok true) as ->.
  { rewrite (built_count _ _ _ _ _ _ Hr). destruct (0 <? len es) eqn:E; [|done]. split_bool.
    destruct (last es) as [[l v]|] eqn:El; [|by apply last_None in El; subst es].
    rewrite (built_last _ _ _ _ _ _ Hr _ _ El). rewrite last_lookup in El.
    assert (map fst (es ++ [(key, value)]) !! pred (length es) = Some l) as Hl1.
    { by rewrite list_lookup_fmap, (lookup_app_l_Some _ _ _ _ El). }
    assert (map fst (es ++ [(key, value)]) !! length es = Some key) as Hk1.
    { by rewrite list_lookup_fmap, lookup_app_r, Nat.sub_diag. }
    pose proof (increasing_ok _ _ _ Hinc Hl1) as Hlok.
    rewrite Compare_ok by done. cbn [mbind outcome_bind]. rewrite (proj2 (Z.ltb_lt _ _)); [done|].
    apply order_flip; [done|done|]. eapply increasing_lookup; [done..|lia]. }
  cbn [require mbind outcome_bind].
  destruct (next_separator options r es bs seps cur key value Hacc Hr) as (block & last_key & seps' & -> & Hidx & Hls & Hsep).
  cbn [mbind outcome_bind].
  destruct (built_data _ _ _ _ _ _ Hr) as (rho & Hd). pose proof (built_entries _ _ _ _ _ _ Hr) as Hes.
  unfold count_entry. cbn [set_tbl_filter set_tbl_index tbl_num_entries tbl_data_block tbl_filter_block].
  rewrite (built_count _ _ _ _ _ _ Hr). pose proof (total_length (es ++ [(key, value)])) as Hcount. rewrite length_app in Hcount.
  cbn [length] in Hcount. decide_test. cbn [require mbind outcome_bind tbl_data_block].
  destruct (Add_ok (tbl_data_block r) cur rho key value Hd) as (data & x & rho' & -> & Hd' & Hx); [done|done|lia|lia|done| |].
  { intros Hne. destruct (last_key_lookup cur Hne) as (y & Hy & ->).
    eapply (increasing_lookup _ (length (stored_entries bs) + (length cur - 1)) (length es)); [done| | |].
    - rewrite list_lookup_fmap, Hes, <- app_assoc, lookup_app_r by lia.
      replace (length (stored_entries bs) + (length cur - 1) - length (stored_entries bs))%nat with (length cur - 1)%nat by lia.
      by rewrite (lookup_app_l_Some _ _ _ (entry_of y)) by (by rewrite list_lookup_fmap, Hy).
    - by rewrite list_lookup_fmap, lookup_app_r, Nat.sub_diag.
    - rewrite Hes, length_app, length_map. destruct cur; [done|cbn [length]; lia]. }
  cbn [mbind outcome_bind]. set (r3 := set_tbl_data_block _ data).
  assert (built options r3 (es ++ [(key, value)]) bs seps' (cur ++ [x])) as Hr3.
  { split; unfold r3; cbn [set_tbl_data_block tbl_options tbl_closed tbl_data_block tbl_index_block tbl_offset tbl_pending_index_entry
      tbl_pending_handle tbl_last_key tbl_num_entries tbl_filter_block]; try apply Hr; try done.
    - by rewrite map_app, app_assoc, <- Hes; cbn [map]; rewrite Hx.
    - by exists rho'.
    - split; [done|]. intros _ Hnil. by destruct cur.
    - intros k v. rewrite last_snoc. by intros [= -> ->].
    - rewrite length_app. cbn [length]. lia.
    - pose proof (built_filter _ _ _ _ _ _ Hr) as Hf. destruct (tbl_filter_block r) as [f|]; [|done]. cbn.
      destruct Hf as [Hpol Hf]. split; [done|]. apply (AddKey_built _ _ _ x) in Hf. rewrite Hf. do 2 f_equal. by injection Hx. }
  destruct (block_size _ <=? _); [|by exists r3, bs, seps', (cur ++ [x])].
  destruct (TableBuilder_Flush_ok options r3 _ bs seps' (cur ++ [x]) Hcomp Hacc Hr3) as (r' & b & E & Hr' & _); [by destruct cur|].
  by exists r', (bs ++ [b]), seps', [].
Qed.

Lemma new_TableBuilder_ok options file :
  1 ≤ block_restart_interval options → working file → written file = [] →
  ∃ r, new_TableBuilder options file = Ok r ∧ built options r [] [] [] [].
Proof.
  intros Hi Hw Hf. unfold new_TableBuilder.
  destruct (new_BlockBuilder_ok (block_restart_interval options) Hi) as (db & -> & Hdb).
  destruct (new_BlockBuilder_ok 1 ltac:(done)) as (ib & -> & Hib). cbn [mbind outcome_bind].
  assert (∃ fb, match opt_filter_policy options with None => Ok None | Some _ => f ← StartBlock new_FilterBlockBuilder 0; Ok (Some f) end
    = Ok fb ∧ match fb with None => opt_filter_policy options = None
      | Some f => opt_filter_policy options ≠ None ∧ LdbFilter.build (filter_log [] [] 0) new_FilterBlockBuilder = Ok f end)
    as (fb & -> & Hfb).
  { destruct (opt_filter_policy options); [|by exists None].
    exists (Some new_FilterBlockBuilder). split; [reflexivity|]. split; [done|]. reflexivity. }
  cbn [mbind outcome_bind]. eexists. split; [reflexivity|].
  split; cbn [tbl_options tbl_closed tbl_data_block tbl_index_block tbl_offset tbl_pending_index_entry tbl_num_entries
    tbl_filter_block tbl_last_key]; try done.
  - unfold writable, image_of. cbn. rewrite Hf. by split_and!.
  - by exists [0%nat].
  - by exists [], [0%nat].
  - split; constructor.
Qed.

Lemma add_entries_ok options more r es bs seps cur :
  compresses options → acceptable options (es ++ more) → built options r es bs seps cur →
  ∃ r' bs' seps' cur', add_entries r more = Ok r' ∧ built options r' (es ++ more) bs' seps' cur'.
Proof.
  intros Hcomp. revert r es bs seps cur. induction more as [|[key value] more IH]; intros r es bs seps cur Hacc Hr; cbn [add_entries].
  - rewrite app_nil_r. by exists r, bs, seps, cur.
  - change ((key, value) :: more) with ([(key, value)] ++ more) in *. rewrite app_assoc in *.
    destruct (TableBuilder_Add_ok options r es bs seps cur key value Hcomp (acceptable_app _ _ _ Hacc) Hr) as (r1 & bs1 & seps1 & cur1 & -> & Hr1).
    cbn [mbind outcome_bind]. by eapply IH.
Qed.

(** *** Finishing *)

Lemma appended_refl r : writable r → appended r r [].
Proof. intros Hr. exists (tbl_file r), (tbl_offset r). rewrite app_nil_r. split_and!; [|done..]. destruct r, Hr as [Hst _]. cbn in *. by subst. Qed.

(** What a table promises of its filter: a filter for each block that matches its keys. *)
Definition filters (bs : list block_in) (contents : list Z) : Prop :=
  ∃ reader, new_FilterBlockReader contents = Ok reader ∧
    ∀ b, b ∈ bs → ∃ g, len g < 2 ^ 32 ∧ (∀ key, FilterBlock_KeyMayMatch reader (bh_offset (bi_handle b)) key = KeyMayMatch key g) ∧
      ∀ key, key ∈ map i_key (bi_items b) → KeyMayMatch key g = Ok true.

Context `{!FilterBound}.

Lemma write_filter_block_ok options r bs :
  acceptable options (stored_entries bs) → filter_bound * len (stored_entries bs) < 2 ^ 29 →
  writable r → Forall (block_stored (image_of r)) bs → ascending bs (tbl_offset r) → tbl_offset r ≤ total (stored_entries bs) →
  match tbl_filter_block r with
  | None => opt_filter_policy options = None
  | Some f => opt_filter_policy options ≠ None ∧ LdbFilter.build (filter_log bs [] (tbl_offset r)) new_FilterBlockBuilder = Ok f
  end →
  ∃ r' h more, write_filter_block r = Ok (r', h) ∧ appended r r' more ∧ len more < 2 ^ 29 + 2 ^ 21 ∧
    (opt_filter_policy options ≠ None → handle_ok h ∧ ∃ contents, stores (image_of r') h contents ∧ filters bs contents).
Proof.
  intros Hacc Hbound Hw Hblocks Hasc Hsize Hf. unfold write_filter_block.
  destruct (tbl_filter_block r) as [f|]; [|exists r, new_BlockHandle, []; split_and!; [done|by apply appended_refl|done|done]].
  destruct Hf as [Hpol Hf]. rewrite (proj1 Hw). cbn [ok status_OK]. pose proof Hw as (_ & _ & Ho & _).
  pose proof (acceptable_total _ _ Hacc) as Ht. pose proof filter_bound_pos as Hb0.
  destruct (filter_log_built options bs [] (tbl_offset r)) as (f' & contents & Hf' & Hfin & Hcb & Hread); try done.
  { cbn [map]. by rewrite app_nil_r. }
  { eapply Forall_impl; [exact Hblocks|]. intros b Hb. by apply (bs_handle _ _ Hb). }
  { lia. }
  assert (f' = f) as -> by congruence. rewrite Hfin. cbn [mbind outcome_bind].
  assert (len contents < 2 ^ 29 + 2 ^ 21 - 5) as Hlen.
  { destruct (build_sized _ _ _ 0 (tbl_offset r) Hf) as [Hs Hoffs].
    - unfold sized. cbn. lia.
    - cbn. apply Z.div_pos; [lia|done].
    - apply Forall_app_2; [|apply Forall_singleton; cbn; lia]. apply Forall_map.
      eapply Forall_impl; [exact (proj2 Hasc)|]. intros b Hb. cbn in *. lia.
    - rewrite filter_log_keys in Hs. cbn [map] in Hs. rewrite app_nil_r, length_map, Z.add_0_l in Hs.
      pose proof (Finish_sized _ _ _ Hfin Hs) as Hl. unfold kFilterBase, kFilterBaseLg in Hoffs.
      change (Z.shiftl 1 11) with 2048 in Hoffs. assert (tbl_offset r / 2048 < 2 ^ 18) by (apply Z.div_lt_upper_bound; lia). lia. }
  destruct (WriteRawBlock_ok r contents kNoCompression Hw Hcb) as (r' & -> & Happ); [done|rewrite <- Ho; lia|].
  eexists r', _, _. split; [reflexivity|]. split; [exact Happ|]. rewrite length_app, length_block_trailer. split; [lia|].
  intros _. split; [split; cbn; lia|]. exists contents. destruct Happ as (? & ? & _ & _ & Himg). split.
  - exists kNoCompression, contents. cbn [bh_offset bh_size]. rewrite Himg, Ho. split; [apply image_has_end|]. split_and!; [done|done|by left].
  - destruct (Hread ltac:(lia)) as (reader & Hr & Hans). exists reader. split; [done|]. intros b Hb.
    destruct (Hans (bh_offset (bi_handle b)) (map i_key (bi_items b))) as (g & Hg & Hall).
    + unfold filter_log. apply elem_of_app. left. apply list_elem_of_fmap. by exists b.
    + pose proof (bs_nonempty _ _ (proj1 (Forall_forall _ _) Hblocks b Hb)). by destruct (bi_items b).
    + exists g. split; [lia|done].
Qed.

(** The first key of a block is not compared. *)
Lemma Add_first (C1 C2 : Comparator) b key value : buffer_ b = [] → @Add C1 b key value = @Add C2 b key value.
Proof. intros Hb. unfold Add. by rewrite Hb. Qed.

Definition meta_entries (options : Options) (h : BlockHandle) : list (Slice * Slice) :=
  match opt_filter_policy options with Some name => [(filter_key name, encode_handle h)] | None => [] end.

Lemma write_metaindex_block_ok options r h :
  compresses options → 1 ≤ block_restart_interval options → tbl_options r = options → writable r →
  (tbl_filter_block r = None ↔ opt_filter_policy options = None) →
  (∀ name, opt_filter_policy options = Some name → handle_ok h ∧ bytes name ∧ len name < 2 ^ 20) →
  len (image_of r) < 2 ^ 31 →
  ∃ r' mh more items rho, write_metaindex_block r h = Ok (r', mh) ∧ appended r r' more ∧ len more < 2 ^ 21 ∧ handle_ok mh ∧
    layout items rho ∧ map entry_of items = meta_entries options h ∧
    stores (image_of r') mh (block_bytes items rho) ∧ len (block_bytes items rho) < 2 ^ 32.
Proof.
  intros Hcomp Hi Hopt Hw Hiff Hname Hl. unfold write_metaindex_block. rewrite (proj1 Hw). cbn [ok status_OK].
  rewrite Hopt. destruct (@new_BlockBuilder_ok BytewiseComparator bytewise_laws _ Hi) as (b0 & -> & Hb0). cbn [mbind outcome_bind].
  assert (∃ b items rho, match tbl_filter_block r with
    | None => Ok b0
    | Some _ => match opt_filter_policy options with
                | None => Fault NullPointer
                | Some name => handle_encoding ← BlockHandle_EncodeTo h []; Add b0 (filter_key name) handle_encoding
                end
    end = Ok b ∧ @LdbBlock.building BytewiseComparator bytewise_laws b items rho ∧ map entry_of items = meta_entries options h ∧
    total (map entry_of items) < 2 ^ 21 - 13) as (b & items & rho & -> & Hb & Hm & Ht).
  { unfold meta_entries. destruct (tbl_filter_block r) eqn:Ef.
    - destruct (opt_filter_policy options) as [name|] eqn:Ep; [|by destruct Hiff as [_ Hn]; specialize (Hn eq_refl)].
      destruct (Hname name eq_refl) as (Hh & Hnb & Hnl). rewrite BlockHandle_EncodeTo_ok by done. cbn [mbind outcome_bind app].
      pose proof (encode_handle_length h). rewrite (Add_first _ BytewiseComparator) by apply Hb0.
      assert (bytes (filter_key name)) as Hkb by (apply Forall_app_2; [by repeat constructor|done]).
      assert (len (filter_key name) < 2 ^ 20 + 7) as Hkl by (unfold filter_key; rewrite length_app; cbn; lia).
      destruct (@Add_ok BytewiseComparator bytewise_laws b0 [] [0%nat] (filter_key name) (encode_handle h) Hb0) as (b & x & rho & -> & Hb & Hx);
        [done|by apply encode_handle_bytes|lia|lia|done|done|].
      exists b, [x], rho. split; [done|]. split; [done|]. cbn [map]. rewrite Hx. split; [done|].
      cbn [total fold_right]. unfold weight. cbn [fst snd]. lia.
    - destruct Hiff as [Hn _]. rewrite (Hn eq_refl). exists b0, [], [0%nat]. by split_and!. }
  cbn [mbind outcome_bind]. pose proof (building_layout _ _ _ Hb) as HL. pose proof (block_bytes_length _ _ HL) as Hbl.
  destruct (@WriteBlock_ok BytewiseComparator bytewise_laws _ _ _ _ _ _ r b items rho Hw) as (r' & mh & more & -> & Happ & Hmh & _ & Hst & Hmore);
    [by rewrite Hopt|done|lia|lia|].
  cbn [mbind outcome_bind fst snd]. exists r', mh, more, items, rho. split_and!; try done; lia.
Qed.

Lemma add_index_entry_same (r r' : TableBuilder F) block key :
  tbl_index_block r' = tbl_index_block r → tbl_pending_handle r' = tbl_pending_handle r →
  add_index_entry r key = Ok (set_tbl_index r block key false (tbl_pending_handle r)) →
  add_index_entry r' key = Ok (set_tbl_index r' block key false (tbl_pending_handle r')).
Proof.
  unfold add_index_entry. intros -> -> Ha. apply outcome_bind_inv in Ha as (he & -> & Ha). cbn [mbind outcome_bind].
  apply outcome_bind_inv in Ha as (ib & -> & Ha). cbn [mbind outcome_bind]. injection Ha as ->. done.
Qed.

Lemma index_total es bs seps :
  separators es bs seps → length seps = length bs → total (zip_with index_entry seps bs) ≤ 2 * total (stored_entries bs).
Proof.
  intros Hs. assert (∀ i sep b, seps !! i = Some sep → bs !! i = Some b → len sep + 64 ≤ total (bi_entries b)) as Hshort.
  { intros i sep b Hi Hb. destruct (Hs i sep Hi) as (_ & b' & Hb' & Hl). congruence. }
  clear Hs. revert bs Hshort. induction seps as [|sep seps IH]; intros [|b bs] Hshort Hl; cbn [length] in Hl; try lia; [done|].
  cbn [zip_with total fold_right]. fold (total (zip_with index_entry seps bs)).
  change (stored_entries (b :: bs)) with (bi_entries b ++ stored_entries bs). rewrite total_app.
  specialize (IH bs (λ i s c Hi Hc, Hshort (S i) s c Hi Hc) ltac:(lia)). specialize (Hshort 0%nat sep b eq_refl eq_refl).
  unfold weight. cbn [fst snd index_entry]. pose proof (encode_handle_length (bi_handle b)). lia.
Qed.

(** The index with an entry for every block. *)
Lemma write_index_block_ok options r0 r es bs seps :
  compresses options → acceptable options es → built options r0 es bs seps [] →
  tbl_options r = options → writable r → tbl_index_block r = tbl_index_block r0 →
  tbl_pending_handle r = tbl_pending_handle r0 → tbl_pending_index_entry r = tbl_pending_index_entry r0 →
  tbl_last_key r = tbl_last_key r0 → len (image_of r) < 2 ^ 31 →
  ∃ r' ih more idx rho seps', write_index_block r = Ok (r', ih) ∧ writable r' ∧ image_of r' = image_of r ++ more ∧
    len more ≤ 2 ^ 30 + 13 ∧ handle_ok ih ∧ stores (image_of r') ih (block_bytes idx rho) ∧ len (block_bytes idx rho) < 2 ^ 32 ∧
    layout idx rho ∧ increasing (map i_key idx) ∧ map entry_of idx = zip_with index_entry seps' bs ∧
    length seps' = length bs ∧ separators es bs seps'.
Proof.
  intros Hcomp Hacc Hr Hopt Hw Hib Hph Hpe Hlk Hl. unfold write_index_block. rewrite (proj1 Hw). cbn [ok status_OK].
  assert (∃ block key idx rho seps',
    (if tbl_pending_index_entry r then last_key ← FindShortSuccessor (tbl_last_key r); add_index_entry r last_key else Ok r)
      = Ok (set_tbl_index r block key false (tbl_pending_handle r)) ∧ LdbBlock.building block idx rho ∧
    map entry_of idx = zip_with index_entry seps' bs ∧ length seps' = length bs ∧ separators es bs seps')
    as (block & key & idx & rho & seps' & -> & Hb & Hz & Hls & Hsep).
  { rewrite Hpe. destruct (tbl_pending_index_entry r0) eqn:Ep.
    - destruct (pending_block _ _ _ _ _ _ Hr Ep) as (bs0 & b & es0 & l & v & Hbs & _ & _ & Hls & Hes & _ & Hll & _ & _).
      assert (key_ok l) as Hlok by (eapply (acceptable_key options es l v Hacc); rewrite Hes; apply elem_of_app; right; by left).
      rewrite Hlk, Hll. destruct (Successor_above l Hlok) as (key & E & Hk & Hle). rewrite E. cbn [mbind outcome_bind].
      destruct (add_index_entry_ok options r0 es bs seps [] l key) as (block & idx & rho & Ha & Hb & Hz & Hs); try done.
      { by eapply Successor_short. }
      rewrite (add_index_entry_same r0 r block key) by done. exists block, key, idx, rho, (seps ++ [key]). split_and!; try done.
      rewrite Hbs, !length_app. cbn [length]. lia.
    - pose proof (built_pending _ _ _ _ _ _ Hr) as Hp. rewrite Ep in Hp. destruct Hp as [Hls _].
      destruct (built_index _ _ _ _ _ _ Hr) as (idx & rho & Hb & Hz).
      exists (tbl_index_block r), (tbl_last_key r), idx, rho, seps. split_and!; try done; [|by rewrite Hib|apply Hr].
      destruct r; cbn in *; by subst. }
  cbn [mbind outcome_bind]. pose proof (building_layout _ _ _ Hb) as HL. pose proof (block_bytes_length _ _ HL) as Hbl.
  pose proof (index_total _ _ _ Hsep Hls) as Htot. rewrite <- Hz in Htot. pose proof (acceptable_total _ _ Hacc) as Ht.
  rewrite (built_entries _ _ _ _ _ _ Hr) in Ht. cbn [map] in Ht. rewrite app_nil_r in Ht.
  set (r1 := set_tbl_index _ _ _ _ _). assert (writable r1) as Hw1 by exact Hw.
  destruct (WriteBlock_ok r1 block idx rho Hw1) as (r' & ih & more & E & (f & off & -> & Hw' & Himg) & Hih & _ & Hst & Hmore);
    [by unfold r1; cbn; rewrite Hopt|done|lia|change (image_of r1) with (image_of r); lia|].
  change (tbl_index_block r1) with block. rewrite E. cbn [mbind outcome_bind].
  eexists _, ih, more, idx, rho, seps'. split; [reflexivity|]. split_and!; try done; [lia|lia|by eapply building_increasing].
Qed.

(** The bytes of a table of some entries. *)
Record table_image (options : Options) (image : list Z) (es : list (Slice * Slice)) (bs : list block_in)
    (seps : list Slice) (f : Footer) (idx : list item) (rho : list nat) : Prop := {
  ti_entries : es = stored_entries bs;
  ti_increasing : increasing (map fst es);
  ti_footer : ∃ pre, image = pre ++ encode_footer f;
  ti_handles : footer_ok f;
  ti_blocks : Forall (block_stored image) bs;
  ti_ascending : ∃ off, ascending bs off;
  ti_index : layout idx rho ∧ increasing (map i_key idx) ∧ map entry_of idx = zip_with index_entry seps bs ∧
    stores image (index_handle_ f) (block_bytes idx rho) ∧ len (block_bytes idx rho) < 2 ^ 32;
  ti_separators : length seps = length bs ∧ separators es bs seps;
  ti_meta : ∃ items mrho h, layout items mrho ∧ map entry_of items = meta_entries options h ∧
    stores image (metaindex_handle_ f) (block_bytes items mrho) ∧ len (block_bytes items mrho) < 2 ^ 32 ∧
    (opt_filter_policy options ≠ None → handle_ok h ∧ ∃ contents, stores image h contents ∧ filters bs contents);
  ti_size : kEncodedLength ≤ len image < 2 ^ 32
}.

Lemma write_footer_ok r mh ih :
  writable r → handle_ok mh → handle_ok ih → len (image_of r) < 2 ^ 32 →
  ∃ r', write_footer r mh ih = Ok r' ∧ appended r r' (encode_footer {| metaindex_handle_ := mh; index_handle_ := ih |}).
Proof.
  intros (Hst & Hw & Ho & Hb) Hm Hi Hl. unfold write_footer. rewrite Hst. cbn [ok status_OK].
  assert (footer_ok {| metaindex_handle_ := mh; index_handle_ := ih |}) as Hf by done.
  rewrite Footer_EncodeTo_ok by done. cbn [mbind outcome_bind]. set (footer := encode_footer _).
  pose proof (encode_footer_length {| metaindex_handle_ := mh; index_handle_ := ih |}) as Hfl. change (len footer = 48) in Hfl.
  destruct (Append_working footer (tbl_file r) Hw) as (f & -> & Hw1 & Hwk). cbn [mbind outcome_bind fst snd].
  cbn [set_tbl_output tbl_status tbl_file tbl_offset ok status_OK]. eexists. split; [reflexivity|].
  eexists _, _. split; [reflexivity|]. unfold writable, image_of in *. cbn [set_tbl_output tbl_status tbl_file tbl_offset].
  rewrite Hw1, length_app. split_and!; try done.
  - rewrite wrap_small by (unfold in_width; lia). lia.
  - by apply Forall_app_2; [|apply encode_footer_bytes].
Qed.

(** The options that a table can be built with. *)
Record buildable (options : Options) : Prop := {
  buildable_interval : 1 ≤ block_restart_interval options;
  buildable_compression : compresses options;
  buildable_name name : opt_filter_policy options = Some name → bytes name ∧ len name < 2 ^ 20
}.

Lemma TableBuilder_Finish_ok options r es bs seps cur :
  buildable options → acceptable options es → filter_bound * len es < 2 ^ 29 → built options r es bs seps cur →
  ∃ r' bs' seps' f idx rho, TableBuilder_Finish r = Ok (status_OK, r') ∧ writable r' ∧
    table_image options (image_of r') es bs' seps' f idx rho.
Proof.
  intros [Hint Hcomp Hname] Hacc Hbound Hr. unfold TableBuilder_Finish.
  assert (∃ r1 bs1, TableBuilder_Flush r = Ok r1 ∧ built options r1 es bs1 seps []) as (r1 & bs1 & -> & Hr1).
  { destruct cur as [|x cur]; [exists r, bs; split; [by eapply TableBuilder_Flush_empty|done]|].
    destruct (TableBuilder_Flush_ok options r es bs seps (x :: cur) Hcomp Hacc Hr) as (r1 & b & E & Hr1 & _); [done|].
    by exists r1, (bs ++ [b]). }
  cbn [mbind outcome_bind]. rewrite (built_open _ _ _ _ _ _ Hr1). cbn [negb require mbind outcome_bind].
  pose proof (built_entries _ _ _ _ _ _ Hr1) as Hes. cbn [map] in Hes. rewrite app_nil_r in Hes.
  pose proof (built_writable _ _ _ _ _ _ Hr1) as Hw1. pose proof (built_blocks _ _ _ _ _ _ Hr1) as Hblocks.
  pose proof (built_size _ _ _ _ _ _ Hr1) as Hsize. pose proof (acceptable_total _ _ Hacc) as Htot. rewrite Hes in Htot.
  pose proof (built_filter _ _ _ _ _ _ Hr1) as Hfil. pose proof (proj1 (proj2 (proj2 Hw1))) as Ho1.
  destruct (write_filter_block_ok options (set_tbl_closed r1) bs1) as (r2 & fh & m2 & -> & (f2 & o2 & -> & Hw2 & Hi2) & Hm2 & Hf2);
    [by rewrite <- Hes|by rewrite <- Hes|exact Hw1|exact Hblocks|apply Hr1|done|exact Hfil|].
  cbn [mbind outcome_bind fst snd]. change (image_of (set_tbl_closed r1)) with (image_of r1) in Hi2.
  destruct (write_metaindex_block_ok options (set_tbl_output (set_tbl_closed r1) f2 o2 status_OK) fh Hcomp Hint)
    as (r3 & mh & m3 & mitems & mrho & -> & (f3 & o3 & -> & Hw3 & Hi3) & Hm3 & Hmh & HLm & Hme & Hms & Hml);
    [apply Hr1|exact Hw2| | |rewrite Hi2, length_app; lia|].
  { cbn [set_tbl_output set_tbl_closed tbl_filter_block]. destruct (tbl_filter_block r1); [|done].
    split; [done|]. intros Hn. by destruct Hfil. }
  { intros name Hn. split; [apply Hf2; by rewrite Hn|by apply Hname]. }
  cbn [mbind outcome_bind fst snd]. set (ra := set_tbl_output (set_tbl_output _ _ _ _) f3 o3 status_OK) in *.
  destruct (write_index_block_ok options r1 ra es bs1 seps Hcomp Hacc Hr1)
    as (r4 & ih & m4 & idx & rho & seps' & -> & Hw4 & Hi4 & Hm4 & Hih & His & Hil & HLi & Hinc & Hz & Hls & Hseps); try done.
  { apply Hr1. } { rewrite Hi3, Hi2, !length_app. lia. }
  cbn [mbind outcome_bind fst snd].
  destruct (write_footer_ok r4 mh ih Hw4 Hmh Hih) as (r5 & -> & (f5 & o5 & -> & Hw5 & Hi5)); [rewrite Hi4, Hi3, Hi2, !length_app; lia|].
  cbn [mbind outcome_bind set_tbl_output tbl_status].
  pose proof (encode_footer_length {| metaindex_handle_ := mh; index_handle_ := ih |}) as Hfl.
  eexists _, bs1, seps', {| metaindex_handle_ := mh; index_handle_ := ih |}, idx, rho. split; [reflexivity|]. split; [exact Hw5|].
  assert (∀ h c, stores (image_of r4) h c → stores (image_of r4 ++ encode_footer {| metaindex_handle_ := mh; index_handle_ := ih |}) h c)
    as Hlast by (intros h c; apply stores_app).
  split; rewrite ?Hi5; try done.
  - apply Hacc.
  - by eexists.
  - rewrite Hi4, Hi3, Hi2. eapply Forall_impl; [exact Hblocks|]. intros b Hb. by repeat apply block_stored_app.
  - exists (tbl_offset r1). apply Hr1.
  - split_and!; try done. by apply Hlast.
  - exists mitems, mrho, fh. split_and!; try done; [by rewrite Hi4; repeat apply stores_app|].
    intros Hn. destruct (Hf2 Hn) as (Hfh & contents & Hs & Hfc). split; [done|]. exists contents. split; [|done].
    rewrite Hi4, Hi3. by repeat apply stores_app.
  - rewrite Hi4, Hi3, Hi2, !length_app. unfold kEncodedLength, kMaxEncodedLength in *. lia.
Qed.

(** A table can be built of acceptable entries. *)
Lemma build_table_ok options file es :
  buildable options → acceptable options es → filter_bound * len es < 2 ^ 29 → working file → written file = [] →
  ∃ r bs seps f idx rho, build_table options file es = Ok (status_OK, r) ∧ FileSize r = len (written (tbl_file r)) ∧
    bytes (written (tbl_file r)) ∧ table_image options (written (tbl_file r)) es bs seps f idx rho.
Proof.
  intros Hopt Hacc Hbound Hw Hf. unfold build_table.
  destruct (new_TableBuilder_ok options file (buildable_interval _ Hopt) Hw Hf) as (r0 & -> & Hr0). cbn [mbind outcome_bind].
  destruct (add_entries_ok options es r0 [] [] [] [] (buildable_compression _ Hopt) Hacc Hr0) as (r1 & bs1 & seps1 & cur1 & -> & Hr1).
  cbn [mbind outcome_bind]. cbn [app] in Hr1.
  destruct (TableBuilder_Finish_ok options r1 es bs1 seps1 cur1 Hopt Hacc Hbound Hr1) as (r & bs & seps & f & idx & rho & -> & Hw' & Hti).
  exists r, bs, seps, f, idx, rho. destruct Hw' as (_ & _ & Ho & Hb). by split_and!.
Qed.

End building_table.
