(* ===== verification/LdbCache.v ===== *)
(** * LevelDB, util/cache: the cache

    The sharded cache of least recently used entries (util/cache.cc, leveldb/cache.h): its
    handles on a heap with their reference counts, the hash table of chained buckets and the
    two circular lists, pointer by pointer.  It refines a reference cache, which is two plain
    lists; from that follow what clients rely on. *)

From S2P Require Import Prelude LdbCoding LdbFilter.

(** ** Handles

    The fields of all the handles that are linked, each as a map from pointers: the two
    dummy heads of the lists have links too.  A pointer that is not in a map is null, not
    set, or points to memory that was released. *)
Inductive LRUPtr : Type := Lru | InUse | At (h : nat).

#[export] Instance LRUPtr_eq_dec : EqDecision LRUPtr.
Proof. solve_decision. Defined.

#[export] Instance LRUPtr_countable : Countable LRUPtr.
Proof.
  refine (inj_countable' (λ p, match p with Lru => inl tt | InUse => inr None | At h => inr (Some h) end)
    (λ x, match x with inl _ => Lru | inr None => InUse | inr (Some h) => At h end) _). by intros [].
Defined.

Record LRUHandle (V : Type) : Type := {
  lh_value : V; lh_charge : Z; lh_key : Slice; lh_in_cache : bool; lh_refs : Z; lh_hash : Z
}.
Arguments lh_value {V}.
Arguments lh_charge {V}.
Arguments lh_key {V}.
Arguments lh_in_cache {V}.
Arguments lh_refs {V}.
Arguments lh_hash {V}.

Definition set_refs {V} (e : LRUHandle V) (refs : Z) : LRUHandle V :=
  {| lh_value := lh_value e; lh_charge := lh_charge e; lh_key := lh_key e; lh_in_cache := lh_in_cache e;
     lh_refs := refs; lh_hash := lh_hash e |}.

Definition set_in_cache {V} (e : LRUHandle V) (in_cache : bool) : LRUHandle V :=
  {| lh_value := lh_value e; lh_charge := lh_charge e; lh_key := lh_key e; lh_in_cache := in_cache;
     lh_refs := lh_refs e; lh_hash := lh_hash e |}.

(** [HandleTable] *)
Record HandleTable : Type := { ht_length : Z; ht_elems : Z; ht_list : list (option nat) }.

(** [LRUCache], with the heap; handles get increasing addresses.  The calls of the deleters
    are recorded. *)
Record LRUCache (V : Type) : Type := {
  capacity_ : Z; usage_ : Z; next_of : gmap LRUPtr LRUPtr; prev_of : gmap LRUPtr LRUPtr;
  next_hash_of : gmap nat (option nat); table_ : HandleTable; heap : gmap nat (LRUHandle V);
  allocated : nat; deleted : list (nat * Slice * V)
}.
Arguments capacity_ {V}.
Arguments usage_ {V}.
Arguments next_of {V}.
Arguments prev_of {V}.
Arguments next_hash_of {V}.
Arguments table_ {V}.
Arguments heap {V}.
Arguments allocated {V}.
Arguments deleted {V}.

Section cache.
Context {V : Type}.
Abbreviation cache := (LRUCache V).

Definition set_usage (c : cache) (usage : Z) : cache :=
  {| capacity_ := capacity_ c; usage_ := usage; next_of := next_of c; prev_of := prev_of c;
     next_hash_of := next_hash_of c; table_ := table_ c; heap := heap c; allocated := allocated c; deleted := deleted c |}.

Definition set_links (c : cache) (next prev : gmap LRUPtr LRUPtr) : cache :=
  {| capacity_ := capacity_ c; usage_ := usage_ c; next_of := next; prev_of := prev;
     next_hash_of := next_hash_of c; table_ := table_ c; heap := heap c; allocated := allocated c; deleted := deleted c |}.

Definition set_table (c : cache) (next_hash : gmap nat (option nat)) (table : HandleTable) : cache :=
  {| capacity_ := capacity_ c; usage_ := usage_ c; next_of := next_of c; prev_of := prev_of c;
     next_hash_of := next_hash; table_ := table; heap := heap c; allocated := allocated c; deleted := deleted c |}.

Definition set_handle (c : cache) (h : nat) (e : LRUHandle V) : cache :=
  {| capacity_ := capacity_ c; usage_ := usage_ c; next_of := next_of c; prev_of := prev_of c;
     next_hash_of := next_hash_of c; table_ := table_ c; heap := <[h := e]> (heap c); allocated := allocated c;
     deleted := deleted c |}.

Definition set_next (c : cache) (p n : LRUPtr) : cache := set_links c (<[p := n]> (next_of c)) (prev_of c).
Definition set_prev (c : cache) (p n : LRUPtr) : cache := set_links c (next_of c) (<[p := n]> (prev_of c)).

Definition get_next (c : cache) (p : LRUPtr) : outcome LRUPtr :=
  match next_of c !! p with Some n => Ok n | None => Fault NullPointer end.
Definition get_prev (c : cache) (p : LRUPtr) : outcome LRUPtr :=
  match prev_of c !! p with Some n => Ok n | None => Fault NullPointer end.
Definition get_handle (c : cache) (h : nat) : outcome (LRUHandle V) :=
  match heap c !! h with Some e => Ok e | None => Fault NullPointer end.

(** [LRUHandle::key] *)
Definition handle_key (c : cache) (h : nat) : outcome Slice :=
  e ← get_handle c h;
  _ ← require (negb (bool_decide (next_of c !! At h = Some (At h)))) OutOfBounds;
  Ok (lh_key e).

(** ** The lists *)

Definition LRU_Remove (c : cache) (e : LRUPtr) : outcome cache :=
  n ← get_next c e;
  p ← get_prev c e;
  let c := set_prev c n p in
  p ← get_prev c e;
  n ← get_next c e;
  Ok (set_next c p n).

Definition LRU_Append (c : cache) (list e : LRUPtr) : outcome cache :=
  let c := set_next c e list in
  p ← get_prev c list;
  let c := set_prev c e p in
  p ← get_prev c e;
  let c := set_next c p e in
  n ← get_next c e;
  Ok (set_prev c n e).

(** ** The hash table *)

(** The address of a pointer to a handle: that of a bucket, or of a field [next_hash]. *)
Inductive slot : Type := Bucket (i : nat) | NextHash (h : nat).

Definition read_slot (c : cache) (s : slot) : outcome (option nat) :=
  match s with
  | Bucket i => match ht_list (table_ c) !! i with Some o => Ok o | None => Fault OutOfBounds end
  | NextHash h => match next_hash_of c !! h with Some o => Ok o | None => Fault NullPointer end
  end.

Definition set_next_hash (c : cache) (h : nat) (o : option nat) : cache :=
  set_table c (<[h := o]> (next_hash_of c)) (table_ c).

Definition set_elems (c : cache) (elems : Z) : cache :=
  set_table c (next_hash_of c) {| ht_length := ht_length (table_ c); ht_elems := elems; ht_list := ht_list (table_ c) |}.

Definition write_slot (c : cache) (s : slot) (o : option nat) : cache :=
  match s with
  | Bucket i => set_table c (next_hash_of c)
      {| ht_length := ht_length (table_ c); ht_elems := ht_elems (table_ c); ht_list := <[i := o]> (ht_list (table_ c)) |}
  | NextHash h => set_next_hash c h o
  end.

(** [hash & (length - 1)] *)
Definition bucket_of (hash length : Z) : nat := Z.to_nat (Z.land hash (u32 (length - 1))).

Fixpoint FindPointer_loop (fuel : nat) (c : cache) (key : Slice) (hash : Z) (ptr : slot) : outcome slot :=
  match fuel with
  | O => Fault Diverges
  | S fuel =>
      p ← read_slot c ptr;
      match p with
      | None => Ok ptr
      | Some h =>
          e ← get_handle c h;
          other ← (if negb (lh_hash e =? hash) then Ok true else k ← handle_key c h; Ok (negb (bool_decide (key = k))));
          if other : bool then FindPointer_loop fuel c key hash (NextHash h) else Ok ptr
      end
  end.

(** No chain is longer than the heap. *)
Definition chain_fuel (c : cache) : nat := S (size (heap c)).

Definition FindPointer (c : cache) (key : Slice) (hash : Z) : outcome slot :=
  FindPointer_loop (chain_fuel c) c key hash (Bucket (bucket_of hash (ht_length (table_ c)))).

Definition HandleTable_Lookup (c : cache) (key : Slice) (hash : Z) : outcome (option nat) :=
  ptr ← FindPointer c key hash; read_slot c ptr.

(** Doubled until there are enough; past the highest power of two it is zero for ever. *)
Fixpoint grow (fuel : nat) (new_length elems : Z) : outcome Z :=
  match fuel with
  | O => Fault Diverges
  | S fuel => if new_length <? elems then grow fuel (u32 (new_length * 2)) elems else Ok new_length
  end.

(** One bucket is moved: each of its handles to the front of its new bucket. *)
Fixpoint move_chain (fuel : nat) (next_hash : gmap nat (option nat)) (entries : gmap nat (LRUHandle V))
    (new_length : Z) (new_list : list (option nat)) (h : option nat) (count : Z) :
    outcome (gmap nat (option nat) * list (option nat) * Z) :=
  match fuel with
  | O => Fault Diverges
  | S fuel =>
      match h with
      | None => Ok (next_hash, new_list, count)
      | Some h =>
          match next_hash !! h, entries !! h with
          | Some next, Some e =>
              let i := bucket_of (lh_hash e) new_length in
              match new_list !! i with
              | Some first => move_chain fuel (<[h := first]> next_hash) entries new_length (<[i := Some h]> new_list) next (u32 (count + 1))
              | None => Fault OutOfBounds
              end
          | _, _ => Fault NullPointer
          end
      end
  end.

Fixpoint move_chains (fuel : nat) (next_hash : gmap nat (option nat)) (entries : gmap nat (LRUHandle V))
    (new_length : Z) (new_list : list (option nat)) (buckets : list (option nat)) (count : Z) :
    outcome (gmap nat (option nat) * list (option nat) * Z) :=
  match buckets with
  | [] => Ok (next_hash, new_list, count)
  | h :: buckets =>
      r ← move_chain fuel next_hash entries new_length new_list h count;
      let '(next_hash, new_list, count) := r in
      move_chains fuel next_hash entries new_length new_list buckets count
  end.

Definition Resize (c : cache) : outcome cache :=
  let elems := ht_elems (table_ c) in
  new_length ← grow 32 4 elems;
  r ← move_chains (chain_fuel c) (next_hash_of c) (heap c) new_length (replicate (Z.to_nat new_length) None)
        (ht_list (table_ c)) 0;
  let '(next_hash, new_list, count) := r in
  _ ← require (elems =? count) OutOfBounds;
  Ok (set_table c next_hash {| ht_length := new_length; ht_elems := elems; ht_list := new_list |}).

Definition HandleTable_Insert (c : cache) (h : nat) : outcome (option nat * cache) :=
  key ← handle_key c h;
  e ← get_handle c h;
  ptr ← FindPointer c key (lh_hash e);
  old ← read_slot c ptr;
  next ← (match old with None => Ok None | Some o => read_slot c (NextHash o) end);
  let c := set_next_hash c h next in
  let c := write_slot c ptr (Some h) in
  match old with
  | Some _ => Ok (old, c)
  | None =>
      let c := set_elems c (u32 (ht_elems (table_ c) + 1)) in
      c ← (if ht_length (table_ c) <? ht_elems (table_ c) then Resize c else Ok c);
      Ok (None, c)
  end.

Definition HandleTable_Remove (c : cache) (key : Slice) (hash : Z) : outcome (option nat * cache) :=
  ptr ← FindPointer c key hash;
  result ← read_slot c ptr;
  match result with
  | None => Ok (None, c)
  | Some h =>
      next ← read_slot c (NextHash h);
      let c := write_slot c ptr next in
      Ok (Some h, set_elems c (u32 (ht_elems (table_ c) - 1)))
  end.

(** ** [LRUCache] *)

(** The links of a head point to itself; the constructor of the table makes four buckets. *)
Definition new_LRUCache (capacity : Z) : cache :=
  {| capacity_ := capacity; usage_ := 0;
     next_of := <[InUse := InUse]> (<[Lru := Lru]> ∅); prev_of := <[InUse := InUse]> (<[Lru := Lru]> ∅);
     next_hash_of := ∅; table_ := {| ht_length := 4; ht_elems := 0; ht_list := replicate 4 None |};
     heap := ∅; allocated := 0; deleted := [] |}.

Definition Ref (c : cache) (h : nat) : outcome cache :=
  e ← get_handle c h;
  c ← (if (lh_refs e =? 1) && lh_in_cache e then c ← LRU_Remove c (At h); LRU_Append c InUse (At h) else Ok c);
  Ok (set_handle c h (set_refs e (u32 (lh_refs e + 1)))).

(** The deleter is called and the memory released. *)
Definition deallocate (c : cache) (h : nat) (e : LRUHandle V) : outcome cache :=
  key ← handle_key c h;
  Ok {| capacity_ := capacity_ c; usage_ := usage_ c; next_of := delete (At h) (next_of c);
        prev_of := delete (At h) (prev_of c); next_hash_of := delete h (next_hash_of c); table_ := table_ c;
        heap := delete h (heap c); allocated := allocated c; deleted := deleted c ++ [(h, key, lh_value e)] |}.

Definition Unref (c : cache) (h : nat) : outcome cache :=
  e ← get_handle c h;
  _ ← require (0 <? lh_refs e) OutOfBounds;
  let e := set_refs e (lh_refs e - 1) in
  let c := set_handle c h e in
  if lh_refs e =? 0 then
    _ ← require (negb (lh_in_cache e)) OutOfBounds;
    deallocate c h e
  else if lh_in_cache e && (lh_refs e =? 1) then
    c ← LRU_Remove c (At h);
    LRU_Append c Lru (At h)
  else Ok c.

Definition FinishErase (c : cache) (o : option nat) : outcome (bool * cache) :=
  match o with
  | None => Ok (false, c)
  | Some h =>
      e ← get_handle c h;
      _ ← require (lh_in_cache e) OutOfBounds;
      c ← LRU_Remove c (At h);
      let c := set_handle c h (set_in_cache e false) in
      let c := set_usage c (u64 (usage_ c - lh_charge e)) in
      c ← Unref c h;
      Ok (true, c)
  end.

Definition LRUCache_Lookup (c : cache) (key : Slice) (hash : Z) : outcome (option nat * cache) :=
  e ← HandleTable_Lookup c key hash;
  match e with
  | None => Ok (None, c)
  | Some h => c ← Ref c h; Ok (Some h, c)
  end.

Definition LRUCache_Release (c : cache) (handle : nat) : outcome cache := Unref c handle.

(** The oldest entry of the list of unused ones is removed. *)
Definition evict_oldest (c : cache) (old : LRUPtr) : outcome cache :=
  match old with
  | At h =>
      e ← get_handle c h;
      _ ← require (lh_refs e =? 1) OutOfBounds;
      key ← handle_key c h;
      r ← HandleTable_Remove c key (lh_hash e);
      r ← FinishErase r.2 r.1;
      _ ← require r.1 OutOfBounds;
      Ok r.2
  | _ => Fault NullPointer
  end.

(** [while (usage_ > capacity_ && lru_.next != &lru_)] when [full], else without the first
    condition; no more rounds than there are handles. *)
Fixpoint evict_loop (fuel : nat) (full : bool) (c : cache) : outcome cache :=
  match fuel with
  | O => Fault Diverges
  | S fuel =>
      if negb full || (capacity_ c <? usage_ c) then
        old ← get_next c Lru;
        if decide (old = Lru) then Ok c
        else c ← evict_oldest c old; evict_loop fuel full c
      else Ok c
  end.

(** A new handle, not yet in the cache, with the reference of the one that is returned. *)
Definition new_handle (c : cache) (key : Slice) (hash : Z) (value : V) (charge : Z) : nat * cache :=
  (allocated c,
   {| capacity_ := capacity_ c; usage_ := usage_ c; next_of := next_of c; prev_of := prev_of c;
      next_hash_of := next_hash_of c; table_ := table_ c;
      heap := <[allocated c := {| lh_value := value; lh_charge := charge; lh_key := key; lh_in_cache := false;
                                  lh_refs := 1; lh_hash := hash |}]> (heap c);
      allocated := S (allocated c); deleted := deleted c |}).

Definition LRUCache_Insert (c : cache) (key : Slice) (hash : Z) (value : V) (charge : Z) : outcome (nat * cache) :=
  let '(h, c) := new_handle c key hash value charge in
  c ← (if 0 <? capacity_ c then
         e ← get_handle c h;
         let c := set_handle c h (set_in_cache (set_refs e (u32 (lh_refs e + 1))) true) in
         c ← LRU_Append c InUse (At h);
         let c := set_usage c (u64 (usage_ c + charge)) in
         r ← HandleTable_Insert c h;
         r ← FinishErase r.2 r.1;
         Ok r.2
       else Ok c);
  c ← evict_loop (chain_fuel c) true c;
  Ok (h, c).

Definition LRUCache_Erase (c : cache) (key : Slice) (hash : Z) : outcome cache :=
  r ← HandleTable_Remove c key hash;
  r ← FinishErase r.2 r.1;
  Ok r.2.

Definition LRUCache_Prune (c : cache) : outcome cache := evict_loop (chain_fuel c) false c.

Definition LRUCache_TotalCharge (c : cache) : Z := usage_ c.

(** The destructor: the entries that are not in use lose the reference of the cache. *)
Fixpoint destroy_loop (fuel : nat) (c : cache) (e : LRUPtr) : outcome cache :=
  match fuel with
  | O => Fault Diverges
  | S fuel =>
      match e with
      | Lru => Ok c
      | InUse => Fault NullPointer
      | At h =>
          next ← get_next c e;
          x ← get_handle c h;
          _ ← require (lh_in_cache x) OutOfBounds;
          let c := set_handle c h (set_in_cache x false) in
          _ ← require (lh_refs x =? 1) OutOfBounds;
          c ← Unref c h;
          destroy_loop fuel c next
      end
  end.

Definition destroy_LRUCache (c : cache) : outcome cache :=
  u ← get_next c InUse;
  _ ← require (bool_decide (u = InUse)) OutOfBounds;
  e ← get_next c Lru;
  destroy_loop (chain_fuel c) c e.

End cache.

(** ** [ShardedLRUCache]

    The handles of all the shards are told apart by the hash that they carry. *)
Definition kNumShardBits : Z := 4.
Definition kNumShards : Z := Z.shiftl 1 kNumShardBits.

Record ShardedLRUCache (V : Type) : Type := { shard_ : list (LRUCache V); last_id_ : Z }.
Arguments shard_ {V}.
Arguments last_id_ {V}.

Record Handle : Type := { hd_hash : Z; hd_at : nat }.

#[export] Instance Handle_eq_dec : EqDecision Handle.
Proof. solve_decision. Defined.

Section sharded.
Context {V : Type}.

Definition HashSlice (s : Slice) : Z := Hash s 0.
Definition Shard (hash : Z) : nat := Z.to_nat (Z.shiftr hash (32 - kNumShardBits)).

(** [NewLRUCache] *)
Definition new_ShardedLRUCache (capacity : Z) : ShardedLRUCache V :=
  let per_shard := u64 (capacity + (kNumShards - 1)) / kNumShards in
  {| shard_ := replicate (Z.to_nat kNumShards) (new_LRUCache per_shard); last_id_ := 0 |}.

Definition get_shard (c : ShardedLRUCache V) (i : nat) : outcome (LRUCache V) :=
  match shard_ c !! i with Some s => Ok s | None => Fault OutOfBounds end.

Definition set_shard (c : ShardedLRUCache V) (i : nat) (s : LRUCache V) : ShardedLRUCache V :=
  {| shard_ := <[i := s]> (shard_ c); last_id_ := last_id_ c |}.

Definition Cache_Insert (c : ShardedLRUCache V) (key : Slice) (value : V) (charge : Z) : outcome (Handle * ShardedLRUCache V) :=
  let hash := HashSlice key in
  s ← get_shard c (Shard hash);
  r ← LRUCache_Insert s key hash value charge;
  Ok ({| hd_hash := hash; hd_at := r.1 |}, set_shard c (Shard hash) r.2).

Definition Cache_Lookup (c : ShardedLRUCache V) (key : Slice) : outcome (option Handle * ShardedLRUCache V) :=
  let hash := HashSlice key in
  s ← get_shard c (Shard hash);
  r ← LRUCache_Lookup s key hash;
  Ok (match r.1 with Some h => Some {| hd_hash := hash; hd_at := h |} | None => None end, set_shard c (Shard hash) r.2).

Definition Cache_Release (c : ShardedLRUCache V) (handle : Handle) : outcome (ShardedLRUCache V) :=
  s ← get_shard c (Shard (hd_hash handle));
  s ← LRUCache_Release s (hd_at handle);
  Ok (set_shard c (Shard (hd_hash handle)) s).

Definition Cache_Erase (c : ShardedLRUCache V) (key : Slice) : outcome (ShardedLRUCache V) :=
  let hash := HashSlice key in
  s ← get_shard c (Shard hash);
  s ← LRUCache_Erase s key hash;
  Ok (set_shard c (Shard hash) s).

Definition Cache_Value (c : ShardedLRUCache V) (handle : Handle) : outcome V :=
  s ← get_shard c (Shard (hd_hash handle));
  e ← get_handle s (hd_at handle);
  Ok (lh_value e).

Definition Cache_NewId (c : ShardedLRUCache V) : Z * ShardedLRUCache V :=
  let id := u64 (last_id_ c + 1) in (id, {| shard_ := shard_ c; last_id_ := id |}).

Fixpoint prune_shards (shards : list (LRUCache V)) : outcome (list (LRUCache V)) :=
  match shards with
  | [] => Ok []
  | s :: shards => s ← LRUCache_Prune s; shards ← prune_shards shards; Ok (s :: shards)
  end.

Definition Cache_Prune (c : ShardedLRUCache V) : outcome (ShardedLRUCache V) :=
  shards ← prune_shards (shard_ c); Ok {| shard_ := shards; last_id_ := last_id_ c |}.

Definition Cache_TotalCharge (c : ShardedLRUCache V) : Z :=
  fold_left (λ total s, u64 (total + LRUCache_TotalCharge s)) (shard_ c) 0.

End sharded.

(** ** Circular lists

    [path n p a l z]: following [n] from [a] goes through [l] to [z], and [p] leads back. *)

Definition linked (n p : gmap LRUPtr LRUPtr) (a b : LRUPtr) : Prop := n !! a = Some b ∧ p !! b = Some a.

Fixpoint path (n p : gmap LRUPtr LRUPtr) (a : LRUPtr) (l : list LRUPtr) (z : LRUPtr) : Prop :=
  match l with
  | [] => linked n p a z
  | b :: l => linked n p a b ∧ path n p b l z
  end.

(** What is before and behind some nodes. *)
Definition before (a : LRUPtr) (l : list LRUPtr) : LRUPtr := default a (last l).
Definition behind (l : list LRUPtr) (z : LRUPtr) : LRUPtr := default z (head l).

Lemma before_cons a b l : before a (b :: l) = before b l.
Proof. unfold before. rewrite last_cons. by destruct (last l). Qed.

Lemma before_in a l : before a l ∈ a :: l.
Proof.
  unfold before. destruct (last l) as [x|] eqn:E; cbn; [|by left]. apply last_Some in E as [l' ->].
  right. apply elem_of_app. right. by left.
Qed.

Lemma behind_in l z : behind l z ∈ l ++ [z].
Proof. destruct l; cbn; by left. Qed.

Lemma path_split n p a l1 e l2 z :
  path n p a (l1 ++ e :: l2) z → n !! e = Some (behind l2 z) ∧ p !! e = Some (before a l1).
Proof.
  revert a. induction l1 as [|b l1 IH]; intros a Hp; cbn [app path] in Hp.
  - destruct Hp as [[_ Hb] Hp]. split; [|done]. by destruct l2 as [|c l2]; [destruct Hp|destruct Hp as [[? _] _]].
  - destruct Hp as [_ Hp]. rewrite before_cons. by apply IH.
Qed.

Lemma path_end n p a l z : path n p a l z → n !! a = Some (behind l z) ∧ p !! z = Some (before a l).
Proof.
  revert a. induction l as [|b l IH]; intros a Hp; [done|]. destruct Hp as [[Ha _] Hp]. rewrite before_cons.
  split; [done|]. by apply IH.
Qed.

(** Only the links of the nodes matter. *)
Lemma path_ext n p n' p' a l z :
  path n p a l z → (∀ x, x ∈ a :: l → n' !! x = n !! x) → (∀ x, x ∈ l ++ [z] → p' !! x = p !! x) → path n' p' a l z.
Proof.
  revert a. induction l as [|b l IH]; intros a Hp Hn Hpr; cbn [path app] in *.
  - destruct Hp as [Ha Hz]. split; [by rewrite Hn by left|by rewrite Hpr by left].
  - destruct Hp as [[Ha Hb] Hp]. split; [split; [by rewrite Hn by left|by rewrite Hpr by left]|].
    apply IH; [done| |]; intros x Hx; [apply Hn|apply Hpr]; by right.
Qed.

Lemma path_remove n p a l1 e l2 z :
  path n p a (l1 ++ e :: l2) z → NoDup (a :: l1 ++ e :: l2) → NoDup (l1 ++ e :: l2 ++ [z]) →
  path (<[before a l1 := behind l2 z]> n) (<[behind l2 z := before a l1]> p) a (l1 ++ l2) z.
Proof.
  revert a. induction l1 as [|b l1 IH]; intros a Hp Hn Hz.
  - destruct Hp as [_ Hp]. cbn [app] in *. apply NoDup_cons in Hn as [Ha Hn]. apply NoDup_cons in Hz as [He Hz].
    apply NoDup_cons in Hn as [_ Hn]. change (before a []) with a. destruct l2 as [|c l2]; cbn [path] in *.
    + split; apply lookup_insert_eq.
    + destruct Hp as [_ Hp]. change (behind (c :: l2) z) with c. split; [split; apply lookup_insert_eq|].
      apply (path_ext n p); [done| |]; intros x Hx; apply lookup_insert_ne; intros <-.
      * apply Ha. by right.
      * cbn [app] in Hz. by apply NoDup_cons in Hz as [? _].
  - cbn [app path] in Hp. destruct Hp as [[Ha Hb] Hp]. rewrite before_cons. cbn [app path].
    rewrite <- app_comm_cons in Hn. cbn [app] in Hz. apply NoDup_cons in Hn as [Hna Hn]. apply NoDup_cons in Hz as [Hnz Hz].
    split; [|by apply IH]. split; rewrite lookup_insert_ne; try done.
    + intros <-. pose proof (before_in b l1) as Hin. apply Hna. apply elem_of_cons in Hin as [E|Hin]; [rewrite E; by left|].
      right. apply elem_of_app. by left.
    + intros <-. pose proof (behind_in l2 z) as Hin. apply Hnz. apply elem_of_app. right. by right.
Qed.

Lemma path_append n p a l z e :
  path n p a l z → NoDup (a :: l) → NoDup (l ++ [z]) → e ∉ a :: l → e ∉ l ++ [z] →
  path (<[before a l := e]> (<[e := z]> n)) (<[z := e]> (<[e := before a l]> p)) a (l ++ [e]) z.
Proof.
  revert a. induction l as [|b l IH]; intros a Hp Hn Hz He1 He2; cbn [app path] in *.
  - change (before a []) with a. assert (e ≠ a) by (intros ->; apply He1; by left). assert (e ≠ z) by (intros ->; apply He2; by left).
    split; split.
    + apply lookup_insert_eq.
    + rewrite lookup_insert_ne by done. apply lookup_insert_eq.
    + rewrite lookup_insert_ne by done. apply lookup_insert_eq.
    + apply lookup_insert_eq.
  - destruct Hp as [[Ha Hb] Hp]. rewrite before_cons. apply NoDup_cons in Hn as [Hna Hn]. apply NoDup_cons in Hz as [Hnz Hz].
    apply not_elem_of_cons in He1 as [Hea He1]. apply not_elem_of_cons in He2 as [Heb He2].
    split; [|by apply IH]. pose proof (before_in b l) as Hin. split.
    + rewrite lookup_insert_ne by (by intros <-). by rewrite lookup_insert_ne.
    + rewrite lookup_insert_ne; [by rewrite lookup_insert_ne|]. intros <-. apply Hnz, elem_of_app. right. by left.
Qed.

(** A circular list from its head. *)
Definition ring (n p : gmap LRUPtr LRUPtr) (head : LRUPtr) (l : list nat) : Prop := path n p head (At <$> l) head.

Lemma ring_ext n p n' p' head l :
  ring n p head l → (∀ x, x ∈ head :: (At <$> l) → n' !! x = n !! x ∧ p' !! x = p !! x) → ring n' p' head l.
Proof.
  intros Hr Hx. eapply path_ext; [exact Hr|intros x Hin; by apply Hx|].
  intros x Hin. apply Hx. apply elem_of_app in Hin as [?|Hin%list_elem_of_singleton]; [by right|subst; by left].
Qed.

Lemma ring_first n p head l : ring n p head l → n !! head = Some (match l with [] => head | h :: _ => At h end).
Proof. intros Hr. apply path_end in Hr as [Hn _]. by destruct l. Qed.

Lemma ring_no_loop n p head l h :
  head = Lru ∨ head = InUse → NoDup l → ring n p head l → h ∈ l → n !! At h ≠ Some (At h).
Proof.
  intros Hhead Hnd Hr (l1 & l2 & ->)%list_elem_of_split. unfold ring in Hr. rewrite fmap_app, fmap_cons in Hr.
  destruct (path_split _ _ _ _ _ _ _ Hr) as [-> _]. intros [= E]. pose proof (behind_in (At <$> l2) head) as Hin.
  rewrite E in Hin. apply elem_of_app in Hin as [(h' & [= <-] & Hin)%list_elem_of_fmap|Hin%list_elem_of_singleton].
  - apply NoDup_app in Hnd as (_ & _ & Hnd). by apply NoDup_cons in Hnd as [? _].
  - destruct Hhead; congruence.
Qed.

Section lists.
Context {V : Type}.

Lemma not_head head (l : list nat) : head = Lru ∨ head = InUse → head ∉ At <$> l.
Proof. intros [-> | ->] (h & ? & _)%list_elem_of_fmap; done. Qed.

Lemma NoDup_At (l : list nat) : NoDup l → NoDup (At <$> l).
Proof. intros Hl. apply NoDup_fmap_2; [|done]. by intros x y [= ->]. Qed.

(** An entry is taken out of a list; the links of other nodes stay. *)
Lemma LRU_Remove_ok (c : LRUCache V) head l1 h l2 :
  head = Lru ∨ head = InUse → NoDup (l1 ++ h :: l2) → ring (next_of c) (prev_of c) head (l1 ++ h :: l2) →
  ∃ n p, LRU_Remove c (At h) = Ok (set_links c n p) ∧ ring n p head (l1 ++ l2) ∧
    ∀ x, x ∉ head :: (At <$> l1 ++ l2) → n !! x = next_of c !! x ∧ p !! x = prev_of c !! x.
Proof.
  intros Hhead Hnd Hr. unfold ring in *. rewrite fmap_app, fmap_cons in Hr. pose proof (not_head head (l1 ++ h :: l2) Hhead) as Hnh.
  rewrite fmap_app, fmap_cons in Hnh. pose proof (NoDup_At _ Hnd) as HndA. rewrite fmap_app, fmap_cons in HndA.
  destruct (path_split _ _ _ _ _ _ _ Hr) as [Hn Hp]. unfold LRU_Remove, get_next, get_prev. rewrite Hn, Hp. cbn [mbind outcome_bind].
  set (b := before head (At <$> l1)) in *. set (y := behind (At <$> l2) head) in *.
  assert (y ≠ At h) as Hy.
  { intros E. pose proof (behind_in (At <$> l2) head) as Hin. fold y in Hin. rewrite E in Hin.
    apply elem_of_app in Hin as [Hin|Hin%list_elem_of_singleton]; [|destruct Hhead; congruence].
    apply NoDup_app in HndA as (_ & _ & HndA). by apply NoDup_cons in HndA as [? _]. }
  unfold set_prev, set_next. cbn [set_links prev_of next_of]. rewrite lookup_insert_ne, Hp, Hn by done. cbn [mbind outcome_bind].
  eexists _, _. split; [reflexivity|]. rewrite fmap_app. split.
  - eapply path_remove; [exact Hr|by apply NoDup_cons|]. rewrite app_comm_cons, app_assoc. apply NoDup_app. split; [done|].
    split; [|apply NoDup_singleton]. intros x Hx Hin%list_elem_of_singleton. by subst.
  - intros x Hx. apply not_elem_of_cons in Hx as [Hxh Hx]. apply not_elem_of_app in Hx as [Hx1 Hx2].
    rewrite !lookup_insert_ne; [done| |].
    + intros <-. pose proof (behind_in (At <$> l2) head) as Hin. apply elem_of_app in Hin as [?|?%list_elem_of_singleton]; done.
    + intros <-. pose proof (before_in head (At <$> l1)) as Hin. by apply elem_of_cons in Hin as [?|?].
Qed.

(** An entry is put at the end of a list. *)
Lemma LRU_Append_ok (c : LRUCache V) head l h :
  head = Lru ∨ head = InUse → NoDup l → h ∉ l → ring (next_of c) (prev_of c) head l →
  ∃ n p, LRU_Append c head (At h) = Ok (set_links c n p) ∧ ring n p head (l ++ [h]) ∧
    ∀ x, x ∉ head :: (At <$> l ++ [h]) → n !! x = next_of c !! x ∧ p !! x = prev_of c !! x.
Proof.
  intros Hhead Hnd Hh Hr. unfold ring in *. pose proof (not_head head l Hhead) as Hnh. pose proof (NoDup_At _ Hnd) as HndA.
  assert (At h ∉ At <$> l) as HhA by (by intros (h' & [= <-] & ?)%list_elem_of_fmap).
  assert (At h ≠ head) as Hne by (by destruct Hhead; congruence).
  destruct (path_end _ _ _ _ _ Hr) as [_ Hp]. unfold LRU_Append, get_next, get_prev, set_prev, set_next.
  cbn [set_links prev_of next_of]. rewrite Hp. cbn [mbind outcome_bind set_links prev_of next_of].
  rewrite lookup_insert_eq. cbn [mbind outcome_bind set_links prev_of next_of]. set (b := before head (At <$> l)) in *.
  assert (b ≠ At h) as Hb.
  { intros E. pose proof (before_in head (At <$> l)) as Hin. fold b in Hin. rewrite E in Hin. by apply elem_of_cons in Hin as [?|?]. }
  rewrite lookup_insert_ne, lookup_insert_eq by done. cbn [mbind outcome_bind set_links prev_of next_of].
  eexists _, _. split; [reflexivity|]. rewrite fmap_app. split.
  - apply path_append; [done|by apply NoDup_cons| |by apply not_elem_of_cons|].
    + apply NoDup_app. split; [done|]. split; [|apply NoDup_singleton]. intros x Hx Hin%list_elem_of_singleton. by subst.
    + apply not_elem_of_app. split; [done|]. intros ?%list_elem_of_singleton. done.
  - intros x Hx. apply not_elem_of_cons in Hx as [Hxh Hx]. apply not_elem_of_app in Hx as [Hx1 Hx2].
    assert (x ≠ At h) by (intros ->; apply Hx2; by left).
    rewrite !lookup_insert_ne; [done|done|done|done|]. intros <-.
    pose proof (before_in head (At <$> l)) as Hin. by apply elem_of_cons in Hin as [?|?].
Qed.

End lists.

(** ** Chains

    The chain of a bucket: from what a slot points to, by the fields [next_hash]. *)
Fixpoint chain (nh : gmap nat (option nat)) (o : option nat) (l : list nat) : Prop :=
  match l with
  | [] => o = None
  | h :: l => o = Some h ∧ ∃ next, nh !! h = Some next ∧ chain nh next l
  end.

Lemma chain_start nh o l : chain nh o l → o = head l.
Proof. destruct l; [done|]. by intros [-> _]. Qed.

Lemma chain_ext nh nh' o l : chain nh o l → (∀ h, h ∈ l → nh' !! h = nh !! h) → chain nh' o l.
Proof.
  revert o. induction l as [|h l IH]; intros o Hc Hx; [done|]. destruct Hc as (-> & next & Hn & Hc). split; [done|].
  exists next. split; [rewrite Hx; [done|by left]|]. apply IH; [done|]. intros y Hy. apply Hx. by right.
Qed.

(** The slot that comes after the handles [l1] in bucket [i]. *)
Definition slot_after (i : nat) (l1 : list nat) : slot :=
  match last l1 with None => Bucket i | Some h => NextHash h end.

Lemma slot_after_snoc i l h : slot_after i (l ++ [h]) = NextHash h.
Proof. unfold slot_after. by rewrite last_snoc. Qed.

(** The field that is changed by writing to a slot, if it is one of a handle. *)
Definition relink (nh : gmap nat (option nat)) (l1 : list nat) (o : option nat) : gmap nat (option nat) :=
  match last l1 with None => nh | Some h => <[h := o]> nh end.

Lemma chain_after nh o l1 l2 : chain nh o (l1 ++ l2) →
  match last l1 with None => o = head l2 | Some h => nh !! h = Some (head l2) end ∧ chain nh (head l2) l2.
Proof.
  revert o. induction l1 as [|x l1 IH]; intros o Hc; cbn [app] in Hc.
  - pose proof (chain_start _ _ _ Hc) as ->. done.
  - destruct Hc as (-> & next & Hn & Hc). destruct (IH _ Hc) as [Hl Ht]. split; [|done]. rewrite last_cons.
    destruct (last l1) as [y|] eqn:E; [done|]. congruence.
Qed.

Lemma chain_relink nh o l1 l2 l2' :
  chain nh o (l1 ++ l2) → NoDup (l1 ++ l2') → chain nh (head l2') l2' →
  chain (relink nh l1 (head l2')) (match l1 with [] => head l2' | _ => o end) (l1 ++ l2').
Proof.
  destruct l1 as [|x l1]; [done|]. intros Hc Hnd Hc'.
  assert (chain (relink nh (x :: l1) (head l2')) (head l2') l2') as Hc2.
  { apply (chain_ext nh); [done|]. intros h Hh. unfold relink. destruct (last (x :: l1)) as [y|] eqn:E; [|done].
    apply lookup_insert_ne. intros <-. apply NoDup_app in Hnd as (_ & Hnd & _). apply (Hnd y); [|done].
    apply last_Some in E as [l' ->]. apply elem_of_app. right. by left. }
  clear Hc'. revert x o Hc Hnd Hc2. induction l1 as [|y l1 IH]; intros x o Hc Hnd Hc2; cbn [app chain] in *.
  - destruct Hc as (-> & next & Hn & Hc). split; [done|]. exists (head l2'). split; [|done]. apply lookup_insert_eq.
  - destruct Hc as (-> & next & Hn & Hc). split; [done|]. exists next.
    assert (relink nh (x :: y :: l1) (head l2') = relink nh (y :: l1) (head l2')) as -> by (unfold relink; by rewrite last_cons_cons).
    assert (relink nh (x :: y :: l1) (head l2') = relink nh (y :: l1) (head l2')) as E by (unfold relink; by rewrite last_cons_cons).
    rewrite E in Hc2. apply NoDup_cons in Hnd as [Hx Hnd]. destruct Hc as (-> & Hc). split.
    + unfold relink. destruct (last (y :: l1)) as [z|] eqn:Ez; [|done]. rewrite lookup_insert_ne; [done|]. intros ->.
      apply Hx. apply last_Some in Ez as [l' Ez]. change (x ∈ (y :: l1) ++ l2'). rewrite Ez. apply elem_of_app. left.
      apply elem_of_app. right. by left.
    + apply (IH y); [|done|done]. by split.
Qed.

(** ** The table

    A handle of a key, and the first one among some. *)
Section table.
Context {V : Type}.
Implicit Types (c : LRUCache V) (hp : gmap nat (LRUHandle V)).

Definition is_key hp (key : Slice) (hash : Z) (h : nat) : bool :=
  match hp !! h with Some e => (lh_hash e =? hash) && bool_decide (key = lh_key e) | None => false end.

Definition find_key hp (key : Slice) (hash : Z) (l : list nat) : option nat := head (filter (λ h, is_key hp key hash h) l).

Definition live hp (l : list nat) : Prop := ∀ h, h ∈ l → ∃ e, hp !! h = Some e ∧ in_width 32 (lh_hash e).

Definition keys_unique hp (l : list nat) : Prop :=
  ∀ h1 h2 key hash, h1 ∈ l → h2 ∈ l → is_key hp key hash h1 = true → is_key hp key hash h2 = true → h1 = h2.

(** Only which handles there are matters, not in which order. *)
#[global] Instance live_proper hp : Proper (Permutation ==> iff) (live hp).
Proof. intros l l' Hp. unfold live. by setoid_rewrite Hp. Qed.

#[global] Instance keys_unique_proper hp : Proper (Permutation ==> iff) (keys_unique hp).
Proof. intros l l' Hp. unfold keys_unique. by setoid_rewrite Hp. Qed.

Lemma find_key_some hp key hash l h : find_key hp key hash l = Some h → h ∈ l ∧ is_key hp key hash h = true.
Proof.
  unfold find_key. intros Hf. assert (h ∈ filter (λ h, is_key hp key hash h) l) as Hin.
  { destruct (filter _ l); [done|]. injection Hf as ->. by left. }
  apply list_elem_of_filter in Hin as [Hk Hin]. split; [done|]. by apply Is_true_true.
Qed.

Lemma find_key_none hp key hash l : find_key hp key hash l = None → ∀ h, h ∈ l → is_key hp key hash h = false.
Proof.
  unfold find_key. intros Hf h Hh. destruct (is_key hp key hash h) eqn:E; [|done].
  assert (h ∈ filter (λ h, is_key hp key hash h) l) as Hin by (apply list_elem_of_filter; split; [by apply Is_true_true|done]).
  destruct (filter _ l); [by apply not_elem_of_nil in Hin|done].
Qed.

(** With unique keys it does not matter in which order one looks. *)
Lemma find_key_unique hp key hash l h :
  keys_unique hp l → h ∈ l → is_key hp key hash h = true → find_key hp key hash l = Some h.
Proof.
  intros Hu Hh Hk. destruct (find_key hp key hash l) as [h'|] eqn:E.
  - apply find_key_some in E as [Hh' Hk']. by rewrite (Hu h h' key hash).
  - pose proof (find_key_none _ _ _ _ E h Hh). congruence.
Qed.

Lemma find_key_Permutation hp key hash l l' : keys_unique hp l → l ≡ₚ l' → find_key hp key hash l = find_key hp key hash l'.
Proof.
  intros Hu Hp. destruct (find_key hp key hash l') as [h|] eqn:E.
  - apply find_key_some in E as [Hh Hk]. apply find_key_unique; [done|by rewrite Hp|done].
  - destruct (find_key hp key hash l) as [h|] eqn:E'; [|done]. apply find_key_some in E' as [Hh Hk].
    rewrite Hp in Hh. pose proof (find_key_none _ _ _ _ E h Hh). congruence.
Qed.

(** The buckets and their chains hold [cached]; a handle is in the bucket of its hash. *)
Record table_ok (t : HandleTable) (nh : gmap nat (option nat)) hp (cached : list nat) (chains : list (list nat)) : Prop := {
  table_length : ∃ k, 0 ≤ k < 32 ∧ ht_length t = 2 ^ k;
  table_buckets : len (ht_list t) = ht_length t;
  table_elems : ht_elems t = len cached;
  table_chains : Forall2 (chain nh) (ht_list t) chains;
  table_cached : concat chains ≡ₚ cached;
  table_hashes i l h e : chains !! i = Some l → h ∈ l → hp !! h = Some e → bucket_of (lh_hash e) (ht_length t) = i
}.

#[global] Instance table_ok_proper t nh hp : Proper (Permutation ==> pointwise_relation _ iff) (table_ok t nh hp).
Proof.
  intros l l' Hp chains. split; intros [? ? ? ? ? ?]; split; try done; by rewrite ?Hp in *.
Qed.

Lemma bucket_of_range hash k : in_width 32 hash → 0 ≤ k < 32 → 0 ≤ Z.land hash (u32 (2 ^ k - 1)) < 2 ^ k.
Proof.
  intros Hh Hk. pose proof (Z.pow_pos_nonneg 2 k). pose proof (Z.pow_lt_mono_r 2 k 32).
  rewrite wrap_small by (unfold in_width; lia). replace (2 ^ k - 1) with (Z.ones k) by (rewrite Z.ones_equiv; lia).
  rewrite Z.land_ones by lia. apply Z.mod_pos_bound. lia.
Qed.

(** Keys are compared with that of a handle unless it is linked to itself. *)
Definition no_loop (next : gmap LRUPtr LRUPtr) : Prop := ∀ h, next !! At h ≠ Some (At h).

Lemma handle_key_ok c h e : no_loop (next_of c) → heap c !! h = Some e → handle_key c h = Ok (lh_key e).
Proof.
  intros Hl He. unfold handle_key, get_handle. rewrite He. cbn [mbind outcome_bind].
  by rewrite bool_decide_false by apply Hl.
Qed.

Lemma read_slot_after c i o l1 l2 :
  ht_list (table_ c) !! i = Some o → chain (next_hash_of c) o (l1 ++ l2) → read_slot c (slot_after i l1) = Ok (head l2).
Proof.
  intros Ho Hc. apply chain_after in Hc as [Hl _]. unfold slot_after, read_slot.
  destruct (last l1) as [h|]; [by rewrite Hl|]. rewrite Ho. congruence.
Qed.

Lemma FindPointer_loop_ok c key hash i o fuel l1 l2 :
  ht_list (table_ c) !! i = Some o → chain (next_hash_of c) o (l1 ++ l2) → live (heap c) l2 → no_loop (next_of c) →
  (length l2 < fuel)%nat →
  ∃ l21 l22, l2 = l21 ++ l22 ∧ FindPointer_loop fuel c key hash (slot_after i l1) = Ok (slot_after i (l1 ++ l21)) ∧
    (∀ h, h ∈ l21 → is_key (heap c) key hash h = false) ∧
    match l22 with [] => True | h :: _ => is_key (heap c) key hash h = true end.
Proof.
  intros Ho Hc Hlive Hloop. revert l1 l2 Hc Hlive. induction fuel as [|fuel IH]; intros l1 l2 Hc Hlive Hf; [lia|].
  cbn [FindPointer_loop]. rewrite (read_slot_after c i o l1 l2 Ho Hc). cbn [mbind outcome_bind].
  destruct l2 as [|h l2]; cbn [head].
  - exists [], []. rewrite (app_nil_r l1). split_and!; [done|done| |done]. by intros h ?%not_elem_of_nil.
  - destruct (Hlive h) as (e & He & _); [by left|]. unfold get_handle. rewrite He. cbn [mbind outcome_bind].
    rewrite (handle_key_ok c h e Hloop He).
    assert ((if negb (lh_hash e =? hash) then Ok true else k ← Ok (lh_key e); Ok (negb (bool_decide (key = k)))) =
      Ok (negb (is_key (heap c) key hash h))) as ->.
    { unfold is_key. rewrite He. by destruct (lh_hash e =? hash). }
    cbn [mbind outcome_bind]. destruct (is_key (heap c) key hash h) eqn:Ek; cbn [negb].
    + exists [], (h :: l2). rewrite (app_nil_r l1). split_and!; [done|done| |done]. by intros h' ?%not_elem_of_nil.
    + destruct (IH (l1 ++ [h]) l2) as (l21 & l22 & -> & E & Hno & Hyes).
      * by rewrite <- app_assoc.
      * intros x Hx. apply Hlive. by right.
      * cbn [length] in Hf. lia.
      * exists (h :: l21), l22. rewrite slot_after_snoc, <- app_assoc in E. split_and!; [done|done| |done].
        intros x Hx. apply elem_of_cons in Hx as [->|Hx]; [done|by apply Hno].
Qed.

Lemma live_size hp l : NoDup l → live hp l → (length l ≤ size hp)%nat.
Proof.
  intros Hnd Hl. rewrite <- (size_list_to_set (C := gset nat) l Hnd), <- (size_dom (D := gset nat) hp).
  apply subseteq_size. intros h Hh. apply elem_of_list_to_set in Hh. destruct (Hl h Hh) as (e & He & _).
  by apply elem_of_dom.
Qed.

(** A search in the table ends at the slot of the handle, or at the end of its chain. *)
Lemma FindPointer_ok c key hash cached chains :
  table_ok (table_ c) (next_hash_of c) (heap c) cached chains → NoDup cached → live (heap c) cached →
  no_loop (next_of c) → in_width 32 hash →
  ∃ i o l1 l2, ht_list (table_ c) !! i = Some o ∧ chains !! i = Some (l1 ++ l2) ∧ chain (next_hash_of c) o (l1 ++ l2) ∧
    i = bucket_of hash (ht_length (table_ c)) ∧
    FindPointer c key hash = Ok (slot_after i l1) ∧ read_slot c (slot_after i l1) = Ok (head l2) ∧
    (∀ h, h ∈ l1 → is_key (heap c) key hash h = false) ∧
    match l2 with [] => True | h :: _ => is_key (heap c) key hash h = true end.
Proof.
  intros [(k & Hk & Hlen) Hb He Hch Hp Hh] Hnd Hlive Hloop Hhash. unfold FindPointer.
  set (i := bucket_of hash (ht_length (table_ c))).
  assert (i < length (ht_list (table_ c)))%nat as Hi.
  { unfold i, bucket_of. rewrite Hlen in *. pose proof (bucket_of_range hash k Hhash Hk). lia. }
  destruct (lookup_lt_is_Some_2 _ _ Hi) as [o Ho]. destruct (Forall2_lookup_l _ _ _ _ _ Hch Ho) as (l & Hl & Hc).
  assert (∀ x, x ∈ l → x ∈ cached) as Hin.
  { intros x Hx. rewrite <- Hp. apply list_elem_of_In, in_concat. exists l. split; apply list_elem_of_In; [|done].
    by eapply list_elem_of_lookup_2. }
  assert (NoDup l) as Hndl.
  { rewrite <- Hp in Hnd. rewrite <- (take_drop_middle _ _ _ Hl), concat_app in Hnd. cbn [concat] in Hnd.
    apply NoDup_app in Hnd as (_ & _ & Hnd). by apply NoDup_app in Hnd as (? & _ & _). }
  destruct (FindPointer_loop_ok c key hash i o (chain_fuel c) [] l) as (l1 & l2 & -> & E & Hno & Hyes); try done.
  { intros x Hx. by apply Hlive, Hin. }
  { unfold chain_fuel. pose proof (live_size (heap c) l Hndl). unfold live in *. assert (length l ≤ size (heap c))%nat; [|lia].
    apply live_size; [done|]. intros x Hx. by apply Hlive, Hin. }
  exists i, o, l1, l2. split_and!; try done. by eapply read_slot_after.
Qed.

(** What the table finds is what there is. *)
Lemma bucket_has c key hash cached chains i l h :
  table_ok (table_ c) (next_hash_of c) (heap c) cached chains → i = bucket_of hash (ht_length (table_ c)) →
  chains !! i = Some l → h ∈ cached → is_key (heap c) key hash h = true → h ∈ l.
Proof.
  intros Ht -> Hl Hh Hk. rewrite <- (table_cached _ _ _ _ _ Ht) in Hh.
  apply list_elem_of_In, in_concat in Hh as (l' & Hl' & Hh). apply list_elem_of_In in Hl', Hh.
  apply list_elem_of_lookup_1 in Hl' as [j Hj]. unfold is_key in Hk.
  destruct (heap c !! h) as [e|] eqn:He; [|done]. apply andb_true_iff in Hk as [Hk _]. apply Z.eqb_eq in Hk.
  pose proof (table_hashes _ _ _ _ _ Ht _ _ _ _ Hj Hh He) as E. rewrite Hk in E. congruence.
Qed.

Lemma search_finds c key hash cached chains i l1 l2 :
  table_ok (table_ c) (next_hash_of c) (heap c) cached chains → keys_unique (heap c) cached →
  i = bucket_of hash (ht_length (table_ c)) → chains !! i = Some (l1 ++ l2) →
  (∀ h, h ∈ l1 → is_key (heap c) key hash h = false) →
  match l2 with [] => True | h :: _ => is_key (heap c) key hash h = true end →
  head l2 = find_key (heap c) key hash cached.
Proof.
  intros Ht Hu Hi Hl Hno Hyes. symmetry. destruct l2 as [|h l2]; cbn [head].
  - destruct (find_key (heap c) key hash cached) as [h|] eqn:E; [|done]. apply find_key_some in E as [Hh Hk].
    pose proof (bucket_has c key hash cached chains i _ h Ht Hi Hl Hh Hk) as Hin. rewrite app_nil_r in Hin.
    rewrite Hno in Hk by done. done.
  - apply find_key_unique; [done| |done]. rewrite <- (table_cached _ _ _ _ _ Ht). apply list_elem_of_In, in_concat.
    exists (l1 ++ h :: l2). split; apply list_elem_of_In; [by eapply list_elem_of_lookup_2|]. apply elem_of_app. right. by left.
Qed.

Lemma HandleTable_Lookup_ok c key hash cached chains :
  table_ok (table_ c) (next_hash_of c) (heap c) cached chains → NoDup cached → live (heap c) cached →
  no_loop (next_of c) → in_width 32 hash → keys_unique (heap c) cached →
  HandleTable_Lookup c key hash = Ok (find_key (heap c) key hash cached).
Proof.
  intros Ht Hnd Hlive Hloop Hhash Hu.
  destruct (FindPointer_ok c key hash cached chains Ht Hnd Hlive Hloop Hhash) as (i & o & l1 & l2 & Ho & Hl & Hc & Hi & E & Er & Hno & Hyes).
  unfold HandleTable_Lookup. rewrite E. cbn [mbind outcome_bind]. rewrite Er. f_equal. by eapply search_finds.
Qed.

(** Writing to a slot. *)
Definition rehead (buckets : list (option nat)) (i : nat) (l1 : list nat) (o : option nat) : list (option nat) :=
  match l1 with [] => <[i := o]> buckets | _ => buckets end.

Lemma write_slot_after c i l1 o :
  write_slot c (slot_after i l1) o =
  set_table c (relink (next_hash_of c) l1 o)
    {| ht_length := ht_length (table_ c); ht_elems := ht_elems (table_ c); ht_list := rehead (ht_list (table_ c)) i l1 o |}.
Proof.
  unfold slot_after, relink, rehead. destruct l1 as [|x l1 _] using rev_ind; [done|]. rewrite last_snoc.
  destruct (l1 ++ [x]) eqn:E; [by destruct l1|]. cbn [write_slot]. unfold set_next_hash. by destruct (table_ c).
Qed.

Lemma concat_insert (chains : list (list nat)) i l :
  chains !! i = Some l → ∃ A B, concat chains = A ++ l ++ B ∧ ∀ l', concat (<[i := l']> chains) = A ++ l' ++ B.
Proof.
  intros Hl. exists (concat (take i chains)), (concat (drop (S i) chains)). split.
  - rewrite <- (take_drop_middle chains i l Hl) at 1. by rewrite concat_app.
  - intros l'. rewrite insert_take_drop by exact (lookup_lt_Some _ _ _ Hl). by rewrite concat_app.
Qed.

Lemma concat_disjoint (chains : list (list nat)) i j l l' h :
  NoDup (concat chains) → chains !! i = Some l → chains !! j = Some l' → h ∈ l → h ∈ l' → i = j.
Proof.
  intros Hnd. assert (∀ i j l l', chains !! i = Some l → chains !! j = Some l' → h ∈ l → h ∈ l' → (i < j)%nat → False) as Hlt.
  { clear i j l l'. induction chains as [|l0 chains IH]; intros i j l l' Hi Hj Hh Hh' Hij; [done|].
    cbn [concat] in Hnd. apply NoDup_app in Hnd as (_ & Hd & Hnd). destruct j as [|j]; [lia|]. destruct i as [|i]; cbn in Hi, Hj.
    - injection Hi as ->. apply (Hd h Hh), list_elem_of_In, in_concat. exists l'. split; apply list_elem_of_In; [|done].
      by eapply list_elem_of_lookup_2.
    - by eapply (IH Hnd i j); [..|lia]. }
  intros Hi Hj Hh Hh'. destruct (Nat.lt_trichotomy i j) as [?|[?|?]]; [|done|]; exfalso; [by apply (Hlt i j l l')|by apply (Hlt j i l' l)].
Qed.

Lemma chains_write nh buckets chains i o l1 l2 l2' :
  Forall2 (chain nh) buckets chains → NoDup (concat chains) → buckets !! i = Some o → chains !! i = Some (l1 ++ l2) →
  NoDup (l1 ++ l2') → chain nh (head l2') l2' →
  Forall2 (chain (relink nh l1 (head l2'))) (rehead buckets i l1 (head l2')) (<[i := l1 ++ l2']> chains).
Proof.
  intros Hch Hnd Ho Hl Hnd' Hc'.
  assert (rehead buckets i l1 (head l2') = <[i := match l1 with [] => head l2' | _ => o end]> buckets) as ->.
  { unfold rehead. destruct l1; [done|]. by rewrite list_insert_id. }
  apply Forall2_same_length_lookup. rewrite !length_insert. split; [by apply (Forall2_length _ _ _ Hch)|].
  intros j x y Hx Hy. destruct (decide (i = j)) as [<-|Hne].
  - rewrite list_lookup_insert_eq in Hx by exact (lookup_lt_Some _ _ _ Ho). rewrite list_lookup_insert_eq in Hy by exact (lookup_lt_Some _ _ _ Hl).
    injection Hx as <-. injection Hy as <-. eapply chain_relink; [|done|done]. by eapply (Forall2_lookup_lr _ _ _ _ _ _ Hch Ho Hl).
  - rewrite list_lookup_insert_ne in Hx by done. rewrite list_lookup_insert_ne in Hy by done. apply (chain_ext nh); [by eapply (Forall2_lookup_lr _ _ _ _ _ _ Hch)|].
    intros h Hh. unfold relink. destruct (last l1) as [z|] eqn:Ez; [|done]. apply lookup_insert_ne. intros ->.
    assert (h ∈ l1 ++ l2) as Hin by (apply last_Some in Ez as [l' ->]; apply elem_of_app; left; apply elem_of_app; right; by left).
    apply Hne. by eapply concat_disjoint.
Qed.

(** *** Growing *)

Lemma grow_ok fuel j elems :
  0 ≤ j ≤ 31 → 31 - j < Z.of_nat fuel → elems ≤ 2 ^ 31 → ∃ k, grow fuel (2 ^ j) elems = Ok (2 ^ k) ∧ 0 ≤ k < 32.
Proof.
  revert j. induction fuel as [|fuel IH]; intros j Hj Hf He; [lia|]. cbn [grow].
  destruct (2 ^ j <? elems) eqn:E; split_bool; [|exists j; split; [done|lia]].
  assert (j < 31) as Hj31.
  { destruct (decide (j = 31)) as [->|]; [lia|lia]. }
  assert (u32 (2 ^ j * 2) = 2 ^ (j + 1)) as ->.
  { rewrite Z.pow_add_r by lia. change (2 ^ 1) with 2. pose proof (Z.pow_pos_nonneg 2 j). pose proof (Z.pow_lt_mono_r 2 j 31).
    apply wrap_small. unfold in_width. lia. }
  apply IH; lia.
Qed.

(** Handles are in the bucket of their hash. *)
Definition bucketed hp (length : Z) (chains : list (list nat)) : Prop :=
  ∀ i l h e, chains !! i = Some l → h ∈ l → hp !! h = Some e → bucket_of (lh_hash e) length = i.

Lemma push_front nh buckets chains i first l h :
  Forall2 (chain nh) buckets chains → NoDup (h :: concat chains) → buckets !! i = Some first → chains !! i = Some l →
  Forall2 (chain (<[h := first]> nh)) (<[i := Some h]> buckets) (<[i := h :: l]> chains).
Proof.
  intros Hch Hnd Ho Hl. apply NoDup_cons in Hnd as [Hh Hnd].
  assert (∀ j x, chains !! j = Some x → h ∉ x) as Hout.
  { intros j x Hx Hin. apply Hh, list_elem_of_In, in_concat. exists x. split; apply list_elem_of_In; [|done].
    by eapply list_elem_of_lookup_2. }
  assert (Forall2 (chain (<[h := first]> nh)) buckets chains) as Hch'.
  { apply Forall2_same_length_lookup. split; [by apply (Forall2_length _ _ _ Hch)|]. intros j x y Hx Hy.
    apply (chain_ext nh); [by eapply (Forall2_lookup_lr _ _ _ _ _ _ Hch)|]. intros z Hz. apply lookup_insert_ne.
    intros <-. by eapply Hout. }
  pose proof (Forall2_lookup_lr _ _ _ _ _ _ Hch' Ho Hl) as Hc. pose proof (chain_start _ _ _ Hc) as Hf.
  change (Forall2 (chain (relink (<[h := first]> nh) [] (head (h :: l)))) (rehead buckets i [] (head (h :: l))) (<[i := [] ++ h :: l]> chains)).
  apply (chains_write _ buckets chains i first [] l (h :: l)); try done.
  - destruct (concat_insert chains i l Hl) as (A & B & E & _). rewrite E in Hnd. apply NoDup_app in Hnd as (_ & _ & Hnd).
    apply NoDup_app in Hnd as (Hnd & _). cbn [app]. apply NoDup_cons. split; [by eapply Hout|done].
  - split; [done|]. exists first. split; [apply lookup_insert_eq|done].
Qed.

Lemma move_chain_ok hp k fuel nh buckets chains o l count :
  0 ≤ k < 32 → chain nh o l → live hp l → Forall2 (chain nh) buckets chains → NoDup (l ++ concat chains) →
  len buckets = 2 ^ k → bucketed hp (2 ^ k) chains → (length l < fuel)%nat → 0 ≤ count → count + len l < 2 ^ 32 →
  ∃ nh' buckets' chains', move_chain fuel nh hp (2 ^ k) buckets o count = Ok (nh', buckets', count + len l) ∧
    Forall2 (chain nh') buckets' chains' ∧ concat chains' ≡ₚ l ++ concat chains ∧ len buckets' = 2 ^ k ∧
    bucketed hp (2 ^ k) chains' ∧ ∀ h, h ∉ l → nh' !! h = nh !! h.
Proof.
  intros Hk. revert fuel nh buckets chains o count. induction l as [|h l IH]; intros fuel nh buckets chains o count Hc Hlive Hch Hnd Hlen Hbk Hf H0 Hcount;
    (destruct fuel as [|fuel]; [cbn in Hf; lia|]); cbn [move_chain].
  - cbn in Hc. subst o. exists nh, buckets, chains. cbn [length app]. rewrite Z.add_0_r. by split_and!.
  - destruct Hc as (-> & next & Hn & Hc). destruct (Hlive h) as (e & He & Hw); [by left|]. rewrite Hn, He.
    set (i := bucket_of (lh_hash e) (2 ^ k)). pose proof (bucket_of_range (lh_hash e) k Hw Hk) as Hr.
    destruct (lookup_lt_is_Some_2 buckets i) as [first Hfirst]; [unfold i, bucket_of; lia|]. rewrite Hfirst.
    destruct (Forall2_lookup_l _ _ _ _ _ Hch Hfirst) as (lc & Hlc & _).
    cbn [app] in Hnd. apply NoDup_cons in Hnd as [Hh Hnd]. apply not_elem_of_app in Hh as [Hhl Hhc].
    assert (NoDup (h :: concat chains)) as Hnd1.
    { apply NoDup_cons. split; [done|]. by apply NoDup_app in Hnd as (_ & _ & ?). }
    destruct (concat_insert chains i lc Hlc) as (A & B & E & Eins).
    assert (concat (<[i := h :: lc]> chains) ≡ₚ h :: concat chains) as Hperm.
    { rewrite E, Eins. cbn [app]. symmetry. apply Permutation_middle. }
    cbn [length] in *. replace (u32 (count + 1)) with (count + 1) by (symmetry; apply wrap_small; unfold in_width; lia).
    destruct (IH fuel (<[h := first]> nh) (<[i := Some h]> buckets) (<[i := h :: lc]> chains) next (count + 1))
      as (nh' & buckets' & chains' & Em & H1 & H2 & H3 & H4 & H5).
    + apply (chain_ext nh); [done|]. intros x Hx. apply lookup_insert_ne. by intros ->.
    + intros x Hx. apply Hlive. by right.
    + by apply push_front.
    + rewrite Hperm, <- Permutation_middle. apply NoDup_cons. split; [|done]. by apply not_elem_of_app.
    + by rewrite length_insert.
    + intros j lj x ex Hj Hx Hex. destruct (decide (i = j)) as [<-|Hne].
      * rewrite list_lookup_insert_eq in Hj by exact (lookup_lt_Some _ _ _ Hlc). injection Hj as <-.
        apply elem_of_cons in Hx as [->|Hx]; [by replace ex with e by congruence|]. by eapply Hbk.
      * rewrite list_lookup_insert_ne in Hj by done. by eapply Hbk.
    + lia.
    + lia.
    + lia.
    + exists nh', buckets', chains'. split_and!; try done.
      * rewrite Em. do 2 f_equal. lia.
      * rewrite H2, Hperm. symmetry. apply Permutation_middle.
      * intros x Hx. apply not_elem_of_cons in Hx as [Hxh Hx]. rewrite H5 by done. by apply lookup_insert_ne.
Qed.

Lemma move_chains_ok hp k fuel nh buckets chains old olds count :
  0 ≤ k < 32 → Forall2 (chain nh) old olds → live hp (concat olds) → Forall2 (chain nh) buckets chains →
  NoDup (concat olds ++ concat chains) → len buckets = 2 ^ k → bucketed hp (2 ^ k) chains →
  (length (concat olds) < fuel)%nat → 0 ≤ count → count + len (concat olds) < 2 ^ 32 →
  ∃ nh' buckets' chains', move_chains fuel nh hp (2 ^ k) buckets old count = Ok (nh', buckets', count + len (concat olds)) ∧
    Forall2 (chain nh') buckets' chains' ∧ concat chains' ≡ₚ concat olds ++ concat chains ∧ len buckets' = 2 ^ k ∧
    bucketed hp (2 ^ k) chains'.
Proof.
  intros Hk Hold. revert nh buckets chains olds count Hold.
  induction old as [|o old IH]; intros nh buckets chains olds count Hold Hlive Hch Hnd Hlen Hbk Hf H0 Hcount; cbn [move_chains].
  - apply Forall2_nil_inv_l in Hold as ->. exists nh, buckets, chains. cbn [concat length app]. rewrite Z.add_0_r. by split_and!.
  - apply Forall2_cons_inv_l in Hold as (l & olds' & Hc & Hold & ->). cbn [concat] in *.
    rewrite <- app_assoc in Hnd. rewrite length_app in Hf, Hcount.
    assert (NoDup (l ++ concat chains)) as Hnd1.
    { rewrite (Permutation_app_comm (concat olds')), app_assoc in Hnd. by apply NoDup_app in Hnd as (? & _). }
    destruct (move_chain_ok hp k fuel nh buckets chains o l count) as (nh1 & buckets1 & chains1 & -> & H1 & H2 & H3 & H4 & H5);
      try done; try lia; [intros x Hx; apply Hlive, elem_of_app; by left|].
    cbn [mbind outcome_bind].
    destruct (IH nh1 buckets1 chains1 olds' (count + len l)) as (nh2 & buckets2 & chains2 & -> & H1' & H2' & H3' & H4'); try done; try lia.
    + apply Forall2_same_length_lookup. split; [by apply (Forall2_length _ _ _ Hold)|]. intros j x y Hx Hy.
      apply (chain_ext nh); [by eapply (Forall2_lookup_lr _ _ _ _ _ _ Hold)|]. intros z Hz. apply H5. intros Hzl.
      apply NoDup_app in Hnd as (_ & Hd & _). apply (Hd z Hzl), elem_of_app. left. apply list_elem_of_In, in_concat.
      exists y. split; apply list_elem_of_In; [|done]. by eapply list_elem_of_lookup_2.
    + intros x Hx. apply Hlive, elem_of_app. by right.
    + rewrite H2. rewrite app_assoc, (Permutation_app_comm (concat olds')), <- app_assoc. done.
    + exists nh2, buckets2, chains2. split_and!; try done.
      * do 2 f_equal. rewrite length_app. lia.
      * rewrite H2', H2, !app_assoc. f_equiv. apply Permutation_app_comm.
Qed.

Lemma Resize_ok c cached chains :
  Forall2 (chain (next_hash_of c)) (ht_list (table_ c)) chains → concat chains ≡ₚ cached → ht_elems (table_ c) = len cached →
  NoDup cached → live (heap c) cached → len cached < 2 ^ 31 →
  ∃ nh t chains', Resize c = Ok (set_table c nh t) ∧ table_ok t nh (heap c) cached chains'.
Proof.
  intros Hch Hp He Hnd Hlive Hsmall. unfold Resize. destruct (grow_ok 32 2 (ht_elems (table_ c))) as (k & Hg & Hk); [lia..|].
  change (2 ^ 2) with 4 in Hg. rewrite Hg. cbn [mbind outcome_bind]. pose proof (Z.pow_pos_nonneg 2 k).
  assert (∀ n, concat (replicate n ([] : list nat)) = []) as Hnil by (induction n as [|n IH]; [done|exact IH]).
  assert (len cached = len (concat chains)) as Hlc by (by rewrite Hp).
  destruct (move_chains_ok (heap c) k (chain_fuel c) (next_hash_of c) (replicate (Z.to_nat (2 ^ k)) None)
    (replicate (Z.to_nat (2 ^ k)) []) (ht_list (table_ c)) chains 0) as (nh & buckets & chains' & -> & H1 & H2 & H3 & H4);
    try done; try lia.
  - by rewrite <- Hp in Hlive.
  - by apply Forall2_replicate.
  - rewrite Hnil, app_nil_r. by rewrite Hp.
  - rewrite length_replicate. lia.
  - intros i l h e Hi Hh. apply lookup_replicate in Hi as [-> _]. by apply not_elem_of_nil in Hh.
  - unfold chain_fuel. pose proof (live_size (heap c) cached Hnd Hlive). lia.
  - cbn [mbind outcome_bind]. rewrite Z.add_0_l. rewrite <- Hlc, He, Z.eqb_refl. cbn [require mbind outcome_bind].
    rewrite Hnil, app_nil_r in H2. eexists _, _, chains'. split; [reflexivity|]. split; cbn [ht_length ht_elems ht_list]; try done.
    + by exists k.
    + by rewrite H2.
Qed.

(** *** Insertion and removal *)

(** What may change when a chain is rewritten, other than the order. *)
Lemma table_rewrite t nh hp cached chains i o l1 l2 l2' :
  table_ok t nh hp cached chains → NoDup cached → ht_list t !! i = Some o → chains !! i = Some (l1 ++ l2) →
  (∀ h, h ∈ l2' → h ∉ l2 → (h ∉ cached) ∧ (∃ e, hp !! h = Some e ∧ bucket_of (lh_hash e) (ht_length t) = i)) →
  NoDup l2' → chain nh (head l2') l2' →
  ∃ chains' rest, cached ≡ₚ l2 ++ rest ∧
    table_ok {| ht_length := ht_length t; ht_elems := len (l2' ++ rest); ht_list := rehead (ht_list t) i l1 (head l2') |}
      (relink nh l1 (head l2')) hp (l2' ++ rest) chains'.
Proof.
  intros [Hlen Hb He Hch Hp Hh] Hnd Ho Hl Hnew Hnd2 Hc2. destruct (concat_insert chains i _ Hl) as (A & B & E & Eins).
  assert (NoDup (concat chains)) as Hndc by (by rewrite Hp).
  exists (<[i := l1 ++ l2']> chains), (A ++ l1 ++ B). split.
  { rewrite <- Hp, E. by rewrite <- app_assoc, (Permutation_app_swap_app l1), (Permutation_app_swap_app A). }
  assert (NoDup (l1 ++ l2')) as Hnd1.
  { rewrite E in Hndc. apply NoDup_app in Hndc as (_ & _ & Hndc). apply NoDup_app in Hndc as (Hndc & _ & _).
    apply NoDup_app in Hndc as (Hn1 & Hd & Hn2). apply NoDup_app. split; [done|]. split; [|done].
    intros x Hx Hx2. destruct (decide (x ∈ l2)) as [Hin|Hnin]; [by apply (Hd x)|].
    destruct (Hnew x Hx2 Hnin) as [Hout _]. apply Hout. rewrite <- Hp, E. apply elem_of_app. right. apply elem_of_app. left.
    apply elem_of_app. by left. }
  split; cbn [ht_length ht_elems ht_list]; try done.
  - rewrite <- Hb. unfold rehead. destruct l1; [by rewrite length_insert|done].
  - by apply chains_write with (o := o) (l2 := l2).
  - rewrite Eins. by rewrite <- app_assoc, (Permutation_app_swap_app l1), (Permutation_app_swap_app A).
  - intros j l h e Hj Hin Hhe. destruct (decide (i = j)) as [<-|Hne].
    + rewrite list_lookup_insert_eq in Hj by exact (lookup_lt_Some _ _ _ Hl). injection Hj as <-.
      destruct (decide (h ∈ l1 ++ l2)) as [Hin'|Hnin]; [by eapply Hh|]. apply not_elem_of_app in Hnin as [Hn1 Hn2].
      apply elem_of_app in Hin as [Hin|Hin]; [done|]. destruct (Hnew h Hin Hn2) as (_ & e' & He' & Hbk). congruence.
    + rewrite list_lookup_insert_ne in Hj by done. by eapply Hh.
Qed.

Lemma chain_NoDup_part chains i (l1 l2 : list nat) : NoDup (concat chains) → chains !! i = Some (l1 ++ l2) → NoDup l2.
Proof.
  intros Hnd Hl. destruct (concat_insert chains i _ Hl) as (A & B & E & _). rewrite E in Hnd.
  apply NoDup_app in Hnd as (_ & _ & Hnd). apply NoDup_app in Hnd as (Hnd & _ & _). by apply NoDup_app in Hnd as (_ & _ & ?).
Qed.

Lemma HandleTable_Remove_ok c key hash cached chains :
  table_ok (table_ c) (next_hash_of c) (heap c) cached chains → NoDup cached → live (heap c) cached →
  no_loop (next_of c) → in_width 32 hash → keys_unique (heap c) cached → len cached < 2 ^ 31 →
  ∃ nh t cached' chains', HandleTable_Remove c key hash = Ok (find_key (heap c) key hash cached, set_table c nh t) ∧
    table_ok t nh (heap c) cached' chains' ∧
    match find_key (heap c) key hash cached with None => cached' = cached | Some o => cached ≡ₚ o :: cached' end.
Proof.
  intros Ht Hnd Hlive Hloop Hhash Hu Hsmall.
  destruct (FindPointer_ok c key hash cached chains Ht Hnd Hlive Hloop Hhash) as (i & o & l1 & l2 & Ho & Hl & Hc & Hi & E & Er & Hno & Hyes).
  pose proof (search_finds c key hash cached chains i l1 l2 Ht Hu Hi Hl Hno Hyes) as Hfind.
  unfold HandleTable_Remove. rewrite E. cbn [mbind outcome_bind]. rewrite Er. cbn [mbind outcome_bind]. rewrite <- Hfind.
  destruct l2 as [|h l2]; cbn [head].
  - exists (next_hash_of c), (table_ c), cached, chains. split; [by destruct c|done].
  - destruct (chain_after _ _ _ _ Hc) as [_ (_ & next & Hn & Hcl)]. pose proof (chain_start _ _ _ Hcl) as ->.
    cbn [read_slot]. rewrite Hn. cbn [mbind outcome_bind]. rewrite write_slot_after.
    assert (NoDup (concat chains)) as Hndc by (by rewrite (table_cached _ _ _ _ _ Ht)).
    pose proof (chain_NoDup_part chains i _ _ Hndc Hl) as Hnd2. apply NoDup_cons in Hnd2 as [_ Hnd2].
    destruct (table_rewrite _ _ _ _ _ i o l1 (h :: l2) l2 Ht Hnd Ho Hl) as (chains' & rest & Hp & Ht'); try done.
    { intros x Hx Hnx. destruct Hnx. by right. }
    eexists _, _, (l2 ++ rest), chains'. split; [|split; [exact Ht'|done]].
    unfold set_elems. cbn [set_table table_ ht_length ht_elems ht_list next_hash_of]. rewrite (table_elems _ _ _ _ _ Ht).
    do 2 f_equal. unfold set_table. cbn. f_equal. f_equal. rewrite Hp. cbn [app length].
    replace (Z.of_nat (S (length (l2 ++ rest))) - 1) with (len (l2 ++ rest)) by lia.
    apply wrap_small. rewrite Hp in Hsmall. cbn [app length] in Hsmall. unfold in_width. lia.
Qed.

Lemma HandleTable_Insert_ok c h e cached chains :
  heap c !! h = Some e → in_width 32 (lh_hash e) → h ∉ cached →
  table_ok (table_ c) (next_hash_of c) (heap c) cached chains → NoDup cached → live (heap c) cached →
  no_loop (next_of c) → keys_unique (heap c) cached → len cached < 2 ^ 31 - 1 →
  ∃ nh t rest chains', HandleTable_Insert c h = Ok (find_key (heap c) (lh_key e) (lh_hash e) cached, set_table c nh t) ∧
    table_ok t nh (heap c) (h :: rest) chains' ∧
    match find_key (heap c) (lh_key e) (lh_hash e) cached with None => cached = rest | Some o => cached ≡ₚ o :: rest end.
Proof.
  intros He Hw Hh Ht Hnd Hlive Hloop Hu Hsmall.
  destruct (FindPointer_ok c (lh_key e) (lh_hash e) cached chains Ht Hnd Hlive Hloop Hw)
    as (i & o & l1 & l2 & Ho & Hl & Hc & Hi & E & Er & Hno & Hyes).
  pose proof (search_finds c _ _ cached chains i l1 l2 Ht Hu Hi Hl Hno Hyes) as Hfind.
  unfold HandleTable_Insert. rewrite (handle_key_ok c h e) by done. unfold get_handle. rewrite He. cbn [mbind outcome_bind].
  rewrite E. cbn [mbind outcome_bind]. rewrite Er. cbn [mbind outcome_bind]. rewrite <- Hfind.
  destruct (chain_after _ _ _ _ Hc) as [_ Hc2].
  assert ((match head l2 with None => Ok None | Some o => read_slot c (NextHash o) end) = Ok (head (tail l2))) as ->.
  { destruct l2 as [|x l2]; [done|]. destruct Hc2 as (_ & next & Hn & Hcl). cbn [head tail read_slot]. rewrite Hn.
    by rewrite (chain_start _ _ _ Hcl). }
  cbn [mbind outcome_bind]. rewrite write_slot_after. unfold set_next_hash. cbn [set_table table_ next_hash_of].
  assert (NoDup (concat chains)) as Hndc by (by rewrite (table_cached _ _ _ _ _ Ht)).
  assert (∀ x, x ∈ l1 ++ l2 → x ∈ cached) as Hin.
  { intros x Hx. rewrite <- (table_cached _ _ _ _ _ Ht). apply list_elem_of_In, in_concat. exists (l1 ++ l2).
    split; apply list_elem_of_In; [by eapply list_elem_of_lookup_2|done]. }
  set (nh := <[h := head (tail l2)]> (next_hash_of c)).
  assert (∀ x, x ∈ cached → nh !! x = next_hash_of c !! x) as Hnh.
  { intros x Hx. apply lookup_insert_ne. by intros <-. }
  assert (table_ok (table_ c) nh (heap c) cached chains) as Ht1.
  { destruct Ht as [? ? ? Hch Hp ?]. split; try done. apply Forall2_same_length_lookup. split; [by apply (Forall2_length _ _ _ Hch)|].
    intros j x y Hx Hy. apply (chain_ext (next_hash_of c)); [by eapply (Forall2_lookup_lr _ _ _ _ _ _ Hch)|].
    intros z Hz. apply Hnh. rewrite <- Hp. apply list_elem_of_In, in_concat. exists y.
    split; apply list_elem_of_In; [by eapply list_elem_of_lookup_2|done]. }
  pose proof (chain_NoDup_part chains i _ _ Hndc Hl) as Hnd2.
  destruct (table_rewrite (table_ c) nh (heap c) cached chains i o l1 l2 (h :: tail l2) Ht1 Hnd Ho Hl)
    as (chains' & rest & Hp & Ht').
  - intros x Hx Hnx. apply elem_of_cons in Hx as [->|Hx]; [|destruct l2 as [|y l2]; [by apply not_elem_of_nil in Hx|destruct Hnx; by right]].
    split; [done|]. by exists e.
  - apply NoDup_cons. split; [|destruct l2; [done|by apply NoDup_cons in Hnd2 as [_ ?]]].
    intros Hx. apply Hh, Hin, elem_of_app. right. destruct l2; [done|by right].
  - cbn [head chain]. split; [done|]. exists (head (tail l2)). split; [apply lookup_insert_eq|].
    destruct l2 as [|x l2]; [done|]. destruct Hc2 as (_ & next & Hn & Hcl). cbn [tail]. rewrite <- (chain_start _ _ _ Hcl).
    apply (chain_ext (next_hash_of c)); [done|]. intros y Hy. apply Hnh, Hin, elem_of_app. right. by right.
  - destruct l2 as [|x l2]; cbn [head tail] in *.
    + cbn [app] in Hp, Ht'. cbn [set_table set_elems table_ next_hash_of ht_length ht_elems ht_list].
      rewrite (table_elems _ _ _ _ _ Ht). replace (u32 (len cached + 1)) with (len (h :: cached));
        [|cbn [length]; replace (Z.of_nat (S (length cached))) with (len cached + 1) by lia; symmetry; apply wrap_small; unfold in_width; lia].
      unfold set_elems. cbn [set_table table_ next_hash_of ht_length ht_elems ht_list].
      assert (h :: rest ≡ₚ h :: cached) as Hp' by (by rewrite Hp).
      assert (len (h :: rest) = len (h :: cached)) as Hlen by (by rewrite Hp'). rewrite Hlen in Ht'.
      apply (table_ok_proper _ _ _ _ _ Hp' chains') in Ht'.
      destruct (_ <? _).
      * match goal with |- context [Resize ?x] => destruct (Resize_ok x (h :: cached) chains')
          as (nh' & t' & chains'' & -> & Ht''); try done end.
        -- apply (table_chains _ _ _ _ _ Ht').
        -- apply (table_cached _ _ _ _ _ Ht').
        -- by apply NoDup_cons.
        -- intros y Hy. apply elem_of_cons in Hy as [->|Hy]; [by exists e|by apply Hlive].
        -- cbn [length]. lia.
        -- cbn [mbind outcome_bind]. eexists nh', t', cached, chains''. split; [reflexivity|done].
      * cbn [mbind outcome_bind]. eexists _, _, cached, chains'. split; [reflexivity|done].
    + eexists _, _, (l2 ++ rest), chains'. split; [|split; [exact Ht'|done]]. do 2 f_equal. unfold set_table. cbn. f_equal. f_equal.
      rewrite (table_elems _ _ _ _ _ Ht), Hp. done.
Qed.

End table.

(** ** The reference cache

    The entries of the cache in two lists, without pointers and without a table: the unused
    ones, the oldest first, and those in use. *)
Record RefCache (V : Type) : Type := {
  rc_capacity : Z; rc_usage : Z; rc_lru : list nat; rc_used : list nat; rc_heap : gmap nat (LRUHandle V);
  rc_allocated : nat; rc_deleted : list (nat * Slice * V)
}.
Arguments rc_capacity {V}.
Arguments rc_usage {V}.
Arguments rc_lru {V}.
Arguments rc_used {V}.
Arguments rc_heap {V}.
Arguments rc_allocated {V}.
Arguments rc_deleted {V}.

Definition without (h : nat) (l : list nat) : list nat := filter (λ x, x ≠ h) l.

Section reference.
Context {V : Type}.

Definition rc_set_lists (s : RefCache V) (lru used : list nat) : RefCache V :=
  {| rc_capacity := rc_capacity s; rc_usage := rc_usage s; rc_lru := lru; rc_used := used; rc_heap := rc_heap s;
     rc_allocated := rc_allocated s; rc_deleted := rc_deleted s |}.

Definition rc_set_handle (s : RefCache V) (h : nat) (e : LRUHandle V) : RefCache V :=
  {| rc_capacity := rc_capacity s; rc_usage := rc_usage s; rc_lru := rc_lru s; rc_used := rc_used s;
     rc_heap := <[h := e]> (rc_heap s); rc_allocated := rc_allocated s; rc_deleted := rc_deleted s |}.

Definition rc_set_usage (s : RefCache V) (usage : Z) : RefCache V :=
  {| rc_capacity := rc_capacity s; rc_usage := usage; rc_lru := rc_lru s; rc_used := rc_used s; rc_heap := rc_heap s;
     rc_allocated := rc_allocated s; rc_deleted := rc_deleted s |}.

Definition rc_delete (s : RefCache V) (h : nat) (e : LRUHandle V) : RefCache V :=
  {| rc_capacity := rc_capacity s; rc_usage := rc_usage s; rc_lru := rc_lru s; rc_used := rc_used s;
     rc_heap := delete h (rc_heap s); rc_allocated := rc_allocated s; rc_deleted := rc_deleted s ++ [(h, lh_key e, lh_value e)] |}.

Definition new_RefCache (capacity : Z) : RefCache V :=
  {| rc_capacity := capacity; rc_usage := 0; rc_lru := []; rc_used := []; rc_heap := ∅; rc_allocated := 0; rc_deleted := [] |}.

Definition rc_cached (s : RefCache V) : list nat := rc_lru s ++ rc_used s.

Definition rc_Ref (s : RefCache V) (h : nat) (e : LRUHandle V) : RefCache V :=
  let s := if (lh_refs e =? 1) && lh_in_cache e then rc_set_lists s (without h (rc_lru s)) (rc_used s ++ [h]) else s in
  rc_set_handle s h (set_refs e (lh_refs e + 1)).

Definition rc_Unref (s : RefCache V) (h : nat) (e : LRUHandle V) : RefCache V :=
  if lh_refs e =? 1 then rc_delete s h e
  else
    let s := rc_set_handle s h (set_refs e (lh_refs e - 1)) in
    if lh_in_cache e && (lh_refs e =? 2) then rc_set_lists s (rc_lru s ++ [h]) (without h (rc_used s)) else s.

Definition rc_erase (s : RefCache V) (h : nat) (e : LRUHandle V) : RefCache V :=
  let s := rc_set_lists s (without h (rc_lru s)) (without h (rc_used s)) in
  rc_Unref (rc_set_usage (rc_set_handle s h (set_in_cache e false)) (u64 (rc_usage s - lh_charge e))) h (set_in_cache e false).

(** With a handle that is live. *)
Definition rc_with (s : RefCache V) (o : option nat) (f : nat → LRUHandle V → RefCache V) : RefCache V :=
  match o with
  | None => s
  | Some h => match rc_heap s !! h with Some e => f h e | None => s end
  end.

Definition rc_find (s : RefCache V) (key : Slice) (hash : Z) : option nat := find_key (rc_heap s) key hash (rc_cached s).

Definition rc_Lookup (s : RefCache V) (key : Slice) (hash : Z) : option nat * RefCache V :=
  let o := rc_find s key hash in (o, rc_with s o (rc_Ref s)).

Definition rc_Release (s : RefCache V) (h : nat) : RefCache V := rc_with s (Some h) (rc_Unref s).

Definition rc_Erase (s : RefCache V) (key : Slice) (hash : Z) : RefCache V :=
  rc_with s (rc_find s key hash) (rc_erase s).

(** The oldest unused entries are removed, all of them or while the cache is too full. *)
Fixpoint rc_evict (full : bool) (lru : list nat) (s : RefCache V) : RefCache V :=
  match lru with
  | [] => s
  | h :: lru =>
      if negb full || (rc_capacity s <? rc_usage s) then rc_evict full lru (rc_with s (Some h) (rc_erase s)) else s
  end.

Definition rc_Prune (s : RefCache V) : RefCache V := rc_evict false (rc_lru s) s.

Definition rc_Insert (s : RefCache V) (key : Slice) (hash : Z) (value : V) (charge : Z) : nat * RefCache V :=
  let h := rc_allocated s in
  let cached := 0 <? rc_capacity s in
  let old := if cached then rc_find s key hash else None in
  let e := {| lh_value := value; lh_charge := charge; lh_key := key; lh_in_cache := cached;
              lh_refs := if cached then 2 else 1; lh_hash := hash |} in
  let s := {| rc_capacity := rc_capacity s; rc_usage := if cached then u64 (rc_usage s + charge) else rc_usage s;
              rc_lru := rc_lru s; rc_used := if cached then rc_used s ++ [h] else rc_used s;
              rc_heap := <[h := e]> (rc_heap s); rc_allocated := S h; rc_deleted := rc_deleted s |} in
  let s := rc_with s old (rc_erase s) in
  (h, rc_evict true (rc_lru s) s).

End reference.

(** ** The cache implements the reference *)

Section refines.
Context {V : Type}.
Implicit Types (c : LRUCache V) (s : RefCache V).

(** The lists are linked and the table has the handles [tab]. *)
Record represents c s (tab : list nat) : Prop := {
  repr_capacity : capacity_ c = rc_capacity s;
  repr_usage : usage_ c = rc_usage s;
  repr_heap : heap c = rc_heap s;
  repr_allocated : allocated c = rc_allocated s;
  repr_deleted : deleted c = rc_deleted s;
  repr_lru : ring (next_of c) (prev_of c) Lru (rc_lru s);
  repr_used : ring (next_of c) (prev_of c) InUse (rc_used s);
  repr_no_loop : no_loop (next_of c);
  repr_table : ∃ chains, table_ok (table_ c) (next_hash_of c) (heap c) tab chains
}.

Lemma without_id h l : h ∉ l → without h l = l.
Proof.
  induction l as [|x l IH]; intros Hh; [done|]. apply not_elem_of_cons in Hh as [Hx Hh]. unfold without in *.
  rewrite filter_cons_True by done. by rewrite IH.
Qed.

Lemma without_middle h l1 l2 : NoDup (l1 ++ h :: l2) → without h (l1 ++ h :: l2) = l1 ++ l2.
Proof.
  intros Hnd. assert ((h ∉ l1) ∧ (h ∉ l2)) as [Hh1 Hh2].
  { rewrite <- Permutation_middle in Hnd. apply NoDup_cons in Hnd as [Hh _]. by apply not_elem_of_app in Hh. }
  pose proof (without_id h l1 Hh1) as E1. pose proof (without_id h l2 Hh2) as E2. unfold without in *.
  rewrite filter_app, filter_cons_False by (intros Hf; by apply Hf). by rewrite E1, E2.
Qed.

Lemma elem_of_without x h l : x ∈ without h l ↔ x ≠ h ∧ x ∈ l.
Proof. unfold without. by rewrite list_elem_of_filter. Qed.

Lemma without_NoDup h l : NoDup l → NoDup (without h l).
Proof. unfold without. apply NoDup_filter. Qed.

Lemma without_app h l1 l2 : without h (l1 ++ l2) = without h l1 ++ without h l2.
Proof. unfold without. apply filter_app. Qed.

(** The other list keeps its links. *)
Lemma ring_keep n p n' p' head other l l' :
  head ≠ other → head = Lru ∨ head = InUse → other = Lru ∨ other = InUse → (∀ h, h ∈ l → h ∉ l') →
  (∀ x, x ∉ other :: (At <$> l') → n' !! x = n !! x ∧ p' !! x = p !! x) → ring n p head l → ring n' p' head l.
Proof.
  intros Hne Hh Ho Hd Hx Hr. eapply ring_ext; [exact Hr|]. intros x Hin. apply Hx. apply not_elem_of_cons.
  apply elem_of_cons in Hin as [->|(h & -> & Hin)%list_elem_of_fmap].
  - split; [done|]. by apply not_head.
  - split; [by destruct Ho; congruence|]. intros (h' & [= <-] & Hin')%list_elem_of_fmap. by apply (Hd h).
Qed.

Lemma no_loop_keep (n p n' p' : gmap LRUPtr LRUPtr) head l :
  head = Lru ∨ head = InUse → NoDup l → ring n' p' head l → no_loop n →
  (∀ x, x ∉ head :: (At <$> l) → n' !! x = n !! x ∧ p' !! x = p !! x) → no_loop n'.
Proof.
  intros Hh Hnd Hr Hl Hx h. destruct (decide (h ∈ l)) as [Hin|Hnin]; [by eapply ring_no_loop|].
  destruct (Hx (At h)) as [-> _]; [|done]. apply not_elem_of_cons. split; [by destruct Hh; congruence|].
  by intros (h' & [= <-] & Hin')%list_elem_of_fmap.
Qed.

Lemma NoDup_lists s : NoDup (rc_cached s) → NoDup (rc_lru s) ∧ NoDup (rc_used s) ∧ ∀ h, h ∈ rc_lru s → h ∉ rc_used s.
Proof. intros Hnd. apply NoDup_app in Hnd as (? & ? & ?). done. Qed.

(** Taking an entry out of whichever list it is in. *)
Lemma repr_remove c s tab h :
  represents c s tab → NoDup (rc_cached s) → h ∈ rc_cached s →
  ∃ n p, LRU_Remove c (At h) = Ok (set_links c n p) ∧
    represents (set_links c n p) (rc_set_lists s (without h (rc_lru s)) (without h (rc_used s))) tab.
Proof.
  intros [H1 H2 H3 H4 H5 Hl Hu Hloop Ht] Hnd Hh. destruct (NoDup_lists s Hnd) as (Hndl & Hndu & Hd).
  apply elem_of_app in Hh as [Hh|Hh]; pose proof Hh as (l1 & l2 & E)%list_elem_of_split.
  - rewrite E in Hndl, Hl, Hd |- *. destruct (LRU_Remove_ok c Lru l1 h l2) as (n & p & -> & Hr & Hx); [by left|done|done|].
    exists n, p. split; [done|]. assert (h ∉ rc_used s) as Hhu by (apply Hd, elem_of_app; right; by left).
    rewrite (without_id h (rc_used s) Hhu), (without_middle h l1 l2 Hndl).
    assert (NoDup (l1 ++ l2)) as Hnd12 by (rewrite <- Permutation_middle in Hndl; by apply NoDup_cons in Hndl as [_ ?]).
    split; cbn [rc_set_lists rc_capacity rc_usage rc_heap rc_allocated rc_deleted rc_lru rc_used set_links]; try done.
    + eapply (ring_keep (next_of c) (prev_of c)); [|by right|by left| |exact Hx|exact Hu]; [done|].
      intros x Hx' Hx12. apply (Hd x); [|done]. apply elem_of_app in Hx12 as [?|?]; apply elem_of_app; [by left|right; by right].
    + eapply no_loop_keep; [by left|exact Hnd12|exact Hr|exact Hloop|exact Hx].
  - rewrite E in Hndu, Hu, Hd |- *. destruct (LRU_Remove_ok c InUse l1 h l2) as (n & p & -> & Hr & Hx); [by right|done|done|].
    exists n, p. split; [done|]. assert (h ∉ rc_lru s) as Hhl by (intros Hin; apply (Hd h Hin), elem_of_app; right; by left).
    rewrite (without_id h (rc_lru s) Hhl), (without_middle h l1 l2 Hndu).
    assert (NoDup (l1 ++ l2)) as Hnd12 by (rewrite <- Permutation_middle in Hndu; by apply NoDup_cons in Hndu as [_ ?]).
    split; cbn [rc_set_lists rc_capacity rc_usage rc_heap rc_allocated rc_deleted rc_lru rc_used set_links]; try done.
    + eapply (ring_keep (next_of c) (prev_of c)); [|by left|by right| |exact Hx|exact Hl]; [done|].
      intros x Hx' Hx12. apply (Hd x Hx'). apply elem_of_app in Hx12 as [?|?]; apply elem_of_app; [by left|right; by right].
    + eapply no_loop_keep; [by right|exact Hnd12|exact Hr|exact Hloop|exact Hx].
Qed.

(** Putting an entry at the end of a list. *)
Lemma repr_append_lru c s tab h :
  represents c s tab → NoDup (rc_cached s) → h ∉ rc_cached s →
  ∃ n p, LRU_Append c Lru (At h) = Ok (set_links c n p) ∧ represents (set_links c n p) (rc_set_lists s (rc_lru s ++ [h]) (rc_used s)) tab.
Proof.
  intros [H1 H2 H3 H4 H5 Hl Hu Hloop Ht] Hnd Hh. destruct (NoDup_lists s Hnd) as (Hndl & Hndu & Hd).
  apply not_elem_of_app in Hh as [Hhl Hhu].
  destruct (LRU_Append_ok c Lru (rc_lru s) h) as (n & p & -> & Hr & Hx); [by left|done|done|done|]. exists n, p. split; [done|].
  assert (NoDup (rc_lru s ++ [h])) as Hnd' by (rewrite <- Permutation_cons_append; by apply NoDup_cons).
  split; cbn [rc_set_lists rc_capacity rc_usage rc_heap rc_allocated rc_deleted rc_lru rc_used set_links]; try done.
  - eapply (ring_keep (next_of c) (prev_of c)); [|by right|by left| |exact Hx|exact Hu]; [done|].
    intros x Hx' Hin. apply elem_of_app in Hin as [Hin|Hin%list_elem_of_singleton]; [by apply (Hd x)|by subst].
  - eapply no_loop_keep; [by left|exact Hnd'|exact Hr|exact Hloop|exact Hx].
Qed.

Lemma repr_append_used c s tab h :
  represents c s tab → NoDup (rc_cached s) → h ∉ rc_cached s →
  ∃ n p, LRU_Append c InUse (At h) = Ok (set_links c n p) ∧ represents (set_links c n p) (rc_set_lists s (rc_lru s) (rc_used s ++ [h])) tab.
Proof.
  intros [H1 H2 H3 H4 H5 Hl Hu Hloop Ht] Hnd Hh. destruct (NoDup_lists s Hnd) as (Hndl & Hndu & Hd).
  apply not_elem_of_app in Hh as [Hhl Hhu].
  destruct (LRU_Append_ok c InUse (rc_used s) h) as (n & p & -> & Hr & Hx); [by right|done|done|done|]. exists n, p. split; [done|].
  assert (NoDup (rc_used s ++ [h])) as Hnd' by (rewrite <- Permutation_cons_append; by apply NoDup_cons).
  split; cbn [rc_set_lists rc_capacity rc_usage rc_heap rc_allocated rc_deleted rc_lru rc_used set_links]; try done.
  - eapply (ring_keep (next_of c) (prev_of c)); [|by left|by right| |exact Hx|exact Hl]; [done|].
    intros x Hx' Hin. apply elem_of_app in Hin as [Hin|Hin%list_elem_of_singleton]; [by apply (Hd x)|by subst].
  - eapply no_loop_keep; [by right|exact Hnd'|exact Hr|exact Hloop|exact Hx].
Qed.

(** Changing a handle, but not its hash. *)
Lemma table_ok_heap t nh (hp hp' : gmap nat (LRUHandle V)) cached chains :
  table_ok t nh hp cached chains →
  (∀ h e', h ∈ cached → hp' !! h = Some e' → ∃ e, hp !! h = Some e ∧ lh_hash e = lh_hash e') → table_ok t nh hp' cached chains.
Proof.
  intros [H1 H2 H3 H4 H5 H6] Hh. split; try done. intros i l h e' Hi Hin He'.
  destruct (Hh h e') as (e & He & <-); [|done|by eapply H6]. rewrite <- H5. apply list_elem_of_In, in_concat.
  exists l. split; apply list_elem_of_In; [by eapply list_elem_of_lookup_2|done].
Qed.

Lemma repr_handle c s tab h e e' :
  represents c s tab → rc_heap s !! h = Some e → lh_hash e' = lh_hash e →
  represents (set_handle c h e') (rc_set_handle s h e') tab.
Proof.
  intros [H1 H2 H3 H4 H5 Hl Hu Hloop (chains & Ht)] He Hhash.
  split; cbn [set_handle rc_set_handle capacity_ usage_ heap allocated deleted next_of prev_of rc_capacity rc_usage rc_heap
    rc_allocated rc_deleted rc_lru rc_used table_ next_hash_of]; try done; [by rewrite H3|].
  exists chains. apply (table_ok_heap _ _ _ _ _ _ Ht). intros x e1 Hx Hx1. rewrite H3 in *.
  destruct (decide (x = h)) as [->|Hne].
  - rewrite lookup_insert_eq in Hx1. injection Hx1 as <-. by exists e.
  - rewrite lookup_insert_ne in Hx1 by done. by exists e1.
Qed.

Lemma repr_set_usage c s tab u : represents c s tab → represents (set_usage c u) (rc_set_usage s u) tab.
Proof. by intros []. Qed.

(** *** References *)

(** The lists and the table do not have a handle that is not in the cache. *)
Definition apart s (tab : list nat) (h : nat) : Prop := (h ∉ rc_cached s) ∧ (h ∉ tab).

Lemma repr_delete c s tab h e :
  represents c s tab → rc_heap s !! h = Some e → apart s tab h →
  ∃ c', deallocate c h e = Ok c' ∧ represents c' (rc_delete s h e) tab.
Proof.
  intros [H1 H2 H3 H4 H5 Hl Hu Hloop (chains & Ht)] He [Hh Htab]. unfold deallocate.
  rewrite (handle_key_ok c h e) by (done || by rewrite H3). cbn [mbind outcome_bind]. eexists. split; [reflexivity|].
  apply not_elem_of_app in Hh as [Hhl Hhu].
  assert (∀ (head : LRUPtr) (l : list nat), head = Lru ∨ head = InUse → h ∉ l → ∀ x, x ∈ head :: (At <$> l) → x ≠ At h) as Hne.
  { intros head l Hhead Hhl' x Hx ->. apply elem_of_cons in Hx as [Hx|(h' & [= <-] & Hx)%list_elem_of_fmap]; [|done].
    by destruct Hhead; congruence. }
  split; cbn [capacity_ usage_ heap allocated deleted next_of prev_of next_hash_of table_ rc_delete rc_capacity rc_usage
    rc_heap rc_allocated rc_deleted rc_lru rc_used]; try done; [by rewrite H3|by rewrite H5| | | |].
  - eapply ring_ext; [exact Hl|]. intros x Hx. by rewrite !lookup_delete_ne by (apply not_eq_sym; by apply (Hne Lru (rc_lru s)); [left| |]).
  - eapply ring_ext; [exact Hu|]. intros x Hx. by rewrite !lookup_delete_ne by (apply not_eq_sym; by apply (Hne InUse (rc_used s)); [right| |]).
  - intros x Hx. apply lookup_delete_Some in Hx as [_ Hx]. by apply Hloop in Hx.
  - exists chains. apply (table_ok_heap _ _ (heap c)).
    + destruct Ht as [? ? ? Hch Hp ?]. split; try done. apply Forall2_same_length_lookup.
      split; [by apply (Forall2_length _ _ _ Hch)|]. intros j x y Hx Hy.
      apply (chain_ext (next_hash_of c)); [by eapply (Forall2_lookup_lr _ _ _ _ _ _ Hch)|].
      intros z Hz. apply lookup_delete_ne. intros <-. apply Htab. rewrite <- Hp. apply list_elem_of_In, in_concat. exists y.
      split; apply list_elem_of_In; [by eapply list_elem_of_lookup_2|done].
    + intros x e' _ Hx. apply lookup_delete_Some in Hx as [_ Hx]. by exists e'.
Qed.

Lemma repr_get c s tab h e : represents c s tab → rc_heap s !! h = Some e → get_handle c h = Ok e.
Proof. intros Hr He. unfold get_handle. by rewrite (repr_heap _ _ _ Hr), He. Qed.

Lemma set_handle_links c n p h e : set_handle (set_links c n p) h e = set_links (set_handle c h e) n p.
Proof. done. Qed.

Lemma Unref_ok c s tab h e :
  represents c s tab → rc_heap s !! h = Some e → 0 < lh_refs e → NoDup (rc_cached s) →
  (if lh_in_cache e then lh_refs e ≠ 1 ∧ h ∈ rc_used s else apart s tab h) →
  ∃ c', Unref c h = Ok c' ∧ represents c' (rc_Unref s h e) tab.
Proof.
  intros Hr He Hpos Hnd Hin. unfold Unref. rewrite (repr_get _ _ _ _ _ Hr He). cbn [mbind outcome_bind].
  rewrite (proj2 (Z.ltb_lt _ _) Hpos). cbn [require mbind outcome_bind]. unfold rc_Unref. cbn [set_refs lh_refs lh_in_cache].
  assert (represents (set_handle c h (set_refs e (lh_refs e - 1))) (rc_set_handle s h (set_refs e (lh_refs e - 1))) tab) as Hr1
    by (by eapply repr_handle).
  destruct (Z.eqb_spec (lh_refs e - 1) 0) as [E|E].
  - replace (lh_refs e =? 1) with true by (symmetry; apply Z.eqb_eq; lia). rewrite E in Hr1 |- *.
    destruct (lh_in_cache e) eqn:Ec; [destruct Hin; lia|]. cbn [negb require mbind outcome_bind].
    destruct (repr_delete _ _ tab h (set_refs e 0) Hr1) as (c' & -> & Hc'); [apply lookup_insert_eq|done|].
    exists c'. split; [done|]. destruct Hc' as [? ? Hh ? ? ? ? ? ?]. split; try done.
    rewrite Hh. cbn [rc_delete rc_set_handle rc_heap]. by rewrite delete_insert_eq.
  - replace (lh_refs e =? 1) with false by (symmetry; apply Z.eqb_neq; lia).
    replace (lh_refs e =? 2) with (lh_refs e - 1 =? 1) by (destruct (Z.eqb_spec (lh_refs e - 1) 1), (Z.eqb_spec (lh_refs e) 2); lia).
    destruct (lh_in_cache e) eqn:Ec; cbn [andb]; [|by eexists]. destruct (lh_refs e - 1 =? 1); [|by eexists].
    destruct Hin as [_ Hu]. destruct (NoDup_lists s Hnd) as (Hndl & Hndu & Hd).
    assert (h ∉ rc_lru s) as Hhl by (intros Hl; by apply (Hd h)).
    destruct (repr_remove _ _ tab h Hr1) as (n & p & -> & Hr2); [done|by apply elem_of_app; right|]. cbn [mbind outcome_bind].
    cbn [rc_set_handle rc_lru rc_used] in Hr2. rewrite (without_id h (rc_lru s) Hhl) in Hr2.
    destruct (repr_append_lru _ _ tab h Hr2) as (n' & p' & -> & Hr3).
    + unfold rc_cached. cbn [rc_set_lists rc_lru rc_used]. apply NoDup_app. split; [done|]. split; [|by apply without_NoDup].
      intros x Hx [_ Hx']%elem_of_without. by apply (Hd x).
    + unfold rc_cached. cbn [rc_set_lists rc_lru rc_used]. apply not_elem_of_app. split; [done|]. by intros [Hx _]%elem_of_without.
    + eexists. split; [reflexivity|]. exact Hr3.
Qed.

Lemma Ref_ok c s tab h e :
  represents c s tab → rc_heap s !! h = Some e → NoDup (rc_cached s) → 0 ≤ lh_refs e < 2 ^ 32 - 1 →
  (lh_refs e = 1 → lh_in_cache e = true → h ∈ rc_lru s) →
  ∃ c', Ref c h = Ok c' ∧ represents c' (rc_Ref s h e) tab.
Proof.
  intros Hr He Hnd Hw Hin. unfold Ref, rc_Ref. rewrite (repr_get _ _ _ _ _ Hr He). cbn [mbind outcome_bind].
  replace (u32 (lh_refs e + 1)) with (lh_refs e + 1) by (symmetry; apply wrap_small; unfold in_width; lia).
  destruct ((lh_refs e =? 1) && lh_in_cache e) eqn:E.
  - apply andb_true_iff in E as [E Ec]. apply Z.eqb_eq in E. specialize (Hin E Ec).
    destruct (NoDup_lists s Hnd) as (Hndl & Hndu & Hd). pose proof (Hd h Hin) as Hhu.
    destruct (repr_remove _ _ tab h Hr Hnd) as (n & p & -> & Hr2); [by apply elem_of_app; left|]. cbn [mbind outcome_bind].
    rewrite (without_id h (rc_used s) Hhu) in Hr2.
    destruct (repr_append_used _ _ tab h Hr2) as (n' & p' & -> & Hr3).
    + unfold rc_cached. cbn [rc_set_lists rc_lru rc_used]. apply NoDup_app. split; [by apply without_NoDup|]. split; [|done].
      intros x [_ Hx']%elem_of_without Hx. by apply (Hd x).
    + unfold rc_cached. cbn [rc_set_lists rc_lru rc_used]. apply not_elem_of_app. split; [|done]. by intros [Hx _]%elem_of_without.
    + cbn [mbind outcome_bind]. eexists. split; [reflexivity|]. by eapply repr_handle.
  - cbn [mbind outcome_bind]. eexists. split; [reflexivity|]. by eapply repr_handle.
Qed.

(** An entry that was taken out of the table leaves the cache. *)
Lemma FinishErase_ok c s tab h e :
  represents c s tab → rc_heap s !! h = Some e → NoDup (rc_cached s) → h ∈ rc_cached s → h ∉ tab →
  lh_in_cache e = true → 0 < lh_refs e →
  ∃ c', FinishErase c (Some h) = Ok (true, c') ∧ represents c' (rc_erase s h e) tab.
Proof.
  intros Hr He Hnd Hh Htab Hin Hpos. unfold FinishErase, rc_erase. rewrite (repr_get _ _ _ _ _ Hr He). cbn [mbind outcome_bind].
  rewrite Hin. cbn [require mbind outcome_bind].
  destruct (repr_remove c s tab h Hr Hnd Hh) as (n & p & -> & Hr1). cbn [mbind outcome_bind].
  set (s1 := rc_set_lists s _ _) in *.
  assert (represents (set_handle (set_links c n p) h (set_in_cache e false)) (rc_set_handle s1 h (set_in_cache e false)) tab) as Hr2
    by (by eapply repr_handle).
  change (usage_ (set_handle (set_links c n p) h (set_in_cache e false))) with (usage_ c). rewrite (repr_usage _ _ _ Hr).
  destruct (Unref_ok _ _ tab h (set_in_cache e false) (repr_set_usage _ _ _ (u64 (rc_usage s - lh_charge e)) Hr2))
    as (c' & E & Hr3); try done.
  - apply lookup_insert_eq.
  - unfold rc_cached, s1. cbn [rc_set_usage rc_set_handle rc_set_lists rc_lru rc_used]. rewrite <- without_app. by apply without_NoDup.
  - cbn [set_in_cache lh_in_cache]. split; [|done]. unfold rc_cached, s1. cbn [rc_set_usage rc_set_handle rc_set_lists rc_lru rc_used].
    rewrite <- without_app. by intros [? _]%elem_of_without.
  - rewrite E. cbn [mbind outcome_bind]. exists c'. split; [done|exact Hr3].
Qed.

End refines.

(** ** The invariant of the reference *)

(** How often a handle is held. *)
Definition holds (held : list nat) (h : nat) : Z := len (filter (λ x, x = h) held).

#[export] Instance holds_proper : Proper (Permutation ==> eq ==> eq) holds.
Proof. intros l l' Hp h ? <-. unfold holds. by rewrite Hp. Qed.

Lemma holds_cons held x h : holds (x :: held) h = holds held h + (if decide (x = h) then 1 else 0).
Proof. unfold holds. rewrite filter_cons. destruct (decide (x = h)); cbn [length]; lia. Qed.

Lemma holds_pos held h : h ∈ held ↔ 0 < holds held h.
Proof.
  unfold holds. split.
  - intros Hh. assert (h ∈ filter (λ x, x = h) held) as Hin by (by apply list_elem_of_filter).
    destruct (filter _ held); [by apply not_elem_of_nil in Hin|cbn [length]; lia].
  - intros Hp. destruct (filter (λ x, x = h) held) as [|x l] eqn:E; [cbn in Hp; lia|].
    assert (x ∈ filter (λ x, x = h) held) as Hx by (rewrite E; by left). by apply list_elem_of_filter in Hx as [-> ?].
Qed.

Lemma holds_le held h : holds held h ≤ len held.
Proof. unfold holds. pose proof (length_filter (λ x, x = h) held). lia. Qed.

Section invariant.
Context {V : Type}.
Implicit Types (s : RefCache V) (hp : gmap nat (LRUHandle V)).

Definition charge_of hp (h : nat) : Z := match hp !! h with Some e => lh_charge e | None => 0 end.
Definition charges hp (l : list nat) : Z := foldr (λ h n, charge_of hp h + n) 0 l.

#[global] Instance charges_proper hp : Proper (Permutation ==> eq) (charges hp).
Proof. induction 1; cbn [charges foldr] in *; unfold charges in *; cbn [foldr]; lia. Qed.

Lemma charges_ext hp hp' l : (∀ h, h ∈ l → charge_of hp' h = charge_of hp h) → charges hp' l = charges hp l.
Proof.
  induction l as [|h l IH]; intros Hx; [done|]. unfold charges in *. cbn [foldr]. rewrite Hx by left. rewrite IH; [done|].
  intros y Hy. apply Hx. by right.
Qed.

Lemma cached_without h (l : list nat) : NoDup l → h ∈ l → l ≡ₚ h :: without h l.
Proof.
  intros Hnd (l1 & l2 & ->)%list_elem_of_split. rewrite without_middle by done. symmetry. apply Permutation_middle.
Qed.

Definition deleted_at s : list nat := map (λ d, d.1.1) (rc_deleted s).

(** All but that keys are unique; a handle has a reference for each time it is held and one
    of the cache, and is either live or deleted, once. *)
Record sound s (held : list nat) : Prop := {
  sound_nodup : NoDup (rc_cached s);
  sound_lru h : h ∈ rc_lru s → ∃ e, rc_heap s !! h = Some e ∧ lh_in_cache e = true ∧ lh_refs e = 1;
  sound_used h : h ∈ rc_used s → ∃ e, rc_heap s !! h = Some e ∧ lh_in_cache e = true ∧ 2 ≤ lh_refs e;
  sound_cached h e : rc_heap s !! h = Some e → lh_in_cache e = true → h ∈ rc_cached s;
  sound_refs h e : rc_heap s !! h = Some e →
    1 ≤ lh_refs e ∧ lh_refs e = (if lh_in_cache e then 1 else 0) + holds held h ∧ in_width 32 (lh_hash e);
  sound_held h : h ∈ held → ∃ e, rc_heap s !! h = Some e;
  sound_usage : rc_usage s = u64 (charges (rc_heap s) (rc_cached s));
  sound_live h e : rc_heap s !! h = Some e → (h < rc_allocated s)%nat ∧ h ∉ deleted_at s;
  sound_deleted : NoDup (deleted_at s) ∧ ∀ h, h ∈ deleted_at s → (h < rc_allocated s)%nat;
  sound_all h : (h < rc_allocated s)%nat → (∃ e, rc_heap s !! h = Some e) ∨ h ∈ deleted_at s
}.

#[global] Instance sound_proper s : Proper (Permutation ==> iff) (sound s).
Proof.
  intros l l' Hp. split; intros [? ? ? ? ? ? ? ? ? ?]; split; try done; intros *; [rewrite <- Hp|rewrite <- Hp|rewrite Hp|rewrite Hp]; auto.
Qed.

Lemma sound_cached_live s held h : sound s held → h ∈ rc_cached s → ∃ e, rc_heap s !! h = Some e ∧ lh_in_cache e = true.
Proof.
  intros Hs Hh. apply elem_of_app in Hh as [Hh|Hh].
  - destruct (sound_lru _ _ Hs h Hh) as (e & ? & ? & _). by exists e.
  - destruct (sound_used _ _ Hs h Hh) as (e & ? & ? & _). by exists e.
Qed.

Lemma sound_not_cached s held h e : sound s held → rc_heap s !! h = Some e → lh_in_cache e = false → h ∉ rc_cached s.
Proof.
  intros Hs He Hc Hh. destruct (sound_cached_live s held h Hs Hh) as (e' & He' & Hc'). congruence.
Qed.

(** Which handles are in the cache does not change with the references. *)
Lemma cached_Ref s held h e : sound s held → rc_heap s !! h = Some e → rc_cached (rc_Ref s h e) ≡ₚ rc_cached s.
Proof.
  intros [Hnd Hl Hu Hc _ _ _ _ _ _] He. unfold rc_Ref, rc_cached. destruct ((lh_refs e =? 1) && lh_in_cache e) eqn:E; [|done].
  cbn [rc_set_handle rc_set_lists rc_lru rc_used]. apply andb_true_iff in E as [E Ec]. apply Z.eqb_eq in E.
  pose proof (Hc h e He Ec) as Hin. apply elem_of_app in Hin as [Hin|Hin];
    [|destruct (Hu h Hin) as (e' & He' & _ & ?); replace e' with e in * by congruence; lia].
  destruct (NoDup_lists s Hnd) as (Hndl & _ & _). rewrite (cached_without h (rc_lru s) Hndl Hin) at 2.
  rewrite app_assoc, <- Permutation_cons_append. done.
Qed.

Lemma cached_Unref s held h e : sound s held → rc_heap s !! h = Some e → rc_cached (rc_Unref s h e) ≡ₚ rc_cached s.
Proof.
  intros [Hnd Hl Hu Hc _ _ _ _ _ _] He. unfold rc_Unref, rc_cached. destruct (lh_refs e =? 1); [done|].
  destruct (lh_in_cache e && (lh_refs e =? 2)) eqn:E2; [|done].
  cbn [rc_set_handle rc_set_lists rc_lru rc_used]. apply andb_true_iff in E2 as [Ec E2]. apply Z.eqb_eq in E2.
  pose proof (Hc h e He Ec) as Hin. apply elem_of_app in Hin as [Hin|Hin].
  - destruct (Hl h Hin) as (e' & He' & _ & ?). assert (e' = e) as -> by congruence. lia.
  - destruct (NoDup_lists s Hnd) as (_ & Hndu & _). rewrite (cached_without h (rc_used s) Hndu Hin) at 2.
    by rewrite <- app_assoc.
Qed.

(** A new reference. *)
Lemma sound_Ref s held h e : sound s held → rc_heap s !! h = Some e → sound (rc_Ref s h e) (h :: held).
Proof.
  intros Hs He. pose proof Hs as [Hnd Hl Hu Hc Hr Hheld Hus Hlive Hdel Hall]. destruct (Hr h e He) as (Hr1 & Hr2 & Hw).
  pose proof (cached_Ref s held h e Hs He) as Hp.
  assert (rc_heap (rc_Ref s h e) = <[h := set_refs e (lh_refs e + 1)]> (rc_heap s)) as Hh
    by (unfold rc_Ref; by destruct (_ && _)).
  assert (rc_allocated (rc_Ref s h e) = rc_allocated s ∧ deleted_at (rc_Ref s h e) = deleted_at s ∧ rc_usage (rc_Ref s h e) = rc_usage s)
    as (Ha & Hd & Hue) by (unfold rc_Ref; by destruct (_ && _)).
  assert (∀ x, x ∈ rc_lru (rc_Ref s h e) → x ∈ rc_lru s ∧ x ≠ h) as Hlru.
  { intros x. unfold rc_Ref. destruct ((lh_refs e =? 1) && lh_in_cache e) eqn:E; cbn [rc_set_handle rc_set_lists rc_lru].
    - intros [? ?]%elem_of_without. done.
    - intros Hx. split; [done|]. intros ->. destruct (Hl h Hx) as (e' & He' & Hce & Hre). assert (e' = e) as -> by congruence.
      by rewrite Hce, Hre in E. }
  assert (∀ x, x ∈ rc_used (rc_Ref s h e) → x ∈ rc_used s ∨ x = h ∧ lh_in_cache e = true) as Hused.
  { intros x. unfold rc_Ref. destruct ((lh_refs e =? 1) && lh_in_cache e) eqn:E; cbn [rc_set_handle rc_set_lists rc_used]; [|by left].
    intros [?|Hx%list_elem_of_singleton]%elem_of_app; [by left|]. right. by apply andb_true_iff in E as [_ ?]. }
  split; rewrite ?Hh, ?Ha, ?Hd, ?Hue, ?Hp; try done.
  - intros x Hx. destruct (Hlru x Hx) as [Hx' Hne]. rewrite lookup_insert_ne by done. by apply Hl.
  - intros x Hx. destruct (decide (x = h)) as [->|Hne].
    + rewrite lookup_insert_eq. eexists. split; [done|]. cbn [set_refs lh_in_cache lh_refs]. split; [|lia].
      destruct (Hused h Hx) as [Hx'|[_ ?]]; [|done]. destruct (Hu h Hx') as (e' & He' & ? & _). congruence.
    + rewrite lookup_insert_ne by done. destruct (Hused x Hx) as [Hx'|[-> _]]; [|done]. by apply Hu.
  - intros x ex Hx Hcx. rewrite Hp. destruct (decide (x = h)) as [->|Hne].
    + rewrite lookup_insert_eq in Hx. injection Hx as <-. by apply (Hc h e).
    + rewrite lookup_insert_ne in Hx by done. by apply (Hc x ex).
  - intros x ex Hx. rewrite holds_cons. destruct (decide (h = x)) as [<-|Hne].
    + rewrite lookup_insert_eq in Hx. injection Hx as <-. cbn [set_refs lh_in_cache lh_refs lh_hash]. split_and!; (lia || done).
    + rewrite lookup_insert_ne in Hx by done. rewrite Z.add_0_r. by apply Hr.
  - intros x Hx. destruct (decide (x = h)) as [->|Hne]; [rewrite lookup_insert_eq; by eexists|].
    rewrite lookup_insert_ne by done. apply Hheld. by apply elem_of_cons in Hx as [?|?].
  - rewrite Hus. f_equal. symmetry. apply charges_ext. intros x _. unfold charge_of. destruct (decide (x = h)) as [->|Hne].
    + by rewrite lookup_insert_eq, He.
    + by rewrite lookup_insert_ne.
  - intros x ex Hx. destruct (decide (x = h)) as [->|Hne]; [by apply (Hlive h e)|]. rewrite lookup_insert_ne in Hx by done. by apply (Hlive x ex).
  - intros x Hx. destruct (Hall x Hx) as [(ex & Hex)|?]; [left|by right]. destruct (decide (x = h)) as [->|Hne].
    + rewrite lookup_insert_eq. by eexists.
    + rewrite lookup_insert_ne by done. by exists ex.
Qed.

(** The last reference goes. *)
Lemma sound_delete s held h e :
  sound s (h :: held) → rc_heap s !! h = Some e → lh_refs e = 1 → lh_in_cache e = false ∧ sound (rc_delete s h e) held.
Proof.
  intros Hs He H1. pose proof Hs as [Hnd Hl Hu Hc Hr Hheld Hus Hlive [Hdel Hdel'] Hall]. destruct (Hr h e He) as (_ & Hr2 & Hw).
  rewrite holds_cons, decide_True in Hr2 by done. assert (0 ≤ holds held h) by (unfold holds; lia).
  assert (lh_in_cache e = false) as Hic by (destruct (lh_in_cache e); [lia|done]). rewrite Hic in Hr2. split; [done|].
  pose proof (sound_not_cached _ _ _ _ Hs He Hic) as Hnc. destruct (Hlive h e He) as [Hlt Hnd'].
  assert (∀ x, x ∈ held → x ≠ h) as Hne by (intros x Hx ->; apply holds_pos in Hx; lia).
  assert (deleted_at (rc_delete s h e) = deleted_at s ++ [h]) as Hd by (unfold deleted_at; cbn; by rewrite map_app).
  change (rc_cached (rc_delete s h e)) with (rc_cached s).
  split; rewrite ?Hd; cbn [rc_delete rc_heap rc_lru rc_used rc_usage rc_allocated]; try done.
  - intros x Hx. rewrite lookup_delete_ne; [by apply Hl|]. intros <-. apply Hnc, elem_of_app. by left.
  - intros x Hx. rewrite lookup_delete_ne; [by apply Hu|]. intros <-. apply Hnc, elem_of_app. by right.
  - intros x ex Hx. apply lookup_delete_Some in Hx as [_ Hx]. by apply Hc.
  - intros x ex Hx. apply lookup_delete_Some in Hx as [Hne' Hx]. destruct (Hr x ex Hx) as (? & Hrx & ?).
    rewrite holds_cons, decide_False in Hrx by done. by rewrite Z.add_0_r in Hrx.
  - intros x Hx. pose proof (Hne x Hx). rewrite lookup_delete_ne by done. apply Hheld. by right.
  - rewrite Hus. f_equal. symmetry. apply charges_ext. intros x Hx. unfold charge_of. rewrite lookup_delete_ne; [done|]. by intros <-.
  - intros x ex Hx. apply lookup_delete_Some in Hx as [Hne' Hx]. destruct (Hlive x ex Hx) as [? ?]. split; [done|].
    apply not_elem_of_app. split; [done|]. by intros ?%list_elem_of_singleton.
  - split; [by rewrite <- Permutation_cons_append; apply NoDup_cons|].
    intros x [Hx|Hx%list_elem_of_singleton]%elem_of_app; [by apply Hdel'|by subst].
  - intros x Hx. destruct (decide (x = h)) as [->|Hne']; [right; apply elem_of_app; right; by left|].
    rewrite lookup_delete_ne by done. destruct (Hall x Hx) as [?|?]; [by left|right; apply elem_of_app; by left].
Qed.

Lemma sound_Unref s held h e : sound s (h :: held) → rc_heap s !! h = Some e → sound (rc_Unref s h e) held.
Proof.
  intros Hs He. pose proof Hs as [Hnd Hl Hu Hc Hr Hheld Hus Hlive Hdel Hall]. destruct (Hr h e He) as (Hr1 & Hr2 & Hw).
  unfold rc_Unref. destruct (Z.eqb_spec (lh_refs e) 1) as [E|E]; [by apply sound_delete|].
  rewrite holds_cons, decide_True in Hr2 by done. assert (0 ≤ holds held h) by (unfold holds; lia).
  set (s' := if _ : bool then _ else _).
  assert (h ∉ rc_lru s) as Hhl by (intros Hin; destruct (Hl h Hin) as (e' & He' & _ & ?); assert (e' = e) as -> by congruence; lia).
  assert (rc_cached s' ≡ₚ rc_cached s) as Hp.
  { pose proof (cached_Unref s _ h e Hs He) as Hp. unfold rc_Unref in Hp. by rewrite (proj2 (Z.eqb_neq _ _) E) in Hp. }
  assert (rc_heap s' = <[h := set_refs e (lh_refs e - 1)]> (rc_heap s)) as Hh by (unfold s'; by destruct (_ && _)).
  assert (rc_allocated s' = rc_allocated s ∧ deleted_at s' = deleted_at s ∧ rc_usage s' = rc_usage s) as (Ha & Hd & Hue)
    by (unfold s'; by destruct (_ && _)).
  assert (∀ x, x ∈ rc_lru s' → x ∈ rc_lru s ∧ x ≠ h ∨ x = h ∧ lh_in_cache e = true ∧ lh_refs e = 2) as Hlru.
  { intros x. unfold s'. destruct (lh_in_cache e && (lh_refs e =? 2)) eqn:E2; cbn [rc_set_handle rc_set_lists rc_lru].
    - apply andb_true_iff in E2 as [Ec E2]. apply Z.eqb_eq in E2.
      intros [Hx|Hx%list_elem_of_singleton]%elem_of_app; [left|by right]. split; [done|]. by intros ->.
    - intros Hx. left. split; [done|]. by intros ->. }
  assert (∀ x, x ∈ rc_used s' → x ∈ rc_used s ∧ (x = h → lh_refs e ≠ 2)) as Hused.
  { intros x. unfold s'. destruct (lh_in_cache e && (lh_refs e =? 2)) eqn:E2; cbn [rc_set_handle rc_set_lists rc_used].
    - intros [Hx ?]%elem_of_without. split; [done|]. by intros ->.
    - intros Hx. split; [done|]. intros -> E3. rewrite E3 in E2. destruct (Hu h Hx) as (e' & He' & Hce & _).
      assert (e' = e) as -> by congruence. by rewrite Hce in E2. }
  split; rewrite ?Hh, ?Ha, ?Hd, ?Hue, ?Hp; try done.
  - intros x Hx. destruct (Hlru x Hx) as [[Hx' Hne]|(-> & ? & ?)].
    + rewrite lookup_insert_ne by done. by apply Hl.
    + rewrite lookup_insert_eq. eexists. split; [done|]. cbn [set_refs lh_in_cache lh_refs]. split; [done|lia].
  - intros x Hx. destruct (Hused x Hx) as [Hx' Hne2]. destruct (decide (x = h)) as [->|Hne].
    + rewrite lookup_insert_eq. destruct (Hu h Hx') as (e' & He' & Hce & ?). assert (e' = e) as -> by congruence.
      eexists. split; [done|]. cbn [set_refs lh_in_cache lh_refs]. specialize (Hne2 eq_refl). split; [done|lia].
    + rewrite lookup_insert_ne by done. by apply Hu.
  - intros x ex Hx Hcx. rewrite Hp. destruct (decide (x = h)) as [->|Hne].
    + rewrite lookup_insert_eq in Hx. injection Hx as <-. by apply (Hc h e).
    + rewrite lookup_insert_ne in Hx by done. by apply (Hc x ex).
  - intros x ex Hx. destruct (decide (x = h)) as [->|Hne].
    + rewrite lookup_insert_eq in Hx. injection Hx as <-. cbn [set_refs lh_in_cache lh_refs lh_hash]. split_and!; (lia || done).
    + rewrite lookup_insert_ne in Hx by done. destruct (Hr x ex Hx) as (? & Hrx & ?).
      rewrite holds_cons, decide_False in Hrx by done. by rewrite Z.add_0_r in Hrx.
  - intros x Hx. destruct (decide (x = h)) as [->|Hne]; [rewrite lookup_insert_eq; by eexists|].
    rewrite lookup_insert_ne by done. apply Hheld. by right.
  - rewrite Hus. f_equal. symmetry. apply charges_ext. intros x _. unfold charge_of. destruct (decide (x = h)) as [->|Hne].
    + by rewrite lookup_insert_eq, He.
    + by rewrite lookup_insert_ne.
  - intros x ex Hx. destruct (decide (x = h)) as [->|Hne]; [by apply (Hlive h e)|]. rewrite lookup_insert_ne in Hx by done. by apply (Hlive x ex).
  - intros x Hx. destruct (Hall x Hx) as [(ex & Hex)|?]; [left|by right]. destruct (decide (x = h)) as [->|Hne].
    + rewrite lookup_insert_eq. by eexists.
    + rewrite lookup_insert_ne by done. by exists ex.
Qed.

(** An entry leaves the cache, and the reference of the cache goes. *)
Lemma sound_erase s held h e :
  sound s held → rc_heap s !! h = Some e → h ∈ rc_cached s → lh_in_cache e = true → sound (rc_erase s h e) held.
Proof.
  intros Hs He Hh Hic. unfold rc_erase. apply sound_Unref; [|apply lookup_insert_eq].
  pose proof Hs as [Hnd Hl Hu Hc Hr Hheld Hus Hlive Hdel Hall]. destruct (Hr h e He) as (Hr1 & Hr2 & Hw).
  set (s' := rc_set_usage _ _). assert (rc_cached s' = without h (rc_cached s)) as Hca by (unfold s', rc_cached; symmetry; apply without_app).
  assert (rc_heap s' = <[h := set_in_cache e false]> (rc_heap s)) as Hhp by done.
  assert (deleted_at s' = deleted_at s) as Hd by done.
  split; rewrite ?Hhp, ?Hca, ?Hd; try done.
  - by apply without_NoDup.
  - intros x [Hne Hx]%elem_of_without. rewrite lookup_insert_ne by done. by apply Hl.
  - intros x [Hne Hx]%elem_of_without. rewrite lookup_insert_ne by done. by apply Hu.
  - intros x ex Hx Hcx. destruct (decide (x = h)) as [->|Hne].
    + rewrite lookup_insert_eq in Hx. by injection Hx as <-.
    + rewrite lookup_insert_ne in Hx by done. apply elem_of_without. split; [done|by apply (Hc x ex)].
  - intros x ex Hx. rewrite holds_cons. destruct (decide (x = h)) as [->|Hne].
    + rewrite lookup_insert_eq in Hx. injection Hx as <-. cbn [set_in_cache lh_in_cache lh_refs lh_hash].
      rewrite decide_True by done. rewrite Hic in Hr2. split_and!; (lia || done).
    + rewrite lookup_insert_ne in Hx by done. rewrite decide_False by done. rewrite Z.add_0_r. by apply Hr.
  - intros x Hx. destruct (decide (x = h)) as [->|Hne]; [rewrite lookup_insert_eq; by eexists|].
    rewrite lookup_insert_ne by done. apply Hheld. by apply elem_of_cons in Hx as [?|?].
  - assert (charges (<[h := set_in_cache e false]> (rc_heap s)) (without h (rc_cached s)) =
      charges (rc_heap s) (rc_cached s) - lh_charge e) as ->.
    { rewrite (cached_without h (rc_cached s) Hnd Hh) at 2. unfold charges at 2. cbn [foldr]. fold (charges (rc_heap s) (without h (rc_cached s))).
      assert (charge_of (rc_heap s) h = lh_charge e) as -> by (unfold charge_of; by rewrite He).
      rewrite (charges_ext (rc_heap s)); [lia|]. intros x [Hne _]%elem_of_without. unfold charge_of. by rewrite lookup_insert_ne. }
    change (rc_usage s') with (u64 (rc_usage s - lh_charge e)). rewrite Hus. unfold wrap. by rewrite Zminus_mod_idemp_l.
  - intros x ex Hx. destruct (decide (x = h)) as [->|Hne]; [by apply (Hlive h e)|]. rewrite lookup_insert_ne in Hx by done. by apply (Hlive x ex).
  - intros x Hx. destruct (Hall x Hx) as [(ex & Hex)|?]; [left|by right]. destruct (decide (x = h)) as [->|Hne].
    + rewrite lookup_insert_eq. by eexists.
    + rewrite lookup_insert_ne by done. by exists ex.
Qed.

Lemma cached_erase s held h e :
  sound s held → rc_heap s !! h = Some e → h ∈ rc_cached s → rc_cached (rc_erase s h e) = without h (rc_cached s).
Proof.
  intros Hs He Hh. unfold rc_erase, rc_Unref. cbn [set_in_cache lh_refs lh_in_cache andb]. unfold rc_cached at 2. rewrite without_app.
  by destruct (lh_refs e =? 1).
Qed.

(** Keys stay unique. *)
Lemma is_key_insert hp h e e' key hash x :
  hp !! h = Some e → lh_key e' = lh_key e → lh_hash e' = lh_hash e → is_key (<[h := e']> hp) key hash x = is_key hp key hash x.
Proof.
  intros He Hk Hh. unfold is_key. destruct (decide (x = h)) as [->|Hne]; [by rewrite lookup_insert_eq, He, Hk, Hh|].
  by rewrite lookup_insert_ne.
Qed.

Lemma is_key_ne hp hp' key hash x : hp' !! x = hp !! x → is_key hp' key hash x = is_key hp key hash x.
Proof. unfold is_key. by intros ->. Qed.

Lemma unique_ext hp hp' l l' :
  keys_unique hp l → (∀ x, x ∈ l' → x ∈ l) → (∀ key hash x, x ∈ l' → is_key hp' key hash x = is_key hp key hash x) → keys_unique hp' l'.
Proof.
  intros Hu Hin Hk h1 h2 key hash H1 H2 Hk1 Hk2. rewrite Hk in Hk1, Hk2 by done. apply (Hu h1 h2 key hash); auto.
Qed.

Definition wf s (held : list nat) : Prop := sound s held ∧ keys_unique (rc_heap s) (rc_cached s).

#[global] Instance wf_proper s : Proper (Permutation ==> iff) (wf s).
Proof. intros l l' Hp. unfold wf. by rewrite Hp. Qed.

Lemma wf_Ref s held h e : wf s held → rc_heap s !! h = Some e → wf (rc_Ref s h e) (h :: held).
Proof.
  intros [Hs Hu] He. split; [by apply sound_Ref|]. rewrite (cached_Ref s held h e Hs He).
  apply (unique_ext _ _ _ _ Hu); [done|]. intros key hash x _.
  assert (rc_heap (rc_Ref s h e) = <[h := set_refs e (lh_refs e + 1)]> (rc_heap s)) as -> by (unfold rc_Ref; by destruct (_ && _)).
  by apply is_key_insert with e.
Qed.

Lemma is_key_Unref s h e key hash x :
  rc_heap s !! h = Some e → (lh_refs e = 1 → x ≠ h) → is_key (rc_heap (rc_Unref s h e)) key hash x = is_key (rc_heap s) key hash x.
Proof.
  intros He Hx. unfold rc_Unref. destruct (Z.eqb_spec (lh_refs e) 1) as [E|E].
  - apply is_key_ne. cbn. rewrite lookup_delete_ne; [done|]. intros <-. by apply Hx.
  - transitivity (is_key (<[h := set_refs e (lh_refs e - 1)]> (rc_heap s)) key hash x); [by destruct (_ && _)|]. by apply is_key_insert with e.
Qed.

Lemma wf_Unref s held h e : wf s (h :: held) → rc_heap s !! h = Some e → wf (rc_Unref s h e) held.
Proof.
  intros [Hs Hu] He. split; [by apply sound_Unref|]. rewrite (cached_Unref s _ h e Hs He).
  apply (unique_ext _ _ _ _ Hu); [done|]. intros key hash x Hx. apply is_key_Unref; [done|]. intros E ->.
  destruct (sound_delete s held h e Hs He E) as [Hic _]. by eapply sound_not_cached.
Qed.

Lemma wf_erase s held h e :
  sound s held → keys_unique (rc_heap s) (without h (rc_cached s)) → rc_heap s !! h = Some e → h ∈ rc_cached s → lh_in_cache e = true →
  wf (rc_erase s h e) held.
Proof.
  intros Hs Hu He Hh Hic. split; [by apply sound_erase|]. rewrite (cached_erase s held h e Hs He Hh).
  apply (unique_ext _ _ _ _ Hu); [done|]. intros key hash x [Hne _]%elem_of_without. unfold rc_erase.
  rewrite is_key_Unref; [|apply lookup_insert_eq|done]. cbn [rc_set_usage rc_set_handle rc_set_lists rc_heap].
  by apply is_key_insert with e.
Qed.

Lemma unique_without hp h l : keys_unique hp l → keys_unique hp (without h l).
Proof. intros Hu. apply (unique_ext _ _ _ _ Hu); [|done]. by intros x [_ ?]%elem_of_without. Qed.

(** There are no more handles than were allocated. *)
Lemma wf_live s held : sound s held → live (rc_heap s) (rc_cached s).
Proof.
  intros Hs x Hx. destruct (sound_cached_live s held x Hs Hx) as (e & He & _). exists e. split; [done|].
  by destruct (sound_refs _ _ Hs x e He) as (_ & _ & ?).
Qed.

End invariant.

(** ** The operations *)

Section operations.
Context {V : Type}.
Implicit Types (c : LRUCache V) (s : RefCache V).

Definition implements c s : Prop := represents c s (rc_cached s).

#[global] Instance represents_proper c s : Proper (Permutation ==> iff) (represents c s).
Proof.
  intros l l' Hp. split; intros [? ? ? ? ? ? ? ? (chains & Ht)]; split; try done; exists chains.
  - by apply (table_ok_proper _ _ _ _ _ Hp chains).
  - by apply (table_ok_proper _ _ _ _ _ Hp chains).
Qed.

Lemma Lookup_ok c s held key hash :
  implements c s → wf s held → in_width 32 hash → len held < 2 ^ 32 - 2 →
  ∃ c', LRUCache_Lookup c key hash = Ok ((rc_Lookup s key hash).1, c') ∧ implements c' (rc_Lookup s key hash).2 ∧
    wf (rc_Lookup s key hash).2 (match (rc_Lookup s key hash).1 with Some h => h :: held | None => held end).
Proof.
  intros Hc [Hs Hu] Hhash Hheld. destruct (repr_table _ _ _ Hc) as (chains & Ht). unfold LRUCache_Lookup, rc_Lookup, rc_find.
  pose proof (repr_heap _ _ _ Hc) as Hh. rewrite (HandleTable_Lookup_ok c key hash (rc_cached s) chains Ht); rewrite ?Hh;
    [|apply Hs|by eapply wf_live|apply (repr_no_loop _ _ _ Hc)|done|done].
  cbn [mbind outcome_bind fst snd]. destruct (find_key (rc_heap s) key hash (rc_cached s)) as [h|] eqn:E; cbn [rc_with]; [|by exists c].
  apply find_key_some in E as [Hin _]. destruct (sound_cached_live s held h Hs Hin) as (e & He & Hic). rewrite He.
  destruct (sound_refs _ _ Hs h e He) as (Hr1 & Hr2 & _). pose proof (holds_le held h). rewrite Hic in Hr2.
  destruct (Ref_ok c s (rc_cached s) h e Hc He) as (c' & -> & Hc').
  - apply Hs.
  - lia.
  - intros E _. apply elem_of_app in Hin as [?|Hin]; [done|]. destruct (sound_used _ _ Hs h Hin) as (e' & He' & _ & ?).
    assert (e' = e) as -> by congruence. lia.
  - cbn [mbind outcome_bind]. exists c'. split; [done|]. split; [|by apply wf_Ref]. unfold implements.
    by rewrite (cached_Ref s held h e Hs He).
Qed.

Lemma Release_ok c s held h :
  implements c s → wf s (h :: held) →
  ∃ c', LRUCache_Release c h = Ok c' ∧ implements c' (rc_Release s h) ∧ wf (rc_Release s h) held.
Proof.
  intros Hc [Hs Hu]. destruct (sound_held _ _ Hs h) as (e & He); [by left|]. unfold LRUCache_Release, rc_Release. cbn [rc_with]. rewrite He.
  destruct (sound_refs _ _ Hs h e He) as (Hr1 & Hr2 & _). rewrite holds_cons, decide_True in Hr2 by done.
  assert (0 ≤ holds held h) by (unfold holds; lia).
  destruct (Unref_ok c s (rc_cached s) h e Hc He) as (c' & -> & Hc'); [lia|apply Hs| |].
  - destruct (lh_in_cache e) eqn:Hic; [|split; by eapply sound_not_cached]. split; [lia|].
    pose proof (sound_cached _ _ Hs h e He Hic) as Hin. apply elem_of_app in Hin as [Hin|?]; [|done].
    destruct (sound_lru _ _ Hs h Hin) as (e' & He' & _ & ?). assert (e' = e) as -> by congruence. lia.
  - exists c'. split; [done|]. split; [|by apply wf_Unref]. unfold implements. by rewrite (cached_Unref s _ h e Hs He).
Qed.

(** Erasing leaves no more entries than there were. *)
Lemma erase_length s h e : (length (rc_cached (rc_erase s h e)) ≤ length (rc_cached s))%nat.
Proof.
  assert (rc_cached (rc_erase s h e) = without h (rc_cached s)) as ->; [|apply length_filter].
  unfold rc_erase, rc_Unref, rc_cached at 2. cbn [set_in_cache lh_refs lh_in_cache andb]. rewrite without_app. by destruct (lh_refs e =? 1).
Qed.

Lemma with_erase_length s o : (length (rc_cached (rc_with s o (rc_erase s))) ≤ length (rc_cached s))%nat.
Proof. destruct o as [h|]; cbn [rc_with]; [|done]. destruct (rc_heap s !! h); [apply erase_length|done]. Qed.

Lemma evict_length full lru s : (length (rc_cached (rc_evict full lru s)) ≤ length (rc_cached s))%nat.
Proof.
  revert s. induction lru as [|h lru IH]; intros s; cbn [rc_evict]; [done|]. destruct (_ || _); [|done].
  etransitivity; [apply IH|apply with_erase_length].
Qed.

(** An entry is taken out of the table and leaves the cache. *)
Lemma remove_and_erase c s held key hash :
  implements c s → wf s held → in_width 32 hash → len (rc_cached s) < 2 ^ 31 →
  ∃ r c1 b c2, HandleTable_Remove c key hash = Ok (r, c1) ∧ r = rc_find s key hash ∧
    FinishErase c1 r = Ok (b, c2) ∧ b = bool_decide (r ≠ None) ∧ implements c2 (rc_Erase s key hash) ∧ wf (rc_Erase s key hash) held.
Proof.
  intros Hc [Hs Hu] Hhash Hsmall. destruct (repr_table _ _ _ Hc) as (chains & Ht). pose proof (repr_heap _ _ _ Hc) as Hh.
  destruct (HandleTable_Remove_ok c key hash (rc_cached s) chains Ht) as (nh & t & tab & chains' & E & Ht' & Htab); rewrite ?Hh in *;
    [apply Hs|by eapply wf_live|apply (repr_no_loop _ _ _ Hc)|done|done|lia|].
  assert (represents (set_table c nh t) s tab) as Hc1.
  { destruct Hc. split; try done. exists chains'. cbn [set_table heap table_ next_hash_of]. by rewrite Hh. }
  unfold rc_Erase, rc_find. destruct (find_key (rc_heap s) key hash (rc_cached s)) as [h|] eqn:Ef.
  - apply find_key_some in Ef as [Hin _]. destruct (sound_cached_live s held h Hs Hin) as (e & He & Hic). cbn [rc_with]. rewrite He.
    destruct (sound_refs _ _ Hs h e He) as (Hr1 & _ & _).
    assert (NoDup (h :: tab)) as Hnd by (rewrite <- Htab; apply Hs). apply NoDup_cons in Hnd as [Hnt _].
    destruct (FinishErase_ok _ s tab h e Hc1 He) as (c2 & E2 & Hc2); [apply Hs|done|done|done|lia|].
    eexists _, _, _, c2. split; [exact E|]. split; [done|]. split; [exact E2|]. split; [done|]. split.
    + unfold implements. rewrite (cached_erase s held h e Hs He Hin).
      assert (tab ≡ₚ without h (rc_cached s)) as Hp; [|by rewrite <- Hp].
      apply (Permutation_cons_inv (a := h)). rewrite <- Htab. apply cached_without; [apply Hs|done].
    + apply wf_erase; try done. by apply unique_without.
  - subst tab. eexists _, _, _, _. split; [exact E|]. split; [done|]. split; [reflexivity|]. cbn [rc_with].
    split; [by rewrite bool_decide_false by (intros []; done)|]. by split.
Qed.

Lemma Erase_ok c s held key hash :
  implements c s → wf s held → in_width 32 hash → len (rc_cached s) < 2 ^ 31 →
  ∃ c', LRUCache_Erase c key hash = Ok c' ∧ implements c' (rc_Erase s key hash) ∧ wf (rc_Erase s key hash) held.
Proof.
  intros Hc Hwf Hhash Hsmall.
  destruct (remove_and_erase c s held key hash Hc Hwf Hhash Hsmall) as (r & c1 & b & c2 & E1 & -> & E2 & _ & Hc2 & Hwf2).
  unfold LRUCache_Erase. rewrite E1. cbn [mbind outcome_bind fst snd]. rewrite E2. cbn [mbind outcome_bind fst snd]. by exists c2.
Qed.

(** *** Eviction *)

Lemma is_key_self s h e : rc_heap s !! h = Some e → is_key (rc_heap s) (lh_key e) (lh_hash e) h = true.
Proof. intros He. unfold is_key. rewrite He, Z.eqb_refl. by rewrite bool_decide_true. Qed.

(** The oldest unused entry is deleted at once. *)
Lemma erase_oldest s held h l :
  sound s held → rc_lru s = h :: l →
  rc_lru (rc_with s (Some h) (rc_erase s)) = l ∧ ∃ e, rc_heap s !! h = Some e ∧ rc_heap (rc_erase s h e) = delete h (rc_heap s) ∧
    rc_deleted (rc_erase s h e) = rc_deleted s ++ [(h, lh_key e, lh_value e)].
Proof.
  intros Hs Hl. destruct (sound_lru _ _ Hs h) as (e & He & Hic & Hr1); [rewrite Hl; by left|].
  cbn [rc_with]. rewrite He. unfold rc_erase, rc_Unref. cbn [set_in_cache lh_refs]. rewrite Hr1.
  cbn [Z.eqb Pos.eqb rc_delete rc_set_usage rc_set_handle rc_set_lists rc_lru rc_heap rc_deleted]. rewrite Hl.
  pose proof (sound_nodup _ _ Hs) as Hnd. destruct (NoDup_lists s Hnd) as (Hndl & _ & _). rewrite Hl in Hndl.
  split; [exact (without_middle h [] l Hndl)|]. exists e. rewrite Hr1. cbn. by rewrite delete_insert_eq.
Qed.

Lemma evict_oldest_ok c s held h l :
  implements c s → wf s held → len (rc_cached s) < 2 ^ 31 → rc_lru s = h :: l →
  ∃ c', evict_oldest c (At h) = Ok c' ∧ implements c' (rc_with s (Some h) (rc_erase s)) ∧ wf (rc_with s (Some h) (rc_erase s)) held ∧
    rc_lru (rc_with s (Some h) (rc_erase s)) = l.
Proof.
  intros Hc Hwf Hsmall Hl. pose proof Hwf as [Hs Hu]. destruct (sound_lru _ _ Hs h) as (e & He & Hic & Hr1); [rewrite Hl; by left|].
  assert (h ∈ rc_cached s) as Hin by (unfold rc_cached; rewrite Hl; by left).
  destruct (sound_refs _ _ Hs h e He) as (_ & _ & Hw).
  destruct (remove_and_erase c s held (lh_key e) (lh_hash e) Hc Hwf Hw Hsmall) as (r & c1 & b & c2 & E1 & Hr & E2 & Hb & Hc2 & Hwf2).
  assert (rc_find s (lh_key e) (lh_hash e) = Some h) as Hf by (apply find_key_unique; [done|done|by apply is_key_self]).
  rewrite Hf in Hr. subst r. unfold rc_Erase in Hc2, Hwf2. rewrite Hf in Hc2, Hwf2.
  unfold evict_oldest. rewrite (repr_get _ _ _ _ _ Hc He). cbn [mbind outcome_bind]. rewrite Hr1. cbn [Z.eqb Pos.eqb require mbind outcome_bind].
  rewrite (handle_key_ok c h e); [|apply (repr_no_loop _ _ _ Hc)|by rewrite (repr_heap _ _ _ Hc)]. cbn [mbind outcome_bind].
  rewrite E1. cbn [mbind outcome_bind fst snd]. rewrite E2. cbn [mbind outcome_bind fst snd]. rewrite bool_decide_true in Hb by done. subst b.
  cbn [require mbind outcome_bind]. exists c2. split; [done|]. split; [done|]. split; [done|].
  apply (erase_oldest s held h l Hs Hl).
Qed.

Lemma evict_loop_ok full fuel c s held :
  implements c s → wf s held → len (rc_cached s) < 2 ^ 31 → (length (rc_lru s) < fuel)%nat →
  ∃ c', evict_loop fuel full c = Ok c' ∧ implements c' (rc_evict full (rc_lru s) s) ∧ wf (rc_evict full (rc_lru s) s) held.
Proof.
  revert c s. induction fuel as [|fuel IH]; intros c s Hc Hwf Hsmall Hf; [lia|]. cbn [evict_loop].
  rewrite (repr_capacity _ _ _ Hc), (repr_usage _ _ _ Hc). unfold get_next. rewrite (ring_first _ _ _ _ (repr_lru _ _ _ Hc)).
  destruct (rc_lru s) as [|h l] eqn:El; cbn [rc_evict].
  - exists c. split; [|done]. destruct (_ || _); [|done]. cbn [mbind outcome_bind]. by rewrite decide_True.
  - destruct (negb full || (rc_capacity s <? rc_usage s)); [|by exists c]. cbn [mbind outcome_bind]. rewrite decide_False by done.
    destruct (evict_oldest_ok c s held h l Hc Hwf Hsmall El) as (c1 & -> & Hc1 & Hwf1 & Hl1). cbn [mbind outcome_bind].
    rewrite <- Hl1. apply IH; [done|done| |].
    + pose proof (with_erase_length s (Some h)). lia.
    + rewrite Hl1. cbn [length] in Hf. lia.
Qed.

(** The fuel is enough. *)
Lemma evict_fuel c s held tab : represents c s tab → sound s held → (length (rc_lru s) < chain_fuel c)%nat.
Proof.
  intros Hc Hs. unfold chain_fuel. rewrite (repr_heap _ _ _ Hc).
  pose proof (live_size (rc_heap s) (rc_cached s) (sound_nodup _ _ Hs) (wf_live s held Hs)) as Hl.
  unfold rc_cached in Hl. rewrite length_app in Hl. lia.
Qed.

Lemma Prune_ok c s held :
  implements c s → wf s held → len (rc_cached s) < 2 ^ 31 →
  ∃ c', LRUCache_Prune c = Ok c' ∧ implements c' (rc_Prune s) ∧ wf (rc_Prune s) held.
Proof. intros Hc Hwf Hsmall. apply evict_loop_ok; [done|done|done|]. eapply evict_fuel; [exact Hc|apply Hwf]. Qed.

(** *** Insertion *)

(** The entry is in the list and has its references, but the old one of its key is still
    in the cache too. *)
Definition rc_add s (key : Slice) (hash : Z) (value : V) (charge : Z) : RefCache V :=
  let h := rc_allocated s in
  let cached := 0 <? rc_capacity s in
  let e := {| lh_value := value; lh_charge := charge; lh_key := key; lh_in_cache := cached;
              lh_refs := if cached then 2 else 1; lh_hash := hash |} in
  {| rc_capacity := rc_capacity s; rc_usage := if cached then u64 (rc_usage s + charge) else rc_usage s;
     rc_lru := rc_lru s; rc_used := if cached then rc_used s ++ [h] else rc_used s;
     rc_heap := <[h := e]> (rc_heap s); rc_allocated := S h; rc_deleted := rc_deleted s |}.

Lemma sound_fresh s held : sound s held → rc_heap s !! rc_allocated s = None ∧ (rc_allocated s ∉ held) ∧ rc_allocated s ∉ deleted_at s.
Proof.
  intros Hs. assert (rc_heap s !! rc_allocated s = None) as Hn.
  { destruct (rc_heap s !! rc_allocated s) as [e|] eqn:E; [|done]. destruct (sound_live _ _ Hs _ _ E). lia. }
  split; [done|]. split.
  - intros Hin. destruct (sound_held _ _ Hs _ Hin) as (e & He). congruence.
  - intros Hin. apply (proj2 (sound_deleted _ _ Hs)) in Hin. lia.
Qed.

Lemma sound_add s held key hash value charge :
  sound s held → in_width 32 hash → sound (rc_add s key hash value charge) (rc_allocated s :: held).
Proof.
  intros Hs Hhash. destruct (sound_fresh s held Hs) as (Hfree & Hnh & Hnd'). set (h := rc_allocated s) in *.
  pose proof Hs as [Hnd Hl Hu Hc Hr Hheld Hus Hlive [Hdel Hdel'] Hall].
  assert (holds held h = 0) as Hh0.
  { destruct (decide (0 < holds held h)) as [Hp|]; [by apply holds_pos in Hp|]. unfold holds in *. lia. }
  assert (h ∉ rc_cached s) as Hnc.
  { intros Hin. destruct (sound_cached_live s held h Hs Hin) as (e & He & _). congruence. }
  set (s' := rc_add s key hash value charge). assert (deleted_at s' = deleted_at s) as Hd by done.
  assert (rc_cached s' = if 0 <? rc_capacity s then rc_cached s ++ [h] else rc_cached s) as Hca.
  { unfold s', rc_add, rc_cached. cbn. destruct (0 <? rc_capacity s); [by rewrite app_assoc|done]. }
  assert (∃ e, rc_heap s' = <[h := e]> (rc_heap s) ∧ lh_in_cache e = (0 <? rc_capacity s) ∧
    lh_refs e = (if 0 <? rc_capacity s then 2 else 1) ∧ lh_hash e = hash ∧ lh_charge e = charge) as (e & Hhp & Hic & Hre & Hha & Hch) by by eexists.
  assert (rc_allocated s' = S h) as Ha by done. assert (rc_lru s' = rc_lru s) as Hlru by done.
  assert (∀ x, x ∈ rc_cached s → x ≠ h) as Hne by (by intros x Hx ->).
  split; rewrite ?Hhp, ?Hd, ?Ha, ?Hlru; try done.
  - rewrite Hca. destruct (0 <? rc_capacity s); [|done]. rewrite <- Permutation_cons_append. by apply NoDup_cons.
  - intros x Hx. rewrite lookup_insert_ne; [by apply Hl|]. symmetry. apply Hne, elem_of_app. by left.
  - intros x Hx. unfold s', rc_add in Hx. cbn [rc_used] in Hx. fold h in Hx. destruct (0 <? rc_capacity s) eqn:E.
    + apply elem_of_app in Hx as [Hx|Hx%list_elem_of_singleton].
      * rewrite lookup_insert_ne; [by apply Hu|]. symmetry. apply Hne, elem_of_app. by right.
      * subst x. rewrite lookup_insert_eq. exists e. split_and!; [done|done|lia].
    + rewrite lookup_insert_ne; [by apply Hu|]. symmetry. apply Hne, elem_of_app. by right.
  - intros x ex Hx Hcx. rewrite Hca. destruct (decide (x = h)) as [->|Hxh].
    + rewrite lookup_insert_eq in Hx. injection Hx as <-. rewrite <- Hic, Hcx. apply elem_of_app. right. by left.
    + rewrite lookup_insert_ne in Hx by done. pose proof (Hc x ex Hx Hcx). destruct (0 <? rc_capacity s); [apply elem_of_app; by left|done].
  - intros x ex Hx. rewrite holds_cons. destruct (decide (x = h)) as [->|Hxh].
    + rewrite lookup_insert_eq in Hx. injection Hx as <-. rewrite decide_True, Hh0, Hre, Hic, Hha by done. destruct (0 <? rc_capacity s); (split_and!; (lia || done)).
    + rewrite lookup_insert_ne in Hx by done. rewrite decide_False by done. rewrite Z.add_0_r. by apply Hr.
  - intros x Hx. destruct (decide (x = h)) as [->|Hxh]; [rewrite lookup_insert_eq; by eexists|].
    rewrite lookup_insert_ne by done. apply Hheld. by apply elem_of_cons in Hx as [?|?].
  - assert (charges (<[h := e]> (rc_heap s)) (rc_cached s) = charges (rc_heap s) (rc_cached s)) as Hcs.
    { apply charges_ext. intros x Hx. unfold charge_of. rewrite lookup_insert_ne; [done|]. symmetry. by apply Hne. }
    rewrite Hca. unfold s', rc_add. cbn [rc_usage]. destruct (0 <? rc_capacity s); [|by rewrite Hcs].
    rewrite <- Permutation_cons_append. unfold charges. cbn [foldr]. fold (charges (<[h := e]> (rc_heap s)) (rc_cached s)).
    rewrite Hcs, Hus. unfold charge_of. rewrite lookup_insert_eq, Hch. unfold wrap. rewrite Zplus_mod_idemp_l. f_equal. lia.
  - intros x ex Hx. destruct (decide (x = h)) as [->|Hxh]; [split; [lia|done]|]. rewrite lookup_insert_ne in Hx by done.
    destruct (Hlive x ex Hx). split; [lia|done].
  - split; [done|]. intros x Hx. apply Hdel' in Hx. lia.
  - intros x Hx. destruct (decide (x = h)) as [->|Hxh]; [left; rewrite lookup_insert_eq; by eexists|].
    rewrite lookup_insert_ne by done. apply Hall. lia.
Qed.

Lemma find_key_ext (hp hp' : gmap nat (LRUHandle V)) key hash l :
  (∀ x, x ∈ l → hp' !! x = hp !! x) → find_key hp' key hash l = find_key hp key hash l.
Proof.
  intros Hx. unfold find_key. f_equal.
  induction l as [|x l IH]; [done|]. rewrite !filter_cons, (is_key_ne hp hp' key hash x) by (apply Hx; by left).
  rewrite IH by (intros y Hy; apply Hx; by right). done.
Qed.

Lemma cached_add s held key hash value charge :
  sound s held → rc_cached (rc_add s key hash value charge) ≡ₚ
    (if 0 <? rc_capacity s then rc_allocated s :: rc_cached s else rc_cached s).
Proof.
  intros Hs. unfold rc_cached, rc_add. cbn. destruct (0 <? rc_capacity s); [|done]. by rewrite app_assoc, <- Permutation_cons_append.
Qed.

Lemma add_length s key hash value charge o :
  let s1 := rc_add s key hash value charge in
  (length (rc_cached (rc_with s1 o (rc_erase s1))) ≤ S (length (rc_cached s)))%nat.
Proof.
  intros s1. etransitivity; [apply with_erase_length|]. unfold s1, rc_add, rc_cached. cbn [rc_lru rc_used].
  destruct (0 <? rc_capacity s); rewrite !length_app; cbn [length]; lia.
Qed.

Lemma cached_ne s held x : sound s held → x ∈ rc_cached s → rc_allocated s ≠ x.
Proof.
  intros Hs Hx <-. destruct (sound_fresh s held Hs) as (Hfree & _ & _).
  destruct (sound_cached_live s held _ Hs Hx) as (e & He & _). congruence.
Qed.

Lemma heap_add s held key hash value charge x :
  sound s held → x ∈ rc_cached s → rc_heap (rc_add s key hash value charge) !! x = rc_heap s !! x.
Proof.
  intros Hs Hx. apply lookup_insert_ne. by eapply cached_ne.
Qed.

(** In a cache with room for nothing the handle is only that of the caller. *)
Lemma add_uncached c s held key hash value charge :
  implements c s → wf s held → in_width 32 hash → (0 <? rc_capacity s) = false →
  implements (new_handle c key hash value charge).2 (rc_add s key hash value charge).
Proof.
  intros Hc [Hs Hu] Hhash Hcap. pose proof (cached_add s held key hash value charge Hs) as Hca. rewrite Hcap in Hca.
  unfold implements. rewrite Hca. destruct Hc as [H1 H2 H3 H4 H5 Hl Huu Hloop (chains & Ht)].
  split; cbn [new_handle snd capacity_ usage_ heap allocated deleted next_of prev_of next_hash_of table_ rc_add rc_capacity
    rc_usage rc_heap rc_allocated rc_deleted rc_lru rc_used]; rewrite ?Hcap, ?H3, ?H4; try done.
  exists chains. apply (table_ok_heap _ _ _ _ _ _ Ht). intros x e' Hx Hx'.
  rewrite lookup_insert_ne in Hx' by (by eapply cached_ne). exists e'. by rewrite H3.
Qed.

Lemma unique_cons (hp : gmap nat (LRUHandle V)) h e l :
  keys_unique hp l → hp !! h = Some e → (∀ x, x ∈ l → is_key hp (lh_key e) (lh_hash e) x = false) → keys_unique hp (h :: l).
Proof.
  intros Hu He Hno.
  assert (∀ key hash, is_key hp key hash h = true → key = lh_key e ∧ hash = lh_hash e) as Hself.
  { intros key hash Hk. unfold is_key in Hk. rewrite He in Hk. apply andb_true_iff in Hk as [E1 E2].
    apply Z.eqb_eq in E1. by apply bool_decide_eq_true in E2. }
  intros h1 h2 key hash Hh1 Hh2 Hk1 Hk2. apply elem_of_cons in Hh1 as [->|Hh1], Hh2 as [->|Hh2]; [done| | |by eapply Hu].
  - destruct (Hself _ _ Hk1) as [-> ->]. rewrite Hno in Hk2 by done. done.
  - destruct (Hself _ _ Hk2) as [-> ->]. rewrite Hno in Hk1 by done. done.
Qed.

(** After the insertion keys are unique again. *)
Lemma wf_add s held key hash value charge :
  wf s held → in_width 32 hash →
  let s1 := rc_add s key hash value charge in
  wf (rc_with s1 (if 0 <? rc_capacity s then rc_find s key hash else None) (rc_erase s1)) (rc_allocated s :: held).
Proof.
  intros [Hs Hu] Hhash s1. pose proof (sound_add s held key hash value charge Hs Hhash) as Hs1. fold s1 in Hs1.
  pose proof (cached_add s held key hash value charge Hs) as Hca. fold s1 in Hca.
  assert (∀ x, x ∈ rc_cached s → rc_heap s1 !! x = rc_heap s !! x) as Hsame by (intros x; by apply heap_add with held).
  assert (keys_unique (rc_heap s1) (rc_cached s)) as Hu1.
  { apply (unique_ext _ _ _ _ Hu); [done|]. intros k hs x Hx. by apply is_key_ne, Hsame. }
  destruct (0 <? rc_capacity s) eqn:Ecap; [|cbn [rc_with]; split; [done|by rewrite Hca]].
  assert (∃ e, rc_heap s1 !! rc_allocated s = Some e ∧ lh_key e = key ∧ lh_hash e = hash) as (e & He & Hk & Hh).
  { eexists. split; [apply lookup_insert_eq|done]. }
  destruct (rc_find s key hash) as [o|] eqn:Ef; cbn [rc_with].
  - pose proof Ef as [Hin Hko]%find_key_some. destruct (sound_cached_live s held o Hs Hin) as (eo & Heo & Hico).
    rewrite <- (Hsame o Hin) in Heo. rewrite Heo. apply wf_erase; [done| |done|by rewrite Hca; right|done].
    assert (o ≠ rc_allocated s) as Hne.
    { intros ->. destruct (sound_fresh s held Hs) as (Hfree & _ & _). rewrite Hsame, Hfree in Heo by done. done. }
    assert (without o (rc_cached s1) ≡ₚ rc_allocated s :: without o (rc_cached s)) as ->.
    { apply (Permutation_cons_inv (a := o)). rewrite <- cached_without by (apply Hs1 || by rewrite Hca; right). rewrite Hca, perm_swap.
      by rewrite <- cached_without by (done || apply Hs). }
    apply unique_cons with e; [by apply unique_without|done|]. rewrite Hk, Hh. intros x [Hxo Hx]%elem_of_without.
    destruct (is_key (rc_heap s1) key hash x) eqn:Ek; [|done]. destruct Hxo. apply (Hu1 x o key hash); try done.
    by rewrite (is_key_ne (rc_heap s)) by (by apply Hsame).
  - split; [done|]. rewrite Hca. apply unique_cons with e; [done|done|]. rewrite Hk, Hh. intros x Hx.
    rewrite (is_key_ne (rc_heap s)) by (by apply Hsame). by eapply find_key_none.
Qed.

(** Otherwise it takes the place of the entry of its key. *)
Lemma add_cached c s held key hash value charge :
  implements c s → wf s held → in_width 32 hash → 0 < rc_capacity s → len (rc_cached s) < 2 ^ 31 - 1 →
  let c0 := (new_handle c key hash value charge).2 in
  let h := rc_allocated s in
  let s1 := rc_add s key hash value charge in
  ∃ c', (e ← get_handle c0 h;
         let c := set_handle c0 h (set_in_cache (set_refs e (u32 (lh_refs e + 1))) true) in
         c ← LRU_Append c InUse (At h);
         let c := set_usage c (u64 (usage_ c + charge)) in
         r ← HandleTable_Insert c h;
         r ← FinishErase r.2 r.1;
         Ok r.2) = Ok c' ∧
    implements c' (rc_with s1 (rc_find s key hash) (rc_erase s1)).
Proof.
  intros Hc [Hs Hu] Hhash Hcap Hsmall c0 h s1. destruct (sound_fresh s held Hs) as (Hfree & _ & _). fold h in Hfree.
  assert (∀ x, x ∈ rc_cached s → x ≠ h) as Hne.
  { intros x Hx ->. destruct (sound_cached_live s held _ Hs Hx) as (e & He & _). congruence. }
  assert (h ∉ rc_cached s) as Hnc by (intros Hin; by apply (Hne h)).
  pose proof (proj2 (Z.ltb_lt _ _) Hcap) as Hcapb. pose proof (sound_add s held key hash value charge Hs Hhash) as Hs1. fold s1 h in Hs1.
  pose proof Hc as [H1 H2 H3 H4 H5 Hl Huu Hloop (chains & Ht)].
  set (e := {| lh_value := value; lh_charge := charge; lh_key := key; lh_in_cache := true; lh_refs := 2; lh_hash := hash |}).
  set (sA := {| rc_capacity := rc_capacity s; rc_usage := rc_usage s; rc_lru := rc_lru s; rc_used := rc_used s;
    rc_heap := <[h := e]> (rc_heap s); rc_allocated := S h; rc_deleted := rc_deleted s |}).
  assert (get_handle c0 h = Ok {| lh_value := value; lh_charge := charge; lh_key := key; lh_in_cache := false; lh_refs := 1; lh_hash := hash |}) as ->.
  { unfold get_handle. cbn [c0 new_handle snd heap]. rewrite H4. fold h. by rewrite lookup_insert_eq. }
  cbn [mbind outcome_bind]. change (set_in_cache _ true) with e. set (c1 := set_handle c0 h e).
  assert (∀ x, x ∈ rc_cached s → rc_heap sA !! x = rc_heap s !! x) as Hsame.
  { intros x Hx. apply lookup_insert_ne. symmetry. by apply Hne. }
  assert (represents c1 sA (rc_cached s)) as Hc1.
  { split; cbn [c1 c0 set_handle new_handle snd capacity_ usage_ heap allocated deleted next_of prev_of next_hash_of table_ sA
      rc_capacity rc_usage rc_heap rc_allocated rc_deleted rc_lru rc_used]; rewrite ?H3, ?H4; try done; [by rewrite insert_insert_eq|].
    exists chains. apply (table_ok_heap _ _ _ _ _ _ Ht). intros x e' Hx Hx'. fold h in Hx'.
    rewrite !lookup_insert_ne in Hx' by (symmetry; by apply Hne). exists e'. by rewrite H3. }
  destruct (repr_append_used c1 sA (rc_cached s) h Hc1) as (n & p & -> & Hc2); [apply Hs|done|]. cbn [mbind outcome_bind].
  apply (repr_set_usage _ _ _ (u64 (rc_usage s + charge))) in Hc2.
  change (usage_ (set_links c1 n p)) with (usage_ c). rewrite H2. set (c2 := set_usage (set_links c1 n p) _) in *.
  assert (rc_set_usage (rc_set_lists sA (rc_lru sA) (rc_used sA ++ [h])) (u64 (rc_usage s + charge)) = s1) as E1
    by (unfold s1, rc_add, sA; cbn; by rewrite Hcapb).
  rewrite E1 in Hc2. pose proof (repr_table _ _ _ Hc2) as (chains2 & Ht2). pose proof (repr_heap _ _ _ Hc2) as Hh2.
  assert (rc_heap s1 = rc_heap sA) as Hh1 by (by rewrite <- E1).
  assert (rc_heap s1 !! h = Some e) as He by (rewrite Hh1; apply lookup_insert_eq).
  assert (keys_unique (rc_heap s1) (rc_cached s)) as Hu1.
  { apply (unique_ext _ _ _ _ Hu); [done|]. intros k hs x Hx. apply is_key_ne. by rewrite Hh1, Hsame. }
  assert (find_key (rc_heap s1) key hash (rc_cached s) = rc_find s key hash) as Hfind.
  { apply find_key_ext. intros x Hx. by rewrite Hh1, Hsame. }
  assert (rc_cached s1 ≡ₚ h :: rc_cached s) as Hca.
  { rewrite <- E1. unfold rc_cached. cbn. by rewrite app_assoc, <- Permutation_cons_append. }
  destruct (HandleTable_Insert_ok c2 h e (rc_cached s) chains2) as (nh & t & rest & chains3 & E2 & Ht3 & Hold); rewrite ?Hh2 in *;
    [done|done|done|done|apply Hs| |apply (repr_no_loop _ _ _ Hc2)|done|lia|].
  { intros x Hx. rewrite Hh1, Hsame by done. by eapply wf_live. }
  change (lh_key e) with key in *. change (lh_hash e) with hash in *. rewrite Hfind in E2, Hold. rewrite E2. cbn [mbind outcome_bind fst snd].
  assert (represents (set_table c2 nh t) s1 (h :: rest)) as Hc3.
  { destruct Hc2. split; try done. exists chains3. cbn [set_table heap table_ next_hash_of]. by rewrite Hh2. }
  destruct (rc_find s key hash) as [o|] eqn:Ef.
  - pose proof Ef as [Hin Hko]%find_key_some. destruct (sound_cached_live s held o Hs Hin) as (eo & Heo & Hico).
    assert (rc_heap s1 !! o = Some eo) as Heo1 by (by rewrite Hh1, Hsame).
    assert (NoDup (o :: rest)) as Hnd by (rewrite <- Hold; apply Hs). apply NoDup_cons in Hnd as [Hno Hndr].
    assert (o ∈ rc_cached s1) as Hin1 by (rewrite Hca; by right).
    assert (without o (rc_cached s1) ≡ₚ h :: rest) as Hwo.
    { apply (Permutation_cons_inv (a := o)). rewrite <- cached_without by (done || apply Hs1). rewrite Hca, Hold. apply perm_swap. }
    destruct (sound_refs _ _ Hs1 o eo Heo1) as (Hr1 & _ & _).
    destruct (FinishErase_ok _ s1 (h :: rest) o eo Hc3 Heo1) as (c4 & -> & Hc4); [apply Hs1|done| |done|lia|].
    { apply not_elem_of_cons. split; [by apply Hne|done]. }
    cbn [mbind outcome_bind fst snd rc_with]. rewrite Heo1. exists c4. split; [done|].
    unfold implements. rewrite (cached_erase s1 _ o eo Hs1 Heo1 Hin1). by rewrite Hwo.
  - subst rest. cbn [FinishErase mbind outcome_bind fst snd rc_with]. eexists. split; [reflexivity|].
    unfold implements. by rewrite Hca.
Qed.

Lemma LRUCache_Insert_ok c s held key hash value charge :
  implements c s → wf s held → in_width 32 hash → len (rc_cached s) < 2 ^ 31 - 1 →
  ∃ c', LRUCache_Insert c key hash value charge = Ok (rc_allocated s, c') ∧
    implements c' (rc_Insert s key hash value charge).2 ∧ wf (rc_Insert s key hash value charge).2 (rc_allocated s :: held).
Proof.
  intros Hc Hwf Hhash Hsmall. unfold LRUCache_Insert, rc_Insert.
  destruct (new_handle c key hash value charge) as [h c0] eqn:En.
  assert (h = rc_allocated s) as -> by (injection En as <- _; apply (repr_allocated _ _ _ Hc)).
  assert (c0 = (new_handle c key hash value charge).2) as Ec0 by (by rewrite En).
  assert (capacity_ c0 = rc_capacity s) as -> by (rewrite Ec0; apply (repr_capacity _ _ _ Hc)).
  fold (rc_add s key hash value charge). set (s1 := rc_add s key hash value charge).
  set (s2 := rc_with s1 (if 0 <? rc_capacity s then rc_find s key hash else None) (rc_erase s1)).
  match goal with |- context [mbind _ (if 0 <? rc_capacity s then ?a else ?b)] => set (body := if 0 <? rc_capacity s then a else b) end.
  pose proof (wf_add s held key hash value charge Hwf Hhash) as Hwf2. fold s1 s2 in Hwf2.
  assert (∃ c2, body = Ok c2 ∧ implements c2 s2) as (c2 & -> & Hc2).
  { unfold body, s2. destruct (0 <? rc_capacity s) eqn:Ecap.
    - apply Z.ltb_lt in Ecap. rewrite Ec0. by apply add_cached with held.
    - cbn [rc_with]. exists c0. split; [done|]. rewrite Ec0. by apply add_uncached with held. }
  cbn [mbind outcome_bind]. assert (length (rc_cached s2) ≤ S (length (rc_cached s)))%nat as Ha by apply add_length.
  destruct (evict_loop_ok true (chain_fuel c2) c2 s2 (rc_allocated s :: held) Hc2 Hwf2) as (c3 & -> & Hc3 & Hwf3).
  - lia.
  - eapply evict_fuel; [exact Hc2|apply Hwf2].
  - cbn [mbind outcome_bind]. exists c3. by split_and!.
Qed.

End operations.

(** ** Clients

    What clients do with a cache, one operation after the other; the mutex makes them so. *)
Inductive cache_op (V : Type) : Type :=
  | OpInsert (key : Slice) (hash : Z) (value : V) (charge : Z)
  | OpLookup (key : Slice) (hash : Z)
  | OpRelease (h : nat)
  | OpErase (key : Slice) (hash : Z)
  | OpPrune.
Arguments OpInsert {V}.
Arguments OpLookup {V}.
Arguments OpRelease {V}.
Arguments OpErase {V}.
Arguments OpPrune {V}.

Section clients.
Context {V : Type}.
Implicit Types (c : LRUCache V) (s : RefCache V) (op : cache_op V).

(** The handle that is returned, if one is, and the cache. *)
Definition lru_op c op : outcome (option nat * LRUCache V) :=
  match op with
  | OpInsert key hash value charge => r ← LRUCache_Insert c key hash value charge; Ok (Some r.1, r.2)
  | OpLookup key hash => LRUCache_Lookup c key hash
  | OpRelease h => c ← LRUCache_Release c h; Ok (None, c)
  | OpErase key hash => c ← LRUCache_Erase c key hash; Ok (None, c)
  | OpPrune => c ← LRUCache_Prune c; Ok (None, c)
  end.

Fixpoint lru_run c (ops : list (cache_op V)) : outcome (list (option nat) * LRUCache V) :=
  match ops with
  | [] => Ok ([], c)
  | op :: ops => r ← lru_op c op; rs ← lru_run r.2 ops; Ok (r.1 :: rs.1, rs.2)
  end.

Definition rc_op s op : option nat * RefCache V :=
  match op with
  | OpInsert key hash value charge => let r := rc_Insert s key hash value charge in (Some r.1, r.2)
  | OpLookup key hash => rc_Lookup s key hash
  | OpRelease h => (None, rc_Release s h)
  | OpErase key hash => (None, rc_Erase s key hash)
  | OpPrune => (None, rc_Prune s)
  end.

(** Handles are held until they are released. *)
Fixpoint release (h : nat) (held : list nat) : list nat :=
  match held with [] => [] | x :: held => if decide (x = h) then held else x :: release h held end.

Definition held_after (held : list nat) op (result : option nat) : list nat :=
  match op, result with
  | OpRelease h, _ => release h held
  | _, Some h => h :: held
  | _, None => held
  end.

(** What clients may do: release what they hold, hold less than [2 ^ 32 - 2] handles and
    insert while there are less than [2 ^ 31 - 1] entries in the table. *)
Definition hash_ok (hash : Z) : bool := (0 <=? hash) && (hash <? 2 ^ 32).

Definition allowed s (held : list nat) op : bool :=
  (len held <? 2 ^ 32 - 2) &&
  match op with
  | OpInsert _ hash _ _ => hash_ok hash && (len (rc_cached s) <? 2 ^ 31 - 1)
  | OpLookup _ hash | OpErase _ hash => hash_ok hash
  | OpRelease h => bool_decide (h ∈ held)
  | OpPrune => true
  end.

Fixpoint rc_run s (held : list nat) (ops : list (cache_op V)) : option (list (option nat) * RefCache V * list nat) :=
  match ops with
  | [] => Some ([], s, held)
  | op :: ops =>
      if allowed s held op then
        let r := rc_op s op in
        match rc_run r.2 (held_after held op r.1) ops with
        | Some (results, s, held) => Some (r.1 :: results, s, held)
        | None => None
        end
      else None
  end.

Lemma hash_ok_width hash : hash_ok hash = true → in_width 32 hash.
Proof. unfold hash_ok, in_width. intros E. split_bool. lia. Qed.

Lemma release_held h held : h ∈ held → held ≡ₚ h :: release h held.
Proof.
  induction held as [|x held IH]; intros Hh; [by apply not_elem_of_nil in Hh|]. cbn [release].
  destruct (decide (x = h)) as [->|Hne]; [done|]. apply elem_of_cons in Hh as [->|Hh]; [done|].
  rewrite (IH Hh) at 1. apply perm_swap.
Qed.

(** The states in which clients find it. *)
Definition bounded s : Prop := len (rc_cached s) < 2 ^ 31.

(** Only an insertion adds an entry. *)
Lemma rc_op_length s held op :
  sound s held → (length (rc_cached (rc_op s op).2) ≤
    match op with OpInsert _ _ _ _ => S (length (rc_cached s)) | _ => length (rc_cached s) end)%nat.
Proof.
  intros Hs. destruct op as [key hash value charge|key hash|h|key hash|]; cbn [rc_op snd].
  - unfold rc_Insert. cbn [snd]. etransitivity; [apply evict_length|apply add_length].
  - unfold rc_Lookup. cbn [snd]. destruct (rc_find s key hash) as [h|]; cbn [rc_with]; [|done].
    destruct (rc_heap s !! h) as [e|] eqn:He; [|done]. by rewrite (Permutation_length (cached_Ref s held h e Hs He)).
  - unfold rc_Release. cbn [rc_with]. destruct (rc_heap s !! h) as [e|] eqn:He; [|done].
    by rewrite (Permutation_length (cached_Unref s held h e Hs He)).
  - apply with_erase_length.
  - apply evict_length.
Qed.

(** One operation. *)
Lemma lru_op_ok c s held op :
  implements c s → wf s held → bounded s → allowed s held op = true →
  ∃ c', lru_op c op = Ok ((rc_op s op).1, c') ∧ implements c' (rc_op s op).2 ∧
    wf (rc_op s op).2 (held_after held op (rc_op s op).1) ∧ bounded (rc_op s op).2.
Proof.
  intros Hc Hwf Hb Ha. unfold allowed in Ha. apply andb_true_iff in Ha as [Hheld Ha]. apply Z.ltb_lt in Hheld.
  assert (bounded (rc_op s op).2) as Hb'.
  { pose proof (rc_op_length s held op (proj1 Hwf)) as Hlen. unfold bounded in *.
    destruct op; lia. }
  destruct op as [key hash value charge|key hash|h|key hash|]; cbn [lru_op rc_op fst snd held_after].
  - apply andb_true_iff in Ha as [Hh Ha]. apply hash_ok_width in Hh. apply Z.ltb_lt in Ha.
    destruct (LRUCache_Insert_ok c s held key hash value charge Hc Hwf Hh Ha) as (c' & -> & Hc' & Hwf'). cbn [mbind outcome_bind fst snd].
    by exists c'.
  - apply hash_ok_width in Ha. destruct (Lookup_ok c s held key hash Hc Hwf Ha Hheld) as (c' & -> & Hc' & Hwf'). by exists c'.
  - apply bool_decide_eq_true in Ha. rewrite (release_held h held Ha) in Hwf.
    destruct (Release_ok c s _ h Hc Hwf) as (c' & -> & Hc' & Hwf'). cbn [mbind outcome_bind]. by exists c'.
  - apply hash_ok_width in Ha. destruct (Erase_ok c s held key hash Hc Hwf Ha Hb) as (c' & -> & Hc' & Hwf'). cbn [mbind outcome_bind].
    by exists c'.
  - destruct (Prune_ok c s held Hc Hwf Hb) as (c' & -> & Hc' & Hwf'). cbn [mbind outcome_bind]. by exists c'.
Qed.

(** A new cache. *)
Lemma new_implements capacity : implements (new_LRUCache (V := V) capacity) (new_RefCache capacity).
Proof.
  assert (∀ head, head = Lru ∨ head = InUse → linked (<[InUse := InUse]> (<[Lru := Lru]> ∅)) (<[InUse := InUse]> (<[Lru := Lru]> ∅)) head head) as Hl.
  { intros head [-> | ->]; split; vm_compute; done. }
  split; [done..|apply Hl; by left|apply Hl; by right| |].
  - intros h. cbn [new_LRUCache next_of]. by rewrite !lookup_insert_ne.
  - exists (replicate 4 []). split; try done; cbn [new_LRUCache table_ ht_length ht_list next_hash_of].
    + by exists 2.
    + by repeat constructor.
Qed.

Lemma new_wf capacity : wf (new_RefCache (V := V) capacity) [].
Proof.
  split; [|by intros h1 h2 key hash Hh%not_elem_of_nil].
  split; cbn; try done; try (by intros h ?%not_elem_of_nil); try lia.
  - by apply NoDup_nil.
  - split; [by apply NoDup_nil|]. by intros h ?%not_elem_of_nil.
Qed.

(** ** What clients have done

    What was inserted, in order, and the handle of the last entry that was inserted with a
    key and not erased. *)
Record history : Type := { hi_inserted : list (Slice * V); hi_latest : gmap (Slice * Z) nat }.

Definition history_op (capacity : Z) (hi : history) op : history :=
  match op with
  | OpInsert key hash value _ =>
      {| hi_inserted := hi_inserted hi ++ [(key, value)];
         hi_latest := if 0 <? capacity then <[(key, hash) := length (hi_inserted hi)]> (hi_latest hi) else hi_latest hi |}
  | OpErase key hash => {| hi_inserted := hi_inserted hi; hi_latest := delete (key, hash) (hi_latest hi) |}
  | _ => hi
  end.

Definition history_of (capacity : Z) (ops : list (cache_op V)) : history :=
  fold_left (history_op capacity) ops {| hi_inserted := []; hi_latest := ∅ |}.

(** Handles are as they were inserted, and in the cache if they are the latest. *)
Record recorded (capacity : Z) s (hi : history) : Prop := {
  rec_capacity : rc_capacity s = capacity;
  rec_allocated : rc_allocated s = length (hi_inserted hi);
  rec_live h e : rc_heap s !! h = Some e → hi_inserted hi !! h = Some (lh_key e, lh_value e);
  rec_deleted d : d ∈ rc_deleted s → hi_inserted hi !! d.1.1 = Some (d.1.2, d.2);
  rec_latest h e : rc_heap s !! h = Some e → lh_in_cache e = true ↔ hi_latest hi !! (lh_key e, lh_hash e) = Some h;
  rec_bound k h : hi_latest hi !! k = Some h → (h < length (hi_inserted hi))%nat;
  rec_keys k h e : rc_heap s !! h = Some e → hi_latest hi !! k = Some h → k = (lh_key e, lh_hash e)
}.

(** What is left of a handle after some steps; only [gone] may have left the cache. *)
Record derives (gone : option nat) s s' : Prop := {
  der_capacity : rc_capacity s' = rc_capacity s;
  der_allocated : rc_allocated s' = rc_allocated s;
  der_live h e' : rc_heap s' !! h = Some e' → ∃ e, rc_heap s !! h = Some e ∧ lh_key e' = lh_key e ∧ lh_value e' = lh_value e ∧
    lh_hash e' = lh_hash e ∧ lh_in_cache e' = (if decide (gone = Some h) then false else lh_in_cache e);
  der_deleted d : d ∈ rc_deleted s' → d ∈ rc_deleted s ∨ ∃ e, rc_heap s !! d.1.1 = Some e ∧ d = (d.1.1, lh_key e, lh_value e)
}.

Lemma derives_refl s : derives None s s.
Proof. split; try done; [by intros h e He; exists e|by left]. Qed.

Lemma derives_trans gone s1 s2 s3 : derives gone s1 s2 → derives None s2 s3 → derives gone s1 s3.
Proof.
  intros [A1 A2 A3 A4] [B1 B2 B3 B4]. split; [congruence|congruence| |].
  - intros h e3 He3. destruct (B3 h e3 He3) as (e2 & He2 & K2 & V2 & H2 & C2). destruct (A3 h e2 He2) as (e1 & He1 & K1 & V1 & H1 & C1).
    exists e1. rewrite decide_False in C2 by done. split_and!; congruence.
  - intros d Hd. destruct (B4 d Hd) as [Hd2|(e2 & He2 & Ed)]; [by apply A4|]. right.
    destruct (A3 _ e2 He2) as (e1 & He1 & K1 & V1 & _). exists e1. split; [done|]. congruence.
Qed.

Lemma derives_Ref s h e : rc_heap s !! h = Some e → derives None s (rc_Ref s h e).
Proof.
  intros He. unfold rc_Ref. split; [by destruct (_ && _)|by destruct (_ && _)| |intros d Hd; left; by destruct (_ && _)].
  intros x e' Hx. assert (<[h := set_refs e (lh_refs e + 1)]> (rc_heap s) !! x = Some e') as Hx' by (by destruct (_ && _)).
  destruct (decide (x = h)) as [->|Hne].
  - rewrite lookup_insert_eq in Hx'. injection Hx' as <-. by exists e.
  - rewrite lookup_insert_ne in Hx' by done. by exists e'.
Qed.

Lemma derives_Unref s h e : rc_heap s !! h = Some e → derives None s (rc_Unref s h e).
Proof.
  intros He. unfold rc_Unref. destruct (lh_refs e =? 1).
  - split; [done|done| |].
    + intros x e' Hx. cbn [rc_delete rc_heap] in Hx. apply lookup_delete_Some in Hx as [_ Hx]. by exists e'.
    + intros d Hd. cbn [rc_delete rc_deleted] in Hd. apply elem_of_app in Hd as [Hd|Hd%list_elem_of_singleton]; [by left|right]. subst d. by exists e.
  - split; [by destruct (_ && _)|by destruct (_ && _)| |intros d Hd; left; by destruct (_ && _)].
    intros x e' Hx. assert (<[h := set_refs e (lh_refs e - 1)]> (rc_heap s) !! x = Some e') as Hx' by (by destruct (_ && _)).
    destruct (decide (x = h)) as [->|Hne].
    + rewrite lookup_insert_eq in Hx'. injection Hx' as <-. by exists e.
    + rewrite lookup_insert_ne in Hx' by done. by exists e'.
Qed.

Lemma derives_erase s h e : rc_heap s !! h = Some e → derives (Some h) s (rc_erase s h e).
Proof.
  intros He. unfold rc_erase. set (s1 := rc_set_usage _ _).
  apply derives_trans with s1; [|apply derives_Unref, lookup_insert_eq]. split; [done|done| |by left].
  intros x e' Hx. unfold s1 in Hx. cbn [rc_set_usage rc_set_handle rc_set_lists rc_heap] in Hx. destruct (decide (x = h)) as [->|Hne].
  - rewrite lookup_insert_eq in Hx. injection Hx as <-. exists e. by rewrite decide_True.
  - rewrite lookup_insert_ne in Hx by done. exists e'. by rewrite decide_False by congruence.
Qed.

Lemma derives_evict full s held : wf s held → derives None s (rc_evict full (rc_lru s) s).
Proof.
  remember (rc_lru s) as lru eqn:El. revert s El. induction lru as [|h lru IH]; intros s El Hwf; cbn [rc_evict]; [apply derives_refl|].
  destruct (_ || _); [|apply derives_refl]. symmetry in El. destruct Hwf as [Hs Hu].
  destruct (erase_oldest s held h lru Hs El) as (El' & e & He & Hhp & Hd). cbn [rc_with] in *. rewrite He in *.
  assert (h ∈ rc_cached s) as Hin by (unfold rc_cached; rewrite El; by left).
  destruct (sound_cached_live s held h Hs Hin) as (e1 & He1 & Hic). assert (e1 = e) as -> by congruence.
  apply derives_trans with (rc_erase s h e).
  - destruct (derives_erase s h e He) as [D1 D2 D3 D4]. split; [done|done| |done]. intros x e' Hx. rewrite Hhp in Hx.
    apply lookup_delete_Some in Hx as [_ Hx]. by exists e'.
  - apply IH; [done|]. apply wf_erase; try done. by apply unique_without.
Qed.

Lemma recorded_derives capacity s s' hi : recorded capacity s hi → derives None s s' → recorded capacity s' hi.
Proof.
  intros [R1 R2 R3 R4 R5 R6 R7] [D1 D2 D3 D4]. split; [congruence|congruence| | | |done|].
  - intros h e' He'. destruct (D3 h e' He') as (e & He & -> & -> & _). by apply R3.
  - intros d Hd. destruct (D4 d Hd) as [Hd'|(e & He & ->)]; [by apply R4|]. by apply R3 in He.
  - intros h e' He'. destruct (D3 h e' He') as (e & He & -> & _ & -> & Hc). rewrite decide_False in Hc by done. rewrite Hc. by apply R5.
  - intros k h e' He' Hk. destruct (D3 h e' He') as (e & He & -> & _ & -> & _). by apply R7 with h.
Qed.

Lemma find_cached s held key hash h e :
  wf s held → rc_heap s !! h = Some e → lh_in_cache e = true → lh_key e = key → lh_hash e = hash → rc_find s key hash = Some h.
Proof.
  intros [Hs Hu] He Hic <- <-. apply find_key_unique; [done|by eapply sound_cached|by apply is_key_self].
Qed.

Lemma find_some s held key hash h :
  wf s held → rc_find s key hash = Some h → ∃ e, rc_heap s !! h = Some e ∧ lh_in_cache e = true ∧ lh_key e = key ∧ lh_hash e = hash.
Proof.
  intros [Hs Hu] Hf. apply find_key_some in Hf as [Hin Hk]. destruct (sound_cached_live s held h Hs Hin) as (e & He & Hic).
  exists e. split; [done|]. split; [done|]. unfold is_key in Hk. rewrite He in Hk. apply andb_true_iff in Hk as [E1 E2].
  apply Z.eqb_eq in E1. by apply bool_decide_eq_true in E2.
Qed.

Lemma recorded_Erase capacity s held hi key hash :
  wf s held → recorded capacity s hi → recorded capacity (rc_Erase s key hash) (history_op capacity hi (OpErase key hash)).
Proof.
  intros Hwf [R1 R2 R3 R4 R5 R6 R7]. unfold rc_Erase, rc_with. destruct (rc_find s key hash) as [o|] eqn:Ef.
  - destruct (find_some s held key hash o Hwf Ef) as (eo & Heo & Hico & Hko & Hho). rewrite Heo.
    destruct (derives_erase s o eo Heo) as [D1 D2 D3 D4]. split; cbn [history_op hi_inserted hi_latest]; [congruence|congruence| | | | |].
    + intros h e' He'. destruct (D3 h e' He') as (e & He & -> & -> & _). by apply R3.
    + intros d Hd. destruct (D4 d Hd) as [Hd'|(e & He & ->)]; [by apply R4|]. by apply R3 in He.
    + intros h e' He'. destruct (D3 h e' He') as (e & He & -> & _ & -> & ->). destruct (decide (Some o = Some h)) as [[= <-]|Hne].
      * assert (e = eo) as -> by congruence. rewrite Hko, Hho, lookup_delete_eq. split; by intros [=].
      * destruct (decide ((key, hash) = (lh_key e, lh_hash e))) as [E|Hk].
        -- rewrite <- E, lookup_delete_eq. injection E as Ek Eh. split; [|by intros [=]]. intros Hic.
           pose proof (find_cached s held key hash h e Hwf He Hic (eq_sym Ek) (eq_sym Eh)). congruence.
        -- rewrite lookup_delete_ne by done. by apply R5.
    + intros k h Hk. apply lookup_delete_Some in Hk as [_ Hk]. by eapply R6.
    + intros k h e' He' [_ Hk]%lookup_delete_Some. destruct (D3 h e' He') as (e & He & -> & _ & -> & _). by apply R7 with h.
  - split; cbn [history_op hi_inserted hi_latest]; try done.
    + intros h e He. destruct (decide ((key, hash) = (lh_key e, lh_hash e))) as [E|Hk].
      * rewrite <- E, lookup_delete_eq. injection E as Ek Eh. split; [|by intros [=]]. intros Hic.
        pose proof (find_cached s held key hash h e Hwf He Hic (eq_sym Ek) (eq_sym Eh)). congruence.
      * rewrite lookup_delete_ne by done. by apply R5.
    + intros k h Hk. apply lookup_delete_Some in Hk as [_ Hk]. by eapply R6.
    + intros k h e He [_ Hk]%lookup_delete_Some. by apply R7 with h.
Qed.

(** The new entry is there, and that of its key is on its way out. *)
Lemma recorded_add capacity s held hi key hash value charge :
  wf s held → in_width 32 hash → recorded capacity s hi →
  recorded capacity (rc_with (rc_add s key hash value charge) (if 0 <? rc_capacity s then rc_find s key hash else None)
      (rc_erase (rc_add s key hash value charge)))
    (history_op capacity hi (OpInsert key hash value charge)).
Proof.
  intros Hwf Hhash [R1 R2 R3 R4 R5 R6 R7]. destruct Hwf as [Hs Hu]. destruct (sound_fresh s held Hs) as (Hfree & _ & _).
  set (s1 := rc_add s key hash value charge). set (n := rc_allocated s) in *. rewrite <- R1.
  assert (∃ e, rc_heap s1 = <[n := e]> (rc_heap s) ∧ lh_in_cache e = (0 <? rc_capacity s) ∧ lh_key e = key ∧ lh_hash e = hash ∧
    lh_value e = value) as (e & Hhp & Hic & Hk & Hh & Hv) by by eexists.
  set (latest := if 0 <? rc_capacity s then <[(key, hash) := length (hi_inserted hi)]> (hi_latest hi) else hi_latest hi).
  assert (∀ x, x ≠ n → rc_heap s1 !! x = rc_heap s !! x) as Hold by (intros x Hx; rewrite Hhp; by apply lookup_insert_ne).
  assert (∀ x ex, rc_heap s !! x = Some ex → x ≠ n) as Hne by (by intros x ex Hx ->; rewrite Hfree in Hx).
  assert (∀ x ex, rc_heap s1 !! x = Some ex → (hi_inserted hi ++ [(key, value)]) !! x = Some (lh_key ex, lh_value ex)) as Hlive.
  { intros x ex Hx. destruct (decide (x = n)) as [->|Hxn].
    - rewrite Hhp, lookup_insert_eq in Hx. injection Hx as <-. rewrite R2, lookup_app_r, Nat.sub_diag by done. by rewrite Hk, Hv.
    - rewrite Hold in Hx by done. apply lookup_app_l_Some. by apply R3. }
  assert (∀ d, d ∈ rc_deleted s → (hi_inserted hi ++ [(key, value)]) !! d.1.1 = Some (d.1.2, d.2)) as Hdel
    by (intros d Hd; by apply lookup_app_l_Some, R4).
  assert (∀ x ex, rc_heap s1 !! x = Some ex →
    (if decide ((if 0 <? rc_capacity s then rc_find s key hash else None) = Some x) then false else lh_in_cache ex) = true ↔
      latest !! (lh_key ex, lh_hash ex) = Some x) as Hlat.
  { intros x ex Hx. unfold latest. destruct (0 <? rc_capacity s) eqn:Ecap.
    - destruct (decide (x = n)) as [->|Hxn].
      + rewrite Hhp, lookup_insert_eq in Hx. injection Hx as <-. rewrite Hk, Hh, lookup_insert_eq, <- R2. fold n.
        rewrite decide_False; [done|]. intros Hf. destruct (find_some s held key hash n (conj Hs Hu) Hf) as (e' & He' & _). congruence.
      + rewrite Hold in Hx by done. destruct (decide ((key, hash) = (lh_key ex, lh_hash ex))) as [E|Hkk].
        * rewrite <- E, lookup_insert_eq, <- R2. fold n. injection E as Ek Eh. split; [|by intros [= ->]].
          destruct (decide _) as [|Hnf]; [done|]. intros Hicx. destruct Hnf.
          by apply (find_cached s held key hash x ex (conj Hs Hu) Hx).
        * rewrite lookup_insert_ne by done. rewrite decide_False; [by apply R5|]. intros Hf.
          destruct (find_some s held key hash x (conj Hs Hu) Hf) as (e' & He' & _ & Ek & Eh). assert (e' = ex) as -> by congruence.
          destruct Hkk. congruence.
    - rewrite decide_False by done. destruct (decide (x = n)) as [->|Hxn].
      + rewrite Hhp, lookup_insert_eq in Hx. injection Hx as <-. rewrite Hic. split; [done|]. intros Hl. apply R6 in Hl. unfold n in Hl. lia.
      + rewrite Hold in Hx by done. by apply R5. }
  assert (∀ k h, latest !! k = Some h → (h < length (hi_inserted hi ++ [(key, value)]))%nat) as Hbnd.
  { intros k h Hkh. rewrite length_app. cbn [length]. unfold latest in Hkh. destruct (0 <? rc_capacity s); [|apply R6 in Hkh; lia].
    destruct (decide (k = (key, hash))) as [->|Hkk].
    - rewrite lookup_insert_eq in Hkh. injection Hkh as <-. lia.
    - rewrite lookup_insert_ne in Hkh by done. apply R6 in Hkh. lia. }
  assert (∀ k x ex, rc_heap s1 !! x = Some ex → latest !! k = Some x → k = (lh_key ex, lh_hash ex)) as Hkeys.
  { intros k x ex Hx Hkx. destruct (decide (x = n)) as [->|Hxn].
    - rewrite Hhp, lookup_insert_eq in Hx. injection Hx as <-. rewrite Hk, Hh. unfold latest in Hkx.
      destruct (0 <? rc_capacity s); [|apply R6 in Hkx; lia]. destruct (decide (k = (key, hash))) as [|Hkk]; [done|].
      rewrite lookup_insert_ne in Hkx by done. apply R6 in Hkx. lia.
    - rewrite Hold in Hx by done. unfold latest in Hkx. destruct (0 <? rc_capacity s); [|by apply R7 with x].
      destruct (decide (k = (key, hash))) as [->|Hkk].
      + rewrite lookup_insert_eq, <- R2 in Hkx. by injection Hkx as <-.
      + rewrite lookup_insert_ne in Hkx by done. by apply R7 with x. }
  destruct (if 0 <? rc_capacity s then rc_find s key hash else None) as [o|] eqn:Ef; cbn [rc_with].
  - assert (∃ eo, rc_heap s1 !! o = Some eo) as (eo & Heo).
    { destruct (0 <? rc_capacity s); [|done]. destruct (find_some s held key hash o (conj Hs Hu) Ef) as (eo & Heo & _).
      exists eo. rewrite Hold; [done|]. by eapply Hne. }
    rewrite Heo. destruct (derives_erase s1 o eo Heo) as [D1 D2 D3 D4].
    split; cbn [history_op hi_inserted hi_latest]; fold latest; [by rewrite D1| | | | |done|].
    + rewrite D2, length_app. change (rc_allocated s1) with (S n). rewrite R2. cbn [length]. lia.
    + intros h e' He'. destruct (D3 h e' He') as (ex & Hex & -> & -> & _). by apply Hlive.
    + intros d Hd. destruct (D4 d Hd) as [Hd'|(ex & Hex & ->)]; [by apply Hdel|by apply Hlive].
    + intros h e' He'. destruct (D3 h e' He') as (ex & Hex & -> & _ & -> & ->). by apply Hlat.
    + intros k h e' He' Hkh. destruct (D3 h e' He') as (ex & Hex & -> & _ & -> & _). by apply Hkeys with h.
  - split; cbn [history_op hi_inserted hi_latest]; fold latest; [done| |done|done| |done|done].
    + rewrite length_app. change (rc_allocated s1) with (S n). rewrite R2. cbn [length]. lia.
    + intros h ex Hex. specialize (Hlat h ex Hex). by rewrite decide_False in Hlat.
Qed.

Lemma recorded_op capacity s held hi op :
  wf s held → allowed s held op = true → recorded capacity s hi → recorded capacity (rc_op s op).2 (history_op capacity hi op).
Proof.
  intros Hwf Ha Hrec. unfold allowed in Ha. apply andb_true_iff in Ha as [_ Ha].
  destruct op as [key hash value charge|key hash|h|key hash|]; cbn [rc_op snd].
  - apply andb_true_iff in Ha as [Hh Ha]. apply hash_ok_width in Hh. unfold rc_Insert. cbn [snd]. fold (rc_add s key hash value charge).
    eapply recorded_derives; [by eapply recorded_add|]. eapply (derives_evict true _ (rc_allocated s :: held)).
    by apply wf_add.
  - unfold rc_Lookup. cbn [snd history_op]. destruct (rc_find s key hash) as [h|]; cbn [rc_with]; [|done].
    destruct (rc_heap s !! h) as [e|] eqn:He; [|done]. by eapply recorded_derives, derives_Ref.
  - unfold rc_Release. cbn [rc_with history_op]. destruct (rc_heap s !! h) as [e|] eqn:He; [|done]. by eapply recorded_derives, derives_Unref.
  - by eapply recorded_Erase.
  - unfold rc_Prune. cbn [history_op]. by eapply recorded_derives, derives_evict.
Qed.

Lemma lru_run_ok capacity c s held hi ops results s' held' :
  implements c s → wf s held → bounded s → recorded capacity s hi → rc_run s held ops = Some (results, s', held') →
  ∃ c', lru_run c ops = Ok (results, c') ∧ implements c' s' ∧ wf s' held' ∧ bounded s' ∧
    recorded capacity s' (fold_left (history_op capacity) ops hi).
Proof.
  revert c s held hi results. induction ops as [|op ops IH]; intros c s held hi results Hc Hwf Hb Hrec Hr; cbn [rc_run lru_run fold_left] in *.
  - injection Hr as <- <- <-. by exists c.
  - destruct (allowed s held op) eqn:Ea; [|done].
    destruct (lru_op_ok c s held op Hc Hwf Hb Ea) as (c1 & -> & Hc1 & Hwf1 & Hb1). cbn [mbind outcome_bind fst snd].
    destruct (rc_run (rc_op s op).2 _ ops) as [[[rs s2] held2]|] eqn:Er; [|done]. injection Hr as <- <- <-.
    destruct (IH c1 _ _ _ _ Hc1 Hwf1 Hb1 (recorded_op capacity s held hi op Hwf Ea Hrec) Er) as (c2 & -> & Hc2).
    cbn [mbind outcome_bind fst snd]. by exists c2.
Qed.

(** From a new cache. *)
Lemma lru_runs capacity ops results s held :
  rc_run (new_RefCache capacity) [] ops = Some (results, s, held) →
  ∃ c, lru_run (new_LRUCache capacity) ops = Ok (results, c) ∧ implements c s ∧ wf s held ∧ bounded s ∧
    recorded capacity s (history_of capacity ops).
Proof.
  intros Hr. apply (lru_run_ok capacity _ _ _ {| hi_inserted := []; hi_latest := ∅ |} _ _ _ _ (new_implements capacity) (new_wf capacity)); [done| |done].
  split; try done. by intros d ?%not_elem_of_nil.
Qed.

(** Eviction ends when the cache is not too full, or when everything in it is in use. *)
Lemma evicted s held : wf s held → let s' := rc_evict true (rc_lru s) s in rc_usage s' ≤ rc_capacity s' ∨ rc_lru s' = [].
Proof.
  remember (rc_lru s) as lru eqn:El. revert s El. induction lru as [|h lru IH]; intros s El Hwf; cbn [rc_evict negb orb]; [by right|].
  destruct (rc_capacity s <? rc_usage s) eqn:E; split_bool; [|by left]. symmetry in El. pose proof Hwf as [Hs Hu].
  destruct (erase_oldest s held h lru Hs El) as (El' & e & He & _). apply IH; [done|]. cbn [rc_with]. rewrite He.
  assert (h ∈ rc_cached s) as Hin by (unfold rc_cached; rewrite El; by left).
  destruct (sound_cached_live s held h Hs Hin) as (e1 & He1 & Hic). assert (e1 = e) as -> by congruence.
  apply wf_erase; try done. by apply unique_without.
Qed.

End clients.

(** ** Properties *)

(** C38: the cache implements the reference.  Whatever clients do that release only what they
    hold and keep fewer than 2^31 entries in the cache, every operation of the pointers answers, as the two lists do; afterwards the
    handles, the calls of the deleters and the charge are those of the reference, the circular
    lists go through its lists, and the table finds what a search of them finds. *)
Theorem LRUCache_refines {V : Type} capacity (ops : list (cache_op V)) results s held :
  rc_run (new_RefCache capacity) [] ops = Some (results, s, held) →
  ∃ c, lru_run (new_LRUCache capacity) ops = Ok (results, c) ∧
    heap c = rc_heap s ∧ deleted c = rc_deleted s ∧ LRUCache_TotalCharge c = rc_usage s ∧
    ring (next_of c) (prev_of c) Lru (rc_lru s) ∧ ring (next_of c) (prev_of c) InUse (rc_used s) ∧
    ∀ key hash, in_width 32 hash → HandleTable_Lookup c key hash = Ok (rc_find s key hash).
Proof.
  intros Hr. destruct (lru_runs capacity ops results s held Hr) as (c & E & Hc & [Hs Hu] & _). exists c.
  pose proof Hc as [H1 H2 H3 H4 H5 Hl Huu Hloop (chains & Ht)]. split_and!; try done. intros key hash Hh. unfold rc_find. rewrite <- H3 in *.
  apply HandleTable_Lookup_ok with chains; try done; [apply Hs|]. rewrite H3. by eapply wf_live.
Qed.

(** C39: handles live exactly as long as they should.  Every handle that a client holds is
    live, with the key and the value that were inserted; and the deleter has been called, once,
    for exactly those entries that neither a client holds nor the cache has. *)
Theorem LRUCache_safe {V : Type} capacity (ops : list (cache_op V)) results s held :
  rc_run (new_RefCache capacity) [] ops = Some (results, s, held) →
  ∃ c, lru_run (new_LRUCache capacity) ops = Ok (results, c) ∧
    (∀ h, h ∈ held → ∃ e, heap c !! h = Some e ∧ hi_inserted (history_of capacity ops) !! h = Some (lh_key e, lh_value e)) ∧
    NoDup (map (λ d, d.1.1) (deleted c)) ∧
    ∀ h key value, (h, key, value) ∈ deleted c ↔
      hi_inserted (history_of capacity ops) !! h = Some (key, value) ∧ (h ∉ held) ∧
      ~ ∃ e, heap c !! h = Some e ∧ lh_in_cache e = true.
Proof.
  intros Hr. destruct (lru_runs capacity ops results s held Hr) as (c & E & Hc & [Hs Hu] & _ & Hrec). exists c. split; [done|].
  rewrite (repr_heap _ _ _ Hc), (repr_deleted _ _ _ Hc). split; [|split; [apply Hs|]].
  - intros h Hh. destruct (sound_held _ _ Hs h Hh) as (e & He). exists e. split; [done|]. by apply (rec_live _ _ _ Hrec).
  - assert (∀ h, h ∈ deleted_at s → rc_heap s !! h = None) as Hgone.
    { intros h Hh. destruct (rc_heap s !! h) as [e|] eqn:He; [|done]. by destruct (sound_live _ _ Hs h e He). }
    intros h key value. split.
    + intros Hd. assert (rc_heap s !! h = None) as Hn by (apply Hgone; by apply (list_elem_of_fmap_2 (λ d, d.1.1)) in Hd).
      apply (rec_deleted _ _ _ Hrec) in Hd. split; [done|]. rewrite Hn. split; [|by intros (e & [=] & _)].
      intros Hh. destruct (sound_held _ _ Hs h Hh) as (e & He). congruence.
    + intros (Hi & Hh & Hcache). pose proof (lookup_lt_Some _ _ _ Hi) as Hlt. rewrite <- (rec_allocated _ _ _ Hrec) in Hlt.
      destruct (sound_all _ _ Hs h Hlt) as [(e & He)|Hd].
      * destruct (sound_refs _ _ Hs h e He) as (Hr1 & Hr2 & _). destruct (lh_in_cache e) eqn:Hic; [destruct Hcache; by exists e|].
        destruct Hh. apply holds_pos. lia.
      * apply list_elem_of_fmap in Hd as ([[h' k'] v'] & Eh & Hd). cbn in Eh. subst h'.
        pose proof (rec_deleted _ _ _ Hrec _ Hd) as Hi'. cbn in Hi'. rewrite Hi in Hi'. by injection Hi' as -> ->.
Qed.

(** C40: what clients find.  A lookup gives nothing, or the entry that was last inserted with
    the key and not erased since; and it gives that when a client still holds it.  With capacity
    zero nothing is cached, so that no entry is the last one and a lookup gives nothing.  After an
    insertion the charge of the cache is within its capacity, or everything in it is held. *)
Theorem LRUCache_finds {V : Type} capacity (ops : list (cache_op V)) results s held :
  rc_run (new_RefCache capacity) [] ops = Some (results, s, held) →
  ∃ c, lru_run (new_LRUCache capacity) ops = Ok (results, c) ∧
    (∀ key hash, allowed s held (OpLookup key hash) = true →
      ∃ r c', LRUCache_Lookup c key hash = Ok (r, c') ∧
        (∀ h, r = Some h → hi_latest (history_of capacity ops) !! (key, hash) = Some h) ∧
        ∀ h, hi_latest (history_of capacity ops) !! (key, hash) = Some h → h ∈ held → r = Some h) ∧
    ∀ key hash value charge, allowed s held (OpInsert key hash value charge) = true →
      ∃ h c', LRUCache_Insert c key hash value charge = Ok (h, c') ∧
        (LRUCache_TotalCharge c' ≤ capacity ∨ ∀ x e, heap c' !! x = Some e → lh_in_cache e = true → x ∈ h :: held).
Proof.
  intros Hr. destruct (lru_runs capacity ops results s held Hr) as (c & E & Hc & Hwf & Hb & Hrec). exists c. split; [done|].
  pose proof Hwf as [Hs Hu]. split.
  - intros key hash Ha. destruct (lru_op_ok c s held _ Hc Hwf Hb Ha) as (c' & El & _). cbn [lru_op rc_op] in El.
    exists (rc_find s key hash), c'. split; [exact El|]. split.
    + intros h Hf. destruct (find_some s held key hash h Hwf Hf) as (e & He & Hic & <- & <-). by apply (rec_latest _ _ _ Hrec).
    + intros h Hl Hh. destruct (sound_held _ _ Hs h Hh) as (e & He). pose proof (rec_keys _ _ _ Hrec _ _ _ He Hl) as [= -> ->].
      apply (find_cached s held _ _ h e Hwf He); [|done|done]. by apply (rec_latest _ _ _ Hrec h e He).
  - intros key hash value charge Ha. destruct (lru_op_ok c s held _ Hc Hwf Hb Ha) as (c' & El & Hc' & [Hs' _] & _).
    pose proof (recorded_op capacity s held _ _ Hwf Ha Hrec) as Hrec'. cbn [lru_op rc_op fst snd held_after] in El, Hc', Hs', Hrec'.
    apply outcome_bind_inv in El as ([h c1] & El & E2). cbn [fst snd] in E2. injection E2 as -> ->. eexists _, c'. split; [exact El|].
    unfold LRUCache_TotalCharge. rewrite (repr_usage _ _ _ Hc'), (repr_heap _ _ _ Hc'), <- (rec_capacity _ _ _ Hrec').
    unfold allowed in Ha. apply andb_true_iff in Ha as [_ Ha]. apply andb_true_iff in Ha as [Hh _]. apply hash_ok_width in Hh.
    pose proof (wf_add s held key hash value charge Hwf Hh) as Hwf1. cbv zeta in Hwf1.
    destruct (evicted _ _ Hwf1) as [Hle|Hnil]; [by left|right]. intros x e He Hic.
    pose proof (sound_cached _ _ Hs' x e He Hic) as Hin. apply elem_of_app in Hin as [Hin|Hin].
    + unfold rc_Insert in Hin. cbn [snd] in Hin. fold (rc_add s key hash value charge) in Hin. rewrite Hnil in Hin. by apply not_elem_of_nil in Hin.
    + destruct (sound_used _ _ Hs' x Hin) as (e' & He' & _ & Hr2). assert (e' = e) as -> by congruence.
      destruct (sound_refs _ _ Hs' x e He) as (_ & Hr3 & _). rewrite Hic in Hr3. change (x ∈ (rc_Insert s key hash value charge).1 :: held). apply holds_pos. lia.
Qed.

(** *** A sample

    A cache for two entries: the third one evicts the oldest that is not held, and an entry
    that is replaced lives until it is released. *)
Definition sample_ops : list (cache_op Z) :=
  [OpInsert [1] 5 100 1; OpRelease 0; OpInsert [2] 9 200 1; OpLookup [1] 5; OpInsert [3] 5 300 1; OpInsert [1] 5 400 1;
   OpRelease 1; OpErase [3] 5; OpRelease 2; OpInsert [4] 6 500 2; OpRelease 0].

Definition sample_run : list (option nat) * RefCache Z * list nat :=
  match rc_run (new_RefCache 2) [] sample_ops with Some r => r | None => ([], new_RefCache 2, []) end.

Lemma sample_runs : rc_run (new_RefCache 2) [] sample_ops = Some (sample_run.1.1, sample_run.1.2, sample_run.2).
Proof. by vm_compute. Qed.

Lemma sample_ends :
  sample_run.2 = [4%nat; 3%nat] ∧ rc_deleted sample_run.1.2 = [(2%nat, [3], 300); (1%nat, [2], 200); (0%nat, [1], 100)] ∧
  rc_usage sample_run.1.2 = 3 ∧ rc_find sample_run.1.2 [1] 5 = Some 3%nat ∧ rc_find sample_run.1.2 [3] 5 = None.
Proof. by vm_compute. Qed.

Lemma sample_history :
  hi_inserted (history_of 2 sample_ops) = [([1], 100); ([2], 200); ([3], 300); ([1], 400); ([4], 500)] ∧
  hi_latest (history_of 2 sample_ops) !! ([1], 5) = Some 3%nat.
Proof. by vm_compute. Qed.

Lemma LRUCache_refines_witness :
  ∃ c, lru_run (new_LRUCache 2) sample_ops = Ok (sample_run.1.1, c) ∧
    deleted c = [(2%nat, [3], 300); (1%nat, [2], 200); (0%nat, [1], 100)] ∧ LRUCache_TotalCharge c = 3 ∧
    HandleTable_Lookup c [1] 5 = Ok (Some 3%nat) ∧ HandleTable_Lookup c [3] 5 = Ok None.
Proof.
  assert (in_width 32 5) as H5 by done. destruct sample_ends as (_ & Ed & Eu & E1 & E3).
  destruct (LRUCache_refines 2 sample_ops _ _ _ sample_runs) as (c & E & _ & D & U & _ & _ & F). exists c.
  pose proof (F [1] 5 H5) as F1. pose proof (F [3] 5 H5) as F3.
  rewrite E1 in F1. rewrite E3 in F3. rewrite Ed in D. rewrite Eu in U.
  exact (conj E (conj D (conj U (conj F1 F3)))).
Defined.

Lemma LRUCache_safe_witness :
  ∃ c, lru_run (new_LRUCache 2) sample_ops = Ok (sample_run.1.1, c) ∧
    (∃ e, heap c !! 3%nat = Some e ∧ Some (lh_key e, lh_value e) = Some ([1], 400)) ∧ NoDup (map (λ d, d.1.1) (deleted c)).
Proof.
  destruct sample_ends as (Eh & _ & _). destruct sample_history as [Ei _].
  destruct (LRUCache_safe 2 sample_ops _ _ _ sample_runs) as (c & E & Hlive & Hnd & _). exists c. split; [exact E|]. split; [|exact Hnd].
  destruct (Hlive 3%nat) as (e & He & Hi); [rewrite Eh; right; left|]. exists e. split; [exact He|]. rewrite Ei in Hi.
  symmetry. exact Hi.
Defined.

Lemma LRUCache_finds_witness :
  ∃ c r c', lru_run (new_LRUCache 2) sample_ops = Ok (sample_run.1.1, c) ∧ LRUCache_Lookup c [1] 5 = Ok (r, c') ∧ r = Some 3%nat.
Proof.
  destruct sample_ends as (Eh & _). destruct sample_history as [_ El].
  destruct (LRUCache_finds 2 sample_ops _ _ _ sample_runs) as (c & E & Hl & _). exists c.
  destruct (Hl [1] 5) as (r & c' & Er & _ & Hr); [unfold allowed; by rewrite Eh|]. exists r, c'. split; [exact E|]. split; [exact Er|].
  apply Hr; [exact El|]. rewrite Eh. right. left.
Defined.
