(* ===== verification/LdbBlockCache.v ===== *)
(** * LevelDB: the cache of blocks

    The blocks of tables are kept in a cache (leveldb/cache.h), which LdbTable.v uses through
    the class [BlockCache]: its laws are what reading relies on.  The sharded cache of
    LdbCache.v, used as table/table.cc uses it, keeps them. *)

From S2P Require Import Prelude LdbCoding LdbCrc LdbFilter LdbIter LdbBlock LdbCache.

(** ** The interface

    [Lookup] finds what was inserted under a key, until it is evicted; the handles that
    keep a block alive are those of the iterators. *)
Class BlockCache (C : Type) : Type := {
  NewId : C → Z * C;
  cache_Lookup : Slice → C → option TableBlock * C;
  cache_Insert : Slice → TableBlock → Z → C → C    (* key, value, charge *)
}.

(** Under a key is found only what was inserted there; ids may partition the keys. *)
Class BlockCacheLaws (C : Type) `{BlockCache C} : Type := {
  held : C → Slice → TableBlock → Prop;
  Lookup_held key c block c' : cache_Lookup key c = (Some block, c') → held c key block;
  Lookup_keeps key c found c' k b : cache_Lookup key c = (found, c') → held c' k b → held c k b;
  Insert_held key block charge c k b : held (cache_Insert key block charge c) k b → k = key ∧ b = block ∨ held c k b
}.

(** A cache whose next id no key in it starts with. *)
Definition partitioned {C : Type} `{BlockCacheLaws C} (cache : option C) : Prop :=
  ∀ c key block, cache = Some c → held (NewId c).2 key block → ∀ rest, key ≠ EncodeFixed64 (NewId c).1 ++ rest.

(** ** What is in a cache

    No operation changes the key or the value of a handle, and only an insertion makes one. *)
Section handles.
Context {V : Type}.
Implicit Types (c : LRUCache V).

Definition has c (key : Slice) (value : V) : Prop := ∃ h e, heap c !! h = Some e ∧ lh_key e = key ∧ lh_value e = value.

Definition keeps c c' : Prop := ∀ key value, has c' key value → has c key value.

#[local] Instance keeps_preorder : PreOrder keeps.
Proof. split; [by intros c key value|]. intros c1 c2 c3 H1 H2 key value Hh. by apply H1, H2. Qed.

Lemma keeps_heap c c' : heap c' = heap c → keeps c c'.
Proof. unfold keeps, has. by intros ->. Qed.

Lemma keeps_handle c h e e' : heap c !! h = Some e → lh_key e' = lh_key e → lh_value e' = lh_value e → keeps c (set_handle c h e').
Proof.
  intros He Hk Hv key value (x & ex & Hx & <- & <-). cbn [set_handle heap] in Hx.
  destruct (decide (x = h)) as [->|Hne].
  - rewrite lookup_insert_eq in Hx. injection Hx as <-. by exists h, e.
  - rewrite lookup_insert_ne in Hx by done. by exists x, ex.
Qed.

Lemma get_handle_inv c h e : get_handle c h = Ok e → heap c !! h = Some e.
Proof. unfold get_handle. destruct (heap c !! h); [by intros [= ->]|done]. Qed.

Lemma LRU_Remove_heap c p c' : LRU_Remove c p = Ok c' → heap c' = heap c.
Proof.
  unfold LRU_Remove. intros (n & _ & E)%outcome_bind_inv. apply outcome_bind_inv in E as (q & _ & E). cbv zeta in E.
  apply outcome_bind_inv in E as (q' & _ & E). apply outcome_bind_inv in E as (n' & _ & E). by injection E as <-.
Qed.

Lemma LRU_Append_heap c l p c' : LRU_Append c l p = Ok c' → heap c' = heap c.
Proof.
  unfold LRU_Append. cbv zeta. intros (n & _ & E)%outcome_bind_inv.
  apply outcome_bind_inv in E as (q' & _ & E). apply outcome_bind_inv in E as (n' & _ & E). by injection E as <-.
Qed.

(** The handle of the first move and the others' heap are enough for [Ref] and [Unref]. *)
Lemma Ref_keeps c h c' : Ref c h = Ok c' → keeps c c'.
Proof.
  unfold Ref. intros (e & He%get_handle_inv & E)%outcome_bind_inv. apply outcome_bind_inv in E as (c1 & E1 & E).
  injection E as <-. assert (heap c1 = heap c) as Hh.
  { destruct (_ && _); [|by injection E1 as <-]. apply outcome_bind_inv in E1 as (c2 & E2 & E1).
    by rewrite (LRU_Append_heap _ _ _ _ E1), (LRU_Remove_heap _ _ _ E2). }
  transitivity c1; [by apply keeps_heap|]. rewrite <- Hh in He. by apply (keeps_handle c1 h e).
Qed.

Lemma Unref_keeps c h c' : Unref c h = Ok c' → keeps c c'.
Proof.
  unfold Unref. intros (e & He%get_handle_inv & E)%outcome_bind_inv. apply outcome_bind_inv in E as ([] & _ & E). cbv zeta in E.
  set (e' := set_refs e (lh_refs e - 1)) in E. transitivity (set_handle c h e'); [by apply (keeps_handle c h e)|].
  destruct (lh_refs e' =? 0).
  - apply outcome_bind_inv in E as ([] & _ & E). unfold deallocate in E. apply outcome_bind_inv in E as (key & _ & E).
    injection E as <-. intros k v (x & ex & Hx & Hkv). cbn [heap] in Hx. apply lookup_delete_Some in Hx as [_ Hx]. by exists x, ex.
  - apply keeps_heap. destruct (_ && _); [|by injection E as <-]. apply outcome_bind_inv in E as (c2 & E2 & E1).
    by rewrite (LRU_Append_heap _ _ _ _ E1), (LRU_Remove_heap _ _ _ E2).
Qed.

Lemma FinishErase_keeps c o r : FinishErase c o = Ok r → keeps c r.2.
Proof.
  unfold FinishErase. destruct o as [h|]; [|by intros [= <-]].
  intros (e & He%get_handle_inv & E)%outcome_bind_inv. apply outcome_bind_inv in E as ([] & _ & E).
  apply outcome_bind_inv in E as (c1 & E1 & E). apply LRU_Remove_heap in E1. cbv zeta in E.
  apply outcome_bind_inv in E as (c2 & E2 & E). injection E as <-. apply Unref_keeps in E2. rewrite <- E1 in He.
  transitivity c1; [by apply keeps_heap|]. transitivity (set_handle c1 h (set_in_cache e false)); [by apply (keeps_handle c1 h e)|].
  etransitivity; [|exact E2]. by apply keeps_heap.
Qed.

Lemma HandleTable_Remove_heap c key hash r : HandleTable_Remove c key hash = Ok r → heap r.2 = heap c.
Proof.
  unfold HandleTable_Remove. intros (p & _ & E)%outcome_bind_inv. apply outcome_bind_inv in E as (o & _ & E).
  destruct o as [h|]; [|by injection E as <-]. apply outcome_bind_inv in E as (n & _ & E). injection E as <-. by destruct p.
Qed.

Lemma HandleTable_Insert_heap c h r : HandleTable_Insert c h = Ok r → heap r.2 = heap c.
Proof.
  unfold HandleTable_Insert. intros (k & _ & E)%outcome_bind_inv. apply outcome_bind_inv in E as (e & _ & E).
  apply outcome_bind_inv in E as (p & _ & E). apply outcome_bind_inv in E as (o & _ & E). apply outcome_bind_inv in E as (n & _ & E).
  cbv zeta in E. set (c1 := write_slot _ p (Some h)) in E. assert (heap c1 = heap c) as Hc1 by (by destruct p).
  destruct o as [x|]; [by injection E as <-|]. apply outcome_bind_inv in E as (c2 & E2 & E). injection E as <-. rewrite <- Hc1.
  destruct (_ <? _); [|by injection E2 as <-]. unfold Resize in E2. cbv zeta in E2. apply outcome_bind_inv in E2 as (l & _ & E2).
  apply outcome_bind_inv in E2 as ([[nh nl] cnt] & _ & E2). apply outcome_bind_inv in E2 as ([] & _ & E2). by injection E2 as <-.
Qed.

Lemma evict_loop_keeps fuel full c c' : evict_loop fuel full c = Ok c' → keeps c c'.
Proof.
  revert c. induction fuel as [|fuel IH]; intros c; cbn [evict_loop]; [done|]. destruct (_ || _); [|by intros [= <-]].
  intros (old & _ & E)%outcome_bind_inv. destruct (decide _); [by injection E as <-|].
  apply outcome_bind_inv in E as (c1 & E1 & E). apply IH in E. etransitivity; [|exact E]. clear E. unfold evict_oldest in E1.
  destruct old as [| |h]; [done..|]. apply outcome_bind_inv in E1 as (e & _ & E1). apply outcome_bind_inv in E1 as ([] & _ & E1).
  apply outcome_bind_inv in E1 as (k & _ & E1). apply outcome_bind_inv in E1 as (r & Er & E1).
  apply outcome_bind_inv in E1 as (r' & Er' & E1). apply outcome_bind_inv in E1 as ([] & _ & E1). injection E1 as <-.
  apply HandleTable_Remove_heap in Er. apply FinishErase_keeps in Er'. etransitivity; [by apply keeps_heap|exact Er'].
Qed.

Lemma LRUCache_Lookup_keeps c key hash r : LRUCache_Lookup c key hash = Ok r → keeps c r.2.
Proof.
  unfold LRUCache_Lookup. intros (o & _ & E)%outcome_bind_inv. destruct o as [h|]; [|by injection E as <-].
  apply outcome_bind_inv in E as (c' & E1 & E). injection E as <-. by apply Ref_keeps in E1.
Qed.

(** A new handle, or one that was there. *)
Lemma LRUCache_Insert_has c key hash value charge r k v :
  LRUCache_Insert c key hash value charge = Ok r → has r.2 k v → k = key ∧ v = value ∨ has c k v.
Proof.
  unfold LRUCache_Insert. destruct (new_handle c key hash value charge) as [h c0] eqn:En.
  intros (c1 & E1 & E)%outcome_bind_inv Hh. apply outcome_bind_inv in E as (c2 & E2 & E). injection E as <-.
  apply (evict_loop_keeps _ _ _ _ E2) in Hh. clear E2.
  assert (has c0 k v) as (x & e & Hx & <- & <-).
  { destruct (0 <? capacity_ c0); [|by injection E1 as <-]. apply outcome_bind_inv in E1 as (e & He%get_handle_inv & E1). cbv zeta in E1.
    set (e' := set_in_cache _ true) in E1. apply outcome_bind_inv in E1 as (c3 & E3%LRU_Append_heap & E1).
    apply outcome_bind_inv in E1 as (r & Er%HandleTable_Insert_heap & E1). apply outcome_bind_inv in E1 as (r' & Er' & E1).
    injection E1 as <-. apply (FinishErase_keeps _ _ _ Er') in Hh. apply (keeps_handle c0 h e e' He eq_refl eq_refl).
    revert Hh. apply keeps_heap. rewrite Er. exact E3. }
  injection En as <- <-. cbn [heap] in Hx. destruct (decide (x = allocated c)) as [->|Hne].
  - rewrite lookup_insert_eq in Hx. injection Hx as <-. by left.
  - rewrite lookup_insert_ne in Hx by done. right. by exists x, e.
Qed.

(** A search ends at a handle of the key. *)
Lemma FindPointer_key fuel c key hash p q h :
  FindPointer_loop fuel c key hash p = Ok q → read_slot c q = Ok (Some h) → ∃ e, heap c !! h = Some e ∧ lh_key e = key.
Proof.
  revert p. induction fuel as [|fuel IH]; intros p; cbn [FindPointer_loop]; [done|].
  intros (o & Eo & E)%outcome_bind_inv Hq. destruct o as [x|]; [|injection E as <-; congruence].
  apply outcome_bind_inv in E as (e & He & E). apply outcome_bind_inv in E as (other & Ex & E).
  destruct other; [by eapply IH|]. injection E as <-. assert (x = h) as -> by congruence.
  exists e. apply get_handle_inv in He as Hh. split; [done|].
  destruct (negb (lh_hash e =? hash)); [done|]. apply outcome_bind_inv in Ex as (k & Ek & Ex). injection Ex as Ex.
  apply negb_false_iff, bool_decide_eq_true in Ex. subst k. unfold handle_key in Ek. rewrite He in Ek. cbn [mbind outcome_bind] in Ek.
  apply outcome_bind_inv in Ek as ([] & _ & Ek). by injection Ek.
Qed.

Lemma LRUCache_Lookup_key c key hash h c' :
  LRUCache_Lookup c key hash = Ok (Some h, c') → ∃ e, heap c' !! h = Some e ∧ lh_key e = key.
Proof.
  unfold LRUCache_Lookup, HandleTable_Lookup, FindPointer. intros (o & Eo & E)%outcome_bind_inv.
  destruct o as [x|]; [|done]. apply outcome_bind_inv in E as (c1 & E1 & E). injection E as -> ->.
  apply outcome_bind_inv in Eo as (q & Eq & Eo). destruct (FindPointer_key _ _ _ _ _ _ _ Eq Eo) as (e & He & Hk).
  unfold Ref in E1. apply outcome_bind_inv in E1 as (e1 & He1%get_handle_inv & E1).
  apply outcome_bind_inv in E1 as (c2 & _ & E1). injection E1 as <-. exists (set_refs e1 (u32 (lh_refs e1 + 1))).
  cbn [set_handle heap]. rewrite lookup_insert_eq. split; [done|]. cbn [set_refs lh_key]. congruence.
Qed.

End handles.

(** ** The sharded cache as the cache of blocks *)

Abbreviation block_cache := (ShardedLRUCache TableBlock).

(** [block_cache->Lookup] and [Value]; the handle is released with the iterator of the block. *)
Definition lookup_block (key : Slice) (c : block_cache) : outcome (option TableBlock * block_cache) :=
  r ← Cache_Lookup c key;
  match r.1 with
  | None => Ok (None, r.2)
  | Some cache_handle =>
      block ← Cache_Value r.2 cache_handle;
      c ← Cache_Release r.2 cache_handle;
      Ok (Some block, c)
  end.

Definition insert_block (key : Slice) (block : TableBlock) (charge : Z) (c : block_cache) : outcome block_cache :=
  r ← Cache_Insert c key block charge;
  Cache_Release r.2 r.1.

(** They end without a fault while there is room ([blocks_ok] below). *)
#[export] Instance lru_blocks : BlockCache block_cache := {|
  NewId := Cache_NewId;
  cache_Lookup key c := match lookup_block key c with Ok r => r | _ => (None, c) end;
  cache_Insert key block charge c := match insert_block key block charge c with Ok c => c | _ => c end
|}.

(** Some shard has it. *)
Definition caches (c : block_cache) (key : Slice) (block : TableBlock) : Prop :=
  ∃ i s, shard_ c !! i = Some s ∧ has s key block.

Lemma get_shard_inv (c : block_cache) i s : get_shard c i = Ok s → shard_ c !! i = Some s.
Proof. unfold get_shard. destruct (shard_ c !! i); [by intros [= ->]|done]. Qed.

Lemma set_shard_caches (c : block_cache) i s s' k b :
  shard_ c !! i = Some s → caches (set_shard c i s') k b → has s' k b ∨ caches c k b.
Proof.
  intros Hi (j & x & Hj & Hx). cbn [set_shard shard_] in Hj. destruct (decide (j = i)) as [->|Hne].
  - rewrite list_lookup_insert_eq in Hj by (by eapply lookup_lt_Some). injection Hj as <-. by left.
  - rewrite list_lookup_insert_ne in Hj by done. right. by exists j, x.
Qed.

Lemma set_shard_keeps (c : block_cache) i s s' k b :
  shard_ c !! i = Some s → keeps s s' → caches (set_shard c i s') k b → caches c k b.
Proof. intros Hi Hs Hc. destruct (set_shard_caches c i s s' k b Hi Hc) as [Hh|]; [|done]. exists i, s. split; [done|by apply Hs]. Qed.

Lemma Cache_Release_keeps (c : block_cache) hd c' k b : Cache_Release c hd = Ok c' → caches c' k b → caches c k b.
Proof.
  unfold Cache_Release. intros (s & Hs%get_shard_inv & E)%outcome_bind_inv. apply outcome_bind_inv in E as (s' & E1%Unref_keeps & E).
  injection E as <-. by eapply set_shard_keeps.
Qed.

Lemma Cache_Lookup_keeps (c : block_cache) key r k b : Cache_Lookup c key = Ok r → caches r.2 k b → caches c k b.
Proof.
  unfold Cache_Lookup. cbv zeta. intros (s & Hs%get_shard_inv & E)%outcome_bind_inv.
  apply outcome_bind_inv in E as (x & E1%LRUCache_Lookup_keeps & E). injection E as <-. by eapply set_shard_keeps.
Qed.

Lemma lookup_block_keeps key c r k b : lookup_block key c = Ok r → caches r.2 k b → caches c k b.
Proof.
  unfold lookup_block. intros (x & E1 & E)%outcome_bind_inv Hc. eapply Cache_Lookup_keeps; [exact E1|].
  destruct x.1 as [hd|]; [|by injection E as <-]. apply outcome_bind_inv in E as (block & _ & E).
  apply outcome_bind_inv in E as (c2 & E2 & E). injection E as <-. by eapply Cache_Release_keeps.
Qed.

Lemma lookup_block_held key c block c' : lookup_block key c = Ok (Some block, c') → caches c key block.
Proof.
  unfold lookup_block. intros (x & E1 & E)%outcome_bind_inv. destruct x as [[hd|] c1]; cbn [fst snd] in E; [|done].
  apply outcome_bind_inv in E as (b & Eb & E). apply outcome_bind_inv in E as (c2 & _ & E). injection E as -> _.
  apply (Cache_Lookup_keeps _ _ _ _ _ E1). unfold Cache_Lookup in E1. cbv zeta in E1.
  apply outcome_bind_inv in E1 as (s & Hs%get_shard_inv & E1). apply outcome_bind_inv in E1 as ([[h|] s'] & E2 & E1); [|done].
  injection E1 as <- <-. unfold Cache_Value in Eb. cbn [hd_hash hd_at snd] in Eb |- *.
  apply outcome_bind_inv in Eb as (s2 & Hs2%get_shard_inv & Eb). unfold set_shard in Hs2 |- *. cbn [shard_] in Hs2 |- *.
  rewrite list_lookup_insert_eq in Hs2 by (by eapply lookup_lt_Some). injection Hs2 as <-.
  apply outcome_bind_inv in Eb as (e & He%get_handle_inv & Eb). injection Eb as <-.
  destruct (LRUCache_Lookup_key _ _ _ _ _ E2) as (e' & He' & Hk). assert (e' = e) as -> by congruence.
  eexists _, s'. cbn [shard_]. rewrite list_lookup_insert_eq by (by eapply lookup_lt_Some). split; [done|]. by exists h, e.
Qed.

Lemma insert_block_caches key block charge c c' k b :
  insert_block key block charge c = Ok c' → caches c' k b → k = key ∧ b = block ∨ caches c k b.
Proof.
  unfold insert_block, Cache_Insert. cbv zeta. intros (r & E1 & E)%outcome_bind_inv Hc.
  apply (Cache_Release_keeps _ _ _ _ _ E) in Hc. apply outcome_bind_inv in E1 as (s & Hs%get_shard_inv & E1).
  apply outcome_bind_inv in E1 as (x & E2 & E1). injection E1 as <-. cbn [snd] in Hc.
  destruct (set_shard_caches _ _ _ _ _ _ Hs Hc) as [Hh|]; [|by right].
  destruct (LRUCache_Insert_has _ _ _ _ _ _ _ _ E2 Hh) as [?|Hold]; [by left|]. right. by eexists _, s.
Qed.

#[export] Instance lru_blocks_laws : BlockCacheLaws block_cache.
Proof.
  refine {| held := caches |}.
  - intros key c block c'. cbn [cache_Lookup lru_blocks]. destruct (lookup_block key c) as [r| |] eqn:E; [|done..].
    intros ->. by eapply lookup_block_held.
  - intros key c found c' k b. cbn [cache_Lookup lru_blocks]. destruct (lookup_block key c) as [r| |] eqn:E; [|by intros [= _ <-]..].
    intros ->. by apply (lookup_block_keeps _ _ _ _ _ E).
  - intros key block charge c k b. cbn [cache_Insert lru_blocks]. destruct (insert_block key block charge c) as [c'| |] eqn:E; [|by right..].
    by apply insert_block_caches with charge.
Defined.

(** Nothing is in a new cache. *)
Lemma new_blocks_partitioned capacity : partitioned (Some (new_ShardedLRUCache (V := TableBlock) capacity)).
Proof.
  intros c key block [= <-] (i & s & Hs & h & e & He & _). cbn [NewId lru_blocks Cache_NewId snd shard_ new_ShardedLRUCache] in Hs.
  apply lookup_replicate in Hs as [-> _]. cbn in He. by rewrite lookup_empty in He.
Qed.

(** ** No operation faults

    Every shard implements a reference cache of which nothing is held; [room] is how many
    more entries there may be. *)
Definition shard_ok (room : Z) (s : LRUCache TableBlock) : Prop :=
  ∃ rs, implements s rs ∧ wf rs [] ∧ len (rc_cached rs) + room < 2 ^ 31.

Record blocks_ok (room : Z) (c : block_cache) : Prop := {
  blocks_shards : length (shard_ c) = Z.to_nat kNumShards;
  blocks_each : Forall (shard_ok room) (shard_ c)
}.

Lemma new_blocks_ok capacity : blocks_ok (2 ^ 31 - 1) (new_ShardedLRUCache capacity).
Proof.
  split; [by apply length_replicate|]. apply Forall_replicate. eexists. split; [apply new_implements|]. split; [apply new_wf|]. done.
Qed.

Lemma Hash_words_width data h : in_width 32 h → in_width 32 (Hash_words data h).1.
Proof.
  revert h. induction data as [data IH] using (induction_ltof1 _ (@length Z)); unfold ltof in IH. intros h Hh.
  destruct data as [|a [|b [|c [|d data]]]]; try exact Hh. cbn [Hash_words]. cbv zeta. apply IH; [cbn [length]; lia|].
  set (x := u32 _). assert (in_width 32 x) as Hx by (apply wrap_in_width; lia). apply lxor_in_width; [lia|done|].
  unfold in_width in *. rewrite Z.shiftr_div_pow2 by lia. split; [apply Z.div_pos; lia|]. apply Z.div_lt_upper_bound; lia.
Qed.

Lemma HashSlice_width s : in_width 32 (HashSlice s).
Proof.
  unfold HashSlice, Hash. cbv zeta.
  assert (in_width 32 (Hash_words s (u32 (Z.lxor 0 (u64 (len s * hash_m))))).1) as Hw by (apply Hash_words_width, wrap_in_width; lia).
  assert (∀ h b, in_width 32 (Z.lxor (u32 (u32 (h + b) * hash_m)) (Z.shiftr (u32 (u32 (h + b) * hash_m)) hash_r))) as Hlast.
  { intros h b. set (x := u32 (u32 _ * _)). assert (in_width 32 x) as Hx by (apply wrap_in_width; lia). apply lxor_in_width; [lia|done|].
    unfold in_width, hash_r in *. rewrite Z.shiftr_div_pow2 by lia. split; [apply Z.div_pos; lia|]. apply Z.div_lt_upper_bound; lia. }
  unfold Hash_tail. cbv zeta. destruct (Hash_words _ _).2 as [|a [|b [|c [|d l]]]]; try done; apply Hlast.
Qed.

Lemma shard_of room c hash : blocks_ok room c → in_width 32 hash → ∃ s, get_shard c (Shard hash) = Ok s ∧ shard_ c !! Shard hash = Some s ∧ shard_ok room s.
Proof.
  intros [Hl Hall] Hh. destruct (lookup_lt_is_Some_2 (shard_ c) (Shard hash)) as [s Hs].
  { rewrite Hl. unfold Shard, in_width in *. rewrite Z.shiftr_div_pow2 by done. change (32 - kNumShardBits) with 28.
    change (Z.to_nat kNumShards) with 16%nat. assert (hash / 2 ^ 28 < 16) by (apply Z.div_lt_upper_bound; lia). lia. }
  exists s. unfold get_shard. rewrite Hs. split; [done|]. split; [done|]. by eapply Forall_lookup_1.
Qed.

Lemma set_shard_ok room c i s' : blocks_ok room c → shard_ok room s' → blocks_ok room (set_shard c i s').
Proof. intros [Hl Hall] Hs. split; cbn; [by rewrite length_insert|]. by apply Forall_insert. Qed.

(** The handle that an operation gave is released again. *)
Lemma release_ok room (s : LRUCache TableBlock) rs h :
  implements s rs → wf rs [h] → len (rc_cached rs) + room < 2 ^ 31 →
  ∃ e s', get_handle s h = Ok e ∧ LRUCache_Release s h = Ok s' ∧ shard_ok room s'.
Proof.
  intros Hs Hwf Hr. pose proof (rc_op_length rs [h] (OpRelease h) (proj1 Hwf)) as Hl.
  destruct (sound_held _ _ (proj1 Hwf) h) as (e & He); [by left|]. exists e.
  destruct (Release_ok s rs [] h Hs Hwf) as (s' & E & Hs' & Hwf'). exists s'. split.
  - unfold get_handle. by rewrite (repr_heap _ _ _ Hs), He.
  - split; [done|]. eexists. split; [done|]. split; [done|]. cbn [rc_op snd] in Hl. lia.
Qed.

Lemma lookup_block_ok room key c :
  0 ≤ room → blocks_ok room c → ∃ found c', lookup_block key c = Ok (found, c') ∧ blocks_ok room c'.
Proof.
  intros Hroom Hc. pose proof (HashSlice_width key) as Hh. unfold lookup_block, Cache_Lookup. cbv zeta.
  destruct (shard_of room c _ Hc Hh) as (s & -> & Hs & rs & Hi & Hwf & Hlen). cbn [mbind outcome_bind].
  destruct (Lookup_ok s rs [] key (HashSlice key) Hi Hwf Hh ltac:(done)) as (s' & -> & Hi' & Hwf').
  pose proof (rc_op_length rs [] (OpLookup key (HashSlice key)) (proj1 Hwf)) as Hl. cbn [rc_op] in Hl.
  assert (len (rc_cached (rc_Lookup rs key (HashSlice key)).2) + room < 2 ^ 31) as Hlen' by lia.
  cbn [mbind outcome_bind fst snd]. destruct (rc_Lookup rs key (HashSlice key)).1 as [h|].
  - destruct (release_ok room s' _ h Hi' Hwf' Hlen') as (e & s2 & He & Er & Hok).
    unfold Cache_Value, Cache_Release. cbn [hd_hash hd_at]. unfold get_shard, set_shard. cbn [shard_].
    rewrite list_lookup_insert_eq by (by eapply lookup_lt_Some). cbn [mbind outcome_bind]. rewrite He. cbn [mbind outcome_bind].
    rewrite Er. cbn [mbind outcome_bind]. eexists _, _. split; [reflexivity|]. rewrite list_insert_insert_eq. by apply (set_shard_ok room c).
  - eexists _, _. split; [reflexivity|]. apply set_shard_ok; [done|]. by eexists.
Qed.

Lemma insert_block_ok room key block charge c :
  0 ≤ room → blocks_ok (room + 1) c → ∃ c', insert_block key block charge c = Ok c' ∧ blocks_ok room c'.
Proof.
  intros Hroom Hc. pose proof (HashSlice_width key) as Hh. unfold insert_block, Cache_Insert. cbv zeta.
  destruct (shard_of _ c _ Hc Hh) as (s & -> & Hs & rs & Hi & Hwf & Hlen). cbn [mbind outcome_bind].
  destruct (LRUCache_Insert_ok s rs [] key (HashSlice key) block charge Hi Hwf Hh ltac:(lia)) as (s' & -> & Hi' & Hwf').
  pose proof (rc_op_length rs [] (OpInsert key (HashSlice key) block charge) (proj1 Hwf)) as Hl. cbn [rc_op snd] in Hl.
  destruct (release_ok room s' _ _ Hi' Hwf' ltac:(lia)) as (e & s2 & _ & Er & Hok).
  cbn [mbind outcome_bind fst snd]. unfold Cache_Release. cbn [hd_hash hd_at]. unfold get_shard, set_shard. cbn [shard_].
  rewrite list_lookup_insert_eq by (by eapply lookup_lt_Some). cbn [mbind outcome_bind]. rewrite Er. cbn [mbind outcome_bind].
  eexists. split; [reflexivity|]. rewrite list_insert_insert_eq. apply (set_shard_ok room c); [|done].
  destruct Hc as [Hn Hall]. split; [done|]. eapply Forall_impl; [exact Hall|]. intros x (r & Hx1 & Hx2 & Hx3). exists r. split_and!; [done|done|lia].
Qed.
