(* ===== verification/LdbTable.v ===== *)
(** * LevelDB, table/table: reading a table

    Opening a table file, its iterator and its lookups (table/table.cc), over the files of
    LdbRandom.v, the blocks of LdbBlock.v and the two-level iterator, with the cache of
    blocks of LdbBlockCache.v as an interface.  What TableBuilder wrote is read back. *)

From S2P Require Import Prelude LdbCoding LdbCrc LdbEnv LdbRandom LdbOrder LdbFilter LdbIter LdbTwoLevel LdbBlock LdbBlockCache LdbTableFormat LdbTableBuilder.

(** ** The iterator of a block

    [Block::NewIterator] makes an iterator of a block or an empty one. *)
Inductive BlockIterator : Type :=
  | NoBlock (it : EmptyIterator)
  | OnBlock (blk : block_of_iter) (it : Iter).

Section block_iterator.
Context `{Comparator}.

Definition Block_NewIterator (b : TableBlock) : outcome BlockIterator :=
  r ← LdbBlock.NewIterator b;
  match r with
  | inl s => Ok (NoBlock {| empty_status := s |})
  | inr (blk, it) => Ok (OnBlock blk it)
  end.

(** The iterator and its block stay together. *)
Definition lift_iterator (on_empty : EmptyIterator → outcome EmptyIterator) (on_block : block_of_iter → Iter → outcome Iter)
    (i : BlockIterator) : outcome BlockIterator :=
  match i with
  | NoBlock it => it ← on_empty it; Ok (NoBlock it)
  | OnBlock blk it => it ← on_block blk it; Ok (OnBlock blk it)
  end.

#[export] Instance table_block_iterator : Iterator BlockIterator := {|
  Iterator_Valid i := match i with NoBlock it => Iterator_Valid it | OnBlock blk it => Valid blk it end;
  Iterator_SeekToFirst := lift_iterator Iterator_SeekToFirst SeekToFirst;
  Iterator_SeekToLast := lift_iterator Iterator_SeekToLast SeekToLast;
  Iterator_Seek i target := lift_iterator (λ it, Iterator_Seek it target) (λ blk it, Seek blk it target) i;
  Iterator_Next := lift_iterator Iterator_Next Next;
  Iterator_Prev := lift_iterator Iterator_Prev Prev;
  Iterator_key i := match i with NoBlock it => Iterator_key it | OnBlock blk it => Iter_key blk it end;
  Iterator_value i := match i with NoBlock it => Iterator_value it | OnBlock blk it => Iter_value blk it end;
  Iterator_status i := match i with NoBlock it => Iterator_status it | OnBlock blk it => status_ it end
|}.

End block_iterator.

(** ** [Table] *)

Section table.
Context `{Comparator} `{FilterPolicy} `{Memory} `{Snappy} {F C : Type} `{RandomAccessFile F} `{BlockCache C}.

(** [Table::Rep]. *)
Record Table : Type := {
  tb_options : Options; tb_file : F; tb_cache_id : Z; tb_filter : option FilterBlockReader;
  tb_metaindex_handle : BlockHandle; tb_index_block : TableBlock
}.

Definition set_tb_filter (rep : Table) (f : FilterBlockReader) : Table :=
  {| tb_options := tb_options rep; tb_file := tb_file rep; tb_cache_id := tb_cache_id rep; tb_filter := Some f;
     tb_metaindex_handle := tb_metaindex_handle rep; tb_index_block := tb_index_block rep |}.

(** Opening reads with the checksums only when told to be paranoid. *)
Definition opening_options (options : Options) : ReadOptions :=
  if paranoid_checks options then {| verify_checksums := true; fill_cache := true |} else new_ReadOptions.

Definition ReadFilter (rep : Table) (filter_handle_value : Slice) : outcome Table :=
  let '(s, filter_handle, _) := BlockHandle_DecodeFrom new_BlockHandle filter_handle_value in
  if negb (ok s) then Ok rep
  else
    r ← ReadBlock (tb_file rep) (opening_options (tb_options rep)) filter_handle;
    if negb (ok r.1) then Ok rep
    else reader ← new_FilterBlockReader (bc_data r.2); Ok (set_tb_filter rep reader).

(** The metaindex block is ordered bytewise; errors in it are not reported. *)
Definition ReadMeta (rep : Table) (footer : Footer) : outcome Table :=
  match opt_filter_policy (tb_options rep) with
  | None => Ok rep
  | Some name =>
      r ← ReadBlock (tb_file rep) (opening_options (tb_options rep)) (metaindex_handle_ footer);
      if negb (ok r.1) then Ok rep
      else
        meta ← new_Block (bc_data r.2);
        iter ← @Block_NewIterator meta;
        let key := filter_key name in
        iter ← @Iterator_Seek _ (@table_block_iterator BytewiseComparator) iter key;
        if @Iterator_Valid _ (@table_block_iterator BytewiseComparator) iter then
          k ← @Iterator_key _ (@table_block_iterator BytewiseComparator) iter;
          if decide (k = key) then
            value ← @Iterator_value _ (@table_block_iterator BytewiseComparator) iter;
            ReadFilter rep value
          else Ok rep
        else Ok rep
  end.

(** The status, the table or NULL, and the cache, which hands out a number. *)
Definition Table_Open (options : Options) (file : F) (size : Z) (cache : option C) :
    outcome (Status * option Table * option C) :=
  if size <? kEncodedLength then Ok (Corruption (text "file is too short to be an sstable") [], None, cache)
  else
    r ← Read_at (size - kEncodedLength) kEncodedLength file;
    if negb (ok r.1) then Ok (r.1, None, cache)
    else
      f ← Footer_DecodeFrom new_Footer r.2.1;
      let '(s, footer, _) := f in
      if negb (ok s) then Ok (s, None, cache)
      else
        r ← ReadBlock file (opening_options options) (index_handle_ footer);
        if negb (ok r.1) then Ok (r.1, None, cache)
        else
          index_block ← new_Block (bc_data r.2);
          let '(cache_id, cache) := match cache with None => (0, None) | Some c => let '(i, c) := NewId c in (i, Some c) end in
          rep ← ReadMeta {| tb_options := options; tb_file := file; tb_cache_id := cache_id; tb_filter := None;
                            tb_metaindex_handle := metaindex_handle_ footer; tb_index_block := index_block |} footer;
          Ok (r.1, Some rep, cache).

(** The key of a block in the cache. *)
Definition cache_key (rep : Table) (handle : BlockHandle) : Slice :=
  EncodeFixed64 (tb_cache_id rep) ++ EncodeFixed64 (bh_offset handle).

(** Reading the block of a handle, through the cache if there is one. *)
Definition read_through (rep : Table) (options : ReadOptions) (handle : BlockHandle) (cache : option C) :
    outcome ((Status + TableBlock) * option C) :=
  let read : outcome (Status + TableBlock * bool) :=
    r ← ReadBlock (tb_file rep) options handle;
    if ok r.1 then block ← new_Block (bc_data r.2); Ok (inr (block, bc_cachable r.2)) else Ok (inl r.1) in
  match cache with
  | None =>
      b ← read;
      Ok (match b with inl s => inl s | inr (block, _) => inr block end, None)
  | Some c =>
      let key := cache_key rep handle in
      let '(found, c) := cache_Lookup key c in
      match found with
      | Some block => Ok (inr block, Some c)
      | None =>
          b ← read;
          match b with
          | inl s => Ok (inl s, Some c)
          | inr (block, cachable) =>
              Ok (inr block, Some (if cachable && fill_cache options then cache_Insert key block (size_ block) c else c))
          end
      end
  end.

Definition BlockReader (rep : Table) (options : ReadOptions) (index_value : Slice) (cache : option C) :
    outcome (BlockIterator * option C) :=
  let '(s, handle, _) := BlockHandle_DecodeFrom new_BlockHandle index_value in
  if negb (ok s) then Ok (NoBlock (NewErrorIterator s), cache)
  else
    r ← read_through rep options handle cache;
    match r.1 with
    | inl s => Ok (NoBlock (NewErrorIterator s), r.2)
    | inr block => iter ← Block_NewIterator block; Ok (iter, r.2)
    end.

(** What [BlockReader] gives the two-level iterator; whatever a cache holds, it is the
    block of the file, and so the iterator is run over one state of the cache. *)
Definition block_reader (rep : Table) (options : ReadOptions) (cache : option C) (index_value : Slice) : outcome BlockIterator :=
  r ← BlockReader rep options index_value cache; Ok r.1.

Definition Table_NewIterator (rep : Table) : outcome (TwoLevelIterator BlockIterator BlockIterator) :=
  index_iter ← Block_NewIterator (tb_index_block rep);
  new_TwoLevelIterator index_iter.

(** The entry that [handle_result] is called with, if it is. *)
Definition InternalGet (rep : Table) (options : ReadOptions) (k : Slice) (cache : option C) :
    outcome (Status * option (Slice * Slice) * option C) :=
  iiter ← Block_NewIterator (tb_index_block rep);
  iiter ← Iterator_Seek iiter k;
  r ← (if Iterator_Valid iiter then
         handle_value ← Iterator_value iiter;
         may_match ← match tb_filter rep with
                     | None => Ok true
                     | Some filter =>
                         let '(s, handle, _) := BlockHandle_DecodeFrom new_BlockHandle handle_value in
                         if ok s then FilterBlock_KeyMayMatch filter (bh_offset handle) k else Ok true
                     end;
         if may_match : bool then
           handle_value ← Iterator_value iiter;
           b ← BlockReader rep options handle_value cache;
           block_iter ← Iterator_Seek b.1 k;
           result ← (if Iterator_Valid block_iter then
                       key ← Iterator_key block_iter;
                       value ← Iterator_value block_iter;
                       Ok (Some (key, value))
                     else Ok None);
           Ok (Iterator_status block_iter, result, b.2)
         else Ok (status_OK, None, cache)
       else Ok (status_OK, None, cache));
  let '(s, result, cache) := r in
  Ok (if ok s then Iterator_status iiter else s, result, cache).

Definition ApproximateOffsetOf (rep : Table) (key : Slice) : outcome Z :=
  index_iter ← Block_NewIterator (tb_index_block rep);
  index_iter ← Iterator_Seek index_iter key;
  if Iterator_Valid index_iter then
    input ← Iterator_value index_iter;
    let '(s, handle, _) := BlockHandle_DecodeFrom new_BlockHandle input in
    Ok (if ok s then bh_offset handle else bh_offset (tb_metaindex_handle rep))
  else Ok (bh_offset (tb_metaindex_handle rep)).

End table.

Arguments Table F : clear implicits.

(** ** What a lookup finds

    A block of the table: the key that the index has for it, its offset, its entries. *)
Record indexed_block : Type := { ib_limit : Slice; ib_offset : Z; ib_entries : list (Slice * Slice) }.

Section finds.
Context `{ComparatorLaws}.

(** The first entry at or above a key. *)
Definition first_at (k : Slice) (entries : list (Slice * Slice)) : option (Slice * Slice) :=
  entries !! LdbIter.lower_bound k entries.

(** Only one block is looked at, the first whose limit is not below the key, and only if the
    filter lets it. *)
Fixpoint table_finds (allowed : Z → bool) (blocks : list indexed_block) (k : Slice) : option (Slice * Slice) :=
  match blocks with
  | [] => None
  | b :: blocks =>
      if order (ib_limit b) k <? 0 then table_finds allowed blocks k
      else if allowed (ib_offset b) then first_at k (ib_entries b) else None
  end.

(** The blocks have the entries one after the other, and each limit is between those of
    its block and those behind it. *)
Record divides (es : list (Slice * Slice)) (blocks : list indexed_block) : Prop := {
  divides_entries : concat (map ib_entries blocks) = es;
  divides_limits i b : blocks !! i = Some b →
    separates es (ib_limit b) (length (concat (map ib_entries (take (S i) blocks))))
}.

(** An entry that is told apart from a key, by the limit of a block or by the filter. *)
Definition told_apart (blocks : list indexed_block) (allowed : Z → bool) (k : Slice) (e : Slice * Slice) : Prop :=
  ∃ b, b ∈ blocks ∧ order k (ib_limit b) ≤ 0 ∧
    (order (ib_limit b) e.1 < 0 ∨ e ∈ ib_entries b ∧ allowed (ib_offset b) = false).

(** What is found is the first entry at or above the key; nothing, when all of those are told
    apart from it. *)
Definition looked_up (es : list (Slice * Slice)) (blocks : list indexed_block) (allowed : Z → bool) (k : Slice)
    (result : option (Slice * Slice)) : Prop :=
  match result with
  | Some e => first_at k es = Some e
  | None => ∀ key value, (key, value) ∈ es → 0 ≤ order key k → told_apart blocks allowed k (key, value)
  end.

(** What the filter of a table says of the block at an offset. *)
Definition filter_allows `{FilterPolicy} {F : Type} (rep : Table F) (k : Slice) (off : Z) : bool :=
  match tb_filter rep with
  | None => true
  | Some filter => match FilterBlock_KeyMayMatch filter off k with Ok may => may | _ => true end
  end.

End finds.

(** ** Iterators of blocks *)

Section block_iterates.
Context `{ComparatorLaws}.

(** A block iterator at a position of the entries of a block. *)
Definition on_block (items : list item) (rho : list nat) (i : BlockIterator) (c : nat) : Prop :=
  ∃ it, i = OnBlock (laid items rho) it ∧ cursor items rho it c.

Lemma on_block_iterates items rho :
  layout items rho → len (block_bytes items rho) < 2 ^ 32 → increasing (map i_key items) →
  iterates (map entry_of items) (on_block items rho).
Proof.
  intros HL Hs Hi. destruct (layout_iterates items rho HL Hs Hi) as [H1 H2 H3 H4 H5 H6 H7 H8].
  split.
  - intros ? c (it & -> & Hc). by apply H1.
  - intros ? c (it & -> & Hc). by apply H2 with c.
  - intros ? c key value (it & -> & Hc) He. by apply H3 with c.
  - intros ? c (it & -> & Hc). destruct (H4 it c Hc) as (it' & E & Hc'). exists (OnBlock (laid items rho) it').
    cbn in E |- *. rewrite E. split; [done|]. by exists it'.
  - intros ? c (it & -> & Hc). destruct (H5 it c Hc) as (it' & E & Hc'). exists (OnBlock (laid items rho) it').
    cbn in E |- *. rewrite E. split; [done|]. by exists it'.
  - intros ? c (it & -> & Hc) Hlt. destruct (H6 it c Hc Hlt) as (it' & E & Hc'). exists (OnBlock (laid items rho) it').
    cbn in E |- *. rewrite E. split; [done|]. by exists it'.
  - intros ? c (it & -> & Hc) Hlt. destruct (H7 it c Hc Hlt) as (it' & E & Hc'). exists (OnBlock (laid items rho) it').
    cbn in E |- *. rewrite E. split; [done|]. by exists it'.
  - intros ? c target (it & -> & Hc) Ht. destruct (H8 it c target Hc Ht) as (it' & c' & E & Hc' & Hsp).
    exists (OnBlock (laid items rho) it'), c'. cbn in E |- *. rewrite E. split; [done|]. split; [by exists it'|done].
Qed.

(** What is stored as a block opens as one. *)
Lemma Block_NewIterator_ok items rho :
  layout items rho → len (block_bytes items rho) < 2 ^ 32 →
  ∃ blk i, new_Block (block_bytes items rho) = Ok blk ∧ Block_NewIterator blk = Ok i ∧ on_block items rho i (length items).
Proof.
  intros HL Hs. destruct (NewIterator_ok items rho HL Hs) as (it & E & Hc).
  apply outcome_bind_inv in E as (blk & Hb & E). exists blk, (OnBlock (laid items rho) it).
  split; [done|]. split; [|by exists it]. unfold Block_NewIterator. by rewrite E.
Qed.

End block_iterates.

(** ** A table that was built *)

Lemma lookup_zip_index seps bs i : zip_with index_entry seps bs !! i =
  match seps !! i, bs !! i with Some sep, Some b => Some (index_entry sep b) | _, _ => None end.
Proof. rewrite lookup_zip_with. by destruct (seps !! i), (bs !! i). Qed.

Section opened.
Context `{ComparatorLaws} `{FilterPolicyLaws} `{Memory} `{SnappyLaws} {F C : Type} `{RandomAccessFileLaws F} `{BlockCacheLaws C}.
Context (options : Options) (image : list Z) (es : list (Slice * Slice)) (bs : list block_in) (seps : list Slice).
Context (f : Footer) (idx : list item) (rho : list nat) (TI : table_image options image es bs seps f idx rho).
Context (file : F) (Hfile : readable file image).

Abbreviation data_bytes b := (block_bytes (bi_items b) (bi_rho b)).

(** A filter for each block. *)
Definition matching (reader : FilterBlockReader) : Prop :=
  ∀ b, b ∈ bs → ∃ g, len g < 2 ^ 32 ∧
    (∀ key, FilterBlock_KeyMayMatch reader (bh_offset (bi_handle b)) key = KeyMayMatch key g) ∧
    ∀ key, key ∈ map i_key (bi_items b) → KeyMayMatch key g = Ok true.

Definition filtered (filter : option FilterBlockReader) : Prop :=
  match filter with None => opt_filter_policy options = None | Some reader => is_Some (opt_filter_policy options) ∧ matching reader end.

(** What an open table is. *)
Record opens (rep : Table F) : Prop := {
  opens_options : tb_options rep = options;
  opens_file : tb_file rep = file;
  opens_meta : tb_metaindex_handle rep = metaindex_handle_ f;
  opens_index : new_Block (block_bytes idx rho) = Ok (tb_index_block rep);
  opens_filter : filtered (tb_filter rep)
}.

Lemma image_small : len image < 2 ^ 62.
Proof. pose proof (ti_size _ _ _ _ _ _ _ _ TI). lia. Qed.

Lemma ReadBlock_image ropts h contents :
  stores image h contents → ∃ bc, ReadBlock file ropts h = Ok (status_OK, bc) ∧ bc_data bc = contents.
Proof. intros Hs. eapply ReadBlock_stored; [exact Hfile|exact image_small|done]. Qed.

(** *** Opening *)

Lemma ReadFilter_ok rep h contents :
  tb_file rep = file → handle_ok h → stores image h contents → filters bs contents →
  ∃ reader, ReadFilter rep (encode_handle h) = Ok (set_tb_filter rep reader) ∧ matching reader.
Proof.
  intros Hf Hh Hs (reader & Hr & Hans). exists reader. split; [|done]. unfold ReadFilter.
  rewrite BlockHandle_DecodeFrom_whole by done. cbn [ok status_OK negb].
  destruct (ReadBlock_image (opening_options (tb_options rep)) h contents Hs) as (bc & E & Hbc). rewrite Hf, E.
  cbn [mbind outcome_bind fst snd ok status_OK negb]. by rewrite Hbc, Hr.
Qed.

(** A position of one entry, from a seek to its key. *)
Lemma seek_single key value c : bytes key →
  @splits BytewiseComparator bytewise_laws key [(key, value)] c → (c ≤ 1)%nat → c = 0%nat.
Proof.
  intros Hk Hs Hc. destruct c as [|[|c]]; [done| |lia]. specialize (Hs 0%nat key value eq_refl).
  rewrite decide_True in Hs by lia.
  assert (@order BytewiseComparator bytewise_laws key key = 0) by (by apply (@order_eq _ bytewise_laws)). lia.
Qed.

Lemma ReadMeta_ok rep :
  tb_options rep = options → tb_file rep = file → tb_filter rep = None →
  (∀ name, opt_filter_policy options = Some name → bytes name) →
  ∃ rep', ReadMeta rep f = Ok rep' ∧ (rep' = rep ∨ ∃ reader, rep' = set_tb_filter rep reader) ∧ filtered (tb_filter rep').
Proof.
  intros Ho Hf Hn Hname. unfold ReadMeta. rewrite Ho.
  destruct (opt_filter_policy options) as [name|] eqn:En; [|exists rep; split_and!; [done|by left|by rewrite Hn]].
  destruct (ti_meta _ _ _ _ _ _ _ _ TI) as (items & mrho & h & HL & He & Hs & Hl & Hfil).
  destruct Hfil as (Hh & contents & Hc & Hfc); [by rewrite En|].
  unfold meta_entries in He. rewrite En in He. specialize (Hname _ eq_refl).
  assert (bytes (filter_key name)) as Hkey by (by apply Forall_app_2; [|done]; repeat constructor).
  destruct (ReadBlock_image (opening_options options) _ _ Hs) as (bc & E & Hbc). rewrite Hf, E.
  cbn [mbind outcome_bind fst snd ok status_OK negb]. rewrite Hbc.
  destruct (Block_NewIterator_ok items mrho HL Hl) as (blk & i & -> & Hi & Hpos). cbn [mbind outcome_bind]. rewrite Hi.
  cbn [mbind outcome_bind].
  destruct items as [|x [|]]; try done. injection He as Hk Hv.
  assert (@increasing BytewiseComparator bytewise_laws (map i_key [x])) as Hinc.
  { split; [by apply Forall_singleton; rewrite Hk|by repeat constructor]. }
  pose proof (@on_block_iterates BytewiseComparator bytewise_laws [x] mrho HL Hl Hinc) as Hit.
  destruct (iterates_seek _ _ Hit i _ (filter_key name) Hpos Hkey) as (i' & c & -> & Hi' & Hc'). cbn [mbind outcome_bind].
  destruct (iterates_valid _ _ Hit _ _ Hi') as [Hle Hval]. cbn [map] in *. unfold entry_of in *. rewrite Hk, Hv in *.
  pose proof (seek_single _ _ _ Hkey Hc' Hle) as ->. rewrite Hval. cbn [length Nat.ltb Nat.leb].
  destruct (iterates_entry _ _ Hit _ _ _ _ Hi' eq_refl) as [-> ->]. cbn [mbind outcome_bind].
  rewrite decide_True by done. destruct (ReadFilter_ok rep h contents Hf Hh Hc Hfc) as (reader & -> & Hm).
  eexists. split; [reflexivity|]. split; [right; by eexists|done].
Qed.

Context (Hname : ∀ name, opt_filter_policy options = Some name → bytes name).

(** The number of a table in the cache, and the cache after that. *)
Definition open_cache (cache : option C) : Z * option C :=
  match cache with None => (0, None) | Some c => ((NewId c).1, Some (NewId c).2) end.

Lemma Table_Open_ok cache :
  ∃ rep, Table_Open options file (len image) cache = Ok (status_OK, Some rep, (open_cache cache).2) ∧
    opens rep ∧ tb_cache_id rep = (open_cache cache).1.
Proof.
  pose proof (ti_size _ _ _ _ _ _ _ _ TI) as Hsize. destruct (ti_footer _ _ _ _ _ _ _ _ TI) as (pre & Hpre).
  pose proof (ti_handles _ _ _ _ _ _ _ _ TI) as Hft. unfold Table_Open. rewrite (proj2 (Z.ltb_ge _ _)) by lia.
  pose proof (encode_footer_length f) as Hfl. assert (len image = len pre + kEncodedLength) as Hlen.
  { rewrite Hpre, length_app. lia. }
  destruct (Read_at_readable (len image - kEncodedLength) kEncodedLength file image Hfile) as (b & ->);
    [lia|lia|by unfold kEncodedLength, kMaxEncodedLength|lia|].
  cbn [mbind outcome_bind fst snd ok status_OK negb].
  assert (part (len image - kEncodedLength) kEncodedLength image = encode_footer f) as ->.
  { destruct (image_has_part image (len pre) (encode_footer f)) as (_ & _ & E); [rewrite Hpre; apply image_has_end|].
    rewrite <- E, Hfl. f_equal. lia. }
  rewrite Footer_DecodeFrom_ok by done. cbn [mbind outcome_bind fst snd ok status_OK negb].
  destruct (ti_index _ _ _ _ _ _ _ _ TI) as (HL & Hinc & Hz & Hs & Hil).
  destruct (ReadBlock_image (opening_options options) _ _ Hs) as (bc & -> & Hbc).
  cbn [mbind outcome_bind fst snd ok status_OK negb]. rewrite Hbc.
  destruct (Block_NewIterator_ok idx rho HL Hil) as (blk & i & Hblk & _ & _). rewrite Hblk. cbn [mbind outcome_bind].
  assert (match cache with None => (0, None) | Some c => let '(i, c) := NewId c in (i, Some c) end = open_cache cache) as ->.
  { destruct cache as [c|]; [|done]. cbn. by destruct (NewId c). }
  destruct (open_cache cache) as [id cache'].
  destruct (ReadMeta_ok {| tb_options := options; tb_file := file; tb_cache_id := id; tb_filter := None;
    tb_metaindex_handle := metaindex_handle_ f; tb_index_block := blk |}) as (rep & -> & Hrep & Hfil); try done.
  cbn [mbind outcome_bind]. exists rep. split; [done|].
  destruct Hrep as [-> | [reader ->]]; by split; [split|].
Qed.

(** *** The blocks and their handles *)

Lemma blocks_distinct i j b1 b2 :
  bs !! i = Some b1 → bs !! j = Some b2 → bh_offset (bi_handle b1) = bh_offset (bi_handle b2) → i = j.
Proof.
  intros Hi Hj E. destruct (ti_ascending _ _ _ _ _ _ _ _ TI) as (off & Hs & _).
  assert (∀ i j b1 b2, bs !! i = Some b1 → bs !! j = Some b2 → (i < j)%nat →
    bh_offset (bi_handle b1) < bh_offset (bi_handle b2)) as Hlt.
  { clear - Hs. induction Hs as [|b bs Hs IH Hb]; intros i j b1 b2 Hi Hj Hij; [done|].
    destruct j as [|j]; [lia|]. destruct i as [|i]; cbn in Hi, Hj.
    - injection Hi as ->. by eapply Forall_lookup_1 in Hb.
    - eapply IH; [done|done|lia]. }
  destruct (Nat.lt_trichotomy i j) as [Hij|[Hij|Hij]]; [|done|].
  - pose proof (Hlt _ _ _ _ Hi Hj Hij). lia.
  - pose proof (Hlt _ _ _ _ Hj Hi Hij). lia.
Qed.

Lemma block_at i b : bs !! i = Some b → block_stored image b.
Proof. intros Hb. by eapply Forall_lookup_1 in Hb; [|apply (ti_blocks _ _ _ _ _ _ _ _ TI)]. Qed.

Lemma block_in_stored b : b ∈ bs → block_stored image b.
Proof. intros [i Hi]%list_elem_of_lookup_1. by eapply block_at. Qed.

(** The entries of the block of a handle. *)
Definition named (h : Slice) : list (Slice * Slice) :=
  match list_find (λ b, encode_handle (bi_handle b) = h) bs with Some (_, b) => bi_entries b | None => [] end.

Lemma handle_names b1 b2 :
  b1 ∈ bs → b2 ∈ bs → encode_handle (bi_handle b1) = encode_handle (bi_handle b2) → b1 = b2.
Proof.
  intros [i Hi]%list_elem_of_lookup_1 [j Hj]%list_elem_of_lookup_1 E.
  apply encode_handle_inj in E; [|by eapply bs_handle, block_at..].
  pose proof (blocks_distinct i j _ _ Hi Hj ltac:(by rewrite E)) as ->. congruence.
Qed.

Lemma named_block b : b ∈ bs → named (encode_handle (bi_handle b)) = bi_entries b.
Proof.
  intros Hb. unfold named. destruct (list_find _ bs) as [[i c]|] eqn:E.
  - apply list_find_Some in E as (Hc & Heq & _). f_equal. eapply handle_names; [by eapply list_elem_of_lookup_2|done|done].
  - apply list_find_None in E. by eapply Forall_forall in E; [|exact Hb].
Qed.

(** An iterator of the block of a handle. *)
Definition named_at (h : Slice) (i : BlockIterator) (c : nat) : Prop :=
  ∃ b, b ∈ bs ∧ encode_handle (bi_handle b) = h ∧ on_block (bi_items b) (bi_rho b) i c.

Lemma named_iterates b : b ∈ bs → iterates (named (encode_handle (bi_handle b))) (named_at (encode_handle (bi_handle b))).
Proof.
  intros Hb. rewrite named_block by done. pose proof (block_in_stored b Hb) as [HL _ Hinc _ _ Hs].
  assert (∀ i c, named_at (encode_handle (bi_handle b)) i c ↔ on_block (bi_items b) (bi_rho b) i c) as Hiff.
  { intros i c. split; [|intros Hi; by exists b]. intros (b' & Hb' & E & Hi). by rewrite (handle_names b' b Hb' Hb E) in Hi. }
  eapply (iterates_proper _ _ _ Hiff). by apply on_block_iterates.
Qed.

(** *** The cache *)

(** Whatever the cache has for a block of the table is that block. *)
Definition coherent (rep : Table F) (cache : option C) : Prop :=
  ∀ c b blk, cache = Some c → b ∈ bs → held c (cache_key rep (bi_handle b)) blk → new_Block (data_bytes b) = Ok blk.

Lemma coherent_none rep : coherent rep None.
Proof. by intros c b blk. Qed.

(** A new number makes the cache coherent. *)
Lemma coherent_fresh rep cache :
  tb_cache_id rep = (open_cache cache).1 → partitioned cache → coherent rep (open_cache cache).2.
Proof.
  intros Hid Hp c b blk Hc Hb Hh. destruct cache as [c0|]; [|done]. cbn in Hc, Hid. injection Hc as <-.
  destruct (Hp _ _ _ eq_refl Hh (EncodeFixed64 (bh_offset (bi_handle b)))). unfold cache_key. by rewrite Hid.
Qed.

Lemma cache_key_inj (rep : Table F) b1 b2 :
  b1 ∈ bs → b2 ∈ bs → cache_key rep (bi_handle b1) = cache_key rep (bi_handle b2) → b1 = b2.
Proof.
  intros Hb1 Hb2 E. apply app_inv_head in E.
  assert (bh_offset (bi_handle b1) = bh_offset (bi_handle b2)) as Ho.
  { pose proof (bs_handle _ _ (block_in_stored _ Hb1)) as [Hr1 _]. pose proof (bs_handle _ _ (block_in_stored _ Hb2)) as [Hr2 _].
    apply (f_equal le_value) in E. unfold EncodeFixed64 in E.
    rewrite !le_value_bytes_small in E by (change (256 ^ _) with (2 ^ 64); lia). done. }
  apply list_elem_of_lookup_1 in Hb1 as [i Hi], Hb2 as [j Hj].
  pose proof (blocks_distinct i j _ _ Hi Hj Ho) as ->. congruence.
Qed.

Lemma read_block_ok rep ropts b :
  opens rep → b ∈ bs →
  ∃ blk cachable,
    (r ← ReadBlock (tb_file rep) ropts (bi_handle b);
     if ok r.1 then block ← new_Block (bc_data r.2); Ok (inr (block, bc_cachable r.2)) else Ok (inl r.1)) =
      Ok (inr (blk, cachable) : Status + TableBlock * bool) ∧
    new_Block (data_bytes b) = Ok blk.
Proof.
  intros Hrep Hb. pose proof (block_in_stored b Hb) as [HL _ _ _ Hst Hs].
  destruct (Block_NewIterator_ok _ _ HL Hs) as (blk & i & Hblk & _).
  destruct (ReadBlock_image ropts _ _ Hst) as (bc & E & Hbc). rewrite (opens_file _ Hrep), E.
  cbn [mbind outcome_bind fst snd ok status_OK]. rewrite Hbc, Hblk. by exists blk, (bc_cachable bc).
Qed.

Lemma read_through_ok rep ropts cache b :
  opens rep → coherent rep cache → b ∈ bs →
  ∃ blk cache', read_through rep ropts (bi_handle b) cache = Ok (inr blk, cache') ∧
    new_Block (data_bytes b) = Ok blk ∧ coherent rep cache'.
Proof.
  intros Hrep Hco Hb. unfold read_through. destruct (read_block_ok rep ropts b Hrep Hb) as (blk & cachable & E & Hblk).
  destruct cache as [c|].
  - destruct (cache_Lookup (cache_key rep (bi_handle b)) c) as [found c'] eqn:El.
    assert (coherent rep (Some c')) as Hco'.
    { intros c1 b1 blk1 [= <-] Hb1 Hh1. eapply Hco; [done|done|]. by eapply Lookup_keeps. }
    destruct found as [blk'|].
    + exists blk', (Some c'). split; [done|]. split; [|done]. eapply Hco; [done|done|]. by eapply Lookup_held.
    + rewrite E. cbn [mbind outcome_bind]. eexists blk, _. split; [reflexivity|]. split; [done|].
      destruct (cachable && fill_cache ropts); [|done]. intros c1 b1 blk1 [= <-] Hb1 Hh1.
      apply Insert_held in Hh1 as [[Hk ->]|Hh1]; [|by eapply Hco']. by rewrite (cache_key_inj rep _ _ Hb1 Hb Hk).
  - rewrite E. cbn [mbind outcome_bind]. exists blk, None. split_and!; [done|done|apply coherent_none].
Qed.

Lemma BlockReader_ok rep ropts cache b :
  opens rep → coherent rep cache → b ∈ bs →
  ∃ i cache', BlockReader rep ropts (encode_handle (bi_handle b)) cache = Ok (i, cache') ∧
    named_at (encode_handle (bi_handle b)) i (length (bi_items b)) ∧ coherent rep cache'.
Proof.
  intros Hrep Hco Hb. pose proof (block_in_stored b Hb) as [HL _ _ Hh _ Hs]. unfold BlockReader.
  rewrite BlockHandle_DecodeFrom_whole by done. cbn [ok status_OK negb].
  destruct (read_through_ok rep ropts cache b Hrep Hco Hb) as (blk & cache' & -> & Hblk & Hco').
  destruct (Block_NewIterator_ok _ _ HL Hs) as (blk' & i & Hblk' & Hi & Hat). cbn [mbind outcome_bind fst snd].
  assert (blk' = blk) as -> by congruence. rewrite Hi. cbn [mbind outcome_bind]. exists i, cache'. split; [done|].
  split; [|done]. by exists b.
Qed.

(** *** The index *)

Definition index : list (Slice * Slice) := zip_with index_entry seps bs.

Definition index_at (i : BlockIterator) (c : nat) : Prop := on_block idx rho i c.

Lemma index_iterates : iterates index index_at.
Proof.
  destruct (ti_index _ _ _ _ _ _ _ _ TI) as (HL & Hinc & Hz & _ & Hs). unfold index. rewrite <- Hz.
  by apply on_block_iterates.
Qed.

Lemma index_opens rep : opens rep → ∃ i, Block_NewIterator (tb_index_block rep) = Ok i ∧ index_at i (length idx).
Proof.
  intros Hrep. destruct (ti_index _ _ _ _ _ _ _ _ TI) as (HL & _ & _ & _ & Hs).
  destruct (Block_NewIterator_ok idx rho HL Hs) as (blk & i & Hblk & Hi & Hat).
  assert (tb_index_block rep = blk) as -> by (pose proof (opens_index _ Hrep); congruence). by exists i.
Qed.

Lemma index_lookup i k h : index !! i = Some (k, h) →
  ∃ b, bs !! i = Some b ∧ h = encode_handle (bi_handle b) ∧ separates es k (ends bs i).
Proof.
  unfold index. rewrite lookup_zip_index. destruct (ti_separators _ _ _ _ _ _ _ _ TI) as [_ Hsep].
  destruct (seps !! i) as [sep|] eqn:Es; [|done]. destruct (bs !! i) as [b|] eqn:Eb; [|done].
  intros [= <- <-]. exists b. destruct (Hsep _ _ Es) as [? _]. done.
Qed.

Lemma index_has i b : bs !! i = Some b → ∃ k, index !! i = Some (k, encode_handle (bi_handle b)).
Proof.
  intros Hb. destruct (ti_separators _ _ _ _ _ _ _ _ TI) as [Hl _]. unfold index. rewrite lookup_zip_index, Hb.
  destruct (lookup_lt_is_Some_2 seps i) as [sep ->]; [rewrite Hl; by eapply lookup_lt_Some|]. by exists sep.
Qed.

(** Where the entries of a block are among all of them. *)
Definition begins (i : nat) : nat := length (stored_entries (take i bs)).

Lemma block_entries i b j e : bs !! i = Some b → bi_entries b !! j = Some e →
  es !! (begins i + j)%nat = Some e ∧ (begins i + j < ends bs i)%nat.
Proof.
  intros Hb He. rewrite (ti_entries _ _ _ _ _ _ _ _ TI). unfold begins, ends.
  rewrite (take_S_r _ _ _ Hb), stored_entries_snoc, length_app. split; [|apply lookup_lt_Some in He; lia].
  assert (stored_entries bs = stored_entries (take i bs) ++ bi_entries b ++ stored_entries (drop (S i) bs)) as ->.
  { rewrite <- (take_drop_middle bs i b Hb) at 1. unfold stored_entries. by rewrite map_app, concat_app. }
  rewrite lookup_app_r by lia. rewrite lookup_app_l; [by replace (_ + j - _)%nat with j by lia|].
  apply lookup_lt_Some in He. lia.
Qed.

Lemma ends_begins i j : (i < j)%nat → (ends bs i ≤ begins j)%nat.
Proof.
  intros Hij. unfold ends, begins. rewrite <- (take_drop (S i) (take j bs)). unfold stored_entries.
  rewrite map_app, concat_app, length_app, take_take. replace (S i `min` j)%nat with (S i) by lia. lia.
Qed.

Lemma entries_of_all : concat (map (λ e, named e.2) index) = es.
Proof.
  rewrite (ti_entries _ _ _ _ _ _ _ _ TI). unfold stored_entries. f_equal. apply list_eq. intros i.
  rewrite !list_lookup_fmap. destruct (bs !! i) as [b|] eqn:Eb.
  - destruct (index_has i b Eb) as [k ->].
    change (Some (named (encode_handle (bi_handle b))) = Some (bi_entries b)). by rewrite named_block by (by eapply list_elem_of_lookup_2).
  - destruct (index !! i) as [[k h]|] eqn:Ei; [|done]. apply index_lookup in Ei as (b & Hb & _). congruence.
Qed.

(** *** Iterating *)

Lemma table_indexed rep ropts cache :
  opens rep → coherent rep cache → indexed (block_reader rep ropts cache) index index_at named named_at.
Proof.
  intros Hrep Hco.
  assert (∀ k h, (k, h) ∈ index → ∃ i b, index !! i = Some (k, h) ∧ bs !! i = Some b ∧ b ∈ bs ∧
    h = encode_handle (bi_handle b) ∧ separates es k (ends bs i)) as Hin.
  { intros k h [i Hi]%list_elem_of_lookup_1. destruct (index_lookup _ _ _ Hi) as (b & Hb & -> & Hs).
    exists i, b. split_and!; try done. by eapply list_elem_of_lookup_2. }
  assert (∀ i k h key value, index !! i = Some (k, h) → (key, value) ∈ named h →
    ∃ j, es !! j = Some (key, value) ∧ (begins i ≤ j < ends bs i)%nat) as Hnamed.
  { intros i k h key value Hi Hkv. destruct (index_lookup _ _ _ Hi) as (b & Hb & -> & _).
    rewrite named_block in Hkv by (by eapply list_elem_of_lookup_2). apply list_elem_of_lookup_1 in Hkv as [j Hj].
    destruct (block_entries i b j _ Hb Hj) as [? ?]. exists (begins i + j)%nat. split; [done|lia]. }
  split.
  - apply index_iterates.
  - intros k h (i & b & _ & _ & Hb & -> & _)%Hin. by apply named_iterates.
  - intros k h (i & b & _ & _ & Hb & -> & _)%Hin. destruct (BlockReader_ok rep ropts cache b Hrep Hco Hb) as (d & c & E & Hat & _).
    exists d, (length (bi_items b)). unfold block_reader. by rewrite E.
  - intros k h key value Hkh Hkv. destruct (Hin k h Hkh) as (i & b & Hi & _).
    destruct (Hnamed _ _ _ _ _ Hi Hkv) as (j & Hj & _).
    apply (increasing_ok (map fst es) j); [apply (ti_increasing _ _ _ _ _ _ _ _ TI)|]. by rewrite list_lookup_fmap, Hj.
  - intros k h (i & b & _ & _ & _ & _ & [Hk _])%Hin. done.
  - intros i k h key value Hi Hkv. destruct (index_lookup _ _ _ Hi) as (b & _ & _ & _ & Hs).
    destruct (Hnamed _ _ _ _ _ Hi Hkv) as (j & Hj & Hlt). specialize (Hs _ _ _ Hj). by rewrite decide_True in Hs by lia.
  - intros i j k h k' h' key value Hi Hj Hij Hkv. destruct (index_lookup _ _ _ Hi) as (b & _ & _ & _ & Hs).
    destruct (Hnamed _ _ _ _ _ Hj Hkv) as (n & Hn & Hlt). specialize (Hs _ _ _ Hn).
    pose proof (ends_begins i j Hij). by rewrite decide_False in Hs by lia.
Qed.

Lemma Table_NewIterator_ok rep ropts cache rounds :
  opens rep → coherent rep cache → (length bs + 2 ≤ rounds)%nat →
  ∃ it R, Table_NewIterator rep = Ok it ∧
    @iterates _ _ _ (two_level_iterator (block_reader rep ropts cache) rounds) es R ∧ R it (length es).
Proof.
  intros Hrep Hco Hr. pose proof (table_indexed rep ropts cache Hrep Hco) as HI.
  destruct (index_opens rep Hrep) as (i & Hi & Hat). unfold Table_NewIterator. rewrite Hi. cbn [mbind outcome_bind].
  destruct (new_TwoLevelIterator_ok _ _ _ _ _ HI i _ Hat) as (it & -> & Hit).
  eexists it, _. split; [done|]. assert (length index ≤ length bs)%nat by (unfold index; rewrite length_zip_with; lia).
  pose proof (two_level_iterates (block_reader rep ropts cache) rounds _ _ _ _ HI ltac:(lia)) as H'.
  unfold all_entries, blocks in *. rewrite entries_of_all in *. by split.
Qed.

(** *** Lookups *)

Lemma entry_ok j key value : es !! j = Some (key, value) → key_ok key.
Proof.
  intros Hj. apply (increasing_ok (map fst es) j); [apply (ti_increasing _ _ _ _ _ _ _ _ TI)|]. by rewrite list_lookup_fmap, Hj.
Qed.

(** Before the block that the index names for a key, and after it. *)
Lemma before_block k c j key value :
  key_ok k → splits k index c → (c ≤ length bs)%nat → es !! j = Some (key, value) → (j < begins c)%nat → order key k < 0.
Proof.
  intros Hk Hs Hc Hj Hlt. destruct c as [|c]; [change (j < 0)%nat in Hlt; lia|].
  destruct (lookup_lt_is_Some_2 bs c Hc) as [b Hb]. destruct (index_has c b Hb) as [sep Hi].
  specialize (Hs _ _ _ Hi). rewrite decide_True in Hs by lia.
  destruct (index_lookup _ _ _ Hi) as (_ & _ & _ & Hok & Hsep). specialize (Hsep _ _ _ Hj).
  rewrite decide_True in Hsep by done. apply (order_le_lt key sep k); try done. by eapply entry_ok.
Qed.

Lemma after_block k c sep h j key value :
  key_ok k → splits k index c → index !! c = Some (sep, h) → es !! j = Some (key, value) → (ends bs c ≤ j)%nat →
  order k sep ≤ 0 ∧ order sep key < 0.
Proof.
  intros Hk Hs Hi Hj Hle. destruct (index_lookup _ _ _ Hi) as (_ & _ & _ & Hok & Hsep). specialize (Hsep _ _ _ Hj).
  specialize (Hs _ _ _ Hi). rewrite decide_False in Hs by lia. rewrite decide_False in Hsep by lia. split; [by apply order_ge|done].
Qed.

Lemma block_entry i b j e : bs !! i = Some b → es !! j = Some e → (begins i ≤ j < ends bs i)%nat →
  bi_entries b !! (j - begins i)%nat = Some e.
Proof.
  intros Hb Hj Hr. unfold ends in Hr. fold (begins (S i)) in Hr.
  assert (begins (S i) = begins i + length (bi_entries b))%nat as E.
  { unfold begins. by rewrite (take_S_r _ _ _ Hb), stored_entries_snoc, length_app. }
  destruct (lookup_lt_is_Some_2 (bi_entries b) (j - begins i) ltac:(lia)) as [e' He'].
  destruct (block_entries i b _ _ Hb He') as [Hj' _]. replace (begins i + (j - begins i))%nat with j in Hj' by lia. congruence.
Qed.

(** The blocks with what the index says of them. *)
Definition image_blocks : list indexed_block :=
  zip_with (λ sep b, {| ib_limit := sep; ib_offset := bh_offset (bi_handle b); ib_entries := bi_entries b |}) seps bs.

Lemma image_blocks_lookup i x : image_blocks !! i = Some x →
  ∃ sep b, seps !! i = Some sep ∧ bs !! i = Some b ∧
    x = {| ib_limit := sep; ib_offset := bh_offset (bi_handle b); ib_entries := bi_entries b |}.
Proof.
  unfold image_blocks. rewrite lookup_zip_with. destruct (seps !! i) as [sep|]; [|done]. destruct (bs !! i) as [b|]; [|done].
  intros [= <-]. by exists sep, b.
Qed.

Lemma image_blocks_divide : divides es image_blocks.
Proof.
  destruct (ti_separators _ _ _ _ _ _ _ _ TI) as [Hl Hsep].
  assert (∀ n, map ib_entries (take n image_blocks) = map bi_entries (take n bs)) as Hmap.
  { intros n. unfold image_blocks. rewrite zip_with_take. apply list_eq. intros i. rewrite !list_lookup_fmap, lookup_zip_with.
    destruct (take n bs !! i) as [b|] eqn:Eb; [|by destruct (take n seps !! i)].
    apply lookup_take_Some in Eb as [Eb Hi]. rewrite lookup_take_lt by done.
    destruct (lookup_lt_is_Some_2 seps i) as [sep ->]; [rewrite Hl; by eapply lookup_lt_Some|done]. }
  split.
  - rewrite (ti_entries _ _ _ _ _ _ _ _ TI). unfold stored_entries.
    rewrite <- (take_ge image_blocks (length bs)) by (unfold image_blocks; rewrite length_zip_with; lia).
    by rewrite Hmap, take_ge.
  - intros i x Hx. destruct (image_blocks_lookup i x Hx) as (sep & b & Hs & Hb & ->). rewrite Hmap. by apply Hsep.
Qed.

Lemma table_finds_at allowed k c :
  splits k index c → (c ≤ length index)%nat →
  table_finds allowed image_blocks k =
    match bs !! c with
    | Some b => if allowed (bh_offset (bi_handle b)) then first_at k (bi_entries b) else None
    | None => None
    end.
Proof.
  intros Hs Hc. rewrite (splits_lower_bound k index c Hc Hs). destruct (ti_separators _ _ _ _ _ _ _ _ TI) as [Hl _].
  unfold image_blocks, index. revert Hl. generalize seps, bs. clear.
  intros ss l. revert ss. induction l as [|b l IH]; intros [|sep ss] Hl; try done.
  cbn [zip_with table_finds LdbIter.lower_bound index_entry ib_limit ib_offset ib_entries].
  destruct (order sep k <? 0); [|done]. cbn [lookup list_lookup]. apply IH. cbn in Hl. lia.
Qed.

Lemma past_block allowed k c sep h b :
  key_ok k → splits k index c → index !! c = Some (sep, h) → bs !! c = Some b →
  (∀ key value, (key, value) ∈ bi_entries b → 0 ≤ order key k → allowed (bh_offset (bi_handle b)) = false) →
  looked_up es image_blocks allowed k None.
Proof.
  intros Hk Hs Hi Hb Hin key value [j Hj]%list_elem_of_lookup_1 Hge.
  assert (c ≤ length bs)%nat as Hc by (apply lookup_lt_Some in Hb; lia).
  destruct (decide (j < begins c)%nat) as [Hlt|Hnlt]; [pose proof (before_block k c j _ _ Hk Hs Hc Hj Hlt); lia|].
  assert (image_blocks !! c = Some {| ib_limit := sep; ib_offset := bh_offset (bi_handle b); ib_entries := bi_entries b |}) as Hx.
  { unfold index in Hi. rewrite lookup_zip_index, Hb in Hi. unfold image_blocks. rewrite lookup_zip_with, Hb.
    destruct (seps !! c) as [s|]; [|done]. by injection Hi as -> _. }
  eexists. split; [by eapply list_elem_of_lookup_2|]. cbn [ib_limit ib_offset ib_entries].
  destruct (index_lookup _ _ _ Hi) as (_ & _ & _ & Hok & _). specialize (Hs _ _ _ Hi) as Hsep.
  rewrite decide_False in Hsep by lia. split; [by apply order_ge|].
  destruct (decide (ends bs c ≤ j)%nat) as [Hle|Hnle].
  - left. by apply (after_block k c _ _ j _ _ Hk Hs Hi Hj Hle).
  - right. assert ((key, value) ∈ bi_entries b) as Hbe by (eapply list_elem_of_lookup_2, (block_entry c b j); [done|done|lia]).
    split; [done|]. by eapply Hin.
Qed.

Lemma found_in_block k c sep h b n e :
  key_ok k → splits k index c → index !! c = Some (sep, h) → bs !! c = Some b →
  splits k (bi_entries b) n → bi_entries b !! n = Some e → first_at k es = Some e.
Proof.
  intros Hk Hs Hi Hb Hn He. destruct (block_entries c b n e Hb He) as [Hj Hlt]. unfold first_at.
  assert (c ≤ length bs)%nat as Hc by (apply lookup_lt_Some in Hb; lia).
  rewrite <- (splits_lower_bound k es (begins c + n)); [done|apply lookup_lt_Some in Hj; lia|].
  intros j key value Hj'. destruct (decide (j < begins c)%nat) as [Hlt'|Hnlt].
  { rewrite decide_True by lia. by eapply before_block. }
  destruct (decide (ends bs c ≤ j)%nat) as [Hle|Hnle].
  - rewrite decide_False by lia. destruct (after_block k c _ _ j _ _ Hk Hs Hi Hj' Hle) as [H1' H2'].
    destruct (index_lookup _ _ _ Hi) as (_ & _ & _ & Hok & _). pose proof (entry_ok _ _ _ Hj') as Hkey.
    apply (proj2 (order_ge key k Hkey Hk)). pose proof (order_le_lt k sep key Hk Hok Hkey H1' H2'). lia.
  - specialize (Hn _ _ _ (block_entry c b j _ Hb Hj' ltac:(lia))). destruct (decide (j < begins c + n)%nat).
    + by rewrite decide_True in Hn by lia.
    + by rewrite decide_False in Hn by lia.
Qed.

Lemma length_index : length index = length bs.
Proof. unfold index. rewrite length_zip_with. destruct (ti_separators _ _ _ _ _ _ _ _ TI). lia. Qed.

(** The reference lookup does what is wanted. *)
Lemma table_looks_up allowed k : key_ok k → looked_up es image_blocks allowed k (table_finds allowed image_blocks k).
Proof.
  intros Hk. pose proof index_iterates as HI. set (c := LdbIter.lower_bound k index).
  assert (splits k index c) as Hs.
  { apply lower_bound_splits; [done|]. destruct (ti_index _ _ _ _ _ _ _ _ TI) as (_ & Hinc & Hz & _). unfold index. rewrite <- Hz.
    by rewrite map_map. }
  pose proof (lower_bound_length k index) as Hc. fold c in Hc. rewrite (table_finds_at allowed k c Hs Hc).
  destruct (bs !! c) as [b|] eqn:Hb.
  - destruct (index_has c b Hb) as [sep Hi]. destruct (allowed (bh_offset (bi_handle b))) eqn:Ea.
    2: { by eapply past_block. }
    pose proof (block_in_stored b ltac:(by eapply list_elem_of_lookup_2)) as [_ _ Hinc _ _ _].
    assert (splits k (bi_entries b) (LdbIter.lower_bound k (bi_entries b))) as Hn.
    { apply lower_bound_splits; [done|]. unfold bi_entries. by rewrite map_map. }
    unfold first_at at 1. destruct (bi_entries b !! _) as [e|] eqn:He; [by eapply found_in_block|].
    apply lookup_ge_None in He. eapply past_block; [done..|]. intros key value [j Hj]%list_elem_of_lookup_1 Hko.
    specialize (Hn _ _ _ Hj). apply lookup_lt_Some in Hj. rewrite decide_True in Hn by lia. lia.
  - apply lookup_ge_None in Hb. rewrite length_index in Hc. intros key value [j Hj]%list_elem_of_lookup_1 Hko.
    assert (c = length bs) as Ec by lia. rewrite Ec in Hs. pose proof (before_block k _ j _ _ Hk Hs ltac:(lia) Hj) as Hlt.
    unfold begins in Hlt. rewrite take_ge in Hlt by done. rewrite <- (ti_entries _ _ _ _ _ _ _ _ TI) in Hlt.
    specialize (Hlt (lookup_lt_Some _ _ _ Hj)). lia.
Qed.

Context `{!FilterAnswers}.

(** The filter answers, and lets the keys of the block through. *)
Lemma may_match_ok rep k b :
  opens rep → b ∈ bs → asked k →
  match tb_filter rep with
  | None => Ok true
  | Some filter =>
      let '(s, handle, _) := BlockHandle_DecodeFrom new_BlockHandle (encode_handle (bi_handle b)) in
      if ok s then FilterBlock_KeyMayMatch filter (bh_offset handle) k else Ok true
  end = Ok (filter_allows rep k (bh_offset (bi_handle b))).
Proof.
  intros Hrep Hb Hk. pose proof (opens_filter _ Hrep) as Hf. unfold filter_allows. destruct (tb_filter rep) as [filter|]; [|done].
  pose proof (bs_handle _ _ (block_in_stored b Hb)) as Hh. rewrite BlockHandle_DecodeFrom_whole by done. cbn [ok status_OK].
  destruct (proj2 Hf b Hb) as (g & Hg & Hans & Hall). rewrite Hans. by destruct (KeyMayMatch_answers k g Hk Hg) as [may ->].
Qed.

Lemma filter_allows_keys rep x key value :
  opens rep → x ∈ image_blocks → (key, value) ∈ ib_entries x → filter_allows rep key (ib_offset x) = true.
Proof.
  intros Hrep [i Hi]%list_elem_of_lookup_1 Hin. destruct (image_blocks_lookup i x Hi) as (sep & b & _ & Hb & ->).
  cbn [ib_entries ib_offset] in *. pose proof (opens_filter _ Hrep) as Hf. unfold filter_allows.
  destruct (tb_filter rep) as [filter|]; [|done]. destruct (proj2 Hf b) as (g & Hg & Hans & Hall); [by eapply list_elem_of_lookup_2|].
  rewrite Hans, Hall; [done|]. apply list_elem_of_fmap in Hin as (y & [= -> ->] & Hy). by apply list_elem_of_fmap_2.
Qed.

Lemma InternalGet_ok rep ropts k cache :
  opens rep → coherent rep cache → key_ok k → asked k →
  ∃ cache', InternalGet rep ropts k cache = Ok (status_OK, table_finds (filter_allows rep k) image_blocks k, cache') ∧
    coherent rep cache'.
Proof.
  intros Hrep Hco Hk Hask. unfold InternalGet. destruct (index_opens rep Hrep) as (i0 & -> & Hat0). cbn [mbind outcome_bind].
  pose proof index_iterates as HI.
  destruct (iterates_seek _ _ HI i0 _ k Hat0 Hk) as (i & c & -> & Hat & Hs). cbn [mbind outcome_bind].
  destruct (iterates_valid _ _ HI _ _ Hat) as [Hle ->]. pose proof (iterates_status _ _ HI _ _ Hat) as Hst. rewrite Hst.
  rewrite (table_finds_at _ k c Hs Hle). pose proof length_index as Hlen.
  destruct (Nat.ltb_spec c (length index)) as [Hlt|Hge].
  - destruct (lookup_lt_is_Some_2 _ _ Hlt) as [[sep h] Hi]. destruct (iterates_entry _ _ HI _ _ _ _ Hat Hi) as [_ Hv].
    rewrite Hv. cbn [mbind outcome_bind]. destruct (index_lookup _ _ _ Hi) as (b & Hb & -> & _). rewrite Hb.
    pose proof (list_elem_of_lookup_2 _ _ _ Hb) as Hbin. rewrite (may_match_ok rep k b Hrep Hbin Hask). cbn [mbind outcome_bind].
    destruct (filter_allows rep k (bh_offset (bi_handle b))); cbn [mbind outcome_bind ok status_OK]; [|by exists cache].
    destruct (BlockReader_ok rep ropts cache b Hrep Hco Hbin) as (d & cache' & -> & Hd & Hco'). cbn [mbind outcome_bind fst snd].
    pose proof (named_iterates b Hbin) as HB. rewrite named_block in HB by done.
    destruct (iterates_seek _ _ HB d _ k Hd Hk) as (d' & n & -> & Hd' & Hn). cbn [mbind outcome_bind].
    destruct (iterates_valid _ _ HB _ _ Hd') as [Hnle ->]. rewrite (iterates_status _ _ HB _ _ Hd').
    unfold first_at. rewrite <- (splits_lower_bound k _ n Hnle Hn). exists cache'. split; [|done].
    destruct (Nat.ltb_spec n (length (bi_entries b))) as [Hnlt|Hnge].
    + destruct (lookup_lt_is_Some_2 _ _ Hnlt) as [[key value] He]. destruct (iterates_entry _ _ HB _ _ _ _ Hd' He) as [-> ->].
      by rewrite He.
    + by rewrite (proj2 (lookup_ge_None _ n)) by lia.
  - cbn [mbind outcome_bind ok status_OK]. rewrite (proj2 (lookup_ge_None bs c)) by lia. by exists cache.
Qed.

(** The offset is that of the block of the first key at or above, or of the meta data. *)
Lemma ApproximateOffsetOf_ok rep k :
  opens rep → key_ok k → ∃ c, (c ≤ length bs)%nat ∧ splits k index c ∧
    ApproximateOffsetOf rep k = Ok (match bs !! c with Some b => bh_offset (bi_handle b) | None => bh_offset (metaindex_handle_ f) end).
Proof.
  intros Hrep Hk. unfold ApproximateOffsetOf. destruct (index_opens rep Hrep) as (i0 & -> & Hat0). cbn [mbind outcome_bind].
  pose proof index_iterates as HI.
  destruct (iterates_seek _ _ HI i0 _ k Hat0 Hk) as (i & c & -> & Hat & Hs). cbn [mbind outcome_bind].
  destruct (iterates_valid _ _ HI _ _ Hat) as [Hle ->]. exists c.
  assert (length index = length bs) as Hlen.
  { unfold index. rewrite length_zip_with. destruct (ti_separators _ _ _ _ _ _ _ _ TI). lia. }
  split; [lia|]. split; [done|]. destruct (Nat.ltb_spec c (length index)) as [Hlt|Hge].
  - destruct (lookup_lt_is_Some_2 _ _ Hlt) as [[sep h] Hi]. destruct (iterates_entry _ _ HI _ _ _ _ Hat Hi) as [_ ->].
    cbn [mbind outcome_bind]. destruct (index_lookup _ _ _ Hi) as (b & Hb & -> & _). rewrite Hb.
    by rewrite BlockHandle_DecodeFrom_whole by (by eapply bs_handle, block_at).
  - rewrite (proj2 (lookup_ge_None bs c)) by lia. by rewrite (opens_meta _ Hrep).
Qed.

End opened.

(** ** Properties *)

(** Lookups one after the other, over one cache. *)
Fixpoint lookups `{Comparator} `{FilterPolicy} `{Memory} `{Snappy} {F C : Type} `{RandomAccessFile F} `{BlockCache C}
    (rep : Table F) (options : ReadOptions) (ks : list Slice) (cache : option C) :
    outcome (list (Status * option (Slice * Slice)) * option C) :=
  match ks with
  | [] => Ok ([], cache)
  | k :: ks =>
      r ← InternalGet rep options k cache;
      rs ← lookups rep options ks r.2;
      Ok (r.1 :: rs.1, rs.2)
  end.

Section properties.
Context `{ComparatorLaws} `{!CompactKeys} `{FilterPolicyLaws} `{!FilterBound} `{Memory} `{SnappyLaws}.
Context {W F C : Type} `{WritableFileLaws W} `{RandomAccessFileLaws F} `{BlockCacheLaws C}.

Section looking_up.
Context (options : Options) (image : list Z) (es : list (Slice * Slice)) (bs : list block_in) (seps : list Slice).
Context (f : Footer) (idx : list item) (rho : list nat) (TI : table_image options image es bs seps f idx rho).
Context (file : F) (Hfile : readable file image) `{!FilterAnswers} (rep : Table F) (Hrep : opens options bs f idx rho file rep).

Abbreviation blocks := (image_blocks bs seps).
Abbreviation answer k := (table_finds (filter_allows rep k) blocks k).

(** A key that the table has is found. *)
Lemma looked_up_present k v : key_ok k → (k, v) ∈ es → answer k = Some (k, v).
Proof.
  intros Hk Hin. pose proof (ti_increasing _ _ _ _ _ _ _ _ TI) as Hinc.
  pose proof (table_looks_up _ _ _ _ _ _ _ _ TI (filter_allows rep k) k Hk) as Hl.
  pose proof (lower_bound_splits k es Hk Hinc) as Hs. destruct (answer k) as [[key value]|]; cbn [looked_up] in Hl.
  - unfold first_at in Hl. set (i := LdbIter.lower_bound k es) in *. apply list_elem_of_lookup_1 in Hin as [j Hj].
    assert (map fst es !! i = Some key ∧ map fst es !! j = Some k) as [Hi' Hj'] by (by rewrite !list_lookup_fmap, Hl, Hj).
    pose proof (Hs _ _ _ Hl) as Hsi. rewrite decide_False in Hsi by lia. pose proof (Hs _ _ _ Hj) as Hsj.
    destruct (decide (j < i)%nat); [rewrite order_refl in Hsj by done; lia|].
    destruct (decide (i = j)) as [->|Hne]; [congruence|].
    pose proof (increasing_lookup _ i j _ _ Hinc Hi' Hj' ltac:(lia)). lia.
  - destruct (Hl k v Hin) as (b & Hb & H1' & [H2'|[H2' H3']]); [by rewrite order_refl| |].
    + apply list_elem_of_lookup_1 in Hb as [i Hi]. destruct (image_blocks_divide _ _ _ _ _ _ _ _ TI) as [_ Hlim].
      destruct (Hlim i b Hi) as [Hok _]. pose proof (order_le_lt k _ k Hk Hok Hk H1' H2') as Hlt. rewrite order_refl in Hlt by done. lia.
    + pose proof (filter_allows_keys _ _ _ _ _ _ file rep b k v Hrep Hb H2'). congruence.
Qed.

Lemma lookups_ok ropts ks cache :
  coherent bs rep cache → Forall (λ k, key_ok k ∧ asked k) ks →
  ∃ cache', lookups rep ropts ks cache = Ok (map (λ k, (status_OK, answer k)) ks, cache').
Proof.
  intros Hco Hks. revert cache Hco. induction Hks as [|k ks [Hk Hask] _ IH]; intros cache Hco; cbn [lookups map]; [by eexists|].
  destruct (InternalGet_ok _ _ _ _ _ _ _ _ TI file Hfile rep ropts k cache Hrep Hco Hk Hask) as (cache' & -> & Hco').
  cbn [mbind outcome_bind fst snd]. destruct (IH cache' Hco') as (cache'' & ->). by eexists.
Qed.

End looking_up.

(** Blocks have entries, so that there are not more of them. *)
Lemma blocks_le image bs : Forall (block_stored image) bs → (length bs ≤ length (stored_entries bs))%nat.
Proof.
  induction 1 as [|b bs Hb _ IH]; [done|]. unfold stored_entries in *. cbn [map concat length]. rewrite length_app.
  unfold bi_entries at 1. rewrite length_map. pose proof (bs_nonempty _ _ Hb). destruct (bi_items b); [done|]. cbn [length]. lia.
Qed.

Lemma Table_opens options image es bs seps f idx rho (file : F) cache :
  table_image options image es bs seps f idx rho → buildable options → readable file image → partitioned cache →
  ∃ rep cache', Table_Open options file (len image) cache = Ok (status_OK, Some rep, cache') ∧
    opens options bs f idx rho file rep ∧ coherent bs rep cache'.
Proof.
  intros TI Hb Hf Hp. destruct (Table_Open_ok options image es bs seps f idx rho TI file Hf) with (cache := cache) as (rep & E & Hrep & Hid).
  { intros name Hn. by destruct (buildable_name _ Hb name Hn). }
  exists rep, (open_cache cache).2. split_and!; [done|done|by apply coherent_fresh].
Qed.

(** C36: what TableBuilder writes is a table.  From any increasing entries that are small
    enough, with any lawful comparator, filter policy and compression, it makes a file that
    [Table::Open] accepts, through any lawful file that reads back the bytes and with any
    cache; and the iterator of the table is a position in exactly the list of the entries,
    in both directions and with [Seek]. *)
Theorem Table_roundtrip options w es :
  buildable options → acceptable options es → filter_bound * len es < 2 ^ 29 → working w → written w = [] →
  ∃ r, build_table options w es = Ok (status_OK, r) ∧ FileSize r = len (written (tbl_file r)) ∧
    ∀ (file : F) cache ropts rounds, readable file (written (tbl_file r)) → partitioned cache → (length es + 2 ≤ rounds)%nat →
    ∃ rep cache' it R, Table_Open options file (FileSize r) cache = Ok (status_OK, Some rep, cache') ∧
      Table_NewIterator rep = Ok it ∧
      @iterates _ _ _ (two_level_iterator (block_reader rep ropts cache') rounds) es R ∧ R it (length es).
Proof.
  intros Hopt Hacc Hb Hw Hf. destruct (build_table_ok options w es Hopt Hacc Hb Hw Hf) as (r & bs & seps & f & idx & rho & E & Hs & _ & TI).
  exists r. split; [done|]. split; [done|]. intros file cache ropts rounds Hfile Hp Hr.
  destruct (Table_opens _ _ _ _ _ _ _ _ file cache TI Hopt Hfile Hp) as (rep & cache' & Eo & Hrep & Hco).
  pose proof (blocks_le _ _ (ti_blocks _ _ _ _ _ _ _ _ TI)) as Hle. rewrite <- (ti_entries _ _ _ _ _ _ _ _ TI) in Hle.
  destruct (Table_NewIterator_ok _ _ _ _ _ _ _ _ TI file Hfile rep ropts cache' rounds Hrep Hco ltac:(lia)) as (it & R & Hit).
  exists rep, cache', it, R. by rewrite Hs.
Qed.

(** C37: lookups in a table that TableBuilder wrote.  The table has blocks that divide the
    entries.  However many lookups are made, over one cache that fills up meanwhile, with any
    lawful cache, each one ends with status OK and gives what [table_finds] does: of the first
    block whose limit in the index is not below the key, and only if the filter allows it, the
    first entry at or above the key.  So what is found is the first such entry of the table;
    nothing is found only where those entries are told apart from the key, by the limit of a
    block between them or by the filter for the block they are in; and a key that was added is
    found, with its value. *)
Theorem InternalGet_finds options w es `{!FilterAnswers} :
  buildable options → acceptable options es → filter_bound * len es < 2 ^ 29 → working w → written w = [] →
  ∃ r blocks, build_table options w es = Ok (status_OK, r) ∧ divides es blocks ∧
    ∀ (file : F) cache ropts, readable file (written (tbl_file r)) → partitioned cache →
    ∃ rep cache', Table_Open options file (FileSize r) cache = Ok (status_OK, Some rep, cache') ∧
      (opt_filter_policy options = None → tb_filter rep = None) ∧
      (∀ ks, Forall (λ k, key_ok k ∧ asked k) ks →
        ∃ cache'', lookups rep ropts ks cache' = Ok (map (λ k, (status_OK, table_finds (filter_allows rep k) blocks k)) ks, cache'')) ∧
      ∀ k, key_ok k → looked_up es blocks (filter_allows rep k) k (table_finds (filter_allows rep k) blocks k) ∧
        ∀ v, (k, v) ∈ es → table_finds (filter_allows rep k) blocks k = Some (k, v).
Proof.
  intros Hopt Hacc Hb Hw Hf. destruct (build_table_ok options w es Hopt Hacc Hb Hw Hf) as (r & bs & seps & f & idx & rho & E & Hs & _ & TI).
  exists r, (image_blocks bs seps). split; [done|]. split; [by eapply image_blocks_divide|].
  intros file cache ropts Hfile Hp. rewrite Hs.
  destruct (Table_opens _ _ _ _ _ _ _ _ file cache TI Hopt Hfile Hp) as (rep & cache' & Eo & Hrep & Hco).
  exists rep, cache'. split; [done|]. split; [|split].
  - intros Hn. pose proof (opens_filter _ _ _ _ _ _ _ Hrep) as Hfil. unfold filtered in Hfil.
    destruct (tb_filter rep); [|done]. destruct Hfil as [[x Hx] _]. congruence.
  - intros ks Hks. by eapply lookups_ok.
  - intros k Hk. split; [by eapply table_looks_up|]. intros v. by eapply looked_up_present.
Qed.

End properties.

(** *** A sample *)

#[local] Existing Instance zero_memory.
#[local] Instance sample_policy : FilterPolicy := bloom_policy sample_bloom.
#[local] Instance sample_policy_laws : FilterPolicyLaws := bloom_laws sample_bloom sample_bloom_ok.
#[local] Instance sample_policy_bound : FilterBound := bloom_bound sample_bloom sample_bloom_ok.
#[local] Instance sample_policy_answers : FilterAnswers := bloom_answers sample_bloom.

(** Small blocks, so that four entries make several of them. *)
Definition sample_options : Options :=
  {| opt_comparator := 0; paranoid_checks := true; block_size := 30; block_restart_interval := 2; compression := kNoCompression;
     opt_filter_policy := Some (text "leveldb.BuiltinBloomFilter2") |}.

Definition sample_entries : list (Slice * Slice) :=
  [(text "apple", [1; 2; 3]); (text "apricot", []); (text "banana", text "yellow"); (text "cherry", [255])].

Definition sample_output : PosixWritableFile * kernel :=
  (new_PosixWritableFile (text "000007.ldb") 5, {| on_disk := []; position := 0; interrupted := true |}).

(** The file of a table, mapped into memory. *)
Definition mapped (data : list Z) : PosixMmapReadableFile :=
  {| mmap_base_ := data; mm_length_ := len data; mm_filename_ := text "000007.ldb" |}.

Lemma sample_buildable : buildable sample_options.
Proof. split; [done|by left|]. intros name [= <-]. by split; [repeat constructor|]. Qed.

Lemma sample_acceptable : acceptable sample_options sample_entries.
Proof. split; [by split; repeat constructor|by repeat constructor|done|done]. Qed.

(** Without a cache. *)
#[local] Instance no_cache : BlockCache Empty_set :=
  {| NewId := Empty_set_rect _; cache_Lookup _ := Empty_set_rect _; cache_Insert _ _ _ := Empty_set_rect _ |}.

#[local] Instance no_cache_laws : BlockCacheLaws Empty_set.
Proof. refine {| held := Empty_set_rect _ |}; intros *; by destruct c. Defined.

Lemma sample_none : partitioned (@None Empty_set).
Proof. by intros c key block. Qed.

Lemma sample_written :
  filter_bound * len sample_entries < 2 ^ 29 ∧ working sample_output ∧ written sample_output = [].
Proof.
  split; [by change (@filter_bound _ (bloom_bound sample_bloom sample_bloom_ok) * 4 < 2 ^ 29); rewrite bloom_bound_value|]. split; [|done].
  split; [unfold buffer_ok, kWritableFileBufferSize; cbn; lia|done].
Qed.

Lemma Table_roundtrip_witness :
  ∃ r rep cache' it R, build_table sample_options sample_output sample_entries = Ok (status_OK, r) ∧
    Table_Open sample_options (mapped (written (tbl_file r))) (FileSize r) (@None Empty_set) = Ok (status_OK, Some rep, cache') ∧
    Table_NewIterator rep = Ok it ∧
    @iterates _ _ _ (two_level_iterator (block_reader rep new_ReadOptions cache') 6) sample_entries R ∧ R it 4%nat.
Proof.
  destruct sample_written as (Hb & Hw & Hf).
  destruct (Table_roundtrip sample_options sample_output sample_entries sample_buildable sample_acceptable Hb Hw Hf)
    as (r & E & _ & Hr). exists r.
  destruct (Hr (mapped (written (tbl_file r))) (@None Empty_set) new_ReadOptions 6%nat) as (rep & cache' & it & R & Ho & Hi & Hit & HR).
  - by split.
  - apply sample_none.
  - apply le_n.
  - exists rep, cache', it, R. exact (conj E (conj Ho (conj Hi (conj Hit HR)))).
Defined.

(** The cache of LdbCache.v, empty, and a file that is read with [pread], whose blocks it may keep. *)
Definition sample_blocks_cache : LdbCache.ShardedLRUCache TableBlock := LdbCache.new_ShardedLRUCache 4096.

#[local] Instance one_file_reads : PosixReads := {|
  sys_pread _ n off k := (Done (part off n (on_disk k)), k)
|}.

#[local] Instance one_file_reads_laws : PosixReadsLaws.
Proof.
  refine {| holds := λ _ k data, on_disk k = data; openable := λ _ _ _, False |}; cbn; try done.
  - intros _ n off w l w' Hn [= <- <-]. unfold part. rewrite length_take. lia.
  - intros _ n off w data <- _ _. by exists w.
Defined.

Definition pread_file (data : list Z) : PosixRandomAccessFile * kernel :=
  ({| has_permanent_fd_ := true; ra_fd_ := 6; ra_filename_ := text "000007.ldb" |},
   {| on_disk := data; position := 0; interrupted := false |}).

Definition sample_lookups : list Slice := [text "banana"; text "blueberry"; text "banana"; text "cherry"].

Definition charge_of (cache : option (LdbCache.ShardedLRUCache TableBlock)) : Z :=
  match cache with Some c => LdbCache.Cache_TotalCharge c | None => 0 end.

(** Two blocks are kept. *)
Lemma sample_charge :
  (r ← build_table sample_options sample_output sample_entries;
   o ← Table_Open sample_options (pread_file (written (tbl_file r.2))) (FileSize r.2) (Some sample_blocks_cache);
   match o.1.2 with
   | Some rep => x ← lookups rep new_ReadOptions sample_lookups o.2; Ok (charge_of o.2, charge_of x.2)
   | None => Fault NullPointer
   end) = Ok (0, 64).
Proof. by vm_compute. Qed.

Lemma InternalGet_finds_witness :
  ∃ r rep cache' cache'' none, build_table sample_options sample_output sample_entries = Ok (status_OK, r) ∧
    Table_Open sample_options (pread_file (written (tbl_file r))) (FileSize r) (Some sample_blocks_cache) = Ok (status_OK, Some rep, cache') ∧
    lookups rep new_ReadOptions sample_lookups cache' =
      Ok ([(status_OK, Some (text "banana", text "yellow")); (status_OK, none); (status_OK, Some (text "banana", text "yellow"));
           (status_OK, Some (text "cherry", [255]))], cache'') ∧
    charge_of cache' = 0 ∧ charge_of cache'' = 64.
Proof.
  destruct sample_written as (Hb & Hw & Hf).
  destruct (InternalGet_finds (F := PosixRandomAccessFile * kernel) (C := LdbCache.ShardedLRUCache TableBlock) sample_options sample_output sample_entries sample_buildable sample_acceptable Hb Hw Hf)
    as (r & blocks & E & _ & Hr). exists r.
  destruct (Hr (pread_file (written (tbl_file r))) (Some sample_blocks_cache) new_ReadOptions) as (rep & cache' & Ho & _ & Hl & Hk).
  - split; [apply Z.leb_le|]; reflexivity.
  - apply new_blocks_partitioned.
  - destruct (Hl sample_lookups) as (cache'' & El); [by repeat constructor|].
    assert (key_ok (text "banana") ∧ key_ok (text "cherry")) as [Hok1 Hok2] by (by repeat constructor).
    pose proof (proj2 (Hk (text "banana") Hok1) (text "yellow") ltac:(right; right; left)) as H1.
    pose proof (proj2 (Hk (text "cherry") Hok2) [255] ltac:(right; right; right; left)) as H2.
    cbn [map sample_lookups] in El. rewrite H1, H2 in El. pose proof sample_charge as Hc. rewrite E in Hc.
    cbn [mbind outcome_bind fst snd] in Hc. rewrite Ho in Hc. cbn [mbind outcome_bind fst snd] in Hc.
    rewrite El in Hc. cbn [mbind outcome_bind fst snd] in Hc. injection Hc as Hc1 Hc2.
    eexists rep, cache', cache'', _. exact (conj E (conj Ho (conj El (conj Hc1 Hc2)))).
Defined.
