(* ===== verification/CbWorld.v ===== *)
(** * CBuilder.c, the world of the build tool

    The globals of the tool (rules, dry-run flag, settings of the logger), the tree of
    files below its working directory, what it printed and the commands it ran, as one
    state with a monad of its own: a run returns, is undefined, or ends the process in a
    state. The shell, the clock and the memory are the class [Machine].

    The file system is a tree without links or permissions; a directory lists its entries
    in the order of [readdir], and a directory that is being read goes on listing the
    entries it had when it was opened. *)

From S2P Require Import Prelude CbString.

(** ** The tree of files *)

Inductive node : Type :=
  | FileNode (mtime : Z) (content : string)
  | DirNode (entries : list (string * node)).

Fixpoint find_entry (x : string) (es : list (string * node)) : option node :=
  match es with
  | [] => None
  | (y, n) :: es => if String.eqb x y then Some n else find_entry x es
  end.

Fixpoint set_entry (x : string) (n : node) (es : list (string * node)) : list (string * node) :=
  match es with
  | [] => [(x, n)]
  | (y, m) :: es => if String.eqb x y then (x, n) :: es else (y, m) :: set_entry x n es
  end.

Fixpoint remove_entry (x : string) (es : list (string * node)) : list (string * node) :=
  match es with
  | [] => []
  | (y, m) :: es => if String.eqb x y then es else (y, m) :: remove_entry x es
  end.

Fixpoint lookup_node (p : list string) (t : node) : option node :=
  match p with
  | [] => Some t
  | x :: p =>
      match t with
      | DirNode es => match find_entry x es with Some t => lookup_node p t | None => None end
      | FileNode _ _ => None
      end
  end.

(** A node at a path whose parent is a directory; [None] otherwise. *)
Fixpoint put_node (p : list string) (n t : node) : option node :=
  match p, t with
  | [], _ => None
  | [x], DirNode es => Some (DirNode (set_entry x n es))
  | x :: p, DirNode es =>
      t ← find_entry x es; t ← put_node p n t; Some (DirNode (set_entry x t es))
  | _, FileNode _ _ => None
  end.

Fixpoint drop_node (p : list string) (t : node) : node :=
  match p, t with
  | [x], DirNode es => DirNode (remove_entry x es)
  | x :: p, DirNode es =>
      match find_entry x es with
      | Some t => DirNode (set_entry x (drop_node p t) es)
      | None => DirNode es
      end
  | _, _ => t
  end.

(** The names on a path. An empty name or a dot stays where it is. *)
Fixpoint components (s cur : string) : list string :=
  match s with
  | EmptyString => [cur]
  | String c s => if Ascii.eqb c "/" then cur :: components s EmptyString
                  else components s (cur +:+ String c EmptyString)
  end.

Definition stays (x : string) : bool := String.eqb x "" || String.eqb x ".".

Definition resolve (path : string) : list string :=
  List.filter (λ x, negb (stays x)) (components path "").

(** ** The state *)

Definition LOG_LEVEL_DEBUG : Z := 0.
Definition LOG_LEVEL_INFO : Z := 1.
Definition LOG_LEVEL_WARN : Z := 2.
Definition LOG_LEVEL_ERROR : Z := 3.
Definition LOG_LEVEL_FATAL : Z := 4.

Inductive LogMode : Type := LOG_MODE_FILE | LOG_MODE_STDERR | LOG_MODE_STDOUT.

(** A stream that is open, on the file of a path, or that was closed. *)
Inductive LogStream : Type := OpenOn (path : string) | Closed.

(** The stream of the log file is NULL at first. *)
Record Logger : Type := {
  log_level : Z;
  log_output_stream : option LogStream;
  log_file_path : string;
  log_file_mode : string;
  log_mode : LogMode;
  use_colors : bool;
  show_file_line : bool;
  show_timestamp : bool;
  show_log_level : bool;
  log_colors : list string
}.

(** The functions a rule may point to. *)
Inductive RuleFunction : Type :=
  | BuildRule_fn | ExecRule_fn | CleanRule_fn | BuildTests_fn
  | HelpRule_fn | RebuildSelf_fn | BuildDebugSelf_fn.

(** The name is the copy [strdup] made, NULL when there was no memory. *)
Record Rule : Type := { name : option string; function : RuleFunction }.

Inductive output : Type := Stdout | Stderr.

Record builder : Type := Builder {
  gRules : list Rule;                    (* the first [gRuleCount] of the array *)
  gDryRun : bool;
  logger : Logger;
  root : node;
  executed : list string;                (* commands given to the shell, oldest first *)
  written : list (output * string);      (* what was printed, oldest first *)
  ticks : nat                            (* commands and readings of the clock so far *)
}.

Definition set_rules (r : list Rule) (s : builder) : builder :=
  Builder r (gDryRun s) (logger s) (root s) (executed s) (written s) (ticks s).
Definition set_dry (d : bool) (s : builder) : builder :=
  Builder (gRules s) d (logger s) (root s) (executed s) (written s) (ticks s).
Definition set_logger (l : Logger) (s : builder) : builder :=
  Builder (gRules s) (gDryRun s) l (root s) (executed s) (written s) (ticks s).
Definition set_root (t : node) (s : builder) : builder :=
  Builder (gRules s) (gDryRun s) (logger s) t (executed s) (written s) (ticks s).
Definition add_executed (c : string) (s : builder) : builder :=
  Builder (gRules s) (gDryRun s) (logger s) (root s) (executed s ++ [c]) (written s) (ticks s).
Definition add_written (o : output) (t : string) (s : builder) : builder :=
  Builder (gRules s) (gDryRun s) (logger s) (root s) (executed s) (written s ++ [(o, t)]) (ticks s).
Definition add_tick (s : builder) : builder :=
  Builder (gRules s) (gDryRun s) (logger s) (root s) (executed s) (written s) (S (ticks s)).

(** ** The monad *)

Inductive result (A : Type) : Type :=
  | Returns (a : A) (s : builder)
  | Undefined (f : fault)
  | Exited (code : Z) (s : builder).
Arguments Returns {A} a s.
Arguments Undefined {A} f.
Arguments Exited {A} code s.

Definition CB (A : Type) : Type := builder → result A.

#[export] Instance CB_ret : MRet CB := λ A a s, Returns a s.
#[export] Instance CB_bind : MBind CB := λ A B f m s,
  match m s with Returns a s => f a s | Undefined e => Undefined e | Exited c s => Exited c s end.

Definition look : CB builder := λ s, Returns s s.
Definition update (f : builder → builder) : CB unit := λ s, Returns tt (f s).
Definition undefined {A} (e : fault) : CB A := λ _, Undefined e.
Definition exit_with {A} (c : Z) : CB A := λ s, Exited c s.
Definition pure {A} (o : outcome A) : CB A :=
  match o with Ok a => mret a | Fault e => undefined e | Exits c => exit_with c end.
Definition deref_cb {A} (p : option A) : CB A :=
  match p with Some a => mret a | None => undefined NullPointer end.

Lemma CB_bind_ok {A B} (m : CB A) (f : A → CB B) s a s' : m s = Returns a s' → (m ≫= f) s = f a s'.
Proof. intros H. unfold mbind, CB_bind. by rewrite H. Qed.

Lemma CB_look {B} (f : builder → CB B) s : (look ≫= f) s = f s s.
Proof. reflexivity. Qed.

Lemma CB_update {B} g (f : unit → CB B) s : (update g ≫= f) s = f tt (g s).
Proof. reflexivity. Qed.

Lemma CB_pure {A B} (o : outcome A) (f : A → CB B) a s : o = Ok a → (pure o ≫= f) s = f a s.
Proof. by intros ->. Qed.

(** ** The machine *)

Class Machine : Type := {
  machine_alloc :: Alloc;
  sh : string → node → node * option Z;     (* [sh -c]: the exit status, if it exited *)
  fork_ok : nat → bool;
  capture : string → node → option string;  (* what a command run by [popen] prints *)
  wall : nat → Z;                           (* the clock *)
  dir_mtime : string → Z;                   (* when a directory was last changed *)
  errno_text : string;                      (* what [perror] adds to its message *)
  date : nat → string                       (* the time as [_current_time_string] prints it *)
}.

Section calls.
Context `{Machine}.

Definition print (o : output) (t : string) : CB unit := update (add_written o t).

Definition perror (msg : string) : CB unit := print Stderr (msg +:+ ": " +:+ errno_text).

(** [stat]: the node a path leads to. An empty path leads nowhere. *)
Definition stat (path : string) : CB (option node) :=
  s ← look;
  mret (if String.eqb path "" then None else lookup_node (resolve path) (root s)).

(** [opendir], and the names that [readdir] will give. *)
Definition opendir_cb (path : string) : CB (option (list string)) :=
  n ← stat path;
  mret (match n with Some (DirNode es) => Some ("." :: ".." :: map fst es)%string | _ => None end).

(** [fopen] for writing: the file is created or emptied. *)
Definition fopen_w (path : string) : CB bool :=
  n ← stat path;
  match n with
  | Some (DirNode _) => mret false
  | _ =>
      s ← look;
      match put_node (resolve path) (FileNode (wall (ticks s)) "") (root s) with
      | Some t => _ ← update (set_root t); mret true
      | None => mret false
      end
  end.

(** [fopen] for appending: the file is created if need be. *)
Definition fopen_a (path : string) : CB bool :=
  n ← stat path;
  match n with Some (FileNode _ _) => mret true | _ => fopen_w path end.

(** Replace the contents of an open file; nothing happens to one that was removed. *)
Definition write_file (path : string) (f : string → string) : CB unit :=
  n ← stat path;
  match n with
  | Some (FileNode _ c) =>
      s ← look;
      match put_node (resolve path) (FileNode (wall (ticks s)) (f c)) (root s) with
      | Some t => update (set_root t)
      | None => mret tt
      end
  | _ => mret tt
  end.

(** [fwrite] and [fprintf] at the end of a file. *)
Definition append_file (path text : string) : CB unit := write_file path (λ c, c +:+ text).

Definition unlink_node (path : string) : CB unit := update (λ s, set_root (drop_node (resolve path) (root s)) s).

(** A directory can be removed when it is empty and not the working directory. *)
Definition rmdir (path : string) : CB bool :=
  n ← stat path;
  match n with
  | Some (DirNode []) => if resolve path is [] then mret false else _ ← unlink_node path; mret true
  | _ => mret false
  end.

(** [remove]: a file, or an empty directory. *)
Definition remove_path (path : string) : CB bool :=
  n ← stat path;
  match n with
  | Some (FileNode _ _) => _ ← unlink_node path; mret true
  | _ => rmdir path
  end.

(** [mkdir], or that something has that name already. *)
Definition mkdir_or_exists (path : string) : CB bool :=
  n ← stat path;
  match n with
  | Some _ => mret true
  | None =>
      s ← look;
      if String.eqb path "" then mret false else
      match put_node (resolve path) (DirNode []) (root s) with
      | Some t => _ ← update (set_root t); mret true
      | None => mret false
      end
  end.

End calls.

(** ** Lemmas on trees *)

Lemma find_entry_set x n es y :
  find_entry y (set_entry x n es) = if String.eqb y x then Some n else find_entry y es.
Proof.
  induction es as [|[z m] es IH]; cbn; [done|].
  destruct (String.eqb x z) eqn:E; cbn.
  - apply String.eqb_eq in E as ->. by destruct (String.eqb y z).
  - rewrite IH. destruct (String.eqb y z) eqn:Ez; [|done].
    apply String.eqb_eq in Ez as ->. rewrite String.eqb_sym, E. done.
Qed.

Lemma set_entry_id x n es : find_entry x es = Some n → set_entry x n es = es.
Proof.
  induction es as [|[y m] es IH]; cbn; [done|].
  destruct (String.eqb x y) eqn:E; [|intros; by rewrite IH].
  apply String.eqb_eq in E as ->. by intros [= ->].
Qed.

Lemma lookup_app p q t : lookup_node (p ++ q) t = lookup_node p t ≫= lookup_node q.
Proof.
  revert t. induction p as [|x p IH]; intros t; [done|]. cbn.
  destruct t as [m c|es]; [done|]. destruct (find_entry x es); [apply IH|done].
Qed.

(** The node at a path, replaced. *)
Fixpoint at_node (p : list string) (f : node → node) (t : node) : node :=
  match p, t with
  | [], _ => f t
  | x :: p, DirNode es =>
      match find_entry x es with Some u => DirNode (set_entry x (at_node p f u) es) | None => t end
  | _ :: _, FileNode _ _ => t
  end.

Lemma lookup_at_node p f t n : lookup_node p t = Some n → lookup_node p (at_node p f t) = Some (f n).
Proof.
  revert t. induction p as [|x p IH]; intros t; cbn; [by intros [= ->]|].
  destruct t as [|es]; [done|]. destruct (find_entry x es) as [u|] eqn:E; [|done].
  intros Hn. cbn. rewrite find_entry_set, String.eqb_refl. by apply IH.
Qed.

Lemma set_entry_twice x n n' es : set_entry x n (set_entry x n' es) = set_entry x n es.
Proof.
  induction es as [|[y m] es IH]; cbn; [by rewrite String.eqb_refl|].
  destruct (String.eqb x y) eqn:E; cbn; [by rewrite String.eqb_refl|]. by rewrite E, IH.
Qed.

Lemma at_node_twice p f g t n :
  lookup_node p t = Some n → at_node p g (at_node p f t) = at_node p (λ n, g (f n)) t.
Proof.
  revert t. induction p as [|x p IH]; intros t; cbn; [done|].
  destruct t as [|es]; [done|]. destruct (find_entry x es) as [u|] eqn:E; [|done].
  intros Hn. cbn. rewrite find_entry_set, String.eqb_refl. rewrite IH by done.
  by rewrite set_entry_twice.
Qed.

Lemma at_node_ext p f g t n :
  lookup_node p t = Some n → f n = g n → at_node p f t = at_node p g t.
Proof.
  revert t. induction p as [|x p IH]; intros t; cbn; [by intros [= ->]|].
  destruct t as [|es]; [done|]. destruct (find_entry x es) as [u|] eqn:E; [|done].
  intros Hn Hfg. by rewrite (IH u).
Qed.

Lemma at_node_id p t n : lookup_node p t = Some n → at_node p (λ x, x) t = t.
Proof.
  revert t. induction p as [|x p IH]; intros t; cbn; [done|].
  destruct t as [|es]; [done|]. destruct (find_entry x es) as [u|] eqn:E; [|done].
  intros Hn. by rewrite (IH u), set_entry_id.
Qed.

(** Dropping an entry of a directory. *)
Lemma drop_in_dir p x t es :
  lookup_node p t = Some (DirNode es) →
  drop_node (p ++ [x]) t = at_node p (λ _, DirNode (remove_entry x es)) t.
Proof.
  revert t. induction p as [|y p IH]; intros t; cbn; [by intros [= ->]|].
  destruct t as [|es']; [done|]. destruct (find_entry y es') as [u|] eqn:E; [|done].
  intros Hn. rewrite <- (IH u) by done. by destruct p.
Qed.

Lemma put_in_dir p x n t es :
  lookup_node p t = Some (DirNode es) →
  put_node (p ++ [x]) n t = Some (at_node p (λ _, DirNode (set_entry x n es)) t).
Proof.
  revert t. induction p as [|y p IH]; intros t; cbn; [by intros [= ->]|].
  destruct t as [|es']; [done|]. destruct (find_entry y es') as [u|] eqn:E; [|done].
  intros Hn. specialize (IH u Hn). cbn. rewrite IH. by destruct p.
Qed.

(** ** Lemmas on paths *)

(** A name that [readdir] can give, other than the two dots. *)
Fixpoint no_slash (s : string) : bool :=
  match s with EmptyString => true | String c s => negb (Ascii.eqb c "/") && no_slash s end.

Definition valid_name (x : string) : bool :=
  no_slash x && negb (stays x) && negb (String.eqb x "..").

Lemma components_name x cur : no_slash x = true → components x cur = [cur +:+ x].
Proof.
  revert cur. induction x as [|c x IH]; intros cur; cbn; [by rewrite sapp_nil|].
  intros Hx. apply andb_true_iff in Hx as [Hc Hx]. apply negb_true_iff in Hc. rewrite Hc.
  rewrite IH by done. by rewrite <- sapp_assoc.
Qed.

Lemma components_app s t cur :
  components (s +:+ String "/" t) cur = components s cur ++ components t "".
Proof.
  revert cur. induction s as [|c s IH]; intros cur; [done|].
  change (String c s +:+ String "/" t) with (String c (s +:+ String "/" t)). cbn.
  destruct (Ascii.eqb c "/"); by rewrite IH.
Qed.

Lemma resolve_name x : no_slash x = true → stays x = false → resolve x = [x].
Proof.
  intros H1 H2. unfold resolve. rewrite components_name by done.
  change ("" +:+ x) with x. cbn. by rewrite H2.
Qed.

Lemma resolve_join path x :
  valid_name x = true → resolve (path +:+ String "/" x) = resolve path ++ [x].
Proof.
  intros Hx. unfold valid_name in Hx. split_bool. unfold resolve.
  rewrite components_app, List.filter_app. f_equal.
  exact (resolve_name x ltac:(done) ltac:(done)).
Qed.

Lemma join_not_empty path x : String.eqb (path +:+ String "/" x) "" = false.
Proof. by destruct path. Qed.

(** ** What holds from the start of a run to its end

    [ends P m]: however [m] ends, by returning or by [exit], its end is related to its
    start. The relation is a preorder, so that it composes. *)

Create HintDb ends.

Definition ends {A} (P : builder → builder → Prop) (m : CB A) : Prop :=
  ∀ s, match m s with Returns _ s' | Exited _ s' => P s s' | Undefined _ => True end.

Section ends.
Context (P : builder → builder → Prop) `{!PreOrder P}.

Lemma ends_ret {A} (a : A) : ends P (mret a).
Proof. intros s. cbn. reflexivity. Qed.

Lemma ends_undefined {A} e : ends P (@undefined A e).
Proof. done. Qed.

Lemma ends_exit {A} c : ends P (@exit_with A c).
Proof. intros s. cbn. reflexivity. Qed.

Lemma ends_pure {A} (o : outcome A) : ends P (pure o).
Proof. destruct o; [apply ends_ret|done|apply ends_exit]. Qed.

Lemma ends_deref {A} (p : option A) : ends P (deref_cb p).
Proof. destruct p; [apply ends_ret|done]. Qed.

Lemma ends_look : ends P look.
Proof. intros s. cbn. reflexivity. Qed.

Lemma ends_bind {A B} (m : CB A) (f : A → CB B) : ends P m → (∀ a, ends P (f a)) → ends P (m ≫= f).
Proof.
  intros Hm Hf s. specialize (Hm s). unfold mbind, CB_bind. destruct (m s) as [a s1| |c s1]; [|done|done].
  specialize (Hf a s1). destruct (f a s1); [|done|]; by trans s1.
Qed.

Lemma ends_update f : (∀ s, P s (f s)) → ends P (update f).
Proof. intros Hf s. apply Hf. Qed.

(** Reading the state, then going on in a way that may depend on it. *)
Lemma ends_look_bind {B} (f : builder → CB B) :
  (∀ s, match f s s with Returns _ s' | Exited _ s' => P s s' | Undefined _ => True end) → ends P (look ≫= f).
Proof. intros Hf s. apply Hf. Qed.

(** Values do not matter: a run may be looked at from any point. *)
Lemma ends_at {A} (m : CB A) s : ends P m → match m s with Returns _ s' | Exited _ s' => P s s' | Undefined _ => True end.
Proof. intros Hm. apply Hm. Qed.
End ends.

#[export] Hint Resolve ends_ret ends_undefined ends_exit ends_pure ends_deref ends_look : ends.

(** Follow the structure of a computation; known ones are closed by the database. *)
Ltac ends_step :=
  first
    [ solve [auto 6 with ends typeclass_instances]
    | apply ends_bind; [typeclasses eauto| |intros ?]
    | match goal with |- ends _ (match ?x with _ => _ end) => destruct x end
    | match goal with |- ends _ (if ?x then _ else _) => destruct x end
    | match goal with |- ends _ (let '(_, _) := ?x in _) => destruct x end ].
Ltac follow := repeat ends_step.
