(* ===== verification/CbLog.v ===== *)
(** * CBuilder.c, the logger

    Settings of the logger and the message function, with what each call prints to the
    console or adds to the log file. The text of a message is the formatted one: the
    callers format, [_log_message] cuts. *)

From S2P Require Import Prelude CbString CbWorld Files.

Definition MAX_LOG_MESSAGE_LENGTH : nat := 2048.
Definition CBUILDER_FILE : string := "CBuilder.c".

(** An escape sequence: the character 27 before its code. *)
Definition ANSI_COLOR (code : string) : string := String (ascii_of_nat 27) code.

Definition COLOR_WHITE : string := ANSI_COLOR "[37m".
Definition COLOR_GREEN : string := ANSI_COLOR "[32m".
Definition COLOR_YELLOW : string := ANSI_COLOR "[33m".
Definition COLOR_RED : string := ANSI_COLOR "[31m".
Definition COLOR_MAGENTA : string := ANSI_COLOR "[35m".
Definition COLOR_CYAN : string := ANSI_COLOR "[36m".
Definition COLOR_BLUE : string := ANSI_COLOR "[34m".
Definition COLOR_RESET : string := ANSI_COLOR "[0m".

Definition _log_colors : list string :=
  [COLOR_WHITE; COLOR_GREEN; COLOR_YELLOW; COLOR_RED; COLOR_MAGENTA].

(** The settings the tool starts with. *)
Definition default_logger : Logger := {|
  log_level := LOG_LEVEL_DEBUG;
  log_output_stream := None;
  log_file_path := "default_log.log";
  log_file_mode := "a";
  log_mode := LOG_MODE_STDERR;
  use_colors := true;
  show_file_line := true;
  show_timestamp := true;
  show_log_level := true;
  log_colors := _log_colors |}.

(** ** Settings *)

Definition with_level (v : Z) (l : Logger) : Logger :=
  Build_Logger v (log_output_stream l) (log_file_path l) (log_file_mode l) (log_mode l)
    (use_colors l) (show_file_line l) (show_timestamp l) (show_log_level l) (log_colors l).
Definition with_stream (v : option LogStream) (l : Logger) : Logger :=
  Build_Logger (log_level l) v (log_file_path l) (log_file_mode l) (log_mode l)
    (use_colors l) (show_file_line l) (show_timestamp l) (show_log_level l) (log_colors l).
Definition with_path (v : string) (l : Logger) : Logger :=
  Build_Logger (log_level l) (log_output_stream l) v (log_file_mode l) (log_mode l)
    (use_colors l) (show_file_line l) (show_timestamp l) (show_log_level l) (log_colors l).
Definition with_mode (v : LogMode) (l : Logger) : Logger :=
  Build_Logger (log_level l) (log_output_stream l) (log_file_path l) (log_file_mode l) v
    (use_colors l) (show_file_line l) (show_timestamp l) (show_log_level l) (log_colors l).
Definition with_use_colors (v : bool) (l : Logger) : Logger :=
  Build_Logger (log_level l) (log_output_stream l) (log_file_path l) (log_file_mode l) (log_mode l)
    v (show_file_line l) (show_timestamp l) (show_log_level l) (log_colors l).
Definition with_show_file_line (v : bool) (l : Logger) : Logger :=
  Build_Logger (log_level l) (log_output_stream l) (log_file_path l) (log_file_mode l) (log_mode l)
    (use_colors l) v (show_timestamp l) (show_log_level l) (log_colors l).
Definition with_show_timestamp (v : bool) (l : Logger) : Logger :=
  Build_Logger (log_level l) (log_output_stream l) (log_file_path l) (log_file_mode l) (log_mode l)
    (use_colors l) (show_file_line l) v (show_log_level l) (log_colors l).
Definition with_show_log_level (v : bool) (l : Logger) : Logger :=
  Build_Logger (log_level l) (log_output_stream l) (log_file_path l) (log_file_mode l) (log_mode l)
    (use_colors l) (show_file_line l) (show_timestamp l) v (log_colors l).
Definition with_log_colors (v : list string) (l : Logger) : Logger :=
  Build_Logger (log_level l) (log_output_stream l) (log_file_path l) (log_file_mode l) (log_mode l)
    (use_colors l) (show_file_line l) (show_timestamp l) (show_log_level l) v.

Definition update_logger (f : Logger → Logger) : CB unit := update (λ s, set_logger (f (logger s)) s).

Definition SetShowLogLevel (enable : bool) : CB unit := update_logger (with_show_log_level enable).
Definition SetUseColors (enable : bool) : CB unit := update_logger (with_use_colors enable).
Definition SetShowFileLine (enable : bool) : CB unit := update_logger (with_show_file_line enable).
Definition SetShowTimestamp (enable : bool) : CB unit := update_logger (with_show_timestamp enable).

Definition SetLogColor (level : Z) (color_code : string) : CB unit :=
  if (LOG_LEVEL_DEBUG <=? level) && (level <=? LOG_LEVEL_FATAL)
  then update_logger (λ l, with_log_colors (<[Z.to_nat level := color_code]> (log_colors l)) l)
  else mret tt.

Definition _log_level_to_string (level : Z) : string :=
  if level =? LOG_LEVEL_DEBUG then "DEBUG"
  else if level =? LOG_LEVEL_INFO then "INFO"
  else if level =? LOG_LEVEL_WARN then "WARN"
  else if level =? LOG_LEVEL_ERROR then "ERROR"
  else if level =? LOG_LEVEL_FATAL then "FATAL"
  else "UNKNOWN".

Section logger.
Context `{Machine}.

(** The path of a stream that is used: not NULL, and not closed. *)
Definition stream_path (f : option LogStream) : CB string :=
  match f with
  | None => undefined NullPointer
  | Some Closed => undefined BadFree
  | Some (OpenOn path) => mret path
  end.

(** The mode of the file is always "a". *)
Definition _open_log_file : CB unit :=
  s ← look;
  _ ← (match log_output_stream (logger s) with
       | None => mret ""%string
       | f => stream_path f
       end);
  opened ← fopen_a (log_file_path (logger s));
  update_logger (with_stream (if opened : bool then Some (OpenOn (log_file_path (logger s))) else None)).

Definition _set_log_mode (mode : LogMode) : CB unit :=
  _ ← update_logger (with_mode mode);
  match mode with LOG_MODE_FILE => _open_log_file | _ => mret tt end.

Definition _set_log_level (level : Z) : CB unit := update_logger (with_level level).

Definition _set_log_file_path (filepath : string) : CB unit :=
  _ ← update_logger (with_path (String.substring 0 255 filepath));
  s ← look;
  match log_mode (logger s) with LOG_MODE_FILE => _open_log_file | _ => mret tt end.

(** [freopen] with mode "w" closes the stream, and leaves it so when it fails. *)
Definition _clear_log_file : CB unit :=
  s ← look;
  match log_mode (logger s), log_output_stream (logger s) with
  | LOG_MODE_FILE, Some f =>
      _ ← stream_path (Some f);
      opened ← fopen_w (log_file_path (logger s));
      update_logger (with_stream (Some (if opened : bool then OpenOn (log_file_path (logger s)) else Closed)))
  | _, _ => mret tt
  end.

(** The variable keeps the stream that was closed when the file is opened again. *)
Definition _erase_log_file : CB unit :=
  s ← look;
  match log_mode (logger s) with
  | LOG_MODE_FILE =>
      _ ← stream_path (log_output_stream (logger s));
      _ ← update_logger (with_stream (Some Closed));
      _ ← remove_path (log_file_path (logger s));
      _open_log_file
  | _ => mret tt
  end.

(** ** Messages *)

(** [fprintf] to the stream of the current mode. *)
Definition log_print (text : string) : CB unit :=
  s ← look;
  match log_mode (logger s) with
  | LOG_MODE_FILE => path ← stream_path (log_output_stream (logger s)); append_file path text
  | LOG_MODE_STDERR => print Stderr text
  | LOG_MODE_STDOUT => print Stdout text
  end.

(** Reading the clock for a time stamp. *)
Definition _current_time_string : CB string := λ s, Returns (date (ticks s)) (add_tick s).

Definition colored (l : Logger) : bool :=
  use_colors l && match log_mode l with LOG_MODE_FILE => false | _ => true end.

Definition _log_message (level : Z) (file : string) (line : Z) (message : string) : CB unit :=
  s ← look;
  let l := logger s in
  if level <? log_level l then mret tt else
  time_buffer ← (if show_timestamp l then _current_time_string else mret ""%string);
  let log_message := snprintf MAX_LOG_MESSAGE_LENGTH message in
  _ ← (if colored l then
         match log_colors l !! Z.to_nat level with
         | Some c => log_print c
         | None => undefined OutOfBounds
         end
       else mret tt);
  _ ← (if show_timestamp l then log_print ("[" +:+ time_buffer +:+ "] ") else mret tt);
  _ ← (if show_file_line l then log_print (file +:+ ":" +:+ pretty line +:+ " ") else mret tt);
  _ ← (if show_log_level l then log_print ("[" +:+ _log_level_to_string level +:+ "] ") else mret tt);
  _ ← log_print (log_message +:+ String (ascii_of_nat 10) "");
  if colored l then log_print COLOR_RESET else mret tt.

(** The line of the call is the one in the source. *)
Definition LOG_DEBUG (line : Z) (message : string) : CB unit := _log_message LOG_LEVEL_DEBUG CBUILDER_FILE line message.
Definition LOG_INFO (line : Z) (message : string) : CB unit := _log_message LOG_LEVEL_INFO CBUILDER_FILE line message.
Definition LOG_WARN (line : Z) (message : string) : CB unit := _log_message LOG_LEVEL_WARN CBUILDER_FILE line message.
Definition LOG_ERROR (line : Z) (message : string) : CB unit := _log_message LOG_LEVEL_ERROR CBUILDER_FILE line message.
Definition LOG_FATAL (line : Z) (message : string) : CB unit := _log_message LOG_LEVEL_FATAL CBUILDER_FILE line message.

End logger.

(** ** Lemmas *)

(** More text printed. *)
Definition say (o : output) (texts : list string) (s : builder) : builder :=
  Builder (gRules s) (gDryRun s) (logger s) (root s) (executed s)
    (written s ++ map (pair o) texts) (ticks s).

Lemma say_nil o s : say o [] s = s.
Proof. destruct s. unfold say. cbn. by rewrite app_nil_r. Qed.

Lemma say_say o l1 l2 s : say o l2 (say o l1 s) = say o (l1 ++ l2) s.
Proof. unfold say. cbn. by rewrite map_app, app_assoc. Qed.

Lemma say_one o t s : add_written o t s = say o [t] s.
Proof. done. Qed.

(** A logger that prints to the console, with a colour per level. *)
Record console (l : Logger) : Prop := {
  console_mode : log_mode l ≠ LOG_MODE_FILE;
  console_colors : length (log_colors l) = 5%nat
}.

Definition out_of (l : Logger) : output := match log_mode l with LOG_MODE_STDOUT => Stdout | _ => Stderr end.

Definition when {A} (b : bool) (l : list A) : list A := if b then l else [].

(** What a message prints. *)
Definition log_texts (l : Logger) (level : Z) (file : string) (line : Z) (time message : string) : list string :=
  when (negb (level <? log_level l))
    (when (colored l) [log_colors l !!! Z.to_nat level] ++
     when (show_timestamp l) ["[" +:+ time +:+ "] "] ++
     when (show_file_line l) [file +:+ ":" +:+ pretty line +:+ " "] ++
     when (show_log_level l) ["[" +:+ _log_level_to_string level +:+ "] "] ++
     [snprintf MAX_LOG_MESSAGE_LENGTH message +:+ String (ascii_of_nat 10) ""] ++
     when (colored l) [COLOR_RESET]).

Section log_lemmas.
Context `{Machine}.

Lemma log_print_ok t s : console (logger s) → log_print t s = Returns tt (say (out_of (logger s)) [t] s).
Proof. intros [Hm _]. unfold log_print. rewrite CB_look. unfold out_of. by destruct (log_mode (logger s)). Qed.

(** A step of a message that is printed or skipped. *)
Lemma log_step_ok {B} (b : bool) t (f : unit → CB B) s :
  console (logger s) →
  ((if b then log_print t else mret tt) ≫= f) s = f tt (say (out_of (logger s)) (when b [t]) s).
Proof.
  intros Hc. destruct b; [by rewrite (CB_bind_ok _ _ _ _ _ (log_print_ok t s Hc))|].
  cbn. by rewrite say_nil.
Qed.

Lemma log_message_ok level file line message s :
  console (logger s) → 0 ≤ level ≤ LOG_LEVEL_FATAL →
  _log_message level file line message s =
    Returns tt (say (out_of (logger s)) (log_texts (logger s) level file line (date (ticks s)) message)
      (if negb (level <? log_level (logger s)) && show_timestamp (logger s) then add_tick s else s)).
Proof.
  intros Hc Hl. unfold _log_message, log_texts. rewrite CB_look.
  destruct (level <? log_level (logger s)) eqn:E; cbn [negb andb when]; [by rewrite say_nil|].
  set (l := logger s) in *.
  assert (Hcolor : ∃ c, log_colors l !! Z.to_nat level = Some c ∧ log_colors l !!! Z.to_nat level = c).
  { destruct (lookup_lt_is_Some_2 (log_colors l) (Z.to_nat level)) as [c Ec].
    - rewrite (console_colors l Hc). unfold LOG_LEVEL_FATAL in Hl. lia.
    - exists c. split; [done|]. by apply list_lookup_total_correct. }
  destruct Hcolor as (c & -> & ->).
  set (s1 := if show_timestamp l then add_tick s else s).
  assert (Ht : (if show_timestamp l then _current_time_string else mret ""%string) s =
               Returns (if show_timestamp l then date (ticks s) else ""%string) s1) by (unfold s1; by destruct (show_timestamp l)).
  rewrite (CB_bind_ok _ _ _ _ _ Ht).
  assert (Hl1 : logger s1 = l) by (unfold s1; by destruct (show_timestamp l)). clearbody s1. clear Ht.
  assert (Hk : ∀ t, logger (say (out_of l) t s1) = l) by done.
  rewrite log_step_ok, Hl1 by (by rewrite Hl1).
  do 3 (rewrite log_step_ok, Hk, say_say by (by rewrite Hk)).
  rewrite (CB_bind_ok _ _ _ _ _ (log_print_ok _ _ ltac:(by rewrite Hk))), Hk, say_say.
  destruct (show_timestamp l), (colored l), (show_file_line l), (show_log_level l); cbn [when app];
    rewrite ?(log_print_ok _ (say _ _ _) ltac:(by rewrite Hk)), ?Hk, ?say_say; done.
Qed.

(** Erasing the log file never ends well in file mode: a stream that was not opened is
    used, or the one just closed is closed again when the file is opened. *)
Lemma erase_log_file_undefined s :
  log_mode (logger s) = LOG_MODE_FILE →
  _erase_log_file s =
    Undefined (match log_output_stream (logger s) with None => NullPointer | _ => BadFree end).
Proof.
  intros Hm. unfold _erase_log_file. rewrite CB_look, Hm.
  destruct (log_output_stream (logger s)) as [[path|]|]; [|done|done].
  cbn [stream_path]. rewrite (CB_bind_ok _ _ _ _ _ eq_refl). unfold update_logger. rewrite CB_update.
  set (s1 := set_logger _ s).
  assert (Hend : ∀ m : CB bool, (∀ s, logger s = logger s1 → match m s with Returns _ s' => logger s' = logger s1 | _ => False end) →
    (_ ← m; _open_log_file) s1 = Undefined BadFree).
  { intros m Hmm. specialize (Hmm s1 eq_refl). unfold mbind at 1, CB_bind at 1. destruct (m s1) as [b s2| |]; [|done|done].
    unfold _open_log_file. rewrite CB_look, Hmm. done. }
  apply Hend. intros s2 <-. unfold remove_path, rmdir, stat, unlink_node.
  unfold mbind, CB_bind, look, update, mret, CB_ret. repeat case_match; simplify_eq; done.
Qed.

(** Nothing differs but what was printed and the clock. *)
Record noted (s s' : builder) : Prop := {
  noted_rules : gRules s' = gRules s;
  noted_dry : gDryRun s' = gDryRun s;
  noted_logger : logger s' = logger s;
  noted_root : root s' = root s;
  noted_executed : executed s' = executed s
}.

#[export] Instance noted_preorder : PreOrder noted.
Proof. split; [done|]. intros s1 s2 s3 [] []. split; congruence. Qed.

Lemma log_noted level file line message s :
  console (logger s) → 0 ≤ level ≤ LOG_LEVEL_FATAL →
  ∃ s', _log_message level file line message s = Returns tt s' ∧ noted s s'.
Proof. intros Hc Hl. rewrite log_message_ok by done. eexists. split; [done|]. by destruct (_ && _). Qed.

(** A message before the rest of a computation. *)
Lemma log_then {B} level line message (f : unit → CB B) s :
  console (logger s) → 0 ≤ level ≤ LOG_LEVEL_FATAL →
  ∃ s', (_log_message level CBUILDER_FILE line message ≫= f) s = f tt s' ∧ noted s s'.
Proof.
  intros Hc Hl. destruct (log_noted level CBUILDER_FILE line message s Hc Hl) as (s' & E & Hn).
  exists s'. split; [by rewrite (CB_bind_ok _ _ _ _ _ E)|done].
Qed.
End log_lemmas.
