(* ===== verification/CbFiles.v ===== *)
(** * CBuilder.c, files and directories

    The operations on files of the build tool, the pattern of file names and the listing
    of the files that match it. *)

From S2P Require Import Prelude CbString CbWorld CbLog Files.

(** ** MatchPattern *)

(** The loop over both strings is a recursion on the pattern; [scan] is the loop over the
    text a star may stand for. *)
Fixpoint MatchPattern (pattern text : list ascii) : bool :=
  match pattern, text with
  | [], _ => match text with [] => true | _ => false end
  | _ :: _, [] => skip_stars pattern
  | p :: pattern, t :: text' =>
      if decide (p = "*"%char) then
        match pattern with
        | [] => true
        | _ =>
            (fix scan (text : list ascii) : bool :=
               match text with
               | [] => false
               | _ :: text' => MatchPattern pattern text || scan text'
               end) text
        end
      else if decide (p = t) then MatchPattern pattern text' else false
  end.

(** ** Files *)

Section files.
Context `{Machine}.

Definition CB_FileExists (path : string) : CB bool :=
  n ← stat path; mret (bool_decide (is_Some n)).

Definition CB_DirectoryExists (path : string) : CB bool :=
  n ← stat path; mret (match n with Some (DirNode _) => true | _ => false end).

(** When it cannot be read, the error is printed and the time is 0. *)
Definition GetFileLastEditTime (filePath : string) : CB Z :=
  n ← stat filePath;
  match n with
  | None => _ ← perror "Failed to get file stats"; mret 0
  | Some (FileNode mtime _) => mret mtime
  | Some (DirNode _) => mret (dir_mtime filePath)
  end.

Definition CB_CreateFile (path : string) (content : option string) : CB bool :=
  opened ← fopen_w path;
  if negb opened then mret false else
  _ ← match content with
      | Some (String _ _ as content) => append_file path content
      | _ => mret tt
      end;
  mret true.

(** What [fprintf] does to the file depends on the mode it was opened with. *)
Definition fopen_mode (path mode : string) : CB (option (string → string → string)) :=
  match mode with
  | String "w" _ => b ← fopen_w path; mret (if b : bool then Some String.append else None)
  | String "a" _ => b ← fopen_a path; mret (if b : bool then Some String.append else None)
  | String "r" rest =>
      n ← stat path;
      mret (match n, existsb (Ascii.eqb "+") (String.list_ascii_of_string rest) with
            | Some (FileNode _ _), true =>
                Some (λ old new, new +:+ String.substring (String.length new) (String.length old) old)
            | Some _, false => Some (λ old _, old)
            | _, _ => None
            end)
  | _ => mret None
  end.

Definition CB_CreateFileWithMode (path : string) (content mode : option string) : CB bool :=
  file ← fopen_mode path (default "w"%string mode);
  match file with
  | None => mret false
  | Some written =>
      _ ← match content with
          | Some (String _ _ as content) => write_file path (λ old, written old content)
          | _ => mret tt
          end;
      mret true
  end.

(** [fread] of a chunk at an offset of the file the source path leads to by then. *)
Definition read_chunk (path : string) (off : nat) : CB string :=
  n ← stat path;
  mret (match n with Some (FileNode _ c) => String.substring off 4096 c | _ => "" end)%string.

Fixpoint copy_chunks (fuel : nat) (src dest : string) (off : nat) : CB unit :=
  match fuel with
  | O => undefined Diverges
  | S fuel =>
      buffer ← read_chunk src off;
      match buffer with
      | EmptyString => mret tt
      | _ => _ ← append_file dest buffer; copy_chunks fuel src dest (off + String.length buffer)
      end
  end.

(** The size of the source bounds the chunks. *)
Definition CB_CopyFile (src dest : string) : CB bool :=
  n ← stat src;
  match n with
  | None => mret false
  | Some n =>
      opened ← fopen_w dest;
      if negb opened then mret false else
      _ ← copy_chunks (match n with FileNode _ c => S (String.length c) | _ => 1 end) src dest 0;
      mret true
  end.

Definition CB_RemoveFile (path : string) : CB bool := remove_path path.

Definition CB_CreateDirectory (path : string) : CB bool := mkdir_or_exists path.

Definition is_dots (name : string) : bool := String.eqb name "." || String.eqb name "..".

Definition CB_IsDirectoryEmpty (path : string) : CB bool :=
  dir ← opendir_cb path;
  mret (match dir with
        | None => false
        | Some entries => forallb is_dots entries
        end).

Definition PATH_SEPARATOR : ascii := "/".

(** The entries of a directory that is being removed; [rec] removes a directory. *)
Fixpoint remove_entries (rec : string → CB bool) (path : string) (entries : list string) : CB bool :=
  match entries with
  | [] => mret true
  | d_name :: entries =>
      if is_dots d_name then remove_entries rec path entries else
      let fullPath := snprintf 4096 (path +:+ String PATH_SEPARATOR d_name) in
      st ← stat fullPath;
      match st with
      | None => remove_entries rec path entries
      | Some (DirNode _) =>
          removed ← rec fullPath;
          if removed : bool then remove_entries rec path entries else mret false
      | Some (FileNode _ _) =>
          removed ← remove_path fullPath;
          if removed : bool then remove_entries rec path entries else mret false
      end
  end.

Fixpoint CB_RemoveDirectory (fuel : nat) (path : string) : CB bool :=
  match fuel with
  | O => undefined Diverges
  | S fuel =>
      dir ← opendir_cb path;
      match dir with
      | None => mret false
      | Some entries =>
          removed ← remove_entries (CB_RemoveDirectory fuel) path entries;
          if removed : bool then rmdir path else mret false
      end
  end.

(** ** RecursiveCollectFiles *)

(** [strrchr(s, '/')]: what is before the last slash and what is after it. *)
Fixpoint strrchr_slash (s : string) : option (string * string) :=
  match s with
  | EmptyString => None
  | String c s =>
      match strrchr_slash s with
      | Some (before, after) => Some (String c before, after)
      | None => if Ascii.eqb c "/" then Some (EmptyString, s) else None
      end
  end.

(** The entries of the directory; [rec] collects in a directory below. *)
Fixpoint collect_entries (rec : string → list (option CString) → CB (list (option CString))) (isRecursive : bool)
    (baseDir matchPattern : string) (max : Z) (entries : list string) (results : list (option CString)) :
    CB (list (option CString)) :=
  match entries with
  | [] => mret results
  | d_name :: entries =>
      let continue := collect_entries rec isRecursive baseDir matchPattern max entries in
      if is_dots d_name then continue results else
      let fullPath := snprintf 1024 (baseDir +:+ "/" +:+ d_name) in
      st ← stat fullPath;
      match st with
      | None => continue results
      | Some (DirNode _) =>
          if isRecursive then
            let subPattern := snprintf 1024 (baseDir +:+ "/" +:+ d_name) in
            let nextPattern := snprintf 1024 (subPattern +:+ "/" +:+ matchPattern) in
            results ← rec nextPattern results; continue results
          else continue results
      | Some (FileNode _ _) =>
          if MatchPattern (String.list_ascii_of_string matchPattern) (String.list_ascii_of_string d_name)
             && (Z.of_nat (length results) <? max)
          then
            r ← pure (CreateStringImpl [fullPath]);
            continue (results ++ [r])
          else continue results
      end
  end.

(** An element is NULL when there was no memory for the string. *)
Fixpoint RecursiveCollectFiles (fuel : nat) (pattern : string) (results : list (option CString)) (max : Z) :
    CB (list (option CString)) :=
  match fuel with
  | O => undefined Diverges
  | S fuel =>
      let '(baseDir, matchPattern) :=
        match strrchr_slash pattern with
        | Some (before, after) => (String.substring 0 1023 before, after)
        | None => ("."%string, pattern)
        end in
      let isRecursive := negb (no_slash matchPattern) in
      dir ← opendir_cb baseDir;
      match dir with
      | None => mret results
      | Some entries =>
          collect_entries (λ p r, RecursiveCollectFiles fuel p r max) isRecursive baseDir matchPattern max entries results
      end
  end.

End files.

(** ** Patterns *)

(** A star stands for any text; every other character for itself. *)
Inductive star_glob : list ascii → list ascii → Prop :=
  | star_nil : star_glob [] []
  | star_any p s t : star_glob p t → suffix t s → star_glob ("*"%char :: p) s
  | star_same c p s : c ≠ "*"%char → star_glob p s → star_glob (c :: p) (c :: s).

Lemma star_glob_star p s : star_glob ("*"%char :: p) s ↔ ∃ t, suffix t s ∧ star_glob p t.
Proof.
  split; [|intros (t & Hs & Hg); by eapply star_any].
  inversion 1; subst; [eauto|done].
Qed.

Lemma skip_stars_star_glob p : skip_stars p = true ↔ star_glob p [].
Proof.
  induction p as [|c p IH]; cbn; [split; [constructor|done]|].
  destruct (decide (c = "*"%char)) as [->|Hc].
  - rewrite IH, star_glob_star. split; [intros ?; by exists []|].
    intros (t & Hs & Hg). apply suffix_nil_inv in Hs. by subst.
  - split; [done|]. inversion 1; subst; done.
Qed.

(** A pattern that matches the empty text matches every text that it can start with. *)
Lemma star_glob_nil_star p s : p ≠ [] → star_glob p [] → star_glob p s.
Proof.
  destruct p as [|c p]; [done|]. intros _ Hg. inversion Hg as [|q u t Hq Ht| ]; subst.
  apply suffix_nil_inv in Ht. subst. eapply star_any; [exact Hq|]. apply suffix_nil.
Qed.

Lemma suffix_cons_iff {A} (t s : list A) x : suffix t (x :: s) ↔ t = x :: s ∨ suffix t s.
Proof.
  split; [|intros [->|]; [done|by apply suffix_cons_r]].
  intros [[|y k] Hk]; cbn in Hk; [by left|right]. injection Hk as -> ->. by exists k.
Qed.

Lemma MatchPattern_star_glob p s : MatchPattern p s = true ↔ star_glob p s.
Proof.
  revert s. induction p as [|c p IH]; intros s.
  { destruct s; cbn; split; try done; [constructor|inversion 1]. }
  destruct s as [|x s]; [apply (skip_stars_star_glob (c :: p))|].
  cbn [MatchPattern]. destruct (decide (c = "*"%char)) as [->|Hc].
  - rewrite star_glob_star. destruct p as [|d p].
    { split; [|done]. intros _. exists []. split; [apply suffix_nil|constructor]. }
    set (q := d :: p) in *. assert (Hq : q ≠ []) by done. clearbody q.
    assert (Hscan : ∀ t, (fix scan (text : list ascii) : bool :=
        match text with [] => false | _ :: text' => MatchPattern q text || scan text' end) t = true ↔
      ∃ u, suffix u t ∧ u ≠ [] ∧ star_glob q u).
    { induction t as [|y t IHt].
      - split; [done|]. intros (u & Hu & Hne & _). apply suffix_nil_inv in Hu. done.
      - rewrite orb_true_iff, IH, IHt. split.
        + intros [Hg|(u & Hu & Hne & Hg)]; [by exists (y :: t)|]. exists u. split; [by apply suffix_cons_r|done].
        + intros (u & Hu & Hne & Hg). apply suffix_cons_iff in Hu as [->|Hu]; [by left|right; eauto]. }
    rewrite orb_true_iff, IH, Hscan. split.
    + intros [Hg|(u & Hu & _ & Hg)]; [by exists (x :: s)|]. exists u. split; [by apply suffix_cons_r|done].
    + intros (u & Hu & Hg). apply suffix_cons_iff in Hu as [->|Hu]; [by left|].
      destruct u as [|y u]; [left; by apply star_glob_nil_star|right; by exists (y :: u)].
  - destruct (decide (c = x)) as [->|Hx].
    + rewrite IH. split; [by constructor|]. inversion 1; subst; done.
    + split; [done|]. inversion 1; subst; done.
Qed.

(** The patterns of [files.c] know the question mark as well. *)
Lemma star_glob_glob p s : "?"%char ∉ p → star_glob p s ↔ glob p s.
Proof.
  intros Hp. split.
  - induction 1; [constructor| |]; [eapply glob_star|constructor]; set_solver.
  - induction 1 as [|p c s Hg IH|p s t Hg IH Ht|p c s Hg IH].
    + constructor.
    + set_solver.
    + eapply star_any; [apply IH; set_solver|done].
    + destruct (decide (c = "*"%char)) as [->|Hc]; [|constructor; [done|apply IH; set_solver]].
      eapply star_any; [apply IH; set_solver|]. by apply suffix_cons_r.
Qed.

(** [MatchPattern] decides whether the text is one the pattern stands for, a star being
    any text and every other character itself, for all patterns and texts; where both are
    defined alike it agrees with [WildcardMatch] of files.c, for patterns without question
    marks and names without stars. *)
Theorem MatchPattern_decides p s :
  (MatchPattern p s = true ↔ star_glob p s) ∧
  ("?"%char ∉ p → starless s → WildcardMatch s p = Ok (MatchPattern p s)).
Proof.
  split; [apply MatchPattern_star_glob|]. intros Hp Hs.
  destruct (WildcardMatch_ok s p) as (b & -> & Hb).
  f_equal. apply eq_bool_prop_intro. rewrite !Is_true_true, (Hb Hs), MatchPattern_star_glob.
  by rewrite star_glob_glob.
Qed.

Lemma MatchPattern_decides_witness :
  star_glob (String.list_ascii_of_string "*.c") (String.list_ascii_of_string "API.c") ∧
  WildcardMatch (String.list_ascii_of_string "API.c") (String.list_ascii_of_string "*.c") = Ok true.
Proof.
  destruct (MatchPattern_decides (String.list_ascii_of_string "*.c") (String.list_ascii_of_string "API.c")) as [H1 H2].
  split; [by apply H1|]. apply H2; apply (bool_decide_unpack _); vm_compute; exact I.
Defined.
