(* ===== verification/CbRules.v ===== *)
(** * CBuilder.c, commands and rules

    Running commands (or printing them, in a dry run), the table of rules, the command
    line, and the tool rebuilding itself. *)

From S2P Require Import Prelude CbString CbWorld CbLog CbFiles Files.

Definition MAX_RULES : nat := 100.
Definition MAX_COMMAND : nat := 300.

(** The configuration of a Mac with clang, the only one the user part compiles for. *)
Definition DEFAULT_COMPILER : string := "clang".
Definition BUILDER_SOURCE : string := "CBuilder.c".
Definition BUILDER_NAME : string := "./CBuilder".
Definition BUILDER_CC : string := DEFAULT_COMPILER.
Definition BUILDER_CFLAGS : string := "".

Section rules.
Context `{Machine}.

(** ** Commands *)

Definition CreateCommand (args : list string) : CB (option CString) := pure (CreateStringImpl args).
Definition append_to (cmd : option CString) (args : list (option string)) : CB (option CString) :=
  pure (AppendToCommand cmd args).

(** [fork] and [execl("/bin/sh", ...)]; the status is waited for by a thread that is started
    with one of its three arguments when [runInThread]. *)
Definition run_shell (command : string) (runInThread : bool) : CB bool :=
  s ← look;
  _ ← update add_tick;
  if negb (fork_ok (ticks s)) then _ ← perror "Fork failed"; mret false else
  _ ← update (add_executed command);
  let '(t, status) := sh command (root s) in
  _ ← update (set_root t);
  if runInThread then undefined Uninitialised else
  mret (match status with Some code => code =? 0 | None => false end).

Definition ExecuteCommandGeneric (command : option CString) (runInThread : bool) : CB bool :=
  match command with
  | None => _ ← LOG_ERROR 578 "Invalid command: NULL pointer"; mret false
  | Some command =>
      s ← look;
      if negb (gDryRun s) then
        _ ← LOG_INFO 583 (COLOR_YELLOW +:+ "--cmd--" +:+ COLOR_RESET +:+ " " +:+ c_str command);
        run_shell (c_str command) runInThread
      else
        _ ← LOG_INFO 650 (COLOR_YELLOW +:+ "--cmd--" +:+ COLOR_BLUE +:+ "[DRY-RUN]" +:+ COLOR_RESET +:+ " " +:+ c_str command);
        mret true
  end.

Definition ExecuteCommand (command : option CString) : CB bool := ExecuteCommandGeneric command false.
Definition ExecuteCommandWithThreading (command : option CString) : CB bool := ExecuteCommandGeneric command true.

(** A thread calls [ExecuteCommandGeneric] through a pointer of another type. *)
Fixpoint ExecuteCommands (runInThread : bool) (cmds : list (option CString)) : CB unit :=
  match cmds with
  | Some cmd :: cmds =>
      if runInThread then undefined Uninitialised else
      _ ← ExecuteCommand (Some cmd); ExecuteCommands runInThread cmds
  | _ => mret tt
  end.

(** [fgets] of a buffer of [n + 1] bytes: up to the newline. *)
Fixpoint fgets (n : nat) (s : string) : string :=
  match n, s with
  | S n, String c s => if Ascii.eqb c "010" then String c "" else String c (fgets n s)
  | _, _ => ""
  end.

Definition is_newline (c : ascii) : bool := Ascii.eqb c "010" || Ascii.eqb c "013".

(** Drop the last characters of a line while they are newlines. *)
Fixpoint strip_newlines (s : string) : string :=
  match s with
  | EmptyString => ""
  | String c s =>
      match strip_newlines s with
      | EmptyString => if is_newline c then "" else String c ""
      | s => String c s
      end
  end.

(** Drop one newline at the end. *)
Fixpoint strip_newline (s : string) : string :=
  match s with
  | EmptyString => ""
  | String c EmptyString => if Ascii.eqb c "010" then "" else String c ""
  | String c s => String c (strip_newline s)
  end.

Definition strdup (s : string) : option string := if alloc (strlen s + 1) then Some s else None.

(** The first line a command prints; [None] when it prints nothing or cannot be run. *)
Definition popen_line (cmd : string) : CB (option string) :=
  s ← look;
  match capture cmd (root s) with
  | None => mret None
  | Some text => let buffer := fgets 511 text in mret (if String.eqb buffer "" then None else Some buffer)
  end.

Definition GetCommandOutput (cmd : string) : CB (option string) :=
  line ← popen_line cmd;
  mret (match line with Some buffer => strdup (strip_newline buffer) | None => None end).

Definition GetCompiler (compilerName : option string) : CB (option string) :=
  match compilerName with
  | None | Some EmptyString => mret None
  | Some compilerName =>
      line ← popen_line (snprintf 256 ("which " +:+ compilerName +:+ " 2>/dev/null"));
      mret (match line with Some buffer => strdup (strip_newlines buffer) | None => None end)
  end.

(** ** The table of rules *)

Definition CreateRule (ruleName : string) (f : RuleFunction) : CB unit :=
  s ← look;
  if (MAX_RULES <=? length (gRules s))%nat then mret tt else
  update (set_rules (gRules s ++ [{| name := strdup ruleName; function := f |}])).

(** The first rule with that name; a name that is NULL cannot be compared with. *)
Fixpoint find_rule (rules : list Rule) (target : string) : outcome (option Rule) :=
  match rules with
  | [] => Ok None
  | r :: rules =>
      match name r with
      | None => Fault NullPointer
      | Some n => if String.eqb n target then Ok (Some r) else find_rule rules target
      end
  end.

Definition IsRuleName (target : string) : CB bool :=
  s ← look; r ← pure (find_rule (gRules s) target); mret (bool_decide (is_Some r)).

(** [strcmp(argv[i], target)] for each argument until one is equal. *)
Fixpoint HasArg (argc : nat) (argv : list (option string)) (target : string) : outcome bool :=
  match argc, argv with
  | O, _ => Ok false
  | S _, [] => Fault OutOfBounds
  | S argc, None :: _ => Fault NullPointer
  | S argc, Some a :: argv => if String.eqb a target then Ok true else HasArg argc argv target
  end.

Fixpoint list_rules (rules : list Rule) : CB unit :=
  match rules with
  | [] => mret tt
  | r :: rules =>
      n ← deref_cb (name r);
      _ ← LOG_INFO 555 ("- " +:+ COLOR_CYAN +:+ n +:+ COLOR_RESET);
      list_rules rules
  end.

Definition HelpRule : CB unit :=
  _ ← LOG_INFO 552 (COLOR_YELLOW +:+ "This CBuilder has been compiled with " +:+ COLOR_CYAN +:+ DEFAULT_COMPILER
         +:+ COLOR_YELLOW +:+ " and will fallback on it if needed" +:+ COLOR_RESET);
  _ ← LOG_INFO 553 (COLOR_BLUE +:+ "Available rules:" +:+ COLOR_RESET);
  s ← look;
  list_rules (gRules s).

(** ** The tool rebuilds itself *)

Definition RebuildSelf : CB unit :=
  selfBuildCmd ← CreateCommand [];
  selfBuildCmd ← append_to selfBuildCmd
    [Some BUILDER_CC; Some BUILDER_CFLAGS; Some BUILDER_SOURCE; Some "-o"%string; Some BUILDER_NAME];
  _ ← LOG_INFO 790 (COLOR_YELLOW +:+ "Rebuilding CBuilder..." +:+ COLOR_RESET);
  built ← ExecuteCommand selfBuildCmd;
  if negb built then
    _ ← LOG_FATAL 793 "Failed to rebuild CBuilder"; exit_with 1
  else LOG_INFO 796 (COLOR_GREEN +:+ "CBuilder rebuilt successfully." +:+ COLOR_RESET).

Definition RunSelf (args : option CString) : CB unit :=
  cmd ← CreateCommand [];
  cmd ← append_to cmd [Some BUILDER_NAME];
  args ← deref_cb args;
  cmd ← append_to cmd [Some (c_str args)];
  ran ← ExecuteCommand cmd;
  if negb ran then
    cmd ← deref_cb cmd; LOG_FATAL 811 ("Failed to execute command " +:+ c_str cmd)
  else mret tt.

(** The arguments after the first, one by one. *)
Fixpoint append_argv (args : option CString) (n : nat) (argv : list (option string)) : CB (option CString) :=
  match n, argv with
  | O, _ => mret args
  | S n, a :: argv => args ← append_to args [a]; append_argv args n argv
  | S _, [] => undefined OutOfBounds
  end.

Definition ManageRebuild (argc : nat) (argv : list (option string)) : CB unit :=
  sourceEditTime ← GetFileLastEditTime BUILDER_SOURCE;
  execEditTime ← GetFileLastEditTime BUILDER_NAME;
  if execEditTime <? sourceEditTime then
    _ ← LOG_INFO 821 (COLOR_YELLOW +:+ "Source file is newer than executable. Rebuilding..." +:+ COLOR_RESET);
    args ← CreateCommand [];
    args ← append_argv args (argc - 1) (drop 1 argv);
    _ ← RebuildSelf;
    _ ← RunSelf args;
    exit_with 0
  else mret tt.

(** ** The command line *)

(** The arguments are moved down over the flags that are removed. *)
Fixpoint flags_loop (n readIndex writeIndex : nat) (argv : list (option string)) :
    CB (nat * list (option string)) :=
  match n with
  | O => mret (writeIndex, argv)
  | S n =>
      match argv !! readIndex with
      | None => undefined OutOfBounds
      | Some None => undefined NullPointer
      | Some (Some arg) =>
          if String.eqb arg "--dry-run" then
            _ ← LOG_INFO 539 (COLOR_BLUE +:+ "[DRY-RUN] " +:+ COLOR_GREEN +:+ "enabled" +:+ COLOR_RESET);
            _ ← update (set_dry true);
            flags_loop n (S readIndex) writeIndex argv
          else flags_loop n (S readIndex) (S writeIndex) (<[writeIndex := Some arg]> argv)
      end
  end.

Definition ParseGlobalFlags (argc : nat) (argv : list (option string)) : CB (nat * list (option string)) :=
  flags_loop argc 0 0 argv.

(** What the pointer of a rule calls. *)
Variable call : RuleFunction → nat → list (option string) → CB unit.

Definition ExecuteRule (rule : option string) (argc : nat) (argv : list (option string)) : CB bool :=
  s ← look;
  match gRules s, rule with
  | _ :: _, None => undefined NullPointer
  | [], None => undefined NullPointer
  | rules, Some rule =>
      r ← pure (find_rule rules rule);
      match r with
      | Some r =>
          _ ← LOG_INFO 564 (COLOR_YELLOW +:+ "Executing rule " +:+ COLOR_CYAN +:+ rule +:+ COLOR_RESET);
          _ ← call (function r) argc argv;
          mret true
      | None =>
          _ ← LOG_WARN 569 (COLOR_RED +:+ "Rule not found: " +:+ COLOR_CYAN +:+ rule +:+ COLOR_RESET);
          _ ← HelpRule;
          mret false
      end
  end.

(** The number of arguments before the next name of a rule, among the [n] left. *)
Fixpoint next_rule (n : nat) (rest : list (option string)) : CB nat :=
  match n, rest with
  | O, _ => mret O
  | S _, [] => undefined OutOfBounds
  | S _, None :: _ => undefined NullPointer
  | S n, Some a :: rest =>
      is_rule ← IsRuleName a;
      if is_rule : bool then mret O else k ← next_rule n rest; mret (S k)
  end.

(** [n] is [argc - i], [rest] the arguments from [i] on. *)
Fixpoint manage_loop (fuel n : nat) (rest : list (option string)) : CB unit :=
  match n, rest with
  | O, _ => mret tt
  | S _, [] => undefined OutOfBounds
  | S n, ruleName :: rest =>
      match fuel with
      | O => undefined Diverges
      | S fuel =>
          argCount ← next_rule n rest;
          _ ← ExecuteRule ruleName argCount rest;
          manage_loop fuel (n - argCount) (drop argCount rest)
      end
  end.

Definition ManageRules (argc : nat) (argv : list (option string)) : CB unit :=
  _ ← ManageRebuild argc argv;
  _ ← (if decide (argc = 1%nat) then
         _ ← LOG_INFO 838 (COLOR_BLUE +:+ "No rule provided -- using the first rule declared" +:+ COLOR_RESET);
         s ← look;
         match gRules s with
         | [] => undefined NullPointer
         | r :: _ =>
             n ← deref_cb (name r);
             _ ← LOG_INFO 839 (COLOR_YELLOW +:+ "Executing rule " +:+ COLOR_CYAN +:+ n +:+ COLOR_RESET);
             call (function r) argc argv
         end
       else mret tt);
  manage_loop argc (argc - 1) (drop 1 argv).

End rules.

(** ** The flags *)

Section flags.
Context `{Machine}.

Definition is_flag (a : string) : bool := String.eqb a "--dry-run".

(** The arguments that are kept. *)
Definition kept (args : list string) : list string := List.filter (λ a, negb (is_flag a)) args.

(** [done] were kept already, [gap] are the places between the two indices. *)
Lemma flags_loop_ok args fin gap rest s :
  console (logger s) →
  ∃ s' junk, flags_loop (length args) (length fin + length gap) (length fin)
      (map Some fin ++ gap ++ map Some args ++ rest) s =
    Returns (length (fin ++ kept args), map Some (fin ++ kept args) ++ junk ++ rest) s' ∧
    length junk = (length gap + length args - length (kept args))%nat ∧
    gDryRun s' = gDryRun s || existsb is_flag args ∧ executed s' = executed s ∧
    root s' = root s ∧ gRules s' = gRules s ∧ logger s' = logger s.
Proof.
  revert fin gap s. induction args as [|a args IH]; intros fin gap s Hc.
  { exists s, gap. cbn. rewrite app_nil_r, Nat.add_0_r, Nat.sub_0_r, orb_false_r. done. }
  cbn [length flags_loop map kept List.filter existsb].
  rewrite app_assoc, lookup_app_r by (rewrite length_app, length_map; lia).
  rewrite length_app, length_map, Nat.sub_diag. cbn [app lookup list_lookup].
  fold (is_flag a). destruct (is_flag a) eqn:Ea; cbn [negb orb].
  - destruct (log_then LOG_LEVEL_INFO 539 (COLOR_BLUE +:+ "[DRY-RUN] " +:+ COLOR_GREEN +:+ "enabled" +:+ COLOR_RESET)
      (λ _, _ ← update (set_dry true); flags_loop (length args) (S (length fin + length gap)) (length fin)
         ((map Some fin ++ gap) ++ Some a :: map Some args ++ rest)) s Hc ltac:(done)) as (s1 & E & Hn).
    unfold LOG_INFO. rewrite E, CB_update. destruct Hn as [Hr Hd Hl Ht He].
    destruct (IH fin (gap ++ [Some a]) (set_dry true s1)) as (s' & junk & E' & Hj & Hd' & He' & Ht' & Hr' & Hl');
      [by cbn; rewrite Hl|].
    rewrite length_app in E', Hj. cbn [length] in E', Hj. rewrite Nat.add_1_r, Nat.add_succ_r in E'.
    rewrite <- !app_assoc in E'. cbn [app] in E'. rewrite <- app_assoc.
    exists s', junk. rewrite E'. cbn in Hd', He', Ht', Hr', Hl'. rewrite orb_true_r.
    split_and!; [done|rewrite Hj; unfold kept; lia|done|congruence..].
  - destruct (IH (fin ++ [a]) (match gap with [] => [] | _ :: gap => gap ++ [Some a] end) s Hc)
      as (s' & junk & E' & Hj & Hrest).
    exists s', junk.
    assert (Hin : <[length fin:=Some a]> ((map Some fin ++ gap) ++ Some a :: map Some args ++ rest) =
      map Some (fin ++ [a]) ++ match gap with [] => [] | _ :: gap => gap ++ [Some a] end ++ map Some args ++ rest).
    { rewrite map_app, <- !app_assoc. rewrite insert_app_r_alt by (rewrite length_map; lia).
      rewrite length_map, Nat.sub_diag. cbn [map app]. destruct gap as [|g gap]; [done|].
      cbn. by rewrite <- app_assoc. }
    replace (fin ++ a :: List.filter _ args) with ((fin ++ [a]) ++ kept args) by (by rewrite <- app_assoc).
    replace (S (length fin + length gap)) with
      (length (fin ++ [a]) + length (match gap with [] => [] | _ :: gap => gap ++ [Some a] end))%nat
      by (rewrite length_app; destruct gap; cbn [length]; rewrite ?length_app; cbn [length]; lia).
    replace (S (length fin)) with (length (fin ++ [a])) by (rewrite length_app; cbn; lia).
    rewrite Hin, E'. split; [done|]. split; [|done]. rewrite Hj. unfold kept.
    destruct gap; cbn [length]; rewrite ?length_app; cbn [length]; lia.
Qed.
End flags.

(** [ParseGlobalFlags] removes every [--dry-run] from the arguments, keeps the others in
    their order at the front of the array with their number, leaves what follows the
    arguments in place, and sets the dry-run flag exactly when one was removed (or it was
    set before). *)
Theorem ParseGlobalFlags_filters `{Machine} args rest s :
  console (logger s) →
  ∃ s' junk, ParseGlobalFlags (length args) (map Some args ++ rest) s =
      Returns (length (kept args), map Some (kept args) ++ junk ++ rest) s' ∧
    gDryRun s' = gDryRun s || existsb is_flag args ∧ executed s' = executed s ∧ root s' = root s.
Proof.
  intros Hc. destruct (flags_loop_ok args [] [] rest s Hc) as (s' & junk & E & _ & Hd & He & Ht & _).
  exists s', junk. split; [exact E|done].
Qed.

(** A console with the settings the tool starts with. *)
Lemma default_console : console default_logger.
Proof. by split. Qed.

Definition no_tree : builder := Builder [] false default_logger (DirNode []) [] [] 0.

Definition plain_machine : Machine := {|
  machine_alloc := {| alloc := λ _, true |}; sh := λ _ t, (t, Some 0); fork_ok := λ _, true;
  capture := λ _ _, None; wall := λ n, Z.of_nat n; dir_mtime := λ _, 0; errno_text := ""; date := λ _, ""%string |}.

Lemma ParseGlobalFlags_filters_witness :
  ∃ s' junk, @ParseGlobalFlags plain_machine 4
      [Some "./CBuilder"; Some "--dry-run"; Some "build"; Some "--dry-run"; None]%string no_tree =
    Returns (2%nat, [Some "./CBuilder"; Some "build"]%string ++ junk ++ [None]) s' ∧ gDryRun s' = true.
Proof.
  destruct (@ParseGlobalFlags_filters plain_machine ["./CBuilder"; "--dry-run"; "build"; "--dry-run"]%string
    [None] no_tree default_console) as (s' & junk & E & Hd & _).
  exists s', junk. split; [exact E|exact Hd].
Defined.

(** ** Running the rules of the command line *)

Section manage.
Context `{Machine} (call : RuleFunction → nat → list (option string) → CB unit).

(** The table: every rule has its name. *)
Definition named (rules : list Rule) : Prop := Forall (λ r, is_Some (name r)) rules.
Definition is_rule (rules : list Rule) (a : string) : bool := existsb (λ r, bool_decide (name r = Some a)) rules.

(** The arguments before the first name of a rule, then each name with its arguments. *)
Fixpoint split_args (rules : list Rule) (l : list string) : list string * list (string * list string) :=
  match l with
  | [] => ([], [])
  | a :: l =>
      let '(pending, segs) := split_args rules l in
      if is_rule rules a then ([], (a, pending) :: segs) else (a :: pending, segs)
  end.

(** The first argument starts a segment even when it is no rule. *)
Definition segments (rules : list Rule) (l : list string) : list (string * list string) :=
  match l with
  | [] => []
  | a :: l => let '(pending, segs) := split_args rules l in (a, pending) :: segs
  end.

Definition flatten (segs : list (string * list string)) : list string :=
  flat_map (λ '(a, args), a :: args) segs.

(** Each rule with its number of arguments; the array goes on with the later ones. *)
Fixpoint run_segments (segs : list (string * list string)) (tail : list (option string)) : CB unit :=
  match segs with
  | [] => mret tt
  | (a, args) :: segs =>
      _ ← ExecuteRule call (Some a) (length args) (map Some (args ++ flatten segs) ++ tail);
      run_segments segs tail
  end.

Lemma find_rule_named rules a :
  named rules → ∃ r, find_rule rules a = Ok r ∧ bool_decide (is_Some r) = is_rule rules a.
Proof.
  induction 1 as [|r rules [n Hn] _ IH]; cbn [find_rule is_rule existsb]; [by exists None|].
  rewrite Hn. destruct (String.eqb n a) eqn:E.
  - apply String.eqb_eq in E as ->. exists (Some r). rewrite (bool_decide_eq_true_2 (Some a = Some a)) by done. done.
  - destruct IH as (r' & -> & Hr). exists r'. apply String.eqb_neq in E.
    split; [done|]. rewrite (bool_decide_eq_false_2 (Some n = Some a)) by congruence. exact Hr.
Qed.

Lemma IsRuleName_ok a s : named (gRules s) → IsRuleName a s = Returns (is_rule (gRules s) a) s.
Proof.
  intros Hn. unfold IsRuleName. rewrite CB_look. destruct (find_rule_named _ a Hn) as (r & E & <-).
  by rewrite (CB_pure _ _ _ _ E).
Qed.

Lemma flatten_segments rules l :
  flatten (segments rules l) = l ∧ (fst (split_args rules l) ++ flatten (snd (split_args rules l)) = l).
Proof.
  assert (Hs : ∀ l, fst (split_args rules l) ++ flatten (snd (split_args rules l)) = l).
  { clear l. induction l as [|a l IH]; [done|]. cbn [split_args].
    destruct (split_args rules l) as [p segs]. cbn [fst snd] in IH.
    destruct (is_rule rules a); cbn; f_equal; exact IH. }
  split; [|apply Hs]. destruct l as [|a l]; [done|]. cbn [segments]. specialize (Hs l).
  destruct (split_args rules l) as [p segs]. cbn in Hs |- *. f_equal. exact Hs.
Qed.

(** The inner loop counts the arguments that are pending. *)
Lemma next_rule_ok l tail s :
  named (gRules s) →
  next_rule (length l) (map Some l ++ tail) s = Returns (length (fst (split_args (gRules s) l))) s.
Proof.
  intros Hn. induction l as [|a l IH]; [done|]. cbn [length next_rule map app split_args].
  rewrite (CB_bind_ok _ _ _ _ _ (IsRuleName_ok a s Hn)).
  destruct (split_args (gRules s) l) as [p segs]. cbn [fst] in IH.
  destruct (is_rule (gRules s) a); [done|]. by rewrite (CB_bind_ok _ _ _ _ _ IH).
Qed.

(** The segments after the first are those of what is left. *)
Lemma split_args_segments rules l : snd (split_args rules l) = segments rules (drop (length (fst (split_args rules l))) l).
Proof.
  induction l as [|a l IH]; [done|]. cbn [split_args].
  destruct (split_args rules l) as [p segs] eqn:E. cbn [fst snd] in IH.
  destruct (is_rule rules a); cbn [fst snd length drop]; [|done]. unfold segments. by rewrite E.
Qed.

(** Rules leave the table as it is. *)
Definition same_rules (s s' : builder) : Prop := gRules s' = gRules s.
Hypothesis call_keeps : ∀ f n a, ends same_rules (call f n a).
Hypothesis log_keeps : ∀ level file line m, ends same_rules (_log_message level file line m).

#[local] Instance same_rules_preorder : PreOrder same_rules.
Proof. split; [done|]. intros ? ? ? H1 H2. unfold same_rules in *. congruence. Qed.

Hint Resolve call_keeps log_keeps : ends.

Lemma ExecuteRule_keeps rule argc argv : ends same_rules (ExecuteRule call rule argc argv).
Proof.
  unfold ExecuteRule, HelpRule, LOG_INFO, LOG_WARN. follow.
  all: match goal with |- ends _ (list_rules ?l) => induction l; cbn [list_rules]; unfold LOG_INFO; follow end.
Qed.

Lemma manage_loop_ok fuel l tail s :
  named (gRules s) → (length l ≤ fuel)%nat →
  manage_loop call fuel (length l) (map Some l ++ tail) s = run_segments (segments (gRules s) l) tail s.
Proof.
  revert l s. induction fuel as [|fuel IH]; intros [|a l] s Hn Hf; cbn [length] in Hf; [done|lia|done|].
  cbn [length manage_loop map app segments].
  rewrite (CB_bind_ok _ _ _ _ _ (next_rule_ok l tail s Hn)).
  pose proof (split_args_segments (gRules s) l) as Hseg. pose proof (proj2 (flatten_segments (gRules s) l)) as Hfl.
  destruct (split_args (gRules s) l) as [p segs]. cbn [fst snd] in Hseg, Hfl |- *.
  cbn [run_segments]. rewrite Hfl. unfold mbind, CB_bind.
  pose proof (ExecuteRule_keeps (Some a) (length p) (map Some l ++ tail) s) as Hk.
  destruct (ExecuteRule call (Some a) (length p) (map Some l ++ tail) s) as [b s1| |]; [|done|done].
  unfold same_rules in Hk.
  assert (Hp : (length p ≤ length l)%nat) by (rewrite <- Hfl, length_app; lia).
  replace (length l - length p)%nat with (length (drop (length p) l)) by (rewrite length_drop; lia).
  rewrite drop_app_le by (rewrite length_map; lia). change (map Some l) with (Some <$> l).
  rewrite <- fmap_drop. change (Some <$> drop (length p) l) with (map Some (drop (length p) l)).
  rewrite IH by (rewrite ?Hk, ?length_drop; done || lia). by rewrite Hk, Hseg.
Qed.
End manage.
