(* ===== verification/CbBuild.v ===== *)
(** * CBuilder.c, compiling, linking and the rules of the project

    [CompileFiles], [LinkFiles], the functions of the rules and [main]. *)

From S2P Require Import Prelude CbString CbWorld CbLog CbFiles CbRules Files.

Definition MAX_FILES : Z := 1000.

(** ** The configuration *)

Definition TAB : string := String "009" "".
Definition STATIC_EXECNAME : string := "./mlbtcc.a".
Definition DYNAMIC_EXECNAME : string := "./mlbtcc.dylib".
Definition CC : string := DEFAULT_COMPILER.
Definition LD : string := "gcc".
Definition CFLAGS : string := "-std=c11 -Wall -Wextra -Werror -pedantic-errors -I src/include/".
Definition LDFLAGS : string := "-Wl,-rpath,/usr/local/lib -lleveldb".
Definition OPTI_CFLAGS : string := " -O3 -march=native -mtune=native -flto".
Definition BUILD_LEVELDB_CMD : string :=
  "mkdir -p build && cd build && " +:+ TAB +:+ TAB +:+ TAB +:+ TAB +:+
  "cmake -DCMAKE_BUILD_TYPE=Release .. && cmake --build .".

Section build.
Context `{Machine}.

(** ** Compiling and linking *)

(** The number of levels [RecursiveCollectFiles] may go down. *)
Definition collect_fuel : nat := 1024.

Definition has_arg (argc : nat) (argv : list (option string)) (target : string) : CB bool :=
  pure (HasArg argc argv target).

(** [filename] is what follows the last slash. *)
Definition base_name (path : string) : string :=
  match strrchr_slash path with Some (_, after) => after | None => path end.

Fixpoint append_list (cmd : option CString) (args : list string) : CB (option CString) :=
  match args with
  | [] => mret cmd
  | a :: args => cmd ← append_to cmd [Some a]; append_list cmd args
  end.

Definition compile_one (dest compiler : string) (flags : list string) (source : CString) : CB unit :=
  let objname := snprintf 512 (dest +:+ "/" +:+ base_name (c_str source) +:+ ".o") in
  cmd ← CreateCommand [compiler];
  cmd ← append_list cmd flags;
  cmd ← append_to cmd [Some "-c"%string; Some (c_str source); Some "-o"%string; Some objname];
  compiled ← ExecuteCommand cmd;
  _ ← (if negb compiled then LOG_ERROR 1154 ("Failed to compile: " +:+ c_str source) else mret tt);
  _ ← deref_cb cmd;
  mret tt.

Fixpoint compile_all (dest compiler : string) (flags : list string) (files : list (option CString)) : CB unit :=
  match files with
  | [] => mret tt
  | None :: files => compile_all dest compiler flags files
  | Some source :: files =>
      _ ← compile_one dest compiler flags source; compile_all dest compiler flags files
  end.

(** The flags end at the first NULL. *)
Definition CompileFilesNULL (pattern dest compiler : string) (args : list (option string)) : CB unit :=
  files ← RecursiveCollectFiles collect_fuel pattern [] MAX_FILES;
  there ← CB_DirectoryExists dest;
  _ ← (if negb there then CB_CreateDirectory dest else mret true);
  compile_all dest compiler (until_null args) files.

Fixpoint link_files (cmd : option CString) (files : list (option CString)) : CB (option CString) :=
  match files with
  | [] => mret cmd
  | f :: files => f ← deref_cb f; cmd ← append_to cmd [Some (c_str f)]; link_files cmd files
  end.

Definition LinkFilesNULL (pattern outputBinary linker : option string) (args : list (option string)) : CB unit :=
  match pattern, outputBinary, linker with
  | Some pattern, Some outputBinary, Some linker =>
      files ← RecursiveCollectFiles collect_fuel pattern [] MAX_FILES;
      if decide (files = []) then LOG_WARN 1190 ("No object files matched pattern " +:+ pattern) else
      cmd ← CreateCommand [linker];
      match cmd with
      | None => _ ← LOG_FATAL 1196 "Failed to create link command"; exit_with 1
      | Some _ =>
          cmd ← append_list cmd (until_null args);
          cmd ← link_files cmd files;
          cmd ← append_to cmd [Some "-o"%string; Some outputBinary];
          linked ← ExecuteCommand cmd;
          if negb linked then LOG_ERROR 1215 "Linking failed" else mret tt
      end
  | _, _, _ => _ ← LOG_FATAL 1179 "LinkFiles received null argument(s)"; exit_with 1
  end.

(** ** The functions of the rules *)

Definition BuildDebugSelf (argc : nat) (argv : list (option string)) : CB unit :=
  cmd ← CreateCommand [BUILDER_CC];
  asan ← has_arg argc argv "asan";
  cmd ← (if asan : bool then append_to cmd [Some "-fsanitize=address"%string] else mret cmd);
  gdb ← has_arg argc argv "gdb";
  cmd ← (if gdb : bool then append_to cmd [Some "-g3"%string] else mret cmd);
  cmd ← append_to cmd [Some BUILDER_SOURCE; Some "-o"%string; Some BUILDER_NAME];
  _ ← ExecuteCommand cmd;
  mret tt.

Definition remove_if_exists (path : string) : CB unit :=
  there ← CB_FileExists path;
  if there : bool then _ ← CB_RemoveFile path; mret tt else mret tt.

(** The depth a tree of files can have below a path of 4096 bytes. *)
Definition remove_fuel : nat := 4096.

Definition CleanRule (argc : nat) (argv : list (option string)) : CB unit :=
  _ ← remove_if_exists STATIC_EXECNAME;
  _ ← remove_if_exists DYNAMIC_EXECNAME;
  _ ← remove_if_exists "mlbtcc-tests";
  there ← CB_DirectoryExists "build";
  _ ← (if there : bool then CB_RemoveDirectory remove_fuel "build" else mret true);
  all ← has_arg argc argv "all";
  if all : bool then remove_if_exists BUILDER_NAME else mret tt.

Definition BuildLevelDB (ac : nat) (av : list (option string)) : CB unit :=
  built ← CB_FileExists "src/extern/leveldb-1.22/build/libleveldb.a";
  force ← (if negb built then mret true else has_arg ac av "force");
  if force : bool then
    cmd ← CreateCommand [];
    cmd ← append_to cmd [Some "cd src/extern/leveldb-1.22/ &&"%string; Some BUILD_LEVELDB_CMD];
    _ ← ExecuteCommand cmd;
    mret tt
  else mret tt.

(** [strcat] to an array of 256 bytes. *)
Definition strcat256 (s t : string) : outcome string :=
  if strlen s + strlen t <? 256 then Ok (s +:+ t) else Fault OutOfBounds.

(** The two arrays of flags after the tests for "release" and "debug". *)
Definition build_flags (ac : nat) (av : list (option string)) : CB (string * string) :=
  release ← has_arg ac av "release";
  cflags ← pure (if release : bool then strcat256 CFLAGS OPTI_CFLAGS else Ok CFLAGS);
  debug ← has_arg ac av "debug";
  if debug : bool then
    cflags ← pure (strcat256 cflags " -fsanitize=address,undefined");
    ldflags ← pure (strcat256 LDFLAGS " -fsanitize=address,undefined");
    cflags ← pure (strcat256 cflags " -g3");
    mret (cflags, ldflags)
  else mret (cflags, LDFLAGS).

Definition compile_sources (cflags : string) : CB unit :=
  _ ← CompileFilesNULL "src/extern/sha256/*.c" "build" CC [Some cflags];
  CompileFilesNULL "src/*.c" "build" CC [Some cflags].

Definition BuildStatic (ac : nat) (av : list (option string)) : CB unit :=
  '(cflags, _) ← build_flags ac av;
  _ ← compile_sources cflags;
  cmd ← CreateCommand ["ar rcs"; STATIC_EXECNAME; "build/*.o"]%string;
  _ ← ExecuteCommand cmd;
  mret tt.

Definition BuildDynamic (ac : nat) (av : list (option string)) : CB unit :=
  '(cflags, ldflags) ← build_flags ac av;
  _ ← compile_sources cflags;
  LinkFilesNULL (Some "build/*.o"%string) (Some DYNAMIC_EXECNAME) (Some (LD +:+ " -dynamiclib")) [Some ldflags].

Definition BuildRule (argc : nat) (argv : list (option string)) : CB unit :=
  _ ← BuildLevelDB argc argv;
  static ← has_arg argc argv "static";
  _ ← (if (static : bool) || (argc =? 0)%nat then BuildStatic argc argv
       else
         dynamic ← has_arg argc argv "dynamic";
         if dynamic : bool then BuildDynamic argc argv else mret tt);
  no_obj ← has_arg argc argv "no-obj";
  if no_obj : bool then _ ← CB_RemoveDirectory remove_fuel "build"; mret tt else mret tt.

Definition ExecRule (argc : nat) (argv : list (option string)) : CB unit :=
  there ← CB_FileExists "./mlbtcc-tests";
  if there : bool then
    cmd ← CreateCommand ["./mlbtcc-tests"%string]; _ ← ExecuteCommand cmd; mret tt
  else mret tt.

(** The count of the first array includes the NULL that ends it. *)
Definition BuildTests (ac : nat) (av : list (option string)) : CB unit :=
  debug ← has_arg ac av "debug";
  if debug : bool then
    _ ← BuildRule 4 [Some "static"; Some "debug"; Some "no-obj"; None]%string;
    cmd ← CreateCommand [LD; LDFLAGS; "-fsanitize=address,undefined"; "*.a"; "test/*.c"; "-o"; "mlbtcc-tests"]%string;
    _ ← ExecuteCommand cmd; mret tt
  else
    _ ← BuildRule 3 [Some "static"; Some "no-obj"; Some "release"; None]%string;
    cmd ← CreateCommand [LD; LDFLAGS; "*.a"; "test/*.c"; "-o"; "mlbtcc-tests"]%string;
    _ ← ExecuteCommand cmd; mret tt.

Definition call (f : RuleFunction) (argc : nat) (argv : list (option string)) : CB unit :=
  match f with
  | BuildRule_fn => BuildRule argc argv
  | ExecRule_fn => ExecRule argc argv
  | CleanRule_fn => CleanRule argc argv
  | BuildTests_fn => BuildTests argc argv
  | HelpRule_fn => HelpRule
  | RebuildSelf_fn => RebuildSelf
  | BuildDebugSelf_fn => BuildDebugSelf argc argv
  end.

(** The rules are declared, then run. *)
Definition run_rules (argc : nat) (argv : list (option string)) : CB Z :=
  _ ← CreateRule "build" BuildRule_fn;
  _ ← CreateRule "exec" ExecRule_fn;
  _ ← CreateRule "clean" CleanRule_fn;
  _ ← CreateRule "build-tests" BuildTests_fn;
  _ ← CreateRule "help" HelpRule_fn;
  _ ← CreateRule "self-rebuild" RebuildSelf_fn;
  _ ← CreateRule "self-build-debug" BuildDebugSelf_fn;
  _ ← ManageRules call argc argv;
  _ ← LOG_INFO 1451 (COLOR_YELLOW +:+ "================================" +:+ COLOR_RESET);
  mret 0.

Definition main (argc : nat) (argv : list (option string)) : CB Z :=
  _ ← SetShowFileLine false;
  _ ← SetShowTimestamp false;
  _ ← SetShowLogLevel false;
  _ ← LOG_INFO 1436 (COLOR_YELLOW +:+ "======== CBuilder v0.0.2 ========" +:+ COLOR_RESET);
  '(argc, argv) ← ParseGlobalFlags argc argv;
  run_rules argc argv.

End build.

(** ** A concrete machine and project, for the witnesses *)

(** A shell whose commands all succeed and change nothing. *)
Definition sample_machine : Machine := {|
  machine_alloc := {| alloc := λ _, true |};
  sh := λ _ t, (t, Some 0);
  fork_ok := λ _, true;
  capture := λ _ _, None;
  wall := λ n, 1000 + Z.of_nat n;
  dir_mtime := λ _, 500;
  errno_text := "No such file or directory";
  date := λ _, "2009-01-03 18:15:05"%string |}.

Definition sample_tree : node :=
  DirNode [("CBuilder.c", FileNode 10 "source"); ("CBuilder", FileNode 20 "program");
    ("src", DirNode [("API.c", FileNode 1 "a"); ("notes.txt", FileNode 1 "n"); ("mlbtcc.c", FileNode 1 "m");
      ("extern", DirNode [("sha256", DirNode [("sha256.c", FileNode 1 "s"); ("sha256.h", FileNode 1 "h")])])])]%string.

Definition sample_builder : builder := Builder [] false default_logger sample_tree [] [] 0.
