(* ===== verification/CbMain.v ===== *)
(** * CBuilder.c, whole runs of the tool

    What every run keeps, by the structure of the code: with [--dry-run] no command is given
    to the shell, and the rules stay as they were declared; from the latter, the command
    line is run as the sequence of its rules with their arguments. *)

From S2P Require Import Prelude CbString CbWorld CbLog CbFiles CbRules CbBuild Files.

(** Once the flag is set it stays set, and nothing more is executed. *)
Definition no_command (s s' : builder) : Prop :=
  gDryRun s = true → gDryRun s' = true ∧ executed s' = executed s.

#[export] Instance no_command_preorder : PreOrder no_command.
Proof.
  split; [by intros s|]. intros s1 s2 s3 H1 H2 H. destruct (H1 H) as [Hd He].
  destruct (H2 Hd) as [Hd' He']. split; [done|]. by rewrite He', He.
Qed.

(** Relations that say nothing but about the flag, the rules and the commands. *)
Class Frame (P : builder → builder → Prop) : Prop := {
  frame_preorder :: PreOrder P;
  frame_same s s' : gDryRun s' = gDryRun s → gRules s' = gRules s → executed s' = executed s → P s s'
}.

(** ** The logger and the files leave both as they are *)

Section frame.
Context `{Machine} (P : builder → builder → Prop) `{!Frame P}.

Lemma frame_update f :
  (∀ s, gDryRun (f s) = gDryRun s) → (∀ s, gRules (f s) = gRules s) →
  (∀ s, executed (f s) = executed s) → ends P (update f).
Proof. intros Hd Hr He s. by apply frame_same. Qed.

Lemma frame_stat path : ends P (stat path).
Proof. unfold stat. follow. Qed.

Lemma frame_print o t : ends P (print o t).
Proof. by apply frame_update. Qed.

Lemma frame_set_root t : ends P (update (set_root t)).
Proof. by apply frame_update. Qed.

Hint Resolve frame_stat frame_print frame_set_root : ends.

Lemma frame_perror m : ends P (perror m).
Proof. apply frame_print. Qed.

Lemma frame_opendir path : ends P (opendir_cb path).
Proof. unfold opendir_cb. follow. Qed.

Lemma frame_fopen_w path : ends P (fopen_w path).
Proof. unfold fopen_w. follow. Qed.

Hint Resolve frame_perror frame_opendir frame_fopen_w : ends.

Lemma frame_fopen_a path : ends P (fopen_a path).
Proof. unfold fopen_a. follow. Qed.

Lemma frame_append_file path t : ends P (append_file path t).
Proof. unfold append_file, write_file. follow. Qed.

Lemma frame_rmdir path : ends P (rmdir path).
Proof. unfold rmdir, unlink_node. follow. all: by apply frame_update. Qed.

Hint Resolve frame_fopen_a frame_append_file frame_rmdir : ends.

Lemma frame_remove_path path : ends P (remove_path path).
Proof. unfold remove_path, unlink_node. follow. by apply frame_update. Qed.

Lemma frame_mkdir path : ends P (mkdir_or_exists path).
Proof. unfold mkdir_or_exists. follow. Qed.

Hint Resolve frame_remove_path frame_mkdir : ends.

(** The logger. *)

Lemma frame_logger f : ends P (update_logger f).
Proof. by apply frame_update. Qed.

Lemma frame_log_print t : ends P (log_print t).
Proof. unfold log_print, stream_path. follow. Qed.

Lemma frame_time : ends P _current_time_string.
Proof. intros s. by apply frame_same. Qed.

Hint Resolve frame_logger frame_log_print frame_time : ends.

Lemma frame_log_message level file line m : ends P (_log_message level file line m).
Proof. unfold _log_message. follow. Qed.

Hint Resolve frame_log_message : ends.

(** Files. *)

Lemma frame_copy_chunks fuel src dest off : ends P (copy_chunks fuel src dest off).
Proof.
  revert off. induction fuel as [|fuel IH]; intros off; cbn [copy_chunks]; [done|].
  unfold read_chunk. follow.
Qed.

Lemma frame_remove_entries rec path es : (∀ p, ends P (rec p)) → ends P (remove_entries rec path es).
Proof. intros Hrec. induction es as [|x es IH]; cbn [remove_entries]; follow. Qed.

Lemma frame_RemoveDirectory fuel path : ends P (CB_RemoveDirectory fuel path).
Proof.
  revert path. induction fuel as [|fuel IH]; intros path; cbn [CB_RemoveDirectory]; [done|].
  follow; by apply frame_remove_entries.
Qed.

Lemma frame_collect_entries rec r base m max es results :
  (∀ p l, ends P (rec p l)) → ends P (collect_entries rec r base m max es results).
Proof.
  intros Hrec. revert results. induction es as [|x es IH]; intros results; cbn [collect_entries]; follow.
Qed.

Lemma frame_collect fuel pattern results max : ends P (RecursiveCollectFiles fuel pattern results max).
Proof.
  revert pattern results. induction fuel as [|fuel IH]; intros pattern results; cbn [RecursiveCollectFiles]; [done|].
  destruct (strrchr_slash pattern) as [[before after]|]; follow; by apply frame_collect_entries.
Qed.

End frame.

#[export] Hint Resolve frame_stat frame_print frame_set_root frame_perror frame_opendir frame_fopen_w frame_fopen_a frame_append_file frame_rmdir frame_remove_path frame_mkdir frame_logger frame_log_print frame_time frame_log_message frame_copy_chunks frame_RemoveDirectory frame_collect : ends.

(** ** Commands, rules and builds *)

(** Such a relation that holds of every command. *)
Class Commands `{Machine} (P : builder → builder → Prop) : Prop := {
  commands_frame :: Frame P;
  commands_end cmd thread : ends P (ExecuteCommandGeneric cmd thread)
}.

Section commands.
Context `{Machine} (P : builder → builder → Prop) `{!Commands P}.

#[local] Instance all_frame : Frame P := commands_frame.

Lemma all_execute cmd : ends P (ExecuteCommand cmd).
Proof. apply commands_end. Qed.

Hint Resolve all_execute : ends.

Lemma all_RebuildSelf : ends P RebuildSelf.
Proof. unfold RebuildSelf, CreateCommand, append_to, LOG_INFO, LOG_FATAL. follow. Qed.

Lemma all_list_rules rules : ends P (list_rules rules).
Proof. induction rules as [|r rules IH]; cbn [list_rules]; unfold LOG_INFO; follow. Qed.

Hint Resolve all_RebuildSelf all_list_rules : ends.

Lemma all_HelpRule : ends P HelpRule.
Proof. unfold HelpRule, LOG_INFO. follow. Qed.

Lemma all_append_argv args n argv : ends P (append_argv args n argv).
Proof.
  revert args argv. induction n as [|n IH]; intros args [|a argv]; cbn [append_argv]; unfold append_to; follow.
Qed.

Hint Resolve all_HelpRule all_append_argv : ends.

Lemma all_ManageRebuild argc argv : ends P (ManageRebuild argc argv).
Proof.
  unfold ManageRebuild, GetFileLastEditTime, RunSelf, CreateCommand, append_to, LOG_INFO, LOG_FATAL. follow.
Qed.

(** Building. *)

Lemma all_append_list cmd args : ends P (append_list cmd args).
Proof. revert cmd. induction args as [|a args IH]; intros cmd; cbn [append_list]; unfold append_to; follow. Qed.

Hint Resolve all_ManageRebuild all_append_list : ends.

Lemma all_compile_all dest compiler flags files : ends P (compile_all dest compiler flags files).
Proof.
  induction files as [|f files IH]; cbn [compile_all];
    unfold compile_one, CreateCommand, append_to, LOG_ERROR; follow.
Qed.

Lemma all_link_files cmd files : ends P (link_files cmd files).
Proof. revert cmd. induction files as [|f files IH]; intros cmd; cbn [link_files]; unfold append_to; follow. Qed.

Hint Resolve all_compile_all all_link_files : ends.

Lemma all_CompileFiles pattern dest compiler args : ends P (CompileFilesNULL pattern dest compiler args).
Proof. unfold CompileFilesNULL, CB_DirectoryExists, CB_CreateDirectory. follow. Qed.

Lemma all_LinkFiles pattern out linker args : ends P (LinkFilesNULL pattern out linker args).
Proof.
  unfold LinkFilesNULL, CreateCommand, append_to, LOG_FATAL, LOG_WARN, LOG_ERROR. follow.
Qed.

Hint Resolve all_CompileFiles all_LinkFiles : ends.

Lemma all_BuildRule argc argv : ends P (BuildRule argc argv).
Proof.
  unfold BuildRule, BuildLevelDB, BuildStatic, BuildDynamic, compile_sources, build_flags, CB_FileExists,
    CreateCommand, append_to, has_arg. follow.
Qed.

Hint Resolve all_BuildRule : ends.

Lemma all_call f argc argv : ends P (call f argc argv).
Proof.
  destruct f; cbn [call]; unfold ExecRule, CleanRule, BuildTests, BuildDebugSelf, remove_if_exists,
    CB_FileExists, CB_DirectoryExists, CB_RemoveFile, CreateCommand, append_to, has_arg; follow.
Qed.

Hint Resolve all_call : ends.

(** The command line. *)

Lemma all_next_rule n rest : ends P (next_rule n rest).
Proof.
  revert rest. induction n as [|n IH]; intros [|[a|] rest]; cbn [next_rule]; unfold IsRuleName; follow.
Qed.

Lemma all_ExecuteRule rule argc argv : ends P (ExecuteRule call rule argc argv).
Proof. unfold ExecuteRule, LOG_INFO, LOG_WARN. follow. Qed.

Hint Resolve all_next_rule all_ExecuteRule : ends.

Lemma all_manage_loop fuel n rest : ends P (manage_loop call fuel n rest).
Proof.
  revert n rest. induction fuel as [|fuel IH]; intros [|n] [|r rest]; cbn [manage_loop]; follow.
Qed.

Hint Resolve all_manage_loop : ends.

Lemma all_ManageRules argc argv : ends P (ManageRules call argc argv).
Proof. unfold ManageRules, LOG_INFO. follow. Qed.

End commands.

#[export] Hint Resolve all_ManageRules : ends.

(** ** Dry runs *)

Section dry.
Context `{Machine}.

#[export] Instance no_command_frame : Frame no_command.
Proof. split; [typeclasses eauto|]. intros s s' Hd _ He Hs. by rewrite Hd, He. Qed.

#[export] Instance no_command_commands : Commands no_command.
Proof.
  split; [typeclasses eauto|]. intros [cmd|] thread; cbn [ExecuteCommandGeneric]; [|unfold LOG_ERROR; follow].
  apply ends_look_bind. intros s. destruct (gDryRun s) eqn:E; cbn [negb].
  - apply ends_at. unfold LOG_INFO. follow.
  - unfold no_command. case_match; done || congruence.
Qed.

Abbreviation quiet := (ends no_command).

Lemma quiet_CreateRule n f : quiet (CreateRule n f).
Proof. unfold CreateRule. follow. by intros s. Qed.

Hint Resolve quiet_CreateRule : ends.

Lemma quiet_run_rules argc argv : quiet (run_rules argc argv).
Proof. unfold run_rules, LOG_INFO. follow. Qed.

(** ** Reading the flags *)

Definition same_executed (s s' : builder) : Prop := executed s' = executed s.

#[export] Instance same_executed_frame : Frame same_executed.
Proof. split; [split; [done|]; intros s1 s2 s3 H1 H2; unfold same_executed in *; congruence|done]. Qed.

(** The flag is somewhere among the arguments left to read. *)
Definition flag_left (n readIndex : nat) (argv : list (option string)) : Prop :=
  ∃ i, (readIndex ≤ i < readIndex + n)%nat ∧ argv !! i = Some (Some "--dry-run"%string).

Lemma flags_loop_dry n r w argv s :
  (w ≤ r)%nat → gDryRun s = true ∨ flag_left n r argv →
  match flags_loop n r w argv s with
  | Returns _ s' => gDryRun s' = true ∧ executed s' = executed s
  | Exited _ s' => executed s' = executed s
  | Undefined _ => True
  end.
Proof.
  revert r w argv s. induction n as [|n IH]; intros r w argv s Hw Hs; cbn [flags_loop].
  { destruct Hs as [Hs|(i & Hi & _)]; [done|lia]. }
  destruct (argv !! r) as [[arg|]|] eqn:E; [|done|done].
  destruct (String.eqb arg "--dry-run") eqn:Ea.
  - pose proof (frame_log_message same_executed LOG_LEVEL_INFO CBUILDER_FILE 539
      (COLOR_BLUE +:+ "[DRY-RUN] " +:+ COLOR_GREEN +:+ "enabled" +:+ COLOR_RESET) s) as Hl.
    unfold LOG_INFO, mbind, CB_bind. destruct (_log_message _ _ _ _ s) as [[] s1| |c s1]; [|done|done].
    cbn. specialize (IH (S r) w argv (set_dry true s1) ltac:(lia) (or_introl eq_refl)).
    destruct (flags_loop _ _ _ _ _); [|done|]; cbn in IH; by rewrite <- Hl.
  - apply IH; [lia|]. destruct Hs as [Hs|(i & Hi & Hv)]; [by left|right].
    destruct (decide (i = r)) as [->|Hne].
    { rewrite E in Hv. injection Hv as ->. by rewrite String.eqb_refl in Ea. }
    exists i. split; [lia|]. rewrite list_lookup_insert_ne by lia. done.
Qed.

End dry.

(** ** The rules stay *)

Section keep.
Context `{Machine}.

#[export] Instance same_rules_frame : Frame same_rules.
Proof. split; [split; [done|]; intros s1 s2 s3 H1 H2; unfold same_rules in *; congruence|done]. Qed.

#[export] Instance same_rules_commands : Commands same_rules.
Proof.
  split; [typeclasses eauto|]. intros [cmd|] thread; cbn [ExecuteCommandGeneric]; [|unfold LOG_ERROR; follow].
  unfold run_shell, LOG_INFO. follow. all: by intros ?.
Qed.

(** When the program is as new as its source, nothing is rebuilt. *)
Lemma ManageRebuild_current argc argv s m c m' c' :
  lookup_node ["CBuilder.c"%string] (root s) = Some (FileNode m c) →
  lookup_node ["CBuilder"%string] (root s) = Some (FileNode m' c') → m ≤ m' →
  ManageRebuild argc argv s = Returns tt s.
Proof.
  intros H1 H2 Hm.
  assert (Hg : ∀ path p m c, resolve path = p → String.eqb path "" = false →
    lookup_node p (root s) = Some (FileNode m c) → GetFileLastEditTime path s = Returns m s).
  { intros path p m0 c0 <- Hp Hl. unfold GetFileLastEditTime, stat, mbind, CB_bind, look, mret, CB_ret.
    by rewrite Hp, Hl. }
  unfold ManageRebuild.
  rewrite (CB_bind_ok _ _ _ _ _ (Hg BUILDER_SOURCE _ _ _ eq_refl eq_refl H1)).
  rewrite (CB_bind_ok _ _ _ _ _ (Hg BUILDER_NAME _ _ _ eq_refl eq_refl H2)).
  by rewrite (proj2 (Z.ltb_ge _ _)).
Qed.
End keep.

(** What holds at the end of a sequence, from what holds at the end of its parts. *)
Lemma run_seq {A B} (m : CB A) (f : A → CB B) s (Q : builder → Prop) :
  match m s with
  | Returns a s1 => match f a s1 with Returns _ s' | Exited _ s' => Q s' | Undefined _ => True end
  | Exited _ s' => Q s'
  | Undefined _ => True
  end →
  match (m ≫= f) s with Returns _ s' | Exited _ s' => Q s' | Undefined _ => True end.
Proof. unfold mbind, CB_bind. by destruct (m s). Qed.

(** ** Properties *)

(** C10: when [--dry-run] is among the arguments of the tool, no command is given to the
    shell, whatever the other arguments, the rules they name, the files, the clock and the
    memory, and also when the tool goes on to rebuild itself and exits. *)
Theorem main_dry_run `{Machine} argc argv s :
  Some "--dry-run"%string ∈ take argc argv →
  match main argc argv s with
  | Returns _ s' | Exited _ s' => executed s' = executed s
  | Undefined _ => True
  end.
Proof.
  intros Hin. apply list_elem_of_lookup in Hin as (i & Hi).
  apply lookup_take_Some in Hi as [Hi Hlt].
  unfold main, SetShowFileLine, SetShowTimestamp, SetShowLogLevel, update_logger. rewrite !CB_update.
  set (s0 := set_logger _ _). change (executed s) with (executed s0). clearbody s0.
  apply run_seq. pose proof (frame_log_message same_executed LOG_LEVEL_INFO CBUILDER_FILE 1436
    (COLOR_YELLOW +:+ "======== CBuilder v0.0.2 ========" +:+ COLOR_RESET) s0) as Hl.
  unfold LOG_INFO. destruct (_log_message _ _ _ _ s0) as [[] s1| |c s1]; [|done|done].
  unfold same_executed in Hl. rewrite <- Hl. apply run_seq.
  assert (Hf : gDryRun s1 = true ∨ flag_left argc 0 argv) by (right; exists i; split; [lia|done]).
  pose proof (flags_loop_dry argc 0 0 argv s1 (le_n 0) Hf) as Hd. unfold ParseGlobalFlags.
  destruct (flags_loop _ _ _ _ s1) as [[n l] s2| |c s2]; [|done|done]. destruct Hd as [Hd <-].
  pose proof (quiet_run_rules n l s2) as Hq. destruct (run_rules n l s2); [by apply Hq|done|by apply Hq].
Qed.

(** [./CBuilder build --dry-run] on a project: it returns, and ran nothing. *)
Lemma main_dry_run_witness :
  match @main sample_machine 3 [Some "./CBuilder"; Some "build"; Some "--dry-run"; None]%string sample_builder with
  | Returns code s' => code = 0 ∧ executed s' = []
  | _ => False
  end.
Proof.
  pose proof (@main_dry_run sample_machine 3 [Some "./CBuilder"; Some "build"; Some "--dry-run"; None]%string
    sample_builder ltac:(cbn; set_solver)) as H.
  assert (E : match @main sample_machine 3 [Some "./CBuilder"; Some "build"; Some "--dry-run"; None]%string
    sample_builder with Returns code _ => code =? 0 | _ => false end = true) by by vm_compute.
  destruct (main _ _ _) as [code s'| |]; [|done|done]. split; [by apply Z.eqb_eq|exact H].
Defined.

(** When the tool is up to date and every rule has its name, [ManageRules] runs the
    arguments as a sequence of segments, each the name of a rule (or the first argument)
    with the arguments up to the next name: nothing is skipped or run twice, the loop ends,
    and each rule is called with the number of its own arguments.  Without arguments it
    announces and calls the first rule. *)
Theorem ManageRules_runs `{Machine} args tail s m c m' c' :
  named (gRules s) →
  lookup_node ["CBuilder.c"%string] (root s) = Some (FileNode m c) →
  lookup_node ["CBuilder"%string] (root s) = Some (FileNode m' c') → m ≤ m' →
  flatten (segments (gRules s) (drop 1 args)) = drop 1 args ∧
  (length args ≠ 1%nat →
     ManageRules call (length args) (map Some args ++ tail) s =
     run_segments call (segments (gRules s) (drop 1 args)) tail s) ∧
  (∀ r rules n, length args = 1%nat → gRules s = r :: rules → name r = Some n → console (logger s) →
     ∃ s', noted s s' ∧ ∀ x s'', call (function r) 1 (map Some args ++ tail) s' = Returns x s'' →
       ManageRules call 1 (map Some args ++ tail) s = Returns tt s'').
Proof.
  intros Hn H1 H2 Hm. split; [apply flatten_segments|].
  pose proof (ManageRebuild_current (length args) (map Some args ++ tail) s m c m' c' H1 H2 Hm) as Hb.
  split.
  - intros Hlen. unfold ManageRules. rewrite (CB_bind_ok _ _ _ _ _ Hb), decide_False by done.
    rewrite (CB_bind_ok (mret tt) _ _ _ _ eq_refl).
    destruct args as [|a args]; [done|]. cbn [map length drop Nat.sub app]. rewrite Nat.sub_0_r.
    apply manage_loop_ok; [intros; apply all_call; typeclasses eauto|intros; apply frame_log_message; typeclasses eauto|done|rewrite drop_0; lia].
  - intros r rules n Hlen Hr Hname Hc. rewrite Hlen in Hb.
    unfold ManageRules. rewrite (CB_bind_ok _ _ _ _ _ Hb), decide_True by done.
    destruct (log_noted LOG_LEVEL_INFO CBUILDER_FILE 838 (COLOR_BLUE +:+ "No rule provided -- using the first rule declared"
      +:+ COLOR_RESET) s Hc ltac:(done)) as (s1 & E1 & Hn1).
    destruct (log_noted LOG_LEVEL_INFO CBUILDER_FILE 839 (COLOR_YELLOW +:+ "Executing rule " +:+ COLOR_CYAN +:+ n +:+ COLOR_RESET)
      s1 ltac:(by rewrite (noted_logger _ _ Hn1)) ltac:(done)) as (s2 & E2 & Hn2).
    exists s2. split; [by trans s1|]. intros [] s'' Hcall. unfold LOG_INFO.
    etransitivity; [eapply (CB_bind_ok _ _ _ tt s'')|done].
    rewrite (CB_bind_ok _ _ _ _ _ E1), CB_look, (noted_rules _ _ Hn1), Hr, Hname.
    rewrite (CB_bind_ok (mret n) _ _ _ _ eq_refl), (CB_bind_ok _ _ _ _ _ E2). exact Hcall.
Qed.

(** The rules of [main], as they are when memory does not run out. *)
Definition declared_rules : list Rule :=
  [{| name := Some "build"; function := BuildRule_fn |}; {| name := Some "exec"; function := ExecRule_fn |};
   {| name := Some "clean"; function := CleanRule_fn |}; {| name := Some "build-tests"; function := BuildTests_fn |};
   {| name := Some "help"; function := HelpRule_fn |}; {| name := Some "self-rebuild"; function := RebuildSelf_fn |};
   {| name := Some "self-build-debug"; function := BuildDebugSelf_fn |}]%string.

Definition ready_builder : builder := Builder declared_rules true default_logger sample_tree [] [] 0.

Lemma ManageRules_runs_witness :
  segments declared_rules ["clean"; "all"; "build"; "static"; "release"]%string =
    [("clean", ["all"]); ("build", ["static"; "release"])]%string ∧
  @ManageRules sample_machine (@call sample_machine) 6 [Some "./CBuilder"; Some "clean"; Some "all"; Some "build"; Some "static"; Some "release"; None]%string
    ready_builder =
  @run_segments sample_machine (@call sample_machine) [("clean", ["all"]); ("build", ["static"; "release"])]%string [None] ready_builder.
Proof.
  split; [reflexivity|].
  pose proof (@ManageRules_runs sample_machine ["./CBuilder"; "clean"; "all"; "build"; "static"; "release"]%string [None]
    ready_builder 10 "source" 20 "program" ltac:(repeat constructor; by eexists) eq_refl eq_refl ltac:(lia)) as (_ & H & _).
  exact (H ltac:(done)).
Defined.
