(* ===== verification/CbRemove.v ===== *)
(** * CBuilder.c, removing a directory

    [CB_RemoveDirectory] is recursive on what it finds in the file system: the proof that
    it ends, and what it leaves. *)

From S2P Require Import Prelude CbString CbWorld CbLog CbFiles CbRules CbBuild Files.

(** ** Trees *)

Fixpoint depth (t : node) : nat :=
  match t with
  | FileNode _ _ => O
  | DirNode es =>
      S ((fix deepest (es : list (string * node)) : nat :=
            match es with [] => O | (_, n) :: es => Nat.max (depth n) (deepest es) end) es)
  end.

(** The names of a directory are proper and differ, at every level. *)
Fixpoint tree_ok (t : node) : Prop :=
  match t with
  | FileNode _ _ => True
  | DirNode es =>
      (fix all (es : list (string * node)) : Prop :=
         match es with
         | [] => True
         | (x, n) :: es => valid_name x = true ∧ (x ∉ map fst es) ∧ tree_ok n ∧ all es
         end) es
  end.

(** The characters that the longest path below a node adds. *)
Fixpoint path_room (t : node) : nat :=
  match t with
  | FileNode _ _ => O
  | DirNode es =>
      (fix longest (es : list (string * node)) : nat :=
         match es with [] => O | (x, n) :: es => Nat.max (S (String.length x + path_room n)) (longest es) end) es
  end.

Lemma depth_cons x n es : depth (DirNode ((x, n) :: es)) = S (Nat.max (depth n) (pred (depth (DirNode es)))).
Proof. done. Qed.

Lemma tree_ok_cons x n es :
  tree_ok (DirNode ((x, n) :: es)) ↔ valid_name x = true ∧ (x ∉ map fst es) ∧ tree_ok n ∧ tree_ok (DirNode es).
Proof. done. Qed.

Lemma path_room_cons x n es :
  path_room (DirNode ((x, n) :: es)) = Nat.max (S (String.length x + path_room n)) (path_room (DirNode es)).
Proof. done. Qed.

(** What an entry takes of its directory. *)
Lemma entry_below x n es :
  (x, n) ∈ es → tree_ok (DirNode es) →
  valid_name x = true ∧ tree_ok n ∧ (depth n < depth (DirNode es))%nat ∧
  (S (String.length x) + path_room n ≤ path_room (DirNode es))%nat.
Proof.
  induction es as [|[y m] es IH]; intros Hin; [by apply not_elem_of_nil in Hin|].
  intros (Hy & _ & Hm & Hes)%tree_ok_cons. rewrite depth_cons, path_room_cons.
  apply elem_of_cons in Hin as [[= -> ->]|Hin]; [split_and!; [done|done|lia|lia]|].
  destruct (IH Hin Hes) as (? & ? & Hd & Hl). split_and!; [done|done|lia|lia].
Qed.

Lemma remove_entry_set x n es : remove_entry x (set_entry x n es) = remove_entry x es.
Proof.
  induction es as [|[y m] es IH]; cbn; [by rewrite String.eqb_refl|].
  destruct (String.eqb x y) eqn:E; cbn; [by rewrite String.eqb_refl|]. by rewrite E, IH.
Qed.

(** What is dropped does not matter. *)
Lemma drop_at_node p f t n :
  p ≠ [] → lookup_node p t = Some n → drop_node p (at_node p f t) = drop_node p t.
Proof.
  revert t. induction p as [|x p IH]; intros t; [done|]. intros _. cbn [lookup_node].
  destruct t as [m c|es]; [done|]. destruct (find_entry x es) as [u|] eqn:E; [|done]. intros Hn.
  cbn [at_node]. rewrite E. destruct p as [|y p]; cbn [drop_node].
  - by rewrite remove_entry_set.
  - rewrite find_entry_set, String.eqb_refl, E, set_entry_twice. do 2 f_equal. exact (IH u ltac:(done) Hn).
Qed.

Lemma valid_not_dots x : valid_name x = true → is_dots x = false.
Proof.
  unfold valid_name, is_dots, stays. intros Hx.
  apply andb_true_iff in Hx as [Hx H2]. apply andb_true_iff in Hx as [_ H1].
  apply negb_true_iff in H1, H2. apply orb_false_iff in H1 as [_ H1]. by rewrite H1, H2.
Qed.

Lemma substring_all s n : (String.length s ≤ n)%nat → String.substring 0 n s = s.
Proof.
  revert n. induction s as [|c s IH]; intros [|n] Hn; cbn in Hn; try done; [lia|].
  cbn. by rewrite IH by lia.
Qed.

Section remove.
Context `{Machine}.

Lemma stat_ok path s n :
  String.eqb path "" = false → lookup_node (resolve path) (root s) = n → stat path s = Returns n s.
Proof. intros Hp Hn. unfold stat. rewrite CB_look, Hp. by rewrite Hn. Qed.

(** The loop over the entries, when [rec] removes the directories among them. *)
Lemma remove_entries_ok rec path es s :
  lookup_node (resolve path) (root s) = Some (DirNode es) → tree_ok (DirNode es) →
  (String.length path + path_room (DirNode es) ≤ 4095)%nat →
  (∀ x es' s, (x, DirNode es') ∈ es → lookup_node (resolve path ++ [x]) (root s) = Some (DirNode es') →
    rec (path +:+ String "/" x) s = Returns true (set_root (drop_node (resolve path ++ [x]) (root s)) s)) →
  remove_entries rec path (map fst es) s =
    Returns true (set_root (at_node (resolve path) (λ _, DirNode []) (root s)) s).
Proof.
  revert s. induction es as [|[x n] es IH]; intros s Hp Hok Hlen Hrec.
  { assert (Hid : at_node (resolve path) (λ _, DirNode []) (root s) = root s).
    { etransitivity; [exact (at_node_ext _ (λ _, DirNode []) (λ x, x) _ _ Hp eq_refl)|apply (at_node_id _ _ _ Hp)]. }
    rewrite Hid. by destruct s. }
  apply tree_ok_cons in Hok as (Hx & Hnx & Hn & Hok). rewrite path_room_cons in Hlen.
  cbn [map fst remove_entries]. rewrite valid_not_dots by done.
  unfold snprintf. rewrite substring_all by (rewrite length_sapp; cbn; lia). fold PATH_SEPARATOR.
  change (String PATH_SEPARATOR x) with (String "/" x).
  assert (Hl : lookup_node (resolve path ++ [x]) (root s) = Some n).
  { rewrite lookup_app, Hp. cbn. by rewrite String.eqb_refl. }
  assert (Hdrop : drop_node (resolve path ++ [x]) (root s) = at_node (resolve path) (λ _, DirNode es) (root s)).
  { rewrite (drop_in_dir _ _ _ _ Hp). cbn. by rewrite String.eqb_refl. }
  set (s1 := set_root (at_node (resolve path) (λ _, DirNode es) (root s)) s).
  assert (Hnext : remove_entries rec path (map fst es) s1 =
    Returns true (set_root (at_node (resolve path) (λ _, DirNode []) (root s)) s)).
  { pose proof (at_node_twice (resolve path) (λ _, DirNode es) (λ _, DirNode []) (root s) _ Hp) as Ht.
    cbn beta in Ht. rewrite IH; unfold s1; cbn [root set_root].
    - rewrite Ht. done.
    - exact (lookup_at_node _ (λ _, DirNode es) _ _ Hp).
    - done.
    - lia.
    - intros y es' s2 Hin. apply Hrec. by right. }
  rewrite (CB_bind_ok _ _ _ _ _ (stat_ok _ s (Some n) (join_not_empty _ _) ltac:(by rewrite resolve_join))).
  destruct n as [mt c|es'].
  - unfold remove_path, mbind at 1, CB_bind at 1, mbind at 1, CB_bind at 1.
    rewrite (stat_ok _ s (Some (FileNode mt c)) (join_not_empty _ _)) by (by rewrite resolve_join).
    unfold unlink_node, mbind, CB_bind, update, mret, CB_ret. rewrite resolve_join, Hdrop by done. exact Hnext.
  - rewrite (CB_bind_ok _ _ _ _ _ (Hrec x es' s ltac:(left) Hl)), Hdrop. exact Hnext.
Qed.

Lemma RemoveDirectory_ok fuel path es s :
  String.eqb path "" = false → resolve path ≠ [] →
  lookup_node (resolve path) (root s) = Some (DirNode es) → tree_ok (DirNode es) →
  (String.length path + path_room (DirNode es) ≤ 4095)%nat → (depth (DirNode es) ≤ fuel)%nat →
  CB_RemoveDirectory fuel path s = Returns true (set_root (drop_node (resolve path) (root s)) s).
Proof.
  revert path es s. induction fuel as [|fuel IH]; intros path es s Hne Hr Hp Hok Hlen Hd; [cbn in Hd; lia|].
  cbn [CB_RemoveDirectory]. unfold opendir_cb.
  rewrite (CB_bind_ok _ _ s (Some ("." :: ".." :: map fst es)%string) s)
    by (rewrite (CB_bind_ok _ _ _ _ _ (stat_ok _ s _ Hne Hp)); done).
  change (remove_entries (CB_RemoveDirectory fuel) path ("." :: ".." :: map fst es)%string)
    with (remove_entries (CB_RemoveDirectory fuel) path (map fst es)).
  assert (Hrec : ∀ x es' s, (x, DirNode es') ∈ es → lookup_node (resolve path ++ [x]) (root s) = Some (DirNode es') →
    CB_RemoveDirectory fuel (path +:+ String "/" x) s =
      Returns true (set_root (drop_node (resolve path ++ [x]) (root s)) s)).
  { intros x es' s' Hin Hl. destruct (entry_below x (DirNode es') es Hin Hok) as (Hx & Hok' & Hd' & Hl').
    rewrite <- resolve_join by done.
    apply (IH _ es'); rewrite ?resolve_join by done; [apply join_not_empty|by destruct (resolve path)|done|done| |lia].
    rewrite length_sapp. cbn [String.length]. lia. }
  rewrite (CB_bind_ok _ _ _ _ _ (remove_entries_ok _ path es s Hp Hok Hlen Hrec)).
  set (s1 := set_root _ s).
  assert (Hs : stat path s1 = Returns (Some (DirNode [])) s1)
    by (apply stat_ok; [done|]; exact (lookup_at_node _ (λ _, DirNode []) _ _ Hp)).
  unfold rmdir, unlink_node. rewrite (CB_bind_ok _ _ _ _ _ Hs). unfold s1.
  assert (Hdrop : drop_node (resolve path) (at_node (resolve path) (λ _, DirNode []) (root s)) =
    drop_node (resolve path) (root s)) by (by apply (drop_at_node _ _ _ (DirNode es))).
  destruct (resolve path) as [|x p] eqn:Ep; [done|].
  rewrite CB_update. cbn [root set_root]. rewrite Hdrop. done.
Qed.
End remove.

(** ** Property *)

(** C12: on a directory whose names are proper and whose paths fit 4096 bytes,
    [CB_RemoveDirectory] ends, answers that it succeeded and removes exactly that directory
    with everything below it; the depth of the directory bounds the recursion.  On anything
    else than a directory it fails and changes nothing. *)
Theorem RemoveDirectory_removes fuel path s :
  String.eqb path "" = false → resolve path ≠ [] →
  match lookup_node (resolve path) (root s) with
  | Some (DirNode es) =>
      tree_ok (DirNode es) → (String.length path + path_room (DirNode es) ≤ 4095)%nat →
      (depth (DirNode es) ≤ fuel)%nat →
      CB_RemoveDirectory fuel path s = Returns true (set_root (drop_node (resolve path) (root s)) s)
  | _ => CB_RemoveDirectory (S fuel) path s = Returns false s
  end.
Proof.
  intros Hne Hr. destruct (lookup_node (resolve path) (root s)) as [[m c|es]|] eqn:E;
    [|by apply RemoveDirectory_ok|]; cbn [CB_RemoveDirectory]; unfold opendir_cb, mbind, CB_bind;
    by rewrite (stat_ok _ s _ Hne E).
Qed.

(** The objects of a build, some of them in a directory of their own. *)
Definition built_tree : node :=
  DirNode [("build", DirNode [("API.o", FileNode 1 "o"); ("sub", DirNode [("x.o", FileNode 2 "x")])]);
    ("src", DirNode [])]%string.

Lemma RemoveDirectory_removes_witness :
  CB_RemoveDirectory remove_fuel "build" (Builder [] false default_logger built_tree [] [] 0) =
  Returns true (Builder [] false default_logger (DirNode [("src", DirNode [])]%string) [] [] 0).
Proof.
  pose proof (RemoveDirectory_removes remove_fuel "build"
    (Builder [] false default_logger built_tree [] [] 0) eq_refl ltac:(done)) as H.
  change (lookup_node _ _) with
    (Some (DirNode [("API.o", FileNode 1 "o"); ("sub", DirNode [("x.o", FileNode 2 "x")])]%string)) in H. cbn iota in H.
  rewrite H; [reflexivity| | |].
  - cbn. split_and!; try done; apply (bool_decide_unpack _); vm_compute; exact I.
  - apply Nat.leb_le. by vm_compute.
  - apply Nat.leb_le. by vm_compute.
Defined.
