(* ===== verification/CbCompile.v ===== *)
(** * CBuilder.c, what a build runs

    A build specified by its actions, the commands given to the shell and the directory
    made, in order: the compilation of the files that match a pattern, the archive, and the
    rule that puts them together. *)

From S2P Require Import Prelude CbString CbWorld CbLog CbFiles CbRules CbBuild CbRemove Files.

(** ** Commands as joined strings *)

(** A space before an argument, unless nothing precedes it. *)
Definition join1 (s a : string) : string := if String.eqb s "" then a else s +:+ " " +:+ a.
Definition join (s : string) (args : list string) : string := fold_left join1 args s.

Lemma strlen_join1 s a : strlen (join1 s a) ≤ strlen s + (strlen a + 1).
Proof.
  unfold join1. destruct (String.eqb s "") eqn:E; rewrite ?strlen_app;
    [unfold strlen; lia|change (strlen " ") with 1; lia].
Qed.

Lemma strlen_join s args : strlen (join s args) ≤ strlen s + args_length args.
Proof.
  revert s. induction args as [|a args IH]; intros s; cbn [join fold_left args_length]; [lia|].
  fold (join (join1 s a) args). specialize (IH (join1 s a)). pose proof (strlen_join1 s a). lia.
Qed.

(** A command that holds a string. *)
Definition holds (cmd : option CString) (s : string) : Prop :=
  ∃ c, cmd = Some c ∧ holds_string c s ∧ 250 ≤ s_size c.

(** Room for what is appended. *)
Definition fits (s : string) (args : list string) : Prop := strlen s + args_length args < 2 ^ 31.

Section append.
Context `{Alloc}.

Lemma append_args_join str s args :
  allocates → holds_string str s → 250 ≤ s_size str → fits s args →
  ∃ str', append_args str args = Ok str' ∧ holds_string str' (join s args) ∧ 250 ≤ s_size str'.
Proof.
  intros Ha. revert str s. induction args as [|a args IH]; intros str s Hs Hm Hf; unfold fits in *;
    cbn [args_length] in Hf; [by exists str|].
  pose proof (args_length_nonneg args) as Hargs. assert (H0 : 0 ≤ strlen a ∧ 0 ≤ strlen s) by (unfold strlen; lia).
  cbn [append_args join fold_left]. fold (join (join1 s a) args).
  rewrite (hs_length _ _ Hs). unfold join1 at 1. destruct (String.eqb s "") eqn:E.
  - apply String.eqb_eq in E as ->. change (strlen "") with 0 in *. change (0 <? 0) with false. cbn iota.
    rewrite outcome_bind_ok.
    destruct (AppendToString_ok str "" a Ha Hs Hm ltac:(change (strlen "") with 0; lia)) as (s1 & E1 & Hs1 & Hm1).
    rewrite E1, outcome_bind_ok. apply (IH s1 a Hs1); lia.
  - assert (Hpos : 0 < strlen s) by (destruct s; [done|unfold strlen; cbn [String.length]; lia]).
    rewrite (proj2 (Z.ltb_lt 0 _)) by lia.
    destruct (AppendToString_ok str s " " Ha Hs Hm ltac:(change (strlen " ") with 1; lia)) as (s1 & E1 & Hs1 & Hm1).
    rewrite E1, outcome_bind_ok.
    assert (Hl1 : strlen (s +:+ " ") = strlen s + 1) by (by rewrite strlen_app).
    destruct (AppendToString_ok s1 (s +:+ " ") a Ha Hs1 ltac:(lia) ltac:(lia)) as (s2 & E2 & Hs2 & Hm2).
    rewrite E2, outcome_bind_ok. rewrite <- sapp_assoc in Hs2.
    apply (IH s2 _ Hs2); [lia|]. rewrite !strlen_app. change (strlen " ") with 1. lia.
Qed.

Lemma until_null_some args : until_null (map Some args) = args.
Proof. induction args as [|a args IH]; cbn; [done|by rewrite IH]. Qed.

Lemma AppendToCommand_join cmd s args :
  allocates → holds cmd s → fits s args →
  ∃ cmd', AppendToCommand cmd (map Some args) = Ok cmd' ∧ holds cmd' (join s args).
Proof.
  intros Ha (c & -> & Hs & Hm) Hf. unfold AppendToCommand, AppendToStringNULL, AppendToStringVA.
  rewrite until_null_some. destruct (append_args_join c s args Ha Hs Hm Hf) as (c' & -> & Hs' & Hm').
  eexists. split; [done|]. by exists c'.
Qed.

Lemma CreateCommand_join args :
  allocates → fits "" args → ∃ cmd, CreateStringImpl args = Ok cmd ∧ holds cmd (join "" args).
Proof.
  intros Ha Hf. unfold CreateStringImpl. destruct (CreateStringEmpty_ok Ha) as (c & -> & Hs & Hm).
  unfold AppendToStringVA. destruct (append_args_join c "" args Ha Hs Hm Hf) as (c' & -> & Hs' & Hm').
  eexists. split; [done|]. by exists c'.
Qed.
End append.

Lemma join_app s a b : join s (a ++ b) = join (join s a) b.
Proof. unfold join. by rewrite fold_left_app. Qed.

Lemma args_length_app a b : args_length (a ++ b) = args_length a + args_length b.
Proof. induction a as [|x a IH]; cbn [app args_length]; lia. Qed.

Lemma fits_app s a b : fits s (a ++ b) → fits s a ∧ fits (join s a) b.
Proof.
  unfold fits. rewrite args_length_app. pose proof (strlen_join s a). pose proof (args_length_nonneg b). lia.
Qed.

(** ** Actions *)

Inductive action : Type := Run (command : string) | Make (dir : string).

Section actions.
Context `{Machine}.

Definition act (t : node) (a : action) : node :=
  match a with
  | Run c => fst (sh c t)
  | Make dir => default t (put_node (resolve dir) (DirNode []) t)
  end.

Definition commands (acts : list action) : list string :=
  flat_map (λ a, match a with Run c => [c] | Make _ => [] end) acts.

(** From [s] to [s'] these actions were done, and nothing else that the settings, the tree
    or the commands show. *)
Record did (acts : list action) (s s' : builder) : Prop := {
  did_rules : gRules s' = gRules s;
  did_dry : gDryRun s' = gDryRun s;
  did_logger : logger s' = logger s;
  did_executed : executed s' = executed s ++ commands acts;
  did_root : root s' = fold_left act acts (root s)
}.

Lemma did_noted s s' : noted s s' → did [] s s'.
Proof. intros []. split; cbn; rewrite ?app_nil_r; done. Qed.

Lemma did_trans a b s1 s2 s3 : did a s1 s2 → did b s2 s3 → did (a ++ b) s1 s3.
Proof.
  intros [] []. unfold commands in *. split; try congruence.
  - unfold commands. rewrite flat_map_app. by rewrite did_executed1, did_executed0, app_assoc.
  - rewrite fold_left_app. congruence.
Qed.

(** The machine works: memory lasts and processes start. *)
Record works : Prop := { works_alloc : allocates; works_fork : ∀ n, fork_ok n = true }.

(** A run that prints to the console, not a dry one. *)
Record live (s : builder) : Prop := { live_dry : gDryRun s = false; live_console : console (logger s) }.

Lemma did_live acts s s' : did acts s s' → live s → live s'.
Proof. intros [] []. split; congruence. Qed.

Lemma execute_did c s :
  works → live s → ∃ b s', ExecuteCommand (Some c) s = Returns b s' ∧ did [Run (c_str c)] s s'.
Proof.
  intros [_ Hf] [Hd Hc]. unfold ExecuteCommand, ExecuteCommandGeneric. rewrite CB_look, Hd. cbn [negb].
  destruct (log_then LOG_LEVEL_INFO 583 (COLOR_YELLOW +:+ "--cmd--" +:+ COLOR_RESET +:+ " " +:+ c_str c)
    (λ _, run_shell (c_str c) false) s Hc ltac:(done)) as (s1 & E & Hn).
  unfold LOG_INFO. rewrite E. unfold run_shell. rewrite CB_look, CB_update, Hf. cbn [negb].
  rewrite CB_update. cbn [root add_tick add_executed].
  rewrite (surjective_pairing (sh (c_str c) (root s1))).
  eexists _, _. split; [reflexivity|]. destruct Hn. split; cbn; congruence.
Qed.

Lemma execute_holds cmd text s :
  works → live s → holds cmd text → ∃ b s', ExecuteCommand cmd s = Returns b s' ∧ did [Run text] s s'.
Proof. intros Hw Hl (c & -> & [<- _ _ _] & _). by apply execute_did. Qed.


(** ** Steps of a build *)

Lemma create_step args s :
  works → fits "" args → ∃ cmd, CreateCommand args s = Returns cmd s ∧ holds cmd (join "" args).
Proof.
  intros [Ha _] Hf. destruct (CreateCommand_join args Ha Hf) as (cmd & E & Hh).
  exists cmd. split; [|done]. unfold CreateCommand. by rewrite E.
Qed.

Lemma append_step cmd text args s :
  works → holds cmd text → fits text args →
  ∃ cmd', append_to cmd (map Some args) s = Returns cmd' s ∧ holds cmd' (join text args).
Proof.
  intros [Ha _] Hh Hf. destruct (AppendToCommand_join cmd text args Ha Hh Hf) as (cmd' & E & Hh').
  exists cmd'. split; [|done]. unfold append_to. by rewrite E.
Qed.

Lemma append_list_ok cmd text args s :
  works → holds cmd text → fits text args →
  ∃ cmd', append_list cmd args s = Returns cmd' s ∧ holds cmd' (join text args).
Proof.
  intros Hw. revert cmd text. induction args as [|a args IH]; intros cmd text Hh Hf; [by exists cmd|].
  cbn [append_list]. apply (fits_app text [a] args) in Hf as [Hf1 Hf2].
  destruct (append_step cmd text [a] s Hw Hh Hf1) as (cmd' & E & Hh').
  rewrite (CB_bind_ok _ _ _ _ _ E). exact (IH cmd' _ Hh' Hf2).
Qed.

(** The command that compiles a file, and what is said of one that does not compile. *)
Definition object_of (dest path : string) : string := dest +:+ "/" +:+ base_name path +:+ ".o".
Definition compile_args (dest : string) (flags : list string) (path : string) : list string :=
  flags ++ ["-c"; path; "-o"; object_of dest path]%string.
Definition compile_command (dest compiler : string) (flags : list string) (path : string) : string :=
  join "" (compiler :: compile_args dest flags path).

(** A path whose object has a name and whose command has a length that fit. *)
Definition compilable (dest compiler : string) (flags : list string) (path : string) : Prop :=
  (String.length (object_of dest path) ≤ 511)%nat ∧ fits "" (compiler :: compile_args dest flags path).

Lemma compile_one_did dest compiler flags c s :
  works → live s → compilable dest compiler flags (c_str c) →
  ∃ s', compile_one dest compiler flags c s = Returns tt s' ∧
    did [Run (compile_command dest compiler flags (c_str c))] s s'.
Proof.
  intros Hw Hl [Hobj Hf]. unfold compile_one.
  change (compiler :: compile_args dest flags (c_str c)) with
    ([compiler] ++ compile_args dest flags (c_str c)) in Hf. apply fits_app in Hf as [Hf1 Hf2].
  unfold compile_args in Hf2. apply fits_app in Hf2 as [Hf2 Hf3].
  fold (object_of dest (c_str c)). unfold snprintf. rewrite substring_all by exact Hobj.
  destruct (create_step [compiler] s Hw Hf1) as (c1 & E1 & Hh1). rewrite (CB_bind_ok _ _ _ _ _ E1).
  destruct (append_list_ok c1 _ flags s Hw Hh1 Hf2) as (c2 & E2 & Hh2).
  rewrite (CB_bind_ok _ _ _ _ _ E2).
  destruct (append_step c2 _ _ s Hw Hh2 Hf3) as (c3 & E3 & Hh3). rewrite (CB_bind_ok _ _ _ _ _ E3).
  rewrite <- !join_app in Hh3.
  destruct (execute_holds c3 _ s Hw Hl Hh3) as (b & s1 & E4 & Hd).
  rewrite (CB_bind_ok _ _ _ _ _ E4). pose proof (did_live _ _ _ Hd Hl) as [_ Hc1].
  destruct Hh3 as (c4 & -> & _).
  assert (Hlog : ∃ s2, (if negb b then LOG_ERROR 1154 ("Failed to compile: " +:+ c_str c) else mret tt) s1 =
    Returns tt s2 ∧ noted s1 s2).
  { destruct b; cbn [negb]; [by exists s1|].
    exact (log_noted LOG_LEVEL_ERROR CBUILDER_FILE 1154 _ s1 Hc1 ltac:(done)). }
  destruct Hlog as (s2 & E5 & Hn). rewrite (CB_bind_ok _ _ _ _ _ E5).
  exists s2. split; [done|]. exact (did_trans _ [] _ _ _ Hd (did_noted _ _ Hn)).
Qed.

Lemma compile_all_did dest compiler flags files s :
  works → live s → Forall (compilable dest compiler flags) (map c_str files) →
  ∃ s', compile_all dest compiler flags (map Some files) s = Returns tt s' ∧
    did (map Run (map (compile_command dest compiler flags) (map c_str files))) s s'.
Proof.
  intros Hw. revert s. induction files as [|c files IH]; intros s Hl Hf.
  { exists s. split; [done|]. by apply did_noted. }
  cbn [map] in Hf. apply Forall_cons in Hf as [Hc Hf].
  destruct (compile_one_did dest compiler flags c s Hw Hl Hc) as (s1 & E1 & Hd1).
  destruct (IH s1 (did_live _ _ _ Hd1 Hl) Hf) as (s2 & E2 & Hd2).
  exists s2. cbn [map compile_all]. rewrite (CB_bind_ok _ _ _ _ _ E1). split; [exact E2|].
  exact (did_trans _ _ _ _ _ Hd1 Hd2).
Qed.

(** ** The files that match *)

(** The regular files of a directory that match, by their paths, in the order of the
    directory. *)
Definition matching (dir pattern : string) (es : list (string * node)) : list string :=
  flat_map (λ '(x, n),
    match n with
    | FileNode _ _ =>
        if MatchPattern (String.list_ascii_of_string pattern) (String.list_ascii_of_string x)
        then [dir +:+ "/" +:+ x] else []
    | DirNode _ => []
    end) es.

Lemma single_string s : works → strlen s < 2 ^ 30 → ∃ c, CreateStringImpl [s] = Ok (Some c) ∧ c_str c = s.
Proof.
  intros [Ha _] Hs. destruct (CreateCommand_join [s] Ha) as (cmd & E & (c & -> & [Hc _ _ _] & _)).
  { unfold fits. cbn [args_length]. change (strlen "") with 0. lia. }
  exists c. split; [exact E|]. rewrite Hc. by cbn.
Qed.

Lemma collect_entries_ok rec dir pattern max es results s :
  works → String.eqb dir "" = false → tree_ok (DirNode es) →
  (∀ x n, (x, n) ∈ es → lookup_node (resolve dir ++ [x]) (root s) = Some n) →
  (∀ x n, (x, n) ∈ es → (String.length dir + S (String.length x) ≤ 1023)%nat) →
  Z.of_nat (length results + length (matching dir pattern es)) ≤ max →
  ∃ cs, collect_entries rec false dir pattern max (map fst es) (map Some results) s =
      Returns (map Some (results ++ cs)) s ∧ map c_str cs = matching dir pattern es.
Proof.
  intros Hw Hdir. revert results. induction es as [|[x n] es IH]; intros results Hok Hl Hlen Hmax.
  { exists []. by rewrite app_nil_r. }
  apply tree_ok_cons in Hok as (Hx & _ & _ & Hok).
  assert (Hl' : ∀ x n, (x, n) ∈ es → lookup_node (resolve dir ++ [x]) (root s) = Some n)
    by (intros ???; apply Hl; by right).
  assert (Hlen' : ∀ x n, (x, n) ∈ es → (String.length dir + S (String.length x) ≤ 1023)%nat)
    by (intros y m ?; apply (Hlen y m); by right).
  assert (Hxl : String.length (dir +:+ String "/" x) = (String.length dir + S (String.length x))%nat)
    by (by rewrite length_sapp).
  pose proof (Hlen x n ltac:(left)) as Hxs.
  cbn [map fst collect_entries]. rewrite valid_not_dots by done.
  change (dir +:+ "/" +:+ x) with (dir +:+ String "/" x).
  unfold snprintf. rewrite substring_all by (rewrite Hxl; exact Hxs).
  rewrite (CB_bind_ok _ _ _ _ _ (stat_ok _ s (Some n) (join_not_empty _ _)
    ltac:(rewrite resolve_join by done; apply Hl; left))).
  unfold matching in Hmax |- *. cbn [flat_map] in Hmax |- *. fold (matching dir pattern es) in Hmax |- *.
  destruct n as [m c|es']; [|by apply (IH results)].
  destruct (MatchPattern _ _); cbn [andb app length] in Hmax |- *; [|by apply (IH results)].
  rewrite length_map. rewrite (proj2 (Z.ltb_lt _ _)) by lia.
  change (dir +:+ "/" +:+ x) with (dir +:+ String "/" x).
  destruct (single_string (dir +:+ String "/" x) Hw) as (c1 & E1 & Hc1); [unfold strlen; lia|].
  rewrite (CB_pure _ _ _ _ E1). change (map Some results ++ [Some c1]) with (map Some results ++ map Some [c1]).
  rewrite <- map_app.
  destruct (IH (results ++ [c1]) Hok Hl' Hlen') as (cs & E & Hcs); [rewrite length_app; cbn [length]; lia|].
  exists (c1 :: cs). rewrite E, <- app_assoc. cbn [map app]. by rewrite Hc1, Hcs.
Qed.

Lemma strrchr_no_slash s : no_slash s = true → strrchr_slash s = None.
Proof.
  induction s as [|c s IH]; cbn; [done|]. intros [Hc Hs]%andb_true_iff. rewrite IH by done.
  apply negb_true_iff in Hc. by rewrite Hc.
Qed.

Lemma strrchr_join dir x : no_slash x = true → strrchr_slash (dir +:+ String "/" x) = Some (dir, x).
Proof.
  intros Hx. induction dir as [|c dir IH].
  - change ("" +:+ String "/" x) with (String "/" x). cbn. by rewrite strrchr_no_slash.
  - change (String c dir +:+ String "/" x) with (String c (dir +:+ String "/" x)). cbn. by rewrite IH.
Qed.

(** A directory whose entries [RecursiveCollectFiles] can all name. *)
Record listable (dir : string) (es : list (string * node)) (s : builder) : Prop := {
  listable_name : String.eqb dir "" = false;
  listable_dir : lookup_node (resolve dir) (root s) = Some (DirNode es);
  listable_ok : tree_ok (DirNode es);
  listable_length : ∀ x n, (x, n) ∈ es → (String.length dir + S (String.length x) ≤ 1023)%nat
}.

Lemma find_entry_in x n es : tree_ok (DirNode es) → (x, n) ∈ es → find_entry x es = Some n.
Proof.
  induction es as [|[y m] es IH]; intros Hok Hin; [by apply not_elem_of_nil in Hin|].
  apply tree_ok_cons in Hok as (_ & Hy & _ & Hok). cbn. apply elem_of_cons in Hin as [[= -> ->]|Hin].
  - by rewrite String.eqb_refl.
  - destruct (String.eqb x y) eqn:E; [|by apply IH]. apply String.eqb_eq in E as ->. exfalso. apply Hy.
    apply list_elem_of_In, in_map_iff. exists (y, n). split; [done|]. by apply list_elem_of_In.
Qed.

Lemma collect_ok fuel dir pattern es s :
  works → listable dir es s → (String.length dir ≤ 1023)%nat → no_slash pattern = true →
  Z.of_nat (length (matching dir pattern es)) ≤ MAX_FILES →
  ∃ cs, RecursiveCollectFiles (S fuel) (dir +:+ String "/" pattern) [] MAX_FILES s = Returns (map Some cs) s ∧
    map c_str cs = matching dir pattern es.
Proof.
  intros Hw [Hne Hd Hok Hlen] Hdl Hp Hmax. cbn [RecursiveCollectFiles].
  rewrite strrchr_join, Hp, substring_all by done. cbn [negb]. unfold opendir_cb.
  rewrite (CB_bind_ok _ _ s (Some ("." :: ".." :: map fst es)%string) s)
    by (rewrite (CB_bind_ok _ _ _ _ _ (stat_ok _ s _ Hne Hd)); done).
  apply (collect_entries_ok _ dir pattern MAX_FILES es [] s Hw Hne Hok); [|done|done].
  intros x n Hin. rewrite lookup_app, Hd. cbn. by rewrite (find_entry_in x n es Hok Hin).
Qed.

(** ** CompileFiles *)

(** The directory of the objects is made unless it is there. *)
Definition made (dest : string) (t : node) : list action :=
  match lookup_node (resolve dest) t with Some (DirNode _) => [] | _ => [Make dest] end.

Lemma make_did dest s :
  String.eqb dest "" = false →
  (∀ m c, lookup_node (resolve dest) (root s) ≠ Some (FileNode m c)) →
  ∃ b s', (there ← CB_DirectoryExists dest; if negb there then CB_CreateDirectory dest else mret true) s =
      Returns b s' ∧ did (made dest (root s)) s s'.
Proof.
  intros Hne Hfile. unfold CB_DirectoryExists, CB_CreateDirectory, mkdir_or_exists, made.
  destruct (lookup_node (resolve dest) (root s)) as [[m c|es]|] eqn:E; [by edestruct Hfile| |].
  - rewrite (CB_bind_ok _ _ s true s) by (by rewrite (CB_bind_ok _ _ _ _ _ (stat_ok _ s _ Hne E))).
    cbn [negb]. exists true, s. split; [done|]. by apply did_noted.
  - rewrite (CB_bind_ok _ _ s false s) by (by rewrite (CB_bind_ok _ _ _ _ _ (stat_ok _ s _ Hne E))).
    cbn [negb]. rewrite (CB_bind_ok _ _ _ _ _ (stat_ok _ s _ Hne E)), CB_look, Hne.
    destruct (put_node (resolve dest) (DirNode []) (root s)) as [t|] eqn:Ep.
    + rewrite CB_update. eexists true, _. split; [reflexivity|].
      split; cbn; rewrite ?app_nil_r, ?Ep; done.
    + exists false, s. split; [done|]. split; cbn; rewrite ?app_nil_r, ?Ep; done.
Qed.

Lemma CompileFiles_did dir pattern dest compiler flags es s :
  works → live s → listable dir es s → (String.length dir ≤ 1023)%nat → no_slash pattern = true →
  Z.of_nat (length (matching dir pattern es)) ≤ MAX_FILES →
  String.eqb dest "" = false → (∀ m c, lookup_node (resolve dest) (root s) ≠ Some (FileNode m c)) →
  Forall (compilable dest compiler flags) (matching dir pattern es) →
  ∃ s', CompileFilesNULL (dir +:+ String "/" pattern) dest compiler (map Some flags) s = Returns tt s' ∧
    did (made dest (root s) ++ map Run (map (compile_command dest compiler flags) (matching dir pattern es))) s s'.
Proof.
  intros Hw Hl Hls Hdl Hp Hmax Hne Hfile Hc. unfold CompileFilesNULL.
  destruct (collect_ok (pred collect_fuel) dir pattern es s Hw Hls Hdl Hp Hmax) as (cs & E1 & Hcs).
  change (S (pred collect_fuel)) with collect_fuel in E1. rewrite (CB_bind_ok _ _ _ _ _ E1), until_null_some.
  destruct (make_did dest s Hne Hfile) as (b & s1 & E2 & Hd1).
  rewrite <- Hcs in Hc |- *.
  destruct (compile_all_did dest compiler flags cs s1 Hw (did_live _ _ _ Hd1 Hl) Hc) as (s2 & E3 & Hd2).
  exists s2. split; [|exact (did_trans _ _ _ _ _ Hd1 Hd2)].
  unfold mbind, CB_bind in E2 |- *. destruct (CB_DirectoryExists dest s) as [there s3| |]; [|done|done].
  by rewrite E2.
Qed.

End actions.
