(* ===== verification/CbStatic.v ===== *)
(** * CBuilder.c, the static library

    The rule [build] from its arguments to the commands it runs. *)

From S2P Require Import Prelude CbString CbWorld CbLog CbFiles CbRules CbBuild CbRemove CbCompile Files.

(** ** Arguments *)

Definition has (args : list string) (target : string) : bool := existsb (λ a, String.eqb a target) args.

Lemma HasArg_ok args tail target : HasArg (length args) (map Some args ++ tail) target = Ok (has args target).
Proof.
  induction args as [|a args IH]; [done|]. cbn [length HasArg map app]. unfold has. cbn [existsb].
  destruct (String.eqb a target); [done|exact IH].
Qed.

(** The flags of the compiler. *)
Definition cflags_of (args : list string) : string :=
  let c := if has args "release" then CFLAGS +:+ OPTI_CFLAGS else CFLAGS in
  if has args "debug" then (c +:+ " -fsanitize=address,undefined") +:+ " -g3" else c.

Definition ldflags_of (args : list string) : string :=
  if has args "debug" then LDFLAGS +:+ " -fsanitize=address,undefined" else LDFLAGS.

Lemma strlen_cflags args : strlen (cflags_of args) ≤ 255.
Proof. unfold cflags_of. destruct (has args "release"), (has args "debug"); by vm_compute. Qed.

Lemma build_flags_ok args tail s :
  build_flags (length args) (map Some args ++ tail) s = Returns (cflags_of args, ldflags_of args) s.
Proof.
  unfold build_flags, has_arg, cflags_of, ldflags_of.
  rewrite (CB_pure _ _ _ _ (HasArg_ok args tail "release")).
  assert (E : (if has args "release" then strcat256 CFLAGS OPTI_CFLAGS else Ok CFLAGS) =
    Ok (if has args "release" then CFLAGS +:+ OPTI_CFLAGS else CFLAGS)) by (by destruct (has args "release")).
  rewrite (CB_pure _ _ _ _ E), (CB_pure _ _ _ _ (HasArg_ok args tail "debug")).
  by destruct (has args "release"), (has args "debug").
Qed.

Section static.
Context `{Machine}.

(** ** The project *)

(** The sources are where the rule looks for them, with names of at most 400 characters,
    and no file has the name of the directory of the objects. *)
Record project (t : node) (sha src : list (string * node)) : Prop := {
  project_sha : lookup_node ["src"; "extern"; "sha256"]%string t = Some (DirNode sha);
  project_src : lookup_node ["src"]%string t = Some (DirNode src);
  project_build : ∀ m c, lookup_node ["build"]%string t ≠ Some (FileNode m c)
}.

Record sources_ok (es : list (string * node)) : Prop := {
  sources_tree : tree_ok (DirNode es);
  sources_names : ∀ x n, (x, n) ∈ es → (String.length x ≤ 400)%nat;
  sources_number : (length es ≤ 1000)%nat
}.

(** The shell may do what it likes but to the sources. *)
Definition sh_keeps (sha src : list (string * node)) : Prop :=
  ∀ c t, project t sha src → project (fst (sh c t)) sha src.

Lemma make_keeps t sha src : project t sha src → project (act t (Make "build")) sha src.
Proof.
  intros [H1 H2 H3]. cbn [act]. change (resolve "build") with ["build"%string].
  destruct t as [m c|es]; [done|]. cbn [put_node default].
  split; [| |intros m c; specialize (H3 m c)]; cbn [lookup_node id] in *; rewrite find_entry_set; done.
Qed.

Lemma acts_keep acts t sha src :
  sh_keeps sha src → Forall (λ a, match a with Make d => d = "build"%string | Run _ => True end) acts →
  project t sha src → project (fold_left act acts t) sha src.
Proof.
  intros Hk. revert t. induction acts as [|a acts IH]; intros t Hf Hp; [done|].
  apply Forall_cons in Hf as [Ha Hf]. cbn [fold_left]. apply IH; [done|].
  destruct a as [c|d]; [by apply Hk|subst; by apply make_keeps].
Qed.

Lemma base_name_join dir x : no_slash x = true → base_name (dir +:+ String "/" x) = x.
Proof. intros Hx. unfold base_name. by rewrite strrchr_join. Qed.

Lemma matching_in dir pattern es p :
  p ∈ matching dir pattern es → ∃ x n, (x, n) ∈ es ∧ p = dir +:+ String "/" x.
Proof.
  unfold matching. intros Hp. apply list_elem_of_In, in_flat_map in Hp as ([x n] & Hin & Hp).
  apply list_elem_of_In in Hin. exists x, n. split; [done|].
  destruct n; [|done]. destruct (MatchPattern _ _); [|done]. by destruct Hp as [<-|[]].
Qed.

Lemma matching_length dir pattern es : (length (matching dir pattern es) ≤ length es)%nat.
Proof.
  induction es as [|[x n] es IH]; [done|]. unfold matching in *. cbn [flat_map length].
  rewrite length_app. destruct n; [destruct (MatchPattern _ _)|]; cbn [length]; lia.
Qed.

Lemma compilable_sources dir pattern es cflags :
  sources_ok es → strlen cflags ≤ 255 → (String.length dir ≤ 100)%nat →
  Forall (compilable "build" CC [cflags]) (matching dir pattern es).
Proof.
  intros [Hok Hnames _] Hc Hd. apply Forall_forall. intros p Hp.
  apply matching_in in Hp as (x & n & Hin & ->). pose proof (Hnames x n Hin) as Hx.
  pose proof (entry_below x n es Hin Hok) as [Hv _].
  assert (Hobj : (String.length (object_of "build" (dir +:+ String "/" x)) ≤ 511)%nat).
  { unfold object_of. rewrite base_name_join by (unfold valid_name in Hv; by split_bool).
    rewrite !length_sapp. cbn [String.length]. lia. }
  split; [exact Hobj|]. unfold fits, compile_args. cbn [app args_length].
  assert (Hp : strlen (dir +:+ String "/" x) ≤ 502) by (unfold strlen; rewrite length_sapp; cbn [String.length]; lia).
  assert (Ho : strlen (object_of "build" (dir +:+ String "/" x)) ≤ 511) by (unfold strlen; lia).
  change (strlen CC) with 5. change (strlen "") with 0. change (strlen "-c") with 2. change (strlen "-o") with 2. lia.
Qed.

(** One of the two compilations of the library. *)
Lemma compile_step dir es cflags s :
  works → live s → String.eqb dir "" = false → (String.length dir ≤ 100)%nat →
  lookup_node (resolve dir) (root s) = Some (DirNode es) → sources_ok es → strlen cflags ≤ 255 →
  (∀ m c, lookup_node ["build"%string] (root s) ≠ Some (FileNode m c)) →
  ∃ s', CompileFilesNULL (dir +:+ String "/" "*.c") "build" CC [Some cflags] s = Returns tt s' ∧
    did (made "build" (root s) ++ map Run (map (compile_command "build" CC [cflags]) (matching dir "*.c" es))) s s'.
Proof.
  intros Hw Hl Hne Hdl Hd Hes Hc Hb.
  change [Some cflags] with (map Some [cflags]). apply CompileFiles_did; try done.
  - destruct Hes as [Hok Hnames _]. split; [done|done|done|]. intros x n Hin. specialize (Hnames x n Hin). lia.
  - lia.
  - destruct Hes as [_ _ Hlen]. pose proof (matching_length dir "*.c" es). unfold MAX_FILES. lia.
  - by apply compilable_sources.
Qed.

Lemma commands_app a b : commands (a ++ b) = commands a ++ commands b.
Proof. unfold commands. by rewrite flat_map_app. Qed.

Lemma commands_run l : commands (map Run l) = l.
Proof. induction l as [|c l IH]; [done|]. unfold commands in *. cbn. by rewrite IH. Qed.

Lemma commands_made d t : commands (made d t) = [].
Proof. unfold made. by repeat case_match. Qed.

Lemma build_acts d l t :
  d = "build"%string → Forall (λ a, match a with Make d => d = "build"%string | Run _ => True end) (made d t ++ map Run l).
Proof.
  intros ->. apply Forall_app. split; [unfold made; repeat case_match; repeat constructor|].
  apply Forall_forall. intros a Ha. apply list_elem_of_In, in_map_iff in Ha as (c & <- & _). done.
Qed.

(** The commands of the static library. *)
Definition compile_commands (cflags : string) (sha src : list (string * node)) : list string :=
  map (compile_command "build" CC [cflags]) (matching "src/extern/sha256" "*.c" sha) ++
  map (compile_command "build" CC [cflags]) (matching "src" "*.c" src).
Definition archive_command : string := "ar rcs ./mlbtcc.a build/*.o".

(** What a rule keeps besides running its commands. *)
Record built (cmds : list string) (sha src : list (string * node)) (s s' : builder) : Prop := {
  built_live : live s';
  built_project : project (root s') sha src;
  built_executed : executed s' = executed s ++ cmds;
  built_rules : gRules s' = gRules s
}.

Lemma did_built acts sha src s s' :
  sh_keeps sha src → live s → project (root s) sha src → did acts s s' →
  Forall (λ a, match a with Make d => d = "build"%string | Run _ => True end) acts →
  built (commands acts) sha src s s'.
Proof.
  intros Hk Hl Hp Hd Hf. split; [by eapply did_live| |by destruct Hd|by destruct Hd].
  rewrite (did_root _ _ _ Hd). by apply acts_keep.
Qed.

Lemma built_trans a b sha src s1 s2 s3 :
  built a sha src s1 s2 → built b sha src s2 s3 → built (a ++ b) sha src s1 s3.
Proof. intros [] []. split; try done; [by rewrite built_executed1, built_executed0, app_assoc|congruence]. Qed.

Lemma compile_sources_built cflags sha src s :
  works → live s → project (root s) sha src → sources_ok sha → sources_ok src → sh_keeps sha src →
  strlen cflags ≤ 255 →
  ∃ s', compile_sources cflags s = Returns tt s' ∧ built (compile_commands cflags sha src) sha src s s'.
Proof.
  intros Hw Hl Hp Hsha Hsrc Hk Hc. unfold compile_sources.
  destruct (compile_step "src/extern/sha256" sha cflags s Hw Hl eq_refl ltac:(cbn; lia) (project_sha _ _ _ Hp)
    Hsha Hc (project_build _ _ _ Hp)) as (s1 & E1 & Hd1).
  pose proof (did_built _ sha src s s1 Hk Hl Hp Hd1 (build_acts _ _ _ eq_refl)) as Hb1.
  destruct (compile_step "src" src cflags s1 Hw (built_live _ _ _ _ _ Hb1) eq_refl ltac:(cbn; lia)
    (project_src _ _ _ (built_project _ _ _ _ _ Hb1)) Hsrc Hc
    (project_build _ _ _ (built_project _ _ _ _ _ Hb1))) as (s2 & E2 & Hd2).
  pose proof (did_built _ sha src s1 s2 Hk (built_live _ _ _ _ _ Hb1) (built_project _ _ _ _ _ Hb1) Hd2
    (build_acts _ _ _ eq_refl)) as Hb2.
  rewrite (CB_bind_ok _ _ _ _ _ E1). exists s2. split; [exact E2|].
  rewrite commands_app, commands_made, commands_run in Hb1, Hb2. exact (built_trans _ _ _ _ _ _ _ Hb1 Hb2).
Qed.

Lemma BuildStatic_built args tail sha src s :
  works → live s → project (root s) sha src → sources_ok sha → sources_ok src → sh_keeps sha src →
  ∃ s', BuildStatic (length args) (map Some args ++ tail) s = Returns tt s' ∧
    built (compile_commands (cflags_of args) sha src ++ [archive_command]) sha src s s'.
Proof.
  intros Hw Hl Hp Hsha Hsrc Hk. unfold BuildStatic. rewrite (CB_bind_ok _ _ _ _ _ (build_flags_ok args tail s)).
  destruct (compile_sources_built (cflags_of args) sha src s Hw Hl Hp Hsha Hsrc Hk (strlen_cflags args)) as (s1 & E1 & Hb1).
  rewrite (CB_bind_ok _ _ _ _ _ E1).
  destruct (create_step ["ar rcs"; STATIC_EXECNAME; "build/*.o"]%string s1 Hw) as (cmd & E2 & Hh); [by vm_compute|].
  rewrite (CB_bind_ok _ _ _ _ _ E2).
  destruct (execute_holds cmd _ s1 Hw (built_live _ _ _ _ _ Hb1) Hh) as (b & s2 & E3 & Hd).
  rewrite (CB_bind_ok _ _ _ _ _ E3). exists s2. split; [done|].
  refine (built_trans _ _ _ _ _ _ _ Hb1 (did_built _ sha src s1 s2 Hk (built_live _ _ _ _ _ Hb1) (built_project _ _ _ _ _ Hb1) Hd _)).
  by repeat constructor.
Qed.

End static.

Lemma FileExists_ok path n s :
  String.eqb path "" = false → lookup_node (resolve path) (root s) = Some n → CB_FileExists path s = Returns true s.
Proof.
  intros Hne Hn. unfold CB_FileExists. rewrite (CB_bind_ok _ _ _ _ _ (stat_ok path s _ Hne Hn)).
  by rewrite bool_decide_eq_true_2 by done.
Qed.

(** Where the library leveldb is found. *)
Definition leveldb_library : list string := ["src"; "extern"; "leveldb-1.22"; "build"; "libleveldb.a"]%string.

Lemma BuildLevelDB_built `{Machine} args tail lib s :
  lookup_node leveldb_library (root s) = Some lib → has args "force" = false →
  BuildLevelDB (length args) (map Some args ++ tail) s = Returns tt s.
Proof.
  intros Hlib Hforce. unfold BuildLevelDB, has_arg.
  rewrite (CB_bind_ok _ _ _ _ _ (FileExists_ok "src/extern/leveldb-1.22/build/libleveldb.a" lib s eq_refl Hlib)).
  cbn [negb]. by rewrite (CB_pure _ _ _ _ (HasArg_ok args tail "force")), Hforce.
Qed.

(** ** Properties *)

(** C11: the rule [build], with [static] or without arguments, when leveldb is built and
    neither [force] nor [no-obj] is asked for, compiles every regular file of
    src/extern/sha256 and then of src whose name ends in .c, in the order of the directories
    and with the flags the arguments choose, and puts the objects in the archive: these are
    the commands given to the shell, in this order, whether or not some of them fail. *)
Theorem BuildRule_static `{Machine} args tail sha src lib s :
  works → live s → project (root s) sha src → sources_ok sha → sources_ok src → sh_keeps sha src →
  lookup_node leveldb_library (root s) = Some lib →
  args = [] ∨ has args "static" = true → has args "force" = false → has args "no-obj" = false →
  ∃ s', BuildRule (length args) (map Some args ++ tail) s = Returns tt s' ∧
    executed s' = executed s ++ compile_commands (cflags_of args) sha src ++ [archive_command].
Proof.
  intros Hw Hl Hp Hsha Hsrc Hk Hlib Hargs Hforce Hobj.
  destruct (BuildStatic_built args tail sha src s Hw Hl Hp Hsha Hsrc Hk) as (s' & E & Hb).
  exists s'. split; [|by destruct Hb]. unfold BuildRule, has_arg.
  rewrite (CB_bind_ok _ _ _ _ _ (BuildLevelDB_built args tail lib s Hlib Hforce)).
  rewrite (CB_pure _ _ _ _ (HasArg_ok args tail "static")).
  assert (Hst : has args "static" || (length args =? 0)%nat = true) by (destruct Hargs as [->| ->]; done).
  rewrite Hst, (CB_bind_ok _ _ _ _ _ E), (CB_pure _ _ _ _ (HasArg_ok args tail "no-obj")), Hobj. done.
Qed.

(** The project of the samples, with leveldb built. *)
Definition sample_sha : list (string * node) := [("sha256.c", FileNode 1 "s"); ("sha256.h", FileNode 1 "h")]%string.
Definition sample_src : list (string * node) :=
  [("API.c", FileNode 1 "a"); ("notes.txt", FileNode 1 "n"); ("mlbtcc.c", FileNode 1 "m");
   ("extern", DirNode [("sha256", DirNode sample_sha);
      ("leveldb-1.22", DirNode [("build", DirNode [("libleveldb.a", FileNode 1 "l")])])])]%string.
Definition project_builder : builder :=
  Builder [] false default_logger (DirNode [("src", DirNode sample_src)]%string) [] [] 0.

Lemma sample_sources : sources_ok sample_sha ∧ sources_ok sample_src.
Proof.
  assert (Hlen : ∀ es, forallb (λ p, (String.length (fst p) <=? 400)%nat) es = true →
    ∀ x (n : node), (x, n) ∈ es → (String.length x ≤ 400)%nat).
  { intros es Hes x n Hin. apply list_elem_of_In in Hin. rewrite forallb_forall in Hes.
    apply Nat.leb_le, (Hes (x, n) Hin). }
  split; split; try (apply Hlen; by vm_compute); try (apply Nat.leb_le; by vm_compute);
    cbn; split_and!; try done; apply (bool_decide_unpack _); vm_compute; exact I.
Qed.

Lemma BuildRule_static_witness :
  ∃ s', @BuildRule sample_machine 2 [Some "static"; Some "release"; None]%string project_builder = Returns tt s' ∧
    executed s' =
      ["clang -std=c11 -Wall -Wextra -Werror -pedantic-errors -I src/include/ -O3 -march=native -mtune=native -flto -c src/extern/sha256/sha256.c -o build/sha256.c.o";
       "clang -std=c11 -Wall -Wextra -Werror -pedantic-errors -I src/include/ -O3 -march=native -mtune=native -flto -c src/API.c -o build/API.c.o";
       "clang -std=c11 -Wall -Wextra -Werror -pedantic-errors -I src/include/ -O3 -march=native -mtune=native -flto -c src/mlbtcc.c -o build/mlbtcc.c.o";
       "ar rcs ./mlbtcc.a build/*.o"]%string.
Proof.
  destruct sample_sources as [Hsha Hsrc].
  destruct (@BuildRule_static sample_machine ["static"; "release"]%string [None] sample_sha sample_src
    (FileNode 1 "l") project_builder) as (s' & E & He);
    [by split|split; [done|exact default_console]|by split|exact Hsha|exact Hsrc|by intros c t|done|by right|done|done|].
  exists s'. split; [exact E|]. rewrite He. vm_compute. reflexivity.
Defined.

(** The rule [build-tests] with [debug] is undefined once leveldb is built: the count of the arguments given to the
    rule [build] includes the NULL that ends them, and [HasArg] compares with it. *)
Theorem BuildTests_debug_undefined `{Machine} args tail lib s :
  has args "debug" = true →
  lookup_node leveldb_library (root s) = Some lib →
  BuildTests (length args) (map Some args ++ tail) s = Undefined NullPointer.
Proof.
  intros Hd Hlib. unfold BuildTests, has_arg. rewrite (CB_pure _ _ _ _ (HasArg_ok args tail "debug")), Hd.
  assert (Hl : BuildLevelDB 4 [Some "static"; Some "debug"; Some "no-obj"; None]%string s = Undefined NullPointer).
  { unfold BuildLevelDB. rewrite (CB_bind_ok _ _ _ _ _ (FileExists_ok "src/extern/leveldb-1.22/build/libleveldb.a" lib s eq_refl Hlib)). done. }
  unfold BuildRule, mbind, CB_bind. by rewrite Hl.
Qed.

Lemma BuildTests_debug_undefined_witness :
  @BuildTests sample_machine 1 [Some "debug"; None]%string project_builder = Undefined NullPointer.
Proof. exact (@BuildTests_debug_undefined sample_machine ["debug"]%string [None] (FileNode 1 "l") project_builder eq_refl eq_refl). Defined.
